(* ===== verification/_CoqProject ===== *)
-Q . S2P
Prelude.v
State.v
Utils.v
CString.v
Crc.v
Slab.v
Buddy.v
Alloc.v
Lists.v
Protocol.v
Acl.v
Wire.v
Memory.v
MemFile.v
KvModel.v
KvInv.v
KvOps.v
KvSweep.v
KvKeys.v
KvStart.v
KvSystem.v
Examples.v
KvProps.v
ServerModel.v
ServerRdma.v
ServerSafe.v
ServerSystem.v
ServerProps.v
ServerCm.v
Client.v
ClientProps.v
Sync.v
SyncProps.v
Policy.v
Cluster.v
ClusterProps.v
Backend.v
BackendProps.v
Threads.v
WorkQueue.v
WorkQueueProps.v
Connect.v
ConnectProps.v
ConnectSystem.v
Handshake.v
Start.v
StartProps.v
LocalFs.v
LocalFsSpec.v
LocalFsSafe.v
LocalFsContract.v
LocalFsProps.v
Redis.v
RedisProps.v
RedisSystem.v
RedisTier.v
CMem.v
Codec.v
CodecSpec.v
CodecMem.v
CodecCode.v
CodecJson.v
CodecProps.v
KvManage.v
KvManageProps.v
Info.v
InfoProps.v
InfoReport.v
InfoDrivers.v
Http.v
HttpProps.v
HttpManage.v
HttpInfo.v
HttpSystem.v
