(* ===== verification/Prelude.v ===== *)
(** * PrisKV: a verification development

    PrisKV is a key-value store for values that are moved by RDMA: the server
    keeps keys and values in one area of memory, clients send commands and the
    server reads values from and writes them to the clients' memory. This library
    models the C code under [src/] as executable Gallina functions and proves what
    makes it correct.

    ** The program and its model

    - [Utils], [CString], [Crc], [Lists]: [include/priskv-utils.h] (alignment, time,
      sizes with a unit), the string functions of the C library that are used,
      [server/crc.c] and [cluster/client/crc16.h], [include/list.h].
    - [Slab] ([server/slab.c]), [Buddy] ([server/buddy.c]): the allocators of key
      nodes and of values. [Alloc] is what the store relies on, a class of which
      they are the two instances.
    - [Memory], [MemFile] ([server/memory.h], [server/memory.c]): the layout of a
      node, and the memory of a store, anonymous or a file with a header.
    - [KvModel] ([server/kv.c]): hash buckets, LRU list, reference counts, SET, GET,
      DELETE, EXPIRE, KEYS, FLUSH and the expire routine. [KvInv] is the invariant,
      proved against [Alloc]; [KvOps] and [KvSweep] are the operations and the loops
      over all buckets; [KvKeys] is KEYS down to the client's decoding; [KvStart] is
      creation and recovery; [KvSystem] are sequences of operations; [KvProps] has
      the properties.
    - [Protocol], [Wire] ([include/priskv-protocol.h],
      [include/priskv-protocol-helper.h]): messages byte by byte, as the client fills
      them in and the server reads them.
    - [Acl] ([server/acl.c]): who may connect.
    - [ServerModel] ([server/rdma.c]): connections, negotiation, response slots,
      request handlers, transfers and their completions, and requests with a backend
      behind the store. [ServerRdma] shows which bytes a transfer moves,
      [ServerSafe] and [ServerSystem] that no event faults, [ServerProps] has runs.
      [ServerCm] has the messages that accept and reject a client, the events of a
      listener and the main loop. [Start] ([server/server.c], and the listeners of
      [server/rdma.c]) goes from the command line to a server that listens;
      [StartProps] shows that it arrives there.
    - [Backend] ([server/backend/backend.c]): chains of tiers and requests on them by
      callbacks; [BackendProps] proves them against the contract [drv] of a driver.
      [Policy] ([policy.c], [policy_lru.c]) is the LRU policy of a cache. [LocalFs]
      ([be_localfs.c]) is a driver: [LocalFsSpec] has the rules for its steps,
      [LocalFsSafe] runs with operations in flight, [LocalFsContract] that it meets
      [drv], [LocalFsProps] the properties. [Redis] ([be_redis.c]) is another: a pool
      of connections, worker threads and the threads of its devices, as steps that
      interleave; [RedisProps] has the runs and their invariant, [RedisSystem] that
      every step keeps it and that the threads come to rest, [RedisTier] what the
      answers say about the server.
    - [Client] ([client/rdma.c]): the life of a request on a connection, slots,
      completions, callbacks, KEYS; [ClientProps] its invariant and properties.
      [Sync] ([client/sync.c]) are the synchronous calls, [SyncProps] that they return
      what their request was answered.
      [Connect] (the same file) is how a connection comes about and what it holds:
      resolving, connecting, queue pair, buffers, closing, clients with one or more
      connections, registration of memory; [ConnectProps] says who owns which
      resource and has the rules for every function, [ConnectSystem] the properties.
      [Handshake] puts the two ends together.
    - [Cluster] ([cluster/client/client.c]): slots, nodes, metadata and its updates;
      [ClusterProps] its properties.
    - [Threads] ([lib/event.c], [lib/threads.c]): handlers of descriptors, pools of
      threads and how a connection finds its thread. [WorkQueue]
      ([lib/workqueue.c]) is a queue with its producers and its worker as steps
      between which other threads run; [WorkQueueProps] its invariant and liveness.
    - [CMem] is a memory of bytes in blocks. On it, [Codec] ([lib/codec.c]) turns
      JSON into C structs and back by tables of fields; [CodecJson] has the tables
      of [server/jsonobjs.c] and [cluster/client/jsonobjs.c]. [CodecSpec] is the
      specification on values, [CodecMem] and [CodecCode] relate the two,
      [CodecProps] has the properties.
    - [KvManage] ([server/kvmanage.c]): copying, moving and deleting keys of another
      node by callbacks of the client library; [KvManageProps] its invariant.
    - [Info] ([server/info.c]): the report of the server, one driver per subject, over
      the codec. [InfoProps] has what a driver promises ([drv_ok]), [InfoReport] the
      report of drivers that keep it, [InfoDrivers] that all five do.
    - [Http] ([server/http.c]): requests, routes, workflows and replies. [HttpProps],
      [HttpManage] and [HttpInfo] have the rules for its workflows, [HttpSystem]
      sequences of requests and of answers.

    [State] is the monad of the components that keep state, with the rules for runs
    that do not fault; this file has faults, machine integers and generic lemmas;
    [Examples] the small store of the witnesses.

    ** How code is modelled

    A function is a Gallina function of the same name. Integers are [Z] with their
    width written out ([u32], [s64], ...). Whatever C leaves undefined or aborts on
    is a [fault]: a failed assertion, an access outside of an object, a freed or null
    pointer, a node that is not linked, a lock the thread holds, and the end of the
    fuel of a loop. A theorem that a function returns [Ok] says that none of this
    happens. Memory is a map from addresses to objects, so that aliasing and use
    after free are visible; a callback is a value and its run an entry of a log.
    What is outside of [src/] - verbs, [malloc], the clock, system calls, regular
    expressions, the JSON library, the Redis server - is a parameter; theorems hold for every
    parameter, or name what they assume of it. The JSON library is the class [JsonC]
    with the laws [JsonLaws]; [tree_json] is the instance of the examples; a Redis
    server is an instance of the class [RedisServer], [exec1] that of the examples. In
    [Connect] every call of a library may fail, and what it acquires is a resource
    that is live until it is released, after all that is built on it. In [Client] the
    region of registered memory may be missing, and the key of a scatter list's
    element is read through it ([keyed_sgls]); in [Cluster] a request points to the
    key of its user, who may free it; in [LocalFs] a key is a path that is resolved to
    an entry of the directory ([entry_of]); in [MemFile] a file is mapped in whole
    pages. The buffers and the reply of an HTTP request, which the HTTP library keeps,
    are part of the state.

    Locks are not modelled where an operation is one step: the operations of a
    component interleave as wholes. Where a thread takes a lock it holds, in
    [LocalFs], the lock is part of the state. In [WorkQueue] a step is what runs
    between two operations on the lock, and steps of all threads interleave; in
    [Redis] a step is what runs with a lock held, or a command.

    ** Fuel and bounds

    Loops are structural where the code walks a list or an array. Otherwise: 33
    levels of a buddy tree, since it has at most [2^32] leaves; 130 rounds of
    eviction, since the code gives up after 128; 5 work requests per SGL, since a
    length is below [2^32] and a chunk is [2^30]; the length of the buffer for the
    entries of KEYS, which take at least a byte each; the length of an address plus
    one for the depth of a chain; the length of a key for hash tags; 20 digits for
    64-bit numbers; the requests that wait, plus one, for the loops over them; 4
    for a workflow of the HTTP interface, which can be entered again from the call
    it makes, where a delete runs the copy of the next key and a SET is refused at
    once; 2 for the body of a request, one round that takes all there is and the
    test that ends the loop. In every case the properties show that the fuel does not run
    out ([OutOfFuel] is a fault). What happens while a client waits to be connected is
    a list of wake-ups; when it ends, the wait times out.

    ** What is shown

    Every theorem on runs says which events it admits ([event_ok], [op_ok],
    [ok_event]), and its comment names the cases it leaves out with the lemma that has
    the run on which the code goes wrong there.

    - Allocators: allocation finds a block exactly if there is one, release gives
      back the block and merges; blocks never overlap ([Buddy], [Slab]).
    - Store: no operation of a sequence faults if the callers end what they began, and
      a SET before its node is gone; every operation on every branch does to the map of
      keys what it promises, and evicts no more than it has to; values of different keys
      of a store that was not recovered are disjoint; nothing leaks; a SET is read back; KEYS is decoded to the keys there
      are ([KvProps], [KvSystem]).
    - Messages: what is filled in is what is read ([Wire]).
    - Server: no event of a run faults, without a backend, for messages with commands of
      the protocol; a client is accepted, or rejected with the reason of the first check
      it fails; a transfer of a value that ends in the last element of the scatter list
      moves byte i to byte i ([ServerSystem], [ServerRdma]).
    - Start: an accepted command line with sensible sizes gives a store and limits for
      which the theorems on servers hold; the start succeeds exactly if an address was
      given and every call it makes succeeds, and then every address has a listener
      ([StartProps]).
    - Connections: an attempt to connect ends with a connection that is ready or with
      all it took given back, closing gives back all a connection holds
      ([ConnectSystem]); client and server then agree on the limits, and requests fit
      the buffers of the server ([Handshake]).
    - Client: no event faults, every request is called back once and holds one slot, for
      commands within the limits and while memory can be registered ([ClientProps]); synchronous calls return what their one callback was given, when
      it has run ([SyncProps]). Cluster client: keys go to the node of their slot, requests
      are called back once; updates, and keys the nodes refuse, misuse freed memory
      ([ClusterProps]).
    - Tiers: requests on a chain end and tell the truth about the tiers, for every
      driver that keeps the contract; the file driver keeps it when its writes are
      complete and keys are plain names ([BackendProps], [LocalFsProps]). In the Redis driver no step of any interleaving faults, every
      request is called back once, the threads come to rest with every request called
      back, and the answers keep the contract but for the two differences [RedisTier]
      names ([RedisSystem]); the LRU policy is a sequence by last use ([Policy]).
    - Memory files: what is created can be loaded, and a file that loads, with fewer
      than [2^32] blocks, holds the areas it promises ([MemFile]).
    - Access list: a client is let in exactly if a rule says so ([Acl]).
    - Work queues: work runs in the order in which it was queued, once, and every
      call that waits returns ([WorkQueueProps]).
    - JSON, while memory can be allocated: decoding and encoding implement their specification, what is decoded is
      well typed, structs are read back, and freeing releases all that was allocated
      ([CodecProps]).
    - Management: no event of a request on keys faults, a request is answered
      exactly once, and, undisturbed, every value is handed over ([KvManageProps]); the HTTP interface changes the access list as
      it is asked to, reports the state there is, and answers every request whose
      body arrives and whose keys are answered ([HttpInfo], [HttpSystem]).

    Files also end with runs, outside of the hypotheses of these theorems, on which
    the code does not do what it means to.

    ** What is not modelled

    The log, and the time stamps the server writes into a request for the log of slow
    queries (what that log reads of the request is modelled), the start of the HTTP server and of TLS, the splitting of the command
    line into options (a library's), the command line of [client/client.c], the tool
    [server/memfile.c], [uthash.h] (a third-party map), benchmarks, examples and
    tests. Of the Redis driver, what the error paths of creating the pool release.
    Of the server with a backend every handler is modelled; the theorems are about
    servers without one. *)

From stdpp Require Export prelude list gmap strings numbers fin_maps fin_sets.

#[global] Open Scope Z_scope.

(** ** Faults and the result monad

    C code can stop in ways that are not return values: a failed [assert]
    aborts the process, an access outside an object is undefined behaviour, a
    shift by at least the operand's width is undefined behaviour, and so on.
    Every such way is a [fault]; an operation whose C body can meet one returns
    [res]. A theorem that an operation returns [Ok] therefore says that none of
    its asserts fails and none of its accesses leaves its object. *)

Inductive fault :=
  | AssertFailed
  | OutOfBounds
  | BadShift
  | NotLinked
  | UseAfterFree
  | NullDeref
  | Deadlock
  | DivByZero
  | Uninitialised
  | OutOfFuel.

Inductive res (A : Type) :=
  | Ok (a : A)
  | Fault (f : fault).
Arguments Ok {A} a.
Arguments Fault {A} f.

Global Instance fault_eq_dec : EqDecision fault.
Proof. solve_decision. Defined.

Global Instance res_eq_dec {A} `{EqDecision A} : EqDecision (res A).
Proof. solve_decision. Defined.

Global Instance res_ret : MRet res := @Ok.
Global Instance res_bind : MBind res := λ A B f m,
  match m with Ok a => f a | Fault e => Fault e end.

(** [assert(b)] with assertions enabled. *)
Definition cassert (b : bool) : res unit :=
  if b then Ok tt else Fault AssertFailed.

(** Reads and writes of an array by a C index. *)
Definition rd {A} (l : list A) (i : Z) : res A :=
  if 0 <=? i
  then match l !! Z.to_nat i with Some x => Ok x | None => Fault OutOfBounds end
  else Fault OutOfBounds.

Definition wr {A} (l : list A) (i : Z) (x : A) : res (list A) :=
  if (0 <=? i) && (i <? Z.of_nat (length l))
  then Ok (<[Z.to_nat i := x]> l)
  else Fault OutOfBounds.

(** A loop over a list whose body can fault. *)
Fixpoint foldM {A B} (f : B → A → res B) (b : B) (l : list A) : res B :=
  match l with
  | [] => Ok b
  | x :: l => b ← f b x; foldM f b l
  end.

(** ** Machine integers *)

Definition u8 (z : Z) : Z := z mod 2 ^ 8.
Definition u16 (z : Z) : Z := z mod 2 ^ 16.
Definition u32 (z : Z) : Z := z mod 2 ^ 32.
Definition u64 (z : Z) : Z := z mod 2 ^ 64.

(** Conversion to [int] and [int64_t]: two's complement. *)
Definition s32 (z : Z) : Z :=
  let w := z mod 2 ^ 32 in if w <? 2 ^ 31 then w else w - 2 ^ 32.
Definition s64 (z : Z) : Z :=
  let w := z mod 2 ^ 64 in if w <? 2 ^ 63 then w else w - 2 ^ 64.

(** A [signed char] read from a byte. *)
Definition s8 (z : Z) : Z :=
  let w := z mod 2 ^ 8 in if w <? 2 ^ 7 then w else w - 2 ^ 8.

(** Buffers are lists of byte values. *)
Definition bytes (l : list Z) : Prop := Forall (λ b, 0 <= b < 2 ^ 8) l.

Declare Scope c_scope.
Delimit Scope c_scope with C.
Notation "'assert!' b ;; k" := (cassert b ≫= λ _ : unit, k)
  (at level 100, b at next level, k at level 200, right associativity) : c_scope.
#[global] Open Scope c_scope.

(** A C string in a list of bytes: up to the first zero. *)
Fixpoint until_nul (s : list Z) : list Z :=
  match s with [] => [] | c :: s => if c =? 0 then [] else c :: until_nul s end.

(** ** Generic lemmas *)

Lemma bind_Ok {A B} (m : res A) (f : A → res B) b :
  (m ≫= f) = Ok b ↔ ∃ a, m = Ok a ∧ f a = Ok b.
Proof. destruct m; simpl; naive_solver. Qed.

Lemma Ok_bind {A B} (a : A) (f : A → res B) : (Ok a ≫= f) = f a.
Proof. done. Qed.

Lemma foldM_app {A B} (f : B → A → res B) b l1 l2 :
  foldM f b (l1 ++ l2) = foldM f b l1 ≫= λ b, foldM f b l2.
Proof.
  revert b. induction l1 as [|x l1 IH]; intros b; simpl; [done|].
  destruct (f b x); simpl; [apply IH|done].
Qed.

Lemma foldM_concat {A B} (f : B → A → res B) b ls :
  foldM (λ b l, foldM f b l) b ls = foldM f b (concat ls).
Proof.
  revert b. induction ls as [|l ls IH]; intros b; simpl; [done|].
  rewrite foldM_app. destruct (foldM f b l); simpl; [apply IH|done].
Qed.

(** The loop rule: an invariant indexed by the elements still to visit. *)
Lemma foldM_inv {A B} (f : B → A → res B) (P : B → list A → Prop) l b :
  (∀ b x l, P b (x :: l) → ∃ b', f b x = Ok b' ∧ P b' l) →
  P b l → ∃ b', foldM f b l = Ok b' ∧ P b' [].
Proof.
  intros Hf. revert b. induction l as [|x l IH]; intros b HP; simpl; [by exists b|].
  destruct (Hf b x l HP) as (b' & -> & HP'). by apply IH.
Qed.

Lemma cassert_true b : b = true → cassert b = Ok tt.
Proof. by intros ->. Qed.

Lemma rd_Ok {A} (l : list A) i x :
  rd l i = Ok x ↔ 0 <= i ∧ l !! Z.to_nat i = Some x.
Proof.
  unfold rd. destruct (Z.leb_spec 0 i); [|split; [done|lia]].
  destruct (l !! Z.to_nat i); naive_solver.
Qed.

Lemma rd_in_range {A} (l : list A) i :
  0 <= i < Z.of_nat (length l) → ∃ x, rd l i = Ok x.
Proof.
  intros Hi. destruct (lookup_lt_is_Some_2 l (Z.to_nat i)) as [x Hx]; [lia|].
  exists x. apply rd_Ok. split; [lia|done].
Qed.

Lemma wr_Ok {A} (l : list A) i x :
  0 <= i < Z.of_nat (length l) → wr l i x = Ok (<[Z.to_nat i := x]> l).
Proof.
  intros [H1 H2]. unfold wr.
  apply Z.leb_le in H1 as ->. by apply Z.ltb_lt in H2 as ->.
Qed.

Lemma rd_wr_eq {A} (l : list A) i x :
  0 <= i < Z.of_nat (length l) → rd (<[Z.to_nat i := x]> l) i = Ok x.
Proof.
  intros Hi. apply rd_Ok. split; [lia|]. apply list_lookup_insert_eq. lia.
Qed.

Lemma rd_wr_ne {A} (l : list A) i j x :
  0 <= i → i ≠ j → rd (<[Z.to_nat i := x]> l) j = rd l j.
Proof.
  intros Hi Hij. unfold rd. destruct (Z.leb_spec 0 j); [|done].
  rewrite list_lookup_insert_ne; [done|lia].
Qed.

Lemma u32_small z : 0 <= z < 2 ^ 32 → u32 z = z.
Proof. apply Z.mod_small. Qed.

Lemma u64_small z : 0 <= z < 2 ^ 64 → u64 z = z.
Proof. apply Z.mod_small. Qed.

Lemma s64_small z : - 2 ^ 63 <= z < 2 ^ 63 → s64 z = z.
Proof.
  intros Hz. unfold s64. destruct (Z.ltb_spec (z mod 2 ^ 64) (2 ^ 63)) as [Hlt|Hge]; destruct (Z.le_gt_cases 0 z).
  - by rewrite Z.mod_small by lia.
  - rewrite <- (Z.mod_unique_pos z (2 ^ 64) (-1) (z + 2 ^ 64)) in Hlt by lia. lia.
  - rewrite Z.mod_small in Hge by lia. lia.
  - rewrite <- (Z.mod_unique_pos z (2 ^ 64) (-1) (z + 2 ^ 64)) by lia. lia.
Qed.
Lemma u32_range z : 0 <= u32 z < 2 ^ 32.
Proof. apply Z.mod_pos_bound. lia. Qed.

Lemma s32_small z : 0 <= z < 2 ^ 31 → s32 z = z.
Proof.
  intros H. unfold s32. rewrite Z.mod_small by lia.
  destruct (Z.ltb_spec z (2 ^ 31)); lia.
Qed.

(** Low bits of a two's complement conversion are the value's low bits. *)
Lemma wrap_testbit z n i : 0 <= i < n → Z.testbit (z mod 2 ^ n - 2 ^ n) i = Z.testbit z i.
Proof.
  intros Hi. rewrite <- (Z.mod_pow2_bits_low z n) by lia.
  rewrite <- (Z.mod_pow2_bits_low (_ - _) n) by lia.
  rewrite <- (Z.mod_pow2_bits_low (z mod 2 ^ n) n) by lia.
  f_equal. rewrite <- (Z.mod_add (_ - _) 1) by lia. f_equal. lia.
Qed.

Lemma s32_testbit z i : 0 <= i < 32 → Z.testbit (s32 z) i = Z.testbit z i.
Proof.
  intros Hi. unfold s32. destruct (_ <? _).
  - apply Z.mod_pow2_bits_low. lia.
  - by apply wrap_testbit.
Qed.

Lemma s8_testbit z i : 0 <= i < 8 → Z.testbit (s8 z) i = Z.testbit z i.
Proof.
  intros Hi. unfold s8. destruct (_ <? _).
  - apply Z.mod_pow2_bits_low. lia.
  - by apply wrap_testbit.
Qed.

(** Extensionality of integers by their bits, the workhorse of the bit-level
    proofs. *)
Ltac bitwise i Hi := apply Z.bits_inj'; intros i Hi.

Create Rewrite HintDb bits.
#[export] Hint Rewrite Z.lxor_spec Z.land_spec Z.lor_spec : bits.

Lemma testbit_above z n i : 0 <= z < 2 ^ n → n <= i → Z.testbit z i = false.
Proof.
  intros Hz Hi. destruct (decide (n < 0)).
  { rewrite Z.pow_neg_r in Hz by lia. lia. }
  rewrite <- (Z.mod_small z (2 ^ n)) by done. apply Z.mod_pow2_bits_high. lia.
Qed.

Lemma lxor_range a b n : 0 <= n → 0 <= a < 2 ^ n → 0 <= b < 2 ^ n → 0 <= Z.lxor a b < 2 ^ n.
Proof.
  intros Hn Ha Hb.
  assert (Z.lxor a b = Z.lxor a b mod 2 ^ n) as ->; [|apply Z.mod_pos_bound; lia].
  bitwise i Hi. destruct (decide (i < n)).
  - by rewrite Z.mod_pow2_bits_low by lia.
  - rewrite Z.mod_pow2_bits_high by lia. rewrite Z.lxor_spec.
    by rewrite !(testbit_above _ n) by lia.
Qed.

(** [lia] with division and remainder by constants. *)
Ltac dlia := Z.to_euclidean_division_equations; lia.
