(* ===== verification/State.v ===== *)
(** * State and faults

    A handler reads and writes the state of its component and can fault:
    [ST S A]. The components that keep state (server, client, cluster client,
    file driver) are written in this monad, and what a run of theirs does is
    stated with [safe]: it does not fault, and its result and the state after it
    are as said. *)

From S2P Require Import Prelude.

Definition ST (S A : Type) : Type := S → res (A * S).
Global Instance ST_ret S : MRet (ST S) := λ A a s, Ok (a, s).
Global Instance ST_bind S : MBind (ST S) := λ A B f m s,
  match m s with Ok (a, s) => f a s | Fault e => Fault e end.

Definition lift {S A} (r : res A) : ST S A := λ s, match r with Ok a => Ok (a, s) | Fault e => Fault e end.
Definition get {S} : ST S S := λ s, Ok (s, s).
Definition modify {S} (f : S → S) : ST S unit := λ s, Ok (tt, f s).

(** The state after a run that does not fault, for examples. *)
Definition state_after {S A} (r : res (A * S)) (d : S) : S := match r with Ok (_, s) => s | Fault _ => d end.

(** ** Runs that do not fault *)

Section safe.
Context {S : Type}.

Definition safe {A} (m : ST S A) (s : S) (Q : A → S → Prop) : Prop :=
  ∃ a s', m s = Ok (a, s') ∧ Q a s'.

Lemma safe_bind {A B} (m : ST S A) (f : A → ST S B) s Q :
  safe m s (λ a s', safe (f a) s' Q) → safe (mbind f m) s Q.
Proof. intros (a & s' & Hm & Hf). unfold safe, mbind, ST_bind. rewrite Hm. exact Hf. Qed.

Lemma bind_run {A B} (m : ST S A) (f : A → ST S B) s a s' : m s = Ok (a, s') → mbind f m s = f a s'.
Proof. intros Hm. unfold mbind, ST_bind. by rewrite Hm. Qed.

Lemma safe_ret {A} (a : A) s (Q : A → S → Prop) : Q a s → safe (mret a) s Q.
Proof. intros HQ. by exists a, s. Qed.

Lemma safe_mono {A} (m : ST S A) s (Q Q' : A → S → Prop) :
  safe m s Q → (∀ a s', Q a s' → Q' a s') → safe m s Q'.
Proof. intros (a & s' & Hm & HQ) Himp. exists a, s'. auto. Qed.

Lemma safe_lift {A} (r : res A) a s (Q : A → S → Prop) : r = Ok a → Q a s → safe (lift r) s Q.
Proof. intros -> HQ. by exists a, s. Qed.

Lemma safe_get s (Q : S → S → Prop) : Q s s → safe get s Q.
Proof. intros HQ. by exists s, s. Qed.

Lemma safe_modify f s (Q : unit → S → Prop) : Q tt (f s) → safe (modify f) s Q.
Proof. intros HQ. by exists tt, (f s). Qed.
End safe.

(** Monadic steps: bind, then the rule for the head. *)
Ltac step := apply safe_bind.
Ltac step_lift H := apply safe_bind; apply (safe_lift _ _ _ _ H).

(** ** Logs *)

(** An event that happens at most once in a log. *)
Lemma omap_once {A} (f : A → option Z) (a : Z) (log : list A) :
  NoDup (omap f log) → length (filter (λ c, f c = Some a) log) = if decide (a ∈ omap f log) then 1%nat else 0%nat.
Proof.
  induction log as [|c log IH]; intros Hnd; [done|]. simpl in *. destruct (f c) as [b|] eqn:Hc.
  - apply NoDup_cons in Hnd as [Hb Hnd]. specialize (IH Hnd). destruct (decide (b = a)) as [->|Hne].
    + rewrite filter_cons_True by done. simpl. rewrite IH, decide_False by done. by rewrite decide_True by left.
    + rewrite filter_cons_False by congruence. rewrite IH. destruct (decide (a ∈ omap f log)).
      * by rewrite decide_True by (by right).
      * rewrite decide_False; [done|]. apply not_elem_of_cons. done.
  - rewrite filter_cons_False by congruence. by apply IH.
Qed.
