(* ===== verification/Utils.v ===== *)
(** * Shared helpers

    [include/priskv-utils.h]: the alignment and power-of-two macros, the
    minimum functions and the [struct timeval] arithmetic that decides when a
    key has expired. *)

From S2P Require Import Prelude.

(** ** Alignment *)

(** [ALIGN_UP(x, ALIGNMENT)], evaluated in a [w]-bit unsigned type. *)
Definition ALIGN_UP (w x alignment : Z) : Z :=
  Z.land ((x + (alignment - 1)) mod 2 ^ w) (Z.lnot (alignment - 1)).

(** [IS_POWER_OF_2(x)]. *)
Definition IS_POWER_OF_2 (x : Z) : bool := Z.land x (x - 1) =? 0.

Definition priskv_min_u16 (a b : Z) : Z := if a <? b then a else b.
Definition priskv_min_u32 (a b : Z) : Z := if a <? b then a else b.

(** ** Time *)

Record timeval := TimeVal { tv_sec : Z; tv_usec : Z }.

Global Instance timeval_eq_dec : EqDecision timeval.
Proof. solve_decision. Defined.

(** A [struct timeval] as [gettimeofday] fills it. *)
Definition timeval_ok (t : timeval) : Prop :=
  0 <= tv_sec t < 2 ^ 40 ∧ 0 <= tv_usec t < 1000000.

(** The arithmetic of [long]: 64 bits, wrapping around. *)
Definition priskv_time_elapsed_us (start stop : timeval) : Z :=
  s64 (s64 ((tv_sec stop - tv_sec start) * 1000000) + (tv_usec stop - tv_usec start)).

(** The division of C truncates towards zero. *)
Definition priskv_time_elapsed_ms (start stop : timeval) : Z :=
  s64 (s64 ((tv_sec stop - tv_sec start) * 1000) + Z.quot (tv_usec stop - tv_usec start) 1000).

Definition priskv_time_add_ms (t : timeval) (milliseconds : Z) : timeval :=
  let usec := tv_usec t + (milliseconds mod 1000) * 1000 in
  {| tv_sec := tv_sec t + (milliseconds / 1000 + usec / 1000000);
     tv_usec := usec mod 1000000 |}.

(** Microseconds since the epoch. *)
Definition micros (t : timeval) : Z := tv_sec t * 1000000 + tv_usec t.

(** ** Lemmas *)

Lemma land_lnot_pred_pow2 x k :
  0 <= k → 0 <= x → Z.land x (Z.lnot (2 ^ k - 1)) = x / 2 ^ k * 2 ^ k.
Proof.
  intros Hk Hx. replace (2 ^ k - 1) with (Z.ones k) by (rewrite Z.ones_equiv; lia).
  rewrite <- Z.ldiff_land, Z.ldiff_ones_r by lia.
  rewrite Z.shiftr_div_pow2, Z.shiftl_mul_pow2 by lia. done.
Qed.

Lemma ALIGN_UP_pow2 w x k :
  0 <= k → 0 <= x → x + 2 ^ k - 1 < 2 ^ w →
  ALIGN_UP w x (2 ^ k) = (x + 2 ^ k - 1) / 2 ^ k * 2 ^ k.
Proof.
  intros Hk Hx Hw. assert (0 < 2 ^ k) by lia. unfold ALIGN_UP.
  rewrite Z.mod_small by lia. rewrite land_lnot_pred_pow2 by lia. do 3 f_equal. lia.
Qed.

(** The aligned value is the least multiple of the alignment above [x]. *)
Lemma ALIGN_UP_bounds w x k :
  0 <= k → 0 <= x → x + 2 ^ k - 1 < 2 ^ w →
  x <= ALIGN_UP w x (2 ^ k) < x + 2 ^ k ∧ ALIGN_UP w x (2 ^ k) mod 2 ^ k = 0.
Proof.
  intros Hk Hx Hw. assert (0 < 2 ^ k) by lia. rewrite ALIGN_UP_pow2 by done.
  rewrite Z.mod_mul by lia. split; [|done].
  pose proof (Z.div_mod (x + 2 ^ k - 1) (2 ^ k)) as Hd.
  pose proof (Z.mod_pos_bound (x + 2 ^ k - 1) (2 ^ k)). lia.
Qed.

Lemma IS_POWER_OF_2_pow k : 0 <= k → IS_POWER_OF_2 (2 ^ k) = true.
Proof.
  intros Hk. apply Z.eqb_eq.
  replace (2 ^ k - 1) with (Z.ones k) by (rewrite Z.ones_equiv; lia).
  rewrite Z.land_ones by lia. apply Z.mod_same. lia.
Qed.

Lemma IS_POWER_OF_2_inv x :
  0 < x → IS_POWER_OF_2 x = true → x = 2 ^ Z.log2 x.
Proof.
  intros Hx H. apply Z.eqb_eq in H. pose proof (Z.log2_spec x Hx) as [Hlo Hhi].
  destruct (decide (x = 2 ^ Z.log2 x)) as [|Hne]; [done|exfalso].
  pose proof (Z.log2_nonneg x).
  assert (Z.log2 (x - 1) = Z.log2 x) as Hl.
  { apply Z.log2_unique; lia. }
  assert (Z.testbit (Z.land x (x - 1)) (Z.log2 x) = true) as Hb.
  { rewrite Z.land_spec, Z.bit_log2 by done. rewrite <- Hl, Z.bit_log2; [done|].
    destruct (decide (x = 1)) as [->|]; [done|lia]. }
  rewrite H, Z.bits_0 in Hb. done.
Qed.

(** Adding milliseconds is exact and keeps the microseconds normalised. *)
Lemma time_add_ms_exact t ms :
  0 <= tv_usec t < 1000000 → 0 <= ms →
  micros (priskv_time_add_ms t ms) = micros t + ms * 1000 ∧
  0 <= tv_usec (priskv_time_add_ms t ms) < 1000000.
Proof. intros Ht Hms. unfold micros, priskv_time_add_ms. simpl. dlia. Qed.

Lemma s64_id z : - 2 ^ 63 <= z < 2 ^ 63 → s64 z = z.
Proof.
  intros Hz. unfold s64. destruct (decide (0 <= z)).
  - rewrite Z.mod_small by lia. destruct (Z.ltb_spec z (2 ^ 63)); lia.
  - rewrite <- (Z.mod_add z 1) by lia. rewrite Z.mod_small by lia.
    destruct (Z.ltb_spec (z + 1 * 2 ^ 64) (2 ^ 63)); lia.
Qed.

(** Between two times the clock can show, the elapsed milliseconds are positive
    only if time has passed, and always once a full millisecond has. *)
Lemma elapsed_ms_spec t1 t2 :
  0 <= tv_sec t1 < 2 ^ 53 → 0 <= tv_sec t2 < 2 ^ 53 →
  0 <= tv_usec t1 < 1000000 → 0 <= tv_usec t2 < 1000000 →
  (0 < priskv_time_elapsed_ms t1 t2 → micros t1 < micros t2) ∧
  (micros t1 + 1000 <= micros t2 → 0 < priskv_time_elapsed_ms t1 t2).
Proof.
  intros Hs1 Hs2 Hu1 Hu2. unfold priskv_time_elapsed_ms, micros.
  assert (-1000 < Z.quot (tv_usec t2 - tv_usec t1) 1000 < 1000) as Hq by dlia.
  rewrite (s64_id (_ * _)) by lia. rewrite s64_id by lia. dlia.
Qed.
