(* ===== verification/CString.v ===== *)
(** * C strings

    The functions of the C library on strings that the program uses, and the
    reading of sizes with a unit ([priskv_str2num] of [include/priskv-utils.h]).
    A string is the list of its bytes before the terminating zero. *)

From S2P Require Import Prelude.

(** ** Searching and copying *)

(** [strchr]: the offset of the first [c]. *)
Fixpoint strchr (s : list Z) (c : Z) : option nat :=
  match s with
  | [] => None
  | x :: s => if x =? c then Some O else S <$> strchr s c
  end.

(** [strndup(s, n)] with [n] a [size_t]. *)
Definition strndup (s : list Z) (n : Z) : list Z := take (Z.to_nat (u64 n)) s.

(** [strstr]: the rest of [s] from the first occurrence of [t] on. *)
Fixpoint strstr (s t : list Z) : option (list Z) :=
  if decide (t `prefix_of` s) then Some s
  else match s with [] => None | _ :: s => strstr s t end.

(** [tolower] in the C locale. *)
Definition tolower (c : Z) : Z := if (65 <=? c) && (c <=? 90) then c + 32 else c.

(** [!strcasecmp(s, t)]. *)
Definition same_nocase (s t : list Z) : bool := bool_decide (tolower <$> s = tolower <$> t).

(** ** Numbers *)

Definition isspace (c : Z) : bool := (c =? 32) || ((9 <=? c) && (c <=? 13)).
Definition isdigit (c : Z) : bool := (48 <=? c) && (c <=? 57).

Fixpoint skip_spaces (s : list Z) : list Z :=
  match s with c :: s' => if isspace c then skip_spaces s' else s | [] => [] end.

(** The digits at the start of a string as a number, whether there are any, and
    what follows them. *)
Fixpoint digits (s : list Z) (n : Z) : Z * list Z :=
  match s with
  | c :: s' => if isdigit c then digits s' (10 * n + (c - 48)) else (n, s)
  | [] => (n, [])
  end.

Definition LLONG_MAX : Z := 2 ^ 63 - 1.
Definition LLONG_MIN : Z := - 2 ^ 63.

(** [strtoll(s, &end, 10)]: the number, saturated; whether it was out of range;
    [end]. Without a digit it is 0 and [end] is [s]. *)
Definition strtoll (s : list Z) : Z * bool * list Z :=
  let s1 := skip_spaces s in
  let '(neg, s2) := match s1 with
                    | c :: s' => if c =? 45 then (true, s') else if c =? 43 then (false, s') else (false, s1)
                    | [] => (false, [])
                    end in
  match s2 with
  | c :: _ =>
      if isdigit c then
        let '(n, rest) := digits s2 0 in
        let v := if neg : bool then - n else n in
        if LLONG_MAX <? v then (LLONG_MAX, true, rest)
        else if v <? LLONG_MIN then (LLONG_MIN, true, rest)
        else (v, false, rest)
      else (0, false, s)
  | [] => (0, false, s)
  end.

(** [atoi] is [strtol], which has 64 bits, converted to [int]. *)
Definition atoi (s : list Z) : Z := s32 (strtoll s).1.1.

(** ** Sizes with a unit *)

Definition ERANGE : Z := 34.

(** [p], [pb] or [pib]. *)
Definition is_unit (u : Z) (c : list Z) : bool :=
  bool_decide (c = [u]) || bool_decide (c = [u; 98]) || bool_decide (c = [u; 105; 98]).

(** The factor of a unit; [None] is the return value -1. *)
Definition __priskv_get_mult_bytes (p : list Z) : option Z :=
  match p with
  | [] => Some 1
  | _ =>
      let c := tolower <$> filter (λ x, x ≠ 32) p in
      if is_unit 112 c then Some (1024 ^ 5)
      else if is_unit 116 c then Some (1024 ^ 4)
      else if is_unit 103 c then Some (1024 ^ 3)
      else if is_unit 109 c then Some (1024 ^ 2)
      else if is_unit 107 c then Some (1024 ^ 1)
      else None
  end.

(** [errno] is read after [strtoll], which sets it only on overflow. The result
    is the number, and [errno] afterwards; [None] is -1. *)
Definition priskv_str2num (errno : Z) (str : list Z) : option Z * Z :=
  let '(v, range, unit) := strtoll str in
  let errno := if range : bool then ERANGE else errno in
  if (v =? 0) && bool_decide (unit = str) then (None, errno)
  else if errno =? ERANGE then (None, errno)
  else match __priskv_get_mult_bytes unit with
       | None => (None, errno)
       | Some mult => (Some (s64 (v * mult)), errno)
       end.

(** ** Lemmas *)

Lemma strchr_spec s c n :
  strchr s c = Some n ↔ c ∉ take n s ∧ s !! n = Some c.
Proof.
  revert n. induction s as [|x s IH]; intros n; simpl; [by split; [|intros [_ ?]]|].
  destruct (Z.eqb_spec x c) as [->|Hx].
  - split; [intros [= <-]; split; [set_solver|done]|]. intros [Hn Hs]. destruct n; [done|]. simpl in Hn. set_solver.
  - rewrite fmap_Some. split.
    + intros (m & Hm & ->). apply IH in Hm as [Hm Hs]. simpl. split; [set_solver|done].
    + destruct n as [|n]; simpl; [by intros [_ [= ->]]|]. intros [Hn Hs]. exists n. split; [|done].
      apply IH. split; [set_solver|done].
Qed.

Lemma strchr_None s c : strchr s c = None ↔ c ∉ s.
Proof.
  induction s as [|x s IH]; simpl; [set_solver|]. destruct (Z.eqb_spec x c) as [->|Hx]; [set_solver|].
  rewrite fmap_None, IH. set_solver.
Qed.

Lemma strchr_app s1 s2 c : c ∉ s1 → strchr (s1 ++ c :: s2) c = Some (length s1).
Proof.
  intros Hc. apply strchr_spec. split; [by rewrite take_app_length|].
  by rewrite lookup_app_r, Nat.sub_diag by lia.
Qed.

(** ** Printing a number *)

Fixpoint print_digits (fuel : nat) (n : Z) : list Z :=
  match fuel with
  | O => []
  | S fuel => (if n <? 10 then [] else print_digits fuel (n / 10)) ++ [48 + n mod 10]
  end.

(** Decimal, without leading zeros; 20 digits are enough for 64 bits. *)
Definition print_dec (n : Z) : list Z := print_digits 20 n.

(** The units with their factors, as a user writes them. *)
Inductive unit_factor : list Z → Z → Prop :=
  | uf_none : unit_factor [] 1
  | uf_k : unit_factor [107] 1024
  | uf_MB : unit_factor [77; 66] (1024 ^ 2)
  | uf_GB : unit_factor [71; 66] (1024 ^ 3)
  | uf_TiB : unit_factor [84; 105; 66] (1024 ^ 4)
  | uf_PiB : unit_factor [32; 80; 105; 66] (1024 ^ 5).

Lemma digits_stop s n : match s with c :: _ => isdigit c = false | [] => True end → digits s n = (n, s).
Proof. destruct s as [|c s]; simpl; [done|]. by intros ->. Qed.

Lemma digits_app l s n v :
  Forall (λ c, isdigit c = true) l → digits l n = (v, []) → digits (l ++ s) n = digits s v.
Proof.
  revert n. induction l as [|c l IH]; intros n Hl; simpl; [by intros [= ->]|].
  apply Forall_cons in Hl as [-> Hl]. by apply IH.
Qed.

Lemma digit_char d : 0 <= d < 10 → isdigit (48 + d) = true.
Proof. intros Hd. unfold isdigit. apply andb_true_iff. rewrite !Z.leb_le. lia. Qed.

Lemma print_digits_spec fuel n :
  0 <= n < 10 ^ Z.of_nat fuel → (0 < fuel)%nat →
  Forall (λ c, isdigit c = true) (print_digits fuel n) ∧ digits (print_digits fuel n) 0 = (n, []).
Proof.
  revert n. induction fuel as [|fuel IH]; intros n Hn Hf; [lia|]. simpl.
  assert (isdigit (48 + n mod 10) = true) as Hd by (apply digit_char, Z.mod_pos_bound; lia).
  assert (∀ m, 10 * m + (n mod 10) = n → digits [48 + n mod 10] m = (n, [])) as Hlast.
  { intros m Hm. simpl. rewrite Hd. f_equal. lia. }
  destruct (Z.ltb_spec n 10).
  - simpl app. split; [by constructor|]. apply Hlast. dlia.
  - destruct fuel as [|fuel]; [change (10 ^ Z.of_nat 1) with 10 in Hn; lia|].
    rewrite Nat2Z.inj_succ, Z.pow_succ_r in Hn by lia.
    destruct (IH (n / 10)) as [Hall Hval]; [split; [dlia|apply Z.div_lt_upper_bound; lia]|lia|].
    split; [apply Forall_app; split; [done|by constructor]|].
    rewrite (digits_app _ _ _ (n / 10)) by done. apply Hlast. dlia.
Qed.

Lemma print_digits_head fuel n : (0 < fuel)%nat → ∃ c l, print_digits fuel n = c :: l.
Proof. destruct fuel as [|fuel]; [lia|]. simpl. destruct (n <? 10); [eauto|]. destruct (print_digits fuel _); simpl; eauto. Qed.

Lemma digit_not_space c : isdigit c = true → isspace c = false ∧ (c =? 45) = false ∧ (c =? 43) = false.
Proof.
  unfold isdigit, isspace. rewrite andb_true_iff, !Z.leb_le, orb_false_iff, andb_false_iff, !Z.eqb_neq, !Z.leb_gt. lia.
Qed.

(** Reading back a printed number that is followed by something else. *)
Lemma strtoll_print n s :
  0 <= n < 2 ^ 63 → match s with c :: _ => isdigit c = false | [] => True end →
  strtoll (print_dec n ++ s) = (n, false, s).
Proof.
  intros Hn Hs. unfold strtoll, print_dec.
  destruct (print_digits_spec 20 n) as [Hall Hval]; [change (10 ^ Z.of_nat 20) with 100000000000000000000; lia|lia|].
  pose proof (digits_app _ s 0 n Hall Hval) as Hd. rewrite (digits_stop s n Hs) in Hd.
  destruct (print_digits_head 20 n) as (c & l & Hp); [lia|]. rewrite Hp in Hall, Hd |- *.
  apply Forall_cons in Hall as [Hc _]. destruct (digit_not_space c Hc) as (H1 & H2 & H3).
  simpl app in *. simpl skip_spaces. rewrite H1, H2, H3, Hc, Hd. simpl.
  unfold LLONG_MAX, LLONG_MIN.
  by rewrite (proj2 (Z.ltb_ge _ _)), (proj2 (Z.ltb_ge n _)) by lia.
Qed.

Lemma unit_factor_mult u f : unit_factor u f →
  __priskv_get_mult_bytes u = Some f ∧ match u with c :: _ => isdigit c = false | [] => True end ∧ 0 < f.
Proof. by destruct 1. Qed.

(** Reading a size: the decimal number and the unit that were printed are
    read as their product, when it fits in 63 bits and no earlier call has left
    [ERANGE] in [errno]. *)
Theorem str2num_roundtrip n u f errno :
  0 <= n → unit_factor u f → n * f < 2 ^ 63 → errno ≠ ERANGE →
  priskv_str2num errno (print_dec n ++ u) = (Some (n * f), errno).
Proof.
  intros Hn Hu Hf He. destruct (unit_factor_mult u f Hu) as (Hm & Hs & Hpos).
  unfold priskv_str2num. rewrite strtoll_print by (done || nia).
  rewrite (bool_decide_eq_false_2 (u = _)), andb_false_r.
  2:{ intros Heq. apply (f_equal length) in Heq. rewrite length_app in Heq. unfold print_dec in Heq.
      destruct (print_digits_head 20 n) as (c & l & Hp); [lia|]. rewrite Hp in Heq. simpl in Heq. lia. }
  rewrite (proj2 (Z.eqb_neq _ _)) by done. rewrite Hm. unfold s64. rewrite Z.mod_small by nia.
  by rewrite (proj2 (Z.ltb_lt _ _)) by lia.
Qed.

Lemma str2num_roundtrip_witness :
  priskv_str2num 0 (print_dec 4 ++ [71; 66]) = (Some (4 * 1024 ^ 3), 0).
Proof. apply (str2num_roundtrip 4 [71; 66] (1024 ^ 3) 0); [lia|constructor|lia|done]. Defined.

(** A number that was read before and was out of range makes the next one fail;
    a product that does not fit is not noticed. *)
Lemma str2num_stale_errno : priskv_str2num ERANGE [52] = (None, ERANGE).
Proof. vm_compute. reflexivity. Qed.

Lemma str2num_overflow : priskv_str2num 0 [49; 54; 51; 56; 52; 80] = (Some 0, 0).
Proof. vm_compute. reflexivity. Qed.
