(* ===== verification/Crc.v ===== *)
(** * Checksums

    [Crc32] models [server/crc.c], the CRC-32 whose value selects a key's hash
    bucket and its tiering wait queue. [Crc16] models
    [cluster/client/crc16.h], the CRC-16 the cluster client uses to place a key
    in a slot. Both are table driven; the theorems relate them to the bit-serial
    division by their generator polynomials. *)

From S2P Require Import Prelude.

(** Checking a table against its defining function, entry by entry. *)
Lemma table_entries (tab : list Z) (f : nat → Z) (n i : nat) :
  forallb (λ j, bool_decide (tab !! j = Some (f j))) (seq 0 n) = true →
  (i < n)%nat → tab !! i = Some (f i).
Proof.
  intros Hall Hi. rewrite forallb_forall in Hall.
  specialize (Hall i). rewrite bool_decide_eq_true in Hall.
  apply Hall. apply in_seq. lia.
Qed.

Module Crc32.

(** [static const uint32_t priskv_crc_table[256]]. *)
Definition priskv_crc_table : list Z :=
  [0x00000000; 0x77073096; 0xee0e612c; 0x990951ba; 0x076dc419; 0x706af48f;
   0xe963a535; 0x9e6495a3; 0x0edb8832; 0x79dcb8a4; 0xe0d5e91e; 0x97d2d988;
   0x09b64c2b; 0x7eb17cbd; 0xe7b82d07; 0x90bf1d91; 0x1db71064; 0x6ab020f2;
   0xf3b97148; 0x84be41de; 0x1adad47d; 0x6ddde4eb; 0xf4d4b551; 0x83d385c7;
   0x136c9856; 0x646ba8c0; 0xfd62f97a; 0x8a65c9ec; 0x14015c4f; 0x63066cd9;
   0xfa0f3d63; 0x8d080df5; 0x3b6e20c8; 0x4c69105e; 0xd56041e4; 0xa2677172;
   0x3c03e4d1; 0x4b04d447; 0xd20d85fd; 0xa50ab56b; 0x35b5a8fa; 0x42b2986c;
   0xdbbbc9d6; 0xacbcf940; 0x32d86ce3; 0x45df5c75; 0xdcd60dcf; 0xabd13d59;
   0x26d930ac; 0x51de003a; 0xc8d75180; 0xbfd06116; 0x21b4f4b5; 0x56b3c423;
   0xcfba9599; 0xb8bda50f; 0x2802b89e; 0x5f058808; 0xc60cd9b2; 0xb10be924;
   0x2f6f7c87; 0x58684c11; 0xc1611dab; 0xb6662d3d; 0x76dc4190; 0x01db7106;
   0x98d220bc; 0xefd5102a; 0x71b18589; 0x06b6b51f; 0x9fbfe4a5; 0xe8b8d433;
   0x7807c9a2; 0x0f00f934; 0x9609a88e; 0xe10e9818; 0x7f6a0dbb; 0x086d3d2d;
   0x91646c97; 0xe6635c01; 0x6b6b51f4; 0x1c6c6162; 0x856530d8; 0xf262004e;
   0x6c0695ed; 0x1b01a57b; 0x8208f4c1; 0xf50fc457; 0x65b0d9c6; 0x12b7e950;
   0x8bbeb8ea; 0xfcb9887c; 0x62dd1ddf; 0x15da2d49; 0x8cd37cf3; 0xfbd44c65;
   0x4db26158; 0x3ab551ce; 0xa3bc0074; 0xd4bb30e2; 0x4adfa541; 0x3dd895d7;
   0xa4d1c46d; 0xd3d6f4fb; 0x4369e96a; 0x346ed9fc; 0xad678846; 0xda60b8d0;
   0x44042d73; 0x33031de5; 0xaa0a4c5f; 0xdd0d7cc9; 0x5005713c; 0x270241aa;
   0xbe0b1010; 0xc90c2086; 0x5768b525; 0x206f85b3; 0xb966d409; 0xce61e49f;
   0x5edef90e; 0x29d9c998; 0xb0d09822; 0xc7d7a8b4; 0x59b33d17; 0x2eb40d81;
   0xb7bd5c3b; 0xc0ba6cad; 0xedb88320; 0x9abfb3b6; 0x03b6e20c; 0x74b1d29a;
   0xead54739; 0x9dd277af; 0x04db2615; 0x73dc1683; 0xe3630b12; 0x94643b84;
   0x0d6d6a3e; 0x7a6a5aa8; 0xe40ecf0b; 0x9309ff9d; 0x0a00ae27; 0x7d079eb1;
   0xf00f9344; 0x8708a3d2; 0x1e01f268; 0x6906c2fe; 0xf762575d; 0x806567cb;
   0x196c3671; 0x6e6b06e7; 0xfed41b76; 0x89d32be0; 0x10da7a5a; 0x67dd4acc;
   0xf9b9df6f; 0x8ebeeff9; 0x17b7be43; 0x60b08ed5; 0xd6d6a3e8; 0xa1d1937e;
   0x38d8c2c4; 0x4fdff252; 0xd1bb67f1; 0xa6bc5767; 0x3fb506dd; 0x48b2364b;
   0xd80d2bda; 0xaf0a1b4c; 0x36034af6; 0x41047a60; 0xdf60efc3; 0xa867df55;
   0x316e8eef; 0x4669be79; 0xcb61b38c; 0xbc66831a; 0x256fd2a0; 0x5268e236;
   0xcc0c7795; 0xbb0b4703; 0x220216b9; 0x5505262f; 0xc5ba3bbe; 0xb2bd0b28;
   0x2bb45a92; 0x5cb36a04; 0xc2d7ffa7; 0xb5d0cf31; 0x2cd99e8b; 0x5bdeae1d;
   0x9b64c2b0; 0xec63f226; 0x756aa39c; 0x026d930a; 0x9c0906a9; 0xeb0e363f;
   0x72076785; 0x05005713; 0x95bf4a82; 0xe2b87a14; 0x7bb12bae; 0x0cb61b38;
   0x92d28e9b; 0xe5d5be0d; 0x7cdcefb7; 0x0bdbdf21; 0x86d3d2d4; 0xf1d4e242;
   0x68ddb3f8; 0x1fda836e; 0x81be16cd; 0xf6b9265b; 0x6fb077e1; 0x18b74777;
   0x88085ae6; 0xff0f6a70; 0x66063bca; 0x11010b5c; 0x8f659eff; 0xf862ae69;
   0x616bffd3; 0x166ccf45; 0xa00ae278; 0xd70dd2ee; 0x4e048354; 0x3903b3c2;
   0xa7672661; 0xd06016f7; 0x4969474d; 0x3e6e77db; 0xaed16a4a; 0xd9d65adc;
   0x40df0b66; 0x37d83bf0; 0xa9bcae53; 0xdebb9ec5; 0x47b2cf7f; 0x30b5ffe9;
   0xbdbdf21c; 0xcabac28a; 0x53b39330; 0x24b4a3a6; 0xbad03605; 0xcdd70693;
   0x54de5729; 0x23d967bf; 0xb3667a2e; 0xc4614ab8; 0x5d681b02; 0x2a6f2b94;
   0xb40bbe37; 0xc30c8ea1; 0x5a05df1b; 0x2d02ef8d].

(** The macros [priskv_crc32_1], [_2], [_4], [_8]: the running checksum and the
    buffer pointer, which each use advances. *)
Definition priskv_crc32_1 (st : Z * list Z) : res (Z * list Z) :=
  let '(crc, buf) := st in
  match buf with
  | [] => Fault OutOfBounds
  | b :: buf' =>
      t ← rd priskv_crc_table (Z.land (Z.lxor (s32 crc) b) 0xff);
      Ok (Z.lxor t (Z.shiftr crc 8), buf')
  end.

Definition priskv_crc32_2 (st : Z * list Z) : res (Z * list Z) :=
  st ← priskv_crc32_1 st; priskv_crc32_1 st.

Definition priskv_crc32_4 (st : Z * list Z) : res (Z * list Z) :=
  st ← priskv_crc32_2 st; priskv_crc32_2 st.

Definition priskv_crc32_8 (st : Z * list Z) : res (Z * list Z) :=
  st ← priskv_crc32_4 st; priskv_crc32_4 st.

(** [while (len >= w) { step; len -= w; }]. *)
Fixpoint crc_while (step : Z * list Z → res (Z * list Z)) (w : Z) (fuel : nat)
    (st : Z * list Z) (len : Z) : res (Z * list Z * Z) :=
  if w <=? len then
    match fuel with
    | O => Fault OutOfFuel
    | S fuel => st ← step st; crc_while step w fuel st (u32 (len - w))
    end
  else Ok (st, len).

(** [priskv_crc32]; the third loop, [while (len > 0)], is [len >= 1]. Each loop
    makes at most [len] turns, so [len] is fuel enough. *)
Definition priskv_crc32 (buf : list Z) (len : Z) : res Z :=
  let fuel := Z.to_nat len in
  '(st, len) ← crc_while priskv_crc32_8 8 fuel (0, buf) len;
  '(st, len) ← crc_while priskv_crc32_4 4 fuel st len;
  '(st, _) ← crc_while priskv_crc32_1 1 fuel st len;
  Ok st.1.

(** The reference: bit-serial division, least significant bit first, by the
    reflected polynomial 0xEDB88320. *)
Definition crc_bit (c : Z) : Z :=
  Z.lxor (Z.shiftr c 1) (if Z.testbit c 0 then 0xEDB88320 else 0).

Definition crc_byte (c b : Z) : Z := Nat.iter 8 crc_bit (Z.lxor c b).

Definition crc_ref (bs : list Z) : Z := foldl crc_byte 0 bs.

(** ** The bit step is linear over GF(2) *)

Lemma crc_bit_lxor a b : crc_bit (Z.lxor a b) = Z.lxor (crc_bit a) (crc_bit b).
Proof.
  unfold crc_bit. bitwise i Hi. rewrite Z.lxor_spec, Z.shiftr_lxor.
  autorewrite with bits. destruct (Z.testbit a 0), (Z.testbit b 0); simpl;
    rewrite ?Z.bits_0; destruct (Z.testbit (_ ≫ 1) i), (Z.testbit (b ≫ 1) i),
      (Z.testbit 0xEDB88320 i); done.
Qed.

Lemma crc_iter_lxor n a b :
  Nat.iter n crc_bit (Z.lxor a b) = Z.lxor (Nat.iter n crc_bit a) (Nat.iter n crc_bit b).
Proof. induction n as [|n IH]; simpl; [done|]. by rewrite IH, crc_bit_lxor. Qed.

Lemma crc_iter_shift (n : nat) z :
  Nat.iter n crc_bit (z ≪ Z.of_nat n) = z.
Proof.
  revert z. induction n as [|n IH]; intros z; [by rewrite Z.shiftl_0_r|].
  rewrite Nat.iter_succ_r. replace (crc_bit _) with (z ≪ Z.of_nat n); [done|].
  unfold crc_bit. rewrite Z.shiftl_spec_low by lia. rewrite Z.lxor_0_r.
  rewrite Z.shiftr_shiftl_l by lia. f_equal. lia.
Qed.

Lemma crc_table_length : length priskv_crc_table = 256%nat.
Proof. done. Qed.

(** Every entry of the table is the eight-step division of its index. *)
Lemma crc_table_entry i :
  0 <= i < 256 → rd priskv_crc_table i = Ok (Nat.iter 8 crc_bit i).
Proof.
  intros Hi. apply rd_Ok. split; [lia|].
  rewrite (table_entries priskv_crc_table (λ n, Nat.iter 8 crc_bit (Z.of_nat n)) 256);
    [by rewrite Z2Nat.id by lia|vm_compute; reflexivity|lia].
Qed.

Lemma split_low_byte z : 0 <= z → z = Z.lxor (Z.land z 0xff) ((z ≫ 8) ≪ 8).
Proof.
  intros Hz. bitwise i Hi. autorewrite with bits.
  change 0xff with (Z.ones 8). rewrite Z.testbit_ones_nonneg by lia.
  destruct (Z.ltb_spec i 8).
  - rewrite Z.shiftl_spec_low by lia. by destruct (Z.testbit z i).
  - rewrite Z.shiftl_spec, Z.shiftr_spec by lia.
    replace (i - 8 + 8) with i by lia. by destruct (Z.testbit z i).
Qed.

Lemma low_byte_range z : 0 <= Z.land z 0xff < 256.
Proof. change 0xff with (Z.ones 8). rewrite Z.land_ones by lia. apply Z.mod_pos_bound. lia. Qed.

Lemma low_byte_s32 c b : Z.land (Z.lxor (s32 c) b) 0xff = Z.land (Z.lxor c b) 0xff.
Proof.
  bitwise i Hi. autorewrite with bits. change 0xff with (Z.ones 8).
  rewrite Z.testbit_ones_nonneg by lia. destruct (Z.ltb_spec i 8); [|by rewrite !andb_false_r].
  by rewrite s32_testbit by lia.
Qed.

Lemma crc_bit_range c : 0 <= c < 2 ^ 32 → 0 <= crc_bit c < 2 ^ 32.
Proof.
  intros Hc. unfold crc_bit. apply lxor_range; [lia| |destruct (Z.testbit c 0); lia].
  rewrite Z.shiftr_div_pow2 by lia. change (2 ^ 1) with 2. dlia.
Qed.

#[local] Opaque crc_bit.

Lemma crc_byte_range c b :
  0 <= c < 2 ^ 32 → 0 <= b < 2 ^ 8 → 0 <= crc_byte c b < 2 ^ 32.
Proof.
  intros Hc Hb. unfold crc_byte. assert (0 <= Z.lxor c b < 2 ^ 32) as H
    by (apply lxor_range; lia).
  revert H. generalize (Z.lxor c b). simpl. intros z Hz.
  repeat apply crc_bit_range. done.
Qed.

(** ** One table step is eight bit steps *)

Lemma crc32_1_spec c b buf :
  0 <= c < 2 ^ 32 → 0 <= b < 2 ^ 8 →
  priskv_crc32_1 (c, b :: buf) = Ok (crc_byte c b, buf).
Proof.
  intros Hc Hb. unfold priskv_crc32_1. rewrite low_byte_s32.
  rewrite crc_table_entry by apply low_byte_range. simpl mbind. unfold crc_byte.
  assert (0 <= Z.lxor c b < 2 ^ 32) as Hx by (apply lxor_range; lia).
  rewrite (split_low_byte (Z.lxor c b)) at 2 by lia.
  rewrite crc_iter_lxor, (crc_iter_shift 8). do 3 f_equal.
  bitwise i Hi. rewrite !Z.shiftr_spec, Z.lxor_spec by lia.
  rewrite (testbit_above b 8) by lia. by rewrite xorb_false_r.
Qed.

(** [n] table steps, as the unrolled macros perform them. *)
Definition steps_spec (n : nat) (step : Z * list Z → res (Z * list Z)) : Prop :=
  ∀ c buf, 0 <= c < 2 ^ 32 → bytes buf → (n <= length buf)%nat →
    step (c, buf) = Ok (foldl crc_byte c (take n buf), drop n buf).

Lemma foldl_crc_range bs c :
  0 <= c < 2 ^ 32 → bytes bs → 0 <= foldl crc_byte c bs < 2 ^ 32.
Proof.
  revert c. induction bs as [|b bs IH]; intros c Hc Hbs; [done|].
  apply Forall_cons in Hbs as [Hb Hbs]. apply IH; [by apply crc_byte_range|done].
Qed.

Lemma steps_one : steps_spec 1 priskv_crc32_1.
Proof.
  intros c [|b buf] Hc Hbuf Hlen; [simpl in Hlen; lia|].
  apply Forall_cons in Hbuf as [Hb Hbuf]. rewrite crc32_1_spec by done.
  done.
Qed.

Lemma steps_double n step :
  steps_spec n step → steps_spec (n + n) (λ st, st ← step st; step st).
Proof.
  intros Hn c buf Hc Hbuf Hlen. rewrite Hn by (done || lia). simpl.
  rewrite Hn; [..|by apply Forall_drop|by rewrite length_drop; lia].
  - rewrite <- foldl_app, take_take_drop, drop_drop. done.
  - apply foldl_crc_range; [done|by apply Forall_take].
Qed.

Lemma steps_two : steps_spec 2 priskv_crc32_2.
Proof. exact (steps_double 1 _ steps_one). Qed.

Lemma steps_four : steps_spec 4 priskv_crc32_4.
Proof. exact (steps_double 2 _ steps_two). Qed.

Lemma steps_eight : steps_spec 8 priskv_crc32_8.
Proof. exact (steps_double 4 _ steps_four). Qed.

(** A loop over an [n]-step body consumes a prefix whose length is a multiple of
    [n] and leaves fewer than [n] bytes. *)
Lemma crc_while_spec n step (fuel : nat) c buf (len : nat) :
  (0 < n)%nat → steps_spec n step → 0 <= c < 2 ^ 32 → bytes buf →
  (len <= length buf)%nat → Z.of_nat len < 2 ^ 32 → (len <= fuel)%nat →
  ∃ m, (m <= len)%nat ∧ (len - m < n)%nat ∧
    crc_while step (Z.of_nat n) fuel (c, buf) (Z.of_nat len) =
      Ok ((foldl crc_byte c (take m buf), drop m buf), Z.of_nat (len - m)).
Proof.
  intros Hn Hstep. revert c buf len. induction fuel as [|fuel IH];
    intros c buf len Hc Hbuf Hlen Hw Hfuel; simpl;
    destruct (Z.leb_spec (Z.of_nat n) (Z.of_nat len)).
  - lia.
  - exists 0%nat. rewrite take_0, drop_0. split_and!; [lia..|]. do 3 f_equal. lia.
  - rewrite Hstep by (done || lia). simpl.
    rewrite u32_small by lia. rewrite <- Nat2Z.inj_sub by lia.
    destruct (IH (foldl crc_byte c (take n buf)) (drop n buf) (len - n)%nat)
      as (m & Hm & Hrest & ->).
    + apply foldl_crc_range; [done|by apply Forall_take].
    + by apply Forall_drop.
    + rewrite length_drop. lia.
    + lia.
    + lia.
    + exists (n + m)%nat. split_and!; [lia..|].
      rewrite <- foldl_app, take_take_drop, drop_drop. do 3 f_equal. lia.
  - exists 0%nat. rewrite take_0, drop_0. split_and!; [lia..|]. do 3 f_equal. lia.
Qed.

Lemma crc32_spec buf len :
  bytes buf → 0 <= len < 2 ^ 32 → len <= Z.of_nat (length buf) →
  priskv_crc32 buf len = Ok (crc_ref (take (Z.to_nat len) buf)).
Proof.
  intros Hbuf Hlen Hin. unfold priskv_crc32.
  destruct (crc_while_spec 8 priskv_crc32_8 (Z.to_nat len) 0 buf (Z.to_nat len))
    as (m1 & H1 & R1 & E1); [lia|apply steps_eight|lia|done|lia..|].
  rewrite Z2Nat.id in E1 by lia. change (Z.of_nat 8) with 8 in E1. rewrite E1. simpl.
  pose proof (foldl_crc_range (take m1 buf) 0) as Hc1.
  destruct (crc_while_spec 4 priskv_crc32_4 (Z.to_nat len) (foldl crc_byte 0 (take m1 buf))
    (drop m1 buf) (Z.to_nat len - m1)) as (m2 & H2 & R2 & E2);
    [lia|apply steps_four|apply Hc1; [lia|by apply Forall_take]|by apply Forall_drop
    |rewrite length_drop; lia|lia..|].
  change (Z.of_nat 4) with 4 in E2. rewrite E2. simpl.
  rewrite <- foldl_app, take_take_drop, drop_drop.
  pose proof (foldl_crc_range (take (m1 + m2) buf) 0) as Hc2.
  destruct (crc_while_spec 1 priskv_crc32_1 (Z.to_nat len)
    (foldl crc_byte 0 (take (m1 + m2) buf)) (drop (m1 + m2) buf) (Z.to_nat len - m1 - m2))
    as (m3 & H3 & R3 & E3);
    [lia|apply steps_one|apply Hc2; [lia|by apply Forall_take]|by apply Forall_drop
    |rewrite length_drop; lia|lia..|].
  change (Z.of_nat 1) with 1 in E3. rewrite E3. simpl.
  rewrite <- foldl_app, take_take_drop. unfold crc_ref. do 2 f_equal.
  f_equal. lia.
Qed.

Lemma crc_ref_range bs : bytes bs → 0 <= crc_ref bs < 2 ^ 32.
Proof. intros Hb. apply foldl_crc_range; [lia|done]. Qed.

(** (C37) [priskv_crc32] reads exactly its [len] bytes, whatever way they split
    over the three unrolled loops, and returns the CRC of the reflected
    polynomial 0xEDB88320 with zero initial value and no final inversion. *)
Theorem crc32_polynomial buf len :
  bytes buf → 0 <= len < 2 ^ 32 → len <= Z.of_nat (length buf) →
  priskv_crc32 buf len = Ok (crc_ref (take (Z.to_nat len) buf)).
Proof. apply crc32_spec. Qed.

Lemma crc32_polynomial_witness :
  bytes [49;50;51;52;53;54;55;56;57;58;59;60;61] ∧
  priskv_crc32 [49;50;51;52;53;54;55;56;57;58;59;60;61] 13 =
    Ok (crc_ref [49;50;51;52;53;54;55;56;57;58;59;60;61]).
Proof.
  assert (bytes [49;50;51;52;53;54;55;56;57;58;59;60;61]) as Hb
    by (repeat (apply Forall_cons; split; [lia|]); by apply Forall_nil).
  split; [exact Hb|].
  refine (crc32_polynomial [49;50;51;52;53;54;55;56;57;58;59;60;61] 13 Hb _ _); simpl; lia.
Defined.

End Crc32.

Module Crc16.

(** [static const uint16_t crc16tab[256]]. *)
Definition crc16tab : list Z :=
  [0x0000; 0x1021; 0x2042; 0x3063; 0x4084; 0x50a5; 0x60c6; 0x70e7; 0x8108; 0x9129;
   0xa14a; 0xb16b; 0xc18c; 0xd1ad; 0xe1ce; 0xf1ef; 0x1231; 0x0210; 0x3273; 0x2252;
   0x52b5; 0x4294; 0x72f7; 0x62d6; 0x9339; 0x8318; 0xb37b; 0xa35a; 0xd3bd; 0xc39c;
   0xf3ff; 0xe3de; 0x2462; 0x3443; 0x0420; 0x1401; 0x64e6; 0x74c7; 0x44a4; 0x5485;
   0xa56a; 0xb54b; 0x8528; 0x9509; 0xe5ee; 0xf5cf; 0xc5ac; 0xd58d; 0x3653; 0x2672;
   0x1611; 0x0630; 0x76d7; 0x66f6; 0x5695; 0x46b4; 0xb75b; 0xa77a; 0x9719; 0x8738;
   0xf7df; 0xe7fe; 0xd79d; 0xc7bc; 0x48c4; 0x58e5; 0x6886; 0x78a7; 0x0840; 0x1861;
   0x2802; 0x3823; 0xc9cc; 0xd9ed; 0xe98e; 0xf9af; 0x8948; 0x9969; 0xa90a; 0xb92b;
   0x5af5; 0x4ad4; 0x7ab7; 0x6a96; 0x1a71; 0x0a50; 0x3a33; 0x2a12; 0xdbfd; 0xcbdc;
   0xfbbf; 0xeb9e; 0x9b79; 0x8b58; 0xbb3b; 0xab1a; 0x6ca6; 0x7c87; 0x4ce4; 0x5cc5;
   0x2c22; 0x3c03; 0x0c60; 0x1c41; 0xedae; 0xfd8f; 0xcdec; 0xddcd; 0xad2a; 0xbd0b;
   0x8d68; 0x9d49; 0x7e97; 0x6eb6; 0x5ed5; 0x4ef4; 0x3e13; 0x2e32; 0x1e51; 0x0e70;
   0xff9f; 0xefbe; 0xdfdd; 0xcffc; 0xbf1b; 0xaf3a; 0x9f59; 0x8f78; 0x9188; 0x81a9;
   0xb1ca; 0xa1eb; 0xd10c; 0xc12d; 0xf14e; 0xe16f; 0x1080; 0x00a1; 0x30c2; 0x20e3;
   0x5004; 0x4025; 0x7046; 0x6067; 0x83b9; 0x9398; 0xa3fb; 0xb3da; 0xc33d; 0xd31c;
   0xe37f; 0xf35e; 0x02b1; 0x1290; 0x22f3; 0x32d2; 0x4235; 0x5214; 0x6277; 0x7256;
   0xb5ea; 0xa5cb; 0x95a8; 0x8589; 0xf56e; 0xe54f; 0xd52c; 0xc50d; 0x34e2; 0x24c3;
   0x14a0; 0x0481; 0x7466; 0x6447; 0x5424; 0x4405; 0xa7db; 0xb7fa; 0x8799; 0x97b8;
   0xe75f; 0xf77e; 0xc71d; 0xd73c; 0x26d3; 0x36f2; 0x0691; 0x16b0; 0x6657; 0x7676;
   0x4615; 0x5634; 0xd94c; 0xc96d; 0xf90e; 0xe92f; 0x99c8; 0x89e9; 0xb98a; 0xa9ab;
   0x5844; 0x4865; 0x7806; 0x6827; 0x18c0; 0x08e1; 0x3882; 0x28a3; 0xcb7d; 0xdb5c;
   0xeb3f; 0xfb1e; 0x8bf9; 0x9bd8; 0xabbb; 0xbb9a; 0x4a75; 0x5a54; 0x6a37; 0x7a16;
   0x0af1; 0x1ad0; 0x2ab3; 0x3a92; 0xfd2e; 0xed0f; 0xdd6c; 0xcd4d; 0xbdaa; 0xad8b;
   0x9de8; 0x8dc9; 0x7c26; 0x6c07; 0x5c64; 0x4c45; 0x3ca2; 0x2c83; 0x1ce0; 0x0cc1;
   0xef1f; 0xff3e; 0xcf5d; 0xdf7c; 0xaf9b; 0xbfba; 0x8fd9; 0x9ff8; 0x6e17; 0x7e36;
   0x4e55; 0x5e74; 0x2e93; 0x3eb2; 0x0ed1; 0x1ef0].

(** The loop body: [*buf] is a [char], which is signed. *)
Definition crc16_step (crc c : Z) : res Z :=
  t ← rd crc16tab (Z.land (Z.lxor (crc ≫ 8) (s8 c)) 0x00FF);
  Ok (u16 (Z.lxor (crc ≪ 8) t)).

(** [for (counter = 0; counter < len; counter++)]: [n] turns from [counter]. *)
Fixpoint crc16_loop (n : nat) (counter : Z) (buf : list Z) (crc : Z) : res Z :=
  match n with
  | O => Ok crc
  | S n =>
      c ← rd buf counter;
      crc ← crc16_step crc c;
      crc16_loop n (counter + 1) buf crc
  end.

Definition crc16 (buf : list Z) (len : Z) : res Z := crc16_loop (Z.to_nat len) 0 buf 0.

(** The reference: bit-serial division, most significant bit first, by the
    polynomial 0x1021. *)
Definition crc16_bit (c : Z) : Z :=
  Z.lxor (u16 (c ≪ 1)) (if Z.testbit c 15 then 0x1021 else 0).

Definition crc16_byte (c b : Z) : Z := Nat.iter 8 crc16_bit (Z.lxor c (b ≪ 8)).

Definition crc16_ref (bs : list Z) : Z := foldl crc16_byte 0 bs.

Lemma u16_lxor a b : u16 (Z.lxor a b) = Z.lxor (u16 a) (u16 b).
Proof.
  unfold u16. bitwise i Hi. autorewrite with bits. destruct (decide (i < 16)).
  - rewrite !Z.mod_pow2_bits_low by lia. apply Z.lxor_spec.
  - by rewrite !Z.mod_pow2_bits_high by lia.
Qed.

Lemma crc16_bit_lxor a b : crc16_bit (Z.lxor a b) = Z.lxor (crc16_bit a) (crc16_bit b).
Proof.
  unfold crc16_bit. rewrite Z.shiftl_lxor, u16_lxor, Z.lxor_spec.
  bitwise i Hi. autorewrite with bits.
  destruct (Z.testbit a 15), (Z.testbit b 15); simpl; rewrite ?Z.bits_0;
    destruct (Z.testbit (u16 (a ≪ 1)) i), (Z.testbit (u16 (b ≪ 1)) i), (Z.testbit 0x1021 i); done.
Qed.

Lemma crc16_iter_lxor n a b :
  Nat.iter n crc16_bit (Z.lxor a b) = Z.lxor (Nat.iter n crc16_bit a) (Nat.iter n crc16_bit b).
Proof. induction n as [|n IH]; simpl; [done|]. by rewrite IH, crc16_bit_lxor. Qed.

(** Steps that meet no set bit at the top only shift. *)
Lemma crc16_iter_low (n : nat) z :
  0 <= z → z * 2 ^ Z.of_nat n < 2 ^ 16 → Nat.iter n crc16_bit z = z ≪ Z.of_nat n.
Proof.
  intros Hz. induction n as [|n IH]; intros Hlt; [by rewrite Z.shiftl_0_r|].
  rewrite Nat2Z.inj_succ, Z.pow_succ_r in Hlt by lia. simpl. rewrite IH by lia.
  rewrite Nat2Z.inj_succ. assert (0 < 2 ^ Z.of_nat n) by lia.
  rewrite !Z.shiftl_mul_pow2 by lia. unfold crc16_bit, u16.
  rewrite (testbit_above _ 15) by lia. rewrite Z.lxor_0_r, Z.shiftl_mul_pow2 by lia.
  rewrite Z.pow_succ_r by lia. rewrite Z.mod_small; lia.
Qed.

Lemma crc16_table_entry i :
  0 <= i < 256 → rd crc16tab i = Ok (Nat.iter 8 crc16_bit (i ≪ 8)).
Proof.
  intros Hi. apply rd_Ok. split; [lia|].
  rewrite (table_entries crc16tab (λ n, Nat.iter 8 crc16_bit (Z.of_nat n ≪ 8)) 256);
    [by rewrite Z2Nat.id by lia|vm_compute; reflexivity|lia].
Qed.

Lemma crc16_bit_range c : 0 <= crc16_bit c < 2 ^ 16.
Proof.
  unfold crc16_bit. apply lxor_range; [lia|apply Z.mod_pos_bound; lia|].
  destruct (Z.testbit c 15); lia.
Qed.

#[local] Opaque crc16_bit.

Lemma crc16_index c b :
  0 <= c < 2 ^ 16 → 0 <= b < 2 ^ 8 →
  Z.land (Z.lxor (c ≫ 8) (s8 b)) 0x00FF = Z.lxor (c ≫ 8) b.
Proof.
  intros Hc Hb. change 0x00FF with (Z.ones 8). bitwise i Hi. autorewrite with bits.
  rewrite Z.testbit_ones_nonneg by lia. destruct (Z.ltb_spec i 8).
  - by rewrite s8_testbit, andb_true_r by lia.
  - rewrite andb_false_r, Z.shiftr_spec by lia.
    by rewrite (testbit_above c 16), (testbit_above b 8) by lia.
Qed.

Lemma crc16_split c b :
  0 <= c < 2 ^ 16 → Z.lxor c (b ≪ 8) = Z.lxor (Z.lxor (c ≫ 8) b ≪ 8) (c mod 2 ^ 8).
Proof.
  intros Hc. bitwise i Hi. autorewrite with bits. destruct (decide (i < 8)).
  - rewrite Z.mod_pow2_bits_low by lia. rewrite !Z.shiftl_spec_low by lia.
    by destruct (Z.testbit c i).
  - rewrite Z.mod_pow2_bits_high by lia. rewrite !Z.shiftl_spec by lia.
    rewrite Z.lxor_spec, Z.shiftr_spec by lia. replace (i - 8 + 8) with i by lia.
    by rewrite xorb_false_r.
Qed.

Lemma crc16_step_spec c b :
  0 <= c < 2 ^ 16 → 0 <= b < 2 ^ 8 → crc16_step c b = Ok (crc16_byte c b).
Proof.
  intros Hc Hb. unfold crc16_step, crc16_byte. rewrite crc16_index by done.
  assert (0 <= Z.lxor (c ≫ 8) b < 256) as Hi.
  { change 256 with (2 ^ 8). apply lxor_range; [lia| |done].
    rewrite Z.shiftr_div_pow2 by lia. change (2 ^ 8) with 256. dlia. }
  rewrite crc16_table_entry by done. rewrite Ok_bind, crc16_split, crc16_iter_lxor by done.
  assert (0 <= c mod 2 ^ 8 < 2 ^ 8) as Hm by (apply Z.mod_pos_bound; lia).
  rewrite (crc16_iter_low 8 (c mod 2 ^ 8)) by (simpl; lia).
  rewrite u16_lxor, Z.lxor_comm. do 2 f_equal.
  - unfold u16. apply Z.mod_small. change (Nat.iter 8 crc16_bit (Z.lxor (c ≫ 8) b ≪ 8))
      with (crc16_bit (Nat.iter 7 crc16_bit (Z.lxor (c ≫ 8) b ≪ 8))). apply crc16_bit_range.
  - unfold u16. change (Z.of_nat 8) with 8. rewrite !Z.shiftl_mul_pow2 by lia.
    change (2 ^ 16) with (2 ^ 8 * 2 ^ 8). by rewrite Z.mul_mod_distr_r by lia.
Qed.

Lemma crc16_loop_spec buf : ∀ n i c,
  bytes buf → (i + n <= length buf)%nat → 0 <= c < 2 ^ 16 →
  crc16_loop n (Z.of_nat i) buf c = Ok (foldl crc16_byte c (take n (drop i buf))).
Proof.
  induction n as [|n IH]; intros i c Hb Hlen Hc; [done|]. simpl.
  destruct (lookup_lt_is_Some_2 buf i) as [b Hbi]; [lia|].
  assert (0 <= b < 2 ^ 8) as Hbr by (eapply Forall_lookup_1 in Hb; eauto).
  assert (rd buf (Z.of_nat i) = Ok b) as -> by (apply rd_Ok; rewrite Nat2Z.id; split; [lia|done]).
  rewrite Ok_bind, crc16_step_spec, Ok_bind by done.
  replace (Z.of_nat i + 1) with (Z.of_nat (S i)) by lia.
  rewrite IH; [|done|lia|].
  - rewrite (drop_S buf b i) by done. done.
  - apply (crc16_bit_range (Nat.iter 7 crc16_bit (Z.lxor c (b ≪ 8)))).
Qed.

Lemma crc16_spec buf len :
  bytes buf → 0 <= len <= Z.of_nat (length buf) →
  crc16 buf len = Ok (crc16_ref (take (Z.to_nat len) buf)).
Proof. intros Hb Hlen. apply (crc16_loop_spec buf (Z.to_nat len) 0); [done|lia|lia]. Qed.

Lemma crc16_ref_range bs : 0 <= crc16_ref bs < 2 ^ 16.
Proof.
  unfold crc16_ref. destruct bs as [|b bs] using rev_ind; [simpl; lia|].
  rewrite foldl_app. simpl.
  apply (crc16_bit_range (Nat.iter 7 crc16_bit (Z.lxor (foldl crc16_byte 0 bs) (b ≪ 8)))).
Qed.

End Crc16.
