(* ===== verification/Slab.v ===== *)
(** * The key slab

    [server/slab.c]: a fixed number of equally sized objects carved out of one
    chunk of memory, with one bit per object (1 = available). Key nodes are
    allocated from a slab. Addresses are integers; the null pointer is 0. *)

From S2P Require Import Prelude Utils.

Module Slab.

Record priskv_slab := mk_slab {
  sl_name : string;
  sl_size : Z;      (* uint32_t *)
  sl_inuse : Z;     (* uint32_t *)
  sl_objects : Z;   (* uint32_t *)
  sl_base : Z;      (* uint8_t * *)
  sl_lindex : Z;    (* uint64_t *)
  sl_bitmap : list Z (* uint64_t [] *)
}.

(** Assignments to [inuse] and the bitmap, and to [lindex]. *)
Definition with_bitmap (s : priskv_slab) (inuse' : Z) (bm : list Z) : priskv_slab :=
  {| sl_name := sl_name s; sl_size := sl_size s; sl_inuse := inuse';
     sl_objects := sl_objects s; sl_base := sl_base s; sl_lindex := sl_lindex s;
     sl_bitmap := bm |}.

Definition with_lindex (s : priskv_slab) (i : Z) : priskv_slab :=
  {| sl_name := sl_name s; sl_size := sl_size s; sl_inuse := sl_inuse s;
     sl_objects := sl_objects s; sl_base := sl_base s; sl_lindex := i;
     sl_bitmap := sl_bitmap s |}.

Definition PRISKV_SLAB_NAME_LEN : Z := 64.
Definition BITS_OF_UL : Z := 64.

Definition set_bit (val bit : Z) : Z := Z.lor val (u64 (1 ≪ bit)).

Definition clear_bit (val bit : Z) : Z := Z.land val (u64 (Z.lnot (1 ≪ bit))).

(** [__builtin_ffsl]: one plus the index of the least significant set bit, 0
    when there is none. *)
Fixpoint pos_ffs (p : positive) : Z :=
  match p with
  | (q~0)%positive => 1 + pos_ffs q
  | _ => 1
  end.

Definition ffsl (w : Z) : Z :=
  match w with Zpos p => pos_ffs p | _ => 0 end.

(** The marking loop of [priskv_slab_create]: [n] turns from [index]. *)
Fixpoint slab_mark (n : nat) (index : Z) (bm : list Z) : res (list Z) :=
  match n with
  | O => Ok bm
  | S n =>
      w ← rd bm (index / BITS_OF_UL);
      bm ← wr bm (index / BITS_OF_UL) (set_bit w (index mod BITS_OF_UL));
      slab_mark n (index + 1) bm
  end.

(** [calloc_ok] says whether [calloc] returned memory. *)
Definition priskv_slab_create (calloc_ok : bool) (nm : string) (bs sz objs : Z)
    : res (option priskv_slab) :=
  if bs =? 0 then Ok None else
  if sz =? 0 then Ok None else
  if objs =? 0 then Ok None else
  let bits := u32 (ALIGN_UP 64 objs BITS_OF_UL) in
  if negb calloc_ok then Ok None else
  bm ← slab_mark (Z.to_nat objs) 0 (replicate (Z.to_nat (bits / 64)) 0);
  Ok (Some {| sl_name := String.substring 0 (Z.to_nat (PRISKV_SLAB_NAME_LEN - 1)) nm;
              sl_size := sz; sl_inuse := 0; sl_objects := objs; sl_base := bs;
              sl_lindex := 0; sl_bitmap := bm |}).

(** [__slab_alloc(__slab, ptr, index)] with [ptr = &bitmap[index]]. *)
Definition __slab_alloc (s : priskv_slab) (index : Z) : res (Z * priskv_slab) :=
  w ← rd (sl_bitmap s) index;
  let found := u32 (ffsl w - 1) in
  bm ← wr (sl_bitmap s) index (clear_bit w found);
  assert! (index * BITS_OF_UL + found <? sl_objects s) ;;
  Ok (sl_base s + u64 ((index * BITS_OF_UL + found) * sl_size s),
      with_bitmap s (u32 (sl_inuse s + 1)) bm).

(** [priskv_slab_reserve]; [index] is an [int]. *)
Definition priskv_slab_reserve (s : priskv_slab) (index : Z) : res (Z * priskv_slab) :=
  assert! (0 <=? index) ;;
  assert! (index <? sl_objects s) ;;
  w ← rd (sl_bitmap s) (index / BITS_OF_UL);
  bm ← wr (sl_bitmap s) (index / BITS_OF_UL) (clear_bit w (index mod BITS_OF_UL));
  Ok (sl_base s + u64 (index * sl_size s),
      with_bitmap s (u32 (sl_inuse s + 1)) bm).

(** The search loop shared by the two passes of [priskv_slab_alloc]: [n] words
    from [index]. *)
Fixpoint slab_scan (n : nat) (s : priskv_slab) (index : Z)
    : res (option (Z * Z * priskv_slab)) :=
  match n with
  | O => Ok None
  | S n =>
      w ← rd (sl_bitmap s) index;
      if w =? 0 then slab_scan n s (index + 1)
      else '(addr, s') ← __slab_alloc s index; Ok (Some (index, addr, s'))
  end.

(** [priskv_slab_alloc]: the words from [lindex] to the end, then those before
    [lindex]. [None] is the null pointer. *)
Definition priskv_slab_alloc (s : priskv_slab) : res (option Z * priskv_slab) :=
  let bits := u32 (ALIGN_UP 64 (sl_objects s) BITS_OF_UL) in
  first ← slab_scan (Z.to_nat (bits / BITS_OF_UL - sl_lindex s)) s (sl_lindex s);
  found ← match first with
          | Some r => Ok (Some r)
          | None => slab_scan (Z.to_nat (sl_lindex s)) s 0
          end;
  match found with
  | Some (index, addr, s') => Ok (Some addr, with_lindex s' index)
  | None => Ok (None, s)
  end.

(** [__priskv_slab_index]: pointer difference, remainder and quotient are
    signed; the result is an [int]. *)
Definition __priskv_slab_index (s : priskv_slab) (addr : Z) : res Z :=
  if negb (Z.rem (addr - sl_base s) (sl_size s) =? 0) then Ok (-1) else
  let index := Z.quot (addr - sl_base s) (sl_size s) in
  assert! (index <? sl_objects s) ;;
  Ok (s32 index).

Definition priskv_slab_index (s : priskv_slab) (addr : Z) : res Z :=
  __priskv_slab_index s addr.

Definition priskv_slab_free (s : priskv_slab) (addr : Z) : res priskv_slab :=
  index ← __priskv_slab_index s addr;
  assert! (0 <=? index) ;;
  w ← rd (sl_bitmap s) (index / BITS_OF_UL);
  bm ← wr (sl_bitmap s) (index / BITS_OF_UL) (set_bit w (index mod BITS_OF_UL));
  let inuse' := u32 (sl_inuse s - 1) in
  assert! (inuse' <? sl_objects s) ;;
  Ok (with_bitmap s inuse' bm).

Definition priskv_slab_name (s : priskv_slab) : string := sl_name s.
Definition priskv_slab_base (s : priskv_slab) : Z := sl_base s.
Definition priskv_slab_size (s : priskv_slab) : Z := sl_size s.
Definition priskv_slab_objects (s : priskv_slab) : Z := sl_objects s.
Definition priskv_slab_inuse (s : priskv_slab) : Z := sl_inuse s.
Definition priskv_slab_bitmap (s : priskv_slab) : list Z := sl_bitmap s.

(** ** Bits of the bitmap *)

(** Object [i] is available. *)
Definition avail (bm : list Z) (i : Z) : bool :=
  match bm !! Z.to_nat (i / 64) with
  | Some w => Z.testbit w (i mod 64)
  | None => false
  end.

Definition words_ok (bm : list Z) : Prop := Forall (λ w, 0 <= w < 2 ^ 64) bm.

(** The objects handed out. *)
Definition used (s : priskv_slab) : gset Z :=
  list_to_set (filter (λ i, avail (sl_bitmap s) i = false) (seqZ 0 (sl_objects s))).

(** The invariant of a slab. *)
Record slab_wf (s : priskv_slab) : Prop := mk_slab_wf {
  wf_size : 0 < sl_size s < 2 ^ 32;
  wf_objects : 0 < sl_objects s <= 2 ^ 31;
  wf_base : 0 < sl_base s;
  wf_end : sl_base s + sl_objects s * sl_size s <= 2 ^ 64;
  wf_words : words_ok (sl_bitmap s);
  wf_length : Z.of_nat (length (sl_bitmap s)) = (sl_objects s + 63) / 64;
  wf_tail : ∀ i, 0 <= i → avail (sl_bitmap s) i = true → i < sl_objects s;
  wf_lindex : 0 <= sl_lindex s < (sl_objects s + 63) / 64;
  wf_inuse : sl_inuse s = Z.of_nat (size (used s))
}.

(** ** Lemmas on bits *)

Lemma shl1_pow2 b : 0 <= b < 64 → u64 (1 ≪ b) = 2 ^ b.
Proof.
  intros Hb. rewrite Z.shiftl_mul_pow2, Z.mul_1_l by lia. apply u64_small.
  pose proof (Z.pow_lt_mono_r 2 b 64). lia.
Qed.

Lemma testbit_set_bit w b i :
  0 <= b < 64 → 0 <= i → Z.testbit (set_bit w b) i = (i =? b) || Z.testbit w i.
Proof.
  intros Hb Hi. unfold set_bit. rewrite Z.lor_spec, shl1_pow2 by done.
  rewrite Z.pow2_bits_eqb by lia. rewrite orb_comm, Z.eqb_sym. done.
Qed.

Lemma testbit_clear_bit w b i :
  0 <= b < 64 → 0 <= i < 64 →
  Z.testbit (clear_bit w b) i = negb (i =? b) && Z.testbit w i.
Proof.
  intros Hb Hi. unfold clear_bit, u64. rewrite Z.land_spec.
  rewrite Z.mod_pow2_bits_low by lia. rewrite Z.lnot_spec by lia.
  rewrite Z.shiftl_mul_pow2, Z.mul_1_l, Z.pow2_bits_eqb by lia.
  rewrite andb_comm, Z.eqb_sym. done.
Qed.

Lemma set_bit_range w b : 0 <= w < 2 ^ 64 → 0 <= b < 64 → 0 <= set_bit w b < 2 ^ 64.
Proof.
  intros Hw Hb. assert (set_bit w b = set_bit w b mod 2 ^ 64) as ->;
    [|apply Z.mod_pos_bound; lia].
  bitwise i Hi. destruct (decide (i < 64)).
  - by rewrite Z.mod_pow2_bits_low by lia.
  - rewrite Z.mod_pow2_bits_high, testbit_set_bit by lia.
    rewrite (testbit_above w 64) by lia. apply orb_false_iff. split; [lia|done].
Qed.

Lemma clear_bit_range w b : 0 <= w < 2 ^ 64 → 0 <= clear_bit w b < 2 ^ 64.
Proof.
  intros Hw. assert (clear_bit w b = clear_bit w b mod 2 ^ 64) as ->;
    [|apply Z.mod_pos_bound; lia].
  bitwise i Hi. destruct (decide (i < 64)).
  - by rewrite Z.mod_pow2_bits_low by lia.
  - unfold clear_bit. rewrite Z.mod_pow2_bits_high, Z.land_spec by lia.
    by rewrite (testbit_above w 64) by lia.
Qed.

(** Setting a bit that was set undoes clearing it. *)
Lemma set_clear_bit w b :
  0 <= w < 2 ^ 64 → 0 <= b < 64 → Z.testbit w b = true → set_bit (clear_bit w b) b = w.
Proof.
  intros Hw Hb Hbit. bitwise i Hi. rewrite testbit_set_bit by lia.
  destruct (decide (i < 64)).
  - rewrite testbit_clear_bit by lia. destruct (Z.eqb_spec i b) as [->|]; by simpl.
  - rewrite !(testbit_above _ 64) by (lia || by apply clear_bit_range).
    destruct (Z.eqb_spec i b); [lia|done].
Qed.

Lemma pos_ffs_spec p :
  0 < pos_ffs p ∧ Z.testbit (Zpos p) (pos_ffs p - 1) = true ∧
  (∀ i, 0 <= i < pos_ffs p - 1 → Z.testbit (Zpos p) i = false).
Proof.
  induction p as [p _|p (IH1 & IH2 & IH3)|]; simpl pos_ffs; [split_and!; [lia|done|lia]| |].
  - split_and!; [lia| |].
    + replace (1 + pos_ffs p - 1) with (Z.succ (pos_ffs p - 1)) by lia.
      rewrite Pos2Z.inj_xO, Z.testbit_even_succ by lia. done.
    + intros i Hi. destruct (decide (i = 0)) as [->|]; [done|].
      replace i with (Z.succ (i - 1)) by lia.
      rewrite Pos2Z.inj_xO, Z.testbit_even_succ by lia. apply IH3. lia.
  - split_and!; [lia|done|lia].
Qed.

Lemma ffsl_spec w :
  0 < w < 2 ^ 64 →
  0 <= ffsl w - 1 < 64 ∧ Z.testbit w (ffsl w - 1) = true ∧
  (∀ i, 0 <= i < ffsl w - 1 → Z.testbit w i = false).
Proof.
  intros Hw. destruct w as [|p|p]; [lia| |lia].
  destruct (pos_ffs_spec p) as (H1 & H2 & H3). simpl. split_and!; [lia| |done..].
  destruct (decide (pos_ffs p - 1 < 64)); [done|].
  rewrite (testbit_above _ 64) in H2 by lia. done.
Qed.

Lemma avail_insert bm n w i :
  (n < length bm)%nat → 0 <= i →
  avail (<[n := w]> bm) i =
    if decide (i / 64 = Z.of_nat n) then Z.testbit w (i mod 64) else avail bm i.
Proof.
  intros Hn Hi. unfold avail. assert (0 <= i / 64) by (apply Z.div_pos; lia).
  case_decide as Heq.
  - rewrite Heq, Nat2Z.id, list_lookup_insert_eq by done. done.
  - rewrite list_lookup_insert_ne; [done|lia].
Qed.

(** Setting and clearing the bit of object [j]. *)
Lemma avail_set bm j w i :
  0 <= j → 0 <= i → bm !! Z.to_nat (j / 64) = Some w →
  avail (<[Z.to_nat (j / 64) := set_bit w (j mod 64)]> bm) i = (i =? j) || avail bm i.
Proof.
  intros Hj Hi Hw. pose proof (lookup_lt_Some _ _ _ Hw).
  rewrite avail_insert by done. rewrite Z2Nat.id by (apply Z.div_pos; lia).
  case_decide as Heq.
  - rewrite testbit_set_bit by dlia. unfold avail. rewrite Heq, Hw.
    f_equal. apply eq_bool_prop_intro. rewrite !Is_true_true, !Z.eqb_eq. dlia.
  - destruct (Z.eqb_spec i j); [congruence|done].
Qed.

Lemma avail_clear bm j w i :
  0 <= j → 0 <= i → bm !! Z.to_nat (j / 64) = Some w →
  avail (<[Z.to_nat (j / 64) := clear_bit w (j mod 64)]> bm) i = negb (i =? j) && avail bm i.
Proof.
  intros Hj Hi Hw. pose proof (lookup_lt_Some _ _ _ Hw).
  rewrite avail_insert by done. rewrite Z2Nat.id by (apply Z.div_pos; lia).
  case_decide as Heq.
  - rewrite testbit_clear_bit by dlia. unfold avail. rewrite Heq, Hw.
    do 2 f_equal. apply eq_bool_prop_intro. rewrite !Is_true_true, !Z.eqb_eq. dlia.
  - destruct (Z.eqb_spec i j); [congruence|done].
Qed.

(** ** The states the operations produce *)

(** Object [i] taken out of, and put back into, the bitmap. *)
Definition taken (s : priskv_slab) (i : Z) : priskv_slab :=
  with_bitmap s (sl_inuse s + 1)
    (alter (λ w, clear_bit w (i mod 64)) (Z.to_nat (i / 64)) (sl_bitmap s)).

Definition given (s : priskv_slab) (i : Z) : priskv_slab :=
  with_bitmap s (sl_inuse s - 1)
    (alter (λ w, set_bit w (i mod 64)) (Z.to_nat (i / 64)) (sl_bitmap s)).

Definition object_addr (s : priskv_slab) (i : Z) : Z := sl_base s + i * sl_size s.

Lemma alter_insert_lookup {A} (f : A → A) (l : list A) n x :
  l !! n = Some x → alter f n l = <[n := f x]> l.
Proof. revert n. induction l; intros [|n] H; simplify_eq/=; [done|]. f_equal. auto. Qed.

Lemma elem_of_used s i :
  i ∈ used s ↔ 0 <= i < sl_objects s ∧ avail (sl_bitmap s) i = false.
Proof.
  unfold used. rewrite elem_of_list_to_set, list_elem_of_filter, elem_of_seqZ.
  split; intros [??]; split; auto; lia.
Qed.

Section invariant.
Context (s : priskv_slab) (Hwf : slab_wf s).

Lemma used_size_le : Z.of_nat (size (used s)) <= sl_objects s.
Proof.
  unfold used. rewrite size_list_to_set by (apply NoDup_filter, NoDup_seqZ).
  etrans; [apply Nat2Z.inj_le, length_filter|].
  rewrite length_seqZ. pose proof (wf_objects _ Hwf). lia.
Qed.

Lemma used_full : sl_inuse s = sl_objects s ↔ ∀ i, 0 <= i → avail (sl_bitmap s) i = false.
Proof.
  pose proof (wf_objects _ Hwf) as Ho. rewrite (wf_inuse _ Hwf).
  assert (used s ⊆ list_to_set (seqZ 0 (sl_objects s))) as Hsub.
  { intros i [Hi _]%elem_of_used. rewrite elem_of_list_to_set, elem_of_seqZ. lia. }
  assert (size (list_to_set (seqZ 0 (sl_objects s)) : gset Z) = Z.to_nat (sl_objects s)) as Hsz.
  { rewrite size_list_to_set, length_seqZ; [done|apply NoDup_seqZ]. }
  split.
  - intros Hfull i Hi. destruct (avail (sl_bitmap s) i) eqn:E; [exfalso|done].
    pose proof (wf_tail _ Hwf i Hi E) as Ht.
    assert (i ∈ used s) as [_ ?]%elem_of_used; [|congruence].
    rewrite (set_subseteq_size_eq (used s) _ Hsub) by lia.
    rewrite elem_of_list_to_set, elem_of_seqZ. lia.
  - intros Hall. cut (used s = list_to_set (seqZ 0 (sl_objects s))).
    { intros ->. rewrite Hsz. lia. }
    apply set_eq. intros i. rewrite elem_of_used, elem_of_list_to_set, elem_of_seqZ.
    split; [lia|]. intros [??]. split; [lia|]. apply Hall. lia.
Qed.

Lemma word_of i :
  0 <= i < sl_objects s → ∃ w, sl_bitmap s !! Z.to_nat (i / 64) = Some w ∧ 0 <= w < 2 ^ 64.
Proof.
  intros Hi. pose proof (wf_length _ Hwf) as Hl.
  destruct (lookup_lt_is_Some_2 (sl_bitmap s) (Z.to_nat (i / 64))) as [w Hw]; [dlia|].
  exists w. split; [done|].
  pose proof (wf_words _ Hwf) as Hws. unfold words_ok in Hws. rewrite Forall_lookup in Hws.
  eauto.
Qed.

Lemma avail_taken i j :
  0 <= i < sl_objects s → 0 <= j →
  avail (sl_bitmap (taken s i)) j = negb (j =? i) && avail (sl_bitmap s) j.
Proof.
  intros Hi Hj. destruct (word_of i Hi) as (w & Hw & _). simpl.
  rewrite (alter_insert_lookup _ _ _ w) by done. apply avail_clear; [lia|done|done].
Qed.

Lemma avail_given i j :
  0 <= i < sl_objects s → 0 <= j →
  avail (sl_bitmap (given s i)) j = (j =? i) || avail (sl_bitmap s) j.
Proof.
  intros Hi Hj. destruct (word_of i Hi) as (w & Hw & _). simpl.
  rewrite (alter_insert_lookup _ _ _ w) by done. apply avail_set; [lia|done|done].
Qed.

Lemma used_taken i : 0 <= i < sl_objects s → used (taken s i) = {[ i ]} ∪ used s.
Proof.
  intros Hi. apply set_eq. intros j. rewrite elem_of_union, elem_of_singleton, !elem_of_used.
  change (sl_objects (taken s i)) with (sl_objects s).
  split.
  - intros [Hj Ha]. rewrite avail_taken in Ha by lia.
    destruct (Z.eqb_spec j i); [by left|right; by split].
  - intros [->|[Hj Ha]]; rewrite avail_taken by lia; (split; [lia|]).
    + by rewrite Z.eqb_refl.
    + rewrite Ha. apply andb_false_r.
Qed.

Lemma used_given i : 0 <= i < sl_objects s → used (given s i) = used s ∖ {[ i ]}.
Proof.
  intros Hi. apply set_eq. intros j.
  rewrite elem_of_difference, elem_of_singleton, !elem_of_used.
  change (sl_objects (given s i)) with (sl_objects s).
  split.
  - intros [Hj Ha]. rewrite avail_given in Ha by lia. apply orb_false_iff in Ha as [? ?].
    split; [by split|lia].
  - intros [[Hj Ha] Hne]. rewrite avail_given by lia. split; [lia|].
    apply orb_false_iff. split; [lia|done].
Qed.

Lemma words_alter f i :
  (∀ w, 0 <= w < 2 ^ 64 → 0 <= f w < 2 ^ 64) → words_ok (alter f i (sl_bitmap s)).
Proof.
  intros Hf. apply Forall_alter; [apply (wf_words _ Hwf)|]. intros. by apply Hf.
Qed.

Lemma taken_wf i : 0 <= i < sl_objects s → i ∉ used s → slab_wf (taken s i).
Proof.
  intros Hi Hu. pose proof (used_taken i Hi) as Hused.
  pose proof (avail_taken i) as Hav. destruct Hwf. split; try done.
  - apply words_alter. intros. by apply clear_bit_range.
  - simpl. by rewrite length_alter.
  - intros j Hj. rewrite Hav by lia. intros [_ ?]%andb_true_iff. by apply wf_tail0.
  - rewrite Hused, size_union by set_solver. rewrite size_singleton. simpl. lia.
Qed.

Lemma given_wf i : i ∈ used s → slab_wf (given s i).
Proof.
  intros Hu. pose proof Hu as [Hi _]%elem_of_used. pose proof (used_given i Hi) as Hused.
  pose proof (avail_given i) as Hav. destruct Hwf. split; try done.
  - apply words_alter. intros. apply set_bit_range; dlia.
  - simpl. by rewrite length_alter.
  - intros j Hj. rewrite Hav by lia.
    intros [?|?]%orb_true_iff; [change (sl_objects (given s i)) with (sl_objects s); lia|].
    by apply wf_tail0.
  - rewrite Hused, size_difference by set_solver. rewrite size_singleton. simpl.
    assert (size (used s) ≠ 0%nat); [|lia]. intros ?%size_empty_inv. set_solver.
Qed.

Lemma with_lindex_wf j :
  0 <= j < (sl_objects s + 63) / 64 → slab_wf (with_lindex s j).
Proof. intros Hj. destruct Hwf. by split. Qed.

Lemma inuse_range : 0 <= sl_inuse s <= sl_objects s.
Proof. rewrite (wf_inuse _ Hwf). pose proof used_size_le. lia. Qed.

Lemma object_addr_u64 i :
  0 <= i < sl_objects s → sl_base s + u64 (i * sl_size s) = object_addr s i.
Proof.
  intros Hi. unfold object_addr. destruct Hwf. rewrite u64_small; [done|]. nia.
Qed.
End invariant.

(** ** The operations *)

Lemma bits_words s :
  slab_wf s → u32 (ALIGN_UP 64 (sl_objects s) BITS_OF_UL) / BITS_OF_UL = (sl_objects s + 63) / 64.
Proof.
  intros Hwf. pose proof (wf_objects _ Hwf). unfold BITS_OF_UL.
  destruct (ALIGN_UP_bounds 64 (sl_objects s) 6) as [[H1 H2] H3]; [lia..|].
  change (2 ^ 6) with 64 in *. rewrite u32_small by lia. dlia.
Qed.

Lemma slab_mark_spec n i bm :
  0 <= i → i + Z.of_nat n <= 64 * Z.of_nat (length bm) → words_ok bm →
  ∃ bm', slab_mark n i bm = Ok bm' ∧ length bm' = length bm ∧ words_ok bm' ∧
    ∀ j, 0 <= j → avail bm' j = bool_decide (i <= j < i + Z.of_nat n) || avail bm j.
Proof.
  revert i bm. induction n as [|n IH]; intros i bm Hi Hlen Hok; simpl.
  { eexists. split_and!; [done..|]. intros j Hj. by rewrite bool_decide_false by lia. }
  destruct (rd_in_range bm (i / BITS_OF_UL)) as [w Hw]; [unfold BITS_OF_UL; dlia|].
  rewrite Hw. unfold BITS_OF_UL in *. apply rd_Ok in Hw as [_ Hw]. simpl.
  rewrite wr_Ok by dlia. simpl.
  assert (0 <= w < 2 ^ 64) by (eapply Forall_lookup in Hok; eauto).
  destruct (IH (i + 1) (<[Z.to_nat (i / 64):=set_bit w (i mod 64)]> bm))
    as (bm' & Heq & Hl & Hok' & Hav); [lia|rewrite length_insert; lia| |].
  { apply Forall_insert; [done|]. apply set_bit_range; dlia. }
  exists bm'. rewrite length_insert in Hl. split_and!; [done..|].
  intros j Hj. rewrite Hav, avail_set by done. rewrite orb_assoc. f_equal.
  apply eq_bool_prop_intro. rewrite orb_True, !bool_decide_spec, Is_true_true, Z.eqb_eq. lia.
Qed.

Lemma avail_replicate_0 n i : avail (replicate n 0) i = false.
Proof.
  unfold avail. destruct (_ !! _) eqn:E; [|done].
  apply lookup_replicate_1 in E as [-> _]. apply Z.bits_0.
Qed.

Lemma slab_create_spec nm bs sz objs :
  0 < bs → 0 < sz < 2 ^ 32 → 0 < objs <= 2 ^ 31 → bs + objs * sz <= 2 ^ 64 →
  ∃ s, priskv_slab_create true nm bs sz objs = Ok (Some s) ∧ slab_wf s ∧ used s = ∅ ∧
    sl_base s = bs ∧ sl_size s = sz ∧ sl_objects s = objs ∧ sl_inuse s = 0.
Proof.
  intros Hb Hs Ho He. unfold priskv_slab_create.
  rewrite !(proj2 (Z.eqb_neq _ _)) by lia. simpl.
  destruct (ALIGN_UP_bounds 64 objs 6) as [[H1 H2] H3]; [lia..|].
  change (2 ^ 6) with 64 in *. unfold BITS_OF_UL. rewrite u32_small by lia.
  set (k := Z.to_nat (ALIGN_UP 64 objs 64 / 64)).
  assert (Z.of_nat k = (objs + 63) / 64) as Hk by (unfold k; dlia).
  destruct (slab_mark_spec (Z.to_nat objs) 0 (replicate k 0))
    as (bm & -> & Hl & Hok & Hav); [lia| | |].
  { rewrite length_replicate. dlia. }
  { apply Forall_replicate. lia. }
  rewrite length_replicate in Hl. simpl. eexists. split; [done|].
  assert (∀ j, 0 <= j → avail bm j = true ↔ j < objs) as Hav'.
  { intros j Hj. rewrite Hav by done. rewrite avail_replicate_0, orb_false_r.
    rewrite bool_decide_eq_true. lia. }
  assert (∀ s, sl_bitmap s = bm → sl_objects s = objs → used s = ∅) as Hused.
  { intros s Hbm Hobj. apply set_eq. intros i. rewrite elem_of_used, Hbm, Hobj.
    split; [|set_solver]. intros [Hi Hf].
    rewrite (proj2 (Hav' i (proj1 Hi))) in Hf; [done|lia]. }
  split_and!; try done; [|by apply Hused].
  split; simpl; try done; try lia.
  - intros i Hi. by apply Hav'.
  - dlia.
  - rewrite Hused by done. by rewrite size_empty.
Qed.

(** Taking the first available object of a non-empty word. *)
Lemma __slab_alloc_spec s index w :
  slab_wf s → 0 <= index → sl_bitmap s !! Z.to_nat index = Some w → w ≠ 0 →
  let i := index * 64 + (ffsl w - 1) in
  __slab_alloc s index = Ok (object_addr s i, taken s i) ∧
  0 <= i < sl_objects s ∧ i ∉ used s ∧ i / 64 = index.
Proof.
  intros Hwf Hx Hw Hw0 i. pose proof (wf_words _ Hwf) as Hws.
  eapply Forall_lookup_1 in Hws; [|done].
  destruct (ffsl_spec w) as (Hf & Hbit & _); [lia|].
  assert (i / 64 = index ∧ i mod 64 = ffsl w - 1) as [Hq Hr] by (unfold i; dlia).
  assert (avail (sl_bitmap s) i = true) as Hav by (unfold avail; by rewrite Hq, Hr, Hw).
  assert (i < sl_objects s) as Hi by (apply (wf_tail _ Hwf); [lia|done]).
  split_and!; try done; [|lia|rewrite elem_of_used; naive_solver congruence].
  unfold __slab_alloc. rewrite (proj2 (rd_Ok _ _ _) (conj Hx Hw)). simpl.
  rewrite u32_small by lia. pose proof (lookup_lt_Some _ _ _ Hw).
  rewrite wr_Ok by lia. simpl. unfold BITS_OF_UL. fold i.
  rewrite cassert_true by lia. simpl.
  rewrite object_addr_u64 by (done || lia). unfold taken. rewrite Hq, Hr.
  rewrite (alter_insert_lookup _ _ _ _ Hw). rewrite u32_small; [done|].
  pose proof (inuse_range s Hwf). pose proof (wf_objects s Hwf). lia.
Qed.

Lemma slab_scan_spec n s index :
  slab_wf s → 0 <= index → index + Z.of_nat n <= (sl_objects s + 63) / 64 →
  (slab_scan n s index = Ok None ∧
     ∀ j, index <= j < index + Z.of_nat n → sl_bitmap s !! Z.to_nat j = Some 0) ∨
  (∃ i, slab_scan n s index = Ok (Some (i / 64, object_addr s i, taken s i)) ∧
     0 <= i < sl_objects s ∧ i ∉ used s).
Proof.
  intros Hwf. revert index. induction n as [|n IH]; intros index Hx Hn; simpl.
  { left. split; [done|lia]. }
  destruct (rd_in_range (sl_bitmap s) index) as [w Hrd];
    [rewrite (wf_length _ Hwf); lia|].
  rewrite Hrd. apply rd_Ok in Hrd as [_ Hw]. simpl. destruct (Z.eqb_spec w 0) as [->|Hw0].
  - destruct (IH (index + 1)) as [[-> Hz]|(i & -> & Hi)]; [lia..| |].
    + left. split; [done|]. intros j Hj. destruct (decide (j = index)) as [->|]; [done|].
      apply Hz. lia.
    + right. by exists i.
  - destruct (__slab_alloc_spec s index w) as (-> & Hi & Hu & Hq); [done..|].
    right. eexists. simpl. rewrite Hq. by split.
Qed.

(** The search finds an available object whenever there is one. *)
Lemma slab_alloc_spec s :
  slab_wf s →
  (∃ i, priskv_slab_alloc s = Ok (Some (object_addr s i), with_lindex (taken s i) (i / 64)) ∧
     0 <= i < sl_objects s ∧ i ∉ used s) ∨
  (priskv_slab_alloc s = Ok (None, s) ∧ sl_inuse s = sl_objects s).
Proof.
  intros Hwf. unfold priskv_slab_alloc. rewrite bits_words by done.
  pose proof (wf_lindex _ Hwf) as Hli.
  destruct (slab_scan_spec (Z.to_nat ((sl_objects s + 63) / 64 - sl_lindex s)) s (sl_lindex s))
    as [[-> Hz1]|(i & -> & Hi)]; [done|lia..| |left; by exists i].
  simpl. destruct (slab_scan_spec (Z.to_nat (sl_lindex s)) s 0)
    as [[-> Hz2]|(i & -> & Hi)]; [done|lia..| |left; by exists i].
  right. split; [done|]. apply used_full; [done|]. intros i Hi. unfold avail.
  destruct (sl_bitmap s !! Z.to_nat (i / 64)) as [w|] eqn:Hw; [|done].
  pose proof (lookup_lt_Some _ _ _ Hw) as Hlt. pose proof (wf_length _ Hwf).
  assert (sl_bitmap s !! Z.to_nat (i / 64) = Some 0) as Hw'.
  { assert (0 <= i / 64) by (apply Z.div_pos; lia).
    destruct (decide (i / 64 < sl_lindex s)); [apply Hz2|apply Hz1]; lia. }
  simplify_eq. apply Z.bits_0.
Qed.

Lemma slab_index_spec s i :
  slab_wf s → 0 <= i < sl_objects s → i < 2 ^ 31 →
  priskv_slab_index s (object_addr s i) = Ok i.
Proof.
  intros Hwf Hi Hi'. unfold priskv_slab_index, __priskv_slab_index, object_addr.
  pose proof (wf_size _ Hwf).
  replace (sl_base s + i * sl_size s - sl_base s) with (i * sl_size s) by lia.
  rewrite Z.rem_mul, Z.quot_mul by lia. simpl. rewrite cassert_true by lia. simpl.
  by rewrite s32_small by lia.
Qed.

Lemma slab_reserve_spec s i :
  slab_wf s → 0 <= i < sl_objects s → i ∉ used s →
  priskv_slab_reserve s i = Ok (object_addr s i, taken s i).
Proof.
  intros Hwf Hi Hu. destruct (word_of s Hwf i Hi) as (w & Hw & _).
  unfold priskv_slab_reserve, BITS_OF_UL.
  rewrite !cassert_true by lia. simpl.
  assert (0 <= i / 64) as Hq by (apply Z.div_pos; lia).
  rewrite (proj2 (rd_Ok _ _ _) (conj Hq Hw)). simpl.
  pose proof (lookup_lt_Some _ _ _ Hw). rewrite wr_Ok by lia. simpl.
  rewrite object_addr_u64 by done. unfold taken.
  rewrite (alter_insert_lookup _ _ _ _ Hw). rewrite u32_small; [done|].
  pose proof (inuse_range s Hwf). pose proof (wf_objects s Hwf). lia.
Qed.

Lemma slab_free_spec s i :
  slab_wf s → i ∈ used s → i < 2 ^ 31 → priskv_slab_free s (object_addr s i) = Ok (given s i).
Proof.
  intros Hwf Hu Hi'. pose proof Hu as [Hi _]%elem_of_used.
  destruct (word_of s Hwf i Hi) as (w & Hw & _).
  unfold priskv_slab_free. change (__priskv_slab_index s) with (priskv_slab_index s).
  rewrite slab_index_spec by done. rewrite Ok_bind, (cassert_true (0 <=? i)) by lia.
  simpl. unfold BITS_OF_UL.
  assert (0 <= i / 64) as Hq by (apply Z.div_pos; lia).
  rewrite (proj2 (rd_Ok _ _ _) (conj Hq Hw)). simpl.
  pose proof (lookup_lt_Some _ _ _ Hw). rewrite wr_Ok by lia. simpl.
  pose proof (inuse_range s Hwf). pose proof (wf_objects s Hwf).
  assert (0 < sl_inuse s).
  { rewrite (wf_inuse _ Hwf). assert (size (used s) ≠ 0%nat); [|lia].
    intros ?%size_empty_inv. set_solver. }
  rewrite u32_small by lia. rewrite cassert_true by lia. simpl.
  unfold given. by rewrite (alter_insert_lookup _ _ _ _ Hw).
Qed.

(** ** Properties *)

(** Allocation. On a well-formed slab the search returns an object that was
    not handed out, marks exactly it, counts it and keeps the invariant; it
    returns the null pointer, and changes nothing, exactly when every object is
    in use. *)
Theorem slab_alloc_correct s :
  slab_wf s →
  ∃ r s', priskv_slab_alloc s = Ok (r, s') ∧ slab_wf s' ∧
    match r with
    | Some addr => ∃ i, addr = object_addr s i ∧ 0 <= i < sl_objects s ∧ i ∉ used s ∧
        used s' = {[ i ]} ∪ used s ∧ sl_inuse s' = sl_inuse s + 1
    | None => s' = s ∧ sl_inuse s = sl_objects s
    end.
Proof.
  intros Hwf. destruct (slab_alloc_spec s Hwf) as [(i & -> & Hi & Hu)|[-> Hfull]].
  - do 2 eexists. split; [done|]. split.
    + apply with_lindex_wf; [by apply taken_wf|]. simpl. dlia.
    + exists i. split_and!; try done; try lia. by rewrite <- used_taken.
  - exists None, s. by split_and!.
Qed.

(** Allocating an object and freeing it restores the bitmap and the count;
    only the search hint [lindex] may differ. *)
Theorem slab_alloc_free_roundtrip s addr s' :
  slab_wf s → priskv_slab_alloc s = Ok (Some addr, s') →
  priskv_slab_free s' addr = Ok (with_lindex s (sl_lindex s')).
Proof.
  intros Hwf Heq. pose proof (wf_objects _ Hwf). destruct (slab_alloc_spec s Hwf) as [(i & Heq' & Hi & Hu)|[Heq' _]];
    rewrite Heq in Heq'; [|done]. injection Heq' as -> ->.
  pose proof (taken_wf s Hwf i Hi Hu) as Hwf'.
  change (object_addr s i) with (object_addr (with_lindex (taken s i) (i / 64)) i).
  rewrite (slab_free_spec (with_lindex (taken s i) (i / 64)) i).
  - destruct (word_of s Hwf i Hi) as (w & Hw & Hr). unfold given, taken, with_lindex, with_bitmap.
    simpl. f_equal. f_equal; [lia|].
    rewrite (alter_insert_lookup _ (sl_bitmap s) _ w) by done.
    erewrite alter_insert_lookup by (apply list_lookup_insert_eq; by eapply lookup_lt_Some).
    rewrite list_insert_insert_eq. apply list_insert_id. rewrite Hw. f_equal.
    symmetry. apply set_clear_bit; [done|dlia|].
    destruct (avail (sl_bitmap s) i) eqn:Ha; [|destruct Hu; by apply elem_of_used].
    unfold avail in Ha. by rewrite Hw in Ha.
  - apply with_lindex_wf; [done|]. simpl. dlia.
  - change (i ∈ used (taken s i)). rewrite used_taken by done. set_solver.
  - lia.
Qed.

(** Reserving an object that is not handed out, as recovery does, takes
    exactly that object; an index outside the slab stops the process. *)
Theorem slab_reserve_correct s i :
  slab_wf s → i ∉ used s →
  if bool_decide (0 <= i < sl_objects s) then
    ∃ s', priskv_slab_reserve s i = Ok (object_addr s i, s') ∧ slab_wf s' ∧
      used s' = {[ i ]} ∪ used s ∧ priskv_slab_index s' (object_addr s i) = Ok (s32 i)
  else priskv_slab_reserve s i = Fault AssertFailed.
Proof.
  intros Hwf Hu. case_bool_decide as Hi.
  - exists (taken s i). pose proof (wf_objects _ Hwf).
    split_and!; [by apply slab_reserve_spec|by apply taken_wf|by apply used_taken|].
    rewrite s32_small by lia. change (object_addr s i) with (object_addr (taken s i) i).
    apply slab_index_spec; [by apply taken_wf|done|lia].
  - unfold priskv_slab_reserve. destruct (Z.leb_spec 0 i); [|done]. simpl.
    rewrite (proj2 (Z.ltb_ge _ _)) by lia. done.
Qed.

(** ** Examples: three objects of 100 bytes *)

Definition example_slab : priskv_slab :=
  {| sl_name := "keys"; sl_size := 100; sl_inuse := 1; sl_objects := 3; sl_base := 4096;
     sl_lindex := 0; sl_bitmap := [6] |}.

Example create_slab_example :
  priskv_slab_create true "keys" 4096 100 3 =
    Ok (Some {| sl_name := "keys"; sl_size := 100; sl_inuse := 0; sl_objects := 3;
                sl_base := 4096; sl_lindex := 0; sl_bitmap := [7] |}).
Proof. reflexivity. Qed.

Lemma example_slab_wf : slab_wf example_slab.
Proof.
  split; simpl; try done; try lia.
  - apply Forall_singleton. lia.
  - intros i Hi. unfold avail. destruct (decide (i < 64)) as [Hlt|Hge].
    + rewrite (Z.div_small i 64), (Z.mod_small i 64) by lia. simpl.
      destruct (decide (i < 3)); [lia|]. rewrite (testbit_above 6 3) by lia. done.
    + rewrite lookup_ge_None_2 by (simpl; dlia). done.
Defined.

Lemma slab_alloc_correct_witness :
  ∃ r s', priskv_slab_alloc example_slab = Ok (r, s') ∧ slab_wf s'.
Proof.
  destruct (slab_alloc_correct example_slab example_slab_wf) as (r & s' & Heq & Hwf & _).
  exists r, s'. split; [exact Heq|exact Hwf].
Defined.

Lemma slab_alloc_free_roundtrip_witness :
  ∃ s', priskv_slab_alloc example_slab = Ok (Some 4196, s') ∧
    priskv_slab_free s' 4196 = Ok (with_lindex example_slab 0).
Proof.
  eexists. split; [reflexivity|].
  refine (slab_alloc_free_roundtrip example_slab 4196 _ example_slab_wf _). reflexivity.
Defined.

Lemma slab_reserve_correct_witness :
  ∃ s', priskv_slab_reserve example_slab 2 = Ok (4296, s') ∧ slab_wf s'.
Proof.
  assert (2 ∉ used example_slab) as Hu by (rewrite elem_of_used; intros [_ H]; discriminate H).
  destruct (slab_reserve_correct example_slab 2 example_slab_wf Hu) as (s' & Heq & Hwf & _).
  exists s'. split; [exact Heq|exact Hwf].
Defined.

End Slab.
