(* ===== verification/Buddy.v ===== *)
(** * The value allocator

    [server/buddy.c]: a binary buddy allocator over [nmemb] blocks of [size]
    bytes. Its metadata is an implicit binary tree in an array: [meta[i]] is the
    size, in blocks, of the largest free run below node [i]. The module below
    has the code; the trees, the abstract allocator on them and the proof that
    the array code implements it follow. *)

From S2P Require Import Prelude Utils.

Module Buddy.

Record buddy := mk_buddy {
  bd_nmemb : Z;     (* uint32_t *)
  bd_inuse : Z;     (* uint32_t *)
  bd_size : Z;      (* uint32_t *)
  bd_base : Z;      (* uint8_t * *)
  bd_meta : list Z  (* uint32_t * *)
}.

Definition L_LEAF (index : Z) : Z := u32 (index * 2 + 1).
Definition R_LEAF (index : Z) : Z := u32 (index * 2 + 2).
Definition PARENT (index : Z) : Z := u32 (u32 (index + 1) / 2 - 1).

Definition MAX (a b : Z) : Z := if a >? b then a else b.

(** [32 - __builtin_clz(val)] is the number of significant bits. *)
Definition roundup_power_of_2 (val : Z) : res Z :=
  if 32 <=? Z.log2 val + 1 then Fault BadShift else Ok (1 ≪ (Z.log2 val + 1)).

(** The initialisation loop: [n] turns from node [i]. *)
Fixpoint buddy_init (n : nat) (i nodes : Z) (meta : list Z) : res (list Z) :=
  match n with
  | O => Ok meta
  | S n =>
      let nodes := if IS_POWER_OF_2 (i + 1) then nodes / 2 else nodes in
      meta ← wr meta i nodes;
      buddy_init n (i + 1) nodes meta
  end.

(** [raw] is the memory after the blocks, where the metadata is laid out, as
    the caller left it; [calloc_ok] says whether [calloc] returned memory. *)
Definition priskv_buddy_create (calloc_ok : bool) (raw : list Z) (bs nm sz : Z)
    : res (option buddy) :=
  if bs =? 0 then Ok None else
  if negb (IS_POWER_OF_2 nm) then Ok None else
  if negb calloc_ok then Ok None else
  meta ← buddy_init (Z.to_nat (u32 (u32 (nm * 2) - 1))) 0 (u32 (nm * 2)) raw;
  Ok (Some {| bd_nmemb := nm; bd_inuse := 0; bd_size := sz; bd_base := bs; bd_meta := meta |}).

Definition priskv_buddy_base (b : buddy) : Z := bd_base b.
Definition priskv_buddy_size (b : buddy) : Z := bd_size b.
Definition priskv_buddy_nmemb (b : buddy) : Z := bd_nmemb b.
Definition priskv_buddy_inuse (b : buddy) : Z := bd_inuse b.

Definition with_meta (b : buddy) (inuse' : Z) (meta : list Z) : buddy :=
  {| bd_nmemb := bd_nmemb b; bd_inuse := inuse'; bd_size := bd_size b;
     bd_base := bd_base b; bd_meta := meta |}.

(** [for (nodes = nmemb; nodes != alignup; nodes /= 2)]: the way down. *)
Fixpoint buddy_descend (fuel : nat) (meta : list Z) (nodes index alignup : Z) : res (Z * Z) :=
  if nodes =? alignup then Ok (nodes, index) else
  match fuel with
  | O => Fault OutOfFuel
  | S fuel =>
      l ← rd meta (L_LEAF index);
      buddy_descend fuel meta (nodes / 2)
        (if l >=? alignup then L_LEAF index else R_LEAF index) alignup
  end.

(** The update of the ancestors after an allocation. *)
Fixpoint buddy_ascend (fuel : nat) (meta : list Z) (index : Z) : res (list Z) :=
  if index =? 0 then Ok meta else
  match fuel with
  | O => Fault OutOfFuel
  | S fuel =>
      let index := PARENT index in
      l ← rd meta (L_LEAF index);
      r ← rd meta (R_LEAF index);
      meta ← wr meta index (MAX l r);
      buddy_ascend fuel meta index
  end.

(** A 32-bit index or size is halved at most 32 times. *)
Definition LEVELS : nat := 33.

Definition priskv_buddy_alloc (b : buddy) (sz : Z) : res (option Z * buddy) :=
  let alignup := u32 (u64 (sz + bd_size b - 1) / bd_size b) in
  alignup ← (if negb (IS_POWER_OF_2 alignup) then roundup_power_of_2 alignup else Ok alignup);
  root ← rd (bd_meta b) 0;
  if root <? alignup then Ok (None, b) else
  '(nodes, index) ← buddy_descend LEVELS (bd_meta b) (bd_nmemb b) 0 alignup;
  v ← rd (bd_meta b) index;
  if v =? 0 then Ok (None, b) else
  meta ← wr (bd_meta b) index 0;
  let offset := u32 (u32 ((index + 1) * nodes) - bd_nmemb b) in
  meta ← buddy_ascend LEVELS meta index;
  Ok (Some (bd_base b + u64 (offset * bd_size b)),
      with_meta b (u32 (bd_inuse b + alignup)) meta).

(** [for (nodes = 1; meta[index]; index = PARENT(index))]: from a leaf to the
    first ancestor that is handed out; [None] is the [goto end] at the root. *)
Fixpoint buddy_climb (fuel : nat) (meta : list Z) (nodes index : Z) : res (option (Z * Z)) :=
  v ← rd meta index;
  if v =? 0 then Ok (Some (nodes, index)) else
  match fuel with
  | O => Fault OutOfFuel
  | S fuel =>
      let nodes := u32 (nodes * 2) in
      if index =? 0 then Ok None else buddy_climb fuel meta nodes (PARENT index)
  end.

(** The update of the ancestors after a release, merging free buddies. *)
Fixpoint buddy_merge (fuel : nat) (meta : list Z) (nodes index : Z) : res (list Z) :=
  if index =? 0 then Ok meta else
  match fuel with
  | O => Fault OutOfFuel
  | S fuel =>
      let index := PARENT index in
      let nodes := u32 (nodes * 2) in
      left_meta ← rd meta (L_LEAF index);
      right_meta ← rd meta (R_LEAF index);
      meta ← wr meta index
               (if u32 (left_meta + right_meta) =? nodes then nodes
                else MAX left_meta right_meta);
      buddy_merge fuel meta nodes index
  end.

Definition priskv_buddy_free (b : buddy) (addr : Z) : res buddy :=
  let offset := u64 (Z.quot (addr - bd_base b) (bd_size b)) in
  assert! (bd_base b + u64 (offset * bd_size b) =? addr) ;;
  let index := u32 (offset + bd_nmemb b - 1) in
  assert! (index <? u32 (2 * bd_nmemb b)) ;;
  found ← buddy_climb LEVELS (bd_meta b) 1 index;
  match found with
  | None => Ok b
  | Some (nodes, index) =>
      assert! (index <? u32 (2 * bd_nmemb b)) ;;
      meta ← wr (bd_meta b) index nodes;
      meta ← buddy_merge LEVELS meta nodes index;
      Ok (with_meta b (u32 (bd_inuse b - nodes)) meta)
  end.

(** ** The abstract allocator: buddy trees *)

(** A tree of [k] levels covers [2^k] blocks: all free, handed out as one, or
    divided into two buddies. *)
Inductive tree := Free | Used | Split (l r : tree).

Global Instance tree_eq_dec : EqDecision tree.
Proof. solve_decision. Defined.

Definition sz (k : nat) : Z := 2 ^ Z.of_nat k.

(** The largest free run. *)
Fixpoint maxfree (k : nat) (t : tree) : Z :=
  match t with
  | Free => sz k
  | Used => 0
  | Split l r => Z.max (maxfree (pred k) l) (maxfree (pred k) r)
  end.

(** A well-formed tree of [k] levels never keeps two free buddies apart. *)
Fixpoint tree_wf (k : nat) (t : tree) : Prop :=
  match t with
  | Free | Used => True
  | Split l r =>
      (0 < k)%nat ∧ tree_wf (pred k) l ∧ tree_wf (pred k) r ∧ ~ (l = Free ∧ r = Free)
  end.

(** Buddies of a node, for a node that is not divided too. *)
Definition lchild (t : tree) : tree := match t with Split l _ => l | _ => Free end.
Definition rchild (t : tree) : tree := match t with Split _ r => r | _ => Free end.

(** Joining two buddies. *)
Definition join (l r : tree) : tree :=
  if decide (l = Free ∧ r = Free) then Free else Split l r.

(** Hand out [2^a] blocks: the new tree and the offset. *)
Fixpoint tree_alloc (k a : nat) (t : tree) : tree * Z :=
  match k with
  | O => (Used, 0)
  | S k' =>
      if decide (k = a) then (Used, 0)
      else if sz a <=? maxfree k' (lchild t)
      then let '(l, o) := tree_alloc k' a (lchild t) in (Split l (rchild t), o)
      else let '(r, o) := tree_alloc k' a (rchild t) in (Split (lchild t) r, sz k' + o)
  end.

(** The block that covers offset [o]: its start and its level. *)
Fixpoint tree_find (k : nat) (t : tree) (o : Z) : option (Z * nat) :=
  match t with
  | Free => None
  | Used => Some (0, k)
  | Split l r =>
      if o <? sz (pred k) then tree_find (pred k) l o
      else prod_map (Z.add (sz (pred k))) id <$> tree_find (pred k) r (o - sz (pred k))
  end.

(** Give back the block that covers offset [o]. *)
Fixpoint tree_free (k : nat) (t : tree) (o : Z) : tree :=
  match t with
  | Free => Free
  | Used => Free
  | Split l r =>
      if o <? sz (pred k) then join (tree_free (pred k) l o) r
      else join l (tree_free (pred k) r (o - sz (pred k)))
  end.

(** The blocks handed out: offset to length. *)
Fixpoint blocks (k : nat) (t : tree) (o : Z) : gmap Z Z :=
  match t with
  | Free => ∅
  | Used => {[ o := sz k ]}
  | Split l r => blocks (pred k) l o ∪ blocks (pred k) r (o + sz (pred k))
  end.

Fixpoint used_total (k : nat) (t : tree) : Z :=
  match t with
  | Free => 0
  | Used => sz k
  | Split l r => used_total (pred k) l + used_total (pred k) r
  end.

(** ** The metadata array represents a tree *)

Fixpoint repr (meta : list Z) (i : Z) (k : nat) (t : tree) : Prop :=
  rd meta i = Ok (maxfree k t) ∧
  match k with
  | O => True
  | S k => repr meta (2 * i + 1) k (lchild t) ∧ repr meta (2 * i + 2) k (rchild t)
  end.

(** Node [j] is below node [i], at most [k] levels down. *)
Definition below (i : Z) (k : nat) (j : Z) : Prop :=
  ∃ d, (d <= k)%nat ∧ (i + 1) * sz d <= j + 1 < (i + 2) * sz d.

(** ** Lemmas on sizes and trees *)

Lemma sz_S k : sz (S k) = 2 * sz k.
Proof. unfold sz. rewrite Nat2Z.inj_succ, Z.pow_succ_r by lia. done. Qed.

Lemma sz_pos k : 0 < sz k.
Proof. unfold sz. lia. Qed.

Lemma sz_le a k : (a <= k)%nat → sz a <= sz k.
Proof. intros. unfold sz. apply Z.pow_le_mono_r; lia. Qed.

Lemma sz_lt a k : (a < k)%nat → sz a < sz k.
Proof. intros. unfold sz. apply Z.pow_lt_mono_r; lia. Qed.

Lemma tree_wf_children k t : tree_wf (S k) t → tree_wf k (lchild t) ∧ tree_wf k (rchild t).
Proof. destruct t; simpl; naive_solver. Qed.

Lemma maxfree_range k t : tree_wf k t → 0 <= maxfree k t <= sz k.
Proof.
  revert t. induction k as [|k IH]; intros t;
    [pose proof (sz_pos 0)|pose proof (sz_pos (S k))]; destruct t as [| |l r]; simpl; try lia.
  intros (_ & Hl & Hr & _). apply IH in Hl, Hr. rewrite sz_S. lia.
Qed.

Lemma maxfree_full k t : tree_wf k t → sz k <= maxfree k t → t = Free.
Proof.
  destruct t as [| |l r]; simpl; [done|pose proof (sz_pos k); lia|].
  destruct k as [|k]; [lia|]. simpl. intros (_ & Hl & Hr & _).
  pose proof (maxfree_range k l Hl). pose proof (maxfree_range k r Hr).
  rewrite sz_S. pose proof (sz_pos k). lia.
Qed.

Lemma maxfree_children k t a :
  sz a <= maxfree (S k) t → (a <= k)%nat →
  sz a <= maxfree k (lchild t) ∨ sz a <= maxfree k (rchild t).
Proof.
  destruct t as [| |l r]; simpl; intros H Ha.
  - left. by apply sz_le.
  - pose proof (sz_pos a). lia.
  - lia.
Qed.

(** ** Lemmas on the nodes below a node *)

Lemma below_self i k : 0 <= i → below i k i.
Proof. intros. exists 0%nat. change (sz 0) with 1. lia. Qed.

Lemma below_l i k j : below (2 * i + 1) k j → below i (S k) j.
Proof.
  intros (d & Hd & H). exists (S d). rewrite sz_S. pose proof (sz_pos d).
  split; [lia|nia].
Qed.

Lemma below_r i k j : below (2 * i + 2) k j → below i (S k) j.
Proof.
  intros (d & Hd & H). exists (S d). rewrite sz_S. pose proof (sz_pos d).
  split; [lia|nia].
Qed.

Lemma below_range i k j : 0 <= i → below i k j → i <= j ∧ j + 1 < (i + 2) * sz k.
Proof.
  intros Hi (d & Hd & H). pose proof (sz_pos d). pose proof (sz_le d k Hd). nia.
Qed.

Lemma below_lr i k j : 0 <= i → below (2 * i + 1) k j → below (2 * i + 2) k j → False.
Proof.
  intros Hi (d1 & _ & H1) (d2 & _ & H2). pose proof (sz_pos d1). pose proof (sz_pos d2).
  destruct (decide (d1 <= d2)%nat) as [Hd|Hd].
  - pose proof (sz_le d1 d2 Hd). nia.
  - assert (sz (S d2) <= sz d1) as Hs by (apply sz_le; lia). rewrite sz_S in Hs. nia.
Qed.

(** The representation of a subtree only depends on the nodes below it. *)
Lemma repr_frame meta meta' i k t :
  (∀ j, below i k j → rd meta' j = rd meta j) → 0 <= i →
  repr meta i k t → repr meta' i k t.
Proof.
  revert i t. induction k as [|k IH]; intros i t Hf Hi; simpl.
  { rewrite Hf; [done|by apply below_self]. }
  intros (Hr & Hl & Hrr). split_and!.
  - rewrite Hf; [done|by apply below_self].
  - apply IH; [|lia|done]. intros j Hj. by apply Hf, below_l.
  - apply IH; [|lia|done]. intros j Hj. by apply Hf, below_r.
Qed.

Lemma repr_meta meta i k t : repr meta i k t → rd meta i = Ok (maxfree k t).
Proof. destruct k; by intros [? _]. Qed.

Lemma L_LEAF_eq i : 0 <= i → 2 * i + 2 < 2 ^ 32 → L_LEAF i = 2 * i + 1.
Proof. intros. unfold L_LEAF. rewrite u32_small; lia. Qed.

Lemma R_LEAF_eq i : 0 <= i → 2 * i + 2 < 2 ^ 32 → R_LEAF i = 2 * i + 2.
Proof. intros. unfold R_LEAF. rewrite u32_small; lia. Qed.

Lemma PARENT_l i : 0 <= i → 2 * i + 2 < 2 ^ 32 - 1 → PARENT (2 * i + 1) = i.
Proof.
  intros. unfold PARENT. rewrite (u32_small (_ + 1)) by lia.
  replace ((2 * i + 1 + 1) / 2) with (i + 1) by dlia. rewrite u32_small; lia.
Qed.

Lemma PARENT_r i : 0 <= i → 2 * i + 2 < 2 ^ 32 - 1 → PARENT (2 * i + 2) = i.
Proof.
  intros. unfold PARENT. rewrite (u32_small (_ + 1)) by lia.
  replace ((2 * i + 2 + 1) / 2) with (i + 1) by dlia. rewrite u32_small; lia.
Qed.

Lemma MAX_max a b : MAX a b = Z.max a b.
Proof. unfold MAX. rewrite Z.gtb_ltb. destruct (Z.ltb_spec b a); lia. Qed.

(** ** The loops on the array and the functions on trees *)

(** The array has room for the nodes below [i], and their numbers fit. *)
Definition fits (meta : list Z) (i : Z) (k : nat) : Prop :=
  0 <= i ∧ (i + 2) * sz k <= 2 ^ 32 ∧ (i + 2) * sz k <= Z.of_nat (length meta).

Definition unchanged (meta meta' : list Z) (i : Z) (k : nat) : Prop :=
  length meta' = length meta ∧ ∀ j, ~ below i k j → rd meta' j = rd meta j.

Lemma fits_l meta i k : fits meta i (S k) → fits meta (2 * i + 1) k.
Proof. intros (? & ? & ?). rewrite sz_S in *. pose proof (sz_pos k). split; [lia|nia]. Qed.

Lemma fits_r meta i k : fits meta i (S k) → fits meta (2 * i + 2) k.
Proof. intros (? & ? & ?). rewrite sz_S in *. pose proof (sz_pos k). split; [lia|nia]. Qed.

Lemma fits_bound meta i k : fits meta i (S k) → 2 * i + 3 < 2 ^ 32.
Proof. intros (? & ? & ?). rewrite sz_S in *. pose proof (sz_pos k). nia. Qed.

Lemma fits_index meta i k : fits meta i k → 0 <= i < Z.of_nat (length meta).
Proof. intros (? & ? & ?). pose proof (sz_pos k). nia. Qed.

Lemma fits_length meta meta' i k : length meta' = length meta → fits meta i k → fits meta' i k.
Proof. intros Hl. unfold fits. by rewrite Hl. Qed.

(** Writing the parent of two represented buddies makes a represented node. *)
Lemma repr_parent meta i k l r :
  fits meta i (S k) → repr meta (2 * i + 1) k l → repr meta (2 * i + 2) k r →
  repr (<[Z.to_nat i := maxfree (S k) (join l r)]> meta) i (S k) (join l r).
Proof.
  set (v := maxfree (S k) (join l r)). intros Hfit Hl Hr. pose proof (fits_index _ _ _ Hfit) as Hi.
  assert (∀ j, i < j → rd (<[Z.to_nat i := v]> meta) j = rd meta j) as Hf.
  { intros j Hj. apply rd_wr_ne; lia. }
  simpl. split; [apply rd_wr_eq; lia|].
  assert (lchild (join l r) = l ∧ rchild (join l r) = r) as [-> ->].
  { unfold join. case_decide; naive_solver. }
  split; (eapply repr_frame; [|lia|done]); intros j Hj; apply Hf;
    apply below_range in Hj; lia.
Qed.

Lemma join_split l r : ~ (l = Free ∧ r = Free) → join l r = Split l r.
Proof. intros. unfold join. by rewrite decide_False. Qed.

Lemma below_other_l meta meta' i k t :
  0 <= i → unchanged meta meta' (2 * i + 2) k → repr meta (2 * i + 1) k t →
  repr meta' (2 * i + 1) k t.
Proof.
  intros Hi [_ Hu]. apply repr_frame; [|lia]. intros j Hj. apply Hu. intros ?.
  by eapply (below_lr i k j).
Qed.

Lemma below_other_r meta meta' i k t :
  0 <= i → unchanged meta meta' (2 * i + 1) k → repr meta (2 * i + 2) k t →
  repr meta' (2 * i + 2) k t.
Proof.
  intros Hi [_ Hu]. apply repr_frame; [|lia]. intros j Hj. apply Hu. intros ?.
  by eapply (below_lr i k j).
Qed.

Lemma unchanged_parent meta meta' i k c v :
  fits meta i (S k) → c = 2 * i + 1 ∨ c = 2 * i + 2 → unchanged meta meta' c k →
  unchanged meta (<[Z.to_nat i := v]> meta') i (S k).
Proof.
  intros Hfit Hc [Hlen Hu]. pose proof (fits_index _ _ _ Hfit). split.
  { by rewrite length_insert. }
  intros j Hj. rewrite rd_wr_ne; [|lia|].
  - apply Hu. intros ?. apply Hj. destruct Hc as [-> | ->]; [by apply below_l|by apply below_r].
  - intros <-. apply Hj, below_self. lia.
Qed.

(** One turn of the loop of [priskv_buddy_alloc] that updates ancestors. *)
Lemma ascend_step f meta i k c l r :
  fits meta i (S k) → c = 2 * i + 1 ∨ c = 2 * i + 2 →
  repr meta (2 * i + 1) k l → repr meta (2 * i + 2) k r → ~ (l = Free ∧ r = Free) →
  buddy_ascend (S f) meta c =
    buddy_ascend f (<[Z.to_nat i := maxfree (S k) (Split l r)]> meta) i ∧
  repr (<[Z.to_nat i := maxfree (S k) (Split l r)]> meta) i (S k) (Split l r).
Proof.
  intros Hfit Hc Hl Hr Hne. pose proof (fits_index _ _ _ Hfit). pose proof (fits_bound _ _ _ Hfit).
  split; [|rewrite <- (join_split l r) by done; by apply repr_parent].
  simpl. rewrite (proj2 (Z.eqb_neq c 0)) by lia.
  assert (PARENT c = i) as ->.
  { destruct Hc as [-> | ->]; [apply PARENT_l|apply PARENT_r]; lia. }
  rewrite L_LEAF_eq, R_LEAF_eq by lia.
  rewrite (repr_meta _ _ _ _ Hl), (repr_meta _ _ _ _ Hr). simpl.
  rewrite wr_Ok by lia. simpl. by rewrite MAX_max.
Qed.

Lemma tree_alloc_here k t : tree_alloc k k t = (Used, 0).
Proof. destruct k; [done|]. simpl. by rewrite decide_True. Qed.

Lemma descend_here f meta i k : buddy_descend f meta (sz k) i (sz k) = Ok (sz k, i).
Proof. destruct f; simpl; by rewrite Z.eqb_refl. Qed.

(** Writing one node: 0 hands a free node out, its size makes it free again. *)
Lemma repr_write meta i k t t' :
  fits meta i k → repr meta i k t → lchild t = Free → rchild t = Free →
  lchild t' = Free → rchild t' = Free →
  repr (<[Z.to_nat i := maxfree k t']> meta) i k t' ∧
  unchanged meta (<[Z.to_nat i := maxfree k t']> meta) i k.
Proof.
  intros Hfit Hrep Ht1 Ht2 Ht3 Ht4. pose proof (fits_index _ _ _ Hfit). split.
  - destruct k as [|k]; simpl; (split; [apply rd_wr_eq; lia|]); [done|].
    destruct Hrep as (_ & Hl & Hr). rewrite Ht1 in Hl. rewrite Ht2 in Hr. rewrite Ht3, Ht4.
    split; (eapply repr_frame; [|lia|done]); intros j Hj; apply rd_wr_ne;
      apply below_range in Hj; lia.
  - split; [by rewrite length_insert|]. intros j Hj. apply rd_wr_ne; [lia|].
    intros <-. apply Hj, below_self. lia.
Qed.

Lemma descend_step f meta i k a t :
  fits meta i (S k) → repr meta i (S k) t → (a <= k)%nat →
  buddy_descend (S f) meta (sz (S k)) i (sz a) =
    buddy_descend f meta (sz k)
      (if sz a <=? maxfree k (lchild t) then 2 * i + 1 else 2 * i + 2) (sz a).
Proof.
  intros Hfit (_ & Hl & _) Ha. pose proof (fits_index _ _ _ Hfit).
  pose proof (fits_bound _ _ _ Hfit). pose proof (sz_lt a (S k)).
  simpl. rewrite (proj2 (Z.eqb_neq _ _)) by lia.
  rewrite L_LEAF_eq, R_LEAF_eq by lia. rewrite (repr_meta _ _ _ _ Hl). simpl.
  rewrite Z.geb_leb, sz_S, Z.mul_comm, Z.div_mul by lia. done.
Qed.

(** The way down from node [i] and the update back to it do what [tree_alloc]
    does on the tree below [i]. *)
Definition alloc_ok (k a : nat) (t : tree) (i : Z) (meta : list Z) : Prop :=
  ∃ idx meta',
    (∀ f, buddy_descend (k - a + f) meta (sz k) i (sz a) = Ok (sz a, idx)) ∧
    rd meta idx = Ok (sz a) ∧ 0 <= idx < Z.of_nat (length meta) ∧
    (idx + 1) * sz a = (i + 1) * sz k + (tree_alloc k a t).2 ∧
    (∀ f, buddy_ascend (k - a + f) (<[Z.to_nat idx := 0]> meta) idx = buddy_ascend f meta' i) ∧
    repr meta' i k (tree_alloc k a t).1 ∧ (tree_alloc k a t).1 ≠ Free ∧
    unchanged meta meta' i k.

Lemma alloc_here k t i meta :
  tree_wf k t → sz k <= maxfree k t → repr meta i k t → fits meta i k → alloc_ok k k t i meta.
Proof.
  intros Hwf Hmax Hrep Hfit. pose proof (fits_index _ _ _ Hfit) as Hi.
  apply maxfree_full in Hwf as ->; [|done].
  destruct (repr_write meta i k Free Used Hfit Hrep) as [Hw1 Hw2]; [done..|].
  exists i. eexists. rewrite tree_alloc_here, Nat.sub_diag.
  split_and!; [intros; apply descend_here|by apply repr_meta in Hrep|lia|lia|simpl; lia
              |intros; done|done|done|done].
Qed.

Lemma alloc_left k a t i meta :
  repr meta i (S k) t → fits meta i (S k) → (a <= k)%nat →
  sz a <= maxfree k (lchild t) → alloc_ok k a (lchild t) (2 * i + 1) meta →
  alloc_ok (S k) a t i meta.
Proof.
  intros Hrep Hfit Ha Hle (idx & meta1 & Hd & Hv & Hidx & Hoff & Hasc & Hrep1 & Hnf & Hun).
  pose proof (fits_index _ _ _ Hfit) as Hi. pose proof Hrep as (_ & _ & Hr).
  pose proof (λ f, ascend_step f meta1 i k (2 * i + 1) (tree_alloc k a (lchild t)).1 (rchild t)
    (fits_length _ _ _ _ (proj1 Hun) Hfit) (or_introl eq_refl) Hrep1
    (below_other_r _ _ _ _ _ (proj1 Hi) Hun Hr) (λ H, Hnf (proj1 H))) as Hstep.
  unfold alloc_ok. simpl tree_alloc. rewrite decide_False, (proj2 (Z.leb_le _ _) Hle) by lia.
  destruct (tree_alloc k a (lchild t)) as [l' o]. cbn [fst snd] in *. exists idx. eexists.
  split_and!; [|done|lia|lia|rewrite sz_S; lia| |exact (proj2 (Hstep 0%nat))|done|].
  - intros f. replace (S k - a + f)%nat with (S (k - a + f)) by lia.
    rewrite (descend_step _ _ _ _ _ t) by done. by rewrite (proj2 (Z.leb_le _ _) Hle).
  - intros f. replace (S k - a + f)%nat with (k - a + S f)%nat by lia.
    rewrite Hasc. exact (proj1 (Hstep f)).
  - eapply unchanged_parent; [done|by left|done].
Qed.

Lemma alloc_right k a t i meta :
  repr meta i (S k) t → fits meta i (S k) → (a <= k)%nat →
  maxfree k (lchild t) < sz a → alloc_ok k a (rchild t) (2 * i + 2) meta →
  alloc_ok (S k) a t i meta.
Proof.
  intros Hrep Hfit Ha Hlt (idx & meta1 & Hd & Hv & Hidx & Hoff & Hasc & Hrep1 & Hnf & Hun).
  pose proof (fits_index _ _ _ Hfit) as Hi. pose proof Hrep as (_ & Hl & _).
  pose proof (λ f, ascend_step f meta1 i k (2 * i + 2) (lchild t) (tree_alloc k a (rchild t)).1
    (fits_length _ _ _ _ (proj1 Hun) Hfit) (or_intror eq_refl)
    (below_other_l _ _ _ _ _ (proj1 Hi) Hun Hl) Hrep1 (λ H, Hnf (proj2 H))) as Hstep.
  unfold alloc_ok. simpl tree_alloc.
  rewrite decide_False, (proj2 (Z.leb_gt _ _) Hlt) by lia.
  destruct (tree_alloc k a (rchild t)) as [r' o]. cbn [fst snd] in *. exists idx. eexists.
  split_and!; [|done|lia|lia|rewrite sz_S; lia| |exact (proj2 (Hstep 0%nat))|done|].
  - intros f. replace (S k - a + f)%nat with (S (k - a + f)) by lia.
    rewrite (descend_step _ _ _ _ _ t) by done. by rewrite (proj2 (Z.leb_gt _ _) Hlt).
  - intros f. replace (S k - a + f)%nat with (k - a + S f)%nat by lia.
    rewrite Hasc. exact (proj1 (Hstep f)).
  - eapply unchanged_parent; [done|by right|done].
Qed.

Lemma alloc_node k : ∀ a t i meta,
  tree_wf k t → (a <= k)%nat → sz a <= maxfree k t → repr meta i k t → fits meta i k →
  alloc_ok k a t i meta.
Proof.
  induction k as [|k IH]; intros a t i meta Hwf Ha Hmax Hrep Hfit.
  { assert (a = 0%nat) as -> by lia. by apply alloc_here. }
  destruct (decide (a = S k)) as [->|Hak]; [by apply alloc_here|].
  pose proof Hwf as [Hwl Hwr]%tree_wf_children. pose proof Hrep as (_ & Hl & Hr).
  destruct (decide (sz a <= maxfree k (lchild t))) as [Hle|Hgt].
  - apply alloc_left; [done|done|lia|done|].
    apply IH; [done|lia|done|done|by apply fits_l].
  - apply alloc_right; [done|done|lia|lia|].
    destruct (maxfree_children k t a Hmax) as [?|?]; [lia|lia|].
    apply IH; [done|lia|done|done|by apply fits_r].
Qed.

Lemma maxfree_join k l r :
  tree_wf k l → tree_wf k r →
  maxfree (S k) (join l r) =
    (if maxfree k l + maxfree k r =? sz (S k) then sz (S k)
     else Z.max (maxfree k l) (maxfree k r)).
Proof.
  intros Hl Hr. pose proof (maxfree_range k l Hl). pose proof (maxfree_range k r Hr).
  unfold join. case_decide as Hd.
  - destruct Hd as [-> ->]. simpl. rewrite sz_S, Z.add_diag, Z.eqb_refl. done.
  - destruct (Z.eqb_spec (maxfree k l + maxfree k r) (sz (S k))) as [He|]; [|done].
    rewrite sz_S in He. destruct Hd. split; (eapply maxfree_full; [done|lia]).
Qed.

(** One turn of the merging loop of [priskv_buddy_free]. *)
Lemma merge_step f meta i k c l r :
  fits meta i (S k) → c = 2 * i + 1 ∨ c = 2 * i + 2 → tree_wf k l → tree_wf k r →
  repr meta (2 * i + 1) k l → repr meta (2 * i + 2) k r →
  buddy_merge (S f) meta (sz k) c =
    buddy_merge f (<[Z.to_nat i := maxfree (S k) (join l r)]> meta) (sz (S k)) i.
Proof.
  intros Hfit Hc Hwl Hwr Hl Hr.
  pose proof (fits_index _ _ _ Hfit). pose proof (fits_bound _ _ _ Hfit).
  pose proof (maxfree_range k l Hwl). pose proof (maxfree_range k r Hwr).
  assert (0 < sz (S k) <= 2 ^ 31) as Hsz.
  { pose proof (sz_pos (S k)). destruct Hfit as (? & ? & _). nia. }
  pose proof (sz_S k) as HS. rewrite maxfree_join by done.
  simpl. rewrite (proj2 (Z.eqb_neq c 0)) by lia.
  assert (PARENT c = i) as ->.
  { destruct Hc as [-> | ->]; [apply PARENT_l|apply PARENT_r]; lia. }
  rewrite L_LEAF_eq, R_LEAF_eq by lia.
  rewrite (repr_meta _ _ _ _ Hl), (repr_meta _ _ _ _ Hr). simpl.
  rewrite wr_Ok by lia. simpl. rewrite MAX_max, !u32_small by lia.
  by rewrite (Z.mul_comm (sz k)), <- HS.
Qed.

Lemma climb_step f meta i k c v :
  fits meta i (S k) → c = 2 * i + 1 ∨ c = 2 * i + 2 → rd meta c = Ok v → v ≠ 0 →
  buddy_climb (S f) meta (sz k) c = buddy_climb f meta (sz (S k)) i.
Proof.
  intros Hfit Hc Hv Hv0. pose proof (fits_index _ _ _ Hfit). pose proof (fits_bound _ _ _ Hfit).
  assert (0 < sz (S k) <= 2 ^ 31) as Hsz.
  { pose proof (sz_pos (S k)). destruct Hfit as (? & ? & _). nia. }
  cbn [buddy_climb]. rewrite Hv. cbn [mbind res_bind].
  rewrite (proj2 (Z.eqb_neq v 0)), (proj2 (Z.eqb_neq c 0)) by lia.
  assert (PARENT c = i) as ->.
  { destruct Hc as [-> | ->]; [apply PARENT_l|apply PARENT_r]; lia. }
  rewrite Z.mul_comm, <- sz_S, u32_small by lia. done.
Qed.

(** The buddy that covers offset [o], and the offset in it. *)
Definition child_at (k : nat) (t : tree) (o : Z) : tree :=
  if o <? sz k then lchild t else rchild t.
Definition child_off (k : nat) (o : Z) : Z := if o <? sz k then o else o - sz k.
Definition child_ix (k : nat) (i o : Z) : Z := if o <? sz k then 2 * i + 1 else 2 * i + 2.

Lemma tree_find_Split k l r o :
  tree_find (S k) (Split l r) o =
    prod_map (Z.add (o - child_off k o)) id <$> tree_find k (child_at k (Split l r) o) (child_off k o).
Proof.
  unfold child_off, child_at. simpl. destruct (_ <? _).
  - rewrite Z.sub_diag. destruct (tree_find k l o) as [[]|]; done.
  - replace (o - (o - sz k)) with (sz k) by lia. done.
Qed.

Lemma child_off_range k o : 0 <= o < sz (S k) → 0 <= child_off k o < sz k.
Proof. rewrite sz_S. unfold child_off. destruct (Z.ltb_spec o (sz k)); lia. Qed.

Lemma child_leaf k i o :
  (child_ix k i o + 1) * sz k + child_off k o = (i + 1) * sz (S k) + o.
Proof. rewrite sz_S. unfold child_off, child_ix. destruct (_ <? _); lia. Qed.

Lemma child_ix_or k i o : child_ix k i o = 2 * i + 1 ∨ child_ix k i o = 2 * i + 2.
Proof. unfold child_ix. destruct (_ <? _); auto. Qed.

Lemma child_facts meta i k t o :
  tree_wf (S k) t → repr meta i (S k) t → fits meta i (S k) →
  tree_wf k (child_at k t o) ∧ repr meta (child_ix k i o) k (child_at k t o) ∧
  fits meta (child_ix k i o) k.
Proof.
  intros [? ?]%tree_wf_children (_ & ? & ?) Hfit. unfold child_at, child_ix.
  destruct (_ <? _); split_and!; auto using fits_l, fits_r.
Qed.

Lemma find_none_maxfree k : ∀ t o,
  tree_wf k t → 0 <= o < sz k → tree_find k t o = None → 0 < maxfree k t.
Proof.
  induction k as [|k IH]; intros [| |l r] o Hwf Ho; simpl in Hwf;
    try (intros; apply sz_pos); try done; [lia|].
  rewrite tree_find_Split. intros Hn%fmap_None. destruct Hwf as (_ & ? & ? & _).
  apply IH in Hn; [|unfold child_at; by destruct (_ <? _)|by apply child_off_range].
  unfold child_at in Hn. simpl in *. destruct (_ <? _); lia.
Qed.

(** The climb from the leaf of offset [o] passes every node that is not handed
    out. *)
Lemma climb_none k : ∀ t i o meta f,
  tree_wf k t → repr meta i k t → fits meta i k → 0 <= o < sz k → tree_find k t o = None →
  buddy_climb (k + f) meta 1 ((i + 1) * sz k + o - 1) = buddy_climb f meta (sz k) i.
Proof.
  induction k as [|k IH]; intros t i o meta f Hwf Hrep Hfit Ho Hn.
  { change (sz 0) with 1 in *. f_equal. lia. }
  destruct (child_facts meta i k t o Hwf Hrep Hfit) as (Hwc & Hrc & Hfc).
  assert (tree_find k (child_at k t o) (child_off k o) = None) as Hn'.
  { destruct t as [| |l r]; [unfold child_at; by destruct (_ <? _)|done|].
    rewrite tree_find_Split in Hn. by apply fmap_None in Hn. }
  rewrite <- child_leaf. replace (S k + f)%nat with (k + S f)%nat by lia.
  rewrite (IH _ _ _ _ _ Hwc Hrc Hfc (child_off_range _ _ Ho) Hn').
  eapply climb_step; [done|apply child_ix_or|by apply repr_meta|].
  pose proof (find_none_maxfree _ _ _ Hwc (child_off_range _ _ Ho) Hn'). lia.
Qed.

Lemma climb_used k i o meta f :
  repr meta i k Used → fits meta i k → 0 <= o < sz k →
  buddy_climb (k + f) meta 1 ((i + 1) * sz k + o - 1) = Ok (Some (sz k, i)).
Proof.
  intros Hrep Hfit Ho.
  assert (∀ g, buddy_climb g meta (sz k) i = Ok (Some (sz k, i))) as Hhit.
  { intros g. apply repr_meta in Hrep. destruct g; simpl; by rewrite Hrep. }
  destruct k as [|k].
  { change (sz 0) with 1 in *. replace ((i + 1) * 1 + o - 1) with i by lia. apply Hhit. }
  destruct (child_facts meta i k Used o I Hrep Hfit) as (Hwc & Hrc & Hfc).
  assert (child_at k Used o = Free) as Hc by (unfold child_at; by destruct (_ <? _)).
  rewrite Hc in *. rewrite <- child_leaf. replace (S k + f)%nat with (k + S f)%nat by lia.
  rewrite (climb_none _ _ _ _ _ _ Hwc Hrc Hfc (child_off_range _ _ Ho) eq_refl).
  rewrite (climb_step f meta i k _ (sz k)); [apply Hhit|done|apply child_ix_or| |].
  - by apply repr_meta in Hrc.
  - pose proof (sz_pos k). lia.
Qed.

Lemma join_wf k l r : tree_wf k l → tree_wf k r → tree_wf (S k) (join l r).
Proof. intros. unfold join. case_decide; simpl; [done|]. split_and!; [lia|done..]. Qed.

Lemma tree_free_wf k : ∀ t o, tree_wf k t → tree_wf k (tree_free k t o).
Proof.
  induction k as [|k IH]; intros [| |l r] o Hwf; simpl in *; try done; [lia|].
  destruct Hwf as (_ & ? & ? & _). destruct (_ <? _); apply join_wf; auto.
Qed.

(** The climb finds the block that covers [o], and the merging loop, back to
    node [i], does what [tree_free] does on the tree below [i]. *)
Definition free_ok (k : nat) (t : tree) (i o : Z) (meta : list Z) (st : Z) (a : nat) : Prop :=
  ∃ idx meta',
    (∀ f, buddy_climb (a + f) meta 1 ((i + 1) * sz k + o - 1) = Ok (Some (sz a, idx))) ∧
    0 <= idx < Z.of_nat (length meta) ∧ (a <= k)%nat ∧
    (idx + 1) * sz a = (i + 1) * sz k + st ∧
    (∀ f, buddy_merge (k - a + f) (<[Z.to_nat idx := sz a]> meta) (sz a) idx =
          buddy_merge f meta' (sz k) i) ∧
    repr meta' i k (tree_free k t o) ∧ unchanged meta meta' i k.

Lemma free_here k i o meta :
  repr meta i k Used → fits meta i k → 0 <= o < sz k → free_ok k Used i o meta 0 k.
Proof.
  intros Hrep Hfit Ho. pose proof (fits_index _ _ _ Hfit).
  destruct (repr_write meta i k Used Free Hfit Hrep) as [Hw1 Hw2]; [done..|].
  exists i. eexists. rewrite Nat.sub_diag.
  split_and!; [|lia|lia|lia|lia|intros f; done|by destruct k|done].
  intros f. by apply climb_used.
Qed.

Lemma tree_free_Split k l r o :
  tree_free (S k) (Split l r) o =
    if o <? sz k then join (tree_free k l o) r else join l (tree_free k r (o - sz k)).
Proof. done. Qed.

Lemma free_child k l r i o meta st a :
  tree_wf (S k) (Split l r) → repr meta i (S k) (Split l r) → fits meta i (S k) →
  0 <= o < sz (S k) →
  free_ok k (child_at k (Split l r) o) (child_ix k i o) (child_off k o) meta st a →
  free_ok (S k) (Split l r) i o meta (o - child_off k o + st) a.
Proof.
  intros Hwf Hrep Hfit Ho (idx & meta1 & Hc & Hidx & Ha & Hoff & Hm & Hrep1 & Hun).
  destruct Hwf as (_ & Hwl & Hwr & _). destruct Hrep as (_ & Hl & Hr). simpl in Hl, Hr.
  pose proof (fits_length _ _ _ _ (proj1 Hun) Hfit) as Hfit1. pose proof (fits_index _ _ _ Hfit).
  unfold free_ok.
  assert (∃ l' r', tree_free (S k) (Split l r) o = join l' r' ∧ tree_wf k l' ∧ tree_wf k r' ∧
            repr meta1 (2 * i + 1) k l' ∧ repr meta1 (2 * i + 2) k r') as
    (l' & r' & -> & Hwl' & Hwr' & Hl' & Hr').
  { rewrite tree_free_Split. unfold child_at, child_off, child_ix in *. simpl in *.
    destruct (o <? sz k); do 2 eexists; (split; [done|]); split_and!; eauto using tree_free_wf.
    - eapply below_other_r; [lia|done..].
    - eapply below_other_l; [lia|done..]. }
  exists idx, (<[Z.to_nat i := maxfree (S k) (join l' r')]> meta1).
  split_and!; [|lia|lia|lia| | | |].
  - intros f. rewrite <- child_leaf. apply Hc.
  - pose proof (child_leaf k i o). lia.
  - intros f. replace (S k - a + f)%nat with (k - a + S f)%nat by lia. rewrite Hm.
    eapply merge_step; eauto using child_ix_or.
  - by apply repr_parent.
  - eapply unchanged_parent; eauto using child_ix_or.
Qed.

Lemma free_node k : ∀ t i o meta st a,
  tree_wf k t → repr meta i k t → fits meta i k → 0 <= o < sz k →
  tree_find k t o = Some (st, a) → free_ok k t i o meta st a.
Proof.
  induction k as [|k IH]; intros [| |l r] i o meta st a Hwf Hrep Hfit Ho Hf; try done.
  - simplify_eq/=. by apply free_here.
  - simpl in Hwf. lia.
  - simplify_eq/=. by apply free_here.
  - rewrite tree_find_Split in Hf.
    apply fmap_Some in Hf as ([st' a'] & Hf & [= -> ->]).
    destruct (child_facts meta i k _ o Hwf Hrep Hfit) as (? & ? & ?).
    apply free_child; auto. apply IH; auto using child_off_range.
Qed.

(** ** The blocks of a tree *)

Lemma blocks_range k : ∀ t b x n,
  tree_wf k t → blocks k t b !! x = Some n → b <= x ∧ x + n <= b + sz k ∧ 0 < n.
Proof.
  induction k as [|k IH]; intros [| |l r] b x n Hwf H; simpl in *.
  - done.
  - apply lookup_singleton_Some in H as [-> <-]. pose proof (sz_pos 0). lia.
  - lia.
  - done.
  - apply lookup_singleton_Some in H as [-> <-]. pose proof (sz_pos (S k)). lia.
  - destruct Hwf as (_ & Hl & Hr & _). pose proof (sz_pos k). rewrite sz_S.
    apply lookup_union_Some_raw in H as [H|[_ H]]; apply IH in H; (done || lia).
Qed.

Lemma blocks_disjoint k : ∀ t b x n y m,
  tree_wf k t → blocks k t b !! x = Some n → blocks k t b !! y = Some m → x ≠ y →
  x + n <= y ∨ y + m <= x.
Proof.
  induction k as [|k IH]; intros [| |l r] b x n y m Hwf Hx Hy Hne; simpl in *; try done;
    try (apply lookup_singleton_Some in Hx as [-> <-];
         apply lookup_singleton_Some in Hy as [-> <-]; done).
  { lia. }
  destruct Hwf as (_ & Hl & Hr & _).
  apply lookup_union_Some_raw in Hx as [Hx|[_ Hx]];
    apply lookup_union_Some_raw in Hy as [Hy|[_ Hy]]; eauto;
    apply blocks_range in Hx, Hy; (done || lia).
Qed.

(** A key at or above the middle is not in the left half, and conversely. *)
Lemma blocks_left_None k t b x :
  tree_wf k t → b + sz k <= x → blocks k t b !! x = None.
Proof.
  intros Hwf Hx. destruct (blocks k t b !! x) eqn:E; [|done].
  apply blocks_range in E; [lia|done].
Qed.

Lemma blocks_right_None k t b x : tree_wf k t → x < b → blocks k t b !! x = None.
Proof.
  intros Hwf Hx. destruct (blocks k t b !! x) eqn:E; [|done].
  apply blocks_range in E; [lia|done].
Qed.

Lemma blocks_Split k t b :
  t ≠ Used → blocks (S k) t b = blocks k (lchild t) b ∪ blocks k (rchild t) (b + sz k).
Proof. destruct t; simpl; [|done|done]. intros _. by rewrite (left_id_L ∅ _). Qed.

Lemma used_total_Split k t :
  t ≠ Used → used_total (S k) t = used_total k (lchild t) + used_total k (rchild t).
Proof. by destruct t. Qed.

Lemma maxfree_not_used k t a : sz a <= maxfree k t → t ≠ Used.
Proof. intros H ->. simpl in H. pose proof (sz_pos a). lia. Qed.

Lemma join_children k t : tree_wf (S k) t → t ≠ Used → join (lchild t) (rchild t) = t.
Proof. destruct t as [| |l r]; simpl; [done|done|]. intros (_ & _ & _ & ?) _. by apply join_split. Qed.

(** What an abstract allocation does: the new block is aligned to its size,
    inside the tree, was not handed out, and releasing it gives the old tree. *)
Definition tree_alloc_ok (k a : nat) (t : tree) (b : Z) : Prop :=
  let '(t', o) := tree_alloc k a t in
  tree_wf k t' ∧ t' ≠ Free ∧ (sz a | o) ∧ 0 <= o ∧ o + sz a <= sz k ∧
  blocks k t' b = <[b + o := sz a]> (blocks k t b) ∧ blocks k t b !! (b + o) = None ∧
  used_total k t' = used_total k t + sz a ∧ tree_free k t' o = t.

Lemma tree_alloc_ok_here k t b :
  tree_wf k t → sz k <= maxfree k t → tree_alloc_ok k k t b.
Proof.
  intros Hwf Hmax. apply maxfree_full in Hwf as ->; [|done].
  unfold tree_alloc_ok. rewrite tree_alloc_here.
  pose proof (sz_pos k). pose proof (Z.divide_0_r (sz k)).
  destruct k; simpl; rewrite Z.add_0_r; split_and!; (done || lia).
Qed.

Lemma tree_alloc_ok_left k a t b :
  tree_wf (S k) t → t ≠ Used → (a <= k)%nat → sz a <= maxfree k (lchild t) →
  tree_alloc_ok k a (lchild t) b → tree_alloc_ok (S k) a t b.
Proof.
  intros Hwf Hu Ha Hle. pose proof Hwf as [Hwl Hwr]%tree_wf_children.
  pose proof (sz_pos a). unfold tree_alloc_ok. simpl tree_alloc.
  rewrite decide_False, (proj2 (Z.leb_le _ _) Hle) by lia.
  destruct (tree_alloc k a (lchild t)) as [l' o].
  intros (Hw' & Hnf & Hd & Ho1 & Ho2 & Hb & Hn & Ht & Hfr).
  rewrite sz_S, (blocks_Split k t), (used_total_Split k t) by done.
  split_and!; try done; try lia.
  - simpl. split_and!; [lia|done|done|naive_solver].
  - simpl. rewrite Hb. by rewrite insert_union_l.
  - rewrite lookup_union_None. split; [done|]. apply blocks_right_None; [done|lia].
  - simpl. lia.
  - rewrite tree_free_Split, (proj2 (Z.ltb_lt o (sz k))), Hfr by lia.
    eauto using join_children.
Qed.

Lemma tree_alloc_ok_right k a t b :
  tree_wf (S k) t → t ≠ Used → (a <= k)%nat → maxfree k (lchild t) < sz a →
  tree_alloc_ok k a (rchild t) (b + sz k) → tree_alloc_ok (S k) a t b.
Proof.
  intros Hwf Hu Ha Hlt. pose proof Hwf as [Hwl Hwr]%tree_wf_children.
  pose proof (sz_pos a). unfold tree_alloc_ok. simpl tree_alloc.
  rewrite decide_False, (proj2 (Z.leb_gt _ _) Hlt) by lia.
  destruct (tree_alloc k a (rchild t)) as [r' o].
  intros (Hw' & Hnf & Hd & Ho1 & Ho2 & Hb & Hn & Ht & Hfr).
  assert (blocks k (lchild t) b !! (b + (sz k + o)) = None) as Hl.
  { apply blocks_left_None; [done|lia]. }
  rewrite sz_S, (blocks_Split k t), (used_total_Split k t), Z.add_assoc in * by done.
  split_and!; try done; try lia.
  - simpl. split_and!; [lia|done|done|naive_solver].
  - apply Z.divide_add_r; [|done]. exists (2 ^ (Z.of_nat k - Z.of_nat a)). unfold sz.
    rewrite <- Z.pow_add_r by lia. f_equal. lia.
  - simpl. rewrite Hb. by rewrite insert_union_r.
  - rewrite lookup_union_None. done.
  - simpl. lia.
  - rewrite tree_free_Split, (proj2 (Z.ltb_ge _ _)) by lia.
    replace (sz k + o - sz k) with o by lia. rewrite Hfr. eauto using join_children.
Qed.

Lemma tree_alloc_spec k : ∀ a t b,
  tree_wf k t → (a <= k)%nat → sz a <= maxfree k t → tree_alloc_ok k a t b.
Proof.
  induction k as [|k IH]; intros a t b Hwf Ha Hmax.
  { assert (a = 0%nat) as -> by lia. by apply tree_alloc_ok_here. }
  destruct (decide (a = S k)) as [->|Hak]; [by apply tree_alloc_ok_here|].
  pose proof Hwf as [Hwl Hwr]%tree_wf_children. pose proof (maxfree_not_used _ _ _ Hmax).
  destruct (decide (sz a <= maxfree k (lchild t))) as [Hle|Hgt].
  - apply tree_alloc_ok_left; auto with lia.
  - destruct (maxfree_children k t a Hmax) as [?|?]; [lia|lia|].
    apply tree_alloc_ok_right; auto with lia.
Qed.

(** What an abstract release does. *)
Lemma tree_find_block k : ∀ t b x n,
  tree_wf k t → blocks k t b !! x = Some n →
  ∃ a, n = sz a ∧ tree_find k t (x - b) = Some (x - b, a).
Proof.
  induction k as [|k IH]; intros [| |l r] b x n Hwf H; try done.
  - simpl in H. apply lookup_singleton_Some in H as [-> <-]. rewrite Z.sub_diag. by exists 0%nat.
  - simpl in Hwf. lia.
  - simpl in H. apply lookup_singleton_Some in H as [-> <-]. rewrite Z.sub_diag. by exists (S k).
  - destruct Hwf as (_ & Hl & Hr & _).
    rewrite tree_find_Split. simpl in H. pose proof (sz_pos k).
    unfold child_at, child_off. apply lookup_union_Some_raw in H as [H|[_ H]];
      pose proof H as Hrg%blocks_range; try done; apply IH in H as (a & -> & Hf); try done.
    + rewrite (proj2 (Z.ltb_lt _ _)) by lia. simpl. rewrite Hf. exists a. split; [done|].
      simpl. do 2 f_equal. lia.
    + rewrite (proj2 (Z.ltb_ge _ _)) by lia. simpl.
      replace (x - b - sz k) with (x - (b + sz k)) by lia. rewrite Hf. exists a.
      split; [done|]. simpl. do 2 f_equal. lia.
Qed.

Lemma blocks_join k l r b :
  blocks (S k) (join l r) b = blocks k l b ∪ blocks k r (b + sz k).
Proof.
  unfold join. case_decide as Hd; [|done]. destruct Hd as [-> ->]. simpl.
  by rewrite (left_id_L ∅ _).
Qed.

Lemma used_total_join k l r : used_total (S k) (join l r) = used_total k l + used_total k r.
Proof. unfold join. case_decide as Hd; [|done]. by destruct Hd as [-> ->]. Qed.

Lemma tree_free_spec k : ∀ t o b st a,
  tree_wf k t → 0 <= o < sz k → tree_find k t o = Some (st, a) →
  0 <= st <= o ∧ o < st + sz a ∧ st + sz a <= sz k ∧
  blocks k t b !! (b + st) = Some (sz a) ∧
  blocks k (tree_free k t o) b = delete (b + st) (blocks k t b) ∧
  used_total k (tree_free k t o) = used_total k t - sz a.
Proof.
  induction k as [|k IH]; intros [| |l r] o b st a Hwf Ho Hf; try done.
  - simplify_eq/=. rewrite Z.add_0_r, lookup_singleton_eq, delete_singleton_eq.
    split_and!; (done || lia).
  - simpl in Hwf. lia.
  - simplify_eq/=. rewrite Z.add_0_r, lookup_singleton_eq, delete_singleton_eq.
    split_and!; (done || lia).
  - destruct Hwf as (_ & Hl & Hr & _). rewrite tree_free_Split.
    simpl in Hf. pose proof (sz_pos k). rewrite sz_S in *. destruct (Z.ltb_spec o (sz k)) as [Hlt|Hge].
    + apply (IH _ _ b) in Hf as (? & ? & ? & Hb & Hb' & Hu); [|done|lia].
      rewrite blocks_join, used_total_join, Hb'. simpl.
      rewrite delete_union, (delete_id (blocks k r _)) by (apply blocks_right_None; [done|lia]).
      split_and!; try done; try lia. by apply lookup_union_Some_l.
    + apply fmap_Some in Hf as ([st' a'] & Hf & [= -> ->]).
      apply (IH _ _ (b + sz k)) in Hf as (? & ? & ? & Hb & Hb' & Hu); [|done|lia].
      rewrite blocks_join, used_total_join, Hb'. simpl. rewrite Z.add_assoc.
      assert (blocks k l b !! (b + sz k + st') = None) as Hn
        by (apply blocks_left_None; [done|lia]).
      rewrite delete_union, (delete_id (blocks k l _)) by done.
      split_and!; try done; try lia. by rewrite lookup_union_r.
Qed.

Lemma nonfree_block k : ∀ t b,
  tree_wf k t → t ≠ Free → ∃ x n, blocks k t b !! x = Some n.
Proof.
  induction k as [|k IH]; intros [| |l r] b Hwf Hnf; simpl in *; try done;
    try (exists b; eexists; by rewrite lookup_singleton_eq); [lia|].
  destruct Hwf as (_ & Hl & Hr & Hn). destruct (decide (l = Free)) as [->|Hlf].
  - destruct (IH r (b + sz k)) as (x & n & Hx); [done|naive_solver|].
    exists x, n. destruct k; simpl; by rewrite (left_id_L ∅ _).
  - destruct (IH l b) as (x & n & Hx); [done..|]. exists x, n.
    by apply lookup_union_Some_l.
Qed.

(** A tree without a free run of [2^a] blocks has a block in every aligned run
    of [2^a]: merging leaves no free run undetected. *)
Lemma maxfree_complete k : ∀ a t b o,
  tree_wf k t → (a <= k)%nat → maxfree k t < sz a → 0 <= o → o + sz a <= sz k → (sz a | o) →
  ∃ x n, blocks k t b !! x = Some n ∧ x < b + o + sz a ∧ b + o < x + n.
Proof.
  induction k as [|k IH]; intros a t b o Hwf Ha Hmax Ho1 Ho2 Hd;
    (assert (t ≠ Free) as Hnf by (intros ->; pose proof (sz_le _ _ Ha); simpl in Hmax; lia)).
  { destruct (nonfree_block 0 t b Hwf Hnf) as (x & n & Hx). exists x, n. split; [done|].
    pose proof (blocks_range _ _ _ _ _ Hwf Hx). assert (a = 0%nat) as -> by lia. lia. }
  destruct (decide (a = S k)) as [->|Hak].
  { destruct (nonfree_block _ t b Hwf Hnf) as (x & n & Hx). exists x, n. split; [done|].
    pose proof (blocks_range _ _ _ _ _ Hwf Hx). lia. }
  assert (t = Used ∨ t ≠ Used) as [->|Hu] by (destruct t; auto).
  { exists b, (sz (S k)). simpl. rewrite lookup_singleton_eq. pose proof (sz_pos a).
    split_and!; (done || lia). }
  destruct t as [| |l r]; [done..|]. destruct Hwf as (_ & Hl & Hr & _). simpl in *.
  assert ((sz a | sz k)) as [q Hq].
  { exists (2 ^ (Z.of_nat k - Z.of_nat a)). unfold sz. rewrite <- Z.pow_add_r by lia. f_equal. lia. }
  destruct Hd as [p Hp]. pose proof (sz_pos a). rewrite sz_S in Ho2.
  destruct (decide (o < sz k)) as [Hlt|Hge].
  - assert (p + 1 <= q) by (apply Z.le_succ_l, (Z.mul_lt_mono_pos_r (sz a)); lia).
    destruct (IH a l b o) as (x & n & Hx & ?); [done|lia|lia|lia|nia|by exists p|].
    exists x, n. split; [by apply lookup_union_Some_l|done].
  - destruct (IH a r (b + sz k) (o - sz k)) as (x & n & Hx & ?);
      [done|lia|lia|lia|lia|exists (p - q); lia|].
    exists x, n. split; [|lia]. apply lookup_union_Some_raw. right. split; [|done].
    apply blocks_left_None; [done|]. apply blocks_range in Hx; [lia|done].
Qed.

Lemma used_total_range k : ∀ t, tree_wf k t → 0 <= used_total k t <= sz k.
Proof.
  induction k as [|k IH]; intros t Hwf;
    [pose proof (sz_pos 0)|pose proof (sz_pos (S k))]; destruct t as [| |l r]; simpl in *; try lia.
  destruct Hwf as (_ & Hl & Hr & _). apply IH in Hl, Hr. rewrite sz_S. lia.
Qed.

(** The tree determines the words of the array. *)
Lemma below_inv i k j :
  below i (S k) j → j = i ∨ below (2 * i + 1) k j ∨ below (2 * i + 2) k j.
Proof.
  intros ([|d] & Hd & H).
  { left. change (sz 0) with 1 in H. lia. }
  right. rewrite sz_S in H. destruct (decide (j + 1 < (2 * i + 3) * sz d)).
  - left. exists d. split; [lia|]. lia.
  - right. exists d. split; [lia|]. lia.
Qed.

Lemma repr_inj meta meta' k : ∀ i t j,
  repr meta i k t → repr meta' i k t → below i k j → rd meta j = rd meta' j.
Proof.
  induction k as [|k IH]; intros i t j H1 H2 Hj.
  { destruct Hj as (d & ? & Hj). assert (d = 0%nat) as -> by lia.
    change (sz 0) with 1 in Hj. assert (j = i) as -> by lia.
    apply repr_meta in H1, H2. congruence. }
  pose proof H1 as (_ & ? & ?). pose proof H2 as (_ & ? & ?).
  apply below_inv in Hj as [->|[Hj|Hj]]; [|eauto..].
  apply repr_meta in H1, H2. congruence.
Qed.

(** ** The allocator's invariant *)

(** [b] represents the tree [t] of [k] levels. *)
Record buddy_repr (b : buddy) (k : nat) (t : tree) : Prop := mk_buddy_repr {
  br_nmemb : bd_nmemb b = sz k;
  br_levels : (k <= 30)%nat; (* with 2^31 members, nmemb * 2 wraps to 0 *)
  br_size : 0 < bd_size b < 2 ^ 32;
  br_base : 0 < bd_base b;
  br_end : bd_base b + bd_nmemb b * bd_size b <= 2 ^ 64;
  br_length : Z.of_nat (length (bd_meta b)) = 2 * sz k;
  br_wf : tree_wf k t;
  br_meta : repr (bd_meta b) 0 k t;
  br_inuse : bd_inuse b = used_total k t
}.

(** The blocks a request for [n] bytes needs, and its level. *)
Definition units (b : buddy) (n : Z) : Z := (n + bd_size b - 1) / bd_size b.
Definition level (b : buddy) (n : Z) : nat := Z.to_nat (Z.log2_up (units b n)).

(** Requests the code handles: not empty, and not so large that rounding the
    number of blocks up to a power of two overflows. *)
Definition valid_request (b : buddy) (n : Z) : Prop := 0 < n < 2 ^ 32 ∧ units b n <= 2 ^ 31.

Lemma repr_fits b k t : buddy_repr b k t → fits (bd_meta b) 0 k.
Proof.
  intros H. pose proof (br_length _ _ _ H) as Hl. pose proof (sz_le k 30 (br_levels _ _ _ H)) as Hs.
  change (sz 30) with (2 ^ 30) in Hs. split; lia.
Qed.

Lemma log2_up_IS_POWER_OF_2 n :
  0 < n → Z.log2_up n = if IS_POWER_OF_2 n then Z.log2 n else Z.log2 n + 1.
Proof.
  intros Hn. destruct (Z.log2_log2_up_exact n Hn) as [He1 He2].
  destruct (IS_POWER_OF_2 n) eqn:Hp.
  - symmetry. apply He2. exists (Z.log2 n). by apply IS_POWER_OF_2_inv.
  - pose proof (Z.le_log2_log2_up n). pose proof (Z.le_log2_up_succ_log2 n).
    assert (Z.log2 n ≠ Z.log2_up n); [|lia]. intros Heq. apply He1 in Heq as [e ->].
    rewrite IS_POWER_OF_2_pow in Hp; [done|]. destruct (decide (e < 0)); [|lia].
    rewrite Z.pow_neg_r in Hn; lia.
Qed.

Lemma units_range b n :
  0 < bd_size b < 2 ^ 32 → valid_request b n → 0 < units b n <= 2 ^ 31 ∧
  u32 (u64 (n + bd_size b - 1) / bd_size b) = units b n.
Proof.
  intros Hs [Hn Hu]. assert (0 < units b n) by (unfold units; apply Z.div_str_pos; lia).
  split; [lia|]. rewrite u64_small by lia. apply u32_small. unfold units in *. lia.
Qed.

(** The rounding of [priskv_buddy_alloc] is to the next power of two. *)
Lemma alignup_spec b n :
  0 < bd_size b < 2 ^ 32 → valid_request b n →
  let alignup := u32 (u64 (n + bd_size b - 1) / bd_size b) in
  (if negb (IS_POWER_OF_2 alignup) then roundup_power_of_2 alignup else Ok alignup)
    = Ok (sz (level b n)).
Proof.
  intros Hs Hv. simpl. destruct (units_range b n Hs Hv) as [Hu ->].
  unfold level, sz. rewrite Z2Nat.id by apply Z.log2_up_nonneg.
  rewrite (log2_up_IS_POWER_OF_2 (units b n)) by lia.
  destruct (IS_POWER_OF_2 (units b n)) eqn:Hp; simpl.
  - f_equal. apply IS_POWER_OF_2_inv; [lia|done].
  - unfold roundup_power_of_2. pose proof (Z.log2_nonneg (units b n)).
    assert (Z.log2 (units b n) < 31).
    { apply Z.log2_lt_pow2; [lia|]. destruct (decide (units b n = 2 ^ 31)) as [He|]; [|lia].
      rewrite He in Hp. by rewrite IS_POWER_OF_2_pow in Hp. }
    rewrite (proj2 (Z.leb_gt _ _)) by lia. by rewrite Z.shiftl_mul_pow2, Z.mul_1_l by lia.
Qed.

(** The rounded size holds the request. *)
Lemma level_holds b n :
  0 < bd_size b < 2 ^ 32 → valid_request b n → n <= sz (level b n) * bd_size b.
Proof.
  intros Hs Hv. destruct (units_range b n Hs Hv) as [Hu _].
  assert (units b n <= sz (level b n)) as Hle.
  { unfold level, sz. rewrite Z2Nat.id by apply Z.log2_up_nonneg.
    apply Z.log2_log2_up_spec. lia. }
  enough (n <= units b n * bd_size b) by nia. unfold units.
  pose proof (Z.mod_pos_bound (n + bd_size b - 1) (bd_size b) (proj1 Hs)) as Hm.
  rewrite Z.mod_eq in Hm by lia. lia.
Qed.

Lemma ascend_root f meta : buddy_ascend f meta 0 = Ok meta.
Proof. by destruct f. Qed.

Lemma merge_root f meta n : buddy_merge f meta n 0 = Ok meta.
Proof. by destruct f. Qed.

Lemma offset_addr b k t o :
  buddy_repr b k t → 0 <= o < sz k → bd_base b + u64 (o * bd_size b) = bd_base b + o * bd_size b.
Proof.
  intros H Ho. destruct H. rewrite u64_small; [done|]. rewrite br_nmemb0 in *. nia.
Qed.

Lemma inuse_bound b k t : buddy_repr b k t → 0 <= bd_inuse b <= sz k ∧ sz k <= 2 ^ 30.
Proof.
  intros H. rewrite (br_inuse _ _ _ H). split; [apply used_total_range, (br_wf _ _ _ H)|].
  apply (sz_le k 30), (br_levels _ _ _ H).
Qed.

(** Two states of one allocator: same area, and the word behind the tree kept. *)
Definition same_area (b b' : buddy) (k : nat) : Prop :=
  bd_base b' = bd_base b ∧ bd_size b' = bd_size b ∧ bd_nmemb b' = bd_nmemb b ∧
  unchanged (bd_meta b) (bd_meta b') 0 k.

(** Allocation refines [tree_alloc]. *)
Lemma buddy_alloc_refines b k t n :
  buddy_repr b k t → valid_request b n →
  if sz (level b n) <=? maxfree k t then
    ∃ b', priskv_buddy_alloc b n =
            Ok (Some (bd_base b + (tree_alloc k (level b n) t).2 * bd_size b), b') ∧
      buddy_repr b' k (tree_alloc k (level b n) t).1 ∧
      same_area b b' k
  else priskv_buddy_alloc b n = Ok (None, b).
Proof.
  intros H Hv. pose proof (inuse_bound b k t H) as [Hin Hsz31].
  pose proof (repr_fits b k t H) as Hfit. pose proof (br_meta _ _ _ H) as Hrep.
  pose proof (maxfree_range k t (br_wf _ _ _ H)) as Hmr.
  unfold priskv_buddy_alloc. rewrite alignup_spec by (done || apply (br_size _ _ _ H)).
  set (a := level b n). rewrite Ok_bind, (repr_meta _ _ _ _ Hrep), Ok_bind.
  pose proof (sz_pos a) as Hpos.
  destruct (Z.leb_spec (sz a) (maxfree k t)) as [Hle|Hlt];
    [rewrite (proj2 (Z.ltb_ge _ _)) by lia|by rewrite (proj2 (Z.ltb_lt _ _)) by lia].
  assert (a <= k)%nat as Ha.
  { destruct (decide (a <= k)%nat); [done|]. pose proof (sz_lt k a). lia. }
  destruct (alloc_node k a t 0 (bd_meta b) (br_wf _ _ _ H) Ha Hle Hrep Hfit)
    as (idx & meta' & Hdesc & Hv0 & Hidx & Hoff & Hasc & Hrep' & _ & Hun).
  pose proof (proj1 Hun) as Hlen. assert (LEVELS = (k - a + (33 - (k - a)))%nat) as HL
    by (pose proof (br_levels _ _ _ H); unfold LEVELS; lia).
  rewrite HL. rewrite (br_nmemb _ _ _ H), Hdesc, Ok_bind, Hv0, Ok_bind.
  rewrite (proj2 (Z.eqb_neq _ _)) by lia. rewrite wr_Ok, Ok_bind by lia.
  rewrite Hasc, ascend_root, Ok_bind.
  pose proof (tree_alloc_spec k a t 0 (br_wf _ _ _ H) Ha Hle) as Htree. unfold tree_alloc_ok in Htree.
  destruct (tree_alloc k a t) as [t' o]. cbn [fst snd] in *.
  destruct Htree as (Hwf' & _ & _ & Ho1 & Ho2 & _ & _ & Htot & _).
  pose proof (used_total_range k t' Hwf') as Hr'. rewrite (br_inuse _ _ _ H) in *.
  rewrite (u32_small (_ * _)), !u32_small by lia.
  replace ((idx + 1) * sz a - sz k) with o by lia.
  rewrite (offset_addr b k t) by (done || lia).
  eexists. split; [done|]. split; [|by split_and!].
  destruct H. split; simpl; try done; try lia.
Qed.

(** A release finds the block that covers the address and refines [tree_free];
    when nothing covers it, nothing changes. *)
Lemma buddy_free_refines b k t o :
  buddy_repr b k t → 0 <= o < sz k →
  match tree_find k t o with
  | Some (st, a) =>
      ∃ b', priskv_buddy_free b (bd_base b + o * bd_size b) = Ok b' ∧
        buddy_repr b' k (tree_free k t o) ∧
        same_area b b' k
  | None => priskv_buddy_free b (bd_base b + o * bd_size b) = Ok b
  end.
Proof.
  intros H Ho. pose proof (inuse_bound b k t H) as [Hin Hsz31].
  pose proof (repr_fits b k t H) as Hfit. pose proof (br_meta _ _ _ H) as Hrep.
  pose proof (br_size _ _ _ H) as Hbs. pose proof (br_levels _ _ _ H) as Hk.
  unfold priskv_buddy_free.
  replace (bd_base b + o * bd_size b - bd_base b) with (o * bd_size b) by lia.
  rewrite Z.quot_mul by lia. rewrite (u64_small o) by lia.
  rewrite (offset_addr b k t), Z.eqb_refl by done. simpl cassert. rewrite Ok_bind.
  rewrite (br_nmemb _ _ _ H). rewrite (u32_small (o + _ - _)), (u32_small (2 * _)) by lia.
  rewrite cassert_true, Ok_bind by lia.
  replace (o + sz k - 1) with ((0 + 1) * sz k + o - 1) by lia.
  destruct (tree_find k t o) as [[st a]|] eqn:Hf.
  - destruct (free_node k t 0 o (bd_meta b) st a (br_wf _ _ _ H) Hrep Hfit Ho Hf)
      as (idx & meta' & Hclimb & Hidx & Ha & _ & Hm & Hrep' & Hun).
    pose proof (proj1 Hun) as Hlen. assert (LEVELS = (a + (33 - a))%nat) as HL by (unfold LEVELS; lia).
    rewrite HL, Hclimb, Ok_bind, <- HL. clear HL. pose proof (br_length _ _ _ H).
    rewrite cassert_true, Ok_bind by lia. rewrite wr_Ok, Ok_bind by lia.
    assert (LEVELS = (k - a + (33 - (k - a)))%nat) as -> by (unfold LEVELS; lia).
    rewrite Hm, merge_root, Ok_bind.
    pose proof (tree_free_spec k t o 0 st a (br_wf _ _ _ H) Ho Hf) as (_ & _ & _ & _ & _ & Htot).
    pose proof (tree_free_wf k t o (br_wf _ _ _ H)) as Hwf'.
    pose proof (used_total_range _ _ Hwf'). rewrite (br_inuse _ _ _ H) in *.
    rewrite u32_small by lia. eexists. split; [done|].
    split; [|by split_and!].
    destruct H. split; simpl; try done; try lia.
  - assert (LEVELS = (k + (33 - k))%nat) as -> by (unfold LEVELS; lia).
    rewrite (climb_none _ _ _ _ _ _ (br_wf _ _ _ H) Hrep Hfit Ho Hf).
    pose proof (find_none_maxfree _ _ _ (br_wf _ _ _ H) Ho Hf).
    replace (33 - k)%nat with (S (32 - k)) by lia. cbn [buddy_climb].
    rewrite (repr_meta _ _ _ _ Hrep), Ok_bind, (proj2 (Z.eqb_neq _ _)) by lia. done.
Qed.

(** The tree and the word behind it determine the array. *)
Lemma unchanged_trans m1 m2 m3 i k :
  unchanged m1 m2 i k → unchanged m2 m3 i k → unchanged m1 m3 i k.
Proof. intros [? H1] [? H2]. split; [congruence|]. intros j Hj. rewrite H2; auto. Qed.

Lemma below_root k j : 0 <= j < 2 * sz k - 1 → below 0 k j.
Proof.
  intros Hj. exists (Z.to_nat (Z.log2 (j + 1))). unfold sz in *.
  pose proof (Z.log2_nonneg (j + 1)). rewrite Z2Nat.id by done.
  pose proof (Z.log2_spec (j + 1) ltac:(lia)) as Hs. rewrite Z.pow_succ_r in Hs by done.
  split; [|lia]. assert (Z.log2 (j + 1) < Z.of_nat k + 1); [|lia].
  apply Z.log2_lt_pow2; [lia|]. rewrite Z.pow_add_r by lia. lia.
Qed.

Lemma meta_ext m m' k t :
  repr m 0 k t → repr m' 0 k t → unchanged m' m 0 k → m = m'.
Proof.
  intros H1 H2 [Hlen Hun]. apply list_eq. intros i.
  destruct (decide (i < length m)%nat) as [Hi|Hi];
    [|rewrite !lookup_ge_None_2 by lia; done].
  assert (rd m (Z.of_nat i) = rd m' (Z.of_nat i)) as Heq.
  { destruct (decide (Z.of_nat i < 2 * sz k - 1)).
    - eapply repr_inj; [done..|]. apply below_root. lia.
    - apply Hun. intros Hb%below_range; lia. }
  destruct (rd_in_range m (Z.of_nat i)) as [x Hx]; [lia|].
  rewrite Hx in Heq. symmetry in Heq. apply rd_Ok in Hx as [_ Hx], Heq as [_ Heq].
  rewrite Nat2Z.id in *. congruence.
Qed.

(** ** Creation *)

(** The initial value of node [i] in a tree of [k] levels. *)
Definition init_value (k : nat) (i : Z) : Z := 2 ^ (Z.of_nat k - Z.log2 (i + 1)).

Lemma log2_next i :
  0 < i → Z.log2 (i + 1) = if IS_POWER_OF_2 (i + 1) then Z.log2 i + 1 else Z.log2 i.
Proof.
  intros Hi. pose proof (Z.log2_spec i Hi) as Hs. pose proof (Z.log2_nonneg i).
  destruct (decide (i + 1 = 2 ^ Z.succ (Z.log2 i))) as [He|Hne].
  - rewrite He, IS_POWER_OF_2_pow, Z.log2_pow2 by lia. lia.
  - assert (Z.log2 (i + 1) = Z.log2 i) as Hl by (apply Z.log2_unique; lia).
    destruct (IS_POWER_OF_2 (i + 1)) eqn:Hp; [|done].
    apply IS_POWER_OF_2_inv in Hp; [|lia]. rewrite Hl in Hp. lia.
Qed.

Lemma init_nodes k i nodes :
  0 <= i → i + 1 < 2 * sz k →
  nodes = (if decide (i = 0) then 2 * sz k else init_value k (i - 1)) →
  (if IS_POWER_OF_2 (i + 1) then nodes / 2 else nodes) = init_value k i.
Proof.
  intros Hi Hlt ->. unfold init_value. case_decide as H0.
  { subst i. change (IS_POWER_OF_2 (0 + 1)) with true. simpl.
    rewrite Z.mul_comm, Z.div_mul, Z.sub_0_r by lia. done. }
  replace (i - 1 + 1) with i by lia. rewrite (log2_next i) by lia.
  destruct (IS_POWER_OF_2 (i + 1)) eqn:Hp; [|done].
  assert (Z.log2 i + 1 <= Z.of_nat k).
  { pose proof (log2_next i ltac:(lia)) as Hl. rewrite Hp in Hl.
    assert (Z.log2 (i + 1) < Z.of_nat k + 1); [|lia]. apply Z.log2_lt_pow2; [lia|].
    unfold sz in Hlt. rewrite Z.pow_add_r by lia. lia. }
  replace (Z.of_nat k - Z.log2 i) with (Z.succ (Z.of_nat k - (Z.log2 i + 1))) by lia.
  rewrite Z.pow_succ_r by lia. rewrite Z.mul_comm, Z.div_mul by lia. done.
Qed.

Lemma buddy_init_spec k n : ∀ i nodes meta,
  0 <= i → i + Z.of_nat n < 2 * sz k → Z.of_nat (length meta) = 2 * sz k →
  nodes = (if decide (i = 0) then 2 * sz k else init_value k (i - 1)) →
  (∀ j, 0 <= j < i → rd meta j = Ok (init_value k j)) →
  ∃ meta', buddy_init n i nodes meta = Ok meta' ∧ length meta' = length meta ∧
    ∀ j, 0 <= j < i + Z.of_nat n → rd meta' j = Ok (init_value k j).
Proof.
  induction n as [|n IH]; intros i nodes meta Hi Hn Hl Hnodes Hpre; simpl.
  { exists meta. split_and!; [done..|]. intros. apply Hpre. lia. }
  rewrite (init_nodes k i nodes) by (done || lia). rewrite wr_Ok, Ok_bind by lia.
  destruct (IH (i + 1) (init_value k i) (<[Z.to_nat i := init_value k i]> meta))
    as (meta' & -> & Hl' & Hall).
  - lia.
  - lia.
  - by rewrite length_insert.
  - rewrite decide_False by lia. f_equal. lia.
  - intros j Hj. destruct (decide (i = j)) as [->|].
    + apply rd_wr_eq. lia.
    + rewrite rd_wr_ne by lia. apply Hpre. lia.
  - exists meta'. rewrite length_insert in Hl'. split_and!; [done..|]. intros. apply Hall. lia.
Qed.

Lemma init_repr k meta d : ∀ i,
  (∀ j, 0 <= j < 2 * sz k - 1 → rd meta j = Ok (init_value k j)) →
  0 <= i → Z.log2 (i + 1) + Z.of_nat d = Z.of_nat k → repr meta i d Free.
Proof.
  induction d as [|d IH]; intros i Hall Hi Hd; simpl;
    (split; [rewrite Hall; [unfold init_value, sz; do 2 f_equal; lia|]|]); try done.
  1, 2: split; [lia|];
    destruct (Z.log2_spec (i + 1)) as [_ Hlt]; [lia|];
    rewrite <- Z.add_1_r, Z.pow_add_r in Hlt by (pose proof (Z.log2_nonneg (i + 1)); lia);
    pose proof (Z.pow_le_mono_r 2 (Z.log2 (i + 1)) (Z.of_nat k)); unfold sz; lia.
  split; (apply IH; [done|lia|]).
  - replace (2 * i + 1 + 1) with (2 * (i + 1)) by lia. rewrite Z.log2_double by lia. lia.
  - replace (2 * i + 2 + 1) with (2 * (i + 1) + 1) by lia. rewrite Z.log2_succ_double by lia. lia.
Qed.

Lemma buddy_create_refines raw bs k n :
  0 < bs → 0 < n < 2 ^ 32 → (k <= 30)%nat → bs + sz k * n <= 2 ^ 64 →
  Z.of_nat (length raw) = 2 * sz k →
  ∃ b, priskv_buddy_create true raw bs (sz k) n = Ok (Some b) ∧ buddy_repr b k Free ∧
    bd_base b = bs ∧ bd_size b = n ∧ bd_inuse b = 0.
Proof.
  intros Hb Hn Hk He Hl. unfold priskv_buddy_create.
  assert (0 < sz k <= 2 ^ 30) as Hsz by (split; [apply sz_pos|apply (sz_le k 30); lia]).
  rewrite (proj2 (Z.eqb_neq bs 0)) by lia.
  assert (IS_POWER_OF_2 (sz k) = true) as -> by (apply IS_POWER_OF_2_pow; lia). simpl negb.
  rewrite (u32_small (sz k * 2)), u32_small by lia.
  destruct (buddy_init_spec k (Z.to_nat (sz k * 2 - 1)) 0 (sz k * 2) raw)
    as (meta & -> & Hl' & Hall); [lia|lia|lia|rewrite decide_True by done; lia|lia|].
  simpl. eexists. split; [done|]. split; [|done]. split; simpl; try done; try lia.
  apply (init_repr k meta k); [|lia|simpl; lia]. intros. apply Hall. lia.
Qed.

(** ** Properties *)

(** (C7) Allocation. For any non-empty request the code handles: either it
    returns the start of a run of blocks that is aligned to its size, long
    enough, inside the area and disjoint from every block handed out before,
    which is the only change to the set of blocks and is added to [inuse]; or it
    returns the null pointer, changes nothing, and every aligned run of that
    size really has a block in use. *)
Theorem buddy_alloc_correct b k t n :
  buddy_repr b k t → valid_request b n →
  let a := level b n in
  (∃ o b' t', priskv_buddy_alloc b n = Ok (Some (bd_base b + o * bd_size b), b') ∧
     buddy_repr b' k t' ∧ bd_base b' = bd_base b ∧ bd_size b' = bd_size b ∧
     n <= sz a * bd_size b ∧ (sz a | o) ∧ 0 <= o ∧ o + sz a <= bd_nmemb b ∧
     blocks k t' 0 = <[o := sz a]> (blocks k t 0) ∧
     (∀ x m, blocks k t 0 !! x = Some m → o + sz a <= x ∨ x + m <= o) ∧
     bd_inuse b' = bd_inuse b + sz a) ∨
  (priskv_buddy_alloc b n = Ok (None, b) ∧
     ∀ o, 0 <= o → o + sz a <= bd_nmemb b → (sz a | o) →
       ∃ x m, blocks k t 0 !! x = Some m ∧ x < o + sz a ∧ o < x + m).
Proof.
  intros H Hv a. pose proof (buddy_alloc_refines b k t n H Hv) as Hr. fold a in Hr.
  pose proof (br_wf _ _ _ H) as Hwf. pose proof (maxfree_range k t Hwf) as Hm.
  destruct (Z.leb_spec (sz a) (maxfree k t)) as [Hle|Hlt].
  - left. assert (a <= k)%nat as Ha.
    { destruct (decide (a <= k)%nat); [done|]. pose proof (sz_lt k a). lia. }
    destruct Hr as (b' & Heq & Hb' & Hbase & Hsize & _).
    pose proof (tree_alloc_spec k a t 0 Hwf Ha Hle) as Ht. unfold tree_alloc_ok in Ht.
    destruct (tree_alloc k a t) as [t' o]. cbn [fst snd] in *. rewrite Z.add_0_l in Ht.
    destruct Ht as (Hwf' & _ & Hd & Ho1 & Ho2 & Hbl & Hn & Htot & _).
    exists o, b', t'. rewrite (br_nmemb _ _ _ H), (br_inuse _ _ _ H), (br_inuse _ _ _ Hb').
    split_and!; try done.
    + apply level_holds; [apply (br_size _ _ _ H)|done].
    + intros x m Hx. assert (o ≠ x) by congruence.
      apply (blocks_disjoint k t' 0 o (sz a) x m Hwf'); [..|done];
        rewrite Hbl; [by rewrite lookup_insert_eq|by rewrite lookup_insert_ne].
  - right. split; [done|]. rewrite (br_nmemb _ _ _ H). intros o Ho1 Ho2 Hd.
    assert (a <= k)%nat as Ha.
    { destruct (decide (a <= k)%nat); [done|]. pose proof (sz_lt k a). lia. }
    destruct (maxfree_complete k a t 0 o Hwf Ha Hlt Ho1 Ho2 Hd) as (x & m & ? & ?).
    exists x, m. split; [done|lia].
Qed.

(** (C8) Release. Freeing the start of a block that is handed out succeeds, and
    exactly that block leaves the set of blocks and the count of blocks in use. *)
Theorem buddy_free_correct b k t o n :
  buddy_repr b k t → blocks k t 0 !! o = Some n →
  ∃ b' t', priskv_buddy_free b (bd_base b + o * bd_size b) = Ok b' ∧ buddy_repr b' k t' ∧
    bd_base b' = bd_base b ∧ bd_size b' = bd_size b ∧
    blocks k t' 0 = delete o (blocks k t 0) ∧ bd_inuse b' = bd_inuse b - n.
Proof.
  intros H Ho. pose proof (br_wf _ _ _ H) as Hwf.
  pose proof (blocks_range _ _ _ _ _ Hwf Ho) as Hr.
  pose proof (tree_find_block _ _ _ _ _ Hwf Ho) as (a & -> & Hf). rewrite Z.sub_0_r in Hf.
  pose proof (buddy_free_refines b k t o H) as Hfr. rewrite Hf in Hfr.
  destruct Hfr as (b' & Heq & Hb' & Hbase & Hsize & _); [lia|].
  destruct (tree_free_spec k t o 0 o a Hwf) as (_ & _ & _ & _ & Hbl & Htot); [lia|done|].
  exists b', (tree_free k t o). rewrite (br_inuse _ _ _ H), (br_inuse _ _ _ Hb').
  by split_and!.
Qed.

(** Freeing a block-aligned address that no block handed out covers changes
    nothing. *)
Theorem buddy_free_unallocated b k t o :
  buddy_repr b k t → 0 <= o < bd_nmemb b →
  (∀ x n, blocks k t 0 !! x = Some n → o < x ∨ x + n <= o) →
  priskv_buddy_free b (bd_base b + o * bd_size b) = Ok b.
Proof.
  intros H Ho Hnone. rewrite (br_nmemb _ _ _ H) in Ho.
  pose proof (buddy_free_refines b k t o H Ho) as Hfr.
  destruct (tree_find k t o) as [[st a]|] eqn:Hf; [|done].
  destruct (tree_free_spec k t o 0 st a (br_wf _ _ _ H) Ho Hf) as (? & ? & _ & Hb & _).
  apply Hnone in Hb. lia.
Qed.

(** Freeing what was just allocated restores the allocator exactly, down to
    the last word of metadata. *)
Theorem buddy_alloc_free_roundtrip b k t n addr b' :
  buddy_repr b k t → valid_request b n → priskv_buddy_alloc b n = Ok (Some addr, b') →
  priskv_buddy_free b' addr = Ok b.
Proof.
  intros H Hv Heq. pose proof (buddy_alloc_refines b k t n H Hv) as Hr.
  set (a := level b n) in *. pose proof (br_wf _ _ _ H) as Hwf.
  destruct (Z.leb_spec (sz a) (maxfree k t)) as [Hle|Hlt]; [|congruence].
  assert (a <= k)%nat as Ha.
  { pose proof (maxfree_range k t Hwf). destruct (decide (a <= k)%nat); [done|].
    pose proof (sz_lt k a). lia. }
  destruct Hr as (b1 & Heq1 & Hb1 & Hbase & Hsize & Hnm & Hun). rewrite Heq in Heq1.
  pose proof (tree_alloc_spec k a t 0 Hwf Ha Hle) as Ht. unfold tree_alloc_ok in Ht.
  destruct (tree_alloc k a t) as [t' o]. cbn [fst snd] in *. rewrite Z.add_0_l in Ht.
  injection Heq1 as -> <-. pose proof (sz_pos a).
  destruct Ht as (Hwf' & _ & _ & Ho1 & Ho2 & Hbl & _ & _ & Hfree).
  pose proof (buddy_free_refines b' k t' o Hb1) as Hfr.
  assert (blocks k t' 0 !! o = Some (sz a)) as Hlk by (rewrite Hbl; apply lookup_insert_eq).
  destruct (tree_find_block _ _ _ _ _ Hwf' Hlk) as (a' & _ & Hf). rewrite Z.sub_0_r in Hf.
  rewrite Hf, Hfree, Hbase, Hsize in Hfr.
  destruct Hfr as (b2 & -> & Hb2 & Hbase2 & Hsize2 & Hnm2 & Hun2); [lia|]. f_equal.
  assert (bd_meta b2 = bd_meta b) as Hmeta.
  { eapply meta_ext; [apply Hb2|apply H|]. eapply unchanged_trans; done. }
  pose proof (br_inuse _ _ _ H). pose proof (br_inuse _ _ _ Hb2).
  destruct b, b2. simpl in *. congruence.
Qed.

(** ** Examples: four blocks of 4096 bytes *)

Definition example_free : buddy :=
  {| bd_nmemb := 4; bd_inuse := 0; bd_size := 4096; bd_base := 65536;
     bd_meta := [4; 2; 2; 1; 1; 1; 1; 0] |}.

(** After a request for 5000 bytes. *)
Definition example_one : buddy :=
  {| bd_nmemb := 4; bd_inuse := 2; bd_size := 4096; bd_base := 65536;
     bd_meta := [2; 0; 2; 1; 1; 1; 1; 0] |}.

Example create_example :
  priskv_buddy_create true (replicate 8 0) 65536 4 4096 = Ok (Some example_free).
Proof. reflexivity. Qed.

Lemma example_free_repr : buddy_repr example_free 2 Free.
Proof. split; simpl; try done; try lia. Defined.

Lemma example_one_repr : buddy_repr example_one 2 (Split Used Free).
Proof.
  split; simpl; try done; try lia.
  split_and!; [lia|done|done|naive_solver].
Defined.

Lemma example_request b : bd_size b = 4096 → valid_request b 5000.
Proof. intros H. unfold valid_request, units. rewrite H. done. Defined.

Lemma buddy_alloc_correct_witness :
  ∃ o b' t', priskv_buddy_alloc example_free 5000 = Ok (Some (65536 + o * 4096), b') ∧
    buddy_repr b' 2 t' ∧ o + 2 <= 4.
Proof.
  destruct (buddy_alloc_correct example_free 2 Free 5000 example_free_repr
              (example_request example_free eq_refl)) as [H|[H _]].
  - destruct H as (o & b' & t' & Heq & Hr & _ & _ & _ & _ & _ & Hle & _).
    exists o, b', t'. split_and!; [exact Heq|exact Hr|exact Hle].
  - vm_compute in H. discriminate H.
Defined.

Lemma buddy_free_correct_witness :
  ∃ b', priskv_buddy_free example_one (65536 + 0 * 4096) = Ok b' ∧ bd_inuse b' = 0.
Proof.
  destruct (buddy_free_correct example_one 2 (Split Used Free) 0 2 example_one_repr eq_refl)
    as (b' & t' & Heq & _ & _ & _ & _ & Hin).
  exists b'. split; [exact Heq|exact Hin].
Defined.

Lemma buddy_free_unallocated_witness :
  priskv_buddy_free example_free (65536 + 3 * 4096) = Ok example_free.
Proof.
  apply (buddy_free_unallocated example_free 2 Free 3 example_free_repr).
  - simpl. lia.
  - intros x n Hx. discriminate Hx.
Defined.

Lemma buddy_alloc_free_roundtrip_witness :
  priskv_buddy_alloc example_free 5000 = Ok (Some 65536, example_one) ∧
  priskv_buddy_free example_one 65536 = Ok example_free.
Proof.
  split; [reflexivity|].
  exact (buddy_alloc_free_roundtrip example_free 2 Free 5000 65536 example_one
           example_free_repr (example_request example_free eq_refl) eq_refl).
Defined.

End Buddy.
