(* ===== verification/Alloc.v ===== *)
(** * What the store needs from its allocators

    [server/kv.c] takes key nodes from a slab and value buffers from a buddy
    allocator, and only relies on what this interface says: an allocation is
    fresh and large enough or changes nothing, a release removes one block, and
    live blocks never overlap. [Slab] and [Buddy] are its two instances. *)

From S2P Require Import Prelude Utils Slab Buddy.

(** [al_base s] is the lowest address of the area. [al_rep s m]: [s] is well
    formed and [m] maps the address of each block handed out to its length in
    bytes. [al_request s n]: the code handles requests for [n] bytes. *)
Class Allocator (S : Type) := {
  al_alloc : S → Z → res (option Z * S);
  al_free : S → Z → res S;
  al_base : S → Z;
  al_rep : S → gmap Z Z → Prop;
  al_request : S → Z → Prop
}.

(** The area and the requests handled never change. *)
Definition same_kind {S} `{Allocator S} (s s' : S) : Prop :=
  al_base s' = al_base s ∧ ∀ n, al_request s' n ↔ al_request s n.

Class AllocatorLaws (S : Type) `{Allocator S} := {
  al_alloc_law s m n :
    al_rep s m → al_request s n →
    (∃ a len s', al_alloc s n = Ok (Some a, s') ∧ al_rep s' (<[a := len]> m) ∧
       0 <= n <= len ∧ m !! a = None ∧ same_kind s s') ∨
    al_alloc s n = Ok (None, s);
  al_free_law s m a len :
    al_rep s m → m !! a = Some len →
    ∃ s', al_free s a = Ok s' ∧ al_rep s' (delete a m) ∧ same_kind s s';
  al_area_law s m a len :
    al_rep s m → m !! a = Some len → 0 < al_base s <= a ∧ a < 2 ^ 64;
  al_disjoint_law s m a la b lb :
    al_rep s m → m !! a = Some la → m !! b = Some lb → a ≠ b → a + la <= b ∨ b + lb <= a
}.

(** ** The slab *)

Import Slab.

Definition slab_blocks (s : priskv_slab) : gmap Z Z :=
  set_to_map (λ i, (object_addr s i, sl_size s)) (used s).

Global Instance slab_allocator : Allocator priskv_slab := {
  al_alloc s _ := priskv_slab_alloc s;
  al_free := priskv_slab_free;
  al_base := sl_base;
  al_rep s m := slab_wf s ∧ m = slab_blocks s;
  al_request s n := 0 <= n <= sl_size s
}.

Lemma lookup_slab_blocks s a len :
  slab_wf s →
  slab_blocks s !! a = Some len ↔ len = sl_size s ∧ ∃ i, i ∈ used s ∧ a = object_addr s i.
Proof.
  intros Hwf. pose proof (wf_size _ Hwf). unfold slab_blocks.
  rewrite lookup_set_to_map by (unfold object_addr; simpl; nia). naive_solver.
Qed.

Lemma object_addr_inj s i j : slab_wf s → object_addr s i = object_addr s j → i = j.
Proof. intros Hwf. pose proof (wf_size _ Hwf). unfold object_addr. nia. Qed.

Lemma slab_blocks_taken s i :
  slab_wf s → 0 <= i < sl_objects s → i ∉ used s →
  slab_blocks (taken s i) = <[object_addr s i := sl_size s]> (slab_blocks s).
Proof.
  intros Hwf Hi Hu. pose proof (taken_wf s Hwf i Hi Hu) as Hwf'.
  apply map_eq. intros a. apply option_eq. intros len.
  rewrite lookup_slab_blocks, used_taken by done.
  rewrite lookup_insert_Some, lookup_slab_blocks by done.
  change (sl_size (taken s i)) with (sl_size s).
  change (object_addr (taken s i)) with (object_addr s).
  destruct (decide (a = object_addr s i)) as [->|Hne]; [set_solver|].
  split.
  - intros (-> & j & Hj & ->). right. set_solver.
  - set_solver.
Qed.

Lemma slab_blocks_given s i :
  slab_wf s → i ∈ used s → slab_blocks (given s i) = delete (object_addr s i) (slab_blocks s).
Proof.
  intros Hwf Hu. pose proof (given_wf s Hwf i Hu) as Hwf'.
  pose proof Hu as [Hi _]%elem_of_used.
  apply map_eq. intros a. apply option_eq. intros len.
  rewrite lookup_slab_blocks, used_given by done.
  rewrite lookup_delete_Some, lookup_slab_blocks by done.
  change (sl_size (given s i)) with (sl_size s).
  change (object_addr (given s i)) with (object_addr s).
  split.
  - intros (-> & j & [Hj Hne]%elem_of_difference & ->). split; [|naive_solver].
    intros He%object_addr_inj; set_solver.
  - intros (Hne & -> & j & Hj & ->). split; [done|]. exists j. split; [|done]. set_solver.
Qed.

Global Instance slab_allocator_laws : AllocatorLaws priskv_slab.
Proof.
  split; simpl.
  - intros s m n [Hwf ->] Hn. destruct (slab_alloc_spec s Hwf) as [(i & -> & Hi & Hu)|[-> _]];
      [left|by right].
    exists (object_addr s i), (sl_size s). eexists. split; [done|].
    pose proof (taken_wf s Hwf i Hi Hu) as Hwf'. pose proof (wf_base _ Hwf).
    pose proof (wf_size _ Hwf). split_and!.
    + apply with_lindex_wf; [done|]. simpl. dlia.
    + rewrite <- slab_blocks_taken by done. done.
    + lia.
    + lia.
    + destruct (slab_blocks s !! _) eqn:E; [|done].
      apply lookup_slab_blocks in E as (_ & j & Hj & He); [|done].
      apply object_addr_inj in He; [|done]. congruence.
    + done.
  - intros s m a len [Hwf ->] Ha. apply lookup_slab_blocks in Ha as (-> & i & Hi & ->); [|done].
    pose proof Hi as [Hr _]%elem_of_used. pose proof (wf_objects _ Hwf).
    rewrite slab_free_spec by (done || lia). eexists. split; [done|].
    split_and!; [by apply given_wf|by rewrite slab_blocks_given|done].
  - intros s m a len [Hwf ->] Ha. apply lookup_slab_blocks in Ha as (-> & i & Hi & ->); [|done].
    pose proof Hi as [Hr _]%elem_of_used. destruct Hwf. unfold object_addr. nia.
  - intros s m a la b lb [Hwf ->] Ha Hb Hne.
    apply lookup_slab_blocks in Ha as (-> & i & Hi & ->); [|done].
    apply lookup_slab_blocks in Hb as (-> & j & Hj & ->); [|done].
    pose proof (wf_size _ Hwf). unfold object_addr in *.
    destruct (decide (i < j)); [left|right]; assert (i ≠ j) by congruence; nia.
Qed.

(** ** The buddy allocator *)

Import Buddy.

Definition byte_addr (b : buddy) (o : Z) : Z := bd_base b + o * bd_size b.

Definition byte_blocks (b : buddy) (m : gmap Z Z) : gmap Z Z :=
  kmap (byte_addr b) ((λ n, n * bd_size b) <$> m).

Global Instance buddy_allocator : Allocator buddy := {
  al_alloc := priskv_buddy_alloc;
  al_free := priskv_buddy_free;
  al_base := bd_base;
  al_rep b m := ∃ k t, buddy_repr b k t ∧ m = byte_blocks b (blocks k t 0);
  al_request := valid_request
}.

Lemma byte_addr_inj b : 0 < bd_size b → Inj (=) (=) (byte_addr b).
Proof. intros Hs x y. unfold byte_addr. nia. Qed.

Lemma lookup_byte_blocks b m a len :
  0 < bd_size b →
  byte_blocks b m !! a = Some len ↔
    ∃ o n, a = byte_addr b o ∧ len = n * bd_size b ∧ m !! o = Some n.
Proof.
  intros Hs. pose proof (byte_addr_inj b Hs). unfold byte_blocks.
  rewrite lookup_kmap_Some by done. setoid_rewrite lookup_fmap_Some. naive_solver.
Qed.

Lemma byte_blocks_insert b m o n :
  0 < bd_size b →
  byte_blocks b (<[o := n]> m) = <[byte_addr b o := n * bd_size b]> (byte_blocks b m).
Proof.
  intros Hs. pose proof (byte_addr_inj b Hs). unfold byte_blocks.
  by rewrite fmap_insert, kmap_insert.
Qed.

Lemma byte_blocks_delete b m o :
  0 < bd_size b → byte_blocks b (delete o m) = delete (byte_addr b o) (byte_blocks b m).
Proof.
  intros Hs. pose proof (byte_addr_inj b Hs). unfold byte_blocks.
  by rewrite fmap_delete, kmap_delete.
Qed.

Lemma byte_blocks_same b b' m :
  bd_base b' = bd_base b → bd_size b' = bd_size b → byte_blocks b' m = byte_blocks b m.
Proof. intros H1 H2. unfold byte_blocks, byte_addr. by rewrite H1, H2. Qed.

Lemma valid_request_same b b' n :
  bd_size b' = bd_size b → valid_request b' n ↔ valid_request b n.
Proof. intros H. unfold valid_request, units. by rewrite H. Qed.

Lemma buddy_alloc_law b m n :
  al_rep b m → al_request b n →
  (∃ a len b', al_alloc b n = Ok (Some a, b') ∧ al_rep b' (<[a := len]> m) ∧
     0 <= n <= len ∧ m !! a = None ∧ same_kind b b') ∨
  al_alloc b n = Ok (None, b).
Proof.
  simpl. intros (k & t & H & ->) Hv. pose proof (buddy_alloc_refines b k t n H Hv) as Hr.
  pose proof (br_wf _ _ _ H) as Hwf. pose proof (br_size _ _ _ H) as Hs.
  destruct (Z.leb_spec (sz (level b n)) (maxfree k t)) as [Hle|]; [left|by right].
  destruct Hr as (b' & -> & Hb' & Hbase & Hsize & _).
  assert (level b n <= k)%nat as Ha.
  { pose proof (maxfree_range k t Hwf). destruct (decide (level b n <= k)%nat); [done|].
    pose proof (sz_lt k (level b n)). lia. }
  pose proof (tree_alloc_spec k (level b n) t 0 Hwf Ha Hle) as Ht. unfold tree_alloc_ok in Ht.
  destruct (tree_alloc k (level b n) t) as [t' o]. cbn [fst snd] in *. rewrite Z.add_0_l in Ht.
  destruct Ht as (Hwf' & _ & Hd & Ho1 & Ho2 & Hbl & Hn & _ & _).
  exists (byte_addr b o), (sz (level b n) * bd_size b), b'. split; [done|]. split_and!.
  - exists k, t'. split; [done|]. rewrite (byte_blocks_same b b'), Hbl by done.
    by rewrite byte_blocks_insert by lia.
  - destruct Hv as [? _]. lia.
  - by apply level_holds.
  - destruct (byte_blocks b (blocks k t 0) !! byte_addr b o) eqn:E; [|done].
    apply lookup_byte_blocks in E as (o' & n' & He & _ & Hlk); [|lia].
    apply (byte_addr_inj b) in He as ->; [congruence|lia].
  - split; [done|]. intros n'. by apply valid_request_same.
Qed.

Global Instance buddy_allocator_laws : AllocatorLaws buddy.
Proof.
  split; [apply buddy_alloc_law|simpl..].
  - intros b m a len (k & t & H & ->) Ha. pose proof (br_size _ _ _ H) as Hs.
    pose proof (br_wf _ _ _ H) as Hwf.
    apply lookup_byte_blocks in Ha as (o & n & -> & -> & Ho); [|lia].
    pose proof (blocks_range _ _ _ _ _ Hwf Ho) as Hrg.
    pose proof (tree_find_block _ _ _ _ _ Hwf Ho) as (a & -> & Hf). rewrite Z.sub_0_r in Hf.
    pose proof (buddy_free_refines b k t o H) as Hfr. rewrite Hf in Hfr.
    change (bd_base b + o * bd_size b) with (byte_addr b o) in Hfr.
    destruct Hfr as (b' & -> & Hb' & Hbase & Hsize & _); [lia|].
    destruct (tree_free_spec k t o 0 o a Hwf) as (_ & _ & _ & _ & Hbl & _); [lia|done|].
    exists b'. split_and!; [done| |split; [done|intros; by apply valid_request_same]].
    exists k, (tree_free k t o). split; [done|].
    rewrite (byte_blocks_same b b'), Hbl, byte_blocks_delete by (done || lia). done.
  - intros b m a len (k & t & H & ->) Ha. pose proof (br_size _ _ _ H) as Hs.
    apply lookup_byte_blocks in Ha as (o & n & -> & -> & Ho); [|lia].
    pose proof (blocks_range _ _ _ _ _ (br_wf _ _ _ H) Ho). destruct H.
    rewrite br_nmemb0 in *. unfold byte_addr. nia.
  - intros b m x lx y ly (k & t & H & ->) Hx Hy Hne. pose proof (br_size _ _ _ H) as Hs.
    apply lookup_byte_blocks in Hx as (ox & nx & -> & -> & Hox); [|lia].
    apply lookup_byte_blocks in Hy as (oy & ny & -> & -> & Hoy); [|lia].
    assert (ox ≠ oy) as Hno by congruence.
    pose proof (blocks_disjoint _ _ _ _ _ _ _ (br_wf _ _ _ H) Hox Hoy Hno) as Hd.
    unfold byte_addr. destruct Hd; [left|right]; nia.
Qed.
