(* ===== verification/Lists.v ===== *)
(** * Linked lists

    [include/list.h]: circular doubly linked lists. [Heap] has the operations on
    [next] and [prev] pointers, as the header writes them, and the proof that
    they implement operations on the sequence of nodes behind the head. The rest
    of the development works with the sequences: a node is linked at most once
    behind a head, and unlinking a node that is not linked is the fault
    [NotLinked]. *)

From S2P Require Import Prelude.

(** ** Sequences of nodes *)

Definition list_add (h : list Z) (n : Z) : list Z := n :: h.
Definition list_add_tail (h : list Z) (n : Z) : list Z := h ++ [n].
Definition list_empty (h : list Z) : bool := bool_decide (h = []).

Definition list_del (h : list Z) (n : Z) : res (list Z) :=
  if decide (n ∈ h) then Ok (filter (λ x, x ≠ n) h) else Fault NotLinked.

(** The last node, or the null pointer. *)
Definition list_tail (h : list Z) : option Z := last h.

(** Unlink the first node, if any. *)
Definition list_pop (h : list Z) : option Z * list Z :=
  match h with [] => (None, []) | n :: h => (Some n, h) end.

Lemma list_del_Ok h n : n ∈ h → list_del h n = Ok (filter (λ x, x ≠ n) h).
Proof. intros. unfold list_del. by rewrite decide_True. Qed.

Lemma filter_ne_id (h : list Z) n : n ∉ h → filter (λ x, x ≠ n) h = h.
Proof.
  induction h as [|x h IH]; intros Hn; [done|]. rewrite filter_cons_True by set_solver.
  f_equal. apply IH. set_solver.
Qed.

(** Unlinking, up to order: exactly one node leaves. *)
Lemma filter_ne_perm (h : list Z) n : NoDup h → n ∈ h → h ≡ₚ n :: filter (λ x, x ≠ n) h.
Proof.
  induction h as [|x h IH]; intros Hnd Hin; [set_solver|].
  apply NoDup_cons in Hnd as [Hx Hnd]. destruct (decide (x = n)) as [->|Hne].
  - rewrite filter_cons_False by naive_solver. by rewrite filter_ne_id.
  - rewrite filter_cons_True by done. rewrite (IH Hnd) at 1 by set_solver. apply Permutation_swap.
Qed.

Lemma elem_of_filter_ne (h : list Z) n x : x ∈ filter (λ x, x ≠ n) h ↔ x ∈ h ∧ x ≠ n.
Proof. rewrite list_elem_of_filter. naive_solver. Qed.

(** ** Pointers *)

Module Heap.

(** [struct list_node] at every address; a [struct list_head] is a node. *)
Record heap := mk_heap { nxt : gmap Z Z; prv : gmap Z Z }.

(** Loads fault on memory that holds no node. *)
Definition get_next (s : heap) (p : Z) : res Z :=
  match nxt s !! p with Some q => Ok q | None => Fault UseAfterFree end.
Definition get_prev (s : heap) (p : Z) : res Z :=
  match prv s !! p with Some q => Ok q | None => Fault UseAfterFree end.
Definition set_next (s : heap) (p q : Z) : heap := mk_heap (<[p := q]> (nxt s)) (prv s).
Definition set_prev (s : heap) (p q : Z) : heap := mk_heap (nxt s) (<[p := q]> (prv s)).

Definition list_head_init (s : heap) (h : Z) : heap := set_prev (set_next s h h) h h.

Definition list_add_after_ (s : heap) (p n : Z) : res heap :=
  pn ← get_next s p;
  let s := set_next s n pn in
  let s := set_prev s n p in
  pn ← get_next s p;
  let s := set_prev s pn n in
  Ok (set_next s p n).

Definition list_add_ (s : heap) (h n : Z) : res heap := list_add_after_ s h n.

Definition list_add_before_ (s : heap) (p n : Z) : res heap :=
  let s := set_next s n p in
  pp ← get_prev s p;
  let s := set_prev s n pp in
  pp ← get_prev s p;
  let s := set_next s pp n in
  Ok (set_prev s p n).

Definition list_add_tail_ (s : heap) (h n : Z) : res heap := list_add_before_ s h n.

Definition list_empty_ (s : heap) (h : Z) : res bool :=
  n ← get_next s h;
  Ok (n =? h).

Definition list_del_ (s : heap) (n : Z) : res heap :=
  nn ← get_next s n;
  np ← get_prev s n;
  let s := set_prev s nn np in
  np ← get_prev s n;
  nn ← get_next s n;
  Ok (set_next s np nn).

(** [None] is the null pointer. *)
Definition list_pop_ (s : heap) (h : Z) : res (option Z * heap) :=
  e ← list_empty_ s h;
  if e : bool then Ok (None, s) else
  n ← get_next s h;
  s ← list_del_ s n;
  Ok (Some n, s).

Definition list_tail_ (s : heap) (h : Z) : res (option Z) :=
  e ← list_empty_ s h;
  if e : bool then Ok None else
  n ← get_prev s h;
  Ok (Some n).

(** *** Representation: the links from node to node, back to the head *)

Definition link (s : heap) (x y : Z) : Prop := nxt s !! x = Some y ∧ prv s !! y = Some x.

Fixpoint chain (s : heap) (x : Z) (l : list Z) (y : Z) : Prop :=
  match l with
  | [] => link s x y
  | z :: l => link s x z ∧ chain s z l y
  end.

Definition dlist (s : heap) (h : Z) (l : list Z) : Prop := NoDup (h :: l) ∧ chain s h l h.

Lemma chain_app s x l1 m l2 y : chain s x (l1 ++ m :: l2) y ↔ chain s x l1 m ∧ chain s m l2 y.
Proof. revert x. induction l1 as [|z l1 IH]; intros x; simpl; [done|]. rewrite IH. tauto. Qed.

(** A chain does not see a write to [next] of a node that no link leaves, nor a
    write to [prev] of a node that no link reaches. *)
Lemma chain_set_next s x l y p q : p ∉ x :: l → chain s x l y → chain (set_next s p q) x l y.
Proof.
  revert x. induction l as [|z l IH]; intros x Hp; simpl.
  - intros [? ?]. split; [|done]. simpl. rewrite lookup_insert_ne; [done|set_solver].
  - intros [[? ?] Hc]. split; [split; [|done]|apply IH; [set_solver|done]].
    simpl. rewrite lookup_insert_ne; [done|set_solver].
Qed.

Lemma chain_set_prev s x l y p q : p ∉ y :: l → chain s x l y → chain (set_prev s p q) x l y.
Proof.
  revert x. induction l as [|z l IH]; intros x Hp; simpl.
  - intros [? ?]. split; [done|]. simpl. rewrite lookup_insert_ne; [done|set_solver].
  - intros [[? ?] Hc]. split; [split; [done|]|apply IH; [set_solver|done]].
    simpl. rewrite lookup_insert_ne; [done|set_solver].
Qed.

(** The two writes by which [x] and [y] become neighbours. *)
Definition join (s : heap) (x y : Z) : heap := set_prev (set_next s x y) y x.

Lemma link_join s x y : link (join s x y) x y.
Proof. split; simpl; by rewrite lookup_insert_eq. Qed.

Lemma link_join_ne s x y x' y' : x' ≠ x → y' ≠ y → link s x' y' → link (join s x y) x' y'.
Proof. intros ?? [? ?]. split; simpl; by rewrite lookup_insert_ne. Qed.

Lemma chain_join s x l y x' y' :
  x' ∉ x :: l → y' ∉ y :: l → chain s x l y → chain (join s x' y') x l y.
Proof. intros. apply chain_set_prev; [done|]. by apply chain_set_next. Qed.

(** The first link of a chain, and the last. *)
Lemma chain_first s x l y : chain s x l y → nxt s !! x = Some (default y (head l)).
Proof. destruct l; simpl; [by intros [? _]|by intros [[? _] _]]. Qed.

Lemma chain_last s x l y : chain s x l y → prv s !! y = Some (default x (last l)).
Proof.
  revert x. induction l as [|z l IH]; intros x; simpl; [by intros [_ ?]|].
  intros [_ Hc]. rewrite (IH z Hc), last_cons. by destruct (last l).
Qed.

(** Redirecting the first link of a chain to a new source, and the last link to
    a new target. *)
Lemma chain_new_source s x l y x' :
  NoDup (y :: l) → x' ∉ l → chain s x l y → chain (join s x' (default y (head l))) x' l y.
Proof.
  intros Hnd Hx Hc. destruct l as [|z l]; simpl; [apply link_join|]. split; [apply link_join|].
  apply NoDup_cons in Hnd as [Hy Hnd]. apply NoDup_cons in Hnd as [Hz Hnd].
  destruct Hc as [_ Hc]. apply chain_join; [done|set_solver|done].
Qed.

Lemma chain_new_target s x l y y' :
  NoDup (x :: l) → y' ∉ l → chain s x l y → chain (join s (default x (last l)) y') x l y'.
Proof.
  intros Hnd Hy Hc. destruct l as [|z l _] using rev_ind; simpl; [apply link_join|].
  rewrite last_snoc. simpl. apply chain_app in Hc as [Hc _].
  apply chain_app. split; [|apply link_join].
  apply NoDup_cons in Hnd as [Hx Hnd]. apply NoDup_app in Hnd as (Hl & Hz & _).
  apply chain_join; [|set_solver|done]. specialize (Hz z). set_solver.
Qed.

(** *** The operations on a represented list *)

(** Both insertions write the same four pointers. *)
Definition splice (s : heap) (x n y : Z) : heap := join (join s n y) x n.

Lemma list_add_after_spec s p n q :
  nxt s !! p = Some q → n ≠ p → n ≠ q → list_add_after_ s p n = Ok (splice s p n q).
Proof.
  intros Hq Hn Hnq. unfold list_add_after_, get_next. rewrite Hq. simpl.
  rewrite lookup_insert_ne, Hq by done. simpl.
  unfold splice, join, set_next, set_prev. simpl. by rewrite (insert_insert_ne _ q n) by done.
Qed.

Lemma list_add_before_spec s p n q :
  prv s !! p = Some q → n ≠ p → n ≠ q → list_add_before_ s p n = Ok (splice s q n p).
Proof.
  intros Hq Hn Hnq. unfold list_add_before_, get_prev. simpl. rewrite Hq. simpl.
  rewrite lookup_insert_ne, Hq by done. simpl.
  unfold splice, join, set_next, set_prev. simpl. by rewrite (insert_insert_ne _ p n) by done.
Qed.

Lemma list_del_link s n x y :
  nxt s !! n = Some y → prv s !! n = Some x → n ≠ y → list_del_ s n = Ok (join s x y).
Proof.
  intros Hy Hx Hn. unfold list_del_, get_next, get_prev. rewrite Hy, Hx. simpl.
  rewrite lookup_insert_ne, Hx by done. simpl. by rewrite Hy.
Qed.

Lemma default_head_elem (y : Z) l : default y (head l) ∈ y :: l.
Proof. destruct l; set_solver. Qed.

Lemma default_last_elem (x : Z) l : default x (last l) ∈ x :: l.
Proof.
  destruct l as [|z l _] using rev_ind; simpl; [set_solver|]. rewrite last_snoc. set_solver.
Qed.

(** A list with no node in common with the list that is changed stays. *)
Lemma dlist_join s h l x y : dlist s h l → x ∉ h :: l → y ∉ h :: l → dlist (join s x y) h l.
Proof. intros [? ?] ? ?. split; [done|]. by apply chain_join. Qed.

Lemma dlist_init s h : dlist (list_head_init s h) h [].
Proof. split; [apply NoDup_singleton|apply link_join]. Qed.

(** What an operation on the list behind [h] promises: the list becomes [l'],
    and every list elsewhere stays. *)
Definition becomes (s s' : heap) (h : Z) (l l' : list Z) (n : Z) : Prop :=
  dlist s' h l' ∧
  ∀ h2 l2, dlist s h2 l2 → (h2 :: l2) ## (h :: n :: l) → dlist s' h2 l2.

Lemma splice_other s x n y h l h2 l2 :
  dlist s h2 l2 → (h2 :: l2) ## (h :: n :: l) → x ∈ h :: l → y ∈ h :: l → dlist (splice s x n y) h2 l2.
Proof.
  intros Hd Hdis Hx Hy. unfold splice. apply dlist_join; [apply dlist_join; [done|..]|..]; set_solver.
Qed.

Lemma dlist_add s h l n : dlist s h l → n ∉ h :: l →
  ∃ s', list_add_ s h n = Ok s' ∧ becomes s s' h l (list_add l n) n.
Proof.
  intros [Hnd Hc] Hn. pose proof (default_head_elem h l) as Hy.
  exists (splice s h n (default h (head l))). split; [|split].
  - apply list_add_after_spec; [by eapply chain_first| |]; intros ->; set_solver.
  - pose proof Hnd as [Hh Hl]%NoDup_cons. split; [|split; [apply link_join|]].
    + constructor; [set_solver|]. constructor; [set_solver|done].
    + apply chain_join; [set_solver..|]. eapply chain_new_source; [done|set_solver|done].
  - intros h2 l2 Hd Hdis. eapply splice_other; [done..| |done]. set_solver.
Qed.

Lemma splice_comm s x n y : n ≠ x → n ≠ y → splice s x n y = join (join s x n) n y.
Proof.
  intros ??. unfold splice, join, set_next, set_prev. simpl.
  by rewrite (insert_insert_ne _ x n), (insert_insert_ne (prv s) y n) by done.
Qed.

Lemma dlist_add_tail s h l n : dlist s h l → n ∉ h :: l →
  ∃ s', list_add_tail_ s h n = Ok s' ∧ becomes s s' h l (list_add_tail l n) n.
Proof.
  intros [Hnd Hc] Hn. pose proof (default_last_elem h l) as Hx.
  exists (splice s (default h (last l)) n h). split; [|split].
  - apply list_add_before_spec; [by eapply chain_last| |]; intros ->; set_solver.
  - pose proof Hnd as [Hh Hl]%NoDup_cons. split.
    + unfold list_add_tail. rewrite app_comm_cons. apply NoDup_app. split; [done|].
      split; [set_solver|apply NoDup_singleton].
    + rewrite splice_comm by (intros ->; set_solver). apply chain_app. split; [|apply link_join].
      apply chain_join; [set_solver..|]. eapply chain_new_target; [done|set_solver|done].
  - intros h2 l2 Hd Hdis. eapply splice_other; [done..| ]. set_solver.
Qed.

Lemma dlist_empty s h l : dlist s h l → list_empty_ s h = Ok (list_empty l).
Proof.
  intros [Hnd Hc]. unfold list_empty_, get_next. rewrite (chain_first _ _ _ _ Hc). simpl.
  destruct l as [|z l]; simpl; f_equal.
  - apply Z.eqb_refl.
  - apply Z.eqb_neq. intros ->. inversion Hnd; set_solver.
Qed.

Lemma dlist_tail s h l : dlist s h l → list_tail_ s h = Ok (list_tail l).
Proof.
  intros Hd. unfold list_tail_. rewrite (dlist_empty _ _ _ Hd). simpl.
  destruct Hd as [_ Hc]. unfold get_prev. rewrite (chain_last _ _ _ _ Hc).
  destruct l as [|z l _] using rev_ind; simpl; [done|].
  unfold list_empty, list_tail. rewrite last_snoc, bool_decide_false; [done|]. by destruct l.
Qed.

Lemma NoDup_mid (l1 l2 : list Z) n :
  NoDup (l1 ++ n :: l2) → n ∉ l1 ++ l2 ∧ NoDup (l1 ++ l2).
Proof. rewrite <- Permutation_middle. apply NoDup_cons. Qed.

Lemma filter_ne_mid (l1 l2 : list Z) n :
  NoDup (l1 ++ n :: l2) → filter (λ x, x ≠ n) (l1 ++ n :: l2) = l1 ++ l2.
Proof.
  intros [Hn _]%NoDup_mid. rewrite filter_app, filter_cons_False by naive_solver.
  rewrite !filter_ne_id; [done|set_solver..].
Qed.

(** Past a node that leaves: the last node before it is linked to the first
    node after it. *)
Lemma chain_bridge s h l1 n l2 :
  NoDup (h :: l1 ++ l2) → chain s h l1 n → chain s n l2 h →
  chain (join s (default h (last l1)) (default h (head l2))) h (l1 ++ l2) h.
Proof.
  intros Hnd Hc1 Hc2. apply NoDup_cons in Hnd as [Hh Hnd].
  apply NoDup_app in Hnd as (Hl1 & Hdis & Hl2).
  destruct l2 as [|z l2]; simpl.
  - rewrite app_nil_r. eapply chain_new_target; [constructor; [set_solver|done]|set_solver|done].
  - apply NoDup_cons in Hl2 as [Hz Hl2]. apply chain_app. split.
    + eapply chain_new_target; [constructor; [set_solver|done]| |done].
      intros Hz1. apply (Hdis z Hz1). set_solver.
    + destruct Hc2 as [_ Hc2]. pose proof (default_last_elem h l1) as Hx.
      apply chain_join; [|set_solver|done].
      intros Hx2. apply elem_of_cons in Hx as [Hx|Hx]; [rewrite Hx in Hx2; set_solver|].
      by apply (Hdis _ Hx).
Qed.

Lemma dlist_del s h l n : dlist s h l → n ∈ l →
  ∃ l' s', list_del l n = Ok l' ∧ list_del_ s n = Ok s' ∧ becomes s s' h l l' n.
Proof.
  intros [Hnd Hc] Hn. apply list_elem_of_split in Hn as (l1 & l2 & ->).
  pose proof Hc as [Hc1 Hc2]%chain_app. pose proof Hnd as [Hh Hl]%NoDup_cons.
  pose proof (NoDup_mid _ _ _ Hl) as [Hn Hl'].
  pose proof (default_last_elem h l1) as Hx. pose proof (default_head_elem h l2) as Hy.
  assert (NoDup (h :: l1 ++ l2)) by (constructor; [set_solver|done]).
  eexists _, _. split; [|split; [|split]].
  - apply list_del_Ok. set_solver.
  - eapply list_del_link; [by eapply chain_first|by eapply chain_last|]. intros E. set_solver.
  - rewrite filter_ne_mid by done. split; [done|by eapply chain_bridge].
  - intros h2 l2' Hd Hdis. apply dlist_join; set_solver.
Qed.

Lemma dlist_pop s h l : dlist s h l →
  ∃ s', list_pop_ s h = Ok (fst (list_pop l), s') ∧
    becomes s s' h l (snd (list_pop l)) (default h (head l)).
Proof.
  intros Hd. unfold list_pop_. rewrite (dlist_empty _ _ _ Hd). simpl.
  destruct l as [|z l]; simpl; [exists s; split; [done|by split]|].
  unfold get_next. rewrite (chain_first _ _ _ _ (proj2 Hd)). simpl.
  destruct (dlist_del s h (z :: l) z Hd ltac:(set_solver)) as (l' & s' & Hl & -> & Hb).
  exists s'. split; [done|]. assert (Heq : l' = l); [|by rewrite Heq in Hb].
  rewrite list_del_Ok in Hl by set_solver. injection Hl as <-.
  destruct Hd as [Hnd _]. apply NoDup_cons in Hnd as [_ Hnd].
  by apply (filter_ne_mid []).
Qed.

(** (C36) The linked list of list.h implements a sequence of nodes. On a
    well-linked list, every operation runs without touching memory that holds no
    node and has the effect of the sequence operation: [list_head_init] makes the
    empty list, [list_add] puts a node in front, [list_add_tail] at the end,
    [list_del] takes a linked node out, [list_pop] takes the first one,
    [list_empty] and [list_tail] read; and any list that shares no node with the
    one that is changed stays as it is. *)
Theorem linked_list_refines s h l : dlist s h l →
  dlist (list_head_init s h) h [] ∧
  list_empty_ s h = Ok (list_empty l) ∧ list_tail_ s h = Ok (list_tail l) ∧
  (∃ s', list_pop_ s h = Ok (fst (list_pop l), s') ∧
     becomes s s' h l (snd (list_pop l)) (default h (head l))) ∧
  (∀ n, n ∉ h :: l →
     (∃ s', list_add_ s h n = Ok s' ∧ becomes s s' h l (list_add l n) n) ∧
     (∃ s', list_add_tail_ s h n = Ok s' ∧ becomes s s' h l (list_add_tail l n) n)) ∧
  (∀ n, n ∈ l →
     ∃ l' s', list_del l n = Ok l' ∧ list_del_ s n = Ok s' ∧ becomes s s' h l l' n).
Proof.
  intros Hd. split_and!.
  - apply dlist_init.
  - by apply dlist_empty.
  - by apply dlist_tail.
  - by apply dlist_pop.
  - intros n Hn. split; [by apply dlist_add|by apply dlist_add_tail].
  - intros n Hn. by apply dlist_del.
Qed.

(** The list 10, 11 behind the head at 1. *)
Definition ex_heap : heap :=
  mk_heap (list_to_map [(1, 10); (10, 11); (11, 1)]) (list_to_map [(10, 1); (11, 10); (1, 11)]).

Lemma linked_list_refines_witness :
  dlist ex_heap 1 [10; 11] ∧ list_tail_ ex_heap 1 = Ok (Some 11) ∧
  ∃ s', list_del_ ex_heap 10 = Ok s' ∧ dlist s' 1 [11].
Proof.
  assert (Hd : dlist ex_heap 1 [10; 11]).
  { split; [by apply (bool_decide_unpack _)|]. by repeat split. }
  pose proof (linked_list_refines ex_heap 1 [10; 11] Hd) as (_ & _ & Ht & _ & _ & Hdel).
  split; [done|]. split; [exact Ht|].
  destruct (Hdel 10 ltac:(set_solver)) as (l' & s' & Hl & Hs & Hb & _).
  exists s'. split; [done|]. injection Hl as <-. exact Hb.
Defined.

End Heap.
