(* ===== verification/Protocol.v ===== *)
(** * The wire protocol

    [include/priskv-protocol.h]: response statuses, commands, and the encoding
    of the entries of a KEYS response. *)

From S2P Require Import Prelude.

(** ** Response statuses *)

Inductive priskv_resp_status :=
  | PRISKV_RESP_STATUS_OK
  | PRISKV_RESP_STATUS_INVALID_COMMAND
  | PRISKV_RESP_STATUS_KEY_EMPTY
  | PRISKV_RESP_STATUS_KEY_TOO_BIG
  | PRISKV_RESP_STATUS_VALUE_EMPTY
  | PRISKV_RESP_STATUS_VALUE_TOO_BIG
  | PRISKV_RESP_STATUS_NO_SUCH_COMMAND
  | PRISKV_RESP_STATUS_NO_SUCH_KEY
  | PRISKV_RESP_STATUS_INVALID_SGL
  | PRISKV_RESP_STATUS_INVALID_REGEX
  | PRISKV_RESP_STATUS_KEY_UPDATING
  | PRISKV_RESP_STATUS_CONNECT_ERROR
  | PRISKV_RESP_STATUS_SERVER_ERROR
  | PRISKV_RESP_STATUS_NO_MEM.

Global Instance priskv_resp_status_eq_dec : EqDecision priskv_resp_status.
Proof. solve_decision. Defined.

Definition status_code (s : priskv_resp_status) : Z :=
  match s with
  | PRISKV_RESP_STATUS_OK => 0x00
  | PRISKV_RESP_STATUS_INVALID_COMMAND => 0x100
  | PRISKV_RESP_STATUS_KEY_EMPTY => 0x101
  | PRISKV_RESP_STATUS_KEY_TOO_BIG => 0x102
  | PRISKV_RESP_STATUS_VALUE_EMPTY => 0x103
  | PRISKV_RESP_STATUS_VALUE_TOO_BIG => 0x104
  | PRISKV_RESP_STATUS_NO_SUCH_COMMAND => 0x105
  | PRISKV_RESP_STATUS_NO_SUCH_KEY => 0x106
  | PRISKV_RESP_STATUS_INVALID_SGL => 0x107
  | PRISKV_RESP_STATUS_INVALID_REGEX => 0x108
  | PRISKV_RESP_STATUS_KEY_UPDATING => 0x109
  | PRISKV_RESP_STATUS_CONNECT_ERROR => 0x10a
  | PRISKV_RESP_STATUS_SERVER_ERROR => 0x10b
  | PRISKV_RESP_STATUS_NO_MEM => 0x200
  end.

(** [PRISKV_KEY_MAX_TIMEOUT]: no timeout. *)
Definition PRISKV_KEY_MAX_TIMEOUT : Z := 0xffffffffffffffff.

(** ** Big-endian fields *)

(** The [n] bytes of [htobe16], [htobe32], [htobe64]. *)
Fixpoint be_bytes (n : nat) (z : Z) : list Z :=
  match n with
  | O => []
  | S n => be_bytes n (z / 256) ++ [z mod 256]
  end.

(** [be16toh], [be32toh], [be64toh]. *)
Definition be_value (l : list Z) : Z := foldl (λ v b, v * 256 + b) 0 l.

Lemma be_bytes_length n z : length (be_bytes n z) = n.
Proof. revert z. induction n as [|n IH]; intros z; simpl; [done|]. rewrite length_app, IH. simpl. lia. Qed.

Lemma be_bytes_bytes n z : bytes (be_bytes n z).
Proof.
  revert z. induction n as [|n IH]; intros z; simpl; [apply Forall_nil_2|].
  apply Forall_app. split; [apply IH|]. apply Forall_singleton. apply Z.mod_pos_bound. lia.
Qed.

Lemma be_value_app l b : be_value (l ++ [b]) = be_value l * 256 + b.
Proof. unfold be_value. by rewrite foldl_app. Qed.

Lemma be_value_cat l1 l2 : be_value (l1 ++ l2) = be_value l1 * 256 ^ Z.of_nat (length l2) + be_value l2.
Proof.
  unfold be_value. rewrite foldl_app. generalize (foldl (λ v b, v * 256 + b) 0 l1) as n. clear l1.
  induction l2 as [|b l2 IH]; intros n; [simpl foldl; change (256 ^ Z.of_nat (length [])) with 1; lia|].
  rewrite length_cons, Nat2Z.inj_succ, Z.pow_succ_r by lia. simpl foldl.
  rewrite (IH (n * 256 + b)), (IH (0 * 256 + b)). ring.
Qed.

Lemma be_value_bound l : bytes l → 0 <= be_value l < 256 ^ Z.of_nat (length l).
Proof.
  unfold bytes. change (2 ^ 8) with 256. induction l as [|b l IH] using rev_ind; intros Hl; [done|].
  apply Forall_app in Hl as [Hl Hb]. apply Forall_cons in Hb as [Hb _]; cbv beta in Hb.
  rewrite be_value_cat, length_app, Nat2Z.inj_add, Z.pow_add_r by lia.
  change (length [b]) with 1%nat. change (256 ^ Z.of_nat 1) with 256. change (be_value [b]) with b.
  specialize (IH Hl). nia.
Qed.

Lemma be_value_inj l1 l2 : bytes l1 → bytes l2 → length l1 = length l2 → be_value l1 = be_value l2 → l1 = l2.
Proof.
  unfold bytes. change (2 ^ 8) with 256. revert l2. induction l1 as [|b1 l1 IH] using rev_ind; intros l2 H1 H2 Hlen Hn.
  - by destruct l2.
  - destruct l2 as [|b2 l2 _] using rev_ind; [rewrite length_app in Hlen; simpl in Hlen; lia|].
    rewrite !length_app in Hlen. simpl in Hlen. apply Forall_app in H1 as [H1 Hb1], H2 as [H2 Hb2].
    apply Forall_cons in Hb1 as [Hb1 _], Hb2 as [Hb2 _]; cbv beta in Hb1, Hb2. rewrite !be_value_cat in Hn. simpl length in Hn. change (256 ^ Z.of_nat 1) with 256 in Hn.
    change (be_value [b1]) with b1 in Hn. change (be_value [b2]) with b2 in Hn.
    assert (b1 = b2) as -> by lia. rewrite (IH l2); [done|done|done|lia|lia].
Qed.

Lemma be_roundtrip n z : 0 <= z < 256 ^ Z.of_nat n → be_value (be_bytes n z) = z.
Proof.
  revert z. induction n as [|n IH]; intros z Hz; [unfold be_value; simpl in *; lia|].
  rewrite Nat2Z.inj_succ, Z.pow_succ_r in Hz by lia.
  simpl. rewrite be_value_app, IH; [dlia|].
  split; [apply Z.div_pos; lia|apply Z.div_lt_upper_bound; lia].
Qed.

(** ** Entries of a KEYS response *)

(** [priskv_keys_resp] followed by the key: length, reserved, value length. *)
Definition sizeof_keys_resp : Z := 8.

Definition keys_entry (key : list Z) (keylen valuelen : Z) : list Z :=
  be_bytes 2 keylen ++ be_bytes 2 0 ++ be_bytes 4 valuelen ++ key.

(** ** What a client's user is told: [priskv_status] *)

Definition PRISKV_STATUS_OK : Z := 0.
Definition PRISKV_STATUS_KEY_EMPTY : Z := 0x101.
Definition PRISKV_STATUS_KEY_TOO_BIG : Z := 0x102.
Definition PRISKV_STATUS_VALUE_EMPTY : Z := 0x103.
Definition PRISKV_STATUS_VALUE_TOO_BIG : Z := 0x104.
Definition PRISKV_STATUS_INVALID_SGL : Z := 0x107.
Definition PRISKV_STATUS_NO_MEM : Z := 0x200.
Definition PRISKV_STATUS_DISCONNECTED : Z := 0xF00.
Definition PRISKV_STATUS_RDMA_ERROR : Z := 0xF01.
Definition PRISKV_STATUS_BUSY : Z := 0xF02.
Definition PRISKV_STATUS_PROTOCOL_ERROR : Z := 0xF03.
