(* ===== verification/Acl.v ===== *)
(** * The access list

    [server/acl.c]: the rules that say which clients may connect. A rule is an
    address, an address with a number of mask bits, or [any]. The reading of
    addresses is a library's ([rdma_getaddrinfo]) and a parameter; the read-write
    lock only makes the operations one at a time, which they are here. *)

From S2P Require Import Prelude Utils CString Protocol.

(** ** State *)

Definition AF_INET : Z := 2.
Definition AF_INET6 : Z := 10.

(** A [struct sockaddr]: the family, and the bytes of the address in network
    order. *)
Record sockaddr := mk_sockaddr { sa_family : Z; sa_addr : list Z }.

Record priskv_acl := mk_acl { acl_rule : list Z; acl_addr : sockaddr; acl_mask_bits : Z (* int *) }.

(** [acl_any] and the slash before the mask. *)
Definition acl_any : list Z := [97; 110; 121].
Definition SLASH : Z := 47.

Definition EINVAL : Z := 22.
Definition ENOENT : Z := 2.
Definition EACCES : Z := 13.

(** What [rdma_getaddrinfo] gives: an error code, no address, or the first
    address. *)
Inductive gai := GaiError (ret : Z) | GaiNone | GaiAddr (sa : sockaddr).

(** ** Matching *)

(** The loop over the whole bytes of the mask. *)
Fixpoint same_bytes (saddr daddr : list Z) (n : nat) (i : Z) : res bool :=
  match n with
  | O => Ok true
  | S n => s ← rd saddr i; d ← rd daddr i; if s =? d then same_bytes saddr daddr n (i + 1) else Ok false
  end.

Definition __priskv_acl_verify_addr (saddr daddr : list Z) (mask_bits : Z) : res bool :=
  let bytes := Z.quot mask_bits 8 in
  let bits := Z.rem mask_bits 8 in
  same ← same_bytes saddr daddr (Z.to_nat bytes) 0;
  if negb same then Ok false else
  if bits =? 0 then Ok true else
    let m := foldl (λ m k, u8 (Z.lor m (Z.shiftl 1 (Z.of_nat k)))) 0 (seq 0 (Z.to_nat bits)) in
    let m := u8 (Z.lnot m) in
    s ← rd saddr bytes;
    d ← rd daddr bytes;
    Ok (Z.land s m =? Z.land d m).

Definition priskv_acl_verify_addr (saddr daddr : sockaddr) (mask_bits : Z) : res bool :=
  if negb (sa_family saddr =? sa_family daddr) then Ok false
  else if sa_family saddr =? AF_INET then __priskv_acl_verify_addr (sa_addr saddr) (sa_addr daddr) mask_bits
  else if sa_family saddr =? AF_INET6 then __priskv_acl_verify_addr (sa_addr saddr) (sa_addr daddr) mask_bits
  else Ok false.

(** ** The list *)

Section acl.
Context (getaddrinfo : list Z → gai).

Definition priskv_acl_addr (addr : list Z) : Z + sockaddr :=
  match getaddrinfo addr with
  | GaiError ret => inl ret
  | GaiNone => inl (- EINVAL)
  | GaiAddr sa => inr sa
  end.

(** The mask that is stored for a family, or [-EINVAL]; [None] for a family that
    is not supported, with [ret] still 0. *)
Definition acl_mask (family mask_bits : Z) : option (Z + Z) :=
  if family =? AF_INET then
    Some (if negb (mask_bits =? 0) then if 32 <? mask_bits then inl (- EINVAL) else inr mask_bits else inr 32)
  else if family =? AF_INET6 then
    Some (if negb (mask_bits =? 0) then if 128 <? mask_bits then inl (- EINVAL) else inr mask_bits else inr 128)
  else None.

(** The address of a rule, and the mask bits written after it. *)
Definition split_rule (rule : list Z) : list Z * Z :=
  match strchr rule SLASH with
  | Some tmp => (strndup rule (Z.of_nat tmp), atoi (drop (S tmp) rule))
  | None => (rule, 0)
  end.

Definition priskv_acl_add (acl_list : list priskv_acl) (rule : list Z) : Z * list priskv_acl :=
  if same_nocase rule acl_any then (0, acl_list ++ [mk_acl rule (mk_sockaddr 0 []) 0])
  else
    let '(addr, mask_bits) := split_rule rule in
    match priskv_acl_addr addr with
    | inl ret => (ret, acl_list)
    | inr sa =>
        match acl_mask (sa_family sa) mask_bits with
        | None => (0, acl_list)
        | Some (inl ret) => (ret, acl_list)
        | Some (inr mask) => (0, acl_list ++ [mk_acl rule sa mask])
        end
    end.

Fixpoint priskv_acl_del (acl_list : list priskv_acl) (rule : list Z) : Z * list priskv_acl :=
  match acl_list with
  | [] => (- ENOENT, [])
  | acl :: l =>
      if same_nocase (acl_rule acl) rule then (0, l)
      else let '(ret, l) := priskv_acl_del l rule in (ret, acl :: l)
  end.

Fixpoint priskv_acl_verify (acl_list : list priskv_acl) (addr : sockaddr) : res Z :=
  match acl_list with
  | [] => Ok (- EACCES)
  | acl :: l =>
      if same_nocase (acl_rule acl) acl_any then Ok 0
      else
        yes ← priskv_acl_verify_addr (acl_addr acl) addr (acl_mask_bits acl);
        if yes : bool then Ok 0 else priskv_acl_verify l addr
  end.

Definition priskv_acl_get_rules (acl_list : list priskv_acl) : list (list Z) := acl_rule <$> acl_list.

(** ** What a rule admits *)

(** The addresses agree on their first [mask] bits. *)
Definition same_prefix (mask : Z) (a b : list Z) : Prop :=
  let w := 8 * Z.of_nat (length a) in be_value a / 2 ^ (w - mask) = be_value b / 2 ^ (w - mask).

(** The number of bits the code compares: the bits of the last, partial byte are
    counted from the wrong end. *)
Definition compared_bits (mask : Z) : Z :=
  if mask mod 8 =? 0 then mask else 8 * (mask / 8) + (8 - mask mod 8).

Definition admits (acl : priskv_acl) (sa : sockaddr) : Prop :=
  same_nocase (acl_rule acl) acl_any = true ∨
  sa_family (acl_addr acl) = sa_family sa ∧
  same_prefix (compared_bits (acl_mask_bits acl)) (sa_addr (acl_addr acl)) (sa_addr sa).

(** An address has the length of its family. *)
Definition sockaddr_ok (sa : sockaddr) : Prop :=
  bytes (sa_addr sa) ∧
  (sa_family sa = AF_INET ∧ length (sa_addr sa) = 4%nat ∨ sa_family sa = AF_INET6 ∧ length (sa_addr sa) = 16%nat).

(** A rule of the list: [any], or an address with at most as many mask bits. *)
Definition acl_ok (acl : priskv_acl) : Prop :=
  same_nocase (acl_rule acl) acl_any = true ∨
  sockaddr_ok (acl_addr acl) ∧ 0 < acl_mask_bits acl <= 8 * Z.of_nat (length (sa_addr (acl_addr acl))).

(** ** Lemmas *)

(** The first bits of a number written in bytes: whole bytes, and the top of the
    next one. *)
Lemma prefix_bytes l q : bytes l → (q <= length l)%nat →
  be_value l / 2 ^ (8 * Z.of_nat (length l) - 8 * Z.of_nat q) = be_value (take q l).
Proof.
  intros Hl Hq. rewrite <- (take_drop q l) at 1. rewrite be_value_cat, length_drop.
  replace (8 * Z.of_nat (length l) - 8 * Z.of_nat q) with (8 * Z.of_nat (length l - q)) by lia.
  rewrite Z.pow_mul_r by lia. change (2 ^ 8) with 256.
  pose proof (be_value_bound (drop q l) ltac:(by apply Forall_drop)) as Hd. rewrite length_drop in Hd.
  rewrite Z.div_add_l by lia. rewrite (Z.div_small (be_value _)) by lia. lia.
Qed.

Lemma prefix_bits l q r b : bytes l → l !! q = Some b → 0 <= r <= 8 →
  be_value l / 2 ^ (8 * Z.of_nat (length l) - (8 * Z.of_nat q + r)) = be_value (take q l) * 2 ^ r + b / 2 ^ (8 - r).
Proof.
  intros Hl Hb Hr. pose proof (lookup_lt_Some _ _ _ Hb) as Hq.
  assert (0 <= b < 256) as Hb' by exact (Forall_lookup_1 _ _ _ _ Hl Hb).
  replace (8 * Z.of_nat (length l) - (8 * Z.of_nat q + r))
    with (8 * Z.of_nat (length l) - 8 * Z.of_nat (S q) + (8 - r)) by lia.
  rewrite Z.pow_add_r by lia. rewrite <- Z.div_div by lia. rewrite prefix_bytes by (done || lia).
  rewrite (take_S_r _ _ _ Hb), be_value_cat. change (be_value [b]) with b. change (256 ^ Z.of_nat (length [b])) with (2 ^ 8).
  replace (be_value (take q l) * 2 ^ 8) with (be_value (take q l) * 2 ^ r * 2 ^ (8 - r)).
  2:{ rewrite <- Z.mul_assoc, <- Z.pow_add_r by lia. do 2 f_equal. lia. }
  rewrite Z.div_add_l by lia. done.
Qed.

(** The mask the code makes of [r] bits keeps the top [8 - r] bits of a byte. *)
Lemma partial_mask s d r : 0 < r < 8 → 0 <= s < 256 → 0 <= d < 256 →
  let m := u8 (Z.lnot (foldl (λ m k, u8 (Z.lor m (Z.shiftl 1 (Z.of_nat k)))) 0 (seq 0 (Z.to_nat r)))) in
  Z.land s m = Z.land d m ↔ s / 2 ^ r = d / 2 ^ r.
Proof.
  intros Hr Hs Hd m. assert (∀ x, 0 <= x < 256 → Z.land x m = x / 2 ^ r * 2 ^ r) as Hland.
  { intros x Hx. assert (m = u8 (Z.lnot (2 ^ r - 1))) as ->.
    { assert (r = 1 ∨ r = 2 ∨ r = 3 ∨ r = 4 ∨ r = 5 ∨ r = 6 ∨ r = 7) as Hin by lia.
      unfold m. clear - Hin. by destruct_or! Hin; subst r. }
    unfold u8. rewrite <- Z.land_ones, Z.land_assoc, (Z.land_comm x), <- Z.land_assoc by lia.
    rewrite Z.land_ones, Z.mod_small by lia. rewrite Z.land_comm. apply land_lnot_pred_pow2; lia. }
  rewrite !Hland by done. nia.
Qed.

Lemma same_bytes_spec s d n i : (i + n <= length s)%nat → (i + n <= length d)%nat →
  same_bytes s d n (Z.of_nat i) = Ok (bool_decide (take n (drop i s) = take n (drop i d))).
Proof.
  revert i. induction n as [|n IH]; intros i Hs Hd; simpl; [done|].
  destruct (lookup_lt_is_Some_2 s i) as [x Hx]; [lia|]. destruct (lookup_lt_is_Some_2 d i) as [y Hy]; [lia|].
  rewrite (proj2 (rd_Ok s (Z.of_nat i) x)) by (rewrite Nat2Z.id; split; [lia|done]).
  rewrite (proj2 (rd_Ok d (Z.of_nat i) y)) by (rewrite Nat2Z.id; split; [lia|done]).
  simpl. rewrite (drop_S s x i Hx), (drop_S d y i Hy), !firstn_cons. destruct (Z.eqb_spec x y) as [->|Hne].
  - replace (Z.of_nat i + 1) with (Z.of_nat (S i)) by lia. rewrite IH by lia. f_equal. apply bool_decide_ext.
    split; [by intros ->|by intros [= ?]].
  - symmetry. f_equal. apply bool_decide_eq_false. by intros [= ?].
Qed.

Lemma same_prefix_bytes s d q : bytes s → bytes d → length s = length d → (q <= length s)%nat →
  same_prefix (8 * Z.of_nat q) s d ↔ take q s = take q d.
Proof.
  intros Hs Hd Hlen Hq. unfold same_prefix. rewrite Hlen at 2. rewrite !prefix_bytes by (done || lia).
  split; [|by intros ->]. apply be_value_inj; [by apply Forall_take..|rewrite !length_take; lia].
Qed.

Lemma same_prefix_bits s d q r x y : bytes s → bytes d → length s = length d → s !! q = Some x → d !! q = Some y →
  0 < r < 8 → same_prefix (8 * Z.of_nat q + (8 - r)) s d ↔ take q s = take q d ∧ x / 2 ^ r = y / 2 ^ r.
Proof.
  intros Hs Hd Hlen Hx Hy Hr. unfold same_prefix. rewrite Hlen at 2.
  rewrite (prefix_bits s q (8 - r) x), (prefix_bits d q (8 - r) y) by (done || lia).
  replace (8 - (8 - r)) with r by lia. split; [|by intros [-> ->]]. intros Heq.
  assert (∀ z, 0 <= z < 256 → 0 <= z / 2 ^ r < 2 ^ (8 - r)) as Hdiv.
  { intros z Hz. split; [apply Z.div_pos; lia|]. apply Z.div_lt_upper_bound; [lia|]. rewrite <- Z.pow_add_r by lia.
    replace (r + (8 - r)) with 8 by lia. lia. }
  pose proof (Hdiv x (Forall_lookup_1 _ _ _ _ Hs Hx)). pose proof (Hdiv y (Forall_lookup_1 _ _ _ _ Hd Hy)).
  assert (be_value (take q s) = be_value (take q d)) as Hn by nia. rewrite Hn in Heq. split; [|lia].
  apply be_value_inj; [by apply Forall_take..|rewrite !length_take; lia|done].
Qed.

(** The comparison reads within the addresses, and compares [compared_bits]. *)
Lemma verify_bytes_spec s d mask : bytes s → bytes d → length s = length d → 0 <= mask <= 8 * Z.of_nat (length s) →
  ∃ b, __priskv_acl_verify_addr s d mask = Ok b ∧ (b = true ↔ same_prefix (compared_bits mask) s d).
Proof.
  intros Hs Hd Hlen Hm. unfold __priskv_acl_verify_addr, compared_bits.
  rewrite Z.quot_div_nonneg, Z.rem_mod_nonneg by lia.
  pose proof (Z.div_mod mask 8) as Hdm. pose proof (Z.mod_pos_bound mask 8) as Hr.
  set (q := Z.to_nat (mask / 8)). assert (mask / 8 = Z.of_nat q) as Hq by (unfold q; rewrite Z2Nat.id; dlia).
  rewrite Hq in Hdm |- *. pose proof (same_bytes_spec s d q 0 ltac:(lia) ltac:(lia)) as Hsb. change (Z.of_nat 0) with 0 in Hsb. rewrite Hsb, !drop_0. clear Hsb. simpl.
  destruct (Z.eqb_spec (mask mod 8) 0) as [H0|H0].
  - pose proof (same_prefix_bytes s d q Hs Hd Hlen ltac:(lia)) as Hp. replace (8 * Z.of_nat q) with mask in Hp by lia.
    case_bool_decide; simpl; eexists; (split; [done|naive_solver]).
  - destruct (lookup_lt_is_Some_2 s q) as [x Hx]; [lia|]. destruct (lookup_lt_is_Some_2 d q) as [y Hy]; [lia|].
    pose proof (same_prefix_bits s d q (mask mod 8) x y Hs Hd Hlen Hx Hy ltac:(lia)) as Hp.
    case_bool_decide; simpl; [|eexists; split; [done|naive_solver]].
    rewrite (proj2 (rd_Ok s (Z.of_nat q) x)) by (rewrite Nat2Z.id; split; [lia|done]).
    rewrite (proj2 (rd_Ok d (Z.of_nat q) y)) by (rewrite Nat2Z.id; split; [lia|done]). simpl.
    eexists. split; [done|]. rewrite Z.eqb_eq, (partial_mask x y (mask mod 8)); [naive_solver|lia| |];
      [exact (Forall_lookup_1 _ _ _ _ Hs Hx)|exact (Forall_lookup_1 _ _ _ _ Hd Hy)].
Qed.

Lemma verify_addr_spec acl sa : sockaddr_ok (acl_addr acl) → sockaddr_ok sa →
  0 < acl_mask_bits acl <= 8 * Z.of_nat (length (sa_addr (acl_addr acl))) →
  ∃ b, priskv_acl_verify_addr (acl_addr acl) sa (acl_mask_bits acl) = Ok b ∧
    (b = true ↔ sa_family (acl_addr acl) = sa_family sa ∧
       same_prefix (compared_bits (acl_mask_bits acl)) (sa_addr (acl_addr acl)) (sa_addr sa)).
Proof.
  intros [Ha Hfa] [Hb Hfb] Hm. unfold priskv_acl_verify_addr.
  destruct (Z.eqb_spec (sa_family (acl_addr acl)) (sa_family sa)) as [Heq|Hne]; simpl; [|by exists false; naive_solver].
  assert (length (sa_addr (acl_addr acl)) = length (sa_addr sa)) as Hlen
    by (destruct Hfa as [[? ?]|[? ?]], Hfb as [[? ?]|[? ?]]; congruence || (unfold AF_INET, AF_INET6 in *; lia)).
  destruct (verify_bytes_spec _ _ (acl_mask_bits acl) Ha Hb Hlen) as (b & Hv & Hiff); [lia|].
  exists b. split; [|naive_solver]. destruct Hfa as [[-> _]|[-> _]]; exact Hv.
Qed.

Lemma verify_spec l sa : Forall acl_ok l → sockaddr_ok sa →
  priskv_acl_verify l sa = Ok 0 ∧ Exists (λ acl, admits acl sa) l ∨
  priskv_acl_verify l sa = Ok (- EACCES) ∧ ¬ Exists (λ acl, admits acl sa) l.
Proof.
  intros Hl Hsa. induction Hl as [|acl l Hacl Hl IH]; [right; split; [done|by intros ?%Exists_nil]|].
  simpl. destruct (same_nocase (acl_rule acl) acl_any) eqn:Hany; [left; split; [done|by left; left]|].
  destruct Hacl as [?|[Hok Hm]]; [congruence|].
  destruct (verify_addr_spec acl sa Hok Hsa Hm) as (b & -> & Hb). simpl. destruct b.
  { left. split; [done|]. left. right. by apply Hb. }
  assert (¬ admits acl sa) as Hno by (intros [?|?%Hb]; congruence).
  rewrite Exists_cons. naive_solver.
Qed.

(** ** Reachable lists *)

(** The addresses the library reads have the length of their family. *)
Context (Hgai : ∀ a sa, getaddrinfo a = GaiAddr sa → bytes (sa_addr sa) ∧
  (sa_family sa = AF_INET → length (sa_addr sa) = 4%nat) ∧ (sa_family sa = AF_INET6 → length (sa_addr sa) = 16%nat)).

(** Lists made by adding and deleting rules whose mask is not negative. *)
Inductive acl_reachable : list priskv_acl → Prop :=
  | ar_empty : acl_reachable []
  | ar_add l rule : acl_reachable l → 0 <= (split_rule rule).2 → acl_reachable (priskv_acl_add l rule).2
  | ar_del l rule : acl_reachable l → acl_reachable (priskv_acl_del l rule).2.

Lemma acl_mask_ok sa mask_bits mask : 0 <= mask_bits → bytes (sa_addr sa) →
  (sa_family sa = AF_INET → length (sa_addr sa) = 4%nat) → (sa_family sa = AF_INET6 → length (sa_addr sa) = 16%nat) →
  acl_mask (sa_family sa) mask_bits = Some (inr mask) →
  sockaddr_ok sa ∧ 0 < mask <= 8 * Z.of_nat (length (sa_addr sa)).
Proof.
  intros Hmb Hb H4 H6. unfold acl_mask.
  destruct (Z.eqb_spec (sa_family sa) AF_INET) as [Hf|_];
    [|destruct (Z.eqb_spec (sa_family sa) AF_INET6) as [Hf|_]; [|done]].
  - rewrite (H4 Hf). intros [= Hm]. split; [split; [done|left; split; [done|by apply H4]]|].
    destruct (Z.eqb_spec mask_bits 0); simpl in Hm; [injection Hm as <-; lia|].
    destruct (Z.ltb_spec 32 mask_bits); [done|]. injection Hm as <-. lia.
  - rewrite (H6 Hf). intros [= Hm]. split; [split; [done|right; split; [done|by apply H6]]|].
    destruct (Z.eqb_spec mask_bits 0); simpl in Hm; [injection Hm as <-; lia|].
    destruct (Z.ltb_spec 128 mask_bits); [done|]. injection Hm as <-. lia.
Qed.

Lemma add_ok l rule : Forall acl_ok l → 0 <= (split_rule rule).2 → Forall acl_ok (priskv_acl_add l rule).2.
Proof.
  intros Hl Hm. unfold priskv_acl_add. destruct (same_nocase rule acl_any) eqn:Hany; simpl.
  { apply Forall_app. split; [done|]. constructor; [by left|done]. }
  destruct (split_rule rule) as [addr mask_bits]. simpl in Hm. unfold priskv_acl_addr.
  destruct (getaddrinfo addr) as [ret| |sa] eqn:Hg; [done..|]. destruct (Hgai _ _ Hg) as (Hb & H4 & H6).
  destruct (acl_mask _ _) as [[ret|mask]|] eqn:Hk; [done| |done]. simpl. apply Forall_app. split; [done|].
  constructor; [|done]. right. by apply (acl_mask_ok sa mask_bits).
Qed.

Lemma del_sublist l rule : sublist (priskv_acl_del l rule).2 l.
Proof.
  induction l as [|acl l IH]; simpl; [constructor|]. destruct (same_nocase _ _); simpl; [by constructor|].
  destruct (priskv_acl_del l rule) as [ret l']. simpl in *. by constructor.
Qed.

Lemma reachable_ok l : acl_reachable l → Forall acl_ok l.
Proof.
  induction 1 as [|l rule _ IH Hm|l rule _ IH]; [done|by apply add_ok|].
  rewrite Forall_forall in IH |- *. intros acl Hin. apply IH. by eapply elem_of_sublist, del_sublist.
Qed.

(** The verdict on a client: whatever rules were added and deleted, the list
    is read without a fault, and the client is let in exactly if a rule of the
    list is [any] or an address of its family that agrees with it on the bits
    compared; otherwise it is refused with [-EACCES]. *)
Theorem acl_verify_correct l sa :
  acl_reachable l → sockaddr_ok sa →
  priskv_acl_verify l sa = Ok 0 ∧ Exists (λ acl, admits acl sa) l ∨
  priskv_acl_verify l sa = Ok (- EACCES) ∧ ¬ Exists (λ acl, admits acl sa) l.
Proof. intros Hr Hsa. apply verify_spec; [by apply reachable_ok|done]. Qed.

(** The text of a rule: an address, a slash and the number of mask bits. *)
Definition rule_text (addr : list Z) (mask : Z) : list Z := addr ++ SLASH :: print_dec mask.

Lemma rule_not_any addr mask : same_nocase (rule_text addr mask) acl_any = false.
Proof.
  apply bool_decide_eq_false. intros Heq. assert (SLASH ∈ tolower <$> rule_text addr mask) as Hin.
  { apply list_elem_of_fmap. exists SLASH. split; [done|]. unfold rule_text. apply elem_of_app. right. left. }
  rewrite Heq in Hin. change (tolower <$> acl_any) with acl_any in Hin. unfold acl_any in Hin.
  by rewrite !elem_of_cons, elem_of_nil in Hin; destruct Hin as [|[|[|[]]]].
Qed.

Lemma split_text addr mask : SLASH ∉ addr → Z.of_nat (length addr) < 2 ^ 64 → 0 <= mask < 2 ^ 31 →
  split_rule (rule_text addr mask) = (addr, mask).
Proof.
  intros Ha Hlen Hm. unfold split_rule, rule_text. rewrite strchr_app by done. f_equal.
  - unfold strndup. rewrite u64_small by lia. rewrite Nat2Z.id. apply take_app_length.
  - assert (drop (S (length addr)) (addr ++ SLASH :: print_dec mask) = print_dec mask) as ->.
    { rewrite drop_app, drop_ge by lia. by replace (S (length addr) - length addr)%nat with 1%nat by lia. }
    pose proof (strtoll_print mask [] ltac:(lia) I) as Hp. rewrite app_nil_r in Hp. unfold atoi. rewrite Hp. by apply s32_small.
Qed.

Lemma verify_iff l sa : Forall acl_ok l → sockaddr_ok sa →
  priskv_acl_verify l sa = Ok 0 ↔ Exists (λ acl, admits acl sa) l.
Proof. intros Hl Hsa. destruct (verify_spec l sa Hl Hsa) as [[-> ?]|[-> ?]]; [done|]. split; [done|]. naive_solver. Qed.

(** A rule [address/mask] with a mask that is a multiple of four bits: it is
    added, and from then on the clients let in are those that were and those that
    agree with the address on the first [mask] bits. *)
Theorem acl_rule_admits_prefix l addr mask rule_sa sa :
  acl_reachable l → getaddrinfo addr = GaiAddr rule_sa → sockaddr_ok rule_sa → sockaddr_ok sa →
  SLASH ∉ addr → Z.of_nat (length addr) < 2 ^ 64 →
  0 < mask <= 8 * Z.of_nat (length (sa_addr rule_sa)) → mask mod 4 = 0 →
  let '(ret, l') := priskv_acl_add l (rule_text addr mask) in
  ret = 0 ∧ (priskv_acl_verify l' sa = Ok 0 ↔ priskv_acl_verify l sa = Ok 0 ∨
    sa_family rule_sa = sa_family sa ∧ same_prefix mask (sa_addr rule_sa) (sa_addr sa)).
Proof.
  intros Hr Hg Hrule Hsa Hslash Hlen Hm H4. apply reachable_ok in Hr.
  pose proof Hrule as [Hb Hfam]. assert (mask <= 128) as Hmax by (destruct Hfam as [[_ Hl]|[_ Hl]]; rewrite Hl in Hm; lia).
  pose proof (add_ok l (rule_text addr mask) Hr) as Hadd.
  rewrite split_text in Hadd by (done || lia). specialize (Hadd ltac:(simpl; lia)). revert Hadd.
  unfold priskv_acl_add. rewrite rule_not_any, split_text by (done || lia). unfold priskv_acl_addr. rewrite Hg.
  assert (acl_mask (sa_family rule_sa) mask = Some (inr mask)) as ->.
  { unfold acl_mask. rewrite (proj2 (Z.eqb_neq mask 0)) by lia. simpl.
    destruct Hfam as [[-> Hl]|[-> Hl]]; simpl; rewrite (proj2 (Z.ltb_ge _ mask)) by (rewrite Hl in Hm; lia); done. }
  simpl. intros Hadd. split; [done|]. rewrite !verify_iff, Exists_app, Exists_cons, Exists_nil by done.
  assert (compared_bits mask = mask) as Hc.
  { unfold compared_bits. destruct (Z.eqb_spec (mask mod 8) 0); [done|]. dlia. }
  unfold admits at 2. simpl. rewrite rule_not_any, Hc. naive_solver.
Qed.

(** Deleting a rule that was added gives back the list, unless the list had
    the rule, in whatever case, before; a rule that is not there is reported. *)
Theorem acl_add_del l rule :
  Forall (λ acl, same_nocase (acl_rule acl) rule = false) l →
  priskv_acl_del l rule = (- ENOENT, l) ∧
  ((priskv_acl_add l rule).2 = l ∨
   priskv_acl_get_rules (priskv_acl_add l rule).2 = priskv_acl_get_rules l ++ [rule] ∧
   priskv_acl_del (priskv_acl_add l rule).2 rule = (0, l)).
Proof.
  intros Hl. assert (priskv_acl_del l rule = (- ENOENT, l)) as Hdel.
  { induction Hl as [|acl l Ha Hl IH]; simpl; [done|]. by rewrite Ha, IH. }
  assert (∀ acl, acl_rule acl = rule → priskv_acl_get_rules (l ++ [acl]) = priskv_acl_get_rules l ++ [rule] ∧
    priskv_acl_del (l ++ [acl]) rule = (0, l)) as Happ.
  { intros acl Hacl. unfold priskv_acl_get_rules. rewrite fmap_app, <- Hacl at 1. split; [done|]. clear Hdel.
    induction Hl as [|a l Ha Hl IH]; simpl.
    - unfold same_nocase. rewrite Hacl. by rewrite bool_decide_eq_true_2.
    - rewrite Ha. by rewrite IH. }
  split; [done|]. unfold priskv_acl_add. destruct (same_nocase rule acl_any); [right; by apply Happ|].
  destruct (split_rule rule) as [addr mask_bits]. destruct (priskv_acl_addr addr) as [ret|sa]; [by left|].
  destruct (acl_mask _ _) as [[ret|mask]|]; [by left| |by left]. right. by apply Happ.
Qed.
End acl.

(** ** Examples *)

(** The address [10.0.0.1], and everything else fails. *)
Definition ex_text : list Z := [49; 48; 46; 48; 46; 48; 46; 49].
Definition ex_sa (last : Z) : sockaddr := mk_sockaddr AF_INET [10; 0; 0; last].
Definition ex_gai (s : list Z) : gai := if bool_decide (s = ex_text) then GaiAddr (ex_sa 1) else GaiError (-2).

Lemma ex_sa_ok n : 0 <= n < 256 → sockaddr_ok (ex_sa n).
Proof. intros Hn. split; [|by left]. repeat constructor; simpl; lia. Defined.

Lemma ex_gai_ok a sa : ex_gai a = GaiAddr sa → bytes (sa_addr sa) ∧
  (sa_family sa = AF_INET → length (sa_addr sa) = 4%nat) ∧ (sa_family sa = AF_INET6 → length (sa_addr sa) = 16%nat).
Proof.
  unfold ex_gai. case_bool_decide; [|done]. intros [= <-]. split; [apply ex_sa_ok; lia|done].
Defined.

Definition ex_list : list priskv_acl := (priskv_acl_add ex_gai [] (rule_text ex_text 24)).2.

Lemma ex_list_reachable : acl_reachable ex_gai ex_list.
Proof. apply ar_add; [apply ar_empty|]. vm_compute. discriminate. Defined.

Lemma acl_verify_correct_witness :
  priskv_acl_verify ex_list (ex_sa 200) = Ok 0 ∧ Exists (λ acl, admits acl (ex_sa 200)) ex_list.
Proof.
  destruct (acl_verify_correct ex_gai ex_gai_ok ex_list (ex_sa 200) ex_list_reachable (ex_sa_ok 200 ltac:(lia)))
    as [H|[H _]]; [exact H|]. vm_compute in H. discriminate.
Defined.

Lemma acl_rule_admits_prefix_witness :
  priskv_acl_verify (priskv_acl_add ex_gai [] (rule_text ex_text 24)).2 (ex_sa 7) = Ok 0.
Proof.
  pose proof (acl_rule_admits_prefix ex_gai ex_gai_ok [] ex_text 24 (ex_sa 1) (ex_sa 7)) as H.
  destruct H as [_ H]; [apply ar_empty|reflexivity|apply ex_sa_ok; lia|apply ex_sa_ok; lia| |vm_compute; reflexivity| |reflexivity|].
  - apply strchr_None. reflexivity.
  - simpl; lia.
  - apply H. right. split; reflexivity.
Defined.

Lemma acl_add_del_witness :
  priskv_acl_del (priskv_acl_add ex_gai [] (rule_text ex_text 24)).2 (rule_text ex_text 24) = (0, []).
Proof.
  destruct (acl_add_del ex_gai [] (rule_text ex_text 24) ltac:(constructor)) as [_ [H|[_ H]]]; [vm_compute in H; discriminate|exact H].
Defined.

(** ** Where the list is not what a user writes *)

(** [10.0.0.1/31] lets [10.0.0.127] in, and [10.0.0.1/25] keeps [10.0.0.2] out. *)
Lemma mask_31_admits_more :
  priskv_acl_verify (priskv_acl_add ex_gai [] (rule_text ex_text 31)).2 (ex_sa 127) = Ok 0.
Proof. vm_compute. reflexivity. Qed.

Lemma mask_25_admits_less :
  priskv_acl_verify (priskv_acl_add ex_gai [] (rule_text ex_text 25)).2 (ex_sa 2) = Ok (- EACCES).
Proof. vm_compute. reflexivity. Qed.

(** A mask of 0 is a mask of 32; a negative mask admits everything, or reads
    before the address. *)
Lemma mask_0_is_32 : priskv_acl_add ex_gai [] (rule_text ex_text 0) = (0, [mk_acl (rule_text ex_text 0) (ex_sa 1) 32]).
Proof. vm_compute. reflexivity. Qed.

Lemma negative_mask_admits_all :
  priskv_acl_verify (priskv_acl_add ex_gai [] (ex_text ++ [SLASH; 45; 56])).2 (mk_sockaddr AF_INET [1; 2; 3; 4]) = Ok 0.
Proof. vm_compute. reflexivity. Qed.

Lemma negative_mask_out_of_bounds :
  priskv_acl_verify (priskv_acl_add ex_gai [] (ex_text ++ [SLASH; 45; 49; 49])).2 (ex_sa 1) = Fault OutOfBounds.
Proof. vm_compute. reflexivity. Qed.

(** An address of another family is reported as added, and is not. *)
Lemma other_family_reported_as_added :
  priskv_acl_add (λ _, GaiAddr (mk_sockaddr 1 [])) [] ex_text = (0, []).
Proof. vm_compute. reflexivity. Qed.
