(* ===== verification/Wire.v ===== *)
(** * Requests on the wire

    [include/priskv-protocol.h] and [include/priskv-protocol-helper.h]: the
    layout of a request, the fields the server reads from the buffer it received
    and the client's code that fills it in ([priskv_rdma_req_send] and
    [priskv_fillup_sql] of [client/rdma.c]). *)

From S2P Require Import Prelude Utils Protocol.

#[local] Arguments be_bytes : simpl never.

(** ** Commands *)

Definition PRISKV_COMMAND_GET : Z := 0.
Definition PRISKV_COMMAND_SET : Z := 1.
Definition PRISKV_COMMAND_TEST : Z := 2.
Definition PRISKV_COMMAND_DELETE : Z := 3.
Definition PRISKV_COMMAND_EXPIRE : Z := 4.
Definition PRISKV_COMMAND_KEYS : Z := 5.
Definition PRISKV_COMMAND_NRKEYS : Z := 6.
Definition PRISKV_COMMAND_FLUSH : Z := 7.
Definition PRISKV_COMMAND_MAX : Z := 8.

(** ** Layout

    [priskv_request]: identifier, timeout, command, four reserved bytes, number
    of SGLs, key length and, aligned to eight bytes, six time stamps; then the
    SGLs and the key. *)

Definition sizeof_priskv_request : Z := 128.
Definition sizeof_priskv_keyed_sgl : Z := 16.
Definition sizeof_priskv_response : Z := 32.
Definition off_request_id : Z := 0.
Definition off_timeout : Z := 8.
Definition off_command : Z := 16.
Definition off_nsgl : Z := 22.
Definition off_key_length : Z := 24.
Definition off_sgls : Z := 128.

Record priskv_keyed_sgl := mk_sgl { sgl_addr : Z; sgl_length : Z; sgl_key : Z }.

Definition priskv_request_key_off (nsgl : Z) : Z :=
  u16 (sizeof_priskv_request + sizeof_priskv_keyed_sgl * nsgl).

Definition priskv_request_size (nsgl keylen : Z) : Z := u16 (priskv_request_key_off nsgl + keylen).

(** ** Buffers *)

Definition slice (buf : list Z) (off n : Z) : list Z :=
  take (Z.to_nat n) (drop (Z.to_nat off) buf).

(** [memcpy] out of a buffer and into it. *)
Definition get_bytes (buf : list Z) (off n : Z) : res (list Z) :=
  if (0 <=? off) && (0 <=? n) && (off + n <=? Z.of_nat (length buf)) then Ok (slice buf off n)
  else Fault OutOfBounds.

Definition put_bytes (buf : list Z) (off : Z) (bs : list Z) : res (list Z) :=
  if (0 <=? off) && (off + Z.of_nat (length bs) <=? Z.of_nat (length buf))
  then Ok (take (Z.to_nat off) buf ++ bs ++ drop (Z.to_nat off + length bs) buf)
  else Fault OutOfBounds.

(** [be16toh], [be32toh] and [be64toh] of a field, and the assignments. *)
Definition get_be (n : nat) (buf : list Z) (off : Z) : res Z :=
  bs ← get_bytes buf off (Z.of_nat n);
  Ok (be_value bs).

Definition put_be (n : nat) (buf : list Z) (off v : Z) : res (list Z) :=
  put_bytes buf off (be_bytes n v).

(** ** The server's reads *)

Definition req_request_id (buf : list Z) : res Z := get_be 8 buf off_request_id.
Definition req_timeout (buf : list Z) : res Z := get_be 8 buf off_timeout.
Definition req_command (buf : list Z) : res Z := get_be 2 buf off_command.
Definition req_nsgl (buf : list Z) : res Z := get_be 2 buf off_nsgl.
Definition req_key_length (buf : list Z) : res Z := get_be 2 buf off_key_length.

Definition req_sgl (buf : list Z) (i : Z) : res priskv_keyed_sgl :=
  let off := off_sgls + sizeof_priskv_keyed_sgl * i in
  addr ← get_be 8 buf off;
  length ← get_be 4 buf (off + 8);
  key ← get_be 4 buf (off + 12);
  Ok (mk_sgl addr length key).

(** The SGLs [req->sgls[0]] to [req->sgls[nsgl - 1]]. *)
Definition req_sgls (buf : list Z) (nsgl : Z) : res (list priskv_keyed_sgl) :=
  foldM (λ l i, s ← req_sgl buf i; Ok (l ++ [s])) [] (seqZ 0 nsgl).

Definition priskv_sgl_size_from_be (sgls : list priskv_keyed_sgl) : Z :=
  foldl (λ size s, u32 (size + sgl_length s)) 0 sgls.

(** The key, of the length that is left in the message. *)
Definition priskv_request_key (buf : list Z) (nsgl keylen : Z) : res (list Z) :=
  get_bytes buf (priskv_request_key_off nsgl) keylen.

(** ** The client's writes *)

(** [priskv_fillup_sql]: an SGL in host order; [keyed_sgls] of [Client] finds its [rkey]. *)
Definition fillup_one (buf : list Z) (off : Z) (s : priskv_keyed_sgl) : res (list Z) :=
  buf ← put_be 8 buf off (sgl_addr s);
  buf ← put_be 4 buf (off + 8) (sgl_length s);
  put_be 4 buf (off + 12) (sgl_key s).

Fixpoint priskv_fillup_sql (buf : list Z) (off : Z) (sgls : list priskv_keyed_sgl) : res (list Z) :=
  match sgls with
  | [] => Ok buf
  | s :: sgls =>
      buf ← fillup_one buf off s;
      priskv_fillup_sql buf (off + sizeof_priskv_keyed_sgl) sgls
  end.

(** The buffer [priskv_rdma_req_send] fills in and how much of it is sent.
    [stamp] is the time stamp of the client, at the end of the header. *)
Definition fill_request (buf : list Z) (request_id command timeout : Z)
    (sgls : list priskv_keyed_sgl) (key stamp : list Z) : res (list Z * Z) :=
  let nsgl := Z.of_nat (length sgls) in
  let keylen := Z.of_nat (length key) in
  buf ← put_be 8 buf off_request_id request_id;
  buf ← put_be 2 buf off_command command;
  buf ← put_be 2 buf off_nsgl nsgl;
  buf ← put_be 8 buf off_timeout timeout;
  buf ← put_be 2 buf off_key_length keylen;
  buf ← put_bytes buf (sizeof_priskv_request - 16) stamp;
  buf ← priskv_fillup_sql buf off_sgls sgls;
  buf ← put_bytes buf (priskv_request_key_off nsgl) key;
  Ok (buf, priskv_request_size nsgl keylen).

(** ** What is where in a buffer *)

Definition holds_at (buf : list Z) (off : Z) (bs : list Z) : Prop :=
  0 <= off ∧ ∀ i x, bs !! i = Some x → buf !! (Z.to_nat off + i)%nat = Some x.

Lemma get_holds buf off bs :
  holds_at buf off bs → bs ≠ [] → get_bytes buf off (Z.of_nat (length bs)) = Ok bs.
Proof.
  intros [Ho Hb] Hne. assert (off + Z.of_nat (length bs) <= Z.of_nat (length buf)) as Hle.
  { destruct bs as [|b bs _] using rev_ind; [done|].
    pose proof (Hb (length bs) b) as Hl. rewrite lookup_app_r, Nat.sub_diag in Hl by lia.
    specialize (Hl eq_refl). apply lookup_lt_Some in Hl. rewrite length_app. simpl. lia. }
  unfold get_bytes. rewrite !(proj2 (Z.leb_le _ _)) by lia. simpl. f_equal. unfold slice.
  apply list_eq. intros i. rewrite Nat2Z.id. destruct (decide (i < length bs)%nat).
  - rewrite lookup_take_lt, lookup_drop by done.
    destruct (lookup_lt_is_Some_2 bs i) as [x Hx]; [done|]. by rewrite Hx, (Hb i x Hx).
  - rewrite lookup_take_ge, (lookup_ge_None_2 bs) by lia. done.
Qed.

Lemma put_Ok buf off bs :
  0 <= off → off + Z.of_nat (length bs) <= Z.of_nat (length buf) →
  ∃ out, put_bytes buf off bs = Ok out ∧ length out = length buf ∧ holds_at out off bs ∧
    ∀ o cs, holds_at buf o cs →
      o + Z.of_nat (length cs) <= off ∨ off + Z.of_nat (length bs) <= o → holds_at out o cs.
Proof.
  intros Ho Hl. unfold put_bytes. rewrite !(proj2 (Z.leb_le _ _)) by lia. simpl.
  eexists. split; [done|]. split_and!; [|split; [done|]|].
  - rewrite !length_app, length_take, length_drop. lia.
  - intros i x Hx. pose proof (lookup_lt_Some _ _ _ Hx).
    rewrite lookup_app_r by (rewrite length_take; lia).
    rewrite lookup_app_l by (rewrite length_take; lia).
    rewrite length_take. by replace (_ + i - _)%nat with i by lia.
  - intros o cs [Hoo Hc] Hd. split; [done|]. intros i x Hx. pose proof (lookup_lt_Some _ _ _ Hx).
    pose proof (Hc i x Hx) as Hb. pose proof (lookup_lt_Some _ _ _ Hb).
    destruct Hd as [Hd|Hd].
    + rewrite lookup_app_l by (rewrite length_take; lia). rewrite lookup_take_lt by lia. done.
    + rewrite lookup_app_r by (rewrite length_take; lia).
      rewrite lookup_app_r by (rewrite length_take; lia).
      rewrite lookup_drop, length_take, <- Hb. f_equal. lia.
Qed.

(** What was sent is at the front of the receiver's buffer. *)
Lemma holds_sent buf off bs n rest :
  holds_at buf off bs → off + Z.of_nat (length bs) <= n → n <= Z.of_nat (length buf) →
  holds_at (take (Z.to_nat n) buf ++ rest) off bs.
Proof.
  intros [Ho Hb] Hn Hl. split; [done|]. intros i x Hx. pose proof (lookup_lt_Some _ _ _ Hx).
  rewrite lookup_app_l by (rewrite length_take; lia). rewrite lookup_take_lt by lia. by apply Hb.
Qed.

Lemma get_be_holds n buf off v :
  holds_at buf off (be_bytes n v) → (0 < n)%nat → 0 <= v < 256 ^ Z.of_nat n →
  get_be n buf off = Ok v.
Proof.
  intros Hh Hn Hv. unfold get_be. rewrite <- (be_bytes_length n v) at 1.
  rewrite get_holds; [|done|].
  - simpl. by rewrite be_roundtrip.
  - intros He. apply (f_equal length) in He. rewrite be_bytes_length in He. simpl in He. lia.
Qed.

(** A buffer after a series of writes that do not overlap. *)
Definition writes (out : list Z) (len : nat) (ws : list (Z * list Z)) : Prop :=
  length out = len ∧ Forall (λ w, holds_at out w.1 w.2) ws.

Definition apart (off n : Z) (w : Z * list Z) : Prop :=
  w.1 + Z.of_nat (length w.2) <= off ∨ off + n <= w.1.

Lemma put_writes buf len ws off bs :
  writes buf len ws → 0 <= off → off + Z.of_nat (length bs) <= Z.of_nat len →
  Forall (apart off (Z.of_nat (length bs))) ws →
  ∃ out, put_bytes buf off bs = Ok out ∧ writes out len ((off, bs) :: ws).
Proof.
  intros [Hl Hw] Ho Hf Hd. destruct (put_Ok buf off bs) as (out & -> & Hlen & Hh & Hk); [lia..|].
  exists out. split; [done|]. split; [lia|]. constructor; [done|].
  rewrite Forall_forall in Hw, Hd |- *. intros [o cs] Hin. apply Hk; [by apply Hw|].
  by apply (Hd (o, cs)).
Qed.

Definition sgl_writes (off : Z) (s : priskv_keyed_sgl) : list (Z * list Z) :=
  [(off + 12, be_bytes 4 (sgl_key s)); (off + 8, be_bytes 4 (sgl_length s));
   (off, be_bytes 8 (sgl_addr s))].

Fixpoint sgls_writes (off : Z) (sgls : list priskv_keyed_sgl) : list (Z * list Z) :=
  match sgls with
  | [] => []
  | s :: sgls => sgls_writes (off + sizeof_priskv_keyed_sgl) sgls ++ sgl_writes off s
  end.

Ltac put_step :=
  match goal with
  | H : writes ?buf ?len ?ws |- context [put_bytes ?buf ?off ?bs] =>
      let out := fresh "buf" in
      let Hput := fresh "Hput" in
      let Hw := fresh "Hw" in
      destruct (put_writes buf len ws off bs H) as (out & Hput & Hw);
      [| | |rewrite Hput; clear H Hput; simpl]
  end.

Ltac apart_list :=
  repeat (constructor; [unfold apart; simpl; rewrite ?be_bytes_length; lia|]); constructor.

Lemma fillup_writes sgls : ∀ buf len ws off,
  writes buf len ws → 0 <= off →
  off + sizeof_priskv_keyed_sgl * Z.of_nat (length sgls) <= Z.of_nat len →
  Forall (λ w, w.1 + Z.of_nat (length w.2) <= off) ws →
  ∃ out, priskv_fillup_sql buf off sgls = Ok out ∧ writes out len (sgls_writes off sgls ++ ws).
Proof.
  unfold sizeof_priskv_keyed_sgl.
  induction sgls as [|s sgls IH]; intros buf len ws off Hw Ho Hf Hd; simpl; [eauto|].
  simpl in Hf. unfold fillup_one, put_be.
  put_step; [lia|rewrite be_bytes_length; lia| |].
  { eapply Forall_impl; [done|]. intros w Hle. left. simpl in *. lia. }
  put_step; [lia|rewrite be_bytes_length; lia| |].
  { rewrite be_bytes_length. constructor; [left; simpl; lia|].
    eapply Forall_impl; [done|]. intros w Hle. left. simpl in *. lia. }
  put_step; [lia|rewrite be_bytes_length; lia| |].
  { rewrite be_bytes_length. constructor; [left; simpl; lia|]. constructor; [left; simpl; lia|].
    eapply Forall_impl; [done|]. intros w Hle. left. simpl in *. lia. }
  destruct (IH buf2 len (sgl_writes off s ++ ws) (off + 16)) as (out & Heq & Hw'); [done|lia|lia| |].
  { apply Forall_app. split; [|eapply Forall_impl; [done|]; simpl; lia].
    repeat (constructor; [simpl; rewrite ?be_bytes_length; lia|]). constructor. }
  exists out. split; [exact Heq|]. by rewrite <- app_assoc.
Qed.

Lemma sgls_writes_lookup sgls : ∀ off i s,
  sgls !! i = Some s → sgl_writes (off + 16 * Z.of_nat i) s ⊆ sgls_writes off sgls.
Proof.
  induction sgls as [|s' sgls IH]; intros off i s Hi; [done|].
  destruct i as [|i]; simpl in *.
  - injection Hi as ->. rewrite Z.add_0_r. set_solver.
  - pose proof (IH (off + sizeof_priskv_keyed_sgl) i s Hi) as Hs. unfold sizeof_priskv_keyed_sgl in *.
    replace (off + 16 * Z.of_nat (S i)) with (off + 16 + 16 * Z.of_nat i) by lia. set_solver.
Qed.

Lemma sgls_writes_end sgls : ∀ off,
  Forall (λ w, off <= w.1 ∧
    w.1 + Z.of_nat (length w.2) <= off + 16 * Z.of_nat (length sgls)) (sgls_writes off sgls).
Proof.
  induction sgls as [|s sgls IH]; intros off; simpl; [constructor|]. apply Forall_app. split.
  - eapply Forall_impl; [apply IH|]. intros w. simpl. unfold sizeof_priskv_keyed_sgl. lia.
  - repeat (constructor; [simpl; rewrite ?be_bytes_length; lia|]). constructor.
Qed.

(** ** Round trip *)

(** A request that fits the negotiated limits: fields of their widths and a
    message shorter than 64 KiB. *)
Record request_ok (request_id command timeout : Z) (sgls : list priskv_keyed_sgl) (key stamp : list Z)
    : Prop := {
  rq_id : 0 <= request_id < 2 ^ 64;
  rq_cmd : 0 <= command < 2 ^ 16;
  rq_tmo : 0 <= timeout < 2 ^ 64;
  rq_sgl : Forall (λ s, 0 <= sgl_addr s < 2 ^ 64 ∧ 0 <= sgl_length s < 2 ^ 32 ∧ 0 <= sgl_key s < 2 ^ 32) sgls;
  rq_key : key ≠ [];
  rq_stamp : length stamp = 16%nat;
  rq_size : sizeof_priskv_request + sizeof_priskv_keyed_sgl * Z.of_nat (length sgls)
            + Z.of_nat (length key) < 2 ^ 16
}.

Lemma key_off_small nsgl :
  0 <= nsgl → sizeof_priskv_request + sizeof_priskv_keyed_sgl * nsgl < 2 ^ 16 →
  priskv_request_key_off nsgl = sizeof_priskv_request + sizeof_priskv_keyed_sgl * nsgl.
Proof. unfold sizeof_priskv_request, sizeof_priskv_keyed_sgl. intros. apply Z.mod_small. lia. Qed.

Lemma fill_request_writes buf id cmd tmo sgls key stamp :
  length stamp = 16%nat →
  sizeof_priskv_request + sizeof_priskv_keyed_sgl * Z.of_nat (length sgls) + Z.of_nat (length key) < 2 ^ 16 →
  sizeof_priskv_request + sizeof_priskv_keyed_sgl * Z.of_nat (length sgls) + Z.of_nat (length key)
    <= Z.of_nat (length buf) →
  ∃ out, fill_request buf id cmd tmo sgls key stamp
         = Ok (out, priskv_request_size (Z.of_nat (length sgls)) (Z.of_nat (length key))) ∧
    writes out (length buf)
      ((priskv_request_key_off (Z.of_nat (length sgls)), key) :: sgls_writes off_sgls sgls ++
       [(112, stamp); (24, be_bytes 2 (Z.of_nat (length key))); (8, be_bytes 8 tmo);
        (22, be_bytes 2 (Z.of_nat (length sgls))); (16, be_bytes 2 cmd); (0, be_bytes 8 id)]).
Proof.
  intros Hst Hsz Hfit.
  unfold fill_request, put_be, off_request_id, off_command, off_nsgl, off_timeout, off_key_length.
  unfold sizeof_priskv_request, sizeof_priskv_keyed_sgl in *.
  assert (writes buf (length buf) []) as Hw by done.
  put_step; [lia|rewrite be_bytes_length; lia|constructor|].
  do 4 (put_step; [lia|rewrite be_bytes_length; lia|
    rewrite be_bytes_length; apart_list|]).
  put_step; [lia|rewrite Hst; simpl; lia| |].
  { rewrite Hst. apart_list. }
  change (128 - 16) with 112 in Hw.
  match goal with H : writes ?b _ ?ws |- context [priskv_fillup_sql ?b _ _] =>
    destruct (fillup_writes sgls b (length buf) ws off_sgls H) as (out & -> & Hw') end;
    [unfold off_sgls, sizeof_priskv_keyed_sgl; lia..| |].
  { repeat (constructor; [simpl; rewrite ?be_bytes_length, ?Hst; unfold off_sgls; lia|]). constructor. }
  simpl. rewrite key_off_small in * by (unfold sizeof_priskv_request, sizeof_priskv_keyed_sgl; lia).
  unfold sizeof_priskv_request, sizeof_priskv_keyed_sgl.
  put_step; [lia|lia| |eexists; split; [done|done]].
  apply Forall_app. split; [|apart_list].
  eapply Forall_impl; [apply sgls_writes_end|]. intros w [_ Hle]. left. unfold off_sgls in Hle. lia.
Qed.

Lemma req_sgls_spec buf sgls : ∀ acc i,
  (∀ j s, sgls !! j = Some s → req_sgl buf (i + Z.of_nat j) = Ok s) →
  foldM (λ l i, s ← req_sgl buf i; Ok (l ++ [s])) acc (seqZ i (Z.of_nat (length sgls)))
    = Ok (acc ++ sgls).
Proof.
  induction sgls as [|s sgls IH]; intros acc i Hs.
  { simpl. by rewrite app_nil_r. }
  rewrite seqZ_cons by (simpl; lia). cbn [foldM]. pose proof (Hs 0%nat s eq_refl) as H0.
  rewrite Z.add_0_r in H0. rewrite H0. simpl.
  replace (Z.pred (Z.of_nat (S (length sgls)))) with (Z.of_nat (length sgls)) by lia.
  rewrite IH; [by rewrite <- app_assoc|]. intros j s' Hj.
  rewrite <- (Hs (S j) s' Hj). f_equal. lia.
Qed.

(** Reads inside a buffer succeed. *)
Lemma be_value_range l : bytes l → 0 <= be_value l < 256 ^ Z.of_nat (length l).
Proof.
  induction l as [|b l IH] using rev_ind; intros Hb; [done|].
  apply Forall_app in Hb as [Hl Hb]. apply Forall_cons in Hb as [Hb _].
  rewrite be_value_app, length_app. simpl. specialize (IH Hl).
  replace (Z.of_nat (length l + 1)) with (Z.of_nat (length l) + 1) by lia.
  rewrite Z.pow_add_r by lia. lia.
Qed.

Lemma get_bytes_Ok buf off n :
  0 <= off → 0 <= n → off + n <= Z.of_nat (length buf) →
  get_bytes buf off n = Ok (slice buf off n) ∧ Z.of_nat (length (slice buf off n)) = n.
Proof.
  intros. unfold get_bytes. rewrite !(proj2 (Z.leb_le _ _)) by lia. split; [done|].
  unfold slice. rewrite length_take, length_drop. lia.
Qed.

Lemma slice_bytes buf off n : bytes buf → bytes (slice buf off n).
Proof. intros Hb. by apply Forall_take, Forall_drop. Qed.

Lemma get_be_Ok n buf off :
  bytes buf → 0 <= off → off + Z.of_nat n <= Z.of_nat (length buf) →
  ∃ v, get_be n buf off = Ok v ∧ 0 <= v < 256 ^ Z.of_nat n.
Proof.
  intros Hb Ho Hl. unfold get_be. destruct (get_bytes_Ok buf off (Z.of_nat n)) as [-> Hn]; [lia..|].
  simpl. eexists. split; [done|].
  pose proof (be_value_range _ (slice_bytes buf off (Z.of_nat n) Hb)) as Hr. by rewrite Hn in Hr.
Qed.

Lemma req_sgl_Ok buf i :
  bytes buf → 0 <= i → off_sgls + sizeof_priskv_keyed_sgl * (i + 1) <= Z.of_nat (length buf) →
  ∃ s, req_sgl buf i = Ok s ∧ 0 <= sgl_length s < 2 ^ 32.
Proof.
  unfold off_sgls, sizeof_priskv_keyed_sgl. intros Hb Hi Hl.
  unfold req_sgl, off_sgls, sizeof_priskv_keyed_sgl. cbv zeta.
  destruct (get_be_Ok 8 buf (128 + 16 * i)) as (a & -> & _); [done|lia|lia|]. simpl.
  destruct (get_be_Ok 4 buf (128 + 16 * i + 8)) as (l & -> & Hr); [done|lia|lia|]. simpl.
  destruct (get_be_Ok 4 buf (128 + 16 * i + 12)) as (k & -> & _); [done|lia|lia|]. simpl.
  eexists. split; [done|]. exact Hr.
Qed.

Lemma req_sgls_Ok buf nsgl :
  bytes buf → 0 <= nsgl → off_sgls + sizeof_priskv_keyed_sgl * nsgl <= Z.of_nat (length buf) →
  ∃ sgls, req_sgls buf nsgl = Ok sgls ∧ Z.of_nat (length sgls) = nsgl ∧
    Forall (λ s, 0 <= sgl_length s < 2 ^ 32) sgls.
Proof.
  unfold off_sgls, sizeof_priskv_keyed_sgl. intros Hb Hn Hl. unfold req_sgls.
  destruct (foldM_inv (λ l i, s ← req_sgl buf i; Ok (l ++ [s]))
    (λ l rest, ∃ i, 0 <= i <= nsgl ∧ rest = seqZ i (nsgl - i) ∧ Z.of_nat (length l) = i ∧
       Forall (λ s, 0 <= sgl_length s < 2 ^ 32) l) (seqZ 0 nsgl) [])
    as (sgls & Heq & i & Hi & He & Hlen & Hf).
  - intros l x rest (i & Hi & He & Hlen & Hf). destruct (decide (i = nsgl)) as [->|Hne].
    { rewrite Z.sub_diag in He. by rewrite seqZ_nil in He by lia. }
    rewrite seqZ_cons in He by lia. injection He as -> ->.
    destruct (req_sgl_Ok buf i) as (s & -> & Hs);
      [done|lia|unfold off_sgls, sizeof_priskv_keyed_sgl; lia|].
    simpl. eexists. split; [done|]. exists (i + 1). split; [lia|]. split; [f_equal; lia|].
    split; [rewrite length_app; simpl; lia|]. apply Forall_app. split; [done|]. by constructor.
  - exists 0. split; [lia|]. split; [f_equal; lia|]. by split.
  - exists sgls. split; [exact Heq|]. split; [|done].
    destruct (decide (i = nsgl)) as [->|]; [done|]. rewrite seqZ_cons in He by lia. done.
Qed.

Lemma sgl_size_range sgls : 0 <= priskv_sgl_size_from_be sgls < 2 ^ 32.
Proof.
  unfold priskv_sgl_size_from_be. induction sgls as [|s sgls IH] using rev_ind; [done|].
  rewrite foldl_app. simpl. apply u32_range.
Qed.

(** Side conditions of a field of [n] bytes. *)
Ltac field_tac := first [done | lia | match goal with |- context [256 ^ ?e] =>
  let v := eval vm_compute in (256 ^ e) in change (256 ^ e) with v; lia end].

Lemma get_sgl buf i s :
  0 <= sgl_addr s < 2 ^ 64 ∧ 0 <= sgl_length s < 2 ^ 32 ∧ 0 <= sgl_key s < 2 ^ 32 →
  Forall (λ w, holds_at buf w.1 w.2) (sgl_writes (off_sgls + 16 * i) s) → req_sgl buf i = Ok s.
Proof.
  intros (Ha & Hl & Hk) Hw. unfold sgl_writes in Hw.
  rewrite !Forall_cons in Hw. destruct Hw as (H3 & H2 & H1 & _). simpl in *.
  unfold req_sgl, sizeof_priskv_keyed_sgl.
  rewrite (get_be_holds 8 _ _ _ H1) by field_tac. simpl.
  rewrite (get_be_holds 4 _ _ _ H2) by field_tac. simpl.
  rewrite (get_be_holds 4 _ _ _ H3) by field_tac. simpl. by destruct s.
Qed.

(** What the sender itself reads in the buffer it filled. *)
Lemma fill_request_header buf id cmd tmo sgls key stamp :
  0 <= id < 2 ^ 64 → 0 <= cmd < 2 ^ 16 → length stamp = 16%nat →
  sizeof_priskv_request + sizeof_priskv_keyed_sgl * Z.of_nat (length sgls) + Z.of_nat (length key) < 2 ^ 16 →
  sizeof_priskv_request + sizeof_priskv_keyed_sgl * Z.of_nat (length sgls) + Z.of_nat (length key)
    <= Z.of_nat (length buf) →
  ∃ out len, fill_request buf id cmd tmo sgls key stamp = Ok (out, len) ∧ length out = length buf ∧
    req_request_id out = Ok id ∧ req_command out = Ok cmd.
Proof.
  intros Hid Hcmd Hst Hsz Hfit. destruct (fill_request_writes buf id cmd tmo sgls key stamp Hst Hsz Hfit) as (out & -> & Hl & Hw).
  eexists out, _. split; [done|]. split; [done|].
  apply Forall_cons in Hw as [_ Hw]. apply Forall_app in Hw as [_ Hw]. rewrite !Forall_cons in Hw.
  destruct Hw as (_ & _ & _ & _ & H16 & H0 & _). simpl in *. split; apply get_be_holds; field_tac.
Qed.

(** The command of a message is overwritten. *)
Lemma put_command buf v :
  0 <= v < 2 ^ 16 → sizeof_priskv_request <= Z.of_nat (length buf) →
  ∃ out, put_be 2 buf off_command v = Ok out ∧ length out = length buf ∧ req_command out = Ok v ∧
    req_request_id out = req_request_id buf.
Proof.
  unfold sizeof_priskv_request. intros Hv Hl. unfold put_be, off_command.
  destruct (put_Ok buf 16 (be_bytes 2 v)) as (out & -> & Hlen & Hh & Hk); [lia|rewrite be_bytes_length; lia|].
  exists out. split; [done|]. split; [done|]. split; [apply get_be_holds; field_tac|].
  unfold req_request_id, get_be, off_request_id. f_equal.
  assert (length (slice buf 0 8) = 8%nat) as H8l by (unfold slice; rewrite length_take, length_drop; lia).
  assert (∀ b, 8 <= Z.of_nat (length b) → get_bytes b 0 8 = Ok (slice b 0 8)) as Hget.
  { intros b Hb. unfold get_bytes. by rewrite !(proj2 (Z.leb_le _ _)) by lia. }
  assert (holds_at buf 0 (slice buf 0 8)) as H8.
  { split; [done|]. intros i x Hx. unfold slice in Hx. apply lookup_take_Some in Hx as [Hx _]. exact Hx. }
  apply Hk in H8; [|lia]. apply get_holds in H8; [|intros He; by rewrite He in H8l].
  rewrite H8l in H8. change (Z.of_nat 8) with 8 in *. rewrite H8. symmetry. apply Hget. lia.
Qed.

(** (C17) A request survives the wire: what the client fills in with the
    identifier, command, timeout, SGLs and key of a request, and sends, the
    server reads back field by field from its receive buffer, whatever either
    buffer held before; the key length the server derives from the message length
    is the length of the key. *)
Theorem request_roundtrip buf id cmd tmo sgls key stamp :
  request_ok id cmd tmo sgls key stamp →
  sizeof_priskv_request + sizeof_priskv_keyed_sgl * Z.of_nat (length sgls) + Z.of_nat (length key)
    <= Z.of_nat (length buf) →
  ∃ out len, fill_request buf id cmd tmo sgls key stamp = Ok (out, len) ∧
    ∀ rest, let recv := take (Z.to_nat len) out ++ rest in
      req_request_id recv = Ok id ∧ req_command recv = Ok cmd ∧ req_timeout recv = Ok tmo ∧
      req_nsgl recv = Ok (Z.of_nat (length sgls)) ∧
      req_sgls recv (Z.of_nat (length sgls)) = Ok sgls ∧
      u16 (len - priskv_request_key_off (Z.of_nat (length sgls))) = Z.of_nat (length key) ∧
      priskv_request_key recv (Z.of_nat (length sgls)) (Z.of_nat (length key)) = Ok key.
Proof.
  intros [Hid Hcmd Htmo Hs Hkey Hst Hsz] Hfit.
  destruct (fill_request_writes buf id cmd tmo sgls key stamp Hst Hsz Hfit) as (out & -> & Hw).
  set (k := Z.of_nat (length sgls)) in *. set (n := Z.of_nat (length key)) in *.
  assert (priskv_request_key_off k = 128 + 16 * k) as Hko by (apply key_off_small; unfold sizeof_priskv_request, sizeof_priskv_keyed_sgl in *; lia).
  unfold sizeof_priskv_request, sizeof_priskv_keyed_sgl in Hsz, Hfit.
  assert (priskv_request_size k n = 128 + 16 * k + n) as Hrs.
  { unfold priskv_request_size. rewrite Hko. apply Z.mod_small. lia. }
  exists out, (priskv_request_size k n). split; [done|]. intros rest recv. rewrite Hko in Hw.
  destruct Hw as [Hlen Hw].
  assert (Forall (λ w, holds_at recv w.1 w.2)
    ((128 + 16 * k, key) :: sgls_writes off_sgls sgls ++
       [(112, stamp); (24, be_bytes 2 n); (8, be_bytes 8 tmo);
        (22, be_bytes 2 k); (16, be_bytes 2 cmd); (0, be_bytes 8 id)])) as Hr.
  { rewrite Forall_forall in Hw |- *. intros w Hin. apply holds_sent; [by apply Hw| |lia].
    rewrite Hrs. revert w Hin. apply Forall_forall. constructor; [simpl; lia|].
    apply Forall_app. split; [eapply Forall_impl; [apply sgls_writes_end|]; unfold off_sgls; lia|].
    repeat (constructor; [simpl; rewrite ?be_bytes_length, ?Hst; lia|]). constructor. }
  clear Hw. apply Forall_cons in Hr as [Hk Hr]. apply Forall_app in Hr as [Hsw Hr].
  rewrite !Forall_cons in Hr. destruct Hr as (_ & _ & H8 & H22 & H16 & H0 & _). simpl in *.
  split_and!; try (apply get_be_holds; field_tac).
  - unfold req_sgls. apply (req_sgls_spec _ sgls [] 0). intros j s Hj.
    rewrite Z.add_0_l. apply get_sgl; [by rewrite Forall_lookup in Hs; eapply Hs|].
    apply Forall_forall. intros w Hin. rewrite Forall_forall in Hsw. apply Hsw.
    by eapply sgls_writes_lookup.
  - rewrite Hrs, Hko. unfold u16. rewrite Z.mod_small; lia.
  - unfold priskv_request_key. rewrite Hko. by apply get_holds.
Qed.

Lemma request_roundtrip_witness :
  ∃ out len, fill_request (replicate 192 7) 77 1 5000 [mk_sgl 4096 10 3; mk_sgl 8192 20 4] [107; 49]
               (replicate 16 0) = Ok (out, len) ∧
    req_sgls (take (Z.to_nat len) out) 2 = Ok [mk_sgl 4096 10 3; mk_sgl 8192 20 4].
Proof.
  destruct (request_roundtrip (replicate 192 7) 77 1 5000 [mk_sgl 4096 10 3; mk_sgl 8192 20 4] [107; 49]
    (replicate 16 0)) as (out & len & Heq & Hr).
  - split; try done. repeat constructor; done.
  - done.
  - exists out, len. split; [exact Heq|]. destruct (Hr []) as (_ & _ & _ & _ & Hs & _).
    rewrite app_nil_r in Hs. exact Hs.
Defined.

(** ** Messages of the connection manager *)

(** Fields of a message: offset, width and value. *)
Definition put_fields (fields : list (Z * nat * Z)) (buf : list Z) : res (list Z) :=
  foldM (λ buf '(off, n, v), put_be n buf off v) buf fields.

(** The fields follow each other, lie in the message and hold their values. *)
Fixpoint fields_ok (start len : Z) (fields : list (Z * nat * Z)) : Prop :=
  match fields with
  | [] => True
  | (off, n, v) :: fields =>
      start <= off ∧ (0 < n)%nat ∧ off + Z.of_nat n <= len ∧ 0 <= v < 256 ^ Z.of_nat n ∧ fields_ok (off + Z.of_nat n) len fields
  end.

(** What is filled in is what is read. *)
Lemma put_fields_ok fields : ∀ start buf, 0 <= start → fields_ok start (Z.of_nat (length buf)) fields →
  ∃ out, put_fields fields buf = Ok out ∧ length out = length buf ∧
    Forall (λ '(off, n, v), get_be n out off = Ok v) fields ∧
    ∀ o cs, holds_at buf o cs → o + Z.of_nat (length cs) <= start → holds_at out o cs.
Proof.
  induction fields as [|[[off n] v] fields IH]; intros start buf Hs Hf; [by exists buf|].
  destruct Hf as (Ho & Hn & Hl & Hv & Hf).
  change (put_fields ((off, n, v) :: fields) buf) with (put_bytes buf off (be_bytes n v) ≫= put_fields fields).
  destruct (put_Ok buf off (be_bytes n v)) as (b1 & -> & L1 & W1 & K1); [lia|rewrite be_bytes_length; lia|]. rewrite be_bytes_length in K1.
  rewrite Ok_bind. destruct (IH (off + Z.of_nat n) b1) as (out & -> & L2 & W2 & K2); [lia|by rewrite L1|].
  exists out. split; [done|]. split; [congruence|]. split.
  - apply Forall_cons. split; [|done]. apply get_be_holds; [|done|done]. apply K2; [done|]. rewrite be_bytes_length. lia.
  - intros o cs Hh Hle. apply K2; [|lia]. apply K1; [done|]. left. lia.
Qed.
