(* ===== verification/Memory.v ===== *)
(** * The memory image

    [server/memory.h] and [server/memory.c]. *)

From S2P Require Import Prelude Utils.

(** [sizeof(priskv_key)]: five pointers, a [struct timeval], the lock, the
    reference count, four flag bytes, the two lengths and the value offset, with
    the padding of the LP64 layout. *)
Definition sizeof_priskv_key : Z := 88.

Definition priskv_mem_key_size (max_key_length : Z) : Z :=
  u16 (sizeof_priskv_key + max_key_length).
