(* ===== verification/MemFile.v ===== *)
(** * Memory files and anonymous memory

    [server/memory.c]: the memory of a store is either anonymous, between guard
    pages, or a file on [tmpfs] or [hugetlbfs] that outlives the server. A file is
    a header, the key nodes and the value blocks:

    [| header | keys (slab) | values (buddy) |]

    The state is the files and their bytes. The mount table ([libmount]), the page
    size and the errors of the system calls are parameters; a file that is mapped
    is read and written through the mapping. *)

From S2P Require Import Prelude Utils CString Protocol Wire Memory.

(** ** Layout *)

Definition PRISKV_MEM_MAGIC : Z := Z.lor (Z.lor (Z.lor (Z.shiftl 72 24) (Z.shiftl 80 16)) (Z.shiftl 75 8)) 86.
Definition PRISKV_MEM_ALIGN_UP : Z := 4096.
Definition PRISKV_MEM_HEADER_SIZE : Z := 4096.

(** The fields of a header, without the reserved ones. *)
Record priskv_mem_header := mk_header {
  h_magic : Z; h_max_key_length : Z; h_max_keys : Z; h_value_block_size : Z; h_value_blocks : Z; h_feature0 : Z
}.

Definition off_magic : Z := 0.
Definition off_reserved4 : Z := 4.
Definition off_max_key_length : Z := 6.
Definition off_max_keys : Z := 8.
Definition off_value_block_size : Z := 12.
Definition off_value_blocks : Z := 16.
Definition off_feature0 : Z := 24.

(** [nmemb] is a [uint32_t]: the number of value blocks is cut to 32 bits. *)
Definition priskv_buddy_mem_size (nmemb size : Z) : Z := u64 (u32 nmemb * (u32 size + 8)).

Definition mem_key_area (max_key_length max_keys : Z) : Z := u64 ((sizeof_priskv_key + max_key_length) * max_keys).
Definition mem_aligned_key_size (max_key_length max_keys : Z) : Z :=
  ALIGN_UP 64 (mem_key_area max_key_length max_keys) PRISKV_MEM_ALIGN_UP.

Definition mem_file_size (max_key_length max_keys value_block_size value_blocks pagesize : Z) : Z :=
  ALIGN_UP 64 (u64 (PRISKV_MEM_HEADER_SIZE + mem_aligned_key_size max_key_length max_keys +
                    priskv_buddy_mem_size value_blocks value_block_size)) pagesize.

(** Integers in the order of the machine. *)
Definition le_bytes (n : nat) (v : Z) : list Z := reverse (be_bytes n v).
Definition get_le (n : nat) (buf : list Z) (off : Z) : res Z := bs ← get_bytes buf off (Z.of_nat n); Ok (be_value (reverse bs)).
Definition put_le (n : nat) (buf : list Z) (off v : Z) : res (list Z) := put_bytes buf off (le_bytes n v).

Definition write_header (buf : list Z) (h : priskv_mem_header) : res (list Z) :=
  buf ← put_le 4 buf off_magic (h_magic h);
  buf ← put_le 2 buf off_reserved4 0;
  buf ← put_le 2 buf off_max_key_length (h_max_key_length h);
  buf ← put_le 4 buf off_max_keys (h_max_keys h);
  buf ← put_le 4 buf off_value_block_size (h_value_block_size h);
  buf ← put_le 8 buf off_value_blocks (h_value_blocks h);
  put_le 8 buf off_feature0 (h_feature0 h).

(** What is mapped of a file: whole pages, and the rest of the last one reads as
    zeros. There is nothing after it. *)
Definition mapped (pagesize : Z) (file : list Z) : list Z :=
  file ++ replicate (Z.to_nat ((- Z.of_nat (length file)) mod pagesize)) 0.

(** The header at the start of a mapping. *)
Definition read_header (buf : list Z) : res priskv_mem_header :=
  magic ← get_le 4 buf off_magic;
  max_key_length ← get_le 2 buf off_max_key_length;
  max_keys ← get_le 4 buf off_max_keys;
  value_block_size ← get_le 4 buf off_value_block_size;
  value_blocks ← get_le 8 buf off_value_blocks;
  feature0 ← get_le 8 buf off_feature0;
  Ok (mk_header magic max_key_length max_keys value_block_size value_blocks feature0).

(** ** Clearing *)

Definition memset0 (buf : list Z) (off size : Z) : res (list Z) := put_bytes buf off (replicate (Z.to_nat size) 0).

(** The threads clear one batch each, in some order. *)
Definition priskv_mem_clear (buf : list Z) (size nthreads : Z) : res (list Z) :=
  if (nthreads =? 0) || (nthreads =? 1) then memset0 buf 0 size
  else
    let batch_size := size / nthreads in
    foldM (λ buf i, memset0 buf (batch_size * Z.of_nat i) batch_size) buf (seq 0 (Z.to_nat nthreads)).

(** ** Files *)

Notation world := (gmap (list Z) (list Z)).

Definition EEXIST : Z := 17.
Definition ENODEV : Z := 19.
Definition ENOTSUP : Z := 95.
Definition ENOENT : Z := 2.

(** [tmpfs], [hugetlbfs], [pagesize=2M], [pagesize=1G]. *)
Definition TMPFS : list Z := [116; 109; 112; 102; 115].
Definition HUGETLBFS : list Z := [104; 117; 103; 101; 116; 108; 98; 102; 115].
Definition OPT_2M : list Z := [112; 97; 103; 101; 115; 105; 122; 101; 61; 50; 77].
Definition OPT_1G : list Z := [112; 97; 103; 101; 115; 105; 122; 101; 61; 49; 71].

Section mem.
(** The type and options of the file system a path is on, or an [errno]; the page
    size; and what [stat] (of a path that does not exist), [open], [ftruncate] and
    [mmap] fail with, 0 if they do not. *)
Context (mount : list Z → Z + list Z * list Z) (getpagesize : Z).
Context (stat_errno open_errno ftruncate_errno mmap_errno : list Z → Z).

Definition priskv_mem_file_page_size (path : list Z) : Z :=
  match mount path with
  | inl errno => - errno
  | inr (fstype, options) =>
      if bool_decide (fstype = HUGETLBFS) then
        match strstr options OPT_2M with
        | Some _ => 1024 * 1024 * 2
        | None => match strstr options OPT_1G with Some _ => 1024 * 1024 * 1024 | None => - ENOTSUP end
        end
      else if bool_decide (fstype = TMPFS) then getpagesize
      else - ENODEV
  end.

Definition priskv_mem_create (w : world) (path : list Z)
    (max_key_length max_keys value_block_size value_blocks nthreads : Z) : res (Z * world) :=
  assert! (negb (max_key_length =? 0)) ;;
  assert! (negb (max_keys =? 0)) ;;
  assert! (negb (value_block_size =? 0)) ;;
  assert! (negb (value_blocks =? 0)) ;;
  assert! (IS_POWER_OF_2 value_blocks) ;;
  match w !! path with
  | Some _ => Ok (- EEXIST, w)
  | None =>
      if negb (stat_errno path =? ENOENT) then Ok (- stat_errno path, w) else
      if negb (open_errno path =? 0) then Ok (- open_errno path, w) else
      (* the file exists from here on; the error exit unlinks it, and unmaps as that of priskv_mem_load *)
      let w := <[path := []]> w in
      let pagesize := priskv_mem_file_page_size path in
      if pagesize <? 0 then Ok (pagesize, delete path w) else
      let file_size := mem_file_size max_key_length max_keys value_block_size value_blocks pagesize in
      if negb (ftruncate_errno path =? 0) then Ok (-1, delete path w) else
      if negb (mmap_errno path =? 0) then Ok (- mmap_errno path, delete path w) else
      buf ← priskv_mem_clear (replicate (Z.to_nat file_size) 0) file_size nthreads;
      buf ← write_header buf (mk_header PRISKV_MEM_MAGIC max_key_length max_keys value_block_size value_blocks 0);
      Ok (0, <[path := buf]> w)
  end.

(** A mapped file, or two anonymous areas. *)
Inductive priskv_mem_file :=
  | MemFile (memfile_addr : Z) (header : priskv_mem_header) (length : Z)
  | MemAnon (key_addr key_length value_addr value_length : Z).

Definition MAP_FAILED : Z := 2 ^ 64 - 1.

(** [addr]: where the file is mapped. [None] is the null pointer. Also what the
    error exit unmaps: [addr] is tested against the null pointer, and is
    [MAP_FAILED] when nothing was mapped. A file of no bytes cannot be mapped. *)
Definition priskv_mem_load (w : world) (path : list Z) (addr : Z) : res (option priskv_mem_file * list (Z * Z)) :=
  match w !! path with
  | None => Ok (None, [])
  | Some file =>
      if negb (open_errno path =? 0) then Ok (None, []) else
      let pagesize := priskv_mem_file_page_size path in
      if pagesize <? 0 then Ok (None, []) else
      let st_size := Z.of_nat (length file) in
      if negb (mmap_errno path =? 0) || (st_size =? 0) then Ok (None, [(MAP_FAILED, st_size)]) else
      let error := Ok (None, [(addr, st_size)]) in
      hdr ← read_header (mapped pagesize file);
      if negb (h_magic hdr =? PRISKV_MEM_MAGIC) then error else
      if negb (h_feature0 hdr =? 0) then error else
      if negb (IS_POWER_OF_2 (h_value_blocks hdr)) then error else
      if negb (IS_POWER_OF_2 (h_value_block_size hdr)) then error else
      let file_size := mem_file_size (h_max_key_length hdr) (h_max_keys hdr) (h_value_block_size hdr)
                         (h_value_blocks hdr) pagesize in
      if negb (file_size =? st_size) then error else
      Ok (Some (MemFile addr hdr st_size), [])
  end.

(** ** Anonymous memory *)

(** The mapping of [priskv_mem_malloc]: its size, and the pointer into it that is
    returned when [mmap] puts it at [addr] ([None]: it fails). *)
Definition malloc_real_size (size : Z) (guard : bool) : Z :=
  let size := ALIGN_UP 64 size getpagesize in if guard then u64 (size + 2 * getpagesize) else size.
Definition priskv_mem_malloc (mmap : option Z) (guard : bool) : option Z :=
  match mmap with None => None | Some addr => Some (if guard then addr + getpagesize else addr) end.

(** What [priskv_mem_free] unmaps. *)
Definition priskv_mem_free (ptr size : Z) (guard : bool) : list (Z * Z) :=
  if ptr =? 0 then [] else
  let size := ALIGN_UP 64 size getpagesize in
  if guard then [(ptr - getpagesize, u64 (size + 2 * getpagesize))] else [(ptr, size)].

(** The memory and what its two areas hold. New pages are zeros. *)
Definition priskv_mem_anon (mmap_key mmap_value : option Z) (max_key_length max_keys value_block_size value_blocks threads : Z) :
    res (priskv_mem_file * list Z * list Z) :=
  let key_size := mem_key_area max_key_length max_keys in
  let aligned_key_size := ALIGN_UP 64 key_size PRISKV_MEM_ALIGN_UP in
  let value_size := priskv_buddy_mem_size value_blocks value_block_size in
  match priskv_mem_malloc mmap_key true, priskv_mem_malloc mmap_value true with
  | Some key_addr, Some value_addr =>
      keys ← priskv_mem_clear (replicate (Z.to_nat aligned_key_size) 0) key_size threads;
      values ← priskv_mem_clear (replicate (Z.to_nat value_size) 0) value_size threads;
      Ok (MemAnon key_addr aligned_key_size value_addr value_size, keys, values)
  | _, _ => Fault AssertFailed
  end.

(** What is unmapped. *)
Definition priskv_mem_close (m : priskv_mem_file) : list (Z * Z) :=
  match m with
  | MemFile addr _ length => [(addr, length)]
  | MemAnon key_addr key_length value_addr value_length =>
      priskv_mem_free key_addr key_length true ++ priskv_mem_free value_addr value_length true
  end.

(** [None] is the null pointer. *)
Definition priskv_mem_header_addr (m : priskv_mem_file) : option Z :=
  match m with MemFile addr _ _ => Some addr | MemAnon _ _ _ _ => None end.

Definition priskv_mem_key_addr (m : priskv_mem_file) : Z :=
  match m with
  | MemFile addr _ _ => addr + PRISKV_MEM_HEADER_SIZE
  | MemAnon key_addr _ _ _ => key_addr
  end.

Definition priskv_mem_value_addr (m : priskv_mem_file) : Z :=
  match m with
  | MemFile addr hdr _ => addr + PRISKV_MEM_HEADER_SIZE + mem_aligned_key_size (h_max_key_length hdr) (h_max_keys hdr)
  | MemAnon _ _ value_addr _ => value_addr
  end.

(** ** Sizes *)

Context (Hpage : ∃ k, 12 <= k <= 30 ∧ getpagesize = 2 ^ k).

Lemma page_size_pow path : 0 <= priskv_mem_file_page_size path →
  (∀ e, mount path = inl e → 0 < e) → ∃ k, 12 <= k <= 30 ∧ priskv_mem_file_page_size path = 2 ^ k.
Proof.
  unfold priskv_mem_file_page_size. intros Hp He. destruct (mount path) as [e|[fstype options]]; [specialize (He e eq_refl); lia|].
  case_bool_decide.
  - destruct (strstr options OPT_2M); [by exists 21|]. destruct (strstr options OPT_1G); [by exists 30|]. by unfold ENOTSUP in Hp.
  - case_bool_decide; [done|]. by unfold ENODEV in Hp.
Qed.

(** The parameters of a memory: at their widths, and a size below [2^62] bytes. *)
Definition params_ok (max_key_length max_keys value_block_size value_blocks : Z) : Prop :=
  0 <= max_key_length < 2 ^ 16 ∧ 0 <= max_keys < 2 ^ 32 ∧ 0 <= value_block_size < 2 ^ 32 ∧ 0 <= value_blocks < 2 ^ 32 ∧
  value_blocks * (value_block_size + 8) < 2 ^ 62.

(** Sizes that do not wrap. *)
Definition params_fit (max_key_length max_keys value_block_size value_blocks : Z) : Prop :=
  0 <= max_key_length < 2 ^ 16 ∧ 0 <= max_keys < 2 ^ 32 ∧ 0 <= value_block_size < 2 ^ 32 ∧ 0 <= value_blocks < 2 ^ 32 ∧
  value_blocks * (value_block_size + 8) < 2 ^ 62 + 2 ^ 35.

Lemma params_ok_fit mkl mk vbs vb : params_ok mkl mk vbs vb → params_fit mkl mk vbs vb.
Proof. unfold params_ok, params_fit. lia. Qed.

(** Powers of 2 do not wrap. *)
Lemma power_of_2_le n k : 0 <= n < 2 ^ (k + 1) → 0 <= k → IS_POWER_OF_2 n = true → n <= 2 ^ k.
Proof.
  intros Hn Hk Hp. destruct (decide (n = 0)) as [->|]; [lia|]. rewrite (IS_POWER_OF_2_inv n) by (done || lia).
  apply Z.pow_le_mono_r; [lia|]. assert (Z.log2 n < k + 1) by (apply Z.log2_lt_pow2; lia). lia.
Qed.

Lemma powers_fit mkl mk vbs vb : 0 <= mkl < 2 ^ 16 → 0 <= mk < 2 ^ 32 → 0 <= vbs < 2 ^ 32 → 0 <= vb < 2 ^ 32 →
  IS_POWER_OF_2 vb = true → IS_POWER_OF_2 vbs = true → params_fit mkl mk vbs vb.
Proof.
  intros H1 H2 H3 H4 P1 P2. pose proof (power_of_2_le vb 31 ltac:(lia) ltac:(lia) P1) as L1.
  pose proof (power_of_2_le vbs 31 ltac:(lia) ltac:(lia) P2) as L2. split_and!; try lia.
  assert (vb * (vbs + 8) <= 2 ^ 31 * (2 ^ 31 + 8)) by (apply Z.mul_le_mono_nonneg; lia). lia.
Qed.

Lemma areas_exact mkl mk vbs vb : params_fit mkl mk vbs vb →
  (sizeof_priskv_key + mkl) * mk <= mem_aligned_key_size mkl mk < 2 ^ 50 ∧
  mem_aligned_key_size mkl mk mod 4096 = 0 ∧ priskv_buddy_mem_size vb vbs = vb * vbs + 8 * vb.
Proof.
  intros (H1 & H2 & H3 & H4 & H5).
  assert ((sizeof_priskv_key + mkl) * mk < 2 ^ 49) as Hk by (unfold sizeof_priskv_key; nia).
  assert (0 <= (sizeof_priskv_key + mkl) * mk) as Hk0 by (unfold sizeof_priskv_key; nia).
  unfold mem_aligned_key_size, mem_key_area. rewrite u64_small by lia. change PRISKV_MEM_ALIGN_UP with (2 ^ 12).
  destruct (ALIGN_UP_bounds 64 ((sizeof_priskv_key + mkl) * mk) 12) as [Hb Hm]; [lia..|].
  split; [lia|]. split; [done|]. unfold priskv_buddy_mem_size. rewrite !u32_small, u64_small by lia. lia.
Qed.

Lemma file_size_exact mkl mk vbs vb k : params_fit mkl mk vbs vb → 12 <= k <= 30 →
  PRISKV_MEM_HEADER_SIZE + mem_aligned_key_size mkl mk + (vb * vbs + 8 * vb) <= mem_file_size mkl mk vbs vb (2 ^ k) < 2 ^ 63.
Proof.
  intros Hp Hk. destruct (areas_exact mkl mk vbs vb Hp) as (Ha & _ & Hv). pose proof Hp as (? & ? & ? & ? & ?).
  unfold mem_file_size. rewrite Hv. unfold PRISKV_MEM_HEADER_SIZE. unfold sizeof_priskv_key in Ha.
  assert (2 ^ k <= 2 ^ 30) by (apply Z.pow_le_mono_r; lia). assert (0 < 2 ^ k) by lia.
  rewrite u64_small by nia.
  destruct (ALIGN_UP_bounds 64 (4096 + mem_aligned_key_size mkl mk + (vb * vbs + 8 * vb)) k) as [Hb _]; [lia|nia|nia|]. nia.
Qed.

(** ** The header *)

Lemma le_roundtrip n v : 0 <= v < 256 ^ Z.of_nat n → be_value (reverse (le_bytes n v)) = v.
Proof. intros Hv. unfold le_bytes. rewrite reverse_involutive. by apply be_roundtrip. Qed.

Lemma le_length n v : length (le_bytes n v) = n.
Proof. unfold le_bytes. by rewrite length_reverse, be_bytes_length. Qed.

Lemma get_le_holds n buf off v : holds_at buf off (le_bytes n v) → (0 < n)%nat → 0 <= v < 256 ^ Z.of_nat n →
  get_le n buf off = Ok v.
Proof.
  intros Hh Hn Hv. unfold get_le. rewrite <- (le_length n v) at 1. rewrite get_holds; [|done|].
  - simpl. by rewrite le_roundtrip.
  - intros He. apply (f_equal length) in He. rewrite le_length in He. simpl in He. lia.
Qed.

Definition header_ok (h : priskv_mem_header) : Prop :=
  0 <= h_magic h < 2 ^ 32 ∧ 0 <= h_max_key_length h < 2 ^ 16 ∧ 0 <= h_max_keys h < 2 ^ 32 ∧
  0 <= h_value_block_size h < 2 ^ 32 ∧ 0 <= h_value_blocks h < 2 ^ 64 ∧ 0 <= h_feature0 h < 2 ^ 64.

(** The pieces of a header in the file. *)
Definition header_writes (h : priskv_mem_header) : list (Z * list Z) :=
  [(off_feature0, le_bytes 8 (h_feature0 h)); (off_value_blocks, le_bytes 8 (h_value_blocks h));
   (off_value_block_size, le_bytes 4 (h_value_block_size h)); (off_max_keys, le_bytes 4 (h_max_keys h));
   (off_max_key_length, le_bytes 2 (h_max_key_length h)); (off_reserved4, le_bytes 2 0); (off_magic, le_bytes 4 (h_magic h))].

(** Writing keeps what is after the header. *)
Lemma put_keeps buf off bs out (i : nat) : put_bytes buf off bs = Ok out → off + Z.of_nat (length bs) <= Z.of_nat i →
  out !! i = buf !! i.
Proof.
  unfold put_bytes. destruct (_ && _) eqn:Hc; [|done]. apply andb_true_iff in Hc as [H1 H2].
  apply Z.leb_le in H1, H2. intros [= <-] Hi.
  rewrite lookup_app_r by (rewrite length_take; lia). rewrite lookup_app_r by (rewrite length_take; lia).
  rewrite lookup_drop, length_take. f_equal. lia.
Qed.

(** A buffer while its header is written: the pieces so far, and the rest as it
    was. *)
Definition header_state (rest buf : list Z) (ws : list (Z * list Z)) : Prop :=
  writes buf (length rest) ws ∧ ∀ i : nat, 32 <= Z.of_nat i → buf !! i = rest !! i.

Lemma put_header rest buf ws off bs : header_state rest buf ws → 32 <= Z.of_nat (length rest) →
  0 <= off → off + Z.of_nat (length bs) <= 32 → Forall (apart off (Z.of_nat (length bs))) ws →
  ∃ out, put_bytes buf off bs = Ok out ∧ header_state rest out ((off, bs) :: ws).
Proof.
  intros [Hw Hr] Hl Ho Hb Ha. destruct (put_writes buf (length rest) ws off bs Hw) as (out & Hput & Hw'); [lia|lia|done|].
  exists out. split; [done|]. split; [done|]. intros i Hi. rewrite (put_keeps _ _ _ _ i Hput) by lia. by apply Hr.
Qed.

Lemma write_header_spec buf h : 32 <= Z.of_nat (length buf) →
  ∃ out, write_header buf h = Ok out ∧ header_state buf out (header_writes h).
Proof.
  intros Hl. assert (header_state buf buf []) as H0 by (split; [split; [done|constructor]|done]).
  unfold write_header, put_le.
  repeat match goal with
  | H : header_state buf ?b ?ws |- context [put_bytes ?b ?off ?bs] =>
      let Hput := fresh in let Hs := fresh in
      destruct (put_header buf b ws off bs H Hl) as (? & Hput & Hs);
      [done|by rewrite le_length|
       rewrite le_length; repeat (constructor; [unfold apart; simpl; rewrite ?le_length; vm_compute; (by left) || (by right)|]); constructor
      |rewrite Hput; clear H Hput; simpl]
  end.
  eexists. split; [reflexivity|done].
Qed.

Lemma read_header_spec buf out h pagesize : header_ok h → header_state buf out (header_writes h) → read_header (mapped pagesize out) = Ok h.
Proof.
  intros (H1 & H2 & H3 & H4 & H5 & H6) [[Hlen Hw] _].
  unfold header_writes in Hw. rewrite !Forall_cons in Hw. simpl in Hw. destruct Hw as (W6 & W5 & W4 & W3 & W2 & _ & W1 & _).
  assert (∀ off n v, holds_at out off (le_bytes n v) → (0 < n)%nat → 0 <= v < 256 ^ Z.of_nat n →
    get_le n (mapped pagesize out) off = Ok v) as Hget.
  { intros off n v [Ho Hh] Hn Hv. apply get_le_holds; [|done|done]. split; [done|].
    intros i x Hx. apply lookup_app_l_Some. by apply Hh. }
  unfold read_header. rewrite (Hget _ _ _ W1), Ok_bind by lia. rewrite (Hget _ _ _ W2), Ok_bind by lia.
  rewrite (Hget _ _ _ W3), Ok_bind by lia. rewrite (Hget _ _ _ W4), Ok_bind by lia.
  rewrite (Hget _ _ _ W5), Ok_bind by lia. rewrite (Hget _ _ _ W6), Ok_bind by lia. by destruct h.
Qed.

(** ** Clearing *)

Lemma memset0_zeros n off size : 0 <= off → 0 <= size → off + size <= Z.of_nat n →
  memset0 (replicate n 0) off size = Ok (replicate n 0).
Proof.
  intros H1 H2 H3. unfold memset0, put_bytes. rewrite !length_replicate, Z2Nat.id by done.
  rewrite !(proj2 (Z.leb_le _ _)) by lia. simpl. f_equal. rewrite take_replicate, drop_replicate, <- !replicate_add.
  f_equal. lia.
Qed.

Lemma clear_zeros (n : nat) size nthreads : 0 <= nthreads → 0 <= size <= Z.of_nat n →
  priskv_mem_clear (replicate n 0) size nthreads = Ok (replicate n 0).
Proof.
  intros Ht Hs. unfold priskv_mem_clear. destruct ((nthreads =? 0) || (nthreads =? 1)) eqn:H1.
  - apply memset0_zeros; lia.
  - apply orb_false_iff in H1 as [H0 H1]. apply Z.eqb_neq in H0, H1.
    set (f := λ buf i, memset0 buf (size / nthreads * Z.of_nat i) (size / nthreads)).
    destruct (foldM_inv f (λ b l, b = replicate n 0 ∧ Forall (λ i, Z.of_nat i < nthreads) l) (seq 0 (Z.to_nat nthreads))
      (replicate n 0)) as (b & Hb & -> & _); [|split; [done|]|done].
    + intros b i l (-> & Hf). apply Forall_cons in Hf as [Hi Hf]. exists (replicate n 0). split; [|done].
      pose proof (Z.mul_div_le size nthreads). pose proof (Z.div_pos size nthreads).
      apply memset0_zeros; nia.
    + apply Forall_forall. intros i Hi. apply elem_of_seq in Hi. lia.
Qed.

(** ** Creating and loading *)

(** A memory file that is created can be loaded: its header has the parameters,
    its size is the layout's, and everything after the header is zero. *)
Theorem mem_create_load (w : world) path mkl mk vbs vb nthreads addr :
  w !! path = None → stat_errno path = ENOENT → open_errno path = 0 → ftruncate_errno path = 0 → mmap_errno path = 0 →
  0 <= priskv_mem_file_page_size path → (∀ e, mount path = inl e → 0 < e) →
  params_ok mkl mk vbs vb → 0 < mkl → 0 < mk → 0 < vbs → 0 < vb → IS_POWER_OF_2 vb = true → IS_POWER_OF_2 vbs = true →
  0 <= nthreads →
  let size := mem_file_size mkl mk vbs vb (priskv_mem_file_page_size path) in
  ∃ file, priskv_mem_create w path mkl mk vbs vb nthreads = Ok (0, <[path := file]> w) ∧
    Z.of_nat (length file) = size ∧ (∀ i : nat, 32 <= Z.of_nat i < size → file !! i = Some 0) ∧
    priskv_mem_load (<[path := file]> w) path addr = Ok (Some (MemFile addr (mk_header PRISKV_MEM_MAGIC mkl mk vbs vb 0) size), []).
Proof.
  intros Hw Hstat Hopen Htr Hmm Hps He Hp Hmkl Hmk Hvbs Hvb Hp2 Hp2' Hnt size.
  destruct (page_size_pow path Hps He) as (k & Hk & Hpk).
  pose proof (params_ok_fit _ _ _ _ Hp) as Hpf. pose proof (file_size_exact mkl mk vbs vb k Hpf Hk) as Hsz. rewrite <- Hpk in Hsz. fold size in Hsz.
  destruct (areas_exact mkl mk vbs vb Hpf) as (Hkey & _). unfold PRISKV_MEM_HEADER_SIZE, sizeof_priskv_key in *.
  assert (4096 <= size < 2 ^ 63) as Hsize by nia.
  set (h := mk_header PRISKV_MEM_MAGIC mkl mk vbs vb 0). set (zeros := replicate (Z.to_nat size) 0).
  assert (Z.of_nat (length zeros) = size) as Hzl by (unfold zeros; rewrite length_replicate; lia).
  destruct (write_header_spec zeros h) as (file & Hwh & Hhs); [lia|]. pose proof Hhs as [[Hlen _] Hrest].
  exists file. split; [|split; [lia|split]].
  - unfold priskv_mem_create. rewrite (proj2 (Z.eqb_neq mkl 0)), (proj2 (Z.eqb_neq mk 0)), (proj2 (Z.eqb_neq vbs 0)), (proj2 (Z.eqb_neq vb 0)) by lia.
    rewrite Hp2. simpl.
    rewrite Hw, Hstat, Hopen, Htr, Hmm. simpl. rewrite (proj2 (Z.ltb_ge _ _)) by lia. fold size.
    pose proof (clear_zeros (Z.to_nat size) size nthreads Hnt ltac:(lia)) as Hc. fold zeros in Hc |- *.
    rewrite Hc, Ok_bind. fold h. rewrite Hwh, Ok_bind. by rewrite insert_insert_eq.
  - intros i Hi. rewrite Hrest by lia. apply lookup_replicate_2. lia.
  - unfold priskv_mem_load. rewrite lookup_insert_eq, Hopen, Hmm. simpl. rewrite (proj2 (Z.ltb_ge _ _)) by lia.
    rewrite Hlen, Hzl, (proj2 (Z.eqb_neq size 0)) by lia.
    rewrite (read_header_spec zeros file h (priskv_mem_file_page_size path)), Ok_bind; [|destruct Hp as (? & ? & ? & ? & ?); split_and!; simpl; (done || lia)|done].
    simpl. rewrite Hp2, Hp2'. simpl. fold size. by rewrite Z.eqb_refl.
Qed.

(** A file that is not empty has a page. *)
Lemma mapped_page pagesize file : 0 < pagesize → file ≠ [] → pagesize <= Z.of_nat (length (mapped pagesize file)).
Proof.
  intros Hp Hf. unfold mapped. rewrite length_app, length_replicate. pose proof (Z.mod_pos_bound (- Z.of_nat (length file)) pagesize Hp).
  set (n := Z.of_nat (length file)) in *. assert (0 < n) by (destruct file; [done|unfold n; simpl; lia]).
  assert ((n + (- n) mod pagesize) mod pagesize = 0) as Hm by (rewrite Zplus_mod_idemp_r; replace (n + - n) with 0 by lia; apply Zmod_0_l).
  destruct (decide (n + (- n) mod pagesize < pagesize)) as [Hlt|]; [rewrite Z.mod_small in Hm by lia|]; lia.
Qed.

Lemma read_header_Ok pagesize file : bytes file → file ≠ [] → PRISKV_MEM_HEADER_SIZE <= pagesize →
  ∃ h, read_header (mapped pagesize file) = Ok h ∧ header_ok h.
Proof.
  intros Hb Hf Hp. set (buf := mapped pagesize file). unfold PRISKV_MEM_HEADER_SIZE in Hp.
  assert (bytes buf) as Hbuf by (apply Forall_app; split; [done|]; apply Forall_replicate; lia).
  assert (4096 <= Z.of_nat (length buf)) as Hl by (pose proof (mapped_page pagesize file ltac:(lia) Hf); unfold buf; lia).
  assert (∀ n off, 0 <= off → off + Z.of_nat n <= 32 → ∃ v, get_le n buf off = Ok v ∧ 0 <= v < 256 ^ Z.of_nat n) as Hget.
  { intros n off Ho Hn. unfold get_le, get_bytes. rewrite !(proj2 (Z.leb_le _ _)) by lia. simpl. eexists. split; [done|].
    pose proof (be_value_bound (reverse (slice buf off (Z.of_nat n)))
      ltac:(apply Forall_reverse, Forall_take, Forall_drop, Hbuf)) as Hv.
    rewrite length_reverse in Hv. unfold slice in Hv at 3. rewrite length_take, length_drop in Hv.
    by rewrite Nat2Z.id, Nat.min_l in Hv by lia. }
  unfold read_header.
  destruct (Hget 4%nat off_magic) as (v1 & -> & ?); [done|done|]. rewrite Ok_bind.
  destruct (Hget 2%nat off_max_key_length) as (v2 & -> & ?); [done|done|]. rewrite Ok_bind.
  destruct (Hget 4%nat off_max_keys) as (v3 & -> & ?); [done|done|]. rewrite Ok_bind.
  destruct (Hget 4%nat off_value_block_size) as (v4 & -> & ?); [done|done|]. rewrite Ok_bind.
  destruct (Hget 8%nat off_value_blocks) as (v5 & -> & ?); [done|done|]. rewrite Ok_bind.
  destruct (Hget 8%nat off_feature0) as (v6 & -> & ?); [done|done|]. rewrite Ok_bind.
  eexists. split; [done|]. split_and!; simpl; lia.
Qed.

(** What the error exit of a load unmaps. *)
Definition load_unmaps (w : world) (path : list Z) (addr : Z) : list (Z * Z) :=
  match w !! path with
  | Some file =>
      if negb (open_errno path =? 0) || (priskv_mem_file_page_size path <? 0) then []
      else if negb (mmap_errno path =? 0) || bool_decide (file = []) then [(MAP_FAILED, Z.of_nat (length file))]
      else [(addr, Z.of_nat (length file))]
  | None => []
  end.


(** Giving back anonymous memory unmaps what was mapped, and the area is between
    the guard pages. *)
Lemma mem_malloc_free addr size guard : 0 <= size < 2 ^ 62 → 0 < addr →
  let real := malloc_real_size size guard in
  ∃ ptr, priskv_mem_malloc (Some addr) guard = Some ptr ∧ priskv_mem_free ptr size guard = [(addr, real)] ∧
    (guard = true → addr + getpagesize <= ptr ∧ ptr + size <= addr + real - getpagesize).
Proof.
  intros Hs Ha real. destruct Hpage as (k & Hk & Hpk). unfold real, priskv_mem_free, priskv_mem_malloc, malloc_real_size.
  assert (2 ^ k <= 2 ^ 30) by (apply Z.pow_le_mono_r; lia). assert (0 < 2 ^ k) by lia.
  destruct (ALIGN_UP_bounds 64 size k) as [Hb _]; [lia..|]. rewrite Hpk. eexists. split; [done|].
  rewrite (proj2 (Z.eqb_neq _ 0)) by (destruct guard; lia). destruct guard; (split; [f_equal; f_equal; lia|]); [|done].
  intros _. rewrite u64_small by lia. lia.
Qed.

(** An anonymous memory: both areas are zero, at least as large as the layout
    needs, and between the guard pages of their mappings; closing it unmaps these
    mappings. *)
Lemma mem_anon_areas kaddr vaddr mkl mk vbs vb threads : params_ok mkl mk vbs vb → 0 < kaddr → 0 < vaddr → 0 <= threads →
  ∃ m keys values,
    priskv_mem_anon (Some kaddr) (Some vaddr) mkl mk vbs vb threads = Ok (m, keys, values) ∧
    keys = replicate (Z.to_nat (mem_aligned_key_size mkl mk)) 0 ∧ values = replicate (Z.to_nat (vb * vbs + 8 * vb)) 0 ∧
    priskv_mem_close m = [(kaddr, malloc_real_size (mem_aligned_key_size mkl mk) true);
                          (vaddr, malloc_real_size (vb * vbs + 8 * vb) true)] ∧
    kaddr + getpagesize <= priskv_mem_key_addr m ∧
    priskv_mem_key_addr m + (sizeof_priskv_key + mkl) * mk <= kaddr + malloc_real_size (mem_aligned_key_size mkl mk) true - getpagesize ∧
    vaddr + getpagesize <= priskv_mem_value_addr m ∧
    priskv_mem_value_addr m + (vb * vbs + 8 * vb) <= vaddr + malloc_real_size (vb * vbs + 8 * vb) true - getpagesize.
Proof.
  intros Hp Hk Hv Ht. destruct (areas_exact _ _ _ _ (params_ok_fit _ _ _ _ Hp)) as (Ha & _ & Hb). pose proof Hp as (? & ? & ? & ? & ?).
  assert (0 <= (sizeof_priskv_key + mkl) * mk) by (unfold sizeof_priskv_key; nia).
  assert (mem_key_area mkl mk = (sizeof_priskv_key + mkl) * mk) as Hka by (unfold mem_key_area; apply u64_small; lia).
  destruct (mem_malloc_free kaddr (mem_aligned_key_size mkl mk) true) as (kp & Hkm & Hkf & Hkb); [lia|done|].
  destruct (mem_malloc_free vaddr (vb * vbs + 8 * vb) true) as (vp & Hvm & Hvf & Hvb); [nia|done|].
  destruct (Hkb eq_refl), (Hvb eq_refl).
  unfold priskv_mem_anon. rewrite Hkm, Hvm, Hb. fold (mem_aligned_key_size mkl mk). cbv iota zeta.
  rewrite (clear_zeros _ (mem_key_area mkl mk)), Ok_bind by lia. rewrite clear_zeros, Ok_bind by nia.
  do 3 eexists. split; [reflexivity|]. cbn [priskv_mem_close priskv_mem_key_addr priskv_mem_value_addr]. rewrite Hkf, Hvf.
  repeat (split; [done || lia|]). lia.
Qed.
End mem.

(** ** A file on a [tmpfs] *)

Definition ex_mount (path : list Z) : Z + list Z * list Z := inr (TMPFS, []).
Definition no_errno (path : list Z) : Z := 0.
Definition no_file (path : list Z) : Z := ENOENT.
Definition ex_path : list Z := [47; 109].

Lemma ex_params : params_ok 16 1 64 1.
Proof. unfold params_ok. lia. Qed.

Lemma ex_page : ∃ k, 12 <= k <= 30 ∧ 4096 = 2 ^ k.
Proof. by exists 12. Qed.

Lemma mem_create_load_witness : ∃ file,
  priskv_mem_create ex_mount 4096 no_file no_errno no_errno no_errno ∅ ex_path 16 1 64 1 4 = Ok (0, <[ex_path := file]> ∅) ∧
  Z.of_nat (length file) = 12288.
Proof.
  destruct (mem_create_load ex_mount 4096 no_file no_errno no_errno no_errno ex_page ∅ ex_path 16 1 64 1 4 0) as (file & H1 & H2 & _);
    [reflexivity..|vm_compute; discriminate|discriminate|exact ex_params|lia|lia|lia|lia|reflexivity|reflexivity|lia|].
  exists file. split; [exact H1|]. rewrite H2. reflexivity.
Defined.

(** The file of the parameters above, loaded at 65536. *)
Definition ex_file : list Z :=
  match priskv_mem_create ex_mount 4096 no_file no_errno no_errno no_errno ∅ ex_path 16 1 64 1 4 with
  | Ok (_, w) => default [] (w !! ex_path)
  | Fault _ => []
  end.
Definition ex_load (file : list Z) : res (option priskv_mem_file * list (Z * Z)) :=
  priskv_mem_load ex_mount 4096 no_errno no_errno {[ ex_path := file ]} ex_path 65536.

Lemma ex_file_bytes : bytes ex_file.
Proof. by apply (bool_decide_eq_true_1 (Forall (λ b, 0 <= b < 256) ex_file)); vm_compute. Qed.

Lemma ex_file_loads : ex_load ex_file = Ok (Some (MemFile 65536 (mk_header PRISKV_MEM_MAGIC 16 1 64 1 0) 12288), []).
Proof. vm_compute. reflexivity. Qed.


(** A file without a header is refused, and one of no bytes cannot be mapped. *)
Lemma ex_not_loaded : ex_load [1; 2; 3] = Ok (None, [(65536, 3)]) ∧ ex_load [] = Ok (None, [(MAP_FAILED, 0)]).
Proof. split; vm_compute; reflexivity. Qed.

(** ** What the code does not do *)

(** The threads leave the last [size mod nthreads] bytes as they are. *)
Lemma clear_leaves_tail : priskv_mem_clear [1; 1; 1] 3 2 = Ok [0; 0; 1].
Proof. done. Qed.

(** A file with [2^32] value blocks is as large as one without any. *)
Lemma value_blocks_truncated vbs : priskv_buddy_mem_size (2 ^ 32) vbs = 0.
Proof. unfold priskv_buddy_mem_size. by change (u32 (2 ^ 32)) with 0. Qed.

(** A file is created with a block size that is not a power of 2, and cannot be
    loaded. *)
Lemma created_not_loaded hdr : h_value_block_size hdr = 48 →
  ∀ (w : world) path addr m, (∀ file, w !! path = Some file → read_header (mapped 4096 file) = Ok hdr) →
  ∀ unmapped, priskv_mem_load ex_mount 4096 no_errno no_errno w path addr = Ok (Some m, unmapped) → False.
Proof.
  intros Hs w path addr m Hf unmapped. unfold priskv_mem_load. destruct (w !! path) as [file|]; [|done].
  change (priskv_mem_file_page_size ex_mount 4096 path) with 4096. simpl. destruct (Z.of_nat (length file) =? 0); [done|]. rewrite (Hf file eq_refl), Ok_bind.
  destruct (negb (h_magic hdr =? _)); [done|]. destruct (negb (h_feature0 hdr =? 0)); [done|].
  destruct (negb (IS_POWER_OF_2 (h_value_blocks hdr))); [done|]. rewrite Hs. by simpl.
Qed.
