(* ===== verification/KvModel.v ===== *)
(** * The key-value store: the code

    [server/kv.c]. A key node lives in the key slab, is linked in the list of its
    hash bucket and in the LRU list, owns a value buffer of the buddy allocator
    and counts its references: one for being linked and one per GET in flight.
    Node memory is a finite map from addresses; an address outside it holds
    zeros, and following a pointer to it is the fault [UseAfterFree].
    [gettimeofday] is the argument [now]. *)

From S2P Require Import Prelude Utils Crc Lists Protocol Memory Alloc.

Record priskv_key := mk_key {
  k_expire_time : timeval;
  k_refcnt : Z;      (* uint32_t *)
  k_inprocess : bool;
  k_keylen : Z;      (* uint16_t *)
  k_valuelen : Z;    (* uint32_t *)
  k_value_off : Z;   (* uint64_t *)
  k_key : list Z     (* uint8_t [] *)
}.

Definition with_refcnt (n : priskv_key) (r : Z) : priskv_key :=
  mk_key (k_expire_time n) r (k_inprocess n) (k_keylen n) (k_valuelen n) (k_value_off n) (k_key n).
Definition with_expire (n : priskv_key) (t : timeval) : priskv_key :=
  mk_key t (k_refcnt n) (k_inprocess n) (k_keylen n) (k_valuelen n) (k_value_off n) (k_key n).
Definition with_inprocess (n : priskv_key) (b : bool) : priskv_key :=
  mk_key (k_expire_time n) (k_refcnt n) b (k_keylen n) (k_valuelen n) (k_value_off n) (k_key n).
Definition with_valuelen (n : priskv_key) (l : Z) : priskv_key :=
  mk_key (k_expire_time n) (k_refcnt n) (k_inprocess n) (k_keylen n) l (k_value_off n) (k_key n).

(** [priskv_tiering_wait_head]: requests that wait for the one in flight. *)
Record priskv_tiering_wait_head := mk_wait {
  pending_reqs : list Z;
  has_inflight_req : bool
}.

Record priskv_expire_routine_statics := mk_statics {
  expire_routine_times : Z;
  expire_kv_count : Z;
  expire_kv_bytes : Z
}.

Record priskv_kv (SL BD : Type) := mk_kv {
  hash_heads : list (list Z);
  tiering_wait_heads : list priskv_tiering_wait_head;
  lru_head : list Z;
  bucket_count : Z;         (* uint32_t *)
  max_keys : Z;             (* uint32_t *)
  max_key_length : Z;       (* uint16_t *)
  key_slab : SL;
  key_base : Z;
  value_buddy : BD;
  value_base : Z;
  expire_routine_interval : Z;
  expire_routine_statics : priskv_expire_routine_statics;
  key_mem : gmap Z priskv_key
}.

Arguments mk_kv {SL BD}.
Arguments hash_heads {SL BD}.
Arguments tiering_wait_heads {SL BD}.
Arguments lru_head {SL BD}.
Arguments bucket_count {SL BD}.
Arguments max_keys {SL BD}.
Arguments max_key_length {SL BD}.
Arguments key_slab {SL BD}.
Arguments key_base {SL BD}.
Arguments value_buddy {SL BD}.
Arguments value_base {SL BD}.
Arguments expire_routine_interval {SL BD}.
Arguments expire_routine_statics {SL BD}.
Arguments key_mem {SL BD}.

Definition MAX_EVICT_RETRIES : Z := 128.
Definition PRISKV_KV_DEFAULT_EXPIRE_ROUTINE_INTERVAL : Z := 600.

(** Assignments to the fields that change. *)
Section fields.
Context {SL BD : Type}.
Implicit Types kv : priskv_kv SL BD.

Definition set_lists kv (heads : list (list Z)) (lru : list Z) : priskv_kv SL BD :=
  mk_kv heads (tiering_wait_heads kv) lru (bucket_count kv) (max_keys kv)
    (max_key_length kv) (key_slab kv) (key_base kv) (value_buddy kv) (value_base kv)
    (expire_routine_interval kv) (expire_routine_statics kv) (key_mem kv).
Definition set_heads kv heads := set_lists kv heads (lru_head kv).
Definition set_lru kv lru := set_lists kv (hash_heads kv) lru.

Definition set_mem kv (sl : SL) (bd : BD) (mem : gmap Z priskv_key) : priskv_kv SL BD :=
  mk_kv (hash_heads kv) (tiering_wait_heads kv) (lru_head kv) (bucket_count kv) (max_keys kv)
    (max_key_length kv) sl (key_base kv) bd (value_base kv)
    (expire_routine_interval kv) (expire_routine_statics kv) mem.
Definition set_node kv (a : Z) (n : priskv_key) :=
  set_mem kv (key_slab kv) (value_buddy kv) (<[a := n]> (key_mem kv)).

Definition set_wait kv (w : list priskv_tiering_wait_head) : priskv_kv SL BD :=
  mk_kv (hash_heads kv) w (lru_head kv) (bucket_count kv) (max_keys kv)
    (max_key_length kv) (key_slab kv) (key_base kv) (value_buddy kv) (value_base kv)
    (expire_routine_interval kv) (expire_routine_statics kv) (key_mem kv).

Definition set_statics kv (s : priskv_expire_routine_statics) : priskv_kv SL BD :=
  mk_kv (hash_heads kv) (tiering_wait_heads kv) (lru_head kv) (bucket_count kv) (max_keys kv)
    (max_key_length kv) (key_slab kv) (key_base kv) (value_buddy kv) (value_base kv)
    (expire_routine_interval kv) s (key_mem kv).

Definition priskv_set_expire_routine_interval kv (interval : Z) : priskv_kv SL BD :=
  mk_kv (hash_heads kv) (tiering_wait_heads kv) (lru_head kv) (bucket_count kv) (max_keys kv)
    (max_key_length kv) (key_slab kv) (key_base kv) (value_buddy kv) (value_base kv)
    interval (expire_routine_statics kv) (key_mem kv).

(** Following a pointer to a key node. *)
Definition node kv (a : Z) : res priskv_key :=
  match key_mem kv !! a with Some n => Ok n | None => Fault UseAfterFree end.
End fields.

(** ** Number of buckets *)

Definition primes : list Z :=
  [32749; 65521; 131071; 262139; 524287; 1048573; 4194301; 16777213; 134217689].

(** The binary search; [right - left + 1] is fuel enough. *)
Fixpoint bucket_search (fuel : nat) (max_keys left right result : Z) : res Z :=
  if left <=? right then
    match fuel with
    | O => Fault OutOfFuel
    | S fuel =>
        let mid := left + Z.quot (right - left) 2 in
        p ← rd primes mid;
        if p <=? max_keys
        then bucket_search fuel max_keys (mid + 1) right p
        else bucket_search fuel max_keys left (mid - 1) result
    end
  else Ok result.

Definition calculate_hash_bucket_count (max_keys : Z) : res Z :=
  p0 ← rd primes 0;
  if max_keys <? p0 then Ok max_keys
  else bucket_search (length primes) max_keys 0 (Z.of_nat (length primes) - 1) p0.

Section code.
Context {SL BD : Type} `{Allocator SL} `{Allocator BD}.
Implicit Types kv : priskv_kv SL BD.

(** ** LRU list *)

Definition priskv_lru_access kv (keynode : Z) (is_in_list : bool) : res (priskv_kv SL BD) :=
  _ ← node kv keynode;
  lru ← (if is_in_list then list_del (lru_head kv) keynode else Ok (lru_head kv));
  Ok (set_lru kv (list_add lru keynode)).

Definition priskv_lru_evict kv : option Z := list_tail (lru_head kv).

Definition priskv_lru_del_key kv (keynode : Z) : res (priskv_kv SL BD) :=
  _ ← node kv keynode;
  lru ← list_del (lru_head kv) keynode;
  Ok (set_lru kv lru).

(** ** Values and references *)

Definition priskv_value_to_pointer kv (n : priskv_key) : Z := value_base kv + k_value_off n.
Definition priskv_pointer_to_value kv (val : Z) : Z := u64 (val - value_base kv).

Definition priskv_keynode_ref kv (keynode : Z) : res (priskv_kv SL BD) :=
  n ← node kv keynode;
  Ok (set_node kv keynode (with_refcnt n (u32 (k_refcnt n + 1)))).

(** The last reference releases the value and the node; [memset] clears the
    node. *)
Definition priskv_keynode_deref kv (keynode : Z) : res (priskv_kv SL BD) :=
  n ← node kv keynode;
  let refcnt := u32 (k_refcnt n - 1) in
  if refcnt =? 0 then
    bd ← al_free (value_buddy kv) (priskv_value_to_pointer kv n);
    sl ← al_free (key_slab kv) keynode;
    Ok (set_mem kv sl bd (delete keynode (key_mem kv)))
  else Ok (set_node kv keynode (with_refcnt n refcnt)).

Definition priskv_update_valuelen kv (keynode valuelen : Z) : res (priskv_kv SL BD) :=
  n ← node kv keynode;
  Ok (set_node kv keynode (with_valuelen n valuelen)).

Definition priskv_key_timeout (n : priskv_key) (now : timeval) : bool :=
  if (tv_sec (k_expire_time n) <? 0) || (tv_usec (k_expire_time n) <? 0) then false
  else priskv_time_elapsed_ms (k_expire_time n) now >? 0.

(** ** Lookup *)

(** The bucket of a key. *)
Definition hash_index kv (key : list Z) (keylen : Z) : res Z :=
  crc ← Crc32.priskv_crc32 key keylen;
  Ok (crc mod bucket_count kv).

(** [list_for_each] with the two comparisons. *)
Fixpoint scan_bucket kv (l : list Z) (key : list Z) (keylen : Z) : res (option Z) :=
  match l with
  | [] => Ok None
  | a :: l =>
      n ← node kv a;
      if negb (k_keylen n =? keylen) then scan_bucket kv l key keylen
      else if bool_decide (take (Z.to_nat keylen) (k_key n) = take (Z.to_nat keylen) key)
      then Ok (Some a) else scan_bucket kv l key keylen
  end.

(** The result is the node, if any, and [*expired]. *)
Definition priskv_find_key kv (key : list Z) (keylen timeout : Z) (pop : bool) (now : timeval)
    : res (option (Z * bool) * priskv_kv SL BD) :=
  i ← hash_index kv key keylen;
  head ← rd (hash_heads kv) i;
  found ← scan_bucket kv head key keylen;
  match found with
  | None => Ok (None, kv)
  | Some a =>
      n ← node kv a;
      if pop then
        head ← list_del head a;
        heads ← wr (hash_heads kv) i head;
        Ok (Some (a, false), set_heads kv heads)
      else if priskv_key_timeout n now then
        head ← list_del head a;
        heads ← wr (hash_heads kv) i head;
        Ok (Some (a, true), set_heads kv heads)
      else
        let kv := if timeout <? PRISKV_KEY_MAX_TIMEOUT
                  then set_node kv a (with_expire n (priskv_time_add_ms now timeout)) else kv in
        kv ← priskv_keynode_ref kv a;
        Ok (Some (a, false), kv)
  end.

Definition __priskv_del_key kv (keynode : Z) : res (priskv_kv SL BD) :=
  priskv_keynode_deref kv keynode.

(** ** Operations *)

(** Status, [*_keynode], [*val] and [*valuelen]. *)
Definition priskv_get_key kv (key : list Z) (keylen : Z) (now : timeval)
    : res (priskv_resp_status * option Z * option (Z * Z) * priskv_kv SL BD) :=
  '(found, kv) ← priskv_find_key kv key keylen PRISKV_KEY_MAX_TIMEOUT false now;
  match found with
  | None => Ok (PRISKV_RESP_STATUS_NO_SUCH_KEY, None, None, kv)
  | Some (a, true) =>
      kv ← priskv_lru_del_key kv a;
      kv ← __priskv_del_key kv a;
      Ok (PRISKV_RESP_STATUS_NO_SUCH_KEY, None, None, kv)
  | Some (a, false) =>
      n ← node kv a;
      if k_inprocess n then Ok (PRISKV_RESP_STATUS_KEY_UPDATING, Some a, None, kv) else
      kv' ← priskv_lru_access kv a true;
      Ok (PRISKV_RESP_STATUS_OK, Some a, Some (priskv_value_to_pointer kv n, k_valuelen n), kv')
  end.

Definition priskv_get_key_end kv (arg : option Z) : res (priskv_kv SL BD) :=
  match arg with None => Ok kv | Some a => priskv_keynode_deref kv a end.

Definition priskv_insert_keynode kv (keynode : Z) : res (priskv_kv SL BD) :=
  n ← node kv keynode;
  i ← hash_index kv (k_key n) (k_keylen n);
  head ← rd (hash_heads kv) i;
  heads ← wr (hash_heads kv) i (list_add_tail head keynode);
  Ok (set_heads kv heads).

(** [if (!keynode) keynode = priskv_slab_alloc(...)] and the same for the value. *)
Definition try_slab kv (keynode : option Z) : res (option Z * priskv_kv SL BD) :=
  match keynode with
  | Some a => Ok (Some a, kv)
  | None =>
      '(a, sl) ← al_alloc (key_slab kv) (priskv_mem_key_size (max_key_length kv));
      Ok (a, set_mem kv sl (value_buddy kv) (key_mem kv))
  end.

Definition try_buddy kv (vaddr : option Z) (valuelen : Z) : res (option Z * priskv_kv SL BD) :=
  match vaddr with
  | Some v => Ok (Some v, kv)
  | None =>
      '(v, bd) ← al_alloc (value_buddy kv) valuelen;
      Ok (v, set_mem kv (key_slab kv) bd (key_mem kv))
  end.

(** The eviction loop of [priskv_set_key]: at most [MAX_EVICT_RETRIES + 1]
    turns pass the guard. *)
Definition EVICT_FUEL : nat := Z.to_nat (MAX_EVICT_RETRIES + 2).

Fixpoint evict_loop (fuel : nat) kv (keynode vaddr : option Z) (valuelen retries : Z)
    : res (option Z * option Z * priskv_kv SL BD) :=
  match keynode, vaddr with
  | Some _, Some _ => Ok (keynode, vaddr, kv)
  | _, _ =>
    if retries >? MAX_EVICT_RETRIES then Ok (keynode, vaddr, kv) else
    match fuel with
    | O => Fault OutOfFuel
    | S fuel =>
      match priskv_lru_evict kv with
      | None => Ok (keynode, vaddr, kv)
      | Some old =>
          n ← node kv old;
          '(found, kv) ← priskv_find_key kv (k_key n) (k_keylen n) PRISKV_KEY_MAX_TIMEOUT true
                           (TimeVal 0 0);
          match found with
          | None => evict_loop fuel kv keynode vaddr valuelen (retries + 1)
          | Some (old, _) =>
              kv ← priskv_lru_del_key kv old;
              kv ← __priskv_del_key kv old;
              '(keynode, kv) ← try_slab kv keynode;
              '(vaddr, kv) ← try_buddy kv vaddr valuelen;
              evict_loop fuel kv keynode vaddr valuelen (retries + 1)
          end
      end
    end
  end.

(** The node [priskv_set_key] builds, its reference taken. *)
Definition new_node kv (key : list Z) (keylen vaddr valuelen timeout : Z) (now : timeval)
    : priskv_key :=
  {| k_expire_time := if timeout <? PRISKV_KEY_MAX_TIMEOUT
                      then priskv_time_add_ms now timeout else TimeVal (-1) (-1);
     k_refcnt := 0; k_inprocess := true; k_keylen := keylen; k_valuelen := valuelen;
     k_value_off := priskv_pointer_to_value kv vaddr;
     k_key := take (Z.to_nat keylen) key |}.

(** [if (vaddr) priskv_buddy_free(...); if (keynode) priskv_slab_free(...)]. *)
Definition set_key_out kv (keynode vaddr : option Z) : res (priskv_kv SL BD) :=
  kv ← match vaddr with
       | Some v => bd ← al_free (value_buddy kv) v; Ok (set_mem kv (key_slab kv) bd (key_mem kv))
       | None => Ok kv
       end;
  match keynode with
  | Some a => sl ← al_free (key_slab kv) a; Ok (set_mem kv sl (value_buddy kv) (key_mem kv))
  | None => Ok kv
  end.

(** Status, [*_keynode] and [*val]. *)
Definition priskv_set_key kv (key : list Z) (keylen valuelen timeout : Z) (now : timeval)
    : res (priskv_resp_status * option Z * option Z * priskv_kv SL BD) :=
  '(old, kv) ← priskv_find_key kv key keylen PRISKV_KEY_MAX_TIMEOUT true now;
  kv ← match old with
       | Some (a, _) => kv ← priskv_lru_del_key kv a; __priskv_del_key kv a
       | None => Ok kv
       end;
  '(keynode, kv) ← try_slab kv None;
  '(vaddr, kv) ← try_buddy kv None valuelen;
  '(keynode, vaddr, kv) ← evict_loop EVICT_FUEL kv keynode vaddr valuelen 0;
  match keynode, vaddr with
  | Some a, Some v =>
      (* memcpy(keynode->key, key, keylen) into a slab object *)
      if priskv_mem_key_size (max_key_length kv) <? sizeof_priskv_key + keylen
      then Fault OutOfBounds else
      let kv := set_node kv a (new_node kv key keylen v valuelen timeout now) in
      kv ← priskv_keynode_ref kv a;
      kv ← priskv_lru_access kv a false;
      kv ← priskv_insert_keynode kv a;
      Ok (PRISKV_RESP_STATUS_OK, Some a, Some v, kv)
  | _, _ =>
      kv ← set_key_out kv keynode vaddr;
      Ok (PRISKV_RESP_STATUS_NO_MEM, None, None, kv)
  end.

Definition priskv_set_key_end kv (arg : option Z) : res (priskv_kv SL BD) :=
  match arg with
  | None => Ok kv
  | Some a => n ← node kv a; Ok (set_node kv a (with_inprocess n false))
  end.

Definition priskv_delete_key kv (key : list Z) (keylen : Z)
    : res (priskv_resp_status * priskv_kv SL BD) :=
  '(found, kv) ← priskv_find_key kv key keylen PRISKV_KEY_MAX_TIMEOUT true (TimeVal 0 0);
  match found with
  | None => Ok (PRISKV_RESP_STATUS_NO_SUCH_KEY, kv)
  | Some (a, _) =>
      kv ← priskv_lru_del_key kv a;
      kv ← __priskv_del_key kv a;
      Ok (PRISKV_RESP_STATUS_OK, kv)
  end.

Definition priskv_expire_key kv (key : list Z) (keylen timeout : Z) (now : timeval)
    : res (priskv_resp_status * priskv_kv SL BD) :=
  '(found, kv) ← priskv_find_key kv key keylen timeout false now;
  match found with
  | None => Ok (PRISKV_RESP_STATUS_NO_SUCH_KEY, kv)
  | Some (a, true) =>
      kv ← priskv_lru_del_key kv a;
      kv ← __priskv_del_key kv a;
      Ok (PRISKV_RESP_STATUS_NO_SUCH_KEY, kv)
  | Some (a, false) =>
      kv ← priskv_keynode_deref kv a;
      Ok (PRISKV_RESP_STATUS_OK, kv)
  end.

(** ** Serialisation of tiering requests

    [treq] is the address of a request, [index] its [hash_head_index]. *)

Definition priskv_key_serialize_enter kv (treq index : Z) : res (bool * priskv_kv SL BD) :=
  wait_head ← rd (tiering_wait_heads kv) index;
  if has_inflight_req wait_head then
    w ← wr (tiering_wait_heads kv) index
          (mk_wait (list_add_tail (pending_reqs wait_head) treq) true);
    Ok (false, set_wait kv w)
  else
    w ← wr (tiering_wait_heads kv) index (mk_wait (pending_reqs wait_head) true);
    Ok (true, set_wait kv w).

(** The result is the request to resume, if any: its [execute] flag is set and
    it is submitted to its thread. *)
Definition priskv_key_serialize_exit kv (index : Z) : res (option Z * priskv_kv SL BD) :=
  wait_head ← rd (tiering_wait_heads kv) index;
  if list_empty (pending_reqs wait_head) then
    w ← wr (tiering_wait_heads kv) index (mk_wait (pending_reqs wait_head) false);
    Ok (None, set_wait kv w)
  else
    let '(next_req, rest) := list_pop (pending_reqs wait_head) in
    w ← wr (tiering_wait_heads kv) index (mk_wait rest (has_inflight_req wait_head));
    Ok (next_req, set_wait kv w).

(** ** KEYS, NRKEYS and FLUSH

    [regcomp] compiles a pattern to its matcher, or fails; a matcher takes a
    string without its terminator. *)

Context (regcomp : list Z → option (list Z → bool)).

(** A string up to its terminator. *)
Fixpoint cstr (l : list Z) : list Z :=
  match l with
  | [] => []
  | c :: l => if c =? 0 then [] else c :: cstr l
  end.

Definition SAFEKEY : Z := 1024.

(** The key copied to [safekey] and terminated. *)
Definition safekey_of (n : priskv_key) : res (list Z) :=
  if SAFEKEY <? k_keylen n + 1 then Fault OutOfBounds
  else Ok (cstr (take (Z.to_nat (k_keylen n)) (k_key n))).

Definition regcomp_buf (regex : list Z) (regexlen : Z) : option (list Z → bool) :=
  regcomp (cstr (take (Z.to_nat regexlen) regex)).

(** [*reallen], [*nkey] and what has been written to [keysbuf]. *)
Record keys_out := mk_keys { ko_reallen : Z; ko_nkey : Z; ko_buf : list Z }.

Definition keys_visit kv (rx : list Z → bool) (keyslen : Z) (o : keys_out) (a : Z)
    : res keys_out :=
  n ← node kv a;
  safekey ← safekey_of n;
  if negb (rx safekey) then Ok o else
  let buf :=
    if ko_reallen o + sizeof_keys_resp + k_keylen n <=? keyslen
    then ko_buf o ++ keys_entry (take (Z.to_nat (k_keylen n)) (k_key n)) (k_keylen n) (k_valuelen n)
    else ko_buf o in
  Ok (mk_keys (u32 (ko_reallen o + (sizeof_keys_resp + k_keylen n))) (u32 (ko_nkey o + 1)) buf).

(** The out parameters stay as they were when the pattern does not compile. *)
Definition priskv_get_keys kv (regex : list Z) (regexlen keyslen : Z)
    : res (priskv_resp_status * option keys_out) :=
  match regcomp_buf regex regexlen with
  | None => Ok (PRISKV_RESP_STATUS_INVALID_REGEX, None)
  | Some rx =>
      o ← foldM (λ o head, foldM (keys_visit kv rx keyslen) o head) (mk_keys 0 0 []) (hash_heads kv);
      Ok (if ko_reallen o >? keyslen then PRISKV_RESP_STATUS_VALUE_TOO_BIG
          else PRISKV_RESP_STATUS_OK, Some o)
  end.

(** One turn of the inner loop of [priskv_flush_keys] in bucket [i]. *)
Definition flush_visit (rx : list Z → bool) (i : Z) (st : Z * priskv_kv SL BD) (a : Z)
    : res (Z * priskv_kv SL BD) :=
  let '(nkey, kv) := st in
  n ← node kv a;
  safekey ← safekey_of n;
  if negb (rx safekey) then Ok (nkey, kv) else
  kv ← priskv_lru_del_key kv a;
  head ← rd (hash_heads kv) i;
  head ← list_del head a;
  heads ← wr (hash_heads kv) i head;
  kv ← __priskv_del_key (set_heads kv heads) a;
  Ok (u32 (nkey + 1), kv).

(** [list_for_each_safe] visits the nodes that were in the bucket: only the
    node visited is unlinked. *)
Definition flush_bucket (rx : list Z → bool) (st : Z * priskv_kv SL BD) (i : Z)
    : res (Z * priskv_kv SL BD) :=
  head ← rd (hash_heads st.2) i;
  foldM (flush_visit rx i) st head.

Definition priskv_flush_keys kv (regex : list Z) (regexlen : Z)
    : res (priskv_resp_status * option Z * priskv_kv SL BD) :=
  match regcomp_buf regex regexlen with
  | None => Ok (PRISKV_RESP_STATUS_INVALID_REGEX, None, kv)
  | Some rx =>
      '(nkey, kv) ← foldM (flush_bucket rx) (0, kv) (seqZ 0 (bucket_count kv));
      Ok (PRISKV_RESP_STATUS_OK, Some nkey, kv)
  end.

(** ** The expiry routine *)

(** First loop: an expired node of bucket [i] moves to the local list. *)
Definition expire_visit (now : timeval) (i : Z) (st : list Z * priskv_kv SL BD) (a : Z)
    : res (list Z * priskv_kv SL BD) :=
  let '(expired_kv, kv) := st in
  n ← node kv a;
  if priskv_key_timeout n now then
    head ← rd (hash_heads kv) i;
    head ← list_del head a;
    heads ← wr (hash_heads kv) i head;
    let s := expire_routine_statics kv in
    Ok (list_add_tail expired_kv a,
        set_statics (set_heads kv heads)
          (mk_statics (expire_routine_times s) (u64 (expire_kv_count s + 1))
             (u64 (expire_kv_bytes s + k_valuelen n))))
  else Ok (expired_kv, kv).

(** Second loop. *)
Definition expire_release (st : list Z * priskv_kv SL BD) (a : Z)
    : res (list Z * priskv_kv SL BD) :=
  let '(expired_kv, kv) := st in
  kv ← priskv_lru_del_key kv a;
  expired_kv ← list_del expired_kv a;
  kv ← __priskv_del_key kv a;
  Ok (expired_kv, kv).

Definition expire_bucket (now : timeval) kv (i : Z) : res (priskv_kv SL BD) :=
  head ← rd (hash_heads kv) i;
  '(expired_kv, kv) ← foldM (expire_visit now i) ([], kv) head;
  '(expired_kv, kv) ← foldM expire_release (expired_kv, kv) expired_kv;
  assert! (list_empty expired_kv) ;;
  Ok kv.

Definition priskv_clear_expired_kv kv (now : timeval) : res (priskv_kv SL BD) :=
  kv ← foldM (expire_bucket now) kv (seqZ 0 (bucket_count kv));
  let s := expire_routine_statics kv in
  Ok (set_statics kv (mk_statics (u64 (expire_routine_times s + 1)) (expire_kv_count s)
                        (expire_kv_bytes s))).
End code.

(** ** Accessors *)

Section accessors.
Context {SL BD : Type}.
Implicit Types kv : priskv_kv SL BD.
Definition priskv_get_value_base kv : Z := value_base kv.
Definition priskv_get_bucket_count kv : Z := bucket_count kv.
Definition priskv_get_max_keys kv : Z := max_keys kv.
Definition priskv_get_max_key_length kv : Z := max_key_length kv.
Definition priskv_get_expire_routine_interval kv : Z := expire_routine_interval kv.
Definition priskv_get_expire_kv_count kv : Z := expire_kv_count (expire_routine_statics kv).
Definition priskv_get_expire_kv_bytes kv : Z := expire_kv_bytes (expire_routine_statics kv).
Definition priskv_get_expire_routine_times kv : Z :=
  expire_routine_times (expire_routine_statics kv).
End accessors.
