(* ===== verification/KvInv.v ===== *)
(** * The key-value store: its invariant

    Proved against the allocator interface of [Alloc]: whatever the two
    allocators are, every step of [KvModel] keeps the lists, the references and
    the ownership of memory consistent. *)

From S2P Require Import Prelude Utils Crc Lists Protocol Memory Alloc KvModel.

(** ** References held by GETs in flight *)

Definition padd (pins : Z → Z) (a d : Z) : Z → Z :=
  λ x, if decide (x = a) then pins x + d else pins x.

Lemma padd_eq pins a d : padd pins a d a = pins a + d.
Proof. unfold padd. by rewrite decide_True. Qed.

Lemma padd_ne pins a d x : x ≠ a → padd pins a d x = pins x.
Proof. intros. unfold padd. by rewrite decide_False. Qed.

Lemma padd_cancel pins a d x : padd (padd pins a d) a (- d) x = pins x.
Proof. unfold padd. case_decide; lia. Qed.

(** ** Buckets *)

Lemma concat_insert (heads : list (list Z)) i l :
  heads !! i = Some l →
  ∃ rest, concat heads ≡ₚ l ++ rest ∧ ∀ l', concat (<[i := l']> heads) ≡ₚ l' ++ rest.
Proof.
  revert i. induction heads as [|h heads IH]; intros [|i] Hi; simplify_eq/=.
  - exists (concat heads). done.
  - destruct (IH i Hi) as (rest & H1 & H2). exists (h ++ rest). split.
    + rewrite H1. solve_Permutation.
    + intros l'. rewrite H2. solve_Permutation.
Qed.

Lemma elem_of_concat (heads : list (list Z)) a :
  a ∈ concat heads ↔ ∃ i l, heads !! i = Some l ∧ a ∈ l.
Proof.
  rewrite list_elem_of_In, in_concat. split.
  - intros (l & Hl & Ha). apply list_elem_of_In, list_elem_of_lookup in Hl as [i Hi].
    exists i, l. split; [done|]. by apply list_elem_of_In.
  - intros (i & l & Hi & Ha). exists l. split; [|by apply list_elem_of_In].
    apply list_elem_of_In, list_elem_of_lookup. by exists i.
Qed.

Section inv.
Context {SL BD : Type} `{AllocatorLaws SL} `{AllocatorLaws BD}.
Implicit Types kv : priskv_kv SL BD.

Definition linked kv : list Z := concat (hash_heads kv).

(** The bucket a key belongs to. *)
Definition slot kv (key : list Z) : Z := Crc32.crc_ref key mod bucket_count kv.

(** The address of a node's value. *)
Notation vptr := priskv_value_to_pointer.

Definition node_ok kv (n : priskv_key) : Prop :=
  bytes (k_key n) ∧ k_keylen n = Z.of_nat (length (k_key n)) ∧
  k_keylen n <= max_key_length kv.

(** Every node owns one live value buffer, long enough, and every live buffer
    is owned by one node, or is the one buffer [xv] being set up. *)
Record owns_values kv (mb : gmap Z Z) (xv : option (Z * Z)) : Prop := mk_owns {
  own_live a n : key_mem kv !! a = Some n →
    ∃ len, mb !! vptr kv n = Some len ∧ 0 <= k_valuelen n <= len;
  own_inj a b n m : key_mem kv !! a = Some n → key_mem kv !! b = Some m →
    vptr kv n = vptr kv m → a = b;
  own_extra v need : xv = Some (v, need) →
    (∃ len, mb !! v = Some len ∧ 0 <= need <= len) ∧
    ∀ a n, key_mem kv !! a = Some n → vptr kv n ≠ v;
  own_all v : is_Some (mb !! v) →
    (∃ need, xv = Some (v, need)) ∨ ∃ a n, key_mem kv !! a = Some n ∧ vptr kv n = v
}.

Lemma owns_values_ext kv kv' mb xv :
  key_mem kv' = key_mem kv → value_base kv' = value_base kv →
  owns_values kv mb xv → owns_values kv' mb xv.
Proof.
  intros Hm Hb []. split; rewrite Hm; unfold priskv_value_to_pointer in *; rewrite Hb; eauto.
Qed.

(** [pins]: references held by GETs in flight. [limbo]: nodes taken out of
    their bucket but still in the LRU list. [xk], [xv]: a node and a value
    buffer allocated but not linked yet. *)
Record kv_inv kv (pins : Z → Z) (limbo : list Z) (xk : option Z) (xv : option (Z * Z))
    : Prop := mk_inv {
  inv_buckets : 0 < bucket_count kv < 2 ^ 32 ∧
    Z.of_nat (length (hash_heads kv)) = bucket_count kv;
  inv_conf : 0 <= max_key_length kv < 2 ^ 16 - 88;
  inv_nodup : NoDup (lru_head kv);
  inv_lists : lru_head kv ≡ₚ linked kv ++ limbo;
  inv_place i l a : hash_heads kv !! i = Some l → a ∈ l →
    ∃ n, key_mem kv !! a = Some n ∧ slot kv (k_key n) = Z.of_nat i;
  inv_limbo a : a ∈ limbo → is_Some (key_mem kv !! a);
  inv_unique a b n m : a ∈ linked kv → b ∈ linked kv →
    key_mem kv !! a = Some n → key_mem kv !! b = Some m → k_key n = k_key m → a = b;
  inv_node a n : key_mem kv !! a = Some n →
    node_ok kv n ∧ k_refcnt n = Z.b2z (bool_decide (a ∈ lru_head kv)) + pins a ∧
    0 < k_refcnt n < 2 ^ 32;
  inv_pins a : 0 <= pins a ∧ (0 < pins a → is_Some (key_mem kv !! a));
  inv_slab : ∃ ms, al_rep (key_slab kv) ms ∧
    ∀ a, is_Some (ms !! a) ↔ is_Some (key_mem kv !! a) ∨ xk = Some a;
  inv_extra a : xk = Some a → key_mem kv !! a = None;
  inv_values : ∃ mb, al_rep (value_buddy kv) mb ∧ owns_values kv mb xv;
  inv_request : al_request (key_slab kv) (priskv_mem_key_size (max_key_length kv));
  inv_base : value_base kv = al_base (value_buddy kv)
}.

Lemma inv_values_kept kv kv' (bd : BD) xv :
  (∃ mb, al_rep bd mb ∧ owns_values kv mb xv) →
  key_mem kv' = key_mem kv → value_base kv' = value_base kv →
  ∃ mb, al_rep bd mb ∧ owns_values kv' mb xv.
Proof. intros (mb & ? & ?) ? ?. exists mb. split; [done|]. by eapply owns_values_ext. Qed.

(** The invariant does not depend on how the references and the nodes in
    limbo are written down. *)
Global Instance kv_inv_proper kv :
  Proper (pointwise_relation Z (=) ==> (≡ₚ) ==> (=) ==> (=) ==> iff) (kv_inv kv).
Proof.
  assert (∀ p q l1 l2 xk xv, (∀ a, p a = q a) → l1 ≡ₚ l2 →
            kv_inv kv p l1 xk xv → kv_inv kv q l2 xk xv) as Hgo.
  { intros p q l1 l2 xk xv Hp Hl []. split; try done.
    - by rewrite <- Hl.
    - intros a. rewrite <- Hl. auto.
    - intros a n. rewrite <- Hp. auto.
    - intros a. rewrite <- Hp. auto. }
  intros p q Hp l1 l2 Hl ? xk -> ? xv ->. by split; apply Hgo.
Qed.

(** Two states with the same configuration. *)
Definition same_conf kv kv' : Prop :=
  bucket_count kv' = bucket_count kv ∧ max_keys kv' = max_keys kv ∧
  max_key_length kv' = max_key_length kv ∧ value_base kv' = value_base kv ∧
  same_kind (key_slab kv) (key_slab kv') ∧ same_kind (value_buddy kv) (value_buddy kv').

Lemma same_kind_refl {A} `{Allocator A} (s : A) : same_kind s s.
Proof. done. Qed.

Global Instance same_conf_preorder : PreOrder same_conf.
Proof.
  split; [done|]. intros k1 k2 k3 (? & ? & ? & ? & [? Ha] & [? Hb]) (? & ? & ? & ? & [? Hc] & [? Hd]).
  split_and!; try congruence; (split; [congruence|]); intros n;
    [rewrite Hc|rewrite Hd]; auto.
Qed.

Section state.
Context (kv : priskv_kv SL BD) (pins : Z → Z) (limbo : list Z)
  (xk : option Z) (xv : option (Z * Z)) (Hinv : kv_inv kv pins limbo xk xv).

Lemma linked_in_mem a : a ∈ linked kv → is_Some (key_mem kv !! a).
Proof.
  intros (i & l & Hi & Ha)%elem_of_concat.
  destruct (inv_place _ _ _ _ _ Hinv i l a Hi Ha) as (n & -> & _). by eexists.
Qed.

Lemma lru_in_mem a : a ∈ lru_head kv → is_Some (key_mem kv !! a).
Proof.
  rewrite (inv_lists _ _ _ _ _ Hinv), elem_of_app. intros [?|?].
  - by apply linked_in_mem.
  - by apply (inv_limbo _ _ _ _ _ Hinv).
Qed.

Lemma node_Ok a n : key_mem kv !! a = Some n → node kv a = Ok n.
Proof. unfold node. by intros ->. Qed.

(** A write to a node that keeps its key and its value buffer. *)
Lemma inv_update a n n' pins' :
  key_mem kv !! a = Some n → k_key n' = k_key n → k_keylen n' = k_keylen n →
  k_value_off n' = k_value_off n → 0 <= k_valuelen n' <= k_valuelen n →
  k_refcnt n' = k_refcnt n + (pins' a - pins a) → 0 < k_refcnt n' < 2 ^ 32 → 0 <= pins' a →
  (∀ x, x ≠ a → pins' x = pins x) →
  kv_inv (set_node kv a n') pins' limbo xk xv.
Proof.
  intros Hn Hk Hkl Ho Hvl Hr Hrr Hp0 Hp.
  assert (∀ x m, <[a := n']> (key_mem kv) !! x = Some m →
    ∃ m0, key_mem kv !! x = Some m0 ∧ k_key m = k_key m0 ∧ k_keylen m = k_keylen m0 ∧
      k_value_off m = k_value_off m0 ∧ 0 <= k_valuelen m ∧
      (0 <= k_valuelen m0 → k_valuelen m <= k_valuelen m0)) as Hback.
  { intros x m [[<- <-]|[? Hm]]%lookup_insert_Some; [exists n; split_and!; (done || lia)|].
    exists m. destruct (inv_values _ _ _ _ _ Hinv) as (mb & _ & Hown).
    destruct (own_live _ _ _ Hown _ _ Hm) as (len & _ & ?). split_and!; (done || lia). }
  assert (∀ x, is_Some (<[a := n']> (key_mem kv) !! x) ↔ is_Some (key_mem kv !! x)) as Hsome.
  { intros x. rewrite lookup_insert_is_Some'. split; [intros [<-|?]; [by eexists|done]|by right]. }
  destruct Hinv. split; simpl; try done.
  - intros i l x Hi Hx. destruct (inv_place0 i l x Hi Hx) as (m & Hm & Hs).
    destruct (decide (x = a)) as [->|].
    + exists n'. rewrite lookup_insert_eq. split; [done|]. unfold slot in *. simpl. congruence.
    + exists m. by rewrite lookup_insert_ne.
  - intros x Hx. rewrite Hsome. auto.
  - intros x y m1 m2 Hx Hy (m1' & ? & ? & _)%Hback (m2' & ? & ? & _)%Hback ?.
    eapply inv_unique0; eauto; congruence.
  - intros x m Hm. destruct (decide (x = a)) as [->|Hne].
    + rewrite lookup_insert_eq in Hm. injection Hm as <-.
      destruct (inv_node0 a n Hn) as (? & ? & ?).
      split; [unfold node_ok; by rewrite Hk, Hkl|split; [lia|done]].
    + rewrite lookup_insert_ne in Hm by done. rewrite Hp by done. by apply inv_node0.
  - intros x. rewrite Hsome. destruct (decide (x = a)) as [->|Hne].
    + split; [done|]. by eexists.
    + rewrite Hp by done. apply inv_pins0.
  - destruct inv_slab0 as (ms & ? & Hms). exists ms. split; [done|]. intros x.
    rewrite Hms. by rewrite Hsome.
  - intros x Hx. apply eq_None_not_Some. rewrite Hsome, (inv_extra0 x Hx). by intros [? ?].
  - destruct inv_values0 as (mb & ? & []). exists mb. split; [done|]. unfold vptr in *.
    split; simpl; unfold vptr; simpl.
    + intros x m (m0 & Hm0 & ? & ? & -> & ? & ?)%Hback.
      destruct (own_live0 x m0 Hm0) as (len & ? & ?). exists len. split; [done|lia].
    + intros x y m1 m2 (m1' & ? & ? & ? & -> & _)%Hback (m2' & ? & ? & ? & -> & _)%Hback.
      by apply own_inj0.
    + intros v need Hv. destruct (own_extra0 v need Hv) as [? Hne]. split; [done|].
      intros x m (m0 & Hm0 & ? & ? & -> & _)%Hback. by eapply Hne.
    + intros v Hv. destruct (own_all0 v Hv) as [?|(x & m & Hm & <-)]; [by left|right].
      destruct (decide (x = a)) as [->|].
      * exists a, n'. rewrite lookup_insert_eq. split; [done|]. congruence.
      * exists x, m. by rewrite lookup_insert_ne.
Qed.

Lemma mem_slab_live a n (ms : gmap Z Z) :
  (∀ a, is_Some (ms !! a) ↔ is_Some (key_mem kv !! a) ∨ xk = Some a) →
  key_mem kv !! a = Some n → ∃ len : Z, ms !! a = Some len.
Proof. intros Hms Hn. apply Hms. left. by eexists. Qed.

(** Taking a reference. *)
Lemma ref_inv a n :
  key_mem kv !! a = Some n → k_refcnt n + 1 < 2 ^ 32 →
  ∃ kv', priskv_keynode_ref kv a = Ok kv' ∧ kv_inv kv' (padd pins a 1) limbo xk xv ∧
    kv' = set_node kv a (with_refcnt n (k_refcnt n + 1)).
Proof.
  intros Hn Hr. destruct (inv_node _ _ _ _ _ Hinv a n Hn) as (Hok & Hrc & Hrr).
  destruct (inv_values _ _ _ _ _ Hinv) as (mb & _ & Hown).
  destruct (own_live _ _ _ Hown _ _ Hn) as (len & _ & ?).
  pose proof (inv_pins _ _ _ _ _ Hinv a) as [? _].
  unfold priskv_keynode_ref. rewrite (node_Ok a n Hn), Ok_bind, u32_small by lia.
  eexists. split; [done|]. split; [|done].
  apply (inv_update a n); simpl; try done; rewrite ?padd_eq; try lia.
  intros x Hx. by apply padd_ne.
Qed.

(** Releasing the last reference to a node that is not linked. *)
Lemma release_inv a n :
  key_mem kv !! a = Some n → a ∉ lru_head kv → pins a = 1 →
  ∃ sl bd, al_free (value_buddy kv) (vptr kv n) = Ok bd ∧ al_free (key_slab kv) a = Ok sl ∧
    kv_inv (set_mem kv sl bd (delete a (key_mem kv))) (padd pins a (-1)) limbo xk xv ∧
    same_kind (key_slab kv) sl ∧ same_kind (value_buddy kv) bd.
Proof.
  intros Hn Hlru Hpa. destruct (inv_slab _ _ _ _ _ Hinv) as (ms & Hrep & Hms).
  destruct (inv_values _ _ _ _ _ Hinv) as (mb & Hrepb & Hown).
  destruct (own_live _ _ _ Hown a n Hn) as (vlen & Hv & _).
  destruct (mem_slab_live a n ms Hms Hn) as (klen & Hk).
  destruct (al_free_law _ _ _ _ Hrepb Hv) as (bd & Hbd & Hrepb' & Hkb).
  destruct (al_free_law _ _ _ _ Hrep Hk) as (sl & Hsl & Hrep' & Hks).
  exists sl, bd. split_and!; try done.
  assert (∀ x, is_Some (delete a (key_mem kv) !! x) ↔ x ≠ a ∧ is_Some (key_mem kv !! x)) as Hsome.
  { intros x. rewrite lookup_delete_is_Some. naive_solver. }
  assert (∀ x, x ∈ lru_head kv → x ≠ a) as Hne by (intros x Hx ->; done).
  assert (∀ x, x ∈ linked kv → x ∈ lru_head kv) as Hll
    by (intros x Hx; rewrite (inv_lists _ _ _ _ _ Hinv); set_solver).
  assert (∀ x, x ∈ limbo → x ∈ lru_head kv) as Hlb
    by (intros x Hx; rewrite (inv_lists _ _ _ _ _ Hinv); set_solver).
  destruct Hinv. split; simpl; try done.
  - intros i l x Hi Hx. destruct (inv_place0 i l x Hi Hx) as (m & ? & ?). exists m.
    rewrite lookup_delete_ne; [done|]. intros <-. apply (Hne a); [|done].
    apply Hll, elem_of_concat. eauto.
  - intros x Hx. rewrite Hsome. split; auto.
  - intros x y m1 m2 Hx Hy [? ?]%lookup_delete_Some [? ?]%lookup_delete_Some. eauto.
  - intros x m [Hxa Hm]%lookup_delete_Some. rewrite padd_ne by done. by apply inv_node0.
  - intros x. rewrite Hsome. destruct (decide (x = a)) as [->|Hxa].
    + rewrite padd_eq. split; [lia|]. intros. lia.
    + rewrite padd_ne by done. destruct (inv_pins0 x). naive_solver.
  - exists (delete a ms). split; [done|]. intros x. rewrite lookup_delete_is_Some, Hms, Hsome.
    split; [naive_solver|]. intros [?|Hx]; [naive_solver|]. split; [|by right].
    intros ->. by rewrite (inv_extra0 x Hx) in Hn.
  - intros x Hx. rewrite lookup_delete_None. right. by apply inv_extra0.
  - exists (delete (vptr kv n) mb). split; [done|]. destruct Hown. split; simpl.
    + intros x m [Hxa Hm]%lookup_delete_Some. destruct (own_live0 x m Hm) as (len & ? & ?).
      exists len. split; [|done]. rewrite lookup_delete_ne; [done|].
      intros He. destruct Hxa. by eapply own_inj0.
    + intros x y m1 m2 [? ?]%lookup_delete_Some [? ?]%lookup_delete_Some. eauto.
    + intros v need Hv'. destruct (own_extra0 v need Hv') as [(len & ? & ?) Hxv]. split.
      * exists len. split; [|done]. rewrite lookup_delete_ne; [done|]. eauto.
      * intros x m [? ?]%lookup_delete_Some. eauto.
    + intros v [Hva Hvs]%lookup_delete_is_Some.
      destruct (own_all0 v Hvs) as [?|(x & m & Hm & <-)]; [by left|right].
      exists x, m. split; [|done]. rewrite lookup_delete_ne; [done|]. intros <-.
      rewrite Hn in Hm. congruence.
  - apply Hks. done.
  - destruct Hkb as [-> _]. done.
Qed.

(** Dropping a reference that is held. *)
Lemma deref_inv a :
  0 < pins a →
  ∃ kv', priskv_keynode_deref kv a = Ok kv' ∧ kv_inv kv' (padd pins a (-1)) limbo xk xv ∧
    same_conf kv kv' ∧ hash_heads kv' = hash_heads kv ∧ lru_head kv' = lru_head kv ∧
    expire_routine_statics kv' = expire_routine_statics kv ∧
    (∀ x, x ≠ a → key_mem kv' !! x = key_mem kv !! x) ∧
    (a ∈ lru_head kv ∨ 1 < pins a → ∃ n, key_mem kv !! a = Some n ∧
       key_mem kv' !! a = Some (with_refcnt n (k_refcnt n - 1))).
Proof.
  intros Hp. destruct (inv_pins _ _ _ _ _ Hinv a) as [_ [n Hn]]; [done|].
  destruct (inv_node _ _ _ _ _ Hinv a n Hn) as (Hok & Hrc & Hrr).
  unfold priskv_keynode_deref. rewrite (node_Ok a n Hn), Ok_bind, u32_small by lia.
  destruct (Z.eqb_spec (k_refcnt n - 1) 0) as [He|Hne].
  - assert (a ∉ lru_head kv ∧ pins a = 1) as [Hl Hpa].
    { case_bool_decide; simpl in *; split; (done || lia). }
    destruct (release_inv a n Hn Hl Hpa) as (sl & bd & -> & -> & Hi & ? & ?). simpl.
    eexists. split; [done|]. split_and!; try done.
    + intros x Hx. simpl. by rewrite lookup_delete_ne.
    + intros [?|?]; [done|lia].
  - destruct (inv_values _ _ _ _ _ Hinv) as (mb & _ & Hown).
    destruct (own_live _ _ _ Hown _ _ Hn) as (len & _ & ?).
    eexists. split; [done|]. split_and!; try done.
    + apply (inv_update a n); simpl; rewrite ?padd_eq; try done; try lia.
      intros x Hx. by apply padd_ne.
    + intros x Hx. simpl. by rewrite lookup_insert_ne.
    + intros _. exists n. simpl. by rewrite lookup_insert_eq.
Qed.

(** Taking a node in limbo out of the LRU list: its reference is now ours. *)
Lemma lru_del_inv a :
  a ∈ limbo →
  ∃ n, key_mem kv !! a = Some n ∧
    priskv_lru_del_key kv a = Ok (set_lru kv (filter (λ x, x ≠ a) (lru_head kv))) ∧
    kv_inv (set_lru kv (filter (λ x, x ≠ a) (lru_head kv))) (padd pins a 1)
      (filter (λ x, x ≠ a) limbo) xk xv.
Proof.
  intros Ha. destruct (inv_limbo _ _ _ _ _ Hinv a Ha) as [n Hn]. exists n. split; [done|].
  assert (a ∈ lru_head kv) as Hlru by (rewrite (inv_lists _ _ _ _ _ Hinv); set_solver).
  split.
  { unfold priskv_lru_del_key. rewrite (node_Ok a n Hn), Ok_bind.
    by rewrite list_del_Ok. }
  assert (NoDup (linked kv ++ limbo)) as Hnd
    by (rewrite <- (inv_lists _ _ _ _ _ Hinv); apply (inv_nodup _ _ _ _ _ Hinv)).
  apply NoDup_app in Hnd as (_ & Hdisj & Hndl).
  destruct Hinv. split; simpl; try done.
  - by apply NoDup_filter.
  - change (linked (set_lru kv _)) with (linked kv). rewrite inv_lists0, filter_app. f_equiv.
    rewrite filter_ne_id; [done|]. intros Hl. by apply (Hdisj a).
  - intros x [? _]%elem_of_filter_ne. auto.
  - intros x m Hm. destruct (inv_node0 x m Hm) as (? & Hr & ?). split_and!; try done; try lia.
    rewrite Hr. destruct (decide (x = a)) as [->|Hne].
    + rewrite padd_eq, (bool_decide_true (a ∈ lru_head kv)) by done.
      rewrite bool_decide_false; [simpl; lia|]. rewrite elem_of_filter_ne. naive_solver.
    + rewrite padd_ne by done. do 2 f_equal. apply bool_decide_ext.
      rewrite elem_of_filter_ne. naive_solver.
  - intros x. destruct (inv_pins0 x) as [? ?]. destruct (decide (x = a)) as [->|Hne].
    + rewrite padd_eq. split; [lia|]. by eexists.
    + by rewrite padd_ne.
  - by eapply inv_values_kept.
Qed.

(** Taking a node out of its bucket. *)
Lemma pop_inv i l a :
  hash_heads kv !! i = Some l → a ∈ l →
  kv_inv (set_heads kv (<[i := filter (λ x, x ≠ a) l]> (hash_heads kv))) pins (a :: limbo) xk xv.
Proof.
  intros Hi Ha. pose proof (inv_nodup _ _ _ _ _ Hinv) as Hnd.
  destruct (concat_insert _ _ _ Hi) as (rest & Hc & Hc').
  assert (NoDup l) as Hndl.
  { rewrite (inv_lists _ _ _ _ _ Hinv) in Hnd. unfold linked in Hnd. rewrite Hc in Hnd.
    apply NoDup_app in Hnd as [Hnd _]. by apply NoDup_app in Hnd as [? _]. }
  assert (∀ x, x ∈ concat (<[i := filter (λ x, x ≠ a) l]> (hash_heads kv)) → x ∈ linked kv) as Hsub.
  { intros x. unfold linked. rewrite Hc', Hc, !elem_of_app, elem_of_filter_ne. tauto. }
  assert (is_Some (key_mem kv !! a)) as Hsa
    by (apply linked_in_mem, elem_of_concat; eauto).
  destruct Hinv. split; simpl; try done.
  - by rewrite length_insert.
  - rewrite inv_lists0. unfold linked. simpl. rewrite Hc, Hc'.
    rewrite (filter_ne_perm l a Hndl Ha) at 1. solve_Permutation.
  - intros j m x Hj Hx. destruct (decide (i = j)) as [<-|Hne].
    + rewrite list_lookup_insert_eq in Hj by (by eapply lookup_lt_Some). injection Hj as <-.
      apply elem_of_filter_ne in Hx as [Hx _]. eauto.
    + rewrite list_lookup_insert_ne in Hj by done. eauto.
  - intros x [->|Hx]%elem_of_cons; eauto.
  - intros x y n m Hx Hy. apply inv_unique0; by apply Hsub.
  - by eapply inv_values_kept.
Qed.

(** Moving a linked node to the head of the LRU list. *)
Lemma lru_access_inv a :
  a ∈ lru_head kv →
  priskv_lru_access kv a true = Ok (set_lru kv (a :: filter (λ x, x ≠ a) (lru_head kv))) ∧
  kv_inv (set_lru kv (a :: filter (λ x, x ≠ a) (lru_head kv))) pins limbo xk xv.
Proof.
  intros Ha. destruct (lru_in_mem a Ha) as [n Hn].
  pose proof (filter_ne_perm _ a (inv_nodup _ _ _ _ _ Hinv) Ha) as Hp. split.
  { unfold priskv_lru_access. rewrite (node_Ok a n Hn), Ok_bind.
    by rewrite list_del_Ok. }
  destruct Hinv. split; simpl; try done.
  - by rewrite <- Hp.
  - change (linked (set_lru kv _)) with (linked kv). by rewrite <- Hp.
  - intros x m Hm. destruct (inv_node0 x m Hm) as (? & Hr & ?). split_and!; try done; try lia.
    rewrite Hr. do 2 f_equal. apply bool_decide_ext. by rewrite <- Hp.
  - by eapply inv_values_kept.
Qed.

(** Allocating a node or a value for a key being set. *)
Lemma try_slab_inv keynode :
  xk = keynode →
  ∃ kv' keynode', try_slab kv keynode = Ok (keynode', kv') ∧
    kv_inv kv' pins limbo keynode' xv ∧ same_conf kv kv' ∧
    hash_heads kv' = hash_heads kv ∧ lru_head kv' = lru_head kv ∧ key_mem kv' = key_mem kv ∧
    (is_Some keynode → keynode' = keynode).
Proof.
  intros <-. destruct xk as [a|] eqn:E; simpl.
  { exists kv, (Some a). by split_and!. }
  destruct (inv_slab _ _ _ _ _ Hinv) as (ms & Hrep & Hms).
  destruct (al_alloc_law _ _ _ Hrep (inv_request _ _ _ _ _ Hinv))
    as [(a & len & sl & -> & Hrep' & _ & Hfresh & Hk)|Heq].
  - simpl. eexists _, _. split; [done|]. split_and!; try done; try by intros [? ?].
    assert (key_mem kv !! a = None) as Hna.
    { apply eq_None_not_Some. intros Hs. assert (is_Some (ms !! a)) as [? ?]; [|congruence].
      apply Hms. by left. }
    destruct Hinv. split; simpl; try done.
    + exists (<[a := len]> ms). split; [done|]. intros x.
      rewrite lookup_insert_is_Some', Hms. naive_solver.
    + intros x [= <-]. done.
    + by eapply inv_values_kept.
    + destruct Hk as [_ Hk]. by apply Hk.
  - rewrite Heq. simpl. eexists _, _. split; [done|]. split_and!; try done.
    by destruct kv.
Qed.

Lemma try_buddy_inv vaddr valuelen :
  fst <$> xv = vaddr → (∀ v need, xv = Some (v, need) → need = valuelen) →
  al_request (value_buddy kv) valuelen →
  ∃ kv' vaddr', try_buddy kv vaddr valuelen = Ok (vaddr', kv') ∧
    kv_inv kv' pins limbo xk ((λ v, (v, valuelen)) <$> vaddr') ∧ same_conf kv kv' ∧
    hash_heads kv' = hash_heads kv ∧ lru_head kv' = lru_head kv ∧ key_mem kv' = key_mem kv ∧
    (is_Some vaddr → vaddr' = vaddr).
Proof.
  intros <- Hneed Hreq. destruct xv as [[v need]|] eqn:E; simpl.
  { specialize (Hneed v need eq_refl) as ->. exists kv, (Some v). by split_and!. }
  destruct (inv_values _ _ _ _ _ Hinv) as (mb & Hrep & Hown).
  destruct (al_alloc_law _ _ _ Hrep Hreq) as [(v & len & bd & -> & Hrep' & Hlen & Hfresh & Hk)|Heq].
  - simpl. eexists _, _. split; [done|]. split_and!; try done; try by intros [? ?].
    destruct Hinv. split; simpl; try done.
    + exists (<[v := len]> mb). split; [done|]. destruct Hown. split; simpl.
      * intros x n Hn. destruct (own_live0 x n Hn) as (l & Hl & ?). exists l. split; [|done].
        rewrite lookup_insert_ne; [done|]. intros ->. unfold vptr in *. simpl in *. congruence.
      * done.
      * intros v' need [= <- <-]. split; [exists len; by rewrite lookup_insert_eq|].
        intros x n Hn He. destruct (own_live0 x n Hn) as (l & Hl & ?).
        unfold vptr in *. simpl in *. congruence.
      * intros w. rewrite lookup_insert_is_Some'. intros [<-|Hw]; [left; by eexists|right].
        destruct (own_all0 w Hw) as [(? & ?)|?]; done.
    + destruct Hk as [-> _]. done.
  - rewrite Heq. simpl. eexists _, _. split; [done|]. split_and!; try done. by destruct kv.
Qed.

(** ** Lookup *)

(** Node [a] is linked under [key]. *)
Definition holds (key : list Z) (a : Z) : Prop :=
  a ∈ linked kv ∧ ∃ n, key_mem kv !! a = Some n ∧ k_key n = key.

Lemma hash_index_spec key keylen :
  bytes key → keylen = Z.of_nat (length key) → keylen < 2 ^ 16 →
  hash_index kv key keylen = Ok (slot kv key) ∧ 0 <= slot kv key ∧
  ∃ l, rd (hash_heads kv) (slot kv key) = Ok l ∧
    hash_heads kv !! Z.to_nat (slot kv key) = Some l.
Proof.
  intros Hb -> Hl. destruct (inv_buckets _ _ _ _ _ Hinv) as [Hbc Hlen].
  unfold hash_index. rewrite Crc32.crc32_spec, Ok_bind by (done || lia).
  rewrite Nat2Z.id, take_ge by done. fold (slot kv key).
  assert (0 <= slot kv key < bucket_count kv) as Hs by (apply Z.mod_pos_bound; lia).
  destruct (rd_in_range (hash_heads kv) (slot kv key)) as [l Hr]; [lia|].
  split; [done|]. split; [lia|]. exists l. split; [done|]. by apply rd_Ok in Hr as [_ ?].
Qed.

Lemma scan_spec key keylen l :
  keylen = Z.of_nat (length key) →
  (∀ a, a ∈ l → is_Some (key_mem kv !! a)) →
  ∃ r, scan_bucket kv l key keylen = Ok r ∧
    match r with
    | Some a => a ∈ l ∧ ∃ n, key_mem kv !! a = Some n ∧ k_key n = key
    | None => ∀ a n, a ∈ l → key_mem kv !! a = Some n → k_key n ≠ key
    end.
Proof.
  intros Hkl. induction l as [|a l IH]; intros Hl; simpl.
  { exists None. split; [done|]. set_solver. }
  destruct (Hl a) as [n Hn]; [set_solver|]. rewrite (node_Ok a n Hn), Ok_bind.
  destruct (inv_node _ _ _ _ _ Hinv a n Hn) as ((_ & Hnl & _) & _).
  destruct IH as (r & -> & Hr); [set_solver|].
  assert (k_key n ≠ key → ∃ r', Ok r = Ok r' ∧
    match r' with
    | Some a0 => a0 ∈ a :: l ∧ ∃ n0, key_mem kv !! a0 = Some n0 ∧ k_key n0 = key
    | None => ∀ a0 n0, a0 ∈ a :: l → key_mem kv !! a0 = Some n0 → k_key n0 ≠ key
    end) as Hskip.
  { intros Hne. exists r. split; [done|]. destruct r as [a'|]; [set_solver|].
    intros x m [->|Hx]%elem_of_cons Hm; [congruence|eauto]. }
  destruct (Z.eqb_spec (k_keylen n) keylen) as [He|Hne]; simpl; [|apply Hskip; congruence].
  rewrite !take_ge by lia. case_bool_decide; [|by apply Hskip].
  exists (Some a). split; [done|]. split; [set_solver|]. by exists n.
Qed.

Lemma holds_slot key a :
  holds key a →
  ∃ l, hash_heads kv !! Z.to_nat (slot kv key) = Some l ∧ a ∈ l.
Proof.
  intros [(i & l & Hi & Ha)%elem_of_concat (n & Hn & <-)].
  destruct (inv_place _ _ _ _ _ Hinv i l a Hi Ha) as (m & Hm & Hs).
  simplify_eq. exists l. rewrite Hs, Nat2Z.id. done.
Qed.

Lemma holds_inj key a b : holds key a → holds key b → a = b.
Proof.
  intros [Ha (n & Hn & Hk)] [Hb (m & Hm & <-)].
  by eapply (inv_unique _ _ _ _ _ Hinv a b n m).
Qed.

(** The search finds exactly the node that holds the key. *)
Lemma lookup_spec key keylen :
  bytes key → keylen = Z.of_nat (length key) → keylen < 2 ^ 16 →
  ∃ l r, hash_index kv key keylen = Ok (slot kv key) ∧ 0 <= slot kv key ∧
    rd (hash_heads kv) (slot kv key) = Ok l ∧
    hash_heads kv !! Z.to_nat (slot kv key) = Some l ∧
    scan_bucket kv l key keylen = Ok r ∧
    match r with Some a => a ∈ l ∧ holds key a | None => ∀ a, ~ holds key a end.
Proof.
  intros Hb Hkl Hlt. destruct (hash_index_spec key keylen Hb Hkl Hlt) as (Hh & Hs & l & Hr & Hl).
  assert (∀ a, a ∈ l → a ∈ linked kv) as Hlk by (intros a Ha; apply elem_of_concat; eauto).
  destruct (scan_spec key keylen l Hkl) as (r & Hsc & Hr').
  { intros a Ha. by apply linked_in_mem, Hlk. }
  exists l, r. split_and!; try done. destruct r as [a|].
  - destruct Hr' as [? ?]. split; [done|]. split; [by apply Hlk|done].
  - intros a Ha. pose proof (holds_slot _ _ Ha) as (l' & Hl' & Hal). simplify_eq.
    destruct Ha as [_ (n & Hn & Hk)]. by eapply Hr'.
Qed.

(** Removing the holder of a key from its bucket. *)
Lemma find_pop_spec key keylen timeout now :
  bytes key → keylen = Z.of_nat (length key) → keylen < 2 ^ 16 →
  (∃ a l, holds key a ∧ hash_heads kv !! Z.to_nat (slot kv key) = Some l ∧ a ∈ l ∧
     let kv' := set_heads kv
       (<[Z.to_nat (slot kv key) := filter (λ x, x ≠ a) l]> (hash_heads kv)) in
     priskv_find_key kv key keylen timeout true now = Ok (Some (a, false), kv') ∧
     kv_inv kv' pins (a :: limbo) xk xv) ∨
  (priskv_find_key kv key keylen timeout true now = Ok (None, kv) ∧ ∀ a, ~ holds key a).
Proof.
  intros Hb Hkl Hlt. unfold priskv_find_key.
  destruct (lookup_spec key keylen Hb Hkl Hlt) as (l & r & -> & Hs & Hr & Hl & Hsc & Hspec).
  rewrite Ok_bind, Hr, Ok_bind, Hsc, Ok_bind. destruct r as [a|]; [left|by right].
  destruct Hspec as [Hal Hh]. pose proof Hh as [_ (n & Hn & _)].
  exists a, l. split_and!; try done.
  - rewrite (node_Ok a n Hn), Ok_bind, list_del_Ok, Ok_bind by done.
    pose proof (lookup_lt_Some _ _ _ Hl). rewrite wr_Ok by lia. done.
  - by apply pop_inv.
Qed.
End state.

(** Unlinking a node in limbo and dropping the list's reference. *)
Lemma drop_inv kv pins xk xv a limbo :
  kv_inv kv pins (a :: limbo) xk xv →
  ∃ kv', (priskv_lru_del_key kv a ≫= λ kv, __priskv_del_key kv a) = Ok kv' ∧
    kv_inv kv' pins limbo xk xv ∧ same_conf kv kv' ∧
    hash_heads kv' = hash_heads kv ∧ lru_head kv' = filter (λ x, x ≠ a) (lru_head kv) ∧
    expire_routine_statics kv' = expire_routine_statics kv ∧
    (∀ x, x ≠ a → key_mem kv' !! x = key_mem kv !! x).
Proof.
  intros Hinv. assert (a ∉ limbo) as Hnl.
  { pose proof (inv_nodup _ _ _ _ _ Hinv) as Hnd. rewrite (inv_lists _ _ _ _ _ Hinv) in Hnd.
    apply NoDup_app in Hnd as (_ & _ & Hnd). by apply NoDup_cons in Hnd as [? _]. }
  destruct (lru_del_inv _ _ _ _ _ Hinv a) as (n & Hn & -> & Hi1); [set_solver|].
  rewrite filter_cons_False in Hi1 by (intros Hx; by apply Hx).
  rewrite (filter_ne_id limbo a) in Hi1 by done.
  pose proof (inv_pins _ _ _ _ _ Hinv a) as [? _].
  destruct (deref_inv _ _ _ _ _ Hi1 a) as (kv' & Hd & Hi2 & Hc & Hh & Hl & Hes & Hm & _);
    [rewrite padd_eq; lia|].
  exists kv'. split; [done|]. split; [|split_and!; done].
  eapply kv_inv_proper, Hi2; try done. intros x. symmetry. apply (padd_cancel pins a 1).
Qed.

(** The statistics are not part of the invariant. *)
Lemma statics_inv kv s pins limbo xk xv :
  kv_inv kv pins limbo xk xv → kv_inv (set_statics kv s) pins limbo xk xv.
Proof. intros []. split; try done. by eapply inv_values_kept. Qed.

(** ** The abstract store *)

(** What the store keeps for a key: the node, the value's address and length,
    the expiry time and whether a SET is still writing the value. *)
Record entry := mk_entry {
  e_node : Z; e_val : Z; e_len : Z; e_expire : timeval; e_busy : bool
}.

Definition entry_of kv (a : Z) (n : priskv_key) : entry :=
  mk_entry a (vptr kv n) (k_valuelen n) (k_expire_time n) (k_inprocess n).

Definition store kv : gmap (list Z) entry :=
  list_to_map (omap (λ a, (λ n, (k_key n, entry_of kv a n)) <$> key_mem kv !! a) (linked kv)).

Lemma lookup_store kv pins limbo xk xv key e :
  kv_inv kv pins limbo xk xv →
  store kv !! key = Some e ↔
    ∃ a n, a ∈ linked kv ∧ key_mem kv !! a = Some n ∧ k_key n = key ∧ e = entry_of kv a n.
Proof.
  intros Hinv.
  assert (∀ k x, (k, x) ∈ omap (λ a, (λ n, (k_key n, entry_of kv a n)) <$> key_mem kv !! a)
                           (linked kv) ↔
            ∃ a n, a ∈ linked kv ∧ key_mem kv !! a = Some n ∧ k_key n = k ∧ x = entry_of kv a n) as Hin.
  { intros k x. rewrite list_elem_of_omap. setoid_rewrite fmap_Some. naive_solver. }
  split.
  - intros He%elem_of_list_to_map_2. by apply Hin.
  - intros (a & n & Ha & Hn & Hk & ->). apply elem_of_list_to_map_1'.
    + intros y (b & m & Hb & Hm & Hk' & ->)%Hin.
      assert (b = a) as -> by (eapply (inv_unique _ _ _ _ _ Hinv); eauto; congruence).
      congruence.
    + apply Hin. eauto 10.
Qed.

(** The store only depends on the linked nodes and what an entry shows. *)
Lemma store_ext kv kv' pins limbo xk xv pins' limbo' xk' xv' :
  kv_inv kv pins limbo xk xv → kv_inv kv' pins' limbo' xk' xv' →
  (∀ x, x ∈ linked kv' ↔ x ∈ linked kv) →
  (∀ x n, x ∈ linked kv → key_mem kv !! x = Some n →
     ∃ n', key_mem kv' !! x = Some n' ∧ k_key n' = k_key n ∧ entry_of kv' x n' = entry_of kv x n) →
  store kv' = store kv.
Proof.
  intros Hi Hi' Hlk Hm. apply map_eq. intros key. apply option_eq. intros e.
  rewrite (lookup_store kv'), (lookup_store kv) by done. split.
  - intros (a & n & Ha & Hn & Hk & ->). apply Hlk in Ha.
    destruct (linked_in_mem _ _ _ _ _ Hi a Ha) as [n0 Hn0].
    destruct (Hm a n0 Ha Hn0) as (n1 & Hn1 & ? & ?). rewrite Hn in Hn1.
    injection Hn1 as <-. exists a, n0. by split_and!; try congruence.
  - intros (a & n & Ha & Hn & Hk & ->). destruct (Hm a n Ha Hn) as (n1 & ? & ? & ?).
    exists a, n1. rewrite Hlk. by split_and!; try congruence.
Qed.

Lemma store_remove kv kv' pins limbo xk xv pins' limbo' xk' xv' key a :
  kv_inv kv pins limbo xk xv → kv_inv kv' pins' limbo' xk' xv' → holds kv key a →
  (∀ x, x ∈ linked kv' ↔ x ∈ linked kv ∧ x ≠ a) → value_base kv' = value_base kv →
  (∀ x, x ≠ a → key_mem kv' !! x = key_mem kv !! x) →
  store kv' = delete key (store kv).
Proof.
  intros Hi Hi' [Ha (na & Hna & Hka)] Hlk Hvb Hm. apply map_eq. intros k. apply option_eq. intros e.
  rewrite lookup_delete_Some, (lookup_store kv'), (lookup_store kv) by done.
  assert (∀ x n, entry_of kv' x n = entry_of kv x n) as Hent.
  { intros. unfold entry_of, priskv_value_to_pointer. by rewrite Hvb. }
  split.
  - intros (x & n & Hx & Hn & Hk & ->). apply Hlk in Hx as [Hx Hne]. rewrite Hm in Hn by done.
    split; [|exists x, n; rewrite Hent; done].
    intros ->. apply Hne. eapply (inv_unique _ _ _ _ _ Hi); eauto. congruence.
  - intros (Hne & x & n & Hx & Hn & Hk & ->).
    assert (x ≠ a) by (intros ->; congruence).
    exists x, n. rewrite Hlk, Hm, Hent by done. done.
Qed.
End inv.
