(* ===== verification/KvOps.v ===== *)
(** * The key-value store: its operations

    Each operation of [KvModel] keeps the invariant of [KvInv] and does to the
    abstract store what it promises, on every branch. *)

From S2P Require Import Prelude Utils Crc Lists Protocol Memory Alloc KvModel KvInv.

(** A key whose expiry time is [t] has expired at [now]. *)
Definition timed_out (t now : timeval) : bool :=
  if (tv_sec t <? 0) || (tv_usec t <? 0) then false else priskv_time_elapsed_ms t now >? 0.

Lemma key_timeout_timed_out n now : priskv_key_timeout n now = timed_out (k_expire_time n) now.
Proof. done. Qed.

(** A key the server accepts: its length is that of its bytes. *)
Definition valid_key (key : list Z) : Prop := bytes key ∧ Z.of_nat (length key) < 2 ^ 16.

Definition klen (key : list Z) : Z := Z.of_nat (length key).

Section ops.
Context {SL BD : Type} `{AllocatorLaws SL} `{AllocatorLaws BD}.
Implicit Types kv : priskv_kv SL BD.

Notation inv kv pins := (kv_inv kv pins [] None None).

Lemma lru_linked kv pins xk xv x :
  kv_inv kv pins [] xk xv → x ∈ lru_head kv ↔ x ∈ linked kv.
Proof. intros Hi. by rewrite (inv_lists _ _ _ _ _ Hi), app_nil_r. Qed.

Lemma store_holds kv pins limbo xk xv key e :
  kv_inv kv pins limbo xk xv → store kv !! key = Some e →
  holds kv key (e_node e) ∧ ∃ n, key_mem kv !! e_node e = Some n ∧ k_key n = key ∧
    e = entry_of kv (e_node e) n.
Proof.
  intros Hi He. apply (lookup_store _ _ _ _ _ _ _ Hi) in He as (a & n & Ha & Hn & Hk & ->).
  simpl. split; [split; eauto|]. by exists n.
Qed.

Lemma store_None kv pins limbo xk xv key :
  kv_inv kv pins limbo xk xv → store kv !! key = None → ∀ a, ~ holds kv key a.
Proof.
  intros Hi Hn a [Ha (n & Hna & Hk)].
  assert (store kv !! key = Some (entry_of kv a n)); [|congruence].
  apply (lookup_store _ _ _ _ _ _ _ Hi). eauto 10.
Qed.

(** Taking the holder of a key out of its bucket, out of the LRU list, and
    dropping the lists' reference. *)
Definition removed kv kv' (key : list Z) (a : Z) : Prop :=
  same_conf kv kv' ∧ lru_head kv' = filter (λ x, x ≠ a) (lru_head kv) ∧
  (∀ x, x ≠ a → key_mem kv' !! x = key_mem kv !! x) ∧
  (∀ x, x ∈ linked kv' ↔ x ∈ linked kv ∧ x ≠ a) ∧
  store kv' = delete key (store kv).

(** What [drop_inv] leaves after the holder [a] was popped from its bucket. *)
Lemma popped_dropped kv pins xk xv key a l :
  kv_inv kv pins [] xk xv → holds kv key a →
  hash_heads kv !! Z.to_nat (slot kv key) = Some l → a ∈ l →
  let kv1 := set_heads kv (<[Z.to_nat (slot kv key) := filter (λ x, x ≠ a) l]> (hash_heads kv)) in
  ∃ kv', (priskv_lru_del_key kv1 a ≫= λ kv, __priskv_del_key kv a) = Ok kv' ∧
    kv_inv kv' pins [] xk xv ∧ removed kv kv' key a ∧ hash_heads kv' = hash_heads kv1.
Proof.
  intros Hi Hh Hl Ha kv1. pose proof (pop_inv _ _ _ _ _ Hi _ _ _ Hl Ha) as Hi1.
  destruct (drop_inv _ _ _ _ _ _ Hi1) as (kv' & Hd & Hi' & Hc & Hhd & Hlru & _ & Hm).
  assert (∀ x, x ∈ linked kv' ↔ x ∈ linked kv ∧ x ≠ a) as Hlk.
  { intros x. rewrite <- (lru_linked kv' _ _ _ x Hi'), <- (lru_linked kv _ _ _ x Hi), Hlru.
    apply elem_of_filter_ne. }
  exists kv'. split; [done|]. split; [done|]. split; [|done]. split_and!; try done; [apply Hc..|].
  eapply store_remove; [apply Hi|apply Hi'|done..| |done]. apply Hc.
Qed.

Lemma find_pop kv pins xk xv key now timeout :
  kv_inv kv pins [] xk xv → valid_key key →
  match store kv !! key with
  | Some e =>
      ∃ kv1 kv', priskv_find_key kv key (klen key) timeout true now =
          Ok (Some (e_node e, false), kv1) ∧
        (priskv_lru_del_key kv1 (e_node e) ≫= λ kv, __priskv_del_key kv (e_node e)) = Ok kv' ∧
        kv_inv kv' pins [] xk xv ∧ removed kv kv' key (e_node e)
  | None => priskv_find_key kv key (klen key) timeout true now = Ok (None, kv)
  end.
Proof.
  intros Hi [Hb Hlt].
  destruct (find_pop_spec _ _ _ _ _ Hi key (klen key) timeout now Hb eq_refl Hlt)
    as [(a & l & Hh & Hl & Ha & Hf & _)|[Hf Hno]].
  - destruct (store kv !! key) as [e|] eqn:He; [|by destruct (store_None _ _ _ _ _ _ Hi He a)].
    destruct (store_holds _ _ _ _ _ _ _ Hi He) as [Hhe _].
    rewrite <- (holds_inj _ _ _ _ _ Hi key a (e_node e) Hh Hhe).
    destruct (popped_dropped _ _ _ _ _ _ _ Hi Hh Hl Ha) as (kv' & Hd & Hi' & Hr & _).
    eexists _, kv'. split_and!; done.
  - destruct (store kv !! key) as [e|] eqn:He; [|done].
    destruct (store_holds _ _ _ _ _ _ _ Hi He) as [Hhe _]. by destruct (Hno (e_node e)).
Qed.

(** *** DELETE *)

Lemma delete_spec kv pins key :
  inv kv pins → valid_key key →
  ∃ kv', priskv_delete_key kv key (klen key) =
      Ok (if decide (is_Some (store kv !! key)) then PRISKV_RESP_STATUS_OK
          else PRISKV_RESP_STATUS_NO_SUCH_KEY, kv') ∧
    inv kv' pins ∧ same_conf kv kv' ∧ store kv' = delete key (store kv).
Proof.
  intros Hi Hk. pose proof (find_pop kv pins None None key (TimeVal 0 0)
    PRISKV_KEY_MAX_TIMEOUT Hi Hk) as Hf. unfold priskv_delete_key.
  destruct (store kv !! key) as [e|] eqn:He.
  - destruct Hf as (kv1 & kv' & -> & Hd & Hi' & Hr). exists kv'. rewrite Ok_bind.
    rewrite decide_True by (by eexists). split_and!; try done; [|apply Hr..].
    destruct (priskv_lru_del_key kv1 (e_node e)) as [kv2|]; simpl in *; [|done]. by rewrite Hd.
  - rewrite Hf. exists kv. rewrite decide_False by (by intros [? ?]).
    split_and!; try done. by rewrite delete_id.
Qed.

(** *** Lookups that keep the key *)

(** The node after a lookup that found it: maybe a new expiry time, and one
    reference more. *)
Definition touched (n : priskv_key) (timeout : Z) (now : timeval) : priskv_key :=
  with_refcnt (if timeout <? PRISKV_KEY_MAX_TIMEOUT
               then with_expire n (priskv_time_add_ms now timeout) else n) (k_refcnt n + 1).

Lemma touched_spec kv pins a n timeout now :
  inv kv pins → key_mem kv !! a = Some n → pins a < 2 ^ 32 - 2 →
  let kv1 := if timeout <? PRISKV_KEY_MAX_TIMEOUT
             then set_node kv a (with_expire n (priskv_time_add_ms now timeout)) else kv in
  ∃ kv', priskv_keynode_ref kv1 a = Ok kv' ∧ inv kv' (padd pins a 1) ∧
    kv' = set_node kv a (touched n timeout now).
Proof.
  intros Hi Hn Hp kv1. destruct (inv_node _ _ _ _ _ Hi a n Hn) as (_ & Hr & _).
  assert (k_refcnt n + 1 < 2 ^ 32) by (destruct (bool_decide _); simpl in Hr; lia).
  unfold kv1, touched. destruct (timeout <? PRISKV_KEY_MAX_TIMEOUT).
  - assert (inv (set_node kv a (with_expire n (priskv_time_add_ms now timeout))) pins) as Hi1.
    { destruct (inv_values _ _ _ _ _ Hi) as (mb & _ & Hown).
      destruct (own_live _ _ _ Hown _ _ Hn) as (len & _ & ?).
      pose proof (inv_node _ _ _ _ _ Hi a n Hn) as (_ & _ & ?).
      pose proof (inv_pins _ _ _ _ _ Hi a) as [? _].
      apply (inv_update _ _ _ _ _ Hi a n); simpl; (done || lia). }
    destruct (ref_inv _ _ _ _ _ Hi1 a (with_expire n (priskv_time_add_ms now timeout)))
      as (kv' & -> & Hi' & ->); [simpl; apply lookup_insert_eq|done|].
    eexists. split; [done|]. split; [done|]. unfold set_node, set_mem. simpl.
    by rewrite insert_insert_eq.
  - destruct (ref_inv _ _ _ _ _ Hi a n) as (kv' & -> & Hi' & ->); [done..|].
    eexists. by split_and!.
Qed.

Lemma find_live kv pins key timeout now :
  inv kv pins → valid_key key → (∀ a, pins a < 2 ^ 32 - 2) →
  match store kv !! key with
  | None => priskv_find_key kv key (klen key) timeout false now = Ok (None, kv)
  | Some e =>
      if timed_out (e_expire e) now then
        ∃ kv1 kv', priskv_find_key kv key (klen key) timeout false now =
            Ok (Some (e_node e, true), kv1) ∧
          (priskv_lru_del_key kv1 (e_node e) ≫= λ kv, __priskv_del_key kv (e_node e)) = Ok kv' ∧
          inv kv' pins ∧ removed kv kv' key (e_node e)
      else
        ∃ n kv', key_mem kv !! e_node e = Some n ∧ e = entry_of kv (e_node e) n ∧
          k_key n = key ∧ e_node e ∈ linked kv ∧
          priskv_find_key kv key (klen key) timeout false now =
            Ok (Some (e_node e, false), kv') ∧
          inv kv' (padd pins (e_node e) 1) ∧
          kv' = set_node kv (e_node e) (touched n timeout now)
  end.
Proof.
  intros Hi [Hb Hlt] Hp. unfold priskv_find_key.
  destruct (lookup_spec _ _ _ _ _ Hi key (klen key) Hb eq_refl Hlt)
    as (l & r & -> & Hs & Hr & Hl & Hsc & Hspec).
  rewrite Ok_bind, Hr, Ok_bind, Hsc, Ok_bind.
  destruct (store kv !! key) as [e|] eqn:He.
  - destruct (store_holds _ _ _ _ _ _ _ Hi He) as [Hhe (n & Hn & Hk & Hee)].
    destruct r as [a|]; [|by destruct (Hspec (e_node e))]. destruct Hspec as [Hal Hha].
    rewrite (holds_inj _ _ _ _ _ Hi key a (e_node e) Hha Hhe) in *.
    rewrite (node_Ok kv _ n Hn), Ok_bind, key_timeout_timed_out.
    replace (k_expire_time n) with (e_expire e) by (by rewrite Hee).
    destruct (timed_out (e_expire e) now).
    + destruct (popped_dropped _ _ _ _ _ _ _ Hi Hhe Hl Hal) as (kv' & Hd & Hi' & Hrm & _).
      rewrite list_del_Ok, Ok_bind by done. pose proof (lookup_lt_Some _ _ _ Hl).
      rewrite wr_Ok by lia. eexists _, kv'. split_and!; done.
    + destruct (touched_spec kv pins (e_node e) n timeout now Hi Hn (Hp _)) as (kv' & Hrf & Hi' & He').
      exists n, kv'. rewrite Hrf. destruct Hhe. split_and!; done.
  - destruct r as [a|]; [|done]. destruct Hspec as [_ Hh].
    by destruct (store_None _ _ _ _ _ _ Hi He a).
Qed.

(** A write to a linked node that entries do not show. *)
Lemma store_touched kv pins pins' a n n' :
  inv kv pins → key_mem kv !! a = Some n → k_key n' = k_key n →
  entry_of kv a n' = entry_of kv a n → inv (set_node kv a n') pins' →
  store (set_node kv a n') = store kv.
Proof.
  intros Hi Hn Hk He Hi'. eapply store_ext; [apply Hi|apply Hi'|done|].
  intros x m Hx Hm. simpl. destruct (decide (x = a)) as [->|Hne].
  - exists n'. rewrite lookup_insert_eq. rewrite Hn in Hm. injection Hm as <-. by split_and!.
  - exists m. by rewrite lookup_insert_ne.
Qed.

(** *** GET *)

Definition get_result kv kv' (pins : Z → Z) (key : list Z) (now : timeval)
    (st : priskv_resp_status) (kn : option Z) (out : option (Z * Z)) : Prop :=
  match store kv !! key with
  | None => st = PRISKV_RESP_STATUS_NO_SUCH_KEY ∧ kn = None ∧ out = None ∧ kv' = kv
  | Some e =>
      if timed_out (e_expire e) now then
        st = PRISKV_RESP_STATUS_NO_SUCH_KEY ∧ kn = None ∧ out = None ∧
        inv kv' pins ∧ store kv' = delete key (store kv)
      else
        kn = Some (e_node e) ∧ inv kv' (padd pins (e_node e) 1) ∧ store kv' = store kv ∧
        if e_busy e then st = PRISKV_RESP_STATUS_KEY_UPDATING ∧ out = None
        else st = PRISKV_RESP_STATUS_OK ∧ out = Some (e_val e, e_len e) ∧
             lru_head kv' = e_node e :: filter (λ x, x ≠ e_node e) (lru_head kv)
  end.

Lemma get_spec kv pins key now :
  inv kv pins → valid_key key → (∀ a, pins a < 2 ^ 32 - 2) →
  ∃ st kn out kv', priskv_get_key kv key (klen key) now = Ok (st, kn, out, kv') ∧
    same_conf kv kv' ∧ get_result kv kv' pins key now st kn out.
Proof.
  intros Hi Hk Hp. pose proof (find_live kv pins key PRISKV_KEY_MAX_TIMEOUT now Hi Hk Hp) as Hf.
  unfold get_result, priskv_get_key. destruct (store kv !! key) as [e|] eqn:He;
    [|rewrite Hf; do 4 eexists; split; done].
  destruct (timed_out (e_expire e) now).
  - destruct Hf as (kv1 & kv' & -> & Hd & Hi' & Hr). rewrite Ok_bind.
    destruct (priskv_lru_del_key kv1 (e_node e)) as [kv2|]; simpl in *; [|done]. rewrite Hd.
    do 4 eexists. split; [done|]. split; [apply Hr|]. split_and!; try done. apply Hr.
  - destruct Hf as (n & kv' & Hn & Hen & Hkn & Hlk & -> & Hi' & Hkv'). rewrite Ok_bind.
    assert (key_mem kv' !! e_node e = Some (touched n PRISKV_KEY_MAX_TIMEOUT now)) as Hn'
      by (rewrite Hkv'; apply lookup_insert_eq).
    rewrite (node_Ok kv' _ _ Hn'), Ok_bind.
    assert (store kv' = store kv) as Hst.
    { rewrite Hkv' in *. eapply store_touched; done. }
    replace (k_inprocess (touched n PRISKV_KEY_MAX_TIMEOUT now)) with (e_busy e)
      by (by rewrite Hen).
    destruct (e_busy e).
    { do 4 eexists. split; [done|]. split; [by rewrite Hkv'|]. by split_and!. }
    destruct (lru_access_inv _ _ _ _ _ Hi' (e_node e)) as [-> Hi2].
    { rewrite (lru_linked _ _ _ _ _ Hi'), Hkv'. done. }
    do 4 eexists. split; [done|]. split; [by rewrite Hkv'|].
    split; [done|]. split; [exact Hi2|]. split_and!; [|done| |].
    + rewrite <- Hst. eapply store_ext; [apply Hi'|apply Hi2|done|]. intros x m Hx Hm. by exists m.
    + rewrite Hen. by rewrite Hkv'.
    + by rewrite Hkv'.
Qed.

(** *** EXPIRE *)

Lemma deref_touched kv pins a kv' :
  inv kv pins → a ∈ linked kv →
  inv kv' (padd pins a 1) → lru_head kv' = lru_head kv → hash_heads kv' = hash_heads kv →
  ∃ kv2 n', priskv_keynode_deref kv' a = Ok kv2 ∧ inv kv2 pins ∧ same_conf kv' kv2 ∧
    hash_heads kv2 = hash_heads kv ∧ key_mem kv' !! a = Some n' ∧
    key_mem kv2 !! a = Some (with_refcnt n' (k_refcnt n' - 1)) ∧
    ∀ x, x ≠ a → key_mem kv2 !! x = key_mem kv' !! x.
Proof.
  intros Hi Ha Hi' Hl Hh. pose proof (inv_pins _ _ _ _ _ Hi a) as [? _].
  destruct (deref_inv _ _ _ _ _ Hi' a) as (kv2 & Hd & Hi2 & Hc & Hh2 & Hl2 & _ & Hm & Hna);
    [rewrite padd_eq; lia|].
  destruct Hna as (n' & Hn' & Hn2).
  { left. rewrite Hl. by apply (lru_linked kv pins None None). }
  exists kv2, n'. split_and!; try done; [|congruence].
  eapply kv_inv_proper, Hi2; try done. intros x. symmetry. apply (padd_cancel pins a 1).
Qed.

(** Only what the entry of one key shows changes. *)
Lemma store_update kv kv' pins pins' a n n' :
  inv kv pins → inv kv' pins' → a ∈ linked kv → key_mem kv !! a = Some n →
  key_mem kv' !! a = Some n' → k_key n' = k_key n → value_base kv' = value_base kv →
  (∀ x, x ∈ linked kv' ↔ x ∈ linked kv) →
  (∀ x, x ≠ a → key_mem kv' !! x = key_mem kv !! x) →
  store kv' = <[k_key n := entry_of kv a n']> (store kv).
Proof.
  intros Hi Hi' Ha Hn Hn' Hk Hvb Hlk Hm. apply map_eq. intros k. apply option_eq. intros e.
  assert (∀ x m, entry_of kv' x m = entry_of kv x m) as Hent.
  { intros. unfold entry_of, priskv_value_to_pointer. by rewrite Hvb. }
  rewrite lookup_insert_Some, (lookup_store kv' _ _ _ _ _ _ Hi'), (lookup_store kv _ _ _ _ _ _ Hi).
  split.
  - intros (x & m & Hx & Hmx & Hkx & ->). rewrite Hent. apply Hlk in Hx.
    destruct (decide (x = a)) as [->|Hne]; [left; split; congruence|right].
    rewrite Hm in Hmx by done. split; [|by exists x, m].
    intros He. apply Hne. eapply (inv_unique _ _ _ _ _ Hi); eauto. congruence.
  - intros [[<- <-]|(Hne & x & m & Hx & Hmx & Hkx & ->)].
    + exists a, n'. rewrite Hlk, Hent. by split_and!.
    + exists x, m. assert (x ≠ a) by (intros ->; congruence). by rewrite Hlk, Hent, Hm.
Qed.

Definition with_e_expire (e : entry) (t : timeval) : entry :=
  mk_entry (e_node e) (e_val e) (e_len e) t (e_busy e).

Lemma expire_spec kv pins key timeout now :
  inv kv pins → valid_key key → (∀ a, pins a < 2 ^ 32 - 2) →
  ∃ st kv', priskv_expire_key kv key (klen key) timeout now = Ok (st, kv') ∧
    inv kv' pins ∧ same_conf kv kv' ∧
    match store kv !! key with
    | None => st = PRISKV_RESP_STATUS_NO_SUCH_KEY ∧ kv' = kv
    | Some e =>
        if timed_out (e_expire e) now then
          st = PRISKV_RESP_STATUS_NO_SUCH_KEY ∧ store kv' = delete key (store kv)
        else
          st = PRISKV_RESP_STATUS_OK ∧
          store kv' = if timeout <? PRISKV_KEY_MAX_TIMEOUT
                      then <[key := with_e_expire e (priskv_time_add_ms now timeout)]> (store kv)
                      else store kv
    end.
Proof.
  intros Hi Hk Hp. pose proof (find_live kv pins key timeout now Hi Hk Hp) as Hf.
  unfold priskv_expire_key. destruct (store kv !! key) as [e|] eqn:He;
    [|rewrite Hf; do 2 eexists; by split_and!].
  destruct (timed_out (e_expire e) now).
  - destruct Hf as (kv1 & kv' & -> & Hd & Hi' & Hr). rewrite Ok_bind.
    destruct (priskv_lru_del_key kv1 (e_node e)) as [kv2|]; simpl in *; [|done]. rewrite Hd.
    do 2 eexists. split; [done|]. split_and!; try done; apply Hr.
  - destruct Hf as (n & kv1 & Hn & Hen & Hkn & Hlk & -> & Hi1 & Hkv1). rewrite Ok_bind.
    destruct (deref_touched kv pins (e_node e) kv1)
      as (kv2 & n1 & -> & Hi2 & Hc2 & Hh2 & Hn1 & Hn2 & Hm2); [done..| | |];
      [by rewrite Hkv1|by rewrite Hkv1|]. simpl.
    assert (key_mem kv1 !! e_node e = Some (touched n timeout now)) as Hn1'
      by (rewrite Hkv1; apply lookup_insert_eq).
    rewrite Hn1 in Hn1'. injection Hn1' as ->.
    assert (same_conf kv kv2) as Hc by (rewrite Hkv1 in Hc2; done).
    do 2 eexists. split; [done|]. split_and!; try done.
    assert (k_key (touched n timeout now) = k_key n) as Hkt
      by (unfold touched; by destruct (timeout <? _)).
    assert (store kv2 = <[key := entry_of kv (e_node e)
              (with_refcnt (touched n timeout now) (k_refcnt (touched n timeout now) - 1))]> (store kv)) as ->.
    { rewrite <- Hkn. eapply store_update; [apply Hi|apply Hi2|done|done|apply Hn2|done| | |].
      - apply Hc.
      - intros x. unfold linked. by rewrite Hh2.
      - intros x Hx. rewrite Hm2, Hkv1 by done. by apply lookup_insert_ne. }
    unfold touched. destruct (timeout <? PRISKV_KEY_MAX_TIMEOUT).
    + f_equal. by rewrite Hen.
    + rewrite insert_id; [done|]. rewrite He. f_equal. by rewrite Hen.
Qed.

(** *** SET *)

(** [kv'] is [kv] after keys were evicted from the cold end of the LRU list:
    the hottest keys are left, as they were. *)
Definition evicted kv kv' : Prop :=
  same_conf kv kv' ∧ (∃ j, lru_head kv' = take j (lru_head kv)) ∧
  (∀ key e, store kv' !! key = Some e ↔
     store kv !! key = Some e ∧ e_node e ∈ lru_head kv').

Lemma evicted_refl kv pins xk xv : kv_inv kv pins [] xk xv → evicted kv kv.
Proof.
  intros Hi. split_and!; [done|exists (length (lru_head kv)); by rewrite take_ge|].
  intros key e. split; [|naive_solver]. intros He. split; [done|].
  destruct (store_holds _ _ _ _ _ _ _ Hi He) as [[Ha _] _]. by apply (lru_linked _ _ _ _ _ Hi).
Qed.

Lemma evicted_trans k1 k2 k3 : evicted k1 k2 → evicted k2 k3 → evicted k1 k3.
Proof.
  intros (Hc1 & [j1 Hj1] & Hs1) (Hc2 & [j2 Hj2] & Hs2). split_and!; [by etrans| |].
  - exists (j2 `min` j1)%nat. by rewrite Hj2, Hj1, take_take.
  - intros key e. rewrite Hs2, Hs1. split; [naive_solver|]. intros [? Hin]. split_and!; try done.
    rewrite Hj2 in Hin. rewrite <- (take_drop j2 (lru_head k2)). set_solver.
Qed.

(** Steps that leave the lists and the nodes alone. *)
Lemma evicted_alloc kv kv1 kv2 pins pins' xk xv xk' xv' :
  kv_inv kv1 pins [] xk xv → kv_inv kv2 pins' [] xk' xv' →
  evicted kv kv1 → same_conf kv1 kv2 → hash_heads kv2 = hash_heads kv1 →
  lru_head kv2 = lru_head kv1 → key_mem kv2 = key_mem kv1 → evicted kv kv2.
Proof.
  intros Hi1 Hi2 (Hc & Hj & Hs) Hc2 Hh Hl Hm. split_and!; [by etrans|by rewrite Hl|].
  intros key e. rewrite Hl, <- Hs. replace (store kv2) with (store kv1); [done|]. symmetry.
  eapply store_ext; [apply Hi1|apply Hi2| |].
  - intros x. unfold linked. by rewrite Hh.
  - intros x n Hx Hn. exists n. rewrite Hm. split_and!; try done.
    unfold entry_of, priskv_value_to_pointer. destruct Hc2 as (_ & _ & _ & -> & _). done.
Qed.

(** One eviction: the coldest key goes. *)
Lemma evict_one kv pins xk xv old :
  kv_inv kv pins [] xk xv → priskv_lru_evict kv = Some old →
  ∃ n kv1 kv', key_mem kv !! old = Some n ∧
    priskv_find_key kv (k_key n) (k_keylen n) PRISKV_KEY_MAX_TIMEOUT true (TimeVal 0 0) =
      Ok (Some (old, false), kv1) ∧
    (priskv_lru_del_key kv1 old ≫= λ kv, __priskv_del_key kv old) = Ok kv' ∧
    kv_inv kv' pins [] xk xv ∧ evicted kv kv' ∧
    length (lru_head kv) = S (length (lru_head kv')).
Proof.
  intros Hi Hev. unfold priskv_lru_evict, list_tail in Hev.
  apply last_Some in Hev as [l Hl].
  assert (old ∈ lru_head kv) as Hin by (rewrite Hl; set_solver).
  destruct (lru_in_mem _ _ _ _ _ Hi old Hin) as [n Hn]. exists n.
  destruct (inv_node _ _ _ _ _ Hi old n Hn) as ((Hb & Hkl & Hmax) & _).
  pose proof (inv_conf _ _ _ _ _ Hi) as Hconf.
  assert (valid_key (k_key n)) as Hvk by (split; [done|lia]).
  pose proof (find_pop kv pins xk xv (k_key n) (TimeVal 0 0) PRISKV_KEY_MAX_TIMEOUT Hi Hvk) as Hf.
  assert (store kv !! k_key n = Some (entry_of kv old n)) as He.
  { apply (lookup_store _ _ _ _ _ _ _ Hi). exists old, n. split_and!; try done.
    by apply (lru_linked _ _ _ _ _ Hi). }
  rewrite He in Hf. destruct Hf as (kv1 & kv' & Hf & Hd & Hi' & Hc & Hlru & Hm & Hlk & Hst).
  simpl in *. rewrite Hkl. exists kv1, kv'.
  pose proof (inv_nodup _ _ _ _ _ Hi) as Hnd. rewrite Hl in Hnd.
  apply NoDup_app in Hnd as (_ & Hdis & _).
  assert (old ∉ l) as Hol by (intros Ho; apply (Hdis old Ho); set_solver).
  assert (lru_head kv' = l) as Hl'.
  { rewrite Hlru, Hl, filter_app, filter_ne_id by done.
    rewrite filter_cons_False by (intros Hx; by apply Hx). by rewrite filter_nil, app_nil_r. }
  split_and!; try done.
  - split_and!; [done|exists (length l); by rewrite Hl', Hl, take_app_length|].
    intros key e. rewrite Hst, lookup_delete_Some, Hl'. split.
    + intros [Hne Hke]. split; [done|]. destruct (store_holds _ _ _ _ _ _ _ Hi Hke) as [[Ha (m & Hm1 & Hm2)] _].
      apply (lru_linked _ _ _ _ _ Hi) in Ha. rewrite Hl in Ha.
      apply elem_of_app in Ha as [?|Ha%list_elem_of_singleton]; [done|].
      rewrite Ha in *. congruence.
    + intros [Hke Hin']. split; [|done]. intros <-. rewrite He in Hke. injection Hke as <-.
      simpl in Hin'. done.
  - rewrite Hl', Hl, length_app. simpl. lia.
Qed.

(** The shape the loop works on. *)
Definition being_set kv (pins : Z → Z) (keynode vaddr : option Z) (valuelen : Z) : Prop :=
  kv_inv kv pins [] keynode ((λ v, (v, valuelen)) <$> vaddr) ∧
  al_request (value_buddy kv) valuelen.

(** Both allocations are tried again. *)
Lemma retry_alloc kv pins keynode vaddr valuelen :
  being_set kv pins keynode vaddr valuelen →
  ∃ keynode' vaddr' kv1 kv2, try_slab kv keynode = Ok (keynode', kv1) ∧
    try_buddy kv1 vaddr valuelen = Ok (vaddr', kv2) ∧
    being_set kv2 pins keynode' vaddr' valuelen ∧ evicted kv kv2 ∧
    lru_head kv2 = lru_head kv ∧ key_mem kv2 = key_mem kv.
Proof.
  intros [Hi Hreq].
  destruct (try_slab_inv _ _ _ _ _ Hi keynode eq_refl)
    as (kv1 & keynode' & -> & Hi1 & Hc1 & Hh1 & Hl1 & Hm1 & _).
  assert (al_request (value_buddy kv1) valuelen) as Hreq1 by (apply Hc1; done).
  destruct (try_buddy_inv _ _ _ _ _ Hi1 vaddr valuelen)
    as (kv2 & vaddr' & Hb & Hi2 & Hc2 & Hh2 & Hl2 & Hm2 & _).
  { destruct vaddr; done. }
  { destruct vaddr; naive_solver. }
  { done. }
  exists keynode', vaddr', kv1, kv2.
  assert (evicted kv kv1) as He1.
  { eapply (evicted_alloc kv kv kv1); [apply Hi|apply Hi1|by eapply evicted_refl|done..]. }
  split_and!; try done; try congruence.
  - split; [done|]. by apply Hc2.
  - eapply (evicted_alloc kv kv1 kv2); [apply Hi1|apply Hi2|done..].
Qed.

(** Evictions by themselves: the coldest key goes, [i] times. *)
Definition evict_coldest kv : res (priskv_kv SL BD) :=
  match priskv_lru_evict kv with
  | None => Ok kv
  | Some old =>
      n ← node kv old;
      '(_, kv) ← priskv_find_key kv (k_key n) (k_keylen n) PRISKV_KEY_MAX_TIMEOUT true (TimeVal 0 0);
      kv ← priskv_lru_del_key kv old;
      __priskv_del_key kv old
  end.

Fixpoint evict_times (i : nat) kv : res (priskv_kv SL BD) :=
  match i with O => Ok kv | S i => kv ← evict_coldest kv; evict_times i kv end.

(** There is a free node, and a free block for the value. *)
Definition fits kv (valuelen : Z) : bool :=
  match al_alloc (key_slab kv) (priskv_mem_key_size (max_key_length kv)), al_alloc (value_buddy kv) valuelen with
  | Ok (Some _, _), Ok (Some _, _) => true
  | _, _ => false
  end.

(** A store with other allocators. Lookups and the LRU list do not see them. *)
Definition swap kv (sl : SL) (bd : BD) : priskv_kv SL BD := set_mem kv sl bd (key_mem kv).

Lemma scan_swap kv sl bd l key keylen : scan_bucket (swap kv sl bd) l key keylen = scan_bucket kv l key keylen.
Proof. induction l as [|a l IH]; [done|]. cbn [scan_bucket]. unfold node. simpl. rewrite IH. done. Qed.

Lemma find_swap kv sl bd key keylen timeout now :
  priskv_find_key (swap kv sl bd) key keylen timeout true now =
  ('(f, kv') ← priskv_find_key kv key keylen timeout true now; Ok (f, swap kv' sl bd)).
Proof.
  unfold priskv_find_key, hash_index. simpl. destruct (Crc32.priskv_crc32 key keylen) as [c|]; [|done]. rewrite !Ok_bind.
  destruct (rd _ _) as [head|]; [|done]. rewrite !Ok_bind, scan_swap. destruct (scan_bucket kv head key keylen) as [[a|]|]; [|done..].
  rewrite !Ok_bind. unfold node. simpl. destruct (key_mem kv !! a) as [n|]; [|done]. rewrite !Ok_bind.
  destruct (list_del head a) as [h|]; [|done]. rewrite !Ok_bind. by destruct (wr _ _ h) as [hs|].
Qed.

Lemma lru_del_swap kv sl bd a :
  priskv_lru_del_key (swap kv sl bd) a = (kv' ← priskv_lru_del_key kv a; Ok (swap kv' sl bd)).
Proof.
  unfold priskv_lru_del_key, node. simpl. destruct (key_mem kv !! a); [|done]. rewrite !Ok_bind.
  by destruct (list_del (lru_head kv) a).
Qed.

Lemma deref_swap kv sl bd a kv1 kv2 :
  priskv_keynode_deref kv a = Ok kv1 → priskv_keynode_deref (swap kv sl bd) a = Ok kv2 →
  ∃ sl' bd', kv2 = swap kv1 sl' bd' ∧ (sl = key_slab kv → sl' = key_slab kv1) ∧ (bd = value_buddy kv → bd' = value_buddy kv1).
Proof.
  unfold priskv_keynode_deref, node, priskv_value_to_pointer. simpl. destruct (key_mem kv !! a) as [n|]; [|done].
  rewrite !Ok_bind. destruct (u32 (k_refcnt n - 1) =? 0).
  - intros (b1 & Hb1 & (s1 & Hs1 & [= <-])%bind_Ok)%bind_Ok (b2 & Hb2 & (s2 & Hs2 & [= <-])%bind_Ok)%bind_Ok.
    exists s2, b2. split; [done|]. simpl. split; intros ->; congruence.
  - intros [= <-] [= <-]. by exists sl, bd.
Qed.

Lemma find_del_allocs kv key keylen timeout now f kv1 a kv2 :
  priskv_find_key kv key keylen timeout true now = Ok (f, kv1) → priskv_lru_del_key kv1 a = Ok kv2 →
  key_slab kv2 = key_slab kv ∧ value_buddy kv2 = value_buddy kv.
Proof.
  unfold priskv_find_key, priskv_lru_del_key. intros (i & _ & (h & _ & (r & _ & Hr)%bind_Ok)%bind_Ok)%bind_Ok
    (n & _ & (l & _ & [= <-])%bind_Ok)%bind_Ok. destruct r as [b|]; [|by injection Hr as <- <-].
  apply bind_Ok in Hr as (m & _ & (h' & _ & (hs & _ & [= <- <-])%bind_Ok)%bind_Ok). done.
Qed.

(** [kv] is [p], but for an allocator from which something was taken. *)
Definition beside kv (p : priskv_kv SL BD) (keynode vaddr : option Z) : Prop :=
  kv = swap p (key_slab kv) (value_buddy kv) ∧
  (keynode = None → key_slab kv = key_slab p) ∧ (vaddr = None → value_buddy kv = value_buddy p).

(** What is not there yet could not be had. *)
Definition wanting (p : priskv_kv SL BD) (keynode vaddr : option Z) (valuelen : Z) : Prop :=
  (keynode = None → al_alloc (key_slab p) (priskv_mem_key_size (max_key_length p)) = Ok (None, key_slab p)) ∧
  (vaddr = None → al_alloc (value_buddy p) valuelen = Ok (None, value_buddy p)).

Lemma wanting_fits p keynode vaddr valuelen :
  wanting p keynode vaddr valuelen → ¬ (is_Some keynode ∧ is_Some vaddr) → fits p valuelen = false.
Proof.
  intros [Hk Hv] Hnot. unfold fits. destruct keynode as [a|]; [destruct vaddr as [v|]|].
  - destruct Hnot. split; by eexists.
  - rewrite Hv by done. by destruct (al_alloc (key_slab p) _) as [[[?|] ?]|].
  - by rewrite Hk.
Qed.

Lemma evict_coldest_run kv pins xk xv old :
  kv_inv kv pins [] xk xv → priskv_lru_evict kv = Some old →
  ∃ kv', evict_coldest kv = Ok kv' ∧ kv_inv kv' pins [] xk xv ∧ evicted kv kv' ∧ length (lru_head kv) = S (length (lru_head kv')).
Proof.
  intros Hi Hev. destruct (evict_one kv pins xk xv old Hi Hev) as (n & kv1 & kv' & Hn & Hf & Hd & Hr).
  exists kv'. split; [|done]. unfold evict_coldest. by rewrite Hev, (node_Ok kv _ _ Hn), Ok_bind, Hf, Ok_bind.
Qed.

(** One turn of the loop is an eviction and another try. *)
Lemma evict_loop_turn fuel kv pins keynode vaddr valuelen retries old kv' :
  being_set kv pins keynode vaddr valuelen → priskv_lru_evict kv = Some old → evict_coldest kv = Ok kv' →
  ¬ (is_Some keynode ∧ is_Some vaddr) → retries <= MAX_EVICT_RETRIES →
  evict_loop (S fuel) kv keynode vaddr valuelen retries =
    ('(keynode, kv') ← try_slab kv' keynode; '(vaddr, kv') ← try_buddy kv' vaddr valuelen;
     evict_loop fuel kv' keynode vaddr valuelen (retries + 1)).
Proof.
  intros [Hi _] Hev Hrun Hnot Hr. destruct (evict_one kv pins _ _ old Hi Hev) as (n & kv1 & kv2 & Hn & Hf & Hd & _).
  assert (kv2 = kv') as ->.
  { unfold evict_coldest in Hrun. rewrite Hev, (node_Ok kv _ _ Hn), Ok_bind, Hf, Ok_bind in Hrun. unfold __priskv_del_key in *. congruence. }
  assert (evict_loop (S fuel) kv keynode vaddr valuelen retries = (
    n ← node kv old;
    '(found, kv) ← priskv_find_key kv (k_key n) (k_keylen n) PRISKV_KEY_MAX_TIMEOUT true (TimeVal 0 0);
    match found with
    | None => evict_loop fuel kv keynode vaddr valuelen (retries + 1)
    | Some (old, _) =>
        kv ← priskv_lru_del_key kv old;
        kv ← __priskv_del_key kv old;
        '(keynode, kv) ← try_slab kv keynode;
        '(vaddr, kv) ← try_buddy kv vaddr valuelen;
        evict_loop fuel kv keynode vaddr valuelen (retries + 1)
    end)) as ->.
  { simpl. destruct (Z.gtb_spec retries MAX_EVICT_RETRIES); [lia|]. rewrite Hev.
    destruct keynode, vaddr; try done. destruct Hnot. split; by eexists. }
  rewrite (node_Ok kv _ _ Hn), Ok_bind, Hf, Ok_bind. destruct (priskv_lru_del_key kv1 old) as [k|]; simpl in Hd; [|done].
  by rewrite Ok_bind, Hd, Ok_bind.
Qed.

(** The same eviction beside an allocation. *)
Lemma evict_beside kv p keynode vaddr kv' p' :
  beside kv p keynode vaddr → evict_coldest kv = Ok kv' → evict_coldest p = Ok p' → beside kv' p' keynode vaddr.
Proof.
  intros (He & Hk & Hv). set (sl := key_slab kv) in *. set (bd := value_buddy kv) in *. rewrite He.
  unfold evict_coldest. change (priskv_lru_evict (swap p sl bd)) with (priskv_lru_evict p).
  destruct (priskv_lru_evict p) as [old|].
  2: { intros [= <-] [= <-]. by split_and!. }
  unfold node. simpl. destruct (key_mem p !! old) as [n|]; [|done]. rewrite !Ok_bind, find_swap.
  intros Hr ([f p1] & Hf & (p2 & Hl & Hd)%bind_Ok)%bind_Ok. rewrite Hf, !Ok_bind, lru_del_swap, Hl, !Ok_bind in Hr.
  assert (key_slab p2 = key_slab p ∧ value_buddy p2 = value_buddy p) as [Hs2 Hb2] by (eapply find_del_allocs; eassumption).
  destruct (deref_swap p2 sl bd old p' kv' Hd Hr) as (sl' & bd' & -> & Hs & Hb). split; [done|].
  simpl. split; [intros Hx; apply Hs; rewrite Hs2; auto|intros Hx; apply Hb; rewrite Hb2; auto].
Qed.

(** Trying again beside [p]. *)
Lemma retry_beside kv p pins keynode vaddr valuelen keynode' kv1 vaddr' kv2 :
  being_set kv pins keynode vaddr valuelen → beside kv p keynode vaddr →
  try_slab kv keynode = Ok (keynode', kv1) → try_buddy kv1 vaddr valuelen = Ok (vaddr', kv2) →
  beside kv2 p keynode' vaddr' ∧ wanting p keynode' vaddr' valuelen.
Proof.
  intros [Hi Hreq] (He & Hk & Hv) Hs Hb.
  assert (max_key_length kv = max_key_length p) as Hm by (by rewrite He).
  assert (kv1 = swap p (key_slab kv1) (value_buddy kv) ∧ value_buddy kv1 = value_buddy kv ∧
    (keynode' = None → key_slab kv1 = key_slab p ∧
       al_alloc (key_slab p) (priskv_mem_key_size (max_key_length p)) = Ok (None, key_slab p))) as (He1 & Hb1 & Hk1).
  { destruct keynode as [a|]; simpl in Hs; [by injection Hs as <- <-|].
    destruct (inv_slab _ _ _ _ _ Hi) as (ms & Hrep & _).
    destruct (al_alloc_law _ _ _ Hrep (inv_request _ _ _ _ _ Hi)) as [(a & len & sl & Ha & _)|Ha];
      rewrite Ha in Hs; injection Hs as <- <-; (split; [by rewrite He|split; [done|]]); [done|].
    intros _. rewrite <- Hk, <- Hm by done. done. }
  assert (al_rep_some : ∃ mb, al_rep (value_buddy kv) mb) by (destruct (inv_values _ _ _ _ _ Hi) as (mb & ? & _); by exists mb).
  assert (kv2 = swap p (key_slab kv1) (value_buddy kv2) ∧ key_slab kv2 = key_slab kv1 ∧
    (vaddr' = None → value_buddy kv2 = value_buddy p ∧ al_alloc (value_buddy p) valuelen = Ok (None, value_buddy p))) as (He2 & Hs2 & Hv2).
  { destruct vaddr as [v|]; simpl in Hb; [by injection Hb as <- <-; rewrite Hb1|]. destruct al_rep_some as [mb Hrep].
    rewrite Hb1 in Hb. destruct (al_alloc_law _ _ _ Hrep Hreq) as [(a & len & bd & Ha & _)|Ha];
      rewrite Ha in Hb; injection Hb as <- <-; (split; [by rewrite He1|split; [done|]]); [done|].
    intros _. simpl. rewrite <- Hv by done. done. }
  split; [|split; naive_solver].
  split; [by rewrite Hs2|]. rewrite Hs2. split; naive_solver.
Qed.

(** The loop stops with both allocations, or with nothing left to evict, or
    after [MAX_EVICT_RETRIES + 1] evictions; and it evicts only while the node or
    the block is not to be had. *)
Lemma evict_loop_spec fuel : ∀ kv p pins keynode vaddr valuelen retries,
  being_set kv pins keynode vaddr valuelen → inv p pins → beside kv p keynode vaddr → wanting p keynode vaddr valuelen →
  0 <= retries → MAX_EVICT_RETRIES + 1 - retries <= Z.of_nat fuel →
  ∃ keynode' vaddr' kv' j,
    evict_loop fuel kv keynode vaddr valuelen retries = Ok (keynode', vaddr', kv') ∧
    being_set kv' pins keynode' vaddr' valuelen ∧ evicted kv kv' ∧
    length (lru_head kv) = (j + length (lru_head kv'))%nat ∧
    (∀ i, (i < j)%nat → ∃ q, evict_times i p = Ok q ∧ fits q valuelen = false) ∧
    ((is_Some keynode' ∧ is_Some vaddr') ∨
     (∃ q, evict_times j p = Ok q ∧ fits q valuelen = false) ∧
     (lru_head kv' = [] ∨ Z.of_nat j >= MAX_EVICT_RETRIES + 1 - retries)).
Proof.
  induction fuel as [|fuel IH]; intros kv p pins keynode vaddr valuelen retries Hbs Hp Hbe Hwa Hr Hf.
  all: destruct (decide (is_Some keynode ∧ is_Some vaddr)) as [Hall|Hnot];
    [pose proof Hbs as [Hi _]; exists keynode, vaddr, kv, 0%nat; split;
       [by destruct Hall as [[a ->] [v ->]]|split_and!; [done|by eapply evicted_refl|done|lia|by left]]|].
  all: pose proof (wanting_fits _ _ _ _ Hwa Hnot) as Hno.
  { pose proof Hbs as [Hi _]. exists keynode, vaddr, kv, 0%nat. split.
    - destruct keynode, vaddr; simpl; try (rewrite (proj2 (Z.gtb_lt retries MAX_EVICT_RETRIES)) by lia; done).
      destruct Hnot. split; by eexists.
    - split_and!; [done|by eapply evicted_refl|done|lia|]. right. split; [by exists p|]. right. lia. }
  destruct (decide (MAX_EVICT_RETRIES < retries)) as [Hgt|Hle].
  { pose proof Hbs as [Hi _]. exists keynode, vaddr, kv, 0%nat. split.
    - simpl. rewrite (proj2 (Z.gtb_lt retries MAX_EVICT_RETRIES)) by lia. by destruct keynode, vaddr.
    - split_and!; [done|by eapply evicted_refl|done|lia|]. right. split; [by exists p|]. right. lia. }
  destruct (priskv_lru_evict kv) as [old|] eqn:Hev.
  - pose proof Hbs as [Hi Hreq].
    destruct (evict_coldest_run kv pins _ _ old Hi Hev) as (kv1 & Hrun & Hi1 & He1 & Hlen).
    assert (priskv_lru_evict p = Some old) as Hevp by (destruct Hbe as (Hb & _); by rewrite Hb in Hev).
    destruct (evict_coldest_run p pins _ _ old Hp Hevp) as (p1 & Hrunp & Hip1 & _).
    pose proof (evict_beside _ _ _ _ _ _ Hbe Hrun Hrunp) as Hbe1.
    rewrite (evict_loop_turn fuel kv pins keynode vaddr valuelen retries old kv1) by (done || lia).
    destruct (retry_alloc kv1 pins keynode vaddr valuelen) as (kn & va & kv2 & kv3 & Hs & Hb & Hbs3 & He3 & Hl3 & _).
    { split; [done|]. by apply He1. }
    rewrite Hs, Ok_bind, Hb, Ok_bind.
    destruct (retry_beside kv1 p1 pins keynode vaddr valuelen kn kv2 va kv3) as [Hbe3 Hwa3]; [|done..|].
    { split; [done|]. by apply He1. }
    destruct (IH kv3 p1 pins kn va valuelen (retries + 1) Hbs3 Hip1 Hbe3 Hwa3) as (kn' & va' & kv' & j & -> & Hbs' & He' & Hj & Hmin & Hend);
      [lia|lia|].
    exists kn', va', kv', (S j). split; [done|]. split_and!; try done.
    + eapply evicted_trans; [done|]. by eapply evicted_trans.
    + rewrite Hlen, <- Hl3, Hj. done.
    + intros [|i] Hij; [by exists p|]. simpl. rewrite Hrunp, Ok_bind. apply Hmin. lia.
    + destruct Hend as [?|[(q & Hq & Hfq) Hend]]; [by left|right]. split.
      * exists q. simpl. by rewrite Hrunp, Ok_bind.
      * destruct Hend as [?|?]; [by left|right; lia].
  - pose proof Hbs as [Hi _]. exists keynode, vaddr, kv, 0%nat. split.
    + simpl. destruct (Z.gtb_spec retries MAX_EVICT_RETRIES); [lia|].
      rewrite Hev. by destruct keynode, vaddr.
    + split_and!; [done|by eapply evicted_refl|done|lia|]. right. split; [by exists p|]. left.
      unfold priskv_lru_evict, list_tail in Hev. by apply last_None in Hev.
Qed.

(** Linking a new node. *)
Section insert.
Context (kv : priskv_kv SL BD) (pins : Z → Z) (a v valuelen timeout : Z) (now : timeval)
  (key : list Z) (Hi : kv_inv kv pins [] (Some a) (Some (v, valuelen)))
  (Hvk : valid_key key) (Hfit : klen key <= max_key_length kv)
  (Hno : store kv !! key = None).

Definition linked_node : priskv_key :=
  with_refcnt (new_node kv key (klen key) v valuelen timeout now) 1.

Lemma linked_node_key : k_key linked_node = key.
Proof. simpl. unfold klen. by rewrite Nat2Z.id, take_ge. Qed.

Lemma linked_node_val : priskv_value_to_pointer kv linked_node = v.
Proof.
  destruct (inv_values _ _ _ _ _ Hi) as (mb & Hrep & Hown).
  destruct (own_extra _ _ _ Hown v valuelen eq_refl) as [(len & Hv & _) _].
  pose proof (al_area_law _ _ _ _ Hrep Hv) as [? ?].
  unfold priskv_value_to_pointer. simpl. unfold priskv_pointer_to_value.
  rewrite (inv_base _ _ _ _ _ Hi), u64_small by lia. lia.
Qed.

Lemma fresh_node : key_mem kv !! a = None ∧ a ∉ lru_head kv ∧ pins a = 0.
Proof.
  pose proof (inv_extra _ _ _ _ _ Hi a eq_refl) as Hn. split_and!; [done| |].
  - intros Ha. destruct (lru_in_mem _ _ _ _ _ Hi a Ha) as [? ?]. congruence.
  - destruct (inv_pins _ _ _ _ _ Hi a) as [? Hp]. destruct (decide (0 < pins a)); [|lia].
    destruct Hp as [? ?]; [done|congruence].
Qed.

(** The state after the node is written, referenced and linked. *)
Definition inserted (l : list Z) : priskv_kv SL BD :=
  set_lists (set_node kv a linked_node)
    (<[Z.to_nat (slot kv key) := l ++ [a]]> (hash_heads kv)) (a :: lru_head kv).

Lemma insert_run :
  ∃ l, hash_heads kv !! Z.to_nat (slot kv key) = Some l ∧
    (let kv1 := set_node kv a (new_node kv key (klen key) v valuelen timeout now) in
     kv2 ← priskv_keynode_ref kv1 a;
     kv3 ← priskv_lru_access kv2 a false;
     priskv_insert_keynode kv3 a) = Ok (inserted l).
Proof.
  destruct Hvk as [Hb Hlt].
  destruct (hash_index_spec _ _ _ _ _ Hi key (klen key) Hb eq_refl Hlt) as (Hh & Hs & l & Hr & Hl).
  exists l. split; [done|]. unfold priskv_keynode_ref, node. simpl.
  rewrite lookup_insert_eq, Ok_bind. change (u32 (0 + 1)) with 1. fold linked_node.
  unfold priskv_lru_access, node. simpl. rewrite lookup_insert_eq, Ok_bind. simpl.
  unfold priskv_insert_keynode, node. simpl. rewrite lookup_insert_eq, Ok_bind.
  pose proof linked_node_key as Hkk. simpl in Hkk |- *. rewrite Hkk.
  unfold hash_index in *. simpl in *. rewrite Hh, Ok_bind, Hr, Ok_bind.
  pose proof (lookup_lt_Some _ _ _ Hl). rewrite wr_Ok by lia. simpl.
  unfold inserted, set_lists, set_node, set_mem, set_lru, set_heads. simpl.
  by rewrite insert_insert_eq.
Qed.

Context (l : list Z) (Hl : hash_heads kv !! Z.to_nat (slot kv key) = Some l).

Lemma linked_inserted : linked (inserted l) ≡ₚ a :: linked kv.
Proof.
  destruct (concat_insert _ _ _ Hl) as (rest & Hc & Hc'). unfold linked. simpl.
  rewrite Hc', Hc. solve_Permutation.
Qed.

Lemma inserted_values mb :
  owns_values kv mb (Some (v, valuelen)) → owns_values (inserted l) mb None.
Proof.
  intros Hown. destruct (own_extra _ _ _ Hown v valuelen eq_refl) as [Hv Hxv].
  pose proof linked_node_val as Hval.
  destruct Hown as [own_live0 own_inj0 _ own_all0]. split; simpl.
  - intros x n [[<- <-]|[Hne Hn]]%lookup_insert_Some; [|by eapply own_live0].
    change (∃ len, mb !! priskv_value_to_pointer kv linked_node = Some len ∧
              0 <= valuelen <= len). by rewrite Hval.
  - intros x y n m [[<- <-]|[? Hn]]%lookup_insert_Some [[<- <-]|[? Hm]]%lookup_insert_Some He;
      [done| | |by eapply own_inj0].
    + change (priskv_value_to_pointer kv linked_node = priskv_value_to_pointer kv m) in He.
      destruct (Hxv y m Hm). congruence.
    + change (priskv_value_to_pointer kv n = priskv_value_to_pointer kv linked_node) in He.
      destruct (Hxv x n Hn). congruence.
  - done.
  - intros w Hw. right. destruct (own_all0 w Hw) as [(need & [= <- <-])|(x & n & Hn & Hx)].
    + exists a, linked_node. by rewrite lookup_insert_eq.
    + exists x, n. rewrite lookup_insert_ne; [done|].
      intros <-. pose proof fresh_node as [? _]. congruence.
Qed.

Lemma inserted_inv : kv_inv (inserted l) pins [] None None.
Proof.
  destruct fresh_node as (Hna & Hla & Hpa). pose proof linked_node_key as Hkk.
  pose proof linked_inserted as Hlk. destruct Hvk as [Hb Hlt].
  assert (∀ x, x ∈ linked kv → x ≠ a) as Hne.
  { intros x Hx ->. by apply Hla, (lru_linked _ _ _ _ _ Hi). }
  assert (∀ x, is_Some (<[a := linked_node]> (key_mem kv) !! x) ↔
               x = a ∨ is_Some (key_mem kv !! x)) as Hsome.
  { intros x. rewrite lookup_insert_is_Some'. naive_solver. }
  assert (∀ x n, x ∈ linked kv → key_mem kv !! x = Some n → k_key n ≠ key) as Hfresh.
  { intros x n Hx Hn Hk. apply (store_None _ _ _ _ _ _ Hi Hno x). split; eauto. }
  pose proof (linked_in_mem _ _ _ _ _ Hi) as Hlm.
  pose proof (lru_linked _ _ _ _ a Hi) as Hlla. destruct Hi. split; simpl.
  - by rewrite length_insert.
  - done.
  - by apply NoDup_cons.
  - rewrite Hlk, app_nil_r. by rewrite inv_lists, app_nil_r.
  - intros i m x Hm Hx. destruct (decide (i = Z.to_nat (slot kv key))) as [->|Hni].
    + rewrite list_lookup_insert_eq in Hm by (by eapply lookup_lt_Some). injection Hm as <-.
      apply elem_of_app in Hx as [Hx|Hx%list_elem_of_singleton].
      * destruct (inv_place _ _ _ Hl Hx) as (n & Hn & Hs). exists n.
        rewrite lookup_insert_ne; [done|]. intros <-. congruence.
      * subst x. exists linked_node. rewrite lookup_insert_eq. split; [done|].
        rewrite Hkk. unfold slot. simpl. rewrite Z2Nat.id; [done|].
        apply Z.mod_pos_bound. lia.
    + rewrite list_lookup_insert_ne in Hm by done.
      destruct (inv_place _ _ _ Hm Hx) as (n & Hn & Hs). exists n.
      rewrite lookup_insert_ne; [done|]. intros <-. congruence.
  - by intros x Hx%elem_of_nil.
  - intros x y n m Hx Hy Hn Hm Hk. rewrite Hlk in Hx, Hy. apply elem_of_cons in Hx, Hy.
    apply lookup_insert_Some in Hn as [[<- <-]|[? Hn]], Hm as [[<- <-]|[? Hm]]; try done.
    + rewrite Hkk in Hk. destruct Hy as [?|Hy]; [congruence|]. by destruct (Hfresh y m).
    + rewrite Hkk in Hk. destruct Hx as [?|Hx]; [congruence|]. by destruct (Hfresh x n).
    + destruct Hx, Hy; try congruence. eauto.
  - intros x n [[<- <-]|[Hxa Hn]]%lookup_insert_Some.
    + split; [|split; [|simpl; lia]].
      * unfold node_ok. rewrite Hkk. split_and!; done.
      * rewrite Hpa, bool_decide_true by set_solver. done.
    + destruct (inv_node x n Hn) as (? & Hr & ?). split_and!; try done; try lia. rewrite Hr.
      do 2 f_equal. apply bool_decide_ext. rewrite elem_of_cons. naive_solver.
  - intros x. rewrite Hsome. destruct (inv_pins x). split; [done|]. auto.
  - destruct inv_slab as (ms & Hrep & Hms). exists ms. split; [done|]. intros x.
    rewrite Hms, Hsome. naive_solver.
  - done.
  - destruct inv_values as (mb & Hrep & Hown). exists mb. split; [done|].
    by apply inserted_values.
  - done.
  - done.
Qed.

Lemma store_inserted :
  store (inserted l) = <[key := entry_of kv a linked_node]> (store kv).
Proof.
  pose proof linked_inserted as Hlk. pose proof linked_node_key as Hkk.
  destruct fresh_node as (Hna & _). apply map_eq. intros k. apply option_eq. intros e.
  rewrite lookup_insert_Some, (lookup_store _ _ _ _ _ _ _ inserted_inv),
    (lookup_store _ _ _ _ _ _ _ Hi).
  setoid_rewrite Hlk. setoid_rewrite elem_of_cons. simpl. split.
  - intros (x & n & Hx & [[<- <-]|[Hne Hn]]%lookup_insert_Some & Hk & ->).
    + left. by rewrite <- Hk, Hkk.
    + right. destruct Hx as [|Hx]; [congruence|]. split; [|by exists x, n].
      intros <-. apply (store_None _ _ _ _ _ _ Hi Hno x). split; eauto.
  - intros [[<- <-]|(Hne & x & n & Hx & Hn & Hk & ->)].
    + exists a, linked_node. rewrite lookup_insert_eq. split_and!; try done. by left.
    + exists x, n. rewrite lookup_insert_ne by (intros <-; congruence).
      split_and!; try done. by right.
Qed.
End insert.

(** Giving back what was allocated when SET fails. *)
Lemma set_key_out_spec kv pins keynode vaddr valuelen :
  being_set kv pins keynode vaddr valuelen →
  ∃ kv', set_key_out kv keynode vaddr = Ok kv' ∧ inv kv' pins ∧ same_conf kv kv' ∧
    hash_heads kv' = hash_heads kv ∧ lru_head kv' = lru_head kv ∧ key_mem kv' = key_mem kv.
Proof.
  intros [Hi _].
  assert (∃ kv1, match vaddr with
      | Some v => bd ← al_free (value_buddy kv) v; Ok (set_mem kv (key_slab kv) bd (key_mem kv))
      | None => Ok kv end = Ok kv1 ∧ kv_inv kv1 pins [] keynode None ∧ same_conf kv kv1 ∧
      hash_heads kv1 = hash_heads kv ∧ lru_head kv1 = lru_head kv ∧ key_mem kv1 = key_mem kv)
    as (kv1 & Heq & Hi1 & Hc1 & Hh1 & Hl1 & Hm1).
  { destruct vaddr as [v|]; simpl in *; [|by exists kv].
    destruct (inv_values _ _ _ _ _ Hi) as (mb & Hrep & Hown).
    destruct (own_extra _ _ _ Hown v valuelen eq_refl) as [(len & Hv & _) Hxv].
    destruct (al_free_law _ _ _ _ Hrep Hv) as (bd & -> & Hrep' & Hk). simpl.
    eexists. split; [done|]. split; [|split_and!; done].
    destruct Hi. split; simpl; try done.
    - exists (delete v mb). split; [done|]. destruct Hown. split; simpl.
      + intros x n Hn. destruct (own_live x n Hn) as (l & ? & ?). exists l. split; [|done].
        rewrite lookup_delete_ne; [done|]. intros He. by apply (Hxv x n Hn).
      + done.
      + done.
      + intros w [Hwv Hw]%lookup_delete_is_Some.
        destruct (own_all w Hw) as [(? & [= ? ?])|?]; [done|by right].
    - destruct Hk as [-> _]. done. }
  unfold set_key_out. rewrite Heq, Ok_bind. destruct keynode as [a|]; [|by exists kv1].
  destruct (inv_slab _ _ _ _ _ Hi1) as (ms & Hrep & Hms).
  destruct (Hms a) as [_ Hlive]. destruct Hlive as [len Hlen]; [by right|].
  destruct (al_free_law _ _ _ _ Hrep Hlen) as (sl & -> & Hrep' & Hk). simpl.
  eexists. split; [done|]. split.
  - destruct Hi1. split; simpl; try done.
    + exists (delete a ms). split; [done|]. intros x. rewrite lookup_delete_is_Some, Hms.
      split; [naive_solver|]. intros [Hx|?]; [|done]. split; [|by left]. intros <-.
      rewrite (inv_extra a eq_refl) in Hx. by destruct Hx.
    + by eapply inv_values_kept.
    + by apply Hk.
  - split; [|by split_and!]. etrans; [apply Hc1|]. by split_and!.
Qed.

(** The LRU list without the key that is set again. *)
Definition lru_without kv (key : list Z) : list Z :=
  match store kv !! key with
  | Some e => filter (λ x, x ≠ e_node e) (lru_head kv)
  | None => lru_head kv
  end.

(** The other keys whose nodes are in [lru]. *)
Definition survivors kv (key : list Z) (lru : list Z) : gmap (list Z) entry :=
  filter (λ ke, e_node ke.2 ∈ lru) (delete key (store kv)).

Definition expiry (timeout : Z) (now : timeval) : timeval :=
  if timeout <? PRISKV_KEY_MAX_TIMEOUT then priskv_time_add_ms now timeout else TimeVal (-1) (-1).

(** The store without the old value of the key. *)
Definition without_key kv (key : list Z) (now : timeval) : res (priskv_kv SL BD) :=
  '(old, kv) ← priskv_find_key kv key (klen key) PRISKV_KEY_MAX_TIMEOUT true now;
  match old with
  | Some (a, _) => kv ← priskv_lru_del_key kv a; __priskv_del_key kv a
  | None => Ok kv
  end.

(** Without the old value and the [i] coldest of the other keys there is still no
    room. *)
Definition no_room kv (key : list Z) (valuelen : Z) (now : timeval) (i : nat) : Prop :=
  ∃ kv1 kvi, without_key kv key now = Ok kv1 ∧ evict_times i kv1 = Ok kvi ∧ fits kvi valuelen = false.

(** What SET promises: the [j] coldest of the other keys are evicted, each because
    there was no room before; the rest is left as it was. On success the key is new
    at the hot end; on failure there is still no room, and nothing is left to evict
    or [MAX_EVICT_RETRIES + 1] keys were evicted. *)
Definition set_result kv kv' (key : list Z) (valuelen timeout : Z) (now : timeval)
    (st : priskv_resp_status) (kn out : option Z) : Prop :=
  ∃ j, let left := take (length (lru_without kv key) - j) (lru_without kv key) in
    (j <= length (lru_without kv key))%nat ∧ (∀ i, (i < j)%nat → no_room kv key valuelen now i) ∧
    ((∃ a v, st = PRISKV_RESP_STATUS_OK ∧ kn = Some a ∧ out = Some v ∧
       lru_head kv' = a :: left ∧
       store kv' = <[key := mk_entry a v valuelen (expiry timeout now) true]>
                     (survivors kv key left)) ∨
    (st = PRISKV_RESP_STATUS_NO_MEM ∧ kn = None ∧ out = None ∧
       lru_head kv' = left ∧ store kv' = survivors kv key left ∧ no_room kv key valuelen now j ∧
       (left = [] ∨ Z.of_nat j >= MAX_EVICT_RETRIES + 1))).

(** The first step of SET: the old value goes. *)
Lemma set_key_old kv pins key now :
  inv kv pins → valid_key key →
  ∃ old kv0 kv1, priskv_find_key kv key (klen key) PRISKV_KEY_MAX_TIMEOUT true now = Ok (old, kv0) ∧
    match old with
    | Some (a, _) => kv ← priskv_lru_del_key kv0 a; __priskv_del_key kv a
    | None => Ok kv0
    end = Ok kv1 ∧
    inv kv1 pins ∧ same_conf kv kv1 ∧ store kv1 = delete key (store kv) ∧
    lru_head kv1 = lru_without kv key.
Proof.
  intros Hi Hk. pose proof (find_pop kv pins None None key now PRISKV_KEY_MAX_TIMEOUT Hi Hk) as Hf.
  unfold lru_without. destruct (store kv !! key) as [e|] eqn:He.
  - destruct Hf as (kv0 & kv1 & -> & Hd & Hi1 & Hc & Hl & _ & _ & Hst).
    exists (Some (e_node e, false)), kv0, kv1. by split_and!.
  - rewrite Hf. exists None, kv, kv. split_and!; try done. by rewrite delete_id.
Qed.

Lemma evicted_survivors kv kv1 kv2 key :
  store kv1 = delete key (store kv) → evicted kv1 kv2 →
  store kv2 = survivors kv key (lru_head kv2).
Proof.
  intros Hst (_ & _ & Hs). apply map_eq. intros k. apply option_eq. intros e.
  unfold survivors. rewrite map_lookup_filter_Some, <- Hst, Hs. done.
Qed.

(** The failing end of SET. *)
Lemma set_key_fails kv kv4 pins kn va key valuelen timeout now j :
  being_set kv4 pins kn va valuelen → same_conf kv kv4 →
  (j <= length (lru_without kv key))%nat → lru_head kv4 = take (length (lru_without kv key) - j) (lru_without kv key) →
  store kv4 = survivors kv key (lru_head kv4) →
  (∀ i, (i <= j)%nat → no_room kv key valuelen now i) →
  (lru_head kv4 = [] ∨ Z.of_nat j >= MAX_EVICT_RETRIES + 1) →
  ∃ st kn' out kv', (kv5 ← set_key_out kv4 kn va; Ok (PRISKV_RESP_STATUS_NO_MEM, None, None, kv5))
      = Ok (st, kn', out, kv') ∧
    inv kv' pins ∧ same_conf kv kv' ∧ set_result kv kv' key valuelen timeout now st kn' out.
Proof.
  intros Hbs Hc Hle Hj Hst Hno Hend.
  destruct (set_key_out_spec _ _ _ _ _ Hbs) as (kv5 & -> & Hi5 & Hc5 & Hh5 & Hl5 & Hm5).
  simpl. do 4 eexists. split; [done|]. split; [done|]. split; [by etrans|].
  exists j. split; [done|]. split; [intros i Hi; apply Hno; lia|]. right. rewrite <- Hj. split_and!; try done.
  - rewrite <- Hst. eapply store_ext; [apply Hbs|apply Hi5| |].
    + intros x. unfold linked. by rewrite Hh5.
    + intros x n Hx Hn. exists n. rewrite Hm5. split_and!; try done.
      unfold entry_of, priskv_value_to_pointer. by destruct Hc5 as (_ & _ & _ & -> & _).
  - by apply Hno.
Qed.

(** What is left of a list from which [j] were taken at the end. *)
Lemma evicted_left (l l' : list Z) i j : l' = take i l → length l = (j + length l')%nat → l' = take (length l - j) l.
Proof.
  intros -> Hlen. rewrite length_take in Hlen. destruct (decide (i <= length l)%nat) as [Hle|Hgt].
  - rewrite Nat.min_l in Hlen by done. f_equal. lia.
  - rewrite (take_ge l i) by lia. rewrite take_ge by lia. done.
Qed.

Lemma set_spec kv pins key valuelen timeout now :
  inv kv pins → valid_key key → klen key <= max_key_length kv →
  al_request (value_buddy kv) valuelen →
  ∃ st kn out kv', priskv_set_key kv key (klen key) valuelen timeout now = Ok (st, kn, out, kv') ∧
    inv kv' pins ∧ same_conf kv kv' ∧ set_result kv kv' key valuelen timeout now st kn out.
Proof.
  intros Hi Hk Hfit Hreq. unfold priskv_set_key.
  destruct (set_key_old kv pins key now Hi Hk) as (old & kv0 & kv1 & Hold0 & Hold & Hi1 & Hc1 & Hst1 & Hl1).
  assert (without_key kv key now = Ok kv1) as Hwo by (unfold without_key; by rewrite Hold0, Ok_bind).
  rewrite Hold0, Ok_bind, Hold, Ok_bind.
  assert (being_set kv1 pins None None valuelen) as Hbs1 by (split; [done|by apply Hc1]).
  destruct (retry_alloc kv1 pins None None valuelen Hbs1) as (kn & va & kv2 & kv3 & Hs & Hb & Hbs3 & He3 & Hl3 & _).
  rewrite Hs, Ok_bind, Hb, Ok_bind.
  destruct (retry_beside kv1 kv1 pins None None valuelen kn kv2 va kv3 Hbs1) as [Hbe Hwa]; [by split_and!; destruct kv1|done|done|].
  destruct (evict_loop_spec EVICT_FUEL kv3 kv1 pins kn va valuelen 0 Hbs3 Hi1 Hbe Hwa)
    as (kn' & va' & kv4 & j & -> & Hbs4 & He4 & Hlen & Hmin & Hend); [lia|unfold EVICT_FUEL, MAX_EVICT_RETRIES; lia|].
  rewrite Ok_bind. pose proof (evicted_trans _ _ _ He3 He4) as He14.
  pose proof (evicted_survivors kv kv1 kv4 key Hst1 He14) as Hst4.
  destruct He14 as (Hc14 & [n Hn] & _). rewrite Hl1 in Hn. rewrite Hl3, Hl1 in Hlen.
  pose proof (evicted_left _ _ _ _ Hn Hlen) as Hj. clear n Hn.
  assert (∀ i, (i < j)%nat → no_room kv key valuelen now i) as Hno.
  { intros i Hij. destruct (Hmin i Hij) as (q & Hq & Hfq). by exists kv1, q. }
  assert (same_conf kv kv4) as Hc4 by (by etrans).
  destruct kn' as [a|], va' as [v|].
  1: { rewrite (proj2 (Z.ltb_ge _ _)).
       2: { destruct Hc4 as (_ & _ & -> & _). pose proof (inv_conf _ _ _ _ _ Hi).
            unfold priskv_mem_key_size, u16, sizeof_priskv_key. rewrite Z.mod_small; lia. }
       destruct Hbs4 as [Hi4 _]. simpl in Hi4.
       assert (store kv4 !! key = None) as Hnone.
       { rewrite Hst4. apply map_lookup_filter_None. left. by rewrite lookup_delete_eq. }
       destruct (insert_run kv4 pins a v valuelen timeout now key Hi4 Hk) as (l & Hl & Hrun).
       simpl in Hrun.
       set (kvn := set_node kv4 a (new_node kv4 key (klen key) v valuelen timeout now)) in *.
       destruct (priskv_keynode_ref kvn a) as [k1|]; simpl in Hrun |- *; [|done].
       destruct (priskv_lru_access k1 a false) as [k2|]; simpl in Hrun |- *; [|done].
       rewrite Hrun. simpl. do 4 eexists. split; [done|].
       assert (klen key <= max_key_length kv4) by (by destruct Hc4 as (_ & _ & -> & _)).
       split; [by eapply (inserted_inv kv4)|]. split; [done|].
       exists j. split; [lia|]. split; [done|]. left. exists a, v. split_and!; try done.
       - simpl. by rewrite Hj.
       - rewrite (store_inserted kv4 pins) by done. rewrite Hst4, Hj. f_equal.
         unfold entry_of. by rewrite (linked_node_val kv4 pins a). }
  all: destruct Hend as [[[? ?] [? ?]]|[(q & Hq & Hfq) Hend]]; [done|].
  all: apply (set_key_fails kv kv4 pins _ _ key valuelen timeout now j Hbs4 Hc4 ltac:(lia) Hj Hst4); [|by rewrite Z.sub_0_r in Hend].
  all: intros i Hij; destruct (decide (i = j)) as [->|]; [by exists kv1, q|apply Hno; lia].
Qed.
End ops.
