(* ===== verification/KvSweep.v ===== *)
(** * The key-value store: the loops over all buckets

    FLUSH and the expiry routine remove, bucket by bucket, the keys a predicate
    selects; KEYS lists them. *)

From S2P Require Import Prelude Utils Crc Lists Protocol Memory Alloc KvModel KvInv KvOps.

Section sweep.
Context {SL BD : Type} `{AllocatorLaws SL} `{AllocatorLaws BD}.
Implicit Types kv : priskv_kv SL BD.

(** [drop key e]: the sweep removes this entry. *)
Context (drop : list Z → entry → bool).

(** The sweep has done the buckets before [i] and, of bucket [i], all nodes but
    [rest]. *)
Definition swept kv0 kv (i : Z) (rest : list Z) : Prop :=
  ∀ key e, store kv !! key = Some e ↔
    store kv0 !! key = Some e ∧
    (drop key e = false ∨ i < slot kv0 key ∨ (slot kv0 key = i ∧ e_node e ∈ rest)).

Lemma swept_skip kv0 kv pins limbo a rest i n :
  kv_inv kv pins limbo None None → swept kv0 kv i (a :: rest) →
  key_mem kv !! a = Some n → drop (k_key n) (entry_of kv a n) = false →
  swept kv0 kv i rest.
Proof.
  intros Hi Hsw Hn Hd key e. split.
  - intros He. pose proof (proj1 (Hsw key e) He) as [Hin0 Hc]. split; [done|].
    destruct Hc as [?|[?|[Hs Hin]]]; [auto..|].
    apply elem_of_cons in Hin as [Ha|?]; [|auto]. left.
    destruct (store_holds _ _ _ _ _ _ _ Hi He) as [_ (m & Hm & Hk & ->)].
    simpl in *. subst a. rewrite Hn in Hm. injection Hm as <-. by rewrite <- Hk.
  - intros [Hin0 Hc]. apply Hsw. split; [done|]. destruct Hc as [?|[?|[? ?]]]; [auto..|].
    right. right. split; [done|]. by right.
Qed.

Lemma swept_drop kv0 kv kv' pins limbo key e a rest i :
  kv_inv kv pins limbo None None → swept kv0 kv i (a :: rest) →
  store kv !! key = Some e → e_node e = a → a ∉ rest → drop key e = true → slot kv0 key = i →
  store kv' = delete key (store kv) → swept kv0 kv' i rest.
Proof.
  intros Hi Hsw He Ha Har Hd Hs Hst k x. rewrite Hst, lookup_delete_Some, (Hsw k x). split.
  - intros (Hne & Hin0 & Hc). split; [done|]. destruct Hc as [?|[?|[? Hin]]]; [auto..|].
    apply elem_of_cons in Hin as [Hx|?]; [exfalso|auto].
    assert (store kv !! k = Some x) as Hk.
    { apply Hsw. split; [done|]. right. right. split; [done|]. rewrite Hx. set_solver. }
    destruct (store_holds _ _ _ _ _ _ _ Hi Hk) as [Hh1 _].
    destruct (store_holds _ _ _ _ _ _ _ Hi He) as [Hh2 _].
    destruct Hh1 as [_ (n1 & Hn1 & Hk1)], Hh2 as [_ (n2 & Hn2 & Hk2)].
    rewrite Hx in Hn1. rewrite Ha in Hn2. congruence.
  - intros [Hin0 Hc]. assert (store kv0 !! key = Some e) as Hin0e by (by apply Hsw in He as [? _]).
    assert (key ≠ k) as Hne.
    { intros <-. rewrite Hin0e in Hin0. injection Hin0 as <-.
      destruct Hc as [?|[?|[? Hin]]]; [congruence|lia|]. rewrite Ha in Hin. done. }
    split_and!; try done. destruct Hc as [?|[?|[? ?]]]; [auto..|]. right. right.
    split; [done|]. by right.
Qed.

(** Moving on to the next bucket. *)
Lemma swept_next kv0 kv pins i l :
  kv_inv kv0 pins [] None None → 0 <= i → hash_heads kv0 !! Z.to_nat i = Some l →
  swept kv0 kv (i - 1) [] → swept kv0 kv i l.
Proof.
  intros Hi Hi0 Hl Hsw key e. rewrite (Hsw key e). split; intros [Hin0 Hc]; (split; [done|]).
  - destruct Hc as [?|[?|[_ Hin%elem_of_nil]]]; [by left|right|done].
    destruct (decide (slot kv0 key = i)) as [Hs|]; [right|left; lia]. split; [done|].
    destruct (store_holds _ _ _ _ _ _ _ Hi Hin0) as [Hh _].
    apply (holds_slot _ _ _ _ _ Hi) in Hh as (l' & Hl' & Hin). rewrite Hs in Hl'. congruence.
  - destruct Hc as [?|[?|[Hs _]]]; [by left|right; left; lia|right; left; lia].
Qed.

Lemma swept_start kv pins : kv_inv kv pins [] None None → swept kv kv (-1) [].
Proof.
  intros Hi key e. split; [|naive_solver]. intros He. split; [done|]. right. left.
  unfold slot. pose proof (inv_buckets _ _ _ _ _ Hi) as [? _].
  pose proof (Z.mod_pos_bound (Crc32.crc_ref key) (bucket_count kv)). lia.
Qed.

(** After the last bucket only the entries to keep are left. *)
Lemma swept_done kv0 kv pins :
  kv_inv kv0 pins [] None None → swept kv0 kv (bucket_count kv0 - 1) [] →
  store kv = filter (λ ke, drop ke.1 ke.2 = false) (store kv0).
Proof.
  intros Hi Hsw. apply map_eq. intros key. apply option_eq. intros e.
  rewrite (Hsw key e), map_lookup_filter_Some. simpl. split.
  - intros [Hin0 Hc]. split; [done|]. destruct Hc as [?|[Hlt|[_ Hin%elem_of_nil]]]; [done| |done].
    pose proof (inv_buckets _ _ _ _ _ Hi) as [? _].
    pose proof (Z.mod_pos_bound (Crc32.crc_ref key) (bucket_count kv0)). unfold slot in Hlt. lia.
  - intros [? ?]. auto.
Qed.
End sweep.

Section loops.
Context {SL BD : Type} `{AllocatorLaws SL} `{AllocatorLaws BD}.
Implicit Types kv : priskv_kv SL BD.

Notation inv kv pins := (kv_inv kv pins [] None None).

Definition ssize kv : Z := Z.of_nat (size (store kv)).

Lemma ssize_delete kv kv' key e :
  store kv !! key = Some e → store kv' = delete key (store kv) → ssize kv' = ssize kv - 1.
Proof.
  intros He Hst. unfold ssize. rewrite Hst, map_size_delete_Some by (by eexists).
  assert (size (store kv) ≠ 0%nat); [|lia]. apply map_size_non_empty_iff.
  intros Hem. by rewrite Hem, lookup_empty in He.
Qed.

(** Facts about a node of bucket [i]. *)
Lemma bucket_node kv pins limbo i l a :
  kv_inv kv pins limbo None None → hash_heads kv !! Z.to_nat i = Some l → 0 <= i → a ∈ l →
  ∃ n, key_mem kv !! a = Some n ∧ slot kv (k_key n) = i ∧ holds kv (k_key n) a ∧
    store kv !! k_key n = Some (entry_of kv a n) ∧
    take (Z.to_nat (k_keylen n)) (k_key n) = k_key n ∧ k_keylen n <= max_key_length kv ∧
    0 <= k_keylen n.
Proof.
  intros Hi Hl Hi0 Ha. destruct (inv_place _ _ _ _ _ Hi _ _ _ Hl Ha) as (n & Hn & Hs).
  rewrite Z2Nat.id in Hs by done. exists n.
  assert (a ∈ linked kv) as Hlk by (apply elem_of_concat; eauto).
  destruct (inv_node _ _ _ _ _ Hi a n Hn) as ((_ & Hkl & Hmax) & _).
  split_and!; try done.
  - split; eauto.
  - apply (lookup_store _ _ _ _ _ _ _ Hi). eauto 10.
  - by rewrite take_ge by lia.
  - lia.
Qed.

(** Buckets after [i] are still as at the start. *)
Definition later_buckets kv0 kv (i : Z) : Prop :=
  ∀ j, i < j → hash_heads kv !! Z.to_nat j = hash_heads kv0 !! Z.to_nat j.

Lemma later_insert kv0 kv i l :
  0 <= i → later_buckets kv0 kv i →
  later_buckets kv0 (set_heads kv (<[Z.to_nat i := l]> (hash_heads kv))) i.
Proof. intros Hi Hlb j Hj. simpl. rewrite list_lookup_insert_ne by lia. by apply Hlb. Qed.

Lemma slot_conf kv kv' key : same_conf kv kv' → slot kv' key = slot kv key.
Proof. intros (Hb & _). unfold slot. by rewrite Hb. Qed.

(** *** FLUSH *)

Section flush.
Context (rx : list Z → bool) (kv0 : priskv_kv SL BD) (pins : Z → Z)
  (Hinv0 : inv kv0 pins) (Hsafe : max_key_length kv0 < SAFEKEY).

Definition flush_drop (key : list Z) (_ : entry) : bool := rx (cstr key).

Definition flush_inv (i : Z) (st : Z * priskv_kv SL BD) (rest : list Z) : Prop :=
  inv st.2 pins ∧ same_conf kv0 st.2 ∧ later_buckets kv0 st.2 i ∧
  (∃ l, hash_heads st.2 !! Z.to_nat i = Some l ∧ ∀ x, x ∈ rest → x ∈ l) ∧ NoDup rest ∧
  swept flush_drop kv0 st.2 i rest ∧ st.1 = u32 (ssize kv0 - ssize st.2).

Lemma flush_visit_spec i st a rest :
  0 <= i → flush_inv i st (a :: rest) →
  ∃ st', flush_visit rx i st a = Ok st' ∧ flush_inv i st' rest.
Proof.
  intros Hi0 (Hi & Hc & Hlb & (l & Hl & Hsub) & Hnd & Hsw & Hnk). destruct st as [nkey kv].
  simpl in *. apply NoDup_cons in Hnd as [Har Hnd].
  destruct (bucket_node kv pins [] i l a Hi Hl Hi0) as (n & Hn & Hs & Hh & He & Htk & Hmax & Hpos);
    [set_solver|].
  assert (max_key_length kv = max_key_length kv0) as Hmk by apply Hc.
  rewrite (node_Ok kv a n Hn), Ok_bind. unfold safekey_of.
  rewrite (proj2 (Z.ltb_ge _ _)), Ok_bind, Htk by lia.
  destruct (rx (cstr (k_key n))) eqn:Hrx; simpl.
  - destruct (popped_dropped kv pins None None (k_key n) a l Hi Hh) as (kv' & Hd & Hi' & Hr & Hhd);
      [by rewrite Hs|set_solver|]. rewrite Hs in *.
    unfold priskv_lru_del_key in *. simpl in Hd. rewrite (node_Ok kv a n Hn) in *.
    assert (node (set_heads kv (<[Z.to_nat i:=filter (λ x, x ≠ a) l]> (hash_heads kv))) a = Ok n)
      as Hn2 by (by apply node_Ok).
    rewrite Hn2 in Hd. simpl in Hd |- *. destruct (list_del (lru_head kv) a) as [lru|]; [|done].
    simpl in Hd |- *. unfold rd. rewrite (proj2 (Z.leb_le 0 i) Hi0), Hl. simpl.
    rewrite list_del_Ok by set_solver. simpl. pose proof (lookup_lt_Some _ _ _ Hl).
    rewrite wr_Ok by lia. unfold set_lru, set_heads, set_lists in Hd |- *.
    simpl in Hd |- *. rewrite Hd. simpl.
    eexists. split; [done|].
    destruct Hr as (Hc' & _ & _ & _ & Hst). split_and!; simpl; try done; try (by etrans).
    + intros j Hj. rewrite Hhd. simpl. rewrite list_lookup_insert_ne by lia. by apply Hlb.
    + exists (filter (λ x, x ≠ a) l). rewrite Hhd. simpl.
      rewrite list_lookup_insert_eq by done. split; [done|]. intros x Hx.
      apply elem_of_filter_ne. set_solver.
    + eapply swept_drop; [apply Hi|done|apply He|done|done|done| |done].
      rewrite <- Hs. symmetry. by apply slot_conf.
    + rewrite (ssize_delete kv kv' _ _ He Hst), Hnk. unfold u32.
      rewrite Zplus_mod_idemp_l. f_equal. lia.
  - eexists. split; [done|]. split_and!; simpl; try done; [exists l; set_solver|].
    eapply swept_skip; done.
Qed.

Lemma flush_bucket_spec i st :
  0 <= i < bucket_count kv0 →
  flush_inv (i - 1) st [] ∨ (i = 0 ∧ st = (0, kv0)) →
  ∃ st', flush_bucket rx st i = Ok st' ∧ flush_inv i st' [].
Proof.
  intros Hi Hst. pose proof (inv_buckets _ _ _ _ _ Hinv0) as [Hbc Hlen].
  destruct (lookup_lt_is_Some_2 (hash_heads kv0) (Z.to_nat i)) as [l Hl]; [lia|].
  assert (flush_inv i st l ∧ rd (hash_heads st.2) i = Ok l) as [Hfi Hrd].
  { assert (inv st.2 pins ∧ same_conf kv0 st.2 ∧ later_buckets kv0 st.2 (i - 1) ∧
            swept flush_drop kv0 st.2 (i - 1) [] ∧ st.1 = u32 (ssize kv0 - ssize st.2))
      as (Hi1 & Hc & Hlb & Hsw & Hnk).
    { destruct Hst as [(? & ? & ? & _ & _ & ? & ?)|[-> ->]]; [done|]. simpl.
      split_and!; try done; [by eapply swept_start|]. by rewrite Z.sub_diag. }
    assert (hash_heads st.2 !! Z.to_nat i = Some l) as Hl' by (rewrite Hlb by lia; done).
    split; [|apply rd_Ok; split; [lia|done]]. split_and!; try done.
    - intros j Hj. apply Hlb. lia.
    - by exists l.
    - pose proof (inv_nodup _ _ _ _ _ Hi1) as Hnd. rewrite (inv_lists _ _ _ _ _ Hi1) in Hnd.
      apply NoDup_app in Hnd as [Hnd _].
      destruct (concat_insert _ _ _ Hl') as (rs & Hcc & _). unfold linked in Hnd.
      rewrite Hcc in Hnd. by apply NoDup_app in Hnd as [? _].
    - eapply swept_next; [apply Hinv0|lia|done..]. }
  unfold flush_bucket. rewrite Hrd, Ok_bind.
  apply (foldM_inv _ (flush_inv i)); [|done]. intros. apply flush_visit_spec; [lia|done].
Qed.

Lemma flush_spec :
  ∃ kv', foldM (flush_bucket rx) (0, kv0) (seqZ 0 (bucket_count kv0)) =
      Ok (u32 (ssize kv0 - ssize kv'), kv') ∧
    inv kv' pins ∧ same_conf kv0 kv' ∧
    store kv' = filter (λ ke, rx (cstr ke.1) = false) (store kv0).
Proof.
  pose proof (inv_buckets _ _ _ _ _ Hinv0) as [Hbc Hlen].
  destruct (foldM_inv (flush_bucket rx)
    (λ st rest, ∃ i, 0 <= i <= bucket_count kv0 ∧ rest = seqZ i (bucket_count kv0 - i) ∧
       (flush_inv (i - 1) st [] ∨ (i = 0 ∧ st = (0, kv0))))
    (seqZ 0 (bucket_count kv0)) (0, kv0)) as ([nkey kv'] & -> & i & Hi & He & Hst).
  - intros st x rest (i & Hi & He & Hst).
    destruct (decide (i = bucket_count kv0)) as [->|Hne];
      [rewrite Z.sub_diag in He; done|].
    rewrite seqZ_cons in He by lia. injection He as -> ->.
    destruct (flush_bucket_spec i st) as (st' & Heq & Hfi); [lia|done|].
    exists st'. split; [done|]. exists (i + 1). split; [lia|].
    split; [f_equal; lia|]. left. by replace (i + 1 - 1) with i by lia.
  - exists 0. rewrite Z.sub_0_r. split; [lia|]. split; [done|]. by right.
  - assert (i = bucket_count kv0) as ->.
    { destruct (decide (i = bucket_count kv0)); [done|]. rewrite seqZ_cons in He by lia. done. }
    destruct Hst as [(Hi' & Hc & _ & _ & _ & Hsw & Hnk)|[? _]]; [|lia]. simpl in *.
    exists kv'. subst nkey. split_and!; try done.
    by rewrite (swept_done _ _ _ _ Hinv0 Hsw).
Qed.
End flush.

(** *** The expiry routine *)

Section expire.
Context (now : timeval) (kv0 : priskv_kv SL BD) (pins : Z → Z) (Hinv0 : inv kv0 pins)
  (Hcount : 0 <= priskv_get_expire_kv_count kv0 < 2 ^ 64).

Definition expire_drop (_ : list Z) (e : entry) : bool := timed_out (e_expire e) now.

(** [expire_kv_count] counts the keys removed. *)
Definition counted kv : Prop :=
  expire_routine_times (expire_routine_statics kv) =
    expire_routine_times (expire_routine_statics kv0) ∧
  expire_kv_count (expire_routine_statics kv) =
    u64 (expire_kv_count (expire_routine_statics kv0) + (ssize kv0 - ssize kv)).

Definition expire_inv (i : Z) (st : list Z * priskv_kv SL BD) (rest : list Z) : Prop :=
  kv_inv st.2 pins st.1 None None ∧ same_conf kv0 st.2 ∧ later_buckets kv0 st.2 i ∧
  (∃ l, hash_heads st.2 !! Z.to_nat i = Some l ∧ ∀ x, x ∈ rest → x ∈ l) ∧ NoDup rest ∧
  swept expire_drop kv0 st.2 i rest ∧ counted st.2.

Lemma expire_visit_spec i st a rest :
  0 <= i → expire_inv i st (a :: rest) →
  ∃ st', expire_visit now i st a = Ok st' ∧ expire_inv i st' rest.
Proof.
  intros Hi0 (Hi & Hc & Hlb & (l & Hl & Hsub) & Hnd & Hsw & Hct & Hnk).
  destruct st as [ex kv]. simpl in *. apply NoDup_cons in Hnd as [Har Hnd].
  assert (a ∈ l) as Hal by set_solver.
  destruct (bucket_node kv pins ex i l a Hi Hl Hi0 Hal)
    as (n & Hn & Hs & Hh & He & Htk & Hmax & Hpos).
  rewrite (node_Ok kv a n Hn), Ok_bind, key_timeout_timed_out.
  destruct (timed_out (k_expire_time n) now) eqn:Ht.
  - pose proof (pop_inv _ _ _ _ _ Hi _ _ _ Hl Hal) as Hi1.
    unfold rd. rewrite (proj2 (Z.leb_le 0 i) Hi0), Hl. simpl.
    rewrite list_del_Ok by done. simpl. pose proof (lookup_lt_Some _ _ _ Hl).
    rewrite wr_Ok by lia. simpl.
    set (kv1 := set_heads kv _) in *. eexists. split; [done|].
    assert (store kv1 = delete (k_key n) (store kv)) as Hst.
    { eapply store_remove; [apply Hi|apply Hi1|done| |done|done].
      intros x. unfold linked. simpl. destruct (concat_insert _ _ _ Hl) as (rs & Hcc & Hcc').
      rewrite Hcc', Hcc, !elem_of_app, elem_of_filter_ne.
      assert (a ∉ rs); [|naive_solver]. intros Hrs.
      pose proof (inv_nodup _ _ _ _ _ Hi) as Hnd'. rewrite (inv_lists _ _ _ _ _ Hi) in Hnd'.
      apply NoDup_app in Hnd' as [Hnd' _]. unfold linked in Hnd'. rewrite Hcc in Hnd'.
      apply NoDup_app in Hnd' as (_ & Hd & _). by apply (Hd a). }
    split_and!; simpl; try done.
    + apply statics_inv. eapply kv_inv_proper, Hi1; try done.
      unfold list_add_tail. solve_Permutation.
    + by apply later_insert.
    + exists (filter (λ x, x ≠ a) l). rewrite list_lookup_insert_eq by done.
      split; [done|]. intros x Hx. apply elem_of_filter_ne. set_solver.
    + eapply swept_drop; [apply Hi|done|apply He|done|done|done| |done].
      rewrite <- Hs. symmetry. by apply slot_conf.
    + split; [exact Hct|]. simpl. change (ssize (set_statics kv1 _)) with (ssize kv1).
      rewrite (ssize_delete kv kv1 _ _ He Hst), Hnk. unfold u64.
      rewrite Zplus_mod_idemp_l. f_equal. lia.
  - eexists. split; [done|]. split_and!; simpl; try done; [exists l; set_solver|].
    eapply swept_skip; done.
Qed.

(** The second loop empties the local list. *)
Lemma expire_release_spec kv1 ex :
  kv_inv kv1 pins ex None None →
  ∃ kv2, foldM expire_release (ex, kv1) ex = Ok ([], kv2) ∧ inv kv2 pins ∧
    same_conf kv1 kv2 ∧ hash_heads kv2 = hash_heads kv1 ∧ store kv2 = store kv1 ∧
    expire_routine_statics kv2 = expire_routine_statics kv1.
Proof.
  intros Hi1.
  destruct (foldM_inv expire_release (λ st rest, st.1 = rest ∧ kv_inv st.2 pins rest None None ∧
    same_conf kv1 st.2 ∧ hash_heads st.2 = hash_heads kv1 ∧ store st.2 = store kv1 ∧
    expire_routine_statics st.2 = expire_routine_statics kv1) ex (ex, kv1))
    as ([ex' kv2] & -> & He & Hi2 & ?); [|done|simpl in *; subst; by exists kv2].
  intros [ex' kv] a rest (He & Hi & Hc & Hh & Hst & Hes). simpl in *. subst ex'.
  destruct (drop_inv _ _ _ _ _ _ Hi) as (kv' & Hd & Hi' & Hc' & Hh' & Hl' & Hes' & Hm').
  destruct (priskv_lru_del_key kv a) as [kvx|]; simpl in Hd |- *; [|done].
  assert (NoDup (a :: rest)) as Hnd.
  { pose proof (inv_nodup _ _ _ _ _ Hi) as Hnd. rewrite (inv_lists _ _ _ _ _ Hi) in Hnd.
    by apply NoDup_app in Hnd as (_ & _ & ?). }
  apply NoDup_cons in Hnd as [Har _].
  rewrite list_del_Ok by set_solver. simpl. rewrite Hd. simpl.
  rewrite filter_cons_False by (intros Hx; by apply Hx). rewrite (filter_ne_id rest a) by done.
  eexists. split; [done|]. split_and!; simpl; try done; try congruence; [by etrans|].
  rewrite <- Hst. eapply store_ext; [apply Hi|apply Hi'| |].
  - intros x. unfold linked. by rewrite Hh'.
  - intros x n Hx Hn. exists n. assert (x ≠ a) as Hxa.
    { intros ->. pose proof (inv_nodup _ _ _ _ _ Hi) as Hnd. rewrite (inv_lists _ _ _ _ _ Hi) in Hnd.
      apply NoDup_app in Hnd as (_ & Hdis & _). apply (Hdis a Hx). set_solver. }
    rewrite Hm' by done. split_and!; try done.
    unfold entry_of, priskv_value_to_pointer. by destruct Hc' as (_ & _ & _ & -> & _).
Qed.

(** The state between two buckets. *)
Definition expire_between (i : Z) kv : Prop :=
  inv kv pins ∧ same_conf kv0 kv ∧ later_buckets kv0 kv i ∧
  swept expire_drop kv0 kv i [] ∧ counted kv.

Lemma expire_bucket_spec i kv :
  0 <= i < bucket_count kv0 → expire_between (i - 1) kv →
  ∃ kv', expire_bucket now kv i = Ok kv' ∧ expire_between i kv'.
Proof.
  intros Hi (Hi1 & Hc & Hlb & Hsw & Hct).
  pose proof (inv_buckets _ _ _ _ _ Hinv0) as [Hbc Hlen].
  destruct (lookup_lt_is_Some_2 (hash_heads kv0) (Z.to_nat i)) as [l Hl]; [lia|].
  assert (hash_heads kv !! Z.to_nat i = Some l) as Hl' by (rewrite Hlb by lia; done).
  unfold expire_bucket. rewrite (proj2 (rd_Ok _ _ _) (conj (proj1 Hi) Hl')), Ok_bind.
  destruct (foldM_inv (expire_visit now i) (expire_inv i) l ([], kv)) as ([ex kv1] & -> & Hfi).
  - intros. apply expire_visit_spec; [lia|done].
  - split_and!; simpl; try done.
    + intros j Hj. apply Hlb. lia.
    + by exists l.
    + pose proof (inv_nodup _ _ _ _ _ Hi1) as Hnd. rewrite (inv_lists _ _ _ _ _ Hi1) in Hnd.
      apply NoDup_app in Hnd as [Hnd _].
      destruct (concat_insert _ _ _ Hl') as (rs & Hcc & _). unfold linked in Hnd.
      rewrite Hcc in Hnd. by apply NoDup_app in Hnd as [? _].
    + eapply swept_next; [apply Hinv0|lia|done..].
  - destruct Hfi as (Hi2 & Hc2 & Hlb2 & _ & _ & Hsw2 & Hct2). simpl in *.
    destruct (expire_release_spec kv1 ex Hi2) as (kv2 & -> & Hi3 & Hc3 & Hh3 & Hst3 & Hes3).
    simpl. exists kv2. split; [done|]. split_and!; try done; [by etrans| | |].
    + intros j Hj. rewrite Hh3. by apply Hlb2.
    + intros key e. rewrite Hst3. apply Hsw2.
    + unfold counted, ssize in *. by rewrite Hes3, Hst3.
Qed.

Lemma clear_expired_spec :
  ∃ kv', priskv_clear_expired_kv kv0 now = Ok kv' ∧ inv kv' pins ∧ same_conf kv0 kv' ∧
    store kv' = filter (λ ke, timed_out (e_expire ke.2) now = false) (store kv0) ∧
    priskv_get_expire_kv_count kv' =
      u64 (priskv_get_expire_kv_count kv0 + (ssize kv0 - ssize kv')) ∧
    priskv_get_expire_routine_times kv' = u64 (priskv_get_expire_routine_times kv0 + 1).
Proof.
  pose proof (inv_buckets _ _ _ _ _ Hinv0) as [Hbc Hlen]. unfold priskv_clear_expired_kv.
  destruct (foldM_inv (expire_bucket now)
    (λ kv rest, ∃ i, 0 <= i <= bucket_count kv0 ∧ rest = seqZ i (bucket_count kv0 - i) ∧
       expire_between (i - 1) kv)
    (seqZ 0 (bucket_count kv0)) kv0) as (kv' & -> & i & Hi & He & Hst).
  - intros kv x rest (i & Hi & He & Hst).
    destruct (decide (i = bucket_count kv0)) as [->|Hne]; [rewrite Z.sub_diag in He; done|].
    rewrite seqZ_cons in He by lia. injection He as -> ->.
    destruct (expire_bucket_spec i kv) as (kv' & Heq & Hfi); [lia|done|].
    exists kv'. split; [done|]. exists (i + 1). split; [lia|].
    split; [f_equal; lia|]. by replace (i + 1 - 1) with i by lia.
  - exists 0. rewrite Z.sub_0_r. split; [lia|]. split; [done|].
    split_and!; try done; [by eapply swept_start|].
    split; [done|]. rewrite Z.sub_diag, Z.add_0_r, u64_small; done.
  - assert (i = bucket_count kv0) as ->.
    { destruct (decide (i = bucket_count kv0)); [done|]. rewrite seqZ_cons in He by lia. done. }
    destruct Hst as (Hi' & Hc & _ & Hsw & Hct1 & Hct2). simpl.
    eexists. split; [done|]. split; [by apply statics_inv|].
    pose proof (swept_done _ _ _ _ Hinv0 Hsw) as Hst. split_and!; try done.
    unfold priskv_get_expire_routine_times. simpl. by rewrite Hct1.
Qed.
End expire.
End loops.
