(* ===== verification/KvKeys.v ===== *)
(** * KEYS, from the server's buckets to the client's key set

    The server side is [priskv_get_keys] of [server/kv.c]; the client side is
    the decoding in [priskv_rdma_keys_req_cb] of [client/rdma.c]. *)

From S2P Require Import Prelude Utils Crc Lists Protocol Memory Alloc KvModel KvInv KvOps.

Module ClientKeys.

(** The two loads of a [priskv_keys_resp] at offset [off] of the buffer. *)
Definition be16toh_at (buf : list Z) (off : Z) : res Z :=
  b0 ← rd buf off;
  b1 ← rd buf (off + 1);
  Ok (be_value [b0; b1]).

Definition be32toh_at (buf : list Z) (off : Z) : res Z :=
  b0 ← rd buf off;
  b1 ← rd buf (off + 1);
  b2 ← rd buf (off + 2);
  b3 ← rd buf (off + 3);
  Ok (be_value [b0; b1; b2; b3]).

(** The first loop: the end offset and the number of keys. Every turn moves at
    least eight bytes on, so [valuelen] is fuel enough. *)
Fixpoint keys_count (fuel : nat) (buf : list Z) (off valuelen nkey : Z) : res (Z * Z) :=
  if off <? valuelen then
    match fuel with
    | O => Fault OutOfFuel
    | S fuel =>
        keylen ← be16toh_at buf off;
        keys_count fuel buf (off + sizeof_keys_resp + keylen) valuelen (u32 (nkey + 1))
    end
  else Ok (off, nkey).

(** [memcpy(curkey->key, buf, keylen)]. *)
Definition copy_key (buf : list Z) (off keylen : Z) : res (list Z) :=
  if off + keylen <=? Z.of_nat (length buf)
  then Ok (take (Z.to_nat keylen) (drop (Z.to_nat off) buf)) else Fault OutOfBounds.

(** The second loop: value length and key of every entry. *)
Fixpoint keys_fill (fuel : nat) (buf : list Z) (off valuelen : Z) : res (list (list Z * Z)) :=
  if off <? valuelen then
    match fuel with
    | O => Fault OutOfFuel
    | S fuel =>
        keylen ← be16toh_at buf off;
        vlen ← be32toh_at buf (off + 4);
        key ← copy_key buf (off + sizeof_keys_resp) keylen;
        rest ← keys_fill fuel buf (off + sizeof_keys_resp + keylen) valuelen;
        Ok ((key, vlen) :: rest)
    end
  else Ok [].

(** [None] is [PRISKV_STATUS_PROTOCOL_ERROR]. *)
Definition priskv_rdma_keys_req_cb (buf : list Z) (valuelen : Z)
    : res (option (Z * list (list Z * Z))) :=
  '(off, nkey) ← keys_count (Z.to_nat valuelen) buf 0 valuelen 0;
  if negb (off =? valuelen) then Ok None else
  keys ← keys_fill (Z.to_nat valuelen) buf 0 valuelen;
  Ok (Some (nkey, keys)).

(** ** Decoding what was encoded *)

Definition encode (es : list (list Z * Z)) : list Z :=
  concat ((λ e, keys_entry e.1 (klen e.1) e.2) <$> es).

Definition entry_ok (e : list Z * Z) : Prop := klen e.1 < 2 ^ 16 ∧ 0 <= e.2 < 2 ^ 32.

Definition encoded_len (es : list (list Z * Z)) : Z :=
  foldr (λ e s, sizeof_keys_resp + klen e.1 + s) 0 es.

Lemma keys_entry_length key valuelen :
  Z.of_nat (length (keys_entry key (klen key) valuelen)) = sizeof_keys_resp + klen key.
Proof.
  unfold keys_entry. rewrite !length_app, !be_bytes_length. unfold klen, sizeof_keys_resp. lia.
Qed.

Lemma encode_cons e es : encode (e :: es) = keys_entry e.1 (klen e.1) e.2 ++ encode es.
Proof. done. Qed.

Lemma encoded_len_cons e es : encoded_len (e :: es) = sizeof_keys_resp + klen e.1 + encoded_len es.
Proof. done. Qed.

Lemma encode_length es : Z.of_nat (length (encode es)) = encoded_len es.
Proof.
  induction es as [|e es IH]; [done|].
  rewrite encode_cons, length_app, Nat2Z.inj_add, keys_entry_length, IH. done.
Qed.

Lemma rd_app_at (pre mid post : list Z) i :
  0 <= i < Z.of_nat (length mid) →
  rd (pre ++ mid ++ post) (Z.of_nat (length pre) + i) = rd mid i.
Proof.
  intros Hi. unfold rd. rewrite !(proj2 (Z.leb_le 0 _)) by lia.
  rewrite lookup_app_r by lia. rewrite lookup_app_l by lia.
  replace (Z.to_nat (Z.of_nat (length pre) + i) - length pre)%nat with (Z.to_nat i) by lia. done.
Qed.

(** The header of an entry reads back. *)
Lemma entry_header pre post e :
  entry_ok e →
  let buf := pre ++ keys_entry e.1 (klen e.1) e.2 ++ post in
  let off := Z.of_nat (length pre) in
  be16toh_at buf off = Ok (klen e.1) ∧ be32toh_at buf (off + 4) = Ok e.2.
Proof.
  intros [Hk Hv] buf off. destruct e as [key v]. simpl in *.
  pose proof (be_roundtrip 2 (klen key)) as R2. pose proof (be_roundtrip 4 v) as R4.
  assert (0 <= klen key) by (unfold klen; lia).
  assert (8 <= Z.of_nat (length (keys_entry key (klen key) v))) as Hlen.
  { rewrite keys_entry_length. unfold sizeof_keys_resp. lia. }
  unfold be16toh_at, be32toh_at, buf, off.
  assert (∀ i, 0 <= i < 8 →
    rd (pre ++ keys_entry key (klen key) v ++ post) (Z.of_nat (length pre) + i) =
    rd (keys_entry key (klen key) v) i) as Hrd by (intros; apply rd_app_at; lia).
  rewrite <- !Z.add_assoc. simpl Z.add.
  replace (Z.of_nat (length pre)) with (Z.of_nat (length pre) + 0) at 1 by lia.
  rewrite !Hrd by lia. unfold keys_entry, be_bytes. simpl. simpl in R2, R4.
  split; f_equal; [apply R2|apply R4]; simpl; lia.
Qed.

Lemma count_decode es : ∀ pre fuel nkey,
  Forall entry_ok es → (length es <= fuel)%nat → 0 <= nkey → nkey + Z.of_nat (length es) < 2 ^ 32 →
  keys_count fuel (pre ++ encode es) (Z.of_nat (length pre))
      (Z.of_nat (length pre) + encoded_len es) nkey =
    Ok (Z.of_nat (length pre) + encoded_len es, nkey + Z.of_nat (length es)).
Proof.
  induction es as [|e es IH]; intros pre fuel nkey Hok Hf Hn0 Hn.
  { simpl. destruct fuel; simpl; rewrite (proj2 (Z.ltb_ge _ _)) by lia; rewrite !Z.add_0_r; done. }
  apply Forall_cons in Hok as [He Hok]. simpl in Hf, Hn.
  assert (0 <= encoded_len es) by (rewrite <- encode_length; lia).
  assert (0 <= klen e.1) by (unfold klen; lia).
  destruct fuel as [|fuel]; [lia|]. rewrite encode_cons, encoded_len_cons. cbn [keys_count].
  rewrite (proj2 (Z.ltb_lt _ _)) by (unfold sizeof_keys_resp; lia).
  destruct (entry_header pre (encode es) e He) as [-> _]. rewrite Ok_bind, u32_small by lia.
  rewrite app_assoc.
  specialize (IH (pre ++ keys_entry e.1 (klen e.1) e.2) fuel (nkey + 1)).
  rewrite length_app, Nat2Z.inj_add, keys_entry_length in IH.
  rewrite !Z.add_assoc in IH. rewrite !Z.add_assoc. rewrite IH by (done || lia). f_equal. f_equal. simpl length. lia.
Qed.

Lemma fill_decode es : ∀ pre fuel,
  Forall entry_ok es → (length es <= fuel)%nat →
  keys_fill fuel (pre ++ encode es) (Z.of_nat (length pre))
      (Z.of_nat (length pre) + encoded_len es) = Ok es.
Proof.
  induction es as [|e es IH]; intros pre fuel Hok Hf.
  { destruct fuel; simpl; rewrite (proj2 (Z.ltb_ge _ _)) by lia; done. }
  apply Forall_cons in Hok as [He Hok]. simpl in Hf.
  assert (0 <= encoded_len es) by (rewrite <- encode_length; lia).
  assert (0 <= klen e.1) by (unfold klen; lia).
  destruct fuel as [|fuel]; [lia|]. rewrite encode_cons, encoded_len_cons. cbn [keys_fill].
  rewrite (proj2 (Z.ltb_lt _ _)) by (unfold sizeof_keys_resp; lia).
  destruct (entry_header pre (encode es) e He) as [-> ->]. rewrite !Ok_bind.
  assert (copy_key (pre ++ keys_entry e.1 (klen e.1) e.2 ++ encode es)
            (Z.of_nat (length pre) + sizeof_keys_resp) (klen e.1) = Ok e.1) as ->.
  { unfold copy_key. rewrite (proj2 (Z.leb_le _ _)).
    2: { rewrite !length_app, !Nat2Z.inj_add, keys_entry_length. lia. }
    f_equal. unfold keys_entry, klen, sizeof_keys_resp. rewrite Nat2Z.id.
    rewrite !app_assoc. rewrite <- app_assoc. rewrite drop_app_length'.
    2: { rewrite !length_app, !be_bytes_length. lia. }
    by rewrite take_app_length. }
  rewrite Ok_bind, app_assoc.
  specialize (IH (pre ++ keys_entry e.1 (klen e.1) e.2) fuel).
  rewrite length_app, Nat2Z.inj_add, keys_entry_length in IH.
  rewrite !Z.add_assoc in IH. rewrite !Z.add_assoc. rewrite IH by (done || lia). simpl. by destruct e.
Qed.

Lemma encoded_len_ge es : Z.of_nat (length es) <= encoded_len es.
Proof.
  induction es as [|e es IH]; [done|].
  rewrite encoded_len_cons. unfold klen, sizeof_keys_resp. simpl. lia.
Qed.

Lemma decode_encode es :
  Forall entry_ok es → encoded_len es < 2 ^ 32 →
  priskv_rdma_keys_req_cb (encode es) (encoded_len es) = Ok (Some (Z.of_nat (length es), es)).
Proof.
  intros Hok Hlen. pose proof (encoded_len_ge es). unfold priskv_rdma_keys_req_cb.
  pose proof (count_decode es [] (Z.to_nat (encoded_len es)) 0 Hok) as Hc.
  pose proof (fill_decode es [] (Z.to_nat (encoded_len es)) Hok) as Hf.
  cbn [app length] in Hc, Hf. rewrite Nat2Z.inj_0 in Hc, Hf.
  rewrite !Z.add_0_l in Hc. rewrite Z.add_0_l in Hf.
  rewrite Hc by lia. simpl. rewrite Z.eqb_refl. simpl. rewrite Hf by lia. done.
Qed.

End ClientKeys.

(** ** The server's listing *)

Section listing.
Context {SL BD : Type} `{AllocatorLaws SL} `{AllocatorLaws BD}.
Context (kv : priskv_kv SL BD) (pins : Z → Z) (Hinv : kv_inv kv pins [] None None)
  (Hsafe : max_key_length kv < SAFEKEY) (rx : list Z → bool).

(** The matching keys with their value lengths, in bucket order. *)
Definition listed (l : list Z) : list (list Z * Z) :=
  omap (λ a, n ← key_mem kv !! a;
             if rx (cstr (k_key n)) then Some (k_key n, k_valuelen n) else None) l.

Definition listing : list (list Z * Z) := listed (linked kv).

Import ClientKeys.

Lemma listed_app l1 l2 : listed (l1 ++ l2) = listed l1 ++ listed l2.
Proof. apply omap_app. Qed.

Lemma encode_app e1 e2 : encode (e1 ++ e2) = encode e1 ++ encode e2.
Proof. unfold encode. by rewrite fmap_app, concat_app. Qed.

Lemma encoded_len_app e1 e2 : encoded_len (e1 ++ e2) = encoded_len e1 + encoded_len e2.
Proof. rewrite <- !encode_length, encode_app, length_app. lia. Qed.

(** The out parameters after the nodes of [l] were visited. *)
Definition keys_inv (keyslen : Z) (l : list Z) (o : keys_out) : Prop :=
  ko_reallen o = encoded_len (listed l) ∧ ko_nkey o = Z.of_nat (length (listed l)) ∧
  Z.of_nat (length (ko_buf o)) <= keyslen ∧
  (ko_reallen o <= keyslen → ko_buf o = encode (listed l)).

Lemma keys_visit_spec keyslen l a o :
  a ∈ linked kv → encoded_len (listed (l ++ [a])) < 2 ^ 32 → keys_inv keyslen l o →
  ∃ o', keys_visit kv rx keyslen o a = Ok o' ∧ keys_inv keyslen (l ++ [a]) o'.
Proof.
  intros Ha Hlt (Hr & Hn & Hlen & Hbuf). unfold keys_visit.
  destruct (linked_in_mem _ _ _ _ _ Hinv a Ha) as [n Hna].
  destruct (inv_node _ _ _ _ _ Hinv a n Hna) as ((_ & Hkl & Hmax) & _).
  rewrite (node_Ok kv a n Hna), Ok_bind. unfold safekey_of.
  rewrite (proj2 (Z.ltb_ge _ _)), Ok_bind, take_ge by lia.
  assert (listed (l ++ [a]) = listed l ++ listed [a]) as Hla by apply listed_app.
  rewrite Hla in Hlt. unfold keys_inv. rewrite Hla.
  assert (listed [a] = if rx (cstr (k_key n)) then [(k_key n, k_valuelen n)] else []) as He.
  { unfold listed. simpl. rewrite Hna. simpl. by destruct (rx (cstr (k_key n))). }
  destruct (rx (cstr (k_key n))); cbn [negb].
  2: { rewrite He, app_nil_r. by exists o. }
  rewrite He, encoded_len_app in Hlt. rewrite He, encoded_len_app.
  change (encoded_len [(k_key n, k_valuelen n)])
    with (sizeof_keys_resp + klen (k_key n) + 0) in *.
  pose proof (encoded_len_ge (listed l)).
  rewrite length_app, encode_app. unfold klen, sizeof_keys_resp in *. rewrite <- Hkl in *.
  eexists. split; [done|]. cbn [ko_reallen ko_nkey ko_buf length].
  rewrite !u32_small by lia. split_and!; try lia.
  - destruct (Z.leb_spec (ko_reallen o + 8 + k_keylen n) keyslen); [|done].
    rewrite length_app, Nat2Z.inj_add, Hkl. fold (klen (k_key n)).
    rewrite keys_entry_length. rewrite Hbuf, encode_length by lia.
    unfold klen, sizeof_keys_resp. lia.
  - intros Hle. rewrite (proj2 (Z.leb_le _ _)) by lia. rewrite Hbuf by lia. f_equal.
    unfold encode. simpl. rewrite app_nil_r, Hkl. done.
Qed.

Lemma get_keys_spec regcomp regex regexlen keyslen :
  regcomp_buf regcomp regex regexlen = Some rx → 0 <= keyslen → encoded_len listing < 2 ^ 32 →
  ∃ o, priskv_get_keys regcomp kv regex regexlen keyslen =
      Ok (if encoded_len listing >? keyslen then PRISKV_RESP_STATUS_VALUE_TOO_BIG
          else PRISKV_RESP_STATUS_OK, Some o) ∧ keys_inv keyslen (linked kv) o.
Proof.
  intros Hrx Hk Hlt. unfold priskv_get_keys. rewrite Hrx, foldM_concat. fold (linked kv).
  destruct (foldM_inv (keys_visit kv rx keyslen)
    (λ o rest, ∃ l, linked kv = l ++ rest ∧ keys_inv keyslen l o) (linked kv) (mk_keys 0 0 []))
    as (o & -> & l & Hl & Hinvo).
  - intros o a rest (l & Hl & Ho).
    destruct (keys_visit_spec keyslen l a o) as (o' & -> & Ho'); [| |done|].
    + rewrite Hl. set_solver.
    + unfold listing in Hlt. rewrite Hl, cons_middle, app_assoc, listed_app, encoded_len_app in Hlt.
      pose proof (encoded_len_ge (listed rest)). lia.
    + exists o'. split; [done|]. exists (l ++ [a]). by rewrite <- app_assoc.
  - exists []. split; [done|]. by split_and!.
  - rewrite app_nil_r in Hl. subst l. exists o. split; [|done]. simpl.
    destruct Hinvo as (-> & _). done.
Qed.
End listing.
