(* ===== verification/KvStart.v ===== *)
(** * The key-value store: creation and recovery

    [priskv_new_kv] and [priskv_recover] of [server/kv.c], over the slab and the
    buddy allocator themselves. *)

From S2P Require Import Prelude Utils Crc Lists Protocol Memory Slab Buddy Alloc KvModel KvInv KvOps.

Import Slab Buddy.

Definition kv_state : Type := priskv_kv priskv_slab buddy.

(** [raw] is the content of the memory after the value blocks, where the buddy
    allocator keeps its metadata, and [mem] the key nodes found in the key area
    of an existing image. *)
Definition priskv_new_kv (raw : list Z) (mem : gmap Z priskv_key)
    (kbase vbase maxkeys maxkeylen vblock_size vblocks : Z) : res kv_state :=
  assert! (negb (kbase =? 0)) ;;
  assert! (negb (vbase =? 0)) ;;
  bucket_count ← calculate_hash_bucket_count maxkeys;
  sl ← priskv_slab_create true "Keys" kbase (priskv_mem_key_size maxkeylen) maxkeys;
  bd ← priskv_buddy_create true raw vbase (u32 vblocks) vblock_size;
  match sl, bd with
  | None, _ => Fault AssertFailed
  | _, None => Fault NullDeref
  | Some sl, Some bd =>
      assert! (vbase =? priskv_buddy_base bd) ;;
      Ok {| hash_heads := replicate (Z.to_nat bucket_count) [];
            tiering_wait_heads := replicate (Z.to_nat bucket_count) (mk_wait [] false);
            lru_head := [];
            bucket_count := bucket_count;
            max_keys := maxkeys;
            max_key_length := maxkeylen;
            key_slab := sl;
            key_base := kbase;
            value_buddy := bd;
            value_base := vbase;
            expire_routine_interval := PRISKV_KV_DEFAULT_EXPIRE_ROUTINE_INTERVAL;
            expire_routine_statics := mk_statics 0 0 0;
            key_mem := mem |}
  end.

Definition priskv_get_value_blocks (kv : kv_state) : Z := priskv_buddy_nmemb (value_buddy kv).
Definition priskv_get_value_block_size (kv : kv_state) : Z := priskv_buddy_size (value_buddy kv).
Definition priskv_get_value_blocks_inuse (kv : kv_state) : Z := priskv_buddy_inuse (value_buddy kv).
Definition priskv_get_keys_inuse (kv : kv_state) : Z := priskv_slab_inuse (key_slab kv).

(** ** Recovery *)

(** One turn of the loop; [inr] is the error return. A slot outside [key_mem]
    is zeroed, so its [keylen] is 0. *)
Definition recover_slot (kv : kv_state) (i : Z) : res (kv_state + unit) :=
  let keysize := u16 (priskv_slab_size (key_slab kv)) in
  let a := key_base kv + u32 (keysize * i) in
  match key_mem kv !! a with
  | None => Ok (inl kv)
  | Some n =>
      if k_keylen n =? 0 then Ok (inl kv) else
      if keysize <? priskv_mem_key_size (k_keylen n) then Ok (inr tt) else
      if k_inprocess n then
        bd ← (if k_valuelen n =? 0 then Ok (value_buddy kv)
              else priskv_buddy_free (value_buddy kv) (priskv_value_to_pointer kv n));
        sl ← priskv_slab_free (key_slab kv) a;
        Ok (inl (set_mem kv sl bd (delete a (key_mem kv))))
      else
        assert! (negb (k_valuelen n =? 0)) ;;
        '(addr, sl) ← priskv_slab_reserve (key_slab kv) i;
        assert! (addr =? a) ;;
        kv ← priskv_insert_keynode (set_mem kv sl (value_buddy kv) (key_mem kv)) a;
        kv ← priskv_lru_access kv a false;
        Ok (inl kv)
  end.

(** [n] turns from slot [i]; [-EIO] is [false]. *)
Fixpoint recover_loop (n : nat) (i : Z) (kv : kv_state) : res (bool * kv_state) :=
  match n with
  | O => Ok (true, kv)
  | S n =>
      r ← recover_slot kv i;
      match r with
      | inl kv => recover_loop n (i + 1) kv
      | inr _ => Ok (false, kv)
      end
  end.

Definition priskv_recover (kv : kv_state) : res (bool * kv_state) :=
  recover_loop (Z.to_nat (max_keys kv)) 0 kv.

(** ** Number of buckets *)

Lemma primes_sorted i j p q :
  (i <= j)%nat → primes !! i = Some p → primes !! j = Some q → p <= q.
Proof.
  intros Hij Hp Hq.
  assert (forallb (λ i, forallb (λ j, negb (i <=? j)%nat ||
            (default 0 (primes !! i) <=? default 0 (primes !! j))) (seq 0 9)) (seq 0 9) = true)
    as Hall by (vm_compute; reflexivity).
  rewrite forallb_forall in Hall.
  assert (i < 9)%nat as Hi by (apply lookup_lt_Some in Hp; done).
  assert (j < 9)%nat as Hj by (apply lookup_lt_Some in Hq; done).
  specialize (Hall i ltac:(apply in_seq; lia)). rewrite forallb_forall in Hall.
  specialize (Hall j ltac:(apply in_seq; lia)).
  rewrite (proj2 (Nat.leb_le i j) Hij), Hp, Hq in Hall. simpl in Hall. lia.
Qed.

(** The search splits the table at the number of keys. *)
Lemma bucket_search_spec k fuel : ∀ left right result,
  0 <= left → left <= right + 1 → right < 9 → right - left + 1 <= Z.of_nat fuel →
  (∀ j p, (j < Z.to_nat left)%nat → primes !! j = Some p → p <= k) →
  (∀ j p, (Z.to_nat (right + 1) <= j)%nat → primes !! j = Some p → k < p) →
  (0 < left → primes !! Z.to_nat (left - 1) = Some result) →
  ∃ m r, bucket_search fuel k left right result = Ok r ∧ left <= m ∧
    (m = 0 → r = result) ∧ (0 < m → primes !! Z.to_nat (m - 1) = Some r) ∧
    (∀ j p, (j < Z.to_nat m)%nat → primes !! j = Some p → p <= k) ∧
    (∀ j p, (Z.to_nat m <= j)%nat → primes !! j = Some p → k < p).
Proof.
  induction fuel as [|fuel IH]; intros left right result Hl Hlr Hr Hf Hlo Hhi Hres; simpl.
  { rewrite (proj2 (Z.leb_gt _ _)) by lia. exists left, result. assert (right + 1 = left) as He by lia.
    rewrite He in Hhi. by split_and!. }
  destruct (Z.leb_spec left right) as [Hle|Hgt].
  2: { exists left, result. assert (right + 1 = left) as He by lia. rewrite He in Hhi. by split_and!. }
  rewrite Z.quot_div_nonneg by lia. set (mid := left + (right - left) / 2).
  assert (left <= mid <= right) as Hmid by (unfold mid; dlia).
  destruct (lookup_lt_is_Some_2 primes (Z.to_nat mid)) as [p Hp]; [change (length primes) with 9%nat; lia|].
  rewrite (proj2 (rd_Ok primes mid p)) by (split; [lia|done]). rewrite Ok_bind.
  destruct (Z.leb_spec p k) as [Hpk|Hpk].
  - destruct (IH (mid + 1) right p) as (m & r & -> & ? & ? & ? & ? & ?); [lia..| | | |].
    + intros j q Hj Hq. assert (q <= p) by (eapply (primes_sorted j (Z.to_nat mid)); eauto; lia). lia.
    + done.
    + intros _. by replace (mid + 1 - 1) with mid by lia.
    + exists m, r. split_and!; (done || lia).
  - destruct (IH left (mid - 1) result) as (m & r & -> & ? & ? & ? & ? & ?); [lia..|done| |done|].
    + intros j q Hj Hq. assert (p <= q) by (eapply (primes_sorted (Z.to_nat mid) j); eauto; lia). lia.
    + exists m, r. split_and!; (done || lia).
Qed.

(** The bucket count is the number of keys, or the largest prime of the table
    that is not above it. *)
Lemma bucket_count_spec k :
  0 <= k →
  ∃ r, calculate_hash_bucket_count k = Ok r ∧ r <= k ∧
    (k < 32749 → r = k) ∧
    (32749 <= k → r ∈ primes ∧ ∀ p, p ∈ primes → p <= k → p <= r).
Proof.
  intros Hk. unfold calculate_hash_bucket_count. change (rd primes 0) with (Ok 32749).
  rewrite Ok_bind. destruct (Z.ltb_spec k 32749).
  { exists k. split_and!; (done || lia). }
  change (length primes) with 9%nat. change (Z.of_nat 9 - 1) with 8.
  destruct (bucket_search_spec k 9 0 8 32749) as (m & r & -> & Hm & _ & Hr & Hlo & Hhi);
    [lia|lia|lia|simpl; lia|intros j p Hj; simpl in Hj; lia| |lia|].
  { intros j p Hj Hp. apply lookup_lt_Some in Hp. change (length primes) with 9%nat in Hp.
    simpl in Hj. lia. }
  assert (0 < m) as Hm0.
  { destruct (decide (0 < m)); [done|]. assert (m = 0) as -> by lia.
    specialize (Hhi 0%nat 32749). simpl in Hhi. specialize (Hhi ltac:(lia) eq_refl). lia. }
  specialize (Hr Hm0). exists r. split; [done|].
  assert (r <= k) by (eapply (Hlo (Z.to_nat (m - 1))); [lia|done]).
  split_and!; [done|lia|]. intros _. split; [by eapply list_elem_of_lookup_2|].
  intros p [j Hj]%list_elem_of_lookup Hp. destruct (decide (j < Z.to_nat m)%nat) as [Hlt|Hge].
  - eapply (primes_sorted j (Z.to_nat (m - 1))); eauto. lia.
  - specialize (Hhi j p ltac:(lia) Hj). lia.
Qed.

(** ** A fresh store *)

Record start_ok (raw : list Z) (kbase vbase maxkeys maxkeylen vblock_size : Z) (k : nat) : Prop := {
  so_kbase : 0 < kbase;
  so_vbase : 0 < vbase;
  so_keys : 0 < maxkeys <= 2 ^ 31;
  so_keylen : 0 <= maxkeylen < 2 ^ 16 - 88;
  so_kend : kbase + maxkeys * priskv_mem_key_size maxkeylen <= 2 ^ 64;
  so_block : 0 < vblock_size < 2 ^ 32;
  so_levels : (k <= 30)%nat;
  so_vend : vbase + sz k * vblock_size <= 2 ^ 64;
  so_raw : Z.of_nat (length raw) = 2 * sz k
}.

Lemma slab_blocks_none s : used s = ∅ → slab_blocks s = ∅.
Proof. intros Hu. unfold slab_blocks. by rewrite Hu. Qed.

Lemma linked_empty n : concat (replicate n ([] : list Z)) = [].
Proof. by induction n. Qed.

Lemma new_kv_spec raw kbase vbase maxkeys maxkeylen vblock_size k :
  start_ok raw kbase vbase maxkeys maxkeylen vblock_size k →
  ∃ kv, priskv_new_kv raw ∅ kbase vbase maxkeys maxkeylen vblock_size (sz k) = Ok kv ∧
    kv_inv kv (λ _, 0) [] None None ∧ store kv = ∅ ∧ max_key_length kv = maxkeylen ∧
    bd_size (value_buddy kv) = vblock_size ∧ priskv_get_expire_kv_count kv = 0.
Proof.
  intros []. unfold priskv_new_kv.
  rewrite (proj2 (Z.eqb_neq kbase 0)), (proj2 (Z.eqb_neq vbase 0)) by lia. simpl cassert.
  rewrite !Ok_bind.
  destruct (bucket_count_spec maxkeys) as (bc & -> & Hle & Hsmall & Hbig); [lia|].
  rewrite Ok_bind.
  assert (0 < bc) as Hbc.
  { destruct (decide (maxkeys < 32749)); [rewrite Hsmall; lia|].
    destruct Hbig as [Hin _]; [lia|]. unfold primes in Hin.
    repeat (apply elem_of_cons in Hin as [->|Hin]; [lia|]). by apply elem_of_nil in Hin. }
  assert (priskv_mem_key_size maxkeylen = 88 + maxkeylen) as Hks.
  { unfold priskv_mem_key_size, u16, sizeof_priskv_key. rewrite Z.mod_small; lia. }
  destruct (slab_create_spec "Keys" kbase (priskv_mem_key_size maxkeylen) maxkeys)
    as (s & -> & Hwf & Hu & Hsb & Hss & Hso & _); [lia|lia|lia|lia|]. rewrite Ok_bind.
  assert (0 < sz k <= 2 ^ 30) as Hsz by (split; [apply sz_pos|by apply (sz_le k 30)]).
  rewrite u32_small by lia.
  destruct (buddy_create_refines raw vbase k vblock_size)
    as (b & -> & Hb & Hbb & Hbs & _); [done..|]. rewrite Ok_bind.
  rewrite cassert_true by (apply Z.eqb_eq; done). rewrite Ok_bind.
  eexists. split; [done|]. split; [|split_and!; try done].
  2: { unfold store, linked. simpl. by rewrite linked_empty. }
  split; simpl; try done.
  - rewrite length_replicate. lia.
  - apply NoDup_nil_2.
  - unfold linked. simpl. by rewrite linked_empty.
  - intros i l a [-> _]%lookup_replicate_1 Ha. by apply elem_of_nil in Ha.
  - by intros a Ha%elem_of_nil.
  - exists (slab_blocks s). split; [done|]. rewrite slab_blocks_none by done. intros a.
    rewrite !lookup_empty. split; [by left|]. by intros [?|?].
  - exists (byte_blocks b (blocks k Free 0)). split; [by exists k, Free|].
    replace (byte_blocks b (blocks k Free 0)) with (∅ : gmap Z Z) by (by destruct k).
    split; simpl; try done. intros v [? Hv]. by rewrite lookup_empty in Hv.
  - rewrite Hss. lia.
Qed.
