(* ===== verification/KvSystem.v ===== *)
(** * The key-value store as a system

    Sequences of operations on a store that [priskv_new_kv] created: which states
    they reach, that no operation of such a sequence faults, and what the states
    they reach guarantee to the clients. *)

From S2P Require Import Prelude Utils Crc Lists Protocol Memory Slab Buddy Alloc KvModel KvInv KvOps KvSweep KvKeys KvStart.

Import Slab Buddy.

Section system.
(** The regular expression library. *)
Context (regcomp : list Z → option (list Z → bool)).
Implicit Types kv : kv_state.

Inductive kv_op :=
  | OpGet (key : list Z) (now : timeval)
  | OpGetEnd (a : Z)
  | OpSet (key : list Z) (valuelen timeout : Z) (now : timeval)
  | OpSetEnd (a : Z)
  | OpUpdate (a valuelen : Z)
  | OpDelete (key : list Z)
  | OpExpire (key : list Z) (timeout : Z) (now : timeval)
  | OpFlush (regex : list Z)
  | OpTick (now : timeval).

(** Running an operation; [pins] follows the references GETs hold. *)
Definition run (op : kv_op) (kv : kv_state) (pins : Z → Z) : res (kv_state * (Z → Z)) :=
  match op with
  | OpGet key now =>
      '(_, kn, _, kv) ← priskv_get_key kv key (klen key) now;
      Ok (kv, match kn with Some a => padd pins a 1 | None => pins end)
  | OpGetEnd a => kv ← priskv_get_key_end kv (Some a); Ok (kv, padd pins a (-1))
  | OpSet key valuelen timeout now =>
      '(_, _, _, kv) ← priskv_set_key kv key (klen key) valuelen timeout now; Ok (kv, pins)
  | OpSetEnd a => kv ← priskv_set_key_end kv (Some a); Ok (kv, pins)
  | OpUpdate a valuelen => kv ← priskv_update_valuelen kv a valuelen; Ok (kv, pins)
  | OpDelete key => '(_, kv) ← priskv_delete_key kv key (klen key); Ok (kv, pins)
  | OpExpire key timeout now =>
      '(_, kv) ← priskv_expire_key kv key (klen key) timeout now; Ok (kv, pins)
  | OpFlush regex => '(_, _, kv) ← priskv_flush_keys regcomp kv regex (klen regex); Ok (kv, pins)
  | OpTick now => kv ← priskv_clear_expired_kv kv now; Ok (kv, pins)
  end.

(** What the callers guarantee: keys the server accepted, requests the value
    allocator handles, the end of a GET once per GET, and the end of a SET (or
    the length of what it wrote) only while its node is there. *)
Definition op_ok (kv : kv_state) (pins : Z → Z) (op : kv_op) : Prop :=
  match op with
  | OpGet key _ => valid_key key ∧ ∀ a, pins a < 2 ^ 32 - 2
  | OpGetEnd a => 0 < pins a
  | OpSet key valuelen _ _ =>
      valid_key key ∧ klen key <= max_key_length kv ∧ valid_request (value_buddy kv) valuelen
  | OpSetEnd a => is_Some (key_mem kv !! a)
  | OpUpdate a valuelen => ∃ n, key_mem kv !! a = Some n ∧ 0 <= valuelen <= k_valuelen n
  | OpDelete key => valid_key key
  | OpExpire key _ _ => valid_key key ∧ ∀ a, pins a < 2 ^ 32 - 2
  | OpFlush _ => max_key_length kv < SAFEKEY
  | OpTick _ => 0 <= priskv_get_expire_kv_count kv < 2 ^ 64
  end.

Inductive reachable : kv_state → (Z → Z) → Prop :=
  | reach_start raw kbase vbase maxkeys maxkeylen vblock_size k kv :
      start_ok raw kbase vbase maxkeys maxkeylen vblock_size k →
      priskv_new_kv raw ∅ kbase vbase maxkeys maxkeylen vblock_size (sz k) = Ok kv →
      reachable kv (λ _, 0)
  | reach_step kv pins op kv' pins' :
      reachable kv pins → op_ok kv pins op → run op kv pins = Ok (kv', pins') →
      reachable kv' pins'.

Notation inv kv pins := (kv_inv kv pins [] None None).

(** Writes to a live node. *)
Lemma node_write_inv kv pins a n n' :
  inv kv pins → key_mem kv !! a = Some n → k_key n' = k_key n → k_keylen n' = k_keylen n →
  k_value_off n' = k_value_off n → 0 <= k_valuelen n' <= k_valuelen n →
  k_refcnt n' = k_refcnt n → inv (set_node kv a n') pins.
Proof.
  intros Hi Hn Hk Hkl Ho Hv Hr. destruct (inv_node _ _ _ _ _ Hi a n Hn) as (_ & _ & ?).
  pose proof (inv_pins _ _ _ _ _ Hi a) as [? _].
  apply (inv_update _ _ _ _ _ Hi a n); (done || lia).
Qed.

Lemma node_valuelen kv pins a n : inv kv pins → key_mem kv !! a = Some n → 0 <= k_valuelen n.
Proof.
  intros Hi Hn. destruct (inv_values _ _ _ _ _ Hi) as (mb & _ & Hown).
  destruct (own_live _ _ _ Hown _ _ Hn) as (? & _ & ?). lia.
Qed.

Lemma run_inv kv pins op :
  inv kv pins → op_ok kv pins op →
  ∃ kv' pins', run op kv pins = Ok (kv', pins') ∧ inv kv' pins'.
Proof.
  intros Hi Hok. destruct op as [key now|a|key vl tmo now|a|a vl|key|key tmo now|re|now]; simpl in *.
  - destruct Hok as [Hk Hp]. destruct (get_spec kv pins key now Hi Hk Hp) as (st & kn & out & kv' & -> & _ & Hr).
    simpl. do 2 eexists. split; [done|]. unfold get_result in Hr.
    destruct (store kv !! key) as [e|]; [|by destruct Hr as (_ & -> & _ & ->)].
    destruct (timed_out (e_expire e) now).
    + by destruct Hr as (_ & -> & _ & ? & _).
    + by destruct Hr as (-> & ? & _).
  - destruct (deref_inv _ _ _ _ _ Hi a Hok) as (kv' & -> & Hi' & _). simpl. eauto.
  - destruct Hok as (Hk & Hfit & Hreq).
    destruct (set_spec kv pins key vl tmo now Hi Hk Hfit Hreq) as (st & kn & out & kv' & -> & Hi' & _).
    simpl. eauto.
  - destruct Hok as [n Hn]. rewrite (node_Ok kv a n Hn). simpl. do 2 eexists. split; [done|].
    pose proof (node_valuelen kv pins a n Hi Hn). by eapply node_write_inv.
  - destruct Hok as (n & Hn & Hvl). unfold priskv_update_valuelen. rewrite (node_Ok kv a n Hn). simpl.
    do 2 eexists. split; [done|]. by eapply node_write_inv.
  - destruct (delete_spec kv pins key Hi Hok) as (kv' & -> & Hi' & _). simpl. eauto.
  - destruct Hok as [Hk Hp].
    destruct (expire_spec kv pins key tmo now Hi Hk Hp) as (st & kv' & -> & Hi' & _). simpl. eauto.
  - unfold priskv_flush_keys. destruct (regcomp_buf regcomp re (klen re)) as [rx|]; simpl; [|eauto].
    destruct (flush_spec rx kv pins Hi Hok) as (kv' & -> & Hi' & _). simpl. eauto.
  - destruct (clear_expired_spec now kv pins Hi Hok) as (kv' & -> & Hi' & _). simpl. eauto.
Qed.

Lemma reachable_inv kv pins : reachable kv pins → inv kv pins.
Proof.
  induction 1 as [raw kbase vbase maxkeys maxkeylen vblock_size k kv Hs Hnew
                 |kv pins op kv' pins' Hr IH Hok Hrun].
  - destruct (new_kv_spec _ _ _ _ _ _ _ Hs) as (kv1 & Heq & Hi & _). congruence.
  - destruct (run_inv kv pins op IH Hok) as (kv1 & pins1 & Heq & Hi'). congruence.
Qed.

(** (C2) No operation of a sequence of operations faults, on any keys, sizes and
    times, if the callers keep to [op_ok]: keys are not empty and not too long, a
    SET asks for a size the value allocator handles, a GET is ended once, a key has
    fewer than 2^32 - 2 readers, a SET is ended or its length updated only while
    its node is in memory (the code does not check: [set_end_after_delete]), FLUSH
    is used if keys are shorter than the buffer it prints them into, and fewer than
    2^64 keys have expired. Then no assertion fails, no list and no array is
    corrupted, the operation follows no pointer to a released node, every loop
    ends, and the store stays consistent. *)
Theorem kv_operations_never_fault kv pins op :
  reachable kv pins → op_ok kv pins op →
  ∃ kv' pins', run op kv pins = Ok (kv', pins') ∧ reachable kv' pins'.
Proof.
  intros Hr Hok. destruct (run_inv kv pins op (reachable_inv _ _ Hr) Hok) as (kv' & pins' & Heq & _).
  exists kv', pins'. split; [done|]. by eapply reach_step.
Qed.
End system.

(** The node behind an entry. *)
Lemma entry_node (kv : kv_state) pins key e :
  kv_inv kv pins [] None None → store kv !! key = Some e →
  ∃ n, key_mem kv !! e_node e = Some n ∧ k_key n = key ∧
    e_val e = priskv_value_to_pointer kv n ∧ e_len e = k_valuelen n.
Proof.
  intros Hi He. destruct (store_holds _ _ _ _ _ _ _ Hi He) as [_ (n & Hn & Hk & Hen)].
  exists n. rewrite Hen. by split_and!.
Qed.
