(* ===== verification/Examples.v ===== *)
(** * Concrete states

    A small store, empty and with one key, and a server with one connection: the
    inputs of the witnesses. *)

From S2P Require Import Prelude Utils Crc Lists Protocol Memory Slab Buddy Alloc KvModel KvInv KvOps KvSweep KvKeys KvStart KvSystem.

Import Slab Buddy.

(** ** A store used in the examples: four keys, four blocks of 4096 bytes *)

Definition ex_raw : list Z := replicate 8 0.

Definition ex0 : kv_state :=
  {| hash_heads := [[]; []; []; []];
     tiering_wait_heads := replicate 4 (mk_wait [] false);
     lru_head := []; bucket_count := 4; max_keys := 4; max_key_length := 16;
     key_slab := mk_slab "Keys" 104 0 4 65536 0 [15]; key_base := 65536;
     value_buddy := mk_buddy 4 0 4096 1048576 [4; 2; 2; 1; 1; 1; 1; 0]; value_base := 1048576;
     expire_routine_interval := 600; expire_routine_statics := mk_statics 0 0 0; key_mem := ∅ |}.

Lemma ex_start_ok : start_ok ex_raw 65536 1048576 4 16 4096 2.
Proof. split; simpl; try lia; vm_compute; (discriminate || reflexivity). Defined.

Lemma ex0_new : priskv_new_kv ex_raw ∅ 65536 1048576 4 16 4096 (sz 2) = Ok ex0.
Proof. vm_compute. reflexivity. Defined.

Definition no_regex : list Z → option (list Z → bool) := λ _, None.

Lemma ex0_reachable : reachable no_regex ex0 (λ _, 0).
Proof. eapply reach_start; [apply ex_start_ok|apply ex0_new]. Defined.

(** The key "ab". *)
Definition ex_key : list Z := [97; 98].

Lemma ex_key_valid : valid_key ex_key.
Proof. split; [repeat (apply Forall_cons; split; [lia|]); by apply Forall_nil|done]. Defined.

Lemma ex_request (kv : kv_state) : bd_size (value_buddy kv) = 4096 → valid_request (value_buddy kv) 5000.
Proof. apply example_request. Defined.

Lemma ex_set_ok : op_ok ex0 (λ _, 0) (OpSet ex_key 5000 1000 (TimeVal 100 0)).
Proof. split; [apply ex_key_valid|]. split; [done|]. by apply ex_request. Defined.

(** After SET of "ab", 5000 bytes, for a second. *)
Definition ex1 : kv_state :=
  match run no_regex (OpSet ex_key 5000 1000 (TimeVal 100 0)) ex0 (λ _, 0) with
  | Ok (kv, _) => kv | Fault _ => ex0
  end.

Lemma ex1_reachable : reachable no_regex ex1 (λ _, 0).
Proof.
  eapply reach_step; [apply ex0_reachable|apply ex_set_ok|].
  unfold ex1. vm_compute. reflexivity.
Defined.
