(* ===== verification/KvProps.v ===== *)
(** * The key-value store: what it guarantees *)

From S2P Require Import Prelude Utils Crc Lists Protocol Memory Slab Buddy Alloc KvModel KvInv KvOps KvSweep KvKeys KvStart KvSystem Examples.

Import Slab Buddy.

Lemma kv_operations_never_fault_witness :
  ∃ kv' pins', run no_regex (OpSet ex_key 5000 1000 (TimeVal 100 0)) ex0 (λ _, 0) = Ok (kv', pins') ∧
    reachable no_regex kv' pins'.
Proof.
  exact (kv_operations_never_fault no_regex ex0 (λ _, 0) _ ex0_reachable ex_set_ok).
Defined.

(** ** GET *)

(** (C5) GET, in a state any sequence of operations reaches: an unknown key is
    not found and nothing changes; a key past its expiry time is not found and
    leaves the store; a key a SET is still writing is reported as updating; any
    other key yields the address and length of its value and becomes the most
    recently used. A key that is found is referenced until the GET ends. *)
Theorem kv_get_correct regcomp (kv : kv_state) pins key now :
  reachable regcomp kv pins → valid_key key → (∀ a, pins a < 2 ^ 32 - 2) →
  ∃ st kn out kv', priskv_get_key kv key (klen key) now = Ok (st, kn, out, kv') ∧
    get_result kv kv' pins key now st kn out.
Proof.
  intros Hr Hk Hp.
  destruct (get_spec kv pins key now (reachable_inv _ _ _ Hr) Hk Hp) as (st & kn & out & kv' & ? & _ & ?).
  eauto 10.
Qed.

Lemma kv_get_correct_witness :
  ∃ st kn out kv', priskv_get_key ex1 ex_key (klen ex_key) (TimeVal 100 5) = Ok (st, kn, out, kv') ∧
    get_result ex1 kv' (λ _, 0) ex_key (TimeVal 100 5) st kn out.
Proof.
  apply (kv_get_correct no_regex ex1 (λ _, 0) ex_key (TimeVal 100 5) ex1_reachable ex_key_valid).
  intros a. lia.
Defined.

(** ** SET *)

(** (C4) SET: the old value of the key goes. Then keys are evicted one by one from
    the cold end of the LRU list, each of them only because the store without the
    ones before has no free node or no free block for the value; the other keys
    stay as they were. On success the key is at the hot end with a block of the size
    asked for, in process until the SET ends; SET fails only if there is still no
    room, with nothing left to evict or after [MAX_EVICT_RETRIES + 1] evictions,
    and then gives back what it allocated. *)
Theorem kv_set_correct regcomp (kv : kv_state) pins key valuelen timeout now :
  reachable regcomp kv pins → op_ok kv pins (OpSet key valuelen timeout now) →
  ∃ st kn out kv', priskv_set_key kv key (klen key) valuelen timeout now = Ok (st, kn, out, kv') ∧
    kv_inv kv' pins [] None None ∧ set_result kv kv' key valuelen timeout now st kn out.
Proof.
  intros Hr (Hk & Hfit & Hreq).
  destruct (set_spec kv pins key valuelen timeout now (reachable_inv _ _ _ Hr) Hk Hfit Hreq)
    as (st & kn & out & kv' & ? & ? & _ & ?). eauto 10.
Qed.

(** Setting "b" to 16000 bytes, all there are, evicts "ab". *)
Definition ex_other : list Z := [98].

Lemma ex_other_ok : op_ok ex1 (λ _, 0) (OpSet ex_other 16000 1000 (TimeVal 100 0)).
Proof.
  split; [by split; [apply Forall_cons; split; [lia|by apply Forall_nil]|]|]. split; [vm_compute; discriminate|].
  split; [lia|]. vm_compute. discriminate.
Defined.

Lemma kv_set_correct_witness :
  ∃ st kn out kv', priskv_set_key ex1 ex_other (klen ex_other) 16000 1000 (TimeVal 100 0) = Ok (st, kn, out, kv') ∧
    kv_inv kv' (λ _, 0) [] None None ∧ set_result ex1 kv' ex_other 16000 1000 (TimeVal 100 0) st kn out ∧
    (is_Some (store ex1 !! ex_key) ∧ st = PRISKV_RESP_STATUS_OK ∧ store kv' !! ex_key = None).
Proof.
  destruct (kv_set_correct no_regex ex1 (λ _, 0) ex_other 16000 1000 (TimeVal 100 0) ex1_reachable ex_other_ok)
    as (st & kn & out & kv' & Heq & Hi & Hres).
  exists st, kn, out, kv'. split; [exact Heq|]. split; [exact Hi|]. split; [exact Hres|].
  vm_compute in Heq. injection Heq as <- <- <- <-. split; [by eexists; vm_compute|]. split; [done|]. vm_compute. reflexivity.
Defined.

(** What a SET that succeeded leaves for its key. *)
Lemma set_result_store (kv kv' : kv_state) key valuelen timeout now a v :
  set_result kv kv' key valuelen timeout now PRISKV_RESP_STATUS_OK (Some a) (Some v) →
  store kv' !! key = Some (mk_entry a v valuelen (expiry timeout now) true).
Proof.
  intros (j & _ & _ & [(a' & v' & _ & [= <-] & [= <-] & _ & ->)|(? & _)]); [|done].
  apply lookup_insert_eq.
Qed.

(** (C3) What was SET is what is read: once the SET has ended, a GET before the
    expiry time returns the buffer the SET handed out, with its length. *)
Theorem kv_set_get regcomp (kv : kv_state) pins key valuelen timeout now later a v kv1 kv2 :
  reachable regcomp kv pins → op_ok kv pins (OpSet key valuelen timeout now) →
  (∀ x, pins x < 2 ^ 32 - 2) →
  priskv_set_key kv key (klen key) valuelen timeout now =
    Ok (PRISKV_RESP_STATUS_OK, Some a, Some v, kv1) →
  priskv_set_key_end kv1 (Some a) = Ok kv2 →
  timed_out (expiry timeout now) later = false →
  ∃ kv3, priskv_get_key kv2 key (klen key) later =
    Ok (PRISKV_RESP_STATUS_OK, Some a, Some (v, valuelen), kv3).
Proof.
  intros Hr (Hk & Hfit & Hreq) Hp Hset Hend Ht.
  destruct (set_spec kv pins key valuelen timeout now (reachable_inv _ _ _ Hr) Hk Hfit Hreq)
    as (st & kn & out & kv' & Heq & Hi1 & _ & Hres).
  rewrite Hset in Heq. injection Heq as <- <- <- <-.
  apply set_result_store in Hres.
  destruct (store_holds _ _ _ _ _ _ _ Hi1 Hres) as [Hh (n & Hn & Hkn & He)]. simpl in *.
  unfold node in Hend. rewrite Hn in Hend. injection Hend as <-.
  assert (kv_inv (set_node kv1 a (with_inprocess n false)) pins [] None None) as Hi2.
  { pose proof (node_valuelen kv1 pins a n Hi1 Hn). by eapply node_write_inv. }
  destruct (get_spec _ pins key later Hi2 Hk Hp) as (st & kn & out & kv3 & -> & _ & Hg).
  unfold get_result in Hg.
  assert (store (set_node kv1 a (with_inprocess n false)) !! key =
            Some (mk_entry a v valuelen (expiry timeout now) false)) as Hst.
  { apply (lookup_store _ _ _ _ _ _ _ Hi2). exists a, (with_inprocess n false). destruct Hh as [Hl _].
    split_and!; try done; [apply lookup_insert_eq|].
    unfold entry_of in *. simpl. injection He as -> -> ->. done. }
  rewrite Hst in Hg. simpl in Hg. rewrite Ht in Hg. destruct Hg as (-> & _ & _ & -> & -> & _).
  by exists kv3.
Qed.

Lemma kv_set_get_witness :
  ∃ kv1 kv2 kv3,
    priskv_set_key ex0 ex_key (klen ex_key) 5000 1000 (TimeVal 100 0) =
      Ok (PRISKV_RESP_STATUS_OK, Some 65536, Some 1048576, kv1) ∧
    priskv_set_key_end kv1 (Some 65536) = Ok kv2 ∧
    priskv_get_key kv2 ex_key (klen ex_key) (TimeVal 100 5) =
      Ok (PRISKV_RESP_STATUS_OK, Some 65536, Some (1048576, 5000), kv3).
Proof.
  assert (∃ kv1 kv2, priskv_set_key ex0 ex_key (klen ex_key) 5000 1000 (TimeVal 100 0) =
      Ok (PRISKV_RESP_STATUS_OK, Some 65536, Some 1048576, kv1) ∧
    priskv_set_key_end kv1 (Some 65536) = Ok kv2) as (kv1 & kv2 & Hset & Hend).
  { do 2 eexists. split; vm_compute; reflexivity. }
  destruct (kv_set_get no_regex ex0 (λ _, 0) ex_key 5000 1000 (TimeVal 100 0) (TimeVal 100 5)
    65536 1048576 kv1 kv2 ex0_reachable ex_set_ok ltac:(intros x; lia) Hset Hend eq_refl) as [kv3 Hget].
  exists kv1, kv2, kv3. split; [exact Hset|]. split; [exact Hend|exact Hget].
Defined.

(** ** DELETE and EXPIRE *)

(** DELETE removes exactly its key, and says whether it was there. *)
Theorem kv_delete_correct regcomp (kv : kv_state) pins key :
  reachable regcomp kv pins → valid_key key →
  ∃ kv', priskv_delete_key kv key (klen key) =
      Ok (if decide (is_Some (store kv !! key)) then PRISKV_RESP_STATUS_OK
          else PRISKV_RESP_STATUS_NO_SUCH_KEY, kv') ∧
    kv_inv kv' pins [] None None ∧ store kv' = delete key (store kv).
Proof.
  intros Hr Hk. destruct (delete_spec kv pins key (reachable_inv _ _ _ Hr) Hk) as (kv' & ? & ? & _ & ?).
  eauto.
Qed.

Lemma kv_delete_correct_witness :
  ∃ kv', priskv_delete_key ex1 ex_key (klen ex_key) = Ok (PRISKV_RESP_STATUS_OK, kv') ∧
    store kv' = delete ex_key (store ex1).
Proof.
  destruct (kv_delete_correct no_regex ex1 (λ _, 0) ex_key ex1_reachable ex_key_valid)
    as (kv' & Heq & _ & Hst).
  exists kv'. split; [|exact Hst].
  rewrite decide_True in Heq; [exact Heq|]. vm_compute. eexists. reflexivity.
Defined.

(** EXPIRE sets the expiry time of a live key, changes nothing else, and
    drops a key that is already past its time. *)
Theorem kv_expire_correct regcomp (kv : kv_state) pins key timeout now :
  reachable regcomp kv pins → valid_key key → (∀ a, pins a < 2 ^ 32 - 2) →
  ∃ st kv', priskv_expire_key kv key (klen key) timeout now = Ok (st, kv') ∧
    kv_inv kv' pins [] None None ∧
    match store kv !! key with
    | None => st = PRISKV_RESP_STATUS_NO_SUCH_KEY ∧ kv' = kv
    | Some e =>
        if timed_out (e_expire e) now then
          st = PRISKV_RESP_STATUS_NO_SUCH_KEY ∧ store kv' = delete key (store kv)
        else
          st = PRISKV_RESP_STATUS_OK ∧
          store kv' = if timeout <? PRISKV_KEY_MAX_TIMEOUT
                      then <[key := with_e_expire e (priskv_time_add_ms now timeout)]> (store kv)
                      else store kv
    end.
Proof.
  intros Hr Hk Hp. destruct (expire_spec kv pins key timeout now (reachable_inv _ _ _ Hr) Hk Hp)
    as (st & kv' & ? & ? & _ & ?). eauto.
Qed.

Lemma kv_expire_correct_witness :
  ∃ st kv', priskv_expire_key ex1 ex_key (klen ex_key) 5 (TimeVal 100 7) = Ok (st, kv') ∧
    kv_inv kv' (λ _, 0) [] None None.
Proof.
  destruct (kv_expire_correct no_regex ex1 (λ _, 0) ex_key 5 (TimeVal 100 7) ex1_reachable ex_key_valid
    ltac:(intros a; lia)) as (st & kv' & Heq & Hi & _).
  exists st, kv'. split; [exact Heq|exact Hi].
Defined.

(** ** FLUSH and the expiry routine *)

(** FLUSH removes exactly the keys its pattern matches, and counts them; a
    pattern that does not compile changes nothing. *)
Theorem kv_flush_correct regcomp (kv : kv_state) pins regex :
  reachable regcomp kv pins → max_key_length kv < SAFEKEY →
  ∃ st nkey kv', priskv_flush_keys regcomp kv regex (klen regex) = Ok (st, nkey, kv') ∧
    match regcomp_buf regcomp regex (klen regex) with
    | None => st = PRISKV_RESP_STATUS_INVALID_REGEX ∧ nkey = None ∧ kv' = kv
    | Some rx =>
        st = PRISKV_RESP_STATUS_OK ∧ kv_inv kv' pins [] None None ∧
        store kv' = filter (λ ke, rx (cstr ke.1) = false) (store kv) ∧
        nkey = Some (u32 (Z.of_nat (size (store kv)) - Z.of_nat (size (store kv'))))
    end.
Proof.
  intros Hr Hs. unfold priskv_flush_keys.
  destruct (regcomp_buf regcomp regex (klen regex)) as [rx|]; [|eauto 10].
  destruct (flush_spec rx kv pins (reachable_inv _ _ _ Hr) Hs) as (kv' & -> & ? & _ & ?).
  simpl. do 3 eexists. split; [done|]. by split_and!.
Qed.

(** Patterns that match the keys starting with their text. *)
Definition prefix_regex : list Z → option (list Z → bool) :=
  λ p, Some (λ s, bool_decide (take (length p) s = p)).

Lemma ex0_reachable_prefix : reachable prefix_regex ex0 (λ _, 0).
Proof. eapply reach_start; [apply ex_start_ok|apply ex0_new]. Defined.

Lemma ex1_reachable_prefix : reachable prefix_regex ex1 (λ _, 0).
Proof.
  eapply reach_step; [apply ex0_reachable_prefix|apply ex_set_ok|].
  unfold ex1. vm_compute. reflexivity.
Defined.

Lemma kv_flush_correct_witness :
  ∃ st nkey kv', priskv_flush_keys prefix_regex ex1 [97] 1 = Ok (st, nkey, kv') ∧
    st = PRISKV_RESP_STATUS_OK ∧ kv_inv kv' (λ _, 0) [] None None.
Proof.
  destruct (kv_flush_correct prefix_regex ex1 (λ _, 0) [97] ex1_reachable_prefix eq_refl)
    as (st & nkey & kv' & Heq & Hst & Hi & _).
  exists st, nkey, kv'. split; [exact Heq|]. split; [exact Hst|exact Hi].
Defined.

(** The expiry routine removes exactly the keys that are past their time
    and adds their number to its statistics. *)
Theorem kv_clear_expired_correct regcomp (kv : kv_state) pins now :
  reachable regcomp kv pins → 0 <= priskv_get_expire_kv_count kv < 2 ^ 64 →
  ∃ kv', priskv_clear_expired_kv kv now = Ok kv' ∧ kv_inv kv' pins [] None None ∧
    store kv' = filter (λ ke, timed_out (e_expire ke.2) now = false) (store kv) ∧
    priskv_get_expire_kv_count kv' =
      u64 (priskv_get_expire_kv_count kv +
           (Z.of_nat (size (store kv)) - Z.of_nat (size (store kv')))) ∧
    priskv_get_expire_routine_times kv' = u64 (priskv_get_expire_routine_times kv + 1).
Proof.
  intros Hr Hc. destruct (clear_expired_spec now kv pins (reachable_inv _ _ _ Hr) Hc)
    as (kv' & ? & ? & _ & ?). eauto.
Qed.

Lemma kv_clear_expired_correct_witness :
  ∃ kv', priskv_clear_expired_kv ex1 (TimeVal 200 0) = Ok kv' ∧
    priskv_get_expire_routine_times kv' = 1.
Proof.
  destruct (kv_clear_expired_correct no_regex ex1 (λ _, 0) (TimeVal 200 0) ex1_reachable
    ltac:(vm_compute; split; [discriminate|reflexivity])) as (kv' & Heq & _ & _ & _ & Ht).
  exists kv'. split; [exact Heq|exact Ht].
Defined.

(** ** Memory *)

Lemma nodes_disjoint regcomp (kv : kv_state) pins a b n m :
  reachable regcomp kv pins → a ≠ b → key_mem kv !! a = Some n → key_mem kv !! b = Some m →
  let va := priskv_value_to_pointer kv n in
  let vb := priskv_value_to_pointer kv m in
  va + k_valuelen n <= vb ∨ vb + k_valuelen m <= va.
Proof.
  intros Hr Hne Hn Hm va vb. pose proof (reachable_inv _ _ _ Hr) as Hi.
  destruct (inv_values _ _ _ _ _ Hi) as (mb & Hrep & Hown).
  destruct (own_live _ _ _ Hown a n Hn) as (la & Ha & ?).
  destruct (own_live _ _ _ Hown b m Hm) as (lb & Hb & ?).
  assert (va ≠ vb) as Hv by (intros He; apply Hne; eapply (own_inj _ _ _ Hown); eauto).
  destruct (al_disjoint_law _ _ _ _ _ _ Hrep Ha Hb Hv); unfold va, vb in *; [left|right]; lia.
Qed.

(** (C9) In a store that operations made of a new one, not one recovered from a
    file ([recovered_value_is_reused]), two keys never share a byte of value
    memory, and the value a GET in flight is reading, even one deleted or
    overwritten meanwhile, shares none with any other key's. *)
Theorem kv_values_disjoint regcomp (kv : kv_state) pins :
  reachable regcomp kv pins →
  (∀ k1 k2 e1 e2, store kv !! k1 = Some e1 → store kv !! k2 = Some e2 → k1 ≠ k2 →
     e_val e1 + e_len e1 <= e_val e2 ∨ e_val e2 + e_len e2 <= e_val e1) ∧
  (∀ a, 0 < pins a → ∃ n, key_mem kv !! a = Some n ∧
     ∀ key e, store kv !! key = Some e → e_node e ≠ a →
       let va := priskv_value_to_pointer kv n in
       va + k_valuelen n <= e_val e ∨ e_val e + e_len e <= va).
Proof.
  intros Hr. pose proof (reachable_inv _ _ _ Hr) as Hi. split.
  - intros k1 k2 e1 e2 He1 He2 Hne.
    destruct (entry_node kv pins _ _ Hi He1) as (n & Hn & Hkn & -> & ->).
    destruct (entry_node kv pins _ _ Hi He2) as (m & Hm & Hkm & -> & ->).
    apply (nodes_disjoint _ _ _ (e_node e1) (e_node e2) n m Hr); [congruence|done..].
  - intros a Hp. destruct (inv_pins _ _ _ _ _ Hi a) as [_ [n Hn]]; [done|]. exists n.
    split; [done|]. intros key e He Hne.
    destruct (entry_node kv pins _ _ Hi He) as (m & Hm & _ & -> & ->).
    apply (nodes_disjoint _ _ _ a (e_node e) n m Hr); [congruence|done..].
Qed.

(** A second key, "c". *)
Definition ex2 : kv_state :=
  match run no_regex (OpSet [99] 5000 1000 (TimeVal 100 0)) ex1 (λ _, 0) with
  | Ok (kv, _) => kv | Fault _ => ex1
  end.

Lemma ex2_reachable : reachable no_regex ex2 (λ _, 0).
Proof.
  eapply reach_step with (op := OpSet [99] 5000 1000 (TimeVal 100 0)); [apply ex1_reachable| |].
  - split; [split; [repeat (apply Forall_cons; split; [lia|]); by apply Forall_nil|done]|]. split; [done|].
    by apply ex_request.
  - unfold ex2. vm_compute. reflexivity.
Defined.

Lemma kv_values_disjoint_witness :
  ∃ e1 e2, store ex2 !! ex_key = Some e1 ∧ store ex2 !! [99] = Some e2 ∧
    (e_val e1 + e_len e1 <= e_val e2 ∨ e_val e2 + e_len e2 <= e_val e1).
Proof.
  eexists _, _. split; [vm_compute; reflexivity|]. split; [vm_compute; reflexivity|].
  apply (proj1 (kv_values_disjoint no_regex ex2 (λ _, 0) ex2_reachable) ex_key [99]);
    [vm_compute; reflexivity|vm_compute; reflexivity|done].
Defined.

(** The number of linked nodes is the number of keys. *)
Lemma store_size (kv : kv_state) pins :
  kv_inv kv pins [] None None → size (store kv) = length (linked kv).
Proof.
  intros Hi. rewrite <- length_map_to_list, <- (length_fmap (e_node ∘ snd)).
  apply Permutation_length, NoDup_Permutation.
  - apply NoDup_fmap_2_strong; [|apply NoDup_map_to_list].
    intros [k1 e1] [k2 e2] Hin1 Hin2 Heq. simpl in *.
    apply elem_of_map_to_list in Hin1, Hin2.
    destruct (store_holds _ _ _ _ _ _ _ Hi Hin1) as [_ (n & Hn & Hkn & He1)].
    destruct (store_holds _ _ _ _ _ _ _ Hi Hin2) as [_ (m & Hm & Hkm & He2)].
    rewrite Heq in Hn, He1. assert (n = m) as -> by congruence. congruence.
  - pose proof (inv_nodup _ _ _ _ _ Hi) as Hnd. rewrite (inv_lists _ _ _ _ _ Hi) in Hnd.
    by rewrite app_nil_r in Hnd.
  - intros a. rewrite list_elem_of_fmap. split.
    + intros ([k e] & -> & Hin%elem_of_map_to_list). simpl.
      by destruct (store_holds _ _ _ _ _ _ _ Hi Hin) as [[? _] _].
    + intros Ha. destruct (linked_in_mem _ _ _ _ _ Hi a Ha) as [n Hn].
      exists (k_key n, entry_of kv a n). split; [done|]. apply elem_of_map_to_list.
      apply (lookup_store _ _ _ _ _ _ _ Hi). eauto 10.
Qed.

(** Without GETs in flight the nodes are the linked ones. *)
Lemma idle_nodes (kv : kv_state) pins a :
  kv_inv kv pins [] None None → (∀ x, pins x = 0) → is_Some (key_mem kv !! a) ↔ a ∈ linked kv.
Proof.
  intros Hi Hp. split; [|apply (linked_in_mem _ _ _ _ _ Hi)].
  intros [n Hn]. destruct (inv_node _ _ _ _ _ Hi a n Hn) as (_ & Hr & ?).
  rewrite Hp in Hr. apply (lru_linked _ _ _ _ _ Hi). destruct (decide (a ∈ lru_head kv)); [done|].
  rewrite bool_decide_false in Hr by done. simpl in Hr. lia.
Qed.

(** No node is leaked: with no GET in flight, the number of slab objects in
    use is the number of keys in the store. *)
Theorem kv_no_leak regcomp (kv : kv_state) pins :
  reachable regcomp kv pins → (∀ a, pins a = 0) →
  priskv_get_keys_inuse kv = Z.of_nat (size (store kv)).
Proof.
  intros Hr Hp. pose proof (reachable_inv _ _ _ Hr) as Hi.
  rewrite (store_size kv pins Hi).
  destruct (inv_slab _ _ _ _ _ Hi) as (ms & [Hwf ->] & Hms).
  unfold priskv_get_keys_inuse, priskv_slab_inuse. rewrite (wf_inuse _ Hwf). f_equal.
  set (s := key_slab kv) in *.
  change (size (used s)) with (length (elements (used s))).
  rewrite <- (length_fmap (object_addr s)). apply Permutation_length, NoDup_Permutation.
  - apply NoDup_fmap_2_strong; [|apply NoDup_elements]. intros i j _ _. by apply object_addr_inj.
  - pose proof (inv_nodup _ _ _ _ _ Hi) as Hnd. rewrite (inv_lists _ _ _ _ _ Hi) in Hnd.
    by rewrite app_nil_r in Hnd.
  - intros a. rewrite <- (idle_nodes kv pins a Hi Hp), list_elem_of_fmap.
    specialize (Hms a). assert (is_Some (slab_blocks s !! a) ↔ is_Some (key_mem kv !! a)) as <- by naive_solver.
    split.
    + intros (i & -> & Hin%elem_of_elements). exists (sl_size s). apply lookup_slab_blocks; eauto.
    + intros [len Hl]. apply lookup_slab_blocks in Hl as (_ & i & Hin & ->); [|done].
      exists i. split; [done|]. by apply elem_of_elements.
Qed.

Lemma kv_no_leak_witness : priskv_get_keys_inuse ex1 = Z.of_nat (size (store ex1)).
Proof. apply (kv_no_leak no_regex ex1 (λ _, 0) ex1_reachable). intros a. reflexivity. Defined.

(** ** KEYS *)

Import ClientKeys.

(** (C34) KEYS end to end: when the listing fits the client's buffer, the server
    answers OK and the client's decoding of the buffer yields exactly the
    matching keys of the store with their value lengths; when it does not, the
    server says so, reports the size needed, and never writes past the
    buffer. *)
Theorem keys_roundtrip regcomp (kv : kv_state) pins regex rx keyslen :
  reachable regcomp kv pins → max_key_length kv < SAFEKEY →
  regcomp_buf regcomp regex (klen regex) = Some rx → 0 <= keyslen →
  encoded_len (listing kv rx) < 2 ^ 32 → Forall entry_ok (listing kv rx) →
  ∃ o, priskv_get_keys regcomp kv regex (klen regex) keyslen =
      Ok (if encoded_len (listing kv rx) >? keyslen then PRISKV_RESP_STATUS_VALUE_TOO_BIG
          else PRISKV_RESP_STATUS_OK, Some o) ∧
    ko_reallen o = encoded_len (listing kv rx) ∧
    Z.of_nat (length (ko_buf o)) <= keyslen ∧
    (encoded_len (listing kv rx) <= keyslen →
       priskv_rdma_keys_req_cb (ko_buf o) (ko_reallen o) =
         Ok (Some (ko_nkey o, listing kv rx))) ∧
    (∀ key len, (key, len) ∈ listing kv rx ↔
       rx (cstr key) = true ∧ ∃ e, store kv !! key = Some e ∧ e_len e = len).
Proof.
  intros Hr Hs Hrx Hk Hlen Hok. pose proof (reachable_inv _ _ _ Hr) as Hi.
  destruct (get_keys_spec kv pins Hi Hs rx regcomp regex (klen regex) keyslen Hrx Hk Hlen)
    as (o & Heq & Hro & Hno & Hbo & Henc).
  change (listed kv rx (linked kv)) with (listing kv rx) in *.
  exists o. split_and!; try done.
  - intros Hle. rewrite Henc by lia. rewrite Hro, Hno. by apply decode_encode.
  - intros key len. unfold listing, listed. rewrite list_elem_of_omap. split.
    + intros (a & Ha & He). destruct (key_mem kv !! a) as [n|] eqn:Hn; simpl in He; [|done].
      destruct (rx (cstr (k_key n))) eqn:Hm; [|done]. injection He as <- <-. split; [done|].
      exists (entry_of kv a n). split; [|done]. apply (lookup_store _ _ _ _ _ _ _ Hi). eauto 10.
    + intros (Hm & e & He & <-). destruct (store_holds _ _ _ _ _ _ _ Hi He) as [[Ha _] (n & Hn & <- & Hen)].
      exists (e_node e). split; [done|]. rewrite Hn. simpl. rewrite Hm. by rewrite Hen.
Qed.

Lemma keys_roundtrip_witness :
  ∃ o, priskv_get_keys prefix_regex ex1 [97] 1 100 = Ok (PRISKV_RESP_STATUS_OK, Some o) ∧
    priskv_rdma_keys_req_cb (ko_buf o) (ko_reallen o) = Ok (Some (ko_nkey o, [(ex_key, 5000)])).
Proof.
  set (rx := λ s : list Z, bool_decide (take 1 s = [97])).
  assert (listing ex1 rx = [(ex_key, 5000)]) as Hl by (vm_compute; reflexivity).
  destruct (keys_roundtrip prefix_regex ex1 (λ _, 0) [97] rx 100 ex1_reachable_prefix)
    as (o & Heq & _ & _ & Hdec & _); rewrite ?Hl in *.
  - vm_compute. reflexivity.
  - reflexivity.
  - lia.
  - vm_compute. reflexivity.
  - apply Forall_singleton. vm_compute. repeat split; discriminate.
  - exists o. split; [exact Heq|]. apply Hdec. vm_compute. discriminate.
Defined.

(** ** Expiry *)

(** A key set for [timeout] milliseconds is never dropped before its time,
    and always once a full millisecond has passed since; a key set without
    timeout never expires. The clock shows normalised times, and the expiry time
    is before the year 285 million. *)
Theorem expiry_times timeout now later :
  timeval_ok now → timeval_ok later → 0 <= timeout < 2 ^ 62 →
  (timed_out (expiry timeout now) later = true → micros now + timeout * 1000 < micros later) ∧
  (micros now + timeout * 1000 + 1000 <= micros later → timed_out (expiry timeout now) later = true) ∧
  timed_out (expiry PRISKV_KEY_MAX_TIMEOUT now) later = false.
Proof.
  intros [Hn1 Hn2] [Hl1 Hl2] Ht.
  destruct (time_add_ms_exact now timeout Hn2) as [Hm Hu]; [lia|].
  assert (expiry timeout now = priskv_time_add_ms now timeout) as ->.
  { unfold expiry. rewrite (proj2 (Z.ltb_lt _ _)); [done|]. unfold PRISKV_KEY_MAX_TIMEOUT. lia. }
  assert (0 <= tv_sec (priskv_time_add_ms now timeout) < 2 ^ 53) as Hs.
  { unfold micros in Hm. lia. }
  destruct (elapsed_ms_spec (priskv_time_add_ms now timeout) later) as [He1 He2]; [lia..|].
  unfold timed_out. rewrite (proj2 (Z.ltb_ge _ 0)), (proj2 (Z.ltb_ge _ 0)) by lia. simpl.
  split_and!; [| |done].
  - rewrite Z.gtb_lt. lia.
  - rewrite Z.gtb_lt. lia.
Qed.

Lemma expiry_times_witness :
  timed_out (expiry 1000 (TimeVal 100 0)) (TimeVal 101 1000) = true.
Proof.
  refine (proj1 (proj2 (expiry_times 1000 (TimeVal 100 0) (TimeVal 101 1000) _ _ _)) _);
    unfold timeval_ok, micros; simpl; lia.
Defined.

(** A timeout of [2^64 - 2] milliseconds, just below the value that means
    none, overflows the subtraction that compares times: under wrap-around the
    key is past its time at once. *)
Theorem huge_timeout_expires_at_once :
  timed_out (expiry (PRISKV_KEY_MAX_TIMEOUT - 1) (TimeVal 1700000000 0)) (TimeVal 1700000000 0) = true.
Proof. reflexivity. Qed.

(** ** Where the code falls short *)

(** A SET holds no reference to its node. When the key is SET again before the
    first SET ends, the slab hands out the same node, and the end of the first
    SET publishes the second one's value before it is written. *)
Definition double_set : res (priskv_resp_status * option Z * option Z * kv_state) :=
  '(_, _, _, kv) ← priskv_set_key ex0 ex_key (klen ex_key) 100 1000 (TimeVal 100 0);
  priskv_set_key kv ex_key (klen ex_key) 200 1000 (TimeVal 100 1).

Theorem stale_set_end_publishes :
  match double_set with
  | Ok (_, Some a, Some v, kv) =>
      a = 65536 ∧
      (kv ← priskv_set_key_end kv (Some 65536);
       '(st, _, out, _) ← priskv_get_key kv ex_key (klen ex_key) (TimeVal 100 2);
       Ok (st, out)) = Ok (PRISKV_RESP_STATUS_OK, Some (v, 200))
  | _ => False
  end.
Proof. vm_compute. split; reflexivity. Qed.

(** When the key is deleted meanwhile, the end of the SET writes to a node that
    was released. *)
Theorem set_end_after_delete :
  ('(_, kn, _, kv) ← priskv_set_key ex0 ex_key (klen ex_key) 100 1000 (TimeVal 100 0);
   '(_, kv) ← priskv_delete_key kv ex_key (klen ex_key);
   priskv_set_key_end kv kn) = Fault UseAfterFree.
Proof. vm_compute. reflexivity. Qed.

(** An image with one complete key in slot 0, its value in the first block. *)
Definition ex_image (busy : bool) : gmap Z priskv_key :=
  {[ 65536 := mk_key (TimeVal (-1) (-1)) 1 busy 2 4096 0 ex_key ]}.

Definition recovered (busy : bool) : res (bool * kv_state) :=
  kv ← priskv_new_kv ex_raw (ex_image busy) 65536 1048576 4 16 4096 4;
  priskv_recover kv.

(** Recovery finds the key, but its value is not marked as in use: the next SET
    is given the same block. *)
Theorem recovered_value_is_reused :
  match recovered false with
  | Ok (true, kv) =>
      (e_val <$> store kv !! ex_key = Some 1048576) ∧
      ('(_, _, out, _) ← priskv_set_key kv [99] 1 4096 1000 (TimeVal 100 0); Ok out)
        = Ok (Some 1048576)
  | _ => False
  end.
Proof. vm_compute. split; reflexivity. Qed.

(** A key that was in process when the image was left makes recovery free a slab
    object that was never reserved; the count of objects wraps and the assertion
    stops the server. *)
Theorem recover_in_process_aborts : recovered true = Fault AssertFailed.
Proof. vm_compute. reflexivity. Qed.

(** A key of 1024 bytes does not fit the buffer KEYS and FLUSH copy it to. *)
Theorem safekey_overflow n : k_keylen n = 1024 → safekey_of n = Fault OutOfBounds.
Proof. intros Hn. unfold safekey_of. by rewrite Hn. Qed.

(** A request for no bytes passes the size check and walks below the leaves; if
    the word behind the tree is not 0 it goes on to read past the metadata. *)
Theorem buddy_alloc_zero :
  priskv_buddy_alloc (mk_buddy 4 0 4096 1048576 [4; 2; 2; 1; 1; 1; 1; 7]) 0 = Fault OutOfBounds.
Proof. vm_compute. reflexivity. Qed.
