(* ===== verification/ServerModel.v ===== *)
(** * The server: requests, transfers and responses

    [server/rdma.c] between the completion queue and the store: a request that
    arrives is checked and run against the store, values move by RDMA reads and
    writes, and every request is answered through a fixed set of response slots.
    With a backend behind the store ("tiering"), requests on one hash bucket wait
    for each other and finish in callbacks.

    The verbs library, the allocator of the C library, the clock and the backend
    drivers are not part of the program: their answers are the functions of
    section [server], indexed by the number of calls made so far, so that any
    sequence of answers is possible. *)

From S2P Require Import Prelude State Utils Crc Lists Protocol Wire Memory Slab Buddy Alloc KvModel KvStart.

(** ** State *)

Record priskv_rdma_conn_cap := mk_cap {
  max_sgl : Z;               (* uint16_t *)
  cap_max_key_length : Z;    (* uint16_t *)
  max_inflight_command : Z   (* uint16_t *)
}.

(** What is handed to the send queue: a response in a slot, or a transfer between
    local and remote memory on behalf of a work. *)
Record rdma_wr := mk_rdma_wr {
  rw_work_id : Z;
  rw_read : bool;
  rw_remote_addr : Z;
  rw_rkey : Z;
  rw_addr : Z;
  rw_length : Z
}.

Inductive send_wr :=
  | WrSend (slot request_id : Z) (status : priskv_resp_status) (length : Z)
  | WrRdma (w : rdma_wr).

(** A connection of a client. [c_resp] is the [status] field of every response
    slot; [c_bufs] the request buffers by address; [c_posted] and [c_recvs] what
    was posted to the send and receive queues; [c_keys] the KEYS buffer while it
    is registered; [c_backend] whether the connection's thread has a backend. *)
Record priskv_rdma_conn := mk_conn {
  conn_cap : priskv_rdma_conn_cap;
  c_closing : bool;
  c_stats : list (Z * Z);
  c_resps : Z;
  c_resp : list Z;
  c_bufs : gmap Z (list Z);
  c_posted : list send_wr;
  c_recvs : list Z;
  c_keys : option (Z * list Z);
  c_backend : bool
}.

(** The callback of a work and its argument. *)
Inductive rw_cb :=
  | cb_none
  | cb_get_key_end (keynode : option Z)
  | cb_set_key_end (keynode : option Z)
  | cb_tiering_get (treq : Z)
  | cb_tiering_set (treq : Z).

(** [w_keys]: the memory region is the KEYS buffer, not the values. *)
Record priskv_rdma_rw_work := mk_work {
  w_conn : Z;
  w_request_id : Z;
  w_req : Z;
  w_keys : bool;
  w_valuelen : Z;     (* uint32_t *)
  w_nsgl : Z;         (* uint16_t *)
  w_completed : Z;    (* uint16_t *)
  w_defer_resp : bool;
  w_cb : rw_cb
}.

Inductive priskv_backend_status :=
  | PRISKV_BACKEND_STATUS_OK
  | PRISKV_BACKEND_STATUS_ERROR
  | PRISKV_BACKEND_STATUS_NOT_FOUND
  | PRISKV_BACKEND_STATUS_VALUE_TOO_BIG
  | PRISKV_BACKEND_STATUS_TIMEOUT
  | PRISKV_BACKEND_STATUS_NO_SPACE.

Record priskv_tiering_req := mk_treq {
  t_conn : Z;
  t_req : Z;
  t_request_id : Z;
  t_key : list Z;
  t_keylen : Z;
  t_timeout : Z;
  t_cmd : Z;
  t_remote_valuelen : Z;
  t_valuelen : Z;
  t_value : Z;
  t_keynode : option Z;
  t_execute : bool;
  t_recv_reposted : bool;
  t_hash_head_index : Z;
  t_rdma_work : option Z
}.

(** [sv_submitted]: requests resubmitted to their thread; [sv_backend]: requests
    that wait for the backend. *)
Record server := mk_server {
  sv_kv : kv_state;
  sv_conns : gmap Z priskv_rdma_conn;
  sv_works : gmap Z priskv_rdma_rw_work;
  sv_treqs : gmap Z priskv_tiering_req;
  sv_submitted : list Z;
  sv_backend : list Z;
  sv_tick : Z
}.

(** ** State and faults *)

Notation M := (ST server).

(** An operation of the store. *)
Definition on_kv {A} (f : kv_state → res (A * kv_state)) : M A := λ s,
  match f (sv_kv s) with
  | Ok (a, kv) =>
      Ok (a, mk_server kv (sv_conns s) (sv_works s) (sv_treqs s) (sv_submitted s) (sv_backend s) (sv_tick s))
  | Fault e => Fault e
  end.

Definition get_conn (conn : Z) : M priskv_rdma_conn := λ s,
  match sv_conns s !! conn with Some c => Ok (c, s) | None => Fault UseAfterFree end.
Definition get_work (work : Z) : M priskv_rdma_rw_work := λ s,
  match sv_works s !! work with Some w => Ok (w, s) | None => Fault UseAfterFree end.
Definition get_treq (treq : Z) : M priskv_tiering_req := λ s,
  match sv_treqs s !! treq with Some t => Ok (t, s) | None => Fault UseAfterFree end.

Definition put_conn (conn : Z) (c : priskv_rdma_conn) : M unit := λ s,
  Ok (tt, mk_server (sv_kv s) (<[conn := c]> (sv_conns s)) (sv_works s) (sv_treqs s) (sv_submitted s)
            (sv_backend s) (sv_tick s)).
Definition set_works (f : gmap Z priskv_rdma_rw_work → gmap Z priskv_rdma_rw_work) : M unit := λ s,
  Ok (tt, mk_server (sv_kv s) (sv_conns s) (f (sv_works s)) (sv_treqs s) (sv_submitted s) (sv_backend s)
            (sv_tick s)).
Definition set_treqs (f : gmap Z priskv_tiering_req → gmap Z priskv_tiering_req) : M unit := λ s,
  Ok (tt, mk_server (sv_kv s) (sv_conns s) (sv_works s) (f (sv_treqs s)) (sv_submitted s) (sv_backend s)
            (sv_tick s)).
Definition submit (treq : Z) : M unit := λ s,
  Ok (tt, mk_server (sv_kv s) (sv_conns s) (sv_works s) (sv_treqs s) (sv_submitted s ++ [treq])
            (sv_backend s) (sv_tick s)).
Definition backend_wait (treq : Z) : M unit := λ s,
  Ok (tt, mk_server (sv_kv s) (sv_conns s) (sv_works s) (sv_treqs s) (sv_submitted s)
            (sv_backend s ++ [treq]) (sv_tick s)).

(** The number of the call. Memory that is allocated is named by it, so an
    address is never handed out twice. *)
Definition tick : M Z := λ s,
  Ok (sv_tick s, mk_server (sv_kv s) (sv_conns s) (sv_works s) (sv_treqs s) (sv_submitted s)
                   (sv_backend s) (sv_tick s + 1)).

(** Assignments to fields. *)
Definition with_posted (c : priskv_rdma_conn) (p : list send_wr) : priskv_rdma_conn :=
  mk_conn (conn_cap c) (c_closing c) (c_stats c) (c_resps c) (c_resp c) (c_bufs c) p (c_recvs c)
    (c_keys c) (c_backend c).
Definition with_resp (c : priskv_rdma_conn) (resp : list Z) (resps : Z) : priskv_rdma_conn :=
  mk_conn (conn_cap c) (c_closing c) (c_stats c) resps resp (c_bufs c) (c_posted c) (c_recvs c)
    (c_keys c) (c_backend c).
Definition with_recvs (c : priskv_rdma_conn) (r : list Z) : priskv_rdma_conn :=
  mk_conn (conn_cap c) (c_closing c) (c_stats c) (c_resps c) (c_resp c) (c_bufs c) (c_posted c) r
    (c_keys c) (c_backend c).
Definition with_keys (c : priskv_rdma_conn) (k : option (Z * list Z)) : priskv_rdma_conn :=
  mk_conn (conn_cap c) (c_closing c) (c_stats c) (c_resps c) (c_resp c) (c_bufs c) (c_posted c)
    (c_recvs c) k (c_backend c).
Definition with_stats (c : priskv_rdma_conn) (st : list (Z * Z)) : priskv_rdma_conn :=
  mk_conn (conn_cap c) (c_closing c) st (c_resps c) (c_resp c) (c_bufs c) (c_posted c) (c_recvs c)
    (c_keys c) (c_backend c).
Definition with_closing (c : priskv_rdma_conn) : priskv_rdma_conn :=
  mk_conn (conn_cap c) true (c_stats c) (c_resps c) (c_resp c) (c_bufs c) (c_posted c) (c_recvs c)
    (c_keys c) (c_backend c).

Definition work_nsgl (n : Z) (w : priskv_rdma_rw_work) : priskv_rdma_rw_work :=
  mk_work (w_conn w) (w_request_id w) (w_req w) (w_keys w) (w_valuelen w) n (w_completed w)
    (w_defer_resp w) (w_cb w).
Definition work_completed (n : Z) (w : priskv_rdma_rw_work) : priskv_rdma_rw_work :=
  mk_work (w_conn w) (w_request_id w) (w_req w) (w_keys w) (w_valuelen w) (w_nsgl w) n
    (w_defer_resp w) (w_cb w).

Definition treq_execute (b : bool) (t : priskv_tiering_req) : priskv_tiering_req :=
  mk_treq (t_conn t) (t_req t) (t_request_id t) (t_key t) (t_keylen t) (t_timeout t) (t_cmd t)
    (t_remote_valuelen t) (t_valuelen t) (t_value t) (t_keynode t) b (t_recv_reposted t)
    (t_hash_head_index t) (t_rdma_work t).
Definition treq_reposted (t : priskv_tiering_req) : priskv_tiering_req :=
  mk_treq (t_conn t) (t_req t) (t_request_id t) (t_key t) (t_keylen t) (t_timeout t) (t_cmd t)
    (t_remote_valuelen t) (t_valuelen t) (t_value t) (t_keynode t) (t_execute t) true
    (t_hash_head_index t) (t_rdma_work t).
Definition treq_valuelen (l : Z) (t : priskv_tiering_req) : priskv_tiering_req :=
  mk_treq (t_conn t) (t_req t) (t_request_id t) (t_key t) (t_keylen t) (t_timeout t) (t_cmd t)
    (t_remote_valuelen t) l (t_value t) (t_keynode t) (t_execute t) (t_recv_reposted t)
    (t_hash_head_index t) (t_rdma_work t).
Definition treq_value (v : Z) (kn : option Z) (t : priskv_tiering_req) : priskv_tiering_req :=
  mk_treq (t_conn t) (t_req t) (t_request_id t) (t_key t) (t_keylen t) (t_timeout t) (t_cmd t)
    (t_remote_valuelen t) (t_valuelen t) v kn (t_execute t) (t_recv_reposted t)
    (t_hash_head_index t) (t_rdma_work t).
Definition treq_work (w : option Z) (t : priskv_tiering_req) : priskv_tiering_req :=
  mk_treq (t_conn t) (t_req t) (t_request_id t) (t_key t) (t_keylen t) (t_timeout t) (t_cmd t)
    (t_remote_valuelen t) (t_valuelen t) (t_value t) (t_keynode t) (t_execute t) (t_recv_reposted t)
    (t_hash_head_index t) w.

(** Reading, changing and writing back a request. *)
Definition upd_treq (treq : Z) (f : priskv_tiering_req → priskv_tiering_req) : M unit :=
  t ← get_treq treq;
  set_treqs (insert treq (f t)).

(** ** Limits and sizes *)

Definition PRISKV_RDMA_MAX_INFLIGHT_COMMAND : Z := 4096.
Definition PRISKV_RDMA_MAX_SGL : Z := 8.
Definition PRISKV_RDMA_MAX_KEY_LENGTH : Z := 1024.
Definition PRISKV_RDMA_RESPONSE_FREE_STATUS : Z := 0xffff.
Definition priskv_rdma_max_rw_size : Z := 1024 * 1024 * 1024.
Definition EPROTO : Z := 71.
Definition ENOMEM : Z := 12.
Definition EINVAL : Z := 22.
Definition EIO : Z := 5.

Definition priskv_request_size_aligend (cap : priskv_rdma_conn_cap) : Z :=
  ALIGN_UP 32 (priskv_request_size (max_sgl cap) (cap_max_key_length cap)) 64.

Definition priskv_rdma_wr_size (cap : priskv_rdma_conn_cap) : Z :=
  u32 (max_inflight_command cap * (2 + max_sgl cap)).

(** ** Negotiation *)

Definition PRISKV_RDMA_CM_VERSION : Z := 1.

Inductive priskv_rdma_cm_status :=
  | PRISKV_RDMA_CM_REJ_STATUS_INVALID_CM_REP
  | PRISKV_RDMA_CM_REJ_STATUS_INVALID_VERSION
  | PRISKV_RDMA_CM_REJ_STATUS_INVALID_SGL
  | PRISKV_RDMA_CM_REJ_STATUS_INVALID_KEY_LENGTH
  | PRISKV_RDMA_CM_REJ_STATUS_INVALID_INFLIGHT_COMMAND
  | PRISKV_RDMA_CM_REJ_STATUS_ACL_REFUSE
  | PRISKV_RDMA_CM_REJ_STATUS_SERVER_ERROR.

(** The client's limits, completed, or the status and the value to refuse
    with. *)
Definition priskv_rdma_verify_conn_cap (client listener : priskv_rdma_conn_cap)
    : priskv_rdma_conn_cap + (priskv_rdma_cm_status * Z) :=
  let limit c l := if c =? 0 then Some l else if l <? c then None else Some c in
  match limit (max_sgl client) (max_sgl listener) with
  | None => inr (PRISKV_RDMA_CM_REJ_STATUS_INVALID_SGL, max_sgl listener)
  | Some sgl =>
      match limit (cap_max_key_length client) (cap_max_key_length listener) with
      | None => inr (PRISKV_RDMA_CM_REJ_STATUS_INVALID_KEY_LENGTH, cap_max_key_length listener)
      | Some len =>
          match limit (max_inflight_command client) (max_inflight_command listener) with
          | None => inr (PRISKV_RDMA_CM_REJ_STATUS_INVALID_INFLIGHT_COMMAND, max_inflight_command listener)
          | Some depth => inl (mk_cap sgl len depth)
          end
      end
  end.

Section server.
Context (regcomp : list Z → option (list Z → bool)).
(** Answers to the [n]-th call: does posting a work request succeed, does an
    allocation or registration of memory, what time is it, and does the backend
    call back before its function returns, and with what. *)
Context (nic_ok alloc_ok : Z → bool) (clock : Z → timeval).
Context (backend_now : Z → option (priskv_backend_status * Z)).
(** [priskv_backend_tiering_enabled()]. *)
Context (tiering_enabled : bool).

(** ** Responses *)

(** [priskv_rdma_response_free] on slot [i]. *)
Definition priskv_rdma_response_free (resp : list Z) (i : Z) : res (Z * list Z) :=
  status ← rd resp i;
  if status =? PRISKV_RDMA_RESPONSE_FREE_STATUS then Ok (- EPROTO, resp)
  else resp ← wr resp i PRISKV_RDMA_RESPONSE_FREE_STATUS; Ok (0, resp).

(** The search for a free slot; the counter is a [uint16_t]. *)
Fixpoint unused_scan (fuel : nat) (resp : list Z) (wr_size i : Z) : res (option Z) :=
  if i <? wr_size then
    match fuel with
    | O => Fault OutOfFuel
    | S fuel =>
        status ← rd resp i;
        if status =? PRISKV_RDMA_RESPONSE_FREE_STATUS then Ok (Some i)
        else unused_scan fuel resp wr_size (u16 (i + 1))
    end
  else Ok None.

Definition priskv_rdma_unused_response (c : priskv_rdma_conn) : res (option Z * list Z) :=
  let wr_size := priskv_rdma_wr_size (conn_cap c) in
  slot ← unused_scan (Z.to_nat wr_size) (c_resp c) wr_size 0;
  match slot with
  | Some i => resp ← wr (c_resp c) i (status_code PRISKV_RESP_STATUS_OK); Ok (Some i, resp)
  | None => Ok (None, c_resp c)
  end.

(** [htobe16] of a status, as the slot holds it. *)
Definition htobe16 (z : Z) : Z := (z mod 256) * 256 + z / 256 mod 256.

Definition post_send (conn : Z) (w : send_wr) : M bool :=
  t ← tick;
  if nic_ok t then
    c ← get_conn conn;
    _ ← put_conn conn (with_posted c (c_posted c ++ [w]));
    mret true
  else mret false.

Definition priskv_rdma_send_response (conn request_id : Z) (status : priskv_resp_status) (length : Z)
    : M Z :=
  c ← get_conn conn;
  '(slot, resp) ← lift (priskv_rdma_unused_response c);
  match slot with
  | None => mret (- EPROTO)
  | Some i =>
      resp ← lift (wr resp i (htobe16 (status_code status)));
      _ ← put_conn conn (with_resp c resp (c_resps c));
      ok ← post_send conn (WrSend i request_id status length);
      if ok : bool then
        c ← get_conn conn;
        _ ← put_conn conn (with_resp c (c_resp c) (u64 (c_resps c + 1)));
        mret 0
      else mret 1
  end.

Definition priskv_rdma_handle_send (conn slot : Z) : M Z :=
  c ← get_conn conn;
  '(ret, resp) ← lift (priskv_rdma_response_free (c_resp c) slot);
  _ ← put_conn conn (with_resp c resp (c_resps c));
  mret ret.

(** ** Receive buffers *)

(** Contents of a request buffer. *)
Definition req_buf (conn req : Z) : M (list Z) :=
  c ← get_conn conn;
  lift (match c_bufs c !! req with Some b => Ok b | None => Fault OutOfBounds end).

Definition priskv_rdma_recv_req (conn req : Z) : M Z :=
  c ← get_conn conn;
  _ ← lift (cassert (bool_decide (is_Some (c_bufs c !! req))));
  t ← tick;
  if nic_ok t then
    _ ← put_conn conn (with_recvs c (c_recvs c ++ [req]));
    mret (priskv_request_size_aligend (conn_cap c))
  else mret (- EIO).

(** ** Transfers *)

(** The inner loop of [priskv_rdma_rw_req]: one SGL in chunks. The result is the
    number of work requests so far, or [None] when posting failed. *)
Fixpoint rw_sgl (fuel : nat) (conn work : Z) (set : bool) (s : priskv_keyed_sgl)
    (val offset valuelen sgl_offset nsgl : Z) : M (option Z) :=
  match fuel with
  | O => lift (Fault OutOfFuel)
  | S fuel =>
      let len := priskv_min_u32 (u32 (sgl_length s - sgl_offset)) valuelen in
      let len := priskv_min_u32 len priskv_rdma_max_rw_size in
      ok ← post_send conn (WrRdma (mk_rdma_wr work set (u64 (sgl_addr s + sgl_offset)) (sgl_key s)
                                    (u64 (val + offset + sgl_offset)) len));
      if ok : bool then
        let sgl_offset := u32 (sgl_offset + len) in
        let nsgl := u16 (nsgl + 1) in
        if sgl_offset <? priskv_min_u32 (sgl_length s) valuelen
        then rw_sgl fuel conn work set s val offset valuelen sgl_offset nsgl
        else mret (Some nsgl)
      else mret None
  end.

(** Chunks have at least 1 GiB, but for the last one, and an SGL less than
    4 GiB. *)
Definition RW_FUEL : nat := 5.

Fixpoint rw_sgls (conn work : Z) (set : bool) (sgls : list priskv_keyed_sgl)
    (val offset valuelen nsgl : Z) : M (option Z) :=
  match sgls with
  | [] => mret (Some nsgl)
  | s :: sgls =>
      r ← rw_sgl RW_FUEL conn work set s val offset valuelen 0 nsgl;
      match r with
      | None => mret None
      | Some nsgl =>
          rw_sgls conn work set sgls val (u32 (offset + sgl_length s))
            (u32 (valuelen - sgl_length s)) nsgl
      end
  end.

(** The result is the return value and [*work_out]. *)
Definition priskv_rdma_rw_req (conn req : Z) (keys : bool) (val valuelen : Z) (set : bool)
    (cb : rw_cb) (defer_resp : bool) : M (Z * option Z) :=
  buf ← req_buf conn req;
  nsgl ← lift (req_nsgl buf);
  work ← tick;
  if negb (alloc_ok work) then mret (- ENOMEM, None) else
  request_id ← lift (req_request_id buf);
  _ ← set_works (insert work (mk_work conn request_id req keys valuelen 0 0 defer_resp cb));
  sgls ← lift (req_sgls buf nsgl);
  r ← rw_sgls conn work set sgls val 0 valuelen 0;
  match r with
  | None => _ ← set_works (delete work); mret (- EIO, None)
  | Some n =>
      w ← get_work work;
      _ ← set_works (insert work (work_nsgl n w));
      mret (0, Some work)
  end.

(** The KEYS buffer. *)
Definition keys_mem_new (conn : Z) : M bool :=
  t ← tick;
  if alloc_ok t then
    c ← get_conn conn;
    _ ← put_conn conn (with_keys c (Some (t, [])));
    mret true
  else mret false.

Definition keys_mem_free (conn : Z) : M unit :=
  c ← get_conn conn;
  put_conn conn (with_keys c None).

(** ** Slow queries *)

(** What [strncpy] reads: up to [n] bytes, until a NUL. *)
Definition strncpy_bytes (buf : list Z) (off n : Z) : res (list Z) :=
  let s := slice buf off n in
  if bool_decide (0 ∈ s) || (Z.of_nat (length s) =? n) then Ok (until_nul s) else Fault OutOfBounds.

(** [priskv_string_shorten] with the bytes at [off] of a buffer as source. *)
Definition priskv_string_shorten (buf : list Z) (off src_len dst_len : Z) : res (list Z) :=
  if dst_len <=? src_len then
    s ← strncpy_bytes buf off (dst_len - 1);
    Ok (if (6 <? dst_len) && (dst_len - 4 <=? Z.of_nat (length s))
        then take (Z.to_nat (dst_len - 4)) s ++ [46; 46; 46] else s)
  else strncpy_bytes buf off src_len.

(** The request is read again from its buffer, which was given back to the network
    card when the transfer began; the command, the key and its length are what is
    logged. *)
Definition priskv_check_and_log_slow_query (w : priskv_rdma_rw_work) : M (Z * Z * list Z) :=
  buf ← req_buf (w_conn w) (w_req w);
  command ← lift (req_command buf);
  nsgl ← lift (req_nsgl buf);
  keylen ← lift (req_key_length buf);
  key_short ← lift (priskv_string_shorten buf (priskv_request_key_off nsgl) keylen 128);
  mret (command, keylen, key_short).

Definition priskv_rdma_complete_rw_work (work : Z) (status : priskv_resp_status) (length : Z) : M Z :=
  w ← get_work work;
  ret ← priskv_rdma_send_response (w_conn w) (w_request_id w) status length;
  _ ← (if w_keys w then
         c ← get_conn (w_conn w);
         _ ← lift (cassert (bool_decide (is_Some (c_keys c))));
         keys_mem_free (w_conn w)
       else mret tt);
  _ ← priskv_check_and_log_slow_query w;
  _ ← set_works (delete work);
  mret ret.

(** ** Store operations, with the time of day *)

Definition get_key (key : list Z) (keylen : Z)
    : M (priskv_resp_status * option Z * option (Z * Z)) :=
  t ← tick;
  on_kv (λ kv, '(st, kn, out, kv) ← priskv_get_key kv key keylen (clock t); Ok (st, kn, out, kv)).

Definition set_key (key : list Z) (keylen valuelen timeout : Z)
    : M (priskv_resp_status * option Z * option Z) :=
  t ← tick;
  on_kv (λ kv, '(st, kn, out, kv) ← priskv_set_key kv key keylen valuelen timeout (clock t);
               Ok (st, kn, out, kv)).

Definition get_key_end (kn : option Z) : M unit :=
  on_kv (λ kv, kv ← priskv_get_key_end kv kn; Ok (tt, kv)).
Definition set_key_end (kn : option Z) : M unit :=
  on_kv (λ kv, kv ← priskv_set_key_end kv kn; Ok (tt, kv)).
Definition delete_key (key : list Z) (keylen : Z) : M priskv_resp_status :=
  on_kv (λ kv, priskv_delete_key kv key keylen).

(** ** Statistics *)

Definition stats_ops (conn command : Z) : M unit :=
  c ← get_conn conn;
  '(ops, bytes) ← lift (rd (c_stats c) command);
  st ← lift (wr (c_stats c) command (u64 (ops + 1), bytes));
  put_conn conn (with_stats c st).
Definition stats_bytes (conn command n : Z) : M unit :=
  c ← get_conn conn;
  '(ops, bytes) ← lift (rd (c_stats c) command);
  st ← lift (wr (c_stats c) command (ops, u64 (bytes + n)));
  put_conn conn (with_stats c st).

(** ** Tiering: the end of a request *)

Definition serialize_exit (treq : Z) : M unit :=
  t ← get_treq treq;
  next ← on_kv (λ kv, priskv_key_serialize_exit kv (t_hash_head_index t));
  match next with
  | None => mret tt
  | Some next => _ ← upd_treq next (treq_execute true); submit next
  end.

(** [if (treq->execute)]: let the next request of the bucket go. *)
Definition release (treq : Z) : M unit :=
  t ← get_treq treq;
  if t_execute t then
    _ ← serialize_exit treq;
    upd_treq treq (treq_execute false)
  else mret tt.

Definition priskv_tiering_req_repost_recv (treq : Z) : M unit :=
  t ← get_treq treq;
  if t_recv_reposted t then mret tt else
  _ ← priskv_rdma_recv_req (t_conn t) (t_req t);
  upd_treq treq treq_reposted.

Definition priskv_tiering_req_free (treq : Z) : M unit := set_treqs (delete treq).

Definition priskv_tiering_finish (treq : Z) (status : priskv_resp_status) (length : Z) : M unit :=
  _ ← release treq;
  t ← get_treq treq;
  _ ← (if (0 <=? t_cmd t) && (t_cmd t <? PRISKV_COMMAND_MAX) then
         _ ← stats_ops (t_conn t) (t_cmd t);
         if ((t_cmd t =? PRISKV_COMMAND_TEST) || (t_cmd t =? PRISKV_COMMAND_GET))
            && bool_decide (status = PRISKV_RESP_STATUS_OK)
         then stats_bytes (t_conn t) (t_cmd t) length else mret tt
       else mret tt);
  _ ← priskv_tiering_req_repost_recv treq;
  _ ← match t_rdma_work t with
      | Some work =>
          _ ← priskv_rdma_complete_rw_work work status length;
          upd_treq treq (treq_work None)
      | None =>
          _ ← priskv_rdma_send_response (t_conn t) (t_request_id t) status length;
          mret tt
      end;
  priskv_tiering_req_free treq.

Definition priskv_tiering_get_rdma_complete_cb (treq : Z) : M unit :=
  t ← get_treq treq;
  _ ← get_key_end (t_keynode t);
  _ ← (if t_cmd t =? PRISKV_COMMAND_GET then
         _ ← stats_ops (t_conn t) (t_cmd t);
         stats_bytes (t_conn t) (t_cmd t) (t_valuelen t)
       else mret tt);
  _ ← priskv_tiering_req_repost_recv treq;
  priskv_tiering_req_free treq.

(** ** Tiering: callbacks of the backend *)

Definition priskv_tiering_get_backend_cb (status : priskv_backend_status) (valuelen treq : Z) : M unit :=
  let fail resp_status :=
    t ← get_treq treq;
    _ ← delete_key (t_key t) (t_keylen t);
    priskv_tiering_finish treq resp_status 0 in
  match status with
  | PRISKV_BACKEND_STATUS_OK =>
      t ← get_treq treq;
      _ ← match t_keynode t with
          | Some a => on_kv (λ kv, kv ← priskv_update_valuelen kv a valuelen; Ok (tt, kv))
          | None => lift (Fault NullDeref)
          end;
      _ ← upd_treq treq (treq_valuelen valuelen);
      '(_, keynode, _) ← get_key (t_key t) (t_keylen t);
      _ ← lift (cassert (bool_decide (keynode = t_keynode t)));
      _ ← release treq;
      '(ret, _) ← priskv_rdma_rw_req (t_conn t) (t_req t) false (t_value t) valuelen false
                    (cb_tiering_get treq) false;
      if ret =? 0 then mret tt
      else priskv_tiering_finish treq PRISKV_RESP_STATUS_SERVER_ERROR 0
  | PRISKV_BACKEND_STATUS_VALUE_TOO_BIG => fail PRISKV_RESP_STATUS_VALUE_TOO_BIG
  | PRISKV_BACKEND_STATUS_NOT_FOUND => fail PRISKV_RESP_STATUS_NO_SUCH_KEY
  | _ => fail PRISKV_RESP_STATUS_SERVER_ERROR
  end.

Definition priskv_tiering_test_backend_cb (status : priskv_backend_status) (valuelen treq : Z) : M unit :=
  match status with
  | PRISKV_BACKEND_STATUS_OK => priskv_tiering_finish treq PRISKV_RESP_STATUS_OK valuelen
  | PRISKV_BACKEND_STATUS_NOT_FOUND => priskv_tiering_finish treq PRISKV_RESP_STATUS_NO_SUCH_KEY 0
  | _ => priskv_tiering_finish treq PRISKV_RESP_STATUS_SERVER_ERROR 0
  end.

Definition priskv_tiering_set_backend_cb (status : priskv_backend_status) (valuelen treq : Z) : M unit :=
  t ← get_treq treq;
  _ ← delete_key (t_key t) (t_keylen t);
  match status with
  | PRISKV_BACKEND_STATUS_OK => priskv_tiering_finish treq PRISKV_RESP_STATUS_OK (t_valuelen t)
  | PRISKV_BACKEND_STATUS_NO_SPACE => priskv_tiering_finish treq PRISKV_RESP_STATUS_NO_MEM 0
  | _ => priskv_tiering_finish treq PRISKV_RESP_STATUS_SERVER_ERROR 0
  end.

Definition priskv_tiering_del_backend_cb (status : priskv_backend_status) (valuelen treq : Z) : M unit :=
  t ← get_treq treq;
  _ ← delete_key (t_key t) (t_keylen t);
  match status with
  | PRISKV_BACKEND_STATUS_OK => priskv_tiering_finish treq PRISKV_RESP_STATUS_OK 0
  | PRISKV_BACKEND_STATUS_NOT_FOUND => priskv_tiering_finish treq PRISKV_RESP_STATUS_NO_SUCH_KEY 0
  | _ => priskv_tiering_finish treq PRISKV_RESP_STATUS_SERVER_ERROR 0
  end.

(** The callback of a request is the one its command registered. *)
Definition backend_done (treq : Z) (status : priskv_backend_status) (valuelen : Z) : M unit :=
  t ← get_treq treq;
  if t_cmd t =? PRISKV_COMMAND_GET then priskv_tiering_get_backend_cb status valuelen treq
  else if t_cmd t =? PRISKV_COMMAND_SET then priskv_tiering_set_backend_cb status valuelen treq
  else if t_cmd t =? PRISKV_COMMAND_TEST then priskv_tiering_test_backend_cb status valuelen treq
  else priskv_tiering_del_backend_cb status valuelen treq.

(** [priskv_backend_get], [_set], [_test] and [_del] as their callers see them:
    the callback runs now or later. *)
Definition backend_call (treq : Z) : M unit :=
  n ← tick;
  match backend_now n with
  | Some (status, valuelen) => backend_done treq status valuelen
  | None => backend_wait treq
  end.

(** ** Tiering: the start of a request *)

(** [None]: the request waits for the one in flight. *)
Definition serialize_enter (treq : Z) : M bool :=
  t ← get_treq treq;
  if t_execute t then mret true else
  ok ← on_kv (λ kv, priskv_key_serialize_enter kv treq (t_hash_head_index t));
  if ok : bool then _ ← upd_treq treq (treq_execute true); mret true else mret false.

Definition has_backend (conn : Z) : M bool := c ← get_conn conn; mret (c_backend c).

Definition priskv_tiering_get (treq : Z) : M unit :=
  go ← serialize_enter treq;
  if negb go then mret tt else
  t ← get_treq treq;
  '(status, keynode, out) ← get_key (t_key t) (t_keylen t);
  match status, keynode, out with
  | PRISKV_RESP_STATUS_OK, Some a, Some (val, valuelen) =>
      _ ← upd_treq treq (λ t, treq_valuelen valuelen (treq_value val (Some a) t));
      if t_remote_valuelen t <? valuelen
      then priskv_tiering_finish treq PRISKV_RESP_STATUS_VALUE_TOO_BIG valuelen else
      '(ret, _) ← priskv_rdma_rw_req (t_conn t) (t_req t) false val valuelen false
                    (cb_tiering_get treq) false;
      if negb (ret =? 0) then
        _ ← get_key_end (Some a);
        priskv_tiering_finish treq PRISKV_RESP_STATUS_SERVER_ERROR 0
      else release treq
  | _, _, _ =>
      '(status, keynode, val) ← set_key (t_key t) (t_keylen t) (t_remote_valuelen t) (t_timeout t);
      _ ← set_key_end keynode;
      match status, keynode, val with
      | PRISKV_RESP_STATUS_OK, Some a, Some v =>
          _ ← upd_treq treq (treq_value v (Some a));
          backend ← has_backend (t_conn t);
          if negb backend then
            _ ← delete_key (t_key t) (t_keylen t);
            priskv_tiering_finish treq PRISKV_RESP_STATUS_SERVER_ERROR 0
          else backend_call treq
      | _, _, _ => priskv_tiering_finish treq status 0
      end
  end.

Definition priskv_tiering_test (treq : Z) : M unit :=
  go ← serialize_enter treq;
  if negb go then mret tt else
  t ← get_treq treq;
  '(status, keynode, out) ← get_key (t_key t) (t_keylen t);
  match status with
  | PRISKV_RESP_STATUS_OK =>
      _ ← priskv_tiering_finish treq PRISKV_RESP_STATUS_OK (default 0 (snd <$> out));
      get_key_end keynode
  | _ => backend_call treq
  end.

Definition priskv_tiering_set_rdma_complete_cb (treq : Z) : M unit :=
  t ← get_treq treq;
  _ ← set_key_end (t_keynode t);
  backend ← has_backend (t_conn t);
  if negb backend then
    _ ← delete_key (t_key t) (t_keylen t);
    priskv_tiering_finish treq PRISKV_RESP_STATUS_SERVER_ERROR 0
  else backend_call treq.

Definition priskv_tiering_set (treq : Z) : M unit :=
  go ← serialize_enter treq;
  if negb go then mret tt else
  t ← get_treq treq;
  '(status, keynode, val) ← set_key (t_key t) (t_keylen t) (t_remote_valuelen t) (t_timeout t);
  match status, keynode, val with
  | PRISKV_RESP_STATUS_OK, Some a, Some v =>
      _ ← upd_treq treq (treq_value v (Some a));
      '(ret, work) ← priskv_rdma_rw_req (t_conn t) (t_req t) false v (t_remote_valuelen t) true
                       (cb_tiering_set treq) true;
      _ ← upd_treq treq (treq_work work);
      if negb (ret =? 0) then
        _ ← set_key_end (Some a);
        _ ← delete_key (t_key t) (t_keylen t);
        priskv_tiering_finish treq PRISKV_RESP_STATUS_NO_MEM 0
      else mret tt
  | _, _, _ =>
      _ ← set_key_end keynode;
      priskv_tiering_finish treq status 0
  end.

Definition priskv_tiering_del (treq : Z) : M unit :=
  go ← serialize_enter treq;
  if negb go then mret tt else backend_call treq.

Definition priskv_backend_req_resubmit (treq : Z) : M Z :=
  t ← get_treq treq;
  if t_cmd t =? PRISKV_COMMAND_GET then _ ← priskv_tiering_get treq; mret 0
  else if t_cmd t =? PRISKV_COMMAND_SET then _ ← priskv_tiering_set treq; mret 0
  else if t_cmd t =? PRISKV_COMMAND_TEST then _ ← priskv_tiering_test treq; mret 0
  else if t_cmd t =? PRISKV_COMMAND_DELETE then _ ← priskv_tiering_del treq; mret 0
  else mret (-1).

(** The new request, or the status to answer with. *)
Definition priskv_tiering_req_new (conn req request_id : Z) (key : list Z) (keylen timeout cmd remote_valuelen : Z)
    : M (Z + priskv_resp_status) :=
  treq ← tick;
  (* the error path reads [treq->key] *)
  if negb (alloc_ok treq) then lift (Fault NullDeref) else
  backend ← has_backend conn;
  if negb backend then mret (inr PRISKV_RESP_STATUS_SERVER_ERROR) else
  k ← tick;
  if negb (alloc_ok k) then mret (inr PRISKV_RESP_STATUS_NO_MEM) else
  index ← (λ s, match hash_index (sv_kv s) key keylen with Ok i => Ok (i, s) | Fault e => Fault e end);
  _ ← set_treqs (insert treq (mk_treq conn req request_id key keylen timeout cmd remote_valuelen 0 0
                                None false false index None));
  mret (inl treq).

(** ** A transfer that completed *)

Definition run_cb (cb : rw_cb) : M unit :=
  match cb with
  | cb_none => mret tt
  | cb_get_key_end kn => get_key_end kn
  | cb_set_key_end kn => set_key_end kn
  | cb_tiering_get treq => priskv_tiering_get_rdma_complete_cb treq
  | cb_tiering_set treq => priskv_tiering_set_rdma_complete_cb treq
  end.

Definition priskv_rdma_handle_rw (work : Z) : M Z :=
  w ← get_work work;
  let completed := u16 (w_completed w + 1) in
  _ ← set_works (insert work (work_completed completed w));
  _ ← lift (cassert (completed <=? w_nsgl w));
  if completed <? w_nsgl w then mret 0 else
  _ ← run_cb (w_cb w);
  w ← get_work work;
  if w_defer_resp w then mret 0 else
  priskv_rdma_complete_rw_work work PRISKV_RESP_STATUS_OK (w_valuelen w).

(** ** A request that arrived *)

(** What the [switch] leaves: the return value, the bytes to count and whether
    a tiering request owns the receive buffer. *)
Definition outcome : Type := Z * Z * bool.
Definition answered (conn request_id : Z) (status : priskv_resp_status) (length : Z) : M outcome :=
  ret ← priskv_rdma_send_response conn request_id status length;
  mret (ret, 0, false).

(** With tiering, a request of its own. *)
Definition tier (conn req request_id : Z) (key : list Z) (keylen timeout cmd remote_valuelen : Z)
    (start : Z → M unit) : M outcome :=
  r ← priskv_tiering_req_new conn req request_id key keylen timeout cmd remote_valuelen;
  match r with
  | inr alloc_status => answered conn request_id alloc_status 0
  | inl treq => _ ← start treq; mret (0, 0, true)
  end.

Definition recv_get (conn req request_id : Z) (key : list Z) (keylen remote_valuelen : Z) : M outcome :=
  if tiering_enabled then
    tier conn req request_id key keylen PRISKV_KEY_MAX_TIMEOUT PRISKV_COMMAND_GET remote_valuelen
      priskv_tiering_get
  else
  '(status, keynode, out) ← get_key key keylen;
  match status, keynode, out with
  | PRISKV_RESP_STATUS_OK, Some a, Some (val, valuelen) =>
      if remote_valuelen <? valuelen then
        ret ← priskv_rdma_send_response conn request_id PRISKV_RESP_STATUS_VALUE_TOO_BIG valuelen;
        _ ← get_key_end (Some a);
        mret (ret, 0, false)
      else
        '(ret, _) ← priskv_rdma_rw_req conn req false val valuelen false (cb_get_key_end (Some a)) false;
        mret (ret, valuelen, false)
  | _, _, _ =>
      ret ← priskv_rdma_send_response conn request_id status 0;
      _ ← get_key_end keynode;
      mret (ret, 0, false)
  end.

Definition recv_set (conn req request_id : Z) (key : list Z) (keylen timeout remote_valuelen : Z)
    : M outcome :=
  if remote_valuelen =? 0 then answered conn request_id PRISKV_RESP_STATUS_VALUE_EMPTY 0 else
  if tiering_enabled then
    tier conn req request_id key keylen timeout PRISKV_COMMAND_SET remote_valuelen priskv_tiering_set
  else
  '(status, keynode, val) ← set_key key keylen remote_valuelen timeout;
  match status, keynode, val with
  | PRISKV_RESP_STATUS_OK, Some a, Some v =>
      '(ret, _) ← priskv_rdma_rw_req conn req false v remote_valuelen true (cb_set_key_end (Some a)) false;
      mret (ret, remote_valuelen, false)
  | _, _, _ =>
      ret ← priskv_rdma_send_response conn request_id status 0;
      _ ← set_key_end keynode;
      mret (ret, 0, false)
  end.

Definition recv_test (conn req request_id : Z) (key : list Z) (keylen timeout : Z) : M outcome :=
  if tiering_enabled then
    tier conn req request_id key keylen timeout PRISKV_COMMAND_TEST 0 priskv_tiering_test
  else
  '(status, keynode, out) ← get_key key keylen;
  ret ← priskv_rdma_send_response conn request_id status (default 0 (snd <$> out));
  _ ← get_key_end keynode;
  mret (ret, 0, false).

Definition recv_delete (conn req request_id : Z) (key : list Z) (keylen timeout : Z) : M outcome :=
  if tiering_enabled then
    tier conn req request_id key keylen timeout PRISKV_COMMAND_DELETE 0 priskv_tiering_del
  else
  status ← delete_key key keylen;
  answered conn request_id status 0.

Definition recv_expire (conn request_id : Z) (key : list Z) (keylen timeout : Z) : M outcome :=
  t ← tick;
  status ← on_kv (λ kv, priskv_expire_key kv key keylen timeout (clock t));
  answered conn request_id status 0.

(** [valuelen] and [nkeys] start at zero. *)
Definition get_keys (regex : list Z) (regexlen keyslen : Z) : M (priskv_resp_status * keys_out) :=
  on_kv (λ kv, '(status, o) ← priskv_get_keys regcomp kv regex regexlen keyslen;
               Ok (status, default (mk_keys 0 0 []) o, kv)).

Definition recv_keys (conn req request_id : Z) (key : list Z) (keylen remote_valuelen : Z) : M outcome :=
  c ← get_conn conn;
  if bool_decide (is_Some (c_keys c)) then
    _ ← priskv_rdma_send_response conn request_id PRISKV_RESP_STATUS_NO_MEM 0;
    mret (0, 0, false)
  else
  ok ← keys_mem_new conn;
  if negb ok then answered conn request_id PRISKV_RESP_STATUS_NO_MEM 0 else
  '(status, o) ← get_keys key keylen remote_valuelen;
  c ← get_conn conn;
  let buf := match c_keys c with Some (a, _) => a | None => 0 end in
  _ ← put_conn conn (with_keys c (Some (buf, ko_buf o)));
  if negb (bool_decide (status = PRISKV_RESP_STATUS_OK)) || (ko_reallen o =? 0) then
    _ ← keys_mem_free conn;
    answered conn request_id status (ko_reallen o)
  else
    '(ret, _) ← priskv_rdma_rw_req conn req true buf (ko_reallen o) false cb_none false;
    if ret =? 0 then mret (0, 0, false) else
    _ ← keys_mem_free conn;
    answered conn request_id status (ko_reallen o).

Definition recv_nrkeys (conn request_id : Z) (key : list Z) (keylen : Z) : M outcome :=
  '(status, o) ← get_keys key keylen 0;
  match status with
  | PRISKV_RESP_STATUS_VALUE_TOO_BIG => answered conn request_id PRISKV_RESP_STATUS_OK (ko_nkey o)
  | _ => answered conn request_id status 0
  end.

Definition recv_flush (conn request_id : Z) (key : list Z) (keylen : Z) : M outcome :=
  '(status, nkey) ← on_kv (λ kv, '(status, nkey, kv) ← priskv_flush_keys regcomp kv key keylen;
                                 Ok (status, nkey, kv));
  answered conn request_id status (default 0 nkey).

(** The [switch] on the command. *)
Definition recv_command (conn req command request_id timeout : Z) (buf key : list Z) (nsgl keylen : Z)
    : M outcome :=
  if command =? PRISKV_COMMAND_GET then
    sgls ← lift (req_sgls buf nsgl);
    recv_get conn req request_id key keylen (priskv_sgl_size_from_be sgls)
  else if command =? PRISKV_COMMAND_SET then
    sgls ← lift (req_sgls buf nsgl);
    recv_set conn req request_id key keylen timeout (priskv_sgl_size_from_be sgls)
  else if command =? PRISKV_COMMAND_TEST then recv_test conn req request_id key keylen timeout
  else if command =? PRISKV_COMMAND_DELETE then recv_delete conn req request_id key keylen timeout
  else if command =? PRISKV_COMMAND_EXPIRE then recv_expire conn request_id key keylen timeout
  else if command =? PRISKV_COMMAND_KEYS then
    sgls ← lift (req_sgls buf nsgl);
    recv_keys conn req request_id key keylen (priskv_sgl_size_from_be sgls)
  else if command =? PRISKV_COMMAND_NRKEYS then recv_nrkeys conn request_id key keylen
  else if command =? PRISKV_COMMAND_FLUSH then recv_flush conn request_id key keylen
  else
    _ ← priskv_rdma_send_response conn request_id PRISKV_RESP_STATUS_NO_SUCH_COMMAND 0;
    mret (- EPROTO, 0, false).

(** What the checks say about a message of [len] bytes: the status to refuse it
    with, or its SGL count and key length. *)
Definition check_request (cap : priskv_rdma_conn_cap) (nsgl len : Z) : priskv_resp_status + Z :=
  let keyoff := priskv_request_key_off nsgl in
  if len <? keyoff then inl PRISKV_RESP_STATUS_INVALID_COMMAND else
  let keylen := u16 (len - keyoff) in
  if keylen =? 0 then inl PRISKV_RESP_STATUS_KEY_EMPTY else
  if cap_max_key_length cap <? keylen then inl PRISKV_RESP_STATUS_KEY_TOO_BIG else
  if max_sgl cap <? nsgl then inl PRISKV_RESP_STATUS_INVALID_SGL else inr keylen.

Definition priskv_rdma_handle_recv (conn req len : Z) : M Z :=
  buf ← req_buf conn req;
  command ← lift (req_command buf);
  nsgl ← lift (req_nsgl buf);
  timeout ← lift (req_timeout buf);
  request_id ← lift (req_request_id buf);
  c ← get_conn conn;
  match check_request (conn_cap c) nsgl len with
  | inl status => _ ← priskv_rdma_send_response conn request_id status 0; mret (- EPROTO)
  | inr keylen =>
      key ← lift (priskv_request_key buf nsgl keylen);
      '(ret, bytes, tiering_inflight) ← recv_command conn req command request_id timeout buf key nsgl keylen;
      if tiering_inflight : bool then mret ret else
      _ ← stats_ops conn command;
      if ret =? 0 then
        _ ← priskv_rdma_recv_req conn req;
        _ ← stats_bytes conn command bytes;
        mret ret
      else mret ret
  end.

(** ** Completions *)

Inductive completion :=
  | WcRecv (req len : Z)
  | WcRdma (work : Z)
  | WcSend (slot : Z)
  | WcOther
  | WcError.

Definition priskv_rdma_close_client_async (conn : Z) : M unit :=
  c ← get_conn conn;
  if c_closing c then mret tt else put_conn conn (with_closing c).

(** One turn of the polling loop: whether it goes on. *)
Definition handle_wc (conn : Z) (wc : completion) : M bool :=
  let continue_if ok := if ok : bool then mret true
                        else _ ← priskv_rdma_close_client_async conn; mret false in
  match wc with
  | WcRecv req len => ret ← priskv_rdma_handle_recv conn req len; continue_if (ret =? 0)
  | WcRdma work => ret ← priskv_rdma_handle_rw work; continue_if (ret =? 0)
  | WcSend slot => _ ← priskv_rdma_handle_send conn slot; mret true
  | WcOther | WcError => continue_if false
  end.

(** The completions the queue holds, until one closes the connection. *)
Fixpoint priskv_rdma_handle_cq (conn : Z) (wcs : list completion) : M unit :=
  match wcs with
  | [] => mret tt
  | wc :: wcs =>
      go ← handle_wc conn wc;
      if go : bool then priskv_rdma_handle_cq conn wcs else mret tt
  end.

(** ** Connections *)

(** The loop that marks every response slot free. *)
Fixpoint free_slots (fuel : nat) (resp : list Z) (wr_size i : Z) : res (list Z) :=
  if i <? wr_size then
    match fuel with
    | O => Fault OutOfFuel
    | S fuel =>
        '(_, resp) ← priskv_rdma_response_free resp i;
        free_slots fuel resp wr_size (u16 (i + 1))
    end
  else Ok resp.

(** Addresses of the request buffers in an area at [base]. *)
Definition req_addrs (base size wr_size : Z) : list Z := (λ i, base + i * size) <$> seqZ 0 wr_size.

(** [None]: no memory. The buffers come from zeroed memory. *)
Definition priskv_rdma_new_ctrl_buffer (conn : Z) : M bool :=
  c ← get_conn conn;
  let size := u16 (priskv_request_size_aligend (conn_cap c)) in
  let wr_size := priskv_rdma_wr_size (conn_cap c) in
  base ← tick;
  if negb (alloc_ok base) then mret false else
  resp_buf ← tick;
  if negb (alloc_ok resp_buf) then mret false else
  resp ← lift (free_slots (Z.to_nat wr_size) (replicate (Z.to_nat wr_size) 0) wr_size 0);
  let bufs := list_to_map ((λ a, (a, replicate (Z.to_nat size) 0)) <$> req_addrs 0 size wr_size) in
  _ ← put_conn conn (mk_conn (conn_cap c) (c_closing c) (c_stats c) (c_resps c) resp bufs (c_posted c)
                       (c_recvs c) (c_keys c) (c_backend c));
  mret true.

(** The loop that posts every request buffer. *)
Fixpoint post_recvs (fuel : nat) (conn recv_req wr_size i : Z) : M bool :=
  if i <? wr_size then
    match fuel with
    | O => lift (Fault OutOfFuel)
    | S fuel =>
        recvsize ← priskv_rdma_recv_req conn recv_req;
        if recvsize <? 0 then mret false
        else post_recvs fuel conn (recv_req + recvsize) wr_size (u16 (i + 1))
    end
  else mret true.

Inductive connect_reply :=
  | Accepted
  | Rejected (status : priskv_rdma_cm_status) (value : Z)
  | AcceptFailed.

(** [sizeof(struct rdma_conn_param) + sizeof(priskv_rdma_cm_req)]. *)
Definition CM_REQ_LEN : Z := 24 + 32.

(** Steps 0 to 5 for a client allocated at [conn]; [private_data] is what came
    with the connect request, [acl_refuse] the verdict of the access list. *)
Definition connect_steps (listener_cap : priskv_rdma_conn_cap) (acl_refuse : bool)
    (private_data : list Z) (conn : Z) : M connect_reply :=
  if acl_refuse then mret (Rejected PRISKV_RDMA_CM_REJ_STATUS_ACL_REFUSE 0) else
  if negb (Z.of_nat (length private_data) =? CM_REQ_LEN)
  then mret (Rejected PRISKV_RDMA_CM_REJ_STATUS_INVALID_CM_REP CM_REQ_LEN) else
  version ← lift (get_be 2 private_data 0);
  if negb (version =? PRISKV_RDMA_CM_VERSION)
  then mret (Rejected PRISKV_RDMA_CM_REJ_STATUS_INVALID_VERSION PRISKV_RDMA_CM_VERSION) else
  sgl ← lift (get_be 2 private_data 2);
  keylen ← lift (get_be 2 private_data 4);
  depth ← lift (get_be 2 private_data 6);
  match priskv_rdma_verify_conn_cap (mk_cap sgl keylen depth) listener_cap with
  | inr (status, value) => mret (Rejected status value)
  | inl cap =>
      c ← get_conn conn;
      _ ← put_conn conn (mk_conn cap (c_closing c) (c_stats c) (c_resps c) (c_resp c) (c_bufs c)
                           (c_posted c) (c_recvs c) (c_keys c) (c_backend c));
      channel ← tick; cq ← tick; qp ← tick;
      if negb (alloc_ok channel && alloc_ok cq && alloc_ok qp)
      then mret (Rejected PRISKV_RDMA_CM_REJ_STATUS_SERVER_ERROR 0) else
      ok ← priskv_rdma_new_ctrl_buffer conn;
      if negb ok then mret (Rejected PRISKV_RDMA_CM_REJ_STATUS_SERVER_ERROR 0) else
      let wr_size := priskv_rdma_wr_size cap in
      ok ← post_recvs (Z.to_nat wr_size) conn 0 wr_size 0;
      if negb ok then mret (Rejected PRISKV_RDMA_CM_REJ_STATUS_SERVER_ERROR 0) else
      t ← tick;
      mret (if nic_ok t then Accepted else AcceptFailed)
  end.

Definition new_client : priskv_rdma_conn :=
  mk_conn (mk_cap 0 0 0) false (replicate (Z.to_nat PRISKV_COMMAND_MAX) (0, 0)) 0 [] ∅ [] [] None false.

Definition priskv_rdma_handle_connect_request (listener_cap : priskv_rdma_conn_cap) (acl_refuse : bool)
    (private_data : list Z) : M (Z * connect_reply) :=
  conn ← tick;
  _ ← lift (cassert (alloc_ok conn));
  _ ← put_conn conn new_client;
  reply ← connect_steps listener_cap acl_refuse private_data conn;
  _ ← match reply with Accepted => mret tt | _ => priskv_rdma_close_client_async conn end;
  mret (conn, reply).

(** The thread chosen for the client, with or without a backend. *)
Definition priskv_rdma_handle_established (conn : Z) (backend : bool) : M unit :=
  c ← get_conn conn;
  put_conn conn (mk_conn (conn_cap c) (c_closing c) (c_stats c) (c_resps c) (c_resp c) (c_bufs c)
                   (c_posted c) (c_recvs c) (c_keys c) backend).

Definition priskv_rdma_handle_disconnected (conn : Z) : M unit := priskv_rdma_close_client_async conn.

(** Closing clients are taken off the list and freed. *)
Definition priskv_rdma_close_disconnected : M unit := λ s,
  Ok (tt, mk_server (sv_kv s) (filter (λ p, c_closing p.2 = false) (sv_conns s)) (sv_works s)
            (sv_treqs s) (sv_submitted s) (sv_backend s) (sv_tick s)).
End server.
