(* ===== verification/ServerRdma.v ===== *)
(** * Transfers move the value

    [priskv_rdma_rw_req] of [server/rdma.c] splits the transfer of a value into
    work requests, SGL by SGL and in chunks of at most 1 GiB. Here: which bytes
    the work requests move. *)

From S2P Require Import Prelude State Utils Protocol Wire KvModel KvStart ServerModel.

#[local] Arguments priskv_rdma_max_rw_size : simpl never.

(** ** The plan: the work requests, whether or not posting succeeds *)

Definition chunk_len (s : priskv_keyed_sgl) (valuelen sgl_offset : Z) : Z :=
  priskv_min_u32 (priskv_min_u32 (u32 (sgl_length s - sgl_offset)) valuelen) priskv_rdma_max_rw_size.

Definition chunk (work : Z) (set : bool) (s : priskv_keyed_sgl) (val offset valuelen sgl_offset : Z)
    : rdma_wr :=
  mk_rdma_wr work set (u64 (sgl_addr s + sgl_offset)) (sgl_key s) (u64 (val + offset + sgl_offset))
    (chunk_len s valuelen sgl_offset).

Fixpoint sgl_plan (fuel : nat) (work : Z) (set : bool) (s : priskv_keyed_sgl)
    (val offset valuelen sgl_offset : Z) : option (list rdma_wr) :=
  match fuel with
  | O => None
  | S fuel =>
      let w := chunk work set s val offset valuelen sgl_offset in
      let next := u32 (sgl_offset + rw_length w) in
      if next <? priskv_min_u32 (sgl_length s) valuelen
      then cons w <$> sgl_plan fuel work set s val offset valuelen next
      else Some [w]
  end.

Section plan.
Context (nic_ok alloc_ok : Z → bool).

(** Posting work requests in order until one is refused. *)
Fixpoint post_all (conn : Z) (l : list rdma_wr) : M bool :=
  match l with
  | [] => mret true
  | w :: l =>
      ok ← post_send nic_ok conn (WrRdma w);
      if ok : bool then post_all conn l else mret false
  end.

Definition counted_posts (conn : Z) (l : list rdma_wr) (n : Z) : M (option Z) :=
  ok ← post_all conn l;
  mret (if ok : bool then Some (u16 (n + Z.of_nat (length l))) else None).

Lemma counted_posts_nil conn n s :
  0 <= n < 2 ^ 16 → counted_posts conn [] n s = Ok (Some n, s).
Proof. intros Hn. unfold counted_posts. simpl. rewrite Z.add_0_r. unfold u16. by rewrite Z.mod_small. Qed.

Lemma counted_posts_cons conn w l n s :
  counted_posts conn (w :: l) n s =
  (ok ← post_send nic_ok conn (WrRdma w);
   if ok : bool then counted_posts conn l (u16 (n + 1)) else mret None) s.
Proof.
  unfold counted_posts. cbn [post_all]. unfold mbind, ST_bind.
  destruct (post_send nic_ok conn (WrRdma w) s) as [[[] s']|e]; [|done..].
  destruct (post_all conn l s') as [[[] s'']|e]; [|done..].
  unfold mret, ST_ret. do 3 f_equal. simpl length. unfold u16.
  rewrite Zplus_mod_idemp_l. f_equal. lia.
Qed.

Lemma rw_sgl_plan fuel conn work set sg val offset valuelen : ∀ so n l s,
  0 <= n < 2 ^ 16 →
  sgl_plan fuel work set sg val offset valuelen so = Some l →
  rw_sgl nic_ok fuel conn work set sg val offset valuelen so n s = counted_posts conn l n s.
Proof.
  induction fuel as [|fuel IH]; intros so n l s Hn Hp; [done|]. cbn [sgl_plan] in Hp.
  destruct (_ <? _) eqn:Hlt in Hp.
  - apply fmap_Some in Hp as (l' & Hp & ->). rewrite counted_posts_cons.
    cbn [rw_sgl]. unfold mbind, ST_bind. fold (chunk_len sg valuelen so).
    fold (chunk work set sg val offset valuelen so).
    destruct (post_send _ _ _ _) as [[[] s']|e]; [|done..].
    change (chunk_len sg valuelen so) with (rw_length (chunk work set sg val offset valuelen so)).
    rewrite Hlt. apply IH; [apply Z.mod_pos_bound; lia|done].
  - injection Hp as <-. rewrite counted_posts_cons.
    cbn [rw_sgl]. unfold mbind, ST_bind. fold (chunk_len sg valuelen so).
    fold (chunk work set sg val offset valuelen so).
    destruct (post_send _ _ _ _) as [[[] s']|e]; [|done..].
    change (chunk_len sg valuelen so) with (rw_length (chunk work set sg val offset valuelen so)).
    rewrite Hlt. rewrite counted_posts_nil; [done|apply Z.mod_pos_bound; lia].
Qed.
End plan.

(** ** The bytes that move *)

(** A byte of local memory, a byte of remote memory and the key of its region. *)
Definition moves (w : rdma_wr) : list (Z * Z * Z) :=
  (λ d, (rw_addr w + d, rw_remote_addr w + d, rw_rkey w)) <$> seqZ 0 (rw_length w).

Definition sgl_bytes (val offset : Z) (s : priskv_keyed_sgl) : list (Z * Z * Z) :=
  (λ d, (val + offset + d, sgl_addr s + d, sgl_key s)) <$> seqZ 0 (sgl_length s).

(** The client's buffer, byte by byte, next to a value at [val]. *)
Fixpoint scatter (val offset : Z) (sgls : list priskv_keyed_sgl) : list (Z * Z * Z) :=
  match sgls with
  | [] => []
  | s :: sgls => sgl_bytes val offset s ++ scatter val (offset + sgl_length s) sgls
  end.

Fixpoint total (sgls : list priskv_keyed_sgl) : Z :=
  match sgls with [] => 0 | s :: sgls => sgl_length s + total sgls end.

(** The value ends in the last SGL, and where it does not fill that SGL one
    chunk holds what is left. *)
Fixpoint ends_in_last (valuelen : Z) (sgls : list priskv_keyed_sgl) : Prop :=
  match sgls with
  | [] => valuelen = 0
  | [s] => valuelen <= sgl_length s ∧ (valuelen <= priskv_rdma_max_rw_size ∨ valuelen = sgl_length s)
  | s :: sgls => sgl_length s <= valuelen ∧ ends_in_last (valuelen - sgl_length s) sgls
  end.

Definition sgl_ok (s : priskv_keyed_sgl) : Prop :=
  0 <= sgl_addr s ∧ 0 <= sgl_length s < 2 ^ 32 ∧ sgl_addr s + sgl_length s <= 2 ^ 64.

Lemma min_u32_spec a b : priskv_min_u32 a b = Z.min a b.
Proof. unfold priskv_min_u32. destruct (Z.ltb_spec a b); lia. Qed.

Definition sgl_byte (val offset : Z) (s : priskv_keyed_sgl) (d : Z) : Z * Z * Z :=
  (val + offset + d, sgl_addr s + d, sgl_key s).

Lemma moves_chunk work set s val offset valuelen so c :
  sgl_ok s → 0 <= val + offset → 0 <= so → so + c <= sgl_length s →
  val + offset + so + c <= 2 ^ 64 → chunk_len s valuelen so = c →
  moves (chunk work set s val offset valuelen so) = sgl_byte val offset s <$> seqZ so c.
Proof.
  intros (Ha & Hl & Hal) Hv Hso Hc Hvc Hlen. unfold moves, chunk. simpl. rewrite Hlen.
  destruct (decide (c <= 0)) as [Hc0|Hc0].
  { by rewrite !seqZ_nil by lia. }
  rewrite !u64_small by lia. replace (seqZ so c) with (Z.add so <$> seqZ 0 c) by (rewrite fmap_add_seqZ; f_equal; lia).
  rewrite <- list_fmap_compose.
  apply list_fmap_ext. intros _ d _. unfold sgl_byte, compose. f_equal. f_equal; lia.
Qed.

(** How far a transfer goes into an SGL. *)
Definition reach (s : priskv_keyed_sgl) (valuelen : Z) : Z := Z.min (sgl_length s) valuelen.

Lemma sgl_plan_bytes fuel work set s val offset valuelen : ∀ so,
  sgl_ok s → 0 <= valuelen < 2 ^ 32 → 0 <= so <= reach s valuelen →
  sgl_length s <= valuelen ∨ so = 0 ∧ valuelen <= priskv_rdma_max_rw_size →
  (0 < fuel)%nat → reach s valuelen - so <= Z.of_nat fuel * priskv_rdma_max_rw_size →
  0 <= val + offset → val + offset + sgl_length s <= 2 ^ 64 →
  ∃ l, sgl_plan fuel work set s val offset valuelen so = Some l ∧
    concat (moves <$> l) = sgl_byte val offset s <$> seqZ so (reach s valuelen - so) ∧
    Forall (λ w, rw_length w <= priskv_rdma_max_rw_size) l ∧ (0 < length l <= fuel)%nat.
Proof.
  assert (Hmax : priskv_rdma_max_rw_size = 2 ^ 30) by done.
  induction fuel as [|fuel IH]; intros so Hs Hvl Hso Hcase Hf Hfuel Hv Hva; [lia|].
  unfold reach in *. pose proof Hs as (Ha & Hl & Hal).
  assert (chunk_len s valuelen so = Z.min (Z.min (sgl_length s) valuelen - so) priskv_rdma_max_rw_size) as Hc.
  { unfold chunk_len. rewrite u32_small by lia. rewrite !min_u32_spec. lia. }
  set (c := chunk_len s valuelen so) in *.
  pose proof (moves_chunk work set s val offset valuelen so c Hs Hv) as Hm.
  cbn [sgl_plan]. change (rw_length (chunk work set s val offset valuelen so)) with c.
  rewrite u32_small, min_u32_spec by lia.
  replace (seqZ so (Z.min (sgl_length s) valuelen - so))
    with (seqZ so c ++ seqZ (so + c) (Z.min (sgl_length s) valuelen - (so + c)))
    by (rewrite <- seqZ_app by lia; f_equal; lia).
  rewrite fmap_app. destruct (Z.ltb_spec (so + c) (Z.min (sgl_length s) valuelen)) as [Hlt|Hge].
  - destruct (IH (so + c)) as (l & -> & Hml & Hle & Hlen); [done|lia|lia|lia|lia|lia|lia|lia|].
    exists (chunk work set s val offset valuelen so :: l). split; [done|]. rewrite fmap_cons. cbn [concat].
    rewrite Hm by (done || lia). rewrite Hml. split; [done|]. split; [|simpl; lia].
    constructor; [simpl; fold c; lia|done].
  - exists [chunk work set s val offset valuelen so]. split; [done|]. simpl.
    rewrite Hm, app_nil_r by (done || lia). rewrite (seqZ_nil (so + c)) by lia.
    rewrite fmap_nil, app_nil_r. split; [done|]. split; [|simpl; lia].
    constructor; [simpl; fold c; lia|constructor].
Qed.

Fixpoint sgls_plan (work : Z) (set : bool) (sgls : list priskv_keyed_sgl) (val offset valuelen : Z)
    : option (list rdma_wr) :=
  match sgls with
  | [] => Some []
  | s :: sgls =>
      l1 ← sgl_plan RW_FUEL work set s val offset valuelen 0;
      l2 ← sgls_plan work set sgls val (u32 (offset + sgl_length s)) (u32 (valuelen - sgl_length s));
      Some (l1 ++ l2)
  end.

Lemma counted_posts_app nic_ok conn l1 l2 : ∀ n s,
  0 <= n < 2 ^ 16 →
  counted_posts nic_ok conn (l1 ++ l2) n s =
  (r ← counted_posts nic_ok conn l1 n;
   match r with None => mret None | Some n => counted_posts nic_ok conn l2 n end) s.
Proof.
  induction l1 as [|w l1 IH]; intros n s Hn.
  - simpl app. unfold mbind, ST_bind. by rewrite counted_posts_nil.
  - simpl app. rewrite counted_posts_cons. unfold mbind, ST_bind. rewrite counted_posts_cons.
    unfold mbind, ST_bind. destruct (post_send _ _ _ _) as [[[] s']|e]; [|done..].
    rewrite IH by (apply Z.mod_pos_bound; lia). done.
Qed.

Lemma counted_posts_range nic_ok conn l n n' s s' :
  counted_posts nic_ok conn l n s = Ok (Some n', s') → 0 <= n' < 2 ^ 16.
Proof.
  unfold counted_posts, mbind, ST_bind. destruct (post_all _ _ _ _) as [[[] ?]|]; [|done..].
  intros [= <- <-]. apply Z.mod_pos_bound. lia.
Qed.

Lemma rw_sgls_plan nic_ok conn work set sgls val : ∀ offset valuelen n l s,
  0 <= n < 2 ^ 16 → sgls_plan work set sgls val offset valuelen = Some l →
  rw_sgls nic_ok conn work set sgls val offset valuelen n s = counted_posts nic_ok conn l n s.
Proof.
  induction sgls as [|sg sgls IH]; intros offset valuelen n l s Hn Hp; cbn [sgls_plan] in Hp.
  - injection Hp as <-. by rewrite counted_posts_nil.
  - apply bind_Some in Hp as (l1 & H1 & Hp). apply bind_Some in Hp as (l2 & H2 & [= <-]).
    rewrite counted_posts_app by done. cbn [rw_sgls]. unfold mbind, ST_bind.
    rewrite (rw_sgl_plan nic_ok RW_FUEL _ _ _ _ _ _ _ _ _ l1) by done.
    destruct (counted_posts nic_ok conn l1 n s) as [[[n'|] s']|e] eqn:Hc; [|done..].
    apply IH; [by eapply counted_posts_range|done].
Qed.

Lemma length_sgl_bytes val offset s : 0 <= sgl_length s → length (sgl_bytes val offset s) = Z.to_nat (sgl_length s).
Proof. intros. unfold sgl_bytes. by rewrite length_fmap, length_seqZ. Qed.

Lemma take_sgl_bytes val offset s n :
  0 <= n <= sgl_length s →
  take (Z.to_nat n) (sgl_bytes val offset s) = sgl_byte val offset s <$> seqZ 0 n.
Proof.
  intros Hn. unfold sgl_bytes. replace (sgl_length s) with (n + (sgl_length s - n)) by lia.
  rewrite seqZ_app by lia. rewrite fmap_app, take_app_le by (rewrite length_fmap, length_seqZ; lia).
  rewrite take_ge; [done|]. rewrite length_fmap, length_seqZ. lia.
Qed.

Lemma sgls_plan_bytes work set sgls val : ∀ offset valuelen,
  Forall sgl_ok sgls → 0 <= valuelen < 2 ^ 32 → ends_in_last valuelen sgls →
  0 <= offset → offset + total sgls < 2 ^ 32 → 0 <= val → val + offset + total sgls <= 2 ^ 64 →
  ∃ l, sgls_plan work set sgls val offset valuelen = Some l ∧
    concat (moves <$> l) = take (Z.to_nat valuelen) (scatter val offset sgls) ∧
    Forall (λ w, rw_length w <= priskv_rdma_max_rw_size) l ∧
    (length sgls <= length l <= RW_FUEL * length sgls)%nat.
Proof.
  assert (Hmax : priskv_rdma_max_rw_size = 2 ^ 30) by done.
  induction sgls as [|s sgls IH]; intros offset valuelen Hok Hvl He Ho Hto Hv Htv.
  { exists []. simpl in *. rewrite He. split_and!; [done..|lia|lia]. }
  apply Forall_cons in Hok as [Hs Hok]. pose proof Hs as (Ha & Hl & Hal).
  assert (0 <= total sgls) as Htot.
  { clear -Hok. induction Hok as [|x l (_ & ? & _) _ IH]; simpl; lia. }
  cbn [total] in *.
  assert (sgls = [] ∨ sgl_length s <= valuelen ∧ ends_in_last (valuelen - sgl_length s) sgls) as Hcase.
  { destruct sgls; [by left|right]. done. }
  destruct (sgl_plan_bytes RW_FUEL work set s val offset valuelen 0) as (l1 & Hp1 & Hm1 & Hb1 & Hl1).
  { done. } { done. } { unfold reach. lia. }
  { destruct Hcase as [->|[? _]]; [|by left]. simpl in He. lia. }
  { unfold RW_FUEL. lia. } { unfold reach, RW_FUEL. rewrite Hmax. lia. } { lia. } { lia. }
  cbn [sgls_plan scatter]. rewrite Hp1. simpl. rewrite Z.sub_0_r in Hm1. unfold reach in Hm1.
  destruct Hcase as [->|[Hle He']].
  - simpl in *. exists (l1 ++ []). split; [done|]. rewrite !app_nil_r. destruct He as [Hle _].
    rewrite Hm1, take_sgl_bytes, Z.min_r by lia. split_and!; [done..| |]; unfold RW_FUEL in *; lia.
  - destruct (IH (offset + sgl_length s) (valuelen - sgl_length s)) as (l2 & Hp2 & Hm2 & Hb2 & Hl2);
      [done|lia|done|lia|lia|lia|lia|].
    rewrite !u32_small by lia. rewrite Hp2. exists (l1 ++ l2). split; [done|].
    rewrite fmap_app, concat_app, Hm1, Hm2, take_app. rewrite Z.min_l by lia. split_and!.
    + rewrite length_sgl_bytes by lia. f_equal; [|f_equal; lia].
      rewrite take_ge by (rewrite length_sgl_bytes; lia). done.
    + by apply Forall_app.
    + rewrite length_app. simpl length. lia.
    + rewrite length_app. simpl length. unfold RW_FUEL in *. lia.
Qed.

Lemma sgl_plan_read fuel work set s val offset valuelen : ∀ so l,
  sgl_plan fuel work set s val offset valuelen so = Some l → Forall (λ w, rw_read w = set) l.
Proof.
  induction fuel as [|fuel IH]; intros so l Hp; [done|]. cbn [sgl_plan] in Hp.
  destruct (_ <? _) in Hp.
  - apply fmap_Some in Hp as (l' & Hp & ->). constructor; [done|by eapply IH].
  - injection Hp as <-. by constructor.
Qed.

Lemma sgls_plan_read work set sgls val : ∀ offset valuelen l,
  sgls_plan work set sgls val offset valuelen = Some l → Forall (λ w, rw_read w = set) l.
Proof.
  induction sgls as [|s sgls IH]; intros offset valuelen l Hp; cbn [sgls_plan] in Hp.
  - injection Hp as <-. constructor.
  - apply bind_Some in Hp as (l1 & H1 & Hp). apply bind_Some in Hp as (l2 & H2 & [= <-]).
    apply Forall_app. split; [by eapply sgl_plan_read|by eapply IH].
Qed.

(** ** The function *)

(** [s'] is [s] after the work requests [l] were posted on [conn]. *)
Definition posted_on (s s' : server) (conn : Z) (c : priskv_rdma_conn) (l : list send_wr) : Prop :=
  s' = mk_server (sv_kv s) (<[conn := with_posted c (c_posted c ++ l)]> (sv_conns s)) (sv_works s)
         (sv_treqs s) (sv_submitted s) (sv_backend s) (sv_tick s') ∧ sv_tick s <= sv_tick s'.

Lemma post_all_spec nic_ok conn l : ∀ s c,
  sv_conns s !! conn = Some c →
  ∃ ok l' s', post_all nic_ok conn l s = Ok (ok, s') ∧ posted_on s s' conn c (WrRdma <$> l') ∧
    l' `prefix_of` l ∧ (ok = true → l' = l).
Proof.
  induction l as [|w l IH]; intros s c Hc.
  - exists true, [], s. split; [done|]. split; [|split; [apply prefix_nil|done]]. split; [|lia].
    simpl. rewrite app_nil_r. destruct c, s; simpl in *. by rewrite insert_id.
  - cbn [post_all]. unfold mbind, ST_bind, post_send, tick, mbind, ST_bind. simpl.
    destruct (nic_ok (sv_tick s)).
    + unfold get_conn. simpl. rewrite Hc. unfold put_conn. simpl.
      match goal with |- context [post_all _ _ _ ?s1] =>
        destruct (IH s1 (with_posted c (c_posted c ++ [WrRdma w]))) as (ok & l' & s' & Heq & [Hp Ht] & Hpre & Hall)
      end; [simpl; by rewrite lookup_insert_eq|].
      rewrite Heq. exists ok, (w :: l'), s'. split; [done|]. split_and!.
      * split; [|simpl in Ht; lia]. rewrite Hp at 1. simpl. rewrite insert_insert_eq. unfold with_posted.
        simpl. by rewrite <- app_assoc.
      * by apply prefix_cons.
      * intros Hok. by rewrite Hall.
    + exists false, []. eexists. split; [done|]. split; [|split; [apply prefix_nil|done]]. split; [|simpl; lia].
      simpl. rewrite app_nil_r. destruct c, s; simpl in *. by rewrite insert_id.
Qed.

(** What a transfer request is: the buffer [req] of the connection holds a
    request with these SGLs. *)
Record transfer (s : server) (conn req : Z) (c : priskv_rdma_conn) (sgls : list priskv_keyed_sgl)
    (request_id val valuelen : Z) : Prop := {
  tr_conn : sv_conns s !! conn = Some c;
  tr_buf : ∃ buf, c_bufs c !! req = Some buf ∧ req_nsgl buf = Ok (Z.of_nat (length sgls)) ∧
             req_sgls buf (Z.of_nat (length sgls)) = Ok sgls ∧ req_request_id buf = Ok request_id;
  tr_sgls : Forall sgl_ok sgls;
  tr_total : total sgls < 2 ^ 32;
  tr_valuelen : 0 <= valuelen < 2 ^ 32;
  tr_value : 0 <= val ∧ val + total sgls <= 2 ^ 64;
  tr_many : Z.of_nat (length sgls) < 2 ^ 13
}.

(** (C6) A transfer whose value ends in the last element of the client's scatter
    list ([ends_in_last]; the code does not check, and otherwise moves bytes beyond
    the value, see [get_sends_past_value] and [set_writes_past_value]), the list
    being less than 4 GiB long, moves the value: the work requests
    [priskv_rdma_rw_req] posts, if the network card takes them all, move byte [i]
    of the value to or from byte [i] of the scatter list, each byte once and no
    byte beyond the value; none is larger than 1 GiB; and the work counts exactly
    the requests that were posted, so the last completion ends it. When an
    allocation or a post is refused, only a prefix of these requests was posted and
    the error is reported. *)
Theorem rw_req_moves_value nic_ok alloc_ok s conn req c sgls request_id keys val valuelen set cb defer :
  transfer s conn req c sgls request_id val valuelen → ends_in_last valuelen sgls →
  ∃ l ret work s',
    priskv_rdma_rw_req nic_ok alloc_ok conn req keys val valuelen set cb defer s = Ok (ret, work, s') ∧
    concat (moves <$> l) = take (Z.to_nat valuelen) (scatter val 0 sgls) ∧
    Forall (λ w, rw_read w = set ∧ rw_length w <= priskv_rdma_max_rw_size) l ∧
    match work with
    | Some work =>
        ret = 0 ∧
        sv_works s' = <[work := mk_work conn request_id req keys valuelen (Z.of_nat (length l)) 0 defer cb]>
                        (sv_works s) ∧
        (∃ c', sv_conns s' !! conn = Some c' ∧ c_posted c' = c_posted c ++ (WrRdma <$> l))
    | None => ret ≠ 0 ∧
        ∃ l' c', l' `prefix_of` l ∧ sv_conns s' !! conn = Some c' ∧ c_posted c' = c_posted c ++ (WrRdma <$> l')
    end.
Proof.
  intros Htr He. pose proof Htr as [Hc (buf & Hb & Hn & Hs & Hid) Hok Htot Hvl [Hv Hvt] Hmany].
  destruct (sgls_plan_bytes (sv_tick s) set sgls val 0 valuelen) as (l & Hp & Hm & Hmax & Hlen);
    [done|done|done|lia|lia|lia|lia|].
  pose proof (sgls_plan_read _ _ _ _ _ _ _ Hp) as Hread. exists l.
  unfold priskv_rdma_rw_req, req_buf, get_conn, tick, lift, mbind, ST_bind. simpl.
  rewrite Hc, Hb, Hn. simpl. destruct (alloc_ok (sv_tick s)) eqn:Ha; simpl.
  - rewrite Hid, Hs. unfold set_works. simpl. rewrite (rw_sgls_plan _ _ _ _ _ _ _ _ _ l) by (done || lia).
    unfold counted_posts, mbind, ST_bind.
    match goal with |- context [post_all _ _ _ ?s1] =>
      destruct (post_all_spec nic_ok conn l s1 c Hc) as (ok & l' & s' & -> & [Hs' _] & Hpre & Hall) end.
    destruct ok; simpl.
    + rewrite (Hall eq_refl) in *. unfold get_work. rewrite Hs'. simpl. rewrite lookup_insert_eq. simpl.
      eexists _, _, _. split; [done|]. split; [done|]. split; [by apply Forall_and|]. simpl.
      split; [done|]. rewrite insert_insert_eq. split; [|by eexists; rewrite lookup_insert_eq].
      unfold work_nsgl. simpl. do 2 f_equal. unfold u16. rewrite Z.mod_small; [lia|].
      unfold RW_FUEL in *. lia.
    + eexists _, _, _. split; [done|]. split; [done|]. split; [by apply Forall_and|]. simpl.
      split; [done|]. exists l'. eexists. split; [done|]. rewrite Hs'. simpl. rewrite lookup_insert_eq. done.
  - eexists _, _, _. split; [done|]. split; [done|]. split; [by apply Forall_and|]. simpl. split; [done|].
    exists [], c. split; [apply prefix_nil|]. split; [done|]. by rewrite app_nil_r.
Qed.
