(* ===== verification/ServerSafe.v ===== *)
(** * The server never faults

    An invariant of the server without tiering, and that every completion the
    network card can deliver preserves it, whatever the card, the allocator and
    the clients do. *)

From S2P Require Import Prelude State Utils Crc Lists Protocol Wire Memory Slab Buddy Alloc KvModel KvInv KvOps KvSweep KvKeys KvStart KvSystem ServerModel ServerRdma.

Import Slab Buddy.

#[local] Arguments priskv_rdma_max_rw_size : simpl never.

(** ** Runs that do not fault *)

Lemma safe_get_conn conn c s Q :
  sv_conns s !! conn = Some c → Q c s → safe (get_conn conn) s Q.
Proof. intros Hc HQ. exists c, s. unfold get_conn. by rewrite Hc. Qed.

Lemma safe_get_work work w s Q :
  sv_works s !! work = Some w → Q w s → safe (get_work work) s Q.
Proof. intros Hw HQ. exists w, s. unfold get_work. by rewrite Hw. Qed.

(** ** The invariant *)

Global Instance rw_cb_eq_dec : EqDecision rw_cb.
Proof. solve_decision. Defined.

Definition conn_ok (mkl : Z) (c : priskv_rdma_conn) : Prop :=
  0 <= max_sgl (conn_cap c) < 2 ^ 11 ∧
  0 <= cap_max_key_length (conn_cap c) <= mkl ∧
  Z.of_nat (length (c_resp c)) = priskv_rdma_wr_size (conn_cap c) ∧
  priskv_rdma_wr_size (conn_cap c) < 2 ^ 16 ∧
  length (c_stats c) = Z.to_nat PRISKV_COMMAND_MAX ∧
  ∀ req buf, c_bufs c !! req = Some buf → bytes buf ∧
    sizeof_priskv_request + sizeof_priskv_keyed_sgl * max_sgl (conn_cap c)
      + cap_max_key_length (conn_cap c) <= Z.of_nat (length buf).

(** What the operations of a request leave of a connection. *)
Definition same_conn (c c' : priskv_rdma_conn) : Prop :=
  conn_cap c' = conn_cap c ∧ c_bufs c' = c_bufs c ∧ length (c_resp c') = length (c_resp c) ∧
  length (c_stats c') = length (c_stats c) ∧ c_keys c' = c_keys c.

Lemma same_conn_refl c : same_conn c c.
Proof. done. Qed.

Lemma conn_ok_same mkl c c' : conn_ok mkl c → same_conn c c' → conn_ok mkl c'.
Proof. intros Hok (H1 & H2 & H3 & H4 & _). unfold conn_ok. rewrite H1, H2, H3, H4. done. Qed.

Definition work_ok (w : priskv_rdma_rw_work) : Prop :=
  0 <= w_completed w <= w_nsgl w ∧ w_nsgl w < 2 ^ 16 ∧
  w_defer_resp w = false ∧
  match w_cb w with cb_tiering_get _ | cb_tiering_set _ => False | _ => True end.

(** The works but the one being set up or completed. *)
Definition others (s : server) (x : option Z) : gmap Z priskv_rdma_rw_work :=
  match x with Some i => delete i (sv_works s) | None => sv_works s end.

(** Works that will end a GET of node [a], and KEYS works of a connection. *)
Definition getters (ws : gmap Z priskv_rdma_rw_work) (a : Z) : Z :=
  Z.of_nat (size (filter (λ p, w_cb p.2 = cb_get_key_end (Some a)) ws)).
Definition keys_works (ws : gmap Z priskv_rdma_rw_work) (conn : Z) : Z :=
  Z.of_nat (size (filter (λ p, w_keys p.2 = true ∧ w_conn p.2 = conn) ws)).

Record server_inv (s : server) (pins : Z → Z) (x : option Z) : Prop := mk_server_inv {
  si_kv : kv_inv (sv_kv s) pins [] None None;
  si_req n : 0 < n < 2 ^ 32 → valid_request (value_buddy (sv_kv s)) n;
  si_safekey : max_key_length (sv_kv s) < SAFEKEY;
  si_conns i c : sv_conns s !! i = Some c → c_bufs c ≠ ∅ → conn_ok (max_key_length (sv_kv s)) c;
  si_works i w : others s x !! i = Some w → work_ok w ∧ i < sv_tick s ∧ w_conn w < sv_tick s;
  si_fresh i : is_Some (sv_conns s !! i) → i < sv_tick s;
  si_pins a : getters (others s x) a <= pins a;
  si_keys i c : sv_conns s !! i = Some c →
    keys_works (others s x) i <= if c_keys c then 1 else 0
}.

(** Only connections change, and only as [same_conn] allows. *)
Definition kept (s s' : server) : Prop :=
  sv_kv s' = sv_kv s ∧ sv_works s' = sv_works s ∧ sv_tick s <= sv_tick s' ∧
  (∀ i c', sv_conns s' !! i = Some c' → ∃ c, sv_conns s !! i = Some c ∧ same_conn c c') ∧
  (∀ i c, sv_conns s !! i = Some c → ∃ c', sv_conns s' !! i = Some c' ∧ same_conn c c').

Global Instance kept_preorder : PreOrder kept.
Proof.
  split.
  - intros s. split_and!; try done; intros i c Hc; by exists c.
  - intros s1 s2 s3 (K1 & W1 & T1 & B1 & F1) (K2 & W2 & T2 & B2 & F2). split_and!; [congruence..|lia| |].
    + intros i c3 Hc3. destruct (B2 i c3 Hc3) as (c2 & Hc2 & E1 & E2 & E3 & E4 & G1).
      destruct (B1 i c2 Hc2) as (c1 & Hc1 & E5 & E6 & E7 & E8 & G2). exists c1. split; [done|].
      split_and!; congruence.
    + intros i c1 Hc1. destruct (F1 i c1 Hc1) as (c2 & Hc2 & E1 & E2 & E3 & E4 & G1).
      destruct (F2 i c2 Hc2) as (c3 & Hc3 & E5 & E6 & E7 & E8 & G2). exists c3. split; [done|].
      split_and!; congruence.
Qed.

Lemma kept_inv s s' pins x :
  server_inv s pins x → kept s s' → server_inv s' pins x.
Proof.
  intros [I1 I2 I3 I4 I5 I8 I6 I7] (K & W & T & B & F).
  assert (others s' x = others s x) as Ho by (unfold others; by rewrite W).
  split; rewrite ?K, ?Ho; try done.
  - intros i c' Hc' Hne. destruct (B i c' Hc') as (c & Hc & Hs). eapply conn_ok_same; [|done].
    eapply I4; [done|]. destruct Hs as (_ & Hb & _). by rewrite <- Hb.
  - intros i w Hw. destruct (I5 i w Hw) as (Hr & Ht & Hwc). split_and!; [done|lia|lia].
  - intros i [c' Hc']. destruct (B i c' Hc') as (c & Hc & _). pose proof (I8 i ltac:(eauto)). lia.
  - intros i c' Hc'. destruct (B i c' Hc') as (c & Hc & _ & _ & _ & _ & ->). by eapply I7.
Qed.

(** One connection changes. *)
Lemma kept_put s conn c c' t :
  sv_conns s !! conn = Some c → same_conn c c' → sv_tick s <= t →
  kept s (mk_server (sv_kv s) (<[conn := c']> (sv_conns s)) (sv_works s) (sv_treqs s) (sv_submitted s)
            (sv_backend s) t).
Proof.
  intros Hc Hs Ht. split_and!; try done; simpl; intros i c1 Hc1.
  - apply lookup_insert_Some in Hc1 as [[<- <-]|[Hne Hc1]]; eauto using same_conn_refl.
  - destruct (decide (i = conn)) as [->|Hne].
    + rewrite lookup_insert_eq. simplify_eq. eauto.
    + rewrite lookup_insert_ne by done. eauto using same_conn_refl.
Qed.

Lemma safe_put_conn s conn c c' (Q : unit → server → Prop) :
  sv_conns s !! conn = Some c → same_conn c c' →
  (∀ s', kept s s' → sv_conns s' !! conn = Some c' → Q tt s') → safe (put_conn conn c') s Q.
Proof.
  intros Hc Hs HQ. eexists _, _. split; [done|]. apply HQ; [by eapply kept_put|].
  simpl. by rewrite lookup_insert_eq.
Qed.

Lemma safe_tick s (Q : Z → server → Prop) :
  (∀ s', kept s s' → sv_conns s' = sv_conns s → sv_tick s < sv_tick s' → Q (sv_tick s) s') → safe tick s Q.
Proof.
  intros HQ. eexists _, _. split; [done|]. apply HQ; simpl; [|done|lia].
  split_and!; simpl; try done; [lia|..]; intros i c Hc; by exists c.
Qed.

(** ** Responses *)

Lemma unused_scan_spec resp n fuel : ∀ i,
  Z.of_nat (length resp) = n → n < 2 ^ 16 → 0 <= i → n - i <= Z.of_nat fuel →
  ∃ slot, unused_scan fuel resp n i = Ok slot ∧
    match slot with Some j => i <= j < n | None => True end.
Proof.
  induction fuel as [|fuel IH]; intros i Hl Hn Hi Hf; cbn [unused_scan];
    (destruct (Z.ltb_spec i n); [|by exists None]); [lia|].
  destruct (rd_in_range resp i) as [st ->]; [lia|]. rewrite Ok_bind.
  destruct (_ =? _); [exists (Some i); split; [done|lia]|].
  unfold u16. rewrite Z.mod_small by lia.
  destruct (IH (i + 1)) as (slot & -> & Hs); [done|lia|lia|lia|]. exists slot. split; [done|].
  destruct slot; [lia|done].
Qed.

Section primitives.
Context (regcomp : list Z → option (list Z → bool)).
Context (nic_ok alloc_ok : Z → bool) (clock : Z → timeval).
Context (backend_now : Z → option (priskv_backend_status * Z)).

Lemma safe_post_send s conn c w (Q : bool → server → Prop) :
  sv_conns s !! conn = Some c →
  (∀ ok s' c', kept s s' → sv_conns s' !! conn = Some c' → same_conn c c' → Q ok s') →
  safe (post_send nic_ok conn w) s Q.
Proof.
  intros Hc HQ. unfold post_send. step. apply safe_tick. intros s1 K1 E1 _.
  destruct (nic_ok _); [|apply safe_ret; apply (HQ _ _ c); [done|by rewrite E1|done]].
  step. apply (safe_get_conn _ c); [by rewrite E1|].
  step. apply (safe_put_conn _ _ c); [by rewrite E1|done|]. intros s2 K2 Hc2.
  apply safe_ret. eapply HQ; [by etrans|done|done].
Qed.

Lemma safe_send_response s conn c mkl id st len (Q : Z → server → Prop) :
  sv_conns s !! conn = Some c → conn_ok mkl c →
  (∀ ret s', kept s s' → Q ret s') →
  safe (priskv_rdma_send_response nic_ok conn id st len) s Q.
Proof.
  intros Hc Hok HQ. pose proof Hok as (_ & _ & Hl & Hw & _ & _).
  unfold priskv_rdma_send_response. step. apply (safe_get_conn _ c); [done|].
  destruct (unused_scan_spec (c_resp c) (priskv_rdma_wr_size (conn_cap c))
    (Z.to_nat (priskv_rdma_wr_size (conn_cap c))) 0) as (slot & Hs & Hr); [done|done|lia|lia|].
  unfold priskv_rdma_unused_response. rewrite Hs. simpl. destruct slot as [i|].
  - rewrite wr_Ok by lia. simpl.
    step. eapply safe_lift; [done|]. simpl. rewrite wr_Ok by (rewrite length_insert; lia).
    step. eapply safe_lift; [done|]. simpl.
    step. apply (safe_put_conn _ _ c); [done|by split_and!; try done; simpl; rewrite !length_insert|].
    intros s1 K1 Hc1. step. eapply safe_post_send; [done|]. intros ok s2 c2 K2 Hc2 Hs2. destruct ok.
    + step. apply (safe_get_conn _ c2); [done|]. step. apply (safe_put_conn _ _ c2); [done|done|].
      intros s3 K3 _. apply safe_ret, HQ. by do 2 (etrans; [done|]).
    + apply safe_ret, HQ. by etrans.
  - step. eapply safe_lift; [done|]. simpl. apply safe_ret, HQ. done.
Qed.

Lemma safe_handle_send s conn c slot (Q : Z → server → Prop) :
  sv_conns s !! conn = Some c → 0 <= slot < Z.of_nat (length (c_resp c)) →
  (∀ ret s', kept s s' → Q ret s') → safe (priskv_rdma_handle_send conn slot) s Q.
Proof.
  intros Hc Hs HQ. unfold priskv_rdma_handle_send, priskv_rdma_response_free.
  step. apply (safe_get_conn _ c); [done|]. destruct (rd_in_range (c_resp c) slot) as [st ->]; [done|].
  simpl. destruct (_ =? _).
  - step. eapply safe_lift; [done|]. simpl. step. apply (safe_put_conn _ _ c); [done|done|].
    intros s1 K1 _. by apply safe_ret, HQ.
  - rewrite wr_Ok by done. step. eapply safe_lift; [done|]. simpl.
    step. apply (safe_put_conn _ _ c); [done|by split_and!; try done; simpl; rewrite length_insert|].
    intros s1 K1 _. by apply safe_ret, HQ.
Qed.

Lemma safe_recv_req s conn c req (Q : Z → server → Prop) :
  sv_conns s !! conn = Some c → is_Some (c_bufs c !! req) →
  (∀ ret s', kept s s' → Q ret s') → safe (priskv_rdma_recv_req nic_ok conn req) s Q.
Proof.
  intros Hc Hb HQ. unfold priskv_rdma_recv_req. step. apply (safe_get_conn _ c); [done|].
  rewrite bool_decide_true by done. step. eapply safe_lift; [done|].
  step. apply safe_tick. intros s1 K1 E1 _. destruct (nic_ok _).
  - step. apply (safe_put_conn _ _ c); [by rewrite E1|done|]. intros s2 K2 _.
    apply safe_ret, HQ. by etrans.
  - by apply safe_ret, HQ.
Qed.

Lemma safe_stats_ops s conn c cmd (Q : unit → server → Prop) :
  sv_conns s !! conn = Some c → 0 <= cmd < Z.of_nat (length (c_stats c)) →
  (∀ s', kept s s' → Q tt s') → safe (stats_ops conn cmd) s Q.
Proof.
  intros Hc Hs HQ. unfold stats_ops. step. apply (safe_get_conn _ c); [done|].
  destruct (rd_in_range (c_stats c) cmd) as [[o b] ->]; [done|].
  step. eapply safe_lift; [done|]. simpl. rewrite wr_Ok by done.
  step. eapply safe_lift; [done|]. apply (safe_put_conn _ _ c); [done| |auto].
  split_and!; try done. simpl. by rewrite length_insert.
Qed.

Lemma safe_stats_bytes s conn c cmd n (Q : unit → server → Prop) :
  sv_conns s !! conn = Some c → 0 <= cmd < Z.of_nat (length (c_stats c)) →
  (∀ s', kept s s' → Q tt s') → safe (stats_bytes conn cmd n) s Q.
Proof.
  intros Hc Hs HQ. unfold stats_bytes. step. apply (safe_get_conn _ c); [done|].
  destruct (rd_in_range (c_stats c) cmd) as [[o b] ->]; [done|].
  step. eapply safe_lift; [done|]. simpl. rewrite wr_Ok by done.
  step. eapply safe_lift; [done|]. apply (safe_put_conn _ _ c); [done| |auto].
  split_and!; try done. simpl. by rewrite length_insert.
Qed.
End primitives.

(** ** Transfers, whatever the SGLs *)

Lemma sgl_plan_total fuel work set s val offset valuelen : ∀ so,
  0 <= sgl_length s < 2 ^ 32 → 0 <= valuelen < 2 ^ 32 → 0 <= so <= sgl_length s → (0 < fuel)%nat →
  sgl_length s - so <= (Z.of_nat fuel - 1) * priskv_rdma_max_rw_size →
  ∃ l, sgl_plan fuel work set s val offset valuelen so = Some l ∧ (length l <= fuel)%nat.
Proof.
  assert (Hmax : priskv_rdma_max_rw_size = 2 ^ 30) by done.
  induction fuel as [|fuel IH]; intros so Hl Hv Hso Hf Hfuel; [lia|].
  cbn [sgl_plan]. simpl rw_length.
  assert (chunk_len s valuelen so = Z.min (Z.min (sgl_length s - so) valuelen) priskv_rdma_max_rw_size) as ->.
  { unfold chunk_len. rewrite u32_small by lia. by rewrite !min_u32_spec. }
  rewrite u32_small, min_u32_spec by lia.
  destruct (Z.ltb_spec (so + Z.min (Z.min (sgl_length s - so) valuelen) priskv_rdma_max_rw_size)
    (Z.min (sgl_length s) valuelen)) as [Hlt|]; [|eexists; split; [done|simpl; lia]].
  edestruct (IH (so + Z.min (Z.min (sgl_length s - so) valuelen) priskv_rdma_max_rw_size))
    as (l & -> & Hlen); [lia..|]. eexists. split; [done|]. simpl. lia.
Qed.

Lemma sgls_plan_total work set sgls val : ∀ offset valuelen,
  Forall (λ s, 0 <= sgl_length s < 2 ^ 32) sgls → 0 <= valuelen < 2 ^ 32 →
  ∃ l, sgls_plan work set sgls val offset valuelen = Some l ∧ (length l <= RW_FUEL * length sgls)%nat.
Proof.
  induction sgls as [|s sgls IH]; intros offset valuelen Hok Hv; [by exists []|].
  apply Forall_cons in Hok as [Hs Hok]. cbn [sgls_plan].
  destruct (sgl_plan_total RW_FUEL work set s val offset valuelen 0) as (l1 & -> & H1);
    [done|done|lia|unfold RW_FUEL; lia|unfold RW_FUEL, priskv_rdma_max_rw_size; lia|]. simpl.
  destruct (IH (u32 (offset + sgl_length s)) (u32 (valuelen - sgl_length s)) Hok (u32_range _)) as (l2 & -> & H2).
  simpl. eexists. split; [done|]. rewrite length_app. unfold RW_FUEL in *. lia.
Qed.

(** ** Works come and go *)

Lemma getters_insert ws i w a :
  ws !! i = None →
  getters (<[i := w]> ws) a = getters ws a + if decide (w_cb w = cb_get_key_end (Some a)) then 1 else 0.
Proof.
  intros Hi. unfold getters. case_decide.
  - rewrite map_filter_insert_True by done. rewrite map_size_insert_None; [lia|].
    by apply map_lookup_filter_None_2; left.
  - rewrite map_filter_insert_False by done. rewrite delete_id by done. lia.
Qed.

Lemma keys_works_insert ws i w conn :
  ws !! i = None →
  keys_works (<[i := w]> ws) conn =
    keys_works ws conn + if decide (w_keys w = true ∧ w_conn w = conn) then 1 else 0.
Proof.
  intros Hi. unfold keys_works. case_decide.
  - rewrite map_filter_insert_True by done. rewrite map_size_insert_None; [lia|].
    by apply map_lookup_filter_None_2; left.
  - rewrite map_filter_insert_False by done. rewrite delete_id by done. lia.
Qed.

Lemma getters_nonneg ws a : 0 <= getters ws a.
Proof. unfold getters. lia. Qed.
Lemma keys_works_nonneg ws c : 0 <= keys_works ws c.
Proof. unfold keys_works. lia. Qed.

Definition with_works (s : server) (ws : gmap Z priskv_rdma_rw_work) : server :=
  mk_server (sv_kv s) (sv_conns s) ws (sv_treqs s) (sv_submitted s) (sv_backend s) (sv_tick s).

Lemma kept_with_works s s' ws : kept s s' → kept (with_works s ws) (with_works s' ws).
Proof. intros (K & W & T & B & F). by split_and!. Qed.

(** A new work is paid for: its callback ends a GET that is counted, and it has
    the KEYS buffer for itself. *)
Definition paid (s : server) (pins : Z → Z) (w : priskv_rdma_rw_work) : Prop :=
  (∀ a, w_cb w = cb_get_key_end (Some a) → getters (sv_works s) a < pins a) ∧
  (w_keys w = true → ∃ c, sv_conns s !! w_conn w = Some c ∧ is_Some (c_keys c) ∧
     keys_works (sv_works s) (w_conn w) = 0).

Lemma add_work_inv s pins i w :
  server_inv s pins None → sv_works s !! i = None → i < sv_tick s → w_conn w < sv_tick s → work_ok w →
  paid s pins w →
  server_inv (with_works s (<[i := w]> (sv_works s))) pins None.
Proof.
  intros [I1 I2 I3 I4 I5 I8 I6 I7] Hi Ht Htc Hw [Hp Hk]. split; try done; simpl in *.
  - intros j w' Hj. apply lookup_insert_Some in Hj as [[<- <-]|[Hne Hj]]; [done|]. by apply I5.
  - intros a. rewrite getters_insert by done. pose proof (I6 a). case_decide as Ha; [|lia].
    pose proof (Hp a Ha). lia.
  - intros j c Hc. rewrite keys_works_insert by done. pose proof (I7 j c Hc).
    case_decide as Hd; [|lia]. destruct Hd as [Hkw <-].
    destruct (Hk Hkw) as (c' & Hc' & [k Hks] & Hz). simplify_eq. rewrite Hks. lia.
Qed.

Lemma sv_fresh s pins : server_inv s pins None → sv_works s !! sv_tick s = None.
Proof.
  intros Hi. destruct (sv_works s !! sv_tick s) as [w|] eqn:E; [|done].
  destruct (si_works _ _ _ Hi (sv_tick s) w E) as (_ & ? & _). lia.
Qed.

(** What a request that passed the checks guarantees of its buffer. *)
Definition req_ok (c : priskv_rdma_conn) (req : Z) (buf : list Z) (nsgl : Z) : Prop :=
  c_bufs c !! req = Some buf ∧ req_nsgl buf = Ok nsgl ∧ 0 <= nsgl <= max_sgl (conn_cap c).

Lemma bufs_nonempty c req buf : c_bufs c !! req = Some buf → c_bufs c ≠ ∅.
Proof. intros Hb He. by rewrite He in Hb. Qed.

Section transfers.
Context (nic_ok alloc_ok : Z → bool).

Lemma safe_post_all conn l : ∀ s c (Q : bool → server → Prop),
  sv_conns s !! conn = Some c → (∀ ok s', kept s s' → Q ok s') → safe (post_all nic_ok conn l) s Q.
Proof.
  induction l as [|w l IH]; intros s c Q Hc HQ; cbn [post_all].
  - by apply safe_ret, HQ.
  - step. eapply safe_post_send; [done|]. intros ok s1 c1 K1 Hc1 _. destruct ok.
    + eapply IH; [done|]. intros ok s2 K2. apply HQ. by etrans.
    + by apply safe_ret, HQ.
Qed.

Lemma safe_rw_req s pins conn c req buf nsgl keys val valuelen set cb (Q : Z * option Z → server → Prop) :
  server_inv s pins None → sv_conns s !! conn = Some c → req_ok c req buf nsgl →
  0 <= valuelen < 2 ^ 32 →
  match cb with cb_tiering_get _ | cb_tiering_set _ => False | _ => True end →
  (∀ id n, paid s pins (mk_work conn id req keys valuelen n 0 false cb)) →
  (∀ r s', server_inv s' pins None → kept (with_works s ∅) (with_works s' ∅) →
     (r.1 ≠ 0 → sv_works s' = sv_works s) → Q r s') →
  safe (priskv_rdma_rw_req nic_ok alloc_ok conn req keys val valuelen set cb false) s Q.
Proof.
  intros Hi Hc (Hb & Hn & Hnr) Hvl Hcb Hpaid HQ.
  pose proof (si_conns _ _ _ Hi _ _ Hc (bufs_nonempty _ _ _ Hb)) as Hok. pose proof Hok as (Hms & _ & _ & _ & _ & Hbufs).
  destruct (Hbufs req buf Hb) as [Hby Hlen]. unfold sizeof_priskv_request, sizeof_priskv_keyed_sgl in Hlen.
  destruct Hok as (_ & Hkl & _).
  unfold priskv_rdma_rw_req, req_buf. step. step. apply (safe_get_conn _ c); [done|].
  rewrite Hb. eapply safe_lift; [done|]. rewrite Hn. step. eapply safe_lift; [done|].
  step. apply safe_tick. intros s1 K1 E1 T1. pose proof (kept_inv _ _ _ _ Hi K1) as Hi1.
  pose proof (sv_fresh s pins Hi) as Hf. pose proof K1 as (EK1 & EW1 & _).
  destruct (alloc_ok _); simpl.
  2:{ apply safe_ret, HQ; [done|by apply kept_with_works|done]. }
  destruct (get_be_Ok 8 buf off_request_id) as (id & Hid & _); [done|done|unfold off_request_id; lia|].
  unfold req_request_id. rewrite Hid. step. eapply safe_lift; [done|].
  destruct (req_sgls_Ok buf nsgl) as (sgls & Hs & Hsl & Hsf);
    [done|lia|unfold off_sgls, sizeof_priskv_keyed_sgl; lia|].
  destruct (sgls_plan_total (sv_tick s) set sgls val 0 valuelen Hsf Hvl) as (l & Hl & Hll).
  step. eexists _, _. split; [done|]. set (w0 := mk_work conn id req keys valuelen 0 0 false cb).
  set (s2 := with_works s1 (<[sv_tick s := w0]> (sv_works s1))). change (mk_server _ _ _ _ _ _ _) with s2.
  rewrite Hs. step. eapply safe_lift; [done|].
  step. unfold safe. rewrite (rw_sgls_plan nic_ok _ _ _ _ _ _ _ _ l) by (done || lia).
  unfold counted_posts. apply safe_bind.
  eapply (safe_post_all _ _ s2 c); [unfold s2; simpl; by rewrite E1|]. intros ok s3 K3.
  pose proof (kept_with_works _ _ (sv_works s1) K3) as K3'.
  assert (with_works s2 (sv_works s1) = s1) as Es by (by destruct s1). rewrite Es in K3'.
  pose proof K3 as (_ & EW3 & _). simpl in EW3.
  assert (server_inv (with_works s3 (sv_works s1)) pins None) as Hi3.
  { by eapply kept_inv. }
  assert (kept (with_works s ∅) (with_works s3 ∅)) as K03.
  { etrans; [by apply (kept_with_works s s1 ∅)|]. apply (kept_with_works _ _ ∅) in K3. exact K3. }
  apply safe_ret. destruct ok.
  - step. apply (safe_get_work _ w0); [by rewrite EW3, lookup_insert_eq|]. step. eexists _, _. split; [done|].
    assert (with_works s3 (<[sv_tick s := work_nsgl (u16 (0 + Z.of_nat (length l))) w0]> (sv_works s3))
      = with_works (with_works s3 (sv_works s1))
          (<[sv_tick s := work_nsgl (u16 (0 + Z.of_nat (length l))) w0]> (sv_works (with_works s3 (sv_works s1))))) as E3.
    { unfold with_works. simpl. by rewrite EW3, insert_insert_eq. }
    unfold with_works at 1 in E3. simpl in E3. simpl. rewrite E3.
    apply safe_ret, HQ; [|exact K03|done].
    destruct K3 as (_ & _ & T3 & _ & F3). simpl in T3.
    apply (add_work_inv (with_works s3 (sv_works s1))); [done|simpl; by rewrite EW1| | | |].
    + simpl. lia.
    + simpl. pose proof (si_fresh _ _ _ Hi conn ltac:(eauto)). lia.
    + destruct (F3 conn c) as (c3 & Hc3 & _); [simpl; by rewrite E1|].
      split_and!; simpl; [done|unfold u16; apply Z.mod_pos_bound; lia| |done|done].
      unfold u16. apply Z.mod_pos_bound. lia.
    + destruct (Hpaid id (u16 (0 + Z.of_nat (length l)))) as [P1 P2]. split; simpl in *.
      * intros a Ha. rewrite EW1. by apply P1.
      * intros Hk. destruct (P2 Hk) as (c' & Hc' & Hks & Hz). destruct (F3 conn c') as (c3 & Hc3 & _ & _ & _ & _ & Hkk).
        { simpl. by rewrite E1. }
        exists c3. rewrite Hkk, EW1. done.
  - step. eexists _, _. split; [done|]. simpl.
    assert (delete (sv_tick s) (sv_works s3) = sv_works s1) as E3.
    { rewrite EW3, delete_insert_id; [done|]. by rewrite EW1. }
    rewrite E3. apply safe_ret, HQ; [exact Hi3|exact K03|]. by rewrite <- EW1.
Qed.
End transfers.

(** ** Operations of the store *)

Definition with_kv (s : server) (kv : kv_state) : server :=
  mk_server kv (sv_conns s) (sv_works s) (sv_treqs s) (sv_submitted s) (sv_backend s) (sv_tick s).

Lemma same_request (kv kv' : kv_state) n :
  same_conf kv kv' → valid_request (value_buddy kv) n → valid_request (value_buddy kv') n.
Proof. intros (_ & _ & _ & _ & _ & _ & Hk). apply Hk. Qed.

Lemma kv_change_inv s pins pins' x kv' :
  server_inv s pins x → kv_inv kv' pins' [] None None → same_conf (sv_kv s) kv' →
  (∀ a, getters (others s x) a <= pins' a) → server_inv (with_kv s kv') pins' x.
Proof.
  intros [I1 I2 I3 I4 I5 I8 I6 I7] Hkv Hc Hg. pose proof Hc as (_ & _ & Hm & _).
  split; simpl; try done.
  - intros n Hn. eapply same_request; [done|]. by apply I2.
  - by rewrite Hm.
  - rewrite Hm. done.
Qed.

(** A node returned by GET is pinned. *)
Definition pinned (pins : Z → Z) (kn : option Z) : Z → Z :=
  match kn with Some a => padd pins a 1 | None => pins end.

Lemma pinned_ge pins kn a : pins a <= pinned pins kn a.
Proof. destruct kn as [b|]; simpl; [|lia]. unfold padd. destruct (decide (a = b)); lia. Qed.

(** The state but for the store. *)
Definition kv_only (s s' : server) : Prop :=
  ∃ kv t, s' = mk_server kv (sv_conns s) (sv_works s) (sv_treqs s) (sv_submitted s) (sv_backend s) t ∧
    sv_tick s <= t.

Section kvops.
Context (regcomp : list Z → option (list Z → bool)) (clock : Z → timeval).

Lemma tick_inv s pins x :
  server_inv s pins x →
  server_inv (mk_server (sv_kv s) (sv_conns s) (sv_works s) (sv_treqs s) (sv_submitted s)
                (sv_backend s) (sv_tick s + 1)) pins x.
Proof.
  intros Hi. eapply kept_inv; [done|]. split_and!; simpl; try done; [lia|..]; intros i c Hc; by exists c.
Qed.

Lemma safe_get_key s pins x key (Q : priskv_resp_status * option Z * option (Z * Z) → server → Prop) :
  server_inv s pins x → valid_key key → (∀ a, pins a < 2 ^ 32 - 2) →
  (∀ st kn out s', kv_only s s' → server_inv s' (pinned pins kn) x →
     (∀ v l, out = Some (v, l) → 0 <= l ∧ is_Some kn) →
     Q (st, kn, out) s') →
  safe (get_key clock key (klen key)) s Q.
Proof.
  intros Hi Hk Hp HQ. unfold get_key. step. eexists _, _. split; [done|].
  pose proof (tick_inv _ _ _ Hi) as Hi1. set (s1 := mk_server _ _ _ _ _ _ _) in *.
  destruct (get_spec (sv_kv s1) pins key (clock (sv_tick s)) (si_kv _ _ _ Hi1) Hk Hp)
    as (st & kn & out & kv' & Heq & Hc & Hr).
  eexists _, _. split; [unfold on_kv; by rewrite Heq|].
  assert (kv_inv kv' (pinned pins kn) [] None None ∧
    ∀ v l, out = Some (v, l) → 0 <= l ∧ is_Some kn) as [Hkv Ho].
  { unfold get_result in Hr. destruct (store (sv_kv s1) !! key) as [e|] eqn:He.
    - destruct (timed_out (e_expire e) (clock (sv_tick s))).
      + destruct Hr as (_ & -> & -> & ? & _). by split.
      + destruct Hr as (-> & ? & _ & Hr). split; [done|]. destruct (e_busy e); [by destruct Hr as [_ ->]|].
        destruct Hr as (_ & -> & _). intros v l [= <- <-]. split; [|done].
        destruct (entry_node _ _ _ _ (si_kv _ _ _ Hi1) He) as (n & Hn & _ & _ & ->).
        by eapply node_valuelen; [apply (si_kv _ _ _ Hi1)|].
    - destruct Hr as (_ & -> & -> & ->). split; [apply (si_kv _ _ _ Hi1)|done]. }
  apply HQ; [|apply (kv_change_inv s1 pins); [done|done|done|]|done].
  - exists kv', (sv_tick s + 1). split; [done|lia].
  - intros a. pose proof (si_pins _ _ _ Hi1 a). pose proof (pinned_ge pins kn a). lia.
Qed.

Lemma safe_get_key_end s pins x kn (Q : unit → server → Prop) :
  server_inv s pins x → (∀ a, kn = Some a → getters (others s x) a < pins a) →
  (∀ s' pins', kv_only s s' → server_inv s' pins' x → Q tt s') →
  safe (get_key_end kn) s Q.
Proof.
  intros Hi Hg HQ. unfold get_key_end. destruct kn as [a|]; simpl.
  - pose proof (Hg a eq_refl) as Hga. pose proof (getters_nonneg (others s x) a) as Hnn.
    destruct (deref_inv _ _ _ _ _ (si_kv _ _ _ Hi) a) as (kv' & Heq & Hi' & Hc & _); [lia|].
    eexists _, _. split; [unfold on_kv; simpl; by rewrite Heq|].
    eapply HQ; [exists kv', (sv_tick s); split; [done|lia]|].
    apply (kv_change_inv s pins (padd pins a (-1))); [done|done|done|].
    intros b. pose proof (si_pins _ _ _ Hi b). unfold padd. destruct (decide (b = a)) as [->|]; lia.
  - eexists _, _. split; [done|]. eapply HQ; [exists (sv_kv s), (sv_tick s); split; [done|lia]|].
    destruct s. exact Hi.
Qed.

Lemma safe_set_key s pins x key valuelen timeout
    (Q : priskv_resp_status * option Z * option Z → server → Prop) :
  server_inv s pins x → valid_key key → klen key <= max_key_length (sv_kv s) → 0 < valuelen < 2 ^ 32 →
  (∀ st kn out s', kv_only s s' → server_inv s' pins x →
     (∀ a, kn = Some a → is_Some (key_mem (sv_kv s') !! a)) → Q (st, kn, out) s') →
  safe (set_key clock key (klen key) valuelen timeout) s Q.
Proof.
  intros Hi Hk Hl Hv HQ. unfold set_key. step. eexists _, _. split; [done|].
  pose proof (tick_inv _ _ _ Hi) as Hi1. set (s1 := mk_server _ _ _ _ _ _ _) in *.
  destruct (set_spec (sv_kv s1) pins key valuelen timeout (clock (sv_tick s)) (si_kv _ _ _ Hi1) Hk Hl
    (si_req _ _ _ Hi1 _ Hv)) as (st & kn & out & kv' & Heq & Hkv & Hc & Hr).
  eexists _, _. split; [unfold on_kv; by rewrite Heq|].
  apply HQ; [|apply (kv_change_inv s1 pins); [done|done|done|apply (si_pins _ _ _ Hi1)]|].
  - exists kv', (sv_tick s + 1). split; [done|lia].
  - intros a ->. simpl. destruct Hr as (j & _ & _ & [(a' & v & _ & [= <-] & _ & Hlru & Hst)|(_ & ? & _)]); [|done].
    destruct (entry_node kv' pins key (mk_entry a v valuelen (expiry timeout (clock (sv_tick s))) true) Hkv)
      as (n & Hn & _); [by rewrite Hst, lookup_insert_eq|]. by exists n.
Qed.

Lemma safe_set_key_end s pins x kn (Q : unit → server → Prop) :
  server_inv s pins x → (∀ a, kn = Some a → is_Some (key_mem (sv_kv s) !! a)) →
  (∀ s', kv_only s s' → server_inv s' pins x → Q tt s') →
  safe (set_key_end kn) s Q.
Proof.
  intros Hi Hn HQ. unfold set_key_end. destruct kn as [a|]; simpl.
  - destruct (Hn a eq_refl) as [n Hna]. unfold on_kv, safe. simpl. rewrite (node_Ok _ a n Hna). simpl.
    eexists _, _. split; [done|]. apply HQ; [eexists _, (sv_tick s); split; [done|lia]|].
    pose proof (si_kv _ _ _ Hi) as Hkv. pose proof (node_valuelen _ _ _ _ Hkv Hna).
    apply (kv_change_inv s pins); [done|by eapply node_write_inv|done|apply (si_pins _ _ _ Hi)].
  - eexists _, _. split; [done|]. apply HQ; [exists (sv_kv s), (sv_tick s); split; [done|lia]|].
    destruct s. exact Hi.
Qed.

Lemma safe_on_kv {A} s pins x (f : kv_state → res (A * kv_state)) (Q : A → server → Prop) :
  server_inv s pins x →
  (∃ a kv', f (sv_kv s) = Ok (a, kv') ∧ kv_inv kv' pins [] None None ∧ same_conf (sv_kv s) kv') →
  (∀ a s', kv_only s s' → server_inv s' pins x → Q a s') →
  safe (on_kv f) s Q.
Proof.
  intros Hi (a & kv' & Heq & Hkv & Hc) HQ. eexists _, _. split; [unfold on_kv; by rewrite Heq|].
  apply HQ; [exists kv', (sv_tick s); split; [done|lia]|].
  apply (kv_change_inv s pins); [done..|apply (si_pins _ _ _ Hi)].
Qed.

End kvops.

Lemma get_keys_total regcomp (kv : kv_state) pins regex regexlen keyslen :
  kv_inv kv pins [] None None → max_key_length kv < SAFEKEY →
  ∃ st o, priskv_get_keys regcomp kv regex regexlen keyslen = Ok (st, o).
Proof.
  intros Hi Hm. unfold priskv_get_keys. destruct (regcomp_buf _ _ _) as [rx|]; [|eauto].
  rewrite foldM_concat. fold (linked kv).
  destruct (foldM_inv (keys_visit kv rx keyslen) (λ _ rest, ∀ a, a ∈ rest → a ∈ linked kv)
    (linked kv) (mk_keys 0 0 [])) as (o & -> & _); [|done|simpl; eauto].
  intros o a rest Hin. unfold keys_visit.
  destruct (linked_in_mem _ _ _ _ _ Hi a) as [n Hna]; [apply Hin; set_solver|].
  destruct (inv_node _ _ _ _ _ Hi a n Hna) as ((_ & Hkl & Hmax) & _).
  rewrite (node_Ok kv a n Hna), Ok_bind. unfold safekey_of.
  rewrite (proj2 (Z.ltb_ge _ _)), Ok_bind by lia.
  destruct (negb _); eexists; (split; [done|]); intros b Hb; apply Hin; set_solver.
Qed.

(** ** The end of a transfer *)

Lemma split_work s pins i w :
  server_inv s pins None → sv_works s !! i = Some w →
  server_inv s pins (Some i) ∧ work_ok w ∧ (i < sv_tick s ∧ w_conn w < sv_tick s) ∧
  (∀ a, w_cb w = cb_get_key_end (Some a) → getters (others s (Some i)) a < pins a) ∧
  (w_keys w = true → ∀ c, sv_conns s !! w_conn w = Some c → is_Some (c_keys c) ∧
     keys_works (others s (Some i)) (w_conn w) = 0).
Proof.
  intros [I1 I2 I3 I4 I5 I8 I6 I7] Hw. simpl in *.
  assert (Hsplit : sv_works s = <[i := w]> (delete i (sv_works s))) by (by rewrite insert_delete_id).
  assert (Hg : ∀ a, getters (sv_works s) a = getters (delete i (sv_works s)) a +
    if decide (w_cb w = cb_get_key_end (Some a)) then 1 else 0).
  { intros a. rewrite Hsplit at 1. apply getters_insert. by rewrite lookup_delete_eq. }
  assert (Hk : ∀ c, keys_works (sv_works s) c = keys_works (delete i (sv_works s)) c +
    if decide (w_keys w = true ∧ w_conn w = c) then 1 else 0).
  { intros c. rewrite Hsplit at 1. apply keys_works_insert. by rewrite lookup_delete_eq. }
  destruct (I5 i w Hw) as [Hok Ht]. split; [|split; [done|split; [done|split]]].
  - split; try done; simpl.
    + intros j w' Hj. apply lookup_delete_Some in Hj as [_ Hj]. by apply I5.
    + intros a. pose proof (I6 a). rewrite Hg in *. case_decide; lia.
    + intros j c Hc. pose proof (I7 j c Hc). rewrite Hk in *. case_decide; lia.
  - intros a Ha. pose proof (I6 a). rewrite Hg in *. case_decide; [|done]. lia.
  - intros Hkw c Hc. pose proof (I7 _ c Hc) as Hle. rewrite Hk in Hle.
    pose proof (keys_works_nonneg (delete i (sv_works s)) (w_conn w)).
    case_decide as Hd; [|by destruct Hd]. destruct (c_keys c); [|lia]. split; [done|lia].
Qed.

Lemma drop_work_inv s pins i :
  server_inv s pins (Some i) → server_inv (with_works s (delete i (sv_works s))) pins None.
Proof. intros [I1 I2 I3 I4 I5 I8 I6 I7]. by split. Qed.

Lemma others_insert s i w pins :
  server_inv s pins (Some i) → server_inv (with_works s (<[i := w]> (sv_works s))) pins (Some i).
Proof.
  intros [I1 I2 I3 I4 I5 I8 I6 I7]. simpl in *.
  split; simpl; try done; by rewrite delete_insert_eq.
Qed.

Lemma keys_put_inv s pins x conn c k :
  server_inv s pins x → sv_conns s !! conn = Some c →
  is_Some k ∨ keys_works (others s x) conn = 0 →
  server_inv (mk_server (sv_kv s) (<[conn := with_keys c k]> (sv_conns s)) (sv_works s) (sv_treqs s)
                (sv_submitted s) (sv_backend s) (sv_tick s)) pins x.
Proof.
  intros [I1 I2 I3 I4 I5 I8 I6 I7] Hc Hk. split; simpl; try done.
  - intros i c' Hc' Hne. apply lookup_insert_Some in Hc' as [[<- <-]|[_ Hc']]; [|by eapply I4].
    exact (I4 _ _ Hc Hne).
  - intros i [c' Hc']. apply lookup_insert_Some in Hc' as [[<- _]|[_ Hc']]; apply I8; eauto.
  - intros i c' Hc'. apply lookup_insert_Some in Hc' as [[<- <-]|[_ Hc']]; [|by eapply I7].
    pose proof (I7 _ _ Hc) as Hle. change (others _ x) with (others s x). simpl.
    destruct k; [|destruct Hk as [[]%is_Some_None|]; lia]. destruct (c_keys c); lia.
Qed.

(** No connection disappears. *)
Definition same_dom (s s' : server) : Prop := ∀ i, is_Some (sv_conns s !! i) → is_Some (sv_conns s' !! i).

Section completion.
Context (nic_ok alloc_ok : Z → bool) (clock : Z → timeval).
Context (backend_now : Z → option (priskv_backend_status * Z)).

(** The buffer has a message with its key inside. *)
Definition key_inside (buf : list Z) : Prop :=
  ∃ command nsgl keylen, req_command buf = Ok command ∧ req_nsgl buf = Ok nsgl ∧ req_key_length buf = Ok keylen ∧
    0 <= keylen ∧ priskv_request_key_off nsgl + keylen <= Z.of_nat (length buf).

Lemma strncpy_inside buf off n : 0 <= off → 0 <= n → off + n <= Z.of_nat (length buf) → ∃ s, strncpy_bytes buf off n = Ok s.
Proof.
  intros H1 H2 H3. unfold strncpy_bytes, slice. rewrite length_take, length_drop.
  rewrite (proj2 (Z.eqb_eq _ n)) by lia. rewrite orb_true_r. eauto.
Qed.

Lemma shorten_inside buf off src_len dst_len : 0 <= off → 0 <= src_len → 1 <= dst_len →
  off + src_len <= Z.of_nat (length buf) → ∃ s, priskv_string_shorten buf off src_len dst_len = Ok s.
Proof.
  intros Ho Hs Hd Hl. unfold priskv_string_shorten. destruct (Z.leb_spec dst_len src_len); [|apply strncpy_inside; lia].
  destruct (strncpy_inside buf off (dst_len - 1)) as [s ->]; [lia..|]. simpl. eauto.
Qed.

Lemma safe_slow_query s w c buf (Q : Z * Z * list Z → server → Prop) :
  sv_conns s !! w_conn w = Some c → c_bufs c !! w_req w = Some buf → key_inside buf →
  (∀ r, Q r s) → safe (priskv_check_and_log_slow_query w) s Q.
Proof.
  intros Hc Hb (command & nsgl & keylen & Hcmd & Hn & Hk & H0 & Hl) HQ. unfold priskv_check_and_log_slow_query, req_buf.
  destruct (shorten_inside buf (priskv_request_key_off nsgl) keylen 128) as [ks Hks]; [apply Z.mod_pos_bound; lia|lia..|].
  step. step. apply (safe_get_conn _ c); [done|]. rewrite Hb.
  eapply safe_lift; [done|]. step. eapply safe_lift; [done|]. step. eapply safe_lift; [done|].
  step. eapply safe_lift; [done|]. step. eapply safe_lift; [done|]. by apply safe_ret.
Qed.

Lemma safe_complete_rw_work s pins work w c buf status len (Q : Z → server → Prop) :
  server_inv s pins (Some work) → sv_works s !! work = Some w → sv_conns s !! w_conn w = Some c →
  c_bufs c !! w_req w = Some buf → key_inside buf →
  (w_keys w = true → is_Some (c_keys c) ∧ keys_works (others s (Some work)) (w_conn w) = 0) →
  (∀ ret s', server_inv s' pins None → same_dom s s' → Q ret s') →
  safe (priskv_rdma_complete_rw_work nic_ok work status len) s Q.
Proof.
  intros Hi Hw Hc Hb Hin Hk HQ. unfold priskv_rdma_complete_rw_work.
  assert (c_bufs c ≠ ∅) as Hne by (intros He; by rewrite He in Hb).
  step. apply (safe_get_work _ w); [done|].
  step. eapply safe_send_response; [done|by eapply (si_conns _ _ _ Hi)|]. intros ret s1 K1.
  pose proof (kept_inv _ _ _ _ Hi K1) as Hi1. destruct K1 as (_ & W1 & _ & _ & F1).
  destruct (F1 _ _ Hc) as (c1 & Hc1 & Hsame). pose proof Hsame as (_ & _ & _ & _ & Hck).
  assert (c_bufs c1 = c_bufs c) as Hbs by (destruct Hsame; naive_solver).
  assert (Hdom : same_dom s s1) by (intros i [ci Hci]; destruct (F1 _ _ Hci) as (? & ? & _); eauto).
  destruct (w_keys w).
  - destruct (Hk eq_refl) as [Hks Hz]. step. step. apply (safe_get_conn _ c1); [done|].
    rewrite bool_decide_true by (by rewrite Hck). step. eapply safe_lift; [done|].
    unfold keys_mem_free. step. apply (safe_get_conn _ c1); [done|]. eexists _, _. split; [done|].
    step. eapply safe_slow_query; [simpl; apply lookup_insert_eq|simpl; by rewrite Hbs|done|]. intros r.
    step. eexists _, _. split; [done|]. apply safe_ret, HQ.
    + apply (drop_work_inv (mk_server _ _ (sv_works s1) _ _ _ _)). apply keys_put_inv; [done|done|].
      right. unfold others in *. by rewrite W1.
    + intros i Hs. apply lookup_insert_is_Some'. right. by apply Hdom.
  - step. apply safe_ret. step. eapply safe_slow_query; [done|by rewrite Hbs|done|]. intros r.
    step. eexists _, _. split; [done|]. apply safe_ret, HQ; [by apply drop_work_inv|done].
Qed.

Lemma safe_handle_rw s pins work w c buf (Q : Z → server → Prop) :
  server_inv s pins None → sv_works s !! work = Some w → w_completed w < w_nsgl w →
  sv_conns s !! w_conn w = Some c → c_bufs c !! w_req w = Some buf → key_inside buf →
  (∀ a, w_cb w = cb_set_key_end (Some a) → is_Some (key_mem (sv_kv s) !! a)) →
  (∀ ret s' pins', server_inv s' pins' None → same_dom s s' → Q ret s') →
  safe (priskv_rdma_handle_rw nic_ok alloc_ok clock backend_now work) s Q.
Proof.
  intros Hi Hw Hlt Hc Hb Hin Hset HQ. destruct (split_work s pins work w Hi Hw) as (Hi1 & Hok & Ht & Hg & Hk).
  pose proof Hok as (Hcomp & Hns & Hdef & Hcb).
  unfold priskv_rdma_handle_rw. step. apply (safe_get_work _ w); [done|]. cbv zeta.
  unfold u16. rewrite Z.mod_small by lia.
  set (w' := work_completed (w_completed w + 1) w).
  step. eexists _, _. split; [done|]. change (mk_server _ _ _ _ _ _ _) with (with_works s (<[work := w']> (sv_works s))).
  step. apply (safe_lift _ tt); [unfold cassert; rewrite (proj2 (Z.leb_le _ _)); [done|lia]|].
  destruct (Z.ltb_spec (w_completed w + 1) (w_nsgl w)) as [Hmore|Hlast].
  - apply safe_ret, (HQ _ _ pins); [|by intros i]. rewrite <- insert_delete_eq.
    pose proof (drop_work_inv s pins work Hi1) as Hd.
    apply (add_work_inv _ _ work w' Hd); [simpl; by rewrite lookup_delete_eq|apply Ht|apply Ht| |].
    + split_and!; simpl; try done; lia.
    + split; simpl; [exact Hg|]. intros Hkw. destruct (Hk Hkw c Hc) as (? & ?). by exists c.
  - pose proof (others_insert s work w' pins Hi1) as Hi2. set (s2 := with_works _ _) in *.
    assert (∀ s3 pins3, kv_only s2 s3 → server_inv s3 pins3 (Some work) →
      safe (w ← get_work work;
            if w_defer_resp w then mret 0
            else priskv_rdma_complete_rw_work nic_ok work PRISKV_RESP_STATUS_OK (w_valuelen w)) s3 Q) as Hrest.
    { intros s3 pins3 (kv3 & t3 & -> & _) Hi3.
      step. apply (safe_get_work _ w'); [simpl; by rewrite lookup_insert_eq|]. simpl. rewrite Hdef.
      eapply (safe_complete_rw_work _ pins3 work w' c buf); [done|simpl; by rewrite lookup_insert_eq|done|done|done| |].
      - simpl. intros Hkw. destruct (Hk Hkw c Hc) as (Hks & Hz). split; [done|].
        by rewrite delete_insert_eq.
      - intros ret s' Hs' Hd. by apply (HQ _ _ pins3). }
    assert (Hoth : others s2 (Some work) = others s (Some work)) by (simpl; by rewrite delete_insert_eq).
    step. destruct (w_cb w) as [|kn|kn|?|?]; try done; simpl.
    + apply safe_ret, (Hrest _ pins); [|done]. exists (sv_kv s2), (sv_tick s2). split; [done|lia].
    + eapply safe_get_key_end; [exact Hi2| |exact Hrest].
      intros a ->. rewrite Hoth. by apply Hg.
    + eapply safe_set_key_end; [exact Hi2| |intros s3; apply Hrest].
      intros a ->. by apply Hset.
Qed.
End completion.

(** ** Requests *)

Section requests.
Context (regcomp : list Z → option (list Z → bool)).
Context (nic_ok alloc_ok : Z → bool) (clock : Z → timeval).
Context (backend_now : Z → option (priskv_backend_status * Z)).

(** What a command leaves: the invariant, and the request buffers. *)
Definition done_with (conn : Z) (c : priskv_rdma_conn) (o : outcome) (s' : server) : Prop :=
  o.2 = false ∧ ∃ pins' c', server_inv s' pins' None ∧ sv_conns s' !! conn = Some c' ∧
    c_bufs c' = c_bufs c.

Lemma safe_answered s pins conn c id status len :
  server_inv s pins None → sv_conns s !! conn = Some c → c_bufs c ≠ ∅ →
  safe (answered nic_ok conn id status len) s (done_with conn c).
Proof.
  intros Hi Hc Hne. unfold answered. step.
  eapply safe_send_response; [done|by eapply (si_conns _ _ _ Hi)|]. intros ret s1 K1.
  apply safe_ret. split; [done|]. pose proof K1 as (_ & _ & _ & _ & F1).
  destruct (F1 _ _ Hc) as (c1 & Hc1 & _ & Hb & _). exists pins, c1. split_and!; [by eapply kept_inv|done|done].
Qed.

Lemma kv_only_conns s s' : kv_only s s' → sv_conns s' = sv_conns s ∧ sv_works s' = sv_works s.
Proof. by intros (kv & t & -> & _). Qed.

(** Answering, then ending the GET that pinned [kn]. *)
Lemma safe_answer_end s pins conn c id status len kn :
  server_inv s (pinned pins kn) None → (∀ a, getters (sv_works s) a <= pins a) →
  sv_conns s !! conn = Some c → c_bufs c ≠ ∅ →
  safe (ret ← priskv_rdma_send_response nic_ok conn id status len;
        _ ← get_key_end kn; mret (ret, 0, false)) s (done_with conn c).
Proof.
  intros Hi Hg Hc Hne. step. eapply safe_send_response; [done|by eapply (si_conns _ _ _ Hi)|]. intros ret s1 K1.
  pose proof (kept_inv _ _ _ _ Hi K1) as Hi1. pose proof K1 as (_ & W1 & _ & _ & F1).
  destruct (F1 _ _ Hc) as (c1 & Hc1 & _ & Hb & _).
  step. eapply safe_get_key_end; [done| |].
  - intros a ->. simpl. rewrite W1. pose proof (Hg a). unfold padd. rewrite decide_True by done. lia.
  - intros s2 pins2 K2 Hi2. apply kv_only_conns in K2 as [E2 _]. apply safe_ret. split; [done|].
    exists pins2, c1. by rewrite E2.
Qed.

Lemma safe_get_keys s pins key keyslen (Q : priskv_resp_status * keys_out → server → Prop) :
  server_inv s pins None →
  (∀ st o, priskv_get_keys regcomp (sv_kv s) key (klen key) keyslen = Ok (st, o) →
     Q (st, default (mk_keys 0 0 []) o) s) →
  safe (get_keys regcomp key (klen key) keyslen) s Q.
Proof.
  intros Hi HQ. destruct (get_keys_total regcomp (sv_kv s) pins key (klen key) keyslen (si_kv _ _ _ Hi)
    (si_safekey _ _ _ Hi)) as (st & o & Heq).
  unfold get_keys, on_kv. exists (st, default (mk_keys 0 0 []) o), s. rewrite Heq. simpl.
  split; [by destruct s|by apply HQ].
Qed.

Section one.
Context (s : server) (pins : Z → Z) (conn : Z) (c : priskv_rdma_conn) (req id : Z) (buf : list Z) (nsgl : Z).
Context (key : list Z).
Hypothesis Hi : server_inv s pins None.
Hypothesis Hc : sv_conns s !! conn = Some c.
Hypothesis Hne : c_bufs c ≠ ∅.
Hypothesis Hreq : req_ok c req buf nsgl.
Hypothesis Hkey : valid_key key.
Hypothesis Hfit : klen key <= max_key_length (sv_kv s).
Hypothesis Hpins : ∀ a, pins a < 2 ^ 32 - 2.

Lemma safe_recv_get remote_valuelen :
  0 <= remote_valuelen < 2 ^ 32 →
  safe (recv_get nic_ok alloc_ok clock backend_now false conn req id key (klen key) remote_valuelen) s
    (done_with conn c).
Proof.
  intros Hr. unfold recv_get. step. eapply safe_get_key; [done|done|done|].
  intros st kn out s1 K1 Hi1 Hout. pose proof (kv_only_conns _ _ K1) as [E1 W1].
  assert (Hg : ∀ a, getters (sv_works s1) a <= pins a) by (intros a; rewrite W1; apply (si_pins _ _ _ Hi a)).
  assert (Hother : safe (ret ← priskv_rdma_send_response nic_ok conn id st 0;
      _ ← get_key_end kn; mret (ret, 0, false)) s1 (done_with conn c))
    by (eapply safe_answer_end; [done|done|by rewrite E1|done]).
  destruct st; try exact Hother. destruct kn as [a|]; [|exact Hother].
  destruct out as [[v l]|]; [|exact Hother]. destruct (Hout v l eq_refl) as [Hl _].
  destruct (Z.ltb_spec remote_valuelen l).
  { eapply (safe_answer_end s1 pins); [done|done|by rewrite E1|done]. }
  step. eapply (safe_rw_req _ _ s1 (padd pins a 1) conn c); [done|by rewrite E1|done|lia|done| |].
  - intros id' n. split; simpl; [|done]. intros b [= <-]. pose proof (Hg a). unfold padd.
    rewrite decide_True by done. lia.
  - intros [ret work] s2 Hi2 K2 _. apply safe_ret. split; [done|].
    destruct K2 as (_ & _ & _ & _ & F2). simpl in F2.
    destruct (F2 conn c) as (c2 & Hc2 & _ & Hb & _); [by rewrite E1|]. by exists (padd pins a 1), c2.
Qed.

Lemma safe_recv_set remote_valuelen timeout :
  0 <= remote_valuelen < 2 ^ 32 →
  safe (recv_set nic_ok alloc_ok clock false conn req id key (klen key) timeout remote_valuelen) s
    (done_with conn c).
Proof.
  intros Hr. unfold recv_set. destruct (Z.eqb_spec remote_valuelen 0); [by eapply safe_answered|].
  step. eapply safe_set_key; [done|done|done|lia|]. intros st kn out s1 K1 Hi1 Hn.
  pose proof (kv_only_conns _ _ K1) as [E1 W1].
  assert (Hother : safe (ret ← priskv_rdma_send_response nic_ok conn id st 0;
      _ ← set_key_end kn; mret (ret, 0, false)) s1 (done_with conn c)).
  { step. eapply safe_send_response; [by rewrite E1|eapply (si_conns _ _ _ Hi1); [by rewrite E1|done]|].
    intros ret s2 K2. pose proof (kept_inv _ _ _ _ Hi1 K2) as Hi2. pose proof K2 as (EK & _ & _ & _ & F2).
    destruct (F2 conn c) as (c2 & Hc2 & _ & Hb & _); [by rewrite E1|].
    step. eapply safe_set_key_end; [done|intros a Ha; rewrite EK; by apply Hn|].
    intros s3 K3 Hi3. apply kv_only_conns in K3 as [E3 _]. apply safe_ret. split; [done|].
    exists pins, c2. by rewrite E3. }
  destruct st; try exact Hother. destruct kn as [a|]; [|exact Hother].
  destruct out as [v|]; [|exact Hother].
  step. eapply (safe_rw_req _ _ s1 pins conn c); [done|by rewrite E1|done|lia|done| |].
  - intros id' n'. by split.
  - intros [ret work] s2 Hi2 K2 _. apply safe_ret. split; [done|].
    destruct K2 as (_ & _ & _ & _ & F2). simpl in F2.
    destruct (F2 conn c) as (c2 & Hc2 & _ & Hb & _); [by rewrite E1|]. by exists pins, c2.
Qed.

Lemma safe_recv_test timeout :
  safe (recv_test nic_ok alloc_ok clock backend_now false conn req id key (klen key) timeout) s
    (done_with conn c).
Proof.
  unfold recv_test. step. eapply safe_get_key; [done|done|done|].
  intros st kn out s1 K1 Hi1 _. pose proof (kv_only_conns _ _ K1) as [E1 W1].
  eapply (safe_answer_end s1 pins); [done| |by rewrite E1|done].
  intros a. rewrite W1. apply (si_pins _ _ _ Hi a).
Qed.

(** A command that only runs an operation of the store and answers. *)
Lemma safe_run_answer {A} (f : kv_state → res (A * kv_state)) (st : A → priskv_resp_status) (len : A → Z) :
  (∃ a kv', f (sv_kv s) = Ok (a, kv') ∧ kv_inv kv' pins [] None None ∧ same_conf (sv_kv s) kv') →
  safe (a ← on_kv f; answered nic_ok conn id (st a) (len a)) s (done_with conn c).
Proof.
  intros Hf. step. eapply safe_on_kv; [done|done|]. intros a s1 K1 Hi1.
  apply kv_only_conns in K1 as [E1 _]. eapply safe_answered; [done|by rewrite E1|done].
Qed.

Lemma safe_recv_delete timeout :
  safe (recv_delete nic_ok alloc_ok clock backend_now false conn req id key (klen key) timeout) s
    (done_with conn c).
Proof.
  unfold recv_delete, delete_key. apply (safe_run_answer (λ kv, priskv_delete_key kv key (klen key))
    (λ st, st) (λ _, 0)).
  destruct (delete_spec (sv_kv s) pins key (si_kv _ _ _ Hi) Hkey) as (kv' & -> & ? & ? & _). eauto.
Qed.

Lemma safe_recv_flush :
  safe (recv_flush regcomp nic_ok conn id key (klen key)) s (done_with conn c).
Proof.
  unfold recv_flush. step. eapply safe_on_kv; [exact Hi| |].
  2:{ intros [st n] s1 K1 Hi1. apply kv_only_conns in K1 as [E1 _]. eapply safe_answered; [done|by rewrite E1|done]. }
  unfold priskv_flush_keys. destruct (regcomp_buf _ _ _) as [rx|]; simpl.
  - destruct (flush_spec rx (sv_kv s) pins (si_kv _ _ _ Hi) (si_safekey _ _ _ Hi)) as (kv' & -> & ? & ? & _).
    simpl. eauto.
  - do 2 eexists. split; [done|]. split; [apply (si_kv _ _ _ Hi)|done].
Qed.

Lemma safe_recv_nrkeys :
  safe (recv_nrkeys regcomp nic_ok conn id key (klen key)) s (done_with conn c).
Proof.
  unfold recv_nrkeys. step. eapply safe_get_keys; [exact Hi|]. intros st o _. destruct st; by eapply safe_answered.
Qed.
End one.

Lemma safe_recv_expire s pins conn c id key timeout :
  server_inv s pins None → sv_conns s !! conn = Some c → c_bufs c ≠ ∅ → valid_key key → (∀ a, pins a < 2 ^ 32 - 2) →
  safe (recv_expire nic_ok clock conn id key (klen key) timeout) s (done_with conn c).
Proof.
  intros Hi Hc Hne Hkey Hpins. unfold recv_expire. step. apply safe_tick. intros s1 K1 E1 _.
  pose proof (kept_inv _ _ _ _ Hi K1) as Hi1.
  apply (safe_run_answer s1 pins conn c id Hi1 ltac:(by rewrite E1) Hne
    (λ kv, priskv_expire_key kv key (klen key) timeout (clock (sv_tick s))) (λ st, st) (λ _, 0)).
  destruct (expire_spec (sv_kv s1) pins key timeout (clock (sv_tick s)) (si_kv _ _ _ Hi1) Hkey Hpins)
    as (st & kv' & -> & ? & ? & _). eauto.
Qed.

Lemma reallen_range (kv : kv_state) regex regexlen keyslen st o :
  priskv_get_keys regcomp kv regex regexlen keyslen = Ok (st, Some o) → 0 <= ko_reallen o < 2 ^ 32.
Proof.
  unfold priskv_get_keys. destruct (regcomp_buf _ _ _) as [rx|]; [|done]. rewrite foldM_concat.
  intros Hg. apply bind_Ok in Hg as (o' & Hf & Ho). injection Ho as _ ->. revert Hf.
  assert (0 <= ko_reallen (mk_keys 0 0 []) < 2 ^ 32) as Hr by done.
  revert Hr. generalize (mk_keys 0 0 []). induction (concat (hash_heads kv)) as [|a l IH]; intros o0 Hr Hf; simpl in Hf.
  - by injection Hf as ->.
  - apply bind_Ok in Hf as (o1 & Hv & Hf). eapply IH; [|done]. unfold keys_visit in Hv.
    apply bind_Ok in Hv as (n & _ & Hv). apply bind_Ok in Hv as (k & _ & Hv).
    destruct (negb _); injection Hv as <-; [done|]. simpl. apply u32_range.
Qed.

Lemma safe_keys_free s pins conn c :
  server_inv s pins None → sv_conns s !! conn = Some c → keys_works (sv_works s) conn = 0 →
  safe (keys_mem_free conn) s (λ _ s', server_inv s' pins None ∧ sv_conns s' !! conn = Some (with_keys c None)).
Proof.
  intros Hi Hc Hz. unfold keys_mem_free. step. apply (safe_get_conn _ c); [done|]. eexists _, _. split; [done|].
  split; [apply keys_put_inv; [done|done|by right]|simpl; by rewrite lookup_insert_eq].
Qed.

Lemma safe_recv_keys s pins conn c req id buf nsgl key remote_valuelen :
  server_inv s pins None → sv_conns s !! conn = Some c → req_ok c req buf nsgl →
  safe (recv_keys regcomp nic_ok alloc_ok conn req id key (klen key) remote_valuelen) s (done_with conn c).
Proof.
  intros Hi Hc Hreq. pose proof (bufs_nonempty _ _ _ (proj1 Hreq)) as Hne. unfold recv_keys. step. apply (safe_get_conn _ c); [done|].
  case_bool_decide as Hk.
  { step. eapply safe_send_response; [done|by eapply (si_conns _ _ _ Hi)|]. intros ret s1 K1.
    apply safe_ret. split; [done|]. pose proof K1 as (_ & _ & _ & _ & F1).
    destruct (F1 _ _ Hc) as (c1 & Hc1 & _ & Hb & _). exists pins, c1. split_and!; [by eapply kept_inv|done|done]. }
  assert (keys_works (sv_works s) conn = 0) as Hz.
  { pose proof (si_keys _ _ _ Hi _ _ Hc) as Hle. pose proof (keys_works_nonneg (sv_works s) conn).
    apply eq_None_not_Some in Hk. rewrite Hk in Hle. simpl in Hle. lia. }
  unfold keys_mem_new. step. step. apply safe_tick. intros s1 K1 E1 _.
  pose proof (kept_inv _ _ _ _ Hi K1) as Hi1. pose proof K1 as (EK1 & W1 & _).
  destruct (alloc_ok _); simpl.
  2:{ apply safe_ret. simpl. eapply safe_answered; [done|by rewrite E1|done]. }
  step. apply (safe_get_conn _ c); [by rewrite E1|]. step. eexists _, _. split; [done|]. apply safe_ret. simpl.
  set (c2 := with_keys c (Some (sv_tick s, []))). set (s2 := mk_server _ _ _ _ _ _ _).
  assert (server_inv s2 pins None) as Hi2 by (apply keys_put_inv; [done|by rewrite E1|by left]).
  step. eapply (safe_get_keys s2 pins); [done|]. intros st o Hg.
  assert (0 <= ko_reallen (default (mk_keys 0 0 []) o) < 2 ^ 32) as Hr.
  { destruct o as [o|]; [by eapply reallen_range|done]. }
  set (o' := default _ o) in *.
  step. apply (safe_get_conn _ c2); [simpl; by rewrite lookup_insert_eq|]. simpl.
  step. eexists _, _. split; [done|].
  set (c3 := with_keys c2 (Some (sv_tick s, ko_buf o'))). set (s3 := mk_server _ _ _ _ _ _ _).
  assert (server_inv s3 pins None) as Hi3
    by (apply (keys_put_inv s2); [done|simpl; by rewrite lookup_insert_eq|by left]).
  assert (sv_conns s3 !! conn = Some c3) as Hc3 by (simpl; by rewrite lookup_insert_eq).
  assert (keys_works (sv_works s3) conn = 0) as Hz3 by (simpl; by rewrite W1).
  assert (∀ s4 pins4 c4, server_inv s4 pins4 None → sv_conns s4 !! conn = Some c4 → c_bufs c4 = c_bufs c →
    keys_works (sv_works s4) conn = 0 →
    safe (_ ← keys_mem_free conn; answered nic_ok conn id st (ko_reallen o')) s4 (done_with conn c)) as Hfree.
  { intros s4 pins4 c4 Hi4 Hc4 Hb4 Hz4. step. eapply safe_mono; [by eapply safe_keys_free|].
    intros _ s5 [Hi5 Hc5]. eapply safe_mono; [eapply safe_answered; [done|done|simpl; by rewrite Hb4]|]. intros o5 s6 [Ht (p6 & c6 & ? & ? & Hb6)].
    split; [done|]. exists p6, c6. split_and!; [done|done|]. by rewrite Hb6. }
  destruct (_ || _); [by eapply (Hfree s3 pins c3)|].
  step. eapply (safe_rw_req _ _ s3 pins conn c3); [done|done|done|done|done| |].
  - intros id' n. split; simpl; [done|]. intros _. by exists c3.
  - intros [ret work] s4 Hi4 K4 Hw4. destruct K4 as (_ & _ & _ & _ & F4). simpl in F4.
    destruct (F4 conn c3) as (c4 & Hc4 & _ & Hb & _); [done|]. simpl.
    destruct (Z.eqb_spec ret 0) as [|Hne0]; [apply safe_ret; split; [done|]; by exists pins, c4|].
    eapply (Hfree s4 pins c4); [done|done|done|]. rewrite Hw4 by done. exact Hz3.
Qed.

Lemma check_request_spec cap nsgl len keylen :
  0 <= nsgl → 0 <= max_sgl cap < 2 ^ 11 → check_request cap nsgl len = inr keylen →
  priskv_request_key_off nsgl = sizeof_priskv_request + sizeof_priskv_keyed_sgl * nsgl ∧
  nsgl <= max_sgl cap ∧ 0 < keylen <= cap_max_key_length cap ∧ keylen < 2 ^ 16.
Proof.
  intros Hn Hm. unfold check_request. destruct (_ <? _); [done|].
  pose proof (Z.mod_pos_bound (len - priskv_request_key_off nsgl) (2 ^ 16)) as Hr. fold (u16 (len - priskv_request_key_off nsgl)) in Hr.
  destruct (Z.eqb_spec (u16 (len - priskv_request_key_off nsgl)) 0); [done|].
  destruct (Z.ltb_spec (cap_max_key_length cap) (u16 (len - priskv_request_key_off nsgl))); [done|].
  destruct (Z.ltb_spec (max_sgl cap) nsgl); [done|]. intros [= <-].
  split; [apply key_off_small; unfold sizeof_priskv_request, sizeof_priskv_keyed_sgl; lia|]. lia.
Qed.

Lemma safe_recv_command s pins conn c req command id timeout buf key nsgl :
  server_inv s pins None → sv_conns s !! conn = Some c → req_ok c req buf nsgl →
  valid_key key → klen key <= max_key_length (sv_kv s) → (∀ a, pins a < 2 ^ 32 - 2) →
  0 <= command < PRISKV_COMMAND_MAX →
  safe (recv_command regcomp nic_ok alloc_ok clock backend_now false conn req command id timeout buf key
          nsgl (klen key)) s (done_with conn c).
Proof.
  intros Hi Hc Hreq Hkey Hfit Hpins Hcmd. pose proof Hreq as (Hb & _ & Hn).
  pose proof (bufs_nonempty _ _ _ Hb) as Hne.
  pose proof (si_conns _ _ _ Hi _ _ Hc Hne) as (Hms & Hkl & _ & _ & _ & Hbufs).
  destruct (Hbufs req buf Hb) as [Hby Hlen]. unfold sizeof_priskv_request, sizeof_priskv_keyed_sgl in Hlen.
  destruct (req_sgls_Ok buf nsgl) as (sgls & Hs & _);
    [done|lia|unfold off_sgls, sizeof_priskv_keyed_sgl; lia|].
  unfold recv_command.
  destruct (Z.eqb_spec command PRISKV_COMMAND_GET).
  { rewrite Hs. step. eapply safe_lift; [done|]. eapply safe_recv_get; try done. apply sgl_size_range. }
  destruct (Z.eqb_spec command PRISKV_COMMAND_SET).
  { rewrite Hs. step. eapply safe_lift; [done|]. eapply safe_recv_set; try done. apply sgl_size_range. }
  destruct (Z.eqb_spec command PRISKV_COMMAND_TEST); [by eapply safe_recv_test|].
  destruct (Z.eqb_spec command PRISKV_COMMAND_DELETE); [by eapply safe_recv_delete|].
  destruct (Z.eqb_spec command PRISKV_COMMAND_EXPIRE); [by eapply safe_recv_expire|].
  destruct (Z.eqb_spec command PRISKV_COMMAND_KEYS).
  { rewrite Hs. step. eapply safe_lift; [done|]. by eapply safe_recv_keys. }
  destruct (Z.eqb_spec command PRISKV_COMMAND_NRKEYS); [by eapply safe_recv_nrkeys|].
  destruct (Z.eqb_spec command PRISKV_COMMAND_FLUSH); [by eapply safe_recv_flush|].
  unfold PRISKV_COMMAND_GET, PRISKV_COMMAND_SET, PRISKV_COMMAND_TEST, PRISKV_COMMAND_DELETE,
    PRISKV_COMMAND_EXPIRE, PRISKV_COMMAND_KEYS, PRISKV_COMMAND_NRKEYS, PRISKV_COMMAND_FLUSH,
    PRISKV_COMMAND_MAX in *. lia.
Qed.

Lemma safe_handle_recv s pins conn c req len buf command :
  server_inv s pins None → sv_conns s !! conn = Some c → c_bufs c !! req = Some buf →
  req_command buf = Ok command → 0 <= command < PRISKV_COMMAND_MAX → (∀ a, pins a < 2 ^ 32 - 2) →
  safe (priskv_rdma_handle_recv regcomp nic_ok alloc_ok clock backend_now false conn req len) s
    (λ _ s', (∃ pins', server_inv s' pins' None) ∧ is_Some (sv_conns s' !! conn)).
Proof.
  intros Hi Hc Hb Hcmd Hrange Hpins.
  pose proof (bufs_nonempty _ _ _ Hb) as Hne.
  pose proof (si_conns _ _ _ Hi _ _ Hc Hne) as Hok. pose proof Hok as (Hms & Hkl & _ & _ & _ & Hbufs).
  destruct (Hbufs req buf Hb) as [Hby Hlen]. unfold sizeof_priskv_request, sizeof_priskv_keyed_sgl in Hlen.
  unfold priskv_rdma_handle_recv, req_buf. step. step. apply (safe_get_conn _ c); [done|]. rewrite Hb.
  eapply safe_lift; [done|]. rewrite Hcmd. step. eapply safe_lift; [done|].
  destruct (get_be_Ok 2 buf off_nsgl) as (nsgl & Hns & Hnr); [done|done|unfold off_nsgl; lia|].
  destruct (get_be_Ok 8 buf off_timeout) as (tmo & Htm & _); [done|done|unfold off_timeout; lia|].
  destruct (get_be_Ok 8 buf off_request_id) as (id & Hid & _); [done|done|unfold off_request_id; lia|].
  unfold req_nsgl, req_timeout, req_request_id. rewrite Hns, Htm, Hid.
  do 3 (step; eapply safe_lift; [done|]). step. apply (safe_get_conn _ c); [done|].
  destruct (check_request (conn_cap c) nsgl len) as [status|keylen] eqn:Hck.
  { step. eapply safe_send_response; [done|done|]. intros ret s1 K1. apply safe_ret.
    split; [exists pins; by eapply kept_inv|]. destruct K1 as (_ & _ & _ & _ & F1).
    destruct (F1 _ _ Hc) as (c1 & ? & _). eauto. }
  destruct (check_request_spec _ _ _ _ (proj1 Hnr) Hms Hck) as (Hko & Hnm & Hkr & Hk16).
  unfold priskv_request_key. rewrite Hko. unfold sizeof_priskv_request, sizeof_priskv_keyed_sgl.
  destruct (get_bytes_Ok buf (128 + 16 * nsgl) keylen) as [Hkey Hkeylen]; [lia|lia|lia|].
  rewrite Hkey. step. eapply safe_lift; [done|]. set (key := slice _ _ _) in *.
  rewrite <- Hkeylen. fold (klen key). fold (klen key) in Hkeylen. step.
  eapply safe_mono; [eapply (safe_recv_command s pins conn c); try done|].
  - split_and!; [done|exact Hns|lia|lia].
  - split; [by apply slice_bytes|]. fold (klen key). lia.
  - lia.
  - intros [[ret bytes] tier] s1 [Ht (pins1 & c1 & Hi1 & Hc1 & Hb1)]. simpl in Ht. subst tier.
    pose proof (si_conns _ _ _ Hi1 _ _ Hc1 ltac:(by rewrite Hb1)) as (_ & _ & _ & _ & Hst1 & _).
    step. eapply safe_stats_ops; [done|rewrite Hst1; unfold PRISKV_COMMAND_MAX in *; lia|].
    intros s2 K2. pose proof K2 as (_ & _ & _ & _ & F2).
    destruct (F2 _ _ Hc1) as (c2 & Hc2 & _ & Hb2 & _ & Hst2 & _). destruct (ret =? 0).
    + step. eapply safe_recv_req; [done|by rewrite Hb2, Hb1, Hb|]. intros r s3 K3.
      pose proof K3 as (_ & _ & _ & _ & F3). destruct (F3 _ _ Hc2) as (c3 & Hc3 & _ & _ & _ & Hst3 & _).
      step. eapply safe_stats_bytes; [done|rewrite Hst3, Hst2, Hst1; unfold PRISKV_COMMAND_MAX in *; lia|].
      intros s4 K4. pose proof K4 as (_ & _ & _ & _ & F4). destruct (F4 _ _ Hc3) as (c4 & Hc4 & _).
      apply safe_ret. split; [|eauto]. exists pins1. eapply kept_inv; [done|]. by do 2 (etrans; [done|]).
    + apply safe_ret. split; [exists pins1; by eapply kept_inv|eauto].
Qed.

(** ** Every completion *)

(** What the network card guarantees of a completion of [conn]: a receive
    buffer and response slot of the connection, a transfer that is outstanding.
    The command of a request is one of the protocol's, the node of a SET
    that ends was not deleted meanwhile, and the buffer of the request of a transfer
    that ends has a message with its key inside. *)
Definition wc_ok (s : server) (pins : Z → Z) (conn : Z) (wc : completion) : Prop :=
  ∃ c, sv_conns s !! conn = Some c ∧ c_bufs c ≠ ∅ ∧
  match wc with
  | WcRecv req _ => (∃ buf command, c_bufs c !! req = Some buf ∧ req_command buf = Ok command ∧
      0 <= command < PRISKV_COMMAND_MAX) ∧ ∀ a, pins a < 2 ^ 32 - 2
  | WcRdma work => ∃ w buf, sv_works s !! work = Some w ∧ w_conn w = conn ∧ w_completed w < w_nsgl w ∧
      c_bufs c !! w_req w = Some buf ∧ key_inside buf ∧
      ∀ a, w_cb w = cb_set_key_end (Some a) → is_Some (key_mem (sv_kv s) !! a)
  | WcSend slot => 0 <= slot < priskv_rdma_wr_size (conn_cap c)
  | WcOther | WcError => True
  end.

Lemma safe_close s pins conn c (Q : bool → server → Prop) :
  server_inv s pins None → sv_conns s !! conn = Some c →
  (∀ s', server_inv s' pins None → Q false s') →
  safe (_ ← priskv_rdma_close_client_async conn; mret false) s Q.
Proof.
  intros Hi Hc HQ. unfold priskv_rdma_close_client_async. step. step. apply (safe_get_conn _ c); [done|].
  destruct (c_closing c); [by apply safe_ret, safe_ret, HQ|].
  apply (safe_put_conn _ _ c); [done|done|]. intros s1 K1 _. apply safe_ret, HQ. by eapply kept_inv.
Qed.

Lemma safe_handle_wc s pins conn wc :
  server_inv s pins None → wc_ok s pins conn wc →
  safe (handle_wc regcomp nic_ok alloc_ok clock backend_now false conn wc) s
    (λ _ s', ∃ pins', server_inv s' pins' None).
Proof.
  intros Hi (c & Hc & Hne & Hwc). destruct wc as [req len|work|slot| |]; simpl.
  - destruct Hwc as [(buf & command & Hb & Hcmd & Hr) Hp]. step.
    eapply safe_mono; [by eapply safe_handle_recv|]. intros ret s1 [[pins1 Hi1] [c1 Hc1]].
    destruct (ret =? 0); [apply safe_ret; eauto|]. eapply safe_close; eauto.
  - destruct Hwc as (w & buf & Hw & <- & Hlt & Hb & Hin & Hset). step.
    eapply safe_handle_rw; [done|done|done|done|done|done|done|]. intros ret s1 pins1 Hi1 Hd.
    destruct (Hd (w_conn w) ltac:(eauto)) as [c1 Hc1].
    destruct (ret =? 0); [apply safe_ret; eauto|]. eapply safe_close; eauto.
  - pose proof (si_conns _ _ _ Hi _ _ Hc Hne) as (_ & _ & Hl & _). step.
    eapply safe_handle_send; [done|by rewrite Hl|]. intros ret s1 K1. apply safe_ret.
    exists pins. by eapply kept_inv.
  - eapply safe_close; eauto.
  - eapply safe_close; eauto.
Qed.
End requests.
