(* ===== verification/ServerSystem.v ===== *)
(** * The server as a system

    Clients connect, send requests and leave while transfers complete, keys
    expire and connections are closed: in every state such a run reaches, the
    next event is handled without a fault. *)

From S2P Require Import Prelude State Utils Crc Lists Protocol Wire Memory Slab Buddy Alloc KvModel KvInv KvOps KvSweep KvKeys KvStart KvSystem ServerModel ServerRdma ServerSafe.

Import Slab Buddy.

(** ** Negotiation *)

Definition cap_range (c : priskv_rdma_conn_cap) : Prop :=
  0 <= max_sgl c ∧ 0 <= cap_max_key_length c ∧ 0 <= max_inflight_command c.

Definition cap_le (c l : priskv_rdma_conn_cap) : Prop :=
  max_sgl c <= max_sgl l ∧ cap_max_key_length c <= cap_max_key_length l ∧
  max_inflight_command c <= max_inflight_command l.

(** A limit of 0 asks for the listener's. *)
Definition asked (c l : Z) : Z := if c =? 0 then l else c.

Lemma limit_spec c l :
  0 <= c → 0 <= l →
  (if c =? 0 then Some l else if l <? c then None else Some c)
    = if decide (c <= l) then Some (asked c l) else None.
Proof.
  intros Hc Hl. unfold asked. destruct (Z.eqb_spec c 0), (Z.ltb_spec l c), (decide (c <= l)); (done || lia).
Qed.

Lemma verify_conn_cap_spec c l :
  cap_range c → cap_range l →
  match priskv_rdma_verify_conn_cap c l with
  | inl cap => cap_le c l ∧ cap_range cap ∧ cap_le cap l ∧
      cap = mk_cap (asked (max_sgl c) (max_sgl l)) (asked (cap_max_key_length c) (cap_max_key_length l))
              (asked (max_inflight_command c) (max_inflight_command l))
  | inr (st, v) => ~ cap_le c l ∧
      (st = PRISKV_RDMA_CM_REJ_STATUS_INVALID_SGL ∧ v = max_sgl l ∧ max_sgl l < max_sgl c ∨
       st = PRISKV_RDMA_CM_REJ_STATUS_INVALID_KEY_LENGTH ∧ v = cap_max_key_length l ∧ max_sgl c <= max_sgl l ∧
         cap_max_key_length l < cap_max_key_length c ∨
       st = PRISKV_RDMA_CM_REJ_STATUS_INVALID_INFLIGHT_COMMAND ∧ v = max_inflight_command l ∧ max_sgl c <= max_sgl l ∧
         cap_max_key_length c <= cap_max_key_length l ∧ max_inflight_command l < max_inflight_command c)
  end.
Proof.
  intros (C1 & C2 & C3) (L1 & L2 & L3). unfold priskv_rdma_verify_conn_cap. cbv zeta.
  rewrite !limit_spec by done. unfold cap_le, cap_range, asked.
  destruct (decide (max_sgl c <= max_sgl l)); [|split; [lia|left; split_and!; (done || lia)]].
  destruct (decide (cap_max_key_length c <= cap_max_key_length l)); [|split; [lia|right; left; split_and!; (done || lia)]].
  destruct (decide (max_inflight_command c <= max_inflight_command l)); [|split; [lia|right; right; split_and!; (done || lia)]].
  simpl. split; [lia|]. split; [|split; [|done]].
  all: destruct (Z.eqb_spec (max_sgl c) 0), (Z.eqb_spec (cap_max_key_length c) 0),
    (Z.eqb_spec (max_inflight_command c) 0); lia.
Qed.

(** The limits a listener is started with. *)
Definition listener_ok (mkl : Z) (l : priskv_rdma_conn_cap) : Prop :=
  0 <= max_sgl l <= PRISKV_RDMA_MAX_SGL ∧ 0 <= cap_max_key_length l <= mkl ∧
  0 <= max_inflight_command l <= PRISKV_RDMA_MAX_INFLIGHT_COMMAND.

Lemma wr_size_bound mkl l cap :
  listener_ok mkl l → cap_range cap → cap_le cap l →
  priskv_rdma_wr_size cap = max_inflight_command cap * (2 + max_sgl cap) ∧
  0 <= priskv_rdma_wr_size cap <= 40960.
Proof.
  unfold listener_ok, PRISKV_RDMA_MAX_SGL, PRISKV_RDMA_MAX_INFLIGHT_COMMAND.
  intros (L1 & L2 & L3) (C1 & C2 & C3) (E1 & E2 & E3). unfold priskv_rdma_wr_size.
  assert (0 <= max_inflight_command cap * (2 + max_sgl cap) <= 4096 * 10).
  { split; [apply Z.mul_nonneg_nonneg; lia|apply Z.mul_le_mono_nonneg; lia]. }
  rewrite u32_small by lia. lia.
Qed.

Lemma request_size_bound mkl l cap :
  listener_ok mkl l → cap_range cap → cap_le cap l → mkl < SAFEKEY →
  sizeof_priskv_request + sizeof_priskv_keyed_sgl * max_sgl cap + cap_max_key_length cap
    <= priskv_request_size_aligend cap < 2 ^ 12.
Proof.
  unfold listener_ok, PRISKV_RDMA_MAX_SGL, SAFEKEY.
  intros (L1 & L2 & _) (C1 & C2 & _) (E1 & E2 & _) Hm. unfold priskv_request_size_aligend.
  assert (priskv_request_size (max_sgl cap) (cap_max_key_length cap)
    = sizeof_priskv_request + sizeof_priskv_keyed_sgl * max_sgl cap + cap_max_key_length cap) as ->.
  { unfold priskv_request_size. rewrite key_off_small;
      unfold sizeof_priskv_request, sizeof_priskv_keyed_sgl; [|lia..]. apply Z.mod_small. lia. }
  unfold sizeof_priskv_request, sizeof_priskv_keyed_sgl.
  pose proof (ALIGN_UP_bounds 32 (128 + 16 * max_sgl cap + cap_max_key_length cap) 6) as Hb.
  change (2 ^ 6) with 64 in Hb. destruct Hb as [Hb _]; lia.
Qed.

(** ** Buffers of a connection *)

Lemma free_slots_spec fuel : ∀ i n,
  n < 2 ^ 16 → 0 <= i <= n → n - i <= Z.of_nat fuel →
  free_slots fuel (replicate (Z.to_nat i) PRISKV_RDMA_RESPONSE_FREE_STATUS ++ replicate (Z.to_nat (n - i)) 0) n i
    = Ok (replicate (Z.to_nat n) PRISKV_RDMA_RESPONSE_FREE_STATUS).
Proof.
  induction fuel as [|fuel IH]; intros i n Hn Hi Hf; cbn [free_slots];
    (destruct (Z.ltb_spec i n); [|replace i with n by lia; rewrite Z.sub_diag; simpl; by rewrite app_nil_r]); [lia|].
  unfold priskv_rdma_response_free.
  replace (Z.to_nat (n - i)) with (S (Z.to_nat (n - (i + 1)))) by lia. cbn [replicate].
  rewrite (proj2 (rd_Ok _ i 0)).
  2:{ split; [lia|]. rewrite lookup_app_r, length_replicate, Nat.sub_diag by (rewrite length_replicate; lia). done. }
  simpl. rewrite wr_Ok by (rewrite length_app, length_replicate; simpl; rewrite length_replicate; lia). simpl.
  unfold u16. rewrite Z.mod_small by lia. rewrite <- (IH (i + 1) n) by lia. f_equal.
  rewrite insert_app_r_alt by (rewrite length_replicate; lia). rewrite length_replicate, Nat.sub_diag. simpl.
  replace (Z.to_nat (i + 1)) with (Z.to_nat i + 1)%nat by lia.
  by rewrite replicate_add, <- app_assoc.
Qed.

Definition ctrl_bufs (size wr_size : Z) : gmap Z (list Z) :=
  list_to_map ((λ a, (a, replicate (Z.to_nat size) 0)) <$> req_addrs 0 size wr_size).

Lemma ctrl_bufs_lookup size wr_size a buf :
  ctrl_bufs size wr_size !! a = Some buf → buf = replicate (Z.to_nat size) 0.
Proof.
  intros Hb. apply elem_of_list_to_map_2 in Hb. by apply list_elem_of_fmap in Hb as (x & [= _ ->] & _).
Qed.

Lemma ctrl_bufs_at size wr_size i : 0 <= i < wr_size → is_Some (ctrl_bufs size wr_size !! (i * size)).
Proof.
  intros Hi. apply elem_of_dom. unfold ctrl_bufs. rewrite dom_list_to_map_L. apply elem_of_list_to_set.
  rewrite <- list_fmap_compose. apply list_elem_of_fmap. exists (i * size). split; [done|].
  apply list_elem_of_fmap. exists i. split; [lia|]. apply elem_of_seqZ. lia.
Qed.

(** One connection is written. *)
Lemma set_conn_inv s pins conn c' t :
  server_inv s pins None → sv_tick s <= t → conn < t →
  keys_works (sv_works s) conn <= (if c_keys c' then 1 else 0) →
  (c_bufs c' ≠ ∅ → conn_ok (max_key_length (sv_kv s)) c') →
  server_inv (mk_server (sv_kv s) (<[conn := c']> (sv_conns s)) (sv_works s) (sv_treqs s) (sv_submitted s)
                (sv_backend s) t) pins None.
Proof.
  intros [I1 I2 I3 I4 I5 I8 I6 I7] Ht Hct Hk Hok. split; simpl in *; try done.
  - intros i c1 Hc1. apply lookup_insert_Some in Hc1 as [[<- <-]|[_ Hc1]]; [done|by eapply I4].
  - intros i w Hw. destruct (I5 i w Hw) as (? & ? & ?). split_and!; [done|lia|lia].
  - intros i [c1 Hc1]. apply lookup_insert_Some in Hc1 as [[<- _]|[_ Hc1]]; [lia|].
    pose proof (I8 i ltac:(eauto)). lia.
  - intros i c1 Hc1. apply lookup_insert_Some in Hc1 as [[<- <-]|[_ Hc1]]; [done|by eapply I7].
Qed.

Lemma no_keys_works s pins conn :
  server_inv s pins None → sv_tick s <= conn → keys_works (sv_works s) conn = 0.
Proof.
  intros Hi Hc. unfold keys_works. assert (filter _ (sv_works s) = ∅) as ->; [|done].
  apply map_empty. intros i. apply map_lookup_filter_None_2. right.
  intros w Hw [_ Hwc]. destruct (si_works _ _ _ Hi i w Hw) as (_ & _ & ?). simpl in Hwc. lia.
Qed.

(** Connections other than [conn] are as they were. *)
Definition others_same (s s' : server) (conn : Z) : Prop :=
  sv_kv s' = sv_kv s ∧ sv_works s' = sv_works s ∧ sv_tick s <= sv_tick s' ∧
  ∀ i, i ≠ conn → sv_conns s' !! i = sv_conns s !! i.

(** One of the calls numbered from [t0] on, before [t1], failed. *)
Definition call_failed (nic_ok alloc_ok : Z → bool) (t0 t1 : Z) : Prop :=
  ∃ t, t0 <= t < t1 ∧ (nic_ok t = false ∨ alloc_ok t = false).

Lemma call_failed_mono nic_ok alloc_ok t0 t1 u0 u1 :
  call_failed nic_ok alloc_ok t0 t1 → u0 <= t0 → t1 <= u1 → call_failed nic_ok alloc_ok u0 u1.
Proof. intros (t & Ht & Hf) ? ?. exists t. split; [lia|done]. Qed.

Section connect.
Context (nic_ok alloc_ok : Z → bool).

Lemma safe_set_conn s pins conn c c' (Q : unit → server → Prop) :
  server_inv s pins None → sv_conns s !! conn = Some c → c_keys c' = c_keys c →
  (c_bufs c' ≠ ∅ → conn_ok (max_key_length (sv_kv s)) c') →
  (∀ s', server_inv s' pins None → sv_conns s' !! conn = Some c' → others_same s s' conn → Q tt s') →
  safe (put_conn conn c') s Q.
Proof.
  intros Hi Hc Hk Hok HQ. eexists _, _. split; [done|]. apply HQ.
  - apply set_conn_inv; [done|lia|apply (si_fresh _ _ _ Hi); eauto| |done].
    rewrite Hk. by apply (si_keys _ _ _ Hi).
  - simpl. by rewrite lookup_insert_eq.
  - split_and!; [done|done|simpl; lia|]. intros i Hne. simpl. by rewrite lookup_insert_ne.
Qed.

Lemma safe_post_recvs fuel conn c size n : ∀ i s pins acc,
  server_inv s pins None → sv_conns s !! conn = Some (with_recvs c acc) →
  c_bufs c = ctrl_bufs size n → priskv_request_size_aligend (conn_cap c) = size → 0 <= size →
  n < 2 ^ 16 → 0 <= i <= n → n - i <= Z.of_nat fuel →
  safe (post_recvs nic_ok fuel conn (i * size) n i) s (λ ok s',
    server_inv s' pins None ∧ others_same s s' conn ∧
    ∃ acc', sv_conns s' !! conn = Some (with_recvs c acc') ∧
      (ok = true → acc' = acc ++ ((λ j, j * size) <$> seqZ i (n - i))) ∧
      (ok = false → call_failed nic_ok alloc_ok (sv_tick s) (sv_tick s'))).
Proof.
  induction fuel as [|fuel IH]; intros i s pins acc Hi Hc Hb Hsz Hs0 Hn Hin Hf; cbn [post_recvs];
    (destruct (Z.ltb_spec i n);
     [|apply safe_ret; split_and!; try done; exists acc; split; [done|]; split; [intros _|done];
       rewrite seqZ_nil by lia; by rewrite app_nil_r]); [lia|].
  unfold priskv_rdma_recv_req. step. step. apply (safe_get_conn _ _ _ _ Hc). simpl.
  rewrite bool_decide_true by (rewrite Hb; apply ctrl_bufs_at; lia). step. eapply safe_lift; [done|].
  step. apply safe_tick. intros s1 K1 E1 T1. pose proof (kept_inv _ _ _ _ Hi K1) as Hi1.
  pose proof K1 as (EK & EW & _). destruct (nic_ok _) eqn:Hnic.
  - step. eapply safe_set_conn; [exact Hi1|by rewrite E1|done| |].
    { intros Hne. exact (si_conns _ _ _ Hi1 conn _ ltac:(by rewrite E1) Hne). }
    intros s2 Hi2 Hc2 (EK2 & EW2 & T2 & O2). apply safe_ret. rewrite Hsz.
    destruct (Z.ltb_spec size 0); [lia|]. unfold u16. rewrite Z.mod_small by lia.
    replace (i * size + size) with ((i + 1) * size) by lia.
    eapply safe_mono; [eapply (IH (i + 1) s2 pins (acc ++ [i * size])); try done; lia|].
    intros ok s3 (Hi3 & (EK3 & EW3 & T3 & O3) & acc' & Hc3 & Hacc & Hbad). split; [done|]. split.
    + split; [congruence|]. split; [congruence|]. split; [lia|]. intros j Hj. by rewrite O3, O2, E1 by done.
    + exists acc'. split; [done|]. split; [|intros Hok; eapply call_failed_mono; [by apply Hbad|lia|lia]].
      intros Hok. rewrite (Hacc Hok), <- app_assoc.
      f_equal. rewrite (seqZ_cons i) by lia. rewrite fmap_cons. simpl. do 3 f_equal; lia.
  - apply safe_ret. destruct (Z.ltb_spec (- EIO) 0); [|unfold EIO in *; lia].
    apply safe_ret. split; [done|]. split; [split_and!; [done|done|lia|]; intros; by rewrite E1|].
    exists acc. split; [by rewrite E1|]. split; [done|]. intros _. exists (sv_tick s). split; [lia|by left].
Qed.

(** A connection ready for requests: every response slot free, every request
    buffer posted, within the listener's limits. *)
Definition ready (listener cap : priskv_rdma_conn_cap) (c : priskv_rdma_conn) : Prop :=
  conn_cap c = cap ∧ cap_le cap listener ∧ c_closing c = false ∧
  c_resp c = replicate (Z.to_nat (priskv_rdma_wr_size cap)) PRISKV_RDMA_RESPONSE_FREE_STATUS ∧
  c_recvs c = (λ j, j * priskv_request_size_aligend cap) <$> seqZ 0 (priskv_rdma_wr_size cap) ∧
  (∀ a, a ∈ c_recvs c → is_Some (c_bufs c !! a)) ∧ c_posted c = [] ∧ c_keys c = None.

(** The request a client sent along: version and limits. *)
Definition asks (private_data : list Z) (cap : priskv_rdma_conn_cap) : Prop :=
  Z.of_nat (length private_data) = CM_REQ_LEN ∧ get_be 2 private_data 0 = Ok PRISKV_RDMA_CM_VERSION ∧
  get_be 2 private_data 2 = Ok (max_sgl cap) ∧ get_be 2 private_data 4 = Ok (cap_max_key_length cap) ∧
  get_be 2 private_data 6 = Ok (max_inflight_command cap).

(** The two bytes at [off]; 0 if there are none. *)
Definition field (private_data : list Z) (off : Z) : Z :=
  match get_be 2 private_data off with Ok v => v | Fault _ => 0 end.

(** Why a client has to be refused, if it has to, with the value it is told: by the
    access list, the length of the message, the version, and then the first limit
    that is more than the listener's. *)
Definition refusal (listener : priskv_rdma_conn_cap) (acl_refuse : bool) (private_data : list Z) :
    option (priskv_rdma_cm_status * Z) :=
  if acl_refuse then Some (PRISKV_RDMA_CM_REJ_STATUS_ACL_REFUSE, 0)
  else if decide (Z.of_nat (length private_data) ≠ CM_REQ_LEN)
  then Some (PRISKV_RDMA_CM_REJ_STATUS_INVALID_CM_REP, CM_REQ_LEN)
  else if decide (field private_data 0 ≠ PRISKV_RDMA_CM_VERSION)
  then Some (PRISKV_RDMA_CM_REJ_STATUS_INVALID_VERSION, PRISKV_RDMA_CM_VERSION)
  else if decide (max_sgl listener < field private_data 2)
  then Some (PRISKV_RDMA_CM_REJ_STATUS_INVALID_SGL, max_sgl listener)
  else if decide (cap_max_key_length listener < field private_data 4)
  then Some (PRISKV_RDMA_CM_REJ_STATUS_INVALID_KEY_LENGTH, cap_max_key_length listener)
  else if decide (max_inflight_command listener < field private_data 6)
  then Some (PRISKV_RDMA_CM_REJ_STATUS_INVALID_INFLIGHT_COMMAND, max_inflight_command listener)
  else None.

(** [failed]: a call that was made on the way failed. *)
Definition reply_ok (failed : Prop) (listener : priskv_rdma_conn_cap) (acl_refuse : bool) (private_data : list Z)
    (r : connect_reply) (c : priskv_rdma_conn) : Prop :=
  match r with
  | Accepted => refusal listener acl_refuse private_data = None ∧
      ∃ cap0, asks private_data cap0 ∧ cap_le cap0 listener ∧
      ready listener (mk_cap (asked (max_sgl cap0) (max_sgl listener))
        (asked (cap_max_key_length cap0) (cap_max_key_length listener))
        (asked (max_inflight_command cap0) (max_inflight_command listener))) c
  | Rejected st v => refusal listener acl_refuse private_data = Some (st, v) ∨
      refusal listener acl_refuse private_data = None ∧
      st = PRISKV_RDMA_CM_REJ_STATUS_SERVER_ERROR ∧ v = 0 ∧ failed
  | AcceptFailed => refusal listener acl_refuse private_data = None ∧ failed
  end.

Lemma new_ctrl_ok mkl l cap (c : priskv_rdma_conn) :
  listener_ok mkl l → cap_range cap → cap_le cap l → mkl < SAFEKEY →
  length (c_stats c) = Z.to_nat PRISKV_COMMAND_MAX → conn_cap c = cap →
  let size := priskv_request_size_aligend cap in
  conn_ok mkl (mk_conn cap (c_closing c) (c_stats c) (c_resps c)
    (replicate (Z.to_nat (priskv_rdma_wr_size cap)) PRISKV_RDMA_RESPONSE_FREE_STATUS)
    (ctrl_bufs size (priskv_rdma_wr_size cap)) (c_posted c) (c_recvs c) (c_keys c) (c_backend c)).
Proof.
  intros Hl Hr Hle Hm Hst Hcap size. pose proof (wr_size_bound _ _ _ Hl Hr Hle) as [_ Hw].
  pose proof (request_size_bound _ _ _ Hl Hr Hle Hm) as Hs.
  destruct Hl as (L1 & L2 & _), Hr as (R1 & R2 & _), Hle as (E1 & E2 & _). unfold PRISKV_RDMA_MAX_SGL in *.
  split_and!; simpl; [lia..| |lia|done|].
  - rewrite length_replicate. lia.
  - intros req buf Hb. apply ctrl_bufs_lookup in Hb as ->. split; [by apply Forall_replicate|].
    rewrite length_replicate. unfold size. lia.
Qed.
End connect.

Lemma reply_ok_mono (P Q : Prop) listener acl_refuse private_data r c :
  (P → Q) → reply_ok P listener acl_refuse private_data r c → reply_ok Q listener acl_refuse private_data r c.
Proof. intros HPQ. destruct r; simpl; tauto. Qed.

Section connecting.
Context (nic_ok alloc_ok : Z → bool).

Lemma safe_new_ctrl_buffer s pins conn c l (Q : bool → server → Prop) :
  server_inv s pins None → listener_ok (max_key_length (sv_kv s)) l →
  sv_conns s !! conn = Some c → cap_range (conn_cap c) → cap_le (conn_cap c) l →
  length (c_stats c) = Z.to_nat PRISKV_COMMAND_MAX →
  (∀ s' c', server_inv s' pins None → others_same s s' conn → sv_conns s' !! conn = Some c' →
     call_failed nic_ok alloc_ok (sv_tick s) (sv_tick s') → Q false s') →
  (∀ s', server_inv s' pins None → others_same s s' conn →
     sv_conns s' !! conn = Some (mk_conn (conn_cap c) (c_closing c) (c_stats c) (c_resps c)
       (replicate (Z.to_nat (priskv_rdma_wr_size (conn_cap c))) PRISKV_RDMA_RESPONSE_FREE_STATUS)
       (ctrl_bufs (priskv_request_size_aligend (conn_cap c)) (priskv_rdma_wr_size (conn_cap c)))
       (c_posted c) (c_recvs c) (c_keys c) (c_backend c)) → Q true s') →
  safe (priskv_rdma_new_ctrl_buffer alloc_ok conn) s Q.
Proof.
  intros Hi Hl Hc Hr Hle Hst Hno Hyes. pose proof (wr_size_bound _ _ _ Hl Hr Hle) as [_ Hw].
  pose proof (request_size_bound _ _ _ Hl Hr Hle (si_safekey _ _ _ Hi)) as Hs.
  unfold priskv_rdma_new_ctrl_buffer. step. apply (safe_get_conn _ c); [done|]. cbv zeta.
  step. apply safe_tick. intros s1 K1 E1 T1. pose proof (kept_inv _ _ _ _ Hi K1) as Hi1.
  pose proof K1 as (EK1 & EW1 & _). destruct (alloc_ok _) eqn:Ha1; simpl.
  2:{ apply safe_ret. eapply (Hno s1 c); [done|split_and!; [done|done|lia|]; intros; by rewrite E1|by rewrite E1|].
      exists (sv_tick s). split; [lia|by right]. }
  step. apply safe_tick. intros s2 K2 E2 T2. pose proof (kept_inv _ _ _ _ Hi1 K2) as Hi2.
  pose proof K2 as (EK2 & EW2 & _). destruct (alloc_ok (sv_tick s1)) eqn:Ha2; simpl.
  2:{ apply safe_ret. eapply (Hno s2 c); [done| |by rewrite E2, E1|exists (sv_tick s1); split; [lia|by right]].
      split_and!; [congruence..|lia|intros; by rewrite E2, E1]. }
  pose proof (free_slots_spec (Z.to_nat (priskv_rdma_wr_size (conn_cap c))) 0 (priskv_rdma_wr_size (conn_cap c))) as Hf.
  rewrite Z.sub_0_r in Hf. simpl in Hf. step. eapply safe_lift; [apply Hf; lia|].
  unfold u16. rewrite Z.mod_small by (unfold sizeof_priskv_request, sizeof_priskv_keyed_sgl in Hs; destruct Hr; lia).
  fold (ctrl_bufs (priskv_request_size_aligend (conn_cap c)) (priskv_rdma_wr_size (conn_cap c))).
  step. eapply safe_set_conn; [exact Hi2|by rewrite E2, E1|done| |].
  { intros _. apply (new_ctrl_ok _ l); try done; rewrite EK2, EK1; [done|apply (si_safekey _ _ _ Hi)]. }
  intros s3 Hi3 Hc3 (EK3 & EW3 & T3 & O3). apply safe_ret, Hyes; [done| |done].
  split_and!; [congruence..|lia|]. intros i Hi'. rewrite O3, E2, E1 by done. done.
Qed.

Lemma asks_range private_data cap0 : bytes private_data → asks private_data cap0 → cap_range cap0.
Proof.
  intros Hb (Hl & _ & H1 & H2 & H3). unfold CM_REQ_LEN in Hl.
  destruct (get_be_Ok 2 private_data 2) as (v1 & E1 & ?); [done|lia|lia|].
  destruct (get_be_Ok 2 private_data 4) as (v2 & E2 & ?); [done|lia|lia|].
  destruct (get_be_Ok 2 private_data 6) as (v3 & E3 & ?); [done|lia|lia|].
  rewrite E1 in H1. rewrite E2 in H2. rewrite E3 in H3. simplify_eq. split_and!; lia.
Qed.

Lemma others_same_trans s1 s2 s3 conn : others_same s1 s2 conn → others_same s2 s3 conn → others_same s1 s3 conn.
Proof.
  intros (K1 & W1 & T1 & O1) (K2 & W2 & T2 & O2). split_and!; [congruence..|lia|]. intros i Hi. by rewrite O2, O1.
Qed.

Lemma kept_others s s' conn : kept s s' → sv_conns s' = sv_conns s → others_same s s' conn.
Proof. intros (K & W & T & _) E. split_and!; [done|done|done|]. intros. by rewrite E. Qed.

Lemma safe_connect_steps s pins conn listener acl private_data :
  server_inv s pins None → listener_ok (max_key_length (sv_kv s)) listener → bytes private_data →
  sv_conns s !! conn = Some new_client →
  safe (connect_steps nic_ok alloc_ok listener acl private_data conn) s (λ r s',
    server_inv s' pins None ∧ others_same s s' conn ∧
    ∃ c', sv_conns s' !! conn = Some c' ∧
      reply_ok (call_failed nic_ok alloc_ok (sv_tick s) (sv_tick s')) listener acl private_data r c').
Proof.
  intros Hi Hl Hby Hc. unfold connect_steps. set (Q := λ r s', _ ∧ _).
  assert (Hrej : ∀ st v, refusal listener acl private_data = Some (st, v) → safe (mret (Rejected st v)) s Q).
  { intros st v Hst. apply safe_ret. split; [done|]. split; [by split_and!|]. exists new_client. split; [done|by left]. }
  unfold refusal in *. destruct acl; [by apply Hrej|].
  destruct (Z.eqb_spec (Z.of_nat (length private_data)) CM_REQ_LEN) as [Hlen|Hlen]; simpl;
    [|apply Hrej; by rewrite decide_True].
  rewrite decide_False in Hrej by (intros ?; done).
  pose proof Hlen as Hlen'. unfold CM_REQ_LEN in Hlen.
  destruct (get_be_Ok 2 private_data 0) as (v0 & H0 & _); [done|lia|lia|].
  destruct (get_be_Ok 2 private_data 2) as (v1 & H1 & _); [done|lia|lia|].
  destruct (get_be_Ok 2 private_data 4) as (v2 & H2 & _); [done|lia|lia|].
  destruct (get_be_Ok 2 private_data 6) as (v3 & H3 & _); [done|lia|lia|].
  assert (Hfields : field private_data 0 = v0 ∧ field private_data 2 = v1 ∧ field private_data 4 = v2 ∧ field private_data 6 = v3)
    by (unfold field; by rewrite H0, H1, H2, H3).
  destruct Hfields as (F0 & F1 & F2 & F3). rewrite F0, F1, F2, F3 in Hrej.
  rewrite H0, H1, H2, H3. step. eapply safe_lift; [done|].
  destruct (Z.eqb_spec v0 PRISKV_RDMA_CM_VERSION) as [->|]; simpl; [|apply Hrej; by rewrite decide_True].
  rewrite decide_False in Hrej by (intros ?; done).
  do 3 (step; eapply safe_lift; [done|]).
  assert (Hasks : asks private_data (mk_cap v1 v2 v3)) by done.
  pose proof (asks_range _ _ Hby Hasks) as Hrange.
  assert (Hlr : cap_range listener) by (destruct Hl as (? & ? & ?); split_and!; lia).
  pose proof (verify_conn_cap_spec _ _ Hrange Hlr) as Hv.
  destruct (priskv_rdma_verify_conn_cap _ _) as [cap|[st v]].
  2:{ destruct Hv as [_ Hst]. simpl in Hst. apply Hrej.
      destruct Hst as [(-> & -> & ?)|[(-> & -> & ? & ?)|(-> & -> & ? & ? & ?)]]; repeat case_decide; (done || lia). }
  destruct Hv as (Hle0 & Hcr & Hcle & Hcap).
  assert (Hnone : refusal listener false private_data = None).
  { unfold refusal. rewrite F0, F1, F2, F3. destruct Hle0 as (? & ? & ?). simpl in *. repeat case_decide; (done || lia). }
  assert (Hfail : ∀ s' c', server_inv s' pins None → others_same s s' conn → sv_conns s' !! conn = Some c' →
    call_failed nic_ok alloc_ok (sv_tick s) (sv_tick s') → safe (mret (Rejected PRISKV_RDMA_CM_REJ_STATUS_SERVER_ERROR 0)) s' Q).
  { intros s' c' Hi' Ho Hc' Hf. apply safe_ret. split; [done|]. split; [exact Ho|]. exists c'. split; [done|]. by right. }
  clear Hrej.
  step. apply (safe_get_conn _ _ _ _ Hc). step. eapply safe_set_conn; [done|done|done|done|].
  intros s1 Hi1 Hc1 O1. simpl in Hc1.
  step. apply safe_tick. intros s2 K2 E2 T2. step. apply safe_tick. intros s3 K3 E3 T3.
  step. apply safe_tick. intros s4 K4 E4 T4.
  assert (K14 : kept s1 s4) by (by do 2 (etrans; [done|])). pose proof (kept_inv _ _ _ _ Hi1 K14) as Hi4.
  assert (E14 : sv_conns s4 = sv_conns s1) by congruence.
  pose proof (others_same_trans _ _ _ _ O1 (kept_others _ _ conn K14 E14)) as O4. rewrite <- E14 in Hc1.
  assert (EK4 : sv_kv s4 = sv_kv s) by apply O4.
  assert (T01 : sv_tick s <= sv_tick s1) by apply O1.
  destruct (negb _) eqn:Hneg.
  { eapply Hfail; [done|done|done|]. apply negb_true_iff, andb_false_iff in Hneg as [[Hn|Hn]%andb_false_iff|Hn];
      eexists; (split; [|right; exact Hn]); lia. }
  step. eapply (safe_new_ctrl_buffer s4 pins conn _ listener); [done|by rewrite EK4|done|done|done|done| |].
  { intros s5 c5 Hi5 O5 Hc5 Hf5. eapply Hfail; [done|by eapply others_same_trans|done|].
    eapply call_failed_mono; [exact Hf5|apply O4|done]. }
  intros s5 Hi5 O5 Hc5. simpl in Hc5 |- *. pose proof (others_same_trans _ _ _ _ O4 O5) as O05.
  pose proof (wr_size_bound _ _ _ Hl Hcr Hcle) as [_ Hw].
  pose proof (request_size_bound _ _ _ Hl Hcr Hcle (si_safekey _ _ _ Hi)) as Hs.
  unfold sizeof_priskv_request, sizeof_priskv_keyed_sgl in Hs. pose proof Hcr as (? & ? & ?).
  step. eapply safe_mono.
  { match type of Hc5 with _ = Some ?c5 =>
      eapply (safe_post_recvs nic_ok alloc_ok (Z.to_nat (priskv_rdma_wr_size cap)) conn c5 (priskv_request_size_aligend cap)
        (priskv_rdma_wr_size cap) 0 s5 pins []) end; [done|exact Hc5|done|done|lia|lia|lia|lia]. }
  intros ok s6 (Hi6 & O6 & acc & Hc6 & Hacc & Hbad). pose proof (others_same_trans _ _ _ _ O05 O6) as O06.
  destruct ok; simpl.
  2:{ eapply Hfail; [done|done|done|]. eapply call_failed_mono; [by apply Hbad|apply O05|done]. }
  step. apply safe_tick. intros s7 K7 E7 T7. pose proof (kept_inv _ _ _ _ Hi6 K7) as Hi7.
  pose proof (others_same_trans _ _ _ _ O06 (kept_others _ _ conn K7 E7)) as O07.
  apply safe_ret. split; [done|]. split; [done|]. rewrite E7. eexists. split; [exact Hc6|].
  destruct (nic_ok _) eqn:Hnic.
  2:{ split; [done|]. exists (sv_tick s6). split; [split; [apply O06|lia]|by left]. }
  split; [done|]. exists (mk_cap v1 v2 v3). split; [done|]. split; [done|].
  simpl in Hcap |- *. rewrite <- Hcap. rewrite (Hacc eq_refl), Z.sub_0_r. simpl. split_and!; try done; try apply Hcle.
  simpl. intros a Ha. apply list_elem_of_fmap in Ha as (j & -> & Hj). apply ctrl_bufs_at.
  apply elem_of_seqZ in Hj. lia.
Qed.
End connecting.

(** A connect request: the client is told why it is refused, or is ready. *)
Lemma safe_connect_request nic_ok alloc_ok s pins listener acl private_data :
  server_inv s pins None → listener_ok (max_key_length (sv_kv s)) listener → bytes private_data →
  alloc_ok (sv_tick s) = true →
  safe (priskv_rdma_handle_connect_request nic_ok alloc_ok listener acl private_data) s (λ r s',
    server_inv s' pins None ∧ r.1 = sv_tick s ∧ others_same s s' r.1 ∧
    ∃ c, sv_conns s' !! r.1 = Some c ∧ reply_ok (call_failed nic_ok alloc_ok (sv_tick s + 1) (sv_tick s')) listener acl private_data r.2 c ∧
      (c_closing c = true ↔ r.2 ≠ Accepted)).
Proof.
  intros Hi Hl Hb Ha. unfold priskv_rdma_handle_connect_request. step.
  eexists _, _. split; [done|]. step. apply (safe_lift _ tt); [by rewrite Ha|].
  step. eexists _, _. split; [done|]. step.
  eapply safe_mono.
  { eapply safe_connect_steps; [|exact Hl|exact Hb|simpl; by rewrite lookup_insert_eq].
    apply (set_conn_inv s pins (sv_tick s) new_client (sv_tick s + 1)); [done|lia|lia| |done].
    rewrite (no_keys_works s pins) by (done || lia). done. }
  intros r s2 (Hi2 & (K2 & W2 & T2 & O2) & c & Hc & Hr). simpl in *.
  assert (Hcl : c_closing c = false ∨ r ≠ Accepted).
  { destruct r; [|by right..]. left. by destruct Hr as (_ & cap0 & _ & _ & _ & _ & ? & _). }
  assert (HO : others_same s s2 (sv_tick s)).
  { split_and!; [done|done|lia|]. intros i Hne. rewrite O2 by done. by rewrite lookup_insert_ne. }
  assert (Hclose : r ≠ Accepted → ∀ s3, sv_tick s2 <= sv_tick s3 →
    reply_ok (call_failed nic_ok alloc_ok (sv_tick s + 1) (sv_tick s3)) listener acl private_data r (with_closing c)).
  { intros Hne s3 Ht3. destruct r; [done|..]; (refine (reply_ok_mono _ _ _ _ _ _ _ _ Hr)); intros Hf;
      (eapply call_failed_mono; [exact Hf|lia|done]). }
  assert (Hgo : r ≠ Accepted → safe (_ ← priskv_rdma_close_client_async (sv_tick s); mret (sv_tick s, r)) s2 (λ p s',
    server_inv s' pins None ∧ p.1 = sv_tick s ∧ others_same s s' p.1 ∧
    ∃ c, sv_conns s' !! p.1 = Some c ∧ reply_ok (call_failed nic_ok alloc_ok (sv_tick s + 1) (sv_tick s')) listener acl private_data p.2 c ∧
      (c_closing c = true ↔ p.2 ≠ Accepted))).
  { intros Hne. unfold priskv_rdma_close_client_async. step. step. apply (safe_get_conn _ c); [done|].
    destruct (c_closing c) eqn:Hcc.
    - apply safe_ret, safe_ret. split; [done|]. split; [done|]. split; [done|]. exists c. done.
    - eapply (safe_set_conn s2 pins _ c); [done|done|done| |].
      { intros Hne'. exact (si_conns _ _ _ Hi2 _ _ Hc Hne'). }
      intros s3 Hi3 Hc3 O3. apply safe_ret. split; [done|]. split; [done|].
      split; [by eapply others_same_trans|]. exists (with_closing c). split; [done|]. split; [|done].
      apply Hclose; [done|apply O3]. }
  destruct r; [|by apply Hgo..]. step. apply safe_ret, safe_ret. destruct Hcl as [Hcl|]; [|done].
  split; [done|]. split; [done|]. split; [done|]. exists c. split; [done|]. split; [done|]. by rewrite Hcl.
Qed.

(** ** Runs *)

(** The card writes a message into a request buffer. *)
Definition deliver (conn req : Z) (data : list Z) : M unit :=
  c ← get_conn conn;
  match c_bufs c !! req with
  | None => lift (Fault UseAfterFree)
  | Some buf =>
      put_conn conn (mk_conn (conn_cap c) (c_closing c) (c_stats c) (c_resps c) (c_resp c)
        (<[req := data ++ drop (length data) buf]> (c_bufs c)) (c_posted c) (c_recvs c) (c_keys c) (c_backend c))
  end.

Section system.
Context (regcomp : list Z → option (list Z → bool)).
Context (nic_ok alloc_ok : Z → bool) (clock : Z → timeval).
Context (backend_now : Z → option (priskv_backend_status * Z)).
Context (listener : priskv_rdma_conn_cap).

(** What happens to a server: a client asks to connect, is established, or
    leaves; a message arrives; another completion is polled; connections that
    were closed are freed; the expire timer fires. *)
Inductive event :=
  | EvConnect (acl_refuse : bool) (private_data : list Z)
  | EvEstablished (conn : Z)
  | EvDisconnected (conn : Z)
  | EvMessage (conn req : Z) (data : list Z)
  | EvCompletion (conn : Z) (wc : completion)
  | EvFree
  | EvTimer.

Definition handle (ev : event) : M unit :=
  match ev with
  | EvConnect acl data => _ ← priskv_rdma_handle_connect_request nic_ok alloc_ok listener acl data; mret tt
  | EvEstablished conn => priskv_rdma_handle_established conn false
  | EvDisconnected conn => priskv_rdma_handle_disconnected conn
  | EvMessage conn req data =>
      _ ← deliver conn req data;
      _ ← handle_wc regcomp nic_ok alloc_ok clock backend_now false conn (WcRecv req (Z.of_nat (length data)));
      mret tt
  | EvCompletion conn wc => _ ← handle_wc regcomp nic_ok alloc_ok clock backend_now false conn wc; mret tt
  | EvFree => priskv_rdma_close_disconnected
  | EvTimer => t ← tick; on_kv (λ kv, kv' ← priskv_clear_expired_kv kv (clock t); Ok (tt, kv'))
  end.

(** What the network card and the clients keep to. A message fits the buffer it
    was posted with, its command is one of the protocol's, and no entry has
    2^32 readers; a transfer completes as often as it was posted, the node of a SET
    was not deleted before its transfer ended, and the message in the buffer of its
    request has its key inside. *)
Definition event_ok (s : server) (ev : event) : Prop :=
  match ev with
  | EvConnect _ data => bytes data ∧ alloc_ok (sv_tick s) = true ∧ listener_ok (max_key_length (sv_kv s)) listener
  | EvEstablished conn | EvDisconnected conn => is_Some (sv_conns s !! conn)
  | EvMessage conn req data => ∃ c buf command, sv_conns s !! conn = Some c ∧ c_bufs c !! req = Some buf ∧
      bytes data ∧ (length data <= length buf)%nat ∧
      req_command (data ++ drop (length data) buf) = Ok command ∧ 0 <= command < PRISKV_COMMAND_MAX ∧
      ∀ a n, key_mem (sv_kv s) !! a = Some n → k_refcnt n < 2 ^ 32 - 2
  | EvCompletion conn wc => ∃ c, sv_conns s !! conn = Some c ∧ c_bufs c ≠ ∅ ∧
      match wc with
      | WcRecv _ _ => False
      | WcRdma work => ∃ w buf, sv_works s !! work = Some w ∧ w_conn w = conn ∧ w_completed w < w_nsgl w ∧
          c_bufs c !! w_req w = Some buf ∧ key_inside buf ∧
          ∀ a, w_cb w = cb_set_key_end (Some a) → is_Some (key_mem (sv_kv s) !! a)
      | WcSend slot => 0 <= slot < priskv_rdma_wr_size (conn_cap c)
      | WcOther | WcError => True
      end
  | EvFree => True
  | EvTimer => 0 <= priskv_get_expire_kv_count (sv_kv s) < 2 ^ 64
  end.

(** A server that was just started, and what events make of it. *)
Inductive server_reachable : server → Prop :=
  | sr_start raw kbase vbase maxkeys maxkeylen vblock_size k kv t :
      start_ok raw kbase vbase maxkeys maxkeylen vblock_size k → 1 < vblock_size → maxkeylen < SAFEKEY →
      priskv_new_kv raw ∅ kbase vbase maxkeys maxkeylen vblock_size (sz k) = Ok kv →
      server_reachable (mk_server kv ∅ ∅ ∅ [] [] t)
  | sr_step s ev s' :
      server_reachable s → event_ok s ev → handle ev s = Ok (tt, s') → server_reachable s'.

Definition ok_after (m : M unit) (s : server) : Prop :=
  safe m s (λ _ s', ∃ pins, server_inv s' pins None).

Lemma requests_fit (b : buddy) n : 1 < bd_size b < 2 ^ 32 → 0 < n < 2 ^ 32 → valid_request b n.
Proof.
  intros Hb Hn. split; [done|]. unfold units. apply Z.div_le_upper_bound; [lia|]. nia.
Qed.

Lemma start_inv raw kbase vbase maxkeys maxkeylen vblock_size k kv t :
  start_ok raw kbase vbase maxkeys maxkeylen vblock_size k → 1 < vblock_size → maxkeylen < SAFEKEY →
  priskv_new_kv raw ∅ kbase vbase maxkeys maxkeylen vblock_size (sz k) = Ok kv →
  server_inv (mk_server kv ∅ ∅ ∅ [] [] t) (λ _, 0) None.
Proof.
  intros Hs Hb Hk Hnew. destruct (new_kv_spec _ _ _ _ _ _ _ Hs) as (kv1 & Heq & Hi & _ & Hm & Hbs & _).
  rewrite Hnew in Heq. injection Heq as <-. split; simpl; try done.
  - intros n. apply requests_fit. rewrite Hbs. pose proof (so_block _ _ _ _ _ _ _ Hs). lia.
  - by rewrite Hm.
  - by intros i [].
Qed.

Lemma pins_small s pins :
  server_inv s pins None → (∀ a n, key_mem (sv_kv s) !! a = Some n → k_refcnt n < 2 ^ 32 - 2) →
  ∀ a, pins a < 2 ^ 32 - 2.
Proof.
  intros Hi Hr a. pose proof (inv_pins _ _ _ _ _ (si_kv _ _ _ Hi) a) as [_ Hp].
  destruct (decide (0 < pins a)) as [H0|]; [|lia]. destruct (Hp H0) as [n Hn].
  destruct (inv_node _ _ _ _ _ (si_kv _ _ _ Hi) a n Hn) as (_ & Hc & _). specialize (Hr a n Hn).
  destruct (bool_decide _); simpl in Hc; lia.
Qed.

Lemma deliver_inv s pins conn req data c buf :
  server_inv s pins None → sv_conns s !! conn = Some c → c_bufs c !! req = Some buf →
  bytes data → (length data <= length buf)%nat →
  safe (deliver conn req data) s (λ _ s', server_inv s' pins None ∧ sv_kv s' = sv_kv s ∧
    ∃ c', sv_conns s' !! conn = Some c' ∧ c_bufs c' = <[req := data ++ drop (length data) buf]> (c_bufs c)).
Proof.
  intros Hi Hc Hb Hd Hlen. unfold deliver. step. apply (safe_get_conn _ c); [done|]. rewrite Hb.
  eapply safe_set_conn; [done|done|done| |].
  - intros _. pose proof (si_conns _ _ _ Hi conn c Hc (bufs_nonempty _ _ _ Hb)) as (H1 & H2 & H3 & H4 & H5 & H6).
    split_and!; simpl; try done; try lia. intros r b Hr. apply lookup_insert_Some in Hr as [[<- <-]|[_ Hr]]; [|eauto].
    destruct (H6 req buf Hb) as [Hby Hl]. split.
    + apply Forall_app_2; [done|by apply Forall_drop].
    + rewrite length_app, length_drop. lia.
  - intros s' Hi' Hc' (Hk & _). split; [done|]. split; [done|]. by eexists.
Qed.

Lemma free_inv s pins : server_inv s pins None → ok_after priskv_rdma_close_disconnected s.
Proof.
  intros [I1 I2 I3 I4 I5 I8 I6 I7]. eexists _, _. split; [done|]. exists pins. split; simpl in *; try done.
  - intros i c Hc. apply map_lookup_filter_Some in Hc as [Hc _]. by eapply I4.
  - intros i [c Hc]. apply map_lookup_filter_Some in Hc as [Hc _]. eauto.
  - intros i c Hc. apply map_lookup_filter_Some in Hc as [Hc _]. by eapply I7.
Qed.

Lemma timer_inv s pins :
  server_inv s pins None → 0 <= priskv_get_expire_kv_count (sv_kv s) < 2 ^ 64 → ok_after (handle EvTimer) s.
Proof.
  intros Hi Hc. unfold ok_after, handle. step. eexists _, _. split; [done|].
  pose proof (tick_inv s pins None Hi) as Hi1.
  eapply safe_on_kv; [exact Hi1| |intros ? s' _ Hi'; by exists pins].
  destruct (clear_expired_spec (clock (sv_tick s)) (sv_kv s) pins (si_kv _ _ _ Hi) Hc)
    as (kv' & Heq & Hkv & Hconf & _).
  exists tt, kv'. simpl. by rewrite Heq.
Qed.

Lemma handle_wc_inv s pins conn wc :
  server_inv s pins None → wc_ok s pins conn wc →
  ok_after (_ ← handle_wc regcomp nic_ok alloc_ok clock backend_now false conn wc; mret tt) s.
Proof.
  intros Hi Hwc. unfold ok_after. step. eapply safe_mono; [by eapply safe_handle_wc|].
  intros b s' Hs. by apply safe_ret.
Qed.

Lemma message_inv s pins conn req data :
  server_inv s pins None → event_ok s (EvMessage conn req data) → ok_after (handle (EvMessage conn req data)) s.
Proof.
  intros Hi (c & buf & command & Hc & Hb & Hby & Hlen & Hcmd & Hr & Href). unfold ok_after, handle. step.
  eapply safe_mono; [by eapply deliver_inv|]. intros _ s1 (Hi1 & Hk & c1 & Hc1 & Hb1).
  apply handle_wc_inv with pins; [done|]. exists c1. split; [done|].
  rewrite Hb1. split; [apply insert_non_empty|]. split.
  - exists (data ++ drop (length data) buf), command. by rewrite lookup_insert_eq.
  - apply (pins_small s1); [done|]. by rewrite Hk.
Qed.

Lemma handle_inv s pins ev : server_inv s pins None → event_ok s ev → ok_after (handle ev) s.
Proof.
  intros Hi Hok. destruct ev as [acl data|conn|conn|conn req data|conn wc| |].
  - destruct Hok as (Hd & Ha & Hl). unfold ok_after, handle. step.
    eapply safe_mono; [by eapply safe_connect_request|]. intros r s' (Hi' & _). apply safe_ret. eauto.
  - destruct Hok as [c Hc]. unfold ok_after, handle, priskv_rdma_handle_established. step.
    apply (safe_get_conn _ c); [done|]. eapply safe_set_conn; [done|done|done| |].
    + intros Hne. exact (si_conns _ _ _ Hi conn c Hc Hne).
    + intros s' Hi' _ _. eauto.
  - destruct Hok as [c Hc]. unfold ok_after, handle, priskv_rdma_handle_disconnected.
    unfold priskv_rdma_close_client_async. step. apply (safe_get_conn _ c); [done|].
    destruct (c_closing c); [by apply safe_ret; exists pins|].
    eapply safe_put_conn; [done|done|]. intros s' K' _. exists pins. by eapply kept_inv.
  - by eapply message_inv.
  - destruct Hok as (c & Hc & Hne & Hwc). eapply handle_wc_inv; [done|]. exists c. split; [done|].
    split; [done|]. by destruct wc.
  - by eapply free_inv.
  - by eapply timer_inv.
Qed.

Lemma server_reachable_inv s : server_reachable s → ∃ pins, server_inv s pins None.
Proof.
  induction 1 as [|s ev s' Hr [pins IH] Hok Hh]; [eexists; by eapply start_inv|].
  destruct (handle_inv s pins ev IH Hok) as (u & s1 & Heq & Hi). rewrite Hh in Heq. by injection Heq as _ <-.
Qed.
End system.


(** (C10) A client that asks to connect, when the memory for its connection can be
    had, is answered according to what it asked. [refusal] says whether it has to be
    refused and why: by the access list, the length of its message, the version, or
    the first of its limits that is more than the listener's, in this order. If so,
    it is rejected with exactly this reason and value. Otherwise it is accepted,
    unless a call made on the way failed, when it gets a server error or no answer.
    If it is accepted, its connection has exactly the limits it asked for, a limit of 0
    asking for the listener's, a free response slot per request in flight and
    transfer, and every request buffer posted; if not, it is marked for closing. The
    store and the other connections are not touched. *)
Theorem connect_correct regcomp nic_ok alloc_ok clock backend_now listener s acl_refuse data :
  server_reachable regcomp nic_ok alloc_ok clock backend_now listener s →
  event_ok alloc_ok listener s (EvConnect acl_refuse data) →
  ∃ conn reply s' c,
    priskv_rdma_handle_connect_request nic_ok alloc_ok listener acl_refuse data s = Ok ((conn, reply), s') ∧
    sv_conns s !! conn = None ∧ sv_conns s' !! conn = Some c ∧ others_same s s' conn ∧
    reply_ok (call_failed nic_ok alloc_ok (sv_tick s + 1) (sv_tick s')) listener acl_refuse data reply c ∧
    (c_closing c = true ↔ reply ≠ Accepted).
Proof.
  intros Hr (Hd & Ha & Hl). destruct (server_reachable_inv _ _ _ _ _ _ _ Hr) as [pins Hi].
  destruct (safe_connect_request nic_ok alloc_ok s pins listener acl_refuse data Hi Hl Hd Ha)
    as ([conn r] & s' & Heq & _ & Hconn & Ho & c & Hc & Hrep & Hcl). simpl in *. subst conn.
  exists (sv_tick s), r, s', c. split; [done|]. split; [|done].
  destruct (sv_conns s !! sv_tick s) eqn:He; [|done].
  pose proof (si_fresh _ _ _ Hi (sv_tick s) ltac:(eauto)). lia.
Qed.
