(* ===== verification/ServerProps.v ===== *)
(** * A server at work

    A small server with a client: concrete runs on which the theorems about
    transfers, connections and requests apply, and runs outside their hypotheses
    on which the code misbehaves. *)

From S2P Require Import Prelude State Utils Crc Lists Protocol Wire Memory Slab Buddy Alloc KvModel KvInv KvOps KvSweep KvKeys KvStart KvSystem Examples ServerModel ServerRdma ServerSafe ServerSystem.

(** ** The server of the examples

    The store of [Examples], a listener that allows two SGLs, keys of 16 bytes and
    one command in flight, and a network card, an allocator and a clock that always
    answer. *)

Definition yes : Z → bool := λ _, true.
Definition noon : Z → timeval := λ _, TimeVal 100 0.
Definition no_backend : Z → option (priskv_backend_status * Z) := λ _, None.
Definition ex_listener : priskv_rdma_conn_cap := mk_cap 2 16 1.

Definition ex_handle : event → M unit := handle no_regex yes yes noon no_backend ex_listener.
Definition ex_reachable : server → Prop := server_reachable no_regex yes yes noon no_backend ex_listener.

Definition exs0 : server := mk_server ex0 ∅ ∅ ∅ [] [] 1.

Lemma exs0_reachable : ex_reachable exs0.
Proof. eapply sr_start; [apply ex_start_ok|done|done|apply ex0_new]. Defined.

(** Version 1, limits left to the listener. *)
Definition ex_hello : list Z := [0; 1] ++ replicate 54 0.

Definition after (ev : event) (s : server) : server := match ex_handle ev s with Ok (_, s') => s' | Fault _ => s end.

Definition exs1 : server := after (EvConnect false ex_hello) exs0.

Lemma ex_connect_ok : event_ok yes ex_listener exs0 (EvConnect false ex_hello).
Proof. split; [repeat (constructor; [lia|]); constructor|]. split; [done|]. done. Defined.

(** The message that asks to set, or get, the key "ab". *)
Definition ex_message (command : Z) (sgls : list priskv_keyed_sgl) : list Z :=
  match fill_request (replicate 192 0) 77 command 1000 sgls ex_key (replicate 16 0) with
  | Ok (buf, len) => take (Z.to_nat len) buf
  | Fault _ => []
  end.
Definition ex_set_message : list Z := ex_message PRISKV_COMMAND_SET [mk_sgl 4096 3000 1; mk_sgl 16384 2000 2].

Definition exs2 : server := after (EvMessage 1 0 ex_set_message) exs1.

Lemma exs1_reachable : ex_reachable exs1.
Proof. eapply sr_step; [apply exs0_reachable|apply ex_connect_ok|vm_compute; reflexivity]. Defined.

Lemma ex_bytes l : forallb (λ b, (0 <=? b) && (b <? 256)) l = true → bytes l.
Proof.
  intros H. apply Forall_forall. intros b Hb. rewrite forallb_forall in H.
  specialize (H b (proj1 (list_elem_of_In _ _) Hb)). change (2 ^ 8) with 256. lia.
Defined.

Lemma ex_set_message_ok : event_ok yes ex_listener exs1 (EvMessage 1 0 ex_set_message).
Proof.
  eexists _, _, _. split; [vm_compute; reflexivity|]. split; [vm_compute; reflexivity|].
  split; [apply ex_bytes; vm_compute; reflexivity|]. split; [vm_compute; lia|].
  split; [vm_compute; reflexivity|]. split; [done|]. intros a n Hn.
  vm_compute in Hn. done.
Defined.

Lemma exs2_reached : ex_reachable exs2.
Proof. eapply sr_step; [apply exs1_reachable|apply ex_set_message_ok|vm_compute; reflexivity]. Defined.

(** The first of the two transfers of the SET has completed. *)
Lemma ex_transferred_ok : event_ok yes ex_listener exs2 (EvCompletion 1 (WcRdma 13)).
Proof.
  eexists. split; [vm_compute; reflexivity|]. split; [vm_compute; done|]. eexists _, _.
  split; [vm_compute; reflexivity|]. split; [done|]. split; [vm_compute; done|]. split; [vm_compute; reflexivity|].
  split; [|intros a Ha; vm_compute in Ha; injection Ha as <-; vm_compute; eauto].
  eexists _, _, _. do 3 (split; [vm_compute; reflexivity|]). split; [done|]. vm_compute. done.
Defined.


Lemma connect_correct_witness :
  event_ok yes ex_listener exs0 (EvConnect false ex_hello) ∧
  ∃ conn reply s' c,
    priskv_rdma_handle_connect_request yes yes ex_listener false ex_hello exs0 = Ok ((conn, reply), s') ∧
    sv_conns s' !! conn = Some c ∧ reply_ok (call_failed yes yes (sv_tick exs0 + 1) (sv_tick s')) ex_listener false ex_hello reply c ∧ reply = Accepted.
Proof.
  split; [apply ex_connect_ok|].
  destruct (connect_correct no_regex yes yes noon no_backend ex_listener exs0 false ex_hello
    exs0_reachable ex_connect_ok) as (conn & r & s' & c & Heq & _ & Hc & _ & Hr & _).
  exists conn, r, s', c. split; [exact Heq|]. split; [exact Hc|]. split; [exact Hr|]. vm_compute in Heq. by injection Heq as _ <- _.
Defined.

(** ** Transfers *)

(** The SET message in its buffer. *)
Definition exs1' : server := match deliver 1 0 ex_set_message exs1 with Ok (_, s) => s | Fault _ => exs1 end.
Definition ex_sgls : list priskv_keyed_sgl := [mk_sgl 4096 3000 1; mk_sgl 16384 2000 2].
Definition ex_conn : priskv_rdma_conn := default new_client (sv_conns exs1' !! 1).

Lemma ex_transfer : transfer exs1' 1 0 ex_conn ex_sgls 77 1048576 5000.
Proof.
  split.
  - vm_compute. reflexivity.
  - eexists. split; [vm_compute; reflexivity|]. repeat split; vm_compute; reflexivity.
  - repeat (apply Forall_cons; split; [done|]). by apply Forall_nil.
  - done.
  - done.
  - done.
  - done.
Defined.

Lemma rw_req_moves_value_witness :
  transfer exs1' 1 0 ex_conn ex_sgls 77 1048576 5000 ∧ ends_in_last 5000 ex_sgls ∧
  ∃ l ret work s',
    priskv_rdma_rw_req yes yes 1 0 false 1048576 5000 true cb_none false exs1' = Ok (ret, work, s') ∧
    concat (moves <$> l) = take (Z.to_nat 5000) (scatter 1048576 0 ex_sgls).
Proof.
  assert (ends_in_last 5000 ex_sgls) as Hlast by (cbn; lia).
  split; [exact ex_transfer|]. split; [exact Hlast|].
  destruct (rw_req_moves_value yes yes exs1' 1 0 ex_conn ex_sgls 77 false 1048576 5000 true cb_none false
    ex_transfer Hlast) as (l & ret & work & s' & Heq & Hl & _).
  exists l, ret, work, s'. split; [exact Heq|exact Hl].
Defined.

(** ** Requests the code mishandles *)

(** What was posted for the client, or the fault. *)
Definition posted (m : M unit) (s : server) : list send_wr + fault :=
  match m s with
  | Ok (_, s') => inl (match sv_conns s' !! 1 with Some c => c_posted c | None => [] end)
  | Fault f => inr f
  end.

(** After the SET completed: "ab" has 5000 bytes at 1048576. *)
Definition exs3 : server := after (EvCompletion 1 (WcRdma 13)) (after (EvCompletion 1 (WcRdma 13)) exs2).

(** A GET with a scatter list that is longer than the value by a whole element:
    the length that is left wraps around, and the bytes 6000 to 12000 after the
    start of the value, which are not part of it, are sent to the client. *)
Lemma get_sends_past_value :
  ∃ l, posted (ex_handle (EvMessage 1 192 (ex_message PRISKV_COMMAND_GET [mk_sgl 4096 6000 1; mk_sgl 16384 6000 2]))) exs3
    = inl (l ++ [WrRdma (mk_rdma_wr 19 false 4096 1 1048576 5000);
                 WrRdma (mk_rdma_wr 19 false 16384 2 (1048576 + 6000) 6000)]).
Proof. eexists [_; _; _]. vm_compute. reflexivity. Qed.

(** A SET whose lengths sum to 1000 modulo 2^32: a block for 1000 bytes is taken,
    and the client's bytes are read to an address 4 GiB after it. *)
Lemma set_writes_past_value :
  posted (ex_handle (EvMessage 1 0 (ex_message PRISKV_COMMAND_SET [mk_sgl 4096 (2 ^ 32 - 1000) 1; mk_sgl 16384 2000 2]))) exs1
    = inl [WrRdma (mk_rdma_wr 13 true 4096 1 1048576 1000);
           WrRdma (mk_rdma_wr 13 true 16384 2 (1048576 + 2 ^ 32 - 1000) 2000)].
Proof. vm_compute. reflexivity. Qed.

(** A command the protocol does not have is answered, then counted outside of the
    array of counters. *)
Lemma unknown_command_out_of_bounds :
  posted (ex_handle (EvMessage 1 0 (ex_message PRISKV_COMMAND_MAX []))) exs1 = inr OutOfBounds.
Proof. vm_compute. reflexivity. Qed.

(** The end of a transfer reads the request again, from a buffer that has been posted
    since: the next message, which was refused because its scatter list does not fit,
    has the key looked for outside of the buffer. *)
Definition ex_long_list : list Z :=
  match put_be 2 ex_set_message off_nsgl 200 with Ok m => m | Fault _ => [] end.
Lemma slow_query_out_of_bounds :
  let s := after (EvMessage 1 0 ex_long_list) exs2 in
  let s' := after (EvCompletion 1 (WcRdma 13)) s in
  (∃ l, posted (ex_handle (EvCompletion 1 (WcRdma 13))) s = inl l) ∧
  posted (ex_handle (EvCompletion 1 (WcRdma 13))) s' = inr OutOfBounds ∧
  (∃ l, posted (ex_handle (EvCompletion 1 (WcRdma 13))) (after (EvCompletion 1 (WcRdma 13)) exs2) = inl l).
Proof. split_and!; [eexists|..|eexists]; vm_compute; reflexivity. Qed.

(** What is logged otherwise: the command, the length of the key and the key. *)
Lemma slow_query_logged :
  let w := default (mk_work 0 0 0 false 0 0 0 false cb_none) (sv_works exs2 !! 13) in
  ('(r, _) ← priskv_check_and_log_slow_query w exs2; Ok r) = Ok (PRISKV_COMMAND_SET, klen ex_key, ex_key).
Proof. vm_compute. reflexivity. Qed.

(** A SET with a backend that answers at once: the callback frees the work whose
    fields are read next. *)
Definition tiering_set (backend_now : Z → option (priskv_backend_status * Z)) : M unit :=
  let wc := handle_wc no_regex yes yes noon backend_now true 1 in
  _ ← priskv_rdma_handle_established 1 true;
  _ ← deliver 1 0 ex_set_message;
  _ ← wc (WcRecv 0 (Z.of_nat (length ex_set_message)));
  _ ← wc (WcRdma 15);
  _ ← wc (WcRdma 15);
  mret tt.

Lemma backend_at_once_use_after_free :
  posted (tiering_set (λ _, Some (PRISKV_BACKEND_STATUS_ERROR, 0))) exs1 = inr UseAfterFree.
Proof. vm_compute. reflexivity. Qed.

(** With a backend that answers later it works; but a client that leaves before
    the answer is freed, and the answer is sent to it. *)
Lemma backend_late_use_after_free :
  let start := _ ← tiering_set no_backend; _ ← priskv_rdma_handle_disconnected 1; priskv_rdma_close_disconnected in
  (∃ l, posted start exs1 = inl l) ∧
  posted (_ ← start; backend_done yes yes noon 12 PRISKV_BACKEND_STATUS_OK 5000) exs1 = inr UseAfterFree.
Proof. split; [eexists|]; vm_compute; reflexivity. Qed.
