(* ===== verification/ServerCm.v ===== *)
(** * The server: connection manager and main loop

    [server/rdma.c]: the messages with which a client is accepted or rejected, the
    events of a listener, and the step of the main loop, which handles the events of
    every listener and then frees the clients that were closed. *)

From S2P Require Import Prelude State Utils Crc Lists Protocol Wire Memory Slab Buddy Alloc KvModel KvInv KvOps KvSweep KvKeys KvStart KvSystem ServerModel ServerRdma ServerSafe ServerSystem.

Import Slab Buddy.

(** ** Messages *)

Definition cm_status_code (status : priskv_rdma_cm_status) : Z :=
  match status with
  | PRISKV_RDMA_CM_REJ_STATUS_INVALID_CM_REP => 0x01
  | PRISKV_RDMA_CM_REJ_STATUS_INVALID_VERSION => 0x02
  | PRISKV_RDMA_CM_REJ_STATUS_INVALID_SGL => 0x03
  | PRISKV_RDMA_CM_REJ_STATUS_INVALID_KEY_LENGTH => 0x04
  | PRISKV_RDMA_CM_REJ_STATUS_INVALID_INFLIGHT_COMMAND => 0x05
  | PRISKV_RDMA_CM_REJ_STATUS_ACL_REFUSE => 0x06
  | PRISKV_RDMA_CM_REJ_STATUS_SERVER_ERROR => 0x10
  end.

(** The private data of [rdma_reject] and of [rdma_accept]. *)
Definition priskv_rdma_reject (status : priskv_rdma_cm_status) (val : Z) : res (list Z) :=
  put_fields [(0, 2%nat, PRISKV_RDMA_CM_VERSION); (2, 2%nat, cm_status_code status); (8, 8%nat, val)] (replicate 16 0).

Definition capacity (kv : kv_state) : Z := u64 (priskv_get_value_blocks kv * priskv_get_value_block_size kv).

Definition priskv_rdma_resp (kv : kv_state) (cap : priskv_rdma_conn_cap) : res (list Z) :=
  put_fields [(0, 2%nat, PRISKV_RDMA_CM_VERSION); (2, 2%nat, max_sgl cap); (4, 2%nat, cap_max_key_length cap);
              (6, 2%nat, max_inflight_command cap); (8, 8%nat, capacity kv)] (replicate 32 0).

(** ** Events *)

Section cm.
Context (regcomp : list Z → option (list Z → bool)) (nic_ok alloc_ok : Z → bool) (clock : Z → timeval).
Context (backend_now : Z → option (priskv_backend_status * Z)).

Inductive cm_event :=
  | ConnectRequest (acl_refuse : bool) (private_data : list Z)
  | Established (conn : Z)
  | Disconnected (conn : Z)
  | Unexpected.

(** The events [rdma_get_cm_event] has, until it has no more. *)
Fixpoint priskv_rdma_handle_cm (listener : priskv_rdma_conn_cap) (evs : list cm_event) : M unit :=
  match evs with
  | [] => mret tt
  | ev :: evs =>
      _ ← (match ev with
           | ConnectRequest acl_refuse data => _ ← priskv_rdma_handle_connect_request nic_ok alloc_ok listener acl_refuse data; mret tt
           | Established conn => priskv_rdma_handle_established conn false
           | Disconnected conn => priskv_rdma_handle_disconnected conn
           | Unexpected => mret tt
           end);
      priskv_rdma_handle_cm listener evs
  end.

(** What [epoll_wait] reports: the listeners with events, in order. *)
Fixpoint handle_listeners (listener : priskv_rdma_conn_cap) (ready : list (list cm_event)) : M unit :=
  match ready with
  | [] => mret tt
  | evs :: ready => _ ← priskv_rdma_handle_cm listener evs; handle_listeners listener ready
  end.

Definition priskv_rdma_process (listener : priskv_rdma_conn_cap) (ready : list (list cm_event)) : M unit :=
  _ ← handle_listeners listener ready;
  priskv_rdma_close_disconnected.

(** ** The main loop and the events of a server *)

Definition as_event (ev : cm_event) : option event :=
  match ev with
  | ConnectRequest acl data => Some (EvConnect acl data)
  | Established conn => Some (EvEstablished conn)
  | Disconnected conn => Some (EvDisconnected conn)
  | Unexpected => None
  end.

Notation reachable := (server_reachable regcomp nic_ok alloc_ok clock backend_now).

(** Each event comes in a state in which it can. *)
Fixpoint events_ok (listener : priskv_rdma_conn_cap) (evs : list cm_event) (s : server) : Prop :=
  match evs with
  | [] => True
  | ev :: evs =>
      match as_event ev with
      | None => events_ok listener evs s
      | Some e => event_ok alloc_ok listener s e ∧
          ∀ s', handle regcomp nic_ok alloc_ok clock backend_now listener e s = Ok (tt, s') → events_ok listener evs s'
      end
  end.

Lemma handle_cm_reachable listener evs : ∀ s, reachable listener s → events_ok listener evs s →
  safe (priskv_rdma_handle_cm listener evs) s (λ _ s', reachable listener s').
Proof.
  induction evs as [|ev evs IH]; intros s Hr Hok; cbn [priskv_rdma_handle_cm]; [by apply safe_ret|].
  assert (∀ e, as_event ev = Some e → safe (handle regcomp nic_ok alloc_ok clock backend_now listener e) s
    (λ _ s', reachable listener s' ∧ events_ok listener evs s')) as Hev.
  { intros e He. cbn in Hok. rewrite He in Hok. destruct Hok as [Hok Hrest].
    destruct (server_reachable_inv _ _ _ _ _ _ _ Hr) as [pins Hi].
    destruct (handle_inv regcomp nic_ok alloc_ok clock backend_now listener s pins e Hi Hok) as ([] & s' & Heq & _).
    exists tt, s'. split; [done|]. split; [by eapply sr_step|by apply Hrest]. }
  step. destruct ev as [acl data|conn|conn|]; [..|by apply safe_ret, IH];
    (eapply safe_mono; [exact (Hev _ eq_refl)|]; intros [] s' [? ?]; by apply IH).
Qed.

(** The step of the main loop is a run of events and ends with the clients that
    were closed freed. *)
Lemma process_reachable listener evs s : reachable listener s → events_ok listener evs s →
  safe (priskv_rdma_process listener [evs]) s (λ _ s', reachable listener s' ∧ map_Forall (λ _ c, c_closing c = false) (sv_conns s')).
Proof.
  intros Hr Hok. unfold priskv_rdma_process. step. cbn [handle_listeners]. step.
  eapply safe_mono; [by apply handle_cm_reachable|]. intros [] s1 Hr1. apply safe_ret.
  eexists _, _. split; [reflexivity|]. split.
  - eapply (sr_step _ _ _ _ _ _ s1 EvFree); [done|done|reflexivity].
  - intros k c Hk. simpl in Hk. by apply map_lookup_filter_Some in Hk as [_ Hc].
Qed.
End cm.
