(* ===== verification/Client.v ===== *)
(** * The client: the life of a request

    [client/rdma.c] from [priskv_send_command] to the user's callback, on one
    connection. A request takes one of a fixed number of message slots, or waits
    in [inflight_list] until one is free; it is complete when both its message has
    been sent and its response has arrived; then the slot is given back and the
    callback runs. KEYS has one buffer per connection, which is enlarged when a
    listing does not fit.

    A request and its callback are named by the address of the request, which is
    never handed out twice. [cl_log] has every call of a user callback. The verbs
    library, the allocator and the clock answer through the functions of section
    [client], indexed by the number of calls so far. *)

From S2P Require Import Prelude State Utils Lists Protocol Wire KvKeys.

Import ClientKeys.

(** ** State *)


Definition PRISKV_RDMA_REQUEST_FREE_COMMAND : Z := 0xffff.
Definition PRISKV_RDMA_REQ_FLAG_SEND : Z := 1.
Definition PRISKV_RDMA_REQ_FLAG_RECV : Z := 4.
Definition PRISKV_RDMA_REQ_FLAG_DONE : Z := Z.lor PRISKV_RDMA_REQ_FLAG_SEND PRISKV_RDMA_REQ_FLAG_RECV.

(** [sgl.mem] of an element of a scatter list: the null pointer; memory the user
    registered, with the key of its region for this connection, or none where the
    registration had failed; or [keys_mems] of the connection. *)
Inductive sgl_mem := NoMem | UserMem (rkey : option Z) | KeysMem.
Record user_sgl := mk_usgl { us_iova : Z; us_length : Z; us_mem : sgl_mem }.

(** [r_req]: the slot; [r_keys_cb]: [cb] is [priskv_rdma_keys_req_cb], not
    [priskv_rdma_req_cb]. *)
Record priskv_rdma_req := mk_rreq {
  r_request_id : Z;
  r_cmd : Z;
  r_key : list Z;
  r_keylen : Z;
  r_sgls : list user_sgl;
  r_timeout : Z;
  r_keys_cb : bool;
  r_req : option Z;
  r_flags : Z;
  r_status : Z;
  r_length : Z;
  r_delaying : bool
}.

(** What a user callback is given: the request behind it, unless there is none,
    the user's identifier, the status, and the length or the keys. *)
Inductive result := ResNone | ResLength (length : Z) | ResKeys (nkey : Z) (keys : list (list Z * Z)).
Record call := mk_call { l_req : option Z; l_request_id : Z; l_status : Z; l_result : result }.

Record connection := mk_connection {
  cl_max_sgl : Z;
  cl_max_key_length : Z;
  cl_max_inflight : Z;
  cl_established : bool;
  cl_slots : list (list Z);          (* message buffers *)
  cl_inflight : list Z;              (* inflight_list: requests that wait for a slot *)
  cl_complete : list Z;              (* complete_list *)
  cl_keys_running : option Z;
  cl_keys_addr : Z;                  (* rmem[PRISKV_RDMA_MEM_KEYS]: buf, the bytes, mr *)
  cl_keys_buf : list Z;
  cl_keys_mr : option Z;
  cl_keys_mems : option Z;           (* keys_mems.mrs[0] *)
  cl_reqs : gmap Z priskv_rdma_req;
  cl_posted : list (Z * Z);          (* slots handed to the send queue, with the length of the message *)
  cl_log : list call;
  cl_tick : Z
}.

Definition priskv_request_size_aligend (max_sgl max_key_length : Z) : Z :=
  ALIGN_UP 32 (priskv_request_size max_sgl max_key_length) 64.

(** ** State and faults *)

Notation CM := (ST connection).

Definition get_req (a : Z) : CM priskv_rdma_req := λ s,
  match cl_reqs s !! a with Some r => Ok (r, s) | None => Fault UseAfterFree end.

Definition with_slots (l : list (list Z)) (s : connection) : connection :=
  mk_connection (cl_max_sgl s) (cl_max_key_length s) (cl_max_inflight s) (cl_established s) l (cl_inflight s)
    (cl_complete s) (cl_keys_running s) (cl_keys_addr s) (cl_keys_buf s) (cl_keys_mr s) (cl_keys_mems s) (cl_reqs s) (cl_posted s) (cl_log s) (cl_tick s).
Definition with_lists (i c : list Z) (s : connection) : connection :=
  mk_connection (cl_max_sgl s) (cl_max_key_length s) (cl_max_inflight s) (cl_established s) (cl_slots s) i c
    (cl_keys_running s) (cl_keys_addr s) (cl_keys_buf s) (cl_keys_mr s) (cl_keys_mems s) (cl_reqs s) (cl_posted s) (cl_log s) (cl_tick s).
Definition with_running (k : option Z) (s : connection) : connection :=
  mk_connection (cl_max_sgl s) (cl_max_key_length s) (cl_max_inflight s) (cl_established s) (cl_slots s) (cl_inflight s)
    (cl_complete s) k (cl_keys_addr s) (cl_keys_buf s) (cl_keys_mr s) (cl_keys_mems s) (cl_reqs s) (cl_posted s) (cl_log s) (cl_tick s).
Definition with_keys_mem (a : Z) (b : list Z) (mr : option Z) (s : connection) : connection :=
  mk_connection (cl_max_sgl s) (cl_max_key_length s) (cl_max_inflight s) (cl_established s) (cl_slots s) (cl_inflight s)
    (cl_complete s) (cl_keys_running s) a b mr (cl_keys_mems s) (cl_reqs s) (cl_posted s) (cl_log s) (cl_tick s).
Definition with_keys_mems (mr : option Z) (s : connection) : connection :=
  mk_connection (cl_max_sgl s) (cl_max_key_length s) (cl_max_inflight s) (cl_established s) (cl_slots s) (cl_inflight s)
    (cl_complete s) (cl_keys_running s) (cl_keys_addr s) (cl_keys_buf s) (cl_keys_mr s) mr (cl_reqs s) (cl_posted s) (cl_log s)
    (cl_tick s).
(** The server has written to the KEYS buffer. *)
Definition keys_written (data : list Z) (s : connection) : connection :=
  with_keys_mem (cl_keys_addr s) data (cl_keys_mr s) s.
Definition with_reqs (m : gmap Z priskv_rdma_req) (s : connection) : connection :=
  mk_connection (cl_max_sgl s) (cl_max_key_length s) (cl_max_inflight s) (cl_established s) (cl_slots s) (cl_inflight s)
    (cl_complete s) (cl_keys_running s) (cl_keys_addr s) (cl_keys_buf s) (cl_keys_mr s) (cl_keys_mems s) m (cl_posted s) (cl_log s) (cl_tick s).
Definition with_posted (p : list (Z * Z)) (s : connection) : connection :=
  mk_connection (cl_max_sgl s) (cl_max_key_length s) (cl_max_inflight s) (cl_established s) (cl_slots s) (cl_inflight s)
    (cl_complete s) (cl_keys_running s) (cl_keys_addr s) (cl_keys_buf s) (cl_keys_mr s) (cl_keys_mems s) (cl_reqs s) p (cl_log s) (cl_tick s).
Definition with_log (l : list call) (s : connection) : connection :=
  mk_connection (cl_max_sgl s) (cl_max_key_length s) (cl_max_inflight s) (cl_established s) (cl_slots s) (cl_inflight s)
    (cl_complete s) (cl_keys_running s) (cl_keys_addr s) (cl_keys_buf s) (cl_keys_mr s) (cl_keys_mems s) (cl_reqs s) (cl_posted s) l (cl_tick s).
Definition disconnected (s : connection) : connection :=
  mk_connection (cl_max_sgl s) (cl_max_key_length s) (cl_max_inflight s) false (cl_slots s) (cl_inflight s)
    (cl_complete s) (cl_keys_running s) (cl_keys_addr s) (cl_keys_buf s) (cl_keys_mr s) (cl_keys_mems s) (cl_reqs s) (cl_posted s) (cl_log s) (cl_tick s).

Definition set_req (a : Z) (r : priskv_rdma_req) : CM unit := modify (λ s, with_reqs (<[a := r]> (cl_reqs s)) s).

Definition ctick : CM Z := λ s,
  Ok (cl_tick s, mk_connection (cl_max_sgl s) (cl_max_key_length s) (cl_max_inflight s) (cl_established s) (cl_slots s)
    (cl_inflight s) (cl_complete s) (cl_keys_running s) (cl_keys_addr s) (cl_keys_buf s) (cl_keys_mr s) (cl_keys_mems s) (cl_reqs s) (cl_posted s)
    (cl_log s) (cl_tick s + 1)).

(** Assignments to fields of a request. *)
Definition req_status (st : Z) (r : priskv_rdma_req) : priskv_rdma_req :=
  mk_rreq (r_request_id r) (r_cmd r) (r_key r) (r_keylen r) (r_sgls r) (r_timeout r) (r_keys_cb r) (r_req r)
    (r_flags r) st (r_length r) (r_delaying r).
Definition req_answer (st len : Z) (r : priskv_rdma_req) : priskv_rdma_req :=
  mk_rreq (r_request_id r) (r_cmd r) (r_key r) (r_keylen r) (r_sgls r) (r_timeout r) (r_keys_cb r) (r_req r)
    (r_flags r) st len (r_delaying r).
Definition req_flag (f : Z) (r : priskv_rdma_req) : priskv_rdma_req :=
  mk_rreq (r_request_id r) (r_cmd r) (r_key r) (r_keylen r) (r_sgls r) (r_timeout r) (r_keys_cb r) (r_req r)
    (Z.lor (r_flags r) f) (r_status r) (r_length r) (r_delaying r).
Definition req_slot (i : option Z) (r : priskv_rdma_req) : priskv_rdma_req :=
  mk_rreq (r_request_id r) (r_cmd r) (r_key r) (r_keylen r) (r_sgls r) (r_timeout r) (r_keys_cb r) i
    (r_flags r) (r_status r) (r_length r) (r_delaying r).
Definition req_delay (r : priskv_rdma_req) : priskv_rdma_req :=
  mk_rreq (r_request_id r) (r_cmd r) (r_key r) (r_keylen r) (r_sgls r) (r_timeout r) (r_keys_cb r) (r_req r)
    (r_flags r) (r_status r) (r_length r) true.

Definition priskv_rdma_req_reset (sgls : list user_sgl) (r : priskv_rdma_req) : priskv_rdma_req :=
  mk_rreq (r_request_id r) (r_cmd r) (r_key r) (r_keylen r) sgls (r_timeout r) (r_keys_cb r) None 0
    PRISKV_STATUS_OK 0 false.

(** ** Slots *)

(** A slot that is not one: the null pointer or an address outside of the
    buffers. *)
Definition priskv_request_free (req : option Z) : CM unit :=
  s ← get;
  match req with
  | None => lift (Fault AssertFailed)
  | Some i =>
      _ ← lift (cassert ((0 <=? i) && (i <? cl_max_inflight s)));
      buf ← lift (rd (cl_slots s) i);
      buf ← lift (put_be 2 buf off_command PRISKV_RDMA_REQUEST_FREE_COMMAND);
      slots ← lift (wr (cl_slots s) i buf);
      modify (with_slots slots)
  end.

(** The scan for a free slot; the slot is marked with [0xc001] until it is
    filled in. *)
Fixpoint unused_scan (fuel : nat) (slots : list (list Z)) (n i : Z) : res (option Z) :=
  if i <? n then
    match fuel with
    | O => Fault OutOfFuel
    | S fuel =>
        buf ← rd slots i;
        command ← req_command buf;
        if command =? PRISKV_RDMA_REQUEST_FREE_COMMAND then Ok (Some i)
        else unused_scan fuel slots n (u16 (i + 1))
    end
  else Ok None.

Definition priskv_rdma_unused_command : CM (option Z) :=
  s ← get;
  i ← lift (unused_scan (Z.to_nat (cl_max_inflight s)) (cl_slots s) (cl_max_inflight s) 0);
  match i with
  | None => mret None
  | Some i =>
      buf ← lift (rd (cl_slots s) i);
      buf ← lift (put_be 2 buf off_command 0x01c0);
      slots ← lift (wr (cl_slots s) i buf);
      _ ← modify (with_slots slots);
      mret (Some i)
  end.

(** ** Callbacks *)

Section client.
(** Whether a post, an allocation, and the mapping or registration of memory
    succeed, the time stamp in a message, the key of a region, and the size of a
    page. A region is named by the tick of its registration. *)
Context (nic_ok alloc_ok reg_ok : Z → bool) (stamp : Z → list Z) (rkey : Z → Z) (page_size : Z).

(** [_priskv_rdma_req_cb]: the user's callback, then the request is freed. *)
Definition priskv_rdma_req_cb (a : Z) (res : result) : CM unit :=
  r ← get_req a;
  _ ← modify (λ s, with_log (cl_log s ++ [mk_call (Some a) (r_request_id r) (r_status r) res]) s);
  modify (λ s, with_reqs (delete a (cl_reqs s)) s).

(** The end of [priskv_rdma_keys_req_cb]. *)
Definition keys_exit (a : Z) (res : result) : CM unit :=
  _ ← modify (with_running None);
  priskv_rdma_req_cb a res.

Definition result_of (r : priskv_rdma_req) : result :=
  if r_cmd r =? PRISKV_COMMAND_KEYS then ResNone else ResLength (r_length r).

(** [rdma_req->cb] with a status that is neither OK nor VALUE_TOO_BIG; a response
    may not have arrived, then there is no result. *)
Definition failed_cb (a status : Z) : CM unit :=
  r ← get_req a;
  let r := req_status status r in
  _ ← set_req a r;
  let res := if Z.land (r_flags r) PRISKV_RDMA_REQ_FLAG_RECV =? 0 then ResNone else result_of r in
  if r_keys_cb r then keys_exit a ResNone else priskv_rdma_req_cb a res.

(** ** Sending *)

Definition EAGAIN : Z := 11.

Definition keys_busy (a : Z) (r : priskv_rdma_req) : CM bool :=
  if r_cmd r =? PRISKV_COMMAND_KEYS then
    s ← get;
    match cl_keys_running s with
    | Some x => if x =? a then mret false else mret true
    | None => _ ← modify (with_running (Some a)); mret false
    end
  else mret false.

(** The key of an element, as [priskv_fillup_sql] finds it: [mr->rkey] of a region
    registered for this message, of the user's memory, or of [keys_mems]. No region
    is a null pointer, and the region of the KEYS buffer is gone once that buffer
    was freed. The region of a message is deregistered with its request. *)
Definition sgl_rkey (g : user_sgl) : CM Z :=
  match us_mem g with
  | NoMem => t ← ctick; if reg_ok t then mret (rkey t) else lift (Fault NullDeref)
  | UserMem (Some key) => mret key
  | UserMem None => lift (Fault NullDeref)
  | KeysMem =>
      s ← get;
      match cl_keys_mems s with
      | None => lift (Fault NullDeref)
      | Some mr => if decide (cl_keys_mr s = Some mr) then mret (rkey mr) else lift (Fault UseAfterFree)
      end
  end.

Fixpoint keyed_sgls (l : list user_sgl) : CM (list priskv_keyed_sgl) :=
  match l with
  | [] => mret []
  | g :: l => key ← sgl_rkey g; ks ← keyed_sgls l; mret (mk_sgl (us_iova g) (us_length g) key :: ks)
  end.

Definition priskv_rdma_req_send (a : Z) : CM Z :=
  r ← get_req a;
  s ← get;
  if negb (cl_established s) then
    _ ← failed_cb a PRISKV_STATUS_DISCONNECTED; mret (-1)
  else
  busy ← keys_busy a r;
  if busy : bool then _ ← failed_cb a PRISKV_STATUS_BUSY; mret (-1) else
  slot ← priskv_rdma_unused_command;
  match slot with
  | None =>
      s ← get;
      if r_delaying r then
        _ ← modify (with_lists (list_add (cl_inflight s) a) (cl_complete s)); mret EAGAIN
      else
        _ ← modify (with_lists (list_add_tail (cl_inflight s) a) (cl_complete s));
        _ ← set_req a (req_delay r);
        mret EAGAIN
  | Some i =>
      s ← get;
      buf ← lift (rd (cl_slots s) i);
      t ← ctick;
      sgls ← keyed_sgls (r_sgls r);
      '(buf, len) ← lift (fill_request buf a (r_cmd r) (r_timeout r) sgls (r_key r) (stamp t));
      s ← get;
      slots ← lift (wr (cl_slots s) i buf);
      _ ← modify (with_slots slots);
      _ ← set_req a (req_slot (Some i) r);
      t ← ctick;
      if nic_ok t then
        _ ← modify (λ s, with_posted (cl_posted s ++ [(i, len)]) s);
        mret 0
      else
        _ ← failed_cb a PRISKV_STATUS_RDMA_ERROR; mret (-1)
  end.

(** ** Completion *)

(** [priskv_rdma_mem_new] for the KEYS buffer: whole pages, mapped and registered.
    No pages cannot be mapped. On failure the record is cleared; the pages of a
    registration that failed stay mapped, since the record that is unmapped was
    cleared before. *)
Definition keys_mem_new (size : Z) : CM bool :=
  let size := ALIGN_UP 32 size page_size in
  t ← ctick;
  if (size =? 0) || negb (reg_ok t) then _ ← modify (with_keys_mem 0 [] None); mret false else
  _ ← modify (with_keys_mem t (replicate (Z.to_nat size) 0) (Some t)); mret true.

(** The branch of [priskv_rdma_keys_req_cb] for a listing that did not fit: the
    buffer is freed, a larger one is made, and the request is sent again. A buffer
    that cannot be made leaves [keys_mems] with the region that is gone. *)
Definition keys_resize (a valuelen : Z) : CM unit :=
  _ ← modify (with_keys_mem 0 [] None);
  made ← keys_mem_new (u32 (valuelen + valuelen / 8));
  if made : bool then
    s ← get;
    _ ← modify (with_keys_mems (cl_keys_mr s));
    r ← get_req a;
    _ ← set_req a (priskv_rdma_req_reset [mk_usgl (cl_keys_addr s) (Z.of_nat (length (cl_keys_buf s))) KeysMem] r);
    _ ← priskv_rdma_req_send a;
    mret tt
  else
    r ← get_req a;
    _ ← set_req a (req_status PRISKV_STATUS_RDMA_ERROR r);
    keys_exit a ResNone.

Definition keys_req_cb (a : Z) : CM unit :=
  r ← get_req a;
  s ← get;
  if r_status r =? PRISKV_STATUS_OK then
    o ← lift (ClientKeys.priskv_rdma_keys_req_cb (cl_keys_buf s) (r_length r));
    match o with
    | None => _ ← set_req a (req_status PRISKV_STATUS_PROTOCOL_ERROR r); keys_exit a ResNone
    | Some (nkey, keys) => keys_exit a (ResKeys nkey keys)
    end
  else if r_status r =? PRISKV_STATUS_VALUE_TOO_BIG then keys_resize a (r_length r)
  else keys_exit a ResNone.

(** [rdma_req->cb] of a request that is complete. *)
Definition run_cb (a : Z) : CM unit :=
  r ← get_req a;
  if r_keys_cb r then keys_req_cb a else priskv_rdma_req_cb a (result_of r).

(** The loops over the lists keep the next node, so they go over the list as it
    was at their start. *)
Fixpoint complete_loop (l : list Z) : CM unit :=
  match l with
  | [] => mret tt
  | a :: l =>
      s ← get;
      c ← lift (list_del (cl_complete s) a);
      _ ← modify (with_lists (cl_inflight s) c);
      r ← get_req a;
      _ ← priskv_request_free (r_req r);
      _ ← run_cb a;
      complete_loop l
  end.

Definition priskv_rdma_req_complete : CM unit := s ← get; complete_loop (cl_complete s).

Fixpoint delay_loop (l : list Z) : CM unit :=
  match l with
  | [] => mret tt
  | a :: l =>
      s ← get;
      i ← lift (list_del (cl_inflight s) a);
      _ ← modify (with_lists i (cl_complete s));
      ret ← priskv_rdma_req_send a;
      if ret =? EAGAIN then mret tt else delay_loop l
  end.

Definition priskv_rdma_req_delay_send : CM unit := s ← get; delay_loop (cl_inflight s).

Definition priskv_rdma_req_done (a : Z) : CM unit :=
  r ← get_req a;
  if Z.land (r_flags r) PRISKV_RDMA_REQ_FLAG_DONE =? PRISKV_RDMA_REQ_FLAG_DONE
  then modify (λ s, with_lists (cl_inflight s) (list_add_tail (cl_complete s) a) s)
  else mret tt.

(** A response: identifier, status and length; [len] bytes arrived. *)
Definition priskv_rdma_handle_recv (request_id status length len : Z) : CM Z :=
  if negb (len =? sizeof_priskv_response) then mret (-71) else
  r ← get_req request_id;
  _ ← set_req request_id (req_flag PRISKV_RDMA_REQ_FLAG_RECV (req_answer status length r));
  _ ← priskv_rdma_req_done request_id;
  t ← ctick;   (* the response buffer is posted again; a failure is only logged *)
  mret 0.

Definition priskv_rdma_handle_send (slot : Z) : CM unit :=
  s ← get;
  buf ← lift (rd (cl_slots s) slot);
  a ← lift (req_request_id buf);
  r ← get_req a;
  _ ← set_req a (req_flag PRISKV_RDMA_REQ_FLAG_SEND r);
  priskv_rdma_req_done a.

Inductive completion :=
  | WcRecv (request_id status length len : Z)
  | WcSend (slot : Z)
  | WcError.

(** The completions the queue holds; an error leaves the rest for later. *)
Fixpoint priskv_rdma_handle_cq (wcs : list completion) : CM Z :=
  match wcs with
  | [] => _ ← priskv_rdma_req_complete; _ ← priskv_rdma_req_delay_send; mret 0
  | WcRecv id st length len :: wcs =>
      ret ← priskv_rdma_handle_recv id st length len;
      if ret <? 0 then mret ret else priskv_rdma_handle_cq wcs
  | WcSend slot :: wcs => _ ← priskv_rdma_handle_send slot; priskv_rdma_handle_cq wcs
  | WcError :: _ => mret (-5)
  end.

(** ** Starting and ending *)

Fixpoint close_loop (l : list Z) : CM unit :=
  match l with
  | [] => mret tt
  | a :: l =>
      s ← get;
      i ← lift (list_del (cl_inflight s) a);
      _ ← modify (with_lists i (cl_complete s));
      r ← get_req a;
      _ ← priskv_request_free (r_req r);
      _ ← failed_cb a PRISKV_STATUS_DISCONNECTED;
      close_loop l
  end.

Definition priskv_rdma_close_conn : CM unit :=
  _ ← modify disconnected;
  _ ← priskv_rdma_req_complete;
  s ← get;
  close_loop (cl_inflight s).

(** The scatter list of a KEYS request is the KEYS buffer. *)
Definition priskv_rdma_req_new (request_id : Z) (key : list Z) (keylen : Z) (sgls : list user_sgl)
    (timeout cmd : Z) : CM (option Z) :=
  a ← ctick;
  if negb (alloc_ok a) then mret None else
  s ← get;
  let keys := match sgls with [] => cmd =? PRISKV_COMMAND_KEYS | _ => false end in
  let sgls := if keys then [mk_usgl (cl_keys_addr s) (Z.of_nat (length (cl_keys_buf s))) KeysMem] else sgls in
  _ ← (if keys then modify (with_keys_mems (cl_keys_mr s)) else mret tt);
  _ ← set_req a (mk_rreq request_id cmd (take (Z.to_nat keylen) key) keylen sgls timeout keys None 0
                   PRISKV_STATUS_OK 0 false);
  mret (Some a).

(** A callback without a request behind it. *)
Definition usercb (request_id status : Z) : CM unit :=
  modify (λ s, with_log (cl_log s ++ [mk_call None request_id status ResNone]) s).

(** The checks do not return. *)
Definition priskv_send_command (request_id : Z) (key : list Z) (sgls : list user_sgl)
    (timeout cmd : Z) : CM unit :=
  s ← get;
  let keylen := u16 (Z.of_nat (length key)) in
  let nsgl := Z.of_nat (length sgls) in
  _ ← lift (cassert (cmd <? PRISKV_COMMAND_MAX));
  _ ← (if keylen =? 0 then usercb request_id PRISKV_STATUS_KEY_EMPTY else mret tt);
  _ ← (if cl_max_key_length s <? keylen then usercb request_id PRISKV_STATUS_KEY_TOO_BIG else mret tt);
  _ ← (if cl_max_sgl s <? nsgl then usercb request_id PRISKV_STATUS_INVALID_SGL else mret tt);
  a ← priskv_rdma_req_new request_id key keylen sgls timeout cmd;
  match a with
  | None => usercb request_id PRISKV_STATUS_NO_MEM
  | Some a => _ ← priskv_rdma_req_send a; mret tt
  end.
End client.
