(* ===== verification/ClientProps.v ===== *)
(** * The client: every request is called back once

    The invariant of a connection: where each request is, which slot it holds, and
    what has been called back; that every event keeps it; and what follows for the
    user. *)

From S2P Require Import Prelude State Utils Lists Protocol Wire KvKeys Client.

Import ClientKeys.

(** ** Total correctness of a step *)

Lemma safe_req a r s Q : cl_reqs s !! a = Some r → Q r s → safe (get_req a) s Q.
Proof. intros Hr HQ. exists r, s. unfold get_req. by rewrite Hr. Qed.

(** ** The invariant *)

Definition free_slot (buf : list Z) : Prop := req_command buf = Ok PRISKV_RDMA_REQUEST_FREE_COMMAND.

(** Request [a] holds slot [i]. *)
Definition holds_slot (s : connection) (a i : Z) : Prop :=
  0 <= i < cl_max_inflight s ∧
  ∃ buf, cl_slots s !! Z.to_nat i = Some buf ∧ req_request_id buf = Ok a ∧ ~ free_slot buf.

(** An element of a scatter list has a region, or gets one when it is sent. *)
Definition sgl_ok (s : connection) (g : user_sgl) : Prop :=
  match us_mem g with NoMem => True | UserMem mr => is_Some mr | KeysMem => is_Some (cl_keys_mems s) end.

(** The KEYS buffer is registered, and [keys_mems] has its region once it was used. *)
Definition keys_live (s : connection) : Prop :=
  is_Some (cl_keys_mr s) ∧ (is_Some (cl_keys_mems s) → cl_keys_mems s = cl_keys_mr s).

Definition fits (s : connection) (r : priskv_rdma_req) : Prop :=
  Forall (sgl_ok s) (r_sgls r) ∧ 0 <= r_cmd r < PRISKV_COMMAND_MAX ∧ Z.of_nat (length (r_sgls r)) <= cl_max_sgl s ∧
  Z.of_nat (length (r_key r)) <= cl_max_key_length s ∧
  (r_keys_cb r = true → 1 <= cl_max_sgl s).

Definition flags_ok (f : Z) : Prop := f = 0 ∨ f = 1 ∨ f = 4 ∨ f = 5.

(** It waits without a slot, or holds one; it is complete when both flags are
    set. *)
Definition placed (s : connection) (a : Z) (r : priskv_rdma_req) : Prop :=
  if decide (a ∈ cl_inflight s) then a ∉ cl_complete s ∧ r_req r = None ∧ r_flags r = 0
  else (∃ i, r_req r = Some i ∧ holds_slot s a i) ∧ flags_ok (r_flags r) ∧ (a ∈ cl_complete s ↔ r_flags r = 5).

(** [x]: a request in hand, in no list. [issued]: all requests so far. *)
Record client_inv (s : connection) (x : option Z) (issued : gset Z) : Prop := mk_cinv {
  ci_max : 0 <= cl_max_inflight s < 2 ^ 16 ∧ Z.of_nat (length (cl_slots s)) = cl_max_inflight s;
  ci_conf : 0 <= cl_max_sgl s ∧ 0 <= cl_max_key_length s ∧
    sizeof_priskv_request + sizeof_priskv_keyed_sgl * cl_max_sgl s + cl_max_key_length s < 2 ^ 16;
  ci_bufs i buf : cl_slots s !! i = Some buf →
    sizeof_priskv_request + sizeof_priskv_keyed_sgl * cl_max_sgl s + cl_max_key_length s <= Z.of_nat (length buf);
  ci_reqs a r : cl_reqs s !! a = Some r → fits s r ∧ 0 <= a < 2 ^ 64 ∧ a < cl_tick s ∧ (x ≠ Some a → placed s a r);
  ci_hand a : x = Some a → is_Some (cl_reqs s !! a) ∧ a ∉ cl_inflight s ∧ a ∉ cl_complete s;
  ci_lists : NoDup (cl_inflight s) ∧ NoDup (cl_complete s);
  ci_listed a : a ∈ cl_inflight s ∨ a ∈ cl_complete s → is_Some (cl_reqs s !! a);
  ci_log : NoDup (omap l_req (cl_log s));
  ci_issued a : a ∈ issued ↔ is_Some (cl_reqs s !! a) ∨ a ∈ omap l_req (cl_log s);
  ci_called a : a ∈ omap l_req (cl_log s) → cl_reqs s !! a = None ∧ a < cl_tick s;
  ci_keys : keys_live s
}.

(** No slot is free. *)
Definition full (s : connection) : Prop := ∀ i buf, cl_slots s !! i = Some buf → ~ free_slot buf.

(** ** Slots *)

Lemma command_Ok buf : sizeof_priskv_request <= Z.of_nat (length buf) → ∃ c, req_command buf = Ok c.
Proof.
  unfold sizeof_priskv_request. intros Hl. unfold req_command, get_be, off_command, get_bytes.
  rewrite !(proj2 (Z.leb_le _ _)) by lia. by eexists.
Qed.

Lemma unused_spec slots n fuel : ∀ i,
  Z.of_nat (length slots) = n → n < 2 ^ 16 → 0 <= i <= n → n - i <= Z.of_nat fuel →
  (∀ j buf, slots !! j = Some buf → sizeof_priskv_request <= Z.of_nat (length buf)) →
  ∃ r, unused_scan fuel slots n i = Ok r ∧
    match r with
    | Some j => i <= j < n ∧ ∃ buf, slots !! Z.to_nat j = Some buf ∧ free_slot buf
    | None => ∀ j buf, i <= Z.of_nat j → slots !! j = Some buf → ~ free_slot buf
    end.
Proof.
  induction fuel as [|fuel IH]; intros i Hl Hn Hi Hf Hb; cbn [unused_scan];
    (destruct (Z.ltb_spec i n); [|exists None; split; [done|]; intros j buf Hj Hs; apply lookup_lt_Some in Hs; lia]); [lia|].
  destruct (lookup_lt_is_Some_2 slots (Z.to_nat i)) as [buf Hbuf]; [lia|].
  rewrite (proj2 (rd_Ok slots i buf)) by (split; [lia|done]). rewrite Ok_bind.
  destruct (command_Ok buf) as [c Hc]; [by eapply Hb|]. rewrite Hc, Ok_bind.
  destruct (Z.eqb_spec c PRISKV_RDMA_REQUEST_FREE_COMMAND) as [->|Hne].
  - exists (Some i). split; [done|]. split; [lia|]. by exists buf.
  - unfold u16. rewrite Z.mod_small by lia.
    destruct (IH (i + 1)) as (r & -> & Hr); [done|lia|lia|lia|done|]. exists r. split; [done|].
    destruct r as [j|].
    + destruct Hr as [? ?]. split; [lia|done].
    + intros j b Hj Hs. destruct (decide (Z.of_nat j = i)) as [He|He].
      * assert (j = Z.to_nat i) as -> by lia. rewrite Hbuf in Hs. injection Hs as <-.
        unfold free_slot. rewrite Hc. congruence.
      * apply (Hr j b); [lia|done].
Qed.

(** ** Steps that keep the invariant *)

(** What the invariant does not look at may change, and time goes on. *)
Definition same_core (s s' : connection) : Prop :=
  cl_max_sgl s' = cl_max_sgl s ∧ cl_max_key_length s' = cl_max_key_length s ∧ cl_max_inflight s' = cl_max_inflight s ∧
  cl_slots s' = cl_slots s ∧ cl_inflight s' = cl_inflight s ∧ cl_complete s' = cl_complete s ∧
  cl_reqs s' = cl_reqs s ∧ cl_log s' = cl_log s ∧ cl_tick s <= cl_tick s' ∧
  (keys_live s → keys_live s') ∧ (is_Some (cl_keys_mems s) → is_Some (cl_keys_mems s')).

Lemma fits_kept s s' r : cl_max_sgl s' = cl_max_sgl s → cl_max_key_length s' = cl_max_key_length s →
  (is_Some (cl_keys_mems s) → is_Some (cl_keys_mems s')) → fits s r → fits s' r.
Proof.
  intros E1 E2 E3. unfold fits. rewrite E1, E2. intros [Hg ?]. split; [|done]. eapply Forall_impl; [exact Hg|].
  intros g. unfold sgl_ok. by destruct (us_mem g).
Qed.

Lemma inv_core s s' x I : client_inv s x I → same_core s s' → client_inv s' x I.
Proof.
  intros [H1 H2 H3 H4 H5 H6 H7 H8 H9 H10 HK] (E1 & E2 & E3 & E4 & E5 & E6 & E7 & E8 & E9 & E10 & E11).
  split; rewrite ?E1, ?E2, ?E3, ?E4, ?E5, ?E6, ?E7, ?E8; try done; auto.
  - intros a r Hr. destruct (H4 a r Hr) as (Hf & Ha & Ht & Hp). split; [|split; [done|split; [lia|]]].
    + by apply (fits_kept s).
    + intros Hx. specialize (Hp Hx). unfold placed, holds_slot in *. by rewrite E3, E4, E5, E6.
  - intros a Ha. destruct (H10 a Ha) as [? ?]. split; [done|lia].
Qed.

Definition conf (s s' : connection) : Prop :=
  cl_max_sgl s' = cl_max_sgl s ∧ cl_max_key_length s' = cl_max_key_length s ∧ cl_max_inflight s' = cl_max_inflight s.

(** A request in hand is changed. *)
Lemma inv_hand s a r r' I :
  client_inv s (Some a) I → cl_reqs s !! a = Some r → fits s r' →
  client_inv (with_reqs (<[a := r']> (cl_reqs s)) s) (Some a) I.
Proof.
  intros [H1 H2 H3 H4 H5 H6 H7 H8 H9 H10 HK] Hr Hf.
  assert (∀ b, is_Some (<[a := r']> (cl_reqs s) !! b) ↔ is_Some (cl_reqs s !! b)) as Hdom.
  { intros b. rewrite lookup_insert_is_Some. destruct (decide (a = b)) as [->|]; naive_solver. }
  split; simpl; try done.
  - intros b q Hq. apply lookup_insert_Some in Hq as [[<- <-]|[Hne Hq]].
    + destruct (H4 a r Hr) as (_ & Ha & Ht & _). done.
    + exact (H4 b q Hq).
  - intros b Hb. rewrite Hdom. by apply H5.
  - intros b Hb. rewrite Hdom. by apply H7.
  - intros b. rewrite Hdom. apply H9.
  - intros b Hb. destruct (H10 b Hb) as [Hn ?]. split; [|done]. rewrite lookup_insert_ne; [done|].
    intros <-. congruence.
Qed.

(** No request but the one in hand has slot [i]. *)
Definition sole (s : connection) (a i : Z) : Prop :=
  ∀ b r, b ≠ a → cl_reqs s !! b = Some r → b ∉ cl_inflight s → r_req r ≠ Some i.

Lemma sole_slot s a i buf I :
  client_inv s (Some a) I → cl_slots s !! Z.to_nat i = Some buf → (free_slot buf ∨ req_request_id buf = Ok a) →
  sole s a i.
Proof.
  intros Hi Hb Hown b r Hne Hr Hni Hri. destruct (ci_reqs _ _ _ Hi b r Hr) as (_ & _ & _ & Hp).
  specialize (Hp ltac:(congruence)). unfold placed in Hp. rewrite decide_False in Hp by done.
  destruct Hp as ((j & Hj & Hjr & b' & Hb' & Hid & Hnf) & _). assert (i = j) as <- by congruence.
  rewrite Hb in Hb'. injection Hb' as <-. destruct Hown as [?|Hown]; [done|]. congruence.
Qed.

(** A slot that only the request in hand may hold is written. *)
Lemma inv_slot s a i buf buf' I :
  client_inv s (Some a) I → 0 <= i < cl_max_inflight s → cl_slots s !! Z.to_nat i = Some buf →
  sole s a i → length buf' = length buf →
  client_inv (with_slots (<[Z.to_nat i := buf']> (cl_slots s)) s) (Some a) I.
Proof.
  intros [H1 H2 H3 H4 H5 H6 H7 H8 H9 H10 HK] Hi Hb Hown Hl. split; simpl; try done.
  - by rewrite length_insert.
  - intros j b Hj. apply list_lookup_insert_Some in Hj as [(<- & <- & _)|[_ Hj]]; [|by eapply H3].
    rewrite Hl. by eapply H3.
  - intros b r Hr. destruct (H4 b r Hr) as (Hf & Hr' & Ht & Hp). split; [done|]. split; [done|]. split; [done|].
    intros Hx. specialize (Hp Hx). unfold placed in *. simpl. destruct (decide (b ∈ cl_inflight s)) as [|Hni]; [done|].
    destruct Hp as ((j & Hj & Hjr & b' & Hb' & Hid & Hnf) & Hrest). split; [|done]. exists j. split; [done|].
    split; [done|]. exists b'. simpl. rewrite list_lookup_insert_ne; [done|]. intros He.
    assert (i = j) as <- by lia. apply (Hown b r); [congruence|done..].
Qed.

(** The request in hand is called back and freed. *)
Lemma inv_finish s a r st res I :
  client_inv s (Some a) I → cl_reqs s !! a = Some r →
  client_inv (with_reqs (delete a (cl_reqs s)) (with_log (cl_log s ++ [mk_call (Some a) (r_request_id r) st res]) s))
    None I.
Proof.
  intros [H1 H2 H3 H4 H5 H6 H7 H8 H9 H10 HK] Hr. destruct (H5 a eq_refl) as (_ & Hni & Hnc).
  assert (∀ b, b ∈ omap l_req (cl_log s ++ [mk_call (Some a) (r_request_id r) st res]) ↔
    b ∈ omap l_req (cl_log s) ∨ b = a) as Hlog.
  { intros b. rewrite omap_app. simpl. rewrite elem_of_app, list_elem_of_singleton. done. }
  split; simpl; try done.
  - intros b q Hq. apply lookup_delete_Some in Hq as [Hne Hq]. destruct (H4 b q Hq) as (? & ? & ? & Hp).
    split; [done|]. split; [done|]. split; [done|]. intros _. apply Hp. congruence.
  - intros b Hb. rewrite lookup_delete_ne; [by apply H7|]. intros <-. destruct Hb; done.
  - rewrite omap_app. simpl. apply NoDup_app. split; [done|]. split; [|apply NoDup_singleton].
    intros b Hb Hb'. apply list_elem_of_singleton in Hb' as ->. destruct (H10 a Hb) as [? _]. congruence.
  - intros b. rewrite H9, Hlog. destruct (decide (b = a)) as [->|Hne].
    + rewrite lookup_delete_eq, Hr. split; [by right; right|]. intros _. left. eauto.
    + rewrite lookup_delete_ne by done. naive_solver.
  - intros b Hb. apply Hlog in Hb as [Hb| ->].
    + destruct (H10 b Hb) as [Hn ?]. split; [|done]. apply lookup_delete_None. by right.
    + split; [apply lookup_delete_eq|]. destruct (H4 a r Hr) as (_ & _ & ? & _). done.
Qed.

(** The request in hand goes to the waiting list. *)
Lemma inv_wait s a r l I :
  client_inv s (Some a) I → cl_reqs s !! a = Some r → r_req r = None → r_flags r = 0 →
  l ≡ₚ a :: cl_inflight s → client_inv (with_lists l (cl_complete s) s) None I.
Proof.
  intros [H1 H2 H3 H4 H5 H6 H7 H8 H9 H10 HK] Hr Hnone Hfl Hl. destruct (H5 a eq_refl) as (_ & Hni & Hnc).
  split; simpl; try done.
  - intros b q Hq. destruct (H4 b q Hq) as (? & ? & ? & Hp). split; [done|]. split; [done|]. split; [done|].
    intros _. unfold placed. simpl. destruct (decide (b = a)) as [->|Hne].
    + rewrite decide_True by (rewrite Hl; left). by simplify_eq.
    + specialize (Hp ltac:(congruence)). unfold placed in Hp.
      destruct (decide (b ∈ cl_inflight s)) as [Hin|Hin].
      * rewrite decide_True by (rewrite Hl; by right). done.
      * rewrite decide_False; [done|]. rewrite Hl. by apply not_elem_of_cons.
  - split; [|apply H6]. rewrite Hl. apply NoDup_cons. split; [done|apply H6].
  - intros b Hb. rewrite Hl, elem_of_cons in Hb. destruct Hb as [[->|Hb]|Hb]; [eauto|apply H7; by left|apply H7; by right].
Qed.

(** The request in hand holds a slot, and is put aside. *)
Lemma inv_posted s a r i I :
  client_inv s (Some a) I → cl_reqs s !! a = Some r → r_req r = Some i → holds_slot s a i → r_flags r = 0 →
  client_inv s None I.
Proof.
  intros [H1 H2 H3 H4 H5 H6 H7 H8 H9 H10 HK] Hr Hi Hh Hfl. destruct (H5 a eq_refl) as (_ & Hni & Hnc).
  split; try done. intros b q Hq. destruct (H4 b q Hq) as (? & ? & ? & Hp).
  split; [done|]. split; [done|]. split; [done|]. intros _. destruct (decide (b = a)) as [->|Hne]; [|apply Hp; congruence].
  rewrite Hr in Hq. injection Hq as <-. unfold placed. rewrite decide_False by done. split; [eauto|].
  rewrite Hfl. split; [by left|]. split; [done|lia].
Qed.

(** A request is taken off a list. *)
Lemma inv_take_waiting s a l I :
  client_inv s None I → cl_inflight s = a :: l →
  client_inv (with_lists l (cl_complete s) s) (Some a) I ∧
  ∃ r, cl_reqs s !! a = Some r ∧ r_req r = None ∧ r_flags r = 0.
Proof.
  intros [H1 H2 H3 H4 H5 H6 H7 H8 H9 H10 HK] Hl. destruct (H7 a) as [r Hr]; [left; rewrite Hl; left|].
  pose proof H6 as [Hnd Hndc]. rewrite Hl in Hnd. apply NoDup_cons in Hnd as [Hal Hnd].
  destruct (H4 a r Hr) as (_ & _ & _ & Hp). specialize (Hp ltac:(done)). unfold placed in Hp.
  rewrite decide_True in Hp by (rewrite Hl; left). destruct Hp as (Hnc & Hn & Hf).
  split; [|eauto]. split; simpl; try done.
  - intros b q Hq. destruct (H4 b q Hq) as (? & ? & ? & Hp). split; [done|]. split; [done|]. split; [done|].
    intros Hne. specialize (Hp ltac:(done)). unfold placed in *. simpl. rewrite Hl in Hp.
    destruct (decide (b ∈ l)) as [Hin|Hin].
    + by rewrite decide_True in Hp by (by right).
    + rewrite decide_False in Hp; [done|]. apply not_elem_of_cons. split; [congruence|done].
  - intros b [= <-]. split; [eauto|done].
  - intros b Hb. apply H7. rewrite Hl. destruct Hb; [left; by right|by right].
Qed.

Lemma inv_take_complete s a l I :
  client_inv s None I → cl_complete s = a :: l →
  client_inv (with_lists (cl_inflight s) l s) (Some a) I ∧
  ∃ r i, cl_reqs s !! a = Some r ∧ r_req r = Some i ∧ holds_slot s a i.
Proof.
  intros [H1 H2 H3 H4 H5 H6 H7 H8 H9 H10 HK] Hl. destruct (H7 a) as [r Hr]; [right; rewrite Hl; left|].
  pose proof H6 as [Hndi Hnd]. rewrite Hl in Hnd. apply NoDup_cons in Hnd as [Hal Hnd].
  destruct (H4 a r Hr) as (_ & _ & _ & Hp). specialize (Hp ltac:(done)). unfold placed in Hp.
  destruct (decide (a ∈ cl_inflight s)) as [Hin|Hin]; [destruct Hp as [Hc _]; destruct Hc; rewrite Hl; left|].
  destruct Hp as ((i & Hi & Hh) & _). split; [|eauto 6]. split; simpl; try done.
  - intros b q Hq. destruct (H4 b q Hq) as (? & ? & ? & Hp). split; [done|]. split; [done|]. split; [done|].
    intros Hne. specialize (Hp ltac:(done)). unfold placed in *. simpl. rewrite Hl in Hp.
    destruct (decide (b ∈ cl_inflight s)).
    + destruct Hp as (Hc & ?). split; [|done]. intros ?. apply Hc. by right.
    + destruct Hp as (? & ? & Hc). split; [done|]. split; [done|]. rewrite <- Hc, elem_of_cons.
      split; [by right|intros [->|?]; [by destruct Hne|done]].
  - intros b [= <-]. split; [eauto|done].
  - intros b Hb. apply H7. rewrite Hl. destruct Hb; [by left|right; by right].
Qed.

(** ** Callbacks *)

(** Slots and lists are as they were. *)
Definition still (s s' : connection) : Prop :=
  cl_max_sgl s' = cl_max_sgl s ∧ cl_max_key_length s' = cl_max_key_length s ∧ cl_max_inflight s' = cl_max_inflight s ∧
  cl_established s' = cl_established s ∧ cl_slots s' = cl_slots s ∧
  cl_inflight s' = cl_inflight s ∧ cl_complete s' = cl_complete s ∧
  (is_Some (cl_keys_mems s) → is_Some (cl_keys_mems s')).

Global Instance still_preorder : PreOrder still.
Proof.
  split; [done|]. intros s1 s2 s3 (? & ? & ? & ? & ? & ? & ? & ?) (? & ? & ? & ? & ? & ? & ? & ?).
  split_and!; (congruence || auto).
Qed.

Lemma safe_ctick s x I (Q : Z → connection → Prop) :
  client_inv s x I →
  (∀ s', client_inv s' x I → still s s' → cl_reqs s' = cl_reqs s → cl_keys_buf s' = cl_keys_buf s →
    cl_tick s' = cl_tick s + 1 → Q (cl_tick s) s') →
  safe ctick s Q.
Proof.
  intros Hi HQ. eexists _, _. split; [done|]. apply HQ; try done. eapply inv_core; [done|].
  split_and!; simpl; (done || lia).
Qed.

Lemma safe_finish s a r res I (Q : unit → connection → Prop) :
  client_inv s (Some a) I → cl_reqs s !! a = Some r →
  (∀ s', client_inv s' None I → still s s' → cl_keys_buf s' = cl_keys_buf s →
     (∀ b, b ≠ a → cl_reqs s' !! b = cl_reqs s !! b) → Q tt s') →
  safe (priskv_rdma_req_cb a res) s Q.
Proof.
  intros Hi Hr HQ. unfold priskv_rdma_req_cb. step. apply (safe_req a r); [done|]. step.
  apply safe_modify, safe_modify. apply HQ; [exact (inv_finish s a r (r_status r) res I Hi Hr)|done|done|].
  intros b Hb. simpl. by rewrite lookup_delete_ne.
Qed.

Lemma safe_running s k x I (Q : unit → connection → Prop) :
  client_inv s x I →
  (∀ s', client_inv s' x I → still s s' → cl_reqs s' = cl_reqs s → cl_keys_buf s' = cl_keys_buf s → Q tt s') →
  safe (modify (with_running k)) s Q.
Proof.
  intros Hi HQ. apply safe_modify, HQ; try done. eapply inv_core; [done|]. split_and!; simpl; (done || lia).
Qed.

Lemma safe_keys_exit s a r res I (Q : unit → connection → Prop) :
  client_inv s (Some a) I → cl_reqs s !! a = Some r →
  (∀ s', client_inv s' None I → still s s' → cl_keys_buf s' = cl_keys_buf s →
     (∀ b, b ≠ a → cl_reqs s' !! b = cl_reqs s !! b) → Q tt s') →
  safe (keys_exit a res) s Q.
Proof.
  intros Hi Hr HQ. unfold keys_exit. step. eapply safe_running; [done|]. intros s1 Hi1 K1 E1 B1.
  eapply safe_finish; [done|by rewrite E1|]. intros s2 Hi2 K2 B2 O2. apply HQ; [done|by etrans|congruence|].
  intros b Hb. by rewrite O2, E1.
Qed.

Lemma safe_set_req s a r r' I (Q : unit → connection → Prop) :
  client_inv s (Some a) I → cl_reqs s !! a = Some r → fits s r' →
  (∀ s', client_inv s' (Some a) I → still s s' → cl_reqs s' = <[a := r']> (cl_reqs s) → cl_keys_buf s' = cl_keys_buf s →
     Q tt s') →
  safe (set_req a r') s Q.
Proof. intros Hi Hr Hf HQ. unfold set_req. apply safe_modify, HQ; [by eapply inv_hand|done..]. Qed.

Lemma safe_failed s a r st I (Q : unit → connection → Prop) :
  client_inv s (Some a) I → cl_reqs s !! a = Some r →
  (∀ s', client_inv s' None I → still s s' → cl_keys_buf s' = cl_keys_buf s →
     (∀ b, b ≠ a → cl_reqs s' !! b = cl_reqs s !! b) → Q tt s') →
  safe (failed_cb a st) s Q.
Proof.
  intros Hi Hr HQ. unfold failed_cb. step. apply (safe_req a r); [done|]. step.
  destruct (ci_reqs _ _ _ Hi a r Hr) as (Hf & _).
  eapply safe_set_req; [done|done|exact Hf|]. intros s1 Hi1 K1 E1 B1.
  assert (∀ s', client_inv s' None I → still s1 s' → cl_keys_buf s' = cl_keys_buf s1 →
     (∀ b, b ≠ a → cl_reqs s' !! b = cl_reqs s1 !! b) → Q tt s') as HQ'.
  { intros s' Hi' K' B' O'. apply HQ; [done|by etrans|congruence|]. intros b Hb.
    by rewrite O', E1, lookup_insert_ne. }
  destruct (r_keys_cb (req_status st r)).
  - eapply safe_keys_exit; [done|by rewrite E1, lookup_insert_eq|done].
  - eapply safe_finish; [done|by rewrite E1, lookup_insert_eq|done].
Qed.

(** ** Sending *)

Section sending.
Context (nic_ok reg_ok : Z → bool) (stamp : Z → list Z) (rkey : Z → Z) (page_size : Z).
Context (Hstamp : ∀ t, length (stamp t) = 16%nat) (Hreg : ∀ t, reg_ok t = true).

Lemma safe_unused s x I (Q : option Z → connection → Prop) :
  client_inv s x I →
  (full s → Q None s) →
  (∀ i buf buf', 0 <= i < cl_max_inflight s → cl_slots s !! Z.to_nat i = Some buf → free_slot buf →
     length buf' = length buf → Q (Some i) (with_slots (<[Z.to_nat i := buf']> (cl_slots s)) s)) →
  safe priskv_rdma_unused_command s Q.
Proof.
  intros Hi Hno Hyes. destruct (ci_max _ _ _ Hi) as [Hm Hl]. destruct (ci_conf _ _ _ Hi) as (Hc1 & Hc2 & _).
  assert (∀ j buf, cl_slots s !! j = Some buf → sizeof_priskv_request <= Z.of_nat (length buf)) as Hb.
  { intros j buf Hj. pose proof (ci_bufs _ _ _ Hi j buf Hj). unfold sizeof_priskv_keyed_sgl in *. lia. }
  unfold priskv_rdma_unused_command. step. apply safe_get. step.
  destruct (unused_spec (cl_slots s) (cl_max_inflight s) (Z.to_nat (cl_max_inflight s)) 0) as (r & Hr & Hspec);
    [done|lia|lia|lia|done|].
  eapply safe_lift; [exact Hr|]. destruct r as [i|].
  - destruct Hspec as (Hi' & buf & Hbuf & Hfree).
    step. eapply safe_lift; [apply rd_Ok; split; [lia|exact Hbuf]|].
    destruct (put_command buf 0x01c0) as (out & Hput & Hlen & _); [done|by eapply Hb|].
    step. eapply safe_lift; [exact Hput|].
    step. eapply safe_lift; [apply wr_Ok; lia|]. step. apply safe_modify, safe_ret. by eapply Hyes.
  - apply safe_ret, Hno. intros j buf Hj. apply (Hspec j); [lia|done].
Qed.

(** What [priskv_rdma_req_send] leaves. *)
Definition sent (I : gset Z) (a : Z) (s : connection) (ret : Z) (s' : connection) : Prop :=
  client_inv s' None I ∧ cl_established s' = cl_established s ∧ cl_complete s' = cl_complete s ∧
  cl_keys_buf s' = cl_keys_buf s ∧ (∀ b, b ≠ a → cl_reqs s' !! b = cl_reqs s !! b) ∧
  (full s → full s') ∧
  (if decide (ret = EAGAIN) then full s' ∧ cl_inflight s' ≡ₚ a :: cl_inflight s else cl_inflight s' = cl_inflight s) ∧
  cl_max_sgl s' = cl_max_sgl s ∧ cl_max_key_length s' = cl_max_key_length s.

Lemma still_sent I a s s' ret :
  client_inv s' None I → still s s' → ret ≠ EAGAIN → cl_keys_buf s' = cl_keys_buf s →
  (∀ b, b ≠ a → cl_reqs s' !! b = cl_reqs s !! b) → sent I a s ret s'.
Proof.
  intros Hi (E1 & E2 & E3 & E4 & E5 & E6 & E7 & E8) Hr Hk Ho. split_and!; try done.
  - unfold full. by rewrite E5.
  - by rewrite decide_False.
Qed.

Lemma safe_keys_busy s a r I (Q : bool → connection → Prop) :
  client_inv s (Some a) I →
  (∀ b s', client_inv s' (Some a) I → still s s' → cl_reqs s' = cl_reqs s → cl_keys_buf s' = cl_keys_buf s → Q b s') →
  safe (keys_busy a r) s Q.
Proof.
  intros Hi HQ. unfold keys_busy. destruct (r_cmd r =? PRISKV_COMMAND_KEYS); [|apply safe_ret; by apply HQ].
  step. apply safe_get. destruct (cl_keys_running s) as [y|].
  - destruct (y =? a); apply safe_ret; by apply HQ.
  - step. eapply safe_running; [done|]. intros s1 Hi1 K1 E1 B1. apply safe_ret. by apply HQ.
Qed.

(** Every element of a request that fits gets its key. *)
Lemma safe_rkey s x g I (Q : Z → connection → Prop) :
  client_inv s x I → sgl_ok s g →
  (∀ key s', client_inv s' x I → still s s' → cl_reqs s' = cl_reqs s → cl_keys_buf s' = cl_keys_buf s → Q key s') →
  safe (sgl_rkey reg_ok rkey g) s Q.
Proof.
  intros Hi Hg HQ. unfold sgl_ok in Hg. unfold sgl_rkey. destruct (us_mem g) as [|[key|]|].
  - step. eapply safe_ctick; [done|]. intros s1 Hi1 K1 E1 B1 _. rewrite Hreg. apply safe_ret. by apply HQ.
  - apply safe_ret. by apply HQ.
  - by destruct Hg.
  - step. apply safe_get. destruct (ci_keys _ _ _ Hi) as [_ Hl]. specialize (Hl Hg). destruct Hg as [mr Hmr]. rewrite Hmr in Hl |- *.
    rewrite decide_True by done. apply safe_ret. by apply HQ.
Qed.

Lemma safe_keyed l : ∀ s x I (Q : list priskv_keyed_sgl → connection → Prop),
  client_inv s x I → Forall (sgl_ok s) l →
  (∀ ks s', client_inv s' x I → still s s' → cl_reqs s' = cl_reqs s → cl_keys_buf s' = cl_keys_buf s → length ks = length l → Q ks s') →
  safe (keyed_sgls reg_ok rkey l) s Q.
Proof.
  induction l as [|g l IH]; intros s x I Q Hi Hf HQ; cbn [keyed_sgls]; [apply safe_ret; by apply HQ|].
  apply Forall_cons in Hf as [Hg Hf]. step. eapply safe_rkey; [done|done|]. intros key s1 Hi1 K1 E1 B1.
  step. eapply IH; [exact Hi1| |].
  { eapply Forall_impl; [exact Hf|]. intros g'. unfold sgl_ok. destruct (us_mem g'); try done. by apply K1. }
  intros ks s2 Hi2 K2 E2 B2 Hl. apply safe_ret. apply HQ; [done|by etrans|congruence|congruence|simpl; by rewrite Hl].
Qed.

Lemma safe_req_send s a r I :
  client_inv s (Some a) I → cl_reqs s !! a = Some r → r_req r = None → r_flags r = 0 →
  safe (priskv_rdma_req_send nic_ok reg_ok stamp rkey a) s (sent I a s).
Proof.
  intros Hi Hr Hnone Hfl. unfold priskv_rdma_req_send. step. apply (safe_req a r); [done|]. step. apply safe_get.
  destruct (cl_established s); simpl negb; cbv iota.
  2:{ step. eapply safe_failed; [done|done|]. intros s1 Hi1 K1 B1 O1. apply safe_ret. by apply still_sent. }
  step. eapply safe_keys_busy; [done|]. intros busy s1 Hi1 K1 E1 B1. destruct busy.
  { step. eapply safe_failed; [done|by rewrite E1|]. intros s2 Hi2 K2 B2 O2. apply safe_ret.
    apply still_sent; [done|by etrans|done|congruence|]. intros b Hb. by rewrite O2, E1. }
  pose proof K1 as (C1 & C2 & C3 & C4 & C5 & C6 & C7 & C8). rewrite <- E1 in Hr.
  step. eapply safe_unused; [done| |].
  - intros Hfull. step. apply safe_get. destruct (r_delaying r).
    + step. apply safe_modify, safe_ret. split_and!; try done; [by eapply inv_wait|intros; simpl; by rewrite E1|].
      rewrite decide_True by done. split; [done|]. simpl. by rewrite <- C6.
    + step. apply safe_modify. step. apply safe_modify. apply safe_ret.
      destruct (ci_reqs _ _ _ Hi1 a r Hr) as (Hf & _). split_and!; try done.
      * refine (inv_wait (with_reqs (<[a := req_delay r]> (cl_reqs s1)) s1) a (req_delay r) _ I _ _ _ _ _).
        -- by eapply inv_hand.
        -- apply lookup_insert_eq.
        -- done.
        -- done.
        -- unfold list_add_tail. simpl. by rewrite (comm (++)).
      * intros b Hb. simpl. by rewrite lookup_insert_ne, E1.
      * rewrite decide_True by done. split; [done|]. simpl. rewrite <- C6. unfold list_add_tail. by rewrite (comm (++)).
  - intros i buf buf' Hir Hbuf Hfree Hlen. pose proof (sole_slot s1 a i buf I Hi1 Hbuf (or_introl Hfree)) as Hsole.
    destruct (ci_reqs _ _ _ Hi1 a r Hr) as ((Hsg & Hcmd & Hns & Hnk & Hkc) & Hrange & _ & _).
    destruct (ci_conf _ _ _ Hi1) as (Hc1 & Hc2 & Hc3). pose proof (ci_bufs _ _ _ Hi1 _ _ Hbuf) as Hfit.
    pose proof (inv_slot s1 a i buf buf' I Hi1 Hir Hbuf Hsole Hlen) as Hi2.
    pose proof (lookup_lt_Some _ _ _ Hbuf) as Hlt. destruct (ci_max _ _ _ Hi1) as [_ Hmax].
    set (s2 := with_slots _ s1) in *. step. apply safe_get.
    step. eapply safe_lift; [apply rd_Ok; split; [lia|]; simpl; by rewrite list_lookup_insert_eq|].
    step. eapply safe_ctick; [exact Hi2|]. intros sc Hic Kc Ec Bc Tc.
    step. eapply safe_keyed; [exact Hic| |].
    { eapply Forall_impl; [exact Hsg|]. intros g. unfold sgl_ok. destruct (us_mem g); try done. apply Kc. }
    intros ks s3 Hi3 K3' E3' B3' Hks. pose proof (transitivity Kc K3') as K3.
    assert (cl_reqs s3 = cl_reqs s2) as E3 by congruence. assert (cl_keys_buf s3 = cl_keys_buf s2) as B3 by congruence.
    rewrite <- Hks in Hns. clear Hic Kc Ec Bc Tc K3' E3' B3'.
    unfold sizeof_priskv_request, sizeof_priskv_keyed_sgl in *.
    destruct (fill_request_header buf' a (r_cmd r) (r_timeout r) ks (r_key r) (stamp (cl_tick s2)))
      as (out & len & Hfill & Hol & Hoid & Hoc);
      [lia|unfold PRISKV_COMMAND_MAX in *; lia|done|unfold sizeof_priskv_request, sizeof_priskv_keyed_sgl; lia..|].
    step. eapply safe_lift; [exact Hfill|]. step. apply safe_get.
    pose proof K3 as (D1 & D2 & D3 & D4 & D5 & D6 & D7 & D8).
    assert (cl_slots s3 !! Z.to_nat i = Some buf') as Hs3.
    { rewrite D5. simpl. by rewrite list_lookup_insert_eq. }
    assert (sole s3 a i) as Hsole3 by (unfold sole; rewrite E3, D6; exact Hsole).
    step. eapply safe_lift; [apply wr_Ok; apply lookup_lt_Some in Hs3; lia|]. step. apply safe_modify.
    pose proof (inv_slot s3 a i buf' out I Hi3 ltac:(rewrite D3; simpl; lia) Hs3 Hsole3 Hol) as Hi4.
    set (s4 := with_slots _ s3) in *.
    assert (cl_reqs s4 !! a = Some r) as Hr4 by (simpl; by rewrite E3).
    step. eapply safe_set_req; [exact Hi4|exact Hr4| |].
    { apply (fits_kept s1); [done|done|exact D8|]. rewrite Hks in Hns. done. }
    intros s5 Hi5 K5 E5 B5. pose proof K5 as (F1 & F2 & F3 & F4 & F5 & F6 & F7 & F8).
    step. eapply safe_ctick; [exact Hi5|]. intros s6 Hi6 K6 E6 B6 _.
    pose proof K6 as (G1 & G2 & G3 & G4 & G5 & G6 & G7 & G8).
    assert (Hr6 : cl_reqs s6 !! a = Some (req_slot (Some i) r)) by (by rewrite E6, E5, lookup_insert_eq).
    assert (Ho6 : ∀ b, b ≠ a → cl_reqs s6 !! b = cl_reqs s !! b).
    { intros b Hb. rewrite E6, E5, lookup_insert_ne by done. simpl. by rewrite E3, <- E1. }
    assert (Hsl : cl_slots s6 = <[Z.to_nat i := out]> (cl_slots s)).
    { rewrite G5, F5. simpl. rewrite D5. simpl. rewrite list_insert_insert_eq. by rewrite C5. }
    assert (Hnfull : full s → False).
    { intros Hfs. apply (Hfs (Z.to_nat i) buf); [by rewrite <- C5|done]. }
    assert (Hlast : cl_established s6 = cl_established s ∧ cl_complete s6 = cl_complete s ∧
      cl_keys_buf s6 = cl_keys_buf s ∧ cl_inflight s6 = cl_inflight s ∧ cl_max_sgl s6 = cl_max_sgl s ∧
      cl_max_key_length s6 = cl_max_key_length s).
    { simpl in *. split_and!; congruence. }
    destruct Hlast as (L1 & L2 & L3 & L4 & L5 & L6).
    destruct (nic_ok (cl_tick s5)).
    + step. apply safe_modify, safe_ret. split_and!; try done.
      * eapply inv_core; [eapply (inv_posted s6 a _ i); [done|exact Hr6|done| |done]|split_and!; simpl; (done || lia)].
        split; [rewrite G3, F3; simpl; rewrite D3; simpl; lia|]. exists out. split; [|split; [done|]].
        -- rewrite Hsl, list_lookup_insert_eq; [done|]. rewrite <- C5. done.
        -- unfold free_slot. rewrite Hoc. intros [= Hx]. unfold PRISKV_COMMAND_MAX, PRISKV_RDMA_REQUEST_FREE_COMMAND in *. lia.
    + step. eapply safe_failed; [done|exact Hr6|]. intros s7 Hi7 K7 B7 O7. apply safe_ret.
      pose proof K7 as (M1 & M2 & M3 & M4 & M5 & M6 & M7 & M8). split_and!; try done; try congruence.
      intros b Hb. by rewrite O7, Ho6.
Qed.

(** ** Completion *)

(** What the callback of [a] leaves for the other requests. *)
Definition ran (I : gset Z) (a : Z) (keys : bool) (s s' : connection) : Prop :=
  client_inv s' None I ∧ cl_established s' = cl_established s ∧ cl_complete s' = cl_complete s ∧
  (keys = false → cl_keys_buf s' = cl_keys_buf s) ∧ (∀ b, b ≠ a → cl_reqs s' !! b = cl_reqs s !! b) ∧
  (cl_established s = false → cl_inflight s' = cl_inflight s).

Lemma still_ran I a k s s' :
  client_inv s' None I → still s s' → cl_keys_buf s' = cl_keys_buf s →
  (∀ b, b ≠ a → cl_reqs s' !! b = cl_reqs s !! b) → ran I a k s s'.
Proof. intros Hi (E1 & E2 & E3 & E4 & E5 & E6 & E7 & E8) Hk Ho. split_and!; done. Qed.

Lemma sent_disconnected s a :
  cl_established s = false → ∀ ret s', priskv_rdma_req_send nic_ok reg_ok stamp rkey a s = Ok (ret, s') → ret = -1.
Proof.
  intros He ret s' Heq. unfold priskv_rdma_req_send, mbind, ST_bind, get, get_req in Heq.
  destruct (cl_reqs s !! a) as [r|]; [|discriminate]. rewrite He in Heq. cbv beta iota delta [negb] in Heq.
  match type of Heq with match ?m with _ => _ end = _ => destruct m as [[? ?]|] end; [|discriminate].
  by injection Heq as <- _.
Qed.

(** The new KEYS buffer takes the place of the old one. *)
Lemma safe_keys_new s x size I (Q : bool → connection → Prop) :
  client_inv s x I → ALIGN_UP 32 size page_size ≠ 0 →
  (∀ s', keys_live (with_keys_mems (cl_keys_mr s') s') → is_Some (cl_keys_mr s') → cl_log s' = cl_log s → cl_reqs s' = cl_reqs s →
    cl_tick s <= cl_tick s' → still s s' → Q true s') →
  safe (keys_mem_new reg_ok page_size size) (with_keys_mem 0 [] None s) Q.
Proof.
  intros Hi Hz HQ. unfold keys_mem_new. step. eexists _, _. split; [done|].
  rewrite (proj2 (Z.eqb_neq _ _) Hz), Hreg. step. apply safe_modify, safe_ret.
  apply HQ; simpl; (done || lia || by split).
Qed.

Lemma safe_keys_resize s a r len I :
  client_inv s (Some a) I → cl_reqs s !! a = Some r → r_keys_cb r = true → ALIGN_UP 32 (u32 (len + len / 8)) page_size ≠ 0 →
  safe (keys_resize nic_ok reg_ok stamp rkey page_size a len) s (λ _ s', ran I a true s s').
Proof.
  intros Hi Hr Hk Hz. destruct (ci_reqs _ _ _ Hi a r Hr) as ((Hsg & Hcmd & Hns & Hnk & Hkc) & _).
  unfold keys_resize. step. apply safe_modify. step.
  eapply safe_keys_new; [done|done|]. intros s1 Hkl1 Hkm1 L1 E1 T1 K1. step. apply safe_get. step. apply safe_modify.
  assert (still s (with_keys_mems (cl_keys_mr s1) s1)) as K02 by (destruct K1 as (? & ? & ? & ? & ? & ? & ? & ?); split_and!; done).
  assert (client_inv (with_keys_mems (cl_keys_mr s1) s1) (Some a) I) as Hi2.
  { eapply inv_core; [exact Hi|]. destruct K1 as (? & ? & ? & ? & ? & ? & ? & ?). split_and!; done. }
  set (s2 := with_keys_mems _ s1) in *. assert (cl_reqs s2 = cl_reqs s) as E2 by done. 
  step. apply (safe_req a r); [by rewrite E2|]. pose proof K02 as (C1 & C2 & C3 & C4 & C5 & C6 & C7 & C8).
  step. eapply safe_set_req; [done|by rewrite E2| |].
  { specialize (Hkc Hk). unfold fits. rewrite C1, C2. cbn [r_sgls r_cmd r_key r_keys_cb priskv_rdma_req_reset length].
    split_and!; try (done || lia). by apply Forall_singleton. }
  intros s3 Hi3 K3 E3 B3. pose proof K3 as (D1 & D2 & D3 & D4 & D5 & D6 & D7 & D8).
  step. destruct (safe_req_send s3 a _ I Hi3 ltac:(by rewrite E3, lookup_insert_eq) eq_refl eq_refl)
    as (ret & s4 & Heq & Hs). exists ret, s4. split; [done|]. apply safe_ret.
  destruct Hs as (Hi4 & S1 & S2 & S3 & S4 & _ & S5 & _). split; [done|].
  split; [congruence|]. split; [congruence|]. split; [done|]. split.
  - intros b Hb. by rewrite S4, E3, lookup_insert_ne, E2.
  - intros He. assert (ret = -1) as -> by (eapply sent_disconnected; [|exact Heq]; congruence).
    rewrite decide_False in S5 by done. congruence.
Qed.

(** A listing that arrived decodes. *)
Definition decodes (s : connection) (r : priskv_rdma_req) : Prop :=
  r_status r = PRISKV_STATUS_OK →
  ∃ o, ClientKeys.priskv_rdma_keys_req_cb (cl_keys_buf s) (r_length r) = Ok o.
(** One that did not fit has a length for which there is a buffer. *)
Definition resizes (r : priskv_rdma_req) : Prop :=
  r_status r = PRISKV_STATUS_VALUE_TOO_BIG → ALIGN_UP 32 (u32 (r_length r + r_length r / 8)) page_size ≠ 0.

Lemma safe_run_cb s a r I :
  client_inv s (Some a) I → cl_reqs s !! a = Some r → (r_keys_cb r = true → decodes s r ∧ resizes r) →
  safe (run_cb nic_ok reg_ok stamp rkey page_size a) s (λ _ s', ran I a (r_keys_cb r) s s').
Proof.
  intros Hi Hr Hd. unfold run_cb. step. apply (safe_req a r); [done|]. destruct (r_keys_cb r) eqn:Hk.
  2:{ eapply safe_finish; [done|done|]. intros. by apply still_ran. }
  unfold keys_req_cb. step. apply (safe_req a r); [done|]. step. apply safe_get.
  destruct (Z.eqb_spec (r_status r) PRISKV_STATUS_OK) as [Hok|_].
  - destruct (proj1 (Hd eq_refl) Hok) as [o Ho]. step. eapply safe_lift; [exact Ho|]. destruct o as [[nkey keys]|].
    + eapply safe_keys_exit; [done|done|]. intros. by apply still_ran.
    + step. destruct (ci_reqs _ _ _ Hi a r Hr) as (Hf & _).
      eapply safe_set_req; [done|done|exact Hf|]. intros s1 Hi1 K1 E1 B1.
      eapply safe_keys_exit; [done|by rewrite E1, lookup_insert_eq|]. intros s2 Hi2 K2 B2 O2.
      apply still_ran; [done|by etrans|congruence|]. intros b Hb. by rewrite O2, E1, lookup_insert_ne.
  - destruct (Z.eqb_spec (r_status r) PRISKV_STATUS_VALUE_TOO_BIG); [eapply safe_keys_resize; try done; by apply Hd|].
    eapply safe_keys_exit; [done|done|]. intros. by apply still_ran.
Qed.

Lemma safe_request_free s a i I (Q : unit → connection → Prop) :
  client_inv s (Some a) I → holds_slot s a i →
  (∀ s', client_inv s' (Some a) I → cl_reqs s' = cl_reqs s → cl_keys_buf s' = cl_keys_buf s →
     cl_established s' = cl_established s → cl_inflight s' = cl_inflight s → cl_complete s' = cl_complete s → Q tt s') →
  safe (priskv_request_free (Some i)) s Q.
Proof.
  intros Hi (Hir & buf & Hb & Hid & Hnf) HQ. unfold priskv_request_free. step. apply safe_get.
  step. apply (safe_lift _ tt).
  { rewrite (proj2 (Z.leb_le _ _)), (proj2 (Z.ltb_lt _ _)) by lia. done. }
  step. eapply safe_lift; [apply rd_Ok; split; [lia|exact Hb]|].
  destruct (ci_conf _ _ _ Hi) as (Hc1 & Hc2 & _). pose proof (ci_bufs _ _ _ Hi _ _ Hb) as Hl.
  destruct (put_command buf PRISKV_RDMA_REQUEST_FREE_COMMAND) as (out & Hput & Hlen & _);
    [done|unfold sizeof_priskv_keyed_sgl in *; lia|].
  step. eapply safe_lift; [exact Hput|]. step.
  eapply safe_lift; [apply wr_Ok; apply lookup_lt_Some in Hb; lia|]. apply safe_modify.
  apply HQ; try done. eapply inv_slot; [done|done|done|by eapply sole_slot; [..|right]|done].
Qed.

(** The answers to the KEYS requests in [l] can be used, and there is at most one. *)
Definition keys_ready (s : connection) (l : list Z) : Prop :=
  ∀ a r, a ∈ l → cl_reqs s !! a = Some r → r_keys_cb r = true →
    (decodes s r ∧ resizes r) ∧ ∀ b q, b ∈ l → cl_reqs s !! b = Some q → r_keys_cb q = true → b = a.

Lemma safe_complete_loop l : ∀ s I,
  client_inv s None I → cl_complete s = l → keys_ready s l →
  safe (complete_loop nic_ok reg_ok stamp rkey page_size l) s (λ _ s',
    client_inv s' None I ∧ cl_complete s' = [] ∧ cl_established s' = cl_established s ∧
    (cl_established s = false → cl_inflight s' = cl_inflight s)).
Proof.
  induction l as [|a l IH]; intros s I Hi Hl Hk; cbn [complete_loop]; [by apply safe_ret|].
  destruct (inv_take_complete s a l I Hi Hl) as (Hi1 & r & i & Hr & Hri & Hh).
  destruct (ci_lists _ _ _ Hi) as [_ Hnd]. rewrite Hl in Hnd. apply NoDup_cons in Hnd as [Hal _].
  step. apply safe_get. step.
  eapply safe_lift; [apply list_del_Ok; rewrite Hl; left|]. rewrite Hl.
  rewrite filter_cons_False by naive_solver. rewrite filter_ne_id by done. step. apply safe_modify.
  set (s1 := with_lists _ l s) in *. step. apply (safe_req a r); [done|]. rewrite Hri.
  step. eapply safe_request_free; [exact Hi1|exact Hh|]. intros s2 Hi2 E2 B2 L2 F2 C2.
  step. eapply safe_mono.
  { eapply (safe_run_cb s2 a r); [done|by rewrite E2|]. intros Hkr.
    destruct (Hk a r ltac:(left) Hr Hkr) as [[Hd Hz] _]. split; [|exact Hz]. unfold decodes in *. rewrite B2. exact Hd. }
  intros _ s3 (Hi3 & L3 & C3 & B3 & O3 & F3). simpl in *. eapply safe_mono.
  { apply (IH s3 I); [done|congruence|]. intros b q Hb Hq Hkq.
    assert (b ≠ a) as Hne by (intros ->; done). rewrite O3, E2 in Hq by done.
    destruct (Hk b q ltac:(by right) Hq Hkq) as [[Hd Hz] Hu]. destruct (r_keys_cb r) eqn:Hkr.
    { destruct (Hu a r ltac:(left) Hr Hkr). by destruct Hne. }
    split; [split; [unfold decodes in *; by rewrite B3, B2|exact Hz]|]. intros c p Hc Hp. rewrite O3, E2 in Hp by (intros ->; done).
    apply (Hu c p); [by right|done]. }
  intros _ s4 (Hi4 & C4 & L4 & F4). split; [done|]. split; [done|]. split; [congruence|].
  intros He. rewrite F4, F3 by congruence. done.
Qed.

Lemma safe_delay_loop l : ∀ s I,
  client_inv s None I → cl_inflight s = l →
  safe (delay_loop nic_ok reg_ok stamp rkey l) s (λ _ s',
    client_inv s' None I ∧ cl_complete s' = cl_complete s ∧ cl_established s' = cl_established s ∧
    (cl_inflight s' = [] ∨ full s')).
Proof.
  induction l as [|a l IH]; intros s I Hi Hl; cbn [delay_loop]; [apply safe_ret; split_and!; try done; by left|].
  destruct (inv_take_waiting s a l I Hi Hl) as (Hi1 & r & Hr & Hn & Hf).
  destruct (ci_lists _ _ _ Hi) as [Hnd _]. rewrite Hl in Hnd. apply NoDup_cons in Hnd as [Hal _].
  step. apply safe_get. step.
  eapply safe_lift; [apply list_del_Ok; rewrite Hl; left|]. rewrite Hl.
  rewrite filter_cons_False by naive_solver. rewrite filter_ne_id by done. step. apply safe_modify.
  step. eapply safe_mono; [by eapply safe_req_send|]. intros ret s2 (Hi2 & L2 & C2 & _ & _ & _ & F2 & _). simpl in *.
  destruct (Z.eqb_spec ret EAGAIN) as [He|He].
  - rewrite decide_True in F2 by done. destruct F2 as [F2 _]. apply safe_ret. split_and!; try done. by right.
  - rewrite decide_False in F2 by done. eapply safe_mono; [by apply (IH s2 I)|].
    intros _ s3 (Hi3 & C3 & L3 & F3). split_and!; try done; congruence.
Qed.
End sending.

(** ** Events *)

(** A request that holds a slot makes progress. *)
Lemma inv_progress s a r r' I :
  client_inv s None I → cl_reqs s !! a = Some r → a ∉ cl_inflight s → r_flags r ≠ 5 →
  r_req r' = r_req r → fits s r' → flags_ok (r_flags r') →
  client_inv (with_lists (cl_inflight s) (if decide (r_flags r' = 5) then cl_complete s ++ [a] else cl_complete s)
    (with_reqs (<[a := r']> (cl_reqs s)) s)) None I.
Proof.
  intros [H1 H2 H3 H4 H5 H6 H7 H8 H9 H10 HK] Hr Hni Hn5 Hreq Hf Hfl.
  destruct (H4 a r Hr) as (_ & Ha & Ht & Hp). specialize (Hp ltac:(done)). unfold placed in Hp.
  rewrite decide_False in Hp by done. destruct Hp as (Hslot & _ & Hc).
  assert (a ∉ cl_complete s) as Hnc by (by rewrite Hc).
  assert (∀ b, is_Some (<[a := r']> (cl_reqs s) !! b) ↔ is_Some (cl_reqs s !! b)) as Hdom.
  { intros b. rewrite lookup_insert_is_Some. destruct (decide (a = b)) as [->|]; naive_solver. }
  assert (∀ b, b ≠ a → b ∈ (if decide (r_flags r' = 5) then cl_complete s ++ [a] else cl_complete s) ↔ b ∈ cl_complete s) as Hin.
  { intros b Hb. destruct (decide (r_flags r' = 5)); [|done]. rewrite elem_of_app, list_elem_of_singleton. naive_solver. }
  split; simpl; try done.
  - intros b q Hq. apply lookup_insert_Some in Hq as [[<- <-]|[Hne Hq]].
    + split; [done|]. split; [done|]. split; [done|]. intros _. unfold placed. simpl. rewrite decide_False by done.
      rewrite Hreq. split; [done|]. split; [done|]. destruct (decide (r_flags r' = 5)); [|naive_solver].
      rewrite elem_of_app, list_elem_of_singleton. naive_solver.
    + destruct (H4 b q Hq) as (? & ? & ? & Hp). split; [done|]. split; [done|]. split; [done|]. intros _.
      specialize (Hp ltac:(done)). unfold placed in *. simpl. pose proof (Hin b ltac:(done)) as Hb.
      destruct (decide (b ∈ cl_inflight s)); rewrite Hb; done.
  - split; [apply H6|]. destruct (decide (r_flags r' = 5)); [|apply H6].
    apply NoDup_app. split; [apply H6|]. split; [|apply NoDup_singleton]. intros b Hb. rewrite list_elem_of_singleton.
    by intros ->.
  - intros b Hb. rewrite Hdom. destruct (decide (b = a)) as [->|Hne]; [eauto|]. apply H7. by rewrite Hin in Hb.
  - intros b. rewrite Hdom. apply H9.
  - intros b Hb. destruct (H10 b Hb) as [Hn ?]. split; [|done]. rewrite lookup_insert_ne; [done|]. intros <-. congruence.
Qed.

(** A new request is in hand. *)
Lemma inv_new s r I :
  client_inv s None I → fits s r → 0 <= cl_tick s < 2 ^ 64 →
  ∀ s', s' = with_reqs (<[cl_tick s := r]> (cl_reqs s)) (mk_connection (cl_max_sgl s) (cl_max_key_length s)
    (cl_max_inflight s) (cl_established s) (cl_slots s) (cl_inflight s) (cl_complete s) (cl_keys_running s)
    (cl_keys_addr s) (cl_keys_buf s) (cl_keys_mr s) (cl_keys_mems s) (cl_reqs s) (cl_posted s) (cl_log s) (cl_tick s + 1)) →
  client_inv s' (Some (cl_tick s)) (I ∪ {[cl_tick s]}).
Proof.
  intros [H1 H2 H3 H4 H5 H6 H7 H8 H9 H10 HK] Hf Ht s' ->.
  assert (cl_reqs s !! cl_tick s = None) as Hfresh.
  { destruct (cl_reqs s !! cl_tick s) as [q|] eqn:Hq; [|done]. destruct (H4 _ _ Hq) as (_ & _ & ? & _). lia. }
  assert (∀ b, b ∈ cl_inflight s ∨ b ∈ cl_complete s → b ≠ cl_tick s) as Hl.
  { intros b Hb ->. destruct (H7 _ Hb) as [q Hq]. congruence. }
  split; simpl; try done.
  - intros b q Hq. apply lookup_insert_Some in Hq as [[<- <-]|[Hne Hq]]; [split_and!; (done || lia)|].
    destruct (H4 b q Hq) as (? & ? & ? & Hp). split; [done|]. split; [done|]. split; [lia|]. intros _. by apply Hp.
  - intros b [= <-]. split; [rewrite lookup_insert_eq; eauto|]. split; intros Hb; [apply (Hl (cl_tick s)); auto..].
  - intros b Hb. apply lookup_insert_is_Some. right. split; [|by apply H7]. intros <-. by apply (Hl (cl_tick s)).
  - intros b. rewrite elem_of_union, elem_of_singleton, H9, lookup_insert_is_Some.
    destruct (decide (b = cl_tick s)) as [->|]; naive_solver.
  - intros b Hb. destruct (H10 b Hb) as [Hn ?]. split; [|lia]. rewrite lookup_insert_ne; [done|lia].
Qed.

Section events.
Context (nic_ok alloc_ok reg_ok : Z → bool) (stamp : Z → list Z) (rkey : Z → Z) (page_size : Z).

(** What happens to a connection: the user asks for something, a response arrives,
    a message has been sent, the completion queue is empty, the KEYS buffer is
    written by the server, the connection is closed. *)
Inductive event :=
  | EvCommand (request_id : Z) (key : list Z) (sgls : list user_sgl) (timeout cmd : Z)
  | EvRecv (request_id status length len : Z)
  | EvSend (slot : Z)
  | EvPolled
  | EvKeysWritten (data : list Z)
  | EvClose.

Definition handle (ev : event) : CM unit :=
  match ev with
  | EvCommand id key sgls timeout cmd => priskv_send_command nic_ok alloc_ok reg_ok stamp rkey id key sgls timeout cmd
  | EvRecv id st length len => _ ← priskv_rdma_handle_recv id st length len; mret tt
  | EvSend slot => priskv_rdma_handle_send slot
  | EvPolled => _ ← priskv_rdma_handle_cq nic_ok reg_ok stamp rkey page_size []; mret tt
  | EvKeysWritten data => modify (keys_written data)
  | EvClose => priskv_rdma_close_conn nic_ok reg_ok stamp rkey page_size
  end.

(** Memory the user gives: not registered, or registered for this connection. *)
Definition given (g : user_sgl) : Prop :=
  match us_mem g with NoMem => True | UserMem mr => is_Some mr | KeysMem => False end.

(** What user, server and network card keep to: commands within the limits, one
    response and one send completion per message, KEYS answers that can be used and
    come one at a time, and are written inside of the buffer. The connection is
    closed while no request waits for a slot. *)
Definition event_ok (s : connection) (ev : event) : Prop :=
  match ev with
  | EvCommand id key sgls timeout cmd =>
      0 <= cmd < PRISKV_COMMAND_MAX ∧ Forall given sgls ∧ 0 < Z.of_nat (length key) <= cl_max_key_length s ∧
      Z.of_nat (length sgls) <= cl_max_sgl s ∧ (cmd = PRISKV_COMMAND_KEYS → 1 <= cl_max_sgl s) ∧
      0 <= cl_tick s < 2 ^ 64
  | EvRecv a st length len => ∃ r, cl_reqs s !! a = Some r ∧ a ∉ cl_inflight s ∧ Z.land (r_flags r) 4 = 0
  | EvSend slot => ∃ a r, holds_slot s a slot ∧ cl_reqs s !! a = Some r ∧ r_req r = Some slot ∧
      a ∉ cl_inflight s ∧ Z.land (r_flags r) 1 = 0
  | EvPolled => keys_ready page_size s (cl_complete s)
  | EvKeysWritten data => length data = length (cl_keys_buf s)
  | EvClose => keys_ready page_size s (cl_complete s) ∧ cl_inflight s = []
  end.

Definition issues (ev : event) (s : connection) : gset Z :=
  match ev with EvCommand _ _ _ _ _ => if alloc_ok (cl_tick s) then {[cl_tick s]} else ∅ | _ => ∅ end.

(** The state of a new connection: free slots, nothing issued. *)
Definition fresh_connection (s : connection) : Prop :=
  0 <= cl_max_inflight s < 2 ^ 16 ∧ 0 <= cl_max_sgl s ∧ 0 <= cl_max_key_length s ∧
  sizeof_priskv_request + sizeof_priskv_keyed_sgl * cl_max_sgl s + cl_max_key_length s < 2 ^ 16 ∧
  (∃ buf, cl_slots s = replicate (Z.to_nat (cl_max_inflight s)) buf ∧ free_slot buf ∧
     Z.of_nat (length buf) = priskv_request_size_aligend (cl_max_sgl s) (cl_max_key_length s)) ∧
  cl_inflight s = [] ∧ cl_complete s = [] ∧ cl_reqs s = ∅ ∧ cl_log s = [] ∧
  is_Some (cl_keys_mr s) ∧ cl_keys_mems s = None.

Inductive client_reachable : connection → gset Z → Prop :=
  | cr_start s : fresh_connection s → client_reachable s ∅
  | cr_step s I ev s' : client_reachable s I → event_ok s ev → handle ev s = Ok (tt, s') →
      client_reachable s' (I ∪ issues ev s).

(** The invariant between events. *)
Definition quiet_inv (s : connection) (I : gset Z) : Prop :=
  client_inv s None I ∧ (cl_inflight s = [] ∨ full s).

Context (Hstamp : ∀ t, length (stamp t) = 16%nat) (Hreg : ∀ t, reg_ok t = true).

Lemma fresh_inv s : fresh_connection s → quiet_inv s ∅.
Proof.
  intros (H1 & H2 & H3 & H4 & (buf & Hs & _ & Hl) & Hi & Hc & Hr & Hlog & Hmr & Hmems). split; [|by left].
  split; rewrite ?Hs, ?Hi, ?Hc, ?Hr, ?Hlog; simpl; try done.
  - rewrite length_replicate. lia.
  - intros i b Hb. apply lookup_replicate in Hb as [-> _]. rewrite Hl. unfold priskv_request_size_aligend.
    assert (priskv_request_size (cl_max_sgl s) (cl_max_key_length s)
      = sizeof_priskv_request + sizeof_priskv_keyed_sgl * cl_max_sgl s + cl_max_key_length s) as ->.
    { unfold priskv_request_size. rewrite key_off_small; unfold sizeof_priskv_request, sizeof_priskv_keyed_sgl in *; [|lia..].
      unfold u16. apply Z.mod_small. lia. }
    unfold sizeof_priskv_request, sizeof_priskv_keyed_sgl in *.
    pose proof (ALIGN_UP_bounds 32 (128 + 16 * cl_max_sgl s + cl_max_key_length s) 6) as Hb.
    change (2 ^ 6) with 64 in Hb. destruct Hb as [Hb _]; lia.
  - split; constructor.
  - intros a [Ha|Ha]; by apply not_elem_of_nil in Ha.
  - constructor.
  - intros a. split; [set_solver|]. intros [[r Hr']|Ha]; [by rewrite lookup_empty in Hr'|by apply not_elem_of_nil in Ha].
  - intros a Ha. by apply not_elem_of_nil in Ha.
  - split; [done|]. rewrite Hmems. by intros [? ?].
Qed.

Definition quiet_after (m : CM unit) (s : connection) (I : gset Z) : Prop := safe m s (λ _ s', quiet_inv s' I).

(** [priskv_rdma_req_done] after a flag was set. *)
Lemma safe_done s a r r' I (Q : unit → connection → Prop) :
  client_inv s None I → cl_reqs s !! a = Some r → a ∉ cl_inflight s → r_flags r ≠ 5 →
  r_req r' = r_req r → fits s r' → flags_ok (r_flags r') →
  (∀ s', client_inv s' None I → cl_inflight s' = cl_inflight s → cl_slots s' = cl_slots s → Q tt s') →
  safe (_ ← set_req a r'; priskv_rdma_req_done a) s Q.
Proof.
  intros Hi Hr Hni Hn5 Hreq Hf Hfl HQ. pose proof (inv_progress s a r r' I Hi Hr Hni Hn5 Hreq Hf Hfl) as Hi'.
  step. apply safe_modify. unfold priskv_rdma_req_done. step.
  apply (safe_req a r'); [simpl; by rewrite lookup_insert_eq|].
  destruct (decide (r_flags r' = 5)) as [H5|H5].
  - rewrite H5. simpl. apply safe_modify, HQ; [exact Hi'|done|done].
  - destruct (Z.eqb_spec (Z.land (r_flags r') PRISKV_RDMA_REQ_FLAG_DONE) PRISKV_RDMA_REQ_FLAG_DONE) as [He|_].
    + destruct Hfl as [Hx|[Hx|[Hx|Hx]]]; rewrite Hx in He, H5; (by simpl in He) || done.
    + apply safe_ret, HQ; [exact Hi'|done|done].
Qed.

Lemma placed_flags s a r I : client_inv s None I → cl_reqs s !! a = Some r → flags_ok (r_flags r).
Proof.
  intros Hi Hr. destruct (ci_reqs _ _ _ Hi a r Hr) as (_ & _ & _ & Hp). specialize (Hp ltac:(done)). unfold placed in Hp.
  destruct (decide _); [destruct Hp as (_ & _ & ->); by left|apply Hp].
Qed.

Lemma recv_inv s id st length len I :
  quiet_inv s I → event_ok s (EvRecv id st length len) → quiet_after (handle (EvRecv id st length len)) s I.
Proof.
  intros [Hi Hw] (r & Hr & Hni & Hland). unfold quiet_after, handle, priskv_rdma_handle_recv. step.
  destruct (negb (len =? sizeof_priskv_response)); [by apply safe_ret, safe_ret|].
  pose proof (placed_flags s id r I Hi Hr) as Hfl. destruct (ci_reqs _ _ _ Hi id r Hr) as (Hf & _).
  step. apply (safe_req id r); [done|].
  assert (Hflags : r_flags r ≠ 5 ∧ flags_ok (Z.lor (r_flags r) PRISKV_RDMA_REQ_FLAG_RECV)).
  { destruct Hfl as [Hx|[Hx|[Hx|Hx]]]; rewrite Hx in Hland |- *; try done; split; try done; vm_compute; tauto. }
  destruct Hflags as [Hn5 Hfl'].
  eapply (safe_mono (_ ← set_req id _; _ ← priskv_rdma_req_done id; _ ← ctick; mret 0)).
  2:{ intros ret s' HQ. apply safe_ret. exact HQ. }
  enough (safe (_ ← set_req id (req_flag PRISKV_RDMA_REQ_FLAG_RECV (req_answer st length r)); priskv_rdma_req_done id) s
    (λ _ s', quiet_inv s' I)) as Hd.
  { destruct Hd as (u & s1 & Hd & Hi1 & Hw1). unfold safe. unfold mbind, ST_bind in Hd |- *.
    destruct (set_req id _ s) as [[[] s0]|]; [|done]. rewrite Hd. eexists _, _. split; [done|].
    split; [|exact Hw1]. eapply inv_core; [exact Hi1|]. split_and!; simpl; (done || lia). }
  eapply safe_done; [done|exact Hr|done|done|done|exact Hf|exact Hfl'|].
  intros s1 Hi1 Hl1 Hs1. split; [done|]. unfold full in *. by rewrite Hl1, Hs1.
Qed.

Lemma send_inv s slot I :
  quiet_inv s I → event_ok s (EvSend slot) → quiet_after (handle (EvSend slot)) s I.
Proof.
  intros [Hi Hw] (a & r & (Hir & buf & Hb & Hid & Hnf) & Hr & Hri & Hni & Hland).
  unfold quiet_after, handle, priskv_rdma_handle_send. step. apply safe_get.
  step. eapply safe_lift; [apply rd_Ok; split; [lia|exact Hb]|]. step. eapply safe_lift; [exact Hid|].
  pose proof (placed_flags s a r I Hi Hr) as Hfl. destruct (ci_reqs _ _ _ Hi a r Hr) as (Hf & _).
  step. apply (safe_req a r); [done|].
  assert (Hflags : r_flags r ≠ 5 ∧ flags_ok (Z.lor (r_flags r) PRISKV_RDMA_REQ_FLAG_SEND)).
  { destruct Hfl as [Hx|[Hx|[Hx|Hx]]]; rewrite Hx in Hland |- *; try done; split; try done; vm_compute; tauto. }
  destruct Hflags as [Hn5 Hfl'].
  eapply safe_done; [done|exact Hr|done|done|done|exact Hf|exact Hfl'|].
  intros s1 Hi1 Hl1 Hs1. split; [done|]. unfold full in *. by rewrite Hl1, Hs1.
Qed.

Lemma polled_inv s I : quiet_inv s I → event_ok s EvPolled → quiet_after (handle EvPolled) s I.
Proof.
  intros [Hi Hw] Hk. unfold quiet_after, handle, priskv_rdma_handle_cq. step. step. unfold priskv_rdma_req_complete.
  step. apply safe_get. eapply safe_mono; [by apply safe_complete_loop|].
  intros _ s1 (Hi1 & C1 & _). step. unfold priskv_rdma_req_delay_send. step. apply safe_get.
  eapply safe_mono; [by eapply safe_delay_loop|]. intros _ s2 (Hi2 & _ & _ & Hw2). by apply safe_ret, safe_ret.
Qed.

Lemma close_inv s I : quiet_inv s I → event_ok s EvClose → quiet_after (handle EvClose) s I.
Proof.
  intros [Hi Hw] [Hk Hn]. unfold quiet_after, handle, priskv_rdma_close_conn. step. apply safe_modify.
  step. unfold priskv_rdma_req_complete. step. apply safe_get. eapply safe_mono.
  { apply (safe_complete_loop nic_ok reg_ok stamp rkey page_size Hstamp Hreg (cl_complete s) (disconnected s) I); [|done|exact Hk].
    eapply inv_core; [exact Hi|]. split_and!; simpl; (done || lia). }
  intros _ s1 (Hi1 & C1 & _ & Hl1). step. apply safe_get. rewrite Hl1 by done. simpl. rewrite Hn. apply safe_ret.
  split; [done|]. left. rewrite Hl1 by done. exact Hn.
Qed.

Lemma command_inv s I id key sgls timeout cmd :
  quiet_inv s I → event_ok s (EvCommand id key sgls timeout cmd) →
  quiet_after (handle (EvCommand id key sgls timeout cmd)) s (I ∪ issues (EvCommand id key sgls timeout cmd) s).
Proof.
  intros [Hi Hw] (Hcmd & Hgiven & Hkey & Hsgl & Hkeys & Ht). destruct (ci_conf _ _ _ Hi) as (Hc1 & Hc2 & Hc3).
  unfold sizeof_priskv_request, sizeof_priskv_keyed_sgl in Hc3.
  unfold quiet_after, handle, priskv_send_command. step. apply safe_get. cbv zeta.
  assert (u16 (Z.of_nat (length key)) = Z.of_nat (length key)) as -> by (unfold u16; apply Z.mod_small; lia).
  step. apply (safe_lift _ tt); [by rewrite (proj2 (Z.ltb_lt _ _)) by lia|].
  rewrite (proj2 (Z.eqb_neq _ _)) by lia. step. apply safe_ret.
  rewrite (proj2 (Z.ltb_ge (cl_max_key_length s) _)) by lia. step. apply safe_ret.
  rewrite (proj2 (Z.ltb_ge (cl_max_sgl s) _)) by lia. step. apply safe_ret.
  step. unfold priskv_rdma_req_new. step. eexists _, _. split; [done|]. unfold issues.
  destruct (alloc_ok (cl_tick s)); simpl negb; cbv iota.
  2:{ apply safe_ret, safe_modify. rewrite (union_empty_r_L I). split; [|exact Hw]. destruct Hi; split; simpl; try done.
      - intros a r Hr. destruct (ci_reqs0 a r Hr) as (? & ? & ? & ?). split_and!; (done || lia).
      - rewrite omap_app. simpl. by rewrite app_nil_r.
      - intros a. rewrite omap_app. simpl. by rewrite app_nil_r.
      - intros a. rewrite omap_app. simpl. rewrite app_nil_r. intros Ha. destruct (ci_called0 a Ha). split; [done|lia]. }
  step. apply safe_get. cbv zeta.
  set (keys := match sgls with [] => cmd =? PRISKV_COMMAND_KEYS | _ => false end).
  set (r := mk_rreq id cmd _ _ _ _ keys None 0 _ _ _).
  (* the connection the request is made for *)
  set (s0 := if keys then with_keys_mems (cl_keys_mr s) s else s).
  assert (cl_tick s0 = cl_tick s ∧ cl_inflight s0 = cl_inflight s ∧ cl_slots s0 = cl_slots s) as (T0 & L0 & S0) by (by unfold s0; destruct keys).
  assert (client_inv s0 None I) as Hi0.
  { unfold s0. destruct keys; [|done]. pose proof (ci_keys _ _ _ Hi) as [Hmr _].
    eapply inv_core; [exact Hi|]. split_and!; simpl; (done || lia). }
  assert (Hf : fits s0 r).
  { apply (fits_kept (with_keys_mems (cl_keys_mems s0) s)); [by unfold s0; destruct keys..|done|].
    unfold fits, r. simpl. rewrite length_take. split; [|split; [done|]; split; [|split; [lia|]]].
    - unfold s0. destruct keys; [apply Forall_singleton; exact (proj1 (ci_keys _ _ _ Hi))|].
      eapply Forall_impl; [exact Hgiven|]. intros g. unfold given, sgl_ok. by destruct (us_mem g).
    - destruct keys eqn:Hk; [|done]. simpl. unfold keys in Hk. destruct sgls; [|done]. apply Z.eqb_eq in Hk.
      specialize (Hkeys Hk). lia.
    - intros Hk. unfold keys in Hk. destruct sgls; [|done]. apply Z.eqb_eq in Hk. by apply Hkeys. }
  pose proof (inv_new s0 r I Hi0 Hf ltac:(by rewrite T0) _ eq_refl) as Hi1. rewrite T0 in Hi1.
  match type of Hi1 with client_inv ?x _ _ => set (s1 := x) in * end.
  assert (safe (_ ← (if keys then modify (with_keys_mems (cl_keys_mr s)) else mret tt); _ ← set_req (cl_tick s) r; mret (Some (cl_tick s)))
    (mk_connection (cl_max_sgl s) (cl_max_key_length s) (cl_max_inflight s) (cl_established s) (cl_slots s) (cl_inflight s)
       (cl_complete s) (cl_keys_running s) (cl_keys_addr s) (cl_keys_buf s) (cl_keys_mr s) (cl_keys_mems s) (cl_reqs s) (cl_posted s)
       (cl_log s) (cl_tick s + 1)) (λ o s', o = Some (cl_tick s) ∧ s' = s1)) as Hnew.
  { unfold s1, s0. destruct keys; step; [apply safe_modify|apply safe_ret]; step; apply safe_modify, safe_ret; done. }
  eapply safe_mono; [exact Hnew|]. intros _ _ [-> ->]. step.
  eapply safe_mono; [eapply safe_req_send; [exact Hstamp|exact Hreg|exact Hi1|simpl; by rewrite lookup_insert_eq|done|done]|].
  intros ret s2 (Hi2 & _ & _ & _ & _ & Hfull & Hl & _). apply safe_ret. split; [done|].
  destruct (decide (ret = EAGAIN)); [right; apply Hl|]. rewrite Hl. simpl. rewrite L0.
  destruct Hw as [Hw|Hw]; [by left|right]. apply Hfull. unfold full. simpl. rewrite S0. exact Hw.
Qed.

Lemma client_handle_inv s I ev :
  quiet_inv s I → event_ok s ev → quiet_after (handle ev) s (I ∪ issues ev s).
Proof.
  intros Hi Hok. destruct ev; try (unfold issues; rewrite (union_empty_r_L I)).
  - by apply command_inv.
  - by apply recv_inv.
  - by apply send_inv.
  - by apply polled_inv.
  - destruct Hi as [Hi Hw]. apply safe_modify. split; [|exact Hw]. eapply inv_core; [exact Hi|].
    split_and!; simpl; (done || lia).
  - by apply close_inv.
Qed.

Lemma client_reachable_inv s I : client_reachable s I → quiet_inv s I.
Proof.
  induction 1 as [s Hf|s I ev s' Hr IH Hok Hh]; [by apply fresh_inv|].
  destruct (client_handle_inv s I ev IH Hok) as (u & s1 & Heq & Hi). rewrite Hh in Heq. by injection Heq as _ <-.
Qed.
End events.

(** ** What the user can rely on *)

Definition calls_of (a : Z) (log : list call) : list call := filter (λ c, l_req c = Some a) log.


(** (C15) Of commands within the limits, as in the runs of the theorem above, every
    request is called back at most once, and exactly once when it is over: a request
    that was issued is either still there, and its callback has not run, or it is
    gone, and its callback has run once. No callback runs for a request that was not
    issued. A request that is sent when the connection is closed stays, and is not
    called back ([close_in_flight_loses_callback]); a command whose key is empty or
    too long is called back before and after ([long_key_is_sent]). *)
Theorem client_calls_back_once nic_ok alloc_ok reg_ok stamp rkey page_size s I a :
  (∀ t, length (stamp t) = 16%nat) → (∀ t, reg_ok t = true) →
  client_reachable nic_ok alloc_ok reg_ok stamp rkey page_size s I →
  length (calls_of a (cl_log s)) =
    if decide (a ∈ I) then match cl_reqs s !! a with Some _ => 0%nat | None => 1%nat end else 0%nat.
Proof.
  intros Hst Hreg Hr. destruct (client_reachable_inv _ _ _ _ _ _ Hst Hreg _ _ Hr) as [Hi _].
  unfold calls_of. rewrite (omap_once l_req) by apply (ci_log _ _ _ Hi). pose proof (ci_issued _ _ _ Hi a) as Hiss.
  destruct (decide (a ∈ omap l_req (cl_log s))) as [Hin|Hin].
  - destruct (ci_called _ _ _ Hi a Hin) as [Hn _]. rewrite decide_True by (apply Hiss; by right). by rewrite Hn.
  - destruct (decide (a ∈ I)) as [HI|HI]; [|done]. apply Hiss in HI as [[r ->]|?]; done.
Qed.

(** Between events, requests wait for a slot only while no slot is free, and
    the others hold a slot each, no two the same; a slot that is held carries the
    message of its request. *)
Theorem client_slots nic_ok alloc_ok reg_ok stamp rkey page_size s I :
  (∀ t, length (stamp t) = 16%nat) → (∀ t, reg_ok t = true) →
  client_reachable nic_ok alloc_ok reg_ok stamp rkey page_size s I →
  (cl_inflight s ≠ [] → full s) ∧
  (∀ a r, cl_reqs s !! a = Some r → a ∉ cl_inflight s → ∃ i, r_req r = Some i ∧ holds_slot s a i) ∧
  (∀ a b r q i, cl_reqs s !! a = Some r → cl_reqs s !! b = Some q → a ∉ cl_inflight s → b ∉ cl_inflight s →
     r_req r = Some i → r_req q = Some i → a = b).
Proof.
  intros Hst Hreg Hr. destruct (client_reachable_inv _ _ _ _ _ _ Hst Hreg _ _ Hr) as [Hi Hw].
  assert (∀ a r, cl_reqs s !! a = Some r → a ∉ cl_inflight s → ∃ i, r_req r = Some i ∧ holds_slot s a i) as Hh.
  { intros a r Har Hni. destruct (ci_reqs _ _ _ Hi a r Har) as (_ & _ & _ & Hp). specialize (Hp ltac:(done)).
    unfold placed in Hp. rewrite decide_False in Hp by done. by destruct Hp as (? & _). }
  split; [by destruct Hw|]. split; [done|]. intros a b r q i Ha Hb Hna Hnb Hi1 Hi2.
  destruct (Hh a r Ha Hna) as (j & Hj & _ & buf & Hbuf & Hid & _).
  destruct (Hh b q Hb Hnb) as (k & Hk & _ & buf' & Hbuf' & Hid' & _).
  assert (j = k) as <- by congruence. congruence.
Qed.

(** ** A small connection: one slot, keys of 16 bytes *)

Definition ex_slot : list Z := [0;0;0;0;0;0;0;0; 0;0;0;0;0;0;0;0; 255;255] ++ replicate 174 0.
Definition ex_connection (n : Z) : connection :=
  mk_connection 2 16 n true (replicate (Z.to_nat n) ex_slot) [] [] None 4096 (replicate 64 0) (Some 0) None ∅ [] [] 1.
Definition ex_stamp : Z → list Z := λ _, replicate 16 0.
Definition yes : Z → bool := λ _, true.
Definition ex_step (ev : event) (s : connection) : res (unit * connection) := handle yes yes yes ex_stamp (λ _, 7) 64 ev s.
Definition test_command (id : Z) (key : list Z) : event := EvCommand id key [] 0 PRISKV_COMMAND_TEST.
Definition keys_command (id : Z) : event := EvCommand id [46] [] 0 PRISKV_COMMAND_KEYS.

Lemma ex_fresh n : 0 <= n < 2 ^ 16 → fresh_connection (ex_connection n).
Proof.
  intros Hn. split_and!; simpl; try done; try lia. exists ex_slot. split; [done|]. split; vm_compute; reflexivity.
Defined.

Lemma ex_command_ok : event_ok 64 (ex_connection 1) (test_command 5 [97]).
Proof. split_and!; simpl; done. Defined.


(** The request is sent, answered, and called back. *)
Definition ex_events : list event := [test_command 5 [97]; EvSend 0; EvRecv 1 0 9 32; EvPolled].
Definition ex_run (evs : list event) (s : connection) : res connection :=
  foldl (λ r ev, s ← r; '(_, s) ← ex_step ev s; Ok s) (Ok s) evs.

Definition ex_after (evs : list event) (s : connection) : connection := match ex_run evs s with Ok s' => s' | Fault _ => s end.
Notation ex_reach := (client_reachable yes yes yes ex_stamp (λ _, 7) 64).

Lemma ex_sent_reach : ex_reach (ex_after [test_command 5 [97]] (ex_connection 1)) {[1]}.
Proof.
  rewrite <- (union_empty_l_L {[1]}). change ({[1]} : gset Z) with (issues yes (test_command 5 [97]) (ex_connection 1)).
  apply cr_step; [apply cr_start, ex_fresh; lia|exact ex_command_ok|]. vm_compute. reflexivity.
Defined.

Lemma ex_answered_reach : ex_reach (ex_after ex_events (ex_connection 1)) {[1]}.
Proof.
  assert (∀ s s' ev, ex_reach s {[1]} → event_ok 64 s ev → issues yes ev s = ∅ → handle yes yes yes ex_stamp (λ _, 7) 64 ev s = Ok (tt, s') →
    ex_reach s' {[1]}) as Hstep.
  { intros s s' ev Hr Hok Hi Hh. rewrite <- (union_empty_r_L {[1]}), <- Hi. by eapply cr_step. }
  eapply (Hstep (ex_after [test_command 5 [97]; EvSend 0; EvRecv 1 0 9 32] (ex_connection 1)) _ EvPolled);
    [|intros a r Ha Hr Hk; vm_compute in Ha, Hr|done|vm_compute; reflexivity].
  2:{ apply list_elem_of_singleton in Ha as ->. vm_compute in Hr. injection Hr as <-. done. }
  eapply (Hstep (ex_after [test_command 5 [97]; EvSend 0] (ex_connection 1)) _ (EvRecv 1 0 9 32));
    [|eexists; split; [vm_compute; reflexivity|]; split; [vm_compute; by intros ?%not_elem_of_nil|done]|done|vm_compute; reflexivity].
  eapply (Hstep (ex_after [test_command 5 [97]] (ex_connection 1)) _ (EvSend 0)); [exact ex_sent_reach| |done|vm_compute; reflexivity].
  exists 1. eexists. split; [split; [vm_compute; split; [discriminate|reflexivity]|]|].
  - eexists. split; [vm_compute; reflexivity|]. split; [vm_compute; reflexivity|]. unfold free_slot. by vm_compute.
  - split; [vm_compute; reflexivity|]. split; [done|]. split; [vm_compute; by intros ?%not_elem_of_nil|done].
Defined.

Lemma client_calls_back_once_witness :
  length (calls_of 1 (cl_log (ex_after [test_command 5 [97]] (ex_connection 1)))) = 0%nat ∧
  length (calls_of 1 (cl_log (ex_after ex_events (ex_connection 1)))) = 1%nat.
Proof.
  split.
  - exact (client_calls_back_once yes yes yes ex_stamp (λ _, 7) 64 _ {[1]} 1 ltac:(done) ltac:(done) ex_sent_reach).
  - exact (client_calls_back_once yes yes yes ex_stamp (λ _, 7) 64 _ {[1]} 1 ltac:(done) ltac:(done) ex_answered_reach).
Defined.

Lemma client_slots_witness :
  ∃ r i, cl_reqs (ex_after [test_command 5 [97]] (ex_connection 1)) !! 1 = Some r ∧ r_req r = Some i ∧
    holds_slot (ex_after [test_command 5 [97]] (ex_connection 1)) 1 i.
Proof.
  destruct (client_slots yes yes yes ex_stamp (λ _, 7) 64 _ {[1]} ltac:(done) ltac:(done) ex_sent_reach) as (_ & Hh & _).
  destruct (Hh 1 _ ltac:(vm_compute; reflexivity) ltac:(vm_compute; by intros ?%not_elem_of_nil)) as (i & Hi & Hs).
  eexists _, i. split; [vm_compute; reflexivity|]. split; [exact Hi|exact Hs].
Defined.

(** ** Where the client goes wrong *)

(** Closing while a request waits for a slot: the slot it does not have is given
    back. *)
Lemma close_while_waiting_aborts :
  ex_run [test_command 5 [97]; test_command 6 [98]; EvClose] (ex_connection 1) = Fault AssertFailed.
Proof. vm_compute. reflexivity. Qed.

(** Closing while a request is in flight: its callback never runs. *)
Lemma close_in_flight_loses_callback :
  let s := ex_after [test_command 5 [97]; EvClose] (ex_connection 1) in
  cl_established s = false ∧ cl_log s = [] ∧ is_Some (cl_reqs s !! 1).
Proof. split_and!; [vm_compute; reflexivity..|]. eexists. vm_compute. reflexivity. Qed.

(** A key that is too long: the callback runs, and the request is sent all the
    same, or overruns its buffer. *)
Lemma long_key_is_sent :
  let s := ex_after [test_command 5 (replicate 60 97)] (ex_connection 1) in
  cl_log s = [mk_call None 5 PRISKV_STATUS_KEY_TOO_BIG ResNone] ∧ cl_posted s = [(0, 188)].
Proof. split; vm_compute; reflexivity. Qed.

Lemma long_key_overruns_buffer :
  ex_run [test_command 5 (replicate 80 97)] (ex_connection 1) = Fault OutOfBounds.
Proof. vm_compute. reflexivity. Qed.

(** A KEYS that is refused because one is running clears the mark of the one that
    is running: the third is sent, and shares its buffer. *)
Lemma busy_keys_clears_mark :
  let s := ex_after [keys_command 1; keys_command 2; keys_command 3] (ex_connection 3) in
  cl_log s = [mk_call (Some 4) 2 PRISKV_STATUS_BUSY ResNone] ∧ cl_posted s = [(0, 145); (1, 145)].
Proof. split; vm_compute; reflexivity. Qed.

(** A post that fails: the slot is not given back, and the next request waits. *)
Lemma failed_post_keeps_slot :
  match handle (λ _, false) yes yes ex_stamp (λ _, 7) 64 (test_command 5 [97]) (ex_connection 1) with
  | Ok (_, s) => cl_reqs s = ∅ ∧ full s
  | Fault _ => False
  end.
Proof.
  vm_compute. split; [reflexivity|]. intros [|[|i]] buf Hb; [|discriminate..]. injection Hb as <-. by vm_compute.
Qed.

(** A KEYS buffer that cannot be enlarged is gone: the user is told, and the next
    KEYS follows the null pointer that is left in its place. With one waiting, it is
    the region of the old buffer that is followed. *)
Definition ex_unregistered (ev : event) (s : connection) : res (unit * connection) :=
  handle yes yes (λ _, false) ex_stamp (λ _, 7) 64 ev s.
Definition ex_too_big (n : Z) (evs : list event) : connection :=
  ex_after (evs ++ [EvSend 0; EvRecv 1 PRISKV_STATUS_VALUE_TOO_BIG 100 32]) (ex_connection n).

Lemma failed_resize_crashes :
  ('(_, s) ← ex_unregistered EvPolled (ex_too_big 1 [keys_command 1]); Ok (l_status <$> cl_log s, cl_keys_mr s))
    = Ok ([PRISKV_STATUS_RDMA_ERROR], None) ∧
  ('(_, s) ← ex_unregistered EvPolled (ex_too_big 1 [keys_command 1]); ex_step (keys_command 2) s) = Fault NullDeref ∧
  ex_unregistered EvPolled (ex_too_big 1 [keys_command 1; keys_command 2; keys_command 3]) = Fault UseAfterFree.
Proof. split_and!; vm_compute; reflexivity. Qed.

(** With memory, the buffer is whole pages of at least what was asked for. *)
Lemma resized_keys_buffer :
  ('(_, s) ← ex_step EvPolled (ex_too_big 1 [keys_command 1]); Ok (length (cl_keys_buf s), cl_keys_mr s, cl_posted s))
    = Ok (128%nat, Some 5, [(0, 145); (0, 145)]).
Proof. vm_compute. reflexivity. Qed.

(** Memory of the user that is not registered is registered with the message; a
    registration that fails is not noticed. *)
Definition get_into (m : sgl_mem) : event := EvCommand 5 [97] [mk_usgl 65536 16 m] 0 PRISKV_COMMAND_GET.
Lemma unregistered_memory_crashes :
  ex_unregistered (get_into NoMem) (ex_connection 1) = Fault NullDeref ∧
  ex_step (get_into (UserMem None)) (ex_connection 1) = Fault NullDeref ∧
  ('(_, s) ← ex_step (get_into NoMem) (ex_connection 1); Ok (cl_posted s)) = Ok [(0, 145)] ∧
  ('(_, s) ← ex_step (get_into (UserMem (Some 9))) (ex_connection 1); Ok (cl_posted s)) = Ok [(0, 145)].
Proof. split_and!; vm_compute; reflexivity. Qed.
