(* ===== verification/Sync.v ===== *)
(** * The client: synchronous calls

    [client/sync.c] and the asynchronous calls of [client/rdma.c] it is built on. A
    synchronous call keeps a cell in its stack frame whose address is the identifier
    of its request, and processes events until the callback has filled the cell. It
    must not return before, and nothing may refer to the cell after it returned.

    A turn of the loop handles what the completion queue holds then; the server may
    have written a listing into the KEYS buffer before. A list of such turns is what
    happens while the call waits; [None] is a call that still waits at its end. *)

From S2P Require Import Prelude State Utils Lists Protocol Wire KvKeys Client ClientProps.

Import ClientKeys.

(** ** Cells *)

Record priskv_rdma_req_sync := mk_sync { ys_status : Z; ys_valuelen : Z; ys_done : bool }.
Record priskv_rdma_keys_sync := mk_keys_sync { yk_status : Z; yk_done : bool; yk_keyset : option (Z * list (list Z * Z)) }.

Definition priskv_common_sync_cb (c : call) (y : priskv_rdma_req_sync) : priskv_rdma_req_sync :=
  mk_sync (l_status c) (match l_result c with ResLength n => n | _ => 0 end) true.

Definition priskv_keys_sync_cb (c : call) (y : priskv_rdma_keys_sync) : priskv_rdma_keys_sync :=
  mk_keys_sync (l_status c) true
    (if l_status c =? PRISKV_STATUS_OK then match l_result c with ResKeys nkey keys => Some (nkey, keys) | _ => None end else yk_keyset y).

Definition sync_start : priskv_rdma_req_sync := mk_sync 0xffff 0 false.
Definition keys_sync_start : priskv_rdma_keys_sync := mk_keys_sync 0 false None.

Record turn := mk_turn { tn_keys : option (list Z); tn_wcs : list completion }.

Section sync.
Context (nic_ok alloc_ok reg_ok : Z → bool) (stamp : Z → list Z) (rkey : Z → Z) (page_size : Z).
Notation send_command := (priskv_send_command nic_ok alloc_ok reg_ok stamp rkey).

(** ** Asynchronous calls *)

Definition priskv_get_async (request_id : Z) (key : list Z) (sgls : list user_sgl) : CM unit :=
  match sgls with
  | [] => usercb request_id PRISKV_STATUS_VALUE_EMPTY
  | _ => send_command request_id key sgls 0 PRISKV_COMMAND_GET
  end.
Definition priskv_set_async (request_id : Z) (key : list Z) (sgls : list user_sgl) (timeout : Z) : CM unit :=
  match sgls with
  | [] => usercb request_id PRISKV_STATUS_VALUE_EMPTY
  | _ => send_command request_id key sgls timeout PRISKV_COMMAND_SET
  end.
Definition priskv_test_async (request_id : Z) (key : list Z) : CM unit := send_command request_id key [] 0 PRISKV_COMMAND_TEST.
Definition priskv_delete_async (request_id : Z) (key : list Z) : CM unit := send_command request_id key [] 0 PRISKV_COMMAND_DELETE.
Definition priskv_expire_async (request_id : Z) (key : list Z) (timeout : Z) : CM unit := send_command request_id key [] timeout PRISKV_COMMAND_EXPIRE.
Definition priskv_keys_async (request_id : Z) (regex : list Z) : CM unit := send_command request_id regex [] 0 PRISKV_COMMAND_KEYS.
Definition priskv_nrkeys_async (request_id : Z) (regex : list Z) : CM unit := send_command request_id regex [] 0 PRISKV_COMMAND_NRKEYS.
Definition priskv_flush_async (request_id : Z) (regex : list Z) : CM unit := send_command request_id regex [] 0 PRISKV_COMMAND_FLUSH.

(** ** Waiting *)

Section wait.
Context {Y : Type} (cb : call → Y → Y) (done : Y → bool).

(** The callbacks that ran, on the cell with this identifier. *)
Definition called_back (request_id : Z) (calls : list call) (y : Y) : Y :=
  foldl (λ y c, if l_request_id c =? request_id then cb c y else y) y calls.

(** What a function of the client does to the cell, and to the connection. *)
Definition with_cell {A} (request_id : Z) (m : CM A) (y : Y) : CM Y :=
  s ← get;
  _ ← m;
  s' ← get;
  mret (called_back request_id (drop (length (cl_log s)) (cl_log s')) y).

Definition priskv_process (t : turn) : CM Z :=
  _ ← match tn_keys t with Some data => modify (keys_written data) | None => mret tt end;
  priskv_rdma_handle_cq nic_ok reg_ok stamp rkey page_size (tn_wcs t).

Fixpoint priskv_sync_wait (request_id : Z) (turns : list turn) (y : Y) : CM (option Y) :=
  if done y then mret (Some y) else
  match turns with
  | [] => mret None
  | t :: turns =>
      y ← with_cell request_id (priskv_process t) y;
      priskv_sync_wait request_id turns y
  end.

Definition sync_call (request_id : Z) (async : CM unit) (turns : list turn) (y : Y) : CM (option Y) :=
  y ← with_cell request_id async y;
  priskv_sync_wait request_id turns y.
End wait.

(** ** Synchronous calls *)

(** The status, and the length where there is one. *)
Definition sync_common (request_id : Z) (async : CM unit) (turns : list turn) : CM (option (Z * Z)) :=
  y ← sync_call priskv_common_sync_cb ys_done request_id async turns sync_start;
  mret ((λ y, (ys_status y, ys_valuelen y)) <$> y).

Definition priskv_get (id : Z) (key : list Z) (sgls : list user_sgl) (turns : list turn) : CM (option (Z * Z)) :=
  sync_common id (priskv_get_async id key sgls) turns.
Definition priskv_set (id : Z) (key : list Z) (sgls : list user_sgl) (timeout : Z) (turns : list turn) : CM (option Z) :=
  r ← sync_common id (priskv_set_async id key sgls timeout) turns; mret (fst <$> r).
Definition priskv_test (id : Z) (key : list Z) (turns : list turn) : CM (option (Z * Z)) :=
  sync_common id (priskv_test_async id key) turns.
Definition priskv_delete (id : Z) (key : list Z) (turns : list turn) : CM (option Z) :=
  r ← sync_common id (priskv_delete_async id key) turns; mret (fst <$> r).
Definition priskv_expire (id : Z) (key : list Z) (timeout : Z) (turns : list turn) : CM (option Z) :=
  r ← sync_common id (priskv_expire_async id key timeout) turns; mret (fst <$> r).
Definition priskv_nrkeys (id : Z) (regex : list Z) (turns : list turn) : CM (option (Z * Z)) :=
  sync_common id (priskv_nrkeys_async id regex) turns.
Definition priskv_flush (id : Z) (regex : list Z) (turns : list turn) : CM (option (Z * Z)) :=
  sync_common id (priskv_flush_async id regex) turns.

(** The status and, if it is OK, the keys. *)
Definition priskv_keys (id : Z) (regex : list Z) (turns : list turn) : CM (option (Z * option (Z * list (list Z * Z)))) :=
  y ← sync_call priskv_keys_sync_cb yk_done id (priskv_keys_async id regex) turns keys_sync_start;
  mret ((λ y, (yk_status y, yk_keyset y)) <$> y).
End sync.
