(* ===== verification/SyncProps.v ===== *)
(** * Synchronous calls return what the server answered

    A request keeps its identifier, goes only with its callback, and its callback
    runs once: so a synchronous call returns exactly when its request is over, with
    what the callback was given, and nothing refers to its cell then. *)

From S2P Require Import Prelude State Utils Lists Protocol Wire KvKeys Client ClientProps Sync.

Import ClientKeys.

(** ** What happens to requests *)

(** From one state to a later one: what was called back are requests that are gone,
    with their identifiers; the others are there, with theirs. *)
Record moved (s s' : connection) (new : list call) : Prop := {
  mv_log : cl_log s' = cl_log s ++ new;
  mv_once : NoDup (l_req <$> new);
  mv_new c : c ∈ new → ∃ a r, l_req c = Some a ∧ cl_reqs s !! a = Some r ∧ l_request_id c = r_request_id r ∧ cl_reqs s' !! a = None;
  mv_kept a r' : cl_reqs s' !! a = Some r' → ∃ r, cl_reqs s !! a = Some r ∧ r_request_id r' = r_request_id r;
  mv_gone a r : cl_reqs s !! a = Some r → cl_reqs s' !! a = None → ∃ c, c ∈ new ∧ l_req c = Some a
}.

Definition moves (s s' : connection) : Prop := ∃ new, moved s s' new.

Lemma moves_same s s' : cl_log s' = cl_log s → cl_reqs s' = cl_reqs s → moves s s'.
Proof.
  intros Hl Hr. exists []. split; rewrite ?Hl, ?Hr; [by rewrite app_nil_r|constructor|intros c []%elem_of_nil|eauto|congruence].
Qed.

Lemma moves_refl s : moves s s.
Proof. by apply moves_same. Qed.

Lemma moved_trans s1 s2 s3 n1 n2 : moved s1 s2 n1 → moved s2 s3 n2 → moved s1 s3 (n1 ++ n2).
Proof.
  intros [L1 O1 N1 K1 G1] [L2 O2 N2 K2 G2]. split.
  - by rewrite L2, L1, app_assoc.
  - rewrite fmap_app. apply NoDup_app. split_and!; [done| |done]. intros o Ho1 Ho2.
    apply list_elem_of_fmap in Ho1 as (c1 & -> & H1), Ho2 as (c2 & He & H2).
    destruct (N1 c1 H1) as (a & r & Ha & _ & _ & Hn). destruct (N2 c2 H2) as (b & r2 & Hb & Hr2 & _). congruence.
  - intros c [Hc|Hc]%elem_of_app.
    + destruct (N1 c Hc) as (a & r & Ha & Hr & Hid & Hn). exists a, r. split_and!; [done|done|done|].
      destruct (cl_reqs s3 !! a) as [r3|] eqn:H3; [|done]. destruct (K2 a r3 H3) as (r2 & H2 & _). congruence.
    + destruct (N2 c Hc) as (a & r & Ha & Hr & Hid & Hn). destruct (K1 a r Hr) as (r1 & H1 & Hid1).
      exists a, r1. split_and!; [done|done|congruence|done].
  - intros a r3 H3. destruct (K2 a r3 H3) as (r2 & H2 & Hid). destruct (K1 a r2 H2) as (r1 & H1 & Hid1). exists r1. split; [done|congruence].
  - intros a r Hr H3. destruct (cl_reqs s2 !! a) as [r2|] eqn:H2.
    + destruct (G2 a r2 H2 H3) as (c & Hc & Ha). exists c. split; [|done]. apply elem_of_app. by right.
    + destruct (G1 a r Hr H2) as (c & Hc & Ha). exists c. split; [|done]. apply elem_of_app. by left.
Qed.

Lemma moves_trans s1 s2 s3 : moves s1 s2 → moves s2 s3 → moves s1 s3.
Proof. intros [n1 H1] [n2 H2]. exists (n1 ++ n2). by eapply moved_trans. Qed.

Lemma moves_put s a r r' : cl_reqs s !! a = Some r → r_request_id r' = r_request_id r → moves s (with_reqs (<[a := r']> (cl_reqs s)) s).
Proof.
  intros Hr Hid. exists []. split; simpl; [by rewrite app_nil_r|constructor|intros c []%elem_of_nil| |].
  - intros b rb. destruct (decide (b = a)) as [->|Hne]; [rewrite lookup_insert_eq; intros [= <-]; eauto|rewrite lookup_insert_ne by done; eauto].
  - intros b rb Hb. destruct (decide (b = a)) as [->|Hne]; [by rewrite lookup_insert_eq|rewrite lookup_insert_ne by done; congruence].
Qed.

Lemma split_run {S A B} (m : ST S A) (f : A → ST S B) s b s' : mbind f m s = Ok (b, s') → ∃ a s1, m s = Ok (a, s1) ∧ f a s1 = Ok (b, s').
Proof. unfold mbind, ST_bind. destruct (m s) as [[a s1]|]; [eauto|done]. Qed.

Lemma lift_inv {S A} (r : res A) (s : S) a s' : lift r s = Ok (a, s') → r = Ok a ∧ s' = s.
Proof. unfold lift. destruct r; [|done]. by intros [= <- <-]. Qed.

Lemma get_req_inv a s r s' : get_req a s = Ok (r, s') → s' = s ∧ cl_reqs s !! a = Some r.
Proof. unfold get_req. destruct (cl_reqs s !! a) eqn:Hr; [|done]. by intros [= <- <-]. Qed.

(** Take a run apart. *)
Ltac run H :=
  repeat match type of H with
  | mbind _ _ _ = Ok _ => let a := fresh "x" in let s := fresh "s" in let H1 := fresh "R" in apply split_run in H as (a & s & H1 & H)
  end.

(** A run that leaves requests and log alone. *)
Definition quiet {A} (m : CM A) : Prop := ∀ s x s', m s = Ok (x, s') → cl_log s' = cl_log s ∧ cl_reqs s' = cl_reqs s.

Lemma quiet_bind {A B} (m : CM A) (f : A → CM B) : quiet m → (∀ a, quiet (f a)) → quiet (mbind f m).
Proof. intros Hm Hf s x s' (a & s1 & H1 & H2)%split_run. destruct (Hm _ _ _ H1), (Hf _ _ _ _ H2). split; congruence. Qed.
Lemma quiet_ret {A} (a : A) : quiet (mret a).
Proof. by intros s x s' [= <- <-]. Qed.
Lemma quiet_lift {A} (r : res A) : quiet (lift r).
Proof. by intros s x s' [_ ->]%lift_inv. Qed.
Lemma quiet_get : quiet get.
Proof. by intros s x s' [= <- <-]. Qed.
Lemma quiet_modify f : (∀ s, cl_log (f s) = cl_log s ∧ cl_reqs (f s) = cl_reqs s) → quiet (modify f).
Proof. intros Hf s x s' [= <- <-]. apply Hf. Qed.
Lemma quiet_ctick : quiet ctick.
Proof. by intros s x s' [= <- <-]. Qed.
Lemma quiet_if {A} (b : bool) (m1 m2 : CM A) : quiet m1 → quiet m2 → quiet (if b then m1 else m2).
Proof. by destruct b. Qed.

Create HintDb sync.
#[export] Hint Resolve quiet_bind quiet_ret quiet_lift quiet_get quiet_ctick quiet_if : sync.
#[export] Hint Extern 5 (quiet (modify _)) => apply quiet_modify; done : sync.
#[export] Hint Extern 5 (quiet (match ?x with _ => _ end)) => destruct x : sync.

Lemma quiet_request_free req : quiet (priskv_request_free req).
Proof. unfold priskv_request_free. eauto 20 with sync. Qed.
Lemma quiet_unused_command : quiet priskv_rdma_unused_command.
Proof. unfold priskv_rdma_unused_command. eauto 20 with sync. Qed.
Lemma quiet_keys_busy a r : quiet (keys_busy a r).
Proof. unfold keys_busy. eauto 20 with sync. Qed.
Lemma quiet_rkey reg_ok rkey g : quiet (sgl_rkey reg_ok rkey g).
Proof. unfold sgl_rkey. destruct (us_mem g) as [|[]|]; eauto 20 with sync. Qed.
Lemma quiet_keyed reg_ok rkey l : quiet (keyed_sgls reg_ok rkey l).
Proof. induction l as [|g l IH]; cbn [keyed_sgls]; eauto 20 using quiet_rkey with sync. Qed.
Lemma quiet_keys_mem_new reg_ok page_size size : quiet (keys_mem_new reg_ok page_size size).
Proof. unfold keys_mem_new. eauto 20 with sync. Qed.

(** ** The functions of the client *)

Definition keeps {A} (m : CM A) : Prop := ∀ s x s', m s = Ok (x, s') → moves s s'.

Lemma keeps_quiet {A} (m : CM A) : quiet m → keeps m.
Proof. intros Hm s x s' H. apply moves_same; by apply (Hm _ _ _ H). Qed.
Lemma keeps_bind {A B} (m : CM A) (f : A → CM B) : keeps m → (∀ a, keeps (f a)) → keeps (mbind f m).
Proof. intros Hm Hf s x s' (a & s1 & H1 & H2)%split_run. eapply moves_trans; [by eapply Hm|by eapply Hf]. Qed.
Lemma keeps_run {A} (m : CM A) s x s' : keeps m → m s = Ok (x, s') → moves s s'.
Proof. intros Hm H. by eapply Hm. Qed.
Lemma keeps_if {A} (b : bool) (m1 m2 : CM A) : keeps m1 → keeps m2 → keeps (if b then m1 else m2).
Proof. by destruct b. Qed.
Lemma keeps_get_req {B} a (f : priskv_rdma_req → CM B) :
  (∀ s r x s', cl_reqs s !! a = Some r → f r s = Ok (x, s') → moves s s') → keeps (mbind f (get_req a)).
Proof. intros Hf s x s' (r & s1 & H1 & H2)%split_run. apply get_req_inv in H1 as [-> Hr]. by eapply Hf. Qed.

(** A request is written with the identifier it has, then the rest. *)
Lemma put_then {B} a r r' (f : unit → CM B) s x s' :
  cl_reqs s !! a = Some r → r_request_id r' = r_request_id r → mbind f (set_req a r') s = Ok (x, s') → keeps (f tt) → moves s s'.
Proof.
  intros Hr Hid (u & s1 & H1 & H2)%split_run Hf. injection H1 as <- <-. eapply moves_trans; [by eapply moves_put|by eapply Hf].
Qed.

(** Nothing that matters here, then the rest. *)
Lemma quiet_then {A B} (m : CM A) (f : A → CM B) s x s' a r :
  quiet m → mbind f m s = Ok (x, s') → cl_reqs s !! a = Some r →
  (∀ y s1, cl_reqs s1 !! a = Some r → f y s1 = Ok (x, s') → moves s1 s') → moves s s'.
Proof.
  intros Hm (y & s1 & H1 & H2)%split_run Hr Hf. destruct (Hm _ _ _ H1) as [Hl He].
  eapply moves_trans; [by apply (moves_same s s1)|]. eapply Hf; [by rewrite He|done].
Qed.

#[export] Hint Resolve keeps_bind keeps_if : sync.
#[export] Hint Extern 1 (keeps (mret _)) => apply keeps_quiet, quiet_ret : sync.
#[export] Hint Extern 1 (keeps (lift _)) => apply keeps_quiet, quiet_lift : sync.
#[export] Hint Extern 1 (keeps get) => apply keeps_quiet, quiet_get : sync.
#[export] Hint Extern 1 (keeps ctick) => apply keeps_quiet, quiet_ctick : sync.
#[export] Hint Extern 1 (keeps (modify _)) => apply keeps_quiet, quiet_modify; done : sync.
#[export] Hint Extern 1 (keeps (priskv_request_free _)) => apply keeps_quiet, quiet_request_free : sync.
#[export] Hint Extern 5 (keeps (match ?x with _ => _ end)) => destruct x : sync.

Lemma keeps_req_cb a res : keeps (priskv_rdma_req_cb a res).
Proof.
  apply keeps_get_req. intros s r x s' Hr H. injection H as <- <-. exists [mk_call (Some a) (r_request_id r) (r_status r) res]. split; simpl.
  - done.
  - apply NoDup_singleton.
  - intros c ->%list_elem_of_singleton. exists a, r. simpl. by rewrite lookup_delete_eq.
  - intros b rb [_ Hb]%lookup_delete_Some. eauto.
  - intros b rb Hb [?|Hn]%lookup_delete_None; [|congruence]. subst. eexists. split; [by left|done].
Qed.
#[local] Hint Resolve keeps_req_cb : sync.

Lemma keeps_keys_exit a res : keeps (keys_exit a res).
Proof. unfold keys_exit. eauto with sync. Qed.
#[local] Hint Resolve keeps_keys_exit : sync.

Lemma keeps_failed_cb a status : keeps (failed_cb a status).
Proof. apply keeps_get_req. intros s r x s' Hr H. cbv zeta in H. eapply (put_then a r _ _ s x s' Hr); [|exact H|]; [done|]. cbn beta zeta. eauto with sync. Qed.
#[local] Hint Resolve keeps_failed_cb : sync.

Section client.
Context (nic_ok reg_ok : Z → bool) (stamp : Z → list Z) (rkey : Z → Z) (page_size : Z).

Lemma keeps_req_send a : keeps (priskv_rdma_req_send nic_ok reg_ok stamp rkey a).
Proof.
  apply keeps_get_req. intros s r x s' Hr H. eapply (quiet_then _ _ s x s' a r quiet_get H Hr). clear s Hr H. intros y s Hr H.
  destruct (cl_established y); cbn [negb] in H; [|refine (keeps_run _ _ _ _ _ H); eauto with sync].
  eapply (quiet_then _ _ s x s' a r (quiet_keys_busy a r) H Hr). clear s Hr H. intros busy s Hr H.
  destruct busy; [refine (keeps_run _ _ _ _ _ H); eauto with sync|].
  eapply (quiet_then _ _ s x s' a r quiet_unused_command H Hr). clear s Hr H. intros [i|] s Hr H.
  - eapply (quiet_then _ _ s x s' a r quiet_get H Hr). clear s Hr H. intros s1 s Hr H.
    eapply (quiet_then _ _ s x s' a r (quiet_lift _) H Hr). clear s Hr H. intros buf s Hr H.
    eapply (quiet_then _ _ s x s' a r quiet_ctick H Hr). clear s Hr H. intros t s Hr H.
    eapply (quiet_then _ _ s x s' a r (quiet_keyed _ _ _) H Hr). clear s Hr H. intros ks s Hr H.
    eapply (quiet_then _ _ s x s' a r (quiet_lift _) H Hr). clear s Hr H. intros [buf' len] s Hr H.
    eapply (quiet_then _ _ s x s' a r quiet_get H Hr). clear s Hr H. intros s2 s Hr H.
    eapply (quiet_then _ _ s x s' a r (quiet_lift _) H Hr). clear s Hr H. intros slots s Hr H.
    eapply (quiet_then _ _ s x s' a r); [|exact H|exact Hr|]; [eauto with sync|]. clear s Hr H. intros u s Hr H.
    eapply (put_then a r _ _ s x s' Hr); [|exact H|]; [done|]. cbn beta zeta. eauto 10 with sync.
  - eapply (quiet_then _ _ s x s' a r quiet_get H Hr). clear s Hr H. intros s1 s Hr H.
    destruct (r_delaying r); [refine (keeps_run _ _ _ _ _ H); eauto with sync|].
    eapply (quiet_then _ _ s x s' a r); [|exact H|exact Hr|]; [eauto with sync|]. clear s Hr H. intros u s Hr H.
    eapply (put_then a r _ _ s x s' Hr); [|exact H|]; [done|]. cbn beta zeta. eauto with sync.
Qed.
Hint Resolve keeps_req_send : sync.

Lemma keeps_keys_resize a valuelen : keeps (keys_resize nic_ok reg_ok stamp rkey page_size a valuelen).
Proof.
  unfold keys_resize. apply keeps_bind; [eauto with sync|]. intros _.
  apply keeps_bind; [apply keeps_quiet, quiet_keys_mem_new|]. intros made. apply keeps_if.
  - apply keeps_bind; [eauto with sync|]. intros s1. apply keeps_bind; [eauto with sync|]. intros _. apply keeps_get_req. intros s r x s' Hr H.
    eapply (put_then a r _ _ s x s' Hr); [|exact H|]; [done|]. cbn beta zeta. eauto with sync.
  - apply keeps_get_req. intros s r x s' Hr H.
    eapply (put_then a r _ _ s x s' Hr); [|exact H|]; [done|]. cbn beta zeta. eauto with sync.
Qed.
Hint Resolve keeps_keys_resize : sync.

Lemma keeps_run_cb a : keeps (run_cb nic_ok reg_ok stamp rkey page_size a).
Proof.
  apply keeps_get_req. intros s r x s' Hr H. destruct (r_keys_cb r); [|by eapply keeps_req_cb].
  revert H. apply keeps_get_req. clear s r Hr. intros s r y s2 Hr H.
  eapply (quiet_then _ _ s y s2 a r quiet_get H Hr). clear s Hr H. intros s1 s Hr H. destruct (r_status r =? PRISKV_STATUS_OK).
  - eapply (quiet_then _ _ s y s2 a r (quiet_lift _) H Hr). clear s Hr H. intros [[nkey keys]|] s Hr H; [by eapply keeps_keys_exit|].
    eapply (put_then a r _ _ s y s2 Hr); [|exact H|]; [done|]. cbn beta zeta. eauto with sync.
  - destruct (r_status r =? PRISKV_STATUS_VALUE_TOO_BIG); [by eapply keeps_keys_resize|by eapply keeps_keys_exit].
Qed.
Hint Resolve keeps_run_cb : sync.

Lemma keeps_complete_loop l : keeps (complete_loop nic_ok reg_ok stamp rkey page_size l).
Proof.
  induction l as [|a l IH]; simpl; [eauto with sync|]. apply keeps_bind; [eauto with sync|]. intros s. apply keeps_bind; [eauto with sync|].
  intros c. apply keeps_bind; [eauto with sync|]. intros _. apply keeps_get_req. intros s1 r x s' Hr H.
  refine (keeps_run _ _ _ _ _ H). eauto with sync.
Qed.

Lemma keeps_delay_loop l : keeps (delay_loop nic_ok reg_ok stamp rkey l).
Proof. induction l as [|a l IH]; simpl; eauto 20 with sync. Qed.
Hint Resolve keeps_complete_loop keeps_delay_loop : sync.

Lemma keeps_req_done a : keeps (priskv_rdma_req_done a).
Proof. apply keeps_get_req. intros s r x s' Hr H. destruct (_ =? _); [injection H as <- <-; by apply moves_same|injection H as <- <-; apply moves_refl]. Qed.
Hint Resolve keeps_req_done : sync.

Lemma keeps_handle_recv a st len n : keeps (priskv_rdma_handle_recv a st len n).
Proof.
  unfold priskv_rdma_handle_recv. apply keeps_if; [eauto with sync|]. apply keeps_get_req. intros s r x s' Hr H.
  eapply (put_then a r _ _ s x s' Hr); [|exact H|]; [done|]. cbn beta zeta. eauto with sync.
Qed.

Lemma keeps_handle_send slot : keeps (priskv_rdma_handle_send slot).
Proof.
  unfold priskv_rdma_handle_send. apply keeps_bind; [eauto with sync|]. intros s. apply keeps_bind; [eauto with sync|]. intros buf.
  apply keeps_bind; [eauto with sync|]. intros a. apply keeps_get_req. intros s1 r x s' Hr H.
  eapply (put_then a r _ _ s1 x s' Hr); [|exact H|]; [done|]. cbn beta zeta. eauto with sync.
Qed.
Hint Resolve keeps_handle_recv keeps_handle_send : sync.

Lemma keeps_handle_cq wcs : keeps (priskv_rdma_handle_cq nic_ok reg_ok stamp rkey page_size wcs).
Proof.
  induction wcs as [|[] wcs IH]; simpl; unfold priskv_rdma_req_complete, priskv_rdma_req_delay_send; eauto 20 with sync.
Qed.

Lemma keeps_process t : keeps (priskv_process nic_ok reg_ok stamp rkey page_size t).
Proof. unfold priskv_process. apply keeps_bind; [eauto with sync|]. intros _. apply keeps_handle_cq. Qed.
End client.

(** ** The cell of a call *)

(** No request has this identifier; or one has. *)
Definition unused (id : Z) (s : connection) : Prop := ∀ a r, cl_reqs s !! a = Some r → r_request_id r ≠ id.
Definition in_flight (id : Z) (s : connection) : Prop :=
  ∃ a r, cl_reqs s !! a = Some r ∧ r_request_id r = id ∧ ∀ b rb, cl_reqs s !! b = Some rb → r_request_id rb = id → b = a.

(** The calls with this identifier. *)
Definition calls_for (id : Z) (l : list call) : list call := filter (λ c, l_request_id c = id) l.

Lemma calls_for_app id l k : calls_for id (l ++ k) = calls_for id l ++ calls_for id k.
Proof. apply filter_app. Qed.

Lemma called_back_calls {Y} (cb : call → Y → Y) id l y : called_back cb id l y = foldl (λ y c, cb c y) y (calls_for id l).
Proof.
  unfold called_back, calls_for. revert y. induction l as [|c l IH]; intros y; simpl; [done|].
  destruct (Z.eqb_spec (l_request_id c) id); [rewrite filter_cons_True by done|rewrite filter_cons_False by done]; apply IH.
Qed.

Lemma calls_for_once id l : NoDup (l_req <$> l) → NoDup (l_req <$> calls_for id l).
Proof. intros Hnd. eapply sublist_NoDup; [exact Hnd|]. apply fmap_sublist, sublist_filter. Qed.

(** A request that is in flight stays so, or ends with one call. *)
Lemma flight_moves id s s' new :
  moved s s' new → in_flight id s → (in_flight id s' ∧ calls_for id new = []) ∨ (unused id s' ∧ ∃ c, calls_for id new = [c]).
Proof.
  intros [Hl Ho Hn Hk Hg] (a & r & Ha & Hid & Huniq).
  assert (Hreq : ∀ c, c ∈ calls_for id new → l_req c = Some a ∧ cl_reqs s' !! a = None).
  { intros c [Hc Hin]%list_elem_of_filter. destruct (Hn c Hin) as (b & rb & Hb & Hrb & He & Hnone).
    assert (b = a) as -> by (apply (Huniq b rb Hrb); congruence). done. }
  destruct (cl_reqs s' !! a) as [r'|] eqn:Ha'.
  - left. split.
    + destruct (Hk a r' Ha') as (r0 & Hr0 & He). exists a, r'. split_and!; [done|congruence|]. intros b rb Hb Hidb.
      destruct (Hk b rb Hb) as (rb0 & Hb0 & Heb). apply (Huniq b rb0 Hb0). congruence.
    + destruct (calls_for id new) as [|c l] eqn:Hc; [done|]. destruct (Hreq c) as [_ ?]; [left|done].
  - right. split.
    + intros b rb Hb Hidb. destruct (Hk b rb Hb) as (rb0 & Hb0 & Heb). assert (b = a) as -> by (apply (Huniq b rb0 Hb0); congruence). congruence.
    + destruct (Hg a r Ha Ha') as (c & Hc & Hca). destruct (calls_for id new) as [|c1 [|c2 l]] eqn:Hcalls; [exfalso|by exists c1|exfalso].
      * assert (c ∈ calls_for id new) as Hin; [|rewrite Hcalls in Hin; by apply elem_of_nil in Hin].
        apply list_elem_of_filter. split; [|done]. destruct (Hn c Hc) as (b & rb & Hb & Hrb & He & _). simplify_eq. done.
      * destruct (Hreq c1) as [H1 _]; [left|]. destruct (Hreq c2) as [H2 _]; [right; left|].
        pose proof (calls_for_once id new Ho) as Hnd. rewrite Hcalls in Hnd. simpl in Hnd. apply NoDup_cons in Hnd as [Hnd _].
        apply Hnd. rewrite H1, H2. left.
Qed.

Lemma with_cell_run {Y A} (cb : call → Y → Y) id (m : CM A) y s x s' new :
  m s = Ok (x, s') → cl_log s' = cl_log s ++ new → with_cell cb id m y s = Ok (foldl (λ y c, cb c y) y (calls_for id new), s').
Proof.
  intros Hm Hl. unfold with_cell. rewrite (bind_run get _ s s s) by done. rewrite (bind_run m _ s x s') by done.
  rewrite (bind_run get _ s' s' s') by done. rewrite Hl, drop_app_length, called_back_calls. done.
Qed.

(** ** A call *)

Section call.
Context (nic_ok alloc_ok reg_ok : Z → bool) (stamp : Z → list Z) (rkey : Z → Z) (page_size : Z).
Context (Hstamp : ∀ t, length (stamp t) = 16%nat) (Hreg : ∀ t, reg_ok t = true).
Notation handle := (handle nic_ok alloc_ok reg_ok stamp rkey page_size).
Notation send_command := (priskv_send_command nic_ok alloc_ok reg_ok stamp rkey).
Notation process := (priskv_process nic_ok reg_ok stamp rkey page_size).
Notation wait := (priskv_sync_wait nic_ok reg_ok stamp rkey page_size).
Notation reachable := (client_reachable nic_ok alloc_ok reg_ok stamp rkey page_size).

(** The events of a turn: whole responses, and messages that were sent. *)
Definition wc_event (wc : completion) : option event :=
  match wc with
  | WcRecv a st length len => if len =? sizeof_priskv_response then Some (EvRecv a st length len) else None
  | WcSend slot => Some (EvSend slot)
  | WcError => None
  end.
Definition turn_events (t : turn) : option (list event) :=
  evs ← mapM wc_event (tn_wcs t);
  Some (match tn_keys t with Some data => [EvKeysWritten data] | None => [] end ++ evs ++ [EvPolled]).

(** Every event can happen when it does. *)
Fixpoint events_ok (s : connection) (evs : list event) : Prop :=
  match evs with [] => True | ev :: evs => event_ok page_size s ev ∧ ∀ s', handle ev s = Ok (tt, s') → events_ok s' evs end.

Fixpoint turns_ok (s : connection) (turns : list turn) : Prop :=
  match turns with
  | [] => True
  | t :: turns => (∃ evs, turn_events t = Some evs ∧ events_ok s evs) ∧ ∀ x s', process t s = Ok (x, s') → turns_ok s' turns
  end.

Lemma handle_ok s I ev : reachable s I → event_ok page_size s ev → ∃ s', handle ev s = Ok (tt, s') ∧ reachable s' (I ∪ issues alloc_ok ev s).
Proof.
  intros Hr Hok. pose proof (client_reachable_inv _ _ _ _ _ _ Hstamp Hreg _ _ Hr) as Hi.
  destruct (client_handle_inv nic_ok alloc_ok reg_ok stamp rkey page_size Hstamp Hreg s I ev Hi Hok) as ([] & s' & Heq & _).
  exists s'. split; [done|]. by eapply cr_step.
Qed.

Lemma cq_ok wcs s I evs :
  reachable s I → mapM wc_event wcs = Some evs → events_ok s (evs ++ [EvPolled]) →
  ∃ x s', priskv_rdma_handle_cq nic_ok reg_ok stamp rkey page_size wcs s = Ok (x, s') ∧ reachable s' I.
Proof.
  revert s evs. induction wcs as [|wc wcs IH]; intros s evs Hr Hevs Hok.
  - injection Hevs as <-. destruct Hok as [Hp _]. destruct (handle_ok s I EvPolled Hr Hp) as (s' & Hs & Hr').
    unfold issues in Hr'. rewrite union_empty_r_L in Hr'. apply split_run in Hs as (x & s1 & Hs & He). injection He as <-. by exists x, s1.
  - simpl in Hevs. destruct (wc_event wc) as [ev|] eqn:Hwc; [|done]. simpl in Hevs.
    destruct (mapM wc_event wcs) as [evs'|] eqn:Hrest; [|done]. injection Hevs as <-. destruct Hok as [Hev Hok].
    destruct (handle_ok s I ev Hr Hev) as (s1 & Hs & Hr1). specialize (Hok s1 Hs).
    destruct wc as [a st len n|slot|]; simpl in Hwc; [|injection Hwc as <-|done].
    + destruct (Z.eqb_spec n sizeof_priskv_response) as [->|]; [|done]. injection Hwc as <-. unfold issues in Hr1. rewrite union_empty_r_L in Hr1.
      destruct (IH s1 evs' Hr1 eq_refl Hok) as (x & s2 & Hx & Hr2). exists x, s2. split; [|done].
      apply split_run in Hs as (ret & s1' & Hs & He). injection He as <-. simpl. rewrite (bind_run _ _ s ret s1' Hs).
      assert (ret = 0) as ->; [|done]. unfold priskv_rdma_handle_recv in Hs. simpl in Hs. by run Hs; injection Hs as <- _.
    + unfold issues in Hr1. rewrite union_empty_r_L in Hr1. destruct (IH s1 evs' Hr1 eq_refl Hok) as (x & s2 & Hx & Hr2). exists x, s2. split; [|done].
      simpl in Hs. simpl. by rewrite (bind_run _ _ s tt s1 Hs).
Qed.

Lemma process_ok t s I evs :
  reachable s I → turn_events t = Some evs → events_ok s evs → ∃ x s', process t s = Ok (x, s') ∧ reachable s' I.
Proof.
  intros Hr Ht Hok. unfold turn_events in Ht. destruct (mapM wc_event (tn_wcs t)) as [l|] eqn:Hl; [|done]. injection Ht as <-.
  unfold priskv_process. destruct (tn_keys t) as [data|].
  - destruct Hok as [Hev Hok]. destruct (handle_ok s I _ Hr Hev) as (s1 & Hs & Hr1). specialize (Hok s1 Hs). unfold issues in Hr1. rewrite union_empty_r_L in Hr1.
    simpl in Hs. rewrite (bind_run _ _ s tt s1 Hs). by eapply cq_ok.
  - rewrite (bind_run _ _ s tt s) by done. by eapply cq_ok.
Qed.

Section cell.
Context {Y : Type} (cb : call → Y → Y) (done : Y → bool) (Hdone : ∀ c y, done (cb c y) = true).

(** What a call that was issued in [s0] has got: its answer, or nothing yet. *)
Definition outcome (id : Z) (y0 : Y) (s0 s : connection) (r : option Y) : Prop :=
  ∃ new, cl_log s = cl_log s0 ++ new ∧
  match r with
  | Some y => unused id s ∧ ∃ c, calls_for id new = [c] ∧ y = cb c y0
  | None => in_flight id s ∧ calls_for id new = []
  end.

Lemma wait_done id turns y s : done y = true → wait cb done id turns y s = Ok (Some y, s).
Proof. intros Hd. destruct turns; simpl; by rewrite Hd. Qed.

Lemma wait_ok id turns y0 s0 s I :
  done y0 = false → reachable s I → turns_ok s turns → outcome id y0 s0 s None →
  ∃ r s', wait cb done id turns y0 s = Ok (r, s') ∧ outcome id y0 s0 s' r.
Proof.
  intros Hd. revert s. induction turns as [|t turns IH]; intros s Hr Hok Hout; simpl; rewrite Hd; [by exists None, s|].
  destruct Hok as [(evs & Ht & Hevs) Hnext]. destruct (process_ok t s I evs Hr Ht Hevs) as (x & s1 & Hp & Hr1). specialize (Hnext x s1 Hp).
  destruct (keeps_process nic_ok reg_ok stamp rkey page_size t s x s1 Hp) as [new Hmv]. destruct Hout as (old & Hold & Hfl & Hcalls).
  rewrite (bind_run _ _ s _ s1 (with_cell_run cb id _ y0 s x s1 new Hp (mv_log _ _ _ Hmv))).
  assert (Hlog : cl_log s1 = cl_log s0 ++ (old ++ new)) by (rewrite (mv_log _ _ _ Hmv), Hold; by rewrite app_assoc).
  destruct (flight_moves id s s1 new Hmv Hfl) as [[Hfl1 Hnone]|[Hun [c Hc]]].
  - rewrite Hnone. apply IH; [done|done|]. exists (old ++ new). split; [done|]. split; [done|]. by rewrite calls_for_app, Hcalls, Hnone.
  - rewrite Hc. simpl. rewrite wait_done by apply Hdone. eexists _, _. split; [done|]. exists (old ++ new). split; [done|]. split; [done|].
    exists c. by rewrite calls_for_app, Hcalls, Hc.
Qed.

Lemma send_outcome id key sgls timeout cmd s s1 :
  event_ok page_size s (EvCommand id key sgls timeout cmd) → cl_max_key_length s < 2 ^ 16 → unused id s → send_command id key sgls timeout cmd s = Ok (tt, s1) →
  ∃ new, cl_log s1 = cl_log s ++ new ∧ ((in_flight id s1 ∧ calls_for id new = []) ∨ (unused id s1 ∧ ∃ c, calls_for id new = [c])).
Proof.
  intros (_ & _ & Hkey & Hsgl & _ & _) Hmax Hun Hs. unfold priskv_send_command in Hs.
  apply split_run in Hs as (s2 & s3 & Hg & Hs). injection Hg as <- <-. cbv zeta in Hs.
  apply split_run in Hs as (u & s3 & Hg & Hs). apply lift_inv in Hg as [_ ->].
  assert (Hu : u16 (Z.of_nat (length key)) = Z.of_nat (length key)) by (unfold u16; apply Z.mod_small; lia). rewrite Hu in Hs.
  destruct (Z.eqb_spec (Z.of_nat (length key)) 0); [lia|]. destruct (Z.ltb_spec (cl_max_key_length s) (Z.of_nat (length key))); [lia|].
  destruct (Z.ltb_spec (cl_max_sgl s) (Z.of_nat (length sgls))); [lia|]. do 3 (rewrite (bind_run _ _ s tt s) in Hs by done).
  apply split_run in Hs as (o & s3 & Hnew & Hs). unfold priskv_rdma_req_new in Hnew. apply split_run in Hnew as (a & s4 & Ht & Hnew). injection Ht as <- <-.
  destruct (alloc_ok (cl_tick s)); cbn [negb] in Hnew.
  - apply split_run in Hnew as (s5 & s6 & Hg & Hnew). injection Hg as <- <-. cbv zeta in Hnew.
    apply split_run in Hnew as (u' & s5 & Hmems & Hnew).
    assert (cl_log s5 = cl_log s ∧ cl_reqs s5 = cl_reqs s) as [Hl5 Hr5] by (destruct (match sgls with [] => _ | _ => _ end); by injection Hmems as _ <-).
    apply split_run in Hnew as (u'' & s6 & Hset & Hnew). injection Hset as _ <-. injection Hnew as <- <-.
    apply split_run in Hs as (ret & s7 & Hsend & Hs). injection Hs as <-. destruct (keeps_req_send nic_ok reg_ok stamp rkey _ _ _ _ Hsend) as [new Hmv].
    exists new. split; [rewrite <- Hl5; apply (mv_log _ _ _ Hmv)|]. eapply flight_moves; [exact Hmv|]. eexists _, _. simpl. rewrite lookup_insert_eq, Hr5.
    split_and!; [done|done|]. intros b rb Hb Hidb. destruct (decide (b = cl_tick s)) as [->|Hne]; [done|].
    rewrite lookup_insert_ne in Hb by done. by destruct (Hun b rb Hb).
  - injection Hnew as <- <-. injection Hs as <-. exists [mk_call None id PRISKV_STATUS_NO_MEM ResNone]. split; [done|]. right. split; [exact Hun|].
    eexists. unfold calls_for. by rewrite filter_cons_True.
Qed.
End cell.
End call.

(** What the calls of the API are. *)
Lemma sync_calls_are_commands nic_ok alloc_ok reg_ok stamp rkey page_size id key sgl sgls timeout turns s :
  let command sgls timeout cmd := sync_common nic_ok reg_ok stamp rkey page_size id (priskv_send_command nic_ok alloc_ok reg_ok stamp rkey id key sgls timeout cmd) turns s in
  let status (r : res (option (Z * Z) * connection)) := match r with Ok (r, s) => Ok (fst <$> r, s) | Fault e => Fault e end in
  priskv_get nic_ok alloc_ok reg_ok stamp rkey page_size id key (sgl :: sgls) turns s = command (sgl :: sgls) 0 PRISKV_COMMAND_GET ∧
  priskv_set nic_ok alloc_ok reg_ok stamp rkey page_size id key (sgl :: sgls) timeout turns s = status (command (sgl :: sgls) timeout PRISKV_COMMAND_SET) ∧
  priskv_test nic_ok alloc_ok reg_ok stamp rkey page_size id key turns s = command [] 0 PRISKV_COMMAND_TEST ∧
  priskv_delete nic_ok alloc_ok reg_ok stamp rkey page_size id key turns s = status (command [] 0 PRISKV_COMMAND_DELETE) ∧
  priskv_expire nic_ok alloc_ok reg_ok stamp rkey page_size id key timeout turns s = status (command [] timeout PRISKV_COMMAND_EXPIRE) ∧
  priskv_nrkeys nic_ok alloc_ok reg_ok stamp rkey page_size id key turns s = command [] 0 PRISKV_COMMAND_NRKEYS ∧
  priskv_flush nic_ok alloc_ok reg_ok stamp rkey page_size id key turns s = command [] 0 PRISKV_COMMAND_FLUSH.
Proof. by split_and!. Qed.

(** A call without a scatter list is answered at once. *)
Lemma sync_get_empty nic_ok alloc_ok reg_ok stamp rkey page_size id key turns s :
  priskv_get nic_ok alloc_ok reg_ok stamp rkey page_size id key [] turns s =
  Ok (Some (PRISKV_STATUS_VALUE_EMPTY, 0), with_log (cl_log s ++ [mk_call None id PRISKV_STATUS_VALUE_EMPTY ResNone]) s).
Proof.
  unfold priskv_get, sync_common, sync_call. cbn [priskv_get_async].
  rewrite (bind_run _ _ s (Some (mk_sync PRISKV_STATUS_VALUE_EMPTY 0 true)) (with_log (cl_log s ++ [mk_call None id PRISKV_STATUS_VALUE_EMPTY ResNone]) s)); [done|].
  rewrite (bind_run _ _ s _ _ (with_cell_run priskv_common_sync_cb id (usercb id PRISKV_STATUS_VALUE_EMPTY) sync_start s tt _
    [mk_call None id PRISKV_STATUS_VALUE_EMPTY ResNone] eq_refl eq_refl)).
  unfold calls_for. rewrite filter_cons_True by done. by destruct turns.
Qed.

Definition length_of (res : result) : Z := match res with ResLength n => n | _ => 0 end.


(** ** Examples *)

Notation ex_sync := (sync_common yes yes ex_stamp (λ _, 7) 64).
Notation ex_send := (priskv_send_command yes yes yes ex_stamp (λ _, 7)).
Definition ex_turns : list turn := [mk_turn None [WcSend 0]; mk_turn None [WcRecv 1 0 9 32]].

(** The value has nine bytes. *)
Lemma ex_test :
  match priskv_test yes yes yes ex_stamp (λ _, 7) 64 5 [97] ex_turns (ex_connection 1) with Ok (r, s) => r = Some (0, 9) ∧ cl_reqs s = ∅ | Fault _ => False end.
Proof. vm_compute. done. Qed.

Definition ex_s1 : connection := ex_after [test_command 5 [97]] (ex_connection 1).
Definition ex_s2 : connection := ex_after [test_command 5 [97]; EvSend 0; EvPolled] (ex_connection 1).
Definition ex_s3 : connection := ex_after [test_command 5 [97]; EvSend 0; EvPolled; EvRecv 1 0 9 32] (ex_connection 1).

(** A step whose result is known. *)
Lemma known_step {A} (m : CM A) s x s1 (P : connection → Prop) : m s = Ok (x, s1) → P s1 → ∀ y s', m s = Ok (y, s') → P s'.
Proof. intros E HP y s' H. rewrite E in H. by injection H as _ <-. Qed.

Lemma ex_keys_ready s l : (∀ a r, cl_reqs s !! a = Some r → r_keys_cb r = false) → keys_ready 64 s l.
Proof. intros H a r Ha Hr Hk. by rewrite (H a r Hr) in Hk. Qed.

Lemma ex_turns_ok : turns_ok yes yes yes ex_stamp (λ _, 7) 64 ex_s1 ex_turns.
Proof.
  assert (Hk : ∀ s, bool_decide (map_Forall (λ _ r, r_keys_cb r = false) (cl_reqs s)) = true → event_ok 64 s EvPolled).
  { intros s H. apply bool_decide_eq_true in H. apply ex_keys_ready. intros a r Hr. by eapply H. }
  split; [eexists; split; [reflexivity|]; split|].
  - exists 1. eexists. split; [split; [vm_compute; split; [discriminate|reflexivity]|]|].
    + eexists. split; [vm_compute; reflexivity|]. split; [vm_compute; reflexivity|]. unfold free_slot. by vm_compute.
    + split; [vm_compute; reflexivity|]. split; [done|]. split; [vm_compute; by intros ?%not_elem_of_nil|done].
  - refine (known_step _ ex_s1 tt (ex_after [test_command 5 [97]; EvSend 0] (ex_connection 1)) _ _ _ tt); [vm_compute; reflexivity|].
    split; [apply Hk; vm_compute; reflexivity|]. intros s' _. exact I.
  - apply (known_step _ ex_s1 0 ex_s2); [vm_compute; reflexivity|]. split; [eexists; split; [reflexivity|]; split|intros y s' _; exact I].
    + eexists. split; [vm_compute; reflexivity|]. split; [vm_compute; by intros ?%not_elem_of_nil|done].
    + refine (known_step _ ex_s2 tt ex_s3 _ _ _ tt); [vm_compute; reflexivity|].
      split; [apply Hk; vm_compute; reflexivity|]. intros s' _. exact I.
Qed.


(** A key that is too long: the call returns at once, and its request, which is sent
    all the same, has the address of a stack frame that is gone: the response of the
    server will be written there. *)
Lemma sync_long_key_dangles :
  match priskv_test yes yes yes ex_stamp (λ _, 7) 64 5 (replicate 60 97) [] (ex_connection 1) with
  | Ok (r, s) => r = Some (PRISKV_STATUS_KEY_TOO_BIG, 0) ∧ r_request_id <$> (cl_reqs s !! 1) = Some 5
  | Fault _ => False
  end.
Proof. vm_compute. done. Qed.

(** The connection breaks while the call waits: it never returns. *)
Lemma sync_error_waits n :
  match priskv_test yes yes yes ex_stamp (λ _, 7) 64 5 [97] (replicate n (mk_turn None [WcError])) (ex_connection 1) with
  | Ok (r, s) => r = None
  | Fault _ => False
  end.
Proof.
  unfold priskv_test, sync_common, sync_call.
  assert (Hs : with_cell priskv_common_sync_cb 5 (priskv_test_async yes yes yes ex_stamp (λ _, 7) 5 [97]) sync_start (ex_connection 1) = Ok (sync_start, ex_s1))
    by (vm_compute; reflexivity).
  assert (Hw : ∀ n, priskv_sync_wait yes yes ex_stamp (λ _, 7) 64 priskv_common_sync_cb ys_done 5 (replicate n (mk_turn None [WcError])) sync_start ex_s1 = Ok (None, ex_s1)).
  { clear n. induction n as [|n IH]; [done|]. cbn [replicate priskv_sync_wait ys_done sync_start].
    rewrite (bind_run _ _ ex_s1 sync_start ex_s1); [exact IH|]. vm_compute. reflexivity. }
  rewrite (bind_run _ _ _ None ex_s1); [done|]. by rewrite (bind_run _ _ _ _ _ Hs).
Qed.
