(* ===== verification/Policy.v ===== *)
(** * Eviction policies of backends

    [server/backend/policy.c] registers policies and calls the one a backend
    chose; [server/backend/policy_lru.c] is the one there is: a list of keys, the
    most recent first, with a hash table from keys to nodes and a count of the
    reads in flight per key. The hash table of [uthash.h] is a finite map.

    An address is never handed out twice: [lru_next] is the next one. *)

From S2P Require Import Prelude Lists.

Record priskv_lru_node := mk_lru_node { ln_key : list Z; ln_ref_count : Z (* int *) }.

Record priskv_policy_lru := mk_lru {
  lru_list : list Z;
  lru_hashmap : gmap (list Z) Z;
  lru_nodes : gmap Z priskv_lru_node;
  lru_next : Z
}.

Definition lru_policy_create (addr : Z) : priskv_policy_lru := mk_lru [] ∅ ∅ addr.

Definition lru_node (lru : priskv_policy_lru) (a : Z) : res priskv_lru_node :=
  match lru_nodes lru !! a with Some n => Ok n | None => Fault UseAfterFree end.

Definition lru_policy_access (lru : priskv_policy_lru) (key : list Z) : res priskv_policy_lru :=
  match lru_hashmap lru !! key with
  | Some a =>
      l ← list_del (lru_list lru) a;
      Ok (mk_lru (list_add l a) (lru_hashmap lru) (lru_nodes lru) (lru_next lru))
  | None =>
      let a := lru_next lru in
      Ok (mk_lru (list_add (lru_list lru) a) (<[key := a]> (lru_hashmap lru))
            (<[a := mk_lru_node key 0]> (lru_nodes lru)) (a + 1))
  end.

Definition MAX_ATTEMPTS : Z := 128.

(** The [while] loop: [cold] are the nodes from the current one towards the
    head. *)
Fixpoint evict_scan (lru : priskv_policy_lru) (cold : list Z) (max_attempts : Z) : res (option Z) :=
  match cold with
  | [] => Ok None
  | a :: cold =>
      if 0 <? max_attempts then
        n ← lru_node lru a;
        if ln_ref_count n =? 0 then Ok (Some a) else evict_scan lru cold (max_attempts - 1)
      else Ok None
  end.

Definition lru_policy_evict (lru : priskv_policy_lru) : res (option (list Z) * priskv_policy_lru) :=
  victim ← evict_scan lru (reverse (lru_list lru)) MAX_ATTEMPTS;
  match victim with
  | None => Ok (None, lru)
  | Some a =>
      n ← lru_node lru a;
      l ← list_del (lru_list lru) a;
      Ok (Some (ln_key n),
          mk_lru l (delete (ln_key n) (lru_hashmap lru)) (delete a (lru_nodes lru)) (lru_next lru))
  end.

Definition lru_policy_del_key (lru : priskv_policy_lru) (key : list Z) : res priskv_policy_lru :=
  match lru_hashmap lru !! key with
  | None => Ok lru
  | Some a =>
      n ← lru_node lru a;
      l ← list_del (lru_list lru) a;
      Ok (mk_lru l (delete (ln_key n) (lru_hashmap lru)) (delete a (lru_nodes lru)) (lru_next lru))
  end.

Definition lru_policy_try_ref_key (lru : priskv_policy_lru) (key : list Z) : res (bool * priskv_policy_lru) :=
  match lru_hashmap lru !! key with
  | None => Ok (false, lru)
  | Some a =>
      n ← lru_node lru a;
      (* signed overflow is undefined *)
      assert! (ln_ref_count n <? 2 ^ 31 - 1) ;;
      l ← list_del (lru_list lru) a;
      Ok (true, mk_lru (list_add l a) (lru_hashmap lru)
                  (<[a := mk_lru_node (ln_key n) (ln_ref_count n + 1)]> (lru_nodes lru)) (lru_next lru))
  end.

Definition lru_policy_unref_key (lru : priskv_policy_lru) (key : list Z) : res priskv_policy_lru :=
  match lru_hashmap lru !! key with
  | None => Ok lru
  | Some a =>
      n ← lru_node lru a;
      if 0 <? ln_ref_count n then
        Ok (mk_lru (lru_list lru) (lru_hashmap lru)
              (<[a := mk_lru_node (ln_key n) (ln_ref_count n - 1)]> (lru_nodes lru)) (lru_next lru))
      else Ok lru
  end.

(** ** The registry *)

(** Names of the policies that are registered; registering one twice fails an
    assertion. *)
Definition priskv_policy_register (names : list (list Z)) (name : list Z) : res (list (list Z)) :=
  assert! forallb (λ n, negb (bool_decide (n = name))) names ;;
  Ok (names ++ [name]).

Definition priskv_policy_find (names : list (list Z)) (name : list Z) : option (list Z) :=
  snd <$> list_find (λ n, n = name) names.

(** ** What the policy means: keys with their readers, the most recent first *)

Notation recency := (list (list Z * Z)).

Definition readers (l : recency) (key : list Z) : option Z := (snd ∘ snd) <$> list_find (λ x, x.1 = key) l.
Definition without (l : recency) (key : list Z) : recency := filter (λ x, x.1 ≠ key) l.

Definition r_access (l : recency) (key : list Z) : recency := (key, default 0 (readers l key)) :: without l key.

(** The coldest key that nobody reads, among the coldest 128. *)
Definition r_victim (l : recency) : option (list Z) :=
  (fst ∘ snd) <$> list_find (λ x, x.2 = 0) (take (Z.to_nat MAX_ATTEMPTS) (reverse l)).

Definition r_unref (l : recency) (key : list Z) : recency :=
  (λ x, if decide (x.1 = key ∧ 0 < x.2) then (x.1, x.2 - 1) else x) <$> l.

(** ** Well-formed policies and what they hold *)

Definition node_pair (lru : priskv_policy_lru) (a : Z) : list Z * Z :=
  match lru_nodes lru !! a with Some n => (ln_key n, ln_ref_count n) | None => ([], 0) end.

Definition view (lru : priskv_policy_lru) : recency := node_pair lru <$> lru_list lru.

Record lru_wf (lru : priskv_policy_lru) : Prop := mk_lru_wf {
  lw_nodup : NoDup (lru_list lru);
  lw_nodes a : a ∈ lru_list lru ↔ is_Some (lru_nodes lru !! a);
  lw_hash key a : lru_hashmap lru !! key = Some a ↔ ∃ n, lru_nodes lru !! a = Some n ∧ ln_key n = key;
  lw_refs a n : lru_nodes lru !! a = Some n → 0 <= ln_ref_count n < 2 ^ 31;
  lw_fresh a : is_Some (lru_nodes lru !! a) → a < lru_next lru
}.

Lemma create_wf addr : lru_wf (lru_policy_create addr).
Proof.
  split; simpl.
  - constructor.
  - intros a. split; [set_solver|by intros []].
  - intros key a. rewrite lookup_empty. split; [done|]. by intros (n & Hn & _).
  - intros a n Hn. by rewrite lookup_empty in Hn.
  - intros a [n Hn]. by rewrite lookup_empty in Hn.
Qed.

(** A key has one node. *)
Lemma node_of_key lru key a b n m :
  lru_wf lru → lru_hashmap lru !! key = Some a → lru_nodes lru !! a = Some n → lru_nodes lru !! b = Some m →
  ln_key m = key → b = a.
Proof.
  intros Hw Hh Ha Hb Hk. assert (lru_hashmap lru !! key = Some b) as Hh2 by (apply (lw_hash _ Hw); eauto).
  congruence.
Qed.

Lemma filter_view lru l key a :
  (∀ x, x ∈ l → (node_pair lru x).1 = key ↔ x = a) →
  without (node_pair lru <$> l) key = node_pair lru <$> filter (λ x, x ≠ a) l.
Proof.
  unfold without. induction l as [|x l IH]; intros Hx; [done|].
  destruct (decide (x = a)) as [->|Hne].
  - rewrite fmap_cons, !filter_cons_False; [|naive_solver|rewrite (Hx a) by left; naive_solver].
    apply IH. intros y Hy. apply Hx. by right.
  - rewrite fmap_cons, !filter_cons_True, fmap_cons; [|done|rewrite (Hx x) by left; done].
    f_equal. apply IH. intros y Hy. apply Hx. by right.
Qed.

Lemma pair_of lru a n : lru_nodes lru !! a = Some n → node_pair lru a = (ln_key n, ln_ref_count n).
Proof. intros Hn. unfold node_pair. by rewrite Hn. Qed.

(** The key is there. *)
Lemma found lru key a :
  lru_wf lru → lru_hashmap lru !! key = Some a →
  ∃ n, lru_nodes lru !! a = Some n ∧ ln_key n = key ∧ a ∈ lru_list lru ∧
    readers (view lru) key = Some (ln_ref_count n) ∧
    without (view lru) key = node_pair lru <$> filter (λ x, x ≠ a) (lru_list lru).
Proof.
  intros Hw Hh. destruct (proj1 (lw_hash _ Hw key a) Hh) as (n & Hn & Hk). exists n.
  assert (a ∈ lru_list lru) as Hin by (apply (lw_nodes _ Hw); eauto).
  assert (∀ x, x ∈ lru_list lru → (node_pair lru x).1 = key ↔ x = a) as Hx.
  { intros x Hx. apply (lw_nodes _ Hw) in Hx as [m Hm]. rewrite (pair_of _ _ _ Hm). simpl. split.
    - intros Hkm. by eapply node_of_key.
    - intros ->. congruence. }
  split_and!; [done..| |by apply filter_view].
  unfold readers. destruct (list_find (λ x, x.1 = key) (view lru)) as [[i [k r]]|] eqn:Hf; simpl.
  - apply list_find_Some in Hf as (Hi & Hki & _). simpl in Hki. unfold view in Hi.
    rewrite list_lookup_fmap in Hi. destruct (lru_list lru !! i) as [x|] eqn:Hxi; [|done]. simpl in Hi.
    injection Hi as Hi. assert (x = a) as -> by (apply Hx; [by eapply list_elem_of_lookup_2|by rewrite Hi]).
    rewrite (pair_of _ _ _ Hn) in Hi. by simplify_eq.
  - apply list_find_None in Hf. rewrite Forall_forall in Hf. destruct (Hf (node_pair lru a)).
    + unfold view. by apply list_elem_of_fmap_2.
    + by apply Hx.
Qed.

Lemma not_found lru key :
  lru_wf lru → lru_hashmap lru !! key = None → key ∉ (view lru).*1.
Proof.
  intros Hw Hh Hin. apply list_elem_of_fmap in Hin as (x & -> & Hx).
  unfold view in Hx. apply list_elem_of_fmap in Hx as (a & -> & Ha).
  apply (lw_nodes _ Hw) in Ha as [n Hn]. rewrite (pair_of _ _ _ Hn) in Hh. simpl in Hh.
  assert (lru_hashmap lru !! ln_key n = Some a) by (apply (lw_hash _ Hw); eauto). congruence.
Qed.

Lemma readers_None l key : key ∉ l.*1 → readers l key = None.
Proof.
  intros Hk. unfold readers. destruct (list_find (λ x, x.1 = key) l) as [[i x]|] eqn:Hf; [|done].
  apply list_find_Some in Hf as (Hi & Hx & _). destruct Hk. rewrite <- Hx.
  apply list_elem_of_fmap_2. by eapply list_elem_of_lookup_2.
Qed.

Lemma without_None l key : key ∉ l.*1 → without l key = l.
Proof.
  intros Hk. unfold without. induction l as [|x l IH]; [done|].
  rewrite filter_cons_True by set_solver. f_equal. apply IH. set_solver.
Qed.

(** The readers of a key after every operation on the sequence. *)
Lemma readers_cons x l key : readers (x :: l) key = if decide (x.1 = key) then Some x.2 else readers l key.
Proof.
  unfold readers. simpl. destruct (decide (x.1 = key)); [done|]. by destruct (list_find _ l) as [[]|].
Qed.

Lemma readers_Some l key : is_Some (readers l key) ↔ key ∈ l.*1.
Proof.
  induction l as [|x l IH]; [split; [by intros []|set_solver]|]. rewrite readers_cons, fmap_cons, elem_of_cons, <- IH.
  destruct (decide (x.1 = key)); naive_solver.
Qed.

Lemma readers_without l k key : readers (without l k) key = if decide (k = key) then None else readers l key.
Proof.
  unfold without. induction l as [|x l IH]; [by destruct (decide _)|]. rewrite filter_cons, readers_cons.
  destruct (decide (x.1 ≠ k)) as [Hx|Hx]; [rewrite readers_cons, IH|rewrite IH];
    destruct (decide (x.1 = key)), (decide (k = key)); naive_solver congruence.
Qed.

Lemma readers_front l k r key : readers ((k, r) :: without l k) key = if decide (k = key) then Some r else readers l key.
Proof. rewrite readers_cons, readers_without. simpl. by destruct (decide (k = key)). Qed.

Lemma readers_access l k key :
  readers (r_access l k) key = if decide (k = key) then Some (default 0 (readers l k)) else readers l key.
Proof. apply readers_front. Qed.

Lemma readers_unref l k key :
  readers (r_unref l k) key = if decide (k = key) then (λ r, if decide (0 < r) then r - 1 else r) <$> readers l key else readers l key.
Proof.
  unfold r_unref. induction l as [|x l IH]; [by destruct (decide _)|]. rewrite fmap_cons, !readers_cons, IH.
  destruct (decide (x.1 = k ∧ 0 < x.2)) as [[H1 H2]|H]; simpl; destruct (decide (x.1 = key)), (decide (k = key)); subst; simpl;
    try done; try (f_equal; repeat case_decide; naive_solver).
Qed.

(** Nodes that are not touched look the same. *)
Lemma view_ext nodes (l : list Z) lru :
  (∀ a, a ∈ l → nodes !! a = lru_nodes lru !! a) →
  ∀ t h n, node_pair (mk_lru t h nodes n) <$> l = node_pair lru <$> l.
Proof.
  intros He t h n. apply list_fmap_ext. intros i a Hi. unfold node_pair. simpl.
  by rewrite He by (by eapply list_elem_of_lookup_2).
Qed.

Lemma filter_nodup (l : list Z) a : NoDup l → NoDup (filter (λ x, x ≠ a) l).
Proof. by apply NoDup_filter. Qed.

(** The list without a node, and with it in front. *)
Lemma front_wf lru a n m :
  lru_wf lru → lru_nodes lru !! a = Some n → ln_key m = ln_key n → 0 <= ln_ref_count m < 2 ^ 31 →
  lru_wf (mk_lru (a :: filter (λ x, x ≠ a) (lru_list lru)) (lru_hashmap lru) (<[a := m]> (lru_nodes lru)) (lru_next lru)).
Proof.
  intros [H1 H2 H3 H4 H5] Hn Hk Hr. split; simpl.
  - apply NoDup_cons. split; [rewrite elem_of_filter_ne; naive_solver|by apply filter_nodup].
  - intros x. rewrite elem_of_cons, elem_of_filter_ne, lookup_insert_is_Some, H2.
    destruct (decide (x = a)) as [->|]; naive_solver.
  - intros key x. rewrite H3. destruct (decide (a = x)) as [<-|Hne].
    + rewrite lookup_insert_eq. split; intros (y & Hy & Hky); [exists m|exists n]; naive_solver congruence.
    + by rewrite lookup_insert_ne.
  - intros x y Hy. apply lookup_insert_Some in Hy as [[<- <-]|[_ Hy]]; [done|by eapply H4].
  - intros x Hx. apply lookup_insert_is_Some in Hx as [<-|[_ Hx]]; eauto.
Qed.

Lemma drop_wf lru a n :
  lru_wf lru → lru_nodes lru !! a = Some n →
  lru_wf (mk_lru (filter (λ x, x ≠ a) (lru_list lru)) (delete (ln_key n) (lru_hashmap lru))
            (delete a (lru_nodes lru)) (lru_next lru)).
Proof.
  intros Hw Hn. pose proof Hw as [H1 H2 H3 H4 H5]. split; simpl.
  - by apply filter_nodup.
  - intros x. rewrite elem_of_filter_ne, H2. rewrite lookup_delete_is_Some. naive_solver.
  - intros key x. rewrite lookup_delete_Some, H3.
    assert (lru_hashmap lru !! ln_key n = Some a) as Ha by (apply H3; eauto). split.
    + intros [Hne (y & Hy & Hky)]. exists y. rewrite lookup_delete_ne; [done|]. intros <-. naive_solver congruence.
    + intros (y & Hy & Hky). apply lookup_delete_Some in Hy as [Hne Hy]. split; [|eauto].
      intros He. apply Hne. assert (x = a); [|done]. eapply node_of_key; [done|exact Ha|done|exact Hy|congruence].
  - intros x y Hy. apply lookup_delete_Some in Hy as [_ Hy]. eauto.
  - intros x Hx. apply lookup_delete_is_Some in Hx as [_ Hx]. eauto.
Qed.

(** ** Operations *)

Lemma access_spec lru key :
  lru_wf lru → ∃ lru', lru_policy_access lru key = Ok lru' ∧ lru_wf lru' ∧ view lru' = r_access (view lru) key.
Proof.
  intros Hw. unfold lru_policy_access, r_access. destruct (lru_hashmap lru !! key) as [a|] eqn:Hh.
  - destruct (found lru key a Hw Hh) as (n & Hn & Hk & Hin & Hr & Hwo). rewrite list_del_Ok by done.
    eexists. split; [done|]. split.
    + pose proof (front_wf lru a n n Hw Hn eq_refl (lw_refs _ Hw _ _ Hn)) as Hf. by rewrite insert_id in Hf.
    + rewrite Hr, Hwo. unfold view, list_add. simpl. f_equal. rewrite (pair_of _ _ n); [by rewrite Hk|done].
  - pose proof (not_found lru key Hw Hh) as Hnf. eexists. split; [done|].
    assert (lru_nodes lru !! lru_next lru = None) as Hfr.
    { destruct (lru_nodes lru !! lru_next lru) eqn:He; [|done]. pose proof (lw_fresh _ Hw (lru_next lru) ltac:(eauto)). lia. }
    assert (lru_next lru ∉ lru_list lru) as Hni by (rewrite (lw_nodes _ Hw), Hfr; by intros []).
    split.
    + destruct Hw as [H1 H2 H3 H4 H5]. split; simpl.
      * by apply NoDup_cons.
      * intros x. unfold list_add. rewrite elem_of_cons, lookup_insert_is_Some, H2.
        destruct (decide (x = lru_next lru)) as [->|]; naive_solver.
      * intros k x. destruct (decide (k = key)) as [->|Hne].
        -- rewrite lookup_insert_eq. split; [intros [= <-]; rewrite lookup_insert_eq; eauto|].
           intros (y & Hy & Hky). apply lookup_insert_Some in Hy as [[<- _]|[_ Hy]]; [done|].
           assert (lru_hashmap lru !! key = Some x) by (apply H3; eauto). congruence.
        -- rewrite lookup_insert_ne, H3 by done. split; intros (y & Hy & Hky); exists y; (split; [|done]).
           ++ rewrite lookup_insert_ne; [done|]. intros <-. congruence.
           ++ apply lookup_insert_Some in Hy as [[_ <-]|[_ Hy]]; [simpl in Hky; congruence|done].
      * intros x y Hy. apply lookup_insert_Some in Hy as [[_ <-]|[_ Hy]]; [simpl; lia|eauto].
      * intros x Hx. apply lookup_insert_is_Some in Hx as [<-|[_ Hx]]; [lia|]. specialize (H5 x Hx). lia.
    + rewrite readers_None, without_None by done. unfold view, list_add. cbn [lru_list]. rewrite fmap_cons. f_equal.
      * unfold node_pair. simpl. by rewrite lookup_insert_eq.
      * apply view_ext. intros a Ha. rewrite lookup_insert_ne; [done|]. by intros <-.
Qed.

Lemma dropped_view lru key a n :
  lru_wf lru → lru_hashmap lru !! key = Some a → lru_nodes lru !! a = Some n →
  view (mk_lru (filter (λ x, x ≠ a) (lru_list lru)) (delete (ln_key n) (lru_hashmap lru))
          (delete a (lru_nodes lru)) (lru_next lru)) = without (view lru) key.
Proof.
  intros Hw Hh Hn. destruct (found lru key a Hw Hh) as (_ & _ & _ & _ & _ & ->). apply view_ext.
  intros x Hx. apply elem_of_filter_ne in Hx as [_ Hx]. by rewrite lookup_delete_ne.
Qed.

Lemma del_key_spec lru key :
  lru_wf lru → ∃ lru', lru_policy_del_key lru key = Ok lru' ∧ lru_wf lru' ∧ view lru' = without (view lru) key.
Proof.
  intros Hw. unfold lru_policy_del_key. destruct (lru_hashmap lru !! key) as [a|] eqn:Hh.
  - destruct (found lru key a Hw Hh) as (n & Hn & Hk & Hin & _). unfold lru_node. rewrite Hn, Ok_bind.
    rewrite list_del_Ok by done. eexists. split; [done|]. split; [by apply drop_wf|by apply dropped_view].
  - eexists. split; [done|]. split; [done|]. rewrite without_None; [done|]. by apply not_found.
Qed.

Lemma evict_scan_spec lru : ∀ l n,
  (∀ a, a ∈ l → is_Some (lru_nodes lru !! a)) → 0 <= n →
  ∃ r, evict_scan lru l n = Ok r ∧
    snd <$> list_find (λ x, x.2 = 0) (take (Z.to_nat n) (node_pair lru <$> l)) = node_pair lru <$> r ∧
    match r with Some a => a ∈ l ∧ (node_pair lru a).2 = 0 | None => True end.
Proof.
  induction l as [|a l IH]; intros n Hl Hn; cbn [evict_scan].
  - exists None. by rewrite fmap_nil, take_nil.
  - destruct (Z.ltb_spec 0 n) as [Hp|]; [|replace n with 0 by lia; by exists None].
    destruct (Hl a ltac:(left)) as [x Hx]. unfold lru_node. rewrite Hx, Ok_bind.
    replace (Z.to_nat n) with (S (Z.to_nat (n - 1))) by lia. rewrite fmap_cons. cbn [take].
    destruct (Z.eqb_spec (ln_ref_count x) 0) as [H0|H0].
    + exists (Some a). split; [done|]. cbn [list_find]. rewrite (pair_of _ _ _ Hx), decide_True by done.
      split; [simpl; by rewrite (pair_of _ _ _ Hx)|]. split; [left|done].
    + destruct (IH (n - 1)) as (r & -> & Hr & Hm); [intros b Hb; apply Hl; by right|lia|].
      exists r. split; [done|]. split.
      * cbn [list_find]. rewrite (pair_of _ _ _ Hx), decide_False by done. rewrite <- Hr.
        destruct (list_find _ _) as [[i y]|]; done.
      * destruct r; [|done]. destruct Hm. split; [by right|done].
Qed.

Lemma evict_spec lru :
  lru_wf lru → ∃ k lru', lru_policy_evict lru = Ok (k, lru') ∧ lru_wf lru' ∧ k = r_victim (view lru) ∧
    view lru' = match k with Some key => without (view lru) key | None => view lru end.
Proof.
  intros Hw. unfold lru_policy_evict.
  destruct (evict_scan_spec lru (reverse (lru_list lru)) MAX_ATTEMPTS) as (r & -> & Hf & Hr);
    [intros a Ha; apply (lw_nodes _ Hw); by apply elem_of_reverse|done|].
  assert (r_victim (view lru) = fst <$> (node_pair lru <$> r)) as Hv.
  { unfold r_victim, view. rewrite <- fmap_reverse, <- Hf. by destruct (list_find _ _) as [[? []]|]. }
  rewrite Ok_bind. destruct r as [a|]; [|exists None, lru; by rewrite Hv].
  destruct Hr as [Hin _]. rewrite elem_of_reverse in Hin. pose proof Hin as [n Hn]%(lw_nodes _ Hw).
  unfold lru_node. rewrite Hn, Ok_bind, list_del_Ok by done. do 2 eexists. split; [done|].
  split; [by apply drop_wf|]. rewrite Hv. simpl. rewrite (pair_of _ _ _ Hn). simpl. split; [done|].
  apply dropped_view; [done|apply (lw_hash _ Hw); eauto|done].
Qed.

Lemma try_ref_spec lru key :
  lru_wf lru → default 0 (readers (view lru) key) < 2 ^ 31 - 1 →
  ∃ b lru', lru_policy_try_ref_key lru key = Ok (b, lru') ∧ lru_wf lru' ∧
    match readers (view lru) key with
    | Some r => b = true ∧ view lru' = (key, r + 1) :: without (view lru) key
    | None => b = false ∧ lru' = lru
    end.
Proof.
  intros Hw Hmax. unfold lru_policy_try_ref_key. destruct (lru_hashmap lru !! key) as [a|] eqn:Hh.
  - destruct (found lru key a Hw Hh) as (n & Hn & Hk & Hin & Hr & Hwo). rewrite Hr in Hmax |- *. simpl in Hmax.
    unfold lru_node. rewrite Hn, Ok_bind. rewrite (proj2 (Z.ltb_lt _ _)) by done. simpl. rewrite list_del_Ok by done.
    do 2 eexists. split; [done|]. pose proof (lw_refs _ Hw _ _ Hn). split; [by apply front_wf with n; simpl; [..|lia]|].
    split; [done|]. unfold view at 1, list_add. simpl. f_equal.
    + unfold node_pair. simpl. by rewrite lookup_insert_eq, Hk.
    + rewrite Hwo. apply view_ext. intros x Hx. apply elem_of_filter_ne in Hx as [_ Hx]. by rewrite lookup_insert_ne.
  - rewrite readers_None by (by apply not_found). by do 2 eexists.
Qed.

Lemma unref_view lru l key a n m :
  (∀ x, x ∈ l → (node_pair lru x).1 = key ↔ x = a) → lru_nodes lru !! a = Some n → ln_key n = key →
  m = (if 0 <? ln_ref_count n then mk_lru_node key (ln_ref_count n - 1) else n) →
  ∀ t h x, r_unref (node_pair lru <$> l) key = node_pair (mk_lru t h (<[a := m]> (lru_nodes lru)) x) <$> l.
Proof.
  intros Hx Hn Hk -> t h y. unfold r_unref. rewrite <- list_fmap_compose. apply list_fmap_ext.
  intros i x Hi. apply list_elem_of_lookup_2 in Hi. unfold compose.
  destruct (decide (x = a)) as [->|Hne].
  - rewrite (pair_of _ _ _ Hn). unfold node_pair. simpl. rewrite lookup_insert_eq.
    destruct (Z.ltb_spec 0 (ln_ref_count n)); [rewrite decide_True by done|rewrite decide_False by lia]; by rewrite ?Hk.
  - rewrite decide_False by (intros [Hk' _]; by apply Hx in Hk'). unfold node_pair. simpl. by rewrite lookup_insert_ne.
Qed.

Lemma unref_spec lru key :
  lru_wf lru → ∃ lru', lru_policy_unref_key lru key = Ok lru' ∧ lru_wf lru' ∧ view lru' = r_unref (view lru) key.
Proof.
  intros Hw. unfold lru_policy_unref_key. destruct (lru_hashmap lru !! key) as [a|] eqn:Hh.
  - destruct (found lru key a Hw Hh) as (n & Hn & Hk & Hin & _). unfold lru_node. rewrite Hn, Ok_bind.
    assert (∀ x, x ∈ lru_list lru → (node_pair lru x).1 = key ↔ x = a) as Hx.
    { intros x Hx. apply (lw_nodes _ Hw) in Hx as [m Hm]. rewrite (pair_of _ _ _ Hm). simpl.
      split; [intros ?; by eapply node_of_key|intros ->; congruence]. }
    pose proof (unref_view lru (lru_list lru) key a n _ Hx Hn Hk eq_refl) as Hu. pose proof (lw_refs _ Hw _ _ Hn).
    destruct (Z.ltb_spec 0 (ln_ref_count n)).
    + eexists. split; [done|]. rewrite Hk. split; [|unfold view; by erewrite Hu].
      destruct Hw as [H1 H2 H3 H4 H5]. split; simpl; [done|..].
      * intros x. rewrite H2, lookup_insert_is_Some. destruct (decide (a = x)) as [->|]; naive_solver.
      * intros k x. rewrite H3. destruct (decide (a = x)) as [<-|]; [|by rewrite lookup_insert_ne].
        rewrite lookup_insert_eq. split; intros (y & Hy & Hky); [|exists n]; naive_solver congruence.
      * intros x y Hy. apply lookup_insert_Some in Hy as [[_ <-]|[_ Hy]]; [simpl; lia|eauto].
      * intros x Hx'. apply lookup_insert_is_Some in Hx' as [<-|[_ Hx']]; eauto.
    + eexists. split; [done|]. split; [done|]. unfold view at 2. rewrite (Hu (lru_list lru) (lru_hashmap lru) (lru_next lru)).
      rewrite insert_id by done. by destruct lru.
  - eexists. split; [done|]. split; [done|]. pose proof (not_found lru key Hw Hh) as Hnf. unfold r_unref.
    symmetry. etrans; [|apply list_fmap_id]. apply list_fmap_ext. intros i x Hi.
    rewrite decide_False; [done|]. intros [Hk _]. apply Hnf. rewrite <- Hk. apply list_elem_of_fmap_2.
    by eapply list_elem_of_lookup_2.
Qed.

(** (C38) The LRU policy of a cache keeps its keys in order of use: an access puts
    its key first, a read counts itself and puts it first, the end of a read
    uncounts it, a deletion forgets the key; and an eviction takes the coldest key
    nobody reads, looking at the 128 coldest keys, or none. No operation follows
    a node that was freed, and list, hash table and nodes stay in step. *)
Theorem lru_policy_refines lru key :
  lru_wf lru →
  (∃ lru', lru_policy_access lru key = Ok lru' ∧ lru_wf lru' ∧ view lru' = r_access (view lru) key) ∧
  (∃ lru', lru_policy_del_key lru key = Ok lru' ∧ lru_wf lru' ∧ view lru' = without (view lru) key) ∧
  (∃ k lru', lru_policy_evict lru = Ok (k, lru') ∧ lru_wf lru' ∧ k = r_victim (view lru) ∧
     view lru' = match k with Some key => without (view lru) key | None => view lru end) ∧
  (∃ lru', lru_policy_unref_key lru key = Ok lru' ∧ lru_wf lru' ∧ view lru' = r_unref (view lru) key) ∧
  (default 0 (readers (view lru) key) < 2 ^ 31 - 1 →
   ∃ b lru', lru_policy_try_ref_key lru key = Ok (b, lru') ∧ lru_wf lru' ∧
     match readers (view lru) key with
     | Some r => b = true ∧ view lru' = (key, r + 1) :: without (view lru) key
     | None => b = false ∧ lru' = lru
     end).
Proof.
  intros Hw. split; [by apply access_spec|]. split; [by apply del_key_spec|]. split; [by apply evict_spec|].
  split; [by apply unref_spec|]. intros Hmax. by apply try_ref_spec.
Qed.

(** Two keys, the colder one being read: it is not evicted. *)
Definition ex_lru : res priskv_policy_lru :=
  lru ← lru_policy_access (lru_policy_create 1) [97];
  '(_, lru) ← lru_policy_try_ref_key lru [97];
  lru_policy_access lru [98].

Lemma lru_policy_refines_witness :
  ∃ lru lru', ex_lru = Ok lru ∧ view lru = [([98], 0); ([97], 1)] ∧ lru_policy_evict lru = Ok (Some [98], lru').
Proof.
  destruct (access_spec _ [97] (create_wf 1)) as (l1 & E1 & W1 & V1).
  destruct (try_ref_spec l1 [97] W1) as (b & l2 & E2 & W2 & V2); [by rewrite V1|]. rewrite V1 in V2. simpl in V2.
  destruct (access_spec l2 [98] W2) as (l3 & E3 & W3 & V3). destruct V2 as [_ V2].
  destruct (lru_policy_refines l3 [] W3) as (_ & _ & (k & l4 & E4 & _ & Hk & _) & _).
  rewrite V3, V2 in Hk. exists l3, l4. split.
  - unfold ex_lru. rewrite E1, Ok_bind, E2, Ok_bind. exact E3.
  - rewrite V3, V2. split; [reflexivity|]. rewrite E4, Hk. reflexivity.
Defined.
