(* ===== verification/Cluster.v ===== *)
(** * The cluster client

    [cluster/client/client.c]: a client of several servers. Metadata from a meta
    server assigns the 4096 slots to nodes; a key is hashed to a slot, and its
    requests go to the node of the slot. A timer looks for newer metadata: then
    requests are held back in a retry list until no request is in flight, the
    nodes are closed and opened again, and the held requests are sent.

    A pointer to a node is the allocation of the node array and the index in it;
    after the array is freed, its pointers are not followed ([UseAfterFree]). The key
    of a request is a pointer of the user's, [k_keys] what is behind such pointers.
    [k_open] has the clients of single nodes that are open, [k_sent] the requests
    they have not answered, [k_log] every call of a user callback. The meta server,
    the connections to nodes and the registration of memory answer through the
    functions of section [cluster], indexed by the number of calls so far. *)

From S2P Require Import Prelude State Utils Crc Protocol.

Import Crc16.

(** ** Data *)

Definition PRISKV_CLUSTER_SLOTS : Z := 4096.

Record priskvClusterMetaDataNodeSlotRange := mk_range { sr_start : Z; sr_end : Z }.
Record priskvClusterMetaDataNodeInfo := mk_info {
  ni_addr : list Z;
  ni_port : Z;
  ni_slotRanges : list priskvClusterMetaDataNodeSlotRange
}.
Record priskvClusterMetaDataInfo := mk_meta { md_version : Z; md_nodes : list priskvClusterMetaDataNodeInfo }.

Record priskvClusterNode := mk_node {
  nd_id : Z;
  nd_addr : list Z;
  nd_port : Z;
  nd_client : option Z;
  nd_refCount : Z
}.

Definition node_ptr : Type := Z * Z.

Inductive RequestType := GET | SET | TEST | DELETE.

(** [mem]: the address of a [priskvClusterMemory], or null. *)
Record priskvClusterSGL := mk_csgl { cs_iova : Z; cs_length : Z; cs_mem : option Z }.

(** The SGL for one node: the memory is what was registered with its client; a
    registration is named by that client. *)
Record priskv_sgl := mk_nsgl { ns_iova : Z; ns_length : Z; ns_mem : option Z }.

(** [rq_key]: the pointer of the user, who owns the string. *)
Record priskvClusterRequest := mk_creq {
  rq_sgl : list priskv_sgl;
  rq_cbarg : Z;
  rq_type : RequestType;
  rq_key : Z;
  rq_cluster_sgl : list priskvClusterSGL;
  rq_timeout : Z;
  rq_node : node_ptr
}.

(** What a node's client was asked, for request [st_req]. *)
Record sent := mk_sent {
  st_req : Z; st_client : Z; st_type : RequestType; st_key : list Z; st_sgl : list priskv_sgl; st_timeout : Z
}.

(** A call of a user's callback: the request behind it, unless there is none. *)
Record ccall := mk_ccall { cc_req : option Z; cc_cbarg : Z; cc_status : Z; cc_valuelen : Z }.

Record cluster := mk_cluster {
  k_slots : list (option node_ptr);
  k_nodes : list priskvClusterNode;
  k_alloc : Z;                          (* the allocation of [nodes] *)
  k_metaUpdating : bool;
  k_metaVersion : Z;
  k_memCtx : option Z;                  (* [memCtx->mem]; not set before the first registration *)
  k_mems : gmap Z (list Z);             (* each [priskvClusterMemory]: its [mems] *)
  k_open : gset Z;
  k_reqs : gmap Z priskvClusterRequest;
  k_retry : list Z;
  k_sent : list sent;
  k_log : list ccall;
  k_keys : gmap Z (list Z);             (* the strings the user has handed over, by address *)
  k_tick : Z
}.

Notation KM := (ST cluster).

(** Assignments. *)
Definition set_slots (x : list (option node_ptr)) (s : cluster) : cluster :=
  mk_cluster x (k_nodes s) (k_alloc s) (k_metaUpdating s) (k_metaVersion s) (k_memCtx s) (k_mems s) (k_open s)
    (k_reqs s) (k_retry s) (k_sent s) (k_log s) (k_keys s) (k_tick s).
Definition set_nodes (x : list priskvClusterNode) (s : cluster) : cluster :=
  mk_cluster (k_slots s) x (k_alloc s) (k_metaUpdating s) (k_metaVersion s) (k_memCtx s) (k_mems s) (k_open s)
    (k_reqs s) (k_retry s) (k_sent s) (k_log s) (k_keys s) (k_tick s).
Definition set_alloc (x : Z) (s : cluster) : cluster :=
  mk_cluster (k_slots s) (k_nodes s) x (k_metaUpdating s) (k_metaVersion s) (k_memCtx s) (k_mems s) (k_open s)
    (k_reqs s) (k_retry s) (k_sent s) (k_log s) (k_keys s) (k_tick s).
Definition set_updating (x : bool) (s : cluster) : cluster :=
  mk_cluster (k_slots s) (k_nodes s) (k_alloc s) x (k_metaVersion s) (k_memCtx s) (k_mems s) (k_open s)
    (k_reqs s) (k_retry s) (k_sent s) (k_log s) (k_keys s) (k_tick s).
Definition set_version (x : Z) (s : cluster) : cluster :=
  mk_cluster (k_slots s) (k_nodes s) (k_alloc s) (k_metaUpdating s) x (k_memCtx s) (k_mems s) (k_open s)
    (k_reqs s) (k_retry s) (k_sent s) (k_log s) (k_keys s) (k_tick s).
Definition set_mems (c : option Z) (x : gmap Z (list Z)) (s : cluster) : cluster :=
  mk_cluster (k_slots s) (k_nodes s) (k_alloc s) (k_metaUpdating s) (k_metaVersion s) c x (k_open s)
    (k_reqs s) (k_retry s) (k_sent s) (k_log s) (k_keys s) (k_tick s).
Definition set_open (x : gset Z) (s : cluster) : cluster :=
  mk_cluster (k_slots s) (k_nodes s) (k_alloc s) (k_metaUpdating s) (k_metaVersion s) (k_memCtx s) (k_mems s) x
    (k_reqs s) (k_retry s) (k_sent s) (k_log s) (k_keys s) (k_tick s).
Definition set_reqs (x : gmap Z priskvClusterRequest) (s : cluster) : cluster :=
  mk_cluster (k_slots s) (k_nodes s) (k_alloc s) (k_metaUpdating s) (k_metaVersion s) (k_memCtx s) (k_mems s) (k_open s)
    x (k_retry s) (k_sent s) (k_log s) (k_keys s) (k_tick s).
Definition set_retry (x : list Z) (s : cluster) : cluster :=
  mk_cluster (k_slots s) (k_nodes s) (k_alloc s) (k_metaUpdating s) (k_metaVersion s) (k_memCtx s) (k_mems s) (k_open s)
    (k_reqs s) x (k_sent s) (k_log s) (k_keys s) (k_tick s).
Definition set_sent (x : list sent) (s : cluster) : cluster :=
  mk_cluster (k_slots s) (k_nodes s) (k_alloc s) (k_metaUpdating s) (k_metaVersion s) (k_memCtx s) (k_mems s) (k_open s)
    (k_reqs s) (k_retry s) x (k_log s) (k_keys s) (k_tick s).
Definition set_log (x : list ccall) (s : cluster) : cluster :=
  mk_cluster (k_slots s) (k_nodes s) (k_alloc s) (k_metaUpdating s) (k_metaVersion s) (k_memCtx s) (k_mems s) (k_open s)
    (k_reqs s) (k_retry s) (k_sent s) x (k_keys s) (k_tick s).
Definition set_keys (x : gmap Z (list Z)) (s : cluster) : cluster :=
  mk_cluster (k_slots s) (k_nodes s) (k_alloc s) (k_metaUpdating s) (k_metaVersion s) (k_memCtx s) (k_mems s) (k_open s)
    (k_reqs s) (k_retry s) (k_sent s) (k_log s) x (k_tick s).
Definition ktick : KM Z := λ s,
  Ok (k_tick s, mk_cluster (k_slots s) (k_nodes s) (k_alloc s) (k_metaUpdating s) (k_metaVersion s) (k_memCtx s)
    (k_mems s) (k_open s) (k_reqs s) (k_retry s) (k_sent s) (k_log s) (k_keys s) (k_tick s + 1)).

(** Following a pointer. *)
Definition get_node (p : node_ptr) : KM priskvClusterNode := λ s,
  if p.1 =? k_alloc s then match rd (k_nodes s) p.2 with Ok n => Ok (n, s) | Fault e => Fault e end
  else Fault UseAfterFree.
Definition put_node (p : node_ptr) (n : priskvClusterNode) : KM unit := λ s,
  if p.1 =? k_alloc s then match wr (k_nodes s) p.2 n with Ok l => Ok (tt, set_nodes l s) | Fault e => Fault e end
  else Fault UseAfterFree.
Definition get_creq (a : Z) : KM priskvClusterRequest := λ s,
  match k_reqs s !! a with Some r => Ok (r, s) | None => Fault UseAfterFree end.
Definition get_key (p : Z) : KM (list Z) := λ s,
  match k_keys s !! p with Some k => Ok (k, s) | None => Fault UseAfterFree end.
Definition get_mem (m : Z) : KM (list Z) := λ s,
  match k_mems s !! m with Some l => Ok (l, s) | None => Fault UseAfterFree end.

(** ** The meta server *)

(** What [redisCommand] returns: a null pointer when the connection fails; or a
    reply, whose string [priskv_codec_decode] decodes or not. *)
Inductive meta_reply := NoReply | Reply (decoded : option priskvClusterMetaDataInfo).

(** The reply is followed without a test. *)
Definition priskvClusterMetaDataGetFromServer (reply : meta_reply) : res (option priskvClusterMetaDataInfo) :=
  match reply with NoReply => Fault NullDeref | Reply decoded => Ok decoded end.

(** ** Slots *)

Definition priskvClusterSlotAdd (node : node_ptr) (slot : Z) : KM unit :=
  s ← get;
  _ ← lift (cassert (slot <? PRISKV_CLUSTER_SLOTS));
  old ← lift (rd (k_slots s) slot);
  _ ← lift (cassert (bool_decide (old = None)));
  l ← lift (wr (k_slots s) slot (Some node));
  modify (set_slots l).

Definition priskvClusterSlotDelete (slot : Z) : KM unit :=
  s ← get;
  _ ← lift (cassert (slot <? PRISKV_CLUSTER_SLOTS));
  old ← lift (rd (k_slots s) slot);
  _ ← lift (cassert (bool_decide (old ≠ None)));
  l ← lift (wr (k_slots s) slot None);
  modify (set_slots l).

Definition LBRACE : Z := 123.
Definition RBRACE : Z := 125.

(** [for (; i < keylen; i++) if (key[i] == c) break;]: where it stops. *)
Fixpoint scan_for (fuel : nat) (key : list Z) (keylen c i : Z) : res Z :=
  if i <? keylen then
    match fuel with
    | O => Fault OutOfFuel
    | S fuel => x ← rd key i; if x =? c then Ok i else scan_for fuel key keylen c (i + 1)
    end
  else Ok i.

Definition clusterManagerKeyHashSlot (key : list Z) (keylen : Z) : res Z :=
  s ← scan_for (Z.to_nat keylen) key keylen LBRACE 0;
  if s =? keylen then h ← crc16 key keylen; Ok (Z.land h 0x0FFF) else
  e ← scan_for (Z.to_nat keylen) key keylen RBRACE (s + 1);
  if (e =? keylen) || (e =? s + 1) then h ← crc16 key keylen; Ok (Z.land h 0x0FFF) else
  h ← crc16 (drop (Z.to_nat (s + 1)) key) (e - s - 1);
  Ok (Z.land h 0x0FFF).

(** [key]: what is behind the pointer. *)
Definition priskvClusterGetNode (key : list Z) : KM (option node_ptr) :=
  slot ← lift (clusterManagerKeyHashSlot key (Z.of_nat (length key)));
  s ← get;
  lift (rd (k_slots s) (u16 slot)).

(** ** Nodes *)

Section cluster.
(** Whether a connection to a node succeeds; the longest key and the number of SGLs
    that the connection of a client allows; whether a client calls a request back
    before its function returns, with a status and a length. *)
Context (connect_ok : Z → bool) (limits : Z → Z * Z) (now : Z → option (Z * option Z)).

(** A client of one node is named by the number of the call that made it. *)
Definition priskvClusterNodeOpen (node : node_ptr) (nodeInfo : priskvClusterMetaDataNodeInfo) (id : Z) : KM bool :=
  t ← ktick;
  let client := if connect_ok t then Some t else None in
  _ ← put_node node (mk_node id (ni_addr nodeInfo) (ni_port nodeInfo) client 0);
  match client with
  | None => mret false
  | Some c => _ ← modify (λ s, set_open ({[c]} ∪ k_open s) s); mret true
  end.

(** [priskv_close] frees the client. *)
Definition priskvClusterNodeClose (node : node_ptr) : KM unit :=
  n ← get_node node;
  match nd_client n with
  | None => lift (Fault NullDeref)
  | Some c =>
      _ ← modify (λ s, set_open (k_open s ∖ {[c]}) s);
      put_node node (mk_node (nd_id n) [] 0 None (nd_refCount n))
  end.

Fixpoint add_slots (node : node_ptr) (n : nat) (slot : Z) : KM unit :=
  match n with
  | O => mret tt
  | S n => _ ← priskvClusterSlotAdd node slot; add_slots node n (slot + 1)
  end.

Fixpoint add_ranges (node : node_ptr) (ranges : list priskvClusterMetaDataNodeSlotRange) : KM unit :=
  match ranges with
  | [] => mret tt
  | r :: ranges =>
      _ ← lift (cassert ((sr_start r <=? sr_end r) && (sr_end r <? PRISKV_CLUSTER_SLOTS)));
      _ ← add_slots node (Z.to_nat (sr_end r - sr_start r + 1)) (sr_start r);
      add_ranges node ranges
  end.

Definition priskvClusterMetaDataNodeLoad (node : node_ptr) (nodeInfo : priskvClusterMetaDataNodeInfo) (id : Z) : KM bool :=
  ok ← priskvClusterNodeOpen node nodeInfo id;
  if negb ok then mret false else
  _ ← add_ranges node (ni_slotRanges nodeInfo);
  mret true.

Fixpoint delete_slots (node : node_ptr) (n : nat) (i : Z) : KM unit :=
  match n with
  | O => mret tt
  | S n =>
      s ← get;
      x ← lift (rd (k_slots s) i);
      _ ← (if bool_decide (x = Some node) then priskvClusterSlotDelete i else mret tt);
      delete_slots node n (i + 1)
  end.

Definition priskvClusterMetaDataNodeUnload (node : node_ptr) : KM unit :=
  _ ← delete_slots node (Z.to_nat PRISKV_CLUSTER_SLOTS) 0;
  priskvClusterNodeClose node.

(** A node of a new array that is not filled in yet. *)
Definition no_node : priskvClusterNode := mk_node 0 [] 0 None 0.

Fixpoint load_nodes (alloc i : Z) (nodes : list priskvClusterMetaDataNodeInfo) : KM unit :=
  match nodes with
  | [] => mret tt
  | nodeInfo :: nodes =>
      ok ← priskvClusterMetaDataNodeLoad (alloc, i) nodeInfo i;
      _ ← lift (cassert ok);
      load_nodes alloc (i + 1) nodes
  end.

Definition priskvClusterMetaDataLoad (metaDataInfo : priskvClusterMetaDataInfo) : KM unit :=
  t ← ktick;
  _ ← modify (λ s, set_alloc t (set_nodes (replicate (length (md_nodes metaDataInfo)) no_node) s));
  _ ← modify (set_version (md_version metaDataInfo));
  load_nodes t 0 (md_nodes metaDataInfo).

Fixpoint unload_nodes (alloc : Z) (n : nat) (i : Z) : KM unit :=
  match n with
  | O => mret tt
  | S n => _ ← priskvClusterMetaDataNodeUnload (alloc, i); unload_nodes alloc n (i + 1)
  end.

Definition priskvClusterMetaDataUnload : KM unit :=
  s ← get;
  _ ← unload_nodes (k_alloc s) (length (k_nodes s)) 0;
  t ← ktick;
  modify (λ s, set_alloc t (set_nodes [] s)).

(** ** Memory *)

Definition priskvClusterGetMemory (mem : option Z) (nodeIdx : Z) : KM (option Z) :=
  match mem with
  | None => mret None
  | Some m =>
      l ← get_mem m;
      _ ← lift (cassert (nodeIdx <? Z.of_nat (length l)));
      c ← lift (rd l nodeIdx);
      mret (Some c)
  end.

(** Registering with the client of every node. *)
Fixpoint reg_nodes (nodes : list priskvClusterNode) : res (list Z) :=
  match nodes with
  | [] => Ok []
  | n :: nodes =>
      match nd_client n with
      | None => Fault NullDeref
      | Some c => l ← reg_nodes nodes; Ok (c :: l)
      end
  end.

(** [priskv_dereg_memory] follows the client of the registration. *)
Fixpoint dereg_mems (mems : list Z) : KM unit :=
  match mems with
  | [] => mret tt
  | c :: mems =>
      s ← get;
      if decide (c ∈ k_open s) then dereg_mems mems else lift (Fault UseAfterFree)
  end.

(** [memCtx->mem] is read whether or not it has been set. *)
Definition memCtx_mem : KM Z :=
  s ← get; match k_memCtx s with Some m => mret m | None => lift (Fault UseAfterFree) end.

Definition priskvClusterRegMemoryInternal : KM unit :=
  m ← memCtx_mem;
  s ← get;
  l ← lift (reg_nodes (k_nodes s));
  _ ← get_mem m;
  modify (set_mems (Some m) (<[m := l]> (k_mems s))).

Definition priskvClusterDeregMemoryInternal : KM unit :=
  m ← memCtx_mem;
  l ← get_mem m;
  _ ← dereg_mems l;
  s ← get;
  modify (set_mems (Some m) (<[m := []]> (k_mems s))).

Definition priskvClusterRegMemory : KM Z :=
  m ← ktick;
  s ← get;
  l ← lift (reg_nodes (k_nodes s));
  _ ← modify (set_mems (Some m) (<[m := l]> (k_mems s)));
  mret m.

Definition priskvClusterDeregMemory (m : Z) : KM unit :=
  l ← get_mem m;
  _ ← dereg_mems l;
  s ← get;
  modify (set_mems (k_memCtx s) (delete m (k_mems s))).

(** ** Requests *)

Definition PRISKV_CLUSTER_STATUS_NO_SUCH_KEY : Z := 0x106.

(** The SGLs for a node. *)
Fixpoint node_sgls (node : node_ptr) (sgl : list priskvClusterSGL) : KM (list priskv_sgl) :=
  match sgl with
  | [] => mret []
  | x :: sgl =>
      n ← get_node node;
      m ← priskvClusterGetMemory (cs_mem x) (nd_id n);
      l ← node_sgls node sgl;
      mret (mk_nsgl (cs_iova x) (cs_length x) m :: l)
  end.

Definition priskvClusterRequestNew (node : node_ptr) (sgl : list priskvClusterSGL) (cbarg : Z) (type : RequestType)
    (key : Z) (timeout : Z) : KM Z :=
  a ← ktick;
  l ← node_sgls node sgl;
  _ ← modify (λ s, set_reqs (<[a := mk_creq l cbarg type key sgl timeout node]> (k_reqs s)) s);
  mret a.

Definition priskvClusterRequestFree (a : Z) : KM unit := modify (λ s, set_reqs (delete a (k_reqs s)) s).

Definition user_cb (req : option Z) (cbarg status valuelen : Z) : KM unit :=
  modify (λ s, set_log (k_log s ++ [mk_ccall req cbarg status valuelen]) s).

Definition add_ref (node : node_ptr) (d : Z) : KM unit :=
  n ← get_node node;
  put_node node (mk_node (nd_id n) (nd_addr n) (nd_port n) (nd_client n) (s32 (nd_refCount n + d))).

Definition priskvClusterRequestCallback (a status : Z) (result : option Z) : KM unit :=
  r ← get_creq a;
  let valuelen := if status =? PRISKV_STATUS_OK then default 0 result else 0 in
  s ← get;
  if k_metaUpdating s && negb (status =? PRISKV_STATUS_OK) then
    _ ← modify (λ s, set_retry (k_retry s ++ [a]) s);
    _ ← add_ref (rq_node r) (-1);
    _ ← get_key (rq_key r);   (* printed *)
    mret tt
  else
    _ ← user_cb (Some a) (rq_cbarg r) status valuelen;
    _ ← add_ref (rq_node r) (-1);
    priskvClusterRequestFree a.

(** Whether the request has a node; otherwise its user has been called back. *)
Definition priskvClusterUpdateRequest (a : Z) : KM bool :=
  r ← get_creq a;
  key ← get_key (rq_key r);
  node ← priskvClusterGetNode key;
  match node with
  | None => _ ← user_cb (Some a) (rq_cbarg r) PRISKV_CLUSTER_STATUS_NO_SUCH_KEY 0; mret false
  | Some node =>
      l ← node_sgls node (rq_cluster_sgl r);
      _ ← modify (λ s, set_reqs (<[a := mk_creq l (rq_cbarg r) (rq_type r) (rq_key r) (rq_cluster_sgl r) (rq_timeout r) node]> (k_reqs s)) s);
      mret true
  end.

(** [timeout] is an [int]. *)
Definition priskvClusterGetRequest (key : Z) (sgl : list priskvClusterSGL) (cbarg timeout : Z)
    (type : RequestType) : KM (option Z) :=
  k ← get_key key;
  node ← priskvClusterGetNode k;
  match node with
  | None => _ ← user_cb None cbarg PRISKV_CLUSTER_STATUS_NO_SUCH_KEY 0; mret None
  | Some node => a ← priskvClusterRequestNew node sgl cbarg type key (u64 timeout); mret (Some a)
  end.

(** [priskv_send_command] of a node's client [c], with the request as identifier.
    Its checks of the key and of the SGLs call back and do not return; what follows
    copies the SGLs, which are those of the request, and the key. *)
Definition node_send_command (a c : Z) (type : RequestType) (key : Z) (sgl : list priskv_sgl) (timeout : Z) : KM unit :=
  k ← get_key key;
  let keylen := u16 (Z.of_nat (length k)) in
  _ ← (if keylen =? 0 then priskvClusterRequestCallback a PRISKV_STATUS_KEY_EMPTY None else mret tt);
  _ ← (if (limits c).1 <? keylen then priskvClusterRequestCallback a PRISKV_STATUS_KEY_TOO_BIG None else mret tt);
  _ ← (if (limits c).2 <? Z.of_nat (length sgl) then priskvClusterRequestCallback a PRISKV_STATUS_INVALID_SGL None else mret tt);
  _ ← (match sgl with [] => mret tt | _ => _ ← get_creq a; mret tt end);
  t ← ktick;
  match now t with
  | Some (status, result) => priskvClusterRequestCallback a status result
  | None => modify (λ s, set_sent (k_sent s ++ [mk_sent a c type (take (Z.to_nat keylen) k) sgl timeout]) s)
  end.

(** The asynchronous functions of a node's client: GET and SET without a value are
    called back at once. *)
Definition node_async (a : Z) (r : priskvClusterRequest) : KM unit :=
  n ← get_node (rq_node r);
  match nd_client n with
  | None => lift (Fault NullDeref)
  | Some c =>
      let '(sgl, timeout) := match rq_type r with
                             | GET => (rq_sgl r, 0) | SET => (rq_sgl r, rq_timeout r)
                             | TEST | DELETE => ([], 0) end in
      let empty := match rq_type r with GET | SET => (length sgl =? 0)%nat | _ => false end in
      if empty then priskvClusterRequestCallback a PRISKV_STATUS_VALUE_EMPTY None
      else node_send_command a c (rq_type r) (rq_key r) sgl timeout
  end.

Definition priskvClusterSubmitRequest (a : Z) : KM unit :=
  r ← get_creq a;
  s ← get;
  if k_metaUpdating s then modify (λ s, set_retry (k_retry s ++ [a]) s)
  else
    _ ← add_ref (rq_node r) 1;
    node_async a r.

Definition submit_new (type : RequestType) (key : Z) (sgl : list priskvClusterSGL) (timeout cbarg : Z) : KM Z :=
  req ← priskvClusterGetRequest key sgl cbarg (s32 timeout) type;
  match req with
  | None => mret (-1)
  | Some a => _ ← priskvClusterSubmitRequest a; mret 0
  end.

Definition priskvClusterAsyncGet (key : Z) (sgl : list priskvClusterSGL) (cbarg : Z) : KM Z := submit_new GET key sgl 0 cbarg.
Definition priskvClusterAsyncSet (key : Z) (sgl : list priskvClusterSGL) (timeout cbarg : Z) : KM Z :=
  submit_new SET key sgl timeout cbarg.
Definition priskvClusterAsyncTest (key : Z) (cbarg : Z) : KM Z := submit_new TEST key [] 0 cbarg.
Definition priskvClusterAsyncDelete (key : Z) (cbarg : Z) : KM Z := submit_new DELETE key [] 0 cbarg.

(** ** Updating the metadata *)

(** The loop over the retry list. The next request is read from the current one
    after it has been removed from the list, which does not clear its links; a
    request without a node leaves a null pointer to follow. *)
Fixpoint retry_loop (l : list Z) : KM unit :=
  match l with
  | [] => mret tt
  | a :: l =>
      ok ← priskvClusterUpdateRequest a;
      if negb ok then lift (Fault NullDeref) else
      _ ← priskvClusterSubmitRequest a;
      _ ← get_creq a;
      s ← get;
      _ ← modify (set_retry (filter (λ x, x ≠ a) (k_retry s)));
      retry_loop l
  end.

Definition priskvClusterTimerHandler (reply : meta_reply) : KM unit :=
  newMeta ← lift (priskvClusterMetaDataGetFromServer reply);
  s ← get;
  match newMeta with
  | None => mret tt
  | Some newMeta =>
      if md_version newMeta <=? k_metaVersion s then mret tt else
      _ ← modify (set_updating true);
      if existsb (λ n, 0 <? nd_refCount n) (k_nodes s) then mret tt else
      _ ← priskvClusterMetaDataUnload;
      _ ← priskvClusterDeregMemoryInternal;
      _ ← priskvClusterMetaDataLoad newMeta;
      _ ← priskvClusterRegMemoryInternal;
      _ ← modify (set_updating false);
      s ← get;
      retry_loop (k_retry s)
  end.

(** ** Starting and ending *)

Definition no_cluster : cluster :=
  mk_cluster (replicate (Z.to_nat PRISKV_CLUSTER_SLOTS) None) [] (-1) false 0 None ∅ ∅ ∅ [] [] [] ∅ 0.

(** The connection to the meta server has been made. *)
Definition priskvClusterConnect (reply : meta_reply) : KM bool :=
  metaDataInfo ← lift (priskvClusterMetaDataGetFromServer reply);
  match metaDataInfo with
  | None => _ ← priskvClusterMetaDataUnload; mret false
  | Some metaDataInfo => _ ← priskvClusterMetaDataLoad metaDataInfo; mret true
  end.

Definition priskvClusterClose : KM unit := priskvClusterMetaDataUnload.
End cluster.

(** ** Synchronous operations *)

(** The synchronous functions of a node's client, by name of the client. *)
Record node_ops := mk_node_ops {
  priskv_get : Z → list Z → list priskv_sgl → Z * Z;
  priskv_set : Z → list Z → list priskv_sgl → Z → Z;
  priskv_test : Z → list Z → Z * Z;
  priskv_delete : Z → list Z → Z;
  priskv_keys : Z → list Z → Z * list (list Z * Z)
}.

Section sync.
Context (ops : node_ops).

Definition with_node {A} (key : Z) (none : A) (f : node_ptr → Z → list Z → KM A) : KM A :=
  k ← get_key key;
  node ← priskvClusterGetNode k;
  match node with
  | None => mret none
  | Some node =>
      n ← get_node node;
      match nd_client n with None => lift (Fault NullDeref) | Some c => f node c k end
  end.

Definition priskvClusterGet (key : Z) (sgl : list priskvClusterSGL) : KM (Z * Z) :=
  with_node key (PRISKV_CLUSTER_STATUS_NO_SUCH_KEY, 0) (λ node c k,
    a ← priskvClusterRequestNew node sgl 0 GET key 0;
    r ← get_creq a;
    let res := priskv_get ops c k (rq_sgl r) in
    _ ← priskvClusterRequestFree a;
    mret res).

Definition priskvClusterSet (key : Z) (sgl : list priskvClusterSGL) (timeout : Z) : KM Z :=
  with_node key PRISKV_CLUSTER_STATUS_NO_SUCH_KEY (λ node c k,
    a ← priskvClusterRequestNew node sgl 0 SET key timeout;
    r ← get_creq a;
    let res := priskv_set ops c k (rq_sgl r) timeout in
    _ ← priskvClusterRequestFree a;
    mret res).

Definition priskvClusterTest (key : Z) : KM (Z * Z) :=
  with_node key (PRISKV_CLUSTER_STATUS_NO_SUCH_KEY, 0) (λ _ c k, mret (priskv_test ops c k)).

Definition priskvClusterDelete (key : Z) : KM Z :=
  with_node key PRISKV_CLUSTER_STATUS_NO_SUCH_KEY (λ _ c k, mret (priskv_delete ops c k)).

(** [priskvAppendKeyset] copies the keys of one node behind those of the others. *)
Definition priskvAppendKeyset (dst src : list (list Z * Z)) : list (list Z * Z) := dst ++ src.

Fixpoint keys_nodes (nodes : list priskvClusterNode) (regex : list Z) (status : Z)
    (all : option (list (list Z * Z))) : res (Z * option (list (list Z * Z))) :=
  match nodes with
  | [] => Ok (status, all)
  | n :: nodes =>
      match nd_client n with
      | None => Fault NullDeref
      | Some c =>
          let '(status, keys) := priskv_keys ops c regex in
          if negb (status =? PRISKV_STATUS_OK) then keys_nodes nodes regex status all
          else keys_nodes nodes regex status
                 (Some (match all with None => keys | Some l => priskvAppendKeyset l keys end))
      end
  end.

Definition priskvClusterKeys (regex : list Z) : KM (Z * option (list (list Z * Z))) :=
  s ← get;
  lift (keys_nodes (k_nodes s) regex PRISKV_STATUS_OK None).
End sync.
