(* ===== verification/ClusterProps.v ===== *)
(** * The cluster client: routing, requests, and updates

    Which node a key goes to; that a client between updates keeps its requests,
    reference counts and memory straight and calls every request back once; and
    that an update of the metadata always follows freed clients. *)

From S2P Require Import Prelude State Utils CString Crc Protocol Cluster.

Import Crc16.

#[local] Arguments replicate : simpl never.
#[local] Arguments Z.to_nat : simpl never.

(** ** Slots *)

(** The part of a key that is hashed: what is between the first brace and the
    next closing one, unless that is empty. *)
Definition hash_tag (key : list Z) : list Z :=
  match strchr key LBRACE with
  | None => key
  | Some s =>
      match strchr (drop (S s) key) RBRACE with
      | None | Some O => key
      | Some n => take n (drop (S s) key)
      end
  end.

Definition slot_of (key : list Z) : Z := crc16_ref (hash_tag key) mod PRISKV_CLUSTER_SLOTS.

(** The scan stops where [strchr] finds the character, or at the end. *)
Lemma scan_for_spec key c fuel : ∀ i,
  (i <= length key)%nat → (length key - i <= fuel)%nat →
  scan_for fuel key (Z.of_nat (length key)) c (Z.of_nat i) =
  Ok (match strchr (drop i key) c with Some n => Z.of_nat (i + n) | None => Z.of_nat (length key) end).
Proof.
  induction fuel as [|fuel IH]; intros i Hi Hf; cbn [scan_for].
  - rewrite (proj2 (Z.ltb_ge _ _)) by lia. rewrite drop_ge by lia. simpl. do 2 f_equal. lia.
  - destruct (Z.ltb_spec (Z.of_nat i) (Z.of_nat (length key))) as [Hlt|Hge].
    + destruct (lookup_lt_is_Some_2 key i) as [x Hx]; [lia|].
      rewrite (proj2 (rd_Ok key (Z.of_nat i) x)) by (rewrite Nat2Z.id; split; [lia|done]). simpl.
      rewrite (drop_S key x i Hx). simpl. destruct (x =? c); [do 2 f_equal; lia|].
      replace (Z.of_nat i + 1) with (Z.of_nat (S i)) by lia. rewrite IH by lia.
      destruct (strchr (drop (S i) key) c); simpl; [|done]. do 2 f_equal. lia.
    + rewrite drop_ge by lia. simpl. do 2 f_equal. lia.
Qed.

Lemma land_slot h : Z.land h 0x0FFF = h mod PRISKV_CLUSTER_SLOTS.
Proof. change 0x0FFF with (Z.ones 12). rewrite Z.land_ones by lia. done. Qed.

Lemma slot_correct key : bytes key →
  clusterManagerKeyHashSlot key (Z.of_nat (length key)) = Ok (slot_of key).
Proof.
  intros Hb. unfold clusterManagerKeyHashSlot, slot_of, hash_tag. rewrite Nat2Z.id.
  pose proof (scan_for_spec key LBRACE (length key) 0 ltac:(lia) ltac:(lia)) as H1. change (Z.of_nat 0) with 0 in H1.
  rewrite H1. clear H1. rewrite drop_0. simpl.
  assert (∀ k l, bytes k → 0 <= l <= Z.of_nat (length k) →
    (h ← crc16 k l; Ok (Z.land h 0x0FFF)) = Ok (crc16_ref (take (Z.to_nat l) k) mod PRISKV_CLUSTER_SLOTS)) as Hcrc.
  { intros k l Hk Hl. rewrite crc16_spec by done. simpl. by rewrite land_slot. }
  assert ((h ← crc16 key (Z.of_nat (length key)); Ok (Z.land h 0x0FFF)) = Ok (crc16_ref key mod PRISKV_CLUSTER_SLOTS)) as Hall.
  { rewrite Hcrc by (done || lia). rewrite Nat2Z.id. by rewrite take_ge. }
  destruct (strchr key LBRACE) as [n|] eqn:Hs; [|by rewrite Z.eqb_refl].
  apply strchr_spec in Hs as [_ Hn]. apply lookup_lt_Some in Hn. simpl.
  rewrite (proj2 (Z.eqb_neq _ _)) by lia. replace (Z.of_nat n + 1) with (Z.of_nat (S n)) by lia.
  rewrite scan_for_spec by lia. rewrite Ok_bind.
  destruct (strchr (drop (S n) key) RBRACE) as [m|] eqn:He; [|by rewrite Z.eqb_refl].
  apply strchr_spec in He as [_ Hm]. apply lookup_lt_Some in Hm. rewrite length_drop in Hm.
  rewrite (proj2 (Z.eqb_neq _ _)) by lia. rewrite orb_false_l. destruct m as [|m].
  - by rewrite (proj2 (Z.eqb_eq _ _)) by lia.
  - rewrite (proj2 (Z.eqb_neq _ _)) by lia.
    replace (Z.of_nat (S n + S m) - Z.of_nat n - 1) with (Z.of_nat (S m)) by lia. rewrite Nat2Z.id.
    rewrite Hcrc; [by rewrite Nat2Z.id|by apply Forall_drop|rewrite length_drop; lia].
Qed.

Lemma slot_range key : 0 <= slot_of key < PRISKV_CLUSTER_SLOTS.
Proof. apply Z.mod_pos_bound. done. Qed.

(** The slot of a key is found without reading outside of the key, is one of
    the 4096, and is the CRC of its hash tag: keys with the same tag in braces have
    the same slot. *)
Theorem cluster_slot_correct key : bytes key →
  clusterManagerKeyHashSlot key (Z.of_nat (length key)) = Ok (slot_of key) ∧
  0 <= slot_of key < PRISKV_CLUSTER_SLOTS ∧
  (∀ prefix tag suffix, LBRACE ∉ prefix → RBRACE ∉ tag → tag ≠ [] →
     key = prefix ++ LBRACE :: tag ++ RBRACE :: suffix → slot_of key = crc16_ref tag mod PRISKV_CLUSTER_SLOTS).
Proof.
  intros Hb. split; [by apply slot_correct|]. split; [apply slot_range|]. intros prefix tag suffix Hp Ht Hne ->.
  unfold slot_of, hash_tag. rewrite strchr_app by done.
  assert (drop (S (length prefix)) (prefix ++ LBRACE :: tag ++ RBRACE :: suffix) = tag ++ RBRACE :: suffix) as ->.
  { rewrite drop_app, drop_ge by lia. by replace (S (length prefix) - length prefix)%nat with 1%nat by lia. }
  rewrite strchr_app by done. destruct tag as [|x tag]; [done|]. simpl length. by rewrite take_app_length' by done.
Qed.

Lemma cluster_slot_correct_witness :
  slot_of [97; LBRACE; 98; RBRACE; 99] = slot_of [LBRACE; 98; RBRACE].
Proof.
  destruct (cluster_slot_correct [97; LBRACE; 98; RBRACE; 99]) as (_ & _ & H1);
    [repeat constructor; unfold LBRACE, RBRACE; lia|].
  destruct (cluster_slot_correct [LBRACE; 98; RBRACE]) as (_ & _ & H2);
    [repeat constructor; unfold LBRACE, RBRACE; lia|].
  rewrite (H1 [97] [98] [99]), (H2 [] [98] []); try done; apply strchr_None; reflexivity.
Defined.

(** ** Loading metadata *)

Definition covers (slot : Z) (r : priskvClusterMetaDataNodeSlotRange) : bool :=
  (sr_start r <=? slot) && (slot <=? sr_end r).
Definition node_covers (slot : Z) (ni : priskvClusterMetaDataNodeInfo) : bool := existsb (covers slot) (ni_slotRanges ni).

(** The index of the node that has a slot. *)
Definition slot_owner (nodes : list priskvClusterMetaDataNodeInfo) (slot : Z) : option nat :=
  fst <$> list_find (λ ni, node_covers slot ni = true) nodes.

(** Ranges of slots that do not overlap. *)
Fixpoint disjoint_ranges (l : list priskvClusterMetaDataNodeSlotRange) : Prop :=
  match l with
  | [] => True
  | r :: l =>
      0 <= sr_start r <= sr_end r ∧ sr_end r < PRISKV_CLUSTER_SLOTS ∧
      Forall (λ r', sr_end r < sr_start r' ∨ sr_end r' < sr_start r) l ∧ disjoint_ranges l
  end.

Definition all_ranges (nodes : list priskvClusterMetaDataNodeInfo) : list priskvClusterMetaDataNodeSlotRange :=
  concat (ni_slotRanges <$> nodes).

Definition valid_meta (md : priskvClusterMetaDataInfo) : Prop := disjoint_ranges (all_ranges (md_nodes md)).

(** The slots are free that the ranges have. *)
Definition free_for (slots : list (option node_ptr)) (l : list priskvClusterMetaDataNodeSlotRange) : Prop :=
  ∀ i : nat, existsb (covers (Z.of_nat i)) l = true → slots !! i = Some None.

Lemma slots_size : Z.to_nat PRISKV_CLUSTER_SLOTS = 4096%nat.
Proof. reflexivity. Qed.

Lemma slot_add_spec p (slot : nat) s (Q : unit → cluster → Prop) :
  length (k_slots s) = Z.to_nat PRISKV_CLUSTER_SLOTS → k_slots s !! slot = Some None →
  Q tt (set_slots (<[slot := Some p]> (k_slots s)) s) → safe (priskvClusterSlotAdd p (Z.of_nat slot)) s Q.
Proof.
  intros Hl Hf HQ. pose proof (lookup_lt_Some _ _ _ Hf) as Hlt. rewrite Hl in Hlt. unfold PRISKV_CLUSTER_SLOTS in Hlt.
  unfold priskvClusterSlotAdd. step. apply safe_get.
  step. apply (safe_lift _ tt); [apply cassert_true, Z.ltb_lt; unfold PRISKV_CLUSTER_SLOTS; lia|].
  step. apply (safe_lift _ None); [apply rd_Ok; rewrite Nat2Z.id; split; [lia|done]|].
  step. apply (safe_lift _ tt); [done|].
  step. apply (safe_lift _ (<[slot := Some p]> (k_slots s))); [|by apply safe_modify].
  rewrite wr_Ok, Nat2Z.id; [done|]. rewrite Hl. unfold PRISKV_CLUSTER_SLOTS. lia.
Qed.

Lemma add_slots_spec p n : ∀ (slot : nat) s (Q : unit → cluster → Prop),
  length (k_slots s) = Z.to_nat PRISKV_CLUSTER_SLOTS →
  (∀ i, (slot <= i < slot + n)%nat → k_slots s !! i = Some None) →
  (∀ l, length l = Z.to_nat PRISKV_CLUSTER_SLOTS →
     (∀ i, l !! i = if decide (slot <= i < slot + n)%nat then Some (Some p) else k_slots s !! i) → Q tt (set_slots l s)) →
  safe (add_slots p n (Z.of_nat slot)) s Q.
Proof.
  induction n as [|n IH]; intros slot s Q Hl Hf HQ; cbn [add_slots].
  - apply safe_ret. replace s with (set_slots (k_slots s) s) by by destruct s. apply HQ; [done|].
    intros i. rewrite decide_False by lia. done.
  - step. apply slot_add_spec; [done|apply Hf; lia|]. replace (Z.of_nat slot + 1) with (Z.of_nat (S slot)) by lia.
    pose proof (lookup_lt_Some _ _ _ (Hf slot ltac:(lia))) as Hlt.
    apply IH; simpl.
    + by rewrite length_insert.
    + intros i Hi. rewrite list_lookup_insert_ne by lia. apply Hf. lia.
    + intros l Hll Hli. apply HQ; [done|]. intros i. rewrite Hli. destruct (decide (i = slot)) as [->|Hne].
      * rewrite decide_False, decide_True by lia. by apply list_lookup_insert_eq.
      * rewrite list_lookup_insert_ne by lia. by apply decide_ext; lia.
Qed.

Lemma covers_spec slot r : covers slot r = true ↔ sr_start r <= slot <= sr_end r.
Proof. unfold covers. by rewrite andb_true_iff, !Z.leb_le. Qed.

Lemma add_ranges_spec p ranges : ∀ s (Q : unit → cluster → Prop),
  length (k_slots s) = Z.to_nat PRISKV_CLUSTER_SLOTS → disjoint_ranges ranges → free_for (k_slots s) ranges →
  (∀ l, length l = Z.to_nat PRISKV_CLUSTER_SLOTS →
     (∀ i, l !! i = if existsb (covers (Z.of_nat i)) ranges then Some (Some p) else k_slots s !! i) → Q tt (set_slots l s)) →
  safe (add_ranges p ranges) s Q.
Proof.
  induction ranges as [|r ranges IH]; intros s Q Hl Hd Hf HQ; cbn [add_ranges].
  - apply safe_ret. replace s with (set_slots (k_slots s) s) by by destruct s. by apply HQ.
  - destruct Hd as (Hr1 & Hr2 & Hdis & Hd). step.
    apply (safe_lift _ tt); [apply cassert_true, andb_true_iff; rewrite Z.leb_le, Z.ltb_lt; lia|].
    step. rewrite <- (Z2Nat.id (sr_start r)) at 2 by lia. apply add_slots_spec; [done| |].
    + intros i Hi. apply Hf. simpl. rewrite (proj2 (covers_spec _ _)) by lia. done.
    + intros l Hll Hli. apply IH; simpl; [done|done| |].
      * intros i Hi. rewrite Hli, decide_False; [apply Hf; simpl; by rewrite Hi, orb_true_r|].
        intros Hin. apply existsb_exists in Hi as (r' & Hr' & Hc). apply covers_spec in Hc.
        rewrite Forall_forall in Hdis. apply list_elem_of_In in Hr'. specialize (Hdis r' Hr'). lia.
      * intros l' Hll' Hli'. apply HQ; [done|]. intros i. rewrite Hli'. simpl.
        destruct (existsb (covers (Z.of_nat i)) ranges) eqn:He; [by rewrite orb_true_r|]. rewrite Hli, orb_false_r.
        destruct (covers (Z.of_nat i) r) eqn:Hc.
        -- apply covers_spec in Hc. by rewrite decide_True by lia.
        -- rewrite decide_False; [done|]. intros Hin.
           rewrite (proj2 (covers_spec (Z.of_nat i) r)) in Hc by lia. done.
Qed.

(** What loading leaves alone. *)
Definition kept (s s' : cluster) : Prop :=
  k_alloc s' = k_alloc s ∧ k_metaUpdating s' = k_metaUpdating s ∧ k_metaVersion s' = k_metaVersion s ∧
  k_memCtx s' = k_memCtx s ∧ k_mems s' = k_mems s ∧ k_reqs s' = k_reqs s ∧ k_retry s' = k_retry s ∧
  k_sent s' = k_sent s ∧ k_log s' = k_log s ∧ k_keys s' = k_keys s ∧ k_tick s <= k_tick s'.

Lemma kept_trans s1 s2 s3 : kept s1 s2 → kept s2 s3 → kept s1 s3.
Proof. unfold kept. intros H1 H2. destruct_and!. split_and!; (congruence || lia). Qed.

(** A node as it is loaded. *)
Definition loaded (s : cluster) (i : nat) (ni : priskvClusterMetaDataNodeInfo) (n : priskvClusterNode) : Prop :=
  nd_id n = Z.of_nat i ∧ nd_addr n = ni_addr ni ∧ nd_port n = ni_port ni ∧ nd_refCount n = 0 ∧
  ∃ c, nd_client n = Some c ∧ c ∈ k_open s.

Lemma disjoint_app l1 l2 : disjoint_ranges (l1 ++ l2) →
  disjoint_ranges l1 ∧ disjoint_ranges l2 ∧
  ∀ slot, existsb (covers slot) l1 = true → existsb (covers slot) l2 = false.
Proof.
  induction l1 as [|r l1 IH]; simpl; [done|]. intros (H1 & H2 & H3 & H4). apply Forall_app in H3 as [H3 H3'].
  destruct (IH H4) as (IH1 & IH2 & IH3). split; [done|]. split; [done|]. intros slot.
  rewrite orb_true_iff. intros [Hc|Hc]; [|by apply IH3]. apply covers_spec in Hc.
  apply not_true_is_false. intros (r' & Hr' & Hc')%existsb_exists. apply covers_spec in Hc'.
  rewrite Forall_forall in H3'. apply list_elem_of_In in Hr'. specialize (H3' r' Hr'). lia.
Qed.

Lemma existsb_app {A} (f : A → bool) l1 l2 : existsb f (l1 ++ l2) = existsb f l1 || existsb f l2.
Proof. induction l1 as [|x l1 IH]; simpl; [done|]. by rewrite IH, orb_assoc. Qed.

(** No node has a slot that no range has. *)
Lemma owner_cons ni nodes slot :
  slot_owner (ni :: nodes) slot = if node_covers slot ni then Some O else S <$> slot_owner nodes slot.
Proof.
  unfold slot_owner. simpl. destruct (node_covers slot ni) eqn:Hc; [by rewrite decide_True|].
  rewrite decide_False by done. by destruct (list_find _ _) as [[? ?]|].
Qed.

Lemma owner_range nodes slot : existsb (covers slot) (all_ranges nodes) = false → slot_owner nodes slot = None.
Proof.
  induction nodes as [|ni nodes IH]; [done|]. unfold all_ranges. simpl. rewrite existsb_app, orb_false_iff.
  intros [H1 H2]. rewrite owner_cons. unfold node_covers. rewrite H1. by rewrite IH.
Qed.

Section load.
Context (connect_ok : Z → bool) (Hconn : ∀ t, connect_ok t = true).

Lemma node_load_spec alloc (i : nat) ni s (Q : bool → cluster → Prop) :
  k_alloc s = alloc → (i < length (k_nodes s))%nat →
  length (k_slots s) = Z.to_nat PRISKV_CLUSTER_SLOTS → disjoint_ranges (ni_slotRanges ni) →
  free_for (k_slots s) (ni_slotRanges ni) →
  (∀ s' n, kept s s' → k_open s ⊆ k_open s' → k_nodes s' = <[i := n]> (k_nodes s) → loaded s' i ni n →
     length (k_slots s') = Z.to_nat PRISKV_CLUSTER_SLOTS →
     (∀ j, k_slots s' !! j = if node_covers (Z.of_nat j) ni then Some (Some (alloc, Z.of_nat i)) else k_slots s !! j) →
     Q true s') →
  safe (priskvClusterMetaDataNodeLoad connect_ok (alloc, Z.of_nat i) ni (Z.of_nat i)) s Q.
Proof.
  intros Ha Hi Hl Hd Hf HQ. unfold priskvClusterMetaDataNodeLoad, priskvClusterNodeOpen. step. step.
  eexists _, _. split; [done|]. rewrite Hconn. step. eexists tt, _.
  split. { unfold put_node. simpl. rewrite Ha, Z.eqb_refl, wr_Ok by lia. rewrite Nat2Z.id. reflexivity. }
  step. apply safe_modify, safe_ret. simpl negb. cbv iota. step. apply add_ranges_spec; simpl; [done..|].
  intros l Hll Hli. apply safe_ret. eapply HQ; simpl; [|set_solver|reflexivity| |done|done].
  - split_and!; simpl; (done || lia).
  - split_and!; simpl; try done. eexists. split; [done|]. set_solver.
Qed.

Lemma load_nodes_spec alloc nodes : ∀ (i : nat) s (Q : unit → cluster → Prop),
  k_alloc s = alloc → length (k_nodes s) = (i + length nodes)%nat →
  length (k_slots s) = Z.to_nat PRISKV_CLUSTER_SLOTS →
  disjoint_ranges (all_ranges nodes) → free_for (k_slots s) (all_ranges nodes) →
  (∀ s', kept s s' → k_open s ⊆ k_open s' → length (k_nodes s') = length (k_nodes s) →
     (∀ j, (j < i)%nat → k_nodes s' !! j = k_nodes s !! j) →
     (∀ j ni, nodes !! j = Some ni → ∃ n, k_nodes s' !! (i + j)%nat = Some n ∧ loaded s' (i + j) ni n) →
     length (k_slots s') = Z.to_nat PRISKV_CLUSTER_SLOTS →
     (∀ j, k_slots s' !! j = match slot_owner nodes (Z.of_nat j) with
                             | Some k => Some (Some (alloc, Z.of_nat (i + k))) | None => k_slots s !! j end) →
     Q tt s') →
  safe (load_nodes connect_ok alloc (Z.of_nat i) nodes) s Q.
Proof.
  induction nodes as [|ni nodes IH]; intros i s Q Ha Hn Hl Hd Hf HQ; cbn [load_nodes].
  - apply safe_ret, HQ; [split_and!; (done || lia)|done..].
  - change (all_ranges (ni :: nodes)) with (ni_slotRanges ni ++ all_ranges nodes) in Hd, Hf. simpl in Hn. apply disjoint_app in Hd as (Hd1 & Hd2 & Hd3).
    step. apply node_load_spec; [done|lia|done|done| |].
    { intros j Hj. apply Hf. by rewrite existsb_app, Hj. }
    intros s1 n Hk Ho Hns Hln Hls Hsl. step. apply (safe_lift _ tt); [done|].
    replace (Z.of_nat i + 1) with (Z.of_nat (S i)) by lia. pose proof Hk as (Hk1 & _).
    apply IH; [congruence|rewrite Hns, length_insert; lia|done|done| |].
    { intros j Hj. rewrite Hsl. destruct (node_covers (Z.of_nat j) ni) eqn:Hc.
      - by rewrite (Hd3 _ Hc) in Hj.
      - apply Hf. by rewrite existsb_app, Hj, orb_true_r. }
    intros s' Hk' Ho' Hns' Hold Hnew Hls' Hsl'. apply HQ.
    + by eapply kept_trans.
    + by etrans.
    + rewrite Hns', Hns. apply length_insert.
    + intros j Hj. rewrite Hold, Hns by lia. by rewrite list_lookup_insert_ne by lia.
    + intros [|j] ni'; simpl.
      * intros [= <-]. exists n. rewrite Nat.add_0_r, Hold, Hns by lia. rewrite list_lookup_insert_eq by lia. split; [done|].
        destruct Hln as (? & ? & ? & ? & c & ? & ?). split_and!; try done. exists c. split; [done|]. by apply Ho'.
      * intros Hj. destruct (Hnew j ni' Hj) as (n' & Hn' & Hl'). exists n'. by rewrite Nat.add_succ_r.
    + done.
    + intros j. rewrite Hsl', Hsl, owner_cons. destruct (node_covers (Z.of_nat j) ni) eqn:Hc.
      * rewrite owner_range by (by apply Hd3). by rewrite Nat.add_0_r.
      * destruct (slot_owner nodes (Z.of_nat j)); simpl; [|done]. do 3 f_equal. lia.
Qed.
End load.

(** ** Requests between updates *)

Section requests.
Context (md : priskvClusterMetaDataInfo).

Definition owner (key : list Z) : option nat := slot_owner (md_nodes md) (slot_of key).

Definition clients (s : cluster) : list (option Z) := nd_client <$> k_nodes s.

(** The requests a node has been sent and has not answered. *)
Definition in_flight (i : nat) (l : list sent) : Z := Z.of_nat (length (filter (λ x, owner (st_key x) = Some i) l)).

(** An SGL of a node with client [c]: its memory is registered with [c]. *)
Definition sgl_for (c : Z) (x : priskv_sgl) : Prop := ns_mem x = None ∨ ns_mem x = Some c.

(** The request is for the node that owns its key, with memory of that node. *)
Definition routed (s : cluster) (r : priskvClusterRequest) : Prop :=
  ∃ key i c, k_keys s !! rq_key r = Some key ∧ bytes key ∧ owner key = Some i ∧ rq_node r = (k_alloc s, Z.of_nat i) ∧
    clients s !! i = Some (Some c) ∧ Forall (sgl_for c) (rq_sgl r).

(** What was sent is the request, to the client of its node. *)
Definition sent_for (s : cluster) (x : sent) (r : priskvClusterRequest) : Prop :=
  k_keys s !! rq_key r = Some (st_key x) ∧ st_type x = rq_type r ∧
  ∃ i, owner (st_key x) = Some i ∧ clients s !! i = Some (Some (st_client x)) ∧ Forall (sgl_for (st_client x)) (st_sgl x).

Definition node_fine (s : cluster) (i : nat) (n : priskvClusterNode) : Prop :=
  nd_id n = Z.of_nat i ∧ nd_refCount n = in_flight i (k_sent s) ∧ ∃ c, nd_client n = Some c ∧ c ∈ k_open s.

(** [x]: a request in hand, neither sent nor held back. [issued]: all requests so
    far. *)
Record kinv (s : cluster) (x : option Z) (issued : gset Z) : Prop := mk_kinv {
  ki_size : length (k_nodes s) = length (md_nodes md);
  ki_slots_size : length (k_slots s) = Z.to_nat PRISKV_CLUSTER_SLOTS;
  ki_slots (j : nat) : (j < Z.to_nat PRISKV_CLUSTER_SLOTS)%nat →
    k_slots s !! j = Some ((λ k : nat, (k_alloc s, Z.of_nat k)) <$> slot_owner (md_nodes md) (Z.of_nat j));
  ki_nodes i n : k_nodes s !! i = Some n → node_fine s i n;
  ki_mems m l : k_mems s !! m = Some l → Some <$> l = clients s;
  ki_reqs a r : k_reqs s !! a = Some r → routed s r ∧ a < k_tick s ∧
    (x ≠ Some a → (a ∈ k_retry s ∧ a ∉ st_req <$> k_sent s) ∨ (a ∉ k_retry s ∧ a ∈ st_req <$> k_sent s));
  ki_hand a : x = Some a → is_Some (k_reqs s !! a) ∧ a ∉ k_retry s ∧ a ∉ st_req <$> k_sent s;
  ki_retry : NoDup (k_retry s) ∧ ∀ a, a ∈ k_retry s → is_Some (k_reqs s !! a);
  ki_sent_nodup : NoDup (st_req <$> k_sent s);
  ki_sent y : y ∈ k_sent s → ∃ r, k_reqs s !! st_req y = Some r ∧ sent_for s y r;
  ki_log : NoDup (omap cc_req (k_log s));
  ki_called a : a ∈ omap cc_req (k_log s) → k_reqs s !! a = None ∧ a < k_tick s;
  ki_issued a : a ∈ issued ↔ is_Some (k_reqs s !! a) ∨ a ∈ omap cc_req (k_log s)
}.

(** Changing reference counts. *)
Definition ref_node (d : Z) (n : priskvClusterNode) : priskvClusterNode :=
  mk_node (nd_id n) (nd_addr n) (nd_port n) (nd_client n) (nd_refCount n + d).

Definition bump (i : nat) (d : Z) (s : cluster) : cluster := set_nodes (alter (ref_node d) i (k_nodes s)) s.

Lemma bump_clients i d s : clients (bump i d s) = clients s.
Proof.
  unfold clients, bump. simpl. apply list_eq. intros j. rewrite !list_lookup_fmap, list_lookup_alter.
  destruct (decide (i = j)) as [<-|]; [|done]. by destruct (k_nodes s !! i).
Qed.

Lemma bump_undo i s : bump i (-1) (bump i 1 s) = s.
Proof.
  unfold bump. simpl. destruct s as [slots nodes]. unfold set_nodes. simpl. f_equal. apply list_eq. intros j. rewrite !list_lookup_alter.
  destruct (decide (i = j)) as [<-|Hne]; [|done].
  rewrite ?decide_True by done. destruct (nodes !! i) as [[]|]; simpl; [|done].
  unfold ref_node. simpl. do 2 f_equal. lia.
Qed.

Lemma bump_node i d s j n : k_nodes (bump i d s) !! j = Some n →
  ∃ n0, k_nodes s !! j = Some n0 ∧ n = if decide (i = j) then ref_node d n0 else n0.
Proof.
  unfold bump. simpl. rewrite list_lookup_alter. destruct (decide (i = j)) as [<-|]; [|by eauto].
  intros (n0 & -> & ->)%fmap_Some. by eauto.
Qed.

Lemma safe_add_ref i d n s (Q : unit → cluster → Prop) :
  k_nodes s !! i = Some n → 0 <= nd_refCount n + d < 2 ^ 31 → Q tt (bump i d s) →
  safe (add_ref (k_alloc s, Z.of_nat i) d) s Q.
Proof.
  intros Hn Hd HQ. pose proof (lookup_lt_Some _ _ _ Hn). unfold add_ref. step. exists n, s. split.
  { unfold get_node. simpl. rewrite Z.eqb_refl. by rewrite (proj2 (rd_Ok _ _ n)) by (rewrite Nat2Z.id; split; [lia|done]). }
  exists tt, (bump i d s). split; [|done]. unfold put_node. simpl. rewrite Z.eqb_refl, wr_Ok, Nat2Z.id by lia.
  rewrite s32_small by done. do 2 f_equal. unfold bump. f_equal. apply list_eq. intros j.
  rewrite list_lookup_alter. destruct (decide (i = j)) as [<-|Hne].
  - by rewrite list_lookup_insert_eq, Hn by done.
  - by rewrite list_lookup_insert_ne.
Qed.

Lemma in_flight_app i l1 l2 : in_flight i (l1 ++ l2) = in_flight i l1 + in_flight i l2.
Proof. unfold in_flight. rewrite filter_app, length_app. lia. Qed.

Lemma in_flight_one i y : in_flight i [y] = if decide (owner (st_key y) = Some i) then 1 else 0.
Proof. unfold in_flight. rewrite filter_cons. by destruct (decide _). Qed.

Lemma in_flight_bound i l : 0 <= in_flight i l <= Z.of_nat (length l).
Proof. unfold in_flight. pose proof (length_filter (λ x, owner (st_key x) = Some i) l). lia. Qed.

(** Assignments that leave the nodes and slots alone. *)
Lemma routed_same s s' r : k_alloc s' = k_alloc s → clients s' = clients s → k_keys s' !! rq_key r = k_keys s !! rq_key r →
  routed s r → routed s' r.
Proof. unfold routed. by intros -> -> ->. Qed.

Lemma sent_for_same s s' y r : clients s' = clients s → k_keys s' !! rq_key r = k_keys s !! rq_key r → sent_for s y r → sent_for s' y r.
Proof. unfold sent_for. by intros -> ->. Qed.

Lemma fine_bump s i d l : (∀ j, in_flight j l = in_flight j (k_sent s) + if decide (i = j) then d else 0) →
  (∀ j n, k_nodes s !! j = Some n → node_fine s j n) →
  ∀ j n, k_nodes (bump i d s) !! j = Some n → node_fine (set_sent l (bump i d s)) j n.
Proof.
  intros Hl Hn j n (n0 & Hn0 & ->)%bump_node. destruct (Hn j n0 Hn0) as (H1 & H2 & H3).
  unfold node_fine. simpl. rewrite Hl. case_decide; simpl; split_and!; (done || lia).
Qed.

Lemma inv_send s a r y i I : kinv s (Some a) I → k_reqs s !! a = Some r → st_req y = a → sent_for s y r →
  owner (st_key y) = Some i → kinv (set_sent (k_sent s ++ [y]) (bump i 1 s)) None I.
Proof.
  intros Hi Hr <- Hf Ho. destruct (ki_hand _ _ _ Hi _ eq_refl) as (_ & Hnr & Hns). pose proof (bump_clients i 1 s) as Hc.
  destruct Hi; split; simpl; try done.
  - by rewrite length_alter.
  - apply fine_bump; [|done]. intros j. rewrite in_flight_app, in_flight_one, Ho. by repeat case_decide; simplify_eq.
  - intros m l Hm. rewrite (ki_mems0 m l Hm). symmetry. exact Hc.
  - intros b q Hq. destruct (ki_reqs0 b q Hq) as (Hro & Hlt & Hp). split; [by apply (routed_same s)|]. split; [done|]. intros _.
    rewrite fmap_app, elem_of_app. simpl. rewrite list_elem_of_singleton.
    destruct (decide (b = st_req y)) as [->|Hne]; [right; split; [done|by right]|].
    destruct Hp as [[? ?]|[? ?]]; [congruence| |]; [left|right]; split; naive_solver.
  - rewrite fmap_app. apply NoDup_app. split_and!; [done| |apply NoDup_singleton].
    intros b Hb Hb'. apply list_elem_of_singleton in Hb' as ->. done.
  - intros z Hz. apply elem_of_app in Hz as [Hz|Hz].
    + destruct (ki_sent0 z Hz) as (q & ? & ?). exists q. split; [done|]. by apply (sent_for_same s).
    + apply list_elem_of_singleton in Hz as ->. exists r. split; [done|]. by apply (sent_for_same s).
Qed.

Lemma inv_hold s a I : kinv s (Some a) I → kinv (set_retry (k_retry s ++ [a]) s) None I.
Proof.
  intros Hi. destruct (ki_hand _ _ _ Hi _ eq_refl) as (Hr & Hnr & Hns). destruct Hi; split; simpl; try done.
  - intros b q Hq. destruct (ki_reqs0 b q Hq) as (Hro & Hlt & Hp). split; [done|]. split; [done|]. intros _.
    rewrite elem_of_app, list_elem_of_singleton. destruct (decide (b = a)) as [->|Hne]; [left; split; [by right|done]|].
    destruct Hp as [[? ?]|[? ?]]; [congruence| |]; [left|right]; split; naive_solver.
  - destruct ki_retry0 as [Hnd Hin]. split.
    + apply NoDup_app. split_and!; [done| |apply NoDup_singleton]. intros b Hb Hb'. by apply list_elem_of_singleton in Hb' as ->.
    + intros b [Hb|Hb]%elem_of_app; [by apply Hin|]. by apply list_elem_of_singleton in Hb as ->.
Qed.

Lemma inv_called s a cbarg st len I : kinv s (Some a) I →
  kinv (set_reqs (delete a (k_reqs s)) (set_log (k_log s ++ [mk_ccall (Some a) cbarg st len]) s)) None I.
Proof.
  intros Hi. destruct (ki_hand _ _ _ Hi _ eq_refl) as ([r Hr] & Hnr & Hns).
  assert (a ∉ omap cc_req (k_log s)) as Hnl by (intros Hl; destruct (ki_called _ _ _ Hi a Hl); congruence).
  assert (a < k_tick s) as Hlt by (by destruct (ki_reqs _ _ _ Hi a r Hr) as (_ & ? & _)).
  destruct Hi; split; simpl; try done.
  - intros b q Hq. apply lookup_delete_Some in Hq as [Hne Hq]. destruct (ki_reqs0 b q Hq) as (? & ? & Hp).
    split; [done|]. split; [done|]. intros _. apply Hp. congruence.
  - destruct ki_retry0 as [Hnd Hin]. split; [done|]. intros b Hb. rewrite lookup_delete_ne by (by intros ->). by apply Hin.
  - intros y Hy. destruct (ki_sent0 y Hy) as (q & Hq & Hf). exists q. split; [|done].
    rewrite lookup_delete_ne; [done|]. intros ->. by apply Hns, list_elem_of_fmap_2.
  - rewrite omap_app. simpl. apply NoDup_app. split_and!; [done| |apply NoDup_singleton].
    intros b Hb Hb'. by apply list_elem_of_singleton in Hb' as ->.
  - intros b. rewrite omap_app, elem_of_app. simpl. rewrite list_elem_of_singleton. intros [Hb| ->].
    + destruct (ki_called0 b Hb). split; [|done]. rewrite lookup_delete_None. by right.
    + by rewrite lookup_delete_eq.
  - intros b. rewrite ki_issued0, omap_app, elem_of_app. simpl. rewrite list_elem_of_singleton.
    destruct (decide (b = a)) as [->|Hne]; [rewrite lookup_delete_eq, Hr; naive_solver|].
    rewrite lookup_delete_ne by done. naive_solver.
Qed.

Lemma inv_unsend s l1 y l2 i I : kinv s None I → k_sent s = l1 ++ y :: l2 → owner (st_key y) = Some i →
  kinv (set_sent (l1 ++ l2) (bump i (-1) s)) (Some (st_req y)) I.
Proof.
  intros Hi Hs Ho. pose proof (bump_clients i (-1) s) as Hc.
  assert (∀ z, z ∈ l1 ++ l2 → z ∈ k_sent s) as Hsub by (rewrite Hs; set_solver).
  pose proof (ki_sent_nodup _ _ _ Hi) as Hnd. rewrite Hs, fmap_app in Hnd. simpl in Hnd.
  rewrite <- Permutation_middle in Hnd. apply NoDup_cons in Hnd as [Hny Hnd]. rewrite <- fmap_app in Hny, Hnd.
  destruct (ki_sent _ _ _ Hi y) as (r & Hr & _); [rewrite Hs; set_solver|].
  assert (st_req y ∉ k_retry s) as Hnr.
  { destruct (ki_reqs _ _ _ Hi _ _ Hr) as (_ & _ & [[_ Hn]|[Hn _]]); [done| |done].
    destruct Hn. rewrite Hs, fmap_app. set_solver. }
  destruct Hi; split; simpl; try done.
  - by rewrite length_alter.
  - apply fine_bump; [|done]. intros j. rewrite Hs, !in_flight_app. change (y :: l2) with ([y] ++ l2).
    rewrite in_flight_app, in_flight_one, Ho. repeat case_decide; simplify_eq; lia.
  - intros m l Hm. rewrite (ki_mems0 m l Hm). symmetry. exact Hc.
  - intros b q Hq. destruct (ki_reqs0 b q Hq) as (Hro & Hlt & Hp). split; [by apply (routed_same s)|]. split; [done|]. intros Hne.
    assert (b ≠ st_req y) as Hb by congruence. rewrite Hs, fmap_app in Hp. rewrite fmap_app. simpl in Hp.
    destruct Hp as [[? ?]|[? ?]]; [done| |]; [left|right]; split; set_solver.
  - by intros b [= <-].
  - intros z Hz. destruct (ki_sent0 z (Hsub z Hz)) as (q & ? & ?). exists q. split; [done|]. by apply (sent_for_same s).
Qed.

Lemma bump_redo i s : bump i 1 (bump i (-1) s) = s.
Proof.
  unfold bump. simpl. destruct s as [slots nodes]. unfold set_nodes. simpl. f_equal. apply list_eq. intros j.
  rewrite !list_lookup_alter. destruct (decide (i = j)) as [<-|Hne]; [|done].
  rewrite ?decide_True by done. destruct (nodes !! i) as [[]|]; simpl; [|done].
  unfold ref_node. simpl. do 2 f_equal. lia.
Qed.

Definition ticked (s : cluster) : cluster :=
  mk_cluster (k_slots s) (k_nodes s) (k_alloc s) (k_metaUpdating s) (k_metaVersion s) (k_memCtx s)
    (k_mems s) (k_open s) (k_reqs s) (k_retry s) (k_sent s) (k_log s) (k_keys s) (k_tick s + 1).

Lemma inv_tick s x I : kinv s x I → kinv (ticked s) x I.
Proof.
  intros Hi. destruct Hi; split; simpl; try done.
  - intros a r Hr. destruct (ki_reqs0 a r Hr) as (? & ? & ?). split; [done|]. split; [lia|done].
  - intros a Ha. destruct (ki_called0 a Ha). split; [done|lia].
Qed.

Lemma inv_issue s r I : kinv s None I → routed s r →
  kinv (set_reqs (<[k_tick s := r]> (k_reqs s)) (ticked s)) (Some (k_tick s)) ({[k_tick s]} ∪ I).
Proof.
  intros Hi Hr.
  assert (k_reqs s !! k_tick s = None) as Hfresh.
  { destruct (k_reqs s !! k_tick s) as [q|] eqn:Hq; [|done]. destruct (ki_reqs _ _ _ Hi _ _ Hq) as (_ & ? & _). lia. }
  destruct Hi; split; simpl; try done.
  - intros a q [[<- <-]|[Hne Hq]]%lookup_insert_Some; [split; [done|]; split; [lia|done]|].
    destruct (ki_reqs0 a q Hq) as (? & ? & Hp). split; [done|]. split; [lia|]. intros _. by apply Hp.
  - intros a [= <-]. split; [by rewrite lookup_insert_eq|]. split.
    + intros Hin. destruct ki_retry0 as [_ Hin']. apply Hin' in Hin as [? ?]. congruence.
    + intros (y & Hyt & Hy)%list_elem_of_fmap. destruct (ki_sent0 y Hy) as (q & Hq & _). rewrite <- Hyt in Hq. congruence.
  - destruct ki_retry0 as [? Hin]. split; [done|]. intros a Ha. destruct (Hin a Ha) as [q Hq].
    rewrite lookup_insert_ne by congruence. by rewrite Hq.
  - intros y Hy. destruct (ki_sent0 y Hy) as (q & Hq & ?). exists q. rewrite lookup_insert_ne by congruence. done.
  - intros a Ha. destruct (ki_called0 a Ha). split; [|lia]. rewrite lookup_insert_ne by lia. done.
  - intros a. rewrite elem_of_union, elem_of_singleton, ki_issued0. destruct (decide (a = k_tick s)) as [->|Hne].
    + rewrite lookup_insert_eq. naive_solver.
    + rewrite lookup_insert_ne by done. naive_solver.
Qed.

(** A field that no part of the invariant mentions, or a call without a request. *)
Lemma inv_updating s b x I : kinv s x I → kinv (set_updating b s) x I.
Proof. intros Hi. destruct Hi; by split. Qed.

Lemma inv_log_none s cbarg st len x I : kinv s x I → kinv (set_log (k_log s ++ [mk_ccall None cbarg st len]) s) x I.
Proof. intros Hi. destruct Hi; split; simpl; try done; rewrite omap_app; simpl; by rewrite app_nil_r. Qed.

(** ** Handlers *)

Lemma get_node_spec s x I key : kinv s x I → bytes key →
  priskvClusterGetNode key s = Ok ((λ i : nat, (k_alloc s, Z.of_nat i)) <$> owner key, s).
Proof.
  intros Hi Hb. unfold priskvClusterGetNode, mbind, ST_bind, lift, get. rewrite slot_correct by done.
  pose proof (slot_range key) as Hr. unfold PRISKV_CLUSTER_SLOTS in Hr. unfold u16. rewrite Z.mod_small by lia.
  rewrite (proj2 (rd_Ok _ _ ((λ i : nat, (k_alloc s, Z.of_nat i)) <$> owner key))); [reflexivity|]. split; [lia|].
  rewrite (ki_slots _ _ _ Hi) by (unfold PRISKV_CLUSTER_SLOTS; lia). by rewrite Z2Nat.id by lia.
Qed.

Lemma clients_node s i c : clients s !! i = Some (Some c) → ∃ n, k_nodes s !! i = Some n ∧ nd_client n = Some c.
Proof. unfold clients. rewrite list_lookup_fmap. intros (n & -> & Hn)%fmap_Some. by exists n. Qed.

Lemma safe_get_node s i n (Q : priskvClusterNode → cluster → Prop) :
  k_nodes s !! i = Some n → Q n s → safe (get_node (k_alloc s, Z.of_nat i)) s Q.
Proof.
  intros Hn HQ. exists n, s. split; [|done]. unfold get_node. simpl. rewrite Z.eqb_refl.
  by rewrite (proj2 (rd_Ok _ _ n)) by (rewrite Nat2Z.id; split; [lia|done]).
Qed.

Lemma safe_get_creq s a r (Q : priskvClusterRequest → cluster → Prop) :
  k_reqs s !! a = Some r → Q r s → safe (get_creq a) s Q.
Proof. intros Hr HQ. exists r, s. unfold get_creq. by rewrite Hr. Qed.

(** The memory is null or registered. *)
Definition mem_known (s : cluster) (x : priskvClusterSGL) : Prop :=
  match cs_mem x with None => True | Some m => is_Some (k_mems s !! m) end.

Lemma node_sgls_spec s x I i c sgl : ∀ Q : list priskv_sgl → cluster → Prop,
  kinv s x I → clients s !! i = Some (Some c) → Forall (mem_known s) sgl →
  (∀ l, length l = length sgl → Forall (sgl_for c) l → Q l s) →
  safe (node_sgls (k_alloc s, Z.of_nat i) sgl) s Q.
Proof.
  induction sgl as [|y sgl IH]; intros Q Hi Hc Hm HQ; cbn [node_sgls]; [by apply safe_ret, HQ|].
  apply Forall_cons in Hm as [Hy Hm]. destruct (clients_node s i c Hc) as (n & Hn & Hnc). step.
  apply (safe_get_node _ _ n); [done|]. destruct (ki_nodes _ _ _ Hi i n Hn) as (Hid & _). rewrite Hid.
  assert (∀ m, m = None ∨ m = Some c →
    safe (l ← node_sgls (k_alloc s, Z.of_nat i) sgl; mret (mk_nsgl (cs_iova y) (cs_length y) m :: l)) s Q) as Hrest.
  { intros m Hmc. step. apply IH; [done..|]. intros l Hl Hf. apply safe_ret, HQ; [simpl; lia|]. by constructor. }
  step. unfold priskvClusterGetMemory, mem_known in *. destruct (cs_mem y) as [m|]; [|apply safe_ret, Hrest; by left].
  destruct Hy as [l Hl]. pose proof (ki_mems _ _ _ Hi m l Hl) as Heq. step. exists l, s. split; [unfold get_mem; by rewrite Hl|].
  assert (l !! i = Some c) as Hlc.
  { rewrite <- Heq, list_lookup_fmap in Hc. by apply fmap_Some in Hc as (? & ? & [= ->]). }
  pose proof (lookup_lt_Some _ _ _ Hlc). step. apply (safe_lift _ tt); [apply cassert_true, Z.ltb_lt; lia|].
  step. apply (safe_lift _ c); [apply rd_Ok; rewrite Nat2Z.id; split; [lia|done]|]. apply safe_ret, Hrest. by right.
Qed.

(** The callback of a request that has been counted. *)
Lemma safe_user_key s p k (Q : list Z → cluster → Prop) : k_keys s !! p = Some k → Q k s → safe (get_key p) s Q.
Proof. intros Hk HQ. exists k, s. unfold get_key. by rewrite Hk. Qed.

Lemma callback_spec s a r key i st result I (Q : unit → cluster → Prop) :
  kinv s (Some a) I → k_reqs s !! a = Some r → k_keys s !! rq_key r = Some key → owner key = Some i →
  Z.of_nat (length (k_sent s)) < 2 ^ 31 - 1 → (∀ s', kinv s' None I → Q tt s') →
  safe (priskvClusterRequestCallback a st result) (bump i 1 s) Q.
Proof.
  intros Hi Hr Hkey Ho Hlen HQ. destruct (ki_reqs _ _ _ Hi a r Hr) as ((key' & j & c & Hkey' & _ & Ho' & Hnode & Hc & _) & _).
  assert (j = i) as -> by congruence. destruct (clients_node s i c Hc) as (n & Hn & _).
  destruct (ki_nodes _ _ _ Hi i n Hn) as (_ & Href & _). pose proof (in_flight_bound i (k_sent s)).
  assert (∀ s1, k_alloc s1 = k_alloc s → k_nodes s1 = k_nodes (bump i 1 s) → ∀ Q1 : unit → cluster → Prop,
    Q1 tt (bump i (-1) s1) → safe (add_ref (rq_node r) (-1)) s1 Q1) as Hdec.
  { intros s1 Ha1 Hn1 Q1 HQ1. rewrite Hnode, <- Ha1. apply (safe_add_ref i (-1) (ref_node 1 n)); [|simpl; lia|done].
    rewrite Hn1. unfold bump. simpl. rewrite list_lookup_alter, decide_True, Hn by done. done. }
  unfold priskvClusterRequestCallback. step. apply (safe_get_creq _ _ r); [done|]. step. apply safe_get.
  destruct (_ && _).
  - step. apply safe_modify. step. apply Hdec; [done|done|]. step. apply (safe_user_key _ _ key); [done|]. apply safe_ret.
    change (Q tt (set_retry (k_retry s ++ [a]) (bump i (-1) (bump i 1 s)))). rewrite bump_undo. by apply HQ, inv_hold.
  - step. apply safe_modify. step. apply Hdec; [done|done|]. apply safe_modify.
    set (v := if st =? _ then _ else _).
    change (Q tt (set_reqs (delete a (k_reqs s)) (set_log (k_log s ++ [mk_ccall (Some a) (rq_cbarg r) st v])
      (bump i (-1) (bump i 1 s))))). rewrite bump_undo. by apply HQ, inv_called.
Qed.

Context (connect_ok : Z → bool) (limits : Z → Z * Z) (now : Z → option (Z * option Z)).

(** A key and a scatter list within the limits of every node. *)
Definition in_limits (s : cluster) (key : list Z) (nsgl : nat) : Prop :=
  0 < Z.of_nat (length key) < 2 ^ 16 ∧
  ∀ c, Some c ∈ clients s → Z.of_nat (length key) <= (limits c).1 ∧ Z.of_nat nsgl <= (limits c).2.

Lemma submit_spec s a r key I (Q : unit → cluster → Prop) :
  kinv s (Some a) I → k_reqs s !! a = Some r → k_keys s !! rq_key r = Some key → in_limits s key (length (rq_sgl r)) →
  Z.of_nat (length (k_sent s)) < 2 ^ 31 - 1 →
  (∀ s', kinv s' None I → Q tt s') → safe (priskvClusterSubmitRequest limits now a) s Q.
Proof.
  intros Hi Hr Hkey [Hlk Hlim] Hlen HQ. unfold priskvClusterSubmitRequest. step. apply (safe_get_creq _ _ r); [done|]. step. apply safe_get.
  destruct (k_metaUpdating s); [by apply safe_modify, HQ, inv_hold|].
  destruct (ki_reqs _ _ _ Hi a r Hr) as ((key' & i & c & Hkey' & Hb & Ho & Hnode & Hc & Hsgl) & _).
  assert (key' = key) as -> by congruence. destruct (Hlim c) as [Hl1 Hl2]; [by eapply list_elem_of_lookup_2|].
  destruct (clients_node s i c Hc) as (n & Hn & Hnc). destruct (ki_nodes _ _ _ Hi i n Hn) as (_ & Href & _).
  pose proof (in_flight_bound i (k_sent s)). step. rewrite Hnode. apply (safe_add_ref i 1 n); [done|lia|].
  unfold node_async. step. rewrite Hnode. change (k_alloc s) with (k_alloc (bump i 1 s)).
  apply (safe_get_node _ _ (ref_node 1 n)).
  { unfold bump. simpl. rewrite list_lookup_alter, decide_True, Hn by done. done. }
  simpl nd_client. rewrite Hnc.
  set (p := match rq_type r with GET => _ | SET => _ | _ => _ end).
  assert (Forall (sgl_for c) p.1 ∧ (length p.1 <= length (rq_sgl r))%nat) as [Hp Hpl] by (unfold p; destruct (rq_type r); simpl; (split; [done|lia])).
  destruct p as [sgl timeout]. simpl in Hp, Hpl.
  destruct (match rq_type r with GET | SET => _ | _ => _ end); [by apply (callback_spec s a r key i _ _ I)|].
  unfold node_send_command. step. apply (safe_user_key _ _ key); [done|]. cbv zeta.
  assert (u16 (Z.of_nat (length key)) = Z.of_nat (length key)) as -> by (unfold u16; apply Z.mod_small; lia).
  rewrite (proj2 (Z.eqb_neq _ _)) by lia. step. apply safe_ret. rewrite (proj2 (Z.ltb_ge (limits c).1 _)) by lia. step. apply safe_ret.
  rewrite (proj2 (Z.ltb_ge (limits c).2 _)) by lia. step. apply safe_ret. rewrite Nat2Z.id, take_ge by lia.
  step. apply (safe_mono _ _ (λ _ s', s' = bump i 1 s)).
  { destruct sgl; [by apply safe_ret|]. step. apply (safe_get_creq _ _ r); [done|]. by apply safe_ret. }
  intros _ _ ->. step. eexists _, _. split; [reflexivity|]. simpl k_tick.
  change (mk_cluster _ _ _ _ _ _ _ _ _ _ _ _ _ _) with (bump i 1 (ticked s)).
  destruct (now (k_tick s)) as [[st result]|]; [apply (callback_spec (ticked s) a r key i _ _ I); [by apply inv_tick|done..]|].
  apply safe_modify, HQ.
  apply (inv_send (ticked s) a r (mk_sent a c (rq_type r) key sgl timeout) i I); [by apply inv_tick|done|done| |done].
  split; [done|]. split; [done|]. by exists i.
Qed.

(** The key of a new command: a string of the user's, within the limits. *)
Definition command_ok (s : cluster) (key : Z) (nsgl : nat) : Prop :=
  ∃ k, k_keys s !! key = Some k ∧ bytes k ∧ in_limits s k nsgl.

(** The requests a command makes: a key that no node owns is answered at once. *)
Definition new_request (s : cluster) (key : Z) : gset Z :=
  match k_keys s !! key ≫= owner with Some _ => {[k_tick s]} | None => ∅ end.

Lemma submit_new_spec type key sgl timeout cbarg s I (Q : Z → cluster → Prop) :
  kinv s None I → command_ok s key (length sgl) → Forall (mem_known s) sgl → Z.of_nat (length (k_sent s)) < 2 ^ 31 - 1 →
  (∀ ret s', kinv s' None (new_request s key ∪ I) → Q ret s') →
  safe (submit_new limits now type key sgl timeout cbarg) s Q.
Proof.
  intros Hi (k & Hk & Hkey & Hlim) Hm Hlen HQ. unfold new_request in HQ. rewrite Hk in HQ. simpl in HQ.
  unfold submit_new, priskvClusterGetRequest. step. step. apply (safe_user_key _ _ k); [done|]. step.
  eexists _, _. split; [by apply (get_node_spec s None I)|]. destruct (owner k) as [i|] eqn:Ho; simpl.
  - assert (∃ c, clients s !! i = Some (Some c)) as [c Hc].
    { unfold owner, slot_owner in Ho. apply fmap_Some in Ho as ([j ni] & Hf & ->). simpl.
      apply list_find_Some in Hf as (Hni & _). apply lookup_lt_Some in Hni. rewrite <- (ki_size _ _ _ Hi) in Hni.
      apply lookup_lt_is_Some_2 in Hni as [n Hn]. destruct (ki_nodes _ _ _ Hi _ n Hn) as (_ & _ & c & Hc & _).
      exists c. unfold clients. rewrite list_lookup_fmap, Hn. simpl. by rewrite Hc. }
    step. unfold priskvClusterRequestNew. step. eexists _, _. split; [reflexivity|]. step.
    change (mk_cluster _ _ _ _ _ _ _ _ _ _ _ _ _ _) with (ticked s). change (k_alloc s) with (k_alloc (ticked s)).
    apply (node_sgls_spec (ticked s) None I i c); [by apply inv_tick|done|done|]. intros l Hl Hf.
    step. apply safe_modify, safe_ret, safe_ret. step.
    set (r := mk_creq l cbarg type key sgl (u64 (s32 timeout)) (k_alloc (ticked s), Z.of_nat i)).
    eapply (submit_spec _ (k_tick s) r k ({[k_tick s]} ∪ I)).
    + apply (inv_issue s r I Hi). by exists k, i, c.
    + apply lookup_insert_eq.
    + exact Hk.
    + unfold r. simpl. rewrite Hl. exact Hlim.
    + done.
    + intros s' Hi'. by apply safe_ret, HQ.
  - step. apply safe_modify, safe_ret, safe_ret, HQ. rewrite (union_empty_l_L I). by apply inv_log_none.
Qed.

(** The user's strings may change that no request has. *)
Lemma inv_keys s p k I : kinv s None I → (∀ a r, k_reqs s !! a = Some r → rq_key r ≠ p) →
  kinv (set_keys (partial_alter (λ _, k) p (k_keys s)) s) None I.
Proof.
  intros Hi Hp. assert (∀ a r, k_reqs s !! a = Some r → partial_alter (λ _, k) p (k_keys s) !! rq_key r = k_keys s !! rq_key r) as Hsame.
  { intros a r Hr. rewrite lookup_partial_alter_ne; [done|]. intros Hpr. by apply (Hp a r). }
  destruct Hi; split; simpl; try done.
  - intros a r Hr. destruct (ki_reqs0 a r Hr) as (? & ? & ?). split; [|done]. apply (routed_same s); [done|done|by eapply Hsame|done].
  - intros y Hy. destruct (ki_sent0 y Hy) as (r & Hr & Hf). exists r. split; [done|]. apply (sent_for_same s); [done|by eapply Hsame|done].
Qed.

(** ** Events *)

Inductive event :=
  | EvGet (key : Z) (sgl : list priskvClusterSGL) (cbarg : Z)
  | EvSet (key : Z) (sgl : list priskvClusterSGL) (timeout cbarg : Z)
  | EvTest (key : Z) (cbarg : Z)
  | EvDelete (key : Z) (cbarg : Z)
  | EvAnswer (k : nat) (status : Z) (result : option Z)   (* a node answers what it was sent as number [k] *)
  | EvTimer (reply : meta_reply)
  | EvReg
  | EvDereg (m : Z)
  | EvKey (p : Z) (key : option (list Z)).                (* the user writes or frees a string *)

Definition handle (ev : event) : KM unit :=
  match ev with
  | EvGet key sgl cbarg => _ ← priskvClusterAsyncGet limits now key sgl cbarg; mret tt
  | EvSet key sgl timeout cbarg => _ ← priskvClusterAsyncSet limits now key sgl timeout cbarg; mret tt
  | EvTest key cbarg => _ ← priskvClusterAsyncTest limits now key cbarg; mret tt
  | EvDelete key cbarg => _ ← priskvClusterAsyncDelete limits now key cbarg; mret tt
  | EvAnswer k status result =>
      s ← get;
      match k_sent s !! k with
      | None => mret tt
      | Some y => _ ← modify (set_sent (delete k (k_sent s))); priskvClusterRequestCallback (st_req y) status result
      end
  | EvTimer reply => priskvClusterTimerHandler connect_ok limits now reply
  | EvReg => _ ← priskvClusterRegMemory; mret tt
  | EvDereg m => priskvClusterDeregMemory m
  | EvKey p key => modify (λ s, set_keys (partial_alter (λ _, key) p (k_keys s)) s)
  end.

(** The client holds fewer than [2^31 - 1] requests; keys are not empty, and keys and
    scatter lists are within the limits of the nodes; memory is registered; the user
    keeps the key of a request as long as the request is there; the meta server
    answers, and its metadata is not newer, or a request is in flight: no update
    starts. *)
Definition event_ok (s : cluster) (ev : event) : Prop :=
  Z.of_nat (length (k_sent s)) < 2 ^ 31 - 1 ∧
  match ev with
  | EvGet key sgl _ | EvSet key sgl _ _ => command_ok s key (length sgl) ∧ Forall (mem_known s) sgl
  | EvTest key _ | EvDelete key _ => command_ok s key 0
  | EvAnswer _ _ _ | EvReg => True
  | EvTimer NoReply => False
  | EvTimer (Reply None) => True
  | EvTimer (Reply (Some m)) => md_version m <= k_metaVersion s ∨ existsb (λ n, 0 <? nd_refCount n) (k_nodes s) = true
  | EvDereg m => is_Some (k_mems s !! m)
  | EvKey p _ => ∀ a r, k_reqs s !! a = Some r → rq_key r ≠ p
  end.

Definition issues (ev : event) (s : cluster) : gset Z :=
  match ev with
  | EvGet key _ _ | EvSet key _ _ _ | EvTest key _ | EvDelete key _ => new_request s key
  | _ => ∅
  end.

Inductive cluster_reachable : cluster → gset Z → Prop :=
  | kr_start s : priskvClusterConnect connect_ok (Reply (Some md)) no_cluster = Ok (true, s) → cluster_reachable s ∅
  | kr_step s I ev s' : cluster_reachable s I → event_ok s ev → handle ev s = Ok (tt, s') →
      cluster_reachable s' (issues ev s ∪ I).

Context (Hconn : ∀ t, connect_ok t = true) (Hmd : valid_meta md).

Lemma connect_spec : safe (priskvClusterConnect connect_ok (Reply (Some md))) no_cluster (λ ok s, ok = true ∧
  kinv s None ∅ ∧ k_metaVersion s = md_version md ∧ k_metaUpdating s = false ∧
  ∀ i ni, md_nodes md !! i = Some ni → ∃ n, k_nodes s !! i = Some n ∧ nd_addr n = ni_addr ni ∧ nd_port n = ni_port ni).
Proof.
  unfold priskvClusterConnect. step. eapply safe_lift; [reflexivity|]. step. unfold priskvClusterMetaDataLoad. step. eexists _, _. split; [reflexivity|].
  step. apply safe_modify. step. apply safe_modify. change (load_nodes connect_ok (k_tick no_cluster) 0) with (load_nodes connect_ok (k_tick no_cluster) (Z.of_nat 0)).
  eapply (load_nodes_spec connect_ok Hconn); simpl; [reflexivity|by rewrite length_replicate|reflexivity|done| |].
  { intros j Hj. apply existsb_exists in Hj as (r & Hr & Hc). apply covers_spec in Hc.
    assert (sr_end r < PRISKV_CLUSTER_SLOTS).
    { unfold valid_meta in Hmd. revert Hr Hmd. generalize (all_ranges (md_nodes md)). clear.
      induction l as [|r' l IH]; simpl; [done|]. intros [->|Hin] (? & ? & ? & ?); [done|by apply IH]. }
    apply lookup_replicate_2. unfold PRISKV_CLUSTER_SLOTS in *. lia. }
  intros s' Hk Ho Hlen _ Hnew Hls Hsl. apply safe_ret. split; [done|]. unfold kept in Hk. simpl in *.
  rewrite length_replicate in Hlen.
  destruct Hk as (Ka & Ku & Kv & Kc & Km & Kr & Kt & Ks & Kl & Kk & _).
  split; [|split; [done|]; split; [done|]; intros i ni Hi; destruct (Hnew i ni Hi) as (n & Hn & _ & ? & ? & _); by exists n].
  split; rewrite ?Km, ?Kr, ?Kt, ?Ks, ?Kl; try done.
  - intros j Hj. rewrite Hsl. simpl. rewrite Ka. destruct (slot_owner _ _); simpl; [done|]. by apply lookup_replicate_2.
  - intros i n Hn. destruct (lookup_lt_is_Some_2 (md_nodes md) i) as [ni Hni]; [apply lookup_lt_Some in Hn; lia|].
    destruct (Hnew i ni Hni) as (n' & Hn' & (H1 & _ & _ & H4 & H5)). simpl in Hn'. rewrite Hn in Hn'. injection Hn' as <-.
    split; [done|]. split; [by rewrite Ks|done].
  - split; [constructor|]. by intros a ?%elem_of_nil.
  - constructor.
  - by intros y ?%elem_of_nil.
  - constructor.
  - by intros a ?%elem_of_nil.
  - intros a. rewrite lookup_empty. split; [by intros ?%elem_of_empty|]. by intros [[? ?]|?%elem_of_nil].
Qed.

(** ** Every event keeps the invariant *)

Lemma answer_spec s k st result I (Q : unit → cluster → Prop) :
  kinv s None I → Z.of_nat (length (k_sent s)) < 2 ^ 31 - 1 → (∀ s', kinv s' None I → Q tt s') →
  safe (handle (EvAnswer k st result)) s Q.
Proof.
  intros Hi Hlen HQ. unfold handle. step. apply safe_get. destruct (k_sent s !! k) as [y|] eqn:Hy; [|by apply safe_ret, HQ].
  destruct (ki_sent _ _ _ Hi y) as (r & Hr & Hkey & _ & i & Ho & _); [by eapply list_elem_of_lookup_2|].
  step. apply safe_modify. rewrite delete_take_drop. pose proof (take_drop_middle _ _ _ Hy) as Hs.
  pose proof (inv_unsend s _ y _ i I Hi (eq_sym Hs) Ho) as Hi'.
  set (l := take k (k_sent s) ++ drop (S k) (k_sent s)) in *.
  replace (set_sent l s) with (bump i 1 (set_sent l (bump i (-1) s))).
  2:{ change (set_sent l (bump i 1 (bump i (-1) s)) = set_sent l s). by rewrite bump_redo. }
  apply (callback_spec _ (st_req y) r (st_key y) i _ _ I); [done|done|exact Hkey|done| |done].
  simpl. unfold l. rewrite length_app, length_take, length_drop. lia.
Qed.

Lemma reg_nodes_spec l : Forall (λ n, is_Some (nd_client n)) l → ∃ m, reg_nodes l = Ok m ∧ Some <$> m = nd_client <$> l.
Proof.
  induction 1 as [|n l [c Hc] Hl (m & Hm & Heq)]; simpl; [by exists []|]. rewrite Hc, Hm. simpl.
  exists (c :: m). split; [done|]. by apply (f_equal (cons (Some c))) in Heq.
Qed.

Lemma inv_mems s c m x I : kinv s x I → (∀ k l, m !! k = Some l → Some <$> l = clients s) → kinv (set_mems c m s) x I.
Proof. intros Hi Hm. destruct Hi; by split. Qed.

Lemma reg_spec s I (Q : Z → cluster → Prop) :
  kinv s None I → (∀ m s', kinv s' None I → k_mems s' !! m ≠ None → Q m s') → safe priskvClusterRegMemory s Q.
Proof.
  intros Hi HQ. unfold priskvClusterRegMemory. step. eexists _, _. split; [reflexivity|]. step. apply safe_get.
  change (mk_cluster _ _ _ _ _ _ _ _ _ _ _ _ _ _) with (ticked s).
  destruct (reg_nodes_spec (k_nodes s)) as (m & Hm & Heq).
  { apply Forall_lookup. intros i n Hn. destruct (ki_nodes _ _ _ Hi i n Hn) as (_ & _ & c & -> & _). done. }
  step. apply (safe_lift _ m); [done|]. step. apply safe_modify, safe_ret, HQ.
  - apply inv_mems; [by apply inv_tick|]. intros k l [[_ <-]|[_ Hl]]%lookup_insert_Some; [exact Heq|].
    exact (ki_mems _ _ _ Hi k l Hl).
  - simpl. by rewrite lookup_insert_eq.
Qed.

Lemma dereg_mems_spec l : ∀ s (Q : unit → cluster → Prop),
  Forall (λ c, c ∈ k_open s) l → Q tt s → safe (dereg_mems l) s Q.
Proof.
  induction l as [|c l IH]; intros s Q Hl HQ; cbn [dereg_mems]; [by apply safe_ret|].
  apply Forall_cons in Hl as [Hc Hl]. step. apply safe_get. rewrite decide_True by done. by apply IH.
Qed.

Lemma dereg_spec s m I (Q : unit → cluster → Prop) :
  kinv s None I → is_Some (k_mems s !! m) → (∀ s', kinv s' None I → Q tt s') → safe (priskvClusterDeregMemory m) s Q.
Proof.
  intros Hi [l Hl] HQ. unfold priskvClusterDeregMemory. step. exists l, s. split; [unfold get_mem; by rewrite Hl|].
  step. apply dereg_mems_spec.
  - pose proof (ki_mems _ _ _ Hi m l Hl) as Heq. apply Forall_lookup. intros i c Hc.
    assert (clients s !! i = Some (Some c)) as Hcl by (by rewrite <- Heq, list_lookup_fmap, Hc).
    destruct (clients_node s i c Hcl) as (n & Hn & Hnc). destruct (ki_nodes _ _ _ Hi i n Hn) as (_ & _ & c' & Hc' & Hin).
    congruence.
  - step. apply safe_get, safe_modify, HQ, inv_mems; [done|].
    intros k l' [_ Hl']%lookup_delete_Some. exact (ki_mems _ _ _ Hi k l' Hl').
Qed.

Lemma timer_spec s reply I (Q : unit → cluster → Prop) :
  kinv s None I → event_ok s (EvTimer reply) → (∀ s', kinv s' None I → Q tt s') →
  safe (priskvClusterTimerHandler connect_ok limits now reply) s Q.
Proof.
  intros Hi [_ Hok] HQ. unfold priskvClusterTimerHandler. destruct reply as [|newMeta]; [done|].
  step. eapply safe_lift; [reflexivity|]. step. apply safe_get.
  destruct newMeta as [m|]; [|by apply safe_ret, HQ].
  destruct (Z.leb_spec (md_version m) (k_metaVersion s)); [by apply safe_ret, HQ|].
  destruct Hok as [?| ->]; [lia|]. step. apply safe_modify, safe_ret, HQ. by apply inv_updating.
Qed.

Lemma cluster_handle_inv s I ev : kinv s None I → event_ok s ev →
  safe (handle ev) s (λ _ s', kinv s' None (issues ev s ∪ I)).
Proof.
  intros Hi Hok. pose proof Hok as [Hlen Hev].
  destruct ev; simpl issues; rewrite ?(union_empty_l_L I); simpl handle.
  - destruct Hev. step. by apply (submit_new_spec _ _ _ _ _ s I); [..|intros; apply safe_ret].
  - destruct Hev. step. by apply (submit_new_spec _ _ _ _ _ s I); [..|intros; apply safe_ret].
  - step. by apply (submit_new_spec _ _ _ _ _ s I); [..|intros; apply safe_ret].
  - step. by apply (submit_new_spec _ _ _ _ _ s I); [..|intros; apply safe_ret].
  - by apply (answer_spec s _ _ _ I).
  - by apply (timer_spec s _ I).
  - step. apply (reg_spec s I); [done|]. intros m s' Hi' _. by apply safe_ret.
  - by apply (dereg_spec s _ I).
  - apply safe_modify. by apply inv_keys.
Qed.

Lemma cluster_reachable_inv s I : cluster_reachable s I → kinv s None I.
Proof.
  induction 1 as [s Hc|s I ev s' _ IH Hok Hh].
  - destruct connect_spec as (ok & s1 & Hc1 & _ & Hi & _). rewrite Hc in Hc1. by injection Hc1 as _ <-.
  - destruct (cluster_handle_inv s I ev IH Hok) as (u & s1 & Heq & Hi). rewrite Hh in Heq. by injection Heq as _ <-.
Qed.

End requests.

(** ** An update follows freed clients *)

Lemma delete_slots_spec p n : ∀ (i : nat) s (Q : unit → cluster → Prop),
  length (k_slots s) = Z.to_nat PRISKV_CLUSTER_SLOTS → (i + n <= Z.to_nat PRISKV_CLUSTER_SLOTS)%nat →
  (∀ l, length l = Z.to_nat PRISKV_CLUSTER_SLOTS → Q tt (set_slots l s)) →
  safe (delete_slots p n (Z.of_nat i)) s Q.
Proof.
  induction n as [|n IH]; intros i s Q Hl Hi HQ; cbn [delete_slots].
  - apply safe_ret. replace s with (set_slots (k_slots s) s) by by destruct s. by apply HQ.
  - destruct (lookup_lt_is_Some_2 (k_slots s) i) as [x Hx]; [lia|].
    step. apply safe_get. step. apply (safe_lift _ x); [apply rd_Ok; rewrite Nat2Z.id; split; [lia|done]|].
    replace (Z.of_nat i + 1) with (Z.of_nat (S i)) by lia. step. case_bool_decide as Hp; [|apply safe_ret, IH; [done|lia|done]].
    unfold priskvClusterSlotDelete. step. apply safe_get.
    step. apply (safe_lift _ tt); [apply cassert_true, Z.ltb_lt; unfold PRISKV_CLUSTER_SLOTS in *; lia|].
    step. apply (safe_lift _ x); [apply rd_Ok; rewrite Nat2Z.id; split; [lia|done]|].
    step. apply (safe_lift _ tt); [by rewrite Hp|].
    step. apply (safe_lift _ (<[i := None]> (k_slots s))); [rewrite wr_Ok, Nat2Z.id by lia; done|].
    apply safe_modify, IH; simpl; [by rewrite length_insert|lia|]. intros l Hll. by apply HQ.
Qed.

Lemma unload_nodes_spec alloc n : ∀ (i : nat) s (Q : unit → cluster → Prop),
  k_alloc s = alloc → (i + n = length (k_nodes s))%nat → length (k_slots s) = Z.to_nat PRISKV_CLUSTER_SLOTS →
  (∀ j x, (i <= j)%nat → k_nodes s !! j = Some x → is_Some (nd_client x)) →
  (∀ s', k_mems s' = k_mems s → k_memCtx s' = k_memCtx s → k_open s' ⊆ k_open s →
     (∀ j x c, (i <= j)%nat → k_nodes s !! j = Some x → nd_client x = Some c → c ∉ k_open s') → Q tt s') →
  safe (unload_nodes alloc n (Z.of_nat i)) s Q.
Proof.
  induction n as [|n IH]; intros i s Q Ha Hn Hl Hc HQ; cbn [unload_nodes].
  - apply safe_ret, HQ; [done..|]. intros j x c Hj Hx. apply lookup_lt_Some in Hx. lia.
  - destruct (lookup_lt_is_Some_2 (k_nodes s) i) as [x Hx]; [lia|]. destruct (Hc i x) as [c Hxc]; [lia|done|].
    step. unfold priskvClusterMetaDataNodeUnload. step.
    change 0 with (Z.of_nat 0). apply delete_slots_spec; [done|lia|]. intros l Hll.
    unfold priskvClusterNodeClose. step. rewrite <- Ha at 1. change (k_alloc s) with (k_alloc (set_slots l s)) at 1.
    apply (safe_get_node _ _ x); [done|]. rewrite Hxc. step. apply safe_modify.
    set (s1 := set_open _ _). set (y := mk_node (nd_id x) [] 0 None (nd_refCount x)).
    exists tt, (set_nodes (<[i := y]> (k_nodes s)) s1). split.
    { unfold put_node. simpl. rewrite ?Ha, Z.eqb_refl, wr_Ok, Nat2Z.id by lia. done. }
    replace (Z.of_nat i + 1) with (Z.of_nat (S i)) by lia. apply IH; simpl; [done|rewrite length_insert; lia|done| |].
    + intros j z Hj. rewrite list_lookup_insert_ne by lia. apply Hc. lia.
    + intros s' Hm' Hc' Ho' Hout. apply HQ; [done|done|set_solver|].
      intros j z d Hj Hz Hd. destruct (decide (j = i)) as [->|Hne]; [set_solver|].
      apply (Hout j z d); [lia| |done]. by rewrite list_lookup_insert_ne by lia.
Qed.

Lemma unload_spec md s I (Q : unit → cluster → Prop) : kinv md s None I →
  (∀ s', k_mems s' = k_mems s → k_memCtx s' = k_memCtx s →
     (∀ j x c, k_nodes s !! j = Some x → nd_client x = Some c → c ∉ k_open s') → Q tt s') →
  safe priskvClusterMetaDataUnload s Q.
Proof.
  intros Hi HQ. unfold priskvClusterMetaDataUnload. step. apply safe_get. step. change 0 with (Z.of_nat 0).
  apply unload_nodes_spec; [done|done|exact (ki_slots_size _ _ _ _ Hi)| |].
  - intros j x _ Hx. destruct (ki_nodes _ _ _ _ Hi j x Hx) as (_ & _ & c & -> & _). done.
  - intros s' Hm Hc _ Hout. step. eexists _, _. split; [reflexivity|]. apply safe_modify, HQ; simpl; [done|done|].
    intros j x c. apply Hout. lia.
Qed.

(** ** What the user can rely on *)

(** A client connected with metadata whose ranges do not overlap routes every
    key to the node whose range has its slot, at that node's address and with an
    open client, or knows that no node has it. *)
Theorem cluster_connect_routes connect_ok md :
  (∀ t, connect_ok t = true) → valid_meta md →
  ∃ s, priskvClusterConnect connect_ok (Reply (Some md)) no_cluster = Ok (true, s) ∧
    ∀ key, bytes key →
      match owner md key with
      | None => priskvClusterGetNode key s = Ok (None, s)
      | Some i => priskvClusterGetNode key s = Ok (Some (k_alloc s, Z.of_nat i), s) ∧
          ∃ ni n c, md_nodes md !! i = Some ni ∧ node_covers (slot_of key) ni = true ∧
            get_node (k_alloc s, Z.of_nat i) s = Ok (n, s) ∧ nd_addr n = ni_addr ni ∧ nd_port n = ni_port ni ∧
            nd_client n = Some c ∧ c ∈ k_open s
      end.
Proof.
  intros Hc Hv. destruct (connect_spec md connect_ok Hc Hv) as (ok & s & Hs & -> & Hi & _ & _ & Hn). exists s. split; [done|].
  intros key Hb. pose proof (get_node_spec md s None ∅ key Hi Hb) as Hg. destruct (owner md key) as [i|] eqn:Ho; [|done].
  split; [done|]. unfold owner, slot_owner in Ho. apply fmap_Some in Ho as ([k ni] & Hf & ->).
  apply list_find_Some in Hf as (Hni & Hcov & _). destruct (Hn k ni Hni) as (n & Hnn & Ha & Hp).
  destruct (ki_nodes _ _ _ _ Hi k n Hnn) as (_ & _ & c & Hcl & Hin). exists ni, n, c. split_and!; try done.
  unfold get_node. simpl. rewrite Z.eqb_refl. by rewrite (proj2 (rd_Ok _ _ n)) by (rewrite Nat2Z.id; split; [lia|done]).
Qed.


(** Every request of a cluster client has been called back once, or is not
    called back yet and is either with its node or held back, not both; a node's
    reference count is the number of requests it has; and what a node was sent is
    for a key it owns, with memory registered with it. *)
Theorem cluster_requests connect_ok limits now md s I :
  (∀ t, connect_ok t = true) → valid_meta md → cluster_reachable md connect_ok limits now s I →
  (∀ a, a ∈ I → length (filter (λ c, cc_req c = Some a) (k_log s)) = if decide (k_reqs s !! a = None) then 1%nat else 0%nat) ∧
  (∀ a r, k_reqs s !! a = Some r → a ∈ I ∧ (a ∈ k_retry s ↔ a ∉ st_req <$> k_sent s)) ∧
  (∀ i n, k_nodes s !! i = Some n → nd_refCount n = in_flight md i (k_sent s)) ∧
  (∀ y, y ∈ k_sent s → ∃ i, owner md (st_key y) = Some i ∧ clients s !! i = Some (Some (st_client y)) ∧
     Forall (sgl_for (st_client y)) (st_sgl y)).
Proof.
  intros Hc Hv Hr. pose proof (cluster_reachable_inv md connect_ok limits now Hc Hv s I Hr) as Hi. split_and!.
  - intros a Ha. rewrite (omap_once cc_req) by apply (ki_log _ _ _ _ Hi). apply (ki_issued _ _ _ _ Hi) in Ha as [[r Hr']|Ha].
    + rewrite Hr', (decide_False (P := Some r = None)) by done. apply decide_False. intros Hin.
      destruct (ki_called _ _ _ _ Hi a Hin). congruence.
    + rewrite decide_True by done. destruct (ki_called _ _ _ _ Hi a Ha) as [-> _]. done.
  - intros a r Ha. split; [apply (ki_issued _ _ _ _ Hi); left; by exists r|].
    destruct (ki_reqs _ _ _ _ Hi a r Ha) as (_ & _ & [[? ?]|[? ?]]); [done|naive_solver..].
  - intros i n Hn. by destruct (ki_nodes _ _ _ _ Hi i n Hn) as (_ & ? & _).
  - intros y Hy. by destruct (ki_sent _ _ _ _ Hi y Hy) as (r & _ & _ & _ & ?).
Qed.

(** Whenever newer metadata is found and no request is in flight, the update
    uses a freed client or memory that was never set: the nodes are closed before
    the memory that is registered with them is given back. *)
Theorem cluster_update_faults connect_ok limits now md s I new :
  (∀ t, connect_ok t = true) → valid_meta md → md_nodes md ≠ [] → cluster_reachable md connect_ok limits now s I →
  k_metaVersion s < md_version new → existsb (λ n, 0 <? nd_refCount n) (k_nodes s) = false →
  priskvClusterTimerHandler connect_ok limits now (Reply (Some new)) s = Fault UseAfterFree.
Proof.
  intros Hc Hv Hne Hr Hver Href. pose proof (cluster_reachable_inv md connect_ok limits now Hc Hv s I Hr) as Hi.
  unfold priskvClusterTimerHandler. rewrite (bind_run _ _ _ (Some new) s) by done. rewrite (bind_run _ _ _ s s) by done. rewrite (proj2 (Z.leb_gt _ _)) by done.
  rewrite (bind_run _ _ _ tt (set_updating true s)) by done. rewrite Href.
  pose proof (inv_updating md s true None I Hi) as Hi1.
  destruct (unload_spec md (set_updating true s) I (λ _ s', k_mems s' = k_mems s ∧ k_memCtx s' = k_memCtx s ∧
    ∀ j x c, k_nodes s !! j = Some x → nd_client x = Some c → c ∉ k_open s') Hi1) as ([] & s2 & Hu & Hm & Hctx & Hout); [done|].
  rewrite (bind_run _ _ _ _ _ Hu). unfold mbind, ST_bind at 1. unfold priskvClusterDeregMemoryInternal, memCtx_mem.
  unfold mbind, ST_bind, get. rewrite Hctx. destruct (k_memCtx s) as [m|]; [|done]. simpl. unfold get_mem. rewrite Hm.
  destruct (k_mems s !! m) as [l|] eqn:Hl; [|done]. pose proof (ki_mems _ _ _ _ Hi m l Hl) as Heq.
  pose proof (ki_size _ _ _ _ Hi) as Hsz. unfold clients in Heq.
  destruct (k_nodes s) as [|x nodes] eqn:Hns; [by destruct (md_nodes md)|]. destruct l as [|c l]; [done|].
  injection Heq as Hcx _. assert (dereg_mems (c :: l) s2 = Fault UseAfterFree) as ->; [|done].
  cbn [dereg_mems]. unfold mbind, ST_bind, get. rewrite decide_False; [done|]. apply (Hout 0%nat x c); [done|by symmetry].
Qed.

(** ** Examples *)

(** Two nodes with a few slots each; the second has that of the key [k]. *)
Definition ex_md : priskvClusterMetaDataInfo :=
  mk_meta 1 [mk_info [97] 1000 [mk_range 0 1]; mk_info [98] 1001 [mk_range 3533 3533]].
Definition ex_connect : Z → bool := λ _, true.
Definition ex_now : Z → option (Z * option Z) := λ _, None.
Definition ex_limits : Z → Z * Z := λ _, (16, 2).
Definition ex_started : cluster :=
  state_after (priskvClusterConnect ex_connect (Reply (Some ex_md)) no_cluster) no_cluster.
Notation ex_reachable := (cluster_reachable ex_md ex_connect ex_limits ex_now).
Definition ex_after (ev : event) (s : cluster) : cluster := state_after (handle ex_connect ex_limits ex_now ev s) s.

(** The user has the key [k] at address 900, and the empty one at 901. *)
Definition ex_cluster : cluster := ex_after (EvKey 901 (Some [])) (ex_after (EvKey 900 (Some [107])) ex_started).

Lemma ex_valid : valid_meta ex_md.
Proof. vm_compute. intuition discriminate || (repeat constructor; intros; discriminate). Defined.

Lemma ex_start : ex_reachable ex_cluster ∅.
Proof.
  assert (∀ s ev, ex_reachable s ∅ → event_ok ex_limits s ev → issues ex_md ev s = ∅ →
    handle ex_connect ex_limits ex_now ev s = Ok (tt, ex_after ev s) → ex_reachable (ex_after ev s) ∅) as Hstep.
  { intros s ev Hr Hok Hi Hh. rewrite <- (union_empty_l_L (∅ : gset Z)), <- Hi at 1. by eapply kr_step. }
  apply Hstep; [apply Hstep; [apply kr_start; vm_compute; reflexivity|..]|..]; try (vm_compute; reflexivity);
    split; try (vm_compute; reflexivity); intros a r Hr; vm_compute in Hr; discriminate.
Defined.

Lemma cluster_connect_routes_witness :
  ∃ s, priskvClusterConnect ex_connect (Reply (Some ex_md)) no_cluster = Ok (true, s).
Proof.
  destruct (cluster_connect_routes ex_connect ex_md (λ _, eq_refl) ex_valid) as (s & Hs & _). exists s. exact Hs.
Defined.

Definition ex_get : event := EvGet 900 [mk_csgl 0 16 None] 5.

Lemma ex_within_limits nsgl : (nsgl <= 2)%nat → command_ok ex_limits ex_cluster 900 nsgl.
Proof.
  intros Hn. exists [107]. split; [vm_compute; reflexivity|]. split; [repeat constructor; lia|]. split; [simpl; lia|].
  intros c _. simpl. lia.
Defined.

Lemma ex_get_ok : event_ok ex_limits ex_cluster ex_get.
Proof. split; [vm_compute; reflexivity|]. split; [apply ex_within_limits; simpl; lia|]. by repeat constructor. Defined.


Lemma ex_sent : ex_reachable (ex_after ex_get ex_cluster) (issues ex_md ex_get ex_cluster ∪ ∅).
Proof. apply (kr_step _ _ _ _ ex_cluster ∅ ex_get); [exact ex_start|exact ex_get_ok|]. vm_compute. reflexivity. Defined.

Lemma cluster_requests_witness :
  ∃ y, k_sent (ex_after ex_get ex_cluster) = [y] ∧ ∃ i, owner ex_md (st_key y) = Some i.
Proof.
  destruct (cluster_requests ex_connect ex_limits ex_now ex_md _ _ (λ _, eq_refl) ex_valid ex_sent) as (_ & _ & _ & H).
  eexists. split; [vm_compute; reflexivity|]. destruct (H _ ltac:(vm_compute; left)) as (i & Hi & _). exists i. exact Hi.
Defined.

Lemma cluster_update_faults_witness :
  priskvClusterTimerHandler ex_connect ex_limits ex_now (Reply (Some (mk_meta 2 []))) ex_cluster = Fault UseAfterFree.
Proof.
  apply (cluster_update_faults ex_connect ex_limits ex_now ex_md ex_cluster ∅); [done|exact ex_valid|done|exact ex_start| |];
    vm_compute; reflexivity.
Defined.

(** ** Where the cluster client goes wrong *)

(** The timeout of a SET goes through an [int]: [2^32] milliseconds are sent as 0. *)
Lemma set_timeout_truncated :
  st_timeout <$> k_sent (ex_after (EvSet 900 [mk_csgl 0 16 None] (2 ^ 32) 5) ex_cluster) = [0].
Proof. vm_compute. reflexivity. Qed.

(** KEYS returns the status of the last node only. *)
Lemma keys_status_of_last_node :
  keys_nodes (mk_node_ops (λ _ _ _, (0, 0)) (λ _ _ _ _, 0) (λ _ _, (0, 0)) (λ _ _, 0)
      (λ c _, if c =? 1 then (0x200, []) else (0, [([107], 1)])))
    [mk_node 0 [] 0 (Some 1) 0; mk_node 1 [] 0 (Some 2) 0] [] 0 None = Ok (0, Some [([107], 1)]).
Proof. vm_compute. reflexivity. Qed.

(** Ranges that overlap, or start below 0. *)
Lemma overlapping_ranges_abort :
  priskvClusterConnect ex_connect (Reply (Some (mk_meta 1 [mk_info [97] 1000 [mk_range 0 1; mk_range 1 2]]))) no_cluster = Fault AssertFailed.
Proof. vm_compute. reflexivity. Qed.

Lemma negative_range_out_of_bounds :
  priskvClusterConnect ex_connect (Reply (Some (mk_meta 1 [mk_info [97] 1000 [mk_range (-1) 2]]))) no_cluster = Fault OutOfBounds.
Proof. vm_compute. reflexivity. Qed.

(** A held request whose key has no node after an update. *)
Lemma retry_without_node :
  retry_loop ex_limits ex_now [7] (set_retry [7] (set_reqs {[7 := mk_creq [] 5 TEST 900 [] 0 (0, 0)]} (set_keys {[900 := [107]]} no_cluster)))
    = Fault NullDeref.
Proof. vm_compute. reflexivity. Qed.

(** An empty key, when a node has its slot: the request is called back and freed by
    the check, and sent all the same; its answer follows the freed request. *)
Definition ex_slot0 : cluster :=
  ex_after (EvKey 901 (Some [])) (state_after (priskvClusterConnect ex_connect
    (Reply (Some (mk_meta 1 [mk_info [97] 1000 [mk_range 0 1]]))) no_cluster) no_cluster).
Lemma empty_key_freed_twice :
  let s := ex_after (EvTest 901 5) ex_slot0 in
  k_reqs s = ∅ ∧ cc_status <$> k_log s = [PRISKV_STATUS_KEY_EMPTY] ∧ length (k_sent s) = 1%nat ∧
  handle ex_connect ex_limits ex_now (EvAnswer 0 PRISKV_STATUS_OK (Some 3)) s = Fault UseAfterFree.
Proof. vm_compute. done. Qed.

(** With a scatter list, it is the freed list that is copied. *)
Lemma empty_key_list_freed :
  handle ex_connect ex_limits ex_now (EvGet 901 [mk_csgl 0 16 None] 5) ex_slot0 = Fault UseAfterFree.
Proof. vm_compute. reflexivity. Qed.

(** The key is not copied: a user who frees it before the answer has it followed, if
    the answer fails during an update. *)
Lemma freed_key_is_followed :
  let s := ex_after (EvKey 900 None) (ex_after (EvTimer (Reply (Some (mk_meta 2 [])))) (ex_after ex_get ex_cluster)) in
  k_metaUpdating s = true ∧
  handle ex_connect ex_limits ex_now (EvAnswer 0 PRISKV_STATUS_RDMA_ERROR None) s = Fault UseAfterFree.
Proof. vm_compute. done. Qed.

(** The connection to the meta server is lost: the reply is a null pointer. *)
Lemma lost_meta_server : handle ex_connect ex_limits ex_now (EvTimer NoReply) ex_cluster = Fault NullDeref.
Proof. reflexivity. Qed.
