(* ===== verification/Backend.v ===== *)
(** * Tiers of storage behind the store

    [server/backend/backend.c]: an address such as [localfs:/a;redis:b] names a
    chain of devices, each caching the next one. The module parses and opens such
    a chain, and runs GET, SET, DEL and TEST on it by callbacks: every driver
    operation is given a callback and a request that says what to do next.

    A callback with its argument is a value of [callback]; running it leads to the
    next driver operation or to the caller's callback ([backend_outcome]). The drivers
    answer later, in any way their contract [drv] allows. *)

From S2P Require Import Prelude State Utils CString ServerModel.

(** ** Addresses *)

Definition COLON : Z := 58.
Definition SEMICOLON : Z := 59.

Record priskv_backend_link := mk_link {
  link_protocol : list Z;
  link_address : list Z;
  link_childaddr : option (list Z)
}.

Definition parse_link (address : option (list Z)) : option priskv_backend_link :=
  match address with
  | None | Some [] => None
  | Some address =>
      match strchr address COLON with
      | None => None
      | Some delim =>
          let protocol := strndup address (Z.of_nat delim) in
          let rest := drop (S delim) address in
          let '(addr, childaddr) :=
            match strchr address SEMICOLON with
            | None => (rest, None)
            | Some stop => (strndup rest (Z.of_nat stop - Z.of_nat delim - 1), Some (drop (S stop) address))
            end in
          if (length protocol =? 0)%nat || (length addr =? 0)%nat
             || match childaddr with Some c => (length c =? 0)%nat | None => false end
          then None
          else Some (mk_link protocol addr childaddr)
      end
  end.

(** ** Devices *)

(** A device and the one it caches. [dev_id] is its private data: what the driver
    opened. *)
Inductive device := mk_device (dev_id : Z) (link : priskv_backend_link) (child : option device).

Definition dev_id (d : device) : Z := match d with mk_device i _ _ => i end.
Definition dev_link (d : device) : priskv_backend_link := match d with mk_device _ l _ => l end.
Definition dev_child (d : device) : option device := match d with mk_device _ _ c => c end.

(** What the drivers were told. *)
Inductive dev_event := DevOpened (id : Z) | DevClosed (id : Z).

Section open.
(** The registered drivers, by name, and whether their [open], [close] and
    [clearup] succeed on the device with a given number. *)
Context (drivers : list (list Z)).
Context (open_ok close_ok clearup_ok : Z → bool).

Definition priskv_backend_find_driver (name : list Z) : option (list Z) :=
  list_find (λ d, d = name) drivers ≫= λ p, Some p.2.

Fixpoint priskv_backend_close (d : device) (log : list dev_event) : bool * list dev_event :=
  match d with
  | mk_device id _ child =>
      let '(ok, log) := match child with Some c => priskv_backend_close c log | None => (true, log) end in
      if ok : bool then (close_ok id, log ++ [DevClosed id]) else (false, log)
  end.

(** [next] numbers the devices. The fuel bounds the depth of the chain. *)
Fixpoint priskv_backend_open (fuel : nat) (address : option (list Z)) (next : Z) (log : list dev_event)
    : res (option device * Z * list dev_event) :=
  match fuel with
  | O => Fault OutOfFuel
  | S fuel =>
      match parse_link address with
      | None => Ok (None, next, log)
      | Some link =>
          match priskv_backend_find_driver (link_protocol link) with
          | None => Ok (None, next, log)
          | Some _ =>
              let id := next in
              let next := next + 1 in
              if negb (open_ok id) then Ok (None, next, log) else
              let log := log ++ [DevOpened id] in
              match link_childaddr link with
              | None => Ok (Some (mk_device id link None), next, log)
              | Some childaddr =>
                  '(child, next, log) ← priskv_backend_open fuel (Some childaddr) next log;
                  match child with
                  | None => Ok (None, next, log ++ [DevClosed id])
                  | Some child =>
                      let bdev := mk_device id link (Some child) in
                      if clearup_ok id then Ok (Some bdev, next, log)
                      else Ok (None, next, (priskv_backend_close bdev log).2)
                  end
              end
          end
      end
  end.
End open.

(** ** Requests *)

(** Operations of a driver. The value buffer is the caller's. *)
Inductive driver_op :=
  | DrvGet (key : list Z) (valuelen : Z)
  | DrvSet (key : list Z) (valuelen timeout : Z)
  | DrvDel (key : list Z)
  | DrvTest (key : list Z)
  | DrvEvict.

(** [priskv_backend_request] and [priskv_backend_freeup_context], with the callback
    they end with, and the callbacks with the request they are given. *)
Inductive priskv_backend_request :=
  mk_request (bdev : device) (key : list Z) (valuelen timeout : Z) (cb : callback)
with priskv_backend_freeup_context :=
  mk_freeup (bdev : device) (valuelen : Z) (cb : callback)
with callback :=
  | cb_caller
  | cb_get (req : priskv_backend_request)
  | cb_child_get (req : priskv_backend_request)
  | cb_cache (req : priskv_backend_request)
  | cb_cached (req : priskv_backend_request)
  | cb_freeup (ctx : priskv_backend_freeup_context)
  | cb_set (req : priskv_backend_request)
  | cb_child_set (req : priskv_backend_request)
  | cb_del (req : priskv_backend_request)
  | cb_child_del (req : priskv_backend_request)
  | cb_test (req : priskv_backend_request).

(** What running a callback leads to. *)
Inductive backend_outcome :=
  | Finished (status : priskv_backend_status) (length : Z)
  | Call (bdev : device) (op : driver_op) (cb : callback).

Global Instance backend_status_eq_dec : EqDecision priskv_backend_status.
Proof. solve_decision. Defined.

Definition status_ok (st : priskv_backend_status) : bool :=
  match st with PRISKV_BACKEND_STATUS_OK => true | _ => false end.

Definition priskv_backend_get (bdev : device) (key : list Z) (valuelen : Z) (cb : callback) : backend_outcome :=
  Call bdev (DrvGet key valuelen) (cb_get (mk_request bdev key valuelen 0 cb)).

Fixpoint priskv_backend_set (bdev : device) (key : list Z) (valuelen timeout : Z) (cb : callback) : backend_outcome :=
  match bdev with
  | mk_device id link child =>
      let req := mk_request (mk_device id link child) key valuelen 0 cb in
      match child with
      | Some c => priskv_backend_set c key valuelen timeout (cb_child_set req)
      | None => Call bdev (DrvSet key valuelen timeout) (cb_set req)
      end
  end.

Fixpoint priskv_backend_del (bdev : device) (key : list Z) (cb : callback) : backend_outcome :=
  match bdev with
  | mk_device id link child =>
      let req := mk_request (mk_device id link child) key 0 0 cb in
      match child with
      | Some c => priskv_backend_del c key (cb_child_del req)
      | None => Call bdev (DrvDel key) (cb_del req)
      end
  end.

Definition priskv_backend_test (bdev : device) (key : list Z) (cb : callback) : backend_outcome :=
  Call bdev (DrvTest key) (cb_test (mk_request bdev key 0 0 cb)).

(** The body of every callback, given what the callback of its request does
    ([k]). *)
Section callbacks.
Context (is_cacheable : device → Z → bool).
Implicit Types k : priskv_backend_status → Z → backend_outcome.

(** [_priskv_backend_freeup]. *)
Definition freeup (ctx : priskv_backend_freeup_context) k : backend_outcome :=
  match ctx with
  | mk_freeup bdev valuelen _ =>
      if negb (is_cacheable bdev valuelen) then Call bdev DrvEvict (cb_freeup ctx)
      else k PRISKV_BACKEND_STATUS_OK (u32 valuelen)
  end.

Definition priskv_backend_freeup_cb (ctx : priskv_backend_freeup_context) k (st : priskv_backend_status) : backend_outcome :=
  match ctx with
  | mk_freeup _ valuelen _ => if negb (status_ok st) then k st (u32 valuelen) else freeup ctx k
  end.

(** The request cached, or not; the caller is told that it has its value. *)
Definition priskv_backend_cache_cb k (st : priskv_backend_status) (length : Z) : backend_outcome :=
  k PRISKV_BACKEND_STATUS_OK length.

Definition priskv_backend_cache (req : priskv_backend_request) k (st : priskv_backend_status) (length : Z)
    : backend_outcome :=
  match req with
  | mk_request bdev key valuelen _ _ =>
      if negb (status_ok st) then k PRISKV_BACKEND_STATUS_OK length
      else Call bdev (DrvSet key valuelen 0) (cb_cached req)
  end.

(** [priskv_backend_freeup] is in line. *)
Definition priskv_backend_child_get_cb (req : priskv_backend_request) k (st : priskv_backend_status) (length : Z)
    : backend_outcome :=
  match req with
  | mk_request bdev _ _ _ _ =>
      if status_ok st then freeup (mk_freeup bdev length (cb_cache req)) (priskv_backend_cache req k)
      else k st length
  end.

Definition priskv_backend_get_cb (req : priskv_backend_request) k (st : priskv_backend_status) (length : Z)
    : backend_outcome :=
  match req with
  | mk_request bdev key valuelen _ _ =>
      if status_ok st then k st length else
      match dev_child bdev with
      | Some child => priskv_backend_get child key valuelen (cb_child_get req)
      | None => k st length
      end
  end.

Definition priskv_backend_child_set_cb (req : priskv_backend_request) k (st : priskv_backend_status) (length : Z)
    : backend_outcome :=
  match req with
  | mk_request bdev key _ _ _ => if status_ok st then Call bdev (DrvDel key) (cb_set req) else k st length
  end.

Definition priskv_backend_child_del_cb (req : priskv_backend_request) k (st : priskv_backend_status) (length : Z)
    : backend_outcome :=
  match req with
  | mk_request bdev key _ _ _ => if status_ok st then Call bdev (DrvDel key) (cb_del req) else k st length
  end.

Definition priskv_backend_test_cb (req : priskv_backend_request) k (st : priskv_backend_status) (length : Z)
    : backend_outcome :=
  match req with
  | mk_request bdev key _ _ cb =>
      if status_ok st then k st length else
      match dev_child bdev with
      | Some child => priskv_backend_test child key cb
      | None => k st length
      end
  end.

(** A callback is called with a status and a length. [cb_set] and [cb_del] only
    pass them on. *)
Fixpoint invoke (cb : callback) (st : priskv_backend_status) (length : Z) {struct cb} : backend_outcome :=
  match cb with
  | cb_caller => Finished st length
  | cb_get ((mk_request _ _ _ _ cb') as req) => priskv_backend_get_cb req (invoke cb') st length
  | cb_child_get ((mk_request _ _ _ _ cb') as req) => priskv_backend_child_get_cb req (invoke cb') st length
  | cb_cache ((mk_request _ _ _ _ cb') as req) => priskv_backend_cache req (invoke cb') st length
  | cb_cached (mk_request _ _ _ _ cb') => priskv_backend_cache_cb (invoke cb') st length
  | cb_freeup ((mk_freeup _ _ cb') as ctx) => priskv_backend_freeup_cb ctx (invoke cb') st
  | cb_set (mk_request _ _ _ _ cb') => invoke cb' st length
  | cb_child_set ((mk_request _ _ _ _ cb') as req) => priskv_backend_child_set_cb req (invoke cb') st length
  | cb_del (mk_request _ _ _ _ cb') => invoke cb' st length
  | cb_child_del ((mk_request _ _ _ _ cb') as req) => priskv_backend_child_del_cb req (invoke cb') st length
  | cb_test ((mk_request _ _ _ _ cb') as req) => priskv_backend_test_cb req (invoke cb') st length
  end.
End callbacks.
