(* ===== verification/BackendProps.v ===== *)
(** * Requests on a chain of tiers

    Whatever the drivers of a chain answer, a request on it ends, and what its
    answer says about the tiers is true. *)

From S2P Require Import Prelude State Utils CString ServerModel Backend.

(** ** Drivers and runs *)

Notation contents := (gmap (list Z) (list Z)).

(** What a driver may answer: status and length, what its device holds then, and
    what is in the caller's buffer. An operation may fail; a SET that fails leaves
    the old value or none; an eviction that succeeds removes something. *)
Inductive drv (t : contents) (buf : list Z) :
    driver_op → priskv_backend_status → Z → contents → list Z → Prop :=
  | drv_get_hit key valuelen v :
      t !! key = Some v → Z.of_nat (length v) <= valuelen →
      drv t buf (DrvGet key valuelen) PRISKV_BACKEND_STATUS_OK (Z.of_nat (length v)) t
        (v ++ drop (length v) buf)
  | drv_get_fail key valuelen st len buf' :
      st ≠ PRISKV_BACKEND_STATUS_OK → length buf' = length buf →
      drv t buf (DrvGet key valuelen) st len t buf'
  | drv_set_done key valuelen timeout :
      drv t buf (DrvSet key valuelen timeout) PRISKV_BACKEND_STATUS_OK valuelen
        (<[key := take (Z.to_nat valuelen) buf]> t) buf
  | drv_set_fail key valuelen timeout st len t' :
      st ≠ PRISKV_BACKEND_STATUS_OK → t' = t ∨ t' = delete key t →
      drv t buf (DrvSet key valuelen timeout) st len t' buf
  | drv_del_done key len : drv t buf (DrvDel key) PRISKV_BACKEND_STATUS_OK len (delete key t) buf
  | drv_del_fail key st len : st ≠ PRISKV_BACKEND_STATUS_OK → drv t buf (DrvDel key) st len t buf
  | drv_test_hit key v :
      t !! key = Some v → drv t buf (DrvTest key) PRISKV_BACKEND_STATUS_OK (Z.of_nat (length v)) t buf
  | drv_test_fail key st len : st ≠ PRISKV_BACKEND_STATUS_OK → drv t buf (DrvTest key) st len t buf
  | drv_evict_done len t' : t' ⊂ t → drv t buf DrvEvict PRISKV_BACKEND_STATUS_OK len t' buf
  | drv_evict_fail st len t' : st ≠ PRISKV_BACKEND_STATUS_OK → t' ⊆ t → drv t buf DrvEvict st len t' buf.

(** What every device holds. *)
Notation tiers := (Z → contents).
Definition upd (σ : tiers) (i : Z) (t : contents) : tiers := λ j, if decide (j = i) then t else σ j.

Lemma upd_eq σ i t : upd σ i t i = t.
Proof. unfold upd. by rewrite decide_True. Qed.
Lemma upd_ne σ i j t : j ≠ i → upd σ i t j = σ j.
Proof. intros. unfold upd. by rewrite decide_False. Qed.

Section runs.
(** Whether a device has room. *)
Context (room : Z → contents → Z → bool).

Definition cacheable (σ : tiers) (d : device) (n : Z) : bool := room (dev_id d) (σ (dev_id d)) n.
Definition resume (σ : tiers) : callback → priskv_backend_status → Z → backend_outcome := invoke (cacheable σ).

(** Every run ends, after finitely many answers of drivers, with the caller's
    callback, and [Q] holds of the tiers, the buffer, the status and the
    length. *)
Inductive always (Q : tiers → list Z → priskv_backend_status → Z → Prop) :
    tiers → list Z → backend_outcome → Prop :=
  | always_finished σ buf st len : Q σ buf st len → always Q σ buf (Finished st len)
  | always_call σ buf d op cb :
      (∀ st len t' buf', drv (σ (dev_id d)) buf op st len t' buf' →
         always Q (upd σ (dev_id d) t') buf' (resume (upd σ (dev_id d) t') cb st len)) →
      always Q σ buf (Call d op cb).

(** ** The chain *)

Fixpoint chain (d : device) : list Z :=
  match d with mk_device id _ child => id :: match child with Some c => chain c | None => [] end end.
Fixpoint bottom (d : device) : Z :=
  match d with mk_device id _ child => match child with Some c => bottom c | None => id end end.

Lemma device_induction (P : device → Prop) :
  (∀ id l, P (mk_device id l None)) → (∀ id l c, P c → P (mk_device id l (Some c))) → ∀ d, P d.
Proof.
  intros H1 H2. fix IH 1. intros [id l [c|]]; [apply H2, IH|apply H1].
Qed.

Lemma bottom_in d : bottom d ∈ chain d.
Proof. induction d using device_induction; simpl; set_solver. Qed.

(** The last tier is the one that counts: what the others hold extends what it
    holds. *)
Definition coherent (σ : tiers) (d : device) : Prop :=
  ∀ i, i ∈ chain d → ∀ key w, σ i !! key = Some w →
    ∃ v, σ (bottom d) !! key = Some v ∧ v `prefix_of` w.

Lemma coherent_child σ id l c : coherent σ (mk_device id l (Some c)) → coherent σ c.
Proof. intros Hc i Hi. apply Hc. simpl. set_solver. Qed.

(** ** GET *)

(** The tiers after a GET: the last one as it was, the others coherent, and
    those outside the chain untouched. *)
Definition get_tiers (d : device) (σ σ' : tiers) : Prop :=
  σ' (bottom d) = σ (bottom d) ∧ coherent σ' d ∧ ∀ i, i ∉ chain d → σ' i = σ i.

Definition get_answer (d : device) (key : list Z) (n : Z) (σ : tiers) (buf : list Z)
    (σ' : tiers) (buf' : list Z) (st : priskv_backend_status) (len : Z) : Prop :=
  get_tiers d σ σ' ∧ length buf' = length buf ∧
  (st = PRISKV_BACKEND_STATUS_OK →
     ∃ v, σ (bottom d) !! key = Some v ∧ v `prefix_of` buf' ∧ Z.of_nat (length v) <= n).

Lemma prefix_take (v w : list Z) n : v `prefix_of` w → (length v <= n)%nat → v `prefix_of` take n w.
Proof. intros [r ->] Hn. rewrite take_app_ge by done. by eexists. Qed.

Lemma hit_length (v buf : list Z) : (length v <= length buf)%nat → length (v ++ drop (length v) buf) = length buf.
Proof. intros. rewrite length_app, length_drop. lia. Qed.

(** Tiers that hold the same are as good. *)
Lemma get_tiers_intro d σ σ' :
  (∀ i, i ∈ chain d → ∀ k w, σ' i !! k = Some w → ∃ v, σ (bottom d) !! k = Some v ∧ v `prefix_of` w) →
  σ' (bottom d) = σ (bottom d) → (∀ i, i ∉ chain d → σ' i = σ i) → get_tiers d σ σ'.
Proof. intros Hc Hb Ho. split; [done|]. split; [|done]. intros i Hi k w Hw. rewrite Hb. by eapply Hc. Qed.

Lemma upd_same σ i j : upd σ i (σ i) j = σ j.
Proof. unfold upd. by destruct (decide (j = i)) as [->|]. Qed.

Lemma get_tiers_same d σ i : coherent σ d → get_tiers d σ (upd σ i (σ i)).
Proof.
  intros Hc. apply get_tiers_intro; intros; rewrite ?upd_same in *; [by eapply Hc|done|done].
Qed.

(** The answer of the tier below, seen from above. *)
Lemma get_answer_parent id l c key n σ buf0 buf σ' buf' st len :
  NoDup (chain (mk_device id l (Some c))) → coherent σ (mk_device id l (Some c)) →
  length buf = length buf0 →
  get_answer c key n (upd σ id (σ id)) buf σ' buf' st len →
  get_answer (mk_device id l (Some c)) key n σ buf0 σ' buf' st len.
Proof.
  intros Hnd Hc Hl [(Hb & Hcc & Ho) [Hl' Hok]]. apply NoDup_cons in Hnd as [Hid _].
  rewrite upd_same in Hb, Hok. split; [|split; [congruence|done]].
  apply get_tiers_intro; [|done|].
  - intros i Hi k w Hw. apply elem_of_cons in Hi as [->|Hi].
    + rewrite Ho, upd_same in Hw by done. apply (Hc id); [by left|done].
    + destruct (Hcc i Hi k w Hw) as (v & Hv & Hp). rewrite Hb in Hv. eauto.
  - intros i Hi. apply not_elem_of_cons in Hi as [_ Hi]. by rewrite Ho, upd_same.
Qed.

(** Entries of a cache that are removed, or that extend what the last tier has. *)
Lemma get_answer_cache id l c key n σ buf0 σ1 buf st len len' t' :
  let d := mk_device id l (Some c) in
  NoDup (chain d) → get_answer d key n σ buf0 σ1 buf st len →
  (∀ k w, t' !! k = Some w → σ1 id !! k = Some w ∨ ∃ v, σ (bottom d) !! k = Some v ∧ v `prefix_of` w) →
  get_answer d key n σ buf0 (upd σ1 id t') buf st len'.
Proof.
  intros d Hnd [(Hb & Hcc & Ho) [Hl Hok]] Ht. apply NoDup_cons in Hnd as [Hid _].
  assert (bottom d ≠ id) as Hne by (intros He; apply Hid; change (bottom c = id) in He; rewrite <- He; exact (bottom_in c)).
  split; [|done]. apply get_tiers_intro.
  - intros i Hi k w Hw. assert (∀ w, σ1 i !! k = Some w → ∃ v, σ (bottom d) !! k = Some v ∧ v `prefix_of` w) as Hold.
    { intros w' Hw'. rewrite <- Hb. by eapply Hcc. }
    destruct (decide (i = id)) as [->|]; [|rewrite upd_ne in Hw by done; eauto].
    rewrite upd_eq in Hw. destruct (Ht k w Hw) as [?|?]; eauto.
  - by rewrite upd_ne.
  - intros i Hi. rewrite upd_ne by (intros ->; apply Hi; by left). by apply Ho.
Qed.

(** Making room in a cache, then filling it. *)
Lemma freeup_always Q id l c key n cb σ buf0 : let d := mk_device id l (Some c) in
  NoDup (chain d) → (∀ σ' buf' st len, get_answer d key n σ buf0 σ' buf' st len → always Q σ' buf' (resume σ' cb st len)) →
  ∀ m σ1 buf vlen len, (size (σ1 id) <= m)%nat →
    get_answer d key n σ buf0 σ1 buf PRISKV_BACKEND_STATUS_OK len →
    let req := mk_request d key n 0 cb in
    always Q σ1 buf (freeup (cacheable σ1) (mk_freeup d vlen (cb_cache req)) (priskv_backend_cache req (resume σ1 cb))).
Proof.
  intros d Hnd Hk m. induction m as [m IH] using lt_wf_ind. intros σ1 buf vlen len Hm Ha req.
  unfold freeup. destruct (cacheable σ1 d vlen) eqn:Hroom; simpl.
  - constructor. intros st len' t' buf' Hd. apply Hk. cbn [dev_id d] in *. inversion Hd; subst.
    + eapply get_answer_cache; [done|exact Ha|]. intros k w Hw.
      apply lookup_insert_Some in Hw as [[<- <-]|[_ Hw]]; [right|by left].
      destruct Ha as [_ [_ Hok]]. destruct (Hok eq_refl) as (v & Hv & Hp & Hn). exists v. split; [done|].
      apply prefix_take; [done|lia].
    + eapply get_answer_cache; [done|exact Ha|]. intros k w Hw. left.
      match goal with H : _ ∨ _ |- _ => destruct H as [->| ->] end; [done|by apply lookup_delete_Some in Hw as [_ ?]].
  - constructor. intros st len' t' buf' Hd. cbn [dev_id d] in *. inversion Hd; subst.
    + assert (size t' < m)%nat as Hlt.
      { eapply Nat.lt_le_trans; [|exact Hm]. by apply map_subset_size. }
      change (always Q (upd σ1 id t') buf' (freeup (cacheable (upd σ1 id t')) (mk_freeup d vlen (cb_cache req))
        (priskv_backend_cache req (resume (upd σ1 id t') cb)))).
      eapply (IH (size t') Hlt (upd σ1 id t') buf' vlen len); [by rewrite upd_eq|].
      eapply get_answer_cache; [done|exact Ha|]. intros k w Hw. left. eapply lookup_weaken; [done|].
        match goal with H : _ ⊂ _ |- _ => apply H end.
    + assert (resume (upd σ1 id t') (cb_freeup (mk_freeup d vlen (cb_cache req))) st len'
        = resume (upd σ1 id t') cb PRISKV_BACKEND_STATUS_OK (u32 vlen)) as -> by (by destruct st).
      apply Hk. eapply get_answer_cache; [done|exact Ha|]. intros k w Hw. left. by eapply lookup_weaken.
Qed.

Lemma get_always Q key n d : ∀ σ buf cb,
  NoDup (chain d) → coherent σ d → 0 <= n <= Z.of_nat (length buf) →
  (∀ σ' buf' st len, get_answer d key n σ buf σ' buf' st len → always Q σ' buf' (resume σ' cb st len)) →
  always Q σ buf (priskv_backend_get d key n cb).
Proof.
  induction d as [id l|id l c IH] using device_induction; intros σ buf cb Hnd Hc Hn Hk;
    constructor; intros st len t' buf' Hd; cbn [dev_id] in *.
  - assert (resume (upd σ id t') (cb_get (mk_request (mk_device id l None) key n 0 cb)) st len
      = resume (upd σ id t') cb st len) as -> by (by destruct st).
    apply Hk. inversion Hd; subst; (split; [by apply get_tiers_same|]).
    + split; [apply hit_length; lia|]. intros _. exists v. simpl. split; [done|]. split; [by eexists|done].
    + split; [done|]. done.
  - inversion Hd; subst.
    + apply Hk. split; [by apply get_tiers_same|]. split; [apply hit_length; lia|]. intros _.
      destruct (Hc id ltac:(by left) key v ltac:(done)) as (v' & Hv' & Hp). exists v'. split; [done|].
      split; [by etrans; [exact Hp|eexists]|]. apply prefix_length in Hp. lia.
    + set (req := mk_request (mk_device id l (Some c)) key n 0 cb).
      assert (resume (upd σ id (σ id)) (cb_get req) st len = priskv_backend_get c key n (cb_child_get req)) as ->
        by (by destruct st).
      apply IH; [by apply NoDup_cons in Hnd as [_ ?]| |lia|].
      { intros i Hi k w Hw. rewrite upd_same in Hw |- *. apply (coherent_child _ _ _ _ Hc i Hi k w Hw). }
      intros σ2 buf2 st2 len2 Ha2. eapply get_answer_parent in Ha2; [|done|done|done].
      destruct (decide (st2 = PRISKV_BACKEND_STATUS_OK)) as [->|Hst].
      * eapply freeup_always; [done|exact Hk|done|exact Ha2].
      * assert (resume σ2 (cb_child_get req) st2 len2 = resume σ2 cb st2 len2) as -> by (by destruct st2).
        by apply Hk.
Qed.

(** ** SET, DEL and TEST *)

(** Only [key] changes, and only in the tiers of [d]. *)
Definition key_only (d : device) (key : list Z) (σ σ' : tiers) : Prop :=
  (∀ i, i ∉ chain d → σ' i = σ i) ∧ ∀ i k, k ≠ key → σ' i !! k = σ i !! k.

Lemma key_only_upd d key σ i t' :
  i ∈ chain d → (∀ k, k ≠ key → t' !! k = σ i !! k) → key_only d key σ (upd σ i t').
Proof.
  intros Hi Ht. split.
  - intros j Hj. rewrite upd_ne; [done|]. by intros ->.
  - intros j k Hk. destruct (decide (j = i)) as [->|]; [rewrite upd_eq; by apply Ht|by rewrite upd_ne].
Qed.

Lemma key_only_parent id l c key σ σ1 t' :
  key_only c key σ σ1 → (∀ k, k ≠ key → t' !! k = σ1 id !! k) →
  key_only (mk_device id l (Some c)) key σ (upd σ1 id t').
Proof.
  intros [Ho Hk] Ht. split.
  - intros j Hj. apply not_elem_of_cons in Hj as [Hne Hj]. rewrite upd_ne by done. by apply Ho.
  - intros j k Hne. destruct (decide (j = id)) as [->|]; [rewrite upd_eq, Ht by done|rewrite upd_ne by done]; by apply Hk.
Qed.

Lemma key_only_grow id l c key σ σ1 : key_only c key σ σ1 → key_only (mk_device id l (Some c)) key σ σ1.
Proof. intros [Ho Hk]. split; [|done]. intros j Hj. apply not_elem_of_cons in Hj as [_ Hj]. by apply Ho. Qed.

(** A SET that succeeds: the last tier has the value, no other tier has the key.
    One that fails: the last tier has the new value, the old one, or none. *)
Definition set_answer (d : device) (key : list Z) (n : Z) (σ : tiers) (buf : list Z)
    (σ' : tiers) (buf' : list Z) (st : priskv_backend_status) : Prop :=
  let v := take (Z.to_nat n) buf in
  buf' = buf ∧ key_only d key σ σ' ∧
  (st = PRISKV_BACKEND_STATUS_OK →
     σ' (bottom d) !! key = Some v ∧ ∀ i, i ∈ chain d → i ≠ bottom d → σ' i !! key = None) ∧
  (σ' (bottom d) !! key = Some v ∨ σ' (bottom d) !! key = σ (bottom d) !! key ∨ σ' (bottom d) !! key = None).

Lemma set_always Q key n timeout d : ∀ σ buf cb,
  NoDup (chain d) →
  (∀ σ' buf' st len, set_answer d key n σ buf σ' buf' st → always Q σ' buf' (resume σ' cb st len)) →
  always Q σ buf (priskv_backend_set d key n timeout cb).
Proof.
  induction d as [id l|id l c IH] using device_induction; intros σ buf cb Hnd Hk.
  - constructor. intros st len t' buf' Hd. cbn [dev_id] in *. apply (Hk (upd σ id t')).
    inversion Hd; subst; unfold set_answer; simpl; rewrite upd_eq; (split; [done|]).
    + split; [apply key_only_upd; [by left|]; intros k Hne; by rewrite lookup_insert_ne|].
      rewrite lookup_insert_eq. split; [|by left]. intros _. split; [done|]. set_solver.
    + match goal with H : _ ∨ _ |- _ => destruct H as [->| ->] end.
      * split; [by apply key_only_upd; [left|]|]. split; [done|]. right. by left.
      * split; [apply key_only_upd; [by left|]; intros k Hne; by rewrite lookup_delete_ne|].
        split; [done|]. right. right. by rewrite lookup_delete_eq.
  - cbn [priskv_backend_set]. pose proof Hnd as Hnd'. apply NoDup_cons in Hnd' as [Hid Hnd'].
    assert (bottom c ≠ id) as Hne by (intros <-; apply Hid, bottom_in).
    apply IH; [done|]. intros σ1 buf1 st1 len1 (-> & Hko & Hok & Hany).
    destruct (decide (st1 = PRISKV_BACKEND_STATUS_OK)) as [->|Hst].
    + constructor. intros st len t' buf' Hd. cbn [dev_id] in *. apply Hk.
      destruct (Hok eq_refl) as [Hb Ha]. unfold set_answer. cbn [bottom]. rewrite upd_ne by done.
      inversion Hd; subst; (split; [done|]); (split; [apply key_only_parent; [done|]|]).
      * intros k Hk'. by rewrite lookup_delete_ne.
      * split; [|by left]. intros _. split; [done|]. intros i Hi Hib. destruct (decide (i = id)) as [->|Hi'].
        -- by rewrite upd_eq, lookup_delete_eq.
        -- rewrite upd_ne by done. apply Ha; [|done]. by apply elem_of_cons in Hi as [?|?].
      * done.
      * split; [done|by left].
    + assert (resume σ1 (cb_child_set (mk_request (mk_device id l (Some c)) key n 0 cb)) st1 len1
        = resume σ1 cb st1 len1) as -> by (by destruct st1).
      apply Hk. split; [done|]. split; [by apply key_only_grow|]. done.
Qed.

(** A DEL that succeeds: no tier has the key. *)
Definition del_answer (d : device) (key : list Z) (σ : tiers) (buf : list Z)
    (σ' : tiers) (buf' : list Z) (st : priskv_backend_status) : Prop :=
  buf' = buf ∧ key_only d key σ σ' ∧
  (st = PRISKV_BACKEND_STATUS_OK → ∀ i, i ∈ chain d → σ' i !! key = None) ∧
  (∀ i, σ' i !! key = σ i !! key ∨ σ' i !! key = None).

Lemma del_tier (id len : Z) (key buf buf' : list Z) (st : priskv_backend_status) (t' : contents) (σ1 σ : tiers) :
  (∀ i, σ1 i !! key = σ i !! key ∨ σ1 i !! key = None) →
  drv (σ1 id) buf (DrvDel key) st len t' buf' →
  buf' = buf ∧ (∀ k, k ≠ key → t' !! k = σ1 id !! k) ∧ (st = PRISKV_BACKEND_STATUS_OK → t' !! key = None) ∧
  ∀ i, upd σ1 id t' i !! key = σ i !! key ∨ upd σ1 id t' i !! key = None.
Proof.
  intros Hold Hd. inversion Hd; subst; (split; [done|]).
  - split; [intros k Hk; by rewrite lookup_delete_ne|]. rewrite lookup_delete_eq. split; [done|].
    intros i. destruct (decide (i = id)) as [->|]; [right; by rewrite upd_eq, lookup_delete_eq|].
    rewrite upd_ne by done. apply Hold.
  - split; [done|]. split; [done|]. intros i. rewrite upd_same. apply Hold.
Qed.

Lemma del_always Q key d : ∀ σ buf cb,
  NoDup (chain d) →
  (∀ σ' buf' st len, del_answer d key σ buf σ' buf' st → always Q σ' buf' (resume σ' cb st len)) →
  always Q σ buf (priskv_backend_del d key cb).
Proof.
  induction d as [id l|id l c IH] using device_induction; intros σ buf cb Hnd Hk.
  - constructor. intros st len t' buf' Hd. cbn [dev_id] in *. apply (Hk (upd σ id t')).
    destruct (del_tier id len key buf buf' st t' σ σ ltac:(by left) Hd) as (-> & Ht & Hok & Hall).
    split; [done|]. split; [apply key_only_upd; [by left|done]|]. split; [|done].
    intros Hst i Hi. apply list_elem_of_singleton in Hi as ->. rewrite upd_eq. by apply Hok.
  - cbn [priskv_backend_del]. pose proof Hnd as Hnd'. apply NoDup_cons in Hnd' as [Hid Hnd'].
    apply IH; [done|]. intros σ1 buf1 st1 len1 (-> & Hko & Hok1 & Hall1).
    destruct (decide (st1 = PRISKV_BACKEND_STATUS_OK)) as [->|Hst].
    + constructor. intros st len t' buf' Hd. cbn [dev_id] in *. apply Hk.
      destruct (del_tier id len key buf buf' st t' σ1 σ Hall1 Hd) as (-> & Ht & Hok & Hall).
      split; [done|]. split; [by apply key_only_parent|]. split; [|done]. intros Hst i Hi.
      apply elem_of_cons in Hi as [->|Hi]; [rewrite upd_eq; by apply Hok|].
      rewrite upd_ne by (by intros ->). by apply Hok1.
    + assert (resume σ1 (cb_child_del (mk_request (mk_device id l (Some c)) key 0 0 cb)) st1 len1
        = resume σ1 cb st1 len1) as -> by (by destruct st1).
      apply Hk. split; [done|]. split; [by apply key_only_grow|]. done.
Qed.

(** A TEST changes nothing; one that succeeds found the key in some tier. *)
Definition test_answer (d : device) (key : list Z) (σ : tiers) (buf : list Z)
    (σ' : tiers) (buf' : list Z) (st : priskv_backend_status) (len : Z) : Prop :=
  buf' = buf ∧ (∀ i, σ' i = σ i) ∧
  (st = PRISKV_BACKEND_STATUS_OK → ∃ i w, i ∈ chain d ∧ σ i !! key = Some w ∧ len = Z.of_nat (length w)).

Lemma test_always Q key d : ∀ σ buf cb,
  (∀ σ' buf' st len, test_answer d key σ buf σ' buf' st len → always Q σ' buf' (resume σ' cb st len)) →
  always Q σ buf (priskv_backend_test d key cb).
Proof.
  induction d as [id l|id l c IH] using device_induction; intros σ buf cb Hk;
    constructor; intros st len t' buf' Hd; cbn [dev_id] in *.
  - assert (resume (upd σ id t') (cb_test (mk_request (mk_device id l None) key 0 0 cb)) st len
      = resume (upd σ id t') cb st len) as -> by (by destruct st).
    apply Hk. inversion Hd; subst; (split; [done|]); (split; [intros i; apply upd_same|]); [|done].
    intros _. exists id, v. split; [by left|done].
  - inversion Hd; subst.
    + apply Hk. split; [done|]. split; [intros i; apply upd_same|]. intros _. exists id, v. split; [by left|done].
    + assert (resume (upd σ id (σ id)) (cb_test (mk_request (mk_device id l (Some c)) key 0 0 cb)) st len
        = priskv_backend_test c key cb) as -> by (by destruct st).
      apply IH. intros σ2 buf2 st2 len2 (-> & Hs & Hok). apply Hk. split; [done|].
      split; [intros i; by rewrite Hs, upd_same|]. intros Hst. destruct (Hok Hst) as (i & w & Hi & Hw & ->).
      rewrite upd_same in Hw. exists i, w. split; [by right|done].
Qed.
End runs.

(** (C18) A GET on a chain of different devices whose drivers keep the contract
    [drv], into a buffer of the length asked for, ends, whatever the drivers answer
    within the contract, and leaves coherent tiers coherent: the last tier is not
    changed, and what the tiers above it hold extends what it holds. If it
    succeeds, the last tier has the key and the buffer starts with its value. The
    contract lets every operation fail, but a SET that fails has to leave the old
    value or none: the file driver does not keep it when a write is short
    ([short_write_is_read]), nor the Redis driver when a reply is lost. *)
Theorem backend_get_correct (room : Z → contents → Z → bool) (d : device) (key : list Z) (n : Z)
    (σ : tiers) (buf : list Z) :
  NoDup (chain d) → coherent σ d → 0 <= n <= Z.of_nat (length buf) →
  always room (get_answer d key n σ buf) σ buf (priskv_backend_get d key n cb_caller).
Proof. intros Hnd Hc Hn. apply get_always; [done..|]. intros σ' buf' st len Ha. by constructor. Qed.

(** (C19) A SET on a chain of different devices whose drivers keep the contract
    [drv] ends, and touches no other key. If it succeeds, the last tier has the
    value, no other tier has the key, and tiers that were coherent still are. If it
    fails, the last tier has the new value, the old one or none. The contract has
    the last part for each driver: a SET of a driver that fails leaves the old
    value or none. The file driver does not keep it when a write is short
    ([short_write_is_read]), nor the Redis driver when a reply is lost. *)
Theorem backend_set_correct (room : Z → contents → Z → bool) (d : device) (key : list Z) (n timeout : Z)
    (σ : tiers) (buf : list Z) :
  NoDup (chain d) →
  always room (λ σ' buf' st len, set_answer d key n σ buf σ' buf' st ∧
      (coherent σ d → st = PRISKV_BACKEND_STATUS_OK → coherent σ' d))
    σ buf (priskv_backend_set d key n timeout cb_caller).
Proof.
  intros Hnd. apply set_always; [done|]. intros σ' buf' st len Ha. constructor. split; [done|].
  destruct Ha as (_ & [_ Hko] & Hok & _). intros Hc Hst i Hi k w Hw. destruct (Hok Hst) as [Hb Hu].
  destruct (decide (i = bottom d)) as [->|Hne]; [by exists w|].
  destruct (decide (k = key)) as [->|Hk]; [by rewrite Hu in Hw|].
  rewrite Hko in Hw |- * by done. by apply (Hc i).
Qed.

(** A DEL on a chain of tiers ends and touches no other key; if it succeeds,
    no tier has the key any more; if it fails, some may have lost it. A TEST ends
    and changes nothing; if it succeeds, a tier has the key, with a value of the
    length that is reported. *)
Theorem backend_del_test_correct (room : Z → contents → Z → bool) (d : device) (key : list Z)
    (σ : tiers) (buf : list Z) :
  NoDup (chain d) →
  always room (λ σ' buf' st _, del_answer d key σ buf σ' buf' st) σ buf (priskv_backend_del d key cb_caller) ∧
  always room (test_answer d key σ buf) σ buf (priskv_backend_test d key cb_caller).
Proof.
  intros Hnd. split.
  - apply del_always; [done|]. intros σ' buf' st len Ha. by constructor.
  - apply test_always. intros σ' buf' st len Ha. by constructor.
Qed.

(** ** Opening a chain *)

(** The address of a chain of protocols and addresses. *)
Fixpoint print_chain (l : list (list Z * list Z)) : list Z :=
  match l with
  | [] => []
  | (protocol, address) :: rest =>
      protocol ++ COLON :: address ++ match rest with [] => [] | _ => SEMICOLON :: print_chain rest end
  end.

Definition link_ok (pa : list Z * list Z) : Prop :=
  pa.1 ≠ [] ∧ COLON ∉ pa.1 ∧ SEMICOLON ∉ pa.1 ∧ pa.2 ≠ [] ∧ SEMICOLON ∉ pa.2.

Lemma nonempty_eqb {A} (l : list A) : l ≠ [] → (length l =? 0)%nat = false.
Proof. by destruct l. Qed.

Lemma parse_print protocol address rest :
  Forall link_ok ((protocol, address) :: rest) →
  Z.of_nat (length (print_chain ((protocol, address) :: rest))) < 2 ^ 64 →
  parse_link (Some (print_chain ((protocol, address) :: rest)))
    = Some (mk_link protocol address (match rest with [] => None | _ => Some (print_chain rest) end)).
Proof.
  intros Hl Hlen. apply Forall_cons in Hl as [(Hp & Hpc & Hps & Ha & Has) Hrest]. simpl in *.
  rewrite !length_app in Hlen. simpl in Hlen. rewrite length_app in Hlen.
  assert (∃ x y, protocol ++ COLON :: address ++ match rest with [] => [] | _ => SEMICOLON :: print_chain rest end = x :: y)
    as (x & y & Hxy) by (destruct protocol; [done|by do 2 eexists]).
  unfold parse_link. rewrite Hxy, <- Hxy, strchr_app by done. unfold strndup.
  rewrite u64_small by lia. rewrite Nat2Z.id, take_app_length.
  assert (drop (S (length protocol)) (protocol ++ COLON :: address ++ match rest with [] => [] | _ => SEMICOLON :: print_chain rest end)
    = address ++ match rest with [] => [] | _ => SEMICOLON :: print_chain rest end) as ->.
  { rewrite drop_app_ge by lia. by replace (S (length protocol) - length protocol)%nat with 1%nat by lia. }
  destruct rest as [|pa rest'].
  - rewrite !app_nil_r. rewrite (proj2 (strchr_None _ _)) by (unfold COLON, SEMICOLON in *; set_solver).
    by rewrite !nonempty_eqb.
  - set (r := print_chain (pa :: rest')) in *.
    assert (r ≠ []) as Hr.
    { unfold r. apply Forall_cons in Hrest as [(Hp' & _) _]. destruct pa as [p' a']. simpl in *. by destruct p'. }
    assert (strchr (protocol ++ COLON :: address ++ SEMICOLON :: r) SEMICOLON
      = Some (length protocol + 1 + length address)%nat) as ->.
    { replace (protocol ++ COLON :: address ++ SEMICOLON :: r) with ((protocol ++ COLON :: address) ++ SEMICOLON :: r)
        by (by rewrite <- app_assoc).
      rewrite strchr_app; [rewrite length_app; simpl; f_equal; lia|]. unfold COLON, SEMICOLON in *. set_solver. }
    replace (Z.of_nat (length protocol + 1 + length address) - Z.of_nat (length protocol) - 1)
      with (Z.of_nat (length address)) by lia.
    rewrite u64_small by lia. rewrite Nat2Z.id, take_app_length.
    assert (drop (S (length protocol + 1 + length address)) (protocol ++ COLON :: address ++ SEMICOLON :: r) = r) as ->.
    { rewrite drop_app_ge by lia.
      replace (S (length protocol + 1 + length address) - length protocol)%nat with (S (S (length address))) by lia.
      simpl. rewrite drop_app_ge by lia. by replace (S (length address) - length address)%nat with 1%nat by lia. }
    by rewrite !nonempty_eqb.
Qed.

(** A link that parses has a shorter child address. *)
Lemma parse_shorter address link child :
  parse_link (Some address) = Some link → link_childaddr link = Some child → (length child < length address)%nat.
Proof.
  unfold parse_link. intros Hp Hc. destruct address as [|x s] eqn:Es; [done|]. rewrite <- Es in *.
  destruct (strchr address COLON) as [delim|]; [|done].
  destruct (strchr address SEMICOLON) as [stop|];
    (match type of Hp with (if ?b then _ else _) = _ => destruct b end; [done|]);
    injection Hp as <-; simpl in Hc; [|done].
  injection Hc as <-. rewrite length_drop, Es. simpl. lia.
Qed.

(** The devices that are open. *)
Definition live (log : list dev_event) : gset Z :=
  foldl (λ s e, match e with DevOpened i => {[i]} ∪ s | DevClosed i => s ∖ {[i]} end) ∅ log.

Lemma live_opened log i : live (log ++ [DevOpened i]) = {[i]} ∪ live log.
Proof. unfold live. by rewrite foldl_app. Qed.
Lemma live_closed log i : live (log ++ [DevClosed i]) = live log ∖ {[i]}.
Proof. unfold live. by rewrite foldl_app. Qed.

Fixpoint links (d : device) : list (list Z * list Z) :=
  match d with
  | mk_device _ l child =>
      (link_protocol l, link_address l) :: match child with Some c => links c | None => [] end
  end.

Section opening.
Context (drivers : list (list Z)) (open_ok close_ok clearup_ok : Z → bool).

Lemma close_spec d : ∀ log,
  (∀ i, close_ok i = true) →
  ∃ log', priskv_backend_close close_ok d log = (true, log') ∧ live log' = live log ∖ list_to_set (chain d).
Proof.
  induction d as [id l|id l c IH] using device_induction; intros log Hc; simpl.
  - rewrite Hc. eexists. split; [done|]. rewrite live_closed. set_solver.
  - destruct (IH log Hc) as (log1 & -> & Hl). rewrite Hc. eexists. split; [done|].
    rewrite live_closed, Hl. set_solver.
Qed.

(** The result of opening: nothing is left open if it fails. *)
Definition opened (next : Z) (log : list dev_event) (r : option device * Z * list dev_event) : Prop :=
  let '(dev, next', log') := r in
  next <= next' ∧
  match dev with
  | None => live log' = live log
  | Some d => live log' = list_to_set (chain d) ∪ live log ∧ NoDup (chain d) ∧ ∀ i, i ∈ chain d → next <= i < next'
  end.

Lemma open_spec fuel : ∀ address next log,
  (length address < fuel)%nat → (∀ i, close_ok i = true) → (∀ i, i ∈ live log → i < next) →
  ∃ r, priskv_backend_open drivers open_ok close_ok clearup_ok fuel (Some address) next log = Ok r ∧
    opened next log r.
Proof.
  induction fuel as [|fuel IH]; intros address next log Hf Hc Hlive; [lia|]. cbn [priskv_backend_open].
  destruct (parse_link (Some address)) as [link|] eqn:Hp; [|eexists; split; [done|]; split; [lia|done]].
  destruct (priskv_backend_find_driver drivers (link_protocol link));
    [|eexists; split; [done|]; split; [lia|done]].
  destruct (open_ok next); cbn [negb]; [|eexists; split; [done|]; split; [lia|done]].
  destruct (link_childaddr link) as [child|] eqn:Hch.
  2:{ eexists. split; [done|]. split; [lia|]. rewrite live_opened. split; [set_solver|]. simpl.
      split; [apply NoDup_singleton|]. intros i Hi. apply list_elem_of_singleton in Hi as ->. lia. }
  destruct (IH child (next + 1) (log ++ [DevOpened next])) as ([[dev next'] log'] & -> & Hle & Ho);
    [pose proof (parse_shorter _ _ _ Hp Hch); lia|done| |].
  { intros i. rewrite live_opened. intros Hi. apply elem_of_union in Hi as [Hi|Hi].
    - apply elem_of_singleton in Hi as ->. lia.
    - specialize (Hlive i Hi). lia. }
  rewrite live_opened in Ho. rewrite Ok_bind. cbv beta iota.
  assert (next ∉ live log) as Hfresh by (intros Hi; specialize (Hlive next Hi); lia).
  destruct dev as [c|].
  2:{ eexists. split; [done|]. split; [lia|]. rewrite live_closed, Ho. set_solver. }
  destruct Ho as (Hl & Hnd & Hr).
  assert (next ∉ chain c) as Hn by (intros Hi; specialize (Hr next Hi); lia).
  destruct (clearup_ok next).
  - eexists. split; [done|]. split; [lia|]. cbn [chain]. split; [rewrite Hl; set_solver|].
    split; [by apply NoDup_cons|]. intros i Hi. apply elem_of_cons in Hi as [->|Hi]; [lia|].
    specialize (Hr i Hi). lia.
  - destruct (close_spec (mk_device next link (Some c)) log' Hc) as (log2 & Hcl & Hl2). rewrite Hcl.
    eexists. split; [done|]. split; [lia|]. simpl snd. rewrite Hl2, Hl. cbn [chain].
    assert (list_to_set (chain c) ## live log).
    { apply elem_of_disjoint. intros i Hi Hi'. apply elem_of_list_to_set in Hi.
      specialize (Hr i Hi). specialize (Hlive i Hi'). lia. }
    set_solver.
Qed.

Lemma find_driver_found name : name ∈ drivers → priskv_backend_find_driver drivers name = Some name.
Proof.
  intros Hin. unfold priskv_backend_find_driver.
  destruct (list_find (λ d, d = name) drivers) as [[i x]|] eqn:Hf; simpl.
  - by apply list_find_Some in Hf as (_ & -> & _).
  - apply list_find_None in Hf. rewrite Forall_forall in Hf. by destruct (Hf name Hin).
Qed.

Lemma open_print l : ∀ fuel next log,
  l ≠ [] → Forall link_ok l → Forall (λ pa, pa.1 ∈ drivers) l → (length (print_chain l) < fuel)%nat →
  Z.of_nat (length (print_chain l)) < 2 ^ 64 → (∀ i, open_ok i = true ∧ clearup_ok i = true) →
  ∃ d log', priskv_backend_open drivers open_ok close_ok clearup_ok fuel (Some (print_chain l)) next log
    = Ok (Some d, next + Z.of_nat (length l), log') ∧
    links d = l ∧ chain d = seqZ next (Z.of_nat (length l)).
Proof.
  induction l as [|[protocol address] rest IH]; intros fuel next log Hne Hok Hdrv Hf Hlen Hyes; [done|].
  destruct fuel as [|fuel]; [lia|]. cbn [priskv_backend_open]. rewrite parse_print by done. simpl link_protocol.
  apply Forall_cons in Hdrv as [Hin Hdrv]. apply Forall_cons in Hok as [_ Hok].
  rewrite find_driver_found by done. destruct (Hyes next) as [-> Hcl]. simpl negb. cbv iota. cbn [link_childaddr].
  destruct rest as [|pa rest'].
  - do 2 eexists. split; [done|]. done.
  - set (r := pa :: rest') in *.
    assert (length (print_chain ((protocol, address) :: r)) =
      length protocol + 1 + length address + 1 + length (print_chain r))%nat as Hsum.
    { simpl. rewrite length_app. simpl. rewrite length_app. simpl. lia. }
    rewrite Hsum in *.
    destruct (IH fuel (next + 1) (log ++ [DevOpened next])) as (c & log' & -> & Hli & Hch); try done; [lia|lia|].
    simpl. rewrite Hcl. do 2 eexists. split; [f_equal; f_equal; f_equal; unfold r; simpl; lia|].
    cbn [links chain]. rewrite Hli, Hch. split; [done|]. rewrite (seqZ_cons next) by (unfold r; simpl; lia).
    f_equal. f_equal; unfold r; simpl; lia.
Qed.
End opening.

(** The address of a chain of drivers opens that chain, in that order: what
    is printed with [:] and [;] is parsed back, tier by tier. *)
Theorem backend_open_roundtrip drivers open_ok close_ok clearup_ok l next log :
  l ≠ [] → Forall link_ok l → Forall (λ pa, pa.1 ∈ drivers) l →
  Z.of_nat (length (print_chain l)) < 2 ^ 64 → (∀ i, open_ok i = true ∧ clearup_ok i = true) →
  ∃ d log', priskv_backend_open drivers open_ok close_ok clearup_ok (S (length (print_chain l)))
      (Some (print_chain l)) next log = Ok (Some d, next + Z.of_nat (length l), log') ∧
    links d = l ∧ chain d = seqZ next (Z.of_nat (length l)).
Proof. intros. apply open_print; (done || lia). Qed.

(** (C35) Opening ends for every address, and, if every device that is closed can
    be closed, is all or nothing: if opening fails, at any depth and for any
    reason, every device that was opened on the way has been closed; if it
    succeeds, exactly the devices of the chain, all different, are open. (When the
    close of a child fails, [priskv_backend_close] returns and leaves its parent
    open.) *)
Theorem backend_open_balanced drivers open_ok close_ok clearup_ok address next :
  (∀ i, close_ok i = true) →
  ∃ r, priskv_backend_open drivers open_ok close_ok clearup_ok (S (length address)) (Some address) next [] = Ok r ∧
    opened next [] r.
Proof. intros Hc. apply open_spec; [lia|done|]. intros i Hi. by apply not_elem_of_empty in Hi. Qed.

(** ** Examples: a file cache before a server *)

(** "fs" with address "d" before "rd" with address "h". *)
Definition ex_links : list (list Z * list Z) := [([102; 115], [100]); ([114; 100], [104])].
Definition ex_bottom : device := mk_device 1 (mk_link [114; 100] [104] None) None.
Definition ex_device : device := mk_device 0 (mk_link [102; 115] [100] (Some [114; 100; 58; 104])) (Some ex_bottom).
Definition ex_tiers : tiers := λ i, if decide (i = 1) then {[ [97] := [1; 2; 3] ]} else ∅.
Definition ex_room : Z → contents → Z → bool := λ _ _ _, true.

Lemma ex_coherent : coherent ex_tiers ex_device.
Proof.
  intros i Hi key w Hw. apply elem_of_cons in Hi as [->|Hi]; [done|].
  apply list_elem_of_singleton in Hi as ->. exists w. split; [exact Hw|done].
Defined.

Lemma ex_chain : NoDup (chain ex_device).
Proof. simpl. apply NoDup_cons. split; [set_solver|apply NoDup_singleton]. Defined.

Lemma backend_get_correct_witness :
  coherent ex_tiers ex_device ∧
  always ex_room (get_answer ex_device [97] 8 ex_tiers (replicate 8 0)) ex_tiers (replicate 8 0)
    (priskv_backend_get ex_device [97] 8 cb_caller).
Proof. split; [exact ex_coherent|]. apply backend_get_correct; [exact ex_chain|exact ex_coherent|simpl; lia]. Defined.

Lemma backend_set_correct_witness :
  always ex_room (λ σ' buf' st len, set_answer ex_device [97] 2 ex_tiers [8; 9] σ' buf' st ∧
      (coherent ex_tiers ex_device → st = PRISKV_BACKEND_STATUS_OK → coherent σ' ex_device))
    ex_tiers [8; 9] (priskv_backend_set ex_device [97] 2 0 cb_caller).
Proof. apply backend_set_correct. exact ex_chain. Defined.

Lemma backend_del_test_correct_witness :
  always ex_room (λ σ' buf' st _, del_answer ex_device [97] ex_tiers [] σ' buf' st) ex_tiers []
    (priskv_backend_del ex_device [97] cb_caller).
Proof. apply (backend_del_test_correct ex_room ex_device [97] ex_tiers []). exact ex_chain. Defined.

Lemma backend_open_roundtrip_witness :
  ∃ d log', priskv_backend_open [[114; 100]; [102; 115]] (λ _, true) (λ _, true) (λ _, true)
      (S (length (print_chain ex_links))) (Some (print_chain ex_links)) 0 [] = Ok (Some d, 2, log') ∧
    links d = ex_links ∧ chain d = [0; 1].
Proof.
  destruct (backend_open_roundtrip [[114; 100]; [102; 115]] (λ _, true) (λ _, true) (λ _, true) ex_links 0 [])
    as (d & log' & Ho & Hl & Hc); [done| | |done|done|].
  - unfold ex_links, link_ok, COLON, SEMICOLON. repeat (apply Forall_cons; split; [split_and!; set_solver|]).
    by apply Forall_nil.
  - unfold ex_links. repeat (apply Forall_cons; split; [set_solver|]). by apply Forall_nil.
  - exists d, log'. split; [exact Ho|]. split; [exact Hl|exact Hc].
Defined.

Lemma backend_open_balanced_witness :
  ∃ r, priskv_backend_open [[102; 115]] (λ _, true) (λ _, true) (λ _, true) (S (length (print_chain ex_links)))
      (Some (print_chain ex_links)) 0 [] = Ok r ∧ opened 0 [] r.
Proof. apply backend_open_balanced. done. Defined.

(** ** What the cache is filled with

    A GET into a buffer of 8 bytes that misses the cache and finds 3 bytes below
    writes all 8 bytes of the buffer to the cache, and the caller is told that the
    value has 8 bytes. *)
Definition ex_miss (n : Z) : callback := cb_child_get (mk_request ex_device [97] n 0 cb_caller).

Lemma cache_filled_with_whole_buffer :
  ∃ cb, resume ex_room ex_tiers (ex_miss 8) PRISKV_BACKEND_STATUS_OK 3 = Call ex_device (DrvSet [97] 8 0) cb ∧
    resume ex_room ex_tiers cb PRISKV_BACKEND_STATUS_OK 8 = Finished PRISKV_BACKEND_STATUS_OK 8.
Proof. eexists. split; reflexivity. Qed.

(** When the cache cannot be filled, the length the driver gives with its error is
    reported as the length of the value. *)
Lemma cache_failure_loses_length :
  ∃ cb, resume ex_room ex_tiers (ex_miss 8) PRISKV_BACKEND_STATUS_OK 3 = Call ex_device (DrvSet [97] 8 0) cb ∧
    resume ex_room ex_tiers cb PRISKV_BACKEND_STATUS_ERROR 0 = Finished PRISKV_BACKEND_STATUS_OK 0.
Proof. eexists. split; reflexivity. Qed.
