(* ===== verification/Threads.v ===== *)
(** * Events and threads

    [lib/event.c]: the handlers of file descriptors, an array that is enlarged as
    needed and never cleared. [lib/threads.c]: a pool of threads that serve events
    and of threads in the background; connections go to the thread with the fewest
    events, work in the background to each thread in turn. *)

From S2P Require Import Prelude Utils.

(** ** Handlers of file descriptors *)

Record priskv_fd_handler := mk_fd_handler { pollin : option Z; pollout : option Z; fd_opaque : Z }.

Definition PRISKV_FDS_GROW : Z := 64.
Definition EPOLLIN : Z := 1.
Definition EPOLLOUT : Z := 4.

(** [None] is memory [reallocarray] did not initialise. *)
Notation fd_table := (list (option priskv_fd_handler)).

Definition priskv_fd_handlers_try_grow (fd_handlers : fd_table) (fd : Z) : fd_table :=
  let priskv_fds := Z.of_nat (length fd_handlers) in
  if priskv_fds <=? fd
  then fd_handlers ++ replicate (Z.to_nat (ALIGN_UP 32 (fd + 1) PRISKV_FDS_GROW - priskv_fds)) None
  else fd_handlers.

Definition priskv_set_fd_handler (fd_handlers : fd_table) (fd : Z) (pollin pollout : option Z) (opaque : Z) : res fd_table :=
  assert! (0 <=? fd) ;;
  wr (priskv_fd_handlers_try_grow fd_handlers fd) fd (Some (mk_fd_handler pollin pollout opaque)).

Definition priskv_get_fd_handler (fd_handlers : fd_table) (fd : Z) : res priskv_fd_handler :=
  assert! (fd <? Z.of_nat (length fd_handlers)) ;;
  h ← rd fd_handlers fd;
  match h with Some h => Ok h | None => Fault Uninitialised end.

(** The calls of an event: handler, descriptor, argument and what happened. *)
Definition priskv_fd_handler_event (fd_handlers : fd_table) (event : Z * Z) : res (list (Z * Z * Z * Z)) :=
  let '(fd, events) := event in
  h ← priskv_get_fd_handler fd_handlers fd;
  let called (bit : Z) (f : option Z) :=
    match f with Some f => if negb (Z.land events bit =? 0) then [(f, fd, fd_opaque h, bit)] else [] | None => [] end in
  Ok (called EPOLLIN (pollin h) ++ called EPOLLOUT (pollout h)).

(** [events]: what [epoll_wait] returns, at most 128. *)
Definition priskv_events_process (fd_handlers : fd_table) (events : list (Z * Z)) : res (list (Z * Z * Z * Z)) :=
  foldM (λ done event, calls ← priskv_fd_handler_event fd_handlers event; Ok (done ++ calls)) [] events.

(** The table is a map: setting a handler changes it and no other. *)
Lemma fd_handlers_map t fd pin pout opaque : 0 <= fd < 2 ^ 31 - 64 → 
  ∃ t', priskv_set_fd_handler t fd pin pout opaque = Ok t' ∧
    priskv_get_fd_handler t' fd = Ok (mk_fd_handler pin pout opaque) ∧
    ∀ fd' h, fd' ≠ fd → priskv_get_fd_handler t fd' = Ok h → priskv_get_fd_handler t' fd' = Ok h.
Proof.
  intros Hfd. unfold priskv_set_fd_handler. rewrite (proj2 (Z.leb_le 0 fd)) by lia. simpl.
  set (g := priskv_fd_handlers_try_grow t fd).
  assert (fd < Z.of_nat (length g) ∧ t `prefix_of` g) as [Hlen [ext Hext]].
  { unfold g, priskv_fd_handlers_try_grow. destruct (Z.leb_spec (Z.of_nat (length t)) fd); [|split; [lia|done]].
    destruct (ALIGN_UP_bounds 32 (fd + 1) 6) as [Hb _]; [lia..|]. change (2 ^ 6) with PRISKV_FDS_GROW in Hb. split; [|by eexists].
    rewrite length_app, length_replicate. lia. }
  rewrite wr_Ok by lia. eexists. split; [done|]. unfold priskv_get_fd_handler. rewrite length_insert. split.
  - rewrite (proj2 (Z.ltb_lt _ _)) by lia. simpl. rewrite rd_wr_eq by lia. done.
  - intros fd' h Hne Hget. destruct (Z.ltb_spec fd' (Z.of_nat (length t))); [|done]. simpl in Hget.
    rewrite (proj2 (Z.ltb_lt fd' _)) by (rewrite Hext, length_app; lia). simpl. rewrite rd_wr_ne by lia.
    apply bind_Ok in Hget as (v & Hv & Hh). unfold rd in *. destruct (0 <=? fd'); [|done]. rewrite Hext.
    destruct (t !! Z.to_nat fd') eqn:Hl; [|done]. rewrite (lookup_app_l_Some _ _ _ _ Hl). injection Hv as ->. done.
Qed.

(** ** Threads *)

Record priskv_thread := mk_thread { thd_index : Z; thd_flags : Z; thd_nevent : Z (* int *); thd_user_data : Z }.

Record priskv_threadpool := mk_pool { iothreads : list priskv_thread; bgthreads : list priskv_thread; cur_bgthread : Z (* int *) }.

Definition PRISKV_THREAD_MAX_THREAD : Z := 254.

Definition new_threads (n flags : Z) : list priskv_thread := (λ i, mk_thread (Z.of_nat i) flags 0 0) <$> seq 0 (Z.to_nat n).

(** [calloc] of a negative number of threads fails. *)
Definition priskv_threadpool_create_with_hooks (niothread nbgthread flags : Z) : res (option priskv_threadpool) :=
  if (niothread =? 0) || (PRISKV_THREAD_MAX_THREAD <? niothread) then Ok None
  else if PRISKV_THREAD_MAX_THREAD <? nbgthread then Ok None
  else
    assert! (0 <=? niothread) ;;
    assert! (0 <=? nbgthread) ;;
    Ok (Some (mk_pool (new_threads niothread flags) (new_threads nbgthread flags) 0)).

Definition priskv_threadpool_get_iothread (pool : priskv_threadpool) (index : Z) : option priskv_thread :=
  if (index <? 0) || (Z.of_nat (length (iothreads pool)) <=? index) then None else iothreads pool !! Z.to_nat index.

Definition priskv_threadpool_get_bgthread (pool : priskv_threadpool) (index : Z) : option priskv_thread :=
  if (index <? 0) || (Z.of_nat (length (bgthreads pool)) <=? index) then None else bgthreads pool !! Z.to_nat index.

Definition INT_MAX : Z := 2 ^ 31 - 1.

Fixpoint idlest (l : list priskv_thread) (min_event : Z) (best : option priskv_thread) : option priskv_thread :=
  match l with
  | [] => best
  | thd :: l => if thd_nevent thd <? min_event then idlest l (thd_nevent thd) (Some thd) else idlest l min_event best
  end.

Definition priskv_threadpool_find_iothread (pool : priskv_threadpool) : option priskv_thread :=
  idlest (iothreads pool) INT_MAX None.

(** [cur_bgthread] overflows after [2^31] calls: [int] arithmetic, and the
    remainder of C. *)
Definition priskv_threadpool_find_bgthread (pool : priskv_threadpool) : res (priskv_thread * priskv_threadpool) :=
  let nbgthread := Z.of_nat (length (bgthreads pool)) in
  if nbgthread =? 0 then Fault DivByZero else
  let index := Z.rem (cur_bgthread pool) nbgthread in
  thd ← rd (bgthreads pool) index;
  Ok (thd, mk_pool (iothreads pool) (bgthreads pool) (s32 (cur_bgthread pool + 1))).

(** The calls of [cb], until one does not return 0. *)
Fixpoint for_each_thread (cb : priskv_thread → Z) (l : list priskv_thread) : Z * list priskv_thread :=
  match l with
  | [] => (0, [])
  | thd :: l => if negb (cb thd =? 0) then (cb thd, [thd]) else let '(ret, called) := for_each_thread cb l in (ret, thd :: called)
  end.
Definition priskv_threadpool_for_each_iothread (cb : priskv_thread → Z) (pool : priskv_threadpool) : Z * list priskv_thread :=
  for_each_thread cb (iothreads pool).

(** Run by the thread itself, through its work queue. *)
Definition __priskv_thread_mod_event_handler (thd : priskv_thread) (val : Z) : res priskv_thread :=
  let nevent := if 0 <? val then s32 (thd_nevent thd + 1) else s32 (thd_nevent thd - 1) in
  assert! (if 0 <? val then nevent <=? INT_MAX else 0 <=? nevent) ;;
  Ok (mk_thread (thd_index thd) (thd_flags thd) nevent (thd_user_data thd)).
Definition priskv_thread_add_event_handler (thd : priskv_thread) : res priskv_thread := __priskv_thread_mod_event_handler thd 1.
Definition priskv_thread_del_event_handler (thd : priskv_thread) : res priskv_thread := __priskv_thread_mod_event_handler thd (-1).

(** ** Choosing a thread *)

Lemma idlest_spec l : ∀ m best, match best with Some b => thd_nevent b = m | None => True end →
  match idlest l m best with
  | Some thd => (Some thd = best ∨ thd ∈ l) ∧ thd_nevent thd <= m ∧ (∀ x, x ∈ l → thd_nevent thd <= thd_nevent x)
  | None => best = None ∧ ∀ x, x ∈ l → m <= thd_nevent x
  end.
Proof.
  induction l as [|y l IH]; intros m best Hb; simpl.
  - destruct best as [b|]; [|set_solver]. split; [by left|]. split; [lia|set_solver].
  - destruct (Z.ltb_spec (thd_nevent y) m) as [Hlt|Hge].
    + specialize (IH (thd_nevent y) (Some y) eq_refl). destruct (idlest l _ _) as [thd|]; [|by destruct IH].
      destruct IH as (H1 & H2 & H3). split; [right; destruct H1 as [[= ->]|]; set_solver|]. split; [lia|].
      intros x Hx. apply elem_of_cons in Hx as [->|Hx]; [done|auto].
    + specialize (IH m best Hb). destruct (idlest l _ _) as [thd|].
      * destruct IH as (H1 & H2 & H3). split; [destruct H1; set_solver|]. split; [done|].
        intros x Hx. apply elem_of_cons in Hx as [->|Hx]; [lia|auto].
      * destruct IH as [-> H]. split; [done|]. intros x Hx. apply elem_of_cons in Hx as [->|Hx]; [done|auto].
Qed.

(** A new connection goes to a thread with the fewest events. *)
Lemma find_iothread_idlest pool : iothreads pool ≠ [] → (∀ x, x ∈ iothreads pool → thd_nevent x < INT_MAX) →
  ∃ thd, priskv_threadpool_find_iothread pool = Some thd ∧ thd ∈ iothreads pool ∧
    ∀ x, x ∈ iothreads pool → thd_nevent thd <= thd_nevent x.
Proof.
  intros Hne Hlt. pose proof (idlest_spec (iothreads pool) INT_MAX None I) as H. unfold priskv_threadpool_find_iothread.
  destruct (idlest _ _ _) as [thd|].
  - destruct H as ([|Hin] & _ & Hmin); [done|]. by exists thd.
  - destruct H as [_ H]. destruct (iothreads pool) as [|x l]; [done|]. specialize (H x ltac:(left)). specialize (Hlt x ltac:(left)). lia.
Qed.

Fixpoint find_bgthreads (n : nat) (pool : priskv_threadpool) : res (list priskv_thread * priskv_threadpool) :=
  match n with
  | O => Ok ([], pool)
  | S n => '(thd, pool) ← priskv_threadpool_find_bgthread pool; '(l, pool) ← find_bgthreads n pool; Ok (thd :: l, pool)
  end.

(** The threads in the background take turns. *)
Lemma find_bgthread_turns pool n : bgthreads pool ≠ [] → 0 <= cur_bgthread pool → cur_bgthread pool + Z.of_nat n < 2 ^ 31 →
  ∃ l pool', find_bgthreads n pool = Ok (l, pool') ∧ cur_bgthread pool' = cur_bgthread pool + Z.of_nat n ∧ length l = n ∧
    ∀ i, (i < n)%nat → l !! i = bgthreads pool !! Z.to_nat ((cur_bgthread pool + Z.of_nat i) mod Z.of_nat (length (bgthreads pool))).
Proof.
  revert pool. induction n as [|n IH]; intros pool Hne H0 Hmax.
  - exists [], pool. split; [done|]. split; [lia|]. split; [done|]. lia.
  - cbn [find_bgthreads]. set (nb := Z.of_nat (length (bgthreads pool))) in *.
    assert (0 < nb) as Hnb by (unfold nb; destruct (bgthreads pool); [done|simpl; lia]).
    unfold priskv_threadpool_find_bgthread. fold nb. rewrite (proj2 (Z.eqb_neq nb 0)) by lia.
    rewrite Z.rem_mod_nonneg by lia. pose proof (Z.mod_pos_bound (cur_bgthread pool) nb Hnb) as Hmod.
    destruct (rd_in_range (bgthreads pool) (cur_bgthread pool mod nb)) as [thd Hthd]; [done|]. rewrite Hthd, Ok_bind, Ok_bind.
    rewrite s32_small by lia.
    destruct (IH (mk_pool (iothreads pool) (bgthreads pool) (cur_bgthread pool + 1))) as (l & pool' & -> & Hcur & Hlen & Hl); [done|simpl; lia|simpl; lia|].
    rewrite Ok_bind. eexists _, _. split; [reflexivity|]. simpl in *. split; [lia|]. split; [lia|].
    intros [|i] Hi; simpl.
    + rewrite Z.add_0_r. unfold rd in Hthd. destruct (0 <=? _); [|done]. destruct (bgthreads pool !! _); congruence.
    + rewrite Hl by lia. f_equal. f_equal. f_equal. lia.
Qed.

(** ** What goes wrong *)

(** A pool without threads in the background has none to give: the division
    faults. After [2^31] calls the index is negative. *)
Lemma no_bgthread : priskv_threadpool_find_bgthread (mk_pool [] [] 0) = Fault DivByZero.
Proof. reflexivity. Qed.

Lemma bgthread_index_negative :
  let t := mk_thread 0 0 0 0 in priskv_threadpool_find_bgthread (mk_pool [] [t; t; t] (- 2 ^ 31)) = Fault OutOfBounds.
Proof. reflexivity. Qed.

(** An event of a descriptor whose neighbour was set finds memory that was never
    written. *)
Lemma unset_handler_is_garbage :
  (t ← priskv_set_fd_handler [] 3 (Some 1) None 0; priskv_fd_handler_event t (4, EPOLLIN)) = Fault Uninitialised.
Proof. reflexivity. Qed.
