(* ===== verification/WorkQueue.v ===== *)
(** * Work queues

    [lib/workqueue.c]: a thread runs functions for others. A caller appends a work
    to a list and kicks the thread through an [eventfd]; the thread acknowledges the
    kick and runs the works of the list, releasing the lock while a function runs.
    A caller of [priskv_workqueue_call] has its work on its stack and waits until it
    is done; [priskv_workqueue_submit] allocates the work, and the thread frees it.

    What happens with a lock held is one step; the steps of the callers and of the
    thread interleave. [objs] are the works that exist: the end of a call and the
    freeing of a work take them away. A function is run in one step and returns a
    value ([exec]); what it does to this queue are steps of a caller. *)

From S2P Require Import Prelude Lists.

Record priskv_work := mk_work { w_func : Z; w_arg : Z; w_retval : Z; w_sync : bool; w_done : bool }.

(** Where the thread is: waiting for events; after the acknowledgement; running a
    work, with the [tmp] of [list_for_each_safe] ([None]: the head); after it. *)
Inductive thread_pc :=
  | Polling
  | Acked
  | Running (work : Z) (tmp : option Z)
  | Continue (tmp : option Z).

(** Where a caller is: before its kick, or waiting for its work. *)
Inductive caller_pc := AtKick (work : Z) (sync : bool) | AtWait (work : Z).

Record priskv_workqueue := mk_wq {
  works : list Z;
  eventfd : Z;
  objs : gmap Z priskv_work;
  next_work : Z;
  thread : thread_pc;
  callers : gmap Z caller_pc;
  (* what happened: works that were appended, with function and argument, and run,
     in order, and calls that returned *)
  added : list (Z * Z * Z);
  ran : list Z;
  returned : list (Z * Z * Z)
}.

Definition priskv_workqueue_create (first : Z) : priskv_workqueue := mk_wq [] 0 ∅ first Polling ∅ [] [] [].

Definition priskv_workqueue_kick (q : priskv_workqueue) : priskv_workqueue :=
  mk_wq (works q) (eventfd q + 1) (objs q) (next_work q) (thread q) (callers q) (added q) (ran q) (returned q).

Definition priskv_workqueue_ack (q : priskv_workqueue) : priskv_workqueue :=
  mk_wq (works q) 0 (objs q) (next_work q) (thread q) (callers q) (added q) (ran q) (returned q).

Definition at_thread (pc : thread_pc) (q : priskv_workqueue) : priskv_workqueue :=
  mk_wq (works q) (eventfd q) (objs q) (next_work q) pc (callers q) (added q) (ran q) (returned q).
Definition at_caller (t : Z) (pc : option caller_pc) (q : priskv_workqueue) : priskv_workqueue :=
  mk_wq (works q) (eventfd q) (objs q) (next_work q) (thread q) (partial_alter (λ _, pc) t (callers q)) (added q) (ran q) (returned q).
Definition set_obj (a : Z) (w : option priskv_work) (q : priskv_workqueue) : priskv_workqueue :=
  mk_wq (works q) (eventfd q) (partial_alter (λ _, w) a (objs q)) (next_work q) (thread q) (callers q) (added q) (ran q) (returned q).
Definition set_works (l : list Z) (q : priskv_workqueue) : priskv_workqueue :=
  mk_wq l (eventfd q) (objs q) (next_work q) (thread q) (callers q) (added q) (ran q) (returned q).
Definition log_ran (a : Z) (q : priskv_workqueue) : priskv_workqueue :=
  mk_wq (works q) (eventfd q) (objs q) (next_work q) (thread q) (callers q) (added q) (ran q ++ [a]) (returned q).
Definition log_returned (t a v : Z) (q : priskv_workqueue) : priskv_workqueue :=
  mk_wq (works q) (eventfd q) (objs q) (next_work q) (thread q) (callers q) (added q) (ran q) (returned q ++ [(t, a, v)]).

Definition priskv_work_init (func arg : Z) (sync : bool) : priskv_work := mk_work func arg 0 sync false.

(** A new work, appended with the lock held. *)
Definition queue_work (t : Z) (func arg : Z) (sync : bool) (q : priskv_workqueue) : priskv_workqueue :=
  let a := next_work q in
  mk_wq (list_add_tail (works q) a) (eventfd q) (<[a := priskv_work_init func arg sync]> (objs q)) (a + 1) (thread q)
    (<[t := AtKick a sync]> (callers q)) (added q ++ [(a, func, arg)]) (ran q) (returned q).

Section exec.
(** The value a function returns. *)
Context (exec : Z → Z → Z).

(** [list_for_each_safe]: the entry after the current one, [None] for the head. *)
Fixpoint next_entry (a : Z) (l : list Z) : option Z :=
  match l with [] => None | x :: l => if x =? a then head l else next_entry a l end.

(** The beginning of an iteration, with the lock held: [entry] is the current one. *)
Definition take_work (entry : option Z) (q : priskv_workqueue) : res priskv_workqueue :=
  match entry with
  | None => Ok (at_thread Polling q)
  | Some a =>
      let tmp := next_entry a (works q) in
      l ← list_del (works q) a;
      Ok (at_thread (Running a tmp) (set_works l q))
  end.

(** A work is run; then its caller is told, or it is freed. *)
Definition run_work (a : Z) (tmp : option Z) (q : priskv_workqueue) : res priskv_workqueue :=
  match objs q !! a with
  | None => Fault UseAfterFree
  | Some w =>
      let w := mk_work (w_func w) (w_arg w) (exec (w_func w) (w_arg w)) (w_sync w) (w_done w) in
      let q := log_ran a q in
      Ok (at_thread (Continue tmp)
            (if w_sync w then set_obj a (Some (mk_work (w_func w) (w_arg w) (w_retval w) (w_sync w) true)) q
             else set_obj a None q))
  end.

Inductive wq_label :=
  | LCall (t func arg : Z)
  | LSubmit (t func arg : Z)
  | LKick (t : Z)
  | LReturn (t : Z)
  | LThread.
Global Instance wq_label_eq_dec : EqDecision wq_label.
Proof. solve_decision. Defined.

(** Whether a caller or the thread can make its next step. The thread waits for a
    kick; a caller waits until its work is done. *)
Definition enabled (l : wq_label) (q : priskv_workqueue) : bool :=
  match l with
  | LCall t _ _ | LSubmit t _ _ => bool_decide (callers q !! t = None)
  | LKick t => match callers q !! t with Some (AtKick _ _) => true | _ => false end
  | LReturn t => match callers q !! t with Some (AtWait a) => match objs q !! a with Some w => w_done w | None => true end | _ => false end
  | LThread => match thread q with Polling => 0 <? eventfd q | _ => true end
  end.

Definition wq_step (l : wq_label) (q : priskv_workqueue) : res priskv_workqueue :=
  match l with
  | LCall t func arg => Ok (queue_work t func arg true q)
  | LSubmit t func arg => Ok (queue_work t func arg false q)
  | LKick t =>
      match callers q !! t with
      | Some (AtKick a sync) => Ok (at_caller t (if sync then Some (AtWait a) else None) (priskv_workqueue_kick q))
      | _ => Ok q
      end
  | LReturn t =>
      match callers q !! t with
      | Some (AtWait a) =>
          match objs q !! a with
          | None => Fault UseAfterFree
          | Some w => Ok (log_returned t a (w_retval w) (at_caller t None (set_obj a None q)))
          end
      | _ => Ok q
      end
  | LThread =>
      match thread q with
      | Polling => Ok (at_thread Acked (priskv_workqueue_ack q))
      | Acked => take_work (head (works q)) q
      | Running a tmp => run_work a tmp q
      | Continue tmp => take_work tmp q
      end
  end.

(** [priskv_workqueue_process] when nobody else uses the queue: the thread's steps
    from the acknowledgement to the end of the loop. Two steps per work. *)
Fixpoint thread_run (fuel : nat) (q : priskv_workqueue) : res priskv_workqueue :=
  match thread q with
  | Polling => Ok q
  | _ => match fuel with O => Fault OutOfFuel | S fuel => q ← wq_step LThread q; thread_run fuel q end
  end.
Definition priskv_workqueue_process (q : priskv_workqueue) : res priskv_workqueue :=
  thread_run (2 * length (works q) + 1) (at_thread Acked (priskv_workqueue_ack q)).

(** Works that are left are run before the queue is freed. *)
Definition priskv_workqueue_destroy (q : priskv_workqueue) : res priskv_workqueue := priskv_workqueue_process q.
End exec.
