(* ===== verification/WorkQueueProps.v ===== *)
(** * Work queues: order, safety and progress

    In every interleaving of callers and thread, works are run once and in the
    order in which they were appended, no work is used after it is gone, and a call
    returns what its function returned. In every fair interleaving, every work is
    run and every call returns: no kick is lost, although the loop does not look at
    works that are appended while it runs its last one. *)

From S2P Require Import Prelude Lists WorkQueue.

(** ** The invariant *)

Definition running (q : priskv_workqueue) : list Z := match thread q with Running a _ => [a] | _ => [] end.
Definition ids (q : priskv_workqueue) : list Z := (fst ∘ fst) <$> added q.

(** The work a caller has not returned from. *)
Definition pc_work (pc : caller_pc) : Z := match pc with AtKick a _ => a | AtWait a => a end.
Definition pc_sync (pc : caller_pc) : bool := match pc with AtKick _ sync => sync | AtWait _ => true end.

(** A kick that has not been acknowledged, or that is going to come. *)
Definition kicked (q : priskv_workqueue) : Prop := 0 < eventfd q ∨ ∃ t a sync, callers q !! t = Some (AtKick a sync).

(** What the thread knows about the list. *)
Definition place (q : priskv_workqueue) : Prop :=
  match thread q with
  | Running _ (Some x) | Continue (Some x) => head (works q) = Some x
  | Polling | Running _ None | Continue None => works q = [] ∨ kicked q
  | Acked => True
  end.

Section props.
Context (exec : Z → Z → Z).

Record wq_inv (q : priskv_workqueue) : Prop := mk_wq_inv {
  wi_fifo : ids q = ran q ++ running q ++ works q;
  wi_nodup : NoDup (ids q);
  wi_fresh a : a ∈ ids q → a < next_work q;
  wi_place : place q;
  wi_eventfd : 0 <= eventfd q;
  wi_todo a : a ∈ running q ++ works q → ∃ w, objs q !! a = Some w ∧ w_done w = false;
  wi_obj a w : objs q !! a = Some w → (a, w_func w, w_arg w) ∈ added q ∧
    (w_done w = false → a ∈ running q ++ works q) ∧ (w_done w = true → w_retval w = exec (w_func w) (w_arg w)) ∧
    (w_sync w = true → ∃ t pc, callers q !! t = Some pc ∧ pc_work pc = a ∧ pc_sync pc = true);
  wi_caller t pc : callers q !! t = Some pc → pc_work pc ∈ ids q ∧
    (pc_sync pc = true → ∃ w, objs q !! pc_work pc = Some w ∧ w_sync w = true);
  wi_unique t t' pc pc' : callers q !! t = Some pc → callers q !! t' = Some pc' → pc_work pc = pc_work pc' → t = t';
  wi_returned t a v : (t, a, v) ∈ returned q → ∃ func arg, (a, func, arg) ∈ added q ∧ v = exec func arg ∧ a ∈ ran q
}.

Lemma create_inv first : wq_inv (priskv_workqueue_create first).
Proof. split; simpl; try done; try set_solver; [constructor|by left]. Qed.

Lemma queue_inv t func arg sync q : wq_inv q → callers q !! t = None → wq_inv (queue_work t func arg sync q).
Proof.
  intros [] Ht. set (a := next_work q).
  assert (ids (queue_work t func arg sync q) = ids q ++ [a]) as Hids by (unfold ids; simpl; by rewrite fmap_app).
  assert (a ∉ ids q) as Hnew by (intros Ha; specialize (wi_fresh0 a Ha); unfold a in *; lia).
  split; rewrite ?Hids; simpl.
  - change (running (queue_work t func arg sync q)) with (running q). rewrite wi_fifo0. unfold list_add_tail. by rewrite !app_assoc.
  - apply NoDup_app. split; [done|]. split; [|apply NoDup_singleton]. intros x Hx ->%list_elem_of_singleton. done.
  - intros x Hx. apply elem_of_app in Hx as [Hx|Hx%list_elem_of_singleton]; [specialize (wi_fresh0 x Hx)|]; subst; unfold a; lia.
  - unfold place in *. simpl. unfold kicked. simpl. destruct (thread q) as [| |b [x|]|[x|]]; try done.
    all: try (right; right; exists t, a, sync; apply lookup_insert_eq).
    all: unfold list_add_tail; destruct (works q); done.
  - done.
  - intros x Hx. change (running (queue_work t func arg sync q)) with (running q) in Hx. unfold list_add_tail in Hx. rewrite app_assoc in Hx.
    apply elem_of_app in Hx as [Hx|Hx%list_elem_of_singleton].
    + destruct (wi_todo0 x Hx) as (w & Hw & Hd). exists w. rewrite lookup_insert_ne; [done|]. intros <-. apply Hnew.
      rewrite wi_fifo0. apply elem_of_app. by right.
    + subst. eexists. by rewrite lookup_insert_eq.
  - intros x w Hw. change (running (queue_work t func arg sync q)) with (running q). unfold list_add_tail. rewrite app_assoc.
    apply lookup_insert_Some in Hw as [[<- <-]|[Hne Hw]]; simpl.
    + split; [set_solver|]. split; [set_solver|]. split; [done|]. intros Hs. exists t, (AtKick a sync). by rewrite lookup_insert_eq.
    + destruct (wi_obj0 x w Hw) as (H1 & H2 & H3 & H4). split; [set_solver|]. split; [set_solver|]. split; [done|].
      intros Hs. destruct (H4 Hs) as (t' & pc & Hpc & Hw'). exists t', pc. rewrite lookup_insert_ne; [done|]. intros ->. congruence.
  - intros t' pc Hpc. apply lookup_insert_Some in Hpc as [[<- <-]|[Hne Hpc]]; simpl.
    + split; [set_solver|]. intros ->. eexists. by rewrite lookup_insert_eq.
    + destruct (wi_caller0 t' pc Hpc) as [H1 H2]. split; [set_solver|]. intros Hs. destruct (H2 Hs) as (w & Hw & Hsync). exists w.
      rewrite lookup_insert_ne; [done|]. intros He. apply Hnew. unfold a. by rewrite He.
  - intros t1 t2 pc1 pc2 H1 H2 He. apply lookup_insert_Some in H1 as [[<- <-]|[Hne1 H1]], H2 as [[<- <-]|[Hne2 H2]]; try done; simpl in *.
    + destruct Hnew. unfold a. rewrite He. by eapply wi_caller0.
    + destruct Hnew. unfold a. rewrite <- He. by eapply wi_caller0.
    + by eapply wi_unique0.
  - intros t' x v Hr. destruct (wi_returned0 _ _ _ Hr) as (f & g & H1 & H2). exists f, g. split; [set_solver|done].
Qed.

Lemma kick_inv t a sync q : wq_inv q → callers q !! t = Some (AtKick a sync) →
  wq_inv (at_caller t (if sync then Some (AtWait a) else None) (priskv_workqueue_kick q)).
Proof.
  intros [] Ht. destruct (wi_caller0 t _ Ht) as [Hin Hobj]. simpl in *.
  set (pc' := if sync then Some (AtWait a) else None).
  assert (∀ t' pc, partial_alter (λ _, pc') t (callers q) !! t' = Some pc →
    ∃ pc0, callers q !! t' = Some pc0 ∧ pc_work pc0 = pc_work pc ∧ pc_sync pc0 = pc_sync pc) as Hback.
  { intros t' pc Hpc. destruct (decide (t' = t)) as [->|Hne].
    - rewrite lookup_partial_alter_eq in Hpc. exists (AtKick a sync). split; [done|]. unfold pc' in Hpc. destruct sync; by simplify_eq.
    - rewrite lookup_partial_alter_ne in Hpc by done. by exists pc. }
  split; simpl; try done.
  - unfold place in *. simpl. unfold kicked. simpl.
    destruct (thread q) as [| |b [x|]|[x|]]; try done; right; left; lia.
  - lia.
  - intros x w Hw. destruct (wi_obj0 x w Hw) as (H1 & H2 & H3 & H4). split; [done|]. split; [done|]. split; [done|]. intros Hs.
    destruct (H4 Hs) as (t' & pc & Hpc & Hwk). destruct (decide (t' = t)) as [->|Hne].
    + rewrite Ht in Hpc. injection Hpc as <-. simpl in Hwk. destruct Hwk as [<- ->]. exists t, (AtWait a). by rewrite lookup_partial_alter_eq.
    + exists t', pc. by rewrite lookup_partial_alter_ne.
  - intros t' pc Hpc. destruct (Hback t' pc Hpc) as (pc0 & H0 & <- & <-). by eapply wi_caller0.
  - intros t1 t2 pc1 pc2 H1 H2 He. destruct (Hback t1 pc1 H1) as (p1 & Hp1 & E1 & _), (Hback t2 pc2 H2) as (p2 & Hp2 & E2 & _).
    eapply wi_unique0; [done|done|congruence].
Qed.

Lemma return_inv t a w q : wq_inv q → callers q !! t = Some (AtWait a) → objs q !! a = Some w → w_done w = true →
  wq_inv (log_returned t a (w_retval w) (at_caller t None (set_obj a None q))).
Proof.
  intros [] Ht Ha Hd. destruct (wi_caller0 t _ Ht) as [Hin _]. simpl in *. destruct (wi_obj0 a w Ha) as (Hadd & _ & Hret & _).
  assert (a ∉ running q ++ works q) as Hover.
  { intros Hx. destruct (wi_todo0 a Hx) as (w' & Hw' & Hd'). congruence. }
  split; simpl; try done.
  - unfold place in *. simpl. unfold kicked in *. simpl. destruct (thread q) as [| |b [x|]|[x|]]; try done.
    all: destruct wi_place0 as [?|[?|(t' & b' & sy & Hk)]]; [by left|by right; left|right; right; exists t', b', sy].
    all: rewrite lookup_partial_alter_ne; [done|intros ->; congruence].
  - intros x Hx. destruct (wi_todo0 x Hx) as (w' & Hw' & Hd'). exists w'. rewrite lookup_partial_alter_ne; [done|]. intros ->. done.
  - intros x w' Hw'. destruct (decide (x = a)) as [->|Hne]; [by rewrite lookup_partial_alter_eq in Hw'|].
    rewrite lookup_partial_alter_ne in Hw' by done. destruct (wi_obj0 x w' Hw') as (H1 & H2 & H3 & H4). split; [done|]. split; [done|].
    split; [done|]. intros Hs. destruct (H4 Hs) as (t' & pc & Hpc & Hwk & Hsy). exists t', pc. rewrite lookup_partial_alter_ne; [done|].
    intros ->. rewrite Ht in Hpc. injection Hpc as <-. simpl in Hwk. congruence.
  - intros t' pc Hpc. destruct (decide (t' = t)) as [->|Hne]; [by rewrite lookup_partial_alter_eq in Hpc|].
    rewrite lookup_partial_alter_ne in Hpc by done. destruct (wi_caller0 t' pc Hpc) as [H1 H2]. split; [done|]. intros Hs.
    destruct (H2 Hs) as (w' & Hw' & Hsy). exists w'. rewrite lookup_partial_alter_ne; [done|]. intros He. apply Hne.
    by apply (wi_unique0 t' t pc (AtWait a)).
  - intros t1 t2 pc1 pc2 H1 H2 He. destruct (decide (t1 = t)) as [->|]; [by rewrite lookup_partial_alter_eq in H1|].
    destruct (decide (t2 = t)) as [->|]; [by rewrite lookup_partial_alter_eq in H2|].
    rewrite lookup_partial_alter_ne in H1, H2 by done. by eapply wi_unique0.
  - intros t' x v Hr. apply elem_of_app in Hr as [Hr|Hr%list_elem_of_singleton]; [eauto|]. injection Hr as -> -> ->.
    exists (w_func w), (w_arg w). split; [done|]. split; [by apply Hret|]. rewrite wi_fifo0 in Hin. apply elem_of_app in Hin as [?|?]; done.
Qed.

(** ** The thread *)

Lemma next_entry_head a l : next_entry a (a :: l) = head l.
Proof. simpl. by rewrite Z.eqb_refl. Qed.

(** The thread takes the first work of the list, or stops at its end. *)
Lemma take_inv q e : wq_inv q → running q = [] →
  match e with Some x => head (works q) = Some x | None => works q = [] ∨ kicked q end →
  ∃ q', take_work e q = Ok q' ∧ wq_inv q' ∧
    match e with
    | Some x => works q = x :: works q' ∧ thread q' = Running x (head (works q'))
    | None => works q' = works q ∧ thread q' = Polling
    end.
Proof.
  intros [] Hr He. destruct e as [x|]; simpl.
  - destruct (works q) as [|y l] eqn:Hw; [done|]. injection He as ->. rewrite Hr in *. simpl in *.
    assert (x ∉ l) as Hx.
    { rewrite wi_fifo0, NoDup_app in wi_nodup0. destruct wi_nodup0 as (_ & _ & Hnd). by apply NoDup_cons in Hnd as [? _]. }
    rewrite list_del_Ok by left. rewrite filter_cons_False, filter_ne_id by naive_solver. rewrite Ok_bind, Z.eqb_refl.
    eexists. split; [reflexivity|]. split; [|done]. split; simpl; try done.
    unfold place. simpl. destruct l; [by left|done].
  - eexists. split; [reflexivity|]. split; [|done]. rewrite Hr in *. split; simpl; done.
Qed.

Lemma run_work_inv q a tmp : wq_inv q → thread q = Running a tmp →
  ∃ q', run_work exec a tmp q = Ok q' ∧ wq_inv q' ∧ thread q' = Continue tmp ∧ works q' = works q ∧ ran q' = ran q ++ [a].
Proof.
  intros [] Ht. assert (running q = [a]) as Hr by (unfold running; by rewrite Ht). rewrite Hr in *.
  destruct (wi_todo0 a) as (w & Hw & Hd); [left|]. unfold run_work. rewrite Hw. simpl. eexists. split; [reflexivity|].
  destruct (wi_obj0 a w Hw) as (Hadd & _ & _ & Hsync).
  assert (a ∉ works q) as Hnw.
  { rewrite wi_fifo0, NoDup_app in wi_nodup0. destruct wi_nodup0 as (_ & _ & Hnd). by apply NoDup_cons in Hnd as [? _]. }
  split; [|by destruct (w_sync w)].
  set (w' := mk_work (w_func w) (w_arg w) (exec (w_func w) (w_arg w)) (w_sync w) true).
  set (q' := at_thread _ _).
  assert (q' = at_thread (Continue tmp) (set_obj a (if w_sync w then Some w' else None) (log_ran a q))) as -> by (unfold q', w'; by destruct (w_sync w)).
  assert (∀ x, x ≠ a → partial_alter (λ _, if w_sync w then Some w' else None) a (objs q) !! x = objs q !! x) as Hother
    by (intros x Hx; by rewrite lookup_partial_alter_ne).
  split; simpl; try done.
  - unfold ids in *. simpl. by rewrite wi_fifo0, <- app_assoc.
  - unfold place in *. rewrite Ht in wi_place0. simpl. by destruct tmp.
  - intros x Hx. destruct (wi_todo0 x) as (y & Hy & Hdy); [by right|]. exists y. rewrite Hother; [done|]. intros ->. done.
  - intros x y Hy. destruct (decide (x = a)) as [->|Hne].
    + rewrite lookup_partial_alter_eq in Hy. destruct (w_sync w) eqn:Hs; [|done]. injection Hy as <-. simpl.
      split; [done|]. split; [done|]. split; [done|]. intros _. by apply Hsync.
    + rewrite Hother in Hy by done. destruct (wi_obj0 x y Hy) as (H1 & H2 & H3 & H4). split; [done|]. split; [|done].
      intros Hdy. specialize (H2 Hdy). simpl in H2. apply elem_of_cons in H2 as [?|?]; done.
  - intros t pc Hpc. destruct (wi_caller0 t pc Hpc) as [H1 H2]. split; [done|]. intros Hs. destruct (H2 Hs) as (y & Hy & Hsy).
    destruct (decide (pc_work pc = a)) as [He|Hne].
    + exists w'. rewrite He, lookup_partial_alter_eq. rewrite He, Hw in Hy. injection Hy as <-. by rewrite Hsy.
    + exists y. by rewrite Hother.
  - intros t x v Hret. destruct (wi_returned0 t x v Hret) as (f & g & H1 & H2 & H3). exists f, g. split; [done|]. split; [done|]. set_solver.
Qed.

Lemma take_place q e : wq_inv q → thread q = Acked ∧ e = head (works q) ∨ thread q = Continue e →
  running q = [] ∧ match e with Some x => head (works q) = Some x | None => works q = [] ∨ kicked q end.
Proof.
  intros Hi [[Ht ->]|Ht]; (split; [unfold running; by rewrite Ht|]).
  - destruct (works q); [by left|done].
  - pose proof (wi_place _ Hi) as Hp. unfold place in Hp. rewrite Ht in Hp. by destruct e.
Qed.

Lemma wq_step_inv l q : wq_inv q → enabled l q = true → ∃ q', wq_step exec l q = Ok q' ∧ wq_inv q'.
Proof.
  intros Hi He. destruct l as [t f g|t f g|t|t|]; simpl in *.
  - eexists. split; [done|]. apply queue_inv; [done|]. by apply bool_decide_eq_true_1 in He.
  - eexists. split; [done|]. apply queue_inv; [done|]. by apply bool_decide_eq_true_1 in He.
  - destruct (callers q !! t) as [[a sync|a]|] eqn:Ht; [|done..]. eexists. split; [done|]. by apply kick_inv.
  - destruct (callers q !! t) as [[a sync|a]|] eqn:Ht; [done| |done].
    destruct (wi_caller _ Hi _ _ Ht) as [_ H]. destruct (H eq_refl) as (w & Hw & _). simpl in Hw. rewrite Hw in *.
    eexists. split; [done|]. by apply return_inv.
  - destruct (thread q) as [| |a tmp|tmp] eqn:Ht.
    + eexists. split; [done|]. destruct Hi. unfold running in *. rewrite Ht in *. split; simpl; done.
    + destruct (take_place q _ Hi (or_introl (conj Ht eq_refl))) as [Hr Hp].
      destruct (take_inv q _ Hi Hr Hp) as (q' & Hq & Hi' & _). by exists q'.
    + destruct (run_work_inv q a tmp Hi Ht) as (q' & Hq & Hi' & _). by exists q'.
    + destruct (take_place q _ Hi (or_intror Ht)) as [Hr Hp].
      destruct (take_inv q _ Hi Hr Hp) as (q' & Hq & Hi' & _). by exists q'.
Qed.

Inductive wq_reachable : priskv_workqueue → Prop :=
  | wq_created first : wq_reachable (priskv_workqueue_create first)
  | wq_next q l q' : wq_reachable q → enabled l q = true → wq_step exec l q = Ok q' → wq_reachable q'.

Lemma wq_reachable_inv q : wq_reachable q → wq_inv q.
Proof.
  induction 1 as [first|q l q' _ IH He Hs]; [apply create_inv|].
  destruct (wq_step_inv l q IH He) as (q1 & Hs1 & Hi). rewrite Hs in Hs1. by injection Hs1 as <-.
Qed.

(** ** Progress *)

(** An infinite interleaving: at every time a step of somebody, or of nobody. *)
Record execution := mk_execution {
  at_time : nat → priskv_workqueue;
  label : nat → option wq_label;
  ex_start : ∃ first, at_time 0%nat = priskv_workqueue_create first;
  ex_step n : match label n with
              | Some l => enabled l (at_time n) = true ∧ wq_step exec l (at_time n) = Ok (at_time (S n))
              | None => at_time (S n) = at_time n
              end
}.

(** Whoever can make a step makes it some time, or cannot make it any more. New
    calls need not come. *)
Definition fair (x : execution) : Prop :=
  ∀ l n, match l with LCall _ _ _ | LSubmit _ _ _ => False | _ => True end →
    ∃ m, (n <= m)%nat ∧ (label x m = Some l ∨ enabled l (at_time x m) = false).

Section progress.
Context (x : execution) (Hfair : fair x).

Lemma at_inv n : wq_inv (at_time x n).
Proof.
  induction n as [|n IH]; [destruct (ex_start x) as [first ->]; apply create_inv|].
  pose proof (ex_step x n) as Hs. destruct (label x n) as [l|]; [|by rewrite Hs]. destruct Hs as [He Hs].
  destruct (wq_step_inv l _ IH He) as (q & Hq & Hi). rewrite Hs in Hq. by injection Hq as ->.
Qed.

Definition obliged (l : wq_label) : Prop := match l with LCall _ _ _ | LSubmit _ _ _ => False | _ => True end.

(** The first time of a step. *)
Lemma first_label l n m : (n <= m)%nat → label x m = Some l →
  ∃ k, (n <= k)%nat ∧ label x k = Some l ∧ ∀ j, (n <= j < k)%nat → label x j ≠ Some l.
Proof.
  intros Hnm Hm. remember (m - n)%nat as d eqn:Hd. revert n Hnm Hd. induction d as [|d IH]; intros n Hnm Hd.
  - replace m with n in * by lia. exists n. split; [done|]. split; [done|]. lia.
  - destruct (decide (label x n = Some l)) as [Hn|Hn]; [exists n; split; [done|]; split; [done|]; lia|].
    destruct (IH (S n)) as (k & Hk & Hlk & Hmin); [lia|lia|]. exists k. split; [lia|]. split; [done|].
    intros j Hj. destruct (decide (j = n)) as [->|]; [done|]. apply Hmin. lia.
Qed.

(** A step that stays possible until it is made is made. *)
Lemma taken l n : obliged l → enabled l (at_time x n) = true →
  (∀ k, enabled l (at_time x k) = true → label x k ≠ Some l → enabled l (at_time x (S k)) = true) →
  ∃ m, (n <= m)%nat ∧ label x m = Some l.
Proof.
  intros Hl He Hstay. destruct (Hfair l n Hl) as (m & Hnm & Hm). remember (m - n)%nat as d eqn:Hd. revert n m He Hnm Hm Hd.
  induction d as [|d IH]; intros n m He Hnm Hm Hd.
  - replace m with n in * by lia. destruct Hm as [Hm|Hm]; [by exists n|congruence].
  - destruct (decide (label x n = Some l)) as [Hn|Hn]; [by exists n|].
    destruct (IH (S n) m) as (k & Hk & Hlk); [by apply Hstay|lia|done|lia|]. exists k. split; [lia|done].
Qed.

(** What the steps of callers leave as it is. *)
Lemma other_step n : label x n ≠ Some LThread →
  let q := at_time x n in let q' := at_time x (S n) in
  thread q' = thread q ∧ ran q' = ran q ∧ eventfd q <= eventfd q' ∧ works q `prefix_of` works q'.
Proof.
  intros Hn q q'. pose proof (ex_step x n) as Hs. unfold q, q' in *. destruct (label x n) as [l|]; [|rewrite Hs; repeat split; [lia|done]].
  destruct Hs as [He Hs]. destruct l as [t f g|t f g|t|t|]; simpl in *; [| | | |done].
  - injection Hs as <-. simpl. repeat split; [lia|]. by eexists.
  - injection Hs as <-. simpl. repeat split; [lia|]. by eexists.
  - destruct (callers _ !! t) as [[]|]; injection Hs as <-; simpl; repeat split; done || lia.
  - destruct (callers _ !! t) as [[a sync|a]|]; [injection Hs as <-; repeat split; done || lia| |injection Hs as <-; repeat split; done || lia].
    destruct (objs _ !! a); [|done]. injection Hs as <-. simpl. repeat split; done || lia.
Qed.

Lemma other_steps n m : (n <= m)%nat → (∀ k, (n <= k < m)%nat → label x k ≠ Some LThread) →
  thread (at_time x m) = thread (at_time x n) ∧ ran (at_time x m) = ran (at_time x n) ∧
  works (at_time x n) `prefix_of` works (at_time x m).
Proof.
  intros Hnm Hk. induction m as [|m IH]; [by replace n with 0%nat by lia|].
  destruct (decide (n = S m)) as [->|Hne]; [done|]. destruct IH as (H1 & H2 & H3); [lia|intros k Hkm; apply Hk; lia|].
  destruct (other_step m) as (E1 & E2 & _ & E3); [apply Hk; lia|]. rewrite E1, E2. split; [done|]. split; [done|]. by etrans.
Qed.

Lemma thread_stays k : enabled LThread (at_time x k) = true → label x k ≠ Some LThread → enabled LThread (at_time x (S k)) = true.
Proof.
  intros He Hl. destruct (other_step k Hl) as (Ht & _ & Hf & _). simpl in *. rewrite Ht. destruct (thread _); try done.
  apply Z.ltb_lt in He. apply Z.ltb_lt. lia.
Qed.

(** Nobody but the caller itself moves a caller. *)
Lemma caller_stays k t pc : callers (at_time x k) !! t = Some pc → label x k ≠ Some (LKick t) → label x k ≠ Some (LReturn t) →
  callers (at_time x (S k)) !! t = Some pc.
Proof.
  intros Hpc Hk Hr. pose proof (ex_step x k) as Hs. destruct (label x k) as [l|]; [|by rewrite Hs].
  destruct Hs as [He Hs]. destruct l as [t' f g|t' f g|t'|t'|]; simpl in *.
  - injection Hs as <-. apply bool_decide_eq_true_1 in He. simpl. rewrite lookup_insert_ne; [done|congruence].
  - injection Hs as <-. apply bool_decide_eq_true_1 in He. simpl. rewrite lookup_insert_ne; [done|congruence].
  - destruct (callers _ !! t') as [[]|]; injection Hs as <-; simpl; [|done..]. rewrite lookup_partial_alter_ne; [done|congruence].
  - destruct (callers _ !! t') as [[b sync|b]|]; [injection Hs as <-; done| |injection Hs as <-; done].
    destruct (objs _ !! b); [|done]. injection Hs as <-. simpl. rewrite lookup_partial_alter_ne; [done|congruence].
  - destruct (thread _) as [| |b tmp|tmp].
    + by injection Hs as <-.
    + unfold take_work in Hs. destruct (head _); [|by injection Hs as <-]. apply bind_Ok in Hs as (l & _ & Hs). by injection Hs as <-.
    + unfold run_work in Hs. destruct (objs _ !! b) as [w|]; [|done]. injection Hs as <-. by destruct (w_sync w).
    + unfold take_work in Hs. destruct tmp; [|by injection Hs as <-]. apply bind_Ok in Hs as (l & _ & Hs). by injection Hs as <-.
Qed.

(** A caller that is about to kick does so. *)
Lemma kick_comes n t a sync : callers (at_time x n) !! t = Some (AtKick a sync) → ∃ m, (n <= m)%nat ∧ label x m = Some (LKick t).
Proof.
  intros Ht. apply taken; [done|simpl; by rewrite Ht|]. intros k He Hl. simpl in *.
  destruct (callers (at_time x k) !! t) as [[b s|]|] eqn:Hk; [|done..]. rewrite (caller_stays k t _ Hk Hl); [done|].
  intros Hr. pose proof (ex_step x k) as Hs. rewrite Hr in Hs. simpl in Hs. rewrite Hk in Hs. by destruct Hs.
Qed.

(** The thread makes another step as long as it runs a work or the list is not
    empty. *)
Lemma thread_moves n : works (at_time x n) ≠ [] ∨ thread (at_time x n) ≠ Polling →
  ∃ m, (n <= m)%nat ∧ label x m = Some LThread ∧ ∀ k, (n <= k < m)%nat → label x k ≠ Some LThread.
Proof.
  intros Hw. assert (∃ m, (n <= m)%nat ∧ label x m = Some LThread) as (m & Hm & Hl); [|by eapply first_label].
  assert (∀ n, enabled LThread (at_time x n) = true → ∃ m, (n <= m)%nat ∧ label x m = Some LThread) as Hgo.
  { intros k Hk. apply taken; [done|done|]. intros j Hj Hlj. by apply thread_stays. }
  destruct (enabled LThread (at_time x n)) eqn:He; [by apply Hgo|]. simpl in He.
  destruct (thread (at_time x n)) eqn:Ht; [|done..]. destruct Hw as [Hw|?]; [|done]. apply Z.ltb_ge in He.
  pose proof (wi_place _ (at_inv n)) as Hp. unfold place in Hp. rewrite Ht in Hp.
  destruct Hp as [?|[?|(t & a & sync & Hk)]]; [done|lia|]. destruct (kick_comes n t a sync Hk) as (m & Hm & Hl).
  destruct (Hgo (S m)) as (m' & Hm' & Hl'); [|exists m'; split; [lia|done]].
  pose proof (ex_step x m) as Hs. rewrite Hl in Hs. destruct Hs as [Hen Hs]. simpl in Hen, Hs.
  destruct (callers (at_time x m) !! t) as [[b s|]|]; [|done..]. injection Hs as <-. simpl. pose proof (wi_eventfd _ (at_inv m)).
  destruct (thread (at_time x m)); try done. apply Z.ltb_lt. lia.
Qed.

Lemma running_ran n a tmp : thread (at_time x n) = Running a tmp → ∃ m, (n <= m)%nat ∧ a ∈ ran (at_time x m).
Proof.
  intros Ht. destruct (thread_moves n) as (m & Hm & Hl & Hmin); [right; by rewrite Ht|].
  destruct (other_steps n m Hm Hmin) as (Ht' & _ & _). rewrite Ht in Ht'. exists (S m). split; [lia|].
  pose proof (ex_step x m) as Hs. rewrite Hl in Hs. destruct Hs as [_ Hs]. simpl in Hs. rewrite Ht' in Hs.
  destruct (run_work_inv _ a tmp (at_inv m) Ht') as (q & Hq & _ & _ & _ & Hran). rewrite Hq in Hs. injection Hs as <-. rewrite Hran. set_solver.
Qed.

(** How far the thread is from taking the next work. *)
Definition cost (pc : thread_pc) : nat :=
  match pc with
  | Acked | Continue (Some _) => 1
  | Polling | Running _ (Some _) => 2
  | Continue None => 3
  | Running _ None => 4
  end.

(** The thread takes a work: the others move up. *)
Lemma take_moves_up m e q' (p : nat) a : take_work e (at_time x m) = Ok q' → works (at_time x m) !! p = Some a →
  thread (at_time x m) = Acked ∧ e = head (works (at_time x m)) ∨ thread (at_time x m) = Continue e →
  match e with
  | Some _ => match p with O => ∃ tmp, thread q' = Running a tmp | S p => works q' !! p = Some a ∧ (cost (thread q') <= 4)%nat end
  | None => works q' !! p = Some a ∧ thread q' = Polling
  end.
Proof.
  intros Hq Hp Ht. destruct (take_place _ e (at_inv m) Ht) as [Hr Hpl].
  destruct (take_inv _ e (at_inv m) Hr Hpl) as (q1 & Hq1 & _ & Hw). rewrite Hq in Hq1. injection Hq1 as <-.
  destruct e as [y|]; destruct Hw as [Hw Hth]; [|by rewrite Hw]. rewrite Hw in Hp. destruct p as [|p]; simpl in Hp.
  - injection Hp as ->. by eexists.
  - split; [done|]. rewrite Hth. destruct (head (works q')); simpl; lia.
Qed.

Lemma queued_ran : ∀ (k n p : nat) a, works (at_time x n) !! p = Some a → (5 * p + cost (thread (at_time x n)) <= k)%nat →
  ∃ m, (n <= m)%nat ∧ a ∈ ran (at_time x m).
Proof.
  induction k as [|k IH]; intros n p a Hp Hk; [destruct (thread _) as [| |? []|[]]; simpl in Hk; lia|].
  destruct (thread_moves n) as (m & Hm & Hl & Hmin); [left; by intros Hw; rewrite Hw in Hp|].
  destruct (other_steps n m Hm Hmin) as (Ht & _ & [more Hw]).
  assert (works (at_time x m) !! p = Some a) as Hpm by (rewrite Hw; by apply lookup_app_l_Some).
  rewrite <- Ht in Hk. clear Ht Hmin Hw more.
  assert (∀ p', works (at_time x (S m)) !! p' = Some a → (5 * p' + cost (thread (at_time x (S m))) <= k)%nat →
    ∃ j, (n <= j)%nat ∧ a ∈ ran (at_time x j)) as Hnext.
  { intros p' Hp' Hk'. destruct (IH (S m) p' a Hp' Hk') as (j & Hj & Ha). exists j. split; [lia|done]. }
  assert (∀ tmp, thread (at_time x (S m)) = Running a tmp → ∃ j, (n <= j)%nat ∧ a ∈ ran (at_time x j)) as Hnow.
  { intros tmp Hr. destruct (running_ran (S m) a tmp Hr) as (j & Hj & Ha). exists j. split; [lia|done]. }
  pose proof (ex_step x m) as Hs. rewrite Hl in Hs. destruct Hs as [_ Hs]. simpl in Hs.
  destruct (thread (at_time x m)) as [| |b tmp|tmp] eqn:Ht.
  - injection Hs as Hs. apply (Hnext p); rewrite <- Hs; [done|simpl in *; lia].
  - pose proof (take_moves_up m _ _ p a Hs Hpm (or_introl (conj Ht eq_refl))) as Hmv.
    destruct (head (works (at_time x m))) as [y|] eqn:Hh; [|destruct (works (at_time x m)); [by rewrite lookup_nil in Hpm|done]].
    destruct p as [|p]; [destruct Hmv as [tmp Hr]; by apply (Hnow tmp)|]. destruct Hmv as [Hp' Hc]. apply (Hnext p); [done|]. simpl in *. lia.
  - destruct (run_work_inv _ b tmp (at_inv m) Ht) as (q & Hq & _ & Hth & Hw & _). rewrite Hq in Hs. injection Hs as ->.
    apply (Hnext p); [by rewrite Hw|]. rewrite Hth. destruct tmp; simpl in *; lia.
  - pose proof (take_moves_up m _ _ p a Hs Hpm (or_intror Ht)) as Hmv. destruct tmp as [y|].
    + destruct p as [|p]; [destruct Hmv as [tmp Hr]; by apply (Hnow tmp)|]. destruct Hmv as [Hp' Hc]. apply (Hnext p); [done|]. simpl in *. lia.
    + destruct Hmv as [Hp' Hth]. apply (Hnext p); [done|]. rewrite Hth. simpl in *. lia.
Qed.

Lemma added_ran n a : a ∈ ids (at_time x n) → ∃ m, (n <= m)%nat ∧ a ∈ ran (at_time x m).
Proof.
  intros Ha. rewrite (wi_fifo _ (at_inv n)) in Ha. apply elem_of_app in Ha as [Ha|Ha]; [by exists n|].
  apply elem_of_app in Ha as [Ha|Ha].
  - unfold running in Ha. destruct (thread (at_time x n)) as [| |b tmp|] eqn:Ht; try (by apply not_elem_of_nil in Ha).
    apply list_elem_of_singleton in Ha as ->. by eapply running_ran.
  - apply list_elem_of_lookup_1 in Ha as [p Hp]. by eapply queued_ran.
Qed.

(** Before a work has run its caller waits for it. *)
Lemma waits_or_returned n m t a : (n <= m)%nat → callers (at_time x n) !! t = Some (AtWait a) →
  callers (at_time x m) !! t = Some (AtWait a) ∨ ∃ k, (n <= k)%nat ∧ label x k = Some (LReturn t).
Proof.
  intros Hnm Ht. induction m as [|m IH]; [replace n with 0%nat in * by lia; by left|].
  destruct (decide (n = S m)) as [->|Hne]; [by left|]. destruct IH as [Hm|Hm]; [lia| |by right].
  destruct (decide (label x m = Some (LReturn t))); [right; exists m; split; [lia|done]|]. left. apply caller_stays; [done| |done].
  intros Hl. pose proof (ex_step x m) as Hs. rewrite Hl in Hs. simpl in Hs. rewrite Hm in Hs. by destruct Hs.
Qed.

(** A work that has run is done. *)
Lemma ran_done n t a : callers (at_time x n) !! t = Some (AtWait a) → a ∈ ran (at_time x n) → enabled (LReturn t) (at_time x n) = true.
Proof.
  intros Ht Ha. pose proof (at_inv n) as []. simpl. rewrite Ht. destruct (wi_caller0 t _ Ht) as [_ H]. destruct (H eq_refl) as (w & Hw & _).
  simpl in Hw. rewrite Hw. destruct (w_done w) eqn:Hd; [done|]. destruct (wi_obj0 a w Hw) as (_ & Hin & _). specialize (Hin Hd).
  rewrite wi_fifo0, NoDup_app in wi_nodup0. destruct wi_nodup0 as (_ & Hdisj & _). by destruct (Hdisj a Ha).
Qed.

Lemma ran_grows n m : (n <= m)%nat → ran (at_time x n) `prefix_of` ran (at_time x m).
Proof.
  intros Hnm. induction m as [|m IH]; [by replace n with 0%nat by lia|]. destruct (decide (n = S m)) as [->|]; [done|].
  etrans; [apply IH; lia|]. destruct (decide (label x m = Some LThread)) as [Hl|Hl]; [|by destruct (other_step m Hl) as (_ & -> & _)].
  pose proof (ex_step x m) as Hs. rewrite Hl in Hs. destruct Hs as [_ Hs]. simpl in Hs.
  destruct (thread (at_time x m)) as [| |b tmp|e] eqn:Ht.
  - by injection Hs as <-.
  - unfold take_work in Hs. destruct (head _); [|by injection Hs as <-]. apply bind_Ok in Hs as (l & _ & Hs). by injection Hs as <-.
  - destruct (run_work_inv _ b tmp (at_inv m) Ht) as (q & Hq & _ & _ & _ & Hran). rewrite Hq in Hs. injection Hs as <-. rewrite Hran. by eexists.
  - unfold take_work in Hs. destruct e; [|by injection Hs as <-]. apply bind_Ok in Hs as (l & _ & Hs). by injection Hs as <-.
Qed.

Lemma wait_returns n t a : callers (at_time x n) !! t = Some (AtWait a) → ∃ m, (n <= m)%nat ∧ label x m = Some (LReturn t).
Proof.
  intros Ht. destruct (wi_caller _ (at_inv n) t _ Ht) as [Hin _]. destruct (added_ran n a Hin) as (m & Hm & Hran).
  destruct (waits_or_returned n m t a Hm Ht) as [Hw|Hw]; [|done].
  destruct (Hfair (LReturn t) m I) as (k & Hk & [Hl|Hno]); [exists k; split; [lia|done]|].
  destruct (waits_or_returned m k t a Hk Hw) as [Hwk|(j & Hj & Hl)]; [|exists j; split; [lia|done]].
  rewrite (ran_done k t a) in Hno; [done|done|]. destruct (ran_grows m k Hk) as [r ->]. apply elem_of_app. by left.
Qed.

Lemma call_returns n t pc : callers (at_time x n) !! t = Some pc → pc_sync pc = true → ∃ m, (n <= m)%nat ∧ label x m = Some (LReturn t).
Proof.
  intros Ht Hs. destruct pc as [a sync|a]; [|by eapply wait_returns]. simpl in Hs. subst sync.
  destruct (kick_comes n t a true Ht) as (m & Hm & Hl). destruct (first_label _ n m Hm Hl) as (k & Hk & Hlk & Hmin).
  assert (callers (at_time x k) !! t = Some (AtKick a true)) as Htk.
  { clear Hlk Hl. induction k as [|k IH]; [by replace n with 0%nat in * by lia|]. destruct (decide (n = S k)) as [->|]; [done|].
    assert (callers (at_time x k) !! t = Some (AtKick a true)) as Hk' by (apply IH; [lia|intros j Hj; apply Hmin; lia]).
    apply caller_stays; [done|apply Hmin; lia|]. intros Hr. pose proof (ex_step x k) as Hs. rewrite Hr in Hs. simpl in Hs. rewrite Hk' in Hs.
    by destruct Hs. }
  pose proof (ex_step x k) as Hs. rewrite Hlk in Hs. simpl in Hs. rewrite Htk in Hs. destruct Hs as [_ Hs]. injection Hs as Hs.
  destruct (wait_returns (S k) t a) as (j & Hj & Hlj); [rewrite <- Hs; simpl; apply lookup_partial_alter_eq|]. exists j. split; [lia|done].
Qed.
End progress.
End props.

(** ** Properties *)

(** (C27) In every interleaving of callers and thread no step faults: no work is
    used after its caller has returned or it was freed, and the loop never unlinks
    a work that is not in the list. Works are run in the order in which they were
    appended and at most once, and a call returns what its function returned, after
    it was run. *)
Theorem workqueue_in_order exec q : wq_reachable exec q →
  (∀ l, enabled l q = true → ∃ q', wq_step exec l q = Ok q' ∧ wq_reachable exec q') ∧
  ids q = ran q ++ running q ++ works q ∧ NoDup (ids q) ∧
  (∀ t a v, (t, a, v) ∈ returned q → ∃ func arg, (a, func, arg) ∈ added q ∧ v = exec func arg ∧ a ∈ ran q).
Proof.
  intros Hr. pose proof (wq_reachable_inv exec q Hr) as Hi. split; [|destruct Hi; auto].
  intros l He. destruct (wq_step_inv exec l q Hi He) as (q' & Hs & _). exists q'. split; [done|]. by eapply wq_next.
Qed.

(** (C26) In every fair interleaving every work that was appended is run and every
    call returns: a work that is appended while the thread runs the last work of its
    loop is not seen by that loop, but its kick comes after the acknowledgement. *)
Theorem workqueue_live exec (x : execution exec) n : fair exec x →
  (∀ a, a ∈ ids (at_time exec x n) → ∃ m, (n <= m)%nat ∧ a ∈ ran (at_time exec x m)) ∧
  (∀ t pc, callers (at_time exec x n) !! t = Some pc → pc_sync pc = true →
     ∃ m, (n <= m)%nat ∧ label exec x m = Some (LReturn t)).
Proof.
  intros Hf. split; [intros a; by apply added_ran|]. intros t pc. by apply call_returns.
Qed.

(** One call of a function that adds. *)
Definition ex_exec (func arg : Z) : Z := func + arg.
Definition ex_labels : list wq_label := [LCall 1 20 3; LKick 1; LThread; LThread; LThread; LThread; LReturn 1].
Definition ex_at (n : nat) : priskv_workqueue :=
  foldl (λ q l, match wq_step ex_exec l q with Ok q => q | Fault _ => q end) (priskv_workqueue_create 1) (take n ex_labels).

Lemma ex_at_end n : (7 <= n)%nat → ex_at n = ex_at 7.
Proof. intros Hn. unfold ex_at. by rewrite !take_ge by (simpl; lia). Qed.

Lemma ex_execution_step n : match ex_labels !! n with
  | Some l => enabled l (ex_at n) = true ∧ wq_step ex_exec l (ex_at n) = Ok (ex_at (S n))
  | None => ex_at (S n) = ex_at n
  end.
Proof.
  do 7 (destruct n as [|n]; [split; vm_compute; reflexivity|]). rewrite (lookup_ge_None_2 ex_labels) by (simpl; lia).
  etrans; [apply ex_at_end; lia|symmetry; apply ex_at_end; lia].
Qed.

Definition ex_execution : execution ex_exec :=
  mk_execution ex_exec ex_at (λ n, ex_labels !! n) (ex_intro _ 1 eq_refl) ex_execution_step.

Lemma ex_fair : fair ex_exec ex_execution.
Proof.
  intros l n Hl. exists (n `max` 7)%nat. split; [lia|]. right. simpl. rewrite ex_at_end by lia.
  assert (ex_at 7 = mk_wq [] 0 ∅ 2 Polling ∅ [(1, 20, 3)] [1] [(1, 1, 23)]) as -> by (vm_compute; reflexivity).
  destruct l; simpl; rewrite ?lookup_empty; done.
Qed.

Lemma workqueue_in_order_witness : returned (ex_at 7) = [(1, 1, 23)] ∧ ran (ex_at 7) = [1] ∧ NoDup (ids (ex_at 7)).
Proof.
  assert (wq_reachable ex_exec (ex_at 7)) as Hr.
  { assert (∀ n, (n <= 7)%nat → wq_reachable ex_exec (ex_at n)) as H; [|by apply H].
    induction n as [|n IH]; intros Hn; [apply (wq_created ex_exec 1)|]. pose proof (ex_execution_step n) as Hs.
    destruct (ex_labels !! n) as [l|] eqn:Hl; [destruct Hs; apply (wq_next ex_exec (ex_at n) l); [apply IH; lia|done|done]|].
    apply lookup_ge_None in Hl. simpl in Hl. lia. }
  destruct (workqueue_in_order ex_exec (ex_at 7) Hr) as (_ & _ & Hnd & _). split; [vm_compute; reflexivity|]. split; [vm_compute; reflexivity|exact Hnd].
Defined.

Lemma workqueue_live_witness : ∃ m, label ex_exec ex_execution m = Some (LReturn 1).
Proof.
  destruct (workqueue_live ex_exec ex_execution 1 ex_fair) as [_ H].
  destruct (H 1 (AtKick 1 true)) as (m & _ & Hm); [reflexivity|reflexivity|]. exists m. exact Hm.
Defined.

(** ** The loop alone *)

Lemma thread_run_S exec fuel q q' : thread q ≠ Polling → wq_step exec LThread q = Ok q' →
  thread_run exec (S fuel) q = thread_run exec fuel q'.
Proof. intros Ht Hs. cbn [thread_run]. rewrite Hs. by destruct (thread q). Qed.

(** Without callers [priskv_workqueue_process] runs all works of the list. *)
Lemma process_drains exec q : wq_inv exec q → thread q = Polling →
  ∃ q', priskv_workqueue_process exec q = Ok q' ∧ wq_inv exec q' ∧ works q' = [] ∧ ran q' = ran q ++ works q.
Proof.
  intros Hi Ht. unfold priskv_workqueue_process.
  assert (∀ l q e, wq_inv exec q → works q = l → e = head l → thread q = Continue e ∨ thread q = Acked →
    (e = None → works q = [] ∨ kicked q) →
    ∃ q', thread_run exec (2 * length l + 1) q = Ok q' ∧ wq_inv exec q' ∧ works q' = [] ∧ ran q' = ran q ++ l) as Hloop.
  { induction l as [|a l IH]; intros p e Hp Hw -> Hth Hk.
    - assert (take_work (head []) p = Ok (at_thread Polling p)) as Htk by done.
      destruct (take_inv exec p None Hp) as (p' & Hp' & Hi' & Hw' & _); [unfold running; by destruct Hth as [->| ->]|by left|].
      injection Hp' as <-. exists (at_thread Polling p). simpl in Hw'. rewrite Hw in Hw'. split; [|split; [done|split; [done|]]].
      + simpl. destruct Hth as [-> | ->]; simpl; by rewrite ?Hw.
      + simpl. by rewrite app_nil_r.
    - assert (running p = []) as Hr by (unfold running; by destruct Hth as [->| ->]).
      destruct (take_inv exec p (Some a) Hp Hr) as (p1 & Hp1 & Hi1 & Hw1 & Ht1); [by rewrite Hw|].
      rewrite Hw in Hw1. injection Hw1 as Hw1.
      destruct (run_work_inv exec p1 a _ Hi1 Ht1) as (p2 & Hp2 & Hi2 & Ht2 & Hw2 & Hr2).
      destruct (IH p2 (head l)) as (q' & Hq' & Hi' & Hw' & Hran); [done|congruence|done|left; congruence| |].
      { intros Hnone. left. rewrite Hw2, <- Hw1. by destruct l. }
      exists q'. split; [|split; [done|split; [done|]]].
      + replace (2 * length (a :: l) + 1)%nat with (S (S (2 * length l + 1))) by (simpl; lia).
        rewrite (thread_run_S exec _ p p1), (thread_run_S exec _ p1 p2); [done|by rewrite Ht1|cbn [wq_step]; by rewrite Ht1| |];
          destruct Hth as [Hth|Hth]; cbn [wq_step]; rewrite Hth, ?Hw; done.
      + rewrite Hran, Hr2. assert (ran p1 = ran p) as ->; [|by rewrite <- app_assoc].
        unfold take_work in Hp1. apply bind_Ok in Hp1 as (l' & _ & Hp1). by injection Hp1 as <-. }
  apply (Hloop (works q) (at_thread Acked (priskv_workqueue_ack q)) (head (works q))); try done; [|by right|intros Hn; simpl; destruct (works q); [by left|done]].
  destruct Hi. unfold running in *. rewrite Ht in *. split; simpl; done.
Qed.
