(* ===== verification/Connect.v ===== *)
(** * The client: connections

    [client/rdma.c] from [priskv_connect] to a connection that can carry requests,
    and back. A connection acquires an epoll descriptor, an event channel, an
    identifier, a completion channel, two queues and three registered buffers,
    step by step as the events of the connection manager arrive; on an error, and
    when it is closed, it gives all of them back.

    What is acquired from the system and from the RDMA libraries is in [w_live],
    under a number that is never handed out twice, with what it is built on: to
    release something twice, or something that others are built on, is a fault.
    The libraries answer by the functions of section [connect], indexed by the
    number of calls so far. The events of the connection manager are an argument,
    one list per time [epoll_wait] returns. *)

From S2P Require Import Prelude State Utils Protocol Wire Threads Client.

(** ** State *)

Inductive resource :=
  | Memory
  | AddrInfo
  | EpollFd
  | TimerFd
  | EventChannel
  | CmId (channel : Z)
  | CompChannel (cm_id : Z)
  | Cq (comp_channel : Z)
  | Qp (cm_id cq : Z)
  | Buffer (size : Z)
  | Mr (cm_id : Z) (buf : option Z) (length : Z) (remote_write : bool).

Definition built_on (r : resource) : list Z :=
  match r with
  | Memory | AddrInfo | EpollFd | TimerFd | EventChannel | Buffer _ => []
  | CmId channel => [channel]
  | CompChannel cm_id => [cm_id]
  | Cq comp_channel => [comp_channel]
  | Qp cm_id cq => [cm_id; cq]
  | Mr cm_id buf _ _ => cm_id :: option_list buf
  end.

Record priskv_rdma_mem := mk_rmem { rm_buf : option Z; rm_buf_size : Z; rm_mr : option Z }.
Definition rmem_zero : priskv_rdma_mem := mk_rmem None 0 None.

Definition PRISKV_RDMA_MEM_REQ : nat := 0.
Definition PRISKV_RDMA_MEM_RESP : nat := 1.
Definition PRISKV_RDMA_MEM_KEYS : nat := 2.
Definition PRISKV_RDMA_MEM_MAX : nat := 3.

Record priskv_connect_param := mk_param { p_max_sgl : Z; p_max_key_length : Z; p_max_inflight_command : Z }.

Inductive qp_state := QPS_RESET | QPS_INIT | QPS_RTR | QPS_RTS.
Global Instance qp_state_eq_dec : EqDecision qp_state.
Proof. solve_decision. Defined.

(** What was asked of the identifier last: the connection manager reports on
    this, and on nothing else. *)
Inductive cm_phase := CmIdle | CmResolvingAddr | CmResolvingRoute | CmConnecting | CmEstablished.

(** [cn_qps], [cn_depth]: the state of the queue pair and how many work requests it
    takes; [cn_slots]: the request buffer, by slots; [cn_recvs]: the receive buffers
    that are posted, as offsets into the response buffer; [cn_sent]: the private data
    of [rdma_connect]. *)
Record priskv_rdma_conn := mk_conn {
  cn_cm_id : option Z;
  cn_cm_channel : option Z;
  cn_comp_channel : option Z;
  cn_cq : option Z;
  cn_qp : option Z;
  cn_rmem : list priskv_rdma_mem;
  cn_param : priskv_connect_param;
  cn_capacity : Z;
  cn_epollfd : Z;
  cn_established : bool;
  cn_mrs : option Z;
  cn_phase : cm_phase;
  cn_qps : qp_state;
  cn_depth : Z;
  cn_slots : list (list Z);
  cn_recvs : list Z;
  cn_sent : list Z
}.

Record world := mk_world {
  w_live : gmap Z resource;
  w_conns : gmap Z priskv_rdma_conn;
  w_handlers : gmap Z Z;             (* fd_handlers: the connection behind a descriptor *)
  w_tick : Z
}.

Notation CW := (ST world).

Definition with_live (l : gmap Z resource) (w : world) : world := mk_world l (w_conns w) (w_handlers w) (w_tick w).
Definition with_conns (c : gmap Z priskv_rdma_conn) (w : world) : world := mk_world (w_live w) c (w_handlers w) (w_tick w).

(** ** Resources *)

Definition wtick : CW Z := λ w, Ok (w_tick w, mk_world (w_live w) (w_conns w) (w_handlers w) (w_tick w + 1)).

Definition busy (live : gmap Z resource) (h : Z) : Prop := map_Exists (λ _ r, h ∈ built_on r) live.

Definition release (h : Z) : CW unit := λ w,
  match w_live w !! h with
  | None => Fault UseAfterFree
  | Some _ => if decide (busy (w_live w) h) then Fault UseAfterFree else Ok (tt, with_live (delete h (w_live w)) w)
  end.

Definition release_opt (h : option Z) : CW unit := match h with Some h => release h | None => mret tt end.

Definition get_conn (conn : Z) : CW priskv_rdma_conn := λ w,
  match w_conns w !! conn with Some c => Ok (c, w) | None => Fault UseAfterFree end.
Definition put_conn (conn : Z) (c : priskv_rdma_conn) : CW unit := modify (λ w, with_conns (<[conn := c]> (w_conns w)) w).
Definition upd_conn (conn : Z) (f : priskv_rdma_conn → priskv_rdma_conn) : CW unit := c ← get_conn conn; put_conn conn (f c).

Definition deref {A} (o : option A) : CW A := lift (match o with Some a => Ok a | None => Fault NullDeref end).

Definition priskv_set_fd_handler (fd conn : Z) : CW unit :=
  modify (λ w, mk_world (w_live w) (w_conns w) (<[fd := conn]> (w_handlers w)) (w_tick w)).

(** Assignments to the fields of a connection. *)
Definition set_rmem (i : nat) (m : priskv_rdma_mem) (c : priskv_rdma_conn) : priskv_rdma_conn :=
  mk_conn (cn_cm_id c) (cn_cm_channel c) (cn_comp_channel c) (cn_cq c) (cn_qp c) (<[i := m]> (cn_rmem c)) (cn_param c)
    (cn_capacity c) (cn_epollfd c) (cn_established c) (cn_mrs c) (cn_phase c) (cn_qps c) (cn_depth c) (cn_slots c) (cn_recvs c) (cn_sent c).
Definition set_slots (l : list (list Z)) (c : priskv_rdma_conn) : priskv_rdma_conn :=
  mk_conn (cn_cm_id c) (cn_cm_channel c) (cn_comp_channel c) (cn_cq c) (cn_qp c) (cn_rmem c) (cn_param c)
    (cn_capacity c) (cn_epollfd c) (cn_established c) (cn_mrs c) (cn_phase c) (cn_qps c) (cn_depth c) l (cn_recvs c) (cn_sent c).
Definition set_comp_channel (h : option Z) (c : priskv_rdma_conn) : priskv_rdma_conn :=
  mk_conn (cn_cm_id c) (cn_cm_channel c) h (cn_cq c) (cn_qp c) (cn_rmem c) (cn_param c)
    (cn_capacity c) (cn_epollfd c) (cn_established c) (cn_mrs c) (cn_phase c) (cn_qps c) (cn_depth c) (cn_slots c) (cn_recvs c) (cn_sent c).
Definition set_cq (h : option Z) (c : priskv_rdma_conn) : priskv_rdma_conn :=
  mk_conn (cn_cm_id c) (cn_cm_channel c) (cn_comp_channel c) h (cn_qp c) (cn_rmem c) (cn_param c)
    (cn_capacity c) (cn_epollfd c) (cn_established c) (cn_mrs c) (cn_phase c) (cn_qps c) (cn_depth c) (cn_slots c) (cn_recvs c) (cn_sent c).
Definition set_qp (h : option Z) (depth : Z) (c : priskv_rdma_conn) : priskv_rdma_conn :=
  mk_conn (cn_cm_id c) (cn_cm_channel c) (cn_comp_channel c) (cn_cq c) h (cn_rmem c) (cn_param c)
    (cn_capacity c) (cn_epollfd c) (cn_established c) (cn_mrs c) (cn_phase c) QPS_RESET depth (cn_slots c) (cn_recvs c) (cn_sent c).
Definition set_phase (p : cm_phase) (c : priskv_rdma_conn) : priskv_rdma_conn :=
  mk_conn (cn_cm_id c) (cn_cm_channel c) (cn_comp_channel c) (cn_cq c) (cn_qp c) (cn_rmem c) (cn_param c)
    (cn_capacity c) (cn_epollfd c) (cn_established c) (cn_mrs c) p (cn_qps c) (cn_depth c) (cn_slots c) (cn_recvs c) (cn_sent c).
Definition set_sent (data : list Z) (c : priskv_rdma_conn) : priskv_rdma_conn :=
  mk_conn (cn_cm_id c) (cn_cm_channel c) (cn_comp_channel c) (cn_cq c) (cn_qp c) (cn_rmem c) (cn_param c)
    (cn_capacity c) (cn_epollfd c) (cn_established c) (cn_mrs c) (cn_phase c) (cn_qps c) (cn_depth c) (cn_slots c) (cn_recvs c) data.
Definition set_qps (q : qp_state) (c : priskv_rdma_conn) : priskv_rdma_conn :=
  mk_conn (cn_cm_id c) (cn_cm_channel c) (cn_comp_channel c) (cn_cq c) (cn_qp c) (cn_rmem c) (cn_param c)
    (cn_capacity c) (cn_epollfd c) (cn_established c) (cn_mrs c) (cn_phase c) q (cn_depth c) (cn_slots c) (cn_recvs c) (cn_sent c).
Definition set_depth (d : Z) (c : priskv_rdma_conn) : priskv_rdma_conn :=
  mk_conn (cn_cm_id c) (cn_cm_channel c) (cn_comp_channel c) (cn_cq c) (cn_qp c) (cn_rmem c) (cn_param c)
    (cn_capacity c) (cn_epollfd c) (cn_established c) (cn_mrs c) (cn_phase c) (cn_qps c) d (cn_slots c) (cn_recvs c) (cn_sent c).
Definition set_max_inflight (n : Z) (c : priskv_rdma_conn) : priskv_rdma_conn :=
  mk_conn (cn_cm_id c) (cn_cm_channel c) (cn_comp_channel c) (cn_cq c) (cn_qp c) (cn_rmem c)
    (mk_param (p_max_sgl (cn_param c)) (p_max_key_length (cn_param c)) n)
    (cn_capacity c) (cn_epollfd c) (cn_established c) (cn_mrs c) (cn_phase c) (cn_qps c) (cn_depth c) (cn_slots c) (cn_recvs c) (cn_sent c).
Definition set_reply (sgl keylen capacity : Z) (c : priskv_rdma_conn) : priskv_rdma_conn :=
  mk_conn (cn_cm_id c) (cn_cm_channel c) (cn_comp_channel c) (cn_cq c) (cn_qp c) (cn_rmem c)
    (mk_param sgl keylen (p_max_inflight_command (cn_param c)))
    capacity (cn_epollfd c) (cn_established c) (cn_mrs c) (cn_phase c) (cn_qps c) (cn_depth c) (cn_slots c) (cn_recvs c) (cn_sent c).
Definition set_recvs (l : list Z) (c : priskv_rdma_conn) : priskv_rdma_conn :=
  mk_conn (cn_cm_id c) (cn_cm_channel c) (cn_comp_channel c) (cn_cq c) (cn_qp c) (cn_rmem c) (cn_param c)
    (cn_capacity c) (cn_epollfd c) (cn_established c) (cn_mrs c) (cn_phase c) (cn_qps c) (cn_depth c) (cn_slots c) l (cn_sent c).
Definition set_established (b : bool) (c : priskv_rdma_conn) : priskv_rdma_conn :=
  mk_conn (cn_cm_id c) (cn_cm_channel c) (cn_comp_channel c) (cn_cq c) (cn_qp c) (cn_rmem c) (cn_param c)
    (cn_capacity c) (cn_epollfd c) b (cn_mrs c) (cn_phase c) (cn_qps c) (cn_depth c) (cn_slots c) (cn_recvs c) (cn_sent c).
Definition set_channel (h : option Z) (c : priskv_rdma_conn) : priskv_rdma_conn :=
  mk_conn (cn_cm_id c) h (cn_comp_channel c) (cn_cq c) (cn_qp c) (cn_rmem c) (cn_param c)
    (cn_capacity c) (cn_epollfd c) (cn_established c) (cn_mrs c) (cn_phase c) (cn_qps c) (cn_depth c) (cn_slots c) (cn_recvs c) (cn_sent c).
Definition set_cm_id (h : option Z) (c : priskv_rdma_conn) : priskv_rdma_conn :=
  mk_conn h (cn_cm_channel c) (cn_comp_channel c) (cn_cq c) (cn_qp c) (cn_rmem c) (cn_param c)
    (cn_capacity c) (cn_epollfd c) (cn_established c) (cn_mrs c) (cn_phase c) (cn_qps c) (cn_depth c) (cn_slots c) (cn_recvs c) (cn_sent c).
Definition set_epollfd (fd : Z) (c : priskv_rdma_conn) : priskv_rdma_conn :=
  mk_conn (cn_cm_id c) (cn_cm_channel c) (cn_comp_channel c) (cn_cq c) (cn_qp c) (cn_rmem c) (cn_param c)
    (cn_capacity c) fd (cn_established c) (cn_mrs c) (cn_phase c) (cn_qps c) (cn_depth c) (cn_slots c) (cn_recvs c) (cn_sent c).

(** ** Answers of the libraries *)

Inductive call :=
  | CCalloc | CMmap | CEpollCreate | CEpollWait | CSetNonblock | CCreateEventChannel | CCreateId | CGetAddrInfo
  | CBindAddr | CResolveAddr | CResolveRoute | CCreateCompChannel | CCreateCq | CReqNotifyCq | CCreateQp | CConnect
  | CInitQpAttr | CModifyQp | CEstablish | CQueryDevice | CResizeCq | CRegMr | CPostRecv | CRegDmabufMr
  | CResolved | CListen | CTimerfdCreate | CEpollCtl | CEventAdd.

(** What [rdma_get_cm_event] returns. *)
Inductive cm_event :=
  | EvAddrResolved
  | EvRouteResolved
  | EvConnectResponse (private_data : list Z)
  | EvRejected (private_data : list Z)
  | EvDisconnected
  | EvOther.

(** The connection manager reports the end of what it was asked last, and at any
    time that something else happened to the device or the connection. *)
Definition reports (p : cm_phase) (ev : cm_event) : bool :=
  match ev, p with
  | EvAddrResolved, CmResolvingAddr | EvRouteResolved, CmResolvingRoute | EvConnectResponse _, CmConnecting
  | EvRejected _, CmConnecting | EvDisconnected, CmEstablished | EvOther, _ => true
  | _, _ => false
  end.

(** One return of [epoll_wait]: it was interrupted, or it failed, or there are
    events, after which [rdma_get_cm_event] has none, or fails. *)
Inductive wakeup := Interrupted | WaitFailed | Woken (evs : list cm_event) (last_ok : bool).

Definition ECONNREFUSED : Z := 111.
Definition ETIMEDOUT : Z := 110.
Definition ENOMEM : Z := 12.
Definition EPROTO : Z := 71.
Definition PRISKV_RDMA_DEFAULT_INFLIGHT_COMMAND : Z := 128.
Definition PRISKV_RDMA_CM_VERSION : Z := 1.
Definition sizeof_cm_req : Z := 32.
Definition sizeof_cm_rep : Z := 32.
Definition sizeof_cm_rej : Z := 16.

Section connect.
(** Does the [t]-th call succeed, and what does it leave in [errno]; can the queues
    of the device be resized; the size of a page. *)
Context (ok : call → Z → bool) (errno : Z → positive) (resizable : bool) (page_bits : Z).
Definition page_size : Z := 2 ^ page_bits.

(** A call that acquires nothing. *)
Definition try (f : call) : CW (bool * Z) := t ← wtick; mret (ok f t, Z.pos (errno t)).

Definition acquire (f : call) (r : resource) : CW (option Z) :=
  t ← wtick;
  if ok f t then _ ← modify (λ w, with_live (<[t := r]> (w_live w)) w); mret (Some t) else mret None.

Definition errno_of : CW Z := t ← wtick; mret (Z.pos (errno t)).

(** ** Buffers *)

(** [munmap] of length 0 is refused. *)
Definition munmap (buf : option Z) (size : Z) : CW unit := if size =? 0 then mret tt else release_opt buf.

(** [mmap] of length 0 fails. *)
Definition mmap (size : Z) : CW (option Z) := if size =? 0 then mret None else acquire CMmap (Buffer size).

(** When the registration fails, [rmem->buf] is unmapped, not [buf]. *)
Definition priskv_rdma_mem_new (conn : Z) (i : nat) (size : Z) (remote_write : bool) : CW Z :=
  let size := ALIGN_UP 32 size page_size in
  buf ← mmap size;
  match buf with
  | None => _ ← upd_conn conn (set_rmem i rmem_zero); mret (- ENOMEM)
  | Some buf =>
      c ← get_conn conn;
      cm_id ← deref (cn_cm_id c);
      mr ← acquire CRegMr (Mr cm_id (Some buf) size remote_write);
      match mr with
      | None =>
          e ← errno_of;
          let rmem := default rmem_zero (cn_rmem c !! i) in
          _ ← munmap (rm_buf rmem) (rm_buf_size rmem);
          _ ← upd_conn conn (set_rmem i rmem_zero);
          mret (- e)
      | Some mr => _ ← upd_conn conn (set_rmem i (mk_rmem (Some buf) size (Some mr))); mret 0
      end
  end.

Definition priskv_rdma_mem_free (conn : Z) (i : nat) : CW unit :=
  c ← get_conn conn;
  let rmem := default rmem_zero (cn_rmem c !! i) in
  _ ← release_opt (rm_mr rmem);
  _ ← (match rm_buf rmem with Some _ => munmap (rm_buf rmem) (rm_buf_size rmem) | None => mret tt end);
  upd_conn conn (set_rmem i rmem_zero).

Fixpoint mem_free_from (n i : nat) (conn : Z) : CW unit :=
  match n with O => mret tt | S n => _ ← priskv_rdma_mem_free conn i; mem_free_from n (S i) conn end.
Definition priskv_rdma_mem_free_all (conn : Z) : CW unit := mem_free_from PRISKV_RDMA_MEM_MAX 0 conn.

(** The slots of the request buffer that are marked free: each lies in the buffer,
    at a multiple of the size of a request, and is marked. *)
Fixpoint free_requests (n : nat) (buf_size reqsize i : Z) : res (list (list Z)) :=
  match n with
  | O => Ok []
  | S n =>
      assert! (i * reqsize <? buf_size) ;;
      _ ← (if reqsize =? 0 then Fault DivByZero else Ok tt);
      assert! ((i * reqsize) mod reqsize =? 0) ;;
      req ← put_be 2 (replicate (Z.to_nat reqsize) 0) off_command PRISKV_RDMA_REQUEST_FREE_COMMAND;
      l ← free_requests n buf_size reqsize (u16 (i + 1));
      Ok (req :: l)
  end.

Definition mem_new_error (conn : Z) : CW Z := _ ← priskv_rdma_mem_free_all conn; mret (- ENOMEM).

Definition priskv_rdma_mem_new_all (conn : Z) : CW Z :=
  c ← get_conn conn;
  let p := cn_param c in
  let reqsize := priskv_request_size_aligend (p_max_sgl p) (p_max_key_length p) in
  ret ← priskv_rdma_mem_new conn PRISKV_RDMA_MEM_REQ (u32 (reqsize * p_max_inflight_command p)) false;
  if negb (ret =? 0) then mem_new_error conn else
  c ← get_conn conn;
  let rmem := default rmem_zero (cn_rmem c !! PRISKV_RDMA_MEM_REQ) in
  slots ← lift (free_requests (Z.to_nat (p_max_inflight_command p)) (rm_buf_size rmem) reqsize 0);
  _ ← upd_conn conn (set_slots slots);
  ret ← priskv_rdma_mem_new conn PRISKV_RDMA_MEM_RESP (u32 (sizeof_priskv_response * p_max_inflight_command p)) false;
  if negb (ret =? 0) then mem_new_error conn else
  ret ← priskv_rdma_mem_new conn PRISKV_RDMA_MEM_KEYS (u32 page_size) true;
  if negb (ret =? 0) then mem_new_error conn else mret 0.

(** ** Queues *)

Definition priskv_rdma_new_qp (conn : Z) : CW Z :=
  c ← get_conn conn;
  cm_id ← deref (cn_cm_id c);
  comp ← acquire CCreateCompChannel (CompChannel cm_id);
  _ ← upd_conn conn (set_comp_channel comp);
  match comp with
  | None => e ← errno_of; mret (- e)
  | Some comp =>
      _ ← try CSetNonblock;
      _ ← priskv_set_fd_handler comp conn;
      let depth := p_max_inflight_command (cn_param c) in
      let depth := if depth =? 0 then PRISKV_RDMA_DEFAULT_INFLIGHT_COMMAND else depth in
      cq ← acquire CCreateCq (Cq comp);
      _ ← upd_conn conn (set_cq cq);
      match cq with
      | None => e ← errno_of; mret (- e)
      | Some cq =>
          '(notified, e) ← try CReqNotifyCq;
          if negb notified then mret (- e) else
          qp ← acquire CCreateQp (Qp cm_id cq);
          _ ← upd_conn conn (set_qp qp depth);
          match qp with None => e ← errno_of; mret (- e) | Some _ => mret 0 end
      end
  end.

(** The request: version and limits. *)
Definition cm_req (p : priskv_connect_param) : res (list Z) :=
  put_fields [(0, 2%nat, PRISKV_RDMA_CM_VERSION); (2, 2%nat, p_max_sgl p); (4, 2%nat, p_max_key_length p);
              (6, 2%nat, p_max_inflight_command p)] (replicate (Z.to_nat sizeof_cm_req) 0).

Definition priskv_rdma_connect (conn : Z) : CW Z :=
  ret ← priskv_rdma_new_qp conn;
  if negb (ret =? 0) then mret ret else
  c ← get_conn conn;
  data ← lift (cm_req (cn_param c));
  _ ← deref (cn_qp c);
  '(connected, e) ← try CConnect;
  if negb connected then mret (-1) else
  _ ← upd_conn conn (set_sent data);
  _ ← upd_conn conn (set_phase CmConnecting);
  mret 0.

(** The queue pair goes from one state to the next only. *)
Definition qp_next (q : qp_state) : option qp_state :=
  match q with QPS_INIT => Some QPS_RESET | QPS_RTR => Some QPS_INIT | QPS_RTS => Some QPS_RTR | QPS_RESET => None end.

Definition modify_qp_state (conn : Z) (q : qp_state) : CW Z :=
  '(init, e) ← try CInitQpAttr;
  if negb init then mret (-1) else
  c ← get_conn conn;
  _ ← deref (cn_qp c);
  '(modified, e) ← try CModifyQp;
  if modified && bool_decide (Some (cn_qps c) = qp_next q)
  then _ ← upd_conn conn (set_qps q); mret 0
  else mret e.

Definition priskv_rdma_establish_qp (conn : Z) : CW Z :=
  ret ← modify_qp_state conn QPS_INIT;
  if negb (ret =? 0) then mret ret else
  ret ← modify_qp_state conn QPS_RTR;
  if negb (ret =? 0) then mret ret else
  ret ← modify_qp_state conn QPS_RTS;
  if negb (ret =? 0) then mret ret else
  '(established, e) ← try CEstablish;
  if negb established then mret (-1) else
  _ ← upd_conn conn (set_phase CmEstablished);
  mret 0.

Definition priskv_rdma_modify_max_inflight_command (conn max_inflight_command : Z) : CW Z :=
  if max_inflight_command =? PRISKV_RDMA_DEFAULT_INFLIGHT_COMMAND then
    _ ← upd_conn conn (set_max_inflight PRISKV_RDMA_DEFAULT_INFLIGHT_COMMAND); mret 0
  else
  '(queried, _) ← try CQueryDevice;
  if negb queried then mret 0 else
  if negb resizable then
    _ ← upd_conn conn (set_max_inflight (priskv_min_u16 max_inflight_command PRISKV_RDMA_DEFAULT_INFLIGHT_COMMAND)); mret 0
  else
  _ ← upd_conn conn (set_max_inflight max_inflight_command);
  '(resized, e) ← try CResizeCq;
  if negb resized then mret e else
  '(modified, e) ← try CModifyQp;
  if negb modified then mret (- e) else
  _ ← upd_conn conn (set_depth max_inflight_command);
  mret 0.

(** ** Events of the connection manager *)

(** [resp]: the offset of the response in its buffer. *)
Definition priskv_rdma_recv_resp (conn resp : Z) : CW Z :=
  c ← get_conn conn;
  _ ← deref (rm_mr (default rmem_zero (cn_rmem c !! PRISKV_RDMA_MEM_RESP)));
  _ ← deref (cn_qp c);
  '(posted, _) ← try CPostRecv;
  if negb posted then mret (-1) else
  _ ← upd_conn conn (set_recvs (cn_recvs c ++ [resp]));
  mret sizeof_priskv_response.

Fixpoint recv_resps (n : nat) (conn i : Z) : CW Z :=
  match n with
  | O => mret 0
  | S n =>
      ret ← priskv_rdma_recv_resp conn (i * sizeof_priskv_response);
      if ret <? 0 then mret ret else recv_resps n conn (i + 1)
  end.

Definition priskv_rdma_responsed (conn : Z) (private_data : list Z) : CW Z :=
  if Z.of_nat (length private_data) <? sizeof_cm_rep then mret (- EPROTO) else
  sgl ← lift (get_be 2 private_data 2);
  keylen ← lift (get_be 2 private_data 4);
  max_inflight_command ← lift (get_be 2 private_data 6);
  capacity ← lift (get_be 8 private_data 8);
  _ ← upd_conn conn (set_reply sgl keylen capacity);
  ret ← priskv_rdma_modify_max_inflight_command conn max_inflight_command;
  if negb (ret =? 0) then mret ret else
  ret ← priskv_rdma_establish_qp conn;
  if negb (ret =? 0) then mret ret else
  ret ← priskv_rdma_mem_new_all conn;
  if negb (ret =? 0) then mret ret else
  c ← get_conn conn;
  recv_resps (Z.to_nat (p_max_inflight_command (cn_param c))) conn 0.

(** The reason is only logged. *)
Definition priskv_rdma_rejected (private_data : list Z) : CW Z :=
  if Z.of_nat (length private_data) <? sizeof_cm_rej then mret (- EPROTO) else
  _ ← lift (get_be 2 private_data 0);
  _ ← lift (get_be 2 private_data 2);
  _ ← lift (get_be 8 private_data 8);
  mret (- ECONNREFUSED).

Definition handle_one (conn : Z) (ev : cm_event) : CW Z :=
  match ev with
  | EvAddrResolved =>
      '(resolving, _) ← try CResolveRoute;
      if negb resolving then mret (-1) else _ ← upd_conn conn (set_phase CmResolvingRoute); mret 0
  | EvRouteResolved => priskv_rdma_connect conn
  | EvConnectResponse private_data =>
      ret ← priskv_rdma_responsed conn private_data;
      _ ← upd_conn conn (set_established true);
      mret ret
  | EvRejected private_data => priskv_rdma_rejected private_data
  | EvDisconnected => _ ← upd_conn conn (set_established false); mret 0
  | EvOther => mret (- ECONNREFUSED)
  end.

(** Events the connection manager cannot have at this point are not there. *)
Fixpoint priskv_rdma_handle_cm_event (conn : Z) (evs : list cm_event) (last_ok : bool) : CW Z :=
  match evs with
  | [] => mret (if last_ok then 0 else -1)
  | ev :: evs =>
      c ← get_conn conn;
      _ ← deref (cn_cm_id c);
      if negb (reports (cn_phase c) ev) then priskv_rdma_handle_cm_event conn evs last_ok else
      ret ← handle_one conn ev;
      if negb (ret =? 0) then mret ret else priskv_rdma_handle_cm_event conn evs last_ok
  end.

(** When nothing more happens, [epoll_wait] returns 0 after a second. *)
Fixpoint priskv_rdma_wait_established (conn : Z) (wakeups : list wakeup) : CW Z :=
  c ← get_conn conn;
  if cn_established c then mret 0 else
  match wakeups with
  | [] => mret (- ETIMEDOUT)
  | Interrupted :: wakeups => priskv_rdma_wait_established conn wakeups
  | WaitFailed :: _ => e ← errno_of; mret (- e)
  | Woken evs last_ok :: wakeups =>
      ret ← priskv_rdma_handle_cm_event conn evs last_ok;
      if negb (ret =? 0) then mret ret else priskv_rdma_wait_established conn wakeups
  end.

(** ** Closing *)

(** The requests of the connection are [Client.priskv_rdma_close_conn]; this is what
    follows them. Results are only logged. *)
Definition priskv_rdma_close_conn (conn : Z) : CW unit :=
  _ ← upd_conn conn (set_established false);
  c ← get_conn conn;
  _ ← (if 0 <? cn_epollfd c then _ ← release (cn_epollfd c); upd_conn conn (set_epollfd (-1)) else mret tt);
  _ ← release_opt (cn_qp c);
  _ ← upd_conn conn (set_qp None (cn_depth c));
  _ ← release_opt (cn_cq c);
  _ ← upd_conn conn (set_cq None);
  _ ← release_opt (cn_comp_channel c);
  _ ← upd_conn conn (set_comp_channel None);
  _ ← priskv_rdma_mem_free_all conn;
  _ ← release_opt (cn_cm_id c);
  _ ← upd_conn conn (set_cm_id None);
  _ ← release_opt (cn_cm_channel c);
  _ ← upd_conn conn (set_channel None);
  release_opt (cn_mrs c).

(** [free(conn)]. *)
Definition free_conn (conn : Z) : CW unit :=
  _ ← release conn;
  modify (λ w, with_conns (delete conn (w_conns w)) w).

Definition priskv_conn_close (conn : option Z) : CW Z :=
  match conn with
  | None => mret 0
  | Some conn => _ ← priskv_rdma_close_conn conn; _ ← free_conn conn; mret 0
  end.

(** ** Connecting *)

Definition new_conn : priskv_rdma_conn :=
  mk_conn None None None None None (replicate PRISKV_RDMA_MEM_MAX rmem_zero)
    (mk_param 0 0 PRISKV_RDMA_DEFAULT_INFLIGHT_COMMAND) 0 0 false None CmIdle QPS_RESET 0 [] [] [].

Definition set_mrs (h : option Z) (c : priskv_rdma_conn) : priskv_rdma_conn :=
  mk_conn (cn_cm_id c) (cn_cm_channel c) (cn_comp_channel c) (cn_cq c) (cn_qp c) (cn_rmem c) (cn_param c)
    (cn_capacity c) (cn_epollfd c) (cn_established c) h (cn_phase c) (cn_qps c) (cn_depth c) (cn_slots c) (cn_recvs c) (cn_sent c).

Definition connect_error (conn : Z) (addrinfo : option Z) : CW (option Z) :=
  _ ← priskv_rdma_close_conn conn;
  _ ← free_conn conn;
  _ ← release_opt addrinfo;
  mret None.

(** Bind the local address; [inr]: the address information to free and an
    error. *)
Definition bind_local (cm_id : Z) : CW (unit + option Z) :=
  addrinfo ← acquire CGetAddrInfo AddrInfo;
  match addrinfo with
  | None => mret (inr None)
  | Some addrinfo =>
      '(bound, _) ← try CBindAddr;
      if negb bound then mret (inr (Some addrinfo)) else _ ← release addrinfo; mret (inl tt)
  end.

(** From the address of the server to a connection. *)
Definition resolve_and_wait (conn : Z) (wakeups : list wakeup) : CW (option Z) :=
  addrinfo ← acquire CGetAddrInfo AddrInfo;
  match addrinfo with
  | None => connect_error conn None
  | Some addrinfo =>
      '(resolving, _) ← try CResolveAddr;
      if negb resolving then connect_error conn (Some addrinfo) else
      _ ← upd_conn conn (set_phase CmResolvingAddr);
      ret ← priskv_rdma_wait_established conn wakeups;
      if negb (ret =? 0) then connect_error conn (Some addrinfo) else
      _ ← release addrinfo;
      mret (Some conn)
  end.

(** An identifier for the connection, the local address if there is one, and the
    rest. [laddr]: an address to bind was given. *)
Definition open_cm_id (conn channel : Z) (laddr : bool) (wakeups : list wakeup) : CW (option Z) :=
  cm_id ← acquire CCreateId (CmId channel);
  _ ← upd_conn conn (set_cm_id cm_id);
  match cm_id with
  | None => connect_error conn None
  | Some cm_id =>
      bound ← (if laddr then bind_local cm_id else mret (inl tt));
      match bound with
      | inr addrinfo => connect_error conn addrinfo
      | inl _ => resolve_and_wait conn wakeups
      end
  end.

Definition open_channel (conn : Z) (laddr : bool) (wakeups : list wakeup) : CW (option Z) :=
  channel ← acquire CCreateEventChannel EventChannel;
  _ ← upd_conn conn (set_channel channel);
  match channel with
  | None => connect_error conn None
  | Some channel =>
      '(nonblock, _) ← try CSetNonblock;
      if negb nonblock then connect_error conn None else
      _ ← priskv_set_fd_handler channel conn;
      open_cm_id conn channel laddr wakeups
  end.

Definition priskv_conn_connect (laddr : bool) (wakeups : list wakeup) : CW (option Z) :=
  conn ← acquire CCalloc Memory;
  match conn with
  | None => mret None
  | Some conn =>
      _ ← put_conn conn new_conn;
      mrs ← acquire CCalloc Memory;
      _ ← upd_conn conn (set_mrs mrs);
      epollfd ← acquire CEpollCreate EpollFd;
      match epollfd with
      | None => _ ← upd_conn conn (set_epollfd (-1)); mret None
      | Some epollfd =>
          _ ← upd_conn conn (set_epollfd epollfd);
          _ ← priskv_set_fd_handler epollfd conn;
          _ ← try CSetNonblock;
          open_channel conn laddr wakeups
      end
  end.

(** ** Clients *)

(** [&priskv_mq_ops]: a thread per connection; [&priskv_sq_ops]: one connection,
    served by the caller. *)
Inductive priskv_conn_operation := priskv_mq_ops | priskv_sq_ops.

Record priskv_client := mk_client {
  pc_self : Z;
  pc_pool : option (Z * priskv_threadpool);
  pc_conns : option (Z * list (option Z));
  pc_nqueue : Z;
  pc_cur_conn : Z;                   (* int *)
  pc_epollfd : Z;
  pc_wq : option Z;
  pc_ops : option priskv_conn_operation
}.

Definition set_conns (conns : option (Z * list (option Z))) (cl : priskv_client) : priskv_client :=
  mk_client (pc_self cl) (pc_pool cl) conns (pc_nqueue cl) (pc_cur_conn cl) (pc_epollfd cl) (pc_wq cl) (pc_ops cl).

(** What is made without fail: the code asserts that its parts could be made. *)
Definition acquire_sure (r : resource) : CW Z :=
  t ← wtick;
  _ ← modify (λ w, with_live (<[t := r]> (w_live w)) w);
  mret t.

(** The loop of [priskv_mq_init]: a connection and a thread for each index. *)
Fixpoint connect_queues (n : nat) (i : Z) (laddr : bool) (wakeups : Z → list wakeup) (cl : priskv_client) : CW (Z * priskv_client) :=
  match n with
  | O => mret (0, cl)
  | S n =>
      '(arr, conns) ← deref (pc_conns cl);
      conn ← priskv_conn_connect laddr (wakeups i);
      conns ← lift (wr conns i conn);
      let cl := set_conns (Some (arr, conns)) cl in
      match conn with
      | None => mret (-1, cl)
      | Some conn =>
          '(_, pool) ← deref (pc_pool cl);
          _ ← deref (priskv_threadpool_get_iothread pool i);
          connect_queues n (u8 (i + 1)) laddr wakeups cl
      end
  end.

Definition priskv_mq_init (laddr : bool) (wakeups : Z → list wakeup) (nqueue : Z) (cl : priskv_client) : CW (Z * priskv_client) :=
  wq ← acquire CCalloc Memory;
  let cl := mk_client (pc_self cl) (pc_pool cl) (pc_conns cl) (pc_nqueue cl) (pc_cur_conn cl) (pc_epollfd cl) wq (pc_ops cl) in
  match wq with
  | None => mret (-1, cl)
  | Some _ =>
      pool ← lift (priskv_threadpool_create_with_hooks nqueue 0 0);
      match pool with
      | None => mret (-1, cl)
      | Some pool =>
          h ← acquire_sure Memory;
          let cl := mk_client (pc_self cl) (Some (h, pool)) (pc_conns cl) (pc_nqueue cl) (pc_cur_conn cl) (pc_epollfd cl) wq (pc_ops cl) in
          arr ← acquire CCalloc Memory;
          match arr with
          | None => mret (-1, cl)
          | Some arr =>
              let cl := mk_client (pc_self cl) (pc_pool cl) (Some (arr, replicate (Z.to_nat nqueue) None)) nqueue (pc_cur_conn cl)
                          (pc_epollfd cl) wq (pc_ops cl) in
              '(ret, cl) ← connect_queues (Z.to_nat nqueue) 0 laddr wakeups cl;
              mret (ret, if ret =? 0
                         then mk_client (pc_self cl) (pc_pool cl) (pc_conns cl) (pc_nqueue cl) 0 (pc_epollfd cl) (pc_wq cl) (pc_ops cl)
                         else cl)
          end
      end
  end.

(** Each connection is closed by its thread. *)
Fixpoint close_queues (n : nat) (i : Z) (cl : priskv_client) (conns : list (option Z)) : CW unit :=
  match n with
  | O => mret tt
  | S n =>
      '(_, pool) ← deref (pc_pool cl);
      _ ← deref (priskv_threadpool_get_iothread pool i);
      conn ← lift (rd conns i);
      _ ← priskv_conn_close conn;
      close_queues n (i + 1) cl conns
  end.

Definition priskv_mq_deinit (cl : priskv_client) : CW unit :=
  _ ← (match pc_conns cl with Some (_, conns) => close_queues (Z.to_nat (pc_nqueue cl)) 0 cl conns | None => mret tt end);
  _ ← release_opt (fst <$> pc_pool cl);
  _ ← release_opt (pc_wq cl);
  release_opt (fst <$> pc_conns cl).

Definition priskv_sq_init (laddr : bool) (wakeups : Z → list wakeup) (cl : priskv_client) : CW (Z * priskv_client) :=
  arr ← acquire CCalloc Memory;
  match arr with
  | None => mret (-1, set_conns None cl)
  | Some arr =>
      conn ← priskv_conn_connect laddr (wakeups 0);
      let cl := set_conns (Some (arr, [conn])) cl in
      match conn with None => mret (-1, cl) | Some _ => mret (0, cl) end
  end.

Definition priskv_sq_deinit (cl : priskv_client) : CW unit :=
  '(arr, conns) ← deref (pc_conns cl);
  conn ← lift (rd conns 0);
  _ ← priskv_conn_close conn;
  release arr.

Definition ops_init (ops : priskv_conn_operation) (laddr : bool) (wakeups : Z → list wakeup) (nqueue : Z) (cl : priskv_client) :=
  match ops with priskv_mq_ops => priskv_mq_init laddr wakeups nqueue cl | priskv_sq_ops => priskv_sq_init laddr wakeups cl end.
Definition ops_deinit (ops : priskv_conn_operation) (cl : priskv_client) : CW unit :=
  match ops with priskv_mq_ops => priskv_mq_deinit cl | priskv_sq_ops => priskv_sq_deinit cl end.

(** The end of [priskv_connect] after an error, and [priskv_close]. *)
Definition priskv_close (cl : priskv_client) : CW unit :=
  ops ← deref (pc_ops cl);
  _ ← ops_deinit ops cl;
  _ ← (if 0 <=? pc_epollfd cl then release (pc_epollfd cl) else mret tt);
  release (pc_self cl).

Definition priskv_connect (lport nqueue : Z) (laddr : bool) (wakeups : Z → list wakeup) : CW (option priskv_client) :=
  if negb (lport =? 0) && (1 <? nqueue) then mret None else
  self ← acquire CCalloc Memory;
  match self with
  | None => mret None
  | Some self =>
      epollfd ← acquire CEpollCreate EpollFd;
      match epollfd with
      | None => _ ← priskv_close (mk_client self None None 0 0 (-1) None None); mret None
      | Some epollfd =>
          _ ← try CSetNonblock;
          let ops := if 0 <? nqueue then priskv_mq_ops else priskv_sq_ops in
          '(ret, cl) ← ops_init ops laddr wakeups nqueue (mk_client self None None 0 0 epollfd None (Some ops));
          if negb (ret =? 0) then _ ← priskv_close cl; mret None else mret (Some cl)
      end
  end.

(** ** Using a client *)

(** [cur_conn++ % nqueue] with [int]s. *)
Definition priskv_mq_select_conn (cl : priskv_client) : CW (option Z * priskv_client) :=
  '(_, conns) ← deref (pc_conns cl);
  _ ← lift (if pc_nqueue cl =? 0 then Fault DivByZero else Ok tt);
  conn ← lift (rd conns (Z.rem (pc_cur_conn cl) (pc_nqueue cl)));
  mret (conn, mk_client (pc_self cl) (pc_pool cl) (pc_conns cl) (pc_nqueue cl) (s32 (pc_cur_conn cl + 1)) (pc_epollfd cl) (pc_wq cl) (pc_ops cl)).

Definition priskv_sq_select_conn (cl : priskv_client) : CW (option Z * priskv_client) :=
  '(_, conns) ← deref (pc_conns cl);
  conn ← lift (rd conns 0);
  mret (conn, cl).

Definition priskv_select_conn (cl : priskv_client) : CW (option Z * priskv_client) :=
  ops ← deref (pc_ops cl);
  match ops with priskv_mq_ops => priskv_mq_select_conn cl | priskv_sq_ops => priskv_sq_select_conn cl end.

(** [None]: a null pointer. [fd]: device memory. *)
Definition priskv_conn_reg_memory (conn : Z) (length : Z) (fd : Z) : CW (option Z) :=
  c ← get_conn conn;
  cm_id ← deref (cn_cm_id c);
  acquire (if 0 <=? fd then CRegDmabufMr else CRegMr) (Mr cm_id None length true).

Definition priskv_conn_dereg_memory (mr : option Z) : CW unit := h ← deref mr; release h.

Record priskv_memory := mk_memory { pm_self : Z; pm_mrs : Z; pm_list : list (option Z) }.

Fixpoint reg_all (conns : list (option Z)) (length fd : Z) : CW (list (option Z)) :=
  match conns with
  | [] => mret []
  | conn :: conns =>
      conn ← deref conn;
      mr ← priskv_conn_reg_memory conn length fd;
      mrs ← reg_all conns length fd;
      mret (mr :: mrs)
  end.

(** [malloc] is not checked. *)
Definition priskv_mq_reg_memory (cl : priskv_client) (length fd : Z) : CW priskv_memory :=
  self ← acquire CCalloc Memory;
  self ← deref self;
  arr ← acquire CCalloc Memory;
  arr ← deref arr;
  '(_, conns) ← deref (pc_conns cl);
  mrs ← reg_all (take (Z.to_nat (pc_nqueue cl)) conns) length fd;
  mret (mk_memory self arr mrs).

Definition priskv_sq_reg_memory (cl : priskv_client) (length fd : Z) : CW priskv_memory :=
  self ← acquire CCalloc Memory;
  self ← deref self;
  arr ← acquire CCalloc Memory;
  arr ← deref arr;
  '(_, conns) ← deref (pc_conns cl);
  mrs ← reg_all (take 1 conns) length fd;
  mret (mk_memory self arr mrs).

Definition priskv_reg_memory (cl : priskv_client) (length fd : Z) : CW priskv_memory :=
  ops ← deref (pc_ops cl);
  match ops with priskv_mq_ops => priskv_mq_reg_memory cl length fd | priskv_sq_ops => priskv_sq_reg_memory cl length fd end.

Fixpoint dereg_all (mrs : list (option Z)) : CW unit :=
  match mrs with [] => mret tt | mr :: mrs => _ ← priskv_conn_dereg_memory mr; dereg_all mrs end.

(** Both kinds of clients: every registration, the array, the structure. *)
Definition priskv_dereg_memory (mem : priskv_memory) : CW unit :=
  _ ← dereg_all (pm_list mem);
  _ ← release (pm_mrs mem);
  release (pm_self mem).

Definition priskv_mq_get_mr (mem : priskv_memory) (connid : Z) : res (option Z) := rd (pm_list mem) connid.
Definition priskv_sq_get_mr (mem : priskv_memory) (connid : Z) : res (option Z) := rd (pm_list mem) 0.
End connect.
