(* ===== verification/ConnectProps.v ===== *)
(** * Connections: what they hold

    What a connection owns is read off its fields ([owned]); [owns] says that the
    resources that are live are those of a list and those of everybody else.
    The list is in the order in which the connection lets go of it, and nothing in
    it is built on something before it ([grounded]), so every release is safe. The
    end of the file shows that an attempt to connect, whatever the network and the
    libraries answer, does not fault, and either yields a connection that is ready
    for requests or gives back all it took. *)

From S2P Require Import Prelude State Utils Protocol Wire Threads Client ClientProps Connect.

(** ** Resources of a connection *)

Notation holding := (list (Z * resource)).

Definition hold (h : option Z) (r : resource) : holding := match h with Some h => [(h, r)] | None => [] end.

Definition mem_owned (cm_id : Z) (rw : bool) (m : priskv_rdma_mem) : holding :=
  hold (rm_mr m) (Mr cm_id (rm_buf m) (rm_buf_size m) rw) ++ hold (rm_buf m) (Buffer (rm_buf_size m)).

Definition mem_at (c : priskv_rdma_conn) (i : nat) : priskv_rdma_mem := default rmem_zero (cn_rmem c !! i).

Definition mems_owned (c : priskv_rdma_conn) : holding :=
  let cm_id := default 0 (cn_cm_id c) in
  mem_owned cm_id false (mem_at c 0) ++ mem_owned cm_id false (mem_at c 1) ++ mem_owned cm_id true (mem_at c 2).

Definition owned (conn : Z) (c : priskv_rdma_conn) : holding :=
  let cm_id := default 0 (cn_cm_id c) in
  hold (if 0 <? cn_epollfd c then Some (cn_epollfd c) else None) EpollFd ++
  hold (cn_qp c) (Qp cm_id (default 0 (cn_cq c))) ++
  hold (cn_cq c) (Cq (default 0 (cn_comp_channel c))) ++
  hold (cn_comp_channel c) (CompChannel cm_id) ++
  mems_owned c ++
  hold (cn_cm_id c) (CmId (default 0 (cn_cm_channel c))) ++
  hold (cn_cm_channel c) EventChannel ++
  hold (cn_mrs c) Memory ++ [(conn, Memory)].

(** Nothing is built on what comes before it. *)
Fixpoint grounded (l : holding) : Prop :=
  match l with
  | [] => True
  | (_, r) :: l => Forall (λ h, h = 0 ∨ h ∈ l.*1) (built_on r) ∧ grounded l
  end.

(** A place for a list of address information and the like. *)
Definition loose (l : holding) : Prop := Forall (λ p, built_on p.2 = []) l.

Lemma loose_grounded l : loose l → grounded l.
Proof. induction 1 as [|[k r] l Hr _ IH]; simpl in *; [done|]. by rewrite Hr. Qed.

Lemma grounded_hold h r l : (∀ x, x ∈ built_on r → x = 0 ∨ x ∈ l.*1) → grounded l → grounded (hold h r ++ l).
Proof. intros Hr Hl. destruct h; simpl; [|done]. split; [by apply Forall_forall|done]. Qed.

Lemma default_in (h : option Z) r l : default 0 h = 0 ∨ default 0 h ∈ (hold h r ++ l).*1.
Proof. destruct h; simpl; [right; left|by left]. Qed.

Lemma in_later x h r (l : holding) : x = 0 ∨ x ∈ l.*1 → x = 0 ∨ x ∈ (hold h r ++ l).*1.
Proof. intros [->|Hx]; [by left|right]. rewrite fmap_app. apply elem_of_app. by right. Qed.

Lemma in_later_mem x cm rw m (l : holding) : x = 0 ∨ x ∈ l.*1 → x = 0 ∨ x ∈ (mem_owned cm rw m ++ l).*1.
Proof. intros [->|Hx]; [by left|right]. rewrite fmap_app. apply elem_of_app. by right. Qed.

Lemma grounded_mem cm rw m l : cm = 0 ∨ cm ∈ l.*1 → grounded l → grounded (mem_owned cm rw m ++ l).
Proof.
  intros Hcm Hl. unfold mem_owned. rewrite <- app_assoc. apply grounded_hold.
  - intros x [->|Hx]%elem_of_cons; [by apply in_later|]. destruct (rm_buf m); simpl in *; [|by apply elem_of_nil in Hx].
    apply list_elem_of_singleton in Hx as ->. right; left.
  - apply grounded_hold; [by intros x ?%elem_of_nil|done].
Qed.

#[local] Hint Resolve default_in in_later in_later_mem : own.

Lemma owned_grounded conn c extra : loose extra → grounded (owned conn c ++ extra).
Proof.
  intros Hx. unfold owned, mems_owned. rewrite <- !app_assoc.
  repeat first [apply grounded_hold; [intros x; simpl; rewrite ?elem_of_cons; intros Hin; decompose [or] Hin; subst;
                  try (by exfalso; eapply not_elem_of_nil); eauto 12 with own|]
               |apply grounded_mem; [eauto 12 with own|]].
  simpl. split; [done|]. by apply loose_grounded.
Qed.

(** ** Ownership *)

Section ownership.
Context (conn : Z) (frame : gmap Z resource) (others : gmap Z priskv_rdma_conn).

(** Others hold [frame], and built nothing on what is ours. *)
Record owns (w : world) (c : priskv_rdma_conn) (l : holding) : Prop := mk_owns {
  ow_conn : w_conns w !! conn = Some c;
  ow_others : delete conn (w_conns w) = others;
  ow_live : w_live w = list_to_map l ∪ frame;
  ow_nodup : NoDup l.*1;
  ow_range : Forall (λ h, 0 < h < w_tick w) l.*1;
  ow_apart : map_Forall (λ k r, 0 < k < w_tick w ∧ k ∉ l.*1 ∧ Forall (λ h, h < w_tick w ∧ h ∉ l.*1) (built_on r)) frame
}.

Definition holds (w : world) (c : priskv_rdma_conn) (extra : holding) : Prop :=
  loose extra ∧ owns w c (owned conn c ++ extra).

Lemma owns_perm w c l l' : l ≡ₚ l' → owns w c l → owns w c l'.
Proof.
  intros Hp [H1 H2 H3 H4 H5 H6]. assert (l.*1 ≡ₚ l'.*1) as Hk by by rewrite Hp.
  split; [done..|by rewrite H3, (list_to_map_proper l l') |by rewrite <- Hk|by rewrite <- Hk|].
  intros k r Hkr. destruct (H6 k r Hkr) as (? & ? & Hf). split; [done|]. rewrite <- Hk. split; [done|].
  eapply Forall_impl; [exact Hf|]. simpl. intros h. by rewrite Hk.
Qed.

Lemma owns_upd w c c' l : owns w c l → owns (with_conns (<[conn := c']> (w_conns w)) w) c' l.
Proof.
  intros [H1 H2 H3 H4 H5 H6]. split; simpl; [by rewrite lookup_insert_eq|by rewrite delete_insert_eq|done..].
Qed.

Lemma owns_tick w c l : owns w c l → owns (mk_world (w_live w) (w_conns w) (w_handlers w) (w_tick w + 1)) c l.
Proof.
  intros [H1 H2 H3 H4 H5 H6]. split; simpl; [done..| |].
  - eapply Forall_impl; [exact H5|]. simpl. lia.
  - eapply map_Forall_impl; [exact H6|]. simpl. intros k r (? & ? & Hf). split; [lia|]. split; [done|].
    eapply Forall_impl; [exact Hf|]. simpl. intros h []. split; [lia|done].
Qed.

Lemma owns_handlers w c l hs : owns w c l → owns (mk_world (w_live w) (w_conns w) hs (w_tick w)) c l.
Proof. intros [H1 H2 H3 H4 H5 H6]. by split. Qed.

Lemma owns_acquire w c l r : 0 < w_tick w → owns w c l →
  let w' := mk_world (w_live w) (w_conns w) (w_handlers w) (w_tick w + 1) in
  owns (with_live (<[w_tick w := r]> (w_live w)) w') c ((w_tick w, r) :: l).
Proof.
  intros Ht Ho. pose proof (owns_tick _ _ _ Ho) as [_ _ _ _ H5 H6]. destruct Ho as [H1 H2 H3 H4 H5' H6'].
  simpl in *. split; simpl; [done|done|by rewrite H3, insert_union_l| | |].
  - apply NoDup_cons. split; [|done]. intros Hin. rewrite Forall_forall in H5'. specialize (H5' _ Hin). lia.
  - apply Forall_cons. split; [lia|done].
  - intros k r' Hk. destruct (H6' k r' Hk) as (? & ? & Hf). split; [lia|]. split.
    + apply not_elem_of_cons. split; [lia|done].
    + eapply Forall_impl; [exact Hf|]. simpl. intros h []. split; [lia|]. apply not_elem_of_cons. split; [lia|done].
Qed.

Lemma grounded_built l k r h : grounded l → (k, r) ∈ l → h ∈ built_on r → h = 0 ∨ h ∈ l.*1.
Proof.
  induction l as [|[k' r'] l IH]; intros Hg Hin Hh; [by apply elem_of_nil in Hin|].
  destruct Hg as [Hf Hg]. apply elem_of_cons in Hin as [[= <- <-]|Hin].
  - rewrite Forall_forall in Hf. destruct (Hf h Hh); [by left|right; by right].
  - destruct (IH Hg Hin Hh); [by left|right; by right].
Qed.

Lemma owns_release w c h r l : owns w c ((h, r) :: l) → grounded ((h, r) :: l) →
  ∃ w', release h w = Ok (tt, w') ∧ owns w' c l ∧ w_tick w' = w_tick w.
Proof.
  intros [H1 H2 H3 H4 H5 H6] Hg. simpl in *. unfold release. rewrite H3.
  apply NoDup_cons in H4 as [Hn H4]. apply Forall_cons in H5 as [Hh H5].
  assert (list_to_map l !! h = (None : option resource)) as Hl by by apply not_elem_of_list_to_map_1.
  assert (frame !! h = None) as Hf.
  { destruct (frame !! h) eqn:E; [|done]. destruct (H6 _ _ E) as (_ & Hx & _). exfalso. apply Hx. left. }
  simpl. rewrite lookup_union_l, lookup_insert_eq by done.
  rewrite decide_False.
  - eexists. split; [done|]. split; [|done]. split; simpl; [done|done| |done|done|].
    + rewrite delete_union, delete_insert_id, (delete_id frame) by done. done.
    + eapply map_Forall_impl; [exact H6|]. simpl. intros k q (? & Hk & Hb). split; [done|].
      apply not_elem_of_cons in Hk as [_ Hk]. split; [done|]. eapply Forall_impl; [exact Hb|]. simpl.
      intros x [? Hx]. apply not_elem_of_cons in Hx as [_ Hx]. done.
  - intros (k & q & Hk & Hin). apply lookup_union_Some_raw in Hk as [Hk|[_ Hk]].
    + rewrite <- list_to_map_cons in Hk. apply elem_of_list_to_map_2 in Hk.
      destruct Hg as [Hr Hg]. apply elem_of_cons in Hk as [[= -> ->]|Hk].
      * rewrite Forall_forall in Hr. destruct (Hr h Hin); [lia|done].
      * destruct (grounded_built l k q h Hg Hk Hin); [lia|done].
    + destruct (H6 _ _ Hk) as (_ & _ & Hb). rewrite Forall_forall in Hb. destruct (Hb h Hin) as [_ Hx]. apply Hx. left.
Qed.

(** ** Rules for the steps *)

Context (ok : call → Z → bool).

Lemma safe_wtick w c extra (Q : Z → world → Prop) : holds w c extra →
  (∀ w', holds w' c extra → Q (w_tick w) w') → safe wtick w Q.
Proof. intros [Hx Ho] HQ. eexists _, _. split; [reflexivity|]. apply HQ. split; [done|]. by apply owns_tick. Qed.

Lemma safe_try errno f w c extra (Q : bool * Z → world → Prop) : holds w c extra →
  (∀ t w', holds w' c extra → Q (ok f t, Z.pos (errno t)) w') → safe (try ok errno f) w Q.
Proof. intros Hh HQ. unfold try. step. eapply safe_wtick; [done|]. intros w' Hh'. apply safe_ret. by apply HQ. Qed.

Lemma safe_errno errno w c extra (Q : Z → world → Prop) : holds w c extra →
  (∀ e w', 0 < e → holds w' c extra → Q e w') → safe (errno_of errno) w Q.
Proof. intros Hh HQ. unfold errno_of. step. eapply safe_wtick; [done|]. intros w' Hh'. apply safe_ret. by apply HQ. Qed.

Lemma safe_conn w c l (Q : priskv_rdma_conn → world → Prop) : owns w c l → Q c w → safe (get_conn conn) w Q.
Proof. intros Ho HQ. exists c, w. split; [|done]. unfold get_conn. by rewrite (ow_conn _ _ _ Ho). Qed.

Lemma safe_upd_owns f w c l (Q : unit → world → Prop) : owns w c l →
  (∀ w', owns w' (f c) l → Q tt w') → safe (upd_conn conn f) w Q.
Proof.
  intros Ho HQ. unfold upd_conn. step. eapply safe_conn; [done|]. apply safe_modify. apply HQ. eapply owns_upd; exact Ho.
Qed.

(** An assignment that changes nothing of what is owned. *)
Lemma safe_upd f w c extra (Q : unit → world → Prop) : holds w c extra → owned conn (f c) = owned conn c →
  (∀ w', holds w' (f c) extra → Q tt w') → safe (upd_conn conn f) w Q.
Proof. intros [Hx Ho] He HQ. eapply safe_upd_owns; [done|]. intros w' Ho'. apply HQ. split; [done|]. by rewrite He. Qed.

Lemma safe_acquire f r w c l (Q : option Z → world → Prop) : owns w c l → (conn, Memory) ∈ l →
  (∀ t w', ok f t = false → owns w' c l → Q None w') →
  (∀ t w', 0 < t → ok f t = true → owns w' c ((t, r) :: l) → Q (Some t) w') → safe (acquire ok f r) w Q.
Proof.
  intros Ho Hin HN HS. unfold acquire. step. eexists _, _. split; [reflexivity|].
  assert (0 < w_tick w) as Ht.
  { pose proof (ow_range _ _ _ Ho) as Hr. rewrite Forall_forall in Hr. specialize (Hr conn).
    ospecialize (Hr _); [apply list_elem_of_fmap; by exists (conn, Memory)|lia]. }
  destruct (ok f (w_tick w)) eqn:E.
  - step. apply safe_modify, safe_ret. apply HS; [done|done|]. exact (owns_acquire w c l r Ht Ho).
  - apply safe_ret, (HN _ _ E). by apply owns_tick.
Qed.

Lemma owned_self c extra : (conn, Memory) ∈ owned conn c ++ extra.
Proof. unfold owned. rewrite !elem_of_app, list_elem_of_singleton. tauto. Qed.

(** Something is acquired and stored in a field. *)
Lemma safe_acquire_into {A} f r (upd : option Z → priskv_rdma_conn → priskv_rdma_conn) w c extra (k : option Z → CW A)
    (Q : A → world → Prop) :
  holds w c extra → (∀ t, owned conn (upd (Some t) c) ≡ₚ (t, r) :: owned conn c) → owned conn (upd None c) = owned conn c →
  (∀ w', holds w' (upd None c) extra → safe (k None) w' Q) →
  (∀ t w', 0 < t → ok f t = true → holds w' (upd (Some t) c) extra → safe (k (Some t)) w' Q) →
  safe (h ← acquire ok f r; _ ← upd_conn conn (upd h); k h) w Q.
Proof.
  intros [Hx Ho] Hs Hn HN HS. step. eapply safe_acquire; [done|apply owned_self| |].
  - intros t w' _ Ho'. step. eapply safe_upd_owns; [done|]. intros w2 Ho2. apply HN. split; [done|]. by rewrite Hn.
  - intros t w' Ht Hok Ho'. step. eapply safe_upd_owns; [done|]. intros w2 Ho2. apply HS; [done|done|].
    split; [done|]. eapply owns_perm; [|done]. by rewrite Hs.
Qed.

Lemma safe_release_opt h r w c l (Q : unit → world → Prop) : owns w c (hold h r ++ l) → grounded (hold h r ++ l) →
  (∀ w', owns w' c l → Q tt w') → safe (release_opt h) w Q.
Proof.
  intros Ho Hg HQ. destruct h as [h|]; simpl in *; [|by apply safe_ret, HQ].
  destruct (owns_release _ _ _ _ _ Ho Hg) as (w' & Heq & Ho' & _). eexists _, _. split; [exact Heq|]. by apply HQ.
Qed.

(** What a field names is released, and the field is cleared. *)
Lemma safe_drop {A} (h : option Z) r f w c extra (k : CW A) (Q : A → world → Prop) :
  holds w c extra → owned conn c ≡ₚ hold h r ++ owned conn (f c) → (∀ x, x ∈ built_on r → x = 0 ∨ x ∈ (owned conn (f c)).*1) →
  (∀ w', holds w' (f c) extra → safe k w' Q) → safe (_ ← release_opt h; _ ← upd_conn conn f; k) w Q.
Proof.
  intros [Hx Ho] Hp Hr HQ. pose proof (owned_grounded conn (f c) extra Hx) as Hg. step.
  apply (owns_perm _ _ _ (hold h r ++ owned conn (f c) ++ extra)) in Ho; [|by rewrite Hp, app_assoc].
  eapply safe_release_opt; [exact Ho| |].
  - apply grounded_hold; [|done]. intros x Hin. destruct (Hr x Hin); [by left|right]. rewrite fmap_app, elem_of_app. by left.
  - intros w' Ho'. step. eapply safe_upd_owns; [done|]. intros w2 Ho2. by apply HQ.
Qed.

(** ** Buffers *)

(** A buffer that is mapped has a size. *)
Definition mem_wf (m : priskv_rdma_mem) : Prop := is_Some (rm_buf m) → rm_buf_size m ≠ 0.
Definition closable (c : priskv_rdma_conn) : Prop := length (cn_rmem c) = PRISKV_RDMA_MEM_MAX ∧ Forall mem_wf (cn_rmem c).

Lemma mem_at_wf c i : closable c → mem_wf (mem_at c i).
Proof.
  intros [_ Hf]. unfold mem_at. destruct (cn_rmem c !! i) as [m|] eqn:E; simpl; [by eapply Forall_lookup_1|].
  intros [? [=]].
Qed.

Lemma closable_set_rmem i m c : closable c → mem_wf m → closable (set_rmem i m c).
Proof. intros [Hl Hf] Hm. split; simpl; [by rewrite length_insert|]. by apply Forall_insert. Qed.

Lemma mem_wf_zero : mem_wf rmem_zero.
Proof. by intros [? [=]]. Qed.

Lemma mem_at_set_eq i m c : closable c → (i < PRISKV_RDMA_MEM_MAX)%nat → mem_at (set_rmem i m c) i = m.
Proof. intros [Hl _] Hi. unfold mem_at. simpl. by rewrite list_lookup_insert_eq by (rewrite Hl; done). Qed.

Lemma mem_at_set_ne i j m c : i ≠ j → mem_at (set_rmem i m c) j = mem_at c j.
Proof. intros Hi. unfold mem_at. simpl. by rewrite list_lookup_insert_ne. Qed.

Definition mem_rw (i : nat) : bool := bool_decide (i = PRISKV_RDMA_MEM_KEYS).

(** The part of the holdings that is one buffer. *)
Lemma owned_mem c i m : closable c → (i < PRISKV_RDMA_MEM_MAX)%nat → mem_at c i = rmem_zero →
  owned conn (set_rmem i m c) ≡ₚ mem_owned (default 0 (cn_cm_id c)) (mem_rw i) m ++ owned conn c.
Proof.
  intros Hc Hi Hz. unfold PRISKV_RDMA_MEM_MAX in Hi.
  assert (i = 0 ∨ i = 1 ∨ i = 2)%nat as Hi3 by lia.
  assert (mem_owned (default 0 (cn_cm_id c)) (mem_rw i) (mem_at c i) = []) as Hnil by by rewrite Hz.
  destruct Hi3 as [-> | [-> | ->]]; unfold owned, mems_owned; rewrite mem_at_set_eq by (done || unfold PRISKV_RDMA_MEM_MAX; lia);
    rewrite !mem_at_set_ne by lia; change (cn_cm_id (set_rmem _ m c)) with (cn_cm_id c); unfold mem_rw in *; simpl in *; rewrite Hnil;
    solve_Permutation.
Qed.

Lemma set_rmem_same i m c : set_rmem i (mem_at c i) (set_rmem i m c) = set_rmem i (mem_at c i) c.
Proof. unfold set_rmem. simpl. by rewrite list_insert_insert_eq. Qed.

Lemma set_rmem_id i c : closable c → (i < PRISKV_RDMA_MEM_MAX)%nat → set_rmem i (mem_at c i) c = c.
Proof.
  intros [Hl _] Hi. unfold set_rmem, mem_at. destruct (lookup_lt_is_Some_2 (cn_rmem c) i) as [m Hm]; [by rewrite Hl|].
  rewrite Hm. simpl. rewrite list_insert_id by done. by destruct c.
Qed.

Lemma owned_mem_clear c i : closable c → (i < PRISKV_RDMA_MEM_MAX)%nat →
  owned conn c ≡ₚ mem_owned (default 0 (cn_cm_id c)) (mem_rw i) (mem_at c i) ++ owned conn (set_rmem i rmem_zero c).
Proof.
  intros Hc Hi. assert (closable (set_rmem i rmem_zero c)) as Hc0 by by apply closable_set_rmem, mem_wf_zero.
  rewrite <- (owned_mem (set_rmem i rmem_zero c) i (mem_at c i)) by (done || by apply mem_at_set_eq).
  by rewrite set_rmem_same, set_rmem_id.
Qed.

Lemma cm_id_owned c : default 0 (cn_cm_id c) = 0 ∨ default 0 (cn_cm_id c) ∈ (owned conn c).*1.
Proof.
  unfold owned, mems_owned. rewrite <- !app_assoc. eauto 12 using default_in, in_later, in_later_mem.
Qed.

Lemma safe_mem_free i w c extra (Q : unit → world → Prop) : holds w c extra → closable c → (i < PRISKV_RDMA_MEM_MAX)%nat →
  (∀ w', holds w' (set_rmem i rmem_zero c) extra → Q tt w') → safe (priskv_rdma_mem_free conn i) w Q.
Proof.
  intros [Hx Ho] Hc Hi HQ. unfold priskv_rdma_mem_free. step. eapply safe_conn; [done|]. change (default rmem_zero _) with (mem_at c i).
  set (c0 := set_rmem i rmem_zero c) in *. pose proof (owned_grounded conn c0 extra Hx) as Hg.
  apply (owns_perm _ _ _ (mem_owned (default 0 (cn_cm_id c)) (mem_rw i) (mem_at c i) ++ owned conn c0 ++ extra)) in Ho;
    [|by rewrite (owned_mem_clear c i Hc Hi), app_assoc].
  assert (grounded (mem_owned (default 0 (cn_cm_id c)) (mem_rw i) (mem_at c i) ++ owned conn c0 ++ extra)) as Hg'.
  { apply grounded_mem; [|done]. destruct (cm_id_owned c0) as [?|Hin]; [by left|right]. rewrite fmap_app, elem_of_app. by left. }
  unfold mem_owned in *. rewrite <- app_assoc in Ho, Hg'. step. eapply safe_release_opt; [exact Ho|exact Hg'|]. intros w' Ho'.
  step. assert (grounded (hold (rm_buf (mem_at c i)) (Buffer (rm_buf_size (mem_at c i))) ++ owned conn c0 ++ extra)) as Hgb.
  { apply grounded_hold; [by intros x ?%elem_of_nil|done]. }
  assert (safe (match rm_buf (mem_at c i) with Some _ => munmap (rm_buf (mem_at c i)) (rm_buf_size (mem_at c i)) | None => mret tt end) w'
    (λ _ w2, owns w2 c (owned conn c0 ++ extra))) as Hs.
  { destruct (rm_buf (mem_at c i)) as [b|] eqn:Hb; [|by apply safe_ret].
    unfold munmap. rewrite (proj2 (Z.eqb_neq _ 0)) by (apply (mem_at_wf c i Hc); eauto).
    eapply safe_release_opt; [exact Ho'|exact Hgb|done]. }
  eapply safe_mono; [exact Hs|]. intros [] w2 Ho2. eapply safe_upd_owns; [done|]. intros w3 Ho3. by apply HQ.
Qed.

Definition cleared (c : priskv_rdma_conn) : priskv_rdma_conn :=
  set_rmem 2 rmem_zero (set_rmem 1 rmem_zero (set_rmem 0 rmem_zero c)).

Lemma safe_mem_free_all w c extra (Q : unit → world → Prop) : holds w c extra → closable c →
  (∀ w', holds w' (cleared c) extra → Q tt w') → safe (priskv_rdma_mem_free_all conn) w Q.
Proof.
  intros Hh Hc HQ. unfold priskv_rdma_mem_free_all, PRISKV_RDMA_MEM_MAX. cbn [mem_free_from].
  assert (∀ i c, closable c → closable (set_rmem i rmem_zero c)) as Hcl by (intros; by apply closable_set_rmem, mem_wf_zero).
  do 3 (step; eapply safe_mem_free; [eassumption|auto|unfold PRISKV_RDMA_MEM_MAX; lia|]; clear dependent w; intros w Hh).
  by apply safe_ret, HQ.
Qed.

(** ** Closing *)

Lemma cleared_mem c i : closable c → mem_at (cleared c) i = rmem_zero.
Proof.
  intros [Hl _]. unfold cleared, mem_at. simpl. destruct (cn_rmem c) as [|m0 [|m1 [|m2 [|]]]]; try done.
  by destruct i as [|[|[|]]].
Qed.

(** What is left when the buffers, the queues and the channels are gone. *)
Lemma owned_bare c : cn_epollfd c <= 0 → cn_qp c = None → cn_cq c = None → cn_comp_channel c = None → (∀ i, mem_at c i = rmem_zero) →
  owned conn c = hold (cn_cm_id c) (CmId (default 0 (cn_cm_channel c))) ++ hold (cn_cm_channel c) EventChannel ++
    hold (cn_mrs c) Memory ++ [(conn, Memory)].
Proof.
  intros He Hq Hc Hcc Hm. unfold owned, mems_owned. rewrite (proj2 (Z.ltb_ge _ _)) by done. by rewrite Hq, Hc, Hcc, !Hm.
Qed.

Lemma safe_close_conn w c extra : holds w c extra → closable c →
  safe (priskv_rdma_close_conn conn) w (λ _ w', ∃ c', owns w' c' ((conn, Memory) :: extra)).
Proof.
  intros Hh Hc. unfold priskv_rdma_close_conn. step. eapply safe_upd; [exact Hh|done|]. clear dependent w. intros w Hh.
  set (c1 := set_established false c) in *. step. eapply safe_conn; [apply Hh|]. cbv beta.
  step. set (c2 := set_epollfd (-1) c1).
  assert (safe (if 0 <? cn_epollfd c1 then _ ← release (cn_epollfd c1); upd_conn conn (set_epollfd (-1)) else mret tt) w
    (λ _ w', holds w' (if 0 <? cn_epollfd c1 then c2 else c1) extra)) as Hs.
  { destruct (0 <? cn_epollfd c1) eqn:E; [|by apply safe_ret]. step.
    destruct Hh as [Hx Ho]. destruct (owns_release w c1 (cn_epollfd c1) EpollFd (owned conn c2 ++ extra)) as (w' & Heq & Ho' & _).
    - eapply owns_perm; [|exact Ho]. unfold owned. rewrite E. done.
    - split; [by apply Forall_nil|]. by apply owned_grounded.
    - eexists _, _. split; [exact Heq|]. eapply safe_upd_owns; [done|]. intros w2 Ho2. done. }
  eapply safe_mono; [exact Hs|]. clear dependent w. intros [] w Hh.
  set (c3 := if 0 <? cn_epollfd c1 then c2 else c1) in *.
  assert (closable c3 ∧ cn_epollfd c3 <= 0 ∧ cn_qp c1 = cn_qp c3 ∧ cn_cq c1 = cn_cq c3 ∧ cn_comp_channel c1 = cn_comp_channel c3 ∧
    cn_cm_id c1 = cn_cm_id c3 ∧ cn_cm_channel c1 = cn_cm_channel c3 ∧ cn_mrs c1 = cn_mrs c3 ∧
    cn_depth c1 = cn_depth c3) as (Hc3 & He & -> & -> & -> & -> & -> & -> & ->).
  { unfold c3. destruct (Z.ltb_spec 0 (cn_epollfd c1)); split; try exact Hc; split_and!; simpl; (done || lia). }
  clearbody c3. clear dependent c.
  eapply (safe_drop _ (Qp (default 0 (cn_cm_id c3)) (default 0 (cn_cq c3)))); [exact Hh| | |].
  { unfold owned. rewrite (proj2 (Z.ltb_ge 0 (cn_epollfd c3))) by done. simpl. rewrite (proj2 (Z.ltb_ge 0 (cn_epollfd c3))) by done. done. }
  { intros x. simpl. rewrite elem_of_cons, list_elem_of_singleton. unfold owned, mems_owned. simpl. rewrite <- !app_assoc.
    intros [-> | ->]; eauto 12 using default_in, in_later, in_later_mem. }
  clear dependent w. intros w Hh. set (c4 := set_qp None (cn_depth c3) c3) in *.
  eapply (safe_drop _ (Cq (default 0 (cn_comp_channel c3)))); [exact Hh| | |].
  { unfold owned. simpl. rewrite (proj2 (Z.ltb_ge 0 (cn_epollfd c3))) by done. done. }
  { intros x ->%list_elem_of_singleton. unfold owned, mems_owned. simpl. rewrite <- !app_assoc.
    eauto 12 using default_in, in_later, in_later_mem. }
  clear dependent w. intros w Hh. set (c5 := set_cq None c4) in *.
  eapply (safe_drop _ (CompChannel (default 0 (cn_cm_id c3)))); [exact Hh| | |].
  { unfold owned. simpl. rewrite (proj2 (Z.ltb_ge 0 (cn_epollfd c3))) by done. done. }
  { intros x ->%list_elem_of_singleton. apply (cm_id_owned (set_comp_channel None c5)). }
  clear dependent w. intros w Hh. set (c6 := set_comp_channel None c5) in *.
  assert (closable c6) as Hc6 by exact Hc3.
  step. eapply safe_mem_free_all; [exact Hh|exact Hc6|]. clear dependent w. intros w Hh.
  assert (∀ i, mem_at (cleared c6) i = rmem_zero) as Hz by (intros; by apply cleared_mem).
  eapply (safe_drop _ (CmId (default 0 (cn_cm_channel c3)))); [exact Hh| | |].
  { rewrite !owned_bare by done. done. }
  { intros x ->%list_elem_of_singleton. rewrite owned_bare by done. simpl. eauto using default_in, in_later. }
  clear dependent w. intros w Hh. set (c7 := set_cm_id None (cleared c6)) in *.
  assert (∀ i, mem_at c7 i = rmem_zero) as Hz7 by exact Hz.
  eapply (safe_drop _ EventChannel); [exact Hh| | |].
  { rewrite !owned_bare by done. done. }
  { by intros x ?%elem_of_nil. }
  clear dependent w. intros w [Hx Ho]. rewrite owned_bare in Ho by done. simpl in Ho. rewrite <- app_assoc in Ho.
  eapply safe_release_opt; [exact Ho| |eauto].
  apply grounded_hold; [by intros x ?%elem_of_nil|]. simpl. split; [done|]. by apply loose_grounded.
Qed.

(** [free(conn)]: everybody else holds what they held. *)
Lemma safe_free_conn w c extra (Q : unit → world → Prop) : owns w c ((conn, Memory) :: extra) → loose extra →
  (∀ w', w_live w' = list_to_map extra ∪ frame → w_conns w' = others → Q tt w') → safe (free_conn conn) w Q.
Proof.
  intros Ho Hx HQ. unfold free_conn. step. destruct (owns_release _ _ _ _ _ Ho) as (w' & Heq & Ho' & _).
  { split; [done|]. by apply loose_grounded. }
  eexists _, _. split; [exact Heq|]. apply safe_modify, HQ; simpl; apply Ho'.
Qed.
End ownership.

(** ** Connecting *)

Section connecting.
Context (conn : Z) (frame : gmap Z resource) (others : gmap Z priskv_rdma_conn).
Context (ok : call → Z → bool) (errno : Z → positive) (resizable : bool) (page_bits : Z).
Context (Hpage : 0 <= page_bits <= 16).
Notation holds := (holds conn frame others).

(** What an attempt leaves mapped: a buffer that could not be registered. *)
Definition leaks (extra extra' : holding) : Prop :=
  extra' = extra ∨ ∃ b n t, ok CRegMr t = false ∧ extra' = (b, Buffer n) :: extra.

Lemma safe_mem_new i size w c extra : holds w c extra → closable c → (i < PRISKV_RDMA_MEM_MAX)%nat →
  mem_at c i = rmem_zero → is_Some (cn_cm_id c) →
  safe (priskv_rdma_mem_new ok errno page_bits conn i size (mem_rw i)) w (λ ret w',
    let size := ALIGN_UP 32 size (page_size page_bits) in
    (ret = 0 ∧ ∃ b m, size ≠ 0 ∧ holds w' (set_rmem i (mk_rmem (Some b) size (Some m)) c) extra) ∨
    (ret ≠ 0 ∧ ∃ extra', leaks extra extra' ∧ holds w' c extra')).
Proof.
  intros Hh Hc Hi Hz [cm Hcm]. unfold priskv_rdma_mem_new. set (sz := ALIGN_UP 32 size (page_size page_bits)).
  assert (set_rmem i rmem_zero c = c) as Hid by (rewrite <- Hz; by apply set_rmem_id).
  assert (∀ w e extra', e ≠ 0 → leaks extra extra' → holds w c extra' → safe (_ ← upd_conn conn (set_rmem i rmem_zero); mret e) w (λ ret w',
    (ret = 0 ∧ ∃ b m, sz ≠ 0 ∧ holds w' (set_rmem i (mk_rmem (Some b) sz (Some m)) c) extra) ∨
    (ret ≠ 0 ∧ ∃ extra', leaks extra extra' ∧ holds w' c extra'))) as Hfail.
  { intros w' e extra' He Hl Hh'. step. eapply safe_upd; [exact Hh'|by rewrite Hid|]. intros w2 Hh2. rewrite Hid in Hh2. apply safe_ret. eauto. }
  unfold mmap. step. destruct (Z.eqb_spec sz 0) as [Hs|Hs].
  { apply safe_ret. eapply Hfail; [done|by left|done]. }
  destruct Hh as [Hx Ho]. eapply safe_acquire; [exact Ho|apply owned_self| |].
  { intros t w' _ Ho'. eapply Hfail; [done|by left|by split]. }
  intros b w' Hb Hokb Ho'. step. eapply safe_conn; [exact Ho'|]. step. rewrite Hcm. apply (safe_lift _ cm); [done|].
  step. eapply safe_acquire; [exact Ho'|right; apply owned_self| |].
  - intros t w2 Ht Ho2. step. assert (holds w2 c ((b, Buffer sz) :: extra)) as Hh2.
    { split; [by apply Forall_cons|]. eapply owns_perm; [|exact Ho2]. by rewrite Permutation_middle. }
    eapply safe_errno; [exact Hh2|]. cbv beta. intros e w3 He Hh3. change (default rmem_zero _) with (mem_at c i). rewrite Hz.
    step. apply safe_ret. eapply Hfail; [lia| |exact Hh3]. right.
    eauto 6.
  - intros m w2 Hm _ Ho2. step. eapply safe_upd_owns; [exact Ho2|]. intros w3 Ho3. apply safe_ret. left. split; [done|].
    exists b, m. split; [done|]. split; [done|]. eapply owns_perm; [|exact Ho3].
    rewrite (owned_mem conn c i _ Hc Hi Hz), Hcm. simpl. rewrite <- (Permutation_swap (m, _)). done.
Qed.

Lemma free_slot_new reqsize : 18 <= reqsize →
  ∃ slot, put_be 2 (replicate (Z.to_nat reqsize) 0) off_command PRISKV_RDMA_REQUEST_FREE_COMMAND = Ok slot ∧
    Z.of_nat (length slot) = reqsize ∧ free_slot slot.
Proof.
  intros Hr. unfold put_be, off_command.
  destruct (put_Ok (replicate (Z.to_nat reqsize) 0) 16 (be_bytes 2 PRISKV_RDMA_REQUEST_FREE_COMMAND)) as (out & Hput & Hlen & Hh & _);
    [lia|rewrite be_bytes_length, length_replicate; lia|].
  exists out. split; [done|]. rewrite Hlen, length_replicate. split; [lia|]. apply get_be_holds; field_tac.
Qed.

Lemma free_requests_ok n : ∀ i buf_size reqsize slot, 18 <= reqsize → 0 <= i → i + Z.of_nat n < 2 ^ 16 →
  (i + Z.of_nat n) * reqsize <= buf_size →
  put_be 2 (replicate (Z.to_nat reqsize) 0) off_command PRISKV_RDMA_REQUEST_FREE_COMMAND = Ok slot →
  free_requests n buf_size reqsize i = Ok (replicate n slot).
Proof.
  induction n as [|n IH]; intros i buf_size reqsize slot Hr Hi Hn Hb Hs; [done|]. cbn [free_requests].
  rewrite (proj2 (Z.ltb_lt _ _)) by nia. rewrite Z.mod_mul by lia. rewrite (proj2 (Z.eqb_neq reqsize 0)) by lia. simpl.
  rewrite Hs, Ok_bind. unfold u16. rewrite Z.mod_small by lia. rewrite (IH (i + 1) buf_size reqsize slot) by (done || lia || nia).
  done.
Qed.

(** A request is at least a cache line and at most 64 KiB. *)
Lemma reqsize_bounds sgl keylen : let reqsize := priskv_request_size_aligend sgl keylen in
  reqsize mod 64 = 0 ∧ 0 <= reqsize <= 2 ^ 16.
Proof.
  simpl. unfold priskv_request_size_aligend. set (s := priskv_request_size sgl keylen).
  assert (0 <= s < 2 ^ 16) as Hs by (unfold s, priskv_request_size, u16; apply Z.mod_pos_bound; lia).
  pose proof (ALIGN_UP_bounds 32 s 6) as Hb. change (2 ^ 6) with 64 in Hb. destruct Hb as [Hb Hm]; [lia..|]. split; [done|].
  split; [lia|]. pose proof (Z.div_mod (ALIGN_UP 32 s 64) 64). lia.
Qed.

Lemma page_bounds : 1 <= page_size page_bits <= 2 ^ 16.
Proof. unfold page_size. split; [pose proof (Z.pow_pos_nonneg 2 page_bits); lia|]. apply Z.pow_le_mono_r; lia. Qed.

Lemma page_align size : 0 <= size <= 2 ^ 32 - 2 ^ 16 → size <= ALIGN_UP 32 size (page_size page_bits).
Proof. intros Hs. pose proof page_bounds. unfold page_size in *. apply ALIGN_UP_bounds; lia. Qed.

Lemma page_align_0 : ALIGN_UP 32 0 (page_size page_bits) = 0.
Proof.
  pose proof page_bounds. unfold page_size in *. rewrite ALIGN_UP_pow2 by lia. rewrite Z.div_small by lia. done.
Qed.

Definition with_mems (mems : list priskv_rdma_mem) (slots : list (list Z)) (c : priskv_rdma_conn) : priskv_rdma_conn :=
  mk_conn (cn_cm_id c) (cn_cm_channel c) (cn_comp_channel c) (cn_cq c) (cn_qp c) mems (cn_param c)
    (cn_capacity c) (cn_epollfd c) (cn_established c) (cn_mrs c) (cn_phase c) (cn_qps c) (cn_depth c) slots (cn_recvs c) (cn_sent c).

(** How much each buffer has to hold. *)
Definition mem_need (p : priskv_connect_param) (i : nat) : Z :=
  match i with
  | O => priskv_request_size_aligend (p_max_sgl p) (p_max_key_length p) * p_max_inflight_command p
  | S O => sizeof_priskv_response * p_max_inflight_command p
  | _ => page_size page_bits
  end.

(** The buffers are registered and large enough, and every slot is free. *)
Definition mems_ready (c : priskv_rdma_conn) : Prop :=
  (∀ i, (i < PRISKV_RDMA_MEM_MAX)%nat → ∃ b m size, mem_at c i = mk_rmem (Some b) size (Some m) ∧ mem_need (cn_param c) i <= size) ∧
  ∃ slot, cn_slots c = replicate (Z.to_nat (p_max_inflight_command (cn_param c))) slot ∧ free_slot slot ∧
    Z.of_nat (length slot) = priskv_request_size_aligend (p_max_sgl (cn_param c)) (p_max_key_length (cn_param c)).

Definition param_range (p : priskv_connect_param) : Prop :=
  0 <= p_max_sgl p < 2 ^ 16 ∧ 0 <= p_max_key_length p < 2 ^ 16 ∧ 0 <= p_max_inflight_command p < 2 ^ 16.

Lemma safe_mem_error w c extra extra' (Q : Z → world → Prop) : leaks extra extra' → holds w c extra' → closable c →
  (∀ w' c', closable c' → holds w' c' extra' → Q (- ENOMEM) w') → safe (mem_new_error conn) w Q.
Proof.
  intros Hl Hh Hc HQ. unfold mem_new_error. step. eapply safe_mem_free_all; [exact Hh|done|]. intros w' Hh'.
  apply safe_ret. eapply HQ; [|exact Hh']. unfold cleared. repeat apply closable_set_rmem; (done || apply mem_wf_zero).
Qed.

Lemma mem_wf_full b size m : size ≠ 0 → mem_wf (mk_rmem (Some b) size (Some m)).
Proof. by intros ? _. Qed.

Lemma safe_mem_new_all w c extra : holds w c extra → closable c → (∀ i, mem_at c i = rmem_zero) → is_Some (cn_cm_id c) →
  param_range (cn_param c) →
  safe (priskv_rdma_mem_new_all ok errno page_bits conn) w (λ ret w',
    (ret = 0 ∧ 0 < p_max_inflight_command (cn_param c) ∧
       ∃ mems slots, let c' := with_mems mems slots c in closable c' ∧ mems_ready c' ∧ holds w' c' extra) ∨
    (ret ≠ 0 ∧ ∃ c' extra', leaks extra extra' ∧ closable c' ∧ holds w' c' extra')).
Proof.
  intros Hh Hc Hz Hcm (Hsgl & Hkl & Hmi). unfold priskv_rdma_mem_new_all. set (Q := λ ret w', _ ∨ _).
  step. eapply safe_conn; [apply Hh|]. set (p := cn_param c) in *. set (reqsize := priskv_request_size_aligend _ _).
  set (mi := p_max_inflight_command p) in *. pose proof (reqsize_bounds (p_max_sgl p) (p_max_key_length p)) as [Hrm Hr].
  fold reqsize in Hrm, Hr. pose proof page_bounds as Hpg.
  assert (∀ w c' extra', leaks extra extra' → holds w c' extra' → closable c' → safe (mem_new_error conn) w Q) as Hfail.
  { intros w' c' extra' Hl Hh' Hc'. eapply safe_mem_error; [done|exact Hh'|done|]. intros w2 c2 Hc2 Hh2. right. split; [done|]. eauto. }
  step. eapply safe_mono; [apply (safe_mem_new 0); [exact Hh|done|unfold PRISKV_RDMA_MEM_MAX; lia|done|done]|].
  intros ret w1 [(-> & b0 & m0 & Hs0 & Hh1)|(Hret & extra' & Hl & Hh1)].
  2:{ rewrite (proj2 (Z.eqb_neq _ _)) by done. by eapply Hfail. }
  simpl. set (sz0 := ALIGN_UP 32 (u32 (reqsize * mi)) (page_size page_bits)) in *.
  assert (u32 (reqsize * mi) = reqsize * mi) as Hu by (apply u32_small; nia).
  assert (reqsize * mi <= sz0) as Hsz0 by (unfold sz0; rewrite Hu; apply page_align; nia).
  assert (reqsize * mi ≠ 0) as Hnz by (intros H0; apply Hs0; unfold sz0; rewrite Hu, H0; apply page_align_0).
  assert (64 <= reqsize) as Hr64 by (pose proof (Z.div_mod reqsize 64); nia).
  set (c1 := set_rmem 0 (mk_rmem (Some b0) sz0 (Some m0)) c) in *.
  assert (closable c1) as Hc1 by (apply closable_set_rmem; [done|by apply mem_wf_full]).
  step. eapply safe_conn; [apply Hh1|]. change (default rmem_zero _) with (mem_at c1 0).
  unfold c1 at 1. rewrite mem_at_set_eq by (done || unfold PRISKV_RDMA_MEM_MAX; lia). simpl.
  destruct (free_slot_new reqsize) as (slot & Hslot & Hslen & Hfree); [lia|].
  step_lift (free_requests_ok (Z.to_nat mi) 0 sz0 reqsize slot ltac:(lia) ltac:(lia) ltac:(lia) ltac:(nia) Hslot).
  step. eapply safe_upd; [exact Hh1|done|]. intros w2 Hh2. set (c2 := set_slots _ c1) in *.
  step. eapply safe_mono; [apply (safe_mem_new 1); [exact Hh2|exact Hc1|unfold PRISKV_RDMA_MEM_MAX; lia| |done]|].
  { change (mem_at c2 1) with (mem_at c1 1). unfold c1. by rewrite mem_at_set_ne. }
  intros ret w3 [(-> & b1 & m1 & Hs1 & Hh3)|(Hret & extra' & Hl & Hh3)].
  2:{ rewrite (proj2 (Z.eqb_neq _ _)) by done. by eapply Hfail. }
  simpl. set (sz1 := ALIGN_UP 32 (u32 (sizeof_priskv_response * mi)) (page_size page_bits)) in *.
  assert (sizeof_priskv_response * mi <= sz1) as Hsz1.
  { unfold sz1, sizeof_priskv_response in *. rewrite u32_small by lia. apply page_align. lia. }
  set (c3 := set_rmem 1 _ c2) in *. assert (closable c3) as Hc3 by (apply closable_set_rmem; [done|by apply mem_wf_full]).
  step. eapply safe_mono; [apply (safe_mem_new 2); [exact Hh3|exact Hc3|unfold PRISKV_RDMA_MEM_MAX; lia| |done]|].
  { unfold c3. rewrite mem_at_set_ne by done. change (mem_at c2 2) with (mem_at c1 2). unfold c1. by rewrite mem_at_set_ne. }
  intros ret w4 [(-> & b2 & m2 & Hs2 & Hh4)|(Hret & extra' & Hl & Hh4)].
  2:{ rewrite (proj2 (Z.eqb_neq _ _)) by done. by eapply Hfail. }
  simpl. set (sz2 := ALIGN_UP 32 (u32 (page_size page_bits)) (page_size page_bits)) in *.
  assert (page_size page_bits <= sz2) as Hsz2 by (unfold sz2; rewrite u32_small by lia; apply page_align; lia).
  apply safe_ret. left. split; [done|]. split; [nia|]. set (c4 := set_rmem 2 _ c3) in *.
  exists (cn_rmem c4), (cn_slots c4). assert (closable c4) as Hc4 by (apply closable_set_rmem; [done|by apply mem_wf_full]).
  split; [exact Hc4|]. split; [|exact Hh4].
  split; [|exists slot; split; [done|by split]].
  assert (mem_at c4 0 = mk_rmem (Some b0) sz0 (Some m0) ∧ mem_at c4 1 = mk_rmem (Some b1) sz1 (Some m1) ∧
    mem_at c4 2 = mk_rmem (Some b2) sz2 (Some m2)) as (H0 & H1 & H2).
  { unfold c4. rewrite mem_at_set_eq, !mem_at_set_ne by (done || unfold PRISKV_RDMA_MEM_MAX; lia). unfold c3.
    rewrite mem_at_set_eq, mem_at_set_ne by (done || unfold PRISKV_RDMA_MEM_MAX; lia). change (mem_at c2 0) with (mem_at c1 0).
    unfold c1. by rewrite mem_at_set_eq by (done || unfold PRISKV_RDMA_MEM_MAX; lia). }
  intros [|[|[|i]]] Hi; unfold PRISKV_RDMA_MEM_MAX in Hi; [..|lia]; eexists _, _, _; (split; [first [exact H0|exact H1|exact H2]|done]).
Qed.

(** ** Queues *)

Lemma safe_set_fd_handler fd target w c extra (Q : unit → world → Prop) : holds w c extra →
  (∀ w', holds w' c extra → Q tt w') → safe (priskv_set_fd_handler fd target) w Q.
Proof. intros [Hx Ho] HQ. apply safe_modify, HQ. split; [done|]. by apply owns_handlers. Qed.

(** After a failure all that counts is that the connection can be closed. *)
Definition failed (extra : holding) (w : world) : Prop :=
  ∃ c extra', leaks extra extra' ∧ closable c ∧ holds w c extra'.

Lemma failed_intro extra w c : closable c → holds w c extra → failed extra w.
Proof. intros Hc Hh. exists c, extra. split; [by left|done]. Qed.
#[local] Hint Resolve failed_intro : own.

Definition no_queues (c : priskv_rdma_conn) : Prop := cn_comp_channel c = None ∧ cn_cq c = None ∧ cn_qp c = None.

Lemma safe_new_qp w c extra cm : holds w c extra → closable c → cn_cm_id c = Some cm → no_queues c →
  p_max_inflight_command (cn_param c) = PRISKV_RDMA_DEFAULT_INFLIGHT_COMMAND →
  safe (priskv_rdma_new_qp ok errno conn) w (λ ret w',
    (ret = 0 ∧ ∃ m k q, holds w' (set_qp (Some q) PRISKV_RDMA_DEFAULT_INFLIGHT_COMMAND (set_cq (Some k) (set_comp_channel (Some m) c))) extra) ∨
    (ret ≠ 0 ∧ failed extra w')).
Proof.
  intros Hh Hc Hcm (Hn1 & Hn2 & Hn3) Hmi. unfold priskv_rdma_new_qp. set (Q := λ ret w', _ ∨ _).
  assert (∀ w c, closable c → holds w c extra → safe (e ← errno_of errno; mret (- e)) w Q) as Hfail.
  { intros w' c' Hc' Hh'. step. eapply safe_errno; [exact Hh'|]. intros e w2 He Hh2. apply safe_ret. right. split; [lia|]. eauto with own. }
  step. eapply safe_conn; [apply Hh|]. step. rewrite Hcm. apply (safe_lift _ cm); [done|].
  eapply (safe_acquire_into _ _ _ _ _ _ set_comp_channel); [exact Hh| | | |].
  { intros t. unfold owned, mems_owned, mem_at. simpl. rewrite Hn1, Hn2, Hn3, Hcm. simpl. solve_Permutation. }
  { unfold owned. simpl. by rewrite Hn1, Hn2, Hn3. }
  { intros w1 Hh1. eapply Hfail; [|exact Hh1]; exact Hc. }
  clear dependent w. intros m w Hm _ Hh. step. eapply safe_try; [exact Hh|]. clear dependent w. intros _ w Hh.
  step. eapply safe_set_fd_handler; [exact Hh|]. clear dependent w. intros w Hh. rewrite Hmi. simpl. set (c1 := set_comp_channel _ c) in *.
  eapply (safe_acquire_into _ _ _ _ _ _ set_cq); [exact Hh| | | |].
  { intros t. unfold owned, mems_owned, mem_at. simpl. rewrite Hn2, Hn3. simpl. solve_Permutation. }
  { unfold owned. simpl. by rewrite Hn2, Hn3. }
  { intros w1 Hh1. eapply Hfail; [|exact Hh1]; exact Hc. }
  clear dependent w. intros k w Hk _ Hh. set (c2 := set_cq _ c1) in *. step. eapply safe_try; [exact Hh|]. clear dependent w. intros t w Hh.
  destruct (ok CReqNotifyCq t); simpl; [|apply safe_ret; right; split; [done|]; eapply failed_intro; [|exact Hh]; exact Hc].
  eapply (safe_acquire_into _ _ _ _ _ _ (λ h, set_qp h PRISKV_RDMA_DEFAULT_INFLIGHT_COMMAND)); [exact Hh| | | |].
  { intros q. unfold owned, mems_owned, mem_at. simpl. rewrite Hn3, Hcm. simpl. solve_Permutation. }
  { unfold owned. simpl. by rewrite Hn3. }
  { intros w1 Hh1. eapply Hfail; [|exact Hh1]. exact Hc. }
  intros q w1 _ _ Hh1. apply safe_ret. left. split; [done|]. eauto.
Qed.

Lemma cm_req_ok p : param_range p → ∃ data, cm_req p = Ok data ∧ Z.of_nat (length data) = sizeof_cm_req ∧
  get_be 2 data 0 = Ok PRISKV_RDMA_CM_VERSION ∧ get_be 2 data 2 = Ok (p_max_sgl p) ∧ get_be 2 data 4 = Ok (p_max_key_length p) ∧
  get_be 2 data 6 = Ok (p_max_inflight_command p).
Proof.
  intros (H1 & H2 & H3). unfold cm_req.
  destruct (put_fields_ok [(0, 2%nat, PRISKV_RDMA_CM_VERSION); (2, 2%nat, p_max_sgl p); (4, 2%nat, p_max_key_length p);
    (6, 2%nat, p_max_inflight_command p)] 0 (replicate (Z.to_nat sizeof_cm_req) 0)) as (out & -> & Hl & Hf & _); [lia| |].
  { rewrite length_replicate. unfold sizeof_cm_req. simpl. split_and!; field_tac. }
  exists out. split; [done|]. split; [by rewrite Hl, length_replicate|].
  rewrite !Forall_cons in Hf. destruct Hf as (F1 & F2 & F3 & F4 & _). by split_and!.
Qed.

Lemma safe_modify_qp w c extra q0 q : holds w c extra → is_Some (cn_qp c) → cn_qps c = q0 → qp_next q = Some q0 →
  safe (modify_qp_state ok errno conn q) w (λ ret w',
    (ret = 0 ∧ holds w' (set_qps q c) extra) ∨ (ret ≠ 0 ∧ holds w' c extra)).
Proof.
  intros Hh [qp Hqp] Hq Hn. unfold modify_qp_state. step. eapply safe_try; [exact Hh|]. clear dependent w. intros t w Hh.
  destruct (ok CInitQpAttr t); simpl; [|by apply safe_ret; right].
  step. eapply safe_conn; [apply Hh|]. step. rewrite Hqp. apply (safe_lift _ qp); [done|].
  step. eapply safe_try; [exact Hh|]. clear dependent w. intros t' w Hh. rewrite Hq, bool_decide_true by done.
  destruct (ok CModifyQp t'); simpl; [|by apply safe_ret; right].
  step. eapply safe_upd; [exact Hh|done|]. intros w' Hh'. apply safe_ret. by left.
Qed.

Lemma safe_establish w c extra : holds w c extra → closable c → is_Some (cn_qp c) → cn_qps c = QPS_RESET →
  safe (priskv_rdma_establish_qp ok errno conn) w (λ ret w',
    (ret = 0 ∧ holds w' (set_phase CmEstablished (set_qps QPS_RTS c)) extra) ∨ (ret ≠ 0 ∧ failed extra w')).
Proof.
  intros Hh Hc Hqp Hq. unfold priskv_rdma_establish_qp. set (Q := λ ret w', _ ∨ _).
  assert (∀ w c' ret, closable c' → ret ≠ 0 → holds w c' extra → Q ret w) as Hfail by (right; eauto with own).
  step. eapply safe_mono; [by eapply safe_modify_qp|]. clear dependent w. intros ret w [[-> Hh]|[Hr Hh]]; simpl.
  2:{ rewrite (proj2 (Z.eqb_neq _ _)) by done. eapply safe_ret, Hfail; [..|exact Hh]; [exact Hc|done]. }
  step. eapply safe_mono; [by eapply (safe_modify_qp w (set_qps QPS_INIT c))|]. clear dependent w. intros ret w [[-> Hh]|[Hr Hh]]; simpl.
  2:{ rewrite (proj2 (Z.eqb_neq _ _)) by done. eapply safe_ret, Hfail; [..|exact Hh]; [exact Hc|done]. }
  step. eapply safe_mono; [by eapply (safe_modify_qp w (set_qps QPS_RTR (set_qps QPS_INIT c)))|]. clear dependent w.
  intros ret w [[-> Hh]|[Hr Hh]]; simpl.
  2:{ rewrite (proj2 (Z.eqb_neq _ _)) by done. eapply safe_ret, Hfail; [..|exact Hh]; [exact Hc|done]. }
  change (set_qps QPS_RTS _) with (set_qps QPS_RTS c) in Hh. step. eapply safe_try; [exact Hh|]. clear dependent w. intros t w Hh.
  destruct (ok CEstablish t); simpl; [|eapply safe_ret, Hfail; [..|exact Hh]; [exact Hc|done]].
  step. eapply safe_upd; [exact Hh|done|]. intros w' Hh'. apply safe_ret. by left.
Qed.

(** The number of requests in flight that follows from the server's answer. *)
Definition negotiated (server n : Z) : Prop :=
  (server = PRISKV_RDMA_DEFAULT_INFLIGHT_COMMAND ∧ n = PRISKV_RDMA_DEFAULT_INFLIGHT_COMMAND) ∨
  ((∃ t, ok CQueryDevice t = false) ∧ n = PRISKV_RDMA_DEFAULT_INFLIGHT_COMMAND) ∨
  (resizable = false ∧ n = server `min` PRISKV_RDMA_DEFAULT_INFLIGHT_COMMAND) ∨
  (resizable = true ∧ n = server).

Lemma set_depth_id c : set_depth (cn_depth c) c = c.
Proof. by destruct c. Qed.
Lemma set_max_inflight_id c : set_max_inflight (p_max_inflight_command (cn_param c)) c = c.
Proof. by destruct c as [? ? ? ? ? ? []]. Qed.

Lemma safe_modify_inflight w c extra server : holds w c extra → closable c → 0 <= server < 2 ^ 16 →
  cn_depth c = PRISKV_RDMA_DEFAULT_INFLIGHT_COMMAND → p_max_inflight_command (cn_param c) = PRISKV_RDMA_DEFAULT_INFLIGHT_COMMAND →
  safe (priskv_rdma_modify_max_inflight_command ok errno resizable conn server) w (λ ret w',
    (ret = 0 ∧ ∃ n d, negotiated server n ∧ 0 <= n < 2 ^ 16 ∧ n <= d ∧ holds w' (set_depth d (set_max_inflight n c)) extra) ∨
    (ret ≠ 0 ∧ failed extra w')).
Proof.
  intros Hh Hc Hs Hd Hm. unfold priskv_rdma_modify_max_inflight_command. set (Q := λ ret w', _ ∨ _).
  assert (∀ w c' n, c' = set_max_inflight n c → negotiated server n → 0 <= n <= PRISKV_RDMA_DEFAULT_INFLIGHT_COMMAND →
    holds w c' extra → Q 0 w) as Hdone.
  { intros w' c' n -> Hn Hr Hh'. left. split; [done|]. exists n, (cn_depth c). unfold PRISKV_RDMA_DEFAULT_INFLIGHT_COMMAND in *.
    split; [done|]. split; [lia|]. split; [lia|]. change (cn_depth c) with (cn_depth (set_max_inflight n c)). by rewrite set_depth_id. }
  destruct (Z.eqb_spec server PRISKV_RDMA_DEFAULT_INFLIGHT_COMMAND) as [He|He].
  { step. eapply safe_upd; [exact Hh|done|]. intros w' Hh'. eapply safe_ret, (Hdone _ _ PRISKV_RDMA_DEFAULT_INFLIGHT_COMMAND); [reflexivity|by left|unfold PRISKV_RDMA_DEFAULT_INFLIGHT_COMMAND; lia|exact Hh']. }
  step. eapply safe_try; [exact Hh|]. clear dependent w. intros t w Hh. destruct (ok CQueryDevice t) eqn:Hq; simpl.
  2:{ eapply safe_ret, (Hdone _ c PRISKV_RDMA_DEFAULT_INFLIGHT_COMMAND); [|right; left; eauto|unfold PRISKV_RDMA_DEFAULT_INFLIGHT_COMMAND; lia|exact Hh].
      by rewrite <- Hm, set_max_inflight_id. }
  destruct (negb resizable) eqn:Hres.
  { step. eapply safe_upd; [exact Hh|done|]. intros w' Hh'. apply negb_true_iff in Hres.
    assert (priskv_min_u16 server PRISKV_RDMA_DEFAULT_INFLIGHT_COMMAND = server `min` PRISKV_RDMA_DEFAULT_INFLIGHT_COMMAND) as Hmin.
    { unfold priskv_min_u16. destruct (Z.ltb_spec server PRISKV_RDMA_DEFAULT_INFLIGHT_COMMAND); lia. }
    rewrite Hmin in Hh'. eapply safe_ret, (Hdone _ _ (server `min` PRISKV_RDMA_DEFAULT_INFLIGHT_COMMAND)); [reflexivity| |unfold PRISKV_RDMA_DEFAULT_INFLIGHT_COMMAND; lia|exact Hh']. right; right; by left. }
  apply negb_false_iff in Hres. step. eapply safe_upd; [exact Hh|done|]. clear dependent w. intros w Hh.
  step. eapply safe_try; [exact Hh|]. clear dependent w. intros t1 w Hh.
  destruct (ok CResizeCq t1); simpl; [|apply safe_ret; right; split; [done|]; eapply failed_intro; [|exact Hh]; exact Hc].
  step. eapply safe_try; [exact Hh|]. clear dependent w. intros t2 w Hh.
  destruct (ok CModifyQp t2); simpl; [|apply safe_ret; right; split; [done|]; eapply failed_intro; [|exact Hh]; exact Hc].
  step. eapply safe_upd; [exact Hh|done|]. intros w' Hh'. apply safe_ret. left. split; [done|].
  exists server, server. split; [by right; right; right|]. split; [done|]. split; [lia|done].
Qed.

(** ** The server's answer *)

Definition resp_offsets (i : Z) (n : nat) : list Z := (λ j, j * sizeof_priskv_response) <$> seqZ i (Z.of_nat n).

Lemma safe_recv_resps n : ∀ i w c extra b size m, holds w c extra → closable c → mem_at c 1 = mk_rmem b size (Some m) → is_Some (cn_qp c) →
  safe (recv_resps ok errno n conn i) w (λ ret w',
    (ret = 0 ∧ holds w' (set_recvs (cn_recvs c ++ resp_offsets i n) c) extra) ∨ (ret ≠ 0 ∧ failed extra w')).
Proof.
  induction n as [|n IH]; intros i w c extra b size m Hh Hc Hm [q Hq]; cbn [recv_resps].
  { apply safe_ret. left. split; [done|]. unfold resp_offsets. simpl. rewrite app_nil_r. by destruct c. }
  unfold priskv_rdma_recv_resp. step. step. eapply safe_conn; [apply Hh|]. change (default rmem_zero _) with (mem_at c 1).
  step. rewrite Hm. apply (safe_lift _ m); [done|]. step. rewrite Hq. apply (safe_lift _ q); [done|].
  step. eapply safe_try; [exact Hh|]. clear dependent w. intros t w Hh. destruct (ok CPostRecv t); simpl.
  2:{ apply safe_ret. simpl. apply safe_ret. right. split; [done|]. eapply failed_intro; [|exact Hh]; exact Hc. }
  step. eapply safe_upd; [exact Hh|done|]. clear dependent w. intros w Hh. apply safe_ret. simpl. set (c1 := set_recvs _ c) in *.
  eapply safe_mono; [by eapply (IH (i + 1) w c1)|]. intros ret w' [[-> Hh']|?]; [left|by right]. split; [done|].
  replace (cn_recvs c ++ resp_offsets i (S n)) with (cn_recvs c1 ++ resp_offsets (i + 1) n); [exact Hh'|].
  unfold resp_offsets, c1. rewrite (seqZ_cons i) by lia. simpl. rewrite <- app_assoc. simpl. do 4 f_equal; lia.
Qed.

(** The limits of the connection are those of an answer. *)
Definition replied (data : list Z) (c : priskv_rdma_conn) : Prop :=
  sizeof_cm_rep <= Z.of_nat (length data) ∧ get_be 2 data 2 = Ok (p_max_sgl (cn_param c)) ∧
  get_be 2 data 4 = Ok (p_max_key_length (cn_param c)) ∧ get_be 8 data 8 = Ok (cn_capacity c) ∧
  ∃ server, get_be 2 data 6 = Ok server ∧ negotiated server (p_max_inflight_command (cn_param c)).

(** Ready for requests: the queue pair sends and receives and takes as many work
    requests as there are slots, a receive is posted for each of them. *)
Definition ready (c : priskv_rdma_conn) : Prop :=
  param_range (cn_param c) ∧ 0 < p_max_inflight_command (cn_param c) <= cn_depth c ∧ is_Some (cn_qp c) ∧ cn_qps c = QPS_RTS ∧
  mems_ready c ∧ cn_recvs c = resp_offsets 0 (Z.to_nat (p_max_inflight_command (cn_param c))).

(** Before the server has answered. *)
Definition pending (c : priskv_rdma_conn) : Prop :=
  (∀ i, mem_at c i = rmem_zero) ∧ cn_established c = false ∧ cn_param c = cn_param new_conn ∧ cn_recvs c = [] ∧ cn_qps c = QPS_RESET.

Definition connecting (c : priskv_rdma_conn) : Prop :=
  pending c ∧ is_Some (cn_qp c) ∧ cn_depth c = PRISKV_RDMA_DEFAULT_INFLIGHT_COMMAND ∧ cm_req (cn_param c) = Ok (cn_sent c).

Lemma safe_responsed w c extra data : holds w c extra → closable c → is_Some (cn_cm_id c) → connecting c → bytes data →
  safe (priskv_rdma_responsed ok errno resizable page_bits conn data) w (λ ret w',
    (ret = 0 ∧ ∃ c', holds w' c' extra ∧ closable c' ∧ is_Some (cn_cm_id c') ∧ ready c' ∧ replied data c' ∧ cn_phase c' = CmEstablished) ∨
    (ret ≠ 0 ∧ failed extra w')).
Proof.
  intros Hh Hc Hcm ((Hz & _ & Hp & Hrv & Hqps) & Hqp & Hd & _) Hb. unfold priskv_rdma_responsed. set (Q := λ ret w', _ ∨ _).
  assert (∀ w ret, ret ≠ 0 → failed extra w → safe (mret ret) w Q) as Hfail by (intros; apply safe_ret; by right).
  destruct (Z.ltb_spec (Z.of_nat (length data)) sizeof_cm_rep) as [Hl|Hl].
  { apply Hfail; [done|]. by eapply failed_intro. }
  unfold sizeof_cm_rep in Hl.
  destruct (get_be_Ok 2 data 2) as (sgl & Hsgl & Rsgl); [done|lia..|]. destruct (get_be_Ok 2 data 4) as (kl & Hkl & Rkl); [done|lia..|].
  destruct (get_be_Ok 2 data 6) as (mif & Hmif & Rmif); [done|lia..|]. destruct (get_be_Ok 8 data 8) as (cap & Hcap & _); [done|lia..|].
  change (256 ^ Z.of_nat 2) with 65536 in *.
  step_lift Hsgl. step_lift Hkl. step_lift Hmif. step_lift Hcap. step. eapply safe_upd; [exact Hh|done|]. clear dependent w. intros w Hh.
  set (c1 := set_reply sgl kl cap c) in *.
  step. eapply safe_mono; [apply (safe_modify_inflight w c1 extra mif); [exact Hh|exact Hc|lia|exact Hd|simpl; by rewrite Hp]|].
  clear dependent w. intros ret w [(-> & n & d & Hn & Rn & Hnd & Hh)|[Hr Hf]].
  2:{ rewrite (proj2 (Z.eqb_neq _ _)) by done. by apply Hfail. }
  simpl. set (c2 := set_depth d (set_max_inflight n c1)) in *.
  step. eapply safe_mono; [apply (safe_establish w c2 extra Hh Hc Hqp Hqps)|]. clear dependent w. intros ret w [[-> Hh]|[Hr Hf]].
  2:{ rewrite (proj2 (Z.eqb_neq _ _)) by done. by apply Hfail. }
  simpl. set (c3 := set_phase CmEstablished (set_qps QPS_RTS c2)) in *.
  step. eapply safe_mono; [apply (safe_mem_new_all w c3 extra Hh Hc Hz Hcm); unfold param_range; simpl; lia|].
  clear dependent w. intros ret w [(-> & Hn0 & mems & slots & Hc4 & Hm & Hh)|(Hr & Hf)].
  2:{ rewrite (proj2 (Z.eqb_neq _ _)) by done. by apply Hfail. }
  simpl. set (c4 := with_mems mems slots c3) in *. step. eapply safe_conn; [apply Hh|].
  change (p_max_inflight_command (cn_param c4)) with n. destruct (proj1 Hm 1%nat) as (b & m & size & Hm1 & _); [unfold PRISKV_RDMA_MEM_MAX; lia|].
  eapply safe_mono; [apply (safe_recv_resps (Z.to_nat n) 0 w c4 extra _ _ _ Hh Hc4 Hm1 Hqp)|].
  clear dependent w. intros ret w [[-> Hh]|[Hr Hf]]; [left|by right]. split; [done|]. eexists. split; [exact Hh|].
  split; [exact Hc4|]. split; [exact Hcm|]. simpl in Hn0. split; [|split; [|done]].
  - split; [unfold param_range; simpl; lia|]. split; [simpl; lia|]. split; [exact Hqp|]. split; [done|]. split; [exact Hm|].
    simpl. by rewrite Hrv.
  - split; [done|]. simpl. eauto 6.
Qed.

(** ** Events *)

(** Where a connection is, by what the connection manager was asked last. *)
Definition staged (R : list (list Z)) (c : priskv_rdma_conn) : Prop :=
  closable c ∧ is_Some (cn_cm_id c) ∧
  match cn_phase c with
  | CmIdle | CmResolvingAddr | CmResolvingRoute => pending c ∧ no_queues c
  | CmConnecting => connecting c
  | CmEstablished => ready c ∧ ∃ data, data ∈ R ∧ replied data c
  end.

Definition event_in (R : list (list Z)) (ev : cm_event) : Prop :=
  match ev with EvConnectResponse data => data ∈ R ∧ bytes data | EvRejected data => bytes data | _ => True end.

(** An event that is handled leaves the connection at a stage, or ends it. *)
Definition stays (R : list (list Z)) (extra : holding) (ret : Z) (w : world) : Prop :=
  (ret = 0 ∧ ∃ c, holds w c extra ∧ staged R c) ∨ (ret ≠ 0 ∧ failed extra w).

Lemma safe_connect R w c extra : holds w c extra → closable c → is_Some (cn_cm_id c) → pending c → no_queues c →
  safe (priskv_rdma_connect ok errno conn) w (stays R extra).
Proof.
  intros Hh Hc [cm Hcm] Hpe Hnq. pose proof Hpe as (Hz & He & Hp & Hrv & Hqps). unfold priskv_rdma_connect.
  step. eapply safe_mono; [apply (safe_new_qp w c extra cm); (done || by rewrite Hp)|]. clear dependent w.
  intros ret w [(-> & m & k & q & Hh)|[Hr Hf]].
  2:{ rewrite (proj2 (Z.eqb_neq _ _)) by done. apply safe_ret. by right. }
  simpl. set (c1 := set_qp _ _ _) in *. step. eapply safe_conn; [apply Hh|].
  destruct (cm_req_ok (cn_param c1)) as (data & Hreq & _); [simpl; rewrite Hp; unfold param_range; simpl; unfold PRISKV_RDMA_DEFAULT_INFLIGHT_COMMAND; lia|].
  step_lift Hreq. step. apply (safe_lift _ q); [done|]. step. eapply safe_try; [exact Hh|]. clear dependent w. intros t w Hh.
  destruct (ok CConnect t); simpl; [|apply safe_ret; right; split; [done|]; eapply failed_intro; [|exact Hh]; exact Hc].
  step. eapply safe_upd; [exact Hh|done|]. clear dependent w. intros w Hh. step. eapply safe_upd; [exact Hh|done|]. intros w' Hh'.
  apply safe_ret. left. split; [done|]. eexists. split; [exact Hh'|]. split; [exact Hc|]. split; [by exists cm|]. simpl.
  split; [exact (conj Hz (conj He (conj Hp (conj Hrv eq_refl))))|]. split; [by exists q|]. by split.
Qed.

Lemma safe_handle_event R w c extra ev : holds w c extra → staged R c → event_in R ev → reports (cn_phase c) ev = true →
  safe (handle_one ok errno resizable page_bits conn ev) w (stays R extra).
Proof.
  intros Hh (Hc & Hcm & Hst) Hev Hrep. destruct ev as [| |data|data| |]; cbn [handle_one].
  - destruct (cn_phase c) eqn:Hph; try done. step. eapply safe_try; [exact Hh|]. clear dependent w. intros t w Hh.
    destruct (ok CResolveRoute t); simpl; [|apply safe_ret; right; split; [done|]; by eapply failed_intro].
    step. eapply safe_upd; [exact Hh|done|]. intros w' Hh'. apply safe_ret. left. split; [done|]. eexists. by split.
  - destruct (cn_phase c) eqn:Hph; try done. destruct Hst as [Hp Hn]. by eapply safe_connect.
  - destruct (cn_phase c) eqn:Hph; try done. destruct Hev as [Hin Hb].
    step. eapply safe_mono; [by apply (safe_responsed w c extra data)|]. clear dependent w.
    intros ret w [(-> & c' & Hh & Hc' & Hcm' & Hr & Hre & Hph')|(Hr & c' & extra' & Hl & Hc' & Hh)].
    + step. eapply safe_upd; [exact Hh|done|]. intros w' Hh'. apply safe_ret. left. split; [done|]. eexists. split; [exact Hh'|].
      split; [exact Hc'|]. split; [exact Hcm'|]. simpl. rewrite Hph'. split; [exact Hr|]. by exists data.
    + step. eapply safe_upd; [exact Hh|done|]. intros w' Hh'. apply safe_ret. right. split; [done|]. by exists (set_established true c'), extra'.
  - unfold priskv_rdma_rejected. destruct (Z.ltb_spec (Z.of_nat (length data)) sizeof_cm_rej) as [Hl|Hl].
    { apply safe_ret. right. split; [done|]. by eapply failed_intro. }
    unfold sizeof_cm_rej in Hl.
    destruct (get_be_Ok 2 data 0) as (v0 & H0 & _); [done|lia..|]. destruct (get_be_Ok 2 data 2) as (v2 & H2 & _); [done|lia..|].
    destruct (get_be_Ok 8 data 8) as (v8 & H8 & _); [done|lia..|]. step_lift H0. step_lift H2. step_lift H8.
    apply safe_ret. right. split; [done|]. by eapply failed_intro.
  - destruct (cn_phase c) eqn:Hph; try done. step. eapply safe_upd; [exact Hh|done|]. intros w' Hh'. apply safe_ret. left.
    split; [done|]. eexists. split; [exact Hh'|]. split; [exact Hc|]. split; [exact Hcm|]. simpl. by rewrite Hph.
  - apply safe_ret. right. split; [done|]. by eapply failed_intro.
Qed.

Lemma safe_cm_events R last_ok evs : ∀ w c extra, holds w c extra → staged R c → Forall (event_in R) evs →
  safe (priskv_rdma_handle_cm_event ok errno resizable page_bits conn evs last_ok) w (stays R extra).
Proof.
  induction evs as [|ev evs IH]; intros w c extra Hh Hst Hev; cbn [priskv_rdma_handle_cm_event].
  { apply safe_ret. destruct last_ok; [left; eauto|right]. split; [done|]. eapply failed_intro; [apply Hst|exact Hh]. }
  apply Forall_cons in Hev as [He Hev]. step. eapply safe_conn; [apply Hh|]. pose proof Hst as (_ & [cm Hcm] & _).
  step. rewrite Hcm. apply (safe_lift _ cm); [done|]. destruct (reports (cn_phase c) ev) eqn:Hr; simpl; [|by eapply IH].
  step. eapply safe_mono; [by eapply safe_handle_event|]. intros ret w' [(-> & c' & Hh' & Hst')|Hf]; simpl; [by eapply IH|].
  rewrite (proj2 (Z.eqb_neq _ _)) by apply Hf. apply safe_ret. by right.
Qed.

Definition wakeup_events (wk : wakeup) : list cm_event := match wk with Woken evs _ => evs | _ => [] end.

Lemma safe_wait R wakeups : ∀ w c extra, holds w c extra → staged R c → Forall (event_in R) (wakeups ≫= wakeup_events) →
  safe (priskv_rdma_wait_established ok errno resizable page_bits conn wakeups) w (λ ret w',
    (ret = 0 ∧ ∃ c, holds w' c extra ∧ staged R c ∧ cn_established c = true) ∨ (ret ≠ 0 ∧ failed extra w')).
Proof.
  induction wakeups as [|wk wakeups IH]; intros w c extra Hh Hst Hev; cbn [priskv_rdma_wait_established];
    (step; eapply safe_conn; [apply Hh|]; destruct (cn_established c) eqn:He; [apply safe_ret; left; eauto|]).
  - apply safe_ret. right. split; [done|]. eapply failed_intro; [apply Hst|exact Hh].
  - cbn in Hev. apply Forall_app in Hev as [Hev1 Hev2]. destruct wk as [| |evs last_ok].
    + by eapply IH.
    + step. eapply safe_errno; [exact Hh|]. intros e w' Hpos Hh'. apply safe_ret. right. split; [lia|].
      eapply failed_intro; [apply Hst|exact Hh'].
    + step. eapply safe_mono; [by eapply safe_cm_events|]. intros ret w' [(-> & c' & Hh' & Hst')|Hf]; simpl; [by eapply IH|].
      rewrite (proj2 (Z.eqb_neq _ _)) by apply Hf. apply safe_ret. by right.
Qed.

(** ** From the first call to the result *)

(** Nothing is left, or a buffer that could not be registered. *)
Definition gave_back (w : world) : Prop :=
  w_conns w = others ∧ ∃ left : gmap Z resource, w_live w = left ∪ frame ∧ left ##ₘ frame ∧
    map_Forall (λ _ r, built_on r = []) left ∧ ((∀ t, ok CRegMr t = true) → left = ∅).

Definition connected (R : list (list Z)) (w : world) : Prop :=
  ∃ c data, holds w c [] ∧ closable c ∧ cn_established c = true ∧ ready c ∧ data ∈ R ∧ replied data c.

Definition outcome (R : list (list Z)) (r : option Z) (w : world) : Prop :=
  match r with Some a => a = conn ∧ connected R w | None => gave_back w end.

Lemma loose_perm l l' : l ≡ₚ l' → loose l → loose l'.
Proof. unfold loose. by intros ->. Qed.

Lemma safe_error R w c addrinfo extra : leaks (hold addrinfo AddrInfo) extra → holds w c extra → closable c →
  safe (connect_error conn addrinfo) w (outcome R).
Proof.
  intros Hl Hh Hc. unfold connect_error. destruct Hh as [Hx Ho] eqn:E. clear E.
  step. eapply safe_mono; [by apply (safe_close_conn conn frame others w c extra)|]. intros [] w1 [c1 Ho1].
  step. eapply safe_mono with (Q := λ _ w2, owns conn frame others w1 c1 ((conn, Memory) :: extra) ∧ w_live w2 = list_to_map extra ∪ frame ∧ w_conns w2 = others).
  { eapply safe_free_conn; [exact Ho1|exact Hx|]. auto. }
  intros [] w2 (_ & Hlive & Hcs).
  assert (∃ left, extra ≡ₚ hold addrinfo AddrInfo ++ left ∧ ((∀ t, ok CRegMr t = true) → left = [])) as (left & Hp & Hleft).
  { destruct Hl as [->|(b & n & t & Ht & ->)]; [exists []; by rewrite app_nil_r|].
    exists [(b, Buffer n)]. split; [by rewrite Permutation_app_comm|]. intros Hall. by rewrite Hall in Ht. }
  assert (NoDup (hold addrinfo AddrInfo ++ left).*1) as Hnd.
  { pose proof (ow_nodup _ _ _ _ _ _ Ho1) as Hn. apply NoDup_cons in Hn as [_ Hn]. by rewrite <- Hp. }
  pose proof (ow_apart _ _ _ _ _ _ Ho1) as Hap.
  assert (w_live w2 = list_to_map (hold addrinfo AddrInfo ++ left) ∪ frame) as Hlive'.
  { rewrite Hlive. f_equal. apply list_to_map_proper; [by rewrite Hp|done]. }
  assert (list_to_map left ##ₘ frame) as Hdis.
  { apply map_disjoint_spec. intros k q r Hk Hf. apply elem_of_list_to_map_2 in Hk. destruct (Hap _ _ Hf) as (_ & Hn & _). apply Hn.
    apply list_elem_of_fmap. exists (k, q). split; [done|]. right. rewrite Hp, elem_of_app. by right. }
  apply (loose_perm _ _ Hp) in Hx. assert (map_Forall (λ _ r, built_on r = []) (list_to_map left : gmap Z resource)) as Hlo.
  { intros k r Hk. apply elem_of_list_to_map_2 in Hk. unfold loose in Hx. rewrite Forall_forall in Hx. apply (Hx (k, r)).
    apply elem_of_app. by right. }
  destruct addrinfo as [ai|]; simpl in *.
  - apply NoDup_cons in Hnd as [Hni Hnd]. step.
    assert (list_to_map left !! ai = (None : option resource)) as Hla by by apply not_elem_of_list_to_map_1.
    assert (∀ k r, frame !! k = Some r → k ≠ ai ∧ ai ∉ built_on r) as Hfr.
    { intros k r Hk. destruct (Hap k r Hk) as (_ & Hn & Hb). assert (ai ∈ conn :: extra.*1) as Hin by (right; rewrite Hp; left).
      split; [by intros ->|]. intros Hin'. rewrite Forall_forall in Hb. by destruct (Hb ai Hin'). }
    assert (frame !! ai = None) as Hfa by (destruct (frame !! ai) eqn:E; [|done]; by destruct (Hfr _ _ E)).
    eexists _, _. split; [unfold release; rewrite Hlive', lookup_union_l, lookup_insert_eq by done; rewrite decide_False; [reflexivity|]|].
    + intros (k & r & Hk & Hin). apply lookup_union_Some_raw in Hk as [Hk|[_ Hk]]; [|by destruct (Hfr _ _ Hk)].
      rewrite <- list_to_map_cons in Hk. apply elem_of_list_to_map_2 in Hk.
      unfold loose in Hx. rewrite Forall_forall in Hx. specialize (Hx _ Hk). simpl in Hx. rewrite Hx in Hin.
      by apply elem_of_nil in Hin.
    + apply safe_ret. split; [exact Hcs|]. exists (list_to_map left). simpl.
      rewrite delete_union, delete_insert_id, (delete_id frame) by done. split; [done|]. split; [done|]. split; [done|].
      intros Hall. by rewrite (Hleft Hall).
  - step. apply safe_ret, safe_ret. split; [exact Hcs|]. exists (list_to_map left). split; [done|]. split; [done|]. split; [done|].
    intros Hall. by rewrite (Hleft Hall).
Qed.

Lemma established_ready R c : staged R c → cn_established c = true → ready c ∧ ∃ data, data ∈ R ∧ replied data c.
Proof.
  intros (_ & _ & Hst) He. destruct (cn_phase c); [..|exact Hst]; destruct Hst as [Hp _]; destruct Hp as (_ & He' & _); congruence.
Qed.

(** A local variable holds what was acquired last. *)
Lemma holds_extra w c t r : loose [(t, r)] → owns conn frame others w c ((t, r) :: owned conn c ++ []) → holds w c [(t, r)].
Proof. intros Hx Ho. split; [done|]. eapply owns_perm; [|exact Ho]. rewrite app_nil_r. apply Permutation_cons_append. Qed.

Lemma safe_release_extra w c t r (Q : unit → world → Prop) : holds w c [(t, r)] → (∀ w', holds w' c [] → Q tt w') → safe (release t) w Q.
Proof.
  intros [Hx Ho] HQ. apply (owns_perm _ _ _ _ _ _ ((t, r) :: owned conn c ++ [])) in Ho.
  2:{ rewrite app_nil_r. symmetry. apply Permutation_cons_append. }
  destruct (owns_release _ _ _ _ _ _ _ _ Ho) as (w' & Heq & Ho' & _).
  { split; [|apply owned_grounded, Forall_nil; done]. apply Forall_cons in Hx as [Hx _]. simpl in Hx. by rewrite Hx. }
  eexists _, _. split; [exact Heq|]. apply HQ. split; [by apply Forall_nil|exact Ho'].
Qed.

Lemma safe_resolve R w c wakeups : holds w c [] → staged R c → cn_phase c = CmIdle → Forall (event_in R) (wakeups ≫= wakeup_events) →
  safe (resolve_and_wait ok errno resizable page_bits conn wakeups) w (outcome R).
Proof.
  intros [Hx Ho] Hst Hph Hev. unfold resolve_and_wait. pose proof Hst as (Hc & Hcm & Hs). rewrite Hph in Hs.
  step. eapply safe_acquire; [exact Ho|apply owned_self| |].
  { intros t w' _ Ho'. eapply safe_error; [by left|by split|done]. }
  intros ai w1 _ _ Ho1. apply holds_extra in Ho1; [|by apply Forall_cons]. clear dependent w.
  step. eapply safe_try; [exact Ho1|]. clear dependent w1. intros t w Hh.
  destruct (ok CResolveAddr t); simpl; [|eapply safe_error; [by left|exact Hh|done]].
  step. eapply safe_upd; [exact Hh|done|]. clear dependent w. intros w Hh.
  step. eapply safe_mono; [apply (safe_wait R wakeups w (set_phase CmResolvingAddr c)); [exact Hh|exact (conj Hc (conj Hcm Hs))|done]|].
  clear dependent w. intros ret w [(-> & c' & Hh & Hst' & He)|(Hr & c' & extra & Hl & Hc' & Hh)]; simpl.
  - step. eapply safe_release_extra; [exact Hh|]. intros w' Hh'. apply safe_ret. split; [done|].
    destruct (established_ready R c' Hst' He) as (Hre & data & Hin & Hrep). exists c', data.
    split; [done|]. split; [apply Hst'|done].
  - rewrite (proj2 (Z.eqb_neq _ _)) by done. eapply safe_error; [exact Hl|exact Hh|exact Hc'].
Qed.

(** A connection before its identifier. *)
Definition blank (c : priskv_rdma_conn) : Prop :=
  closable c ∧ pending c ∧ no_queues c ∧ cn_phase c = CmIdle ∧ cn_cm_id c = None.

Lemma safe_bind_local w c cm : holds w c [] →
  safe (bind_local ok errno cm) w (λ r w', match r with inl _ => holds w' c [] | inr a => holds w' c (hold a AddrInfo) end).
Proof.
  intros [Hx Ho]. unfold bind_local. step. eapply safe_acquire; [exact Ho|apply owned_self| |].
  { intros t w' _ Ho'. by apply safe_ret. }
  intros ai w1 _ _ Ho1. apply holds_extra in Ho1; [|by apply Forall_cons].
  step. eapply safe_try; [exact Ho1|]. intros t w2 Hh. destruct (ok CBindAddr t); simpl; [|by apply safe_ret].
  step. eapply safe_release_extra; [exact Hh|]. intros w' Hh'. by apply safe_ret.
Qed.

Lemma safe_open_cm_id R w c ch laddr wakeups : holds w c [] → blank c → cn_cm_channel c = Some ch →
  Forall (event_in R) (wakeups ≫= wakeup_events) →
  safe (open_cm_id ok errno resizable page_bits conn ch laddr wakeups) w (outcome R).
Proof.
  intros Hh (Hc & Hp & Hq & Hph & Hid) Hch Hev. pose proof Hp as (Hz & _). pose proof Hq as (Hq1 & Hq2 & Hq3). unfold open_cm_id.
  assert (∀ h, mems_owned (set_cm_id h c) = []) as Hmo by (intros h; unfold mems_owned; change (mem_at (set_cm_id h c)) with (mem_at c); by rewrite !Hz).
  assert (mems_owned c = []) as Hmo' by (unfold mems_owned; by rewrite !Hz).
  eapply (safe_acquire_into _ _ _ _ _ _ set_cm_id); [exact Hh| | | |].
  { intros t. unfold owned. rewrite Hmo, Hmo'. simpl. rewrite Hq1, Hq2, Hq3, Hch, Hid. simpl. solve_Permutation. }
  { unfold owned. rewrite Hmo, Hmo'. simpl. by rewrite Hq1, Hq2, Hq3, Hid. }
  { intros w1 Hh1. eapply safe_error; [|exact Hh1|exact Hc]; by left. }
  clear dependent w. intros cm w _ _ Hh. set (c1 := set_cm_id (Some cm) c) in *.
  assert (staged R c1) as Hst by (split; [exact Hc|]; split; [by exists cm|]; simpl; by rewrite Hph).
  step. destruct laddr.
  - eapply safe_mono; [by apply safe_bind_local|]. clear dependent w. intros [[]|a] w Hh; [by eapply safe_resolve|].
    eapply safe_error; [|exact Hh|exact Hc]; by left.
  - apply safe_ret. by eapply safe_resolve.
Qed.

Lemma safe_open_channel R w c laddr wakeups : holds w c [] → blank c → cn_cm_channel c = None →
  Forall (event_in R) (wakeups ≫= wakeup_events) →
  safe (open_channel ok errno resizable page_bits conn laddr wakeups) w (outcome R).
Proof.
  intros Hh Hbl Hch Hev. pose proof Hbl as (Hc & Hp & Hq & Hph & Hid). pose proof Hq as (Hq1 & Hq2 & Hq3). unfold open_channel.
  eapply (safe_acquire_into _ _ _ _ _ _ set_channel); [exact Hh| | | |].
  { intros t. unfold owned, mems_owned, mem_at. simpl. rewrite Hq1, Hq2, Hq3, Hch, Hid. simpl. solve_Permutation. }
  { unfold owned. simpl. by rewrite Hid, Hch. }
  { intros w1 Hh1. eapply safe_error; [|exact Hh1|exact Hc]; by left. }
  clear dependent w. intros ch w _ _ Hh. set (c1 := set_channel (Some ch) c) in *.
  step. eapply safe_try; [exact Hh|]. clear dependent w. intros t w Hh.
  destruct (ok CSetNonblock t); simpl; [|eapply safe_error; [|exact Hh|exact Hc]; by left].
  step. eapply safe_set_fd_handler; [exact Hh|]. clear dependent w. intros w Hh. by eapply safe_open_cm_id.
Qed.
End connecting.
