(* ===== verification/ConnectSystem.v ===== *)
(** * Connections: the properties

    An attempt to connect from its first call to its result, what a connection is
    good for, and how it ends; clients with one connection; runs on which the code
    does not do what it means to. *)

From S2P Require Import Prelude State Utils Protocol Wire Threads Client ClientProps Connect ConnectProps.

(** ** The world before *)

(** Numbers are handed out in order, and nothing is built on what is to come. *)
Definition world_ok (w : world) : Prop :=
  0 < w_tick w ∧ map_Forall (λ k r, 0 < k < w_tick w ∧ Forall (λ h, h < w_tick w) (built_on r)) (w_live w) ∧
  ∀ k, is_Some (w_conns w !! k) → k < w_tick w.

Definition responses (wakeups : list wakeup) : list (list Z) :=
  omap (λ ev, match ev with EvConnectResponse data => Some data | _ => None end) (wakeups ≫= wakeup_events).

(** Messages are bytes. *)
Definition bytes_event (ev : cm_event) : Prop :=
  match ev with EvConnectResponse data | EvRejected data => bytes data | _ => True end.

Lemma event_in_responses wakeups : Forall bytes_event (wakeups ≫= wakeup_events) →
  Forall (event_in (responses wakeups)) (wakeups ≫= wakeup_events).
Proof.
  rewrite !Forall_forall. intros Hb ev Hin. specialize (Hb ev Hin). destruct ev; try done. split; [|done].
  apply list_elem_of_omap. by exists (EvConnectResponse private_data).
Qed.

Section result.
Context (ok : call → Z → bool) (errno : Z → positive) (resizable : bool) (page_bits : Z).
Context (Hpage : 0 <= page_bits <= 16).

(** The first allocations. *)
Lemma owns_first w : world_ok w → let t := w_tick w in let w1 := mk_world (<[t := Memory]> (w_live w)) (<[t := new_conn]> (w_conns w)) (w_handlers w) (t + 1) in
  holds t (w_live w) (w_conns w) w1 new_conn [].
Proof.
  intros (H0 & Hl & Hc) t w1. assert (w_conns w !! t = None) as Hn.
  { destruct (w_conns w !! t) eqn:E; [|done]. specialize (Hc t ltac:(eauto)). lia. }
  assert (w_live w !! t = None) as Hnl.
  { destruct (w_live w !! t) eqn:E; [|done]. destruct (Hl t _ E). lia. }
  split; [by apply Forall_nil|]. change (owned t new_conn ++ []) with [(t, Memory)].
  split; simpl; [by rewrite lookup_insert_eq|by rewrite delete_insert_id| |by apply NoDup_singleton| |].
  - by rewrite insert_union_singleton_l.
  - apply Forall_singleton. unfold t. lia.
  - intros k r Hk. destruct (Hl k r Hk) as [Hk1 Hk2]. split; [lia|].
    split; [rewrite list_elem_of_singleton; unfold t; lia|]. eapply Forall_impl; [exact Hk2|]. simpl. intros h Hh.
    rewrite list_elem_of_singleton. unfold t. lia.
Qed.

(** The result of an attempt in a world [w]. *)
Definition attempt (w : world) (wakeups : list wakeup) (r : option Z) (w' : world) : Prop :=
  match r with
  | Some conn => conn = w_tick w ∧ connected conn (w_live w) (w_conns w) ok resizable page_bits (responses wakeups) w'
  | None => (∀ t, ok CEpollCreate t = true) → gave_back (w_live w) (w_conns w) ok w'
  end.

Lemma safe_conn_connect laddr wakeups w : world_ok w → Forall bytes_event (wakeups ≫= wakeup_events) →
  safe (priskv_conn_connect ok errno resizable page_bits laddr wakeups) w (attempt w wakeups).
Proof.
  intros Hw Hb%event_in_responses. unfold priskv_conn_connect. step. unfold acquire at 1. step. eexists _, _. split; [reflexivity|].
  destruct (ok CCalloc (w_tick w)); [|apply safe_ret, safe_ret; intros _; split; [done|]; exists ∅; rewrite map_empty_union; split_and!; [done|apply map_disjoint_empty_l|done|done]].
  step. apply safe_modify, safe_ret. set (conn := w_tick w) in *. pose proof (owns_first w Hw) as Hh. fold conn in Hh. simpl in Hh.
  assert (∀ h w1, holds conn (w_live w) (w_conns w) w1 (set_mrs h new_conn) [] →
    safe (epollfd ← acquire ok CEpollCreate EpollFd;
      match epollfd with
      | None => _ ← upd_conn conn (set_epollfd (-1)); mret None
      | Some epollfd => _ ← upd_conn conn (set_epollfd epollfd); _ ← priskv_set_fd_handler epollfd conn; _ ← try ok errno CSetNonblock;
          open_channel ok errno resizable page_bits conn laddr wakeups
      end) w1 (attempt w wakeups)) as Hrest.
  { intros h w1 [Hx Ho]. step. eapply safe_acquire; [exact Ho|apply owned_self| |].
    { intros t w2 Hf Ho2. step. eapply safe_upd_owns; [exact Ho2|]. intros w3 Ho3. apply safe_ret. intros Hall. by rewrite Hall in Hf. }
    intros fd w2 Hfd _ Ho2. step. eapply safe_upd_owns; [exact Ho2|]. intros w3 Ho3.
    assert (holds conn (w_live w) (w_conns w) w3 (set_epollfd fd (set_mrs h new_conn)) []) as Hh3.
    { split; [done|]. eapply owns_perm; [|exact Ho3]. unfold owned. simpl. rewrite (proj2 (Z.ltb_lt 0 fd)) by done. done. }
    step. eapply safe_set_fd_handler; [exact Hh3|]. intros w4 Hh4. step. eapply safe_try; [exact Hh4|]. intros _ w5 Hh5.
    eapply safe_mono; [eapply safe_open_channel; [done|exact Hh5| |done|exact Hb]|].
    - split; [split; [done|]; simpl; repeat apply Forall_cons_2; (apply mem_wf_zero || apply Forall_nil; done)|].
      split; [split; [by intros [|[|[|]]]|]; by repeat split|]. by repeat split.
    - intros [c|] w6; intros Hg; [destruct Hg as [-> Hg]; by split|intros _; exact Hg]. }
  step. apply safe_modify. eapply (safe_acquire_into _ _ _ _ _ _ set_mrs); [exact Hh| | | |].
  { intros t. unfold owned. simpl. solve_Permutation. }
  { done. }
  { intros w1 Hh1. by apply (Hrest None). }
  intros t w1 _ _ Hh1. by apply (Hrest (Some t)).
Qed.
End result.

(** ** Connecting and closing *)

(** Closing gives back what the connection holds. *)
Lemma close_gives_back ok resizable page_bits conn frame others R w : connected conn frame others ok resizable page_bits R w →
  safe (priskv_conn_close (Some conn)) w (λ ret w', ret = 0 ∧ w_live w' = frame ∧ w_conns w' = others).
Proof.
  intros (c & data & Hh & Hc & _). cbn [priskv_conn_close]. step. eapply safe_mono; [by eapply safe_close_conn|]. intros [] w1 [c1 Ho1].
  step. eapply safe_free_conn; [exact Ho1|by apply Forall_nil|]. intros w2 Hl Hcs. apply safe_ret. split; [done|]. split; [|done].
  rewrite Hl. apply map_empty_union.
Qed.

(** (C11) An attempt to connect ends, and does not fault, whatever the network, the
    server and the libraries answer. Either it yields a connection that is
    established and ready: its limits are those of a response of the server, its
    queue pair sends and receives, all its buffers are registered and hold what the
    limits ask for, every request slot is free and a receive is posted for each
    response; it holds exactly what it names, and closing it gives all of that back.
    Or the attempt gives back all it took, provided that the epoll descriptor was
    created and that no registration of memory failed. *)
Theorem conn_connect_correct ok errno resizable page_bits laddr wakeups w :
  0 <= page_bits <= 16 → world_ok w → Forall bytes_event (wakeups ≫= wakeup_events) →
  ∃ r w', priskv_conn_connect ok errno resizable page_bits laddr wakeups w = Ok (r, w') ∧
    match r with
    | Some conn => ∃ c data, w_conns w' = <[conn := c]> (w_conns w) ∧ w_live w' = list_to_map (owned conn c) ∪ w_live w ∧
        cn_established c = true ∧ ready page_bits c ∧ data ∈ responses wakeups ∧ replied ok resizable data c ∧
        ∃ w'', priskv_conn_close (Some conn) w' = Ok (0, w'') ∧ w_live w'' = w_live w ∧ w_conns w'' = w_conns w
    | None => (∀ t, ok CEpollCreate t = true) → w_conns w' = w_conns w ∧ ((∀ t, ok CRegMr t = true) → w_live w' = w_live w)
    end.
Proof.
  intros Hpg Hw Hb. destruct (safe_conn_connect ok errno resizable page_bits Hpg laddr wakeups w Hw Hb) as (r & w' & Heq & Hr).
  exists r, w'. split; [done|]. destruct r as [conn|].
  2:{ intros Hep. destruct (Hr Hep) as (Hc & left & Hl & _ & _ & He). split; [done|]. intros Hreg.
      by rewrite Hl, (He Hreg), map_empty_union. }
  destruct Hr as [-> Hcn].
  destruct (close_gives_back _ _ _ _ _ _ _ _ Hcn) as (ret & w'' & Hcl & -> & Hl & Hcs).
  destruct Hcn as (c & data & [Hx Ho] & _ & He & Hr & Hin & Hrep). exists c, data. rewrite app_nil_r in Ho.
  split; [|split; [apply Ho|]; eauto 10].
  rewrite <- (ow_others _ _ _ _ _ _ Ho), insert_delete_eq. symmetry. apply insert_id, Ho.
Qed.

(** ** What a connection is good for *)

(** The connection as its requests see it. *)
Definition requests_of (c : priskv_rdma_conn) (tick : Z) : connection :=
  let keys := mem_at c PRISKV_RDMA_MEM_KEYS in
  mk_connection (p_max_sgl (cn_param c)) (p_max_key_length (cn_param c)) (p_max_inflight_command (cn_param c)) (cn_established c)
    (cn_slots c) [] [] None (default 0 (rm_buf keys)) (replicate (Z.to_nat (rm_buf_size keys)) 0) (rm_mr keys) None ∅ [] [] tick.

(** The limits of the server leave room for a request in 16 bits. *)
Definition request_fits (c : priskv_rdma_conn) : Prop :=
  sizeof_priskv_request + sizeof_priskv_keyed_sgl * p_max_sgl (cn_param c) + p_max_key_length (cn_param c) < 2 ^ 16.

Lemma ready_fresh page_bits c tick : ready page_bits c → request_fits c → fresh_connection (requests_of c tick).
Proof.
  intros ((H1 & H2 & H3) & _ & _ & _ & (Hm & slot & Hs & Hf & Hl) & _) Hfit. unfold fresh_connection. simpl.
  destruct (Hm PRISKV_RDMA_MEM_KEYS) as (b & m & size & -> & _); [unfold PRISKV_RDMA_MEM_KEYS, PRISKV_RDMA_MEM_MAX; lia|].
  split; [lia|]. split; [lia|]. split; [lia|]. split; [exact Hfit|]. split; [by exists slot|]. by split_and!.
Qed.

(** The connection starts the life of requests. *)
Lemma ready_starts page_bits c tick nic_ok alloc_ok reg_ok stamp rkey : ready page_bits c → request_fits c →
  client_reachable nic_ok alloc_ok reg_ok stamp rkey (page_size page_bits) (requests_of c tick) ∅.
Proof. intros Hr Hf. by apply cr_start, (ready_fresh page_bits). Qed.

(** ** Clients with one connection *)

Section client.
Context (ok : call → Z → bool) (errno : Z → positive) (resizable : bool) (page_bits : Z).
Context (Hpage : 0 <= page_bits <= 16).

(** The last thing that was acquired is released. *)
Lemma safe_release_last t r live w (Q : unit → world → Prop) : w_live w = <[t := r]> live → live !! t = None → built_on r = [] →
  map_Forall (λ _ r, t ∉ built_on r) live → Q tt (with_live live w) → safe (release t) w Q.
Proof.
  intros Hl Hn Hr Hf HQ. eexists _, _. split; [|exact HQ]. unfold release. rewrite Hl, lookup_insert_eq, decide_False.
  - by rewrite delete_insert_id.
  - intros (k & q & Hk & Hin). apply lookup_insert_Some in Hk as [[<- <-]|[_ Hk]]; [by rewrite Hr in Hin; apply elem_of_nil in Hin|].
    by apply (Hf k q).
Qed.

Lemma acquire_run f r w : ok f (w_tick w) = true →
  acquire ok f r w = Ok (Some (w_tick w), mk_world (<[w_tick w := r]> (w_live w)) (w_conns w) (w_handlers w) (w_tick w + 1)).
Proof. intros Hok. unfold acquire, wtick, mbind, ST_bind. by rewrite Hok. Qed.

Lemma world_ok_acquire r w : built_on r = [] → world_ok w →
  world_ok (mk_world (<[w_tick w := r]> (w_live w)) (w_conns w) (w_handlers w) (w_tick w + 1)).
Proof.
  intros Hr (H0 & Hl & Hc). split; [simpl; lia|]. split; simpl.
  - apply map_Forall_insert_2; [rewrite Hr; split; [lia|by apply Forall_nil]|].
    eapply map_Forall_impl; [exact Hl|]. simpl. intros k q [? Hq]. split; [lia|]. eapply Forall_impl; [exact Hq|]. simpl. lia.
  - intros k Hk. specialize (Hc k Hk). lia.
Qed.

Lemma world_ok_fresh w : world_ok w → w_live w !! w_tick w = None ∧ map_Forall (λ _ r, w_tick w ∉ built_on r) (w_live w).
Proof.
  intros (H0 & Hl & _). split.
  - destruct (w_live w !! w_tick w) eqn:E; [|done]. destruct (Hl _ _ E). lia.
  - intros k r Hk Hin. destruct (Hl _ _ Hk) as [_ Hf]. rewrite Forall_forall in Hf. specialize (Hf _ Hin). lia.
Qed.

(** Giving back array, descriptor and structure of a client, in this order. *)
Lemma safe_hand_back t (base : gmap Z resource) w (Q : unit → world → Prop) :
  (∀ i, i = 0 ∨ i = 1 ∨ i = 3 → base !! (t + i) = None ∧ map_Forall (λ _ r, t + i ∉ built_on r) base) →
  w_live w = <[t + 3 := Memory]> (<[t + 1 := EpollFd]> (<[t := Memory]> base)) →
  Q tt (with_live base w) → safe (_ ← release (t + 3); _ ← release (t + 1); release t) w Q.
Proof.
  intros Hfr Hl HQ. pose proof (Hfr 0 ltac:(lia)) as [Hn Hb]. rewrite Z.add_0_r in Hn, Hb.
  step. eapply safe_release_last; [exact Hl| |done| |].
  { rewrite !lookup_insert_ne by lia. apply Hfr. lia. }
  { repeat (apply map_Forall_insert_2; [simpl; by apply not_elem_of_nil|]). apply Hfr. lia. }
  step. eapply safe_release_last; [reflexivity| |done| |].
  { rewrite lookup_insert_ne by lia. apply Hfr. lia. }
  { apply map_Forall_insert_2; [simpl; by apply not_elem_of_nil|]. apply Hfr. lia. }
  eapply safe_release_last; [reflexivity|done|done|done|]. exact HQ.
Qed.

(** A client with one connection, between [priskv_connect] and [priskv_close]. *)
Definition client_ready (cl : priskv_client) (w w' : world) : Prop :=
  ∃ conn c, priskv_select_conn cl w' = Ok ((Some conn, cl), w') ∧ w_conns w' !! conn = Some c ∧ cn_established c = true ∧
    ready page_bits c ∧ safe (priskv_close cl) w' (λ _ w'', w_live w'' = w_live w ∧ w_conns w'' = w_conns w).

Lemma safe_sq_client lport nqueue laddr wakeups w : world_ok w → Forall bytes_event (wakeups 0 ≫= wakeup_events) → nqueue <= 0 →
  (∀ t, ok CCalloc t = true) → (∀ t, ok CEpollCreate t = true) →
  safe (priskv_connect ok errno resizable page_bits lport nqueue laddr wakeups) w (λ r w',
    match r with
    | Some cl => client_ready cl w w'
    | None => (∀ t, ok CRegMr t = true) → w_live w' = w_live w ∧ w_conns w' = w_conns w
    end).
Proof.
  intros Hw Hb Hq Hcal Hep. unfold priskv_connect. rewrite (proj2 (Z.ltb_ge 1 nqueue)) by lia. rewrite andb_false_r.
  step. eexists _, _. split; [by apply acquire_run|]. apply (world_ok_acquire Memory) in Hw as Hw1; [|done]. set (w1 := mk_world _ _ _ _) in *.
  step. eexists _, _. split; [by apply acquire_run|]. apply (world_ok_acquire EpollFd) in Hw1 as Hw2; [|done]. set (w2 := mk_world _ _ _ (w_tick w1 + 1)) in *.
  step. eexists _, _. split; [reflexivity|]. set (w3 := mk_world _ _ _ (w_tick w2 + 1)).
  assert (world_ok w3) as Hw3.
  { destruct Hw2 as (? & Hl & Hc). split; [simpl in *; lia|]. split.
    - eapply map_Forall_impl; [exact Hl|]. simpl. intros k q [? Hf]. split; [lia|]. eapply Forall_impl; [exact Hf|]. simpl. lia.
    - intros k Hk. specialize (Hc k Hk). simpl in *. lia. }
  rewrite (proj2 (Z.ltb_ge 0 nqueue)) by lia. simpl ops_init. set (ep := w_tick w1).
  step. unfold priskv_sq_init. step. eexists _, _. split; [by apply acquire_run|].
  apply (world_ok_acquire Memory) in Hw3 as Hw4; [|done]. set (w4 := mk_world _ _ _ (w_tick w3 + 1)) in *. set (arr := w_tick w3).
  set (t := w_tick w) in *. assert (arr = t + 3) as Harr by (unfold arr, w3, w2, w1, t; simpl; lia).
  assert (w_live w4 = <[t + 3 := Memory]> (<[t + 1 := EpollFd]> (<[t := Memory]> (w_live w)))) as Hl4 by (rewrite <- Harr; reflexivity).
  assert (∀ conn w5 (Q : unit → world → Prop) (left : gmap Z resource), left ##ₘ w_live w4 → map_Forall (λ _ r, built_on r = []) left →
    safe (priskv_conn_close conn) w5 (λ _ w6, w_live w6 = left ∪ w_live w4 ∧ w_conns w6 = w_conns w) →
    (∀ w7, w_live w7 = left ∪ w_live w → w_conns w7 = w_conns w → Q tt w7) →
    safe (priskv_close (set_conns (Some (arr, [conn])) (mk_client t None None 0 0 ep None (Some priskv_sq_ops)))) w5 Q) as Hclose.
  { intros conn w5 Q left Hdis Hlo Hcl HQ. unfold priskv_close. step. apply (safe_lift _ priskv_sq_ops); [done|].
    step. simpl ops_deinit. unfold priskv_sq_deinit. step. apply (safe_lift _ (arr, [conn])); [done|]. step.
    apply (safe_lift _ conn); [done|]. step. eapply safe_mono; [exact Hcl|]. intros ret w6 [Hl6 Hc6].
    change (pc_epollfd (set_conns _ _)) with ep. rewrite (proj2 (Z.leb_le 0 ep)) by (unfold ep, w1; simpl; destruct Hw; lia).
    pose proof (map_disjoint_spec left (w_live w4)) as Hd. rewrite Hl4 in Hdis.
    apply map_disjoint_insert_r in Hdis as [Hd3 Hdis]. apply map_disjoint_insert_r in Hdis as [Hd1 Hdis].
    apply map_disjoint_insert_r in Hdis as [Hd0 Hdis].
    assert (safe (_ ← release (t + 3); _ ← release (t + 1); release t) w6 Q) as Hgb.
    { apply (safe_hand_back t (left ∪ w_live w)); [| |by apply HQ].
      - intros i Hi. destruct Hw as (_ & Hlw & _). split.
        + apply lookup_union_None. split; [decompose [or] Hi; subst; rewrite ?Z.add_0_r; done|].
          destruct (w_live w !! (t + i)) eqn:E; [|done]. destruct (Hlw _ _ E). lia.
        + apply map_Forall_union_2; intros k r Hk Hin; [by rewrite (Hlo _ _ Hk) in Hin; apply elem_of_nil in Hin|].
          destruct (Hlw _ _ Hk) as [_ Hf]. rewrite Forall_forall in Hf. specialize (Hf _ Hin). lia.
      - rewrite Hl6, Hl4. rewrite <- !insert_union_r by done. done. }
    rewrite Harr. destruct Hgb as (u & w7 & Heq & HQ7). unfold mbind at 1, ST_bind in Heq. destruct (release (t + 3) w6) as [[[] w8]|] eqn:Hr; [|done].
    exists tt, w8. split; [done|]. exists u, w7. split; [exact Heq|exact HQ7]. }
  step. eapply safe_mono; [by apply safe_conn_connect|]. intros [conn|] w5 Hat.
  - destruct Hat as [_ Hcn]. apply safe_ret. simpl. apply safe_ret. pose proof (close_gives_back _ _ _ _ _ _ _ _ Hcn) as Hcl.
    destruct Hcn as (c & data & [Hx Ho] & _ & He & Hr & _). exists conn, c. split; [reflexivity|]. split; [apply Ho|]. split; [done|]. split; [done|].
    eapply (Hclose (Some conn) w5 _ ∅); [apply map_disjoint_empty_l|done| |].
    + eapply safe_mono; [exact Hcl|]. intros ret w6 (_ & Hl & Hc). by rewrite map_empty_union.
    + intros w7. rewrite map_empty_union. auto.
  - apply safe_ret. simpl. destruct (Hat Hep) as (Hc5 & left & Hl5 & Hdis & Hlo & Hreg). step.
    eapply (Hclose None w5 _ left); [done|done|by apply safe_ret|]. intros w7 Hl7 Hc7. apply safe_ret. intros Hr.
    by rewrite Hl7, (Hreg Hr), map_empty_union.
Qed.
End client.

(** [priskv_connect] for a client without threads of its own, as long as the
    process has memory and descriptors: it ends and does not fault. Either the
    client has one connection, which is ready and which every command is given, and
    [priskv_close] gives back all that was acquired; or nothing is left of the
    attempt, provided that no registration of memory failed. *)
Theorem sq_client_correct ok errno resizable page_bits lport nqueue laddr wakeups w :
  0 <= page_bits <= 16 → world_ok w → Forall bytes_event (wakeups 0 ≫= wakeup_events) → nqueue <= 0 →
  (∀ t, ok CCalloc t = true) → (∀ t, ok CEpollCreate t = true) →
  ∃ r w', priskv_connect ok errno resizable page_bits lport nqueue laddr wakeups w = Ok (r, w') ∧
    match r with
    | Some cl => ∃ conn c w'', priskv_select_conn cl w' = Ok ((Some conn, cl), w') ∧ w_conns w' !! conn = Some c ∧
        cn_established c = true ∧ ready page_bits c ∧
        priskv_close cl w' = Ok (tt, w'') ∧ w_live w'' = w_live w ∧ w_conns w'' = w_conns w
    | None => (∀ t, ok CRegMr t = true) → w_live w' = w_live w ∧ w_conns w' = w_conns w
    end.
Proof.
  intros Hpg Hw Hb Hq Hcal Hep.
  destruct (safe_sq_client ok errno resizable page_bits Hpg lport nqueue laddr wakeups w Hw Hb Hq Hcal Hep) as (r & w' & Heq & Hr).
  exists r, w'. split; [done|]. destruct r as [cl|]; [|done]. destruct Hr as (conn & c & Hs & Hc & He & Hre & [] & w'' & Hcl & Hl & Hcs).
  by exists conn, c, w''.
Qed.

(** Clients with threads: commands go to each connection in turn. *)
Lemma mq_select_turns cl arr conns w : pc_conns cl = Some (arr, conns) → Z.of_nat (length conns) = pc_nqueue cl → 0 < pc_nqueue cl →
  0 <= pc_cur_conn cl < 2 ^ 31 - 1 →
  ∃ conn cl', priskv_mq_select_conn cl w = Ok ((conn, cl'), w) ∧ conns !! Z.to_nat (pc_cur_conn cl mod pc_nqueue cl) = Some conn ∧
    pc_cur_conn cl' = pc_cur_conn cl + 1 ∧ pc_conns cl' = pc_conns cl.
Proof.
  intros Hc Hl Hq Hcur. pose proof (Z.mod_pos_bound (pc_cur_conn cl) (pc_nqueue cl) Hq) as Hm.
  destruct (rd_in_range conns (pc_cur_conn cl mod pc_nqueue cl)) as [conn Hconn]; [lia|].
  unfold priskv_mq_select_conn. rewrite Hc. erewrite bind_run by reflexivity. cbv beta iota.
  rewrite (proj2 (Z.eqb_neq (pc_nqueue cl) 0)) by lia. erewrite bind_run by reflexivity. rewrite Z.rem_mod_nonneg, Hconn by lia.
  erewrite bind_run by reflexivity. rewrite s32_small by lia. eexists _, _. split; [reflexivity|]. split; [by apply rd_Ok in Hconn as [_ ?]|done].
Qed.

(** ** A server with two requests in flight *)

Definition ex_world : world := mk_world ∅ ∅ ∅ 1.
Definition all_ok : call → Z → bool := λ _ _, true.
Definition refuse (f : call) : call → Z → bool := λ g _, match f, g with
  | CRegMr, CRegMr | CEpollCreate, CEpollCreate | CQueryDevice, CQueryDevice => false | _, _ => true end.
Definition ex_rep : list Z := [0;1; 0;4; 0;64; 0;2; 0;0;0;0;0;1;0;0] ++ replicate 16 0.
Definition ex_wakeups : list wakeup :=
  [Woken [EvAddrResolved] true; Interrupted; Woken [EvRouteResolved] true; Woken [EvConnectResponse ex_rep] true].
Definition ex_connect (ok : call → Z → bool) : res (option Z * world) :=
  priskv_conn_connect ok (λ _, 12%positive) true 12 false ex_wakeups ex_world.

Lemma ex_world_ok : world_ok ex_world.
Proof. split; [done|]. split; [apply map_Forall_empty|]. intros k [c Hc]. simpl in Hc. by rewrite lookup_empty in Hc. Defined.

Lemma ex_wakeups_bytes : Forall bytes_event (ex_wakeups ≫= wakeup_events).
Proof. repeat (apply Forall_cons; split; [done|]). apply Forall_cons. split; [|by apply Forall_nil]. by apply (bool_decide_unpack _). Defined.

(** The connection that is made. *)
Lemma ex_connected :
  (match ex_connect all_ok with Ok (Some a, w) => (λ c, (a, cn_param c, cn_recvs c)) <$> w_conns w !! a | _ => None end)
    = Some (1, mk_param 4 64 2, [0; 32]).
Proof. vm_compute. reflexivity. Qed.

Lemma conn_connect_correct_witness :
  ∃ c w', ex_connect all_ok = Ok (Some 1, w') ∧ w_conns w' = {[1 := c]} ∧ cn_param c = mk_param 4 64 2 ∧ cn_recvs c = [0; 32] ∧
    ready 12 c ∧ ∃ w'', priskv_conn_close (Some 1) w' = Ok (0, w'') ∧ w_live w'' = ∅.
Proof.
  destruct (conn_connect_correct all_ok (λ _, 12%positive) true 12 false ex_wakeups ex_world) as (r & w' & Heq & Hr);
    [lia|exact ex_world_ok|exact ex_wakeups_bytes|].
  pose proof ex_connected as Hex. unfold ex_connect in *. rewrite Heq in *. destruct r as [conn|]; [|discriminate].
  destruct Hr as (c & data & Hcs & _ & _ & Hready & _ & _ & w'' & Hcl & Hl & _).
  rewrite Hcs, lookup_insert_eq in Hex. injection Hex as -> Hp Hv.
  exists c, w'. split; [reflexivity|]. split; [exact Hcs|]. split; [exact Hp|]. split; [exact Hv|]. split; [exact Hready|].
  exists w''. split; [exact Hcl|exact Hl].
Defined.

Definition ex_client (ok : call → Z → bool) (nqueue : Z) : res (option priskv_client * world) :=
  priskv_connect ok (λ _, 12%positive) true 12 0 nqueue false (λ _, ex_wakeups) ex_world.

Lemma ex_client_connected : (match ex_client all_ok 0 with Ok (Some _, _) => true | _ => false end) = true.
Proof. vm_compute. reflexivity. Qed.

Lemma sq_client_correct_witness :
  ∃ cl conn c w' w'', priskv_connect all_ok (λ _, 12%positive) true 12 0 0 false (λ _, ex_wakeups) ex_world = Ok (Some cl, w') ∧
    priskv_select_conn cl w' = Ok ((Some conn, cl), w') ∧ w_conns w' !! conn = Some c ∧ ready 12 c ∧
    priskv_close cl w' = Ok (tt, w'') ∧ w_live w'' = ∅.
Proof.
  destruct (sq_client_correct all_ok (λ _, 12%positive) true 12 0 0 false (λ _, ex_wakeups) ex_world) as (r & w' & Heq & Hr);
    [lia|exact ex_world_ok|exact ex_wakeups_bytes|lia|done|done|].
  pose proof ex_client_connected as Hex. unfold ex_client in Hex. rewrite Heq in Hex. destruct r as [cl|]; [|discriminate].
  destruct Hr as (conn & c & w'' & Hs & Hc & _ & Hre & Hcl & Hl & _). exists cl, conn, c, w', w''.
  split; [exact Heq|]. split; [exact Hs|]. split; [exact Hc|]. split; [exact Hre|]. split; [exact Hcl|exact Hl].
Defined.

(** ** What goes wrong *)

Definition live_after {A} (r : res (A * world)) : option (A * list (Z * resource)) :=
  match r with Ok (a, w) => Some (a, map_to_list (w_live w)) | Fault _ => None end.

(** A buffer that cannot be registered stays mapped: [rmem->buf], which is null, is
    unmapped in its place. *)
Lemma registration_leaks_buffer : live_after (ex_connect (refuse CRegMr)) = Some (None, [(27, Buffer 4096)]).
Proof. vm_compute. reflexivity. Qed.

(** Without a descriptor the structure of the connection and its array are lost. *)
Lemma epoll_failure_leaks : live_after (ex_connect (refuse CEpollCreate)) = Some (None, [(2, Memory); (1, Memory)]).
Proof. vm_compute. reflexivity. Qed.

(** The server allows 2 requests in flight; a device that cannot be queried makes
    the client use 128. *)
Lemma query_failure_exceeds_server :
  (match ex_connect (refuse CQueryDevice) with Ok (Some a, w) => p_max_inflight_command ∘ cn_param <$> w_conns w !! a | _ => None end)
    = Some 128.
Proof. vm_compute. reflexivity. Qed.

(** The handlers of the descriptors are not removed: they still name the
    connection after it was freed. *)
Lemma handler_outlives_connection :
  (match ex_connect all_ok with
   | Ok (Some a, w) => match priskv_conn_close (Some a) w with Ok (_, w) => Some (w_conns w !! a, w_handlers w !! 3) | _ => None end
   | _ => None end) = Some (None, Some 1).
Proof. vm_compute. reflexivity. Qed.

(** Without a descriptor for the client, its operations are called through a null
    pointer; without memory for the array of connections, its first element is
    read. *)
Lemma client_epoll_failure_crashes : ex_client (refuse CEpollCreate) 0 = Fault NullDeref.
Proof. vm_compute. reflexivity. Qed.
Lemma client_array_failure_crashes : ex_client (λ f t, match f with CCalloc => negb (t =? 4) | _ => true end) 0 = Fault NullDeref.
Proof. vm_compute. reflexivity. Qed.

(** With threads the same client has its connections, one per thread. *)
Lemma mq_connects : match ex_client all_ok 2 with Ok (Some cl, w) => pc_conns cl = Some (6, [Some 7; Some 41]) | _ => False end.
Proof. vm_compute. reflexivity. Qed.

(** After [2^31] commands the index of the next connection is negative. *)
Lemma mq_select_negative :
  priskv_mq_select_conn (mk_client 1 None (Some (2, [Some 3; Some 4; Some 5])) 3 (- 2 ^ 31) 6 None (Some priskv_mq_ops)) ex_world = Fault OutOfBounds.
Proof. reflexivity. Qed.

(** Memory whose registration failed is deregistered through a null pointer. *)
Lemma dereg_failed_registration :
  (match ex_client all_ok 0 with
   | Ok (Some cl, w) => match priskv_reg_memory (refuse CRegMr) cl 4096 (-1) w with Ok (mem, w) => priskv_dereg_memory mem w | Fault f => Fault f end
   | _ => Fault OutOfFuel end) = Fault NullDeref.
Proof. vm_compute. reflexivity. Qed.
