(* ===== verification/Handshake.v ===== *)
(** * The handshake: client and server

    The two ends of a connection together: the request the client sends
    ([Connect]) is what the server negotiates over ([ServerModel]), and the answer of
    the server ([ServerCm]) is what the client takes its limits from. *)

From S2P Require Import Prelude State Utils Protocol Wire Memory KvModel KvInv KvStart KvKeys ServerModel ServerSafe ServerSystem Examples ServerProps ServerCm.
From S2P Require Import Client ClientProps Connect ConnectProps ConnectSystem.

(** The connection manager carries 56 bytes with a request, and fills up with
    zeros. *)
Definition carried (data : list Z) : list Z := data ++ replicate (Z.to_nat CM_REQ_LEN - length data) 0.

Lemma get_be_app n data rest off : 0 <= off → off + Z.of_nat n <= Z.of_nat (length data) →
  get_be n (data ++ rest) off = get_be n data off.
Proof.
  intros Ho Hl. unfold get_be, get_bytes. rewrite !(proj2 (Z.leb_le _ _)) by (rewrite ?length_app; lia). simpl. do 2 f_equal.
  unfold slice. rewrite drop_app_le, take_app_le by (rewrite ?length_drop; lia). done.
Qed.

(** What the client sends asks for as much as there is, and for 128 requests in
    flight. *)
Definition client_asks : priskv_rdma_conn_cap := mk_cap 0 0 PRISKV_RDMA_DEFAULT_INFLIGHT_COMMAND.

Lemma carried_asks data : cm_req (cn_param new_conn) = Ok data → asks (carried data) client_asks ∧ bytes (carried data).
Proof.
  intros Hreq. assert (data = [0; 1; 0; 0; 0; 0; 0; 128] ++ replicate 24 0) as ->.
  { assert (cm_req (cn_param new_conn) = Ok ([0; 1; 0; 0; 0; 0; 0; 128] ++ replicate 24 0)) as H by (vm_compute; reflexivity).
    rewrite Hreq in H. by injection H. }
  split; [by repeat split|]. by apply (bool_decide_unpack _).
Qed.

(** The answer of the server holds the limits of its end. *)
Lemma resp_ok kv cap : cap_range cap → max_sgl cap < 2 ^ 16 → cap_max_key_length cap < 2 ^ 16 → max_inflight_command cap < 2 ^ 16 →
  ∃ rep, priskv_rdma_resp kv cap = Ok rep ∧ Z.of_nat (length rep) = sizeof_cm_rep ∧ get_be 2 rep 2 = Ok (max_sgl cap) ∧
    get_be 2 rep 4 = Ok (cap_max_key_length cap) ∧ get_be 2 rep 6 = Ok (max_inflight_command cap) ∧ get_be 8 rep 8 = Ok (capacity kv).
Proof.
  intros (H1 & H2 & H3) L1 L2 L3. unfold priskv_rdma_resp.
  destruct (put_fields_ok [(0, 2%nat, ServerModel.PRISKV_RDMA_CM_VERSION); (2, 2%nat, max_sgl cap); (4, 2%nat, cap_max_key_length cap);
    (6, 2%nat, max_inflight_command cap); (8, 8%nat, capacity kv)] 0 (replicate 32 0)) as (out & -> & Hl & Hf & _); [lia| |].
  { assert (0 <= capacity kv < 2 ^ 64) as Hcap by (unfold capacity, u64; apply Z.mod_pos_bound; lia).
    rewrite length_replicate. simpl. split_and!; field_tac. }
  exists out. split; [done|]. split; [by rewrite Hl|]. rewrite !Forall_cons in Hf. destruct Hf as (_ & F2 & F3 & F4 & F5 & _).
  by split_and!.
Qed.

(** (C12) The two ends agree. A client that asks to connect and is accepted by the
    server takes over the limits that the server's end of the connection has: the
    listener's scatter lists and key lengths, 128 requests in flight, and the
    capacity of the store. Then a request of the client fits into the buffers that
    the server has posted, of which there are at least as many as the client has
    slots, and the connection of the client starts the life of requests. *)
Theorem handshake_agrees regcomp nic_ok alloc_ok clock backend_now listener s c data acl_refuse conn s' sc :
  server_reachable regcomp nic_ok alloc_ok clock backend_now listener s →
  connecting c → ServerSystem.event_ok alloc_ok listener s (EvConnect acl_refuse (carried (cn_sent c))) →
  priskv_rdma_handle_connect_request nic_ok alloc_ok listener acl_refuse (carried (cn_sent c)) s = Ok ((conn, Accepted), s') →
  sv_conns s' !! conn = Some sc → priskv_rdma_resp (sv_kv s') (conn_cap sc) = Ok data →
  ∀ ok resizable page_bits c', replied ok resizable data c' → ready page_bits c' →
    p_max_sgl (cn_param c') = max_sgl listener ∧ p_max_key_length (cn_param c') = cap_max_key_length listener ∧
    p_max_inflight_command (cn_param c') = 128 ∧ cn_capacity c' = capacity (sv_kv s') ∧
    conn_cap sc = mk_cap (max_sgl listener) (cap_max_key_length listener) 128 ∧
    priskv_request_size_aligend (p_max_sgl (cn_param c')) (p_max_key_length (cn_param c')) = ServerModel.priskv_request_size_aligend (conn_cap sc) ∧
    p_max_inflight_command (cn_param c') <= Z.of_nat (length (c_recvs sc)) ∧
    ∀ tick nic_ok alloc_ok reg_ok stamp rkey, client_reachable nic_ok alloc_ok reg_ok stamp rkey (Connect.page_size page_bits) (requests_of c' tick) ∅.
Proof.
  intros Hsr ((_ & _ & Hp & _) & _ & _ & Hreq) (Hd & Ha & Hl) Hrun Hsc Hresp ok resizable page_bits c' Hrep Hready.
  rewrite Hp in Hreq. destruct (carried_asks _ Hreq) as [Hasks _]. destruct (server_reachable_inv _ _ _ _ _ _ _ Hsr) as [pins Hi].
  destruct (safe_connect_request nic_ok alloc_ok s pins listener acl_refuse _ Hi Hl Hd Ha) as ([conn1 r] & s1 & Heq & Hi1 & Hconn & _ & c1 & Hc1 & Hrok & _).
  rewrite Hrun in Heq. injection Heq as <- <- <-. simpl in Hc1, Hrok. assert (c1 = sc) as -> by congruence.
  destruct Hrok as (_ & cap0 & Hasks0 & Hle & Hrdy).
  assert (cap0 = client_asks) as ->.
  { destruct Hasks as (_ & _ & A1 & A2 & A3), Hasks0 as (_ & _ & B1 & B2 & B3). destruct cap0. simpl in *. unfold client_asks. congruence. }
  destruct Hrdy as (Hcap & _ & _ & _ & Hrecvs & _). pose proof (si_safekey _ _ _ Hi) as Hsafe. unfold SAFEKEY in Hsafe.
  change (mk_cap _ _ _) with (mk_cap (max_sgl listener) (cap_max_key_length listener) 128) in Hcap, Hrecvs.
  set (cap := mk_cap (max_sgl listener) (cap_max_key_length listener) 128) in *.
  pose proof Hl as (L1 & L2 & L3). unfold PRISKV_RDMA_MAX_SGL in L1. destruct Hle as (_ & _ & E3). change (128 <= max_inflight_command listener) in E3.
  assert (cap_range cap) as Hcr by (unfold cap_range, cap; simpl; lia).
  destruct (resp_ok (sv_kv s') cap) as (rep & Hrep' & _ & R2 & R4 & R6 & R8); [done|simpl; lia..|].
  rewrite Hcap, Hrep' in Hresp. injection Hresp as ->. destruct Hrep as (_ & Q2 & Q4 & Q8 & server & Q6 & Hneg).
  rewrite R2 in Q2. rewrite R4 in Q4. rewrite R6 in Q6. rewrite R8 in Q8. injection Q2 as Q2. injection Q4 as Q4. injection Q6 as Q6. injection Q8 as Q8.
  assert (p_max_inflight_command (cn_param c') = 128) as Hmi.
  { change (128 = server) in Q6. subst server. unfold negotiated, PRISKV_RDMA_DEFAULT_INFLIGHT_COMMAND in Hneg.
    destruct Hneg as [[_ ?]|[[_ ?]|[[_ ?]|[_ ?]]]]; lia. }
  destruct (wr_size_bound (max_key_length (sv_kv s)) listener cap) as [Hws _]; [done|done|unfold cap_le, cap; simpl; lia|].
  rewrite Hmi, <- Q2, <- Q4, <- Q8, Hcap. split_and!; [done..| |].
  - rewrite Hrecvs, length_fmap, length_seqZ, Hws. unfold cap. simpl. lia.
  - intros. eapply ready_starts; [exact Hready|]. unfold request_fits, sizeof_priskv_request, sizeof_priskv_keyed_sgl. rewrite <- Q2, <- Q4.
    unfold cap. simpl. lia.
Qed.

(** ** A client and a server *)

(** A listener that allows 128 requests in flight. *)
Definition wide_listener : priskv_rdma_conn_cap := mk_cap (max_sgl ex_listener) (cap_max_key_length ex_listener) 128.

(** A server that allows fewer than 128 requests in flight refuses every client: a
    client asks for 128, and takes what the server has only after it was
    accepted. *)
Lemma small_server_rejects data listener :
  cm_req (cn_param new_conn) = Ok data → 0 <= max_sgl listener → 0 <= cap_max_key_length listener → max_inflight_command listener < 128 →
  ∀ conn nic_ok alloc_ok s, connect_steps nic_ok alloc_ok listener false (carried data) conn s
    = Ok (Rejected PRISKV_RDMA_CM_REJ_STATUS_INVALID_INFLIGHT_COMMAND (max_inflight_command listener), s).
Proof.
  intros Hreq H1 H2 H3 conn nic_ok alloc_ok s. destruct (carried_asks data Hreq) as [(A0 & A1 & A2 & A3 & A4) _].
  unfold connect_steps, mbind, ST_bind, lift. rewrite A0, Z.eqb_refl, A1, A2, A3, A4. unfold priskv_rdma_verify_conn_cap. simpl.
  by rewrite (proj2 (Z.ltb_lt _ _)) by done.
Qed.

Definition ex_req : list Z := [0; 1; 0; 0; 0; 0; 0; 128] ++ replicate 24 0.
Definition ex_asking : priskv_rdma_conn := set_sent ex_req (set_qp (Some 9) 128 new_conn).
Definition ex_accept : res (Z * connect_reply * server) :=
  priskv_rdma_handle_connect_request yes yes wide_listener false (carried ex_req) exs0.

(** The answer: 2 scatter elements, keys of 16 bytes, 128 requests, 16 KiB. *)
Definition ex_answer : list Z := [0; 1; 0; 2; 0; 16; 0; 128; 0; 0; 0; 0; 0; 0; 64; 0] ++ replicate 16 0.

Lemma ex_accepted :
  (match ex_accept with
   | Ok ((conn, Accepted), s') =>
       match sv_conns s' !! conn with Some sc => (conn =? 1) && bool_decide (priskv_rdma_resp (sv_kv s') (conn_cap sc) = Ok ex_answer) | None => false end
   | _ => false end) = true.
Proof. vm_compute. reflexivity. Qed.

Lemma ex_asking_connecting : connecting ex_asking.
Proof. split; [split; [by intros [|[|[|]]]|]; by repeat split|]. split; [by exists 9|]. split; [done|]. vm_compute. reflexivity. Defined.

Lemma ex_wide_ok : ServerSystem.event_ok yes wide_listener exs0 (EvConnect false (carried (cn_sent ex_asking))).
Proof. split; [by apply (bool_decide_unpack _)|]. by repeat split. Defined.

(** The client that hears this answer. *)
Definition ex_hears : list wakeup :=
  [Woken [EvAddrResolved; EvRouteResolved] true; Woken [EvConnectResponse ex_answer] true].
Definition ex_answered : res (option Z * world) := priskv_conn_connect all_ok (λ _, 12%positive) true 12 false ex_hears ex_world.

Lemma ex_client_answered : ∃ c, replied all_ok true ex_answer c ∧ ready 12 c.
Proof.
  destruct (safe_conn_connect all_ok (λ _, 12%positive) true 12 ltac:(lia) false ex_hears ex_world ex_world_ok) as (r & w' & Heq & Hr).
  { repeat (apply Forall_cons; split; [done|]). apply Forall_cons. split; [|by apply Forall_nil]. by apply (bool_decide_unpack _). }
  assert ((match ex_answered with Ok (Some _, _) => true | _ => false end) = true) as Hs by (vm_compute; reflexivity).
  unfold ex_answered in Hs. rewrite Heq in Hs. destruct r as [conn|]; [|discriminate]. destruct Hr as (_ & c & data & _ & _ & _ & Hre & Hin & Hrep).
  apply list_elem_of_singleton in Hin as ->. exists c. split; [exact Hrep|exact Hre].
Defined.

Lemma handshake_agrees_witness : ∃ s' sc c,
  ex_accept = Ok ((1, Accepted), s') ∧ sv_conns s' !! 1 = Some sc ∧ conn_cap sc = mk_cap 2 16 128 ∧ cn_param c = mk_param 2 16 128.
Proof.
  pose proof ex_accepted as Hex. destruct ex_accept as [[[conn reply] s']|] eqn:Hacc; [|discriminate].
  destruct reply; [|discriminate..]. destruct (sv_conns s' !! conn) as [sc|] eqn:Hsc; [|discriminate].
  apply andb_true_iff in Hex as [->%Z.eqb_eq Hex%bool_decide_eq_true].
  destruct ex_client_answered as (c & Hrep & Hready).
  destruct (handshake_agrees no_regex yes yes noon no_backend wide_listener exs0 ex_asking ex_answer false 1 s' sc) with
    (ok := all_ok) (resizable := true) (page_bits := 12) (c' := c) as (H1 & H2 & H3 & _ & H4 & _);
    [eapply sr_start; [apply ex_start_ok|done|done|apply ex0_new]|exact ex_asking_connecting|exact ex_wide_ok|exact Hacc|exact Hsc|exact Hex
    |exact Hrep|exact Hready|].
  exists s', sc, c. split; [reflexivity|]. split; [exact Hsc|]. split; [exact H4|]. destruct (cn_param c). simpl in *. congruence.
Defined.
