(* ===== verification/Start.v ===== *)
(** * The server: from the command line to its listeners

    [server/server.c] reads the options, creates the store and starts the threads,
    the expire timer and the listeners; [server/rdma.c] opens a listener for each
    address and registers the memory of the values with it.

    The options are given as [getopt_long] returns them, with their arguments.
    What the listeners hold is in the world of [Connect]: everything acquired is
    live until it is released, and the libraries may fail at any call. *)

From S2P Require Import Prelude State Utils CString Protocol Acl Wire Memory MemFile Slab Buddy KvModel KvStart ServerModel.
From S2P Require Import Threads Connect.

(** ** Options *)

Inductive priskv_log_level :=
  | priskv_log_error
  | priskv_log_warn
  | priskv_log_notice
  | priskv_log_info
  | priskv_log_debug.

Record priskv_http_config := mk_http {
  http_addr : option (list Z);
  http_port : Z; (* int *)
  http_cert : option (list Z);
  http_key : option (list Z);
  http_ca : option (list Z);
  http_verify_client : list Z
}.

Definition PRISKV_RDMA_MAX_BIND_ADDR : Z := 32.
Definition PRISKV_RDMA_DEFAULT_PORT : Z := Z.lor (Z.shiftl 72 8) 80.
Definition PRISKV_HTTP_DEFAULT_PORT : Z := Z.lor (Z.shiftl 72 8) 80.
Definition PRISKV_RDMA_DEFAULT_SGL : Z := 4.
Definition PRISKV_RDMA_MAX_KEY : Z := Z.shiftl 1 30.
Definition PRISKV_RDMA_DEFAULT_KEY : Z := 16 * 1024.
Definition PRISKV_RDMA_MAX_KEY_LENGTH : Z := 1024.
Definition PRISKV_RDMA_DEFAULT_KEY_LENGTH : Z := 128.
Definition PRISKV_RDMA_MAX_VALUE_BLOCK_SIZE : Z := Z.shiftl 1 20.
Definition PRISKV_RDMA_DEFAULT_VALUE_BLOCK_SIZE : Z := 4096.
Definition PRISKV_RDMA_MAX_VALUE_BLOCK : Z := Z.shiftl 1 30.
Definition PRISKV_RDMA_DEFAULT_VALUE_BLOCK : Z := 1024 * 1024.
Definition SLOW_QUERY_THRESHOLD_LATENCY_US : Z := 1000000.
Definition PRISKV_THREAD_BUSY_POLL : Z := Z.shiftl 1 0.
Definition UINT32_MAX : Z := 2 ^ 32 - 1.

(** The variables the options are stored in, and [errno]. [naddr] is the length of
    [o_addresses]; a backend is enabled with its address. *)
Record options := mk_options {
  o_addresses : list (list Z);
  o_port : Z; (* int *)
  o_max_key : Z; (* uint32_t *)
  o_value_block_size : Z; (* uint32_t *)
  o_value_block : Z; (* uint64_t *)
  o_threads : Z; (* uint8_t *)
  o_thread_flags : Z;
  o_expire_interval : Z; (* uint32_t *)
  o_memfile : option (list Z);
  o_log_level : priskv_log_level;
  o_log_file : option (list Z);
  o_conn_cap : priskv_rdma_conn_cap;
  o_http : priskv_http_config;
  o_backend : option (list Z);
  o_slow_query : Z; (* uint32_t *)
  o_acl : list priskv_acl;
  o_errno : Z
}.

(** [off]. *)
Definition default_http : priskv_http_config := mk_http None PRISKV_HTTP_DEFAULT_PORT None None None [111; 102; 102].

Definition default_options (errno : Z) : options :=
  mk_options [] PRISKV_RDMA_DEFAULT_PORT PRISKV_RDMA_DEFAULT_KEY PRISKV_RDMA_DEFAULT_VALUE_BLOCK_SIZE
    PRISKV_RDMA_DEFAULT_VALUE_BLOCK 1 0 PRISKV_KV_DEFAULT_EXPIRE_ROUTINE_INTERVAL None priskv_log_notice None
    (mk_cap PRISKV_RDMA_DEFAULT_SGL PRISKV_RDMA_DEFAULT_KEY_LENGTH PRISKV_RDMA_DEFAULT_INFLIGHT_COMMAND)
    default_http None SLOW_QUERY_THRESHOLD_LATENCY_US [] errno.

(** Assignments. *)
Definition set_addresses x (o : options) : options :=
  mk_options x (o_port o) (o_max_key o) (o_value_block_size o) (o_value_block o) (o_threads o) (o_thread_flags o)
    (o_expire_interval o) (o_memfile o) (o_log_level o) (o_log_file o) (o_conn_cap o) (o_http o) (o_backend o)
    (o_slow_query o) (o_acl o) (o_errno o).
Definition set_port x (o : options) : options :=
  mk_options (o_addresses o) x (o_max_key o) (o_value_block_size o) (o_value_block o) (o_threads o) (o_thread_flags o)
    (o_expire_interval o) (o_memfile o) (o_log_level o) (o_log_file o) (o_conn_cap o) (o_http o) (o_backend o)
    (o_slow_query o) (o_acl o) (o_errno o).
Definition set_max_key x (o : options) : options :=
  mk_options (o_addresses o) (o_port o) x (o_value_block_size o) (o_value_block o) (o_threads o) (o_thread_flags o)
    (o_expire_interval o) (o_memfile o) (o_log_level o) (o_log_file o) (o_conn_cap o) (o_http o) (o_backend o)
    (o_slow_query o) (o_acl o) (o_errno o).
Definition set_value_block_size x (o : options) : options :=
  mk_options (o_addresses o) (o_port o) (o_max_key o) x (o_value_block o) (o_threads o) (o_thread_flags o)
    (o_expire_interval o) (o_memfile o) (o_log_level o) (o_log_file o) (o_conn_cap o) (o_http o) (o_backend o)
    (o_slow_query o) (o_acl o) (o_errno o).
Definition set_value_block x (o : options) : options :=
  mk_options (o_addresses o) (o_port o) (o_max_key o) (o_value_block_size o) x (o_threads o) (o_thread_flags o)
    (o_expire_interval o) (o_memfile o) (o_log_level o) (o_log_file o) (o_conn_cap o) (o_http o) (o_backend o)
    (o_slow_query o) (o_acl o) (o_errno o).
Definition set_threads x (o : options) : options :=
  mk_options (o_addresses o) (o_port o) (o_max_key o) (o_value_block_size o) (o_value_block o) x (o_thread_flags o)
    (o_expire_interval o) (o_memfile o) (o_log_level o) (o_log_file o) (o_conn_cap o) (o_http o) (o_backend o)
    (o_slow_query o) (o_acl o) (o_errno o).
Definition set_thread_flags x (o : options) : options :=
  mk_options (o_addresses o) (o_port o) (o_max_key o) (o_value_block_size o) (o_value_block o) (o_threads o) x
    (o_expire_interval o) (o_memfile o) (o_log_level o) (o_log_file o) (o_conn_cap o) (o_http o) (o_backend o)
    (o_slow_query o) (o_acl o) (o_errno o).
Definition set_expire_interval x (o : options) : options :=
  mk_options (o_addresses o) (o_port o) (o_max_key o) (o_value_block_size o) (o_value_block o) (o_threads o)
    (o_thread_flags o) x (o_memfile o) (o_log_level o) (o_log_file o) (o_conn_cap o) (o_http o) (o_backend o)
    (o_slow_query o) (o_acl o) (o_errno o).
Definition set_memfile x (o : options) : options :=
  mk_options (o_addresses o) (o_port o) (o_max_key o) (o_value_block_size o) (o_value_block o) (o_threads o)
    (o_thread_flags o) (o_expire_interval o) x (o_log_level o) (o_log_file o) (o_conn_cap o) (o_http o) (o_backend o)
    (o_slow_query o) (o_acl o) (o_errno o).
Definition set_log_level x (o : options) : options :=
  mk_options (o_addresses o) (o_port o) (o_max_key o) (o_value_block_size o) (o_value_block o) (o_threads o)
    (o_thread_flags o) (o_expire_interval o) (o_memfile o) x (o_log_file o) (o_conn_cap o) (o_http o) (o_backend o)
    (o_slow_query o) (o_acl o) (o_errno o).
Definition set_log_file x (o : options) : options :=
  mk_options (o_addresses o) (o_port o) (o_max_key o) (o_value_block_size o) (o_value_block o) (o_threads o)
    (o_thread_flags o) (o_expire_interval o) (o_memfile o) (o_log_level o) x (o_conn_cap o) (o_http o) (o_backend o)
    (o_slow_query o) (o_acl o) (o_errno o).
Definition set_conn_cap x (o : options) : options :=
  mk_options (o_addresses o) (o_port o) (o_max_key o) (o_value_block_size o) (o_value_block o) (o_threads o)
    (o_thread_flags o) (o_expire_interval o) (o_memfile o) (o_log_level o) (o_log_file o) x (o_http o) (o_backend o)
    (o_slow_query o) (o_acl o) (o_errno o).
Definition set_http x (o : options) : options :=
  mk_options (o_addresses o) (o_port o) (o_max_key o) (o_value_block_size o) (o_value_block o) (o_threads o)
    (o_thread_flags o) (o_expire_interval o) (o_memfile o) (o_log_level o) (o_log_file o) (o_conn_cap o) x (o_backend
    o) (o_slow_query o) (o_acl o) (o_errno o).
Definition set_backend x (o : options) : options :=
  mk_options (o_addresses o) (o_port o) (o_max_key o) (o_value_block_size o) (o_value_block o) (o_threads o)
    (o_thread_flags o) (o_expire_interval o) (o_memfile o) (o_log_level o) (o_log_file o) (o_conn_cap o) (o_http o) x
    (o_slow_query o) (o_acl o) (o_errno o).
Definition set_slow_query x (o : options) : options :=
  mk_options (o_addresses o) (o_port o) (o_max_key o) (o_value_block_size o) (o_value_block o) (o_threads o)
    (o_thread_flags o) (o_expire_interval o) (o_memfile o) (o_log_level o) (o_log_file o) (o_conn_cap o) (o_http o)
    (o_backend o) x (o_acl o) (o_errno o).
Definition set_acl x (o : options) : options :=
  mk_options (o_addresses o) (o_port o) (o_max_key o) (o_value_block_size o) (o_value_block o) (o_threads o)
    (o_thread_flags o) (o_expire_interval o) (o_memfile o) (o_log_level o) (o_log_file o) (o_conn_cap o) (o_http o)
    (o_backend o) (o_slow_query o) x (o_errno o).
Definition set_errno x (o : options) : options :=
  mk_options (o_addresses o) (o_port o) (o_max_key o) (o_value_block_size o) (o_value_block o) (o_threads o)
    (o_thread_flags o) (o_expire_interval o) (o_memfile o) (o_log_level o) (o_log_file o) (o_conn_cap o) (o_http o)
    (o_backend o) (o_slow_query o) (o_acl o) x.

(** The options, by what they set; [OptHelp] is [h] and every value that is no
    option. *)
Inductive server_opt :=
  | OptAddr | OptPort | OptHttpAddr | OptHttpPort | OptHttpCert | OptHttpKey | OptHttpCa | OptHttpVerifyClient
  | OptAcl | OptBackend | OptFile | OptMaxInflightCommand | OptMaxSgls | OptMaxKeys | OptMaxKeyLength
  | OptValueBlockSize | OptValueBlocks | OptThreads | OptExpireRoutineInterval | OptBusy | OptLogLevel | OptLogFile
  | OptSlowQuery | OptHelp.

Definition u8 (z : Z) : Z := z mod 2 ^ 8.

(** [error], [warn], [notice], [info], [debug]. *)
Definition log_level_of (s : list Z) : option priskv_log_level :=
  if bool_decide (s = [101; 114; 114; 111; 114]) then Some priskv_log_error
  else if bool_decide (s = [119; 97; 114; 110]) then Some priskv_log_warn
  else if bool_decide (s = [110; 111; 116; 105; 99; 101]) then Some priskv_log_notice
  else if bool_decide (s = [105; 110; 102; 111]) then Some priskv_log_info
  else if bool_decide (s = [100; 101; 98; 117; 103]) then Some priskv_log_debug
  else None.

(** [atoi] and [atoll] leave [ERANGE] in [errno] when the number is out of range. *)
Definition after_number (s : list Z) (o : options) : options := set_errno (if (strtoll s).1.2 then ERANGE else o_errno o) o.

Section parse.
(** What [rdma_getaddrinfo] answers, for the rules of the access list. *)
Context (getaddrinfo : list Z → gai).

(** One option. [None]: the help was printed and the process has ended. *)
Definition parse_one (o : options) (ch : server_opt) (optarg : list Z) : res (option options) :=
  match ch with
  | OptAddr =>
      if Z.of_nat (length (o_addresses o)) <? PRISKV_RDMA_MAX_BIND_ADDR
      then Ok (Some (set_addresses (o_addresses o ++ [optarg]) o))
      else Fault OutOfBounds
  | OptPort =>
      if negb (o_port o =? PRISKV_RDMA_DEFAULT_PORT) then Ok None else
      let port := atoi optarg in
      if (port =? 0) || (65535 <? port) then Ok None else Ok (Some (set_port port (after_number optarg o)))
  | OptHttpAddr =>
      let h := o_http o in
      Ok (Some (set_http (mk_http (Some optarg) (http_port h) (http_cert h) (http_key h) (http_ca h) (http_verify_client h)) o))
  | OptHttpPort =>
      let h := o_http o in
      let port := atoi optarg in
      if (port =? 0) || (65535 <? port) then Ok None else
      Ok (Some (set_http (mk_http (http_addr h) port (http_cert h) (http_key h) (http_ca h) (http_verify_client h)) (after_number optarg o)))
  | OptFile => Ok (Some (set_memfile (Some optarg) o))
  | OptMaxInflightCommand =>
      let c := o_conn_cap o in
      let n := u16 (atoi optarg) in
      if (n =? 0) || (PRISKV_RDMA_MAX_INFLIGHT_COMMAND <? n) then Ok None else
      Ok (Some (set_conn_cap (mk_cap (max_sgl c) (cap_max_key_length c) n) (after_number optarg o)))
  | OptMaxSgls =>
      let c := o_conn_cap o in
      let n := u16 (atoi optarg) in
      if (n =? 0) || (PRISKV_RDMA_MAX_SGL <? n) then Ok None else
      Ok (Some (set_conn_cap (mk_cap n (cap_max_key_length c) (max_inflight_command c)) (after_number optarg o)))
  | OptMaxKeys =>
      let n := u32 (atoi optarg) in
      if PRISKV_RDMA_MAX_KEY <? n then Ok None else Ok (Some (set_max_key n (after_number optarg o)))
  | OptMaxKeyLength =>
      let c := o_conn_cap o in
      let '(num, errno) := priskv_str2num (o_errno o) optarg in
      match num with
      | None => Ok None
      | Some n =>
          if (n =? 0) || (PRISKV_RDMA_MAX_KEY_LENGTH <? n) then Ok None else
          Ok (Some (set_conn_cap (mk_cap (max_sgl c) (u16 n) (max_inflight_command c)) (set_errno errno o)))
      end
  | OptValueBlockSize =>
      let '(num, errno) := priskv_str2num (o_errno o) optarg in
      match num with
      | None => Ok None
      | Some n =>
          if (n =? 0) || (PRISKV_RDMA_MAX_VALUE_BLOCK_SIZE <? n) then Ok None else
          Ok (Some (set_value_block_size (u32 n) (set_errno errno o)))
      end
  | OptValueBlocks =>
      let n := u64 (strtoll optarg).1.1 in
      if (n =? 0) || (PRISKV_RDMA_MAX_VALUE_BLOCK <? n) then Ok None else
      if negb (IS_POWER_OF_2 n) then Ok None else Ok (Some (set_value_block n (after_number optarg o)))
  | OptThreads => Ok (Some (set_threads (u8 (atoi optarg)) (after_number optarg o)))
  | OptExpireRoutineInterval => Ok (Some (set_expire_interval (u32 (atoi optarg)) (after_number optarg o)))
  | OptBusy => Ok (Some (set_thread_flags (Z.lor (o_thread_flags o) PRISKV_THREAD_BUSY_POLL) o))
  | OptLogLevel =>
      match log_level_of optarg with None => Ok None | Some level => Ok (Some (set_log_level level o)) end
  | OptLogFile => Ok (Some (set_log_file (Some optarg) o))
  | OptSlowQuery =>
      let '(num, errno) := priskv_str2num (o_errno o) optarg in
      match num with
      | None => Ok None
      | Some n =>
          if (n <=? 0) || (UINT32_MAX / 2 <? n) then Ok None else Ok (Some (set_slow_query (u32 n) (set_errno errno o)))
      end
  | OptHttpCert =>
      let h := o_http o in
      Ok (Some (set_http (mk_http (http_addr h) (http_port h) (Some optarg) (http_key h) (http_ca h) (http_verify_client h)) o))
  | OptHttpKey =>
      let h := o_http o in
      Ok (Some (set_http (mk_http (http_addr h) (http_port h) (http_cert h) (Some optarg) (http_ca h) (http_verify_client h)) o))
  | OptHttpCa =>
      let h := o_http o in
      Ok (Some (set_http (mk_http (http_addr h) (http_port h) (http_cert h) (http_key h) (Some optarg) (http_verify_client h)) o))
  | OptHttpVerifyClient =>
      let h := o_http o in
      Ok (Some (set_http (mk_http (http_addr h) (http_port h) (http_cert h) (http_key h) (http_ca h) optarg) o))
  | OptAcl =>
      let '(ret, acl) := priskv_acl_add getaddrinfo (o_acl o) optarg in
      if negb (ret =? 0) then Ok None else Ok (Some (set_acl acl o))
  | OptBackend => Ok (Some (set_backend (Some optarg) o))
  | OptHelp => Ok None
  end.

Fixpoint priskv_parsr_arg (args : list (server_opt * list Z)) (o : options) : res (option options) :=
  match args with
  | [] => Ok (Some o)
  | (ch, optarg) :: args =>
      r ← parse_one o ch optarg;
      match r with None => Ok None | Some o => priskv_parsr_arg args o end
  end.
End parse.

(** ** The store *)

Section create_kv.
(** The files and what the system calls on them do, as in [MemFile]; the nodes in
    the key area of a file that is mapped at an address. *)
Context (mount : list Z → Z + list Z * list Z) (getpagesize : Z) (open_errno mmap_errno : list Z → Z).
Context (files : gmap (list Z) (list Z)) (key_nodes : list Z → Z → gmap Z priskv_key).

(** The words the buddy allocator keeps after the value blocks, in what is mapped. *)
Fixpoint words (n : nat) (content : list Z) (off : Z) : res (list Z) :=
  match n with
  | O => Ok []
  | S n => v ← get_le 4 content off; l ← words n content (off + 4); Ok (v :: l)
  end.
Definition buddy_words (content : list Z) (off blocks block_size : Z) : res (list Z) :=
  words (Z.to_nat (2 * blocks)) content (off + blocks * block_size).

(** [file_addr], [mmap_key], [mmap_value]: where [mmap] puts the file or the two
    areas. *)
Definition priskv_server_create_kv (o : options) (file_addr : Z) (mmap_key mmap_value : option Z) : res (option kv_state) :=
  match o_memfile o with
  | Some path =>
      '(mf_ctx, _) ← priskv_mem_load mount getpagesize open_errno mmap_errno files path file_addr;
      match mf_ctx with
      | None => Ok None
      | Some m =>
          let file := mapped (priskv_mem_file_page_size mount getpagesize path) (default [] (files !! path)) in
          hdr ← read_header file;
          raw ← buddy_words file (priskv_mem_value_addr m - file_addr) (h_value_blocks hdr) (h_value_block_size hdr);
          kv ← priskv_new_kv raw (key_nodes file (priskv_mem_key_addr m)) (priskv_mem_key_addr m) (priskv_mem_value_addr m)
                 (h_max_keys hdr) (h_max_key_length hdr) (h_value_block_size hdr) (h_value_blocks hdr);
          '(recovered, kv) ← priskv_recover kv;
          if recovered : bool then Ok (Some kv) else Ok None
      end
  | None =>
      '(m, keys, values) ← priskv_mem_anon getpagesize mmap_key mmap_value (cap_max_key_length (o_conn_cap o)) (o_max_key o)
                             (o_value_block_size o) (o_value_block o) (o_threads o);
      raw ← buddy_words values 0 (o_value_block o) (o_value_block_size o);
      kv ← priskv_new_kv raw ∅ (priskv_mem_key_addr m) (priskv_mem_value_addr m) (o_max_key o)
             (cap_max_key_length (o_conn_cap o)) (o_value_block_size o) (o_value_block o);
      Ok (Some kv)
  end.
End create_kv.

(** ** Listeners *)

Record rdma_listener := mk_listener {
  ls_cm_id : Z;
  ls_channel : Z;
  ls_value_base : Z;
  ls_value_mr : Z;
  ls_conn_cap : priskv_rdma_conn_cap;
  ls_nclients : Z
}.

(** [gs_watched]: the descriptors in the epoll set; [gs_timer]: the expire timer and
    its seconds, if it is armed. *)
Record rdma_server := mk_gserver {
  gs_world : world;
  gs_epollfd : Z;
  gs_listeners : list rdma_listener;
  gs_watched : list Z;
  gs_timer : option (Z * Z)
}.

Notation GS := (ST rdma_server).

Definition net {A} (m : CW A) : GS A := λ s,
  match m (gs_world s) with
  | Ok (a, w) => Ok (a, mk_gserver w (gs_epollfd s) (gs_listeners s) (gs_watched s) (gs_timer s))
  | Fault e => Fault e
  end.

Section listen.
(** As in [Connect]; does an address stand for every device: the identifier is then
    bound to none and has no protection domain. *)
Context (ok : call → Z → bool) (errno : Z → positive) (any_device : list Z → bool).

Definition listen_error (cm_id channel : option Z) (servinfo ret : Z) : CW (Z + rdma_listener) :=
  _ ← release_opt cm_id;
  _ ← release_opt channel;
  _ ← release servinfo;
  mret (inl ret).

Definition listen_id (addr : list Z) (value_base size : Z) (cap : priskv_rdma_conn_cap) (servinfo channel cm_id : Z) :
    CW (Z + rdma_listener) :=
  '(bound, e) ← try ok errno CBindAddr;
  if negb bound then listen_error (Some cm_id) (Some channel) servinfo (- e) else
  '(listening, e) ← try ok errno CListen;
  if negb listening then listen_error (Some cm_id) (Some channel) servinfo (- e) else
  if value_base =? 0 then lift (Fault AssertFailed) else
  if size =? 0 then lift (Fault AssertFailed) else
  if any_device addr then lift (Fault NullDeref) else
  value_mr ← acquire ok CRegMr (Mr cm_id None size true);
  match value_mr with
  | None => e ← errno_of errno; listen_error (Some cm_id) (Some channel) servinfo (- e)
  | Some value_mr => _ ← release servinfo; mret (inr (mk_listener cm_id channel value_base value_mr cap 0))
  end.

(** The listener, or the error. *)
Definition priskv_rdma_listen_one (addr : list Z) (value_base size : Z) (cap : priskv_rdma_conn_cap) : CW (Z + rdma_listener) :=
  '(answered, e) ← try ok errno CGetAddrInfo;
  if negb answered then mret (inl e) else
  servinfo ← acquire ok CResolved AddrInfo;
  match servinfo with
  | None => mret (inl (- EINVAL))
  | Some servinfo =>
      channel ← acquire ok CCreateEventChannel EventChannel;
      match channel with
      | None => e ← errno_of errno; listen_error None None servinfo (- e)
      | Some channel =>
          '(nonblock, _) ← try ok errno CSetNonblock;
          if negb nonblock then listen_error None (Some channel) servinfo (-1) else
          cm_id ← acquire ok CCreateId (CmId channel);
          match cm_id with
          | None => e ← errno_of errno; listen_error None (Some channel) servinfo (- e)
          | Some cm_id => listen_id addr value_base size cap servinfo channel cm_id
          end
      end
  end.

Definition add_listener (l : rdma_listener) : GS unit := λ s,
  if Z.of_nat (length (gs_listeners s)) <? PRISKV_RDMA_MAX_BIND_ADDR
  then Ok (tt, mk_gserver (gs_world s) (gs_epollfd s) (gs_listeners s ++ [l]) (gs_watched s) (gs_timer s))
  else Fault OutOfBounds.

Fixpoint listen_all (addrs : list (list Z)) (value_base size : Z) (cap : priskv_rdma_conn_cap) : GS Z :=
  match addrs with
  | [] => mret 0
  | addr :: addrs =>
      r ← net (priskv_rdma_listen_one addr value_base size cap);
      match r with
      | inl ret => mret ret
      | inr l => _ ← add_listener l; listen_all addrs value_base size cap
      end
  end.

(** The handlers of the listeners, by their index. *)
Fixpoint watch_all (epollfd i : Z) (ls : list rdma_listener) : GS Z :=
  match ls with
  | [] => mret 0
  | l :: ls =>
      _ ← net (priskv_set_fd_handler (ls_channel l) i);
      '(added, _) ← net (try ok errno CEpollCtl);
      if negb added then mret (-1) else
      _ ← modify (λ s, mk_gserver (gs_world s) (gs_epollfd s) (gs_listeners s) (gs_watched s ++ [ls_channel l]) (gs_timer s));
      watch_all epollfd (i + 1) ls
  end.

(** [epoll_create] of a size that is not positive fails. *)
Definition priskv_rdma_listen (addrs : list (list Z)) (kv : kv_state) (cap : priskv_rdma_conn_cap) : GS Z :=
  let size := u64 (priskv_get_value_blocks kv * priskv_get_value_block_size kv) in
  ret ← listen_all addrs (value_base kv) size cap;
  if negb (ret =? 0) then mret ret else
  s ← get;
  epollfd ← (match gs_listeners s with [] => mret None | _ => net (acquire ok CEpollCreate EpollFd) end);
  match epollfd with
  | None => mret (-1)
  | Some epollfd =>
      _ ← modify (λ s, mk_gserver (gs_world s) epollfd (gs_listeners s) (gs_watched s) (gs_timer s));
      watch_all epollfd 0 (gs_listeners s)
  end.

(** ** Start *)

(** A timer with 0 seconds is not armed, and one with negative seconds refused. *)
Definition priskv_expire_routine (bgthread : priskv_thread) (kv : kv_state) : GS priskv_thread :=
  timerfd ← net (acquire ok CTimerfdCreate TimerFd);
  match timerfd with
  | None => lift (Fault AssertFailed)
  | Some timerfd =>
      let interval := s32 (priskv_get_expire_routine_interval kv) in
      _ ← modify (λ s, mk_gserver (gs_world s) (gs_epollfd s) (gs_listeners s) (gs_watched s)
                         (if 0 <? interval then Some (timerfd, interval) else None));
      lift (priskv_thread_add_event_handler bgthread)
  end.

(** [create]: [priskv_server_create_kv]. The threads and the store are there even
    when a later step fails. *)
Definition priskv_server_start (create : options → res (option kv_state)) (o : options) :
    GS (Z * option (priskv_threadpool * kv_state)) :=
  pool ← lift (priskv_threadpool_create_with_hooks (o_threads o) 1 (o_thread_flags o));
  match pool with
  | None => mret (-1, None)
  | Some pool =>
      kv ← lift (create o);
      match kv with
      | None => mret (-1, None)
      | Some kv =>
          '(bgthread, pool) ← lift (priskv_threadpool_find_bgthread pool);
          let kv := priskv_set_expire_routine_interval kv (o_expire_interval o) in
          bgthread ← priskv_expire_routine bgthread kv;
          bgs ← lift (wr (bgthreads pool) (thd_index bgthread) bgthread);
          let pool := mk_pool (iothreads pool) bgs (cur_bgthread pool) in
          ret ← priskv_rdma_listen (o_addresses o) kv (o_conn_cap o);
          if negb (ret =? 0) then mret (-1, Some (pool, kv)) else
          '(added, _) ← net (try ok errno CEventAdd);
          mret (if (added : bool) then 0 else -1, Some (pool, kv))
      end
  end.
End listen.
