(* ===== verification/StartProps.v ===== *)
(** * Starting a server

    The command line is refused or gives limits the rest of the server works with;
    with sensible sizes the store that is created is one the theorems on servers
    apply to; and a listener is either open with all it needs or has given back
    what it took. *)

From S2P Require Import Prelude State Utils CString Protocol Acl Wire Memory MemFile Slab Buddy KvModel KvInv KvStart ServerModel.
From S2P Require Import ServerSafe ServerSystem Threads Connect Start.

Import Buddy.

(** ** Options *)

(** What every accepted command line sets. *)
Record in_range (o : options) : Prop := mk_in_range {
  ir_addresses : Z.of_nat (length (o_addresses o)) <= PRISKV_RDMA_MAX_BIND_ADDR;
  ir_port : o_port o ≠ 0 ∧ o_port o <= 65535;
  ir_inflight : 1 <= max_inflight_command (o_conn_cap o) <= PRISKV_RDMA_MAX_INFLIGHT_COMMAND;
  ir_sgl : 1 <= max_sgl (o_conn_cap o) <= PRISKV_RDMA_MAX_SGL;
  ir_keylen : 0 <= cap_max_key_length (o_conn_cap o) < 2 ^ 16;
  ir_keys : 0 <= o_max_key o <= PRISKV_RDMA_MAX_KEY;
  ir_block_size : 0 <= o_value_block_size o < 2 ^ 32;
  ir_blocks : ∃ k, (k <= 30)%nat ∧ o_value_block o = sz k;
  ir_threads : 0 <= o_threads o < 2 ^ 8
}.

(** Sizes that are not negative, keys that leave room for a final zero, blocks of
    more than a byte, and at least one key. *)
Definition sensible (arg : server_opt * list Z) : Prop :=
  match arg.1 with
  | OptMaxKeys => atoi arg.2 ≠ 0
  | OptMaxKeyLength => ∀ errno n, (priskv_str2num errno arg.2).1 = Some n → 0 <= n < PRISKV_RDMA_MAX_KEY_LENGTH
  | OptValueBlockSize => ∀ errno n, (priskv_str2num errno arg.2).1 = Some n → 0 <= n ∧ n ≠ 1
  | _ => True
  end.

Record sane (o : options) : Prop := mk_sane {
  sa_keys : 0 < o_max_key o;
  sa_keylen : 1 <= cap_max_key_length (o_conn_cap o) < PRISKV_RDMA_MAX_KEY_LENGTH;
  sa_block_size : 1 < o_value_block_size o <= PRISKV_RDMA_MAX_VALUE_BLOCK_SIZE
}.

Global Instance server_opt_eq_dec : EqDecision server_opt.
Proof. solve_decision. Defined.

Lemma u16_range z : 0 <= u16 z < 2 ^ 16.
Proof. apply Z.mod_pos_bound. lia. Qed.

Lemma atoi_u32 s : atoi s ≠ 0 → u32 (atoi s) ≠ 0.
Proof.
  unfold atoi, s32, u32. intros Hs. pose proof (Z.mod_pos_bound (strtoll s).1.1 (2 ^ 32) ltac:(lia)) as Hr.
  set (v := (strtoll s).1.1 mod 2 ^ 32) in *. destruct (Z.ltb_spec v (2 ^ 31)).
  - by rewrite Z.mod_small by lia.
  - rewrite <- (Z.mod_add _ 1) by lia. rewrite Z.mod_small; lia.
Qed.

Lemma default_in_range errno : in_range (default_options errno) ∧ sane (default_options errno).
Proof. split; split; simpl; try (vm_compute; intuition discriminate). exists 20%nat. split; [lia|reflexivity]. Qed.

Lemma blocks_power n : (n =? 0) = false → (PRISKV_RDMA_MAX_VALUE_BLOCK <? n) = false → 0 <= n →
  negb (IS_POWER_OF_2 n) = false → ∃ k, (k <= 30)%nat ∧ n = sz k.
Proof.
  intros Hz Hm Hn Hp%negb_false_iff. apply Z.eqb_neq in Hz. apply Z.ltb_ge in Hm.
  pose proof (IS_POWER_OF_2_inv n ltac:(lia) Hp) as He. pose proof (Z.log2_nonneg n).
  exists (Z.to_nat (Z.log2 n)). unfold sz. rewrite Z2Nat.id by done. split; [|done].
  assert (Z.log2 n <= Z.log2 (2 ^ 30)) as Hl by by apply Z.log2_le_mono. rewrite Z.log2_pow2 in Hl by lia. lia.
Qed.

(** The branches of an option, and those that go on. *)
Ltac parse_split Hp :=
  repeat match type of Hp with
  | context [let '(_, _) := ?x in _] => let H := fresh "Hnum" in destruct x as [? ?] eqn:H
  | context [match ?x with Some _ => _ | None => _ end] => is_var x; destruct x
  | context [match log_level_of ?s with _ => _ end] => destruct (log_level_of s)
  | context [if ?b then _ else _] => let H := fresh "Hb" in destruct b eqn:H
  end.
Ltac parse_cases Hp := parse_split Hp; try discriminate; injection Hp as <-.
Ltac or_false := repeat match goal with H : (_ || _) = false |- _ => apply orb_false_iff in H as [? ?] end.

Section parse_props.
Context (getaddrinfo : list Z → gai).


(** Each option keeps the ranges, and a sensible one keeps them sane. *)
Lemma parse_one_range o ch optarg o' : parse_one getaddrinfo o ch optarg = Ok (Some o') → in_range o → in_range o'.
Proof.
  intros Hp [I1 I2 I3 I4 I5 I6 I7 I8 I9]. destruct ch; cbn [parse_one] in Hp; parse_cases Hp; or_false.
  all: split; simpl; rewrite ?length_app; simpl; try (done || lia).
  - pose proof (u16_range (atoi optarg)). lia.
  - pose proof (u16_range (atoi optarg)). lia.
  - pose proof (u32_range (atoi optarg)). lia.
  - apply u16_range.
  - apply u32_range.
  - apply blocks_power; (done || by apply Z.mod_pos_bound).
  - by apply Z.mod_pos_bound.
Qed.

Lemma parse_one_sane o ch optarg o' : parse_one getaddrinfo o ch optarg = Ok (Some o') → sensible (ch, optarg) → sane o → sane o'.
Proof.
  intros Hp Hs [S1 S2 S3]. destruct ch; cbn [parse_one] in Hp; parse_cases Hp; or_false.
  all: split; simpl; try done.
  - pose proof (u32_range (atoi optarg)). pose proof (atoi_u32 optarg Hs). lia.
  - unfold sensible in Hs. simpl in Hs. specialize (Hs (o_errno o)). rewrite Hnum in Hs. specialize (Hs _ eq_refl).
    unfold u16. unfold PRISKV_RDMA_MAX_KEY_LENGTH in *. rewrite Z.mod_small; lia.
  - unfold sensible in Hs. simpl in Hs. specialize (Hs (o_errno o)). rewrite Hnum in Hs. specialize (Hs _ eq_refl).
    change PRISKV_RDMA_MAX_VALUE_BLOCK_SIZE with (2 ^ 20) in *. rewrite u32_small; lia.
Qed.

(** An accepted command line: every limit is in its range, and sensible sizes are
    kept as they are. *)
Lemma parse_range args : ∀ o o', priskv_parsr_arg getaddrinfo args o = Ok (Some o') → in_range o →
  in_range o' ∧ (Forall sensible args → sane o → sane o').
Proof.
  induction args as [|[ch optarg] args IH]; intros o o' Hp Hr; cbn [priskv_parsr_arg] in Hp; [by injection Hp as <-|].
  apply bind_Ok in Hp as ([o1|] & H1 & Hp); [|done]. destruct (IH _ _ Hp) as [Hr' Hs']; [by eapply parse_one_range|].
  split; [done|]. intros [Hc Hs]%Forall_cons Ho. apply Hs'; [done|]. by eapply parse_one_sane.
Qed.

(** Up to 32 addresses no command line faults. *)
Lemma parse_safe args : ∀ o, (length (filter (λ a, a.1 = OptAddr) args) + length (o_addresses o) <= 32)%nat →
  ∃ r, priskv_parsr_arg getaddrinfo args o = Ok r.
Proof.
  induction args as [|[ch optarg] args IH]; intros o Hn; cbn [priskv_parsr_arg]; [by eexists|].
  assert (∃ r, parse_one getaddrinfo o ch optarg = Ok r ∧ ∀ o', r = Some o' → 
    (length (filter (λ a, a.1 = OptAddr) args) + length (o_addresses o') <= 32)%nat) as (r & -> & Hr).
  { destruct (decide (ch = OptAddr)) as [->|Hne].
    - rewrite filter_cons_True in Hn by done. cbn [parse_one length] in *.
      rewrite (proj2 (Z.ltb_lt _ _)) by (unfold PRISKV_RDMA_MAX_BIND_ADDR; lia). eexists. split; [done|]. intros o' [= <-].
      simpl. rewrite length_app. simpl. lia.
    - rewrite filter_cons_False in Hn by done. destruct (parse_one getaddrinfo o ch optarg) as [r|e] eqn:Hp.
      + exists r. split; [done|]. intros o' ->. destruct ch; cbn [parse_one] in Hp; parse_cases Hp; done.
      + exfalso. destruct ch; cbn [parse_one] in Hp; [done|..]; parse_split Hp; discriminate. }
  rewrite Ok_bind. destruct r as [o'|]; [|by eexists]. by apply IH, Hr.
Qed.
End parse_props.

(** ** The store *)

Lemma get_le_zeros n m off : 0 <= off → off + Z.of_nat n <= Z.of_nat m → get_le n (replicate m 0) off = Ok 0.
Proof.
  intros Ho Hm. unfold get_le, get_bytes. rewrite length_replicate, !(proj2 (Z.leb_le _ _)) by lia. simpl. f_equal.
  unfold slice. rewrite drop_replicate, take_replicate, reverse_replicate. generalize (Z.to_nat (Z.of_nat n) `min` (m - Z.to_nat off))%nat as j.
  intros j. unfold be_value. induction j as [|j IH]; [done|]. simpl. exact IH.
Qed.

Lemma words_zeros n : ∀ m off, 0 <= off → off + 4 * Z.of_nat n <= Z.of_nat m → words n (replicate m 0) off = Ok (replicate n 0).
Proof.
  induction n as [|n IH]; intros m off Ho Hm; [done|]. cbn [words replicate].
  rewrite get_le_zeros by lia. rewrite Ok_bind, IH by lia. done.
Qed.

Lemma new_kv_layout raw mem kbase vbase maxkeys maxkeylen vblock_size vblocks kv :
  priskv_new_kv raw mem kbase vbase maxkeys maxkeylen vblock_size vblocks = Ok kv →
  value_base kv = vbase ∧ priskv_get_value_blocks kv = u32 vblocks ∧ priskv_get_value_block_size kv = vblock_size ∧
  max_keys kv = maxkeys ∧ max_key_length kv = maxkeylen.
Proof.
  unfold priskv_new_kv. intros ([] & _ & ([] & _ & (bc & _ & ([sl|] & _ & (bd & Hbd & H)%bind_Ok)%bind_Ok)%bind_Ok)%bind_Ok)%bind_Ok;
    [|done]. destruct bd as [bd|]; [|done]. apply bind_Ok in H as ([] & _ & [= <-]).
  unfold priskv_buddy_create in Hbd. destruct (vbase =? 0); [done|]. destruct (negb _); [done|]. simpl in Hbd.
  by apply bind_Ok in Hbd as (meta & _ & [= <-]).
Qed.

Lemma real_size_bound getpagesize size : (∃ k, 12 <= k <= 30 ∧ getpagesize = 2 ^ k) → 0 <= size < 2 ^ 60 →
  malloc_real_size getpagesize size true < size + 3 * 2 ^ 30.
Proof.
  intros (k & Hk & ->) Hs. assert (0 < 2 ^ k <= 2 ^ 30) by (split; [lia|apply Z.pow_le_mono_r; lia]).
  destruct (ALIGN_UP_bounds 64 size k) as [Hb _]; [lia..|]. unfold malloc_real_size. rewrite u64_small by lia. lia.
Qed.

Section store.
Context (mount : list Z → Z + list Z * list Z) (getpagesize : Z) (open_errno mmap_errno : list Z → Z).
Context (files : gmap (list Z) (list Z)) (key_nodes : list Z → Z → gmap Z priskv_key).
Context (Hpage : ∃ k, 12 <= k <= 30 ∧ getpagesize = 2 ^ k).

(** The sizes of the store are those of the options. *)
Definition as_large (kv : kv_state) (o : options) : Prop :=
  max_keys kv = o_max_key o ∧ max_key_length kv = cap_max_key_length (o_conn_cap o) ∧
  priskv_get_value_blocks kv = o_value_block o ∧ priskv_get_value_block_size kv = o_value_block_size o.

(** The store of a server with anonymous memory: empty, as large as the options
    say, and ready for the events of a server. *)
Lemma create_kv_ready o file_addr kaddr vaddr t : in_range o → sane o → o_memfile o = None →
  0 < kaddr < 2 ^ 62 → 0 < vaddr < 2 ^ 62 →
  ∃ kv, priskv_server_create_kv mount getpagesize open_errno mmap_errno files key_nodes o file_addr (Some kaddr) (Some vaddr) = Ok (Some kv) ∧
    store kv = ∅ ∧ server_inv (mk_server kv ∅ ∅ ∅ [] [] t) (λ _, 0) None ∧ listener_ok (max_key_length kv) (o_conn_cap o) ∧
    as_large kv o ∧ 0 < value_base kv.
Proof.
  intros [I1 I2 I3 I4 I5 I6 I7 (k & Hk & Hblk) I9] [S1 S2 S3] Hf Hka Hva. unfold priskv_server_create_kv. rewrite Hf.
  set (mkl := cap_max_key_length (o_conn_cap o)) in *.
  assert (0 < sz k <= 2 ^ 30) as Hsz by (split; [apply sz_pos|by apply (sz_le k 30)]).
  change PRISKV_RDMA_MAX_KEY with (2 ^ 30) in *. change PRISKV_RDMA_MAX_VALUE_BLOCK_SIZE with (2 ^ 20) in *.
  unfold PRISKV_RDMA_MAX_KEY_LENGTH in *. rewrite Hblk in *.
  assert (sz k * o_value_block_size o <= 2 ^ 30 * 2 ^ 20) as Hprod by (apply Z.mul_le_mono_nonneg; lia).
  assert (params_ok mkl (o_max_key o) (o_value_block_size o) (sz k)) as Hp by (unfold params_ok; lia).
  destruct (mem_anon_areas getpagesize Hpage kaddr vaddr mkl (o_max_key o) (o_value_block_size o) (sz k) (o_threads o))
    as (m & keys & values & -> & Hkeys & Hvals & _ & Hk1 & Hk2 & Hv1 & Hv2); [done|lia..|]. rewrite Ok_bind.
  destruct (areas_exact _ _ _ _ (params_ok_fit _ _ _ _ Hp)) as (Ha & _ & _).
  pose proof (real_size_bound getpagesize (mem_aligned_key_size mkl (o_max_key o)) Hpage) as Hrk.
  pose proof (real_size_bound getpagesize (sz k * o_value_block_size o + 8 * sz k) Hpage) as Hrv.
  assert (0 < getpagesize) by (destruct Hpage as (p & ? & ->); lia). unfold sizeof_priskv_key in *.
  subst values. unfold buddy_words. rewrite words_zeros by nia. rewrite Ok_bind.
  assert (priskv_mem_key_size mkl = 88 + mkl) as Hks.
  { unfold priskv_mem_key_size, u16, sizeof_priskv_key. rewrite Z.mod_small; lia. }
  assert (start_ok (replicate (Z.to_nat (2 * sz k)) 0) (priskv_mem_key_addr m) (priskv_mem_value_addr m) (o_max_key o) mkl (o_value_block_size o) k)
    as Hso by (split; rewrite ?length_replicate, ?Hks; try done; nia).
  destruct (new_kv_spec _ _ _ _ _ _ _ Hso) as (kv & Hnew & _ & Hst & Hmkl & _). rewrite Hnew, Ok_bind.
  destruct (new_kv_layout _ _ _ _ _ _ _ _ _ Hnew) as (Hvb & Hn & Hs & Hmk & _). rewrite u32_small in Hn by lia.
  exists kv. split; [done|]. split; [done|]. split; [|split; [rewrite Hmkl; unfold listener_ok; lia|split; [|lia]]].
  - eapply start_inv; [exact Hso|lia|unfold SAFEKEY; lia|exact Hnew].
  - unfold as_large. rewrite Hblk. by split_and!.
Qed.
End store.

(** ** Listeners *)

(** Numbers that were not handed out yet belong to nothing. *)
Definition world_ok (w : world) : Prop :=
  map_Forall (λ k r, k < w_tick w ∧ Forall (λ h, h < w_tick w) (built_on r)) (w_live w).

Lemma world_fresh w k : world_ok w → w_tick w <= k → w_live w !! k = None ∧ ¬ busy (w_live w) k.
Proof.
  intros Hw Hk. split.
  - destruct (w_live w !! k) as [r|] eqn:E; [|done]. destruct (Hw _ _ E). lia.
  - intros (j & r & Hj & Hin). destruct (Hw _ _ Hj) as [_ Hf]. rewrite Forall_forall in Hf. specialize (Hf _ Hin). lia.
Qed.

(** The world between two calls: [live] and a later tick. *)
Definition at_tick (w : world) (t : Z) (live : gmap Z resource) : world := mk_world live (w_conns w) (w_handlers w) t.

Lemma world_ok_later w t : world_ok w → w_tick w <= t →
  map_Forall (λ k r, k < t ∧ Forall (λ h, h < t) (built_on r)) (w_live w).
Proof.
  intros Hw Ht. eapply map_Forall_impl; [exact Hw|]. simpl. intros k r [? Hf]. split; [lia|].
  eapply Forall_impl; [exact Hf|]. simpl. lia.
Qed.

Lemma release_live w t live h r : live !! h = Some r → ¬ busy live h →
  release h (at_tick w t live) = Ok (tt, at_tick w t (delete h live)).
Proof. intros Hh Hb. unfold release. simpl. rewrite Hh, decide_False by done. done. Qed.

Section listen_props.
Context (ok : call → Z → bool) (errno : Z → positive) (any_device : list Z → bool).

(** What a listener holds. *)
Definition listener_holds (size : Z) (l : rdma_listener) (live : gmap Z resource) : gmap Z resource :=
  <[ls_value_mr l := Mr (ls_cm_id l) None size true]> (<[ls_cm_id l := CmId (ls_channel l)]> (<[ls_channel l := EventChannel]> live)).

Definition listener_new (w w' : world) (l : rdma_listener) : Prop :=
  w_tick w <= ls_channel l ∧ ls_channel l < ls_cm_id l ∧ ls_cm_id l < ls_value_mr l ∧ ls_value_mr l < w_tick w'.

Lemma busy_insert live k r h : ¬ busy live h → h ∉ built_on r → ¬ busy (<[k := r]> live) h.
Proof. intros Hb Hr (j & q & Hj & Hin). apply lookup_insert_Some in Hj as [[_ <-]|[_ Hj]]; [done|]. apply Hb. by exists j, q. Qed.

Lemma busy_delete live k h : ¬ busy live h → ¬ busy (delete k live) h.
Proof. intros Hb (j & q & Hj & Hin). apply lookup_delete_Some in Hj as [_ Hj]. apply Hb. by exists j, q. Qed.

(** The calls [fs], made one after the other from the tick [t] on, succeed. *)
Fixpoint calls_ok (fs : list call) (t : Z) : bool :=
  match fs with [] => true | f :: fs => ok f t && calls_ok fs (t + 1) end.

Lemma calls_ok_app fs gs t : calls_ok (fs ++ gs) t = calls_ok fs t && calls_ok gs (t + Z.of_nat (length fs)).
Proof.
  revert t. induction fs as [|f fs IH]; intros t; [by rewrite Z.add_0_r|]. cbn [calls_ok app length]. rewrite IH, andb_assoc.
  do 2 f_equal. lia.
Qed.

(** The calls that open a listener. *)
Definition listen_calls : list call :=
  [CGetAddrInfo; CResolved; CCreateEventChannel; CSetNonblock; CCreateId; CBindAddr; CListen; CRegMr].

(** Calls, by the tick. *)
Lemma try_at w t live f (Q : bool * Z → world → Prop) : (∀ e, 0 < e → Q (ok f t, e) (at_tick w (t + 1) live)) →
  safe (try ok errno f) (at_tick w t live) Q.
Proof. intros HQ. eexists _, _. split; [reflexivity|]. apply HQ. lia. Qed.

Lemma errno_at w t live (Q : Z → world → Prop) : (∀ e, 0 < e → Q e (at_tick w (t + 1) live)) →
  safe (errno_of errno) (at_tick w t live) Q.
Proof. intros HQ. eexists _, _. split; [reflexivity|]. apply HQ. lia. Qed.

Lemma acquire_at w t live f r (Q : option Z → world → Prop) : (ok f t = false → Q None (at_tick w (t + 1) live)) →
  (ok f t = true → Q (Some t) (at_tick w (t + 1) (<[t := r]> live))) → safe (acquire ok f r) (at_tick w t live) Q.
Proof.
  intros HN HS. unfold acquire. step. eexists _, _. split; [reflexivity|]. simpl. destruct (ok f t).
  - step. apply safe_modify, safe_ret. by apply HS.
  - apply safe_ret. by apply HN.
Qed.

Lemma release_at w t live h r (Q : unit → world → Prop) : live !! h = Some r → ¬ busy live h →
  Q tt (at_tick w t (delete h live)) → safe (release h) (at_tick w t live) Q.
Proof. intros Hh Hb HQ. eexists _, _. split; [by eapply release_live|done]. Qed.

(** The last resource acquired is given back. *)
Lemma release_last w t live h r (Q : unit → world → Prop) : live !! h = None → ¬ busy live h → h ∉ built_on r →
  Q tt (at_tick w t live) → safe (release h) (at_tick w t (<[h := r]> live)) Q.
Proof.
  intros Hh Hb Hr HQ. eapply release_at; [apply lookup_insert_eq|by apply busy_insert|]. by rewrite delete_insert_id.
Qed.

Definition acquired (h : option Z) (r : resource) (live : gmap Z resource) : gmap Z resource :=
  match h with Some h => <[h := r]> live | None => live end.

Lemma listen_error_at w t cm_id channel servinfo ret (Q : Z + rdma_listener → world → Prop) : world_ok w → w_tick w <= servinfo →
  (∀ h, channel = Some h → servinfo < h) → (∀ c, cm_id = Some c → ∃ h, channel = Some h ∧ h < c) →
  Q (inl ret) (at_tick w t (w_live w)) →
  safe (listen_error cm_id channel servinfo ret)
    (at_tick w t (acquired cm_id (CmId (default 0 channel)) (acquired channel EventChannel (<[servinfo := AddrInfo]> (w_live w))))) Q.
Proof.
  intros Hw Hi Hch Hcm HQ. unfold listen_error.
  pose proof (λ k Hk, proj1 (world_fresh w k Hw Hk)) as Hfr. pose proof (λ k Hk, proj2 (world_fresh w k Hw Hk)) as Hnb.
  assert (safe (_ ← release_opt channel; _ ← release servinfo; mret (inl ret))
    (at_tick w t (acquired channel EventChannel (<[servinfo := AddrInfo]> (w_live w)))) Q) as Hrest.
  { assert (safe (_ ← release servinfo; mret (inl ret)) (at_tick w t (<[servinfo := AddrInfo]> (w_live w))) Q) as Hlast.
    { step. apply release_last; [by apply Hfr|by apply Hnb|by apply not_elem_of_nil|]. by apply safe_ret. }
    step. destruct channel as [h|]; simpl; [|by apply safe_ret]. specialize (Hch h eq_refl).
    apply release_last; [rewrite lookup_insert_ne by lia; apply Hfr; lia|apply busy_insert; [apply Hnb; lia|]|..|done]; apply not_elem_of_nil. }
  step. destruct cm_id as [c|]; simpl; [|by apply safe_ret]. destruct (Hcm c eq_refl) as (h & -> & Hc). specialize (Hch h eq_refl). simpl.
  apply release_last; [rewrite !lookup_insert_ne by lia; apply Hfr; lia| |simpl; rewrite list_elem_of_singleton; lia|exact Hrest].
  apply busy_insert; [apply busy_insert; [apply Hnb; lia|]|]; apply not_elem_of_nil.
Qed.

Definition listen_result (size value_base : Z) (cap : priskv_rdma_conn_cap) (w : world) (r : Z + rdma_listener) (w' : world) : Prop :=
  w_tick w <= w_tick w' ∧ w_conns w' = w_conns w ∧ w_handlers w' = w_handlers w ∧
  match r with
  | inl ret => ret ≠ 0 ∧ calls_ok listen_calls (w_tick w) = false ∧ w_live w' = w_live w
  | inr l => calls_ok listen_calls (w_tick w) = true ∧ w_tick w' = w_tick w + 8 ∧ w_live w' = listener_holds size l (w_live w) ∧ listener_new w w' l ∧ ls_value_base l = value_base ∧ ls_conn_cap l = cap
  end.

Ltac listen_done := unfold listen_result; try match goal with t := w_tick _ |- _ => subst t end; try split_and!; simpl;
  first [done | lia | repeat match goal with H : ok ?f ?t = _ |- _ => rewrite H; clear H end; done | idtac].

(** Opening a listener: all it needs, or nothing is left. *)
Lemma listen_one_safe addr value_base size cap w : world_ok w → value_base ≠ 0 → size ≠ 0 → any_device addr = false →
  safe (priskv_rdma_listen_one ok errno any_device addr value_base size cap) w (listen_result size value_base cap w).
Proof.
  intros Hw Hvb Hsize Hdev. unfold priskv_rdma_listen_one. pose proof (λ k Hk, proj2 (world_fresh w k Hw Hk)) as Hnb.
  replace w with (at_tick w (w_tick w) (w_live w)) at 1 by by destruct w.
  set (t := w_tick w) at 1.
  step. apply try_at. intros e He. destruct (ok _ _) eqn:Hok; simpl; [|apply safe_ret; listen_done].
  step. apply acquire_at; intros Hok1; [apply safe_ret; listen_done|].
  step. apply acquire_at; intros Hok2.
  { step. apply errno_at. intros e1 He1. apply (listen_error_at w _ None None); (done || lia || idtac). listen_done. }
  step. apply try_at. intros e2 He2. destruct (ok CSetNonblock _) eqn:Hok3; simpl.
  2: { apply (listen_error_at w _ None (Some (t + 1 + 1))); [done|lia|intros ? [= <-]; lia|done|]. listen_done. }
  step. apply acquire_at; intros Hok4.
  { step. apply errno_at. intros e3 He3. apply (listen_error_at w _ None (Some (t + 1 + 1))); [done|lia|intros ? [= <-]; lia|done|].
    listen_done. }
  assert (∀ t' ret, t <= t' → ret ≠ 0 → calls_ok listen_calls t = false →
    safe (listen_error (Some (t + 1 + 1 + 1 + 1)) (Some (t + 1 + 1)) (t + 1) ret)
    (at_tick w t' (<[t + 1 + 1 + 1 + 1 := CmId (t + 1 + 1)]> (<[t + 1 + 1 := EventChannel]> (<[t + 1 := AddrInfo]> (w_live w)))))
    (listen_result size value_base cap w)) as Herr.
  { intros t' ret Ht' Hret Hsome. apply (listen_error_at w t' (Some _) (Some (t + 1 + 1)));
      [done|lia|intros ? [= <-]; lia|intros ? [= <-]; exists (t + 1 + 1); split; [done|lia]|]. split_and!; simpl; (done || lia). }
  unfold listen_id. step. apply try_at. intros e4 He4. destruct (ok CBindAddr _) eqn:Hok5; cbn [negb]; [|apply Herr; listen_done].
  step. apply try_at. intros e5 He5. destruct (ok CListen _) eqn:Hok6; cbn [negb]; [|apply Herr; listen_done].
  rewrite (proj2 (Z.eqb_neq _ 0) Hvb), (proj2 (Z.eqb_neq _ 0) Hsize), Hdev.
  step. apply acquire_at; intros Hok7; [step; apply errno_at; intros e6 He6; apply Herr; listen_done|].
  step. eapply release_at.
  - rewrite !lookup_insert_ne by lia. apply lookup_insert_eq.
  - repeat apply busy_insert; [apply Hnb; lia|apply not_elem_of_nil|apply not_elem_of_nil|..]; simpl; rewrite list_elem_of_singleton; lia.
  - apply safe_ret. listen_done; [|unfold listener_new; simpl; lia]. unfold listener_holds. simpl. rewrite !delete_insert_ne by lia.
    rewrite delete_insert_id; [done|]. apply (world_fresh w _ Hw). lia.
Qed.

(** A listener that is open: its identifier on its channel, and the memory of the
    values registered with it. *)
Definition listening (size value_base : Z) (cap : priskv_rdma_conn_cap) (w : world) (l : rdma_listener) : Prop :=
  ls_value_base l = value_base ∧ ls_conn_cap l = cap ∧ w_live w !! ls_channel l = Some EventChannel ∧
  w_live w !! ls_cm_id l = Some (CmId (ls_channel l)) ∧ w_live w !! ls_value_mr l = Some (Mr (ls_cm_id l) None size true).

Definition all_held (size : Z) (ls : list rdma_listener) (live : gmap Z resource) : gmap Z resource :=
  foldl (λ live l, listener_holds size l live) live ls.

(** From [w] to [w'] exactly the listeners [ls] were opened. *)
Record opened (size value_base : Z) (cap : priskv_rdma_conn_cap) (w : world) (ls : list rdma_listener) (w' : world) : Prop := mk_opened {
  op_tick : w_tick w <= w_tick w';
  op_ok : world_ok w';
  op_handlers : w_handlers w' = w_handlers w;
  op_live : w_live w' = all_held size ls (w_live w);
  op_kept : w_live w ⊆ w_live w';
  op_nodup : NoDup (ls_channel <$> ls);
  op_fresh : Forall (λ l, w_tick w <= ls_channel l) ls;
  op_listening : Forall (listening size value_base cap w') ls
}.

Lemma opened_none size value_base cap w w' : world_ok w → w_tick w <= w_tick w' → w_handlers w' = w_handlers w → w_live w' = w_live w →
  opened size value_base cap w [] w'.
Proof.
  intros Hw Ht Hh Hl. split; simpl; rewrite ?Hl; try done; try apply NoDup_nil_2; try apply Forall_nil_2.
  unfold world_ok. rewrite Hl. by apply world_ok_later.
Qed.

Lemma opened_one size value_base cap w l w' : world_ok w → listen_result size value_base cap w (inr l) w' →
  opened size value_base cap w [l] w' ∧ ls_channel l < w_tick w'.
Proof.
  intros Hw (Ht & _ & Hh & _ & _ & Hl & (N1 & N2 & N3 & N4) & Hvb & Hcap). pose proof (λ k Hk, proj1 (world_fresh w k Hw Hk)) as Hfr.
  split; [|lia]. split; try done.
  - unfold world_ok. rewrite Hl. unfold listener_holds.
    repeat apply map_Forall_insert_2; simpl; try (split; [lia|]; repeat apply Forall_cons_2; try apply Forall_nil_2; lia).
    by apply world_ok_later.
  - rewrite Hl. unfold listener_holds.
    repeat (etrans; [|apply insert_subseteq; rewrite ?lookup_insert_ne by lia; apply Hfr; lia]). done.
  - apply NoDup_singleton.
  - by apply Forall_singleton.
  - apply Forall_singleton. unfold listening. rewrite Hl. unfold listener_holds.
    split_and!; [done|done|by rewrite !lookup_insert_ne, lookup_insert_eq by lia|
      by rewrite lookup_insert_ne, lookup_insert_eq by lia|apply lookup_insert_eq].
Qed.

Lemma listening_kept size value_base cap w w' l : w_live w ⊆ w_live w' → listening size value_base cap w l → listening size value_base cap w' l.
Proof. intros Hs (? & ? & ? & ? & ?). split_and!; try done; by eapply lookup_weaken. Qed.

Lemma opened_cons size value_base cap w l w1 ls w2 : opened size value_base cap w [l] w1 → ls_channel l < w_tick w1 →
  opened size value_base cap w1 ls w2 → opened size value_base cap w (l :: ls) w2.
Proof.
  intros [A1 A2 A3 A4 A5 A6 A7 A8] Hc [B1 B2 B3 B4 B5 B6 B7 B8]. apply Forall_cons in A7 as [A7 _], A8 as [A8 _]. split; try done.
  - lia.
  - by rewrite B3.
  - by rewrite B4, A4.
  - by trans (w_live w1).
  - simpl. apply NoDup_cons. split; [|done]. intros (x & Hx & Hin)%list_elem_of_fmap. rewrite Forall_forall in B7. specialize (B7 _ Hin). lia.
  - apply Forall_cons. split; [done|]. eapply Forall_impl; [exact B7|]. simpl. lia.
  - apply Forall_cons. split; [by eapply listening_kept|done].
Qed.

(** The rest of the state of the server. *)
Definition same_rest (s s' : rdma_server) : Prop := gs_epollfd s' = gs_epollfd s ∧ gs_watched s' = gs_watched s ∧ gs_timer s' = gs_timer s.

Lemma listen_all_safe value_base size cap addrs : value_base ≠ 0 → size ≠ 0 → Forall (λ a, any_device a = false) addrs → ∀ s,
  world_ok (gs_world s) → Z.of_nat (length (gs_listeners s) + length addrs) <= PRISKV_RDMA_MAX_BIND_ADDR →
  safe (listen_all ok errno any_device addrs value_base size cap) s (λ ret s', same_rest s s' ∧
    ∃ ls, gs_listeners s' = gs_listeners s ++ ls ∧ opened size value_base cap (gs_world s) ls (gs_world s') ∧
      (if decide (ret = 0) then length ls = length addrs ∧ w_tick (gs_world s') = w_tick (gs_world s) + 8 * Z.of_nat (length addrs) else True) ∧
      (ret = 0 ↔ calls_ok (concat (replicate (length addrs) listen_calls)) (w_tick (gs_world s)) = true)).
Proof.
  intros Hvb Hsize. induction 1 as [|addr addrs Ha Hdev IH]; intros s Hw Hn; cbn [listen_all].
  { apply safe_ret. split; [done|]. exists []. rewrite app_nil_r. split; [done|]. split_and!; [by apply opened_none| |done].
    rewrite decide_True by done. simpl. split; [done|lia]. }
  step. destruct (listen_one_safe addr value_base size cap (gs_world s) Hw Hvb Hsize Ha) as (r & w1 & Hr & Hres).
  unfold net, safe. rewrite Hr. eexists _, _. split; [done|]. cbn [gs_world length replicate concat]. rewrite calls_ok_app.
  destruct r as [ret|l].
  - apply safe_ret. split; [done|]. exists []. simpl. rewrite app_nil_r. split; [done|].
    destruct Hres as (? & _ & ? & Hret & Hf & ?). split_and!; [by apply opened_none|by rewrite decide_False|].
    change (calls_ok listen_calls (w_tick (gs_world s)) = false) in Hf. simpl in Hf. rewrite Hf. done.
  - destruct (opened_one _ _ _ _ _ _ Hw Hres) as [Ho Hc]. destruct Hres as (_ & _ & _ & Hok & Ht & _).
    step. unfold add_listener. simpl in Hn.
    eexists _, _. simpl gs_listeners. rewrite (proj2 (Z.ltb_lt _ _)) by lia. split; [done|].
    eapply safe_mono; [apply IH; simpl; [by apply (op_ok _ _ _ _ _ _ Ho)|rewrite length_app; simpl; lia]|].
    intros ret s' (Hrest & ls & Hls & Hop & Hlen & Hf). split; [done|]. exists (l :: ls). cbn [gs_world gs_listeners] in *.
    rewrite Hls, <- app_assoc. split; [done|]. split; [by eapply opened_cons|]. split.
    + destruct (decide (ret = 0)); [|done]. destruct Hlen as [Hlen Hlt]. simpl. rewrite Hlen. split; [done|]. lia.
    + rewrite Hok. rewrite Ht in Hf. exact Hf.
Qed.

Lemma watch_all_safe epollfd ls : ∀ i s, safe (watch_all ok errno epollfd i ls) s (λ ret s',
  gs_epollfd s' = gs_epollfd s ∧ gs_listeners s' = gs_listeners s ∧ gs_timer s' = gs_timer s ∧ w_live (gs_world s') = w_live (gs_world s) ∧
  (∀ h, h ∉ ls_channel <$> ls → w_handlers (gs_world s') !! h = w_handlers (gs_world s) !! h) ∧
  (ret = 0 → gs_watched s' = gs_watched s ++ (ls_channel <$> ls) ∧
    (NoDup (ls_channel <$> ls) → ∀ j l, ls !! j = Some l → w_handlers (gs_world s') !! ls_channel l = Some (i + Z.of_nat j))) ∧
  (ret = 0 → w_tick (gs_world s') = w_tick (gs_world s) + Z.of_nat (length ls)) ∧
  (ret = 0 ↔ calls_ok (replicate (length ls) CEpollCtl) (w_tick (gs_world s)) = true)).
Proof.
  induction ls as [|l ls IH]; intros i s; cbn [watch_all].
  { apply safe_ret. split_and!; try done; [intros _; by rewrite app_nil_r|intros _; simpl; lia]. }
  step. eexists _, _. split; [reflexivity|]. step. eexists _, _. split; [reflexivity|]. destruct (ok CEpollCtl _) eqn:Hok; simpl.
  2: { apply safe_ret. simpl in Hok. split_and!; try done; [|simpl; by rewrite Hok]. intros h [Hh _]%not_elem_of_cons. simpl. by rewrite lookup_insert_ne. }
  step. apply safe_modify. eapply safe_mono; [apply IH|]. simpl. intros ret s' (H1 & H2 & H3 & H4 & H5 & H6 & H7 & H8). split_and!; try done.
  - intros h [Hh Hn]%not_elem_of_cons. rewrite H5 by done. by rewrite lookup_insert_ne.
  - intros Hret. destruct (H6 Hret) as [Hw Hj]. split; [by rewrite Hw, <- app_assoc|].
    intros [Hn Hnd]%NoDup_cons j q Hq. destruct j as [|j]; simpl in Hq.
    + injection Hq as <-. rewrite H5 by done. rewrite lookup_insert_eq. f_equal. lia.
    + rewrite (Hj Hnd j q Hq). f_equal. lia.
  - intros Hret. rewrite (H7 Hret). lia.
  - simpl in Hok. rewrite Hok. exact H8.
Qed.
(** Every address is served: a listener of its own, open and watched, and nothing
    else is held. *)
Record serving (addrs : list (list Z)) (value_base size : Z) (cap : priskv_rdma_conn_cap) (live : gmap Z resource) (s : rdma_server) : Prop := mk_serving {
  sg_addrs : addrs ≠ [] ∧ length (gs_listeners s) = length addrs;
  sg_listening : Forall (listening size value_base cap (gs_world s)) (gs_listeners s);
  sg_watched : gs_watched s = ls_channel <$> gs_listeners s;
  sg_handlers j l : gs_listeners s !! j = Some l → w_handlers (gs_world s) !! ls_channel l = Some (Z.of_nat j);
  sg_live : w_live (gs_world s) = <[gs_epollfd s := EpollFd]> (all_held size (gs_listeners s) live)
}.

Definition rdma_listen_calls (n : nat) : list call :=
  concat (replicate n listen_calls) ++ CEpollCreate :: replicate n CEpollCtl.

Lemma listen_calls_length n : length (concat (replicate n listen_calls)) = (8 * n)%nat.
Proof. induction n as [|n IH]; [done|]. simpl. rewrite IH. lia. Qed.

Lemma rdma_listen_safe (kv : kv_state) cap addrs w timer :
  let size := priskv_get_value_blocks kv * priskv_get_value_block_size kv in
  value_base kv ≠ 0 → 0 < size < 2 ^ 64 → Forall (λ a, any_device a = false) addrs → world_ok w →
  Z.of_nat (length addrs) <= PRISKV_RDMA_MAX_BIND_ADDR →
  safe (priskv_rdma_listen ok errno any_device addrs kv cap) (mk_gserver w (-1) [] [] timer) (λ ret s', gs_timer s' = timer ∧
    (ret = 0 → serving addrs (value_base kv) size cap (w_live w) s' ∧
       w_tick (gs_world s') = w_tick w + Z.of_nat (length (rdma_listen_calls (length addrs)))) ∧
    (ret = 0 ↔ addrs ≠ [] ∧ calls_ok (rdma_listen_calls (length addrs)) (w_tick w) = true)).
Proof.
  intros size Hvb Hsize Hdev Hw Hn. unfold priskv_rdma_listen. fold size. rewrite u64_small by lia. step.
  eapply safe_mono; [apply listen_all_safe; [done|lia|done|done|done]|]. simpl.
  intros ret s1 ((He & Hwa & Ht) & ls & Hls & Hop & Hlen & Hf). cbn [gs_world gs_listeners gs_epollfd gs_watched gs_timer app] in *.
  unfold rdma_listen_calls. rewrite calls_ok_app, length_app, listen_calls_length. cbn [calls_ok length]. rewrite length_replicate.
  destruct (Z.eqb_spec ret 0) as [->|Hret]; cbn [negb].
  2: { apply safe_ret. split_and!; [done|done|]. destruct (calls_ok (concat _) _); [|by rewrite andb_false_l; naive_solver].
       destruct Hf as [_ Hf]. by rewrite Hf in Hret. }
  rewrite decide_True in Hlen by done. destruct Hlen as [Hlen Ht1]. rewrite (proj1 Hf eq_refl), andb_true_l.
  step. apply safe_get. rewrite Hls. destruct ls as [|l0 ls0] eqn:Els.
  { step. apply safe_ret, safe_ret. split_and!; [done|done|]. destruct addrs; [naive_solver|done]. }
  rewrite <- Els in *. assert (addrs ≠ []) as Hne by (intros ->; rewrite Els in Hlen; done). step.
  destruct (acquire_at (gs_world s1) (w_tick (gs_world s1)) (w_live (gs_world s1)) CEpollCreate EpollFd (λ h w2,
    match h with
    | None => ok CEpollCreate (w_tick (gs_world s1)) = false
    | Some fd => ok CEpollCreate (w_tick (gs_world s1)) = true ∧ fd = w_tick (gs_world s1) ∧ w_tick w2 = w_tick (gs_world s1) + 1 ∧
        w_live w2 = <[fd := EpollFd]> (w_live (gs_world s1)) ∧ w_handlers w2 = w_handlers (gs_world s1)
    end)) as (h & w2 & Hacq & Hh); [done|done|].
  replace (at_tick _ _ _) with (gs_world s1) in Hacq by by destruct (gs_world s1).
  unfold safe, net. rewrite Hacq. eexists _, _. split; [done|]. cbn [gs_listeners].
  replace (w_tick w + Z.of_nat (8 * length addrs)) with (w_tick (gs_world s1)) by lia. destruct h as [fd|].
  2: { apply safe_ret. rewrite Hh. split_and!; [done|done|]. rewrite andb_false_l. naive_solver. }
  destruct Hh as (Hok & -> & Ht2 & Hlive & Hhan). rewrite Hok, andb_true_l.
  step. apply safe_modify. simpl. eapply safe_mono; [apply watch_all_safe|]. cbn [gs_world gs_listeners gs_epollfd gs_watched gs_timer].
  intros ret s2 (E1 & E2 & E3 & E4 & E5 & E6 & E7 & E8). rewrite Ht2, Hlen in E8. split_and!; [by rewrite E3| |rewrite E8; tauto]. intros Hret.
  split; [|rewrite (E7 Hret), Ht2, Ht1, Hlen; lia].
  destruct (E6 Hret) as [Hwatched Hhandlers]. specialize (Hhandlers (op_nodup _ _ _ _ _ _ Hop)).
  split; rewrite ?E2, ?Hls.
  - done.
  - eapply Forall_impl; [exact (op_listening _ _ _ _ _ _ Hop)|]. intros l. apply listening_kept. rewrite E4, Hlive.
    apply insert_subseteq. apply (world_fresh _ _ (op_ok _ _ _ _ _ _ Hop)). done.
  - by rewrite Hwatched, Hwa.
  - intros j l Hj. by apply (Hhandlers j l).
  - by rewrite E4, E1, Hlive, (op_live _ _ _ _ _ _ Hop).
Qed.
End listen_props.

(** ** Start *)

Lemma interval_inv (kv : kv_state) i t : server_inv (mk_server kv ∅ ∅ ∅ [] [] t) (λ _, 0) None →
  server_inv (mk_server (priskv_set_expire_routine_interval kv i) ∅ ∅ ∅ [] [] t) (λ _, 0) None.
Proof. intros [[] ? ? ? ? ? ? ?]. split; simpl in *; try done. split; try done. by eapply inv_values_kept. Qed.

(** A pool with one thread in the background. *)
Lemma pool_created n flags : 1 <= n <= PRISKV_THREAD_MAX_THREAD →
  priskv_threadpool_create_with_hooks n 1 flags = Ok (Some (mk_pool (new_threads n flags) [mk_thread 0 flags 0 0] 0)).
Proof.
  intros Hn. unfold priskv_threadpool_create_with_hooks, PRISKV_THREAD_MAX_THREAD in *.
  rewrite (proj2 (Z.eqb_neq n 0)), (proj2 (Z.ltb_ge 254 n)), (proj2 (Z.leb_le 0 n)) by lia. done.
Qed.

(** The server after the expire timer was started. *)
Definition with_timer (w : world) (interval : Z) : rdma_server :=
  mk_gserver (at_tick w (w_tick w + 1) (<[w_tick w := TimerFd]> (w_live w))) (-1) [] []
    (if 0 <? s32 interval then Some (w_tick w, s32 interval) else None).

Lemma expire_routine_runs ok flags (kv : kv_state) interval w : ok CTimerfdCreate (w_tick w) = true →
  priskv_expire_routine ok (mk_thread 0 flags 0 0) (priskv_set_expire_routine_interval kv interval) (mk_gserver w (-1) [] [] None)
    = Ok (mk_thread 0 flags 1 0, with_timer w interval).
Proof. intros Hok. unfold priskv_expire_routine, mbind, ST_bind, net, acquire, wtick. simpl. unfold mbind, ST_bind. by rewrite Hok. Qed.

Lemma timer_world_ok w interval : world_ok w → world_ok (gs_world (with_timer w interval)).
Proof.
  intros Hw. unfold world_ok. simpl. apply map_Forall_insert_2; simpl; [split; [lia|apply Forall_nil_2]|].
  apply world_ok_later; [done|lia].
Qed.

Section start_props.
Context (getaddrinfo : list Z → gai) (mount : list Z → Z + list Z * list Z) (getpagesize : Z) (open_errno mmap_errno : list Z → Z).
Context (files : gmap (list Z) (list Z)) (key_nodes : list Z → Z → gmap Z priskv_key).
Context (ok : call → Z → bool) (errno : Z → positive) (any_device : list Z → bool).

Notation create kaddr vaddr :=
  (λ o, priskv_server_create_kv mount getpagesize open_errno mmap_errno files key_nodes o 0 (Some kaddr) (Some vaddr)).

(** The calls of a start with [n] addresses, in their order, each a tick. *)
Definition start_calls (n : nat) : list call := CTimerfdCreate :: rdma_listen_calls n ++ [CEventAdd].

(** (C13) A server with anonymous memory, no address that stands for every device,
    1 to 254 threads, a command line that is accepted and has sensible sizes, and
    whose two areas of memory and expire timer can be had, starts without a fault:
    its store is empty, as large as the options say, and satisfies what the theorems
    on a running server assume, with limits the connections are negotiated under; it
    has the threads asked for and the expire timer. It returns 0 exactly when an
    address was given and every call it makes succeeds, and then serves every
    address, one listener each with the memory of the values registered, holding
    nothing else; otherwise it returns -1. *)
Theorem server_starts args errno0 o kaddr vaddr w t :
  priskv_parsr_arg getaddrinfo args (default_options errno0) = Ok (Some o) → Forall sensible args →
  o_memfile o = None → 1 <= o_threads o <= PRISKV_THREAD_MAX_THREAD →
  (∃ k, 12 <= k <= 30 ∧ getpagesize = 2 ^ k) → 0 < kaddr < 2 ^ 62 → 0 < vaddr < 2 ^ 62 →
  Forall (λ a, any_device a = false) (o_addresses o) → world_ok w → ok CTimerfdCreate (w_tick w) = true →
  ∃ ret pool kv timer s',
    priskv_server_start ok errno any_device (create kaddr vaddr) o (mk_gserver w (-1) [] [] None) = Ok ((ret, Some (pool, kv)), s') ∧
    store kv = ∅ ∧ as_large kv o ∧ server_inv (mk_server kv ∅ ∅ ∅ [] [] t) (λ _, 0) None ∧ listener_ok (max_key_length kv) (o_conn_cap o) ∧
    length (iothreads pool) = Z.to_nat (o_threads o) ∧
    gs_timer s' = (if 0 <? s32 (o_expire_interval o) then Some (timer, s32 (o_expire_interval o)) else None) ∧
    (ret = 0 ∨ ret = -1) ∧
    (ret = 0 ↔ o_addresses o ≠ [] ∧ calls_ok ok (start_calls (length (o_addresses o))) (w_tick w) = true) ∧
    (ret = 0 → serving (o_addresses o) (value_base kv) (o_value_block o * o_value_block_size o) (o_conn_cap o)
                 (<[timer := TimerFd]> (w_live w)) s').
Proof.
  intros Hparse Hargs Hf Hthr Hpage Hk Hv Hdev Hw Htimer. destruct (default_in_range errno0) as [Hr0 Hs0].
  destruct (parse_range getaddrinfo _ _ _ Hparse Hr0) as [Hr Hs]. specialize (Hs Hargs Hs0). pose proof Hr as [I1 _ _ _ _ _ I7 (k & Hkk & Hblk) _].
  destruct (create_kv_ready mount getpagesize open_errno mmap_errno files key_nodes Hpage o 0 kaddr vaddr t)
    as (kv & Hc & Hst & Hinv & Hlis & Hlarge & Hvb); [done..|]. pose proof Hlarge as (_ & _ & Hb & Hbs).
  assert (0 < sz k <= 2 ^ 30) as Hsz by (split; [apply sz_pos|by apply (sz_le k 30)]).
  assert (0 < o_value_block o * o_value_block_size o < 2 ^ 64) as Hsize by (pose proof (sa_block_size _ Hs); rewrite Hblk; nia).
  set (flags := o_thread_flags o). pose proof (pool_created (o_threads o) flags Hthr) as Hpool.
  pose proof (expire_routine_runs ok flags kv (o_expire_interval o) w Htimer) as Hexp.
  set (kv' := priskv_set_expire_routine_interval kv (o_expire_interval o)) in *.
  set (s1 := with_timer w (o_expire_interval o)) in *.
  pose proof (rdma_listen_safe ok errno any_device kv' (o_conn_cap o) (o_addresses o) (gs_world s1) (gs_timer s1)) as Hlisten.
  change (priskv_get_value_blocks kv') with (priskv_get_value_blocks kv) in Hlisten.
  change (priskv_get_value_block_size kv') with (priskv_get_value_block_size kv) in Hlisten. rewrite Hb, Hbs in Hlisten.
  destruct Hlisten as (ret & s2 & Hl & Ht2 & Hok2 & Hiff); [simpl; lia|done|done|by apply timer_world_ok|done|].
  assert (safe (priskv_server_start ok errno any_device (create kaddr vaddr) o) (mk_gserver w (-1) [] [] None) (λ r s',
    r.2 = Some (mk_pool (new_threads (o_threads o) flags) [mk_thread 0 flags 1 0] 1, kv') ∧ gs_timer s' = gs_timer s2 ∧
    r.1 = (if (ret =? 0) && ok CEventAdd (w_tick (gs_world s2)) then 0 else -1) ∧
    (r.1 = 0 → serving (o_addresses o) (value_base kv) (o_value_block o * o_value_block_size o) (o_conn_cap o)
       (w_live (gs_world s1)) s'))) as ([r1 r2] & s' & Hrun & Hres & Htm & Hret & Hserve).
  { unfold priskv_server_start. fold flags. step_lift Hpool. step_lift Hc. step. eapply safe_lift; [reflexivity|].
    fold kv'. step. eexists _, _. split; [exact Hexp|]. step. eapply safe_lift; [reflexivity|].
    step. eexists _, _. split; [exact Hl|]. destruct (Z.eqb_spec ret 0) as [->|Hret]; simpl; [|by apply safe_ret].
    step. eexists _, _. split; [reflexivity|]. destruct (Hok2 eq_refl) as [[G1 G2 G3 G4 G5] _].
    destruct (ok CEventAdd _) eqn:Hadd; apply safe_ret; split_and!; try done. }
  simpl in *. subst r2. exists r1, (mk_pool (new_threads (o_threads o) flags) [mk_thread 0 flags 1 0] 1), kv', (w_tick w), s'.
  split; [exact Hrun|]. split; [done|]. split; [exact Hlarge|]. split; [by apply interval_inv|]. split; [done|]. split.
  { simpl. unfold new_threads. by rewrite length_fmap, length_seq. }
  split; [by rewrite Htm, Ht2|]. split; [subst r1; destruct (_ && _); auto|]. split; [|done].
  subst r1. rewrite Htimer, andb_true_l, calls_ok_app. cbn [calls_ok]. rewrite andb_true_r.
  destruct (Z.eqb_spec ret 0) as [->|Hne]; simpl.
  - destruct (proj1 Hiff eq_refl) as [Hadr ->]. destruct (Hok2 eq_refl) as [_ <-]. rewrite andb_true_l.
    destruct (ok CEventAdd _); naive_solver.
  - split; [done|]. rewrite andb_true_iff. intros (? & ? & _). by destruct Hne; apply Hiff.
Qed.
End start_props.

(** ** A server with 4 keys *)

Definition ex_gai (addr : list Z) : gai := GaiNone.
(** [4], [64], [16], [10.0.0.1]. *)
Definition ex_args : list (server_opt * list Z) :=
  [(OptMaxKeys, [52]); (OptValueBlocks, [52]); (OptValueBlockSize, [54; 52]); (OptMaxKeyLength, [49; 54]);
   (OptAddr, [49; 48; 46; 48; 46; 48; 46; 49])].
Definition parsed (args : list (server_opt * list Z)) : res (option options) := priskv_parsr_arg ex_gai args (default_options 0).
Definition ex_options : options := match parsed ex_args with Ok (Some o) => o | _ => default_options 0 end.
Definition ex_create (files : gmap (list Z) (list Z)) (o : options) : res (option kv_state) :=
  priskv_server_create_kv ex_mount 4096 no_errno no_errno files (λ _ _, ∅) o 0 (Some 65536) (Some 1048576).
Definition ex_world : world := mk_world ∅ ∅ ∅ 1.
Definition all_ok (f : call) (t : Z) : bool := true.
Definition ex_errno (t : Z) : positive := 1.
Definition ex_started (any_device : list Z → bool) (o : options) : res (Z * option (priskv_threadpool * kv_state) * rdma_server) :=
  priskv_server_start all_ok ex_errno any_device (ex_create ∅) o (mk_gserver ex_world (-1) [] [] None).

Lemma ex_sensible : Forall sensible ex_args.
Proof.
  repeat apply Forall_cons_2; try apply Forall_nil_2; unfold sensible; simpl; try done.
  - intros e n. unfold priskv_str2num. simpl. destruct (e =? ERANGE); [done|]. intros [= <-]. vm_compute. intuition discriminate.
  - intros e n. unfold priskv_str2num. simpl. destruct (e =? ERANGE); [done|]. intros [= <-]. vm_compute. intuition discriminate.
Qed.

Lemma server_starts_witness : ∃ pool kv s', ex_started (λ _, false) ex_options = Ok (0, Some (pool, kv), s') ∧
  server_inv (mk_server kv ∅ ∅ ∅ [] [] 0) (λ _, 0) None ∧ max_keys kv = 4 ∧ priskv_get_value_blocks kv = 4 ∧ length (gs_listeners s') = 1%nat.
Proof.
  destruct (server_starts ex_gai ex_mount 4096 no_errno no_errno ∅ (λ _ _, ∅) all_ok ex_errno (λ _, false) ex_args 0 ex_options 65536 1048576
    ex_world 0) as (ret & pool & kv & timer & s' & Hrun & _ & Hlarge & Hinv & _ & _ & _ & _ & Hret & Hserve);
    [vm_compute; reflexivity|exact ex_sensible|reflexivity|split; vm_compute; discriminate|by exists 12|lia|lia| |by intros k r Hk| done|].
  - by apply Forall_true.
  - assert (ret = 0) as -> by (apply Hret; split; [vm_compute; discriminate|vm_compute; reflexivity]).
    exists pool, kv, s'. destruct Hlarge as (-> & _ & -> & _). split; [exact Hrun|]. split; [done|].
    split; [reflexivity|]. split; [reflexivity|]. destruct (Hserve eq_refl) as [[_ Hl] _ _ _ _]. rewrite Hl. reflexivity.
Defined.

(** ** What goes wrong *)

(** The store of an accepted command line. *)
Definition started_kv {A : Type} (files : gmap (list Z) (list Z)) (args : list (server_opt * list Z)) (k : options → kv_state → res A) : res A :=
  r ← parsed args;
  match r with
  | None => Fault NullDeref
  | Some o => kv ← ex_create files o; match kv with Some kv => k o kv | None => Fault NullDeref end
  end.

(** The 33rd address is written after the end of the array. *)
Lemma too_many_addresses : parsed (replicate 33 (OptAddr, [49])) = Fault OutOfBounds.
Proof. vm_compute. reflexivity. Qed.

(** A negative key length is accepted: [-K -5] is 65531, and the nodes are smaller
    than their own header. *)
Lemma negative_key_length : started_kv ∅ ((OptMaxKeyLength, [45; 53]) :: take 3 ex_args) (λ o kv, Ok (cap_max_key_length (o_conn_cap o), Slab.sl_size (key_slab kv)))
    = Ok (65531, 83) ∧ 83 < sizeof_priskv_key.
Proof. split; vm_compute; reflexivity. Qed.

(** [-k 0] is accepted, and the creation of the store fails an assertion. *)
Lemma no_keys : started_kv ∅ (take 3 ex_args ++ [(OptMaxKeys, [48])]) (λ _ _, Ok tt) = Fault AssertFailed.
Proof. vm_compute. reflexivity. Qed.

(** Numbers are cut to the width of their variable before they are checked:
    [-c 65537] is 1, [-t 256] is 0, and a port may be negative. *)
Lemma numbers_cut :
  (r ← parsed [(OptMaxInflightCommand, [54; 53; 53; 51; 55]); (OptThreads, [50; 53; 54]); (OptPort, [45; 49])];
   match r with None => Fault NullDeref | Some o => Ok (max_inflight_command (o_conn_cap o), o_threads o, o_port o) end) = Ok (1, 0, -1).
Proof. vm_compute. reflexivity. Qed.

(** A server on a memory file takes the limits of the file for the store and those
    of the command line for the connections: a key a connection accepts is written
    past the end of its node. *)
Definition ex_files : gmap (list Z) (list Z) :=
  match priskv_mem_create ex_mount 4096 no_file no_errno no_errno no_errno ∅ ex_path 16 1 64 1 1 with Ok (_, w) => w | Fault _ => ∅ end.
Lemma file_limits_ignored :
  started_kv ex_files [(OptFile, ex_path)] (λ o kv, Ok (cap_max_key_length (o_conn_cap o), max_key_length kv)) = Ok (128, 16) ∧
  started_kv ex_files [(OptFile, ex_path)] (λ _ kv,
    '(status, _, _, _) ← priskv_set_key kv (replicate 20 97) 20 10 PRISKV_KEY_MAX_TIMEOUT (TimeVal 0 0); Ok status) = Fault OutOfBounds.
Proof. split; vm_compute; reflexivity. Qed.

(** An address that stands for every device leaves the identifier without a
    protection domain. *)
Lemma any_device_crashes : ex_started (λ _, true) ex_options = Fault NullDeref.
Proof. vm_compute. reflexivity. Qed.
