(* ===== verification/LocalFs.v ===== *)
(** * The driver of local files

    [server/backend/be_localfs.c]: a tier whose values are the files of a
    directory. GET and SET open the file and read or write it through [io_uring];
    the completion comes later and runs the callback. At most [max_depth] requests
    are given to the kernel, further ones wait in [pending_queue]. DEL, TEST and
    EVICT run at once.

    The state holds the context all threads share, the rings, the requests by
    address, and the directory. A file is a name for an inode: an open file
    outlives its name. A key is a path from the directory, which names an entry
    ([entry_of]). The two spin locks are kept, since a thread that takes one
    it holds spins for ever ([Deadlock]); apart from this an operation is one step.
    What [open], [stat], [unlink], [opendir] and the like fail with are parameters. *)

From S2P Require Import Prelude State CString ServerModel Backend Policy.

Inductive localfs_op_type := LOCALFS_OP_GET | LOCALFS_OP_SET | LOCALFS_OP_DEL | LOCALFS_OP_TEST.
Global Instance localfs_op_type_eq_dec : EqDecision localfs_op_type.
Proof. solve_decision. Defined.

Definition DEFAULT_MAX_DEPTH : Z := 1023.
Definition PATH_MAX : Z := 4096.
Definition NAME_MAX : Z := 255.

(** [rq_cb]: the argument of the callback, [None] without one. [rq_val]: the
    buffer. [rq_fd]: the inode of the open file. *)
Record localfs_request := mk_localfs_request {
  rq_ctx : Z; rq_key : list Z; rq_val : list Z; rq_valuelen : Z; rq_old_valuelen : Z; rq_cb : option Z;
  rq_fd : option Z; rq_op_type : localfs_op_type; rq_status : priskv_backend_status; rq_queued_once : bool
}.

Record localfs_shared_context := mk_shared {
  sh_path : list Z; sh_total_size : Z; sh_policy : priskv_policy_lru; sh_free_size : Z; sh_ref_count : Z;
  sh_lock : bool; sh_queue_lock : bool; sh_inflight_count : Z; sh_max_depth : Z; sh_pending_queue : list Z
}.

(** A callback that was run: argument, status, length, and the buffer then. *)
Record localfs_call := mk_call { lc_cbarg : Z; lc_status : priskv_backend_status; lc_length : Z; lc_val : list Z }.

(** [rings]: the threads that opened the device. An entry of a ring is the ring
    and the request it is for, [None] when the entry was never filled in:
    [sqes] are got and not submitted, [flying] are with the kernel, [cqes] are
    completed. *)
Record localfs := mk_localfs {
  shared : option localfs_shared_context;
  rings : list Z;
  sqes : list (Z * option Z);
  flying : list (Z * option Z);
  cqes : list (Z * option Z * Z);
  reqs : gmap Z localfs_request;
  next_addr : Z;
  dir : gmap (list Z) Z;
  inodes : gmap Z (list Z);
  next_ino : Z;
  calls : list localfs_call
}.

Notation LM := (ST localfs).

Definition set_shared (f : option localfs_shared_context) (s : localfs) : localfs :=
  mk_localfs f (rings s) (sqes s) (flying s) (cqes s) (reqs s) (next_addr s) (dir s) (inodes s) (next_ino s) (calls s).
Definition set_rings (f : list Z) (s : localfs) : localfs :=
  mk_localfs (shared s) f (sqes s) (flying s) (cqes s) (reqs s) (next_addr s) (dir s) (inodes s) (next_ino s) (calls s).
Definition set_queues (q : list (Z * option Z)) (f : list (Z * option Z)) (c : list (Z * option Z * Z)) (s : localfs) : localfs :=
  mk_localfs (shared s) (rings s) q f c (reqs s) (next_addr s) (dir s) (inodes s) (next_ino s) (calls s).
Definition set_reqs (r : gmap Z localfs_request) (n : Z) (s : localfs) : localfs :=
  mk_localfs (shared s) (rings s) (sqes s) (flying s) (cqes s) r n (dir s) (inodes s) (next_ino s) (calls s).
Definition set_files (d : gmap (list Z) Z) (i : gmap Z (list Z)) (n : Z) (s : localfs) : localfs :=
  mk_localfs (shared s) (rings s) (sqes s) (flying s) (cqes s) (reqs s) (next_addr s) d i n (calls s).
Definition add_call (c : localfs_call) (s : localfs) : localfs :=
  mk_localfs (shared s) (rings s) (sqes s) (flying s) (cqes s) (reqs s) (next_addr s) (dir s) (inodes s) (next_ino s) (calls s ++ [c]).

Definition sh_set_policy (p : priskv_policy_lru) (c : localfs_shared_context) : localfs_shared_context :=
  mk_shared (sh_path c) (sh_total_size c) p (sh_free_size c) (sh_ref_count c) (sh_lock c) (sh_queue_lock c)
    (sh_inflight_count c) (sh_max_depth c) (sh_pending_queue c).
Definition sh_set_free_size (f : Z) (c : localfs_shared_context) : localfs_shared_context :=
  mk_shared (sh_path c) (sh_total_size c) (sh_policy c) f (sh_ref_count c) (sh_lock c) (sh_queue_lock c)
    (sh_inflight_count c) (sh_max_depth c) (sh_pending_queue c).
Definition sh_set_ref_count (n : Z) (c : localfs_shared_context) : localfs_shared_context :=
  mk_shared (sh_path c) (sh_total_size c) (sh_policy c) (sh_free_size c) n (sh_lock c) (sh_queue_lock c)
    (sh_inflight_count c) (sh_max_depth c) (sh_pending_queue c).
Definition sh_set_lock (b : bool) (c : localfs_shared_context) : localfs_shared_context :=
  mk_shared (sh_path c) (sh_total_size c) (sh_policy c) (sh_free_size c) (sh_ref_count c) b (sh_queue_lock c)
    (sh_inflight_count c) (sh_max_depth c) (sh_pending_queue c).
Definition sh_set_queue_lock (b : bool) (c : localfs_shared_context) : localfs_shared_context :=
  mk_shared (sh_path c) (sh_total_size c) (sh_policy c) (sh_free_size c) (sh_ref_count c) (sh_lock c) b
    (sh_inflight_count c) (sh_max_depth c) (sh_pending_queue c).
Definition sh_set_queue (n : Z) (q : list Z) (c : localfs_shared_context) : localfs_shared_context :=
  mk_shared (sh_path c) (sh_total_size c) (sh_policy c) (sh_free_size c) (sh_ref_count c) (sh_lock c) (sh_queue_lock c)
    n (sh_max_depth c) q.

Definition with_valuelen (n : Z) (r : localfs_request) : localfs_request :=
  mk_localfs_request (rq_ctx r) (rq_key r) (rq_val r) n (rq_old_valuelen r) (rq_cb r) (rq_fd r) (rq_op_type r) (rq_status r) (rq_queued_once r).
Definition with_old (n : Z) (r : localfs_request) : localfs_request :=
  mk_localfs_request (rq_ctx r) (rq_key r) (rq_val r) (rq_valuelen r) n (rq_cb r) (rq_fd r) (rq_op_type r) (rq_status r) (rq_queued_once r).
Definition with_fd (i : Z) (r : localfs_request) : localfs_request :=
  mk_localfs_request (rq_ctx r) (rq_key r) (rq_val r) (rq_valuelen r) (rq_old_valuelen r) (rq_cb r) (Some i) (rq_op_type r) (rq_status r) (rq_queued_once r).
Definition with_status (st : priskv_backend_status) (r : localfs_request) : localfs_request :=
  mk_localfs_request (rq_ctx r) (rq_key r) (rq_val r) (rq_valuelen r) (rq_old_valuelen r) (rq_cb r) (rq_fd r) (rq_op_type r) st (rq_queued_once r).
Definition with_val (v : list Z) (r : localfs_request) : localfs_request :=
  mk_localfs_request (rq_ctx r) (rq_key r) v (rq_valuelen r) (rq_old_valuelen r) (rq_cb r) (rq_fd r) (rq_op_type r) (rq_status r) (rq_queued_once r).
Definition with_queued (r : localfs_request) : localfs_request :=
  mk_localfs_request (rq_ctx r) (rq_key r) (rq_val r) (rq_valuelen r) (rq_old_valuelen r) (rq_cb r) (rq_fd r) (rq_op_type r) (rq_status r) true.

(** ** Objects and locks *)

Definition stop {A} (e : fault) : LM A := lift (Fault e).

Definition get_shared : LM localfs_shared_context :=
  s ← get; match shared s with Some c => mret c | None => stop UseAfterFree end.
Definition upd_shared (f : localfs_shared_context → localfs_shared_context) : LM unit :=
  c ← get_shared; modify (set_shared (Some (f c))).

Definition get_req (a : Z) : LM localfs_request :=
  s ← get; match reqs s !! a with Some r => mret r | None => stop UseAfterFree end.
Definition upd_req (a : Z) (f : localfs_request → localfs_request) : LM unit :=
  r ← get_req a; modify (λ s, set_reqs (<[a := f r]> (reqs s)) (next_addr s) s).

(** [pthread_spin_lock] of a lock this thread holds does not return. *)
Definition lock : LM unit := c ← get_shared; if sh_lock c then stop Deadlock else upd_shared (sh_set_lock true).
Definition unlock : LM unit := upd_shared (sh_set_lock false).
Definition locked {A} (m : LM A) : LM A := lock;; a ← m; unlock;; mret a.
Definition queue_lock : LM unit := c ← get_shared; if sh_queue_lock c then stop Deadlock else upd_shared (sh_set_queue_lock true).
Definition queue_unlock : LM unit := upd_shared (sh_set_queue_lock false).

Definition call (cb : option Z) (status : priskv_backend_status) (length : Z) (val : list Z) : LM unit :=
  match cb with None => mret tt | Some cbarg => modify (add_call (mk_call cbarg status length val)) end.

(** Calls of the policy. *)
Definition policy {A} (f : priskv_policy_lru → res (A * priskv_policy_lru)) : LM A :=
  c ← get_shared; '(a, p) ← lift (f (sh_policy c)); upd_shared (sh_set_policy p);; mret a.
Definition policy_access (key : list Z) : LM unit := policy (λ p, p' ← lru_policy_access p key; Ok (tt, p')).
Definition policy_unref (key : list Z) : LM unit := policy (λ p, p' ← lru_policy_unref_key p key; Ok (tt, p')).
Definition policy_del (key : list Z) : LM unit := policy (λ p, p' ← lru_policy_del_key p key; Ok (tt, p')).
Definition policy_try_ref (key : list Z) : LM bool := policy (λ p, lru_policy_try_ref_key p key).
Definition policy_evict : LM (option (list Z)) := policy lru_policy_evict.

(** ** Files *)

(** [snprintf(path, PATH_MAX, "%s/%s", shared_ctx->path, key) >= PATH_MAX]. *)
Definition path_too_long (path key : list Z) : bool := PATH_MAX <=? Z.of_nat (length path) + 1 + Z.of_nat (length key).

(** The entry the path of a key leads to, from the directory of the driver: the kernel
    skips empty components and [.], and [..] goes back. Keys that differ may lead to
    one entry, and a key may lead out of the directory. What does not exist on the way
    is an error of the calls below. *)
Definition SLASH : Z := 47.
Definition DOT : Z := 46.
Fixpoint components (cur key : list Z) : list (list Z) :=
  match key with
  | [] => [cur]
  | c :: key => if c =? SLASH then cur :: components [] key else components (cur ++ [c]) key
  end.
Definition step_into (way : list (list Z)) (name : list Z) : list (list Z) :=
  if bool_decide (name = []) || bool_decide (name = [DOT]) then way
  else if bool_decide (name = [DOT; DOT]) then
    match way with [] => [name] | x :: rest => if bool_decide (x = [DOT; DOT]) then name :: way else rest end
  else name :: way.
Definition entry_of (key : list Z) : list Z :=
  match reverse (foldl step_into [] (components [] key)) with
  | [] => []
  | x :: way => foldl (λ path name, path ++ SLASH :: name) x way
  end.

(** A list without the first occurrence of an element. *)
Fixpoint take_out {A} `{EqDecision A} (x : A) (l : list A) : list A :=
  match l with [] => [] | y :: l => if decide (x = y) then l else y :: take_out x l end.

Section localfs.
(** What [open], [stat] and [unlink] of the file of a key fail with, 0 if they do
    not fail for another reason than a missing file. *)
Context (open_errno stat_errno unlink_errno : list Z → Z).

Definition file_of (s : localfs) (key : list Z) : option (list Z) := dir s !! entry_of key ≫= λ i, inodes s !! i.

Definition get_file_size (s : localfs) (key : list Z) : Z :=
  if negb (stat_errno key =? 0) then 0
  else match file_of s key with Some v => Z.of_nat (length v) | None => 0 end.

(** [open(path, O_RDONLY)]. *)
Definition open_read (key : list Z) : LM (option Z) :=
  s ← get; mret (if negb (open_errno key =? 0) then None else dir s !! entry_of key).

(** [open(path, O_CREAT | O_WRONLY | O_TRUNC | O_SYNC)]. *)
Definition open_write (key : list Z) : LM (option Z) :=
  s ← get;
  if negb (open_errno key =? 0) then mret None else
  match dir s !! entry_of key with
  | Some i => modify (set_files (dir s) (<[i := []]> (inodes s)) (next_ino s));; mret (Some i)
  | None =>
      let i := next_ino s in
      modify (set_files (<[entry_of key := i]> (dir s)) (<[i := []]> (inodes s)) (i + 1));; mret (Some i)
  end.

(** [unlink(path) && errno != ENOENT]. *)
Definition unlink_fails (key : list Z) : LM bool :=
  s ← get;
  if negb (unlink_errno key =? 0) then mret true
  else modify (set_files (delete (entry_of key) (dir s)) (inodes s) (next_ino s));; mret false.

(** ** Requests *)

Definition localfs_free_request (a : Z) : LM unit :=
  get_req a;; modify (λ s, set_reqs (delete a (reqs s)) (next_addr s) s).

Definition localfs_complete_request (a : Z) : LM unit :=
  r ← get_req a;
  call (rq_cb r) (rq_status r) (rq_valuelen r) (rq_val r);;
  localfs_free_request a.

Definition fail_request (a : Z) (st : priskv_backend_status) : LM (option Z) :=
  upd_req a (with_status st);; localfs_complete_request a;; mret None.

(** Returns the address of the request, or [None] when it has been completed. *)
Definition localfs_make_request (ctx : Z) (key val : list Z) (valuelen : Z) (op_type : localfs_op_type) (cb : option Z) : LM (option Z) :=
  c ← get_shared;
  s ← get;
  let a := next_addr s in
  modify (set_reqs (<[a := mk_localfs_request ctx key val valuelen 0 cb None op_type PRISKV_BACKEND_STATUS_OK false]> (reqs s)) (a + 1));;
  if path_too_long (sh_path c) key then fail_request a PRISKV_BACKEND_STATUS_ERROR else
  let file_size := u32 (get_file_size s key) in
  match op_type with
  | LOCALFS_OP_SET =>
      upd_req a (with_old file_size);;
      fd ← open_write key;
      match fd with
      | None => fail_request a PRISKV_BACKEND_STATUS_ERROR
      | Some i => upd_req a (with_fd i);; mret (Some a)
      end
  | _ =>
      if bool_decide (op_type = LOCALFS_OP_GET) && (valuelen <? file_size) then fail_request a PRISKV_BACKEND_STATUS_VALUE_TOO_BIG else
      fd ← open_read key;
      match fd with
      | None => fail_request a PRISKV_BACKEND_STATUS_ERROR
      | Some i => upd_req a (with_fd i);; mret (Some a)
      end
  end.

(** ** Rings *)

Definition io_uring_get_sqe (ctx : Z) : LM unit := modify (λ s, set_queues (sqes s ++ [(ctx, None)]) (flying s) (cqes s) s).

(** [io_uring_prep_*] and [io_uring_sqe_set_data] of the entry that was got last. *)
Definition io_uring_prep (ctx a : Z) : LM unit :=
  modify (λ s, set_queues (take (length (sqes s) - 1) (sqes s) ++ [(ctx, Some a)]) (flying s) (cqes s) s).

(** All entries of the ring that were got go to the kernel, filled in or not. *)
Definition io_uring_submit (ctx : Z) : LM unit :=
  modify (λ s, set_queues (filter (λ e, e.1 ≠ ctx) (sqes s)) (flying s ++ filter (λ e, e.1 = ctx) (sqes s)) (cqes s) s).

Definition enqueue (a : Z) : LM unit :=
  r ← get_req a;
  if rq_queued_once r then upd_shared (λ c, sh_set_queue (sh_inflight_count c) (a :: sh_pending_queue c) c)
  else upd_shared (λ c, sh_set_queue (sh_inflight_count c) (sh_pending_queue c ++ [a]) c);; upd_req a with_queued.

Definition uncount : LM unit :=
  queue_lock;;
  upd_shared (λ c, if 0 <? sh_inflight_count c then sh_set_queue (sh_inflight_count c - 1) (sh_pending_queue c) c else c);;
  queue_unlock.

(** [sqe_ok]: the ring has a free entry. *)
Definition submit_io_request (sqe_ok : bool) (a : Z) : LM bool :=
  req ← get_req a;
  s ← get;
  if negb (bool_decide (rq_ctx req ∈ rings s)) then stop UseAfterFree else
  queue_lock;;
  c ← get_shared;
  if sh_max_depth c <=? sh_inflight_count c then enqueue a;; queue_unlock;; mret false else
  if negb sqe_ok then enqueue a;; queue_unlock;; mret false else
  io_uring_get_sqe (rq_ctx req);;
  upd_shared (λ c, sh_set_queue (u32 (sh_inflight_count c + 1)) (sh_pending_queue c) c);;
  queue_unlock;;
  match rq_op_type req with
  | LOCALFS_OP_GET =>
      ref_acquired ← locked (policy_try_ref (rq_key req));
      if ref_acquired : bool then io_uring_prep (rq_ctx req) a;; io_uring_submit (rq_ctx req);; mret true
      else uncount;; fail_request a PRISKV_BACKEND_STATUS_NOT_FOUND;; mret false
  | LOCALFS_OP_SET => io_uring_prep (rq_ctx req) a;; io_uring_submit (rq_ctx req);; mret true
  | _ => uncount;; fail_request a PRISKV_BACKEND_STATUS_ERROR;; mret false
  end.

(** What the kernel does with an entry: [res] bytes are read or written at offset
    0, or [res] is negative; then the ring has the completion. *)
Definition io_done (ctx : Z) (user_data : option Z) (res : Z) : LM unit :=
  match user_data with
  | None => mret tt
  | Some a =>
      r ← get_req a;
      s ← get;
      match rq_fd r ≫= λ i, (λ v, (i, v)) <$> inodes s !! i with
      | None => mret tt
      | Some (i, v) =>
          if res <? 0 then mret tt else
          match rq_op_type r with
          | LOCALFS_OP_SET => modify (set_files (dir s) (<[i := take (Z.to_nat res) (rq_val r) ++ drop (Z.to_nat res) v]> (inodes s)) (next_ino s))
          | _ => upd_req a (with_val (take (Z.to_nat res) v ++ drop (Z.to_nat res) (rq_val r)))
          end
      end
  end;;
  modify (λ s, set_queues (sqes s) (take_out (ctx, user_data) (flying s)) (cqes s ++ [(ctx, user_data, res)]) s).

(** ** Completions *)

Definition succeed_request (a res : Z) : LM bool :=
  upd_req a (λ r, with_status PRISKV_BACKEND_STATUS_OK (with_valuelen res r));; localfs_complete_request a;; mret true.

(** One completion; the result says whether it is counted. *)
Definition handle_cqe (user_data : option Z) (res : Z) : LM bool :=
  match user_data with
  | None => stop NullDeref
  | Some a =>
      req ← get_req a;
      if res <? 0 then
        upd_req a (with_status PRISKV_BACKEND_STATUS_ERROR);;
        match rq_op_type req with LOCALFS_OP_GET => locked (policy_unref (rq_key req)) | _ => mret tt end;;
        localfs_complete_request a;;
        mret false
      else
        match rq_op_type req with
        | LOCALFS_OP_SET =>
            if negb (res =? rq_valuelen req) then
              locked (upd_req a (with_status PRISKV_BACKEND_STATUS_ERROR));; localfs_complete_request a;; mret false
            else
              let delta := s64 (s64 (rq_valuelen req) - s64 (rq_old_valuelen req)) in
              locked (
                upd_shared (λ c, sh_set_free_size (if 0 <? delta then u64 (sh_free_size c - delta) else u64 (sh_free_size c + - delta)) c);;
                policy_access (rq_key req));;
              succeed_request a res
        | LOCALFS_OP_GET => locked (policy_unref (rq_key req));; succeed_request a res
        | _ => locked (mret tt);; succeed_request a res
        end
  end.

Fixpoint handle_cqes (es : list (Z * option Z * Z)) (completed_reqs : Z) : LM Z :=
  match es with
  | [] => mret completed_reqs
  | (_, user_data, res) :: es =>
      counted ← handle_cqe user_data res;
      handle_cqes es (if counted : bool then completed_reqs + 1 else completed_reqs)
  end.

(** The fuel bounds the number of waiting requests. *)
Fixpoint submit_pending (sqe_ok : bool) (fuel : nat) : LM unit :=
  match fuel with
  | O => stop OutOfFuel
  | S fuel =>
      c ← get_shared;
      if sh_inflight_count c <? sh_max_depth c then
        match sh_pending_queue c with
        | [] => mret tt
        | a :: q =>
            upd_shared (sh_set_queue (sh_inflight_count c) q);;
            submitted ← submit_io_request sqe_ok a;
            if submitted : bool then submit_pending sqe_ok fuel else mret tt
        end
      else mret tt
  end.

Definition handle_io_uring_events (sqe_ok : bool) (ctx : Z) : LM unit :=
  s ← get;
  c ← get_shared;
  modify (λ s, set_queues (sqes s) (flying s) (filter (λ e, e.1.1 ≠ ctx) (cqes s)) s);;
  completed_reqs ← handle_cqes (filter (λ e, e.1.1 = ctx) (cqes s)) 0;
  if completed_reqs =? 0 then mret tt else
  queue_lock;;
  upd_shared (λ c, sh_set_queue (if sh_inflight_count c <? completed_reqs then 0 else sh_inflight_count c - completed_reqs)
                     (sh_pending_queue c) c);;
  c ← get_shared;
  submit_pending sqe_ok (S (length (sh_pending_queue c)));;
  queue_unlock.

(** ** Operations of the driver *)

(** The private data of a device: [None] when it is not open. *)
Definition localfs_get (private_data : option Z) (sqe_ok : bool) (key val : list Z) (valuelen : Z) (cb : option Z) : LM unit :=
  match private_data with
  | None => call cb PRISKV_BACKEND_STATUS_ERROR 0 val
  | Some ctx =>
      req ← localfs_make_request ctx key val valuelen LOCALFS_OP_GET cb;
      match req with None => mret tt | Some a => submit_io_request sqe_ok a;; mret tt end
  end.

Definition localfs_set (private_data : option Z) (sqe_ok : bool) (key val : list Z) (valuelen timeout : Z) (cb : option Z) : LM unit :=
  match private_data with
  | None => call cb PRISKV_BACKEND_STATUS_ERROR 0 val
  | Some ctx =>
      req ← localfs_make_request ctx key val valuelen LOCALFS_OP_SET cb;
      match req with None => mret tt | Some a => submit_io_request sqe_ok a;; mret tt end
  end.

(** [uninit]: what is in [valuelen] when its initialisation is jumped over. *)
Definition localfs_del (private_data : option Z) (uninit : Z) (key : list Z) (cb : option Z) : LM unit :=
  match private_data with
  | None => call cb PRISKV_BACKEND_STATUS_ERROR 0 []
  | Some _ =>
      c ← get_shared;
      if path_too_long (sh_path c) key then call cb PRISKV_BACKEND_STATUS_ERROR uninit [] else
      s ← get;
      let valuelen := get_file_size s key in
      failed ← unlink_fails key;
      if failed : bool then call cb PRISKV_BACKEND_STATUS_ERROR valuelen [] else
      locked (upd_shared (λ c, sh_set_free_size (u64 (sh_free_size c + valuelen)) c);; policy_del key);;
      call cb PRISKV_BACKEND_STATUS_OK valuelen []
  end.

Definition localfs_evict (private_data : option Z) (cb : option Z) : LM unit :=
  match private_data with
  | None => call cb PRISKV_BACKEND_STATUS_ERROR 0 []
  | Some _ =>
      c ← get_shared;
      key ← locked policy_evict;
      match key with
      | None => call cb PRISKV_BACKEND_STATUS_NO_SPACE 0 []
      | Some key =>
          if path_too_long (sh_path c) key then call cb PRISKV_BACKEND_STATUS_ERROR 0 [] else
          s ← get;
          let valuelen := get_file_size s key in
          failed ← unlink_fails key;
          if failed : bool then call cb PRISKV_BACKEND_STATUS_ERROR valuelen [] else
          locked (upd_shared (λ c, sh_set_free_size (u64 (sh_free_size c + valuelen)) c));;
          call cb PRISKV_BACKEND_STATUS_OK valuelen []
      end
  end.

(** [errno]: what is in [errno] when [stat] succeeds. *)
Definition localfs_test (private_data : option Z) (errno : Z) (key : list Z) (cb : option Z) : LM unit :=
  match private_data with
  | None => call cb PRISKV_BACKEND_STATUS_ERROR 0 []
  | Some _ =>
      c ← get_shared;
      ref_acquired ← locked (policy_try_ref key);
      if negb ref_acquired then call cb PRISKV_BACKEND_STATUS_NOT_FOUND 0 [] else
      s ← get;
      let valuelen := if path_too_long (sh_path c) key then 0 else u32 (get_file_size s key) in
      let errno := if negb (stat_errno key =? 0) then stat_errno key else match file_of s key with None => 2 | Some _ => errno end in
      let status :=
        if path_too_long (sh_path c) key then PRISKV_BACKEND_STATUS_ERROR
        else if 0 <? valuelen then PRISKV_BACKEND_STATUS_OK
        else if negb (errno =? 2) then PRISKV_BACKEND_STATUS_ERROR
        else PRISKV_BACKEND_STATUS_NOT_FOUND in
      locked (policy_unref key);;
      call cb status valuelen []
  end.

Definition localfs_is_cacheable (valuelen : Z) : LM bool :=
  c ← locked get_shared;
  mret (valuelen <=? sh_free_size c).

Fixpoint unlink_all (names : list (list Z)) : LM bool :=
  match names with
  | [] => mret true
  | key :: names => failed ← unlink_fails key; if failed : bool then mret false else unlink_all names
  end.

(** [names]: the regular files, in the order of [readdir]; [None]: [opendir]
    fails. *)
Definition localfs_clearup (private_data : option Z) (names : option (list (list Z))) : LM Z :=
  match private_data, names with
  | None, _ | _, None => mret (-1)
  | Some _, Some names =>
      get_shared;;
      ok ← unlink_all names;
      if negb ok then mret (-1) else
      locked (upd_shared (λ c, sh_set_free_size (sh_total_size c) c));;
      mret 0
  end.

(** ** Opening and closing *)

(** [statvfs]: available blocks and the size of one, [None] when it fails. *)
Definition get_filesystem_available_size (vfs : option (Z * Z)) : Z :=
  match vfs with None => -1 | Some (f_bavail, f_frsize) => s64 (u64 (f_bavail * f_frsize)) end.

Definition AMPERSAND : Z := 38.
Definition SIZE_EQ : list Z := [115; 105; 122; 101; 61].

Definition whole_fs (vfs : option (Z * Z)) (path : list Z) : option (list Z * Z) :=
  let fs_size := get_filesystem_available_size vfs in
  if fs_size <? 0 then None else Some (path, u64 fs_size).

Definition localfs_parse_address (errno : Z) (vfs : option (Z * Z)) (address : list Z) : option (list Z * Z) :=
  match strchr address AMPERSAND with
  | None => whole_fs vfs address
  | Some p =>
      let path := strndup address (Z.of_nat p) in
      match strstr (drop p address) SIZE_EQ with
      | None => whole_fs vfs path
      | Some p => size ← fst (priskv_str2num errno (drop 5 p)); Some (path, u64 size)
      end
  end.

(** [is_dir]: what [stat] finds, [None] for nothing. *)
Definition check_or_create_dir (is_dir : option bool) (mkdir_ok : bool) : Z :=
  match is_dir with
  | Some true => 0
  | Some false => -1
  | None => if mkdir_ok then 0 else -1
  end.

Definition get_dir_used_size (s : localfs) (names : option (list (list Z))) : Z :=
  match names with None => -1 | Some names => fold_left (λ used_size key, used_size + get_file_size s key) names 0 end.

(** [addr]: the address of the policy's first node. *)
Definition localfs_shared_context_create (s : localfs) (errno : Z) (vfs : option (Z * Z)) (is_dir : option bool) (mkdir_ok : bool)
    (names : option (list (list Z))) (addr : Z) (address : list Z) : option localfs_shared_context :=
  match localfs_parse_address errno vfs address with
  | None => None
  | Some (path, total_size) =>
      if PATH_MAX <? Z.of_nat (length path) + NAME_MAX + 1 then None else
      if negb (check_or_create_dir is_dir mkdir_ok =? 0) then None else
      let used_size := get_dir_used_size s names in
      if used_size <? 0 then None else
      if total_size <? u64 used_size then None else
      Some (mk_shared path total_size (lru_policy_create addr) (u64 (total_size - u64 used_size)) 1 false false 0 DEFAULT_MAX_DEPTH [])
  end.

(** The waiting requests end with an error; [fuel] as in [submit_pending]. *)
Fixpoint drain_pending (fuel : nat) : LM unit :=
  match fuel with
  | O => stop OutOfFuel
  | S fuel =>
      queue_lock;;
      c ← get_shared;
      match sh_pending_queue c with
      | [] => queue_unlock
      | a :: q =>
          upd_shared (sh_set_queue (sh_inflight_count c) q);;
          queue_unlock;;
          fail_request a PRISKV_BACKEND_STATUS_ERROR;;
          drain_pending fuel
      end
  end.

Definition localfs_shared_context_destroy : LM unit :=
  c ← get_shared;
  drain_pending (S (length (sh_pending_queue c)));;
  modify (set_shared None).

(** [localfs_shared_ctx] is the context of the state. *)
Definition localfs_shared_context_get : LM bool :=
  s ← get;
  match shared s with None => mret false | Some c => modify (set_shared (Some (sh_set_ref_count (sh_ref_count c + 1) c)));; mret true end.

Definition localfs_shared_context_put : LM unit :=
  upd_shared (λ c, sh_set_ref_count (sh_ref_count c - 1) c);;
  c ← get_shared;
  if sh_ref_count c =? 0 then localfs_shared_context_destroy else mret tt.

(** [created]: what [localfs_shared_context_create] returns; [ctx]: the address of
    the new thread context, [None] without memory. Returns the private data. *)
Definition localfs_open (created : localfs → option localfs_shared_context) (ctx : option Z) (ring_ok : bool) : LM (option Z) :=
  has ← localfs_shared_context_get;
  s ← get;
  let opened :=
    match ctx with
    | Some ctx => if ring_ok then modify (λ s, set_rings (ctx :: rings s) s);; mret (Some ctx) else localfs_shared_context_put;; mret None
    | None => localfs_shared_context_put;; mret None
    end in
  if has : bool then opened
  else match created s with
       | None => mret None
       | Some c => modify (set_shared (Some c));; opened
       end.

(** The ring goes with its entries. *)
Definition localfs_close (private_data : option Z) : LM Z :=
  match private_data with
  | None => mret (-1)
  | Some ctx =>
      modify (λ s, set_rings (filter (λ r, r ≠ ctx) (rings s)) s);;
      modify (λ s, set_queues (filter (λ e, e.1 ≠ ctx) (sqes s)) (filter (λ e, e.1 ≠ ctx) (flying s)) (filter (λ e, e.1.1 ≠ ctx) (cqes s)) s);;
      localfs_shared_context_put;;
      mret 0
  end.
End localfs.
