(* ===== verification/LocalFsSpec.v ===== *)
(** * Steps of the driver of local files

    Rules for its objects, locks and requests, and what making, submitting and
    completing a request does to the state. *)

From S2P Require Import Prelude State CString ServerModel Backend Policy LocalFs BackendProps.

(** ** Rules for the driver's steps *)

Section rules.
Context (s : localfs) (c : localfs_shared_context) (Hc : shared s = Some c).

Lemma safe_get_shared (Q : localfs_shared_context → localfs → Prop) : Q c s → safe get_shared s Q.
Proof. intros HQ. unfold get_shared. step. apply safe_get. rewrite Hc. by apply safe_ret. Qed.

Lemma safe_upd_shared f (Q : unit → localfs → Prop) : Q tt (set_shared (Some (f c)) s) → safe (upd_shared f) s Q.
Proof. intros HQ. unfold upd_shared. step. apply safe_get_shared. by apply safe_modify. Qed.

Lemma safe_lock (Q : unit → localfs → Prop) :
  sh_lock c = false → Q tt (set_shared (Some (sh_set_lock true c)) s) → safe lock s Q.
Proof. intros Hl HQ. unfold lock. step. apply safe_get_shared. rewrite Hl. by apply safe_upd_shared. Qed.

Lemma safe_queue_lock (Q : unit → localfs → Prop) :
  sh_queue_lock c = false → Q tt (set_shared (Some (sh_set_queue_lock true c)) s) → safe queue_lock s Q.
Proof. intros Hl HQ. unfold queue_lock. step. apply safe_get_shared. rewrite Hl. by apply safe_upd_shared. Qed.

Lemma safe_policy {A} f (a : A) p (Q : A → localfs → Prop) :
  f (sh_policy c) = Ok (a, p) → Q a (set_shared (Some (sh_set_policy p c)) s) → safe (policy f) s Q.
Proof.
  intros Hf HQ. unfold policy. step. apply safe_get_shared. step_lift Hf. step. apply safe_upd_shared. by apply safe_ret.
Qed.
End rules.

(** What is done with the lock held does not look at it, and the lock is given
    back. *)
Lemma safe_locked {A} s c (m : LM A) (Q : A → localfs → Prop) :
  shared s = Some c → sh_lock c = false →
  safe m (set_shared (Some (sh_set_lock true c)) s) (λ a s', ∃ c', shared s' = Some c' ∧ Q a (set_shared (Some (sh_set_lock false c')) s')) →
  safe (locked m) s Q.
Proof.
  intros Hc Hl Hm. unfold locked. step. apply (safe_lock _ _ Hc); [done|]. step. eapply safe_mono; [exact Hm|].
  intros a s' (c' & Hc' & HQ). step. apply (safe_upd_shared _ _ Hc'). by apply safe_ret.
Qed.

Lemma safe_locked_policy {A} s c f (a : A) p (Q : A → localfs → Prop) :
  shared s = Some c → sh_lock c = false → f (sh_policy c) = Ok (a, p) →
  Q a (set_shared (Some (sh_set_policy p c)) s) → safe (locked (policy f)) s Q.
Proof.
  intros Hc Hl Hf HQ. apply (safe_locked s c); [done|done|]. eapply safe_policy; [reflexivity|exact Hf|].
  eexists. split; [reflexivity|]. destruct c. simpl in *. by subst.
Qed.

(** ** Requests *)

Lemma safe_get_req s a r (Q : localfs_request → localfs → Prop) : reqs s !! a = Some r → Q r s → safe (get_req a) s Q.
Proof. intros Hr HQ. unfold get_req. step. apply safe_get. rewrite Hr. by apply safe_ret. Qed.

Lemma safe_upd_req s a r f (Q : unit → localfs → Prop) :
  reqs s !! a = Some r → Q tt (set_reqs (<[a := f r]> (reqs s)) (next_addr s) s) → safe (upd_req a f) s Q.
Proof. intros Hr HQ. unfold upd_req. step. apply (safe_get_req _ _ _ _ Hr). by apply safe_modify. Qed.

(** The state after the callback of a request, which is gone. *)
Definition ended (a : Z) (cb : option Z) (st : priskv_backend_status) (len : Z) (val : list Z) (s : localfs) : localfs :=
  let s := set_reqs (delete a (reqs s)) (next_addr s) s in
  match cb with Some cbarg => add_call (mk_call cbarg st len val) s | None => s end.

Lemma safe_complete s a r (Q : unit → localfs → Prop) :
  reqs s !! a = Some r → Q tt (ended a (rq_cb r) (rq_status r) (rq_valuelen r) (rq_val r) s) →
  safe (localfs_complete_request a) s Q.
Proof.
  intros Hr HQ. unfold localfs_complete_request. step. apply (safe_get_req _ _ _ _ Hr). step. unfold call, localfs_free_request.
  unfold ended in HQ. destruct (rq_cb r); [apply safe_modify|apply safe_ret]; step;
    (eapply safe_get_req; [exact Hr|]); by apply safe_modify.
Qed.

(** Changing a request right before it is dropped. *)
Lemma safe_end_with {A} s a r f (x : A) (Q : A → localfs → Prop) :
  reqs s !! a = Some r → Q x (ended a (rq_cb (f r)) (rq_status (f r)) (rq_valuelen (f r)) (rq_val (f r)) s) →
  safe (upd_req a f;; localfs_complete_request a;; mret x) s Q.
Proof.
  intros Hr HQ. step. apply (safe_upd_req _ _ _ _ _ Hr). step. eapply safe_complete; [apply lookup_insert_eq|]. apply safe_ret.
  unfold ended in *. simpl in *. by rewrite delete_insert_eq.
Qed.

Section specs.
Context (open_errno stat_errno unlink_errno : list Z → Z).

(** A request that is refused right away. *)
Definition rejected (cb : option Z) (st : priskv_backend_status) (len : Z) (val : list Z) (s : localfs) : localfs :=
  let s := set_reqs (reqs s) (next_addr s + 1) s in
  match cb with Some cbarg => add_call (mk_call cbarg st len val) s | None => s end.

Lemma ended_new cb st len val s r : reqs s !! next_addr s = None →
  ended (next_addr s) cb st len val (set_reqs (<[next_addr s := r]> (reqs s)) (next_addr s + 1) s) = rejected cb st len val s.
Proof. intros Hf. unfold ended, rejected. simpl. by rewrite delete_insert_id. Qed.

Notation file_size := (λ s key, u32 (get_file_size stat_errno s key)).

Lemma safe_reject s cb r st (Q : option Z → localfs → Prop) :
  reqs s !! next_addr s = None → rq_cb r = cb → Q None (rejected cb st (rq_valuelen r) (rq_val r) s) →
  safe (fail_request (next_addr s) st) (set_reqs (<[next_addr s := r]> (reqs s)) (next_addr s + 1) s) Q.
Proof.
  intros Hf <- HQ. unfold fail_request. eapply safe_end_with; [apply lookup_insert_eq|]. simpl. by rewrite ended_new.
Qed.

Lemma safe_make_get s c ctx key val valuelen cb (Q : option Z → localfs → Prop) :
  shared s = Some c → reqs s !! next_addr s = None →
  (∀ st, st ≠ PRISKV_BACKEND_STATUS_OK → Q None (rejected cb st valuelen val s)) →
  (∀ i, dir s !! entry_of key = Some i → path_too_long (sh_path c) key = false → file_size s key <= valuelen →
     Q (Some (next_addr s)) (set_reqs (<[next_addr s :=
          mk_localfs_request ctx key val valuelen 0 cb (Some i) LOCALFS_OP_GET PRISKV_BACKEND_STATUS_OK false]> (reqs s)) (next_addr s + 1) s)) →
  safe (localfs_make_request open_errno stat_errno ctx key val valuelen LOCALFS_OP_GET cb) s Q.
Proof.
  intros Hc Hf HQ1 HQ2. unfold localfs_make_request. step. apply (safe_get_shared _ _ Hc). step. apply safe_get.
  step. apply safe_modify. destruct (path_too_long (sh_path c) key); [apply (safe_reject s cb); [done|done|by apply HQ1]|].
  rewrite bool_decide_eq_true_2, andb_true_l by done. destruct (Z.ltb_spec valuelen (file_size s key)).
  { apply (safe_reject s cb); [done|done|by apply HQ1]. }
  step. unfold open_read. step. apply safe_get. simpl. destruct (negb (open_errno key =? 0)).
  { apply safe_ret. apply (safe_reject s cb); [done|done|by apply HQ1]. }
  apply safe_ret. destruct (dir s !! entry_of key) as [i|] eqn:Hd; [|apply (safe_reject s cb); [done|done|by apply HQ1]].
  step. eapply safe_upd_req; [apply lookup_insert_eq|]. apply safe_ret. simpl. rewrite insert_insert_eq. by apply HQ2.
Qed.

(** Opening the file of a SET: an empty file. *)
Definition ino_of (s : localfs) (key : list Z) : Z := default (next_ino s) (dir s !! entry_of key).
Definition truncated (key : list Z) (s : localfs) : localfs :=
  match dir s !! entry_of key with
  | Some i => set_files (dir s) (<[i := []]> (inodes s)) (next_ino s) s
  | None => set_files (<[entry_of key := next_ino s]> (dir s)) (<[next_ino s := []]> (inodes s)) (next_ino s + 1) s
  end.

Lemma safe_make_set s c ctx key val valuelen cb (Q : option Z → localfs → Prop) :
  shared s = Some c → reqs s !! next_addr s = None →
  (∀ st, st ≠ PRISKV_BACKEND_STATUS_OK → Q None (rejected cb st valuelen val s)) →
  (path_too_long (sh_path c) key = false →
     Q (Some (next_addr s)) (set_reqs (<[next_addr s :=
          mk_localfs_request ctx key val valuelen (file_size s key) cb (Some (ino_of s key)) LOCALFS_OP_SET PRISKV_BACKEND_STATUS_OK false]>
          (reqs s)) (next_addr s + 1) (truncated key s))) →
  safe (localfs_make_request open_errno stat_errno ctx key val valuelen LOCALFS_OP_SET cb) s Q.
Proof.
  intros Hc Hf HQ1 HQ2. unfold localfs_make_request. step. apply (safe_get_shared _ _ Hc). step. apply safe_get.
  step. apply safe_modify. destruct (path_too_long (sh_path c) key); [apply (safe_reject s cb); [done|done|by apply HQ1]|].
  step. eapply safe_upd_req; [apply lookup_insert_eq|]. simpl. rewrite insert_insert_eq. step. unfold open_write. step. apply safe_get.
  destruct (negb (open_errno key =? 0)).
  { apply safe_ret. apply (safe_reject s cb); [done|done|by apply HQ1]. }
  unfold truncated, ino_of in HQ2. simpl. destruct (dir s !! entry_of key) as [i|] eqn:Hd.
  all: step; apply safe_modify; apply safe_ret; step; (eapply safe_upd_req; [apply lookup_insert_eq|]); apply safe_ret; simpl;
    rewrite insert_insert_eq; by apply HQ2.
Qed.
End specs.

(** ** Submission and completion *)

(** The context is not locked, and one more request fits. *)
Definition ready (c : localfs_shared_context) : Prop :=
  sh_lock c = false ∧ sh_queue_lock c = false ∧ 0 <= sh_inflight_count c < sh_max_depth c ∧ sh_max_depth c < 2 ^ 32.

Definition counted (c : localfs_shared_context) : localfs_shared_context :=
  sh_set_queue (sh_inflight_count c + 1) (sh_pending_queue c) c.

(** The kernel has the request, on its thread's ring. *)
Definition submitted (a : Z) (r : localfs_request) (c : localfs_shared_context) (s : localfs) : localfs :=
  set_shared (Some c) (set_queues [] (flying s ++ [(rq_ctx r, Some a)]) (cqes s) s).

Lemma counted_eq c : ready c →
  sh_set_queue_lock false (sh_set_queue (u32 (sh_inflight_count (sh_set_queue_lock true c) + 1))
    (sh_pending_queue (sh_set_queue_lock true c)) (sh_set_queue_lock true c)) = counted c.
Proof. intros (_ & Hq & Hi & Hm). unfold counted. simpl. rewrite u32_small by lia. destruct c. simpl in *. by subst. Qed.

(** The beginning of a submission. *)
Lemma safe_submit s c a r (Q : bool → localfs → Prop) :
  shared s = Some c → ready c → reqs s !! a = Some r → rq_ctx r ∈ rings s →
  safe (match rq_op_type r with
        | LOCALFS_OP_GET =>
            ref_acquired ← locked (policy_try_ref (rq_key r));
            if ref_acquired : bool then io_uring_prep (rq_ctx r) a;; io_uring_submit (rq_ctx r);; mret true
            else uncount;; fail_request a PRISKV_BACKEND_STATUS_NOT_FOUND;; mret false
        | LOCALFS_OP_SET => io_uring_prep (rq_ctx r) a;; io_uring_submit (rq_ctx r);; mret true
        | _ => uncount;; fail_request a PRISKV_BACKEND_STATUS_ERROR;; mret false
        end) (set_shared (Some (counted c)) (set_queues (sqes s ++ [(rq_ctx r, None)]) (flying s) (cqes s) s)) Q →
  safe (submit_io_request true a) s Q.
Proof.
  intros Hc Hr Ha Hin HQ. pose proof Hr as (Hl & Hq & Hi & Hm). unfold submit_io_request.
  step. apply (safe_get_req _ _ _ _ Ha). step. apply safe_get. rewrite bool_decide_eq_true_2 by done. simpl.
  step. apply (safe_queue_lock _ _ Hc); [done|]. step. eapply safe_get_shared; [reflexivity|].
  change (sh_max_depth (sh_set_queue_lock true c)) with (sh_max_depth c).
  change (sh_inflight_count (sh_set_queue_lock true c)) with (sh_inflight_count c).
  rewrite (proj2 (Z.leb_gt _ _)) by lia. step. apply safe_modify.
  step. eapply safe_upd_shared; [reflexivity|]. step. eapply safe_upd_shared; [reflexivity|].
  rewrite <- (counted_eq c Hr) in HQ. exact HQ.
Qed.

Lemma safe_prep_submit s c a r (Q : bool → localfs → Prop) :
  sqes s = [] → Q true (submitted a r c s) →
  safe (io_uring_prep (rq_ctx r) a;; io_uring_submit (rq_ctx r);; mret true)
    (set_shared (Some c) (set_queues (sqes s ++ [(rq_ctx r, None)]) (flying s) (cqes s) s)) Q.
Proof.
  intros Hs HQ. step. apply safe_modify. step. apply safe_modify. apply safe_ret. simpl. rewrite Hs. simpl.
  rewrite filter_cons_False, filter_nil by (simpl; auto). rewrite filter_cons_True, filter_nil by done. exact HQ.
Qed.

Lemma safe_submit_set s c a r (Q : bool → localfs → Prop) :
  shared s = Some c → ready c → reqs s !! a = Some r → rq_ctx r ∈ rings s → sqes s = [] → rq_op_type r = LOCALFS_OP_SET →
  Q true (submitted a r (counted c) s) → safe (submit_io_request true a) s Q.
Proof.
  intros Hc Hr Ha Hin Hs Hop HQ. apply (safe_submit s c a r); [done..|]. rewrite Hop. by apply safe_prep_submit.
Qed.

Lemma safe_submit_get s c a r p (Q : bool → localfs → Prop) :
  shared s = Some c → ready c → reqs s !! a = Some r → rq_ctx r ∈ rings s → sqes s = [] → rq_op_type r = LOCALFS_OP_GET →
  lru_policy_try_ref_key (sh_policy c) (rq_key r) = Ok (true, p) →
  Q true (submitted a r (sh_set_policy p (counted c)) s) → safe (submit_io_request true a) s Q.
Proof.
  intros Hc Hr Ha Hin Hs Hop Hp HQ. apply (safe_submit s c a r); [done..|]. rewrite Hop. step.
  eapply safe_locked_policy; [reflexivity|apply Hr|exact Hp|].
  apply (safe_prep_submit s (sh_set_policy p (counted c))); done.
Qed.

(** A GET that is completed. *)
Lemma safe_cqe_get s c a r p n (Q : bool → localfs → Prop) :
  shared s = Some c → sh_lock c = false → reqs s !! a = Some r → rq_op_type r = LOCALFS_OP_GET →
  lru_policy_unref_key (sh_policy c) (rq_key r) = Ok p →
  (n < 0 → Q false (ended a (rq_cb r) PRISKV_BACKEND_STATUS_ERROR (rq_valuelen r) (rq_val r) (set_shared (Some (sh_set_policy p c)) s))) →
  (0 <= n → Q true (ended a (rq_cb r) PRISKV_BACKEND_STATUS_OK n (rq_val r) (set_shared (Some (sh_set_policy p c)) s))) →
  safe (handle_cqe (Some a) n) s Q.
Proof.
  intros Hc Hl Ha Hop Hp H1 H2. unfold handle_cqe. step. apply (safe_get_req _ _ _ _ Ha). rewrite Hop.
  destruct (Z.ltb_spec n 0).
  - step. apply (safe_upd_req _ _ _ _ _ Ha). step. eapply safe_locked_policy; [exact Hc|done|simpl; rewrite Hp; reflexivity|].
    step. eapply safe_complete; [apply lookup_insert_eq|]. apply safe_ret. specialize (H1 ltac:(lia)). unfold ended in *. simpl in *.
    by rewrite delete_insert_eq.
  - step. eapply safe_locked_policy; [exact Hc|done|simpl; rewrite Hp; reflexivity|].
    unfold succeed_request. eapply safe_end_with; [exact Ha|]. simpl. by apply H2.
Qed.

(** A SET that is completed: not all bytes, or all. *)
Lemma safe_cqe_set_short s c a r n (Q : bool → localfs → Prop) :
  shared s = Some c → sh_lock c = false → reqs s !! a = Some r → rq_op_type r = LOCALFS_OP_SET → n < 0 ∨ n ≠ rq_valuelen r →
  Q false (ended a (rq_cb r) PRISKV_BACKEND_STATUS_ERROR (rq_valuelen r) (rq_val r) s) →
  safe (handle_cqe (Some a) n) s Q.
Proof.
  intros Hc Hl Ha Hop Hn HQ. unfold handle_cqe. step. apply (safe_get_req _ _ _ _ Ha). rewrite Hop.
  destruct (Z.ltb_spec n 0).
  - step. apply (safe_upd_req _ _ _ _ _ Ha). step. apply safe_ret. step. eapply safe_complete; [apply lookup_insert_eq|].
    apply safe_ret. unfold ended in *. simpl in *. by rewrite delete_insert_eq.
  - rewrite (proj2 (Z.eqb_neq _ _)) by lia. simpl. step. apply (safe_locked s c); [done|done|].
    eapply safe_upd_req; [exact Ha|]. eexists. split; [reflexivity|]. step. eapply safe_complete; [apply lookup_insert_eq|].
    apply safe_ret. unfold ended in *. simpl in *. rewrite delete_insert_eq.
    assert (sh_set_lock false (sh_set_lock true c) = c) as -> by (destruct c; simpl in *; by subst).
    destruct s. simpl in *. by subst.
Qed.

Lemma safe_cqe_set s c a r p n (Q : bool → localfs → Prop) :
  shared s = Some c → sh_lock c = false → reqs s !! a = Some r → rq_op_type r = LOCALFS_OP_SET → n = rq_valuelen r →
  0 <= rq_valuelen r < 2 ^ 62 → 0 <= rq_old_valuelen r < 2 ^ 62 →
  lru_policy_access (sh_policy c) (rq_key r) = Ok p →
  Q true (ended a (rq_cb r) PRISKV_BACKEND_STATUS_OK (rq_valuelen r) (rq_val r)
     (set_shared (Some (sh_set_policy p (sh_set_free_size (u64 (sh_free_size c - (rq_valuelen r - rq_old_valuelen r))) c))) s)) →
  safe (handle_cqe (Some a) n) s Q.
Proof.
  intros Hc Hl Ha Hop -> Hv Ho Hp HQ. unfold handle_cqe. step. apply (safe_get_req _ _ _ _ Ha). rewrite Hop.
  rewrite (proj2 (Z.ltb_ge _ _)), Z.eqb_refl by lia. simpl. step. apply (safe_locked s c); [done|done|].
  step. eapply safe_upd_shared; [reflexivity|]. eapply safe_policy; [reflexivity|simpl; rewrite Hp; reflexivity|].
  eexists. split; [reflexivity|]. unfold succeed_request. eapply safe_end_with; [exact Ha|]. simpl.
  rewrite (s64_small (rq_valuelen r)), (s64_small (rq_old_valuelen r)), s64_small by lia.
  match goal with |- Q true (ended _ _ _ _ _ (set_shared (Some (sh_set_lock false ?x)) _)) =>
    replace (sh_set_lock false x) with (sh_set_policy p (sh_set_free_size (u64 (sh_free_size c - (rq_valuelen r - rq_old_valuelen r))) c)) end;
  [exact HQ|].
  destruct c. simpl in *. subst. unfold sh_set_lock, sh_set_policy, sh_set_free_size. simpl. f_equal.
  destruct (0 <? _); f_equal; lia.
Qed.
