(* ===== verification/LocalFsSafe.v ===== *)
(** * Requests in flight on local files

    Operations, completions and the work of the kernel come in any order. Every
    operation is called back once, no request is used after it was freed, no lock
    is taken twice, and the completion queue cannot overflow - as long as nothing
    has to wait and no GET finds a file the policy does not know. *)

From S2P Require Import Prelude State CString ServerModel Backend Policy LocalFs LocalFsSpec.

(** ** Reads in flight *)

Definition is_get (key : list Z) (x : Z * localfs_request) : Prop := rq_op_type x.2 = LOCALFS_OP_GET ∧ rq_key x.2 = key.
Global Instance is_get_dec key x : Decision (is_get key x).
Proof. unfold is_get. apply _. Defined.

Definition gets (key : list Z) (m : gmap Z localfs_request) : Z := Z.of_nat (length (filter (is_get key) (map_to_list m))).

Lemma gets_insert key m a r : m !! a = None → gets key (<[a := r]> m) = (if decide (is_get key (a, r)) then 1 else 0) + gets key m.
Proof.
  intros Hn. unfold gets. rewrite (map_to_list_insert m a r Hn). destruct (decide _).
  - rewrite filter_cons_True by done. simpl length. lia.
  - by rewrite filter_cons_False by done.
Qed.

Lemma gets_delete key m a r : m !! a = Some r → gets key m = (if decide (is_get key (a, r)) then 1 else 0) + gets key (delete a m).
Proof. intros Hs. rewrite <- gets_insert by apply lookup_delete_eq. by rewrite insert_delete_id. Qed.

Lemma gets_update key m a r r' : m !! a = Some r → rq_op_type r' = rq_op_type r → rq_key r' = rq_key r →
  gets key (<[a := r']> m) = gets key m.
Proof.
  intros Hs Hop Hk. rewrite <- insert_delete_eq, gets_insert by apply lookup_delete_eq. rewrite (gets_delete key m a r Hs).
  f_equal. destruct (decide _) as [[]|], (decide _) as [[]|]; unfold is_get in *; simpl in *; naive_solver congruence.
Qed.

Lemma gets_pos key m : 0 <= gets key m.
Proof. unfold gets. lia. Qed.

Lemma gets_size key m l : NoDup l → (∀ a, is_Some (m !! a) → a ∈ l) → gets key m <= Z.of_nat (length l).
Proof.
  intros Hnd Hl. unfold gets. etrans; [apply Nat2Z.inj_le, length_filter|].
  rewrite <- (length_fmap fst). apply Nat2Z.inj_le, submseteq_length, NoDup_submseteq; [apply NoDup_fst_map_to_list|].
  intros a Ha. apply list_elem_of_fmap in Ha as ([x r] & -> & Ha). apply elem_of_map_to_list in Ha. apply Hl. by eexists.
Qed.

(** ** The invariant *)

(** The entries of the rings; [todo] are the completions being handled. *)
Definition tags (s : localfs) (todo : list (Z * option Z * Z)) : list (option Z) :=
  (snd <$> flying s) ++ ((λ e, e.1.2) <$> cqes s) ++ ((λ e, e.1.2) <$> todo).

Definition live_cbs (s : localfs) (l : list Z) : list Z := omap (λ a, reqs s !! a ≫= rq_cb) l.

(** Requests the driver submits. *)
Definition req_ok (r : localfs_request) : Prop :=
  rq_op_type r = LOCALFS_OP_GET ∨
  rq_op_type r = LOCALFS_OP_SET ∧ 0 <= rq_valuelen r < 2 ^ 62 ∧ 0 <= rq_old_valuelen r < 2 ^ 62.

(** [l]: the requests; [n]: completions that are not yet taken off the count;
    [I]: the arguments of the callbacks of all operations. *)
Record linv (c : localfs_shared_context) (l : list Z) (todo : list (Z * option Z * Z)) (n : Z) (I : list Z) (s : localfs) : Prop := mk_linv {
  lv_shared : shared s = Some c;
  lv_lock : sh_lock c = false;
  lv_queue_lock : sh_queue_lock c = false;
  lv_pending : sh_pending_queue c = [];
  lv_depth : sh_max_depth c = DEFAULT_MAX_DEPTH;
  lv_policy : lru_wf (sh_policy c);
  lv_sqes : sqes s = [];
  lv_tags : tags s todo ≡ₚ Some <$> l;
  lv_nodup : NoDup l;
  lv_live a : is_Some (reqs s !! a) ↔ a ∈ l;
  lv_fresh a : a ∈ l → a < next_addr s;
  lv_req a r : reqs s !! a = Some r → req_ok r;
  lv_count : 0 <= n ∧ Z.of_nat (length l) + n <= sh_inflight_count c <= DEFAULT_MAX_DEPTH;
  lv_readers key r : readers (view (sh_policy c)) key = Some r → 0 <= r <= gets key (reqs s);
  lv_calls : I ≡ₚ (lc_cbarg <$> calls s) ++ live_cbs s l
}.

Lemma live_cbs_perm s l l' : l ≡ₚ l' → live_cbs s l ≡ₚ live_cbs s l'.
Proof. intros Hp. unfold live_cbs. by rewrite Hp. Qed.

Lemma live_cbs_ext s s' l : (∀ a, a ∈ l → reqs s' !! a ≫= rq_cb = reqs s !! a ≫= rq_cb) → live_cbs s' l = live_cbs s l.
Proof.
  unfold live_cbs. induction l as [|a l IH]; intros He; [done|]. cbn [omap list_omap]. rewrite (He a ltac:(left)).
  rewrite IH; [done|]. intros b Hb. apply He. by right.
Qed.

Lemma linv_perm c l l' todo n I s : l ≡ₚ l' → linv c l todo n I s → linv c l' todo n I s.
Proof.
  intros Hp []. split; try done.
  - by rewrite <- Hp.
  - by rewrite <- Hp.
  - intros a. by rewrite <- Hp.
  - intros a. rewrite <- Hp. auto.
  - by rewrite <- Hp.
  - rewrite lv_calls0. by rewrite (live_cbs_perm s l l').
Qed.

Lemma tag_live c l todo n I s ud : linv c l todo n I s → ud ∈ tags s todo → ∃ a r, ud = Some a ∧ reqs s !! a = Some r.
Proof.
  intros Hi Hin. rewrite (lv_tags _ _ _ _ _ _ Hi) in Hin. apply list_elem_of_fmap in Hin as (a & -> & Hin).
  apply (lv_live _ _ _ _ _ _ Hi) in Hin as [r Hr]. by exists a, r.
Qed.

Lemma linv_files c l todo n I s d i m : linv c l todo n I s → linv c l todo n I (set_files d i m s).
Proof. by intros []. Qed.

(** The context can change where the invariant does not look. *)
Lemma linv_shared c c' l todo n I s :
  linv c l todo n I s → sh_lock c' = false → sh_queue_lock c' = false → sh_pending_queue c' = [] → sh_max_depth c' = sh_max_depth c →
  lru_wf (sh_policy c') → sh_inflight_count c' = sh_inflight_count c →
  (∀ key r, readers (view (sh_policy c')) key = Some r → 0 <= r <= gets key (reqs s)) →
  linv c' l todo n I (set_shared (Some c') s).
Proof. intros [] H1 H2 H3 H4 H5 H6 H7. split; try done; congruence. Qed.

Lemma linv_rejected c l todo n I s cb st len val :
  linv c l todo n I s → linv c l todo n (cb :: I) (rejected (Some cb) st len val s).
Proof.
  intros []. split; try done.
  - intros a Ha. specialize (lv_fresh0 a Ha). simpl. lia.
  - simpl. rewrite fmap_app, lv_calls0. simpl. rewrite <- app_assoc. by rewrite Permutation_middle.
Qed.

Lemma linv_call c l todo n I s cb st len val :
  linv c l todo n I s → linv c l todo n (cb :: I) (add_call (mk_call cb st len val) s).
Proof.
  intros []. split; try done. simpl. rewrite fmap_app, lv_calls0. simpl. rewrite <- app_assoc. by rewrite Permutation_middle.
Qed.

(** A new request goes to the kernel. *)
Lemma linv_submitted c c' l todo n I s r cb :
  linv c l todo n I s → req_ok r → rq_cb r = Some cb → sh_inflight_count c < sh_max_depth c →
  sh_lock c' = false → sh_queue_lock c' = false → sh_pending_queue c' = [] → sh_max_depth c' = sh_max_depth c →
  lru_wf (sh_policy c') → sh_inflight_count c' = sh_inflight_count c + 1 →
  (∀ key k, readers (view (sh_policy c')) key = Some k → 0 <= k <= gets key (<[next_addr s := r]> (reqs s))) →
  linv c' (next_addr s :: l) todo n (cb :: I)
    (submitted (next_addr s) r c' (set_reqs (<[next_addr s := r]> (reqs s)) (next_addr s + 1) s)).
Proof.
  intros [] Hok Hcb Hi H1 H2 H3 H4 H5 H6 H7.
  assert (next_addr s ∉ l) as Hnew by (intros Hin; specialize (lv_fresh0 _ Hin); lia).
  split; try done; simpl.
  - congruence.
  - unfold tags in *. simpl. rewrite fmap_app, <- app_assoc. simpl. rewrite <- Permutation_middle. by rewrite lv_tags0.
  - by constructor.
  - intros a. rewrite lookup_insert_is_Some, elem_of_cons, <- lv_live0. destruct (decide (next_addr s = a)); naive_solver.
  - intros a Ha. apply elem_of_cons in Ha as [->|Ha]; [lia|]. specialize (lv_fresh0 a Ha). lia.
  - intros a x Hx. apply lookup_insert_Some in Hx as [[_ <-]|[_ Hx]]; [done|eauto].
  - rewrite lv_depth0 in Hi. rewrite Nat2Z.inj_succ. lia.
  - rewrite lookup_insert_eq. simpl. rewrite Hcb.
    fold (live_cbs (set_reqs (<[next_addr s := r]> (reqs s)) 0 s) l).
    rewrite (live_cbs_ext s), lv_calls0; [by rewrite Permutation_middle|].
    intros a Ha. simpl. by rewrite lookup_insert_ne by (intros <-; done).
Qed.

(** A request that was completed is called back and freed. *)
Lemma linv_ended c c' l ctx a k todo n n' I s r st len val :
  linv c l ((ctx, Some a, k) :: todo) n I s → reqs s !! a = Some r →
  sh_lock c' = false → sh_queue_lock c' = false → sh_pending_queue c' = [] → sh_max_depth c' = sh_max_depth c →
  lru_wf (sh_policy c') → sh_inflight_count c' = sh_inflight_count c → n <= n' <= n + 1 →
  (∀ key x, readers (view (sh_policy c')) key = Some x → 0 <= x <= gets key (delete a (reqs s))) →
  ∃ l', linv c' l' todo n' I (ended a (rq_cb r) st len val (set_shared (Some c') s)).
Proof.
  intros Hi Ha H1 H2 H3 H4 H5 H6 H7 H8. assert (a ∈ l) as Hin by (apply (lv_live _ _ _ _ _ _ Hi); eauto).
  apply elem_of_Permutation in Hin as [l' Hp]. apply (linv_perm _ _ _ _ _ _ _ Hp) in Hi. destruct Hi.
  apply NoDup_cons in lv_nodup0 as [Hal Hnd]. exists l'.
  assert (tags s todo ≡ₚ Some <$> l') as Ht.
  { unfold tags in *. simpl in lv_tags0. rewrite app_assoc, <- Permutation_middle, <- app_assoc in lv_tags0.
    by apply Permutation_cons_inv in lv_tags0. }
  assert (∀ x, is_Some (delete a (reqs s) !! x) ↔ x ∈ l') as Hlive.
  { intros x. rewrite lookup_delete_is_Some, lv_live0, elem_of_cons. split; [naive_solver|]. intros Hx. split; [by intros ->|by right]. }
  assert (lc_cbarg <$> calls s ++ match rq_cb r with Some b => [mk_call b st len val] | None => [] end ≡ₚ
          match rq_cb r with Some b => [b] | None => [] end ++ (lc_cbarg <$> calls s)) as Hcalls.
  { rewrite fmap_app. destruct (rq_cb r); simpl; [by rewrite <- Permutation_cons_append|by rewrite app_nil_r]. }
  assert (I ≡ₚ (lc_cbarg <$> calls s ++ match rq_cb r with Some b => [mk_call b st len val] | None => [] end) ++
            live_cbs (set_reqs (delete a (reqs s)) 0 s) l') as HI.
  { rewrite Hcalls, lv_calls0. unfold live_cbs. cbn [omap list_omap]. rewrite Ha. cbn [mbind option_bind].
    fold (live_cbs s l') (live_cbs (set_reqs (delete a (reqs s)) 0 s) l').
    rewrite (live_cbs_ext s (set_reqs (delete a (reqs s)) 0 s)) by (intros x Hx; simpl; by rewrite lookup_delete_ne by (intros <-; done)).
    destruct (rq_cb r); simpl; [symmetry; apply Permutation_middle|done]. }
  assert (0 <= n' ∧ Z.of_nat (length l') + n' <= sh_inflight_count c' <= DEFAULT_MAX_DEPTH) as Hn.
  { simpl in lv_count0. rewrite Nat2Z.inj_succ in lv_count0. lia. }
  unfold ended. destruct (rq_cb r); split; try done; simpl; try congruence.
  all: try (intros x Hx; apply lv_fresh0; by right).
  all: try (intros x y Hx; apply lookup_delete_Some in Hx as [_ Hx]; eauto).
  by rewrite app_nil_r in HI.
Qed.

Lemma handle_cqe_inv c l ctx a k todo n I s : linv c l ((ctx, Some a, k) :: todo) n I s →
  safe (handle_cqe (Some a) k) s (λ b s', ∃ c' l', linv c' l' todo (if b : bool then n + 1 else n) I s').
Proof.
  intros Hi. destruct (tag_live _ _ _ _ _ _ (Some a) Hi) as (? & r & [= <-] & Ha); [unfold tags; simpl; set_solver|]. pose proof Hi as []. pose proof (gets_delete (rq_key r) _ _ _ Ha) as Hg.
  assert (∀ key, gets key (delete a (reqs s)) = gets key (reqs s) ∨ rq_op_type r = LOCALFS_OP_GET ∧ rq_key r = key) as Hother.
  { intros key. rewrite (gets_delete key _ _ _ Ha). destruct (decide (is_get key (a, r))) as [Hk|]; [by right|left; lia]. }
  destruct (lv_req0 a r Ha) as [Hop|(Hop & Hv & Ho)].
  - destruct (unref_spec (sh_policy c) (rq_key r) lv_policy0) as (p & Hp & Hw & Hview).
    assert (∀ b st len, n <= (if b : bool then n + 1 else n) <= n + 1 → ∃ l', linv (sh_set_policy p c) l' todo (if b : bool then n + 1 else n) I
      (ended a (rq_cb r) st len (rq_val r) (set_shared (Some (sh_set_policy p c)) s))) as Hend.
    { intros b st len Hb. eapply linv_ended; [exact Hi|done..|]. intros key x. simpl. rewrite Hview, readers_unref.
      destruct (decide (rq_key r = key)) as [<-|Hne].
      - destruct (readers (view (sh_policy c)) (rq_key r)) as [y|] eqn:Hy; [|done]. intros [= <-]. apply lv_readers0 in Hy.
        rewrite Hg in Hy. pose proof (gets_pos (rq_key r) (delete a (reqs s))). destruct (decide (is_get _ _)); case_decide; lia.
      - intros Hx. apply lv_readers0 in Hx. by destruct (Hother key) as [->|[_ ?]]. }
    eapply safe_cqe_get; [done..|exact Hp| |]; intros _; exists (sh_set_policy p c);
      [apply (Hend false); lia|apply (Hend true); lia].
  - assert (∀ key x, readers (view (sh_policy c)) key = Some x → 0 <= x <= gets key (delete a (reqs s))) as Hrd.
    { intros key x Hx. apply lv_readers0 in Hx. destruct (Hother key) as [->|[? _]]; [done|congruence]. }
    destruct (decide (k = rq_valuelen r)) as [->|Hk].
    + destruct (access_spec (sh_policy c) (rq_key r) lv_policy0) as (p & Hp & Hw & Hview).
      eapply safe_cqe_set; [done..|exact Hp|]. eexists. eapply linv_ended; [exact Hi|done..|lia|].
      intros key x. simpl. rewrite Hview, readers_access. destruct (decide (rq_key r = key)) as [<-|]; [|by apply Hrd].
      intros [= <-]. destruct (readers _ _) eqn:Hy; [by apply Hrd|]. simpl. pose proof (gets_pos (rq_key r) (delete a (reqs s))). lia.
    + eapply safe_cqe_set_short; [done..|by right|]. exists c.
      assert (set_shared (Some c) s = s) as Hs by (destruct s; simpl in *; by subst).
      destruct (linv_ended c c l ctx a k todo n n I s r PRISKV_BACKEND_STATUS_ERROR (rq_valuelen r) (rq_val r)) as [l' Hl'];
        [done..|lia|done|]. rewrite Hs in Hl'. by exists l'.
Qed.

Lemma handle_cqes_inv : ∀ todo c l n I s, linv c l todo n I s →
  safe (handle_cqes todo n) s (λ n' s', ∃ c' l', linv c' l' [] n' I s').
Proof.
  induction todo as [|[[ctx ud] k] todo IH]; intros c l n I s Hi; cbn [handle_cqes]; [apply safe_ret; by exists c, l|].
  destruct (tag_live _ _ _ _ _ _ ud Hi) as (a & _ & -> & _); [unfold tags; simpl; set_solver|].
  step. eapply safe_mono; [by eapply handle_cqe_inv|]. intros b s' (c' & l' & Hi'). by eapply IH.
Qed.

(** ** Every step *)

Lemma cqes_split (es : list (Z * option Z * Z)) ctx :
  (λ e, e.1.2) <$> es ≡ₚ ((λ e, e.1.2) <$> filter (λ e, e.1.1 ≠ ctx) es) ++ ((λ e, e.1.2) <$> filter (λ e, e.1.1 = ctx) es).
Proof.
  induction es as [|e es IH]; [done|]. rewrite fmap_cons, IH, !filter_cons. destruct (decide (e.1.1 = ctx)).
  - rewrite decide_False by auto. rewrite fmap_cons. by rewrite Permutation_middle.
  - by rewrite decide_True, fmap_cons.
Qed.

Lemma submit_pending_none s c sqe_ok fuel (Q : unit → localfs → Prop) :
  shared s = Some c → sh_pending_queue c = [] → Q tt s → safe (submit_pending sqe_ok (S fuel)) s Q.
Proof.
  intros Hc Hp HQ. cbn [submit_pending]. step. apply (safe_get_shared _ _ Hc). rewrite Hp. destruct (_ <? _); by apply safe_ret.
Qed.

Lemma handle_events_inv c l I s sqe_ok ctx : linv c l [] 0 I s →
  safe (handle_io_uring_events sqe_ok ctx) s (λ _ s', ∃ c' l', linv c' l' [] 0 I s').
Proof.
  intros Hi. unfold handle_io_uring_events. step. apply safe_get. step. apply (safe_get_shared _ c); [apply Hi|].
  step. apply safe_modify. step.
  assert (linv c l (filter (λ e, e.1.1 = ctx) (cqes s)) 0 I
    (set_queues (sqes s) (flying s) (filter (λ e, e.1.1 ≠ ctx) (cqes s)) s)) as Hi1.
  { destruct Hi. split; try done. unfold tags in *. simpl in *. by rewrite <- cqes_split, <- (app_nil_r (_ <$> cqes s)). }
  eapply safe_mono; [by eapply handle_cqes_inv|]. intros n s1 (c1 & l1 & Hi2). pose proof Hi2 as [].
  destruct (Z.eqb_spec n 0) as [->|Hn]; [apply safe_ret; by exists c1, l1|].
  step. apply (safe_queue_lock _ _ lv_shared0); [done|]. step. eapply safe_upd_shared; [reflexivity|].
  step. eapply safe_get_shared; [reflexivity|]. step. eapply submit_pending_none; [reflexivity|done|].
  eapply safe_upd_shared; [reflexivity|]. simpl. rewrite (proj2 (Z.ltb_ge _ _)) by lia.
  eexists _, l1. split; try done; simpl. lia.
Qed.

Lemma take_out_perm {A} `{EqDecision A} (x : A) l : x ∈ l → l ≡ₚ x :: take_out x l.
Proof.
  induction l as [|y l IH]; intros Hx; [by apply not_elem_of_nil in Hx|]. simpl. destruct (decide (x = y)) as [->|]; [done|].
  apply elem_of_cons in Hx as [?|Hx]; [done|]. rewrite IH at 1 by done. apply Permutation_swap.
Qed.

Lemma linv_update c l todo n I s a r r' :
  linv c l todo n I s → reqs s !! a = Some r → rq_op_type r' = rq_op_type r → rq_key r' = rq_key r → rq_cb r' = rq_cb r →
  rq_valuelen r' = rq_valuelen r → rq_old_valuelen r' = rq_old_valuelen r →
  linv c l todo n I (set_reqs (<[a := r']> (reqs s)) (next_addr s) s).
Proof.
  intros [] Ha H1 H2 H3 H4 H5. split; try done; simpl.
  - intros x. rewrite lookup_insert_is_Some, <- lv_live0. destruct (decide (a = x)) as [<-|]; naive_solver.
  - intros x y Hy. apply lookup_insert_Some in Hy as [[<- <-]|[_ Hy]]; [|eauto]. unfold req_ok. rewrite H1, H4, H5. by eapply lv_req0.
  - intros key k Hk. rewrite (gets_update key _ _ r) by done. by apply lv_readers0.
  - rewrite (live_cbs_ext s); [done|]. intros x Hx. simpl. destruct (decide (a = x)) as [<-|].
    + rewrite lookup_insert_eq, Ha. simpl. congruence.
    + by rewrite lookup_insert_ne.
Qed.

Lemma linv_done c l I s ctx a n : linv c l [] 0 I s → (ctx, Some a) ∈ flying s →
  linv c l [] 0 I (set_queues (sqes s) (take_out (ctx, Some a) (flying s)) (cqes s ++ [(ctx, Some a, n)]) s).
Proof.
  intros [] Hin. split; try done. etrans; [|exact lv_tags0]. unfold tags. simpl.
  assert ((flying s).*2 ≡ₚ Some a :: (take_out (ctx, Some a) (flying s)).*2) as -> by (by rewrite (take_out_perm _ _ Hin) at 1).
  rewrite fmap_app. simpl. rewrite !app_nil_r, app_assoc. by rewrite <- Permutation_cons_append.
Qed.

Lemma io_done_inv c l I s ctx a n : linv c l [] 0 I s → (ctx, Some a) ∈ flying s →
  safe (io_done ctx (Some a) n) s (λ _ s', ∃ c' l', linv c' l' [] 0 I s').
Proof.
  intros Hi Hin. unfold io_done. destruct (tag_live _ _ _ _ _ _ (Some a) Hi) as (? & r & [= <-] & Ha).
  { unfold tags. apply elem_of_app. left. apply list_elem_of_fmap. by exists (ctx, Some a). }
  step. step. apply (safe_get_req _ _ _ _ Ha). step. apply safe_get.
  destruct (rq_fd r ≫= _) as [[i v]|]; [|apply safe_ret, safe_modify; exists c, l; by apply linv_done].
  destruct (n <? 0); [apply safe_ret, safe_modify; exists c, l; by apply linv_done|].
  assert (∀ u, safe (upd_req a (with_val u)) s (λ _ s', linv c l [] 0 I s' ∧ flying s' = flying s)) as Hu.
  { intros u. eapply safe_upd_req; [done|]. split; [|done]. by eapply linv_update. }
  assert (∀ s', linv c l [] 0 I s' ∧ flying s' = flying s → safe (modify (λ s, set_queues (sqes s) (take_out (ctx, Some a) (flying s))
    (cqes s ++ [(ctx, Some a, n)]) s)) s' (λ (_ : unit) s', ∃ c' l', linv c' l' [] 0 I s')) as Hend.
  { intros s' [Hi' Hf]. apply safe_modify. exists c, l. apply linv_done; [done|by rewrite Hf]. }
  destruct (rq_op_type r); try (eapply safe_mono; [apply Hu|]; intros u s' Hs'; by apply Hend).
  apply safe_modify. apply Hend. split; [by apply linv_files|done].
Qed.

Section operations.
Context (open_errno stat_errno unlink_errno : list Z → Z).

Lemma linv_fresh c l todo n I s : linv c l todo n I s → reqs s !! next_addr s = None.
Proof.
  intros Hi. apply eq_None_not_Some. intros Hs. apply (lv_live _ _ _ _ _ _ Hi), (lv_fresh _ _ _ _ _ _ Hi) in Hs. lia.
Qed.

(** Few enough reads for their count. *)
Lemma readers_bound c l todo n I s key : linv c l todo n I s →
  0 <= default 0 (readers (view (sh_policy c)) key) <= gets key (reqs s) ∧ gets key (reqs s) <= DEFAULT_MAX_DEPTH.
Proof.
  intros []. split.
  - destruct (readers _ _) eqn:Hr; [by apply lv_readers0|]. simpl. pose proof (gets_pos key (reqs s)). lia.
  - etrans; [apply (gets_size key _ l)|lia]; [done|]. intros a Ha. by apply lv_live0.
Qed.

Lemma try_ref_ok c l todo n I s key : linv c l todo n I s →
  ∃ b p, lru_policy_try_ref_key (sh_policy c) key = Ok (b, p) ∧ lru_wf p ∧
    match readers (view (sh_policy c)) key with
    | Some r => b = true ∧ view p = (key, r + 1) :: without (view (sh_policy c)) key
    | None => b = false ∧ p = sh_policy c
    end.
Proof.
  intros Hi. pose proof (readers_bound _ _ _ _ _ _ key Hi) as Hb. unfold DEFAULT_MAX_DEPTH in Hb.
  apply try_ref_spec; [apply Hi|lia].
Qed.

Lemma linv_ready c l I s : linv c l [] 0 I s → sh_inflight_count c < sh_max_depth c → ready c.
Proof. intros [] Hlt. rewrite lv_depth0 in *. unfold ready, DEFAULT_MAX_DEPTH in *. rewrite lv_depth0. split_and!; done || lia. Qed.

Lemma get_inv c l I s ctx key val valuelen cb :
  linv c l [] 0 I s → ctx ∈ rings s → sh_inflight_count c < sh_max_depth c →
  (is_Some (dir s !! entry_of key) → key ∈ (view (sh_policy c)).*1) →
  safe (localfs_get open_errno stat_errno (Some ctx) true key val valuelen (Some cb)) s (λ _ s', ∃ c' l', linv c' l' [] 0 (cb :: I) s').
Proof.
  intros Hi Hctx Hlt Hk. unfold localfs_get. step. eapply safe_make_get; [apply Hi|by eapply linv_fresh| |].
  - intros st _. apply safe_ret. exists c, l. by apply linv_rejected.
  - intros i Hd _ _. specialize (Hk (mk_is_Some _ _ Hd)). apply readers_Some in Hk as [r Hr].
    destruct (try_ref_ok _ _ _ _ _ _ key Hi) as (b & p & Hp & Hw & Hv). rewrite Hr in Hv. destruct Hv as [-> Hv].
    step. eapply safe_submit_get; [apply Hi|by eapply linv_ready|apply lookup_insert_eq|done|apply Hi|done|exact Hp|].
    apply safe_ret. eexists _, _. eapply linv_submitted; try done; try apply Hi; [by left|].
    intros k x. cbn [sh_policy sh_set_policy]. rewrite Hv, readers_front, gets_insert by (by eapply linv_fresh). destruct (decide (key = k)) as [<-|].
    + intros [= <-]. apply (lv_readers _ _ _ _ _ _ Hi) in Hr. rewrite decide_True by done. lia.
    + intros Hx. apply (lv_readers _ _ _ _ _ _ Hi) in Hx. destruct (decide _); lia.
Qed.

Lemma set_inv c l I s ctx key val valuelen timeout cb :
  linv c l [] 0 I s → ctx ∈ rings s → sh_inflight_count c < sh_max_depth c → 0 <= valuelen < 2 ^ 62 →
  safe (localfs_set open_errno stat_errno (Some ctx) true key val valuelen timeout (Some cb)) s (λ _ s', ∃ c' l', linv c' l' [] 0 (cb :: I) s').
Proof.
  intros Hi Hctx Hlt Hlen. unfold localfs_set. step. eapply safe_make_set; [apply Hi|by eapply linv_fresh| |].
  - intros st _. apply safe_ret. exists c, l. by apply linv_rejected.
  - intros _. step.
    assert (∃ s1, truncated key s = s1 ∧ linv c l [] 0 I s1 ∧ reqs s1 = reqs s ∧ next_addr s1 = next_addr s ∧ rings s1 = rings s)
      as (s1 & -> & Hi1 & Hr1 & Ha1 & Hring).
    { eexists. split; [done|]. unfold truncated. by destruct (dir s !! entry_of key); (split; [by apply linv_files|]). }
    rewrite <- Hr1, <- Ha1. rewrite <- Hring in Hctx.
    eapply safe_submit_set; [apply Hi1|by eapply linv_ready|apply lookup_insert_eq|done|apply Hi1|done|].
    apply safe_ret. eexists _, _. eapply linv_submitted; try done; try apply Hi1.
    + right. split; [done|]. split; [done|]. simpl. pose proof (u32_range (get_file_size stat_errno s key)). lia.
    + intros k x Hx. apply (lv_readers _ _ _ _ _ _ Hi1) in Hx. rewrite gets_insert by (by eapply linv_fresh). destruct (decide _); lia.
Qed.

Lemma safe_unlink s key (Q : bool → localfs → Prop) :
  Q true s → Q false (set_files (delete (entry_of key) (dir s)) (inodes s) (next_ino s) s) → safe (unlink_fails unlink_errno key) s Q.
Proof.
  intros H1 H2. unfold unlink_fails. step. apply safe_get. destruct (negb _); [by apply safe_ret|]. step. apply safe_modify. by apply safe_ret.
Qed.

Lemma linv_policy c l todo n I s p f :
  linv c l todo n I s → lru_wf p → (∀ key r, readers (view p) key = Some r → 0 <= r <= gets key (reqs s)) →
  linv (sh_set_policy p (sh_set_free_size f c)) l todo n I (set_shared (Some (sh_set_policy p (sh_set_free_size f c))) s).
Proof. intros Hi Hw Hr. eapply linv_shared; [exact Hi|..]; try done; apply Hi. Qed.

Lemma readers_without_ok c l todo n I s k key r : linv c l todo n I s →
  readers (without (view (sh_policy c)) k) key = Some r → 0 <= r <= gets key (reqs s).
Proof. intros Hi. rewrite readers_without. destruct (decide _); [done|]. apply Hi. Qed.

Lemma safe_call cbarg st len val s (Q : unit → localfs → Prop) :
  Q tt (add_call (mk_call cbarg st len val) s) → safe (call (Some cbarg) st len val) s Q.
Proof. intros HQ. by apply safe_modify. Qed.

(** The room a deleted file gives back. *)
Lemma safe_give_back s c n (Q : unit → localfs → Prop) : shared s = Some c → sh_lock c = false →
  Q tt (set_shared (Some (sh_set_free_size (u64 (sh_free_size c + n)) c)) s) →
  safe (locked (upd_shared (λ c, sh_set_free_size (u64 (sh_free_size c + n)) c))) s Q.
Proof.
  intros Hc Hl HQ. apply (safe_locked s c); [done|done|]. eapply safe_upd_shared; [reflexivity|]. eexists. split; [reflexivity|].
  destruct c. simpl in *. by subst.
Qed.

Lemma safe_give_back_del s c n key p (Q : unit → localfs → Prop) : shared s = Some c → sh_lock c = false →
  lru_policy_del_key (sh_policy c) key = Ok p →
  Q tt (set_shared (Some (sh_set_policy p (sh_set_free_size (u64 (sh_free_size c + n)) c))) s) →
  safe (locked (upd_shared (λ c, sh_set_free_size (u64 (sh_free_size c + n)) c);; policy_del key)) s Q.
Proof.
  intros Hc Hl Hp HQ. apply (safe_locked s c); [done|done|]. step. eapply safe_upd_shared; [reflexivity|].
  eapply safe_policy; [reflexivity|simpl; rewrite Hp; reflexivity|]. eexists. split; [reflexivity|]. destruct c. simpl in *. by subst.
Qed.

Lemma del_inv c l I s ctx uninit key cb : linv c l [] 0 I s →
  safe (localfs_del stat_errno unlink_errno (Some ctx) uninit key (Some cb)) s (λ _ s', ∃ c' l', linv c' l' [] 0 (cb :: I) s').
Proof.
  intros Hi. unfold localfs_del. step. apply (safe_get_shared _ c); [apply Hi|].
  destruct (path_too_long _ _); [apply safe_call; exists c, l; by apply linv_call|]. step. apply safe_get. step.
  apply safe_unlink; [apply safe_call; exists c, l; by apply linv_call|].
  destruct (del_key_spec (sh_policy c) key) as (p & Hp & Hw & Hv); [apply Hi|].
  step. eapply safe_give_back_del; [apply Hi|apply Hi|exact Hp|]. apply safe_call. eexists _, l. apply linv_call, linv_policy; [by apply linv_files|done|].
  intros k r. rewrite Hv. by apply (readers_without_ok c l [] 0 I s).
Qed.

Lemma evict_inv c l I s ctx cb : linv c l [] 0 I s →
  safe (localfs_evict stat_errno unlink_errno (Some ctx) (Some cb)) s (λ _ s', ∃ c' l', linv c' l' [] 0 (cb :: I) s').
Proof.
  intros Hi. unfold localfs_evict. step. apply (safe_get_shared _ c); [apply Hi|].
  destruct (evict_spec (sh_policy c)) as (v & p & Hp & Hw & _ & Hv); [apply Hi|].
  assert (linv (sh_set_policy p c) l [] 0 I (set_shared (Some (sh_set_policy p c)) s)) as Hi1.
  { eapply linv_shared; [exact Hi|..]; try done; try apply Hi. intros key r. simpl. rewrite Hv. destruct v; [by apply (readers_without_ok c l [] 0 I s)|apply Hi]. }
  step. eapply safe_locked_policy; [apply Hi|apply Hi|exact Hp|]. destruct v as [key|]; [|apply safe_call; eexists _, l; by apply linv_call].
  destruct (path_too_long _ _); [apply safe_call; eexists _, l; by apply linv_call|]. step. apply safe_get. step.
  apply safe_unlink; [apply safe_call; eexists _, l; by apply linv_call|].
  step. eapply safe_give_back; [reflexivity|apply Hi|]. apply safe_call. eexists _, l. apply linv_call.
  eapply linv_shared; [apply linv_files, Hi1|..]; try done; apply Hi1.
Qed.

Lemma test_inv c l I s ctx errno key cb : linv c l [] 0 I s →
  safe (localfs_test stat_errno (Some ctx) errno key (Some cb)) s (λ _ s', ∃ c' l', linv c' l' [] 0 (cb :: I) s').
Proof.
  intros Hi. unfold localfs_test. step. apply (safe_get_shared _ c); [apply Hi|].
  destruct (try_ref_ok _ _ _ _ _ _ key Hi) as (b & p & Hp & Hw & Hv).
  step. eapply safe_locked_policy; [apply Hi|apply Hi|exact Hp|].
  destruct (readers (view (sh_policy c)) key) as [r|] eqn:Hr; destruct Hv as [-> Hv]; simpl.
  - step. apply safe_get. destruct (unref_spec p key Hw) as (p' & Hp' & Hw' & Hv').
    step. eapply safe_locked_policy; [reflexivity|apply Hi|simpl; rewrite Hp'; reflexivity|].
    apply safe_call. eexists _, l. apply linv_call. change (set_shared (Some ?x) (set_shared _ ?s)) with (set_shared (Some x) s).
    eapply linv_shared; [exact Hi|..]; try done; try apply Hi. intros k x. simpl. rewrite Hv', readers_unref, Hv, readers_front.
    destruct (decide (key = k)) as [<-|]; [|apply Hi]. intros [= <-]. apply Hi in Hr. case_decide; [|lia]. replace (r + 1 - 1) with r by lia. done.
  - apply safe_call. eexists _, l. apply linv_call. subst p. eapply linv_shared; [exact Hi|..]; try done; apply Hi.
Qed.
End operations.

(** ** Runs *)

Inductive lf_event :=
  | EvGet (ctx : Z) (key val : list Z) (valuelen : Z) (cb : Z)
  | EvSet (ctx : Z) (key val : list Z) (valuelen timeout : Z) (cb : Z)
  | EvDel (ctx : Z) (uninit : Z) (key : list Z) (cb : Z)
  | EvTest (ctx : Z) (errno : Z) (key : list Z) (cb : Z)
  | EvEvict (ctx : Z) (cb : Z)
  | EvDone (ctx a n : Z)
  | EvEvents (ctx : Z).

Section runs.
Context (open_errno stat_errno unlink_errno : list Z → Z).

Definition lf_step (ev : lf_event) : LM unit :=
  match ev with
  | EvGet ctx key val valuelen cb => localfs_get open_errno stat_errno (Some ctx) true key val valuelen (Some cb)
  | EvSet ctx key val valuelen timeout cb => localfs_set open_errno stat_errno (Some ctx) true key val valuelen timeout (Some cb)
  | EvDel ctx uninit key cb => localfs_del stat_errno unlink_errno (Some ctx) uninit key (Some cb)
  | EvTest ctx errno key cb => localfs_test stat_errno (Some ctx) errno key (Some cb)
  | EvEvict ctx cb => localfs_evict stat_errno unlink_errno (Some ctx) (Some cb)
  | EvDone ctx a n => io_done ctx (Some a) n
  | EvEvents ctx => handle_io_uring_events true ctx
  end.

(** The callback an event asks for. *)
Definition lf_asks (ev : lf_event) : list Z :=
  match ev with
  | EvGet _ _ _ _ cb | EvSet _ _ _ _ _ cb | EvDel _ _ _ cb | EvTest _ _ _ cb | EvEvict _ cb => [cb]
  | EvDone _ _ _ | EvEvents _ => []
  end.

(** The thread has opened the device, and the request does not have to wait. *)
Definition has_room (s : localfs) (ctx : Z) : Prop :=
  ctx ∈ rings s ∧ ∀ c, shared s = Some c → sh_inflight_count c < sh_max_depth c.

(** When an event can come. A GET must not find a file the policy does not know. *)
Definition lf_enabled (ev : lf_event) (s : localfs) : Prop :=
  match ev with
  | EvGet ctx key _ _ _ => has_room s ctx ∧ (is_Some (dir s !! entry_of key) → ∀ c, shared s = Some c → key ∈ (view (sh_policy c)).*1)
  | EvSet ctx _ _ valuelen _ _ => has_room s ctx ∧ 0 <= valuelen < 2 ^ 62
  | EvDone ctx a _ => (ctx, Some a) ∈ flying s
  | _ => True
  end.

(** A driver that was just opened, by any number of threads, on any directory. *)
Definition lf_init (s : localfs) : Prop :=
  sqes s = [] ∧ flying s = [] ∧ cqes s = [] ∧ reqs s = ∅ ∧ calls s = [] ∧
  ∃ errno vfs is_dir mkdir_ok names addr address c n,
    localfs_shared_context_create stat_errno s errno vfs is_dir mkdir_ok names addr address = Some c ∧
    shared s = Some (sh_set_ref_count n c).

(** The states of the runs, with the callbacks that were asked for. *)
Inductive lf_reachable : localfs → list Z → Prop :=
  | lr_init s : lf_init s → lf_reachable s []
  | lr_step s I ev s' : lf_reachable s I → lf_enabled ev s → lf_step ev s = Ok (tt, s') → lf_reachable s' (lf_asks ev ++ I).

Lemma lf_init_inv s : lf_init s → ∃ c, linv c [] [] 0 [] s.
Proof.
  intros (H1 & H2 & H3 & H4 & H5 & errno & vfs & is_dir & mkdir_ok & names & addr & address & c & n & Hc & Hs).
  exists (sh_set_ref_count n c). unfold localfs_shared_context_create in Hc.
  destruct (localfs_parse_address errno vfs address) as [[path total]|]; [|done]. destruct (PATH_MAX <? _); [done|].
  destruct (negb _); [done|]. destruct (_ <? 0); [done|]. destruct (_ <? _); [done|]. injection Hc as <-.
  split; try done; simpl.
  - apply create_wf.
  - unfold tags. by rewrite H2, H3.
  - constructor.
  - intros a. rewrite H4, lookup_empty. split; [by intros []|set_solver].
  - set_solver.
  - intros a r. by rewrite H4, lookup_empty.
  - by rewrite H5.
Qed.

Lemma lf_step_inv c l I s ev : linv c l [] 0 I s → lf_enabled ev s →
  safe (lf_step ev) s (λ _ s', ∃ c' l', linv c' l' [] 0 (lf_asks ev ++ I) s').
Proof.
  intros Hi He. pose proof (lv_shared _ _ _ _ _ _ Hi) as Hs. destruct ev; simpl in *.
  - destruct He as [[Hc Hr] Hk]. eapply get_inv; [exact Hi|exact Hc|by apply Hr|]. intros Hd. by apply Hk.
  - destruct He as [[Hc Hr] Hv]. apply (set_inv open_errno stat_errno c l I s ctx key val valuelen timeout); auto.
  - by apply (del_inv stat_errno unlink_errno c l I s ctx uninit).
  - by apply (test_inv stat_errno c l I s ctx).
  - by apply (evict_inv stat_errno unlink_errno c l I s ctx).
  - eapply io_done_inv; [exact Hi|exact He].
  - eapply handle_events_inv, Hi.
Qed.

Lemma lf_reachable_inv s I : lf_reachable s I → ∃ c l, linv c l [] 0 I s.
Proof.
  induction 1 as [s H|s I ev s' _ (c & l & Hi) He Hs]; [destruct (lf_init_inv s H) as [c Hc]; by exists c, []|].
  destruct (lf_step_inv _ _ _ _ _ Hi He) as (u & s1 & Heq & Hi'). rewrite Hs in Heq. by injection Heq as _ <-.
Qed.

(** The callbacks of the requests the kernel has, or has completed. *)
Definition in_flight (s : localfs) : list Z :=
  omap (λ t, t ≫= λ a, reqs s !! a ≫= rq_cb) ((snd <$> flying s) ++ ((λ e, e.1.2) <$> cqes s)).

Lemma in_flight_live s l : tags s [] ≡ₚ Some <$> l → in_flight s ≡ₚ live_cbs s l.
Proof.
  intros Ht. unfold tags in Ht. simpl in Ht. rewrite app_nil_r in Ht. unfold in_flight, live_cbs. rewrite Ht.
  clear Ht. induction l as [|a l IH]; [done|]. cbn. destruct (reqs s !! a ≫= rq_cb); [by rewrite IH|done].
Qed.
End runs.
