(* ===== verification/LocalFsContract.v ===== *)
(** * One operation at a time on local files

    When every operation ends before the next one begins, the directory is a map
    from keys to values, the policy knows exactly its keys, and the free size is
    the capacity less the sizes of the files. *)

From S2P Require Import Prelude State CString ServerModel Backend Policy LocalFs LocalFsSpec LocalFsSafe BackendProps.

(** ** Sizes *)

Definition sizes (t : contents) : Z := map_fold (λ _ v n, Z.of_nat (length v) + n) 0 t.

Lemma sizes_insert_new t key v : t !! key = None → sizes (<[key := v]> t) = Z.of_nat (length v) + sizes t.
Proof. intros Hn. unfold sizes. rewrite (map_fold_insert_L (λ _ v n, Z.of_nat (length v) + n)); [done|intros; lia|done]. Qed.

Lemma sizes_delete t key v : t !! key = Some v → sizes (delete key t) = sizes t - Z.of_nat (length v).
Proof. intros Hs. rewrite <- (insert_delete_id t key v Hs) at 2. rewrite sizes_insert_new by apply lookup_delete_eq. lia. Qed.

Definition size_of (t : contents) (key : list Z) : Z := match t !! key with Some v => Z.of_nat (length v) | None => 0 end.

Lemma sizes_delete_any t key : sizes (delete key t) = sizes t - size_of t key.
Proof.
  unfold size_of. destruct (t !! key) eqn:Hk; [by apply sizes_delete|]. rewrite delete_id by done. lia.
Qed.

Lemma sizes_insert t key v : sizes (<[key := v]> t) = sizes t - size_of t key + Z.of_nat (length v).
Proof. rewrite <- insert_delete_eq, sizes_insert_new by apply lookup_delete_eq. rewrite sizes_delete_any. lia. Qed.

(** ** Directory and policy *)

(** A name that is an entry of the directory itself: not empty, without a slash, and
    neither [.] nor [..]. *)
Definition plain (key : list Z) : Prop := key ≠ [] ∧ SLASH ∉ key ∧ key ≠ [DOT] ∧ key ≠ [DOT; DOT].

Lemma components_plain key : ∀ cur, SLASH ∉ key → components cur key = [cur ++ key].
Proof.
  induction key as [|c key IH]; intros cur Hk; simpl; [by rewrite app_nil_r|]. apply not_elem_of_cons in Hk as [Hc Hk].
  rewrite (proj2 (Z.eqb_neq _ _)) by congruence. rewrite IH by done. by rewrite <- app_assoc.
Qed.

Lemma plain_entry key : plain key → entry_of key = key.
Proof.
  intros (H1 & H2 & H3 & H4). unfold entry_of. rewrite components_plain by done. simpl. unfold step_into.
  by rewrite !bool_decide_eq_false_2.
Qed.

Definition held (s : localfs) : contents := omap (λ i, inodes s !! i) (dir s).

Lemma held_lookup s key : held s !! key = dir s !! key ≫= λ i, inodes s !! i.
Proof. unfold held. by rewrite lookup_omap. Qed.

Lemma file_of_plain s key : plain key → file_of s key = held s !! key.
Proof. intros Hk. unfold file_of. by rewrite plain_entry, held_lookup. Qed.

Record files_ok (c : localfs_shared_context) (s : localfs) : Prop := mk_files_ok {
  fo_policy : lru_wf (sh_policy c);
  fo_keys key : readers (view (sh_policy c)) key = if decide (is_Some (dir s !! key)) then Some 0 else None;
  fo_dir key i : dir s !! key = Some i → is_Some (inodes s !! i);
  fo_inj key key' i : dir s !! key = Some i → dir s !! key' = Some i → key = key';
  fo_fresh i : is_Some (inodes s !! i) → i < next_ino s;
  fo_size key v : held s !! key = Some v → Z.of_nat (length v) < 2 ^ 31;
  fo_path key : is_Some (dir s !! key) → path_too_long (sh_path c) key = false ∧ plain key;
  fo_free : sh_free_size c = u64 (sh_total_size c - sizes (held s))
}.

Lemma held_dir c s key : files_ok c s → is_Some (held s !! key) ↔ is_Some (dir s !! key).
Proof.
  intros Hf. rewrite held_lookup. split; [intros [v Hv]; destruct (dir s !! key) as [i|]; [by exists i|done]|].
  intros [i Hi]. rewrite Hi. simpl. exact (fo_dir _ _ Hf key i Hi).
Qed.

(** The directory after the file of a key was written. *)
Definition written (key v : list Z) (s : localfs) : localfs :=
  let i := ino_of s key in
  set_files (<[key := i]> (dir s)) (<[i := v]> (inodes s)) (Z.max (next_ino s) (i + 1)) s.

Lemma ino_unique c s key key' i : files_ok c s → plain key → dir s !! key' = Some i → ino_of s key = i → key' = key.
Proof.
  intros Hf Hpl Hd Hi. unfold ino_of in Hi. rewrite plain_entry in Hi by done. destruct (dir s !! key) as [j|] eqn:Hk; simpl in Hi; subst.
  - by eapply fo_inj.
  - destruct (fo_dir _ _ Hf _ _ Hd) as [v Hv]. pose proof (fo_fresh _ _ Hf (next_ino s) (mk_is_Some _ _ Hv)). lia.
Qed.

Lemma held_written c s key v : files_ok c s → plain key → held (written key v s) = <[key := v]> (held s).
Proof.
  intros Hf Hpl. apply map_eq. intros k. rewrite held_lookup. unfold written. simpl.
  destruct (decide (key = k)) as [<-|Hne]; [by rewrite !lookup_insert_eq; simpl; rewrite lookup_insert_eq|].
  rewrite !lookup_insert_ne by done. rewrite held_lookup. destruct (dir s !! k) as [i|] eqn:Hd; [|done]. simpl.
  rewrite lookup_insert_ne; [done|]. intros Hi. apply Hne. symmetry. by eapply ino_unique.
Qed.

Lemma files_written c s key v p n : files_ok c s → Z.of_nat (length v) < 2 ^ 31 → path_too_long (sh_path c) key = false → plain key →
  lru_policy_access (sh_policy c) key = Ok p → n = Z.of_nat (length v) - size_of (held s) key →
  files_ok (sh_set_policy p (sh_set_free_size (u64 (sh_free_size c - n)) c)) (written key v s).
Proof.
  intros Hf Hv Hpath Hpl Hp ->. pose proof Hf as []. destruct (access_spec (sh_policy c) key fo_policy0) as (p' & Hp' & Hw & Hview).
  rewrite Hp in Hp'. injection Hp' as <-. split; simpl.
  - done.
  - intros k. rewrite Hview, readers_access, !fo_keys0. destruct (decide (key = k)) as [<-|Hne].
    + rewrite lookup_insert_eq, (decide_True (P := is_Some (Some _))) by done. by case_decide.
    + by rewrite lookup_insert_ne.
  - intros k i Hk. apply lookup_insert_is_Some. destruct (decide (ino_of s key = i)); [by left|right]. split; [done|].
    apply lookup_insert_Some in Hk as [[_ ?]|[_ Hk]]; [done|eauto].
  - intros k k' i Hk Hk'. apply lookup_insert_Some in Hk as [[<- Hi]|[Hk1 Hk]], Hk' as [[<- Hi']|[Hk1' Hk']]; try done.
    + symmetry. by eapply ino_unique.
    + by eapply ino_unique.
    + by eapply fo_inj0.
  - intros i Hi. apply lookup_insert_is_Some in Hi as [<-|[_ Hi]]; [lia|]. specialize (fo_fresh0 i Hi). lia.
  - intros k w. rewrite (held_written c) by done. intros Hk. apply lookup_insert_Some in Hk as [[_ <-]|[_ Hk]]; [done|eauto].
  - intros k Hk. apply lookup_insert_is_Some in Hk as [<-|[_ Hk]]; [done|by apply fo_path0].
  - rewrite (held_written c), sizes_insert, fo_free0 by done. unfold u64. rewrite Zminus_mod_idemp_l. f_equal. lia.
Qed.

(** ... and after its name was removed. *)
Definition removed (key : list Z) (s : localfs) : localfs := set_files (delete key (dir s)) (inodes s) (next_ino s) s.

Lemma held_removed s key : held (removed key s) = delete key (held s).
Proof.
  apply map_eq. intros k. rewrite held_lookup. unfold removed. simpl. destruct (decide (key = k)) as [<-|Hne].
  - by rewrite !lookup_delete_eq.
  - rewrite !lookup_delete_ne by done. by rewrite held_lookup.
Qed.

Lemma files_removed c s key p : files_ok c s → lru_wf p → view p = without (view (sh_policy c)) key →
  files_ok (sh_set_policy p (sh_set_free_size (u64 (sh_free_size c + size_of (held s) key)) c)) (removed key s).
Proof.
  intros [] Hw Hv. split; simpl.
  - done.
  - intros k. rewrite Hv, readers_without, fo_keys0. destruct (decide (key = k)) as [<-|Hne].
    + by rewrite lookup_delete_eq, decide_False by (by intros []).
    + by rewrite lookup_delete_ne.
  - intros k i Hk. apply lookup_delete_Some in Hk as [_ Hk]. eauto.
  - intros k k' i Hk Hk'. apply lookup_delete_Some in Hk as [_ Hk], Hk' as [_ Hk']. eauto.
  - done.
  - intros k w. rewrite held_removed. intros Hk. apply lookup_delete_Some in Hk as [_ Hk]. eauto.
  - intros k Hk. apply lookup_delete_is_Some in Hk as [_ Hk]. eauto.
  - rewrite held_removed, sizes_delete_any, fo_free0. unfold u64. rewrite Zplus_mod_idemp_l. f_equal. lia.
Qed.

Lemma files_same c c' s s' : files_ok c s →
  lru_wf (sh_policy c') → (∀ key, readers (view (sh_policy c')) key = readers (view (sh_policy c)) key) →
  sh_path c' = sh_path c → sh_total_size c' = sh_total_size c → sh_free_size c' = sh_free_size c →
  dir s' = dir s → inodes s' = inodes s → next_ino s' = next_ino s → files_ok c' s'.
Proof.
  intros [] H1 H2 H3 H4 H5 H6 H7 H8. assert (held s' = held s) as Hh by (unfold held; by rewrite H6, H7).
  split; rewrite ?H3, ?H4, ?H5, ?H6, ?H7, ?H8, ?Hh; try done. intros key. by rewrite H2.
Qed.

(** ** No operation in progress *)

Record quiet (c : localfs_shared_context) (s : localfs) : Prop := mk_quiet {
  qu_shared : shared s = Some c;
  qu_lock : sh_lock c = false;
  qu_queue_lock : sh_queue_lock c = false;
  qu_pending : sh_pending_queue c = [];
  qu_depth : sh_max_depth c < 2 ^ 32;
  qu_count : 0 <= sh_inflight_count c <= sh_max_depth c;
  qu_sqes : sqes s = [];
  qu_flying : flying s = [];
  qu_cqes : cqes s = [];
  qu_reqs : reqs s = ∅;
  qu_files : files_ok c s
}.

(** The kernel ends what it was given, with result [n], and the completion is
    handled. *)
Definition finish_io (n : Z) : LM unit :=
  s ← get;
  match flying s with
  | [(ctx, Some a)] => io_done ctx (Some a) n;; handle_io_uring_events true ctx
  | _ => mret tt
  end.

Definition discount (c : localfs_shared_context) : localfs_shared_context :=
  sh_set_queue (sh_inflight_count c - 1) (sh_pending_queue c) c.

Lemma safe_handle_one s c ctx ud n (Q : unit → localfs → Prop) :
  shared s = Some c → cqes s = [(ctx, ud, n)] →
  safe (handle_cqe ud n) (set_queues (sqes s) (flying s) [] s)
    (λ b s', ∃ c', shared s' = Some c' ∧
       if b : bool then sh_queue_lock c' = false ∧ sh_pending_queue c' = [] ∧ 1 <= sh_inflight_count c' ∧ Q tt (set_shared (Some (discount c')) s')
       else Q tt s') →
  safe (handle_io_uring_events true ctx) s Q.
Proof.
  intros Hc Hq HQ. unfold handle_io_uring_events. step. apply safe_get. step. apply (safe_get_shared _ _ Hc). step. apply safe_modify.
  rewrite Hq. rewrite (filter_cons_False (λ e, e.1.1 ≠ ctx)), filter_nil by (simpl; auto). rewrite filter_cons_True, filter_nil by done. cbn [handle_cqes].
  step. step. eapply safe_mono; [exact HQ|]. intros [] s' (c' & Hc' & H); apply safe_ret; simpl; [|by apply safe_ret].
  destruct H as (Hl & Hp & Hn & H). step. apply (safe_queue_lock _ _ Hc'); [done|]. step. eapply safe_upd_shared; [reflexivity|].
  step. eapply safe_get_shared; [reflexivity|]. step. eapply submit_pending_none; [reflexivity|done|].
  eapply safe_upd_shared; [reflexivity|]. simpl. rewrite (proj2 (Z.ltb_ge _ _)) by lia.
  match goal with |- Q tt (set_shared (Some ?x) _) => replace x with (discount c') end; [done|].
  destruct c'. simpl in *. by subst.
Qed.

(** The kernel reads or writes the file of the one request. *)
Lemma safe_io_done s ctx a n r i v (Q : unit → localfs → Prop) :
  reqs s !! a = Some r → rq_fd r = Some i → inodes s !! i = Some v → flying s = [(ctx, Some a)] → cqes s = [] →
  (n < 0 → Q tt (set_queues (sqes s) [] [(ctx, Some a, n)] s)) →
  (0 <= n → rq_op_type r = LOCALFS_OP_GET → Q tt (set_queues (sqes s) [] [(ctx, Some a, n)]
     (set_reqs (<[a := with_val (take (Z.to_nat n) v ++ drop (Z.to_nat n) (rq_val r)) r]> (reqs s)) (next_addr s) s))) →
  (0 <= n → rq_op_type r = LOCALFS_OP_SET → Q tt (set_queues (sqes s) [] [(ctx, Some a, n)]
     (set_files (dir s) (<[i := take (Z.to_nat n) (rq_val r) ++ drop (Z.to_nat n) v]> (inodes s)) (next_ino s) s))) →
  rq_op_type r = LOCALFS_OP_GET ∨ rq_op_type r = LOCALFS_OP_SET →
  safe (io_done ctx (Some a) n) s Q.
Proof.
  intros Ha Hfd Hv Hfl Hcq H1 H2 H3 Hop. unfold io_done. step. step. apply (safe_get_req _ _ _ _ Ha). step. apply safe_get.
  rewrite Hfd. simpl. rewrite Hv. simpl. destruct (Z.ltb_spec n 0).
  - apply safe_ret, safe_modify. rewrite Hfl, Hcq. simpl. rewrite decide_True by done. by apply H1.
  - destruct Hop as [Hop|Hop]; rewrite Hop.
    + eapply safe_upd_req; [done|]. apply safe_modify. simpl. rewrite Hfl, Hcq. simpl. rewrite decide_True by done. by apply H2.
    + apply safe_modify. apply safe_modify. simpl. rewrite Hfl, Hcq. simpl. rewrite decide_True by done. by apply H3.
Qed.

(** A request that is refused leaves everything as it was. *)
Lemma quiet_rejected c s cb st len val : quiet c s → quiet c (rejected (Some cb) st len val s).
Proof. intros []. split; try done. eapply files_same; [exact qu_files0|..]; try done; apply qu_files0. Qed.

Lemma quiet_call c s cb st len val : quiet c s → quiet c (add_call (mk_call cb st len val) s).
Proof. intros []. split; try done. eapply files_same; [exact qu_files0|..]; try done; apply qu_files0. Qed.

(** ** The contract of a driver *)

(** The operation has been called back once, with an answer its contract allows,
    and nothing is in progress. Only a failure is left in the count. *)
Definition answered (c : localfs_shared_context) (op : driver_op) (buf : list Z) (cb : Z) (s s' : localfs) : Prop :=
  ∃ c' st len val buf', quiet c' s' ∧ rings s' = rings s ∧ calls s' = calls s ++ [mk_call cb st len val] ∧
    drv (held s) buf op st len (held s') buf' ∧
    match op with DrvGet _ _ | DrvSet _ _ _ => val = buf' | _ => buf' = buf end ∧
    sh_max_depth c' = sh_max_depth c ∧ sh_inflight_count c <= sh_inflight_count c' <= sh_inflight_count c + 1 ∧
    (st = PRISKV_BACKEND_STATUS_OK → sh_inflight_count c' = sh_inflight_count c).

Lemma answered_rejected c op buf cb s st len :
  quiet c s → match op with DrvGet _ _ | DrvSet _ _ _ => True | _ => False end → st ≠ PRISKV_BACKEND_STATUS_OK →
  answered c op buf cb s (rejected (Some cb) st len buf s).
Proof.
  intros Hq Hop Hst. exists c, st, len, buf, buf. split; [by apply quiet_rejected|]. split; [done|]. split; [done|].
  split; [|destruct op; (split; [done|]); (split; [done|]); (split; [lia|done])].
  change (held (rejected _ _ _ _ s)) with (held s). destruct op; try done; constructor; auto.
Qed.

Section contract.
Context (open_errno stat_errno unlink_errno : list Z → Z).
Context (Hstat : ∀ key, stat_errno key = 0) (Hunlink : ∀ key, unlink_errno key = 0).

Lemma file_size_held c s key : quiet c s → plain key →
  get_file_size stat_errno s key = size_of (held s) key ∧ 0 <= size_of (held s) key < 2 ^ 31.
Proof.
  intros [] Hpl. unfold get_file_size, size_of. rewrite Hstat, file_of_plain by done. simpl. split; [done|].
  destruct (held s !! key) as [v|] eqn:Hv; [|lia]. pose proof (fo_size _ _ qu_files0 key v Hv). lia.
Qed.

(** Reading a file counts its reader and uncounts it. *)
Lemma ref_unref c s key i : files_ok c s → dir s !! key = Some i →
  ∃ p p', lru_policy_try_ref_key (sh_policy c) key = Ok (true, p) ∧ lru_policy_unref_key p key = Ok p' ∧ lru_wf p' ∧
    ∀ k, readers (view p') k = readers (view (sh_policy c)) k.
Proof.
  intros [] Hd. pose proof (fo_keys0 key) as Hk. rewrite Hd, decide_True in Hk by done.
  destruct (try_ref_spec (sh_policy c) key fo_policy0) as (b & p & Hp & Hw & Hv); [rewrite Hk; simpl; lia|].
  rewrite Hk in Hv. destruct Hv as [-> Hv]. destruct (unref_spec p key Hw) as (p' & Hp' & Hw' & Hv').
  exists p, p'. split; [done|]. split; [done|]. split; [done|]. intros k. rewrite Hv', readers_unref, Hv, readers_front.
  destruct (decide (key = k)) as [<-|]; [|done]. by rewrite Hk.
Qed.

(** An operation after which the files are as before. *)
Lemma answered_same c c' s s' op buf cb st len val buf' :
  quiet c s → lru_wf (sh_policy c') → (∀ k, readers (view (sh_policy c')) k = readers (view (sh_policy c)) k) →
  sh_path c' = sh_path c → sh_total_size c' = sh_total_size c → sh_free_size c' = sh_free_size c →
  sh_lock c' = false → sh_queue_lock c' = false → sh_pending_queue c' = [] → sh_max_depth c' = sh_max_depth c →
  sh_inflight_count c' <= sh_max_depth c →
  sh_inflight_count c <= sh_inflight_count c' <= sh_inflight_count c + 1 →
  (st = PRISKV_BACKEND_STATUS_OK → sh_inflight_count c' = sh_inflight_count c) →
  shared s' = Some c' → sqes s' = [] → flying s' = [] → cqes s' = [] → reqs s' = ∅ →
  dir s' = dir s → inodes s' = inodes s → next_ino s' = next_ino s → rings s' = rings s →
  calls s' = calls s ++ [mk_call cb st len val] → drv (held s) buf op st len (held s) buf' →
  match op with DrvGet _ _ | DrvSet _ _ _ => val = buf' | _ => buf' = buf end →
  answered c op buf cb s s'.
Proof.
  intros [] H1 H2 H3 H4 H5 H6 H7 H8 H9 H10 H11 H12 H13 H14 H15 H16 H17 H18 H19 H20 H21 H22 H23 H24.
  assert (held s' = held s) as Hh by (unfold held; by rewrite H18, H19).
  exists c', st, len, val, buf'. rewrite Hh. split; [|done].
  split; try done; try (rewrite H9; done || lia). by eapply files_same.
Qed.

Lemma get_contract c s ctx key buf valuelen cb n :
  quiet c s → plain key → ctx ∈ rings s → sh_inflight_count c < sh_max_depth c → Z.of_nat (length buf) = valuelen →
  n < 0 ∨ n = size_of (held s) key →
  safe (localfs_get open_errno stat_errno (Some ctx) true key buf valuelen (Some cb);; finish_io n) s
    (λ _ s', answered c (DrvGet key valuelen) buf cb s s').
Proof.
  intros Hq Hpl Hctx Hlt Hbuf Hn. pose proof Hq as []. destruct (file_size_held c s key Hq Hpl) as [Hsz Hszb].
  step. unfold localfs_get. step. eapply safe_make_get; [done|by rewrite qu_reqs0| |].
  { intros st Hst. apply safe_ret. unfold finish_io. step. apply safe_get. simpl. rewrite qu_flying0. apply safe_ret.
    by apply answered_rejected. }
  intros i Hd _ Hfit. rewrite plain_entry in Hd by done. rewrite Hsz, u32_small in Hfit by lia. destruct (ref_unref c s key i qu_files0 Hd) as (p & p' & Hp & Hp' & Hw & Hv).
  destruct (fo_dir _ _ qu_files0 _ _ Hd) as [v Hi]. assert (held s !! key = Some v) as Hheld by (rewrite held_lookup; by rewrite Hd).
  unfold size_of in *. rewrite Hheld in *.
  step. eapply safe_submit_get; [done|by split_and!; try done; lia|apply lookup_insert_eq|done|done|done|exact Hp|]. apply safe_ret.
  unfold finish_io. step. apply safe_get. simpl. rewrite qu_flying0. simpl. step.
  eapply safe_io_done; [apply lookup_insert_eq|reflexivity|exact Hi|simpl; by rewrite qu_flying0|done| | |done|by left].
  - intros Hneg. eapply safe_handle_one; [reflexivity|reflexivity|].
    eapply safe_cqe_get; [reflexivity|done|apply lookup_insert_eq|done|exact Hp'| |lia]. intros _. eexists. split; [reflexivity|].
    eapply (answered_same c (sh_set_policy p' (sh_set_policy p (counted c)))); try done; try reflexivity; simpl; try done; try lia.
    + rewrite qu_reqs0. by rewrite delete_insert_eq, delete_empty.
    + by apply drv_get_fail.
  - intros Hpos _. destruct Hn as [?| ->]; [lia|]. eapply safe_handle_one; [reflexivity|reflexivity|].
    eapply safe_cqe_get; [reflexivity|done|simpl; apply lookup_insert_eq|done|exact Hp'|lia|]. intros _. eexists. split; [reflexivity|].
    split; [done|]. split; [done|]. split; [simpl; lia|].
    eapply (answered_same c (discount (sh_set_policy p' (sh_set_policy p (counted c))))); try done; try reflexivity; simpl; try done; try lia.
    + rewrite qu_reqs0. by rewrite insert_insert_eq, delete_insert_eq, delete_empty.
    + rewrite Nat2Z.id, take_ge by lia. by apply drv_get_hit.
Qed.

Lemma set_contract c s ctx key buf valuelen timeout cb :
  quiet c s → plain key → ctx ∈ rings s → sh_inflight_count c < sh_max_depth c → Z.of_nat (length buf) = valuelen → valuelen < 2 ^ 31 →
  safe (localfs_set open_errno stat_errno (Some ctx) true key buf valuelen timeout (Some cb);; finish_io valuelen) s
    (λ _ s', answered c (DrvSet key valuelen timeout) buf cb s s').
Proof.
  intros Hq Hpl Hctx Hlt Hbuf Hlen. pose proof Hq as []. destruct (file_size_held c s key Hq Hpl) as [Hsz Hszb].
  step. unfold localfs_set. step. eapply safe_make_set; [done|by rewrite qu_reqs0| |].
  { intros st Hst. apply safe_ret. unfold finish_io. step. apply safe_get. simpl. rewrite qu_flying0. apply safe_ret.
    by apply answered_rejected. }
  intros Hpath. rewrite Hsz, u32_small by lia.
  assert (∃ d m, truncated key s = set_files d (<[ino_of s key := []]> (inodes s)) m s ∧ d = <[key := ino_of s key]> (dir s) ∧
    m = Z.max (next_ino s) (ino_of s key + 1)) as (d & m & -> & Hd & Hm).
  { unfold truncated, ino_of. rewrite plain_entry by done. destruct (dir s !! key) as [i|] eqn:Hdir; simpl; do 2 eexists; (split; [reflexivity|]).
    - split; [by rewrite insert_id|]. destruct (fo_dir _ _ qu_files0 _ _ Hdir) as [v Hv].
      pose proof (fo_fresh _ _ qu_files0 i (mk_is_Some _ _ Hv)). lia.
    - split; [done|lia]. }
  destruct (access_spec (sh_policy c) key) as (p & Hp & _); [apply qu_files0|].
  step. eapply safe_submit_set; [done|by split_and!; try done; lia|apply lookup_insert_eq|done|done|done|]. apply safe_ret.
  unfold finish_io. step. apply safe_get. simpl. rewrite qu_flying0. simpl. step.
  eapply safe_io_done; [apply lookup_insert_eq|reflexivity|apply lookup_insert_eq|simpl; by rewrite qu_flying0|done|lia|done| |by right].
  intros _ _. simpl. rewrite take_ge, insert_insert_eq by lia. rewrite drop_nil, app_nil_r.
  eapply safe_handle_one; [reflexivity|reflexivity|].
  eapply safe_cqe_set; [reflexivity|done|apply lookup_insert_eq|done|done|simpl; lia|simpl; lia|exact Hp|]. simpl. eexists. split; [reflexivity|].
  split; [done|]. split; [done|]. split; [simpl; lia|].
  pose proof (files_written c s key buf p (valuelen - size_of (held s) key) qu_files0 ltac:(lia) Hpath Hpl Hp ltac:(lia)) as Hf.
  pose proof (held_written c s key buf qu_files0 Hpl) as Hheld.
  eexists _, _, _, _, buf. split; [split; try done; simpl; try lia|].
  - rewrite qu_reqs0. by rewrite delete_insert_eq, delete_empty.
  - rewrite Hd, Hm. eapply files_same; [exact Hf|..]; try done; apply Hf.
  - split; [done|]. split; [done|]. simpl. split; [|split; [done|]; split; [done|]; split; [lia|intros _; lia]].
    match goal with |- drv _ _ _ _ _ ?t _ => replace t with (<[key := buf]> (held s)) end.
    + rewrite <- (take_ge buf (Z.to_nat valuelen)) at 2 by lia. apply drv_set_done.
    + rewrite <- Hheld, Hd. reflexivity.
Qed.

(** A file that was removed, by name or by the policy. *)
Lemma quiet_removed c s key p : quiet c s → lru_wf p → view p = without (view (sh_policy c)) key →
  let c' := sh_set_policy p (sh_set_free_size (u64 (sh_free_size c + size_of (held s) key)) c) in
  quiet c' (set_shared (Some c') (removed key s)).
Proof.
  intros [] Hw Hv c'. pose proof (files_removed c s key p qu_files0 Hw Hv) as Hf.
  split; try done. eapply files_same; [exact Hf|..]; try done; apply Hf.
Qed.

Lemma answered_removed c s key p op buf cb len : quiet c s → lru_wf p → view p = without (view (sh_policy c)) key →
  match op with DrvGet _ _ | DrvSet _ _ _ => False | _ => True end →
  drv (held s) buf op PRISKV_BACKEND_STATUS_OK len (delete key (held s)) buf →
  answered c op buf cb s (add_call (mk_call cb PRISKV_BACKEND_STATUS_OK len [])
    (set_shared (Some (sh_set_policy p (sh_set_free_size (u64 (sh_free_size c + size_of (held s) key)) c))) (removed key s))).
Proof.
  intros Hq Hw Hv Hop Hd. eexists _, _, _, _, buf. split; [by apply quiet_call, quiet_removed|]. split; [done|]. split; [reflexivity|].
  rewrite <- held_removed in Hd. split; [exact Hd|]. split; [by destruct op|]. split; [done|]. split; [simpl; lia|done].
Qed.

Lemma answered_call c s op buf cb st len : quiet c s → st ≠ PRISKV_BACKEND_STATUS_OK →
  match op with DrvGet _ _ | DrvSet _ _ _ => False | _ => True end →
  answered c op buf cb s (add_call (mk_call cb st len []) s).
Proof.
  intros Hq Hst Hop. exists c, st, len, [], buf. split; [by apply quiet_call|]. split; [done|]. split; [done|].
  change (held (add_call _ s)) with (held s). split; [destruct op; try done; by constructor|]. split; [by destruct op|].
  split; [done|]. split; [lia|done].
Qed.

Lemma safe_unlink_ok s key (Q : bool → localfs → Prop) : plain key → Q false (removed key s) → safe (unlink_fails unlink_errno key) s Q.
Proof.
  intros Hpl HQ. unfold unlink_fails. step. apply safe_get. rewrite Hunlink, plain_entry by done. simpl. step. apply safe_modify. by apply safe_ret.
Qed.

Lemma del_contract c s ctx uninit key buf cb : quiet c s → plain key →
  safe (localfs_del stat_errno unlink_errno (Some ctx) uninit key (Some cb)) s (λ _ s', answered c (DrvDel key) buf cb s s').
Proof.
  intros Hq Hpl. pose proof Hq as []. unfold localfs_del. step. apply (safe_get_shared _ _ qu_shared0).
  destruct (path_too_long _ _); [apply safe_call; by apply answered_call|]. step. apply safe_get. step. apply safe_unlink_ok; [done|].
  destruct (del_key_spec (sh_policy c) key) as (p & Hp & Hw & Hv); [apply qu_files0|]. destruct (file_size_held c s key Hq Hpl) as [-> _].
  step. eapply safe_give_back_del; [exact qu_shared0|done|exact Hp|]. apply safe_call. apply answered_removed; try done. constructor.
Qed.

Lemma evict_contract c s ctx buf cb : quiet c s →
  safe (localfs_evict stat_errno unlink_errno (Some ctx) (Some cb)) s (λ _ s', answered c DrvEvict buf cb s s').
Proof.
  intros Hq. pose proof Hq as []. unfold localfs_evict. step. apply (safe_get_shared _ _ qu_shared0).
  destruct (evict_spec (sh_policy c)) as (v & p & Hp & Hw & Hvict & Hv); [apply qu_files0|].
  step. eapply safe_locked_policy; [done|done|exact Hp|]. destruct v as [key|].
  - assert (is_Some (dir s !! key)) as Hd.
    { symmetry in Hvict. unfold r_victim in Hvict. destruct (list_find _ _) as [[j x]|] eqn:Hf; [|done]. injection Hvict as <-.
      apply list_find_Some in Hf as (Hj & _ & _). apply list_elem_of_lookup_2 in Hj.
      assert (x.1 ∈ (view (sh_policy c)).*1) as Hin.
      { apply list_elem_of_fmap_2. apply elem_of_reverse. apply elem_of_take in Hj as (j2 & Hj & _). by eapply list_elem_of_lookup_2. }
      apply readers_Some in Hin. rewrite (fo_keys _ _ qu_files0) in Hin. case_decide; [done|by destruct Hin]. }
    destruct (fo_path _ _ qu_files0 key Hd) as [-> Hpl]. step. apply safe_get. step. apply safe_unlink_ok; [done|].
    change (get_file_size stat_errno (set_shared _ s) key) with (get_file_size stat_errno s key).
    destruct (file_size_held c s key Hq Hpl) as [-> _]. step. eapply safe_give_back; [reflexivity|done|]. apply safe_call.
    apply (answered_removed c s key p DrvEvict); try done. apply drv_evict_done. apply delete_subset. by apply (held_dir c).
  - apply safe_call. eapply (answered_same c (sh_set_policy p c)); try done; simpl; try lia.
    + intros k. by rewrite Hv.
    + by apply drv_evict_fail.
Qed.

Lemma test_contract c s ctx errno key buf cb : quiet c s → plain key →
  safe (localfs_test stat_errno (Some ctx) errno key (Some cb)) s (λ _ s', answered c (DrvTest key) buf cb s s').
Proof.
  intros Hq Hpl. pose proof Hq as []. unfold localfs_test. step. apply (safe_get_shared _ _ qu_shared0).
  destruct (dir s !! key) as [i|] eqn:Hd.
  - destruct (ref_unref c s key i qu_files0 Hd) as (p & p' & Hp & Hp' & Hw & Hv).
    step. eapply safe_locked_policy; [done|done|exact Hp|]. simpl. step. apply safe_get.
    step. eapply safe_locked_policy; [reflexivity|done|simpl; rewrite Hp'; reflexivity|]. apply safe_call.
    destruct (fo_path _ _ qu_files0 key) as [-> _]; [by exists i|].
    change (get_file_size stat_errno (set_shared _ s) key) with (get_file_size stat_errno s key).
    destruct (file_size_held c s key Hq Hpl) as [-> Hsz]. rewrite u32_small by lia.
    eapply (answered_same c (sh_set_policy p' c)); try done; simpl; try lia.
    destruct (fo_dir _ _ qu_files0 _ _ Hd) as [v Hi]. assert (held s !! key = Some v) as Hh by (rewrite held_lookup; by rewrite Hd).
    unfold size_of. rewrite Hh. destruct (0 <? _); [by apply drv_test_hit|]. destruct (negb _); by apply drv_test_fail.
  - pose proof (fo_keys _ _ qu_files0 key) as Hk. rewrite Hd, decide_False in Hk by (by intros []).
    destruct (try_ref_spec (sh_policy c) key) as (b & p & Hp & Hw & Hv); [apply qu_files0|by rewrite Hk|]. rewrite Hk in Hv. destruct Hv as [-> ->].
    step. eapply safe_locked_policy; [done|done|exact Hp|]. simpl. apply safe_call.
    eapply (answered_same c (sh_set_policy (sh_policy c) c)); try done; simpl; try lia. by apply drv_test_fail.
Qed.
End contract.

(** ** Whole operations *)

Definition run_op (open_errno stat_errno unlink_errno : list Z → Z) (op : driver_op) (ctx uninit errno : Z) (buf : list Z) (cb n : Z) : LM unit :=
  match op with
  | DrvGet key valuelen => localfs_get open_errno stat_errno (Some ctx) true key buf valuelen (Some cb);; finish_io n
  | DrvSet key valuelen timeout => localfs_set open_errno stat_errno (Some ctx) true key buf valuelen timeout (Some cb);; finish_io n
  | DrvDel key => localfs_del stat_errno unlink_errno (Some ctx) uninit key (Some cb)
  | DrvTest key => localfs_test stat_errno (Some ctx) errno key (Some cb)
  | DrvEvict => localfs_evict stat_errno unlink_errno (Some ctx) (Some cb)
  end.

(** What is asked of the caller and of the kernel: a key that is the name of a file,
    a buffer of the length that is given, of less than 2 GiB for a SET, room in the
    ring, a GET that fails or reads the file, a SET that writes everything. *)
Definition op_ok (c : localfs_shared_context) (s : localfs) (op : driver_op) (buf : list Z) (n : Z) : Prop :=
  match op with
  | DrvGet key valuelen =>
      plain key ∧ sh_inflight_count c < sh_max_depth c ∧ Z.of_nat (length buf) = valuelen ∧ (n < 0 ∨ n = size_of (held s) key)
  | DrvSet key valuelen _ =>
      plain key ∧ sh_inflight_count c < sh_max_depth c ∧ Z.of_nat (length buf) = valuelen ∧ valuelen < 2 ^ 31 ∧ n = valuelen
  | DrvDel key | DrvTest key => plain key
  | DrvEvict => True
  end.

(** A driver that was just opened on an empty directory. *)
Lemma opened_quiet stat_errno s : lf_init stat_errno s → dir s = ∅ → inodes s = ∅ → ∃ c, quiet c s.
Proof.
  intros (H1 & H2 & H3 & H4 & H5 & errno & vfs & is_dir & mkdir_ok & names & addr & address & c & n & Hc & Hs) Hd Hi.
  exists (sh_set_ref_count n c). unfold localfs_shared_context_create in Hc.
  destruct (localfs_parse_address errno vfs address) as [[path total]|]; [|done]. destruct (PATH_MAX <? _); [done|].
  destruct (negb _); [done|].
  assert (∀ names, get_dir_used_size stat_errno s (Some names) = 0) as Hused.
  { intros l. unfold get_dir_used_size.
    assert (∀ key, get_file_size stat_errno s key = 0) as H0.
    { intros key. unfold get_file_size, file_of. rewrite Hd, lookup_empty. by destruct (negb _). }
    induction l as [|k l IH]; [done|]. simpl. rewrite H0. exact IH. }
  destruct names as [names|]; [|done]. rewrite Hused in Hc. simpl in Hc. destruct (total <? u64 0); [done|]. injection Hc as <-.
  split; try done. split; simpl.
  - apply create_wf.
  - intros key. by rewrite Hd, lookup_empty, decide_False by (by intros []).
  - intros key i. by rewrite Hd, lookup_empty.
  - intros key key' i. by rewrite Hd, lookup_empty.
  - intros i [v Hv]. by rewrite Hi, lookup_empty in Hv.
  - intros key v. rewrite held_lookup. by rewrite Hd, lookup_empty.
  - intros key. rewrite Hd, lookup_empty. by intros [].
  - unfold held. rewrite Hd, omap_empty. unfold sizes. rewrite map_fold_empty. done.
Qed.
