(* ===== verification/LocalFsProps.v ===== *)
(** * What the driver of local files guarantees

    Runs with operations in flight, operations one at a time, and runs on which the
    driver fails. *)

From S2P Require Import Prelude State CString ServerModel Backend Policy LocalFs LocalFsSpec LocalFsSafe BackendProps LocalFsContract.

(** ** Any order of operations and completions *)

(** (C21) The driver handles every event of a run without a fault: whatever the
    system calls fail with and in whatever order reads and writes are completed,
    with whatever results, no freed request is used, no lock is taken twice and
    no count overflows - provided requests do not have to wait and no GET finds a
    file that the policy does not know. *)
Theorem localfs_never_faults open_errno stat_errno unlink_errno s I ev :
  lf_reachable open_errno stat_errno unlink_errno s I → lf_enabled ev s →
  ∃ s', lf_step open_errno stat_errno unlink_errno ev s = Ok (tt, s') ∧
    lf_reachable open_errno stat_errno unlink_errno s' (lf_asks ev ++ I).
Proof.
  intros Hr He. destruct (lf_reachable_inv _ _ _ _ _ Hr) as (c & l & Hi).
  destruct (lf_step_inv open_errno stat_errno unlink_errno _ _ _ _ _ Hi He) as ([] & s' & Hs & _). exists s'. split; [done|].
  by eapply lr_step.
Qed.

(** Every operation is called back exactly once when it is over: the
    callbacks asked for are those that ran and those of the requests the kernel
    has or has completed, each once. The kernel never has more requests than the
    completion queues can hold. *)
Theorem localfs_calls_back_once open_errno stat_errno unlink_errno s I :
  lf_reachable open_errno stat_errno unlink_errno s I →
  I ≡ₚ (lc_cbarg <$> calls s) ++ in_flight s ∧
  Z.of_nat (length (flying s) + length (cqes s)) <= DEFAULT_MAX_DEPTH.
Proof.
  intros Hr. destruct (lf_reachable_inv _ _ _ _ _ Hr) as (c & l & []). split.
  - by rewrite lv_calls, (in_flight_live s l).
  - apply Permutation_length in lv_tags. unfold tags in lv_tags. rewrite !length_app, !length_fmap in lv_tags. simpl in lv_tags. lia.
Qed.

(** ** One operation at a time *)

(** (C20) Operations that are run one at a time, on keys that are plain file names
    ([dotted_key_aliases]: others may share a file), on a directory for which [stat]
    and [unlink] do not fail, with room in the ring, with SETs of less than 2 GiB whose write is complete
    ([short_write_is_read]) and GETs whose read fails or is complete, answer as the
    contract of a driver says - the contract the theorems about chains of tiers
    assume - and are called back once; the policy keeps exactly the keys of the
    directory, and the free size is the capacity less the sizes of the files, modulo
    2^64. *)
Theorem localfs_meets_contract open_errno stat_errno unlink_errno c s op ctx uninit errno buf cb n :
  (∀ key, stat_errno key = 0) → (∀ key, unlink_errno key = 0) →
  quiet c s → ctx ∈ rings s → op_ok c s op buf n →
  ∃ s', run_op open_errno stat_errno unlink_errno op ctx uninit errno buf cb n s = Ok (tt, s') ∧ answered c op buf cb s s'.
Proof.
  intros Hst Hul Hq Hctx Hok.
  assert (safe (run_op open_errno stat_errno unlink_errno op ctx uninit errno buf cb n) s (λ _ s', answered c op buf cb s s')) as ([] & s' & H);
    [|by exists s'].
  destruct op; simpl in Hok |- *.
  - destruct Hok as (H0 & H1 & H2 & H3). by apply get_contract.
  - destruct Hok as (H0 & H1 & H2 & H3 & ->). by apply (set_contract open_errno stat_errno Hst c s ctx key buf valuelen timeout).
  - by apply (del_contract stat_errno unlink_errno Hst Hul c s ctx uninit).
  - by apply (test_contract stat_errno Hst c s ctx).
  - by apply (evict_contract stat_errno unlink_errno Hst Hul c s ctx).
Qed.

(** ** A driver on an empty directory *)

Definition fine (key : list Z) : Z := 0.
Definition ex_dir : list Z := [47; 116].
Definition ex_key : list Z := [107].
Definition ex_other : list Z := [111].

Definition ex_shared (total : Z) : localfs_shared_context :=
  mk_shared ex_dir total (lru_policy_create 1) total 1 false false 0 DEFAULT_MAX_DEPTH [].
Definition ex_open (total : Z) : localfs := mk_localfs (Some (ex_shared total)) [1] [] [] [] ∅ 1 ∅ ∅ 1 [].

(** The address [/t&size=100]. *)
Lemma ex_init : lf_init fine (ex_open 100).
Proof.
  repeat (split; [reflexivity|]).
  exists 0, None, None, true, (Some []), 1, [47; 116; 38; 115; 105; 122; 101; 61; 49; 48; 48], (ex_shared 100), 1.
  split; vm_compute; reflexivity.
Qed.

Lemma localfs_never_faults_witness :
  ∃ s', lf_step fine fine fine (EvSet 1 ex_key [1; 2; 3] 3 0 7) (ex_open 100) = Ok (tt, s') ∧ flying s' = [(1, Some 1)].
Proof.
  destruct (localfs_never_faults fine fine fine (ex_open 100) [] (EvSet 1 ex_key [1; 2; 3] 3 0 7)) as (s' & Hs & _).
  - apply lr_init, ex_init.
  - split; [split; [left|]|lia]. intros c [= <-]. reflexivity.
  - exists s'. split; [exact Hs|]. vm_compute in Hs. injection Hs as <-. reflexivity.
Defined.

Lemma localfs_calls_back_once_witness : ∃ s,
  lf_step fine fine fine (EvSet 1 ex_key [1; 2; 3] 3 0 7) (ex_open 100) = Ok (tt, s) ∧ in_flight s ≡ₚ [7].
Proof.
  assert (lf_enabled (EvSet 1 ex_key [1; 2; 3] 3 0 7) (ex_open 100)) as He.
  { split; [split; [left|]|lia]. intros c [= <-]. reflexivity. }
  destruct (lf_step fine fine fine (EvSet 1 ex_key [1; 2; 3] 3 0 7) (ex_open 100)) as [[[] s]|f] eqn:Hs; [|vm_compute in Hs; discriminate].
  exists s. split; [reflexivity|]. pose proof (lr_step fine fine fine _ [] _ _ (lr_init fine fine fine _ ex_init) He Hs) as Hr.
  destruct (localfs_calls_back_once fine fine fine _ _ Hr) as [Hp _].
  assert (calls s = []) as Hcalls by (vm_compute in Hs; injection Hs as <-; reflexivity).
  rewrite Hcalls in Hp. symmetry. exact Hp.
Defined.

(** A SET and then a GET. *)
Lemma localfs_meets_contract_witness : ∃ s',
  run_op fine fine fine (DrvSet ex_key 3 0) 1 0 0 [1; 2; 3] 7 3 (ex_open 100) = Ok (tt, s') ∧
  answered (ex_shared 100) (DrvSet ex_key 3 0) [1; 2; 3] 7 (ex_open 100) s'.
Proof.
  destruct (opened_quiet fine (ex_open 100) ex_init eq_refl eq_refl) as [c Hq].
  pose proof (qu_shared _ _ Hq) as Hc. simpl in Hc. injection Hc as Hc. subst c.
  apply (localfs_meets_contract fine fine fine (ex_shared 100) (ex_open 100) (DrvSet ex_key 3 0) 1 0 0 [1; 2; 3] 7 3);
    [done|done|exact Hq|left|].
  split; [|vm_compute; repeat split; discriminate || reflexivity]. split; [done|]. split; [|done]. by apply not_elem_of_cons; split; [|apply not_elem_of_nil].
Defined.

(** ** What goes wrong *)

Definition lf_run (evs : list lf_event) : LM unit := foldr (λ ev k, lf_step fine fine fine ev;; k) (mret tt) evs.
Definition in_flight_count (s : localfs) : Z := match shared s with Some c => sh_inflight_count c | None => 0 end.
Definition set_kept (key v : list Z) (cb a : Z) : list lf_event := [EvSet 1 key v (Z.of_nat (length v)) 0 cb; EvDone 1 a (Z.of_nat (length v)); EvEvents 1].

(** A request had to wait, here since its ring was full: the completion of another
    one takes the queue lock and calls [submit_io_request], which takes it again. *)
Lemma waiting_request_deadlocks :
  (lf_step fine fine fine (EvSet 1 ex_key [1] 1 0 7);; localfs_set fine fine (Some 1) false ex_other [2] 1 0 (Some 8);;
   lf_run [EvDone 1 1 1; EvEvents 1]) (ex_open 100) = Fault Deadlock.
Proof. vm_compute. reflexivity. Qed.

(** A file that is there when the driver starts is not in the policy. A GET for
    it takes an entry of the ring and does not fill it in; the next submission hands
    it to the kernel, and its completion has no request. *)
Definition ex_restarted : localfs := mk_localfs (Some (ex_shared 100)) [1] [] [] [] ∅ 1 {[ ex_key := 1 ]} {[ 1 := [1; 2] ]} 2 [].

Lemma unknown_file_breaks_ring :
  (lf_step fine fine fine (EvGet 1 ex_key [0; 0] 2 7);; lf_step fine fine fine (EvSet 1 ex_other [1] 1 0 8);;
   io_done 1 None 0;; lf_run [EvEvents 1]) ex_restarted = Fault NullDeref.
Proof. vm_compute. reflexivity. Qed.

(** A failed request stays in the count. *)
Lemma failure_stays_counted :
  (λ r, in_flight_count (state_after r (ex_open 0))) (lf_run [EvSet 1 ex_key [1] 1 0 7; EvDone 1 1 (-5); EvEvents 1] (ex_open 100)) = 1.
Proof. vm_compute. reflexivity. Qed.

(** A SET that writes one of three bytes fails, and the GET after it succeeds with
    that byte. *)
Lemma short_write_is_read :
  calls (state_after (lf_run (set_kept ex_key [1; 2; 3] 7 1 ++ [EvSet 1 ex_key [4; 5; 6] 3 0 8; EvDone 1 2 1; EvEvents 1;
    EvGet 1 ex_key [0; 0; 0] 3 9; EvDone 1 3 1; EvEvents 1]) (ex_open 100)) (ex_open 0)) =
  [mk_call 7 PRISKV_BACKEND_STATUS_OK 3 [1; 2; 3]; mk_call 8 PRISKV_BACKEND_STATUS_ERROR 3 [4; 5; 6];
   mk_call 9 PRISKV_BACKEND_STATUS_OK 1 [4; 0; 0]].
Proof. vm_compute. reflexivity. Qed.

(** A key is a path: SETs of [k] and of [./k] write one file, and [../k] is outside of
    the directory. *)
Lemma dotted_key_aliases :
  entry_of (DOT :: SLASH :: ex_key) = ex_key ∧ entry_of [DOT; DOT; SLASH; 107] = [DOT; DOT; SLASH; 107] ∧
  dir (state_after (lf_run (set_kept ex_key [1; 2; 3] 7 1 ++ set_kept (DOT :: SLASH :: ex_key) [4] 8 2)%list (ex_open 100)) (ex_open 0)) = {[ ex_key := 1 ]}.
Proof. split_and!; vm_compute; reflexivity. Qed.

(** An eviction while a key is overwritten removes the file that is written: the
    SET succeeds and the value is gone. *)
Lemma evict_loses_set :
  calls (state_after (lf_run (set_kept ex_key [1] 7 1 ++ [EvSet 1 ex_key [2] 1 0 8; EvEvict 1 9; EvDone 1 2 1; EvEvents 1;
    EvGet 1 ex_key [0] 1 10]) (ex_open 100)) (ex_open 0)) =
  [mk_call 7 PRISKV_BACKEND_STATUS_OK 1 [1]; mk_call 9 PRISKV_BACKEND_STATUS_OK 0 []; mk_call 8 PRISKV_BACKEND_STATUS_OK 1 [2];
   mk_call 10 PRISKV_BACKEND_STATUS_ERROR 1 [0]].
Proof. vm_compute. reflexivity. Qed.

(** SET does not look at the capacity: the free size wraps around, and everything
    fits from then on. *)
Lemma capacity_wraps :
  (lf_run (set_kept ex_key [1; 2; 3] 7 1);; localfs_is_cacheable (2 ^ 40)) (ex_open 2) =
  (lf_run (set_kept ex_key [1; 2; 3] 7 1);; mret true) (ex_open 2).
Proof. vm_compute. reflexivity. Qed.

(** Without a size the file system is asked before the directory is made: a new
    directory is refused. *)
Lemma new_directory_needs_size stat_errno s errno mkdir_ok names addr :
  localfs_shared_context_create stat_errno s errno None None mkdir_ok names addr ex_dir = None.
Proof. reflexivity. Qed.

(** A second device is opened on the directory of the first one, whatever its
    address. *)
Lemma second_address_ignored s c created created' ctx ring_ok : shared s = Some c →
  localfs_open created ctx ring_ok s = localfs_open created' ctx ring_ok s.
Proof. intros Hc. unfold localfs_open, localfs_shared_context_get, mbind, ST_bind, get. by rewrite Hc. Qed.
