(* ===== verification/Redis.v ===== *)
(** * Backend driver: Redis

    [server/backend/be_redis.c]. An operation makes a request and appends it to a
    queue; one of eight worker threads takes it, takes a connection of a pool, sends
    the command, gives the connection back, appends a completion to a second queue
    and notifies the context the request came from; the thread of a context moves
    the completions to its own queue and runs their callbacks.

    What happens with a lock held is one step, and so is a command; the steps of the
    workers and of the threads of the contexts interleave. The pool is an array that
    [realloc] can move: a pointer into it is an index and the generation of the
    array. The value buffers of the callers are [rs_mem].

    The Redis server and its client library are parameters: [exec] runs a command
    on the state of the server and returns the reply, or none; a connection on which
    a command got no reply has an error, and gets no reply to any further command. *)

From S2P Require Import Prelude CString Lists ServerModel.
From Stdlib Require Import Ascii.

(** ** Configuration *)

Definition chars (s : string) : list Z := (λ c, Z.of_N (N_of_ascii c)) <$> String.list_ascii_of_string s.

Definition REDIS_DEFAULT_HOST : list Z := chars "127.0.0.1".
Definition REDIS_DEFAULT_PORT : Z := 6379.
Definition REDIS_DEFAULT_DB : Z := 0.
Definition REDIS_POOL_INITIAL_SIZE : Z := 10.
Definition REDIS_POOL_MAX_SIZE : Z := 50.
Definition REDIS_THREAD_POOL_SIZE : nat := 8.

Record redis_config := mk_config {
  cf_host : list Z;
  cf_port : Z;
  cf_db : Z;
  cf_password : option (list Z);
  cf_prefix : option (list Z)
}.

Section config.
(** The environment, and [errno] before. *)
Context (getenv : string → option (list Z)) (errno : Z).

Definition nonempty (v : option (list Z)) : option (list Z) := match v with Some [] => None | _ => v end.

Definition getenv_default (name : string) (def : list Z) : list Z := default def (nonempty (getenv name)).

(** [errno] is not cleared before the conversion. *)
Definition getenv_int_default (name : string) (def : Z) : Z :=
  match nonempty (getenv name) with
  | None => def
  | Some v =>
      let '(n, range, rest) := strtoll v in
      if bool_decide (rest = v) || range || (errno =? ERANGE) then def else s32 n
  end.

(** [snprintf(host, 256, "%s", v)]. *)
Definition host_of (v : list Z) : list Z := take 255 v.

(** [strsep] with [&]. *)
Fixpoint split_at (c : Z) (s : list Z) : list (list Z) :=
  match s with
  | [] => [[]]
  | x :: s => if x =? c then [] :: split_at c s else match split_at c s with tok :: l => (x :: tok) :: l | [] => [[x]] end
  end.

Definition parse_token (cf : redis_config) (tok : list Z) : redis_config :=
  match strchr tok 61 with
  | None => cf
  | Some eq =>
      let k := take eq tok in
      let v := drop (S eq) tok in
      if bool_decide (k = chars "host") then mk_config (host_of v) (cf_port cf) (cf_db cf) (cf_password cf) (cf_prefix cf)
      else if bool_decide (k = chars "port") then mk_config (cf_host cf) (atoi v) (cf_db cf) (cf_password cf) (cf_prefix cf)
      else if bool_decide (k = chars "db") then mk_config (cf_host cf) (cf_port cf) (atoi v) (cf_password cf) (cf_prefix cf)
      else if bool_decide (k = chars "password") then mk_config (cf_host cf) (cf_port cf) (cf_db cf) (nonempty (Some v)) (cf_prefix cf)
      else if bool_decide (k = chars "prefix") then mk_config (cf_host cf) (cf_port cf) (cf_db cf) (cf_password cf) (nonempty (Some v))
      else cf
  end.

Definition redis_parse_config (address : option (list Z)) : redis_config :=
  let cf := mk_config (host_of (getenv_default "PRISKV_REDIS_HOST" REDIS_DEFAULT_HOST))
              (getenv_int_default "PRISKV_REDIS_PORT" REDIS_DEFAULT_PORT) (getenv_int_default "PRISKV_REDIS_DB" REDIS_DEFAULT_DB)
              (nonempty (getenv "PRISKV_REDIS_PASSWORD")) (nonempty (getenv "PRISKV_REDIS_PREFIX")) in
  match nonempty address with
  | None => cf
  | Some address => foldl parse_token cf (split_at 38 address)
  end.
End config.

(** ** Commands and replies *)

Inductive redis_command :=
  | CmdAuth (password : list Z)
  | CmdSelect (db : Z)
  | CmdGet (key : list Z)
  | CmdSet (key val : list Z)
  | CmdDel (key : list Z)
  | CmdExists (key : list Z)
  | CmdFlushdb.

Inductive redisReply := ReplyString (str : list Z) | ReplyInteger (n : Z) | ReplyNil | ReplyStatus | ReplyError.
Global Instance redisReply_eq_dec : EqDecision redisReply.
Proof. solve_decision. Defined.

(** ** State *)

Inductive redis_op_type := REDIS_OP_GET | REDIS_OP_SET | REDIS_OP_DEL | REDIS_OP_TEST.

(** [q_cb]: the callback and its argument. *)
Record redis_request := mk_request {
  q_op_type : redis_op_type;
  q_key : list Z;
  q_val : Z;
  q_valuelen : Z;
  q_cb : Z;
  q_ctx : Z
}.

Record redis_completion := mk_completion { k_cb : Z; k_status : priskv_backend_status; k_valuelen : Z }.

(** [rc_conn]: [None] is a null pointer; else whether the context has an error. *)
Record redis_connection := mk_connection { rc_conn : option bool; rc_in_use : bool }.

(** Generation of the array, index. *)
Notation conn_ptr := (Z * Z)%type.

(** Where a worker is: waiting for a task; with a task; waiting for a connection;
    with a connection; with the answer, before and after giving the connection
    back; with the completion appended. *)
Inductive worker_pc :=
  | WIdle
  | WTask (req : redis_request)
  | WWaiting (req : redis_request)
  | WConn (req : redis_request) (conn : conn_ptr)
  | WAnswer (req : redis_request) (conn : conn_ptr) (status : priskv_backend_status) (len : Z)
  | WReleased (req : redis_request) (status : priskv_backend_status) (len : Z)
  | WNotify (req : redis_request).

(** Where the thread of a context is: not in the driver; after the read of the
    event; in the loop over its queue; clearing the database, without a connection
    and with one. *)
Inductive context_pc := CIdle | CRead | CLoop | CClearWait | CClear (conn : conn_ptr).

Record redis_thread_context := mk_context { x_queue : list redis_completion; x_eventfd : Z; x_pc : context_pc }.

Record redis (db : Type) := mk_redis {
  rs_db : db;
  rs_gen : Z;
  rs_pool : list redis_connection;
  rs_cf : redis_config;
  rs_tasks : list redis_request;
  rs_workers : list worker_pc;
  rs_completions : list redis_completion;
  rs_ctxs : gmap Z redis_thread_context;
  rs_mem : gmap Z (list Z);
  rs_log : list (Z * Z * priskv_backend_status * Z);   (* callbacks: in which context, which, status and length *)
  rs_issued : list Z;
  rs_lost : list Z;                                    (* requests whose completion could not be allocated *)
  rs_tick : Z
}.
Arguments mk_redis {db}. Arguments rs_db {db}. Arguments rs_gen {db}. Arguments rs_pool {db}. Arguments rs_cf {db}.
Arguments rs_tasks {db}. Arguments rs_workers {db}. Arguments rs_completions {db}. Arguments rs_ctxs {db}. Arguments rs_mem {db}.
Arguments rs_log {db}. Arguments rs_issued {db}. Arguments rs_lost {db}. Arguments rs_tick {db}.

(** What the pool answers: a connection, a failure, or a wait. *)
Inductive pool_answer := PoolGot (conn : conn_ptr) | PoolFailed | PoolWait.
Global Instance pool_answer_eq_dec : EqDecision pool_answer.
Proof. solve_decision. Defined.

Section driver.
Context {db : Type}.
(** The [t]-th command, connection attempt and allocation; does [realloc] move. *)
Context (exec : Z → redis_command → db → option redisReply * db) (connects alloc_ok moves : Z → bool).
Notation redis := (redis db).

Definition set_db (d : db) (s : redis) : redis :=
  mk_redis d (rs_gen s) (rs_pool s) (rs_cf s) (rs_tasks s) (rs_workers s) (rs_completions s) (rs_ctxs s) (rs_mem s) (rs_log s) (rs_issued s) (rs_lost s) (rs_tick s).
Definition set_pool (g : Z) (p : list redis_connection) (s : redis) : redis :=
  mk_redis (rs_db s) g p (rs_cf s) (rs_tasks s) (rs_workers s) (rs_completions s) (rs_ctxs s) (rs_mem s) (rs_log s) (rs_issued s) (rs_lost s) (rs_tick s).
Definition set_tasks (l : list redis_request) (s : redis) : redis :=
  mk_redis (rs_db s) (rs_gen s) (rs_pool s) (rs_cf s) l (rs_workers s) (rs_completions s) (rs_ctxs s) (rs_mem s) (rs_log s) (rs_issued s) (rs_lost s) (rs_tick s).
Definition set_worker (i : nat) (pc : worker_pc) (s : redis) : redis :=
  mk_redis (rs_db s) (rs_gen s) (rs_pool s) (rs_cf s) (rs_tasks s) (<[i := pc]> (rs_workers s)) (rs_completions s) (rs_ctxs s) (rs_mem s) (rs_log s) (rs_issued s) (rs_lost s) (rs_tick s).
Definition set_completions (l : list redis_completion) (s : redis) : redis :=
  mk_redis (rs_db s) (rs_gen s) (rs_pool s) (rs_cf s) (rs_tasks s) (rs_workers s) l (rs_ctxs s) (rs_mem s) (rs_log s) (rs_issued s) (rs_lost s) (rs_tick s).
Definition set_ctxs (m : gmap Z redis_thread_context) (s : redis) : redis :=
  mk_redis (rs_db s) (rs_gen s) (rs_pool s) (rs_cf s) (rs_tasks s) (rs_workers s) (rs_completions s) m (rs_mem s) (rs_log s) (rs_issued s) (rs_lost s) (rs_tick s).
Definition set_mem (m : gmap Z (list Z)) (s : redis) : redis :=
  mk_redis (rs_db s) (rs_gen s) (rs_pool s) (rs_cf s) (rs_tasks s) (rs_workers s) (rs_completions s) (rs_ctxs s) m (rs_log s) (rs_issued s) (rs_lost s) (rs_tick s).
Definition log_call (ctx cb : Z) (st : priskv_backend_status) (len : Z) (s : redis) : redis :=
  mk_redis (rs_db s) (rs_gen s) (rs_pool s) (rs_cf s) (rs_tasks s) (rs_workers s) (rs_completions s) (rs_ctxs s) (rs_mem s)
    (rs_log s ++ [(ctx, cb, st, u32 len)]) (rs_issued s) (rs_lost s) (rs_tick s).
Definition issue (cb : Z) (s : redis) : redis :=
  mk_redis (rs_db s) (rs_gen s) (rs_pool s) (rs_cf s) (rs_tasks s) (rs_workers s) (rs_completions s) (rs_ctxs s) (rs_mem s) (rs_log s)
    (rs_issued s ++ [cb]) (rs_lost s) (rs_tick s).
Definition lose (cb : Z) (s : redis) : redis :=
  mk_redis (rs_db s) (rs_gen s) (rs_pool s) (rs_cf s) (rs_tasks s) (rs_workers s) (rs_completions s) (rs_ctxs s) (rs_mem s) (rs_log s)
    (rs_issued s) (rs_lost s ++ [cb]) (rs_tick s).
Definition ticked (s : redis) : redis :=
  mk_redis (rs_db s) (rs_gen s) (rs_pool s) (rs_cf s) (rs_tasks s) (rs_workers s) (rs_completions s) (rs_ctxs s) (rs_mem s) (rs_log s)
    (rs_issued s) (rs_lost s) (rs_tick s + 1).

(** ** The connection pool *)

Definition idle (c : redis_connection) : bool := negb (rc_in_use c) && match rc_conn c with Some _ => true | None => false end.

Fixpoint find_idle (i : Z) (l : list redis_connection) : option Z :=
  match l with [] => None | c :: l => if idle c then Some i else find_idle (i + 1) l end.

Definition take_conn (i : Z) (s : redis) : redis :=
  set_pool (rs_gen s) (alter (λ c, mk_connection (rc_conn c) true) (Z.to_nat i) (rs_pool s)) s.

(** [AUTH], when there is a password, and [SELECT] on a new connection. *)
Definition greet (password : option (list Z)) (db_index t : Z) (d : db) : bool * db :=
  let ask cmd t d := let '(reply, d) := exec t cmd d in (match reply with None | Some ReplyError => false | _ => true end, d) in
  let '(authed, d) := match nonempty password with Some p => ask (CmdAuth p) t d | None => (true, d) end in
  if authed then ask (CmdSelect db_index) (t + 1) d else (false, d).

Definition redis_connection_init (cf : redis_config) (t : Z) (d : db) : option redis_connection * db :=
  if negb (connects t) then (None, d) else
  let '(ok, d) := greet (cf_password cf) (cf_db cf) t d in
  (if ok then Some (mk_connection (Some false) false) else None, d).

Definition grow_pool (s : redis) : pool_answer * redis :=
  let t := rs_tick s in
  let s := ticked s in
  if negb (alloc_ok t) then (PoolFailed, s) else
  let gen := if moves t then rs_gen s + 1 else rs_gen s in
  let '(conn, d) := redis_connection_init (rs_cf s) t (rs_db s) in
  let s := set_db d s in
  match conn with
  | None => (PoolWait, set_pool gen (rs_pool s) s)
  | Some conn => (PoolGot (gen, Z.of_nat (length (rs_pool s))), set_pool gen (rs_pool s ++ [mk_connection (rc_conn conn) true]) s)
  end.

Definition redis_connection_pool_get (s : redis) : pool_answer * redis :=
  match find_idle 0 (rs_pool s) with
  | Some i => (PoolGot (rs_gen s, i), take_conn i s)
  | None => if Z.of_nat (length (rs_pool s)) <? REDIS_POOL_MAX_SIZE then grow_pool s else (PoolWait, s)
  end.

(** After a wait. *)
Definition pool_retry (s : redis) : pool_answer * redis :=
  match find_idle 0 (rs_pool s) with
  | Some i => (PoolGot (rs_gen s, i), take_conn i s)
  | None => (PoolWait, s)
  end.

(** A pointer into an array that was moved dangles. *)
Definition deref_conn (p : conn_ptr) (s : redis) : res redis_connection :=
  if p.1 =? rs_gen s then rd (rs_pool s) p.2 else Fault UseAfterFree.

Definition set_conn (p : conn_ptr) (c : redis_connection) (s : redis) : res redis :=
  _ ← deref_conn p s;
  pool ← wr (rs_pool s) p.2 c;
  Ok (set_pool (rs_gen s) pool s).

Definition redis_connection_pool_release (p : conn_ptr) (s : redis) : res redis :=
  c ← deref_conn p s;
  set_conn p (mk_connection (rc_conn c) false) s.

(** ** Commands *)

(** [redisCommand] on a connection. *)
Definition redisCommand (p : conn_ptr) (cmd : redis_command) (s : redis) : res (option redisReply * redis) :=
  c ← deref_conn p s;
  match rc_conn c with
  | None => Fault NullDeref
  | Some true => Ok (None, s)
  | Some false =>
      let '(reply, d) := exec (rs_tick s) cmd (rs_db s) in
      let s := set_db d (ticked s) in
      s ← set_conn p (mk_connection (Some (match reply with None => true | Some _ => false end)) (rc_in_use c)) s;
      Ok (reply, s)
  end.

Definition buffer (a : Z) (s : redis) : res (list Z) :=
  match rs_mem s !! a with Some b => Ok b | None => Fault UseAfterFree end.

Definition command_of (req : redis_request) (s : redis) : res redis_command :=
  match q_op_type req with
  | REDIS_OP_GET => Ok (CmdGet (q_key req))
  | REDIS_OP_SET =>
      b ← buffer (q_val req) s;
      if Z.of_nat (length b) <? q_valuelen req then Fault OutOfBounds
      else Ok (CmdSet (q_key req) (take (Z.to_nat (q_valuelen req)) b))
  | REDIS_OP_DEL => Ok (CmdDel (q_key req))
  | REDIS_OP_TEST => Ok (CmdExists (q_key req))
  end.

(** The status and the length of a reply; GET copies the value. *)
Definition process_reply (req : redis_request) (reply : option redisReply) (s : redis) : res (priskv_backend_status * Z * redis) :=
  let found n := if 0 <? n then PRISKV_BACKEND_STATUS_OK else PRISKV_BACKEND_STATUS_NOT_FOUND in
  match reply with
  | None | Some ReplyError => Ok (PRISKV_BACKEND_STATUS_ERROR, 0, s)
  | Some r =>
      match q_op_type req, r with
      | REDIS_OP_GET, ReplyString str =>
          let len := Z.of_nat (length str) in
          if q_valuelen req <? len then Ok (PRISKV_BACKEND_STATUS_VALUE_TOO_BIG, 0, s)
          else
            b ← buffer (q_val req) s;
            if (length b <? length str)%nat then Fault OutOfBounds
            else Ok (PRISKV_BACKEND_STATUS_OK, len, set_mem (<[q_val req := str ++ drop (length str) b]> (rs_mem s)) s)
      | REDIS_OP_GET, ReplyNil => Ok (PRISKV_BACKEND_STATUS_NOT_FOUND, 0, s)
      | REDIS_OP_SET, _ => Ok (PRISKV_BACKEND_STATUS_OK, q_valuelen req, s)
      | REDIS_OP_DEL, ReplyInteger n | REDIS_OP_TEST, ReplyInteger n => Ok (found n, 0, s)
      | _, _ => Ok (PRISKV_BACKEND_STATUS_ERROR, 0, s)
      end
  end.

Definition execute (req : redis_request) (p : conn_ptr) (s : redis) : res (priskv_backend_status * Z * redis) :=
  cmd ← command_of req s;
  '(reply, s) ← redisCommand p cmd s;
  process_reply req reply s.

(** ** Workers *)

(** A completion is appended, or lost. *)
Definition complete (i : nat) (req : redis_request) (st : priskv_backend_status) (len : Z) (s : redis) : redis :=
  if alloc_ok (rs_tick s)
  then set_worker i (WNotify req) (set_completions (rs_completions s ++ [mk_completion (q_cb req) st len]) (ticked s))
  else set_worker i WIdle (lose (q_cb req) (ticked s)).

Definition pool_answered (i : nat) (req : redis_request) (a : pool_answer) (s : redis) : redis :=
  match a with
  | PoolGot conn => set_worker i (WConn req conn) s
  | PoolFailed => set_worker i (WReleased req PRISKV_BACKEND_STATUS_ERROR 0) s
  | PoolWait => set_worker i (WWaiting req) s
  end.

(** One step of a worker; [timeout]: a wait for a connection ends without one. *)
Definition redis_worker_func (i : nat) (timeout : bool) (s : redis) : res redis :=
  match rs_workers s !! i with
  | None => Ok s
  | Some WIdle => match rs_tasks s with [] => Ok s | req :: tasks => Ok (set_worker i (WTask req) (set_tasks tasks s)) end
  | Some (WTask req) => let '(a, s) := redis_connection_pool_get s in Ok (pool_answered i req a s)
  | Some (WWaiting req) =>
      if timeout then Ok (set_worker i (WReleased req PRISKV_BACKEND_STATUS_ERROR 0) s)
      else let '(a, s) := pool_retry s in Ok (pool_answered i req a s)
  | Some (WConn req conn) =>
      '(st, len, s) ← execute req conn s;
      Ok (set_worker i (WAnswer req conn st len) s)
  | Some (WAnswer req conn st len) =>
      s ← redis_connection_pool_release conn s;
      Ok (set_worker i (WReleased req st len) s)
  | Some (WReleased req st len) => Ok (complete i req st len s)
  | Some (WNotify req) =>
      match rs_ctxs s !! q_ctx req with
      | None => Fault UseAfterFree
      | Some x => Ok (set_worker i WIdle (set_ctxs (<[q_ctx req := mk_context (x_queue x) (x_eventfd x + 1) (x_pc x)]> (rs_ctxs s)) s))
      end
  end.

(** ** Contexts *)

Definition get_ctx (ctx : Z) (s : redis) : res redis_thread_context :=
  match rs_ctxs s !! ctx with Some x => Ok x | None => Fault UseAfterFree end.
Definition put_ctx (ctx : Z) (x : redis_thread_context) (s : redis) : redis := set_ctxs (<[ctx := x]> (rs_ctxs s)) s.

(** The key with the prefix. *)
Definition full_key (key : list Z) (s : redis) : list Z := default [] (cf_prefix (rs_cf s)) ++ key.

Definition redis_make_request (op : redis_op_type) (ctx : Z) (key : list Z) (val valuelen cb : Z) (s : redis) : option redis_request * redis :=
  if alloc_ok (rs_tick s) then (Some (mk_request op (full_key key s) val valuelen cb ctx), ticked s) else (None, ticked s).

Definition redis_thread_pool_submit (req : redis_request) (s : redis) : redis := set_tasks (rs_tasks s ++ [req]) s.

(** GET, SET, DEL and TEST; a request that cannot be made, or of a device that is not
    open, is called back at once. *)
Definition redis_operation (op : redis_op_type) (ctx : Z) (key : list Z) (val valuelen cb : Z) (s : redis) : redis :=
  let s := issue cb s in
  match rs_ctxs s !! ctx with
  | None => log_call ctx cb PRISKV_BACKEND_STATUS_ERROR 0 s
  | Some _ =>
      match redis_make_request op ctx key val valuelen cb s with
      | (None, s) => log_call ctx cb PRISKV_BACKEND_STATUS_ERROR 0 s
      | (Some req, s) => redis_thread_pool_submit req s
      end
  end.

Definition redis_get (ctx : Z) (key : list Z) (val valuelen cb : Z) := redis_operation REDIS_OP_GET ctx key val valuelen cb.
(** The timeout is not used. *)
Definition redis_set (ctx : Z) (key : list Z) (val valuelen timeout cb : Z) := redis_operation REDIS_OP_SET ctx key val valuelen cb.
Definition redis_del (ctx : Z) (key : list Z) (cb : Z) := redis_operation REDIS_OP_DEL ctx key 0 0 cb.
Definition redis_test (ctx : Z) (key : list Z) (cb : Z) := redis_operation REDIS_OP_TEST ctx key 0 0 cb.

Definition redis_evict (ctx cb : Z) (s : redis) : redis := log_call ctx cb PRISKV_BACKEND_STATUS_OK 0 (issue cb s).
Definition redis_is_cacheable (valuelen : Z) : bool := true.

(** The event of a context: the counter is read, ... *)
Definition handle_redis_completion_event (ctx : Z) (s : redis) : res redis :=
  x ← get_ctx ctx s;
  Ok (put_ctx ctx (mk_context (x_queue x) 0 CRead) s).

(** ... all completions are moved to its queue, whichever context they belong to,
    ... *)
Definition list_move_all (ctx : Z) (s : redis) : res redis :=
  x ← get_ctx ctx s;
  Ok (put_ctx ctx (mk_context (x_queue x ++ rs_completions s) (x_eventfd x) CLoop) (set_completions [] s)).

(** ... and the loop calls back one of them, or ends. *)
Definition redis_process_completions (ctx : Z) (s : redis) : res redis :=
  x ← get_ctx ctx s;
  match x_queue x with
  | [] => Ok (put_ctx ctx (mk_context [] (x_eventfd x) CIdle) s)
  | comp :: queue => Ok (log_call ctx (k_cb comp) (k_status comp) (k_valuelen comp) (put_ctx ctx (mk_context queue (x_eventfd x) CLoop) s))
  end.

(** [redis_clearup]: what it returns, once it does. A connection is taken, possibly
    after a wait, then the command is sent on it and it is given back. *)
Definition clearup_answered (ctx : Z) (x : redis_thread_context) (a : pool_answer) (s : redis) : option Z * redis :=
  let at_pc pc := put_ctx ctx (mk_context (x_queue x) (x_eventfd x) pc) s in
  match a with
  | PoolGot conn => (None, at_pc (CClear conn))
  | PoolWait => (None, at_pc CClearWait)
  | PoolFailed => (Some (-1), at_pc CIdle)
  end.

Definition redis_clearup (ctx : Z) (s : redis) : option Z * redis :=
  match rs_ctxs s !! ctx with
  | None => (Some (-1), s)
  | Some x => let '(a, s) := redis_connection_pool_get s in clearup_answered ctx x a s
  end.

Definition clearup_wait (ctx : Z) (timeout : bool) (s : redis) : res (option Z * redis) :=
  x ← get_ctx ctx s;
  if timeout then Ok (clearup_answered ctx x PoolFailed s)
  else let '(a, s) := pool_retry s in Ok (clearup_answered ctx x a s).

Definition clearup_flush (ctx : Z) (s : redis) : res (option Z * redis) :=
  x ← get_ctx ctx s;
  match x_pc x with
  | CClear conn =>
      '(reply, s) ← redisCommand conn CmdFlushdb s;
      s ← redis_connection_pool_release conn s;
      Ok (Some (match reply with None | Some ReplyError => -1 | _ => 0 end), put_ctx ctx (mk_context (x_queue x) (x_eventfd x) CIdle) s)
  | _ => Ok (None, s)
  end.

(** ** Opening and closing *)

(** The connections of a new pool, or none. *)
Fixpoint init_connections (cf : redis_config) (n : nat) (t : Z) (d : db) : option (list redis_connection) * db :=
  match n with
  | O => (Some [], d)
  | S n =>
      match redis_connection_init cf t d with
      | (None, d) => (None, d)
      | (Some c, d) => match init_connections cf n (t + 2) d with (Some l, d) => (Some (c :: l), d) | (None, d) => (None, d) end
      end
  end.

Definition redis_connection_pool_create (cf : redis_config) (t : Z) (d : db) : option (list redis_connection) * db :=
  if alloc_ok t && alloc_ok (t + 1) then init_connections cf (Z.to_nat REDIS_POOL_INITIAL_SIZE) (t + 2) d else (None, d).

(** The pool with its connections, its idle workers and its empty queues, or
    nothing. *)
Definition redis_thread_pool_create (cf : redis_config) (num_workers : nat) (t : Z) (d : db) (mem : gmap Z (list Z)) : option redis :=
  if negb (alloc_ok t) then None else
  match redis_connection_pool_create cf (t + 1) d with
  | (None, _) => None
  | (Some pool, d) =>
      let t := t + 3 + 2 * REDIS_POOL_INITIAL_SIZE in
      if negb (alloc_ok t) then None
      else Some (mk_redis d 0 pool cf [] (replicate num_workers WIdle) [] ∅ mem [] [] [] (t + 1))
  end.

(** The context of a device; [eventfd_ok]: there is a file descriptor. *)
Definition redis_context (ctx : Z) (eventfd_ok : bool) (s : redis) : Z * redis :=
  if negb (alloc_ok (rs_tick s)) then (-1, ticked s)
  else if negb eventfd_ok then (-1, ticked s)
  else (0, put_ctx ctx (mk_context [] 0 CIdle) (ticked s)).

(** The first device that is opened makes the global pool, from its address. *)
Definition redis_open (cf : redis_config) (ctx : Z) (eventfd_ok : bool) (t : Z) (d : db) (mem : gmap Z (list Z))
    (g_thread_pool : option redis) : Z * option redis :=
  let pool := match g_thread_pool with Some s => Some s | None => redis_thread_pool_create cf REDIS_THREAD_POOL_SIZE t d mem end in
  match pool with
  | None => (-1, None)
  | Some s => let '(ret, s) := redis_context ctx eventfd_ok s in (ret, Some s)
  end.

(** The loop of [redis_process_completions] to its end. *)
Definition call_all (ctx : Z) (l : list redis_completion) (s : redis) : redis :=
  foldl (λ s comp, log_call ctx (k_cb comp) (k_status comp) (k_valuelen comp) s) s l.

Definition redis_close (ctx : Z) (s : redis) : Z * redis :=
  match rs_ctxs s !! ctx with
  | None => (-1, s)
  | Some x =>
      let s := call_all ctx (x_queue x ++ rs_completions s) (set_completions [] s) in
      (0, set_ctxs (delete ctx (rs_ctxs s)) s)
  end.
End driver.
