(* ===== verification/RedisProps.v ===== *)
(** * Runs of the Redis driver

    The steps of the threads of [Redis], in any order, what the callers have to
    respect, and what holds in every state such a run reaches: a connection is used
    by one thread at a time and stays where its pointer says, every request is in
    exactly one place until its callback is called, and a completion is never left
    without a thread that will look for it. *)

From S2P Require Import Prelude CString ServerModel Redis.
From Stdlib Require Import Permutation.

Inductive label :=
  | LRequest (op : redis_op_type) (ctx : Z) (key : list Z) (val valuelen cb : Z)
  | LEvict (ctx cb : Z)
  | LWorker (i : nat) (timeout : bool)
  | LEvent (ctx : Z)
  | LMove (ctx : Z)
  | LCall (ctx : Z)
  | LClear (ctx : Z)
  | LClearWait (ctx : Z) (timeout : bool)
  | LFlush (ctx : Z)
  | LOpen (ctx : Z) (eventfd_ok : bool)
  | LClose (ctx : Z)
  | LMem (mem : gmap Z (list Z)).

(** ** Where a request is, and who has a connection *)

(** The request a worker has not completed yet. *)
Definition worker_req (pc : worker_pc) : option redis_request :=
  match pc with
  | WIdle | WNotify _ => None
  | WTask req | WWaiting req | WConn req _ | WAnswer req _ _ _ | WReleased req _ _ => Some req
  end.

Definition worker_cbs (pc : worker_pc) : list Z := match worker_req pc with Some req => [q_cb req] | None => [] end.

(** The request whose buffer a worker will still use. *)
Definition worker_uses (pc : worker_pc) : option redis_request :=
  match pc with WTask req | WWaiting req | WConn req _ => Some req | _ => None end.

(** The context a worker will still use. *)
Definition worker_ctx (pc : worker_pc) : option Z :=
  match pc with WNotify req => Some (q_ctx req) | _ => q_ctx <$> worker_req pc end.

Definition worker_conn (pc : worker_pc) : option conn_ptr :=
  match pc with WConn _ conn | WAnswer _ conn _ _ => Some conn | _ => None end.

Definition context_conn (x : redis_thread_context) : option conn_ptr := match x_pc x with CClear conn => Some conn | _ => None end.

Definition queue_cbs (x : redis_thread_context) : list Z := k_cb <$> x_queue x.

(** A thread: a worker, or the one of a context. *)
Notation thread := (nat + Z)%type.

Section runs.
Context {db : Type} (exec : Z → redis_command → db → option redisReply * db) (connects alloc_ok moves : Z → bool).
Notation redis := (redis db).
Notation worker := (redis_worker_func exec connects alloc_ok moves).
Notation pool_get := (redis_connection_pool_get exec connects alloc_ok moves).

Definition step (l : label) (s : redis) : res redis :=
  match l with
  | LRequest op ctx key val valuelen cb => Ok (redis_operation alloc_ok op ctx key val valuelen cb s)
  | LEvict ctx cb => Ok (redis_evict ctx cb s)
  | LWorker i timeout => worker i timeout s
  | LEvent ctx => handle_redis_completion_event ctx s
  | LMove ctx => list_move_all ctx s
  | LCall ctx => redis_process_completions ctx s
  | LClear ctx => Ok (redis_clearup exec connects alloc_ok moves ctx s).2
  | LClearWait ctx timeout => '(_, s) ← clearup_wait ctx timeout s; Ok s
  | LFlush ctx => '(_, s) ← clearup_flush exec ctx s; Ok s
  | LOpen ctx eventfd_ok => Ok (redis_context alloc_ok ctx eventfd_ok s).2
  | LClose ctx => Ok (redis_close ctx s).2
  | LMem mem => Ok (set_mem mem s)
  end.

Definition held (s : redis) (h : thread) : option conn_ptr :=
  match h with
  | inl i => rs_workers s !! i ≫= worker_conn
  | inr ctx => rs_ctxs s !! ctx ≫= context_conn
  end.

(** The buffer of a request is there. *)
Definition buffered (mem : gmap Z (list Z)) (req : redis_request) : Prop :=
  match q_op_type req with
  | REDIS_OP_GET | REDIS_OP_SET => ∃ b, mem !! q_val req = Some b ∧ q_valuelen req <= Z.of_nat (length b)
  | _ => True
  end.

(** The requests whose buffers are still used. *)
Definition in_use (s : redis) (req : redis_request) : Prop :=
  req ∈ rs_tasks s ∨ ∃ i pc, rs_workers s !! i = Some pc ∧ worker_uses pc = Some req.

(** The contexts that are still used. *)
Definition wanted (s : redis) (ctx : Z) : Prop :=
  (∃ req, req ∈ rs_tasks s ∧ q_ctx req = ctx) ∨ ∃ i pc, rs_workers s !! i = Some pc ∧ worker_ctx pc = Some ctx.

Definition queued (ctxs : gmap Z redis_thread_context) : list Z := map_to_list ctxs ≫= (λ x, queue_cbs x.2).

Definition pending (s : redis) : list Z :=
  (q_cb <$> rs_tasks s) ++ (rs_workers s ≫= worker_cbs) ++ (k_cb <$> rs_completions s) ++ queued (rs_ctxs s).

Definition called (s : redis) : list Z := (λ c, c.1.1.2) <$> rs_log s.

(** ** What the callers and the allocator have to respect *)

Definition at_pc (s : redis) (ctx : Z) (pc : context_pc) : Prop := ∃ x, rs_ctxs s !! ctx = Some x ∧ x_pc x = pc.

(** When the array of connections grows, it grows in place. *)
Definition in_place (s : redis) : Prop := find_idle 0 (rs_pool s) = None → moves (rs_tick s) = false.

(** A thread calls the driver outside of it, or from a callback; callbacks differ;
    the buffer of a request stays until it is executed; a context is closed when no
    request of it is left. *)
Definition allowed (l : label) (s : redis) : Prop :=
  match l with
  | LRequest op ctx key val valuelen cb =>
      (at_pc s ctx CIdle ∨ at_pc s ctx CLoop) ∧ cb ∉ rs_issued s ∧ 0 <= valuelen ∧
      buffered (rs_mem s) (mk_request op (full_key key s) val valuelen cb ctx)
  | LEvict ctx cb => cb ∉ rs_issued s
  | LWorker i timeout => ∀ req, rs_workers s !! i = Some (WTask req) → in_place s
  | LEvent ctx => ∃ x, rs_ctxs s !! ctx = Some x ∧ x_pc x = CIdle ∧ 0 < x_eventfd x
  | LMove ctx => at_pc s ctx CRead ∨ at_pc s ctx CIdle
  | LCall ctx => at_pc s ctx CLoop
  | LClear ctx => at_pc s ctx CIdle ∧ in_place s
  | LClearWait ctx timeout => at_pc s ctx CClearWait
  | LFlush ctx => ∃ conn, at_pc s ctx (CClear conn)
  | LOpen ctx eventfd_ok => rs_ctxs s !! ctx = None
  | LClose ctx => at_pc s ctx CIdle ∧ ¬ wanted s ctx
  | LMem mem => ∀ req, in_use s req → buffered mem req
  end.

Inductive reachable : redis → Prop :=
  | reachable_start cf t d mem s :
      redis_thread_pool_create exec connects alloc_ok cf REDIS_THREAD_POOL_SIZE t d mem = Some s → reachable s
  | reachable_step l s s' : reachable s → allowed l s → step l s = Ok s' → reachable s'.

(** ** The invariant *)

(** The connections: those in use are each held by one thread. *)
Record pool_ok (gen : Z) (pool : list redis_connection) (h : thread → option conn_ptr) : Prop := {
  po_held x p : h x = Some p → p.1 = gen ∧ 0 <= p.2 ∧ ∃ c, pool !! Z.to_nat p.2 = Some c ∧ rc_in_use c = true;
  po_one x y p q : h x = Some p → h y = Some q → p.2 = q.2 → x = y;
  po_used i c : pool !! i = Some c → rc_in_use c = true → ∃ x p, h x = Some p ∧ p.2 = Z.of_nat i;
  po_conn i c : pool !! i = Some c → is_Some (rc_conn c);
  po_size : REDIS_POOL_INITIAL_SIZE <= Z.of_nat (length pool)
}.

(** Somebody will look at the completions. *)
Definition looked_for (s : redis) : Prop :=
  (∃ ctx x, rs_ctxs s !! ctx = Some x ∧ (0 < x_eventfd x ∨ x_pc x = CRead)) ∨ ∃ i req, rs_workers s !! i = Some (WNotify req).

Record redis_ok (s : redis) : Prop := {
  ro_pool : pool_ok (rs_gen s) (rs_pool s) (held s);
  ro_ctx ctx : wanted s ctx → is_Some (rs_ctxs s !! ctx);
  ro_buf req : in_use s req → buffered (rs_mem s) req;
  ro_where : rs_issued s ≡ₚ pending s ++ called s ++ rs_lost s;
  ro_once : NoDup (rs_issued s);
  ro_look : rs_completions s ≠ [] → looked_for s;
  ro_queue ctx x : rs_ctxs s !! ctx = Some x → 0 <= x_eventfd x ∧ (x_queue x ≠ [] → x_pc x = CLoop);
  ro_workers : length (rs_workers s) = REDIS_THREAD_POOL_SIZE
}.
End runs.

(** ** Connections *)

Definition hset (h : thread → option conn_ptr) (x : thread) (v : option conn_ptr) (y : thread) : option conn_ptr :=
  if decide (y = x) then v else h y.

Lemma hset_eq h x v : hset h x v x = v.
Proof. unfold hset. by rewrite decide_True. Qed.
Lemma hset_ne h x v y : y ≠ x → hset h x v y = h y.
Proof. intros. unfold hset. by rewrite decide_False. Qed.
Lemma hset_Some h x v y p : hset h x v y = Some p → (y = x ∧ v = Some p) ∨ (y ≠ x ∧ h y = Some p).
Proof. unfold hset. case_decide; naive_solver. Qed.

Lemma pool_ok_ext gen pool h h' : pool_ok gen pool h → (∀ y, h' y = h y) → pool_ok gen pool h'.
Proof.
  intros [H1 H2 H3 H4 H5] He. split; [| | |done|done].
  - intros x p. rewrite He. apply H1.
  - intros x y p q. rewrite !He. apply H2.
  - intros i c Hi Hu. destruct (H3 i c Hi Hu) as (x & p & Hx & Hp). exists x, p. by rewrite He.
Qed.

Lemma find_idle_Some k l i : find_idle k l = Some i → ∃ j c, i = k + Z.of_nat j ∧ l !! j = Some c ∧ idle c = true.
Proof.
  revert k. induction l as [|c l IH]; intros k; simpl; [done|]. destruct (idle c) eqn:Hc.
  - intros [= <-]. exists 0%nat, c. split_and!; [lia|done|done].
  - intros (j & d & -> & Hj & Hd)%IH. exists (S j), d. split_and!; [lia|done|done].
Qed.

Lemma find_idle_None k l j c : find_idle k l = None → l !! j = Some c → idle c = false.
Proof.
  revert k j. induction l as [|d l IH]; intros k j; simpl; [by rewrite lookup_nil|]. destruct (idle d) eqn:Hd; [done|].
  intros H Hj. destruct j as [|j]; simpl in Hj; [by simplify_eq|]. by eapply IH.
Qed.

Lemma idle_free c : idle c = true → rc_in_use c = false.
Proof. unfold idle. by destruct (rc_in_use c). Qed.

(** A thread without a connection takes a free one. *)
Lemma pool_take gen pool h x j c :
  pool_ok gen pool h → h x = None → pool !! j = Some c → rc_in_use c = false →
  pool_ok gen (alter (λ c, mk_connection (rc_conn c) true) j pool) (hset h x (Some (gen, Z.of_nat j))).
Proof.
  intros [H1 H2 H3 H4 H5] Hx Hj Hu.
  assert (Hfree : ∀ y p, h y = Some p → p.2 ≠ Z.of_nat j).
  { intros y p Hy Hp. destruct (H1 y p Hy) as (_ & _ & d & Hd & Hd'). rewrite Hp, Nat2Z.id in Hd. congruence. }
  split; [| | | |by rewrite length_alter].
  - intros y p [[-> [= <-]]|[Hne Hy]]%hset_Some.
    + split_and!; [done|simpl; lia|]. simpl. rewrite Nat2Z.id, list_lookup_alter_eq, Hj. by eexists.
    + destruct (H1 y p Hy) as (Hg & H0 & d & Hd & Hd'). split_and!; [done|done|].
      rewrite list_lookup_alter_ne by (specialize (Hfree _ _ Hy); lia). by exists d.
  - intros y z p q [[-> [= <-]]|[Hny Hy]]%hset_Some [[-> [= <-]]|[Hnz Hz]]%hset_Some He; simpl in *; [done| | |by eapply H2].
    + symmetry in He. by destruct (Hfree _ _ Hz).
    + by destruct (Hfree _ _ Hy).
  - intros i d Hi Hd. destruct (decide (i = j)) as [->|Hne].
    + exists x, (gen, Z.of_nat j). by rewrite hset_eq.
    + rewrite list_lookup_alter_ne in Hi by done. destruct (H3 i d Hi Hd) as (y & p & Hy & Hp).
      exists y, p. split; [|done]. rewrite hset_ne; [done|]. intros ->. congruence.
  - intros i d Hi. destruct (decide (i = j)) as [->|Hne].
    + rewrite list_lookup_alter_eq, Hj in Hi. simplify_eq/=. by eapply H4.
    + rewrite list_lookup_alter_ne in Hi by done. by eapply H4.
Qed.

(** A new connection, for a thread that has none. *)
Lemma pool_push gen pool h x b :
  pool_ok gen pool h → h x = None →
  pool_ok gen (pool ++ [mk_connection (Some b) true]) (hset h x (Some (gen, Z.of_nat (length pool)))).
Proof.
  intros [H1 H2 H3 H4 H5] Hx.
  assert (Hold : ∀ y p, h y = Some p → p.2 < Z.of_nat (length pool)).
  { intros y p Hy. destruct (H1 y p Hy) as (_ & H0 & d & Hd & _). apply lookup_lt_Some in Hd. lia. }
  split; [| | | |rewrite length_app; simpl; lia].
  - intros y p [[-> [= <-]]|[Hne Hy]]%hset_Some.
    + split_and!; [done|simpl; lia|]. simpl. rewrite Nat2Z.id, list_lookup_middle by done. by eexists.
    + destruct (H1 y p Hy) as (Hg & H0 & d & Hd & Hd'). split_and!; [done|done|]. exists d. by rewrite lookup_app_l by (by eapply lookup_lt_Some).
  - intros y z p q [[-> [= <-]]|[Hny Hy]]%hset_Some [[-> [= <-]]|[Hnz Hz]]%hset_Some He; simpl in *; [done| | |by eapply H2].
    + specialize (Hold _ _ Hz). lia.
    + specialize (Hold _ _ Hy). lia.
  - intros i d [Hi|[Hge Hi]]%lookup_app_Some Hd.
    + destruct (H3 i d Hi Hd) as (y & p & Hy & Hp). exists y, p. split; [|done]. rewrite hset_ne; [done|]. intros ->. congruence.
    + apply list_lookup_singleton_Some in Hi as [Hi _]. exists x, (gen, Z.of_nat (length pool)). rewrite hset_eq. split; [done|]. simpl. lia.
  - intros i d [Hi|[Hge Hi]]%lookup_app_Some; [by eapply H4|]. apply list_lookup_singleton_Some in Hi as [_ <-]. by eexists.
Qed.

(** A thread gives its connection back. *)
Lemma pool_give gen pool h x p c :
  pool_ok gen pool h → h x = Some p → pool !! Z.to_nat p.2 = Some c →
  pool_ok gen (<[Z.to_nat p.2 := mk_connection (rc_conn c) false]> pool) (hset h x None).
Proof.
  intros [H1 H2 H3 H4 H5] Hx Hc. destruct (H1 x p Hx) as (_ & H0 & _). split; [| | | |by rewrite length_insert].
  - intros y q [[-> [=]]|[Hne Hy]]%hset_Some. destruct (H1 y q Hy) as (Hg & Hq & d & Hd & Hd'). split_and!; [done|done|].
    rewrite list_lookup_insert_ne; [by exists d|]. intros He. apply Hne. eapply H2; [done|done|lia].
  - intros y z q r [[-> [=]]|[Hny Hy]]%hset_Some [[-> [=]]|[Hnz Hz]]%hset_Some. by eapply H2.
  - intros i d Hi Hd. destruct (decide (i = Z.to_nat p.2)) as [->|Hne].
    + rewrite list_lookup_insert_eq in Hi by (by eapply lookup_lt_Some). by simplify_eq/=.
    + rewrite list_lookup_insert_ne in Hi by done. destruct (H3 i d Hi Hd) as (y & q & Hy & Hq).
      exists y, q. split; [|done]. rewrite hset_ne; [done|]. intros ->. simplify_eq. lia.
  - intros i d Hi. destruct (decide (i = Z.to_nat p.2)) as [->|Hne].
    + rewrite list_lookup_insert_eq in Hi by (by eapply lookup_lt_Some). simplify_eq/=. by eapply H4.
    + rewrite list_lookup_insert_ne in Hi by done. by eapply H4.
Qed.

(** A command on a connection only changes whether it has an error. *)
Lemma pool_command gen pool h j c b :
  pool_ok gen pool h → pool !! j = Some c → pool_ok gen (<[j := mk_connection (Some b) (rc_in_use c)]> pool) h.
Proof.
  intros [H1 H2 H3 H4 H5] Hc.
  assert (Hl : ∀ i d, <[j := mk_connection (Some b) (rc_in_use c)]> pool !! i = Some d →
    is_Some (rc_conn d) ∧ ∃ d', pool !! i = Some d' ∧ rc_in_use d' = rc_in_use d).
  { intros i d Hi. destruct (decide (i = j)) as [->|Hne].
    - rewrite list_lookup_insert_eq in Hi by (by eapply lookup_lt_Some). simplify_eq/=. split; [by eexists|by exists c].
    - rewrite list_lookup_insert_ne in Hi by done. split; [by eapply H4|by exists d]. }
  split; [|done| | |by rewrite length_insert].
  - intros x p Hx. destruct (H1 x p Hx) as (Hg & H0 & d & Hd & Hd'). split_and!; [done|done|].
    destruct (decide (j = Z.to_nat p.2)) as [->|Hne].
    + rewrite list_lookup_insert_eq by (by eapply lookup_lt_Some). eexists. split; [done|]. simpl. congruence.
    + rewrite list_lookup_insert_ne by done. by exists d.
  - intros i d Hi Hd. destruct (Hl i d Hi) as (_ & d' & Hd' & He). eapply H3; [done|congruence].
  - intros i d Hi. by apply (Hl i d Hi).
Qed.

(** ** Counting *)

Definition cnt (l : list Z) (x : Z) : nat := count_occ Z.eq_dec l x.

Lemma cnt_app l k x : cnt (l ++ k) x = (cnt l x + cnt k x)%nat.
Proof. apply count_occ_app. Qed.
Lemma cnt_nil x : cnt [] x = 0%nat.
Proof. done. Qed.
Lemma cnt_cons y l x : cnt (y :: l) x = (cnt [y] x + cnt l x)%nat.
Proof. apply (cnt_app [y]). Qed.
Lemma cnt_perm l k : l ≡ₚ k ↔ ∀ x, cnt l x = cnt k x.
Proof. apply (Permutation_count_occ Z.eq_dec). Qed.

Lemma cnt_workers ws i pc pc' x :
  ws !! i = Some pc →
  (cnt (<[i := pc']> ws ≫= worker_cbs) x + cnt (worker_cbs pc) x = cnt (ws ≫= worker_cbs) x + cnt (worker_cbs pc') x)%nat.
Proof.
  intros Hi. assert (Hlt := lookup_lt_Some _ _ _ Hi). rewrite insert_take_drop by done.
  rewrite <- (take_drop_middle ws i pc Hi) at 3. rewrite !bind_app, !bind_cons, !cnt_app. lia.
Qed.

(** The same, with the callbacks before and after. *)
Lemma cnt_workers_eq ws i pc pc' l l' x :
  ws !! i = Some pc → worker_cbs pc = l → worker_cbs pc' = l' →
  (cnt (<[i := pc']> ws ≫= worker_cbs) x + cnt l x = cnt (ws ≫= worker_cbs) x + cnt l' x)%nat.
Proof. intros Hi <- <-. by apply cnt_workers. Qed.

Lemma queued_fresh m ctx y x : m !! ctx = None → cnt (queued (<[ctx := y]> m)) x = (cnt (queue_cbs y) x + cnt (queued m) x)%nat.
Proof.
  intros Hn. unfold queued. assert (HP := map_to_list_insert m ctx y Hn).
  rewrite (proj1 (cnt_perm _ _) (bind_Permutation _ _ _ HP)). by rewrite bind_cons, cnt_app.
Qed.

Lemma queued_delete m ctx y x : m !! ctx = Some y → cnt (queued m) x = (cnt (queue_cbs y) x + cnt (queued (delete ctx m)) x)%nat.
Proof. intros Hy. rewrite <- (insert_delete_id m ctx y Hy) at 1. apply queued_fresh, lookup_delete_eq. Qed.

Lemma queued_insert m ctx y y' x :
  m !! ctx = Some y → (cnt (queued (<[ctx := y']> m)) x + cnt (queue_cbs y) x = cnt (queued m) x + cnt (queue_cbs y') x)%nat.
Proof.
  intros Hy. rewrite <- insert_delete_eq, queued_fresh by apply lookup_delete_eq. rewrite (queued_delete m ctx y x Hy). lia.
Qed.

(** ** What a step leaves alone *)

Section frame.
Context {db : Type}.
Notation redis := (redis db).

(** Queues, threads, contexts and log are the same; buffers keep their lengths. *)
Record same (s s' : redis) : Prop := {
  sa_tasks : rs_tasks s' = rs_tasks s;
  sa_workers : rs_workers s' = rs_workers s;
  sa_completions : rs_completions s' = rs_completions s;
  sa_ctxs : rs_ctxs s' = rs_ctxs s;
  sa_log : rs_log s' = rs_log s;
  sa_issued : rs_issued s' = rs_issued s;
  sa_lost : rs_lost s' = rs_lost s;
  sa_cf : rs_cf s' = rs_cf s;
  sa_mem a b : rs_mem s !! a = Some b → ∃ b', rs_mem s' !! a = Some b' ∧ length b' = length b
}.

Lemma same_refl s : same s s.
Proof. split; eauto. Qed.
Lemma same_trans s1 s2 s3 : same s1 s2 → same s2 s3 → same s1 s3.
Proof.
  intros [] []. split; try congruence. intros a b Hb. destruct (sa_mem0 a b Hb) as (b' & Hb' & Hl).
  destruct (sa_mem1 a b' Hb') as (b'' & Hb'' & Hl'). exists b''. split; [done|congruence].
Qed.
Lemma same_db d s : same s (set_db d (ticked s)).
Proof. split; simpl; eauto. Qed.
Lemma same_pool g p s : same s (set_pool g p s).
Proof. split; simpl; eauto. Qed.
Lemma same_buffered s s' req : same s s' → buffered (rs_mem s) req → buffered (rs_mem s') req.
Proof.
  intros Hs. unfold buffered. destruct (q_op_type req); [| |done..]; intros (b & Hb & Hl);
    destruct (sa_mem _ _ Hs _ _ Hb) as (b' & Hb' & Hl'); exists b'; (split; [done|lia]).
Qed.
Lemma same_held s s' h : same s s' → held s' h = held s h.
Proof. intros []. by destruct h; simpl; rewrite ?sa_workers0, ?sa_ctxs0. Qed.

Lemma held_worker i pc (s : redis) h :
  is_Some (rs_workers s !! i) → held (set_worker i pc s) h = hset (held s) (inl i) (worker_conn pc) h.
Proof.
  intros [pc0 Hi]. unfold hset. case_decide as Hh; [subst h|]; simpl.
  - by rewrite list_lookup_insert_eq by (by eapply lookup_lt_Some).
  - destruct h as [j|ctx]; simpl; [|done]. rewrite list_lookup_insert_ne; [done|]. congruence.
Qed.

Lemma held_ctx ctx x (s : redis) h : held (put_ctx ctx x s) h = hset (held s) (inr ctx) (context_conn x) h.
Proof.
  unfold hset. case_decide as Hh; [subst h|]; simpl.
  - by rewrite lookup_insert_eq.
  - destruct h as [j|c]; simpl; [done|]. rewrite lookup_insert_ne; [done|]. congruence.
Qed.

(** ** Operations on connections *)

Lemma deref_conn_held (s : redis) h p :
  pool_ok (rs_gen s) (rs_pool s) (held s) → held s h = Some p →
  ∃ c, rs_pool s !! Z.to_nat p.2 = Some c ∧ rc_in_use c = true ∧ is_Some (rc_conn c) ∧ 0 <= p.2 ∧ deref_conn p s = Ok c.
Proof.
  intros Hp Hh. destruct (po_held _ _ _ Hp _ _ Hh) as (Hg & H0 & c & Hc & Hu). exists c. split_and!; [done|done| |done|].
  - by eapply po_conn.
  - unfold deref_conn. rewrite (proj2 (Z.eqb_eq _ _) Hg). apply rd_Ok. by split.
Qed.

Lemma set_conn_Ok (s : redis) p c c' :
  deref_conn p s = Ok c → 0 <= p.2 → rs_pool s !! Z.to_nat p.2 = Some c →
  set_conn p c' s = Ok (set_pool (rs_gen s) (<[Z.to_nat p.2 := c']> (rs_pool s)) s).
Proof.
  intros Hd H0 Hc. unfold set_conn. rewrite Hd, Ok_bind, wr_Ok, Ok_bind; [done|].
  apply lookup_lt_Some in Hc. lia.
Qed.

Lemma release_held (s : redis) h p :
  pool_ok (rs_gen s) (rs_pool s) (held s) → held s h = Some p →
  ∃ s', redis_connection_pool_release p s = Ok s' ∧ same s s' ∧ pool_ok (rs_gen s') (rs_pool s') (hset (held s) h None).
Proof.
  intros Hp Hh. destruct (deref_conn_held s h p Hp Hh) as (c & Hc & _ & _ & H0 & Hd).
  unfold redis_connection_pool_release. rewrite Hd, Ok_bind, (set_conn_Ok s p c) by done.
  eexists. split; [done|]. split; [apply same_pool|]. by apply pool_give.
Qed.

Section exec.
Context (exec : Z → redis_command → db → option redisReply * db) (connects alloc_ok moves : Z → bool).

Lemma command_held (s : redis) h p cmd :
  pool_ok (rs_gen s) (rs_pool s) (held s) → held s h = Some p →
  ∃ reply s', redisCommand exec p cmd s = Ok (reply, s') ∧ same s s' ∧ rs_mem s' = rs_mem s ∧ pool_ok (rs_gen s') (rs_pool s') (held s).
Proof.
  intros Hp Hh. destruct (deref_conn_held s h p Hp Hh) as (c & Hc & Hu & [e He] & H0 & Hd).
  unfold redisCommand. rewrite Hd, Ok_bind, He. destruct e; [by eexists _, _; split_and!; [..|apply same_refl| |]|].
  destruct (exec (rs_tick s) cmd (rs_db s)) as [reply d]. rewrite (set_conn_Ok _ p c) by done.
  rewrite Ok_bind. eexists _, _. split_and!; [done| |done|].
  - eapply same_trans; [apply (same_db d)|apply same_pool].
  - by apply (pool_command _ (rs_pool s)).
Qed.

(** A reply whose value fits is copied, to the length it has. *)
Lemma process_reply_Ok (s : redis) req reply :
  buffered (rs_mem s) req →
  ∃ st len s', process_reply req reply s = Ok (st, len, s') ∧ same s s' ∧ rs_pool s' = rs_pool s ∧ rs_gen s' = rs_gen s.
Proof.
  intros Hb. destruct reply as [r|]; [|eexists _, _, s; split_and!; [done|apply same_refl|done|done]].
  unfold buffered in Hb. unfold process_reply.
  destruct (q_op_type req), r; try (eexists _, _, s; split_and!; [reflexivity|apply same_refl|done|done]).
  destruct Hb as (b & Hb & Hl). destruct (Z.ltb_spec (q_valuelen req) (Z.of_nat (length str)));
    [eexists _, _, s; split_and!; [reflexivity|apply same_refl|done|done]|].
  unfold buffer. rewrite Hb, Ok_bind. destruct (Nat.ltb_spec (length b) (length str)); [lia|].
  eexists _, _, _. split_and!; [done| |done|done]. split; simpl; [done..|]. intros a b' Ha.
  destruct (decide (a = q_val req)) as [->|Hne].
  - rewrite lookup_insert_eq. eexists. split; [done|]. rewrite length_app, length_drop. simplify_eq. lia.
  - rewrite lookup_insert_ne by done. eauto.
Qed.

Lemma command_of_Ok (s : redis) req : buffered (rs_mem s) req → ∃ cmd, command_of req s = Ok cmd.
Proof.
  unfold buffered, command_of, buffer. destruct (q_op_type req); [eauto| |eauto|eauto]. intros (b & -> & Hl).
  rewrite Ok_bind. destruct (Z.ltb_spec (Z.of_nat (length b)) (q_valuelen req)); [lia|]. eauto.
Qed.

Lemma execute_held (s : redis) h p req :
  pool_ok (rs_gen s) (rs_pool s) (held s) → held s h = Some p → buffered (rs_mem s) req →
  ∃ st len s', execute exec req p s = Ok (st, len, s') ∧ same s s' ∧ pool_ok (rs_gen s') (rs_pool s') (held s).
Proof.
  intros Hp Hh Hb. unfold execute. destruct (command_of_Ok s req Hb) as [cmd ->]. rewrite Ok_bind.
  destruct (command_held s h p cmd Hp Hh) as (reply & s1 & -> & Hs1 & Hm & Hp1). rewrite Ok_bind.
  destruct (process_reply_Ok s1 req reply) as (st & len & s2 & -> & Hs2 & Hp2 & Hg2); [by rewrite Hm|].
  exists st, len, s2. split_and!; [done|by eapply same_trans|]. by rewrite Hp2, Hg2.
Qed.

(** Taking a connection: what a thread that asked for one has then. *)
Definition got (a : pool_answer) : option conn_ptr := match a with PoolGot p => Some p | _ => None end.

Lemma retry_Ok (s : redis) h :
  pool_ok (rs_gen s) (rs_pool s) (held s) → held s h = None →
  same s (pool_retry s).2 ∧ pool_ok (rs_gen (pool_retry s).2) (rs_pool (pool_retry s).2) (hset (held s) h (got (pool_retry s).1)).
Proof.
  intros Hp Hh. unfold pool_retry. destruct (find_idle 0 (rs_pool s)) as [i|] eqn:Hi; simpl.
  - apply find_idle_Some in Hi as (j & c & -> & Hj & Hc). split; [apply same_pool|]. rewrite Z.add_0_l, Nat2Z.id.
    eapply pool_take; [done|done|done|by apply idle_free].
  - split; [apply same_refl|]. eapply pool_ok_ext; [done|]. intros y. unfold hset. by case_decide; [subst|].
Qed.

Lemma init_Some cf t (d : db) c d' : redis_connection_init exec connects cf t d = (Some c, d') → c = mk_connection (Some false) false.
Proof.
  unfold redis_connection_init. destruct (connects t); [|done]. simpl. by destruct (greet exec _ _ t d) as [[] ?]; intros; simplify_eq.
Qed.

Lemma get_Ok (s : redis) h :
  pool_ok (rs_gen s) (rs_pool s) (held s) → held s h = None → in_place moves s →
  let '(a, s') := redis_connection_pool_get exec connects alloc_ok moves s in
  same s s' ∧ pool_ok (rs_gen s') (rs_pool s') (hset (held s) h (got a)).
Proof.
  intros Hp Hh Hm. destruct (retry_Ok s h Hp Hh) as [Hs Hr]. unfold redis_connection_pool_get, pool_retry in *.
  destruct (find_idle 0 (rs_pool s)) as [i|] eqn:Hi; [done|]. destruct (_ <? _); [|done]. clear Hs.
  unfold grow_pool. destruct (alloc_ok (rs_tick s)); simpl; [|split; [by apply (same_db (rs_db s) s)|done]]. rewrite (Hm Hi).
  destruct (redis_connection_init exec connects (rs_cf s) (rs_tick s) (rs_db s)) as [[c|] d] eqn:Hc; simpl.
  - apply init_Some in Hc as ->. simpl. split; [|by apply pool_push].
    eapply same_trans; [apply (same_db d)|apply same_pool].
  - split; [|done]. eapply same_trans; [apply (same_db d)|apply same_pool].
Qed.
End exec.
End frame.

(** ** Every step keeps the invariant *)

Section steps.
Context {db : Type}.
Notation redis := (redis db).
Implicit Types s : redis.

Lemma where_cnt s :
  rs_issued s ≡ₚ pending s ++ called s ++ rs_lost s ↔
  ∀ x, cnt (rs_issued s) x =
    (cnt (q_cb <$> rs_tasks s) x + cnt (rs_workers s ≫= worker_cbs) x + cnt (k_cb <$> rs_completions s) x +
     cnt (queued (rs_ctxs s)) x + cnt (called s) x + cnt (rs_lost s) x)%nat.
Proof. rewrite cnt_perm. unfold pending. split; intros H x; specialize (H x); rewrite !cnt_app in *; lia. Qed.

Lemma worker_lookup i pc (ws : list worker_pc) j pc' :
  <[i := pc]> ws !! j = Some pc' → (i = j ∧ pc' = pc) ∨ ws !! j = Some pc'.
Proof. rewrite list_lookup_insert_Some. naive_solver. Qed.

Lemma in_use_worker s s' i pc req :
  rs_tasks s' ⊆ rs_tasks s → rs_workers s' = <[i := pc]> (rs_workers s) → in_use s' req → in_use s req ∨ worker_uses pc = Some req.
Proof.
  intros Ht Hw [Hin|(j & pc' & Hj & Hu)]; [left; left; by apply Ht|].
  rewrite Hw in Hj. apply worker_lookup in Hj as [[-> ->]|Hj]; [by right|left; right; eauto].
Qed.

Lemma wanted_worker s s' i pc ctx :
  rs_tasks s' ⊆ rs_tasks s → rs_workers s' = <[i := pc]> (rs_workers s) → wanted s' ctx → wanted s ctx ∨ worker_ctx pc = Some ctx.
Proof.
  intros Ht Hw [(req & Hin & Hc)|(j & pc' & Hj & Hu)]; [left; left; exists req; split; [by apply Ht|done]|].
  rewrite Hw in Hj. apply worker_lookup in Hj as [[-> ->]|Hj]; [by right|left; right; eauto].
Qed.

Lemma looked_for_worker s s' i pc :
  rs_ctxs s' = rs_ctxs s → rs_workers s' = <[i := pc]> (rs_workers s) →
  (∀ req, rs_workers s !! i ≠ Some (WNotify req)) → looked_for s → looked_for s'.
Proof.
  intros Hc Hw Hn [H|(j & req & Hj)]; [left; by rewrite Hc|]. right. exists j, req. rewrite Hw.
  rewrite list_lookup_insert_ne; [done|]. intros ->. by eapply Hn.
Qed.

Lemma looked_for_ctx s s' ctx x y :
  rs_workers s' = rs_workers s → rs_ctxs s !! ctx = Some x → rs_ctxs s' = <[ctx := y]> (rs_ctxs s) →
  (0 < x_eventfd x ∨ x_pc x = CRead → 0 < x_eventfd y ∨ x_pc y = CRead) → looked_for s → looked_for s'.
Proof.
  intros Hw Hx Hc Hy [(c & z & Hz & Hp)|H]; [|right; by rewrite Hw]. left. rewrite Hc.
  destruct (decide (c = ctx)) as [->|Hne].
  - exists ctx, y. rewrite lookup_insert_eq. split; [done|]. simplify_eq. by apply Hy.
  - exists c, z. by rewrite lookup_insert_ne.
Qed.

Lemma uses_req pc req : worker_uses pc = Some req → worker_req pc = Some req.
Proof. by destruct pc. Qed.
Lemma req_ctx pc req : worker_req pc = Some req → worker_ctx pc = Some (q_ctx req).
Proof. by destruct pc; simpl; intros; simplify_eq. Qed.
Lemma req_cbs pc req : worker_req pc = Some req → worker_cbs pc = [q_cb req].
Proof. unfold worker_cbs. by intros ->. Qed.

(** A worker goes on with its request. *)
Lemma worker_goes_on s s0 i pc pc' req :
  redis_ok s → same s s0 → rs_workers s !! i = Some pc → worker_req pc = Some req → worker_req pc' = Some req →
  (worker_uses pc' = Some req → worker_uses pc = Some req) →
  pool_ok (rs_gen s0) (rs_pool s0) (hset (held s) (inl i) (worker_conn pc')) →
  redis_ok (set_worker i pc' s0).
Proof.
  intros [Hpool Hctx Hbuf Hwhere Honce Hlook Hq Hlen] Hs Hi Hreq Hreq' Huse Hp. destruct (Hs) as [Ht Hw Hcm Hcx Hlg His Hlo Hcf Hm].
  split; simpl; rewrite ?Hcm, ?Hcx; [| | | |by rewrite His| |done|by rewrite length_insert, Hw].
  - eapply pool_ok_ext; [exact Hp|]. intros y. rewrite held_worker by (rewrite Hw; by eexists). unfold hset. by rewrite (same_held s s0).
  - intros ctx Hwant. destruct (wanted_worker s (set_worker i pc' s0) i pc' ctx) as [H|H];
      [by simpl; rewrite Ht|by simpl; rewrite Hw|done|by apply Hctx|].
    rewrite (req_ctx _ _ Hreq') in H. simplify_eq. apply Hctx. right. exists i, pc. split; [done|by apply req_ctx].
  - intros r Hr. apply (same_buffered s); [done|]. apply Hbuf.
    destruct (in_use_worker s (set_worker i pc' s0) i pc' r) as [H|H]; [by simpl; rewrite Ht|by simpl; rewrite Hw|done|done|].
    right. exists i, pc. split; [done|]. pose proof (uses_req _ _ H). simplify_eq. auto.
  - apply (proj2 (where_cnt (set_worker i pc' s0))). intros x. simpl. rewrite Ht, Hw, Hcm, Hcx, His, Hlo. unfold called. simpl. rewrite Hlg.
    rewrite (proj1 (where_cnt s) Hwhere). pose proof (cnt_workers _ i pc pc' x Hi) as E.
    rewrite (req_cbs _ _ Hreq), (req_cbs _ _ Hreq') in E. unfold called. lia.
  - intros Hne. eapply (looked_for_worker s); [simpl; congruence|simpl; by rewrite Hw| |by apply Hlook].
    intros r Hr. simplify_eq/=.
Qed.

(** The thread of a context goes on. *)
Lemma context_goes_on s s0 ctx x pc :
  redis_ok s → same s s0 → rs_ctxs s !! ctx = Some x → x_pc x ≠ CRead → x_queue x = [] →
  pool_ok (rs_gen s0) (rs_pool s0) (hset (held s) (inr ctx) (context_conn (mk_context [] 0 pc))) →
  redis_ok (put_ctx ctx (mk_context (x_queue x) (x_eventfd x) pc) s0).
Proof.
  intros [Hpool Hctx Hbuf Hwhere Honce Hlook Hq Hlen] Hs Hx Hpc He Hp. destruct (Hs) as [Ht Hw Hcm Hcx Hlg His Hlo Hcf Hm].
  split; simpl; rewrite ?Hcm, ?Hcx; [| | | |by rewrite His| | |by rewrite Hw].
  - eapply pool_ok_ext; [exact Hp|]. intros y. rewrite held_ctx. unfold hset. by rewrite (same_held s s0).
  - intros c Hwant. apply lookup_insert_is_Some'. right. apply Hctx. unfold wanted in *. simpl in Hwant. by rewrite Ht, Hw in Hwant.
  - intros r Hr. apply (same_buffered s); [done|]. apply Hbuf. unfold in_use in *. simpl in Hr. by rewrite Ht, Hw in Hr.
  - apply (proj2 (where_cnt (put_ctx ctx (mk_context (x_queue x) (x_eventfd x) pc) s0))). intros z. simpl. rewrite Ht, Hw, Hcm, Hcx, His, Hlo. unfold called. simpl. rewrite Hlg.
    rewrite (proj1 (where_cnt s) Hwhere). pose proof (queued_insert _ ctx x (mk_context (x_queue x) (x_eventfd x) pc) z Hx) as E.
    unfold queue_cbs in E. simpl in E. unfold called. lia.
  - intros Hne. eapply (looked_for_ctx s); [simpl; congruence|done|simpl; by rewrite Hcx| |by apply Hlook]. simpl. naive_solver.
  - intros c y. destruct (decide (c = ctx)) as [->|Hne].
    + rewrite lookup_insert_eq. intros [= <-]. simpl. rewrite He. split; [by eapply Hq|done].
    + rewrite lookup_insert_ne by done. apply Hq.
Qed.
End steps.
