(* ===== verification/RedisSystem.v ===== *)
(** * Correctness of the Redis driver

    Whatever order the threads take their steps in, no step faults, every request
    is called back once, and the threads come to rest with every request called
    back; what a command of a worker answers is what the contract of a tier says,
    when the server replies. *)

From S2P Require Import Prelude CString ServerModel Backend BackendProps Redis RedisProps.

Section steps.
Context {db : Type} (exec : Z → redis_command → db → option redisReply * db) (connects alloc_ok moves : Z → bool).
Notation redis := (redis db).
Notation step := (step exec connects alloc_ok moves).
Notation allowed := (allowed moves).
Notation reachable := (reachable exec connects alloc_ok moves).
Implicit Types s : redis.

Lemma hset_same h x y : hset h x (h x) y = h y.
Proof. unfold hset. by case_decide; [subst|]. Qed.

(** A worker that neither has nor takes a connection. *)
Lemma pool_worker s i pc pc' :
  redis_ok s → rs_workers s !! i = Some pc → worker_conn pc' = worker_conn pc →
  pool_ok (rs_gen s) (rs_pool s) (hset (held s) (inl i) (worker_conn pc')).
Proof.
  intros Hok Hi He. eapply pool_ok_ext; [apply (ro_pool s Hok)|]. intros y.
  replace (worker_conn pc') with (held s (inl i)); [apply hset_same|]. simpl. by rewrite Hi, He.
Qed.

(** *** Workers *)

Lemma worker_takes s i req tasks :
  redis_ok s → rs_workers s !! i = Some WIdle → rs_tasks s = req :: tasks → redis_ok (set_worker i (WTask req) (set_tasks tasks s)).
Proof.
  intros Hok Hi Ht. pose proof (pool_worker s i _ (WTask req) Hok Hi eq_refl) as Hp. destruct Hok as [Hpool Hctx Hbuf Hwhere Honce Hlook Hq Hlen].
  set (s' := set_worker i (WTask req) (set_tasks tasks s)).
  assert (Hsub : rs_tasks s' ⊆ rs_tasks s) by (simpl; rewrite Ht; set_solver).
  split; [| | | |done| |done|by simpl; rewrite length_insert].
  - eapply pool_ok_ext; [exact Hp|]. intros y. by apply (held_worker i (WTask req) (set_tasks tasks s)).
  - intros ctx Hw. apply Hctx. destruct (wanted_worker s s' i (WTask req) ctx) as [H|H]; [done|done|done|done|].
    left. exists req. rewrite Ht. simpl in H. split; [left|congruence].
  - intros r Hr. apply Hbuf. destruct (in_use_worker s s' i (WTask req) r) as [H|H]; [done|done|done|done|].
    left. rewrite Ht. simpl in H. simplify_eq. left.
  - apply where_cnt. intros x. rewrite (proj1 (where_cnt s) Hwhere). simpl. pose proof (cnt_workers_eq _ i _ (WTask req) [] [q_cb req] x Hi eq_refl eq_refl) as E.
    unfold called. simpl. rewrite Ht, fmap_cons, cnt_cons. rewrite cnt_nil in E. lia.
  - intros Hne. eapply (looked_for_worker s s'); [done|done| |by apply Hlook]. intros r Hr. simplify_eq.
Qed.

Lemma worker_completes s i req st len :
  redis_ok s → rs_workers s !! i = Some (WReleased req st len) → redis_ok (complete alloc_ok i req st len s).
Proof.
  intros Hok Hi. pose proof (pool_worker s i _ WIdle Hok Hi eq_refl) as Hp. destruct Hok as [Hpool Hctx Hbuf Hwhere Honce Hlook Hq Hlen].
  assert (Hc : is_Some (rs_ctxs s !! q_ctx req)) by (apply Hctx; right; by eexists i, _).
  assert (Hisi : is_Some (rs_workers s !! i)) by by eexists. assert (Hlt := lookup_lt_Some _ _ _ Hi).
  assert (Hcnt : ∀ pc' x, worker_cbs pc' = [] →
    cnt (rs_workers s ≫= worker_cbs) x = (cnt (<[i := pc']> (rs_workers s) ≫= worker_cbs) x + cnt [q_cb req] x)%nat).
  { intros pc' x He. pose proof (cnt_workers_eq _ i _ pc' [q_cb req] [] x Hi eq_refl He) as E. rewrite cnt_nil in E. lia. }
  unfold complete. destruct (alloc_ok (rs_tick s)).
  - set (s' := set_worker i (WNotify req) _). split; [| | | |done| |done|by simpl; rewrite length_insert].
    + eapply pool_ok_ext; [exact Hp|]. intros y. by apply (held_worker i (WNotify req) (set_completions _ (ticked s))).
    + intros ctx Hw. destruct (wanted_worker s s' i (WNotify req) ctx) as [H|H]; [done|done|done|by apply Hctx|]. simpl in H. by simplify_eq.
    + intros r Hr. destruct (in_use_worker s s' i (WNotify req) r) as [H|H]; [done|done|done|by apply Hbuf|done].
    + apply where_cnt. intros x. rewrite (proj1 (where_cnt s) Hwhere). simpl. rewrite fmap_app, cnt_app.
      rewrite (Hcnt (WNotify req) x eq_refl). unfold called. simpl. lia.
    + intros _. right. exists i, req. simpl. by rewrite list_lookup_insert_eq.
  - set (s' := set_worker i WIdle _). split; [| | | |done| |done|by simpl; rewrite length_insert].
    + eapply pool_ok_ext; [exact Hp|]. intros y. by apply (held_worker i WIdle (lose (q_cb req) (ticked s))).
    + intros ctx Hw. destruct (wanted_worker s s' i WIdle ctx) as [H|H]; [done|done|done|by apply Hctx|done].
    + intros r Hr. destruct (in_use_worker s s' i WIdle r) as [H|H]; [done|done|done|by apply Hbuf|done].
    + apply where_cnt. intros x. rewrite (proj1 (where_cnt s) Hwhere). simpl. rewrite cnt_app.
      rewrite (Hcnt WIdle x eq_refl). unfold called. simpl. lia.
    + intros Hne. eapply (looked_for_worker s s'); [done|done| |by apply Hlook]. intros r Hr. simplify_eq.
Qed.

(** The context that is notified will look at the completions. *)
Lemma worker_notifies s i req x :
  redis_ok s → rs_workers s !! i = Some (WNotify req) → rs_ctxs s !! q_ctx req = Some x →
  redis_ok (set_worker i WIdle (set_ctxs (<[q_ctx req := mk_context (x_queue x) (x_eventfd x + 1) (x_pc x)]> (rs_ctxs s)) s)).
Proof.
  intros Hok Hi Hx. pose proof (pool_worker s i _ WIdle Hok Hi eq_refl) as Hp. destruct Hok as [Hpool Hctx Hbuf Hwhere Honce Hlook Hq Hlen].
  set (y := mk_context _ _ _). set (s' := set_worker i WIdle _). destruct (Hq _ _ Hx) as [H0 HqL]. split; [| | | |done| | |by simpl; rewrite length_insert].
  - eapply pool_ok_ext; [exact Hp|]. intros z. unfold s'. rewrite held_worker by (by eexists). unfold hset. case_decide; [done|].
    rewrite (held_ctx (q_ctx req) y s). unfold hset. case_decide; [subst z|done]. simpl. by rewrite Hx.
  - intros ctx Hw. apply lookup_insert_is_Some'. right. apply Hctx.
    destruct (wanted_worker s s' i WIdle ctx) as [H|H]; done.
  - intros r Hr. destruct (in_use_worker s s' i WIdle r) as [H|H]; [done|done|done|by apply Hbuf|done].
  - apply where_cnt. intros z. rewrite (proj1 (where_cnt s) Hwhere). simpl. pose proof (cnt_workers_eq _ i _ WIdle [] [] z Hi eq_refl eq_refl) as E.
    pose proof (queued_insert _ _ x y z Hx) as E'. unfold called. unfold queue_cbs in E'. simpl in *. lia.
  - intros _. left. exists (q_ctx req), y. simpl. rewrite lookup_insert_eq. split; [done|]. left. lia.
  - intros c z Hz. simpl in Hz. destruct (decide (c = q_ctx req)) as [->|Hne].
    + rewrite lookup_insert_eq in Hz. simplify_eq. simpl. split; [lia|done].
    + rewrite lookup_insert_ne in Hz by done. by eapply Hq.
Qed.

Lemma worker_answered s s0 i pc req a :
  redis_ok s → same s s0 → rs_workers s !! i = Some pc → worker_uses pc = Some req →
  pool_ok (rs_gen s0) (rs_pool s0) (hset (held s) (inl i) (got a)) → redis_ok (pool_answered i req a s0).
Proof. intros Hok Hs Hi Hu Hp. destruct a; (eapply worker_goes_on; [done|done|done|by apply uses_req|done|done|exact Hp]). Qed.

Lemma worker_step s i timeout :
  redis_ok s → allowed (LWorker i timeout) s →
  ∃ s', redis_worker_func exec connects alloc_ok moves i timeout s = Ok s' ∧ redis_ok s'.
Proof.
  intros Hok Ha. unfold redis_worker_func. destruct (rs_workers s !! i) as [pc|] eqn:Hi; [|eauto].
  assert (Hheld : held s (inl i) = worker_conn pc) by (simpl; by rewrite Hi). assert (Hp := ro_pool s Hok).
  destruct pc as [|req|req|req p|req p st len|req st len|req].
  - destruct (rs_tasks s) as [|req tasks] eqn:Ht; [eauto|]. eexists. split; [done|]. by apply worker_takes.
  - pose proof (get_Ok exec connects alloc_ok moves s (inl i) Hp Hheld (Ha req Hi)) as H. destruct (redis_connection_pool_get _ _ _ _ s) as [a s0].
    destruct H as [Hs Hp0]. eexists. split; [done|]. by eapply worker_answered.
  - destruct timeout; [eexists; split; [done|]; eapply worker_goes_on; [done|apply same_refl|done|done|done|done|by eapply pool_worker]|].
    pose proof (retry_Ok s (inl i) Hp Hheld) as H. destruct (pool_retry s) as [a s0].
    destruct H as [Hs Hp0]. eexists. split; [done|]. by eapply worker_answered.
  - destruct (execute_held exec s (inl i) p req Hp Hheld) as (st & len & s0 & -> & Hs & Hp0); [apply (ro_buf s Hok); right; by eexists i, _|].
    rewrite Ok_bind. eexists. split; [done|]. eapply worker_goes_on; [done|done|done|done|done|done|].
    eapply pool_ok_ext; [exact Hp0|]. intros y. simpl worker_conn in *. rewrite <- Hheld. apply hset_same.
  - destruct (release_held s (inl i) p Hp Hheld) as (s0 & -> & Hs & Hp0). rewrite Ok_bind. eexists. split; [done|].
    by eapply worker_goes_on.
  - eexists. split; [done|]. by apply worker_completes.
  - destruct (ro_ctx s Hok (q_ctx req)) as [x Hx]; [right; by eexists i, _|]. rewrite Hx. eexists. split; [done|]. by apply worker_notifies.
Qed.

(** *** Contexts *)

(** What a step of a context changes of the rest. *)
Lemma context_step s s' ctx x y :
  redis_ok s → rs_ctxs s !! ctx = Some x → rs_ctxs s' = <[ctx := y]> (rs_ctxs s) → context_conn y = context_conn x →
  rs_gen s' = rs_gen s → rs_pool s' = rs_pool s → rs_tasks s' = rs_tasks s → rs_workers s' = rs_workers s →
  rs_mem s' = rs_mem s → rs_issued s' = rs_issued s → rs_lost s' = rs_lost s →
  (∀ z, cnt (queue_cbs y) z + cnt (k_cb <$> rs_completions s') z + cnt (called s') z =
        cnt (queue_cbs x) z + cnt (k_cb <$> rs_completions s) z + cnt (called s) z)%nat →
  (rs_completions s' ≠ [] → rs_completions s ≠ [] ∧ (0 < x_eventfd x ∨ x_pc x = CRead → 0 < x_eventfd y ∨ x_pc y = CRead)) →
  0 <= x_eventfd y → (x_queue y ≠ [] → x_pc y = CLoop) →
  redis_ok s'.
Proof.
  intros [Hpool Hctx Hbuf Hwhere Honce Hlook Hq Hlen] Hx Hc Hconn Hg Hp Ht Hw Hm His Hlo Hcnt Hl H0 HL. split; [| | | | | | |by rewrite Hw].
  - rewrite Hg, Hp. eapply pool_ok_ext; [exact Hpool|]. intros z. destruct z as [j|c]; simpl; [by rewrite Hw|]. rewrite Hc.
    destruct (decide (c = ctx)) as [->|Hne]; [by rewrite lookup_insert_eq, Hx|by rewrite lookup_insert_ne].
  - intros c Hwant. rewrite Hc. apply lookup_insert_is_Some'. right. apply Hctx. unfold wanted in *. by rewrite Ht, Hw in Hwant.
  - intros r Hr. rewrite Hm. apply Hbuf. unfold in_use in *. by rewrite Ht, Hw in Hr.
  - apply where_cnt. intros z. rewrite His, Ht, Hw, Hlo, Hc, (proj1 (where_cnt s) Hwhere).
    pose proof (queued_insert _ ctx x y z Hx) as E. specialize (Hcnt z). lia.
  - by rewrite His.
  - intros Hne. destruct (Hl Hne) as [Hne' Himp]. eapply (looked_for_ctx s); [done|done|done|done|by apply Hlook].
  - intros c z. rewrite Hc. destruct (decide (c = ctx)) as [->|Hne].
    + rewrite lookup_insert_eq. by intros [= <-].
    + rewrite lookup_insert_ne by done. apply Hq.
Qed.

Lemma get_ctx_Ok ctx s x : rs_ctxs s !! ctx = Some x → get_ctx ctx s = Ok x.
Proof. unfold get_ctx. by intros ->. Qed.

Lemma event_step s ctx : redis_ok s → allowed (LEvent ctx) s → ∃ s', step (LEvent ctx) s = Ok s' ∧ redis_ok s'.
Proof.
  intros Hok (x & Hx & Hpc & He). simpl. unfold handle_redis_completion_event. rewrite (get_ctx_Ok _ _ _ Hx), Ok_bind.
  eexists. split; [done|]. eapply (context_step s); [done|exact Hx|reflexivity|by unfold context_conn; rewrite Hpc|done..| | | |].
  - intros z. by unfold called.
  - simpl. auto.
  - simpl. lia.
  - simpl. intros Hne. by rewrite (proj2 (ro_queue s Hok _ _ Hx) Hne) in Hpc.
Qed.

Lemma move_step s ctx : redis_ok s → allowed (LMove ctx) s → ∃ s', step (LMove ctx) s = Ok s' ∧ redis_ok s'.
Proof.
  intros Hok Ha. assert (∃ x, rs_ctxs s !! ctx = Some x ∧ (x_pc x = CRead ∨ x_pc x = CIdle)) as (x & Hx & Hpc) by (destruct Ha as [(x & ? & ?)|(x & ? & ?)]; eauto).
  simpl. unfold list_move_all. rewrite (get_ctx_Ok _ _ _ Hx), Ok_bind.
  eexists. split; [done|]. eapply (context_step s); [done|exact Hx|reflexivity|by unfold context_conn; destruct Hpc as [-> | ->]|done..| | | |].
  - intros z. unfold queue_cbs, called. simpl. rewrite fmap_app, cnt_app, ?fmap_nil, ?cnt_nil. lia.
  - done.
  - simpl. by eapply (ro_queue s Hok).
  - done.
Qed.

Lemma call_step s ctx : redis_ok s → allowed (LCall ctx) s → ∃ s', step (LCall ctx) s = Ok s' ∧ redis_ok s'.
Proof.
  intros Hok (x & Hx & Hpc). destruct (ro_queue s Hok _ _ Hx) as [H0 _]. simpl. unfold redis_process_completions. rewrite (get_ctx_Ok _ _ _ Hx), Ok_bind.
  destruct (x_queue x) as [|comp queue] eqn:Hq; eexists; (split; [done|]);
    (eapply (context_step s); [done|exact Hx|reflexivity|by unfold context_conn; rewrite Hpc|done..| | |done|done]).
  - intros z. unfold queue_cbs, called. by rewrite Hq.
  - simpl. intros Hne. split; [done|]. intros [?|?]; [by left|congruence].
  - intros z. unfold queue_cbs, called. simpl. rewrite Hq, fmap_cons, fmap_app, cnt_cons, cnt_app. simpl. lia.
  - simpl. intros Hne. split; [done|]. intros [?|?]; [by left|congruence].
Qed.

Lemma clearup_goes_on s s0 ctx x a :
  redis_ok s → same s s0 → rs_ctxs s !! ctx = Some x → x_pc x = CIdle ∨ x_pc x = CClearWait →
  pool_ok (rs_gen s0) (rs_pool s0) (hset (held s) (inr ctx) (got a)) → redis_ok (clearup_answered ctx x a s0).2.
Proof.
  intros Hok Hs Hx Hpc Hp. assert (Hq : x_queue x = []).
  { destruct (x_queue x) eqn:Hq; [done|]. assert (x_pc x = CLoop) by (eapply (ro_queue s Hok); [done|by rewrite Hq]). destruct Hpc; congruence. }
  destruct a; (apply (context_goes_on s); [done|done|done|by destruct Hpc as [-> | ->]|done|exact Hp]).
Qed.

Lemma clear_step s ctx : redis_ok s → allowed (LClear ctx) s → ∃ s', step (LClear ctx) s = Ok s' ∧ redis_ok s'.
Proof.
  intros Hok [(x & Hx & Hpc) Hm]. simpl. unfold redis_clearup. rewrite Hx.
  assert (Hheld : held s (inr ctx) = None) by (simpl; rewrite Hx; unfold context_conn; simpl; by rewrite Hpc).
  pose proof (get_Ok exec connects alloc_ok moves s _ (ro_pool s Hok) Hheld Hm) as H. destruct (redis_connection_pool_get _ _ _ _ s) as [a s0].
  destruct H as [Hs Hp]. eexists. split; [done|]. exact (clearup_goes_on s s0 ctx x a Hok Hs Hx (or_introl Hpc) Hp).
Qed.

Lemma clear_wait_step s ctx timeout : redis_ok s → allowed (LClearWait ctx timeout) s → ∃ s', step (LClearWait ctx timeout) s = Ok s' ∧ redis_ok s'.
Proof.
  intros Hok (x & Hx & Hpc). simpl. unfold clearup_wait. rewrite (get_ctx_Ok _ _ _ Hx), Ok_bind.
  assert (Hheld : held s (inr ctx) = None) by (simpl; rewrite Hx; unfold context_conn; simpl; by rewrite Hpc).
  pose proof (retry_Ok s _ (ro_pool s Hok) Hheld) as H. destruct timeout.
  - pose proof (clearup_goes_on s s ctx x PoolFailed Hok (same_refl s) Hx (or_intror Hpc)) as Hc. eexists. split; [done|].
    apply Hc. eapply pool_ok_ext; [apply (ro_pool s Hok)|]. intros y. simpl got. rewrite <- Hheld. apply hset_same.
  - destruct (pool_retry s) as [a s0]. destruct H as [Hs Hp].
    pose proof (clearup_goes_on s s0 ctx x a Hok Hs Hx (or_intror Hpc) Hp) as Hc.
    destruct (clearup_answered ctx x a s0) as [r s1]. by exists s1.
Qed.

Lemma flush_step s ctx : redis_ok s → allowed (LFlush ctx) s → ∃ s', step (LFlush ctx) s = Ok s' ∧ redis_ok s'.
Proof.
  intros Hok (conn & x & Hx & Hpc). simpl. unfold clearup_flush. rewrite (get_ctx_Ok _ _ _ Hx), Ok_bind, Hpc.
  assert (Hheld : held s (inr ctx) = Some conn) by (simpl; rewrite Hx; unfold context_conn; simpl; by rewrite Hpc).
  destruct (command_held exec s _ conn CmdFlushdb (ro_pool s Hok) Hheld) as (reply & s1 & -> & Hs1 & _ & Hp1). rewrite Ok_bind.
  destruct (release_held s1 (inr ctx) conn) as (s2 & -> & Hs2 & Hp2).
  { eapply pool_ok_ext; [exact Hp1|]. intros y. by apply same_held. }
  { by rewrite (same_held s s1). }
  rewrite !Ok_bind. eexists. split; [done|]. apply (context_goes_on s); [done|by eapply same_trans|done|by rewrite Hpc| |].
  - destruct (x_queue x) eqn:Hq; [done|]. assert (x_pc x = CLoop) by (eapply (ro_queue s Hok); [done|by rewrite Hq]). congruence.
  - eapply pool_ok_ext; [exact Hp2|]. intros y. unfold hset. by rewrite (same_held s s1).
Qed.

(** *** Requests, devices and buffers *)

(** A callback is called at once. *)
Lemma call_at_once s s' cb :
  redis_ok s → cb ∉ rs_issued s → same s s' → rs_gen s' = rs_gen s → rs_pool s' = rs_pool s →
  ∀ ctx st, redis_ok (log_call ctx cb st 0 (issue cb s')).
Proof.
  intros [Hpool Hctx Hbuf Hwhere Honce Hlook Hq Hlen] Hcb Hs' Hg Hp ctx st.
  destruct (Hs') as [Ht Hw Hcm Hcx Hlg His Hlo Hcf Hm]. split; simpl; [| | | | | | |by rewrite Hw].
  - rewrite Hg, Hp. eapply pool_ok_ext; [exact Hpool|]. intros y. exact (same_held s s' y Hs').
  - unfold wanted. simpl. rewrite Ht, Hw, Hcx. exact Hctx.
  - intros r Hr. apply (same_buffered s s' r Hs'), Hbuf. unfold in_use in *. simpl in Hr. by rewrite Ht, Hw in Hr.
  - apply (proj2 (where_cnt (log_call ctx cb st 0 (issue cb s')))). intros x. simpl. unfold called. simpl.
    rewrite fmap_app, !cnt_app, Ht, Hw, Hcm, Hcx, His, Hlo, Hlg, (proj1 (where_cnt s) Hwhere). unfold called. simpl. lia.
  - rewrite His. apply NoDup_app. split_and!; [done| |apply NoDup_singleton]. intros x Hx ->%list_elem_of_singleton. done.
  - rewrite Hcm. intros Hne. unfold looked_for. simpl. rewrite Hw, Hcx. by apply Hlook.
  - rewrite Hcx. exact Hq.
Qed.

Lemma submitted s req :
  redis_ok s → q_cb req ∉ rs_issued s → is_Some (rs_ctxs s !! q_ctx req) → buffered (rs_mem s) req →
  redis_ok (redis_thread_pool_submit req (ticked (issue (q_cb req) s))).
Proof.
  intros [Hpool Hctx Hbuf Hwhere Honce Hlook Hq Hlen] Hcb Hc Hb. split; simpl; [done| | | | |done|done|done].
  - intros c [(r & Hr & <-)|Hw]; [|apply Hctx; by right]. simpl in Hr. apply elem_of_app in Hr as [Hr| ->%list_elem_of_singleton]; [|done].
    apply Hctx. left. eauto.
  - intros r [Hr|Hw]; [|apply Hbuf; by right]. simpl in Hr. apply elem_of_app in Hr as [Hr| ->%list_elem_of_singleton]; [|done].
    apply Hbuf. by left.
  - apply (proj2 (where_cnt (redis_thread_pool_submit req (ticked (issue (q_cb req) s))))). intros x. simpl. unfold called. simpl.
    rewrite fmap_app, !cnt_app, (proj1 (where_cnt s) Hwhere). unfold called. simpl. lia.
  - apply NoDup_app. split_and!; [done| |apply NoDup_singleton]. intros x Hx ->%list_elem_of_singleton. done.
Qed.

Lemma request_step s op ctx key val valuelen cb :
  redis_ok s → allowed (LRequest op ctx key val valuelen cb) s → ∃ s', step (LRequest op ctx key val valuelen cb) s = Ok s' ∧ redis_ok s'.
Proof.
  intros Hok (Hpc & Hcb & H0 & Hb). assert (is_Some (rs_ctxs s !! ctx)) as [x Hx] by (destruct Hpc as [(x & ? & _)|(x & ? & _)]; by eexists).
  simpl. eexists. split; [done|]. unfold redis_operation. cbv zeta. change (rs_ctxs (issue cb s)) with (rs_ctxs s). rewrite Hx.
  unfold redis_make_request. destruct (alloc_ok (rs_tick (issue cb s))).
  - apply (submitted s (mk_request op (full_key key s) val valuelen cb ctx)); [done|done|by eexists|done].
  - apply (call_at_once s (ticked s)); [done|done|apply (same_db (rs_db s))|done|done].
Qed.

Lemma evict_step s ctx cb : redis_ok s → allowed (LEvict ctx cb) s → redis_ok (redis_evict ctx cb s).
Proof. intros Hok Hcb. apply (call_at_once s s); [done|done|apply same_refl|done|done]. Qed.

Lemma open_step s ctx b : redis_ok s → allowed (LOpen ctx b) s → redis_ok (redis_context alloc_ok ctx b s).2.
Proof.
  intros Hok Hn. simpl in Hn. unfold redis_context. destruct Hok as [Hpool Hctx Hbuf Hwhere Honce Hlook Hq Hlen].
  destruct (alloc_ok (rs_tick s)), b; simpl; try by split.
  split; simpl; [| |done| |done| | |done].
  - eapply pool_ok_ext; [exact Hpool|]. intros y. etrans; [apply (held_ctx ctx (mk_context [] 0 CIdle) (ticked s))|].
    unfold hset. case_decide; [subst y|done]. simpl. by rewrite Hn.
  - intros c Hw. apply lookup_insert_is_Some'. right. by apply Hctx.
  - apply (proj2 (where_cnt (put_ctx ctx (mk_context [] 0 CIdle) (ticked s)))). intros x. simpl. rewrite (queued_fresh _ _ _ _ Hn).
    rewrite (proj1 (where_cnt s) Hwhere). unfold called. simpl. lia.
  - intros Hne. destruct (Hlook Hne) as [(c & z & Hz & H)|H]; [left|by right]. exists c, z. simpl. rewrite lookup_insert_ne by congruence. done.
  - intros c z. destruct (decide (c = ctx)) as [->|Hne].
    + rewrite lookup_insert_eq. by intros [= <-].
    + rewrite lookup_insert_ne by done. apply Hq.
Qed.

(** The loop only calls back. *)
Lemma call_all_eq ctx l s :
  ∃ log, call_all ctx l s = mk_redis (rs_db s) (rs_gen s) (rs_pool s) (rs_cf s) (rs_tasks s) (rs_workers s) (rs_completions s) (rs_ctxs s)
    (rs_mem s) (rs_log s ++ log) (rs_issued s) (rs_lost s) (rs_tick s) ∧ (λ c, c.1.1.2) <$> log = k_cb <$> l.
Proof.
  unfold call_all. revert s. induction l as [|comp l IH]; intros s; simpl; [exists []; rewrite app_nil_r; by destruct s|].
  destruct (IH (log_call ctx (k_cb comp) (k_status comp) (k_valuelen comp) s)) as (log & -> & Hl). simpl.
  eexists (_ :: log). rewrite <- app_assoc. split; [done|]. rewrite fmap_cons, Hl. done.
Qed.

Lemma close_step s ctx : redis_ok s → allowed (LClose ctx) s → ∃ s', step (LClose ctx) s = Ok s' ∧ redis_ok s'.
Proof.
  intros [Hpool Hctx Hbuf Hwhere Honce Hlook Hq Hlen] [(x & Hx & Hpc) Hw]. simpl. unfold redis_close. rewrite Hx.
  destruct (call_all_eq ctx (x_queue x ++ rs_completions s) (set_completions [] s)) as (log & -> & Hlog). simpl.
  eexists. split; [done|]. set (s' := set_ctxs _ _). split; [| |done| |done|done| |done].
  - eapply pool_ok_ext; [exact Hpool|]. intros y. destruct y as [j|c]; simpl; [done|]. destruct (decide (c = ctx)) as [->|Hne].
    + rewrite lookup_delete_eq, Hx. unfold context_conn. simpl. by rewrite Hpc.
    + by rewrite lookup_delete_ne.
  - intros c Hc. simpl. rewrite lookup_delete_ne; [by apply Hctx|]. intros <-. by apply Hw.
  - apply where_cnt. intros z. simpl. unfold called. simpl. rewrite fmap_app, cnt_app, Hlog, fmap_app, cnt_app, (proj1 (where_cnt s) Hwhere).
    rewrite (queued_delete _ _ _ z Hx). unfold called, queue_cbs. simpl. lia.
  - intros c z. simpl. intros [_ Hz]%lookup_delete_Some. by eapply Hq.
Qed.

Lemma mem_step s mem : redis_ok s → allowed (LMem mem) s → redis_ok (set_mem mem s).
Proof. intros [Hpool Hctx Hbuf Hwhere Honce Hlook Hq Hlen] Hm. by split. Qed.

Lemma step_ok l s : redis_ok s → allowed l s → ∃ s', step l s = Ok s' ∧ redis_ok s'.
Proof.
  intros Hok Ha. destruct l; [by apply request_step|eexists; split; [done|by apply evict_step]|by apply worker_step|by apply event_step|by apply move_step|
    by apply call_step|by apply clear_step|by apply clear_wait_step|by apply flush_step|eexists; split; [done|by apply open_step]|
    by apply close_step|eexists; split; [done|by apply mem_step]].
Qed.

(** *** The start *)

Lemma init_connections_free cf n t (d : db) l d' :
  init_connections exec connects cf n t d = (Some l, d') → length l = n ∧ ∀ i c, l !! i = Some c → c = mk_connection (Some false) false.
Proof.
  revert t d l. induction n as [|n IH]; intros t d l; simpl; [intros; simplify_eq; done|].
  destruct (redis_connection_init exec connects cf t d) as [[c|] d1] eqn:Hc; [|done]. apply init_Some in Hc as ->.
  destruct (init_connections exec connects cf n (t + 2) d1) as [[l'|] d2] eqn:Hl; [|done]. intros [= <- <-].
  destruct (IH _ _ _ Hl) as [Hlen Hall]. split; [simpl; lia|]. intros [|i] c; simpl; [by intros [= <-]|apply Hall].
Qed.

Lemma create_ok cf t d mem s : redis_thread_pool_create exec connects alloc_ok cf REDIS_THREAD_POOL_SIZE t d mem = Some s → redis_ok s.
Proof.
  remember REDIS_THREAD_POOL_SIZE as n eqn:Hn. unfold redis_thread_pool_create, redis_connection_pool_create. destruct (alloc_ok t); cbn [negb]; [|done].
  destruct (alloc_ok (t + 1) && alloc_ok (t + 1 + 1)); [|done].
  destruct (init_connections exec connects _ _ _ d) as [[l|] d'] eqn:Hl; [|done]. destruct (alloc_ok _); cbn [negb]; [|done].
  generalize (t + 3 + 2 * REDIS_POOL_INITIAL_SIZE + 1). intros t' [= <-].
  apply init_connections_free in Hl as [Hlen Hall].
  assert (Hidle : ∀ i pc, replicate n WIdle !! i = Some pc → pc = WIdle) by (intros i pc [-> _]%lookup_replicate; done).
  split; simpl; [| | | |constructor|done|done|by rewrite length_replicate].
  - assert (Hnone : ∀ y, held (mk_redis d' 0 l cf [] (replicate n WIdle) [] ∅ mem [] [] [] t') y = None).
    { intros [i|c]; simpl; [|by rewrite lookup_empty]. destruct (replicate n WIdle !! i) eqn:Hi; [by apply Hidle in Hi as ->|done]. }
    split; [| | | |by rewrite Hlen].
    + intros x p. by rewrite Hnone.
    + intros x y p q. by rewrite Hnone.
    + intros i c Hi Hu. by rewrite (Hall _ _ Hi) in Hu.
    + intros i c Hi. rewrite (Hall _ _ Hi). by eexists.
  - intros c [(r & Hr & _)|(i & pc & Hi & Hc)]; [by apply elem_of_nil in Hr|]. simpl in Hi. by apply Hidle in Hi as ->.
  - intros r [Hr|(i & pc & Hi & Hc)]; [by apply elem_of_nil in Hr|]. simpl in Hi. by apply Hidle in Hi as ->.
  - apply (proj2 (where_cnt (mk_redis d' 0 l cf [] (replicate n WIdle) [] ∅ mem [] [] [] t'))). intros x. simpl.
    unfold queued. rewrite map_to_list_empty. unfold called. simpl.
    by assert (replicate n WIdle ≫= worker_cbs = []) as -> by (clear; by induction n).
Qed.

Lemma redis_reachable_ok s : reachable s → redis_ok s.
Proof.
  induction 1 as [cf t d mem s Hc|l s s' _ IH Ha Hs]; [by eapply create_ok|].
  destruct (step_ok l s IH Ha) as (s1 & Hs1 & Hok). rewrite Hs in Hs1. by injection Hs1 as ->.
Qed.

(** (C22) The threads never use what is not theirs: in every state the threads of
    the driver reach, whichever thread goes on, its step does not fault: no
    connection through a pointer into an array that was moved, no buffer that is
    gone or too short, no context that was closed, no connection that is null. The
    callers have to keep the buffers of requests that are not executed yet and to
    close a context only when its requests are done, and the array of connections,
    when it has to grow, has to grow in place. *)
Theorem redis_never_faults l s : reachable s → allowed l s → ∃ s', step l s = Ok s' ∧ reachable s'.
Proof.
  intros Hr Ha. destruct (step_ok l s (redis_reachable_ok s Hr) Ha) as (s' & Hs & _). exists s'. split; [done|]. by eapply reachable_step.
Qed.

(** (C23) Every request is called back once, or is still on its way: in every state
    the threads reach, the callbacks of the requests made so far are, each once,
    those of the requests in the queues and with the workers, those that were called,
    and those whose completion could not be allocated. *)
Theorem redis_called_once s :
  reachable s → rs_issued s ≡ₚ pending s ++ called s ++ rs_lost s ∧ NoDup (pending s ++ called s ++ rs_lost s).
Proof. intros Hr%redis_reachable_ok. pose proof (ro_where s Hr) as Hp. split; [done|]. rewrite <- Hp. by apply ro_once. Qed.

(** ** Connections are enough *)

(** The contexts that have a connection. *)
Definition clearing s : nat := length (omap (λ x, context_conn x.2) (map_to_list (rs_ctxs s))).

Lemma used_conns s : redis_ok s → find_idle 0 (rs_pool s) = None → (length (rs_pool s) <= length (omap worker_conn (rs_workers s)) + clearing s)%nat.
Proof.
  intros Hok Hnone. unfold clearing. rewrite <- length_app. set (ps := omap _ _ ++ omap _ _).
  rewrite <- (length_seq (length (rs_pool s)) 0), <- (length_fmap snd ps), <- (length_fmap Z.of_nat).
  apply submseteq_length, NoDup_submseteq; [apply NoDup_fmap; [intros ???; lia|apply NoDup_seq]|].
  intros z (i & -> & [_ Hi]%elem_of_seq)%list_elem_of_fmap. destruct (lookup_lt_is_Some_2 (rs_pool s) i) as [c Hc]; [lia|].
  pose proof (find_idle_None _ _ _ _ Hnone Hc) as Hu. destruct (po_conn _ _ _ (ro_pool s Hok) _ _ Hc) as [e He].
  unfold idle in Hu. rewrite He, andb_true_r, negb_false_iff in Hu.
  destruct (po_used _ _ _ (ro_pool s Hok) _ _ Hc Hu) as (x & p & Hx & Hp). apply list_elem_of_fmap. exists p. split; [done|].
  unfold ps. apply elem_of_app. destruct x as [j|ctx]; simpl in Hx; apply bind_Some in Hx as (y & Hy & Hyp); [left|right].
  - apply list_elem_of_omap. exists y. split; [by eapply list_elem_of_lookup_2|done].
  - apply list_elem_of_omap. exists (ctx, y). split; [by apply elem_of_map_to_list|done].
Qed.

Lemma length_omap_le {A B} (f : A → option B) l : (length (omap f l) <= length l)%nat.
Proof. induction l as [|a l IH]; csimpl; [lia|]. destruct (f a); csimpl; lia. Qed.

Lemma conns_of_others (ws : list worker_pc) i pc : ws !! i = Some pc → worker_conn pc = None → (length (omap worker_conn ws) < length ws)%nat.
Proof.
  revert i. induction ws as [|pc' ws IH]; intros i; [done|]. destruct i as [|i]; csimpl.
  - intros [= ->] ->. pose proof (length_omap_le worker_conn ws). lia.
  - intros Hi Hn. specialize (IH i Hi Hn). destruct (worker_conn pc'); csimpl; lia.
Qed.

(** The pool has a connection for whoever asks: with at most two contexts
    clearing the database at a time, a worker that asks for a connection finds an
    idle one, and so does a context when at most one other is clearing: eight
    workers and two contexts share ten connections, and the array never has to
    grow. *)
Theorem redis_has_connection s :
  reachable s →
  (∀ i req, rs_workers s !! i = Some (WTask req) → (clearing s <= 2)%nat → ∃ j, find_idle 0 (rs_pool s) = Some j) ∧
  ((clearing s <= 1)%nat → ∃ j, find_idle 0 (rs_pool s) = Some j).
Proof.
  intros Hok%redis_reachable_ok. pose proof (po_size _ _ _ (ro_pool s Hok)) as Hs. unfold REDIS_POOL_INITIAL_SIZE in Hs. pose proof (ro_workers s Hok) as Hw.
  unfold REDIS_THREAD_POOL_SIZE in Hw. destruct (find_idle 0 (rs_pool s)) as [j|] eqn:Hi; [split; [intros i req _ _|intros _]; by exists j|].
  pose proof (used_conns s Hok Hi) as Hu. split.
  - intros i req Hreq Hc. pose proof (conns_of_others _ i _ Hreq eq_refl). lia.
  - intros Hc. pose proof (length_omap_le worker_conn (rs_workers s)). lia.
Qed.

(** ** Progress *)

Definition worker_weight (pc : worker_pc) : nat :=
  match pc with
  | WIdle => 0 | WTask _ => 19 | WWaiting _ => 18 | WConn _ _ => 17 | WAnswer _ _ _ _ => 16 | WReleased _ _ _ => 15 | WNotify _ => 11
  end.

Definition context_weight (x : redis_thread_context) : nat :=
  2 * length (x_queue x) + 5 * Z.to_nat (x_eventfd x) +
  match x_pc x with CIdle => 0 | CRead => 4 | CLoop => 2 | CClearWait => 2 | CClear _ => 1 end.

Definition contexts_weight (m : gmap Z redis_thread_context) : nat := sum_list_with (λ x, context_weight x.2) (map_to_list m).

(** What the threads still have to do. *)
Definition work s : nat :=
  20 * length (rs_tasks s) + sum_list_with worker_weight (rs_workers s) + 3 * length (rs_completions s) + contexts_weight (rs_ctxs s).

Lemma work_same s s0 : same s s0 → work s0 = work s.
Proof. intros []. unfold work. congruence. Qed.

Lemma workers_insert (ws : list worker_pc) i pc pc' :
  ws !! i = Some pc →
  (sum_list_with worker_weight (<[i := pc']> ws) + worker_weight pc = sum_list_with worker_weight ws + worker_weight pc')%nat.
Proof.
  intros Hi. rewrite insert_take_drop by (by eapply lookup_lt_Some). rewrite <- (take_drop_middle ws i pc Hi) at 3.
  rewrite !sum_list_with_app. simpl. lia.
Qed.

Lemma contexts_fresh m ctx y : m !! ctx = None → contexts_weight (<[ctx := y]> m) = (context_weight y + contexts_weight m)%nat.
Proof.
  intros Hn. unfold contexts_weight. rewrite (sum_list_with_Permutation_proper _ _ _ (map_to_list_insert m ctx y Hn)). done.
Qed.

Lemma contexts_insert m ctx x y :
  m !! ctx = Some x → (contexts_weight (<[ctx := y]> m) + context_weight x = contexts_weight m + context_weight y)%nat.
Proof.
  intros Hx. rewrite <- insert_delete_eq, contexts_fresh by apply lookup_delete_eq.
  rewrite <- (insert_delete_id m ctx x Hx) at 2. rewrite contexts_fresh by apply lookup_delete_eq. lia.
Qed.

Lemma work_worker s i pc pc' : rs_workers s !! i = Some pc → (work (set_worker i pc' s) + worker_weight pc = work s + worker_weight pc')%nat.
Proof. intros Hi. unfold work. simpl. pose proof (workers_insert _ i pc pc' Hi). lia. Qed.

Lemma work_ctx s ctx x y : rs_ctxs s !! ctx = Some x → (work (put_ctx ctx y s) + context_weight x = work s + context_weight y)%nat.
Proof. intros Hx. unfold work. simpl. pose proof (contexts_insert _ ctx x y Hx). lia. Qed.

(** The steps the threads take by themselves, with nothing new to do. *)
Definition internal (l : label) s : Prop :=
  match l with
  | LWorker _ _ | LEvent _ | LCall _ | LClearWait _ _ | LFlush _ => True
  | LMove ctx => at_pc s ctx CRead
  | _ => False
  end.

Lemma answered_less s s0 i pc req a :
  same s s0 → rs_workers s !! i = Some pc → (worker_weight pc = 19 ∨ worker_weight pc = 18 ∧ a ≠ PoolWait)%nat →
  (work (pool_answered i req a s0) < work s)%nat.
Proof.
  intros Hs Hi Hw. rewrite <- (work_same s s0 Hs). rewrite <- (sa_workers _ _ Hs) in Hi.
  destruct a; simpl; [pose proof (work_worker s0 i _ (WConn req conn) Hi) as E|
    pose proof (work_worker s0 i _ (WReleased req PRISKV_BACKEND_STATUS_ERROR 0) Hi) as E|
    pose proof (work_worker s0 i _ (WWaiting req) Hi) as E]; simpl in E; destruct Hw as [?|[? ?]]; try done; lia.
Qed.

Lemma retry_waits s : (pool_retry s).1 = PoolWait → (pool_retry s).2 = s.
Proof. unfold pool_retry. by destruct (find_idle 0 (rs_pool s)). Qed.

(** A worker that has something to do and does it has less to do. *)
Lemma worker_less s i timeout pc s' :
  redis_ok s → allowed (LWorker i timeout) s → rs_workers s !! i = Some pc → step (LWorker i timeout) s = Ok s' →
  (work s' < work s)%nat ∨ s' = s ∧ (pc = WIdle ∧ rs_tasks s = [] ∨ ∃ req, pc = WWaiting req ∧ timeout = false).
Proof.
  intros Hok Ha Hi Hs. simpl in Hs. unfold redis_worker_func in Hs. rewrite Hi in Hs.
  assert (Hheld : held s (inl i) = worker_conn pc) by (simpl; by rewrite Hi). assert (Hp := ro_pool s Hok).
  destruct pc as [|req|req|req p|req p st len|req st len|req].
  - destruct (rs_tasks s) as [|req tasks] eqn:Ht; [right; naive_solver|]. left. injection Hs as <-.
    pose proof (work_worker (set_tasks tasks s) i _ (WTask req) Hi) as E. unfold work in *. simpl in *. rewrite Ht. simpl. lia.
  - pose proof (get_Ok exec connects alloc_ok moves s (inl i) Hp Hheld (Ha req Hi)) as H. destruct (redis_connection_pool_get _ _ _ _ s) as [a s0].
    destruct H as [Hsame _]. injection Hs as <-. left. eapply answered_less; [done|done|by left].
  - destruct timeout; [injection Hs as <-; left; pose proof (work_worker s i _ (WReleased req PRISKV_BACKEND_STATUS_ERROR 0) Hi) as E; simpl in E; lia|].
    pose proof (retry_Ok s (inl i) Hp Hheld) as H. pose proof (retry_waits s) as Hwait. destruct (pool_retry s) as [a s0].
    destruct H as [Hsame _]. injection Hs as <-. destruct (decide (a = PoolWait)) as [->|Hne]; [|left; eapply answered_less; [done|done|right; done]].
    right. specialize (Hwait eq_refl). simpl in Hwait. subst s0. split; [|naive_solver]. simpl. unfold set_worker. rewrite list_insert_id by done. by destruct s.
  - destruct (execute_held exec s (inl i) p req Hp Hheld) as (st & len & s0 & He & Hsame & _); [apply (ro_buf s Hok); right; by eexists i, _|].
    rewrite He, Ok_bind in Hs. injection Hs as <-. left. rewrite <- (work_same s s0 Hsame). rewrite <- (sa_workers _ _ Hsame) in Hi.
    pose proof (work_worker s0 i _ (WAnswer req p st len) Hi) as E. simpl in E. lia.
  - destruct (release_held s (inl i) p Hp Hheld) as (s0 & He & Hsame & _). rewrite He, Ok_bind in Hs. injection Hs as <-.
    left. rewrite <- (work_same s s0 Hsame). rewrite <- (sa_workers _ _ Hsame) in Hi.
    pose proof (work_worker s0 i _ (WReleased req st len) Hi) as E. simpl in E. lia.
  - injection Hs as <-. left. unfold complete. destruct (alloc_ok (rs_tick s)).
    + pose proof (work_worker (set_completions (rs_completions s ++ [mk_completion (q_cb req) st len]) (ticked s)) i _ (WNotify req) Hi) as E.
      unfold work in *. simpl in *. rewrite length_app in *. simpl in *. lia.
    + pose proof (work_worker (lose (q_cb req) (ticked s)) i _ WIdle Hi) as E. unfold work in *. simpl in *. lia.
  - destruct (ro_ctx s Hok (q_ctx req)) as [x Hx]; [right; by eexists i, _|]. rewrite Hx in Hs. injection Hs as <-. left.
    set (y := mk_context _ _ _). pose proof (work_worker (put_ctx (q_ctx req) y s) i _ WIdle Hi) as E. unfold put_ctx in E.
    pose proof (work_ctx s (q_ctx req) x y Hx) as E'. unfold put_ctx in E'. unfold context_weight in E'. simpl in E, E'.
    destruct (ro_queue s Hok _ _ Hx) as [H0 _]. replace (Z.to_nat (x_eventfd x + 1)) with (S (Z.to_nat (x_eventfd x))) in E' by lia. lia.
Qed.

Lemma clear_less s s0 ctx x a :
  same s s0 → rs_ctxs s !! ctx = Some x → x_pc x = CClearWait → a ≠ PoolWait → (work (clearup_answered ctx x a s0).2 < work s)%nat.
Proof.
  intros Hs Hx Hpc Ha. rewrite <- (work_same s s0 Hs). rewrite <- (sa_ctxs _ _ Hs) in Hx.
  destruct a as [conn| |]; simpl; [pose proof (work_ctx s0 ctx x (mk_context (x_queue x) (x_eventfd x) (CClear conn)) Hx) as E|
    pose proof (work_ctx s0 ctx x (mk_context (x_queue x) (x_eventfd x) CIdle) Hx) as E|done];
    unfold context_weight in E; rewrite Hpc in E; simpl in E; lia.
Qed.

(** The same for the threads of the contexts. *)
Lemma wait_less s ctx timeout s' :
  redis_ok s → at_pc s ctx CClearWait → step (LClearWait ctx timeout) s = Ok s' → (work s' < work s)%nat ∨ s' = s ∧ timeout = false.
Proof.
  intros Hok (x & Hx & Hpc) Hs. simpl in Hs. unfold clearup_wait in Hs. rewrite (get_ctx_Ok _ _ _ Hx), Ok_bind in Hs.
  assert (Hheld : held s (inr ctx) = None) by (simpl; rewrite Hx; unfold context_conn; simpl; by rewrite Hpc).
  pose proof (retry_Ok s _ (ro_pool s Hok) Hheld) as H. pose proof (retry_waits s) as Hwait. destruct timeout.
  - injection Hs as <-. left. by apply (clear_less s s ctx x PoolFailed (same_refl s)).
  - destruct (pool_retry s) as [a s0]. destruct H as [Hsame _]. pose proof (clear_less s s0 ctx x a Hsame Hx Hpc) as Hl.
    rewrite Ok_bind in Hs. destruct (decide (a = PoolWait)) as [->|Hne].
    + specialize (Hwait eq_refl). simpl in Hwait. subst s0. injection Hs as <-. right. split; [|done].
      unfold put_ctx. rewrite insert_id; [by destruct s|]. rewrite Hx. destruct x; simpl in *; by subst.
    + left. destruct (clearup_answered ctx x a s0) as [r s1]. injection Hs as <-. by apply Hl.
Qed.

Lemma flush_less s ctx conn s' : redis_ok s → at_pc s ctx (CClear conn) → step (LFlush ctx) s = Ok s' → (work s' < work s)%nat.
Proof.
  intros Hok (x & Hx & Hpc) Hs. simpl in Hs. unfold clearup_flush in Hs. rewrite (get_ctx_Ok _ _ _ Hx), Ok_bind, Hpc in Hs.
  assert (Hheld : held s (inr ctx) = Some conn) by (simpl; rewrite Hx; unfold context_conn; simpl; by rewrite Hpc).
  destruct (command_held exec s _ conn CmdFlushdb (ro_pool s Hok) Hheld) as (reply & s1 & Hc1 & Hs1 & _ & Hp1). rewrite Hc1, Ok_bind in Hs.
  destruct (release_held s1 (inr ctx) conn) as (s2 & Hr & Hs2 & _).
  { eapply pool_ok_ext; [exact Hp1|]. intros y. by apply same_held. }
  { by rewrite (same_held s s1). }
  rewrite Hr, !Ok_bind in Hs. injection Hs as <-. assert (Hsame := same_trans _ _ _ Hs1 Hs2). rewrite <- (work_same s s2 Hsame).
  rewrite <- (sa_ctxs _ _ Hsame) in Hx. pose proof (work_ctx s2 ctx x (mk_context (x_queue x) (x_eventfd x) CIdle) Hx) as E.
  unfold context_weight in E. rewrite Hpc in E. simpl in E. lia.
Qed.

Lemma event_less s ctx s' : redis_ok s → allowed (LEvent ctx) s → step (LEvent ctx) s = Ok s' → (work s' < work s)%nat.
Proof.
  intros Hok (x & Hx & Hpc & He) Hs. simpl in Hs. unfold handle_redis_completion_event in Hs. rewrite (get_ctx_Ok _ _ _ Hx), Ok_bind in Hs.
  injection Hs as <-. pose proof (work_ctx s ctx x (mk_context (x_queue x) 0 CRead) Hx) as E.
  unfold context_weight in E. rewrite Hpc in E. simpl in E. lia.
Qed.

Lemma move_less s ctx s' : redis_ok s → at_pc s ctx CRead → step (LMove ctx) s = Ok s' → (work s' < work s)%nat.
Proof.
  intros Hok (x & Hx & Hpc) Hs. simpl in Hs. unfold list_move_all in Hs. rewrite (get_ctx_Ok _ _ _ Hx), Ok_bind in Hs. injection Hs as <-.
  pose proof (work_ctx (set_completions [] s) ctx x (mk_context (x_queue x ++ rs_completions s) (x_eventfd x) CLoop) Hx) as E.
  unfold context_weight, work in *. rewrite Hpc in E. simpl in *. rewrite length_app in E. lia.
Qed.

Lemma call_less s ctx s' : redis_ok s → at_pc s ctx CLoop → step (LCall ctx) s = Ok s' → (work s' < work s)%nat.
Proof.
  intros Hok (x & Hx & Hpc) Hs. simpl in Hs. unfold redis_process_completions in Hs. rewrite (get_ctx_Ok _ _ _ Hx), Ok_bind in Hs.
  destruct (x_queue x) as [|comp queue] eqn:Hq; injection Hs as <-.
  - pose proof (work_ctx s ctx x (mk_context [] (x_eventfd x) CIdle) Hx) as E. unfold context_weight in E. rewrite Hpc, Hq in E. simpl in E. lia.
  - pose proof (work_ctx s ctx x (mk_context queue (x_eventfd x) CLoop) Hx) as E. unfold context_weight in E. rewrite Hpc, Hq in E. simpl in E.
    unfold work in *. simpl in *. lia.
Qed.

Lemma internal_less l s s' : redis_ok s → internal l s → allowed l s → step l s = Ok s' → s' = s ∨ (work s' < work s)%nat.
Proof.
  intros Hok Hint Ha Hs. destruct l; try done.
  - destruct (rs_workers s !! i) as [pc|] eqn:Hi.
    + destruct (worker_less s i timeout pc s' Hok Ha Hi Hs) as [?|[? _]]; auto.
    + simpl in Hs. unfold redis_worker_func in Hs. rewrite Hi in Hs. injection Hs as <-. by left.
  - right. by eapply event_less.
  - right. by eapply move_less.
  - right. by eapply call_less.
  - destruct (wait_less s ctx timeout s' Hok Ha Hs) as [?|[? _]]; auto.
  - right. destruct Ha as [conn Ha]. by eapply flush_less.
Qed.

(** A step of a thread that changes something. *)
Definition goes_on s s' : Prop := ∃ l, internal l s ∧ allowed l s ∧ step l s = Ok s' ∧ s' ≠ s.

Lemma goes_on_less s s' : redis_ok s → goes_on s s' → redis_ok s' ∧ (work s' < work s)%nat.
Proof.
  intros Hok (l & Hint & Ha & Hs & Hne). destruct (step_ok l s Hok Ha) as (s1 & Hs1 & Hok1). rewrite Hs in Hs1. injection Hs1 as <-.
  split; [done|]. by destruct (internal_less l s s' Hok Hint Ha Hs).
Qed.

Lemma less_goes_on l s :
  redis_ok s → internal l s → allowed l s → (∀ s', step l s = Ok s' → (work s' < work s)%nat) → ∃ s', goes_on s s'.
Proof.
  intros Hok Hint Ha Hl. destruct (step_ok l s Hok Ha) as (s' & Hs & _). exists s', l. split_and!; [done|done|done|].
  intros ->. specialize (Hl s Hs). lia.
Qed.

Lemma worker_goes s i pc :
  (∀ t, moves t = false) → redis_ok s → rs_workers s !! i = Some pc → pc ≠ WIdle ∨ rs_tasks s ≠ [] → ∃ s', goes_on s s'.
Proof.
  intros Hm Hok Hi Hpc. assert (Ha : allowed (LWorker i true) s) by (intros req _ _; apply Hm).
  apply (less_goes_on (LWorker i true)); [done|done|done|]. intros s' Hs.
  destruct (worker_less s i true pc s' Hok Ha Hi Hs) as [?|[_ [[-> Ht]|(req & _ & ?)]]]; [done| |done]. by destruct Hpc.
Qed.

Lemma context_goes s ctx x : redis_ok s → rs_ctxs s !! ctx = Some x → x_pc x ≠ CIdle ∨ 0 < x_eventfd x → ∃ s', goes_on s s'.
Proof.
  intros Hok Hx Hpc. destruct (x_pc x) as [| | | |conn] eqn:Hp.
  - destruct Hpc as [?|He]; [done|]. assert (allowed (LEvent ctx) s) by by exists x.
    apply (less_goes_on (LEvent ctx)); [done|done|done|]. intros s' Hs. by eapply event_less.
  - assert (at_pc s ctx CRead) by by exists x. apply (less_goes_on (LMove ctx)); [done|done|by left|]. intros s' Hs. by eapply move_less.
  - assert (at_pc s ctx CLoop) by by exists x. apply (less_goes_on (LCall ctx)); [done|done|done|]. intros s' Hs. by eapply call_less.
  - assert (at_pc s ctx CClearWait) by by exists x. apply (less_goes_on (LClearWait ctx true)); [done|done|done|].
    intros s' Hs. by destruct (wait_less s ctx true s' Hok H Hs) as [?|[_ ?]].
  - assert (at_pc s ctx (CClear conn)) by by exists x. apply (less_goes_on (LFlush ctx)); [done|done|by exists conn|]. intros s' Hs. by eapply flush_less.
Qed.

(** As long as a request is on its way, a thread can go on. *)
Lemma no_deadlock s : (∀ t, moves t = false) → redis_ok s → pending s ≠ [] → ∃ s', goes_on s s'.
Proof.
  intros Hm Hok Hp. destruct (decide (rs_tasks s = [])) as [Ht|Ht].
  2: { destruct (lookup_lt_is_Some_2 (rs_workers s) 0) as [pc Hpc]; [rewrite (ro_workers s Hok); unfold REDIS_THREAD_POOL_SIZE; lia|].
    eapply worker_goes; eauto. }
  destruct (rs_workers s ≫= worker_cbs) as [|cb l] eqn:Hw.
  2: { assert (cb ∈ rs_workers s ≫= worker_cbs) as (pc & Hcb & (i & Hi)%list_elem_of_lookup)%list_elem_of_bind by (rewrite Hw; left).
    eapply worker_goes; [done|done|exact Hi|]. left. intros ->. by apply elem_of_nil in Hcb. }
  destruct (decide (rs_completions s = [])) as [Hc|Hc].
  2: { destruct (ro_look s Hok Hc) as [(ctx & x & Hx & Hx')|(i & req & Hi)].
    - eapply context_goes; [done|exact Hx|]. destruct Hx' as [?|Hx']; [by right|left; by rewrite Hx'].
    - eapply worker_goes; [done|done|exact Hi|by left]. }
  unfold pending in Hp. rewrite Ht, Hw, Hc in Hp. simpl in Hp. destruct (queued (rs_ctxs s)) as [|cb l] eqn:Hq; [done|].
  assert (cb ∈ queued (rs_ctxs s)) as ([ctx x] & Hcb & Hx)%list_elem_of_bind by (rewrite Hq; left).
  apply elem_of_map_to_list in Hx. eapply context_goes; [done|exact Hx|]. left.
  rewrite (proj2 (ro_queue s Hok _ _ Hx)); [done|]. intros He. unfold queue_cbs in Hcb. simpl in Hcb. rewrite He in Hcb. by apply elem_of_nil in Hcb.
Qed.

(** (C24) The threads come to rest, and then every request has been called back:
    with nothing new to do, the threads take at most as many steps that change
    something as there is work, in whatever order, and as long as a request is on
    its way one of them can go on: where none can, every request was called back,
    but for those whose completion could not be allocated. *)
Theorem redis_settles s :
  reachable s → (∀ t, moves t = false) →
  (∀ n s', nsteps goes_on n s s' → (n <= work s)%nat) ∧
  (∀ s', rtc goes_on s s' → (∃ s'', goes_on s' s'') ∨ (pending s' = [] ∧ rs_issued s' ≡ₚ called s' ++ rs_lost s')).
Proof.
  intros Hok%redis_reachable_ok Hm. split.
  - intros n s' Hn. induction Hn as [|n s s1 s' Hs Hn IH]; [lia|]. destruct (goes_on_less s s1 Hok Hs) as [Hok1 Hl]. specialize (IH Hok1). lia.
  - intros s' Hs. assert (Hok' : redis_ok s').
    { induction Hs as [|s s1 s' Hs _ IH]; [done|]. apply IH. by eapply goes_on_less. }
    destruct (decide (pending s' = [])) as [Hp|Hp]; [|left; by apply no_deadlock]. right. split; [done|].
    pose proof (ro_where s' Hok') as H. by rewrite Hp in H.
Qed.
End steps.
