(* ===== verification/RedisTier.v ===== *)
(** * The Redis driver as a tier

    What a Redis server does with the commands, as laws of the parameter [exec] of
    [Redis], and what the driver's answers say about it: the contract [drv] of the
    tiers, with the differences the driver has. Runs that show what the driver does
    outside the conditions of [RedisSystem]. *)

From S2P Require Import Prelude CString ServerModel Backend BackendProps Redis RedisProps RedisSystem.

(** ** The server *)

(** What a server that holds [m] replies to a command, and holds then. The reply
    can be an error, which changes nothing, and it can get lost, before or after the
    command has run. *)
Inductive replies (m : contents) : redis_command → option redisReply → contents → Prop :=
  | replies_error cmd : replies m cmd (Some ReplyError) m
  | replies_auth p : replies m (CmdAuth p) (Some ReplyStatus) m
  | replies_select i : replies m (CmdSelect i) (Some ReplyStatus) m
  | replies_get k v : m !! k = Some v → replies m (CmdGet k) (Some (ReplyString v)) m
  | replies_get_nil k : m !! k = None → replies m (CmdGet k) (Some ReplyNil) m
  | replies_set k v : replies m (CmdSet k v) (Some ReplyStatus) (<[k := v]> m)
  | replies_del k : replies m (CmdDel k) (Some (ReplyInteger (if decide (is_Some (m !! k)) then 1 else 0))) (delete k m)
  | replies_exists k : replies m (CmdExists k) (Some (ReplyInteger (if decide (is_Some (m !! k)) then 1 else 0))) m
  | replies_flushdb : replies m CmdFlushdb (Some ReplyStatus) ∅
  | replies_lost cmd : replies m cmd None m
  | replies_late cmd r m' : replies m cmd (Some r) m' → replies m cmd None m'.

(** [store]: the keys of the database and their values. *)
Class RedisServer {db : Type} (exec : Z → redis_command → db → option redisReply * db) (store : db → contents) : Prop :=
  redis_replies t cmd d reply d' : exec t cmd d = (reply, d') → replies (store d) cmd reply (store d').

(** The keys of a tier are those with its prefix. *)
Definition view (prefix : list Z) (m t : contents) : Prop := ∀ k, t !! k = m !! (prefix ++ k).

Lemma view_insert p m t k v : view p m t → view p (<[p ++ k := v]> m) (<[k := v]> t).
Proof.
  intros Hv k'. destruct (decide (k' = k)) as [->|Hne]; [by rewrite !lookup_insert_eq|].
  rewrite !lookup_insert_ne; [apply Hv|by intros ?%(inj (app p))|done].
Qed.

Lemma view_delete p m t k : view p m t → view p (delete (p ++ k) m) (delete k t).
Proof.
  intros Hv k'. destruct (decide (k' = k)) as [->|Hne]; [by rewrite !lookup_delete_eq|].
  rewrite !lookup_delete_ne; [apply Hv|by intros ?%(inj (app p))|done].
Qed.

(** ** What an answer says *)

(** The contract of a tier, but: the reply to a SET or DEL that was run can get
    lost, and TEST does not know the length. *)
Definition tier_answer (req : redis_request) (key : list Z) (t : contents) (buf : list Z)
    (st : priskv_backend_status) (len : Z) (t' : contents) (buf' : list Z) : Prop :=
  match q_op_type req with
  | REDIS_OP_GET => drv t buf (DrvGet key (q_valuelen req)) st len t' buf'
  | REDIS_OP_SET =>
      (∀ timeout, drv t buf (DrvSet key (q_valuelen req) timeout) st len t' buf') ∨
      st = PRISKV_BACKEND_STATUS_ERROR ∧ t' = <[key := take (Z.to_nat (q_valuelen req)) buf]> t ∧ buf' = buf
  | REDIS_OP_DEL =>
      drv t buf (DrvDel key) st len t' buf' ∨ st = PRISKV_BACKEND_STATUS_ERROR ∧ t' = delete key t ∧ buf' = buf
  | REDIS_OP_TEST =>
      t' = t ∧ buf' = buf ∧ len = 0 ∧
      match st with
      | PRISKV_BACKEND_STATUS_OK => is_Some (t !! key)
      | PRISKV_BACKEND_STATUS_NOT_FOUND => t !! key = None
      | _ => st = PRISKV_BACKEND_STATUS_ERROR
      end
  end.

Section tier.
Context {db : Type} (exec : Z → redis_command → db → option redisReply * db) (connects alloc_ok moves : Z → bool).
Notation redis := (redis db).
Notation reachable := (reachable exec connects alloc_ok moves).
Implicit Types s : redis.

Definition buf_of req s : list Z := default [] (rs_mem s !! q_val req).
Definition prefix_of s : list Z := default [] (cf_prefix (rs_cf s)).

(** No reply: an error, and the tier is as before or as after the operation. *)
Lemma no_reply req key t buf t' :
  t' = t ∨ match q_op_type req with
           | REDIS_OP_GET | REDIS_OP_TEST => False
           | REDIS_OP_SET => t' = <[key := take (Z.to_nat (q_valuelen req)) buf]> t
           | REDIS_OP_DEL => t' = delete key t
           end → tier_answer req key t buf PRISKV_BACKEND_STATUS_ERROR 0 t' buf.
Proof.
  unfold tier_answer. intros [->|H]; destruct (q_op_type req); [| | | |done|by right|by right|done].
  - by apply drv_get_fail.
  - left. intros timeout. apply drv_set_fail; [done|by left].
  - left. by apply drv_del_fail.
  - done.
Qed.

(** What the tier holds after a command that may have run. *)
Lemma run_view s req key cmd m' t r :
  command_of req s = Ok cmd → q_key req = prefix_of s ++ key → view (prefix_of s) m' t →
  ∀ m'', replies m' cmd r m'' → ∃ t', view (prefix_of s) m'' t' ∧
    (t' = t ∨ match q_op_type req with
           | REDIS_OP_GET | REDIS_OP_TEST => False
           | REDIS_OP_SET => t' = <[key := take (Z.to_nat (q_valuelen req)) (buf_of req s)]> t
           | REDIS_OP_DEL => t' = delete key t
           end).
Proof.
  intros Hcmd Hkey Hv m'' Hr. unfold command_of, buffer in Hcmd. unfold buf_of.
  destruct (q_op_type req); [| |injection Hcmd as <-..]; rewrite ?Hkey in *.
  - injection Hcmd as <-. exists t. split; [|by left]. remember (CmdGet (prefix_of s ++ key)) as cmd eqn:He.
    by induction Hr; simplify_eq; auto.
  - destruct (rs_mem s !! q_val req) as [b|]; [|done]. rewrite Ok_bind in Hcmd. destruct (_ <? _); [done|]. injection Hcmd as <-. simpl.
    remember (CmdSet _ _) as cmd eqn:He. induction Hr; simplify_eq; auto; [exists t; split; [done|by left]| |exists t; split; [done|by left]].
    eexists. split; [by apply view_insert|by right].
  - remember (CmdDel _) as cmd eqn:He. induction Hr; simplify_eq; auto; [exists t; split; [done|by left]| |exists t; split; [done|by left]].
    eexists. split; [by apply view_delete|by right].
  - exists t. split; [|by left]. remember (CmdExists (prefix_of s ++ key)) as cmd eqn:He.
    by induction Hr; simplify_eq; auto.
Qed.

(** A reply is processed to an answer that is true. *)
Lemma reply_answer s s0 req key cmd m m' t reply st len s1 :
  command_of req s = Ok cmd → q_key req = prefix_of s ++ key → view (prefix_of s) m t → rs_mem s0 = rs_mem s →
  replies m cmd (Some reply) m' → process_reply req (Some reply) s0 = Ok (st, len, s1) →
  ∃ t', view (prefix_of s) m' t' ∧ tier_answer req key t (buf_of req s) st len t' (buf_of req s1).
Proof.
  intros Hcmd Hkey Hv Hm Hr Hp.
  assert (Hst : ∀ s1, s1 = s0 → buf_of req s1 = buf_of req s) by (intros ? ->; unfold buf_of; by rewrite Hm).
  destruct (decide (reply = ReplyError)) as [->|Hne].
  { unfold process_reply in Hp. injection Hp as <- <- <-. exists t. rewrite (Hst s0 eq_refl). inversion Hr; subst; (split; [done|apply no_reply; by left]). }
  unfold command_of, buffer in Hcmd. unfold process_reply in Hp. unfold tier_answer.
  destruct (q_op_type req) eqn:Hop; [injection Hcmd as <-| |injection Hcmd as <-..].
  - inversion Hr; subst; [done| |].
    + match goal with H : _ !! q_key req = Some _ |- _ => rewrite Hkey, <- Hv in H; rename H into Hhit end. exists t. split; [done|]. destruct (Z.ltb_spec (q_valuelen req) (Z.of_nat (length v))).
      * injection Hp as <- <- <-. rewrite (Hst s0 eq_refl). by apply drv_get_fail.
      * apply bind_Ok in Hp as (b & Hb & Hp). unfold buffer in Hb. destruct (rs_mem s0 !! q_val req) as [b'|] eqn:Hb'; [|done].
        injection Hb as ->. destruct (_ <? _)%nat; [done|]. injection Hp as <- <- <-. unfold buf_of. simpl.
        rewrite lookup_insert_eq, <- Hm, Hb'. simpl. by apply drv_get_hit.
    + exists t. split; [done|]. injection Hp as <- <- <-. rewrite (Hst s0 eq_refl). by apply drv_get_fail.
  - destruct (rs_mem s !! q_val req) as [b|] eqn:Hb; [|done]. rewrite Ok_bind in Hcmd. destruct (_ <? _); [done|]. injection Hcmd as <-.
    inversion Hr; subst; [done|]. injection Hp as <- <- <-. eexists. rewrite Hkey. split; [by apply view_insert|].
    left. intros timeout. rewrite (Hst s0 eq_refl). unfold buf_of. rewrite Hb. apply drv_set_done.
  - inversion Hr; subst; [done|]. rewrite Hkey, <- Hv in *. eexists. split; [by apply view_delete|]. left.
    case_decide; simpl in Hp; injection Hp as <- <- <-; rewrite (Hst s0 eq_refl); [apply drv_del_done|].
    rewrite delete_id by (by apply eq_None_not_Some). by apply drv_del_fail.
  - inversion Hr; subst; [done|]. rewrite Hkey, <- Hv in *. exists t. split; [done|].
    case_decide; simpl in Hp; injection Hp as <- <- <-; rewrite (Hst s0 eq_refl); split_and!; auto. by apply eq_None_not_Some.
Qed.

Lemma execute_answer store s req conn key t st len s1 :
  RedisServer exec store → q_key req = prefix_of s ++ key → view (prefix_of s) (store (rs_db s)) t →
  execute exec req conn s = Ok (st, len, s1) →
  ∃ t', view (prefix_of s) (store (rs_db s1)) t' ∧ tier_answer req key t (buf_of req s) st len t' (buf_of req s1).
Proof.
  intros HS Hkey Hv He. unfold execute in He. apply bind_Ok in He as (cmd & Hcmd & He).
  apply bind_Ok in He as ([reply s0] & Hc & Hp). unfold redisCommand in Hc. apply bind_Ok in Hc as (c & Hd & Hc).
  destruct (rc_conn c) as [[]|]; [|destruct (exec (rs_tick s) cmd (rs_db s)) as [r d] eqn:Hx|done].
  - injection Hc as <- <-. injection Hp as <- <- <-. exists t. split; [done|]. apply no_reply. by left.
  - apply bind_Ok in Hc as (s2 & Hs2 & Hc). injection Hc as <- <-. apply redis_replies in Hx.
    assert (rs_mem s2 = rs_mem s ∧ rs_db s2 = d) as [Hm Hdb].
    { unfold set_conn in Hs2. apply bind_Ok in Hs2 as (? & _ & Hs2). apply bind_Ok in Hs2 as (pool & _ & Hs2). by injection Hs2 as <-. }
    assert (rs_db s1 = d) as ->.
    { rewrite <- Hdb. revert Hp. unfold process_reply. destruct r as [[]|]; destruct (q_op_type req); intros Hp; repeat case_match; simplify_eq/=; try done.
      apply bind_Ok in Hp as (? & _ & Hp). case_match; simplify_eq. done. }
    destruct r as [r|]; [by eapply reply_answer|]. injection Hp as <- <- <-.
    destruct (run_view s req key cmd _ t None Hcmd Hkey Hv _ Hx) as (t' & Hv' & Ht'). exists t'. split; [done|].
    replace (buf_of req s2) with (buf_of req s) by (unfold buf_of; by rewrite Hm). by apply no_reply.
Qed.

(** (C25) The Redis driver is a tier: when a worker runs a command for a request, on
    a server that follows the protocol, the status, the length, what is in the
    caller's buffer and what the server then holds under the prefix of the tier are
    what the contract of the tiers allows; but when the reply to a SET or DEL does
    not arrive, the answer is an error although the command may have run, and TEST
    answers truly whether there is the key, with length 0. *)
Theorem redis_implements_tier store s i req conn key t :
  reachable s → RedisServer exec store → rs_workers s !! i = Some (WConn req conn) → q_key req = full_key key s →
  view (prefix_of s) (store (rs_db s)) t →
  ∃ s' st len t', step exec connects alloc_ok moves (LWorker i false) s = Ok s' ∧
    rs_workers s' !! i = Some (WAnswer req conn st len) ∧ view (prefix_of s) (store (rs_db s')) t' ∧
    tier_answer req key t (buf_of req s) st len t' (buf_of req s').
Proof.
  intros Hok%redis_reachable_ok HS Hi Hkey Hv. assert (Hheld : held s (inl i) = Some conn) by (simpl; by rewrite Hi).
  assert (Hb : buffered (rs_mem s) req) by (apply (ro_buf s Hok); right; by eexists i, _).
  destruct (execute_held exec s (inl i) conn req (ro_pool s Hok) Hheld Hb) as (st & len & s1 & He & Hs & _).
  destruct (execute_answer store s req conn key t st len s1 HS Hkey Hv He) as (t' & Hv' & Ht').
  exists (set_worker i (WAnswer req conn st len) s1), st, len, t'. split_and!; [|simpl; rewrite (sa_workers _ _ Hs)|done|done].
  - simpl. unfold redis_worker_func. by rewrite Hi, He, Ok_bind.
  - apply list_lookup_insert_eq. by eapply lookup_lt_Some.
Qed.

(** ** Runs *)

(** Steps one after the other; faults included. *)
Fixpoint play (ls : list label) (s : redis) : res redis :=
  match ls with [] => Ok s | l :: ls => s ← step exec connects alloc_ok moves l s; play ls s end.

Definition pcb (s : redis) (ctx : Z) (pc : context_pc) : bool :=
  match rs_ctxs s !! ctx, pc with
  | Some (mk_context _ _ CIdle), CIdle | Some (mk_context _ _ CRead), CRead | Some (mk_context _ _ CLoop), CLoop => true
  | _, _ => false
  end.

(** Steps that are checked to be allowed. *)
Definition allowedb (l : label) (s : redis) : bool :=
  match l with
  | LRequest op ctx key val valuelen cb =>
      pcb s ctx CIdle && bool_decide (cb ∉ rs_issued s) && (0 <=? valuelen) &&
      match op with
      | REDIS_OP_GET | REDIS_OP_SET => match rs_mem s !! val with Some b => valuelen <=? Z.of_nat (length b) | None => false end
      | _ => true
      end
  | LWorker i timeout => negb (moves (rs_tick s))
  | LEvent ctx => match rs_ctxs s !! ctx with Some (mk_context _ n CIdle) => 0 <? n | _ => false end
  | LMove ctx => pcb s ctx CRead
  | LCall ctx => pcb s ctx CLoop
  | LOpen ctx _ => match rs_ctxs s !! ctx with None => true | Some _ => false end
  | _ => false
  end.

Fixpoint play_allowed (ls : list label) (s : redis) : bool :=
  match ls with
  | [] => true
  | l :: ls => allowedb l s && match step exec connects alloc_ok moves l s with Ok s => play_allowed ls s | Fault _ => false end
  end.

Lemma pcb_at s ctx pc : pcb s ctx pc = true → at_pc s ctx pc.
Proof. unfold pcb. destruct (rs_ctxs s !! ctx) as [[q n p]|] eqn:Hc; [|done]. destruct p, pc; try done; by eexists. Qed.

Lemma allowedb_allowed l s : allowedb l s = true → allowed moves l s.
Proof.
  destruct l; simpl; try done.
  - rewrite !andb_true_iff, bool_decide_eq_true, Z.leb_le. intros (((Hp & Hcb) & H0) & Hb). split_and!; [left; by apply pcb_at|done|done|].
    unfold buffered. simpl. destruct op; try done; (destruct (rs_mem s !! val) as [b|]; [|done]; exists b; split; [done|lia]).
  - intros Hm req _ _. by destruct (moves (rs_tick s)).
  - destruct (rs_ctxs s !! ctx) as [[q n []]|]; try done. intros ?%Z.ltb_lt. by eexists.
  - intros Hp. left. by apply pcb_at.
  - apply pcb_at.
  - by destruct (rs_ctxs s !! ctx).
Qed.

Lemma play_reachable ls s s' : reachable s → play_allowed ls s = true → play ls s = Ok s' → reachable s'.
Proof.
  revert s. induction ls as [|l ls IH]; intros s Hr; simpl; [by intros _ [= <-]|]. rewrite andb_true_iff. intros [Ha Hp] Hs.
  apply bind_Ok in Hs as (s1 & Hs1 & Hs). rewrite Hs1 in Hp. apply (IH s1); [|done|done].
  eapply reachable_step; [done|by apply allowedb_allowed|done].
Qed.
End tier.

(** ** Addresses *)

Definition setting (k v : list Z) : list Z := k ++ 61 :: v.
Definition joined (toks : list (list Z)) (last : list Z) : list Z := foldr (λ tok s, tok ++ 38 :: s) last toks.

Lemma split_last tok : 38 ∉ tok → split_at 38 tok = [tok].
Proof.
  induction tok as [|x tok IH]; intros Hn; [done|]. apply not_elem_of_cons in Hn as [Hx Hn]. simpl.
  rewrite (proj2 (Z.eqb_neq x 38)) by congruence. by rewrite IH.
Qed.

Lemma split_first tok s : 38 ∉ tok → split_at 38 (tok ++ 38 :: s) = tok :: split_at 38 s.
Proof.
  induction tok as [|x tok IH]; intros Hn; [done|]. apply not_elem_of_cons in Hn as [Hx Hn]. simpl.
  rewrite (proj2 (Z.eqb_neq x 38)) by congruence. by rewrite IH.
Qed.

Lemma split_joined toks last : Forall (λ tok, 38 ∉ tok) toks → 38 ∉ last → split_at 38 (joined toks last) = toks ++ [last].
Proof.
  intros Ht Hl. induction Ht as [|tok toks Hn Ht IH]; simpl; [by apply split_last|]. by rewrite split_first, IH.
Qed.

Lemma setting_parsed cf k v : 61 ∉ k → parse_token cf (setting k v) = 
  if bool_decide (k = chars "host") then mk_config (host_of v) (cf_port cf) (cf_db cf) (cf_password cf) (cf_prefix cf)
  else if bool_decide (k = chars "port") then mk_config (cf_host cf) (atoi v) (cf_db cf) (cf_password cf) (cf_prefix cf)
  else if bool_decide (k = chars "db") then mk_config (cf_host cf) (cf_port cf) (atoi v) (cf_password cf) (cf_prefix cf)
  else if bool_decide (k = chars "password") then mk_config (cf_host cf) (cf_port cf) (cf_db cf) (nonempty (Some v)) (cf_prefix cf)
  else if bool_decide (k = chars "prefix") then mk_config (cf_host cf) (cf_port cf) (cf_db cf) (cf_password cf) (nonempty (Some v))
  else cf.
Proof.
  intros Hk. unfold parse_token, setting. rewrite (strchr_app k v 61 Hk), take_app_length.
  replace (drop (S (length k)) (k ++ 61 :: v)) with v; [done|]. rewrite drop_app_ge by lia.
  by replace (S (length k) - length k)%nat with 1%nat by lia.
Qed.

(** The five settings. *)
Ltac setting_tac :=
  intros; rewrite setting_parsed by (refine (proj1 (bool_decide_eq_false _) _); vm_compute; reflexivity);
  repeat match goal with
  | |- context [bool_decide (chars ?a = chars ?b)] =>
      let E := fresh in
      first [assert (E : bool_decide (chars a = chars b) = true) by (vm_compute; reflexivity)
            |assert (E : bool_decide (chars a = chars b) = false) by (vm_compute; reflexivity)]; rewrite E; clear E
  end; reflexivity.

Lemma parse_host h p d w x v : parse_token (mk_config h p d w x) (setting (chars "host") v) = mk_config (host_of v) p d w x.
Proof. setting_tac. Qed.
Lemma parse_port h p d w x v : parse_token (mk_config h p d w x) (setting (chars "port") v) = mk_config h (atoi v) d w x.
Proof. setting_tac. Qed.
Lemma parse_db h p d w x v : parse_token (mk_config h p d w x) (setting (chars "db") v) = mk_config h p (atoi v) w x.
Proof. setting_tac. Qed.
Lemma parse_password h p d w x v : parse_token (mk_config h p d w x) (setting (chars "password") v) = mk_config h p d (nonempty (Some v)) x.
Proof. setting_tac. Qed.
Lemma parse_prefix h p d w x v : parse_token (mk_config h p d w x) (setting (chars "prefix") v) = mk_config h p d w (nonempty (Some v)).
Proof. setting_tac. Qed.

Lemma atoi_print n : 0 <= n < 2 ^ 31 → atoi (print_dec n) = n.
Proof.
  intros Hn. unfold atoi. rewrite <- (app_nil_r (print_dec n)), strtoll_print by (done || lia). simpl.
  apply s32_small. lia.
Qed.

(** The address that says every setting of a configuration. *)
Definition address_of (host : list Z) (port dbi : Z) (password prefix : list Z) : list Z :=
  joined [setting (chars "host") host; setting (chars "port") (print_dec port); setting (chars "db") (print_dec dbi);
          setting (chars "password") password] (setting (chars "prefix") prefix).

(** What an address says is what is used, whatever is in the environment: the host,
    the port, the database and, unless they are empty, the password and the prefix,
    with any characters but [&] in them. *)
Theorem redis_address_roundtrip getenv errno host port dbi password prefix :
  (length host <= 255)%nat → 0 <= port < 2 ^ 31 → 0 <= dbi < 2 ^ 31 →
  38 ∉ host → 38 ∉ password → 38 ∉ prefix →
  redis_parse_config getenv errno (Some (address_of host port dbi password prefix)) =
  mk_config host port dbi (nonempty (Some password)) (nonempty (Some prefix)).
Proof.
  intros Hlen Hp Hd H1 H2 H3. unfold redis_parse_config.
  assert (Hdig : ∀ n, 0 <= n < 2 ^ 31 → 38 ∉ print_dec n).
  { intros n Hn Hin. unfold print_dec in Hin. destruct (print_digits_spec 20 n) as [Hall _]; [change (10 ^ Z.of_nat 20) with 100000000000000000000; lia|lia|].
    rewrite Forall_forall in Hall. by specialize (Hall 38 Hin). }
  assert (Hset : ∀ k v, bool_decide (38 ∈ chars k) = false → 38 ∉ v → 38 ∉ setting (chars k) v).
  { intros k v Hk%bool_decide_eq_false Hv. unfold setting. rewrite elem_of_app, elem_of_cons. intros [?|[?|?]]; done. }
  change (nonempty (Some (address_of host port dbi password prefix))) with (Some (address_of host port dbi password prefix)).
  cbv iota. unfold address_of. rewrite split_joined.
  2: { apply Forall_cons_2; [apply Hset; [vm_compute; reflexivity|exact H1]|]. apply Forall_cons_2; [apply Hset; [vm_compute; reflexivity|by apply Hdig]|].
       apply Forall_cons_2; [apply Hset; [vm_compute; reflexivity|by apply Hdig]|]. apply Forall_cons_2; [|by apply Forall_nil_2].
       apply Hset; [vm_compute; reflexivity|exact H2]. }
  2: { apply Hset; [vm_compute; reflexivity|exact H3]. }
  cbn [app foldl]. rewrite parse_host, parse_port, parse_db, parse_password, parse_prefix, !atoi_print by assumption.
  unfold host_of. by rewrite take_ge by lia.
Qed.

(** ** A server, and a run *)

Definition yes (t : Z) : bool := true.
Definition no (t : Z) : bool := false.

(** A server that replies to everything. *)
Definition exec1 (t : Z) (cmd : redis_command) (m : contents) : option redisReply * contents :=
  match cmd with
  | CmdAuth _ | CmdSelect _ => (Some ReplyStatus, m)
  | CmdGet k => (Some (match m !! k with Some v => ReplyString v | None => ReplyNil end), m)
  | CmdSet k v => (Some ReplyStatus, <[k := v]> m)
  | CmdDel k => (Some (ReplyInteger (if decide (is_Some (m !! k)) then 1 else 0)), delete k m)
  | CmdExists k => (Some (ReplyInteger (if decide (is_Some (m !! k)) then 1 else 0)), m)
  | CmdFlushdb => (Some ReplyStatus, ∅)
  end.

Global Instance exec1_server : RedisServer exec1 id.
Proof.
  intros t cmd d reply d'. destruct cmd; intros [= <- <-]; try constructor.
  unfold id. destruct (d !! key) eqn:Hk; by constructor.
Qed.

Definition cf1 : redis_config := mk_config REDIS_DEFAULT_HOST REDIS_DEFAULT_PORT 0 None (Some (chars "p:")).
Definition key1 : list Z := chars "k".
Definition mem1 : gmap Z (list Z) := {[100 := [1; 2; 3; 4]; 200 := [0; 0; 0; 0; 0; 0]]}.

Definition no_pool : redis contents := mk_redis ∅ 0 [] cf1 [] [] [] ∅ ∅ [] [] [] 0.
Definition pool1 : redis contents := default no_pool (redis_thread_pool_create exec1 yes yes cf1 REDIS_THREAD_POOL_SIZE 0 ∅ mem1).

Definition after {db} (s : redis db) (r : res (redis db)) : redis db := match r with Ok s => s | Fault _ => s end.

(** Worker 0 from a request to its completion; the thread of context 7 after it. *)
Definition work1 : list label := replicate 6 (LWorker 0 false).
Definition calls1 : list label := [LEvent 7; LMove 7; LCall 7; LCall 7].
Definition run1 : list label :=
  [LOpen 7 true; LRequest REDIS_OP_SET 7 key1 100 4 1] ++ work1 ++ calls1 ++ [LRequest REDIS_OP_GET 7 key1 200 6 2; LWorker 0 false; LWorker 0 false].

Definition state1 : redis contents := after no_pool (play exec1 yes yes no run1 pool1).

Lemma state1_reachable : reachable exec1 yes yes no state1.
Proof.
  assert (Hp : reachable exec1 yes yes no pool1).
  { apply (reachable_start _ _ _ _ cf1 0 ∅ mem1). vm_compute. reflexivity. }
  eapply (play_reachable _ _ _ _ run1 pool1); [exact Hp|vm_compute; reflexivity|vm_compute; reflexivity].
Qed.

(** The value comes back. *)
Lemma state1_settles :
  rs_log (after no_pool (play exec1 yes yes no (replicate 4 (LWorker 0 false) ++ calls1) state1)) =
  [(7, 1, PRISKV_BACKEND_STATUS_OK, 4); (7, 2, PRISKV_BACKEND_STATUS_OK, 4)].
Proof. vm_compute. reflexivity. Qed.

(** *** The theorems at this run *)

Lemma redis_never_faults_witness :
  ∃ s', step exec1 yes yes no (LWorker 0 false) state1 = Ok s' ∧ reachable exec1 yes yes no s'.
Proof. apply redis_never_faults; [exact state1_reachable|]. intros req _ _. reflexivity. Defined.

Lemma redis_called_once_witness :
  rs_issued state1 ≡ₚ [2] ++ [1] ++ [] ∧ NoDup ([2] ++ [1] ++ [] : list Z).
Proof. apply (redis_called_once exec1 yes yes no state1). exact state1_reachable. Defined.

Lemma redis_has_connection_witness :
  (∀ i req, rs_workers state1 !! i = Some (WTask req) → (clearing state1 <= 2)%nat → ∃ j, find_idle 0 (rs_pool state1) = Some j) ∧
  ((0 <= 1)%nat → ∃ j, find_idle 0 (rs_pool state1) = Some j).
Proof. apply (redis_has_connection exec1 yes yes no state1). exact state1_reachable. Defined.

Lemma redis_settles_witness :
  (∀ n s', nsteps (goes_on exec1 yes yes no) n state1 s' → (n <= 17)%nat) ∧
  (∀ s', rtc (goes_on exec1 yes yes no) state1 s' →
     (∃ s'', goes_on exec1 yes yes no s' s'') ∨ (pending s' = [] ∧ rs_issued s' ≡ₚ called s' ++ rs_lost s')).
Proof. apply (redis_settles exec1 yes yes no state1); [exact state1_reachable|]. intros t. reflexivity. Defined.

Lemma redis_implements_tier_witness :
  ∃ s' st len t', step exec1 yes yes no (LWorker 0 false) state1 = Ok s' ∧
    rs_workers s' !! 0%nat = Some (WAnswer (mk_request REDIS_OP_GET (chars "p:k") 200 6 2 7) (0, 0) st len) ∧
    view (chars "p:") (rs_db s') t' ∧
    tier_answer (mk_request REDIS_OP_GET (chars "p:k") 200 6 2 7) key1 {[key1 := [1; 2; 3; 4]]} [0; 0; 0; 0; 0; 0] st len t'
      (buf_of (mk_request REDIS_OP_GET (chars "p:k") 200 6 2 7) s').
Proof.
  apply (redis_implements_tier exec1 yes yes no id state1 0 (mk_request REDIS_OP_GET (chars "p:k") 200 6 2 7) (0, 0) key1 {[key1 := [1; 2; 3; 4]]}).
  - exact state1_reachable.
  - exact exec1_server.
  - vm_compute. reflexivity.
  - vm_compute. reflexivity.
  - assert (Hdb : rs_db state1 = <[chars "p:" ++ key1 := [1; 2; 3; 4]]> ∅) by (vm_compute; reflexivity).
    intros k. unfold id. rewrite Hdb. apply (view_insert (chars "p:") ∅ ∅ key1). intros k'. by rewrite !lookup_empty.
Defined.

(** ** Outside the conditions *)

(** Eleven contexts clear at a time: the array of connections is moved, and the
    pointers of the first ten dangle. *)
Definition contexts11 : list Z := [1; 2; 3; 4; 5; 6; 7; 8; 9; 10; 11].
Lemma pool_growth_dangles :
  play exec1 yes yes yes (((λ c, LOpen c true) <$> contexts11) ++ (LClear <$> contexts11) ++ [LFlush 1]) pool1 = Fault UseAfterFree.
Proof. vm_compute. reflexivity. Qed.

(** A context is closed with a request on its way: the worker notifies a context
    that is gone. *)
Lemma close_dangles :
  play exec1 yes yes no ([LOpen 7 true; LRequest REDIS_OP_DEL 7 key1 0 0 1; LWorker 0 false; LClose 7] ++ replicate 5 (LWorker 0 false)) pool1 = Fault UseAfterFree.
Proof. vm_compute. reflexivity. Qed.

(** One reply gets lost: the connection has an error from then on, goes back to the
    pool, and is the first to be taken again: every later request fails, with the
    server replying on the others. *)
Definition exec_once (t : Z) (cmd : redis_command) (m : contents) : option redisReply * contents :=
  if t =? 26 then (None, m) else exec1 t cmd m.
Lemma broken_connection_stays :
  rs_log (after no_pool (play exec_once yes yes no
    ([LOpen 7 true; LRequest REDIS_OP_SET 7 key1 100 4 1] ++ work1 ++ calls1 ++ [LRequest REDIS_OP_SET 7 key1 100 4 2] ++ work1 ++ calls1 ++
     [LRequest REDIS_OP_GET 7 key1 200 6 3] ++ work1 ++ calls1) pool1)) =
  [(7, 1, PRISKV_BACKEND_STATUS_ERROR, 0); (7, 2, PRISKV_BACKEND_STATUS_ERROR, 0); (7, 3, PRISKV_BACKEND_STATUS_ERROR, 0)].
Proof. vm_compute. reflexivity. Qed.

(** A completion that cannot be allocated: nobody calls back. *)
Lemma completion_lost :
  let s := after no_pool (play exec1 yes (λ t, negb (t =? 27)) no ([LOpen 7 true; LRequest REDIS_OP_DEL 7 key1 0 0 1] ++ work1) pool1) in
  rs_issued s = [1] ∧ pending s = [] ∧ rs_log s = [] ∧ rs_workers s = replicate 8 WIdle.
Proof. vm_compute. done. Qed.

(** TEST on a key with a value of four bytes. *)
Lemma test_without_length :
  rs_log (after no_pool (play exec1 yes yes no
    ([LOpen 7 true; LRequest REDIS_OP_SET 7 key1 100 4 1] ++ work1 ++ calls1 ++ [LRequest REDIS_OP_TEST 7 key1 0 0 2] ++ work1 ++ calls1) pool1)) =
  [(7, 1, PRISKV_BACKEND_STATUS_OK, 4); (7, 2, PRISKV_BACKEND_STATUS_OK, 0)].
Proof. vm_compute. reflexivity. Qed.

(** The request of context 7 is called back by the thread of context 8. *)
Lemma callback_elsewhere :
  rs_log (after no_pool (play exec1 yes yes no
    ([LOpen 7 true; LOpen 8 true; LRequest REDIS_OP_DEL 7 key1 0 0 1; LRequest REDIS_OP_DEL 8 key1 0 0 2] ++ work1 ++ work1 ++
     [LEvent 8; LMove 8; LCall 8; LCall 8]) pool1)) =
  [(8, 1, PRISKV_BACKEND_STATUS_NOT_FOUND, 0); (8, 2, PRISKV_BACKEND_STATUS_NOT_FOUND, 0)].
Proof. vm_compute. reflexivity. Qed.

(** The address of the second device is not looked at. *)
Lemma open_keeps_config cf ctx b t d mem s :
  ∃ s', (redis_open exec1 yes yes cf ctx b t d mem (Some s)).2 = Some s' ∧ rs_cf s' = rs_cf s.
Proof. unfold redis_open, redis_context, yes. destruct b; by eexists. Qed.

(** A port that is in the environment, with an [errno] of an earlier call. *)
Lemma stale_errno :
  getenv_int_default (λ _, Some (chars "7000")) 0 "PRISKV_REDIS_PORT" REDIS_DEFAULT_PORT = 7000 ∧
  getenv_int_default (λ _, Some (chars "7000")) ERANGE "PRISKV_REDIS_PORT" REDIS_DEFAULT_PORT = REDIS_DEFAULT_PORT.
Proof. vm_compute. done. Qed.
