(* ===== verification/CMem.v ===== *)
(** * Memory of bytes

    The codec ([lib/codec.c]) walks structures by offsets that a table gives it,
    so it is modelled on memory as C has it: blocks of bytes, in which integers
    are stored byte by byte, pointers as their fragments. What the C library does
    with memory ([malloc], [calloc], [strdup], [free]) is defined here. *)

From S2P Require Import Prelude State.

(** ** Blocks *)

(** A location is a block and an offset in it; [None] is [NULL]. *)
Notation loc := (Z * Z)%type.
Notation ptr := (option (Z * Z)).

(** A byte of memory: a value, the [i]-th byte of a pointer, or not written yet. *)
Inductive mbyte :=
  | MByte (b : Z)
  | MFrag (l : loc) (i : nat)
  | MUndef.

Global Instance mbyte_eq_dec : EqDecision mbyte.
Proof. solve_decision. Defined.

Notation block := (list mbyte).
Notation heap := (gmap Z (list mbyte)).

(** [base + off] of a pointer. *)
Definition padd (l : loc) (off : Z) : loc := (l.1, l.2 + off).

Definition in_block (bk : block) (off n : Z) : bool :=
  (0 <=? off) && (off + n <=? Z.of_nat (length bk)).

Definition ld (h : heap) (l : loc) (n : nat) : res (list mbyte) :=
  match h !! l.1 with
  | None => Fault UseAfterFree
  | Some bk =>
      if in_block bk l.2 (Z.of_nat n) then Ok (take n (drop (Z.to_nat l.2) bk)) else Fault OutOfBounds
  end.

Definition overwrite (bk : block) (off : nat) (bs : list mbyte) : block :=
  take off bk ++ bs ++ drop (off + length bs) bk.

Definition sto (h : heap) (l : loc) (bs : list mbyte) : res heap :=
  match h !! l.1 with
  | None => Fault UseAfterFree
  | Some bk =>
      if in_block bk l.2 (Z.of_nat (length bs)) then Ok (<[l.1 := overwrite bk (Z.to_nat l.2) bs]> h)
      else Fault OutOfBounds
  end.

(** ** Values in bytes *)

(** Little endian. *)
Fixpoint le_split (n : nat) (z : Z) : list Z :=
  match n with O => [] | S n => z mod 256 :: le_split n (z / 256) end.

Fixpoint le_combine (bs : list Z) : Z :=
  match bs with [] => 0 | b :: bs => b + 256 * le_combine bs end.

Definition enc_int (n : nat) (z : Z) : list mbyte := MByte <$> le_split n z.
Definition enc_ptr (p : ptr) : list mbyte :=
  match p with None => replicate 8 (MByte 0) | Some l => MFrag l <$> seq 0 8 end.

(** The values of bytes, of eight bits; a byte that was not written has none. *)
Definition byte_of (m : mbyte) : res Z := match m with MByte b => Ok (u8 b) | _ => Fault Uninitialised end.

Fixpoint bytes_of (bs : list mbyte) : res (list Z) :=
  match bs with [] => Ok [] | m :: bs => b ← byte_of m; l ← bytes_of bs; Ok (b :: l) end.

Definition dec_int (bs : list mbyte) : res Z := l ← bytes_of bs; Ok (le_combine l).

Definition dec_ptr (bs : list mbyte) : res ptr :=
  if bool_decide (bs = enc_ptr None) then Ok None
  else match bs with
       | MFrag l _ :: _ => if bool_decide (bs = enc_ptr (Some l)) then Ok (Some l) else Fault Uninitialised
       | _ => Fault Uninitialised
       end.

(** A C string: the bytes before the first zero. *)
Fixpoint cstring_of (bs : list mbyte) : res (list Z) :=
  match bs with
  | [] => Fault OutOfBounds
  | m :: bs => b ← byte_of m; if b =? 0 then Ok [] else l ← cstring_of bs; Ok (b :: l)
  end.

(** ** Typed accesses *)

Definition ld_bool (h : heap) (l : loc) : res bool := bs ← ld h l 1; z ← dec_int bs; Ok (negb (z =? 0)).
Definition ld_int (h : heap) (l : loc) : res Z := bs ← ld h l 4; z ← dec_int bs; Ok (s32 z).
Definition ld_u64 (h : heap) (l : loc) : res Z := bs ← ld h l 8; dec_int bs.
Definition ld_ptr (h : heap) (l : loc) : res ptr := bs ← ld h l 8; dec_ptr bs.

(** The string at a pointer that is not [NULL]. *)
Definition ld_string (h : heap) (l : loc) : res (list Z) :=
  match h !! l.1 with
  | None => Fault UseAfterFree
  | Some bk => if in_block bk l.2 0 then cstring_of (drop (Z.to_nat l.2) bk) else Fault OutOfBounds
  end.

Definition enc_bool (b : bool) : list mbyte := enc_int 1 (if b then 1 else 0).

(** The bytes of a string as [strdup] and [snprintf] copy it: up to the first zero. *)
Definition enc_string (s : list Z) : block := MByte <$> until_nul (u8 <$> s) ++ [0].

(** [free]: [NULL] is left alone, anything else must be the start of a live block. *)
Definition release (h : heap) (p : ptr) : res heap :=
  match p with
  | None => Ok h
  | Some l =>
      match h !! l.1 with
      | None => Fault UseAfterFree
      | Some _ => if l.2 =? 0 then Ok (delete l.1 h) else Fault OutOfBounds
      end
  end.

(** ** Integers *)

Lemma le_combine_split n : ∀ z, le_combine (le_split n z) = z mod 256 ^ Z.of_nat n.
Proof.
  induction n as [|n IH]; intros z; [by rewrite Z.mod_1_r|]. cbn [le_split le_combine].
  rewrite IH, Nat2Z.inj_succ, Z.pow_succ_r by lia.
  rewrite Z.rem_mul_r by lia. lia.
Qed.

Lemma length_le_split n : ∀ z, length (le_split n z) = n.
Proof. induction n; intros z; simpl; auto. Qed.

Lemma bytes_of_MByte l : bytes_of (MByte <$> l) = Ok (u8 <$> l).
Proof. induction l as [|b l IH]; [done|]. csimpl. by rewrite IH. Qed.

Lemma u8_le_split n : ∀ z, u8 <$> le_split n z = le_split n z.
Proof. induction n as [|n IH]; intros z; [done|]. csimpl. rewrite IH. unfold u8. by rewrite Z.mod_mod by lia. Qed.

Lemma bytes_of_range bs : ∀ l, bytes_of bs = Ok l → length l = length bs ∧ Forall (λ c, 0 <= c < 256) l.
Proof.
  induction bs as [|m bs IH]; intros l; cbn; [by intros [= <-]|].
  intros Hl. apply bind_Ok in Hl as (b & Hb & Hl). apply bind_Ok in Hl as (l' & Hl' & Hl). injection Hl as <-.
  destruct (IH _ Hl') as [Hlen Hr]. split; [cbn; by rewrite Hlen|]. constructor; [|done].
  destruct m; try done. injection Hb as <-. apply Z.mod_pos_bound. lia.
Qed.

Lemma le_combine_range l : Forall (λ c, 0 <= c < 256) l → 0 <= le_combine l < 256 ^ Z.of_nat (length l).
Proof.
  induction 1 as [|c l Hc _ IH]; [done|]. cbn [le_combine length]. rewrite Nat2Z.inj_succ, Z.pow_succ_r by lia. lia.
Qed.

Lemma le_combine_app l1 l2 : le_combine (l1 ++ l2) = le_combine l1 + 256 ^ Z.of_nat (length l1) * le_combine l2.
Proof.
  induction l1 as [|c l1 IH]; [by cbn; lia|]. cbn [le_combine length app]. rewrite IH, Nat2Z.inj_succ, Z.pow_succ_r by lia. lia.
Qed.

Lemma bytes_of_app bs1 bs2 l : bytes_of (bs1 ++ bs2) = Ok l →
  ∃ l1 l2, bytes_of bs1 = Ok l1 ∧ bytes_of bs2 = Ok l2 ∧ l = l1 ++ l2.
Proof.
  revert l. induction bs1 as [|m bs1 IH]; intros l Hl; [by exists [], l|]. cbn in Hl |- *.
  apply bind_Ok in Hl as (b & Hb & Hl). apply bind_Ok in Hl as (l' & Hl' & Hl). injection Hl as <-.
  destruct (IH _ Hl') as (l1 & l2 & -> & -> & ->). rewrite Hb. by eexists _, _.
Qed.

Lemma dec_enc_int n z : dec_int (enc_int n z) = Ok (z mod 256 ^ Z.of_nat n).
Proof. unfold dec_int, enc_int. rewrite bytes_of_MByte, u8_le_split. simpl. by rewrite le_combine_split. Qed.

Lemma length_enc_int n z : length (enc_int n z) = n.
Proof. unfold enc_int. by rewrite length_fmap, length_le_split. Qed.

Lemma length_enc_ptr p : length (enc_ptr p) = 8%nat.
Proof. by destruct p. Qed.

Lemma dec_enc_ptr p : dec_ptr (enc_ptr p) = Ok p.
Proof.
  destruct p as [l|]; [|done]. unfold dec_ptr. rewrite bool_decide_false by done. simpl.
  by rewrite bool_decide_true by done.
Qed.

Lemma s32_id z : - 2 ^ 31 <= z < 2 ^ 31 → s32 z = z.
Proof. intros Hz. unfold s32. destruct (Z.ltb_spec (z mod 2 ^ 32) (2 ^ 31)); dlia. Qed.

Lemma s32_range z : - 2 ^ 31 <= s32 z < 2 ^ 31.
Proof. unfold s32. destruct (Z.ltb_spec (z mod 2 ^ 32) (2 ^ 31)); dlia. Qed.

Lemma s32_mod z : s32 (z mod 2 ^ 32) = s32 z.
Proof. unfold s32. by rewrite Z.mod_mod by lia. Qed.

(** ** Strings *)

Definition no_nul (s : list Z) : Prop := Forall (λ c, 0 < c < 256) s.

Lemma until_nul_no_nul s : Forall (λ c, 0 <= c < 256) s → no_nul (until_nul s).
Proof.
  unfold no_nul. induction 1 as [|c s Hc _ IH]; simpl; [done|].
  destruct (Z.eqb_spec c 0); [done|]. constructor; [lia|done].
Qed.

Lemma until_nul_id s : no_nul s → until_nul s = s.
Proof.
  unfold no_nul. induction 1 as [|c s Hc _ IH]; simpl; [done|].
  destruct (Z.eqb_spec c 0); [lia|]. by rewrite IH.
Qed.

Lemma u8_bytes s : Forall (λ c, 0 <= c < 256) (u8 <$> s).
Proof. apply Forall_fmap, Forall_true. intros c. unfold compose, u8. apply Z.mod_pos_bound. lia. Qed.

Lemma u8_id s : no_nul s → u8 <$> s = s.
Proof.
  unfold no_nul. induction 1 as [|c s Hc _ IH]; csimpl; [done|]. rewrite IH. f_equal.
  unfold u8. rewrite Z.mod_small; lia.
Qed.

(** What [strdup] makes of any text. *)
Definition cstr (s : list Z) : list Z := until_nul (u8 <$> s).

Lemma cstr_no_nul s : no_nul (cstr s).
Proof. apply until_nul_no_nul, u8_bytes. Qed.

Lemma cstr_id s : no_nul s → cstr s = s.
Proof. intros Hs. unfold cstr. by rewrite u8_id, until_nul_id. Qed.

Lemma cstring_of_enc s rest : no_nul s → cstring_of ((MByte <$> s ++ [0]) ++ rest) = Ok s.
Proof.
  unfold no_nul. induction 1 as [|c s Hc _ IH]; [done|]. csimpl in *.
  replace (u8 c) with c by (unfold u8; rewrite Z.mod_small; lia).
  destruct (Z.eqb_spec c 0); [lia|]. by rewrite IH.
Qed.

Lemma cstring_of_enc_string s : cstring_of (enc_string s) = Ok (cstr s).
Proof.
  unfold enc_string. rewrite <- (app_nil_r (MByte <$> _)).
  apply cstring_of_enc, cstr_no_nul.
Qed.

(** ** Reading what was written *)

Lemma in_block_spec bk off n : in_block bk off n = true ↔ 0 <= off ∧ off + n <= Z.of_nat (length bk).
Proof. unfold in_block. rewrite andb_true_iff, !Z.leb_le. done. Qed.

(** A range of a block that can be accessed. *)
Definition valid (h : heap) (l : loc) (n : Z) : Prop :=
  ∃ bk, h !! l.1 = Some bk ∧ 0 <= l.2 ∧ l.2 + n <= Z.of_nat (length bk).

Lemma ld_Ok h l n bk :
  h !! l.1 = Some bk → 0 <= l.2 → l.2 + Z.of_nat n <= Z.of_nat (length bk) →
  ld h l n = Ok (take n (drop (Z.to_nat l.2) bk)).
Proof. intros Hbk H1 H2. unfold ld. rewrite Hbk. by rewrite (proj2 (in_block_spec _ _ _)). Qed.

Lemma ld_inv h l n bs : ld h l n = Ok bs →
  ∃ bk, h !! l.1 = Some bk ∧ 0 <= l.2 ∧ l.2 + Z.of_nat n <= Z.of_nat (length bk) ∧
        bs = take n (drop (Z.to_nat l.2) bk).
Proof.
  unfold ld. destruct (h !! l.1) as [bk|]; [|done].
  destruct (in_block bk l.2 (Z.of_nat n)) eqn:Hin; [|done].
  apply in_block_spec in Hin as [? ?]. intros [= <-]. eauto.
Qed.

Lemma ld_block h h' l n : h' !! l.1 = h !! l.1 → ld h' l n = ld h l n.
Proof. unfold ld. by intros ->. Qed.

Lemma ld_string_block h h' l : h' !! l.1 = h !! l.1 → ld_string h' l = ld_string h l.
Proof. unfold ld_string. by intros ->. Qed.

Lemma length_overwrite bk off bs : (off + length bs <= length bk)%nat → length (overwrite bk off bs) = length bk.
Proof. intros H. unfold overwrite. rewrite !length_app, length_take, length_drop. lia. Qed.

Lemma sto_Ok h l bs bk :
  h !! l.1 = Some bk → 0 <= l.2 → l.2 + Z.of_nat (length bs) <= Z.of_nat (length bk) →
  sto h l bs = Ok (<[l.1 := overwrite bk (Z.to_nat l.2) bs]> h).
Proof. intros Hbk H1 H2. unfold sto. rewrite Hbk. by rewrite (proj2 (in_block_spec _ _ _)). Qed.

Lemma overwrite_read bk off bs :
  (off + length bs <= length bk)%nat → take (length bs) (drop off (overwrite bk off bs)) = bs.
Proof.
  intros H. unfold overwrite. rewrite drop_app_length' by (rewrite length_take; lia). by rewrite take_app_length.
Qed.

Lemma overwrite_apart bk off bs o n :
  (off + length bs <= length bk)%nat → (o + n <= off ∨ off + length bs <= o)%nat →
  take n (drop o (overwrite bk off bs)) = take n (drop o bk).
Proof.
  intros H Hap. apply list_eq. intros i. destruct (decide (i < n)%nat) as [Hi|Hi].
  - rewrite !lookup_take_lt, !lookup_drop by done. unfold overwrite. destruct Hap.
    + rewrite lookup_app_l by (rewrite length_take; lia). by rewrite lookup_take_lt by lia.
    + rewrite lookup_app_r by (rewrite length_take; lia). rewrite length_take.
      rewrite lookup_app_r by lia. rewrite lookup_drop. f_equal. lia.
  - by rewrite !lookup_take_ge by lia.
Qed.

(** A store: it succeeds in a valid range, and what it changes. *)
Lemma sto_spec h l bs : valid h l (Z.of_nat (length bs)) →
  ∃ h', sto h l bs = Ok h' ∧ ld h' l (length bs) = Ok bs ∧
    (∀ a, a ≠ l.1 → h' !! a = h !! a) ∧
    length <$> h' !! l.1 = length <$> h !! l.1 ∧
    (∀ o n, o + Z.of_nat n <= l.2 ∨ l.2 + Z.of_nat (length bs) <= o →
       ld h' (l.1, o) n = ld h (l.1, o) n).
Proof.
  intros (bk & Hbk & H1 & H2). eexists. split; [by eapply sto_Ok|].
  assert (length (overwrite bk (Z.to_nat l.2) bs) = length bk) as Hlen by (apply length_overwrite; lia).
  split; [|split; [|split]].
  - erewrite ld_Ok; [|apply lookup_insert_eq|done|by rewrite Hlen]. rewrite overwrite_read; [done|lia].
  - intros a Ha. by rewrite lookup_insert_ne by done.
  - rewrite lookup_insert_eq, Hbk. simpl. by rewrite Hlen.
  - intros o n Hap. unfold ld. simpl. rewrite lookup_insert_eq, Hbk. unfold in_block. rewrite Hlen.
    destruct (Z.leb_spec 0 o); [|done]. destruct (Z.leb_spec (o + Z.of_nat n) (Z.of_nat (length bk))); [|done]. simpl.
    f_equal. apply overwrite_apart; lia.
Qed.

(** Ranges of a structure at [l] that are the same in two heaps. *)
Definition agree (h h' : heap) (l : loc) (n : Z) : Prop :=
  ∀ o m, 0 <= o → o + Z.of_nat m <= n → ld h' (padd l o) m = ld h (padd l o) m.

Lemma padd_padd l o o' : padd (padd l o) o' = padd l (o + o').
Proof. unfold padd. simpl. f_equal. lia. Qed.

Lemma padd_0 l : padd l 0 = l.
Proof. destruct l. unfold padd. simpl. f_equal. lia. Qed.

Lemma agree_sub h h' l n o m : agree h h' l n → 0 <= o → o + m <= n → agree h h' (padd l o) m.
Proof. intros Ha Ho Hm o' m' Ho' Hm'. rewrite padd_padd. apply Ha; lia. Qed.

Lemma agree_block h h' l n : h' !! l.1 = h !! l.1 → agree h h' l n.
Proof. intros Hb o m _ _. by apply ld_block. Qed.

(** A range that is all zero. *)
Definition zeroed (h : heap) (l : loc) (n : Z) : Prop :=
  ∀ o m, 0 <= o → o + Z.of_nat m <= n → ld h (padd l o) m = Ok (replicate m (MByte 0)).

Lemma zeroed_sub h l n o m : zeroed h l n → 0 <= o → o + m <= n → zeroed h (padd l o) m.
Proof. intros Ha Ho Hm o' m' Ho' Hm'. rewrite padd_padd. apply Ha; lia. Qed.

Lemma zeroed_agree h h' l n : agree h h' l n → zeroed h l n → zeroed h' l n.
Proof. intros Ha Hz o m Ho Hm. rewrite Ha by done. by apply Hz. Qed.

Lemma zeroed_valid h l n : zeroed h l n → 0 <= n → valid h l n.
Proof.
  intros Hz Hn. specialize (Hz 0 (Z.to_nat n)). rewrite padd_0 in Hz.
  apply ld_inv in Hz as (bk & Hbk & H1 & H2 & _); [|lia..]. exists bk. split; [done|]. lia.
Qed.

Lemma zeroed_fresh h a n : zeroed (<[a := replicate n (MByte 0)]> h) (a, 0) (Z.of_nat n).
Proof.
  intros o m Ho Hm. erewrite ld_Ok; [|apply lookup_insert_eq|simpl; lia|rewrite length_replicate; simpl; lia].
  rewrite drop_replicate, take_replicate. do 2 f_equal. simpl. lia.
Qed.

(** The typed reads of zeros and of what was stored. *)
Lemma ld_zero h l n : zeroed h l n →
  (1 <= n → ld_bool h l = Ok false) ∧ (4 <= n → ld_int h l = Ok 0) ∧
  (8 <= n → ld_u64 h l = Ok 0 ∧ ld_ptr h l = Ok None).
Proof.
  intros Hz. unfold ld_bool, ld_int, ld_u64, ld_ptr.
  assert (∀ m, Z.of_nat m <= n → ld h l m = Ok (replicate m (MByte 0))) as Hld.
  { intros m Hm. rewrite <- (padd_0 l). apply Hz; lia. }
  split; [|split]; intros Hn; by rewrite Hld by lia.
Qed.

Lemma ld_stored_bool h l b : ld h l 1 = Ok (enc_bool b) → ld_bool h l = Ok b.
Proof. intros Hld. unfold ld_bool. rewrite Hld. by destruct b. Qed.

Lemma ld_stored_int h l z : - 2 ^ 31 <= z < 2 ^ 31 → ld h l 4 = Ok (enc_int 4 z) → ld_int h l = Ok z.
Proof.
  intros Hz Hld. unfold ld_int. rewrite Hld, Ok_bind, dec_enc_int, Ok_bind.
  change (256 ^ Z.of_nat 4) with (2 ^ 32). by rewrite s32_mod, s32_id.
Qed.

Lemma ld_stored_u64 h l z : 0 <= z < 2 ^ 64 → ld h l 8 = Ok (enc_int 8 z) → ld_u64 h l = Ok z.
Proof.
  intros Hz Hld. unfold ld_u64. rewrite Hld, Ok_bind, dec_enc_int.
  change (256 ^ Z.of_nat 8) with (2 ^ 64). by rewrite Z.mod_small.
Qed.

Lemma ld_stored_ptr h l p : ld h l 8 = Ok (enc_ptr p) → ld_ptr h l = Ok p.
Proof. intros Hld. unfold ld_ptr. by rewrite Hld, Ok_bind, dec_enc_ptr. Qed.

Lemma ld_stored_string h a s : h !! a = Some (enc_string s) → ld_string h (a, 0) = Ok (cstr s).
Proof.
  intros Ha. unfold ld_string. simpl. rewrite Ha. rewrite (proj2 (in_block_spec _ _ _)) by lia.
  change (Z.to_nat 0) with 0%nat. rewrite drop_0. apply cstring_of_enc_string.
Qed.

(** The count of an array is stored with eight bytes and read with four. *)
Lemma ld_u64_range h l z : ld_u64 h l = Ok z → 0 <= z < 2 ^ 64.
Proof.
  unfold ld_u64, dec_int. intros Hz. apply bind_Ok in Hz as (bs & Hld & Hz). apply bind_Ok in Hz as (bl & Hb & [= <-]).
  apply bytes_of_range in Hb as [Hlen Hr]. apply le_combine_range in Hr. rewrite Hlen in Hr.
  apply ld_inv in Hld as (bk & _ & ? & ? & ->). rewrite length_take, length_drop in Hr.
  replace (8 `min` (length bk - Z.to_nat l.2))%nat with 8%nat in Hr by lia. exact Hr.
Qed.

Lemma ld_int_u64 h l z : ld_u64 h l = Ok z → z < 2 ^ 31 → ld_int h l = Ok z.
Proof.
  intros Hz Hlt. pose proof (ld_u64_range _ _ _ Hz) as Hpos. unfold ld_u64, ld_int, dec_int in *.
  apply bind_Ok in Hz as (bs & Hld & Hz). apply bind_Ok in Hz as (bl & Hb & [= <-]).
  apply ld_inv in Hld as (bk & Hbk & H1 & H2 & ->).
  rewrite (ld_Ok h l 4 bk) by (done || lia). rewrite Ok_bind.
  rewrite <- (take_drop 4 (take 8 _)) in Hb. rewrite take_take in Hb. change (4 `min` 8)%nat with 4%nat in Hb.
  apply bytes_of_app in Hb as (l1 & l2 & Hb1 & _ & ->). rewrite Hb1, Ok_bind, Ok_bind. f_equal.
  apply bytes_of_range in Hb1 as [Hlen Hr]. rewrite le_combine_app in *.
  assert (length l1 = 4%nat) as Hl1 by (rewrite Hlen, length_take, length_drop; lia).
  rewrite Hl1 in *. change (256 ^ Z.of_nat 4) with (2 ^ 32) in *.
  rewrite <- (s32_mod (le_combine l1)). replace (le_combine l1 mod 2 ^ 32) with ((le_combine l1 + 2 ^ 32 * le_combine l2) mod 2 ^ 32).
  - rewrite s32_mod. apply s32_id. lia.
  - rewrite Z.mul_comm, Z.mod_add; lia.
Qed.
