(* ===== verification/Codec.v ===== *)
(** * The JSON codec

    [lib/codec.c] translates between structures in memory and JSON text, by a
    table that gives for every field its name, its offset, the table of its type,
    and whether it is required when a structure is read and left out when it is
    zero. The tables of [server/jsonobjs.c] and [cluster/client/jsonobjs.c] are at
    the end. The library json-c is the class [JsonC]: its functions as parameters.
    [CodecProps] proves what is written here against [JsonLaws]. *)

From S2P Require Import Prelude State CString CMem.
From Stdlib Require String Ascii.

(** The bytes of a literal. *)
Fixpoint str (s : string) : list Z :=
  match s with
  | String.EmptyString => []
  | String.String c s => Z.of_N (Ascii.N_of_ascii c) :: str s
  end.

Local Open Scope string_scope.
Local Open Scope Z_scope.

(** ** Tables of types *)

Inductive priskv_object_type :=
  | priskv_obj_type_boolean
  | priskv_obj_type_int
  | priskv_obj_type_uint64
  | priskv_obj_type_string
  | priskv_obj_type_object
  | priskv_obj_type_max.

Inductive priskv_object_field_type :=
  | priskv_obj_field_type_value
  | priskv_obj_field_type_array.

Record priskv_object_field (O : Type) := mk_field {
  f_type : priskv_object_field_type;
  f_name : list Z;
  f_offset : Z;
  f_noffset : Z;
  f_obj : O;
  f_required : bool;
  f_ignored : bool
}.
Arguments mk_field {O}.
Arguments f_type {O}.
Arguments f_name {O}.
Arguments f_offset {O}.
Arguments f_noffset {O}.
Arguments f_obj {O}.
Arguments f_required {O}.
Arguments f_ignored {O}.

#[warnings="-register-all"]
Inductive priskv_object := mk_object (type : priskv_object_type) (size : Z) (fields : list (priskv_object_field priskv_object)).

Notation field := (priskv_object_field priskv_object).

Definition o_type (o : priskv_object) : priskv_object_type := let '(mk_object t _ _) := o in t.
Definition o_size (o : priskv_object) : Z := let '(mk_object _ n _) := o in n.
Definition o_fields (o : priskv_object) : list field := let '(mk_object _ _ fs) := o in fs.

Definition priskv_boolean_obj : priskv_object := mk_object priskv_obj_type_boolean 1 [].
Definition priskv_int_obj : priskv_object := mk_object priskv_obj_type_int 4 [].
Definition priskv_uint64_obj : priskv_object := mk_object priskv_obj_type_uint64 8 [].
Definition priskv_string_obj : priskv_object := mk_object priskv_obj_type_string 8 [].

(** ** json-c *)

Inductive json_type :=
  | json_type_null
  | json_type_boolean
  | json_type_double
  | json_type_int
  | json_type_object
  | json_type_array
  | json_type_string.

Global Instance json_type_eq_dec : EqDecision json_type.
Proof. solve_decision. Defined.

(** A [json_object *] is an [option json]: [None] is [NULL], which is also the JSON
    value null. A constructor that fails returns [NULL]; adding to an object or an
    array gives the changed one, or [None] where the library returns -1. Parsing
    gives the description of the error too. *)
Class JsonC := {
  json : Type;
  json_object_get_type : option json → json_type;
  json_object_get_boolean : option json → bool;
  json_object_get_int : option json → Z;
  json_object_get_uint64 : option json → Z;
  json_object_get_string : option json → list Z;
  json_object_object_get : option json → list Z → option json;
  json_object_array_length : option json → Z;
  json_object_array_get_idx : option json → Z → option json;
  json_object_new_boolean : bool → option json;
  json_object_new_int : Z → option json;
  json_object_new_uint64 : Z → option json;
  json_object_new_string : list Z → option json;
  json_object_new_object : option json;
  json_object_new_array_ext : Z → option json;
  json_object_object_add : json → list Z → json → option json;
  json_object_array_add : json → json → option json;
  json_object_to_json_string : json → list Z;
  json_tokener_parse_verbose : list Z → option json * list Z
}.

(** ** State: memory, the number of the next allocation, the codec's error *)

Record cstate := CS {
  c_heap : heap;
  c_next : Z;
  c_error : list Z
}.

Definition MAX_STRING_SIZE : nat := 255.

Section codec.
Context {JC : JsonC}.

(** Whether the n-th allocation succeeds, and what [strerror(errno)] says. *)
Context (avail : Z → bool) (strerror_errno : list Z).

Notation M := (ST cstate).

(** [vsnprintf] writes at most [MAX_STRING_SIZE] bytes, the last one a zero. *)
Definition __priskv_codec_set_error (msg : list Z) : M unit :=
  modify (λ s, CS (c_heap s) (c_next s) (take (MAX_STRING_SIZE - 1) (cstr msg))).

Definition priskv_codec_get_error : M (list Z) := s ← get; mret (c_error s).

(** [set_error] and [return -1], the end of every branch that fails. *)
Definition fails (msg : list Z) : M Z := _ ← __priskv_codec_set_error msg; mret (-1).

Definition new_block (bk : block) : M ptr := λ s,
  let n := c_next s in
  if avail n then Ok (Some (n, 0), CS (<[n := bk]> (c_heap s)) (n + 1) (c_error s))
  else Ok (None, CS (c_heap s) (n + 1) (c_error s)).

Definition malloc (n : Z) : M ptr := new_block (replicate (Z.to_nat n) MUndef).
Definition calloc (n sz : Z) : M ptr := new_block (replicate (Z.to_nat (n * sz)) (MByte 0)).
Definition strdup (s : list Z) : M ptr := new_block (enc_string s).

(** A pointer plus an offset; [NULL] stays invalid. *)
Definition pplus (p : ptr) (off : Z) : ptr := p ≫= λ l, Some (padd l off).

Definition store (p : ptr) (bs : list mbyte) : M unit := λ s,
  match p with
  | None => Fault NullDeref
  | Some l => h ← sto (c_heap s) l bs; Ok (tt, CS h (c_next s) (c_error s))
  end.

Definition load {A} (f : heap → loc → res A) (p : ptr) : M A := λ s,
  match p with None => Fault NullDeref | Some l => a ← f (c_heap s) l; Ok (a, s) end.

Definition free (p : ptr) : M unit := λ s,
  h ← release (c_heap s) p; Ok (tt, CS h (c_next s) (c_error s)).

(** ** Loops that stop at the first failure *)

Definition for_all {A} (body : A → M Z) : list A → M Z :=
  fix go l := match l with
              | [] => mret 0
              | x :: l => r ← body x; if r <? 0 then mret r else go l
              end.

(** ** Reading a structure from JSON *)

Definition __priskv_decode_boolean (jobj : option json) (data : ptr) : M Z :=
  if decide (json_object_get_type jobj ≠ json_type_boolean) then fails (str "type is not boolean")
  else _ ← store data (enc_bool (json_object_get_boolean jobj)); mret 0.

Definition __priskv_decode_int (jobj : option json) (data : ptr) : M Z :=
  if decide (json_object_get_type jobj ≠ json_type_int) then fails (str "type is not int")
  else _ ← store data (enc_int 4 (json_object_get_int jobj)); mret 0.

Definition __priskv_decode_uint64 (jobj : option json) (data : ptr) : M Z :=
  if decide (json_object_get_type jobj ≠ json_type_int) then fails (str "type is not int")
  else _ ← store data (enc_int 8 (json_object_get_uint64 jobj)); mret 0.

Definition __priskv_decode_string (jobj : option json) (data : ptr) : M Z :=
  if decide (json_object_get_type jobj ≠ json_type_string) then fails (str "type is not string")
  else p ← strdup (json_object_get_string jobj); _ ← store data (enc_ptr p); mret 0.

(** [decode_obj] is [__priskv_decode_obj] at the table of the value. *)
Definition __priskv_decode_object (decode_obj : option json → ptr → M Z) (jobj : option json) (data : ptr) : M Z :=
  if decide (json_object_get_type jobj ≠ json_type_object) then fails (str "type is not object")
  else decode_obj jobj data.

(** The table of decoders; callers have checked that the type has an entry. *)
Definition priskv_value_decode (t : priskv_object_type) (decode_obj : option json → ptr → M Z)
    (jobj : option json) (data : ptr) : M Z :=
  match t with
  | priskv_obj_type_boolean => __priskv_decode_boolean jobj data
  | priskv_obj_type_int => __priskv_decode_int jobj data
  | priskv_obj_type_uint64 => __priskv_decode_uint64 jobj data
  | priskv_obj_type_string => __priskv_decode_string jobj data
  | priskv_obj_type_object => __priskv_decode_object decode_obj jobj data
  | priskv_obj_type_max => lift (Fault OutOfBounds)
  end.

Definition unknown_type (f : field) : list Z :=
  (str "unknown object type [5] for `" ++ f_name f ++ str "`")%list.

(** The elements of an array. *)
Definition decode_element (value_decode : option json → ptr → M Z) (f : field) (field_obj : option json)
    (data : ptr) (j : Z) : M Z :=
  base ← load ld_ptr (pplus data (f_offset f));
  r ← value_decode (json_object_array_get_idx field_obj j) (pplus base (o_size (f_obj f) * j));
  if r <? 0 then
    e ← priskv_codec_get_error;
    _ ← __priskv_codec_set_error (str "failed to decode array `" ++ f_name f ++ str "`: " ++ e)%list;
    base ← load ld_ptr (pplus data (f_offset f));
    _ ← free base;
    mret (-1)
  else mret 0.

Definition decode_array (value_decode : option json → ptr → M Z) (f : field) (field_obj : option json)
    (data : ptr) : M Z :=
  if decide (json_object_get_type field_obj ≠ json_type_array) then
    fails (str "failed to decode `" ++ f_name f ++ str "`: type is not array")%list
  else
    let len := json_object_array_length field_obj in
    _ ← store (pplus data (f_noffset f)) (enc_int 8 len);
    p ← calloc len (o_size (f_obj f));
    _ ← store (pplus data (f_offset f)) (enc_ptr p);
    for_all (decode_element value_decode f field_obj data) (seqZ 0 len).

(** A round of the loop over the fields. *)
Definition decode_field (value_decode : option json → ptr → M Z) (f : field) (jobj : option json) (data : ptr) : M Z :=
  let field_obj := json_object_object_get jobj (f_name f) in
  match field_obj with
  | None =>
      if f_required f then fails (str "not found `" ++ f_name f ++ str "` that is required")%list else mret 0
  | Some _ =>
      match o_type (f_obj f) with
      | priskv_obj_type_max => fails (unknown_type f)
      | _ =>
          match f_type f with
          | priskv_obj_field_type_value =>
              r ← value_decode field_obj (pplus data (f_offset f));
              if r <? 0 then
                e ← priskv_codec_get_error;
                fails (str "failed to decode `" ++ f_name f ++ str "`: " ++ e)%list
              else mret 0
          | priskv_obj_field_type_array => decode_array value_decode f field_obj data
          end
      end
  end.

Fixpoint __priskv_decode_obj (obj : priskv_object) (jobj : option json) (data : ptr) : M Z :=
  match obj with
  | mk_object _ _ fields =>
      match jobj, data with
      | None, _ => fails (str "json object is null")
      | _, None => fails (str "data is null")
      | Some _, Some _ =>
          for_all (λ f, decode_field (priskv_value_decode (o_type (f_obj f)) (__priskv_decode_obj (f_obj f))) f jobj data)
            fields
      end
  end.

Definition priskv_codec_decode (text : option (list Z)) (obj : option priskv_object) : M ptr :=
  match text, obj with
  | None, _ => _ ← __priskv_codec_set_error (str "string is empty"); mret None
  | _, None => _ ← __priskv_codec_set_error (str "object is empty"); mret None
  | Some text, Some obj =>
      match json_tokener_parse_verbose text with
      | (None, desc) => _ ← __priskv_codec_set_error (str "failed to parse json: " ++ desc)%list; mret None
      | (Some j, _) =>
          data ← malloc (o_size obj);
          _ ← store data (replicate (Z.to_nat (o_size obj)) (MByte 0));
          r ← __priskv_decode_obj obj (Some j) data;
          if r <? 0 then _ ← free data; mret None else mret data
      end
  end.

(** ** Freeing a structure *)

Definition __priskv_decode_clean (data : ptr) : M Z := mret 0.
Definition __priskv_decode_string_clean (data : ptr) : M Z := p ← load ld_ptr data; _ ← free p; mret 0.
Definition __priskv_decode_object_clean (free_struct : ptr → M Z) (data : ptr) : M Z := free_struct data.

Definition priskv_value_decode_clean (t : priskv_object_type) (free_struct : ptr → M Z) (data : ptr) : M Z :=
  match t with
  | priskv_obj_type_string => __priskv_decode_string_clean data
  | priskv_obj_type_object => __priskv_decode_object_clean free_struct data
  | priskv_obj_type_max => lift (Fault OutOfBounds)
  | _ => __priskv_decode_clean data
  end.

Definition clean_element (clean : ptr → M Z) (f : field) (data : ptr) (j : Z) : M Z :=
  base ← load ld_ptr (pplus data (f_offset f));
  ret ← clean (pplus base (o_size (f_obj f) * j));
  if negb (ret =? 0) then
    e ← priskv_codec_get_error;
    fails (str "failed to clean array element `" ++ f_name f ++ str "`: " ++ e)%list
  else mret 0.

Definition clean_field (clean : ptr → M Z) (f : field) (data : ptr) : M Z :=
  match o_type (f_obj f) with
  | priskv_obj_type_max => fails (unknown_type f)
  | _ =>
      match f_type f with
      | priskv_obj_field_type_value =>
          ret ← clean (pplus data (f_offset f));
          if negb (ret =? 0) then
            e ← priskv_codec_get_error;
            fails (str "failed to clean `" ++ f_name f ++ str "`: " ++ e)%list
          else mret 0
      | priskv_obj_field_type_array =>
          len ← load ld_u64 (pplus data (f_noffset f));
          r ← for_all (clean_element clean f data) (seqZ 0 len);
          if r <? 0 then mret r
          else base ← load ld_ptr (pplus data (f_offset f)); _ ← free base; mret 0
      end
  end.

Fixpoint __priskv_free_struct (obj : priskv_object) (data : ptr) : M Z :=
  match obj with
  | mk_object _ _ fields =>
      match data with
      | None => fails (str "data is null")
      | Some _ =>
          for_all (λ f, clean_field (priskv_value_decode_clean (o_type (f_obj f)) (__priskv_free_struct (f_obj f))) f data)
            fields
      end
  end.

Definition priskv_codec_free_struct (data : ptr) (obj : priskv_object) : M Z :=
  match data with
  | None => mret 0
  | Some _ =>
      r ← __priskv_free_struct obj data;
      if r <? 0 then mret (-1) else _ ← free data; mret 0
  end.

(** ** Writing a structure as JSON *)

Definition __priskv_code_boolean (data : ptr) : M (option json) :=
  b ← load ld_bool data; mret (json_object_new_boolean b).
Definition __priskv_code_int (data : ptr) : M (option json) :=
  z ← load ld_int data; mret (json_object_new_int z).
Definition __priskv_code_uint64 (data : ptr) : M (option json) :=
  z ← load ld_u64 data; mret (json_object_new_uint64 z).
Definition __priskv_code_string (data : ptr) : M (option json) :=
  p ← load ld_ptr data;
  match p with
  | None => mret (json_object_new_string [])
  | Some _ => s ← load ld_string p; mret (json_object_new_string s)
  end.
Definition __priskv_code_object (code_obj : ptr → M (option json)) (data : ptr) : M (option json) := code_obj data.

Definition priskv_value_code (t : priskv_object_type) (code_obj : ptr → M (option json)) (data : ptr) : M (option json) :=
  match t with
  | priskv_obj_type_boolean => __priskv_code_boolean data
  | priskv_obj_type_int => __priskv_code_int data
  | priskv_obj_type_uint64 => __priskv_code_uint64 data
  | priskv_obj_type_string => __priskv_code_string data
  | priskv_obj_type_object => __priskv_code_object code_obj data
  | priskv_obj_type_max => lift (Fault OutOfBounds)
  end.

Definition __priskv_code_boolean_ignored (data : ptr) : M bool := mret false.
Definition __priskv_code_int_ignored (data : ptr) : M bool := z ← load ld_int data; mret (z =? 0).
Definition __priskv_code_uint64_ignored (data : ptr) : M bool := z ← load ld_u64 data; mret (z =? 0).
Definition __priskv_code_string_ignored (data : ptr) : M bool :=
  p ← load ld_ptr data; mret (match p with None => true | Some _ => false end).
Definition __priskv_code_object_ignored (data : ptr) : M bool := mret false.

Definition priskv_value_is_ignored (t : priskv_object_type) (data : ptr) : M bool :=
  match t with
  | priskv_obj_type_boolean => __priskv_code_boolean_ignored data
  | priskv_obj_type_int => __priskv_code_int_ignored data
  | priskv_obj_type_uint64 => __priskv_code_uint64_ignored data
  | priskv_obj_type_string => __priskv_code_string_ignored data
  | priskv_obj_type_object => __priskv_code_object_ignored data
  | priskv_obj_type_max => lift (Fault OutOfBounds)
  end.

(** [return NULL] after an error. *)
Definition fails_null {A} (msg : list Z) : M (option A) := _ ← __priskv_codec_set_error msg; mret None.

(** The loops that build an object or an array: [None] when a round fails. *)
Definition for_json {A} (body : json → A → M (option json)) : list A → json → M (option json) :=
  fix go l j := match l with
                | [] => mret (Some j)
                | x :: l => o ← body j x; match o with None => mret None | Some j => go l j end
                end.

Definition code_element (value_code : ptr → M (option json)) (f : field) (data : ptr) (arr : json) (j : Z) : M (option json) :=
  base ← load ld_ptr (pplus data (f_offset f));
  o ← value_code (pplus base (o_size (f_obj f) * j));
  match o with
  | None => fails_null (str "failed to code array element for `" ++ f_name f ++ str "`")%list
  | Some e =>
      match json_object_array_add arr e with
      | None => fails_null (str "failed to add element[" ++ print_dec j ++ str "] for `" ++ f_name f ++ str "`")%list
      | Some arr => mret (Some arr)
      end
  end.

(** [json_object_object_add] of the field to the object. *)
Definition add_field (jobj : json) (f : field) (field_obj : json) : M (option json) :=
  match json_object_object_add jobj (f_name f) field_obj with
  | None => fails_null (str "failed to add json object `" ++ f_name f ++ str "`")%list
  | Some jobj => mret (Some jobj)
  end.

(** A round of the loop over the fields. *)
Definition code_field (value_code : ptr → M (option json)) (f : field) (data : ptr) (jobj : json) : M (option json) :=
  match o_type (f_obj f) with
  | priskv_obj_type_max => fails_null (unknown_type f)
  | t =>
      match f_type f with
      | priskv_obj_field_type_value =>
          skip ← (if f_ignored f then priskv_value_is_ignored t (pplus data (f_offset f)) else mret false);
          if skip : bool then mret (Some jobj)
          else
            o ← value_code (pplus data (f_offset f));
            match o with
            | None => fails_null (str "failed to code `" ++ f_name f ++ str "`")%list
            | Some field_obj => add_field jobj f field_obj
            end
      | priskv_obj_field_type_array =>
          len ← load ld_int (pplus data (f_noffset f));
          if f_ignored f && (len =? 0) then mret (Some jobj)
          else
            match json_object_new_array_ext len with
            | None =>
                fails_null (str "failed to new json array object for `" ++ f_name f ++ str "`: " ++ strerror_errno)%list
            | Some arr =>
                o ← for_json (code_element value_code f data) (seqZ 0 (u64 len)) arr;
                match o with
                | None => mret None
                | Some field_obj => add_field jobj f field_obj
                end
            end
      end
  end.

Fixpoint __priskv_code_obj (obj : priskv_object) (data : ptr) : M (option json) :=
  match obj with
  | mk_object _ _ fields =>
      match data with
      | None => fails_null (str "data is null")
      | Some _ =>
          match json_object_new_object with
          | None => fails_null (str "failed to new json object: " ++ strerror_errno)%list
          | Some jobj =>
              for_json (λ jobj f,
                  code_field (priskv_value_code (o_type (f_obj f)) (__priskv_code_obj (f_obj f))) f data jobj)
                fields jobj
          end
      end
  end.

(** The text is a block of its own, which the caller frees. *)
Definition priskv_codec_code (data : ptr) (obj : option priskv_object) : M ptr :=
  match data, obj with
  | None, _ => _ ← __priskv_codec_set_error (str "struct is empty"); mret None
  | _, None => _ ← __priskv_codec_set_error (str "object is empty"); mret None
  | Some _, Some obj =>
      o ← __priskv_code_obj obj data;
      match o with
      | None => mret None
      | Some jobj => strdup (json_object_to_json_string jobj)
      end
  end.
End codec.

(** ** Tables made at run time *)

(** [priskv_codec_object_new]: [calloc] and the type. *)
Definition priskv_codec_object_new : priskv_object := mk_object priskv_obj_type_object 0 [].

(** [append_field] leaves [noffset] as [realloc] gives it; a value has no use for it. *)
Definition priskv_codec_object_append_field (object : priskv_object) (name : list Z) (obj : priskv_object)
    (required ignored : bool) : priskv_object :=
  match object with
  | mk_object t size fields =>
      mk_object t (size + o_size obj)
        (fields ++ [mk_field priskv_obj_field_type_value name size 0 obj required ignored])
  end.

(** ** Tables of the program *)

Definition required : bool := true.
Definition optional : bool := false.
Definition ignored : bool := true.
Definition forced : bool := false.

Definition PRISKV_DECL_OBJECT (size : Z) (fields : list field) : priskv_object :=
  mk_object priskv_obj_type_object size fields.
Definition PRISKV_DECL_OBJECT_VALUE_FIELD (name : string) (offset : Z) (obj : priskv_object) (req ign : bool) : field :=
  mk_field priskv_obj_field_type_value (str name) offset 0 obj req ign.
Definition PRISKV_DECL_OBJECT_ARRAY_FIELD (name : string) (offset noffset : Z) (obj : priskv_object) (req ign : bool) : field :=
  mk_field priskv_obj_field_type_array (str name) offset noffset obj req ign.

(** Offsets and sizes are those of the structures of [jsonobjs.h] where pointers and
    [uint64_t] have eight bytes, [int] four and [bool] one, aligned to their size. *)
Definition priskv_version_response_obj : priskv_object :=
  PRISKV_DECL_OBJECT 8 [PRISKV_DECL_OBJECT_VALUE_FIELD "version" 0 priskv_string_obj required forced].

Definition priskv_memory_info_obj : priskv_object :=
  PRISKV_DECL_OBJECT 40
    [PRISKV_DECL_OBJECT_VALUE_FIELD "type" 0 priskv_string_obj required forced;
     PRISKV_DECL_OBJECT_VALUE_FIELD "path" 8 priskv_string_obj required ignored;
     PRISKV_DECL_OBJECT_VALUE_FIELD "filesize" 16 priskv_uint64_obj required ignored;
     PRISKV_DECL_OBJECT_VALUE_FIELD "pagesize" 24 priskv_uint64_obj required ignored;
     PRISKV_DECL_OBJECT_VALUE_FIELD "feature0" 32 priskv_uint64_obj required ignored].

Definition priskv_acl_info_obj : priskv_object :=
  PRISKV_DECL_OBJECT 16 [PRISKV_DECL_OBJECT_ARRAY_FIELD "rules" 0 8 priskv_string_obj required forced].

Definition priskv_kv_info_obj : priskv_object :=
  PRISKV_DECL_OBJECT 80
    [PRISKV_DECL_OBJECT_VALUE_FIELD "bucket_count" 8 priskv_uint64_obj required forced;
     PRISKV_DECL_OBJECT_VALUE_FIELD "keys_inuse" 0 priskv_uint64_obj required forced;
     PRISKV_DECL_OBJECT_VALUE_FIELD "keys_max" 16 priskv_uint64_obj required forced;
     PRISKV_DECL_OBJECT_VALUE_FIELD "key_max_length" 24 priskv_uint64_obj required forced;
     PRISKV_DECL_OBJECT_VALUE_FIELD "value_block_size" 32 priskv_uint64_obj required forced;
     PRISKV_DECL_OBJECT_VALUE_FIELD "value_blocks" 40 priskv_uint64_obj required forced;
     PRISKV_DECL_OBJECT_VALUE_FIELD "value_blocks_inuse" 48 priskv_uint64_obj required forced;
     PRISKV_DECL_OBJECT_VALUE_FIELD "expire_routine_times" 56 priskv_uint64_obj required forced;
     PRISKV_DECL_OBJECT_VALUE_FIELD "expire_kv_count" 64 priskv_uint64_obj required forced;
     PRISKV_DECL_OBJECT_VALUE_FIELD "expire_kv_bytes" 72 priskv_uint64_obj required forced].

Definition priskv_conn_client_stats_info_obj : priskv_object :=
  PRISKV_DECL_OBJECT 64
    [PRISKV_DECL_OBJECT_VALUE_FIELD "get_ops" 0 priskv_uint64_obj required forced;
     PRISKV_DECL_OBJECT_VALUE_FIELD "get_bytes" 8 priskv_uint64_obj required forced;
     PRISKV_DECL_OBJECT_VALUE_FIELD "set_ops" 16 priskv_uint64_obj required forced;
     PRISKV_DECL_OBJECT_VALUE_FIELD "set_bytes" 24 priskv_uint64_obj required forced;
     PRISKV_DECL_OBJECT_VALUE_FIELD "test_ops" 32 priskv_uint64_obj required forced;
     PRISKV_DECL_OBJECT_VALUE_FIELD "delete_ops" 40 priskv_uint64_obj required forced;
     PRISKV_DECL_OBJECT_VALUE_FIELD "expire_ops" 48 priskv_uint64_obj required forced;
     PRISKV_DECL_OBJECT_VALUE_FIELD "resps" 56 priskv_uint64_obj required forced].

Definition priskv_conn_client_info_obj : priskv_object :=
  PRISKV_DECL_OBJECT 80
    [PRISKV_DECL_OBJECT_VALUE_FIELD "address" 0 priskv_string_obj required forced;
     PRISKV_DECL_OBJECT_VALUE_FIELD "dying" 8 priskv_boolean_obj required forced;
     PRISKV_DECL_OBJECT_VALUE_FIELD "stats" 16 priskv_conn_client_stats_info_obj required forced].

Definition priskv_conn_listener_info_obj : priskv_object :=
  PRISKV_DECL_OBJECT 24
    [PRISKV_DECL_OBJECT_VALUE_FIELD "address" 0 priskv_string_obj required forced;
     PRISKV_DECL_OBJECT_ARRAY_FIELD "clients" 8 16 priskv_conn_client_info_obj required forced].

Definition priskv_connection_info_obj : priskv_object :=
  PRISKV_DECL_OBJECT 16
    [PRISKV_DECL_OBJECT_ARRAY_FIELD "listeners" 0 8 priskv_conn_listener_info_obj required forced].

Definition priskv_kvmanage_info_obj : priskv_object :=
  PRISKV_DECL_OBJECT 32
    [PRISKV_DECL_OBJECT_VALUE_FIELD "addr" 0 priskv_string_obj required forced;
     PRISKV_DECL_OBJECT_VALUE_FIELD "port" 8 priskv_int_obj required forced;
     PRISKV_DECL_OBJECT_ARRAY_FIELD "keys" 16 24 priskv_string_obj required forced].

Definition priskv_cpu_info_obj : priskv_object :=
  PRISKV_DECL_OBJECT 24
    [PRISKV_DECL_OBJECT_VALUE_FIELD "used_cpu_sys_ticks" 0 priskv_uint64_obj required forced;
     PRISKV_DECL_OBJECT_VALUE_FIELD "used_cpu_user_ticks" 8 priskv_uint64_obj required forced;
     PRISKV_DECL_OBJECT_VALUE_FIELD "clock_ticks" 16 priskv_uint64_obj required forced].

Definition priskvClusterMetaDataNodeSlotRange_obj : priskv_object :=
  PRISKV_DECL_OBJECT 8
    [PRISKV_DECL_OBJECT_VALUE_FIELD "start" 0 priskv_int_obj required forced;
     PRISKV_DECL_OBJECT_VALUE_FIELD "end" 4 priskv_int_obj required forced].

Definition priskvClusterMetaDataNodeInfo_obj : priskv_object :=
  PRISKV_DECL_OBJECT 40
    [PRISKV_DECL_OBJECT_VALUE_FIELD "name" 0 priskv_string_obj required forced;
     PRISKV_DECL_OBJECT_VALUE_FIELD "addr" 8 priskv_string_obj required forced;
     PRISKV_DECL_OBJECT_VALUE_FIELD "port" 16 priskv_int_obj required ignored;
     PRISKV_DECL_OBJECT_ARRAY_FIELD "slots" 24 32 priskvClusterMetaDataNodeSlotRange_obj required ignored].

Definition priskvClusterMetaDataInfo_obj : priskv_object :=
  PRISKV_DECL_OBJECT 24
    [PRISKV_DECL_OBJECT_VALUE_FIELD "version" 0 priskv_int_obj required forced;
     PRISKV_DECL_OBJECT_ARRAY_FIELD "nodes" 8 16 priskvClusterMetaDataNodeInfo_obj required forced].

(** The tables the program reads and writes with. *)
Definition tables : list priskv_object :=
  [priskv_version_response_obj; priskv_memory_info_obj; priskv_acl_info_obj; priskv_kv_info_obj;
   priskv_connection_info_obj; priskv_kvmanage_info_obj; priskv_cpu_info_obj; priskvClusterMetaDataInfo_obj].
