(* ===== verification/CodecSpec.v ===== *)
(** * What the codec promises

    The values a table describes, what decoding and coding do to them without any
    memory, how values lie in memory, and what is assumed of json-c. *)

From S2P Require Import Prelude State CString CMem Codec.

Local Open Scope string_scope.
Local Open Scope Z_scope.

(** ** Induction over tables *)

Lemma object_ind (P : priskv_object → Prop) :
  (∀ t n fs, Forall (λ f, P (f_obj f)) fs → P (mk_object t n fs)) → ∀ o, P o.
Proof.
  intros Hstep. fix IH 1. intros [t n fs]. apply Hstep.
  induction fs as [|[ty nm off noff obj r i] fs IHfs]; constructor; [apply IH|exact IHfs].
Qed.

(** ** Values *)

(** A string pointer may be [NULL]; a structure has a value per field of its table,
    for a field that is an array the list of its elements. *)
#[warnings="-register-all"]
Inductive value :=
  | VBool (b : bool)
  | VInt (z : Z)
  | VUint64 (z : Z)
  | VString (s : option (list Z))
  | VStruct (vs : list value)
  | VArray (vs : list value).

(** ** JSON trees *)

#[warnings="-register-all"]
Inductive jtree :=
  | JNull
  | JBool (b : bool)
  | JInt (z : Z)
  | JDouble (text : list Z)
  | JString (s : list Z)
  | JArray (l : list jtree)
  | JObject (l : list (list Z * jtree)).

(** A member or an element that is null is a [NULL] pointer for json-c. *)
Definition nonnull (t : jtree) : option jtree := match t with JNull => None | t => Some t end.

Fixpoint assoc (l : list (list Z * jtree)) (k : list Z) : option jtree :=
  match l with
  | [] => None
  | (k', t) :: l => if decide (k = k') then Some t else assoc l k
  end.

Definition jt_get (t : jtree) (k : list Z) : option jtree :=
  match t with JObject l => assoc l k ≫= nonnull | _ => None end.

Definition jt_type (t : option jtree) : json_type :=
  match t with
  | None | Some JNull => json_type_null
  | Some (JBool _) => json_type_boolean
  | Some (JInt _) => json_type_int
  | Some (JDouble _) => json_type_double
  | Some (JString _) => json_type_string
  | Some (JArray _) => json_type_array
  | Some (JObject _) => json_type_object
  end.

(** Integers that do not fit are cut to the nearest one that does. *)
Definition clamp_int (z : Z) : Z := Z.max (- 2 ^ 31) (Z.min (2 ^ 31 - 1) z).
Definition clamp_u64 (z : Z) : Z := Z.max 0 (Z.min (2 ^ 64 - 1) z).

(** Replaces the member, or adds it at the end. *)
Fixpoint assoc_add (l : list (list Z * jtree)) (k : list Z) (t : jtree) : list (list Z * jtree) :=
  match l with
  | [] => [(k, t)]
  | (k', t') :: l => if decide (k = k') then (k', t) :: l else (k', t') :: assoc_add l k t
  end.

(** The levels of a tree. *)
Fixpoint jt_depth (t : jtree) : nat :=
  match t with
  | JArray l => S (list_max (jt_depth <$> l))
  | JObject l => S (list_max ((λ kt, jt_depth kt.2) <$> l))
  | _ => 1
  end.

(** The length of the longest array in a tree. *)
Fixpoint jt_width (t : jtree) : nat :=
  match t with
  | JArray l => length l `max` list_max (jt_width <$> l)
  | JObject l => list_max ((λ kt, jt_width kt.2) <$> l)
  | _ => 0
  end.

(** Trees that are the same after printing and parsing: integers of 64 bits,
    text without zeros, different names. *)
Fixpoint jt_plain (t : jtree) : Prop :=
  match t with
  | JNull | JDouble _ => False
  | JBool _ => True
  | JInt z => - 2 ^ 63 <= z < 2 ^ 64
  | JString s => no_nul s
  | JArray l => foldr (λ t P, jt_plain t ∧ P) True l
  | JObject l => NoDup l.*1 ∧ foldr (λ kt P, (no_nul kt.1 ∧ jt_plain kt.2) ∧ P) True l
  end.

(** ** What is assumed of json-c *)

(** The documented behaviour of the functions, in terms of the tree an object
    stands for: getters give the value of the type, 32-bit and unsigned getters cut
    what does not fit; members and elements that are null or absent are [NULL];
    creating and adding succeed, except an array of negative size; text that was
    printed parses to the same tree, up to 32 levels, the library's default, and an
    element of an array takes a byte of the text at least. *)
Class JsonLaws (JC : JsonC) := {
  view : json → jtree;
  law_type : ∀ o, json_object_get_type o = jt_type (view <$> o);
  law_boolean : ∀ j b, view j = JBool b → json_object_get_boolean (Some j) = b;
  law_int : ∀ j z, view j = JInt z → json_object_get_int (Some j) = clamp_int z;
  law_uint64 : ∀ j z, view j = JInt z → json_object_get_uint64 (Some j) = clamp_u64 z;
  law_string : ∀ j s, view j = JString s → json_object_get_string (Some j) = s;
  law_get : ∀ j k, view <$> json_object_object_get (Some j) k = jt_get (view j) k;
  law_length : ∀ j l, view j = JArray l → json_object_array_length (Some j) = Z.of_nat (length l);
  law_idx : ∀ j l i t, view j = JArray l → l !! i = Some t →
    view <$> json_object_array_get_idx (Some j) (Z.of_nat i) = nonnull t;
  law_new_boolean : ∀ b, view <$> json_object_new_boolean b = Some (JBool b);
  law_new_int : ∀ z, view <$> json_object_new_int z = Some (JInt z);
  law_new_uint64 : ∀ z, view <$> json_object_new_uint64 z = Some (JInt z);
  law_new_string : ∀ s, view <$> json_object_new_string s = Some (JString s);
  law_new_object : view <$> json_object_new_object = Some (JObject []);
  law_new_array : ∀ n, view <$> json_object_new_array_ext n = if n <? 0 then None else Some (JArray []);
  law_object_add : ∀ j l k e, view j = JObject l →
    view <$> json_object_object_add j k e = Some (JObject (assoc_add l k (view e)));
  law_array_add : ∀ j l e, view j = JArray l →
    view <$> json_object_array_add j e = Some (JArray (l ++ [view e]));
  law_text : ∀ j, no_nul (json_object_to_json_string j);
  law_parse : ∀ j, jt_plain (view j) → (jt_depth (view j) <= 32)%nat →
    view <$> (json_tokener_parse_verbose (json_object_to_json_string j)).1 = Some (view j);
  law_width : ∀ text j desc, json_tokener_parse_verbose text = (Some j, desc) →
    (jt_width (view j) <= length text)%nat
}.

(** ** Decoding, without memory *)

(** The value of zeroed memory: what a field that is absent has. *)
Fixpoint zero_value (o : priskv_object) : value :=
  match o with
  | mk_object t _ fs =>
      match t with
      | priskv_obj_type_boolean => VBool false
      | priskv_obj_type_int => VInt 0
      | priskv_obj_type_uint64 => VUint64 0
      | priskv_obj_type_string => VString None
      | _ => VStruct ((λ f, match f_type f with
                            | priskv_obj_field_type_value => zero_value (f_obj f)
                            | priskv_obj_field_type_array => VArray []
                            end) <$> fs)
      end
  end.

Definition zero_field (f : field) : value :=
  match f_type f with
  | priskv_obj_field_type_value => zero_value (f_obj f)
  | priskv_obj_field_type_array => VArray []
  end.

(** The text the codec keeps of a message. *)
Definition msg (m : list Z) : list Z := take 254 (cstr m).

(** A value, or what the error says. *)
Definition outcome (A : Type) : Type := A + list Z.

(** All of a list, or the first error. *)
Definition traverse {A B} (f : A → outcome B) : list A → outcome (list B) :=
  fix go l := match l with
              | [] => inl []
              | x :: l => match f x with
                          | inr e => inr e
                          | inl y => match go l with inl ys => inl (y :: ys) | inr e => inr e end
                          end
              end.

Definition value_spec (ty : priskv_object_type) (obj_spec : jtree → outcome (list value)) (t : option jtree) : outcome value :=
  match ty with
  | priskv_obj_type_boolean =>
      match t with Some (JBool b) => inl (VBool b) | _ => inr (msg (str "type is not boolean")) end
  | priskv_obj_type_int =>
      match t with Some (JInt z) => inl (VInt (clamp_int z)) | _ => inr (msg (str "type is not int")) end
  | priskv_obj_type_uint64 =>
      match t with Some (JInt z) => inl (VUint64 (clamp_u64 z)) | _ => inr (msg (str "type is not int")) end
  | priskv_obj_type_string =>
      match t with Some (JString s) => inl (VString (Some (cstr s))) | _ => inr (msg (str "type is not string")) end
  | _ =>
      match t with
      | Some (JObject l) => match obj_spec (JObject l) with inl vs => inl (VStruct vs) | inr e => inr e end
      | _ => inr (msg (str "type is not object"))
      end
  end.

Definition field_spec (spec : option jtree → outcome value) (f : field) (t : jtree) : outcome value :=
  match jt_get t (f_name f) with
  | None =>
      if f_required f then inr (msg (str "not found `" ++ f_name f ++ str "` that is required")%list)
      else inl (zero_field f)
  | Some m =>
      match f_type f with
      | priskv_obj_field_type_value =>
          match spec (Some m) with
          | inl v => inl v
          | inr e => inr (msg (str "failed to decode `" ++ f_name f ++ str "`: " ++ e)%list)
          end
      | priskv_obj_field_type_array =>
          match m with
          | JArray l =>
              match traverse (λ t, spec (nonnull t)) l with
              | inl vs => inl (VArray vs)
              | inr e => inr (msg (str "failed to decode array `" ++ f_name f ++ str "`: " ++ e)%list)
              end
          | _ => inr (msg (str "failed to decode `" ++ f_name f ++ str "`: type is not array")%list)
          end
      end
  end.

(** The fields of an object, from any tree. *)
Fixpoint decode_spec (o : priskv_object) (t : jtree) : outcome (list value) :=
  match o with
  | mk_object _ _ fs =>
      traverse (λ f, field_spec (value_spec (o_type (f_obj f)) (decode_spec (f_obj f))) f t) fs
  end.

(** ** Coding, without memory *)

(** A list of fields with the list of their values. *)
Definition with_values {A B} (g : A → value → B) : list A → list value → list B :=
  fix go l vs := match l, vs with x :: l, v :: vs => g x v :: go l vs | _, _ => [] end.

Definition is_zero (v : value) : bool :=
  match v with
  | VInt z | VUint64 z => z =? 0
  | VString None => true
  | VArray [] => true
  | _ => false
  end.

(** The member of a field, if it is not left out. *)
Definition member (f : field) (v : value) (t : jtree) : list (list Z * jtree) :=
  if f_ignored f && is_zero v then [] else [(f_name f, t)].

Fixpoint code_spec (o : priskv_object) (v : value) : jtree :=
  match o with
  | mk_object _ _ fs =>
      match v with
      | VBool b => JBool b
      | VInt z | VUint64 z => JInt z
      | VString s => JString (default [] s)
      | VArray _ => JNull
      | VStruct vs =>
          JObject (mjoin (with_values (λ f v,
            member f v (match v with
                        | VArray l => JArray (code_spec (f_obj f) <$> l)
                        | v => code_spec (f_obj f) v
                        end)) fs vs))
      end
  end.

(** The values of a type: integers at their width, strings without zeros, arrays
    whose length is an [int]. *)
Fixpoint typed (o : priskv_object) (v : value) : Prop :=
  match o with
  | mk_object t _ fs =>
      match t, v with
      | priskv_obj_type_boolean, VBool _ => True
      | priskv_obj_type_int, VInt z => - 2 ^ 31 <= z < 2 ^ 31
      | priskv_obj_type_uint64, VUint64 z => 0 <= z < 2 ^ 64
      | priskv_obj_type_string, VString s => from_option no_nul True s
      | priskv_obj_type_object, VStruct vs =>
          length vs = length fs ∧
          foldr and True (with_values (λ f v,
            match f_type f, v with
            | priskv_obj_field_type_value, v => typed (f_obj f) v
            | priskv_obj_field_type_array, VArray l =>
                Z.of_nat (length l) < 2 ^ 31 ∧ foldr (λ v P, typed (f_obj f) v ∧ P) True l
            | _, _ => False
            end) fs vs)
      | _, _ => False
      end
  end.

(** No field that is required is left out because it is zero. *)
Fixpoint codable (o : priskv_object) (v : value) : bool :=
  match o with
  | mk_object _ _ fs =>
      match v with
      | VStruct vs =>
          forallb id (with_values (λ f v,
            if f_ignored f && is_zero v then negb (f_required f)
            else match v with
                 | VArray l => forallb (codable (f_obj f)) l
                 | v => codable (f_obj f) v
                 end) fs vs)
      | _ => true
      end
  end.

(** A [NULL] string that is not left out is written as an empty one. *)
Fixpoint norm (o : priskv_object) (v : value) : value :=
  match o with
  | mk_object _ _ fs =>
      match v with
      | VString None => VString (Some [])
      | VStruct vs =>
          VStruct (with_values (λ f v,
            if f_ignored f && is_zero v then v
            else match v with
                 | VArray l => VArray (norm (f_obj f) <$> l)
                 | v => norm (f_obj f) v
                 end) fs vs)
      | v => v
      end
  end.

(** ** Tables that fit their structures *)

(** The bytes a field takes, as offsets and lengths. *)
Definition footprint (f : field) : list (Z * Z) :=
  match f_type f with
  | priskv_obj_field_type_value => [(f_offset f, o_size (f_obj f))]
  | priskv_obj_field_type_array => [(f_offset f, 8); (f_noffset f, 8)]
  end.

Definition apart (a b : Z * Z) : bool := (a.1 + a.2 <=? b.1) || (b.1 + b.2 <=? a.1).

Fixpoint pairwise_apart (l : list (Z * Z)) : bool :=
  match l with [] => true | r :: l => forallb (apart r) l && pairwise_apart l end.

Definition within (n : Z) (r : Z * Z) : bool := (0 <=? r.1) && (0 <=? r.2) && (r.1 + r.2 <=? n).

(** Scalars have the size of their type; the fields of an object lie in it, do not
    overlap, and have different names. The length of an array takes eight bytes,
    as it is stored. *)
Fixpoint layout_ok (o : priskv_object) : bool :=
  match o with
  | mk_object t n fs =>
      match t with
      | priskv_obj_type_boolean => n =? 1
      | priskv_obj_type_int => n =? 4
      | priskv_obj_type_uint64 | priskv_obj_type_string => n =? 8
      | priskv_obj_type_max => false
      | priskv_obj_type_object =>
          (0 <=? n) && forallb (λ f, forallb (within n) (footprint f)) fs
          && pairwise_apart (mjoin (footprint <$> fs)) && bool_decide (NoDup (f_name <$> fs))
          && forallb (λ f, bool_decide (no_nul (f_name f))) fs && forallb (λ f, layout_ok (f_obj f)) fs
      end
  end.

(** The levels of the JSON of a type. *)
Fixpoint obj_depth (o : priskv_object) : nat :=
  match o with
  | mk_object _ _ fs =>
      S (list_max ((λ f, match f_type f with
                         | priskv_obj_field_type_value => obj_depth (f_obj f)
                         | priskv_obj_field_type_array => S (obj_depth (f_obj f))
                         end) <$> fs))
  end.

(** ** Values in memory *)

Definition mapR {A B} (f : A → res B) : list A → res (list B) :=
  fix go l := match l with [] => Ok [] | x :: l => y ← f x; ys ← go l; Ok (y :: ys) end.

Definition element_ptrs (q : ptr) (size n : Z) : list ptr := (λ j, pplus q (size * j)) <$> seqZ 0 n.

Definition read_at (read : heap → loc → res value) (h : heap) (p : ptr) : res value :=
  match p with None => Fault NullDeref | Some l => read h l end.

(** The count of an array is stored with eight bytes by decoding and read with eight
    bytes by freeing, but read as an [int] by coding. *)
Definition ld_count (h : heap) (l : loc) : res Z := z ← ld_int h l; if z <? 0 then Fault OutOfBounds else Ok z.

Definition read_field_with (count : heap → loc → res Z) (read : heap → loc → res value) (f : field) (h : heap) (l : loc) : res value :=
  match f_type f with
  | priskv_obj_field_type_value => read h (padd l (f_offset f))
  | priskv_obj_field_type_array =>
      n ← count h (padd l (f_noffset f));
      q ← ld_ptr h (padd l (f_offset f));
      vs ← mapR (read_at read h) (element_ptrs q (o_size (f_obj f)) n);
      Ok (VArray vs)
  end.

(** The value at a location. *)
Fixpoint read_with (count : heap → loc → res Z) (o : priskv_object) (h : heap) (l : loc) : res value :=
  match o with
  | mk_object t _ fs =>
      match t with
      | priskv_obj_type_boolean => b ← ld_bool h l; Ok (VBool b)
      | priskv_obj_type_int => z ← ld_int h l; Ok (VInt z)
      | priskv_obj_type_uint64 => z ← ld_u64 h l; Ok (VUint64 z)
      | priskv_obj_type_string =>
          q ← ld_ptr h l;
          match q with None => Ok (VString None) | Some q => s ← ld_string h q; Ok (VString (Some s)) end
      | _ => vs ← mapR (λ f, read_field_with count (read_with count (f_obj f)) f h l) fs; Ok (VStruct vs)
      end
  end.

(** As decoding leaves it and freeing reads it, and as coding reads it. *)
Notation read_field := (read_field_with ld_u64).
Notation read_value := (read_with ld_u64).
Notation seen_field := (read_field_with ld_count).
Notation seen_value := (read_with ld_count).

Definition block_of (q : res ptr) : list loc := match q with Ok (Some l) => [l] | _ => [] end.

Definition owned_field (own : heap → loc → list loc) (f : field) (h : heap) (l : loc) : list loc :=
  match f_type f with
  | priskv_obj_field_type_value => own h (padd l (f_offset f))
  | priskv_obj_field_type_array =>
      match ld_u64 h (padd l (f_noffset f)), ld_ptr h (padd l (f_offset f)) with
      | Ok n, Ok q =>
          block_of (Ok q) ++ mjoin ((λ p, match p with None => [] | Some l => own h l end)
                                      <$> element_ptrs q (o_size (f_obj f)) n)
      | _, _ => []
      end
  end.

(** The pointers in a value at a location, in the order of its fields. *)
Fixpoint owned (o : priskv_object) (h : heap) (l : loc) : list loc :=
  match o with
  | mk_object t _ fs =>
      match t with
      | priskv_obj_type_string => block_of (ld_ptr h l)
      | priskv_obj_type_object => mjoin ((λ f, owned_field (owned (f_obj f)) f h l) <$> fs)
      | _ => []
      end
  end.

(** A heap without the blocks of some pointers. *)
Definition without (qs : list loc) (h : heap) : heap := foldr (λ q h, delete q.1 h) h qs.

(** Pointers to the blocks allocated between two numbers. *)
Definition blocks (n n' : Z) : list loc := (λ a, (a, 0)) <$> seqZ n (n' - n).
