(* ===== verification/CodecMem.v ===== *)
(** * The codec on memory

    Decoding, freeing and coding of structures in memory do what [CodecSpec] says
    of their values: no access leaves its block, and the blocks that are allocated
    are those the decoded value owns. *)

From S2P Require Import Prelude State CString CMem Codec CodecSpec.

Local Open Scope Z_scope.

(** ** Tables *)

Lemma within_spec n r : within n r = true ↔ 0 <= r.1 ∧ 0 <= r.2 ∧ r.1 + r.2 <= n.
Proof. unfold within. rewrite !andb_true_iff, !Z.leb_le. tauto. Qed.

Lemma apart_spec a b : apart a b = true ↔ a.1 + a.2 <= b.1 ∨ b.1 + b.2 <= a.1.
Proof. unfold apart. by rewrite orb_true_iff, !Z.leb_le. Qed.

Lemma forallb_Forall {A} (p : A → bool) l : forallb p l = true ↔ Forall (λ x, p x = true) l.
Proof. rewrite forallb_forall, Forall_forall. setoid_rewrite list_elem_of_In. done. Qed.

(** What a table says of a field. *)
Record field_ok (n : Z) (f : field) : Prop := {
  fo_within : ∀ r, r ∈ footprint f → 0 <= r.1 ∧ 0 <= r.2 ∧ r.1 + r.2 <= n;
  fo_layout : layout_ok (f_obj f) = true
}.

Lemma layout_inv n fs : layout_ok (mk_object priskv_obj_type_object n fs) = true →
  0 <= n ∧ Forall (field_ok n) fs ∧ pairwise_apart (mjoin (footprint <$> fs)) = true ∧
  NoDup (f_name <$> fs) ∧ Forall (λ f, no_nul (f_name f)) fs.
Proof.
  cbn [layout_ok]. rewrite !andb_true_iff, !forallb_Forall, !bool_decide_eq_true, Z.leb_le.
  intros (((((Hn & Hw) & Hp) & Hnd) & Hnm) & Hl). split; [done|]. split; [|split; [done|split; [done|]]].
  - apply Forall_forall. intros f Hf. rewrite Forall_forall in Hw, Hl. split; [|by apply Hl].
    intros r Hr. specialize (Hw f Hf). rewrite forallb_Forall, Forall_forall in Hw. by apply within_spec, Hw.
  - eapply Forall_impl; [exact Hnm|]. intros f. apply bool_decide_eq_true.
Qed.

Lemma layout_size o : layout_ok o = true → 0 <= o_size o.
Proof.
  destruct o as [t n fs]. destruct t; cbn [layout_ok o_size]; rewrite ?Z.eqb_eq; lia.
Qed.

(** ** Reading depends on the structure and the blocks it owns *)

Lemma agree_ld h h' l n : agree h h' l n →
  (1 <= n → ld_bool h' l = ld_bool h l) ∧ (4 <= n → ld_int h' l = ld_int h l) ∧
  (8 <= n → ld_u64 h' l = ld_u64 h l ∧ ld_ptr h' l = ld_ptr h l).
Proof.
  intros Ha. unfold ld_bool, ld_int, ld_u64, ld_ptr.
  assert (∀ m, Z.of_nat m <= n → ld h' l m = ld h l m) as Hld.
  { intros m Hm. rewrite <- (padd_0 l). apply Ha; lia. }
  split; [|split]; intros Hn; by rewrite !Hld by lia.
Qed.

Lemma mapR_ext {A B} (f g : A → res B) l : (∀ x, x ∈ l → f x = g x) → mapR f l = mapR g l.
Proof.
  induction l as [|x l IH]; intros Hfg; [done|]. cbn. rewrite Hfg by left.
  rewrite IH by (intros; apply Hfg; by right). done.
Qed.

Lemma fmap_ext_in {A B} (f g : A → B) (l : list A) : (∀ x, x ∈ l → f x = g x) → f <$> l = g <$> l.
Proof.
  induction l as [|x l IH]; intros Hfg; [done|]. csimpl. rewrite Hfg by left. f_equal. apply IH.
  intros; apply Hfg; by right.
Qed.

(** [read] and [own] at a location are fixed by [n] bytes there and by the blocks owned. *)
Definition framed {A} (read : heap → res A) (own : heap → list loc) (l : loc) (F : list (Z * Z)) : Prop :=
  ∀ h h', (∀ r, r ∈ F → agree h h' (padd l r.1) r.2) → (∀ q, q ∈ own h → h' !! q.1 = h !! q.1) →
  read h' = read h ∧ own h' = own h.

Definition own_at (own : heap → loc → list loc) (h : heap) (p : ptr) : list loc :=
  match p with None => [] | Some l => own h l end.

Lemma framed_field f l :
  layout_ok (f_obj f) = true →
  (∀ l, framed (λ h, read_value (f_obj f) h l) (λ h, owned (f_obj f) h l) l [(0, o_size (f_obj f))]) →
  framed (λ h, read_field (read_value (f_obj f)) f h l) (λ h, owned_field (owned (f_obj f)) f h l) l (footprint f).
Proof.
  intros Hlay Hobj h h' Ha Hown. unfold read_field_with, owned_field, footprint in *. destruct (f_type f).
  - apply Hobj; [|done]. intros r Hr. apply list_elem_of_singleton in Hr as ->. simpl.
    rewrite padd_0. apply (Ha (f_offset f, o_size (f_obj f))). left.
  - destruct (agree_ld h h' (padd l (f_noffset f)) 8) as (_ & _ & Hn).
    { apply (Ha (f_noffset f, 8)). right; left. }
    destruct (agree_ld h h' (padd l (f_offset f)) 8) as (_ & _ & Hq).
    { apply (Ha (f_offset f, 8)). left. }
    destruct Hn as [-> _]; [done|]. destruct Hq as [_ ->]; [done|].
    destruct (ld_u64 h _) as [n|]; [|done]. destruct (ld_ptr h _) as [q|]; [|done]. rewrite !Ok_bind.
    assert (∀ p, p ∈ element_ptrs q (o_size (f_obj f)) n →
      read_at (read_value (f_obj f)) h' p = read_at (read_value (f_obj f)) h p ∧
      own_at (owned (f_obj f)) h' p = own_at (owned (f_obj f)) h p) as Hel.
    { intros p Hp. pose proof Hp as Hp'. unfold element_ptrs in Hp.
      apply list_elem_of_fmap in Hp as (j & -> & _). destruct q as [q|]; [|done]. simpl. apply Hobj.
      - intros r _. apply agree_block. simpl. apply Hown. simpl. left.
      - intros a Hin. apply Hown. apply elem_of_app. right. apply list_elem_of_join.
        eexists. split; [exact Hin|]. apply list_elem_of_fmap. eexists. split; [|exact Hp']. done. }
    split; [rewrite (mapR_ext _ _ _ (λ p Hp, proj1 (Hel p Hp))); done|].
    do 2 f_equal. apply fmap_ext_in. intros p Hp. apply (Hel p Hp).
Qed.

Lemma framed_fields {A X} (read : X → heap → res A) (own : X → heap → list loc) (fp : X → list (Z * Z)) l xs :
  (∀ x, x ∈ xs → framed (read x) (own x) l (fp x)) →
  framed (λ h, mapR (λ x, read x h) xs) (λ h, mjoin ((λ x, own x h) <$> xs)) l (mjoin (fp <$> xs)).
Proof.
  intros Hfr h h' Ha Hown.
  assert (∀ x, x ∈ xs → read x h' = read x h ∧ own x h' = own x h) as Hx.
  { intros x Hx. apply Hfr; [done| |].
    - intros r Hr. apply Ha. apply list_elem_of_join. exists (fp x). split; [done|]. by apply list_elem_of_fmap_2.
    - intros a Hin. apply Hown. apply list_elem_of_join. exists (own x h). split; [done|].
      apply list_elem_of_fmap. by exists x. }
  split; [apply mapR_ext|f_equal; apply fmap_ext_in]; intros x Hin; by apply Hx.
Qed.

Lemma framed_value o : layout_ok o = true →
  ∀ l, framed (λ h, read_value o h l) (λ h, owned o h l) l [(0, o_size o)].
Proof.
  induction o as [t n fs IH] using object_ind. intros Hlay l h h' Ha Hown.
  assert (agree h h' l n) as Hn. { rewrite <- (padd_0 l). apply (Ha (0, n)). left. }
  destruct (agree_ld h h' l n Hn) as (H1 & H4 & H8).
  destruct t; cbn [layout_ok read_with owned] in *; try apply Z.eqb_eq in Hlay as ->; try done.
  - by rewrite H1.
  - by rewrite H4.
  - destruct H8 as [-> _]; done.
  - destruct H8 as [_ Hq]; [done|]. rewrite Hq. destruct (ld_ptr h l) as [[q|]|]; [|done..].
    rewrite !Ok_bind. rewrite (ld_string_block h h'); [done|]. apply Hown. left.
  - pose proof (layout_inv n fs Hlay) as (Hpos & Hok & _).
    destruct (framed_fields (λ f h, read_field (read_value (f_obj f)) f h l) (λ f h, owned_field (owned (f_obj f)) f h l)
      footprint l fs) with (h := h) (h' := h') as [Hrd Ho].
    + intros f Hf. rewrite Forall_forall in IH, Hok. apply framed_field; [apply Hok; done|].
      apply IH; [done|]. apply Hok; done.
    + intros r Hr. apply list_elem_of_join in Hr as (F & Hr & HF). apply list_elem_of_fmap in HF as (f & -> & Hf).
      rewrite Forall_forall in Hok. destruct (fo_within _ _ (Hok f Hf) r Hr) as (? & ? & ?).
      by eapply agree_sub.
    + exact Hown.
    + by rewrite Hrd, Ho.
Qed.

(** ** Zeroed memory *)

Lemma zero_field_read f h l n :
  field_ok n f → zeroed h l n →
  (∀ l, zeroed h l (o_size (f_obj f)) →
     read_value (f_obj f) h l = Ok (zero_value (f_obj f)) ∧ owned (f_obj f) h l = []) →
  read_field (read_value (f_obj f)) f h l = Ok (zero_field f) ∧ owned_field (owned (f_obj f)) f h l = [].
Proof.
  intros [Hw _] Hz Hobj. unfold read_field_with, owned_field, zero_field, footprint in *. destruct (f_type f).
  - apply Hobj. destruct (Hw (f_offset f, o_size (f_obj f))) as (? & ? & ?); [left|]. by eapply zeroed_sub.
  - destruct (Hw (f_noffset f, 8)) as (? & _ & ?); [right; left|].
    destruct (Hw (f_offset f, 8)) as (? & _ & ?); [left|]. simpl in *.
    assert (zeroed h (padd l (f_noffset f)) 8) as Z1 by (by eapply zeroed_sub).
    assert (zeroed h (padd l (f_offset f)) 8) as Z2 by (by eapply zeroed_sub).
    apply ld_zero in Z1 as (_ & _ & Z1). apply ld_zero in Z2 as (_ & _ & Z2).
    destruct Z1 as [-> _]; [done|]. destruct Z2 as [_ ->]; done.
Qed.

Lemma mapR_Ok {A B} (f : A → res B) (g : A → B) l : (∀ x, x ∈ l → f x = Ok (g x)) → mapR f l = Ok (g <$> l).
Proof.
  induction l as [|x l IH]; intros Hf; [done|]. cbn. rewrite Hf by left.
  rewrite Ok_bind, IH by (intros; apply Hf; by right). done.
Qed.

Lemma mjoin_nil {A B} (f : A → list B) (l : list A) : (∀ x, x ∈ l → f x = []) → mjoin (f <$> l) = [].
Proof.
  induction l as [|x l IH]; intros Hf; [done|]. csimpl. rewrite Hf by left. apply IH. intros; apply Hf; by right.
Qed.

Lemma zero_read o : layout_ok o = true → ∀ h l, zeroed h l (o_size o) →
  read_value o h l = Ok (zero_value o) ∧ owned o h l = [].
Proof.
  induction o as [t n fs IH] using object_ind. intros Hlay h l Hz.
  pose proof (ld_zero h l n Hz) as (H1 & H4 & H8).
  destruct t; cbn [layout_ok read_with owned zero_value o_size] in *; try apply Z.eqb_eq in Hlay as ->; try done.
  - by rewrite H1.
  - by rewrite H4.
  - by destruct H8 as [-> _].
  - by destruct H8 as [_ ->].
  - pose proof (layout_inv n fs Hlay) as (_ & Hok & _). rewrite Forall_forall in IH, Hok.
    assert (∀ f, f ∈ fs → read_field (read_value (f_obj f)) f h l = Ok (zero_field f) ∧
      owned_field (owned (f_obj f)) f h l = []) as Hf.
    { intros f Hf. apply (zero_field_read f h l n); [by apply Hok|done|].
      intros l' Hz'. apply IH; [done|by apply (Hok f Hf)|done]. }
    rewrite (mapR_Ok _ zero_field) by (intros; by apply Hf). split; [done|].
    apply mjoin_nil. intros; by apply Hf.
Qed.

(** ** What a part of decoding changes *)

Definition fresh_above (h : heap) (n : Z) : Prop := ∀ a, is_Some (h !! a) → a < n.

(** Between two heaps: allocation numbers grow; of the blocks there were only the
    one of [l] is changed, keeps its length, and only the ranges [F] of it change. *)
Record changes (h h' : heap) (n n' : Z) (l : loc) (F : list (Z * Z)) : Prop := {
  ch_next : n <= n';
  ch_fresh : fresh_above h' n';
  ch_old : ∀ a, a < n → a ≠ l.1 → h' !! a = h !! a;
  ch_len : length <$> h' !! l.1 = length <$> h !! l.1;
  ch_apart : ∀ o m, (∀ r, r ∈ F → o + Z.of_nat m <= r.1 ∨ r.1 + r.2 <= o) →
    ld h' (padd l o) m = ld h (padd l o) m
}.

Lemma changes_refl h n l F : fresh_above h n → changes h h n n l F.
Proof. intros Hf. by split. Qed.

Lemma changes_trans h0 h1 h2 n0 n1 n2 l F1 F2 :
  changes h0 h1 n0 n1 l F1 → changes h1 h2 n1 n2 l F2 → changes h0 h2 n0 n2 l (F1 ++ F2).
Proof.
  intros [? ? O1 L1 A1] [? ? O2 L2 A2]. split; [lia|done| | |].
  - intros a Ha Hne. rewrite O2, O1; [done|lia..].
  - by rewrite L2, L1.
  - intros o m Hap. rewrite A2, A1; [done| |]; intros r Hr; apply Hap, elem_of_app; auto.
Qed.

Lemma changes_weaken h h' n n' l F F' : changes h h' n n' l F → F ⊆ F' → changes h h' n n' l F'.
Proof. intros [? ? ? ? A] HF. split; [done..|]. intros o m Hap. apply A. auto. Qed.

Lemma changes_shift h h' n n' l off s :
  changes h h' n n' (padd l off) [(0, s)] → changes h h' n n' l [(off, s)].
Proof.
  intros [? ? ? ? A]. split; [done..|]. intros o m Hap.
  replace (padd l o) with (padd (padd l off) (o - off)) by (rewrite padd_padd; f_equal; lia).
  apply A. intros r Hr. apply list_elem_of_singleton in Hr as ->. specialize (Hap _ (list_elem_of_here _ _)). simpl in *. lia.
Qed.

(** What is apart from the changes is kept. *)
Lemma changes_agree h h' n n' l F r :
  changes h h' n n' l F → (∀ r', r' ∈ F → apart r r' = true) → agree h h' (padd l r.1) r.2.
Proof.
  intros Hch Hap o m Ho Hm. rewrite padd_padd. apply (ch_apart _ _ _ _ _ _ Hch).
  intros r' Hr'. specialize (Hap r' Hr'). apply apart_spec in Hap. lia.
Qed.

Lemma changes_live h h' n n' l F : changes h h' n n' l F → is_Some (h !! l.1) → is_Some (h' !! l.1).
Proof. intros Hch [bk Hbk]. pose proof (ch_len _ _ _ _ _ _ Hch) as Hl. rewrite Hbk in Hl. by destruct (h' !! l.1). Qed.

Section refine.
Context {JC : JsonC} {JL : JsonLaws JC}.
Context (avail : Z → bool) (strerror_errno : list Z).
Hypothesis Havail : ∀ n, avail n = true.

Lemma store_changes h n e l off bs :
  fresh_above h n → valid h (padd l off) (Z.of_nat (length bs)) →
  ∃ h', store (Some (padd l off)) bs (CS h n e) = Ok (tt, CS h' n e) ∧
    ld h' (padd l off) (length bs) = Ok bs ∧ changes h h' n n l [(off, Z.of_nat (length bs))].
Proof.
  intros Hf Hv. destruct (sto_spec h (padd l off) bs Hv) as (h' & Hs & Hld & Hold & Hlen & Hap).
  exists h'. unfold store. cbn [c_heap c_next c_error]. rewrite Hs. split; [done|]. split; [done|].
  split; [lia| |by intros; apply Hold|done|].
  - intros a Ha. destruct (decide (a = l.1)) as [->|Hne]; [|rewrite Hold in Ha by done; by apply Hf].
    apply Hf. destruct Hv as (bk & Hbk & _). by exists bk.
  - intros o m Hr. apply (Hap (l.2 + o)). specialize (Hr _ (list_elem_of_here _ _)). simpl in *. lia.
Qed.

Lemma new_block_changes h n e bk l F :
  fresh_above h n → l.1 < n →
  new_block avail bk (CS h n e) = Ok (Some (n, 0), CS (<[n := bk]> h) (n + 1) e) ∧
  changes h (<[n := bk]> h) n (n + 1) l F.
Proof.
  intros Hf Hl. unfold new_block. cbn [c_heap c_next c_error]. rewrite Havail. split; [done|].
  split; [lia| | | |].
  - intros a Ha. destruct (decide (a = n)) as [->|Hne]; [lia|]. rewrite lookup_insert_ne in Ha by done.
    apply Hf in Ha. lia.
  - intros a Ha _. by rewrite lookup_insert_ne by lia.
  - by rewrite lookup_insert_ne by lia.
  - intros o m _. apply ld_block. simpl. by rewrite lookup_insert_ne by lia.
Qed.

(** ** Decoding *)

(** A run that decodes a part of the structure at [l] from a state with heap [h]:
    it returns, changes only [F], and either it made [v], whose blocks are the ones
    allocated, in order, or it returns -1 and leaves the message. *)
Definition decoded {A} (l : loc) (F : list (Z * Z)) (h : heap) (n : Z) (e : list Z)
    (read : heap → res A) (own : heap → list loc) (out : outcome A) (run : res (Z * cstate)) : Prop :=
  ∃ r h' n' e', run = Ok (r, CS h' n' e') ∧ changes h h' n n' l F ∧
    match out with
    | inl v => r = 0 ∧ e' = e ∧ read h' = Ok v ∧ own h' = blocks n n' ∧ (∀ a, n <= a < n' → is_Some (h' !! a))
    | inr m => r = -1 ∧ e' = m
    end.

Lemma alloc_blocks_join n n1 n2 : n <= n1 → n1 <= n2 → blocks n n1 ++ blocks n1 n2 = blocks n n2.
Proof.
  intros H1 H2. unfold blocks. replace (n2 - n) with ((n1 - n) + (n2 - n1)) by lia.
  rewrite seqZ_app, fmap_app by lia. do 3 f_equal. lia.
Qed.

Lemma blocks_nil n : blocks n n = [].
Proof. unfold blocks. by rewrite Z.sub_diag. Qed.

Lemma elem_of_blocks q n n' : q ∈ blocks n n' → n <= q.1 < n' ∧ q.2 = 0.
Proof.
  intros Hq. unfold blocks in Hq. apply list_elem_of_fmap in Hq as (a & -> & Ha). apply elem_of_seqZ in Ha. simpl. lia.
Qed.

Lemma pairwise_cons F1 F2 :
  pairwise_apart (F1 ++ F2) = true → (∀ r r', r ∈ F1 → r' ∈ F2 → apart r r' = true) ∧ pairwise_apart F2 = true.
Proof.
  induction F1 as [|r F1 IH]; simpl; [intros H; split; [intros ? ? Hr; by apply elem_of_nil in Hr|done]|].
  rewrite andb_true_iff, forallb_Forall, Forall_app. intros [[_ H2] H3]. destruct (IH H3) as [Hap Hp].
  split; [|done]. intros x r' Hx Hr'. apply elem_of_cons in Hx as [->|Hx]; [|by apply Hap].
  rewrite Forall_forall in H2. by apply H2.
Qed.

Lemma apart_sym a b : apart a b = apart b a.
Proof. unfold apart. apply orb_comm. Qed.

Definition zeroed_all (h : heap) (l : loc) (F : list (Z * Z)) : Prop := ∀ r, r ∈ F → zeroed h (padd l r.1) r.2.

Lemma zeroed_all_changes h h' n n' l F F' :
  changes h h' n n' l F → (∀ r r', r ∈ F → r' ∈ F' → apart r r' = true) → zeroed_all h l F' → zeroed_all h' l F'.
Proof.
  intros Hch Hap Hz r Hr. eapply zeroed_agree; [|by apply Hz].
  eapply changes_agree; [done|]. intros r' Hr'. rewrite apart_sym. by apply Hap.
Qed.

(** The loop over fields, or over elements: each round decodes a part of its own. *)
Lemma decode_loop {X A} (body : X → ST cstate Z) (fp : X → list (Z * Z)) (read : X → heap → res A)
    (own : X → heap → list loc) (spec : X → outcome A) (I : heap → Prop) l n0 xs :
  (∀ x h n e, x ∈ xs → I h → n0 <= n → zeroed_all h l (fp x) → fresh_above h n → l.1 < n →
     decoded l (fp x) h n e (read x) (own x) (spec x) (body x (CS h n e))) →
  (∀ x, x ∈ xs → framed (read x) (own x) l (fp x)) →
  (∀ h h' n n' F, n0 <= n → changes h h' n n' l F → I h → I h') →
  pairwise_apart (mjoin (fp <$> xs)) = true →
  ∀ h n e, I h → n0 <= n → zeroed_all h l (mjoin (fp <$> xs)) → fresh_above h n → l.1 < n →
  decoded l (mjoin (fp <$> xs)) h n e (λ h, mapR (λ x, read x h) xs) (λ h, mjoin ((λ x, own x h) <$> xs))
    (traverse spec xs) (for_all body xs (CS h n e)).
Proof.
  intros Hbody Hfr HI. induction xs as [|x xs IH]; intros Hap h n e HIh Hn0 Hz Hf Hl.
  - exists 0, h, n, e. split; [done|]. split; [by apply changes_refl|]. cbn. rewrite blocks_nil. do 4 (split; [done|]). lia.
  - change (mjoin (fp <$> x :: xs)) with (fp x ++ mjoin (fp <$> xs)) in *. apply pairwise_cons in Hap as [Hap1 Hap2].
    destruct (Hbody x h n e) as (r & h1 & n1 & e1 & Hrun & Hch & Hout); [left|done|done| |done|done|].
    { intros r Hr. apply Hz, elem_of_app. by left. }
    cbn [for_all]. erewrite bind_run by exact Hrun. cbn [traverse]. destruct (spec x) as [v|m].
    + destruct Hout as (-> & -> & Hv & Hown & Hlive). simpl.
      destruct (IH (λ x h n e Hx, Hbody x h n e (list_elem_of_further _ _ _ Hx)) (λ x Hx, Hfr x (list_elem_of_further _ _ _ Hx)) Hap2 h1 n1 e)
        as (r' & h2 & n2 & e2 & Hrun' & Hch' & Hout').
      * by eapply HI.
      * pose proof (ch_next _ _ _ _ _ _ Hch). lia.
      * eapply zeroed_all_changes; [done|done|]. intros r Hr. apply Hz, elem_of_app. by right.
      * apply Hch.
      * pose proof (ch_next _ _ _ _ _ _ Hch). lia.
      * exists r', h2, n2, e2. split; [exact Hrun'|]. split; [by eapply changes_trans|].
        destruct (traverse spec xs) as [vs|m]; [|done]. destruct Hout' as (-> & -> & Hvs & Howns & Hlives).
        assert (read x h2 = Ok v ∧ own x h2 = blocks n n1) as [Hv2 Hown2].
        { rewrite <- Hv, <- Hown. apply (Hfr x (list_elem_of_here _ _)).
          - intros r Hr. eapply changes_agree; [exact Hch'|]. intros r' Hr'. by apply Hap1.
          - intros q Hq. rewrite Hown in Hq. apply elem_of_blocks in Hq. apply (ch_old _ _ _ _ _ _ Hch'); lia. }
        split; [done|]. split; [done|]. cbn. rewrite Hv2, Ok_bind. cbn in Hvs. rewrite Hvs. split; [done|].
        change (list_fmap _ _ ?f xs) with (f <$> xs). rewrite Hown2, Howns.
        split; [apply alloc_blocks_join; [apply Hch|apply Hch']|].
        intros a Ha. destruct (decide (a < n1)); [|apply Hlives; lia].
        rewrite (ch_old _ _ _ _ _ _ Hch') by lia. apply Hlive. lia.
    + destruct Hout as (-> & ->). simpl. exists (-1), h1, n1, m. split; [done|]. split; [|done].
      eapply changes_weaken; [done|]. intros r Hr. apply elem_of_app. by left.
Qed.

Definition small (t : option jtree) : Prop := from_option (λ t, Z.of_nat (jt_width t) < 2 ^ 31) True t.

(** What is shown of decoding a value of a table, by induction on the table. *)
Definition decodes (o : priskv_object) : Prop := ∀ jobj h n l e,
  small (view <$> jobj) → zeroed h l (o_size o) → fresh_above h n → l.1 < n →
  decoded l [(0, o_size o)] h n e (λ h, read_value o h l) (λ h, owned o h l)
    (value_spec (o_type o) (decode_spec o) (view <$> jobj))
    (priskv_value_decode avail (o_type o) (__priskv_decode_obj avail o) jobj (Some l) (CS h n e)).

Lemma fails_run m h n e : fails m (CS h n e) = Ok (-1, CS h n (msg m)).
Proof. done. Qed.

Lemma decoded_fails {A} l F h n e read own m :
  fresh_above h n → decoded (A := A) l F h n e read own (inr (msg m)) (fails m (CS h n e)).
Proof. intros Hf. exists (-1), h, n, (msg m). split; [apply fails_run|]. split; [by apply changes_refl|done]. Qed.

Lemma decoded_shift {A} l off s h n e read own (out : outcome A) run :
  decoded (padd l off) [(0, s)] h n e read own out run → decoded l [(off, s)] h n e read own out run.
Proof. intros (r & h' & n' & e' & ? & ? & ?). exists r, h', n', e'. split; [done|]. split; [by apply changes_shift|done]. Qed.

Lemma store_value h n e l bs :
  fresh_above h n → zeroed h l (Z.of_nat (length bs)) →
  ∃ h', store (Some l) bs (CS h n e) = Ok (tt, CS h' n e) ∧ ld h' l (length bs) = Ok bs ∧
    changes h h' n n l [(0, Z.of_nat (length bs))].
Proof.
  intros Hf Hz. destruct (store_changes h n e l 0 bs) as (h' & Hs & Hld & Hch); [done| |].
  - rewrite padd_0. apply zeroed_valid; [done|lia].
  - rewrite padd_0 in Hs, Hld. by exists h'.
Qed.

(** A scalar: the bytes are stored, and read back as [v]. *)
Lemma decoded_store t nb h n e l bs v :
  let o := mk_object t nb [] in
  nb = Z.of_nat (length bs) → fresh_above h n → zeroed h l nb →
  (∀ h', ld h' l (length bs) = Ok bs → read_value o h' l = Ok v ∧ owned o h' l = []) →
  ∀ fs, (t ≠ priskv_obj_type_object) → (t ≠ priskv_obj_type_max) →
  decoded l [(0, nb)] h n e (λ h, read_value (mk_object t nb fs) h l) (λ h, owned (mk_object t nb fs) h l)
    (inl v) ((_ ← store (Some l) bs; mret 0) (CS h n e)).
Proof.
  intros o -> Hf Hz Hrd fs Ho Hm. destruct (store_value h n e l bs Hf Hz) as (h' & Hs & Hld & Hch).
  exists 0, h', n, e. split; [by erewrite bind_run by exact Hs|]. split; [done|].
  destruct (Hrd h' Hld) as [Hv Hown]. rewrite blocks_nil.
  split; [done|]. split; [done|]. split; [by destruct t|]. split; [by destruct t|lia].
Qed.

Lemma clamp_int_range z : - 2 ^ 31 <= clamp_int z < 2 ^ 31.
Proof. unfold clamp_int. lia. Qed.

Lemma clamp_u64_range z : 0 <= clamp_u64 z < 2 ^ 64.
Proof. unfold clamp_u64. lia. Qed.

(** The type of an object decides as the tree does. *)
Ltac on_type jobj Hview :=
  rewrite law_type;
  match goal with |- context [decide (?P)] =>
    let Ht := fresh "Ht" in
    destruct (decide P) as [Ht|Ht];
    destruct jobj as [j|]; [destruct (view j) eqn:Hview| |destruct (view j) eqn:Hview|];
    cbn in Ht; cbn [fmap option_fmap option_map]; try rewrite Hview in Ht |- *; cbn in Ht;
    try (by apply decoded_fails); try (exfalso; by apply Ht); try (exfalso; tauto)
  end.

Lemma decode_boolean_spec fs : decodes (mk_object priskv_obj_type_boolean 1 fs).
Proof.
  intros jobj h n l e _ Hz Hf Hl. cbn [o_type o_size value_spec priskv_value_decode] in *.
  unfold __priskv_decode_boolean. on_type jobj Hview. rewrite (law_boolean _ _ Hview).
  apply decoded_store; [done|done|done| |done|done].
  intros h' Hld. cbn. by rewrite (ld_stored_bool _ _ _ Hld).
Qed.

Lemma decode_int_spec fs : decodes (mk_object priskv_obj_type_int 4 fs).
Proof.
  intros jobj h n l e _ Hz Hf Hl. cbn [o_type o_size value_spec priskv_value_decode] in *.
  unfold __priskv_decode_int. on_type jobj Hview. rewrite (law_int _ _ Hview).
  apply decoded_store; [by rewrite length_enc_int|done|done| |done|done].
  intros h' Hld. rewrite length_enc_int in Hld. cbn.
  by rewrite (ld_stored_int _ _ _ (clamp_int_range _) Hld).
Qed.

Lemma decode_uint64_spec fs : decodes (mk_object priskv_obj_type_uint64 8 fs).
Proof.
  intros jobj h n l e _ Hz Hf Hl. cbn [o_type o_size value_spec priskv_value_decode] in *.
  unfold __priskv_decode_uint64. on_type jobj Hview. rewrite (law_uint64 _ _ Hview).
  apply decoded_store; [by rewrite length_enc_int|done|done| |done|done].
  intros h' Hld. rewrite length_enc_int in Hld. cbn.
  by rewrite (ld_stored_u64 _ _ _ (clamp_u64_range _) Hld).
Qed.

Lemma decode_string_spec fs : decodes (mk_object priskv_obj_type_string 8 fs).
Proof.
  intros jobj h n l e _ Hz Hf Hl. cbn [o_type o_size value_spec priskv_value_decode] in *.
  unfold __priskv_decode_string. on_type jobj Hview. rewrite (law_string _ _ Hview).
  destruct (new_block_changes h n e (enc_string s) l [(0, 8)] Hf Hl) as [Hnew Hch].
  unfold strdup. erewrite bind_run by exact Hnew.
  destruct (store_value (<[n:=enc_string s]> h) (n + 1) e l (enc_ptr (Some (n, 0)))) as (h' & Hs & Hld & Hch').
  { apply Hch. }
  { rewrite length_enc_ptr. eapply zeroed_agree; [|exact Hz]. apply agree_block. by rewrite lookup_insert_ne by lia. }
  rewrite length_enc_ptr in Hld, Hch'.
  exists 0, h', (n + 1), e. split; [by erewrite bind_run by exact Hs|].
  split. { eapply changes_weaken; [by eapply changes_trans|]. by intros r [Hr|Hr]%elem_of_app. }
  assert (h' !! n = Some (enc_string s)) as Hn.
  { rewrite (ch_old _ _ _ _ _ _ Hch') by (simpl; lia). by rewrite lookup_insert_eq. }
  split; [done|]. split; [done|]. cbn. rewrite (ld_stored_ptr _ _ _ Hld), Ok_bind.
  rewrite (ld_stored_string h' n s) by done. split; [done|]. split.
  - unfold blocks. by replace (n + 1 - n) with 1 by lia.
  - intros a Ha. replace a with n by lia. by rewrite Hn.
Qed.

(** *** Arrays *)

Lemma bind_inv {A B} (m : ST cstate A) (f : A → ST cstate B) s x :
  (m ≫= f) s = Ok x → ∃ a s1, m s = Ok (a, s1) ∧ f a s1 = Ok x.
Proof. unfold mbind, ST_bind. destruct (m s) as [[a s1]|]; [|done]. eauto. Qed.

(** What is done when a round fails can be done after the loop. *)
Lemma for_all_wrap {A} (body : A → ST cstate Z) (w : ST cstate Z) xs s :
  (∀ s r s', w s = Ok (r, s') → r = -1) →
  for_all (λ x, r ← body x; if r <? 0 then w else mret 0) xs s
  = (r ← for_all body xs; if r <? 0 then w else mret 0) s.
Proof.
  intros Hw. revert s. induction xs as [|x xs IH]; intros s; [done|]. cbn [for_all].
  unfold mbind, ST_bind in *. destruct (body x s) as [[r s1]|] eqn:Hb; [|done].
  destruct (r <? 0) eqn:Hr.
  - destruct (w s1) as [[r' s2]|] eqn:Hw1; [|cbn; by rewrite Hr].
    apply Hw in Hw1 as Hr'. subst r'. cbn. by rewrite Hr.
  - cbn. apply IH.
Qed.

Lemma for_all_ext {A} (f g : A → ST cstate Z) xs s : (∀ x s, f x s = g x s) → for_all f xs s = for_all g xs s.
Proof.
  intros Hfg. revert s. induction xs as [|x xs IH]; intros s; [done|]. cbn [for_all]. unfold mbind, ST_bind.
  rewrite Hfg. destruct (g x s) as [[r s1]|]; [|done]. by destruct (r <? 0).
Qed.

Lemma mapR_fmap {A B C} (g : B → res C) (f : A → B) (l : list A) : mapR g (f <$> l) = mapR (λ x, g (f x)) l.
Proof. induction l as [|x l IH]; [done|]. cbn. by rewrite <- IH. Qed.

Lemma traverse_ext {A B C} (f : A → outcome C) (g : B → outcome C) l l' :
  Forall2 (λ x y, f x = g y) l l' → traverse f l = traverse g l'.
Proof. induction 1 as [|x y l l' Hxy _ IH]; [done|]. cbn. by rewrite Hxy, IH. Qed.

Lemma elements_apart size (js : list Z) :
  0 <= size → NoDup js → pairwise_apart (mjoin ((λ j, [(size * j, size)]) <$> js)) = true.
Proof.
  intros Hs. induction 1 as [|j js Hj _ IH]; [done|].
  change (mjoin _) with ((size * j, size) :: mjoin ((λ j, [(size * j, size)]) <$> js)). cbn [pairwise_apart].
  rewrite IH, andb_true_r. apply forallb_Forall, Forall_forall. intros r Hr.
  apply list_elem_of_join in Hr as (F & Hr & HF). apply list_elem_of_fmap in HF as (j' & -> & Hj').
  apply list_elem_of_singleton in Hr as ->. apply apart_spec. simpl.
  assert (j ≠ j') by (by intros ->). nia.
Qed.

Lemma elem_of_elements size js r : r ∈ mjoin ((λ j, [(size * j, size)]) <$> js) → ∃ j, j ∈ js ∧ r = (size * j, size).
Proof.
  intros Hr. apply list_elem_of_join in Hr as (F & Hr & HF). apply list_elem_of_fmap in HF as (j & -> & Hj).
  apply list_elem_of_singleton in Hr as ->. by exists j.
Qed.

(** A change at a block that is new does not concern the structure. *)
Lemma changes_new_block h h' n n' q F n0 l F' :
  changes h h' n n' q F → n0 <= q.1 → l.1 < n0 → n0 <= n → fresh_above h' n' →
  n0 <= n' ∧ (∀ a, a < n0 → h' !! a = h !! a) ∧ changes h h' n0 n' l F'.
Proof.
  intros Hch Hq Hl Hn Hf. assert (∀ a, a < n0 → h' !! a = h !! a) as Hold.
  { intros a Ha. apply (ch_old _ _ _ _ _ _ Hch); lia. }
  pose proof (ch_next _ _ _ _ _ _ Hch). split; [lia|]. split; [done|].
  split; [lia|done|by intros; apply Hold| |].
  - by rewrite Hold.
  - intros o m _. apply ld_block. by apply Hold.
Qed.

Lemma idx_specs (spec : option jtree → outcome value) j tl :
  view j = JArray tl →
  traverse (λ i, spec (view <$> json_object_array_get_idx (Some j) i)) (seqZ 0 (Z.of_nat (length tl)))
  = traverse (λ t, spec (nonnull t)) tl.
Proof.
  intros Hview. apply traverse_ext. apply Forall2_same_length_lookup. split; [by rewrite length_seqZ, Nat2Z.id|].
  intros i x t Hx Ht. apply lookup_seqZ in Hx as [-> _]. rewrite Z.add_0_l. by rewrite (law_idx j tl i t).
Qed.

(** The round of the loop over the elements without what is done on failure. *)
Definition element_body (vd : option json → ptr → ST cstate Z) (f : field) (jo : option json) (data : ptr) (j : Z) : ST cstate Z :=
  base ← load ld_ptr (pplus data (f_offset f)); vd (json_object_array_get_idx jo j) (pplus base (o_size (f_obj f) * j)).

Definition element_fails (f : field) (data : ptr) : ST cstate Z :=
  e ← priskv_codec_get_error;
  _ ← __priskv_codec_set_error (str "failed to decode array `" ++ f_name f ++ str "`: " ++ e)%list;
  base ← load ld_ptr (pplus data (f_offset f)); _ ← free base; mret (-1).

Lemma elements_split vd f jo data xs s :
  for_all (decode_element vd f jo data) xs s
  = (r ← for_all (element_body vd f jo data) xs; if r <? 0 then element_fails f data else mret 0) s.
Proof.
  rewrite <- for_all_wrap.
  - apply for_all_ext. intros x s'. unfold decode_element, element_body, mbind, ST_bind.
    destruct (load ld_ptr (pplus data (f_offset f)) s') as [[base s1]|]; [|done].
    by destruct (vd _ _ s1) as [[r s2]|].
  - intros s' r s'' Hw. unfold element_fails in Hw.
    do 4 (apply bind_inv in Hw as (? & ? & _ & Hw)). by injection Hw.
Qed.

Section array.
Context (f : field) (sz : Z) (j : json) (tl : list jtree) (l : loc).
Context (Hok : field_ok sz f) (Htype : f_type f = priskv_obj_field_type_array) (Hobj : decodes (f_obj f)).
Context (Hap : apart (f_offset f, 8) (f_noffset f, 8) = true).
Context (Hview : view j = JArray tl) (Hsmall : small (Some (JArray tl))).

Notation size := (o_size (f_obj f)).
Notation len := (Z.of_nat (length tl)).
Notation vd := (priskv_value_decode avail (o_type (f_obj f)) (__priskv_decode_obj avail (f_obj f))).
Notation vspec := (value_spec (o_type (f_obj f)) (decode_spec (f_obj f))).

Lemma array_len_small : len < 2 ^ 31 ∧ Forall (λ t, Z.of_nat (jt_width t) < 2 ^ 31) tl.
Proof.
  cbn in Hsmall. split; [lia|]. apply Forall_forall. intros t Ht.
  assert (jt_width t <= list_max (jt_width <$> tl))%nat; [|lia].
  pose proof (proj1 (list_max_le (jt_width <$> tl) _) (Nat.le_refl _)) as Hall. rewrite Forall_forall in Hall.
  apply Hall, list_elem_of_fmap. eauto.
Qed.

(** The count and the array are stored. *)
Lemma array_alloc h n e : zeroed_all h l (footprint f) → fresh_above h n → l.1 < n →
  ∃ h', decode_array avail vd f (Some j) (Some l) (CS h n e)
        = for_all (decode_element vd f (Some j) (Some l)) (seqZ 0 len) (CS h' (n + 1) e) ∧
    changes h h' n (n + 1) l (footprint f) ∧ ld_u64 h' (padd l (f_noffset f)) = Ok len ∧
    ld_ptr h' (padd l (f_offset f)) = Ok (Some (n, 0)) ∧ zeroed h' (n, 0) (len * size).
Proof.
  intros Hz Hf Hl. unfold footprint, zeroed_all in *. rewrite Htype in *.
  pose proof (layout_size _ (fo_layout _ _ Hok)) as Hsz. destruct array_len_small as [Hlen _].
  pose proof (proj1 (apart_spec _ _) Hap) as Hap'. simpl in Hap'.
  assert (zeroed h (padd l (f_noffset f)) 8) as Hz1 by (apply (Hz (_, 8)); right; left).
  assert (zeroed h (padd l (f_offset f)) 8) as Hz2 by (apply (Hz (_, 8)); left).
  destruct (store_changes h n e l (f_noffset f) (enc_int 8 len)) as (h1 & Hs1 & Hld1 & Hch1);
    [done|rewrite length_enc_int; by apply zeroed_valid|]. rewrite length_enc_int in Hld1, Hch1.
  destruct (new_block_changes h1 n e (replicate (Z.to_nat (len * size)) (MByte 0)) l [] (ch_fresh _ _ _ _ _ _ Hch1) Hl)
    as [Hnew Hch2].
  set (h2 := <[n := replicate (Z.to_nat (len * size)) (MByte 0)]> h1) in *.
  assert (zeroed h2 (padd l (f_offset f)) 8) as Hz3.
  { eapply (zeroed_agree h); [|done]. pose proof (changes_trans _ _ _ _ _ _ _ _ _ Hch1 Hch2) as Hch.
    apply (changes_agree _ _ _ _ _ _ (f_offset f, 8) Hch). intros r' Hr'. by apply list_elem_of_singleton in Hr' as ->. }
  destruct (store_changes h2 (n + 1) e l (f_offset f) (enc_ptr (Some (n, 0)))) as (h3 & Hs3 & Hld3 & Hch3);
    [apply Hch2|rewrite length_enc_ptr; by apply zeroed_valid|]. rewrite length_enc_ptr in Hld3, Hch3.
  exists h3. split; [|split; [|split; [|split]]].
  - unfold decode_array. rewrite law_type. cbn [fmap option_fmap option_map]. rewrite Hview, decide_False by (cbn; tauto).
    rewrite (law_length _ _ Hview). cbn [pplus mbind option_bind].
    erewrite bind_run by exact Hs1. unfold calloc. erewrite bind_run by exact Hnew. by erewrite bind_run by exact Hs3.
  - eapply changes_weaken; [eapply changes_trans; [eapply changes_trans; eassumption|exact Hch3]|]. set_solver.
  - apply ld_stored_u64; [lia|]. rewrite (ch_apart _ _ _ _ _ _ Hch3).
    + rewrite (ch_apart _ _ _ _ _ _ Hch2); [done|]. intros r Hr. by apply elem_of_nil in Hr.
    + intros r Hr. apply list_elem_of_singleton in Hr as ->. simpl. lia.
  - by apply ld_stored_ptr.
  - eapply zeroed_agree; [apply agree_block; apply (ch_old _ _ _ _ _ _ Hch3); simpl; lia|].
    pose proof (zeroed_fresh h1 n (Z.to_nat (len * size))) as Hzf. rewrite Z2Nat.id in Hzf by lia. exact Hzf.
Qed.

(** The loop over the elements, up to what is done on failure. *)
Lemma array_elements h n e :
  fresh_above h (n + 1) → l.1 < n → ld_ptr h (padd l (f_offset f)) = Ok (Some (n, 0)) → zeroed h (n, 0) (len * size) →
  decoded (n, 0) (mjoin ((λ i, [(size * i, size)]) <$> seqZ 0 len)) h (n + 1) e
    (λ h, mapR (λ i, read_value (f_obj f) h (padd (n, 0) (size * i))) (seqZ 0 len))
    (λ h, mjoin ((λ i, owned (f_obj f) h (padd (n, 0) (size * i))) <$> seqZ 0 len))
    (traverse (λ t, vspec (nonnull t)) tl)
    (for_all (element_body vd f (Some j) (Some l)) (seqZ 0 len) (CS h (n + 1) e)).
Proof.
  intros Hf Hl Hq Hz. pose proof (layout_size _ (fo_layout _ _ Hok)) as Hsz.
  rewrite <- (idx_specs vspec j tl Hview).
  apply (decode_loop _ (λ i, [(size * i, size)]) (λ i h, read_value (f_obj f) h (padd (n, 0) (size * i)))
    (λ i h, owned (f_obj f) h (padd (n, 0) (size * i))) _ (λ h', h' !! l.1 = h !! l.1) (n, 0) (n + 1)).
  - intros i h1 n1 e1 Hi HI Hn Hzi Hf1 Hl1. unfold element_body.
    assert (ld_ptr h1 (padd l (f_offset f)) = Ok (Some (n, 0))) as Hq1.
    { rewrite <- Hq. unfold ld_ptr. by rewrite (ld_block h h1). }
    erewrite bind_run; [|unfold load; cbn [pplus mbind option_bind c_heap]; by rewrite Hq1].
    apply decoded_shift. apply elem_of_seqZ in Hi.
    destruct (lookup_lt_is_Some_2 tl (Z.to_nat i)) as [t Ht]; [lia|].
    apply Hobj; [| |done|done].
    + pose proof (law_idx j tl _ _ Hview Ht) as Hidx. rewrite Z2Nat.id in Hidx by lia. rewrite Hidx.
      destruct array_len_small as [_ Hall]. rewrite Forall_forall in Hall.
      apply list_elem_of_lookup_2 in Ht. by destruct t; cbn; try apply (Hall _ Ht).
    + apply (Hzi (size * i, size)). left.
  - intros i _ h1 h2 Ha Hown. apply framed_value; [apply Hok| |done].
    intros r Hr. apply list_elem_of_singleton in Hr as ->. rewrite padd_0. apply (Ha (size * i, size)). left.
  - intros h1 h2 n1 n2 F Hn Hch HI. rewrite <- HI. apply (ch_old _ _ _ _ _ _ Hch); simpl; lia.
  - apply elements_apart; [done|apply NoDup_seqZ].
  - done.
  - lia.
  - intros r Hr. apply elem_of_elements in Hr as (i & Hi & ->). apply elem_of_seqZ in Hi.
    eapply zeroed_sub; [exact Hz| |]; simpl; nia.
  - done.
  - simpl. lia.
Qed.

Lemma array_element_ptrs (q : loc) h :
  mapR (read_at (read_value (f_obj f)) h) (element_ptrs (Some q) size len)
  = mapR (λ i, read_value (f_obj f) h (padd q (size * i))) (seqZ 0 len) ∧
  mjoin (own_at (owned (f_obj f)) h <$> element_ptrs (Some q) size len)
  = mjoin ((λ i, owned (f_obj f) h (padd q (size * i))) <$> seqZ 0 len).
Proof. unfold element_ptrs. split; [by rewrite mapR_fmap|]. by rewrite <- list_fmap_compose. Qed.

Lemma array_live h h' n n' F :
  changes h h' (n + 1) n' (n, 0) F → zeroed h (n, 0) (len * size) → is_Some (h' !! n).
Proof.
  intros Hch Hz. apply (changes_live _ _ _ _ _ _ Hch). pose proof (layout_size _ (fo_layout _ _ Hok)).
  destruct (zeroed_valid _ _ _ Hz) as (bk & Hbk & _); [lia|by exists bk].
Qed.

Lemma decode_array_spec h n e : zeroed_all h l (footprint f) → fresh_above h n → l.1 < n →
  decoded l (footprint f) h n e
    (λ h, read_field (read_value (f_obj f)) f h l) (λ h, owned_field (owned (f_obj f)) f h l)
    (match traverse (λ t, vspec (nonnull t)) tl with
     | inl vs => inl (VArray vs)
     | inr e => inr (msg (str "failed to decode array `" ++ f_name f ++ str "`: " ++ e)%list)
     end)
    (decode_array avail vd f (Some j) (Some l) (CS h n e)).
Proof.
  intros Hz Hf Hl. destruct (array_alloc h n e Hz Hf Hl) as (h1 & Hrun & Hch1 & Hcount & Hq & Hz1). rewrite Hrun.
  rewrite elements_split.
  destruct (array_elements h1 n e (ch_fresh _ _ _ _ _ _ Hch1) Hl Hq Hz1) as (r & h2 & n2 & e2 & Hloop & Hch2 & Hout).
  erewrite bind_run by exact Hloop.
  destruct (changes_new_block h1 h2 (n + 1) n2 (n, 0) _ n l (footprint f) Hch2) as (Hn & Hold & Hch3);
    [simpl; lia..|apply Hch2|].
  pose proof (ch_next _ _ _ _ _ _ Hch2) as Hn2.
  assert (changes h h2 n n2 l (footprint f)) as Hch.
  { destruct Hch1 as [? ? O1 L1 A1], Hch3 as [? ? O3 L3 A3]. split; [lia|done| | |].
    - intros a Ha Hne. by rewrite O3, O1.
    - by rewrite L3, L1.
    - intros o m Ho. by rewrite A3, A1. }
  assert (ld_u64 h2 (padd l (f_noffset f)) = Ok len) as Hcount2.
  { rewrite <- Hcount. unfold ld_u64. rewrite (ld_block h1 h2); [done|]. by apply Hold. }
  assert (ld_ptr h2 (padd l (f_offset f)) = Ok (Some (n, 0))) as Hq2.
  { rewrite <- Hq. unfold ld_ptr. rewrite (ld_block h1 h2); [done|]. by apply Hold. }
  destruct (traverse _ tl) as [vs|m].
  - destruct Hout as (-> & -> & Hvs & Hown & Hlive). exists 0, h2, n2, e. split; [done|]. split; [done|]. split; [done|]. split; [done|].
    unfold read_field_with, owned_field. rewrite Htype, Hcount2, Ok_bind, Hq2, Ok_bind.
    destruct (array_element_ptrs (n, 0) h2) as [Hread Hjoin]. unfold own_at in Hjoin.
    rewrite Hread, Hvs, Ok_bind, Hjoin, Hown. split; [done|].
    split.
    + change (block_of _) with [(n, 0)].
      replace [(n, 0)] with (blocks n (n + 1)) by (unfold blocks; by replace (n + 1 - n) with 1 by lia).
      apply alloc_blocks_join; lia.
    + intros a Ha. destruct (decide (a = n)) as [->|]; [|apply Hlive; lia]. by eapply array_live.
  - destruct Hout as (-> & ->). cbn [Z.ltb Z.compare].
    destruct (array_live h1 h2 n n2 _ Hch2 Hz1) as [bk Hbk].
    eexists (-1), (delete n h2), n2, _. split.
    + unfold element_fails. erewrite bind_run by reflexivity. erewrite bind_run by reflexivity.
      erewrite bind_run; [|unfold load; cbn [pplus mbind option_bind c_heap]; by rewrite Hq2].
      erewrite bind_run; [reflexivity|]. unfold free. cbn [c_heap c_next c_error release fst snd].
      rewrite Hbk. reflexivity.
    + split; [|done]. destruct Hch as [? ? O L A]. split; [done| | | |].
      * intros a [x Ha]. apply lookup_delete_Some in Ha as [_ Ha]. eauto.
      * intros a Ha Hne. rewrite lookup_delete_ne by lia. by apply O.
      * by rewrite lookup_delete_ne by lia.
      * intros o k Ho. rewrite <- A by done. apply ld_block. simpl. by rewrite lookup_delete_ne by lia.
Qed.
End array.

(** *** Fields and objects *)

Lemma small_member t k m : small (Some t) → jt_get t k = Some m → small (Some m).
Proof.
  intros Hs Hg. destruct t as [| | | | | |ms]; try done. cbn in Hs, Hg.
  destruct (assoc ms k) as [m'|] eqn:Ha; [|done]. destruct m'; try done; injection Hg as <-; cbn in *; try lia.
  all: assert (∃ k', (k', _) ∈ ms) as (k' & Hin) by
    (clear Hs; revert Ha; induction ms as [|[k' t'] ms IH]; cbn; [done|]; case_decide;
       [intros [= ->]; eexists; left|intros Hm; destruct (IH Hm) as [k'' ?]; eexists; by right]).
  all: pose proof (proj1 (list_max_le ((λ kt, jt_width kt.2) <$> ms) _) (Nat.le_refl _)) as Hall;
    rewrite Forall_forall in Hall; specialize (Hall _ (list_elem_of_fmap_2 _ _ _ Hin)); cbn in Hall; lia.
Qed.

Lemma decode_field_spec f sz j h n e l :
  field_ok sz f → decodes (f_obj f) → pairwise_apart (footprint f) = true → small (Some (view j)) →
  zeroed_all h l (footprint f) → fresh_above h n → l.1 < n →
  decoded l (footprint f) h n e
    (λ h, read_field (read_value (f_obj f)) f h l) (λ h, owned_field (owned (f_obj f)) f h l)
    (field_spec (value_spec (o_type (f_obj f)) (decode_spec (f_obj f))) f (view j))
    (decode_field avail (priskv_value_decode avail (o_type (f_obj f)) (__priskv_decode_obj avail (f_obj f)))
       f (Some j) (Some l) (CS h n e)).
Proof.
  intros Hok Hobj Hpw Hsm Hz Hf Hl. unfold decode_field, field_spec.
  pose proof (law_get j (f_name f)) as Hget. pose proof (small_member (view j) (f_name f)) as Hsub.
  destruct (json_object_object_get (Some j) (f_name f)) as [m|]; rewrite <- Hget in Hsub |- *; cbn [fmap option_fmap option_map] in *.
  2:{ destruct (f_required f); [by apply decoded_fails|]. exists 0, h, n, e. split; [done|]. split; [by apply changes_refl|].
      rewrite blocks_nil. split; [done|]. split; [done|]. apply (proj2 (and_assoc _ _ _)). split; [|lia].
      unfold read_field_with, owned_field, zero_field, zeroed_all, footprint in *. destruct (f_type f).
      - apply zero_read; [apply Hok|]. apply (Hz (_, _)). left.
      - destruct (ld_zero h (padd l (f_noffset f)) 8) as (_ & _ & H1); [apply (Hz (_, 8)); right; left|].
        destruct (ld_zero h (padd l (f_offset f)) 8) as (_ & _ & H2); [apply (Hz (_, 8)); left|].
        destruct H1 as [-> _]; [done|]. by destruct H2 as [_ ->]. }
  specialize (Hsub _ Hsm eq_refl). pose proof (fo_layout _ _ Hok) as Hlay.
  assert (o_type (f_obj f) ≠ priskv_obj_type_max) as Hmax by (intros Hm; destruct (f_obj f); cbn in *; by subst).
  destruct (o_type (f_obj f)) eqn:Hty; try done; rewrite <- Hty in *; clear Hmax.
  all: destruct (f_type f) eqn:Hft.
  all: try (unfold footprint, zeroed_all in *; rewrite Hft in *;
    destruct (Hobj (Some m) h n (padd l (f_offset f)) e Hsub (Hz (_, _) (list_elem_of_here _ _)) Hf Hl)
      as (r & h' & n' & e' & Hrun & Hch & Hout); apply changes_shift in Hch;
    erewrite bind_run by exact Hrun; cbn [fmap option_fmap option_map] in Hout;
    destruct (value_spec _ _ _) as [v|x]; [|idtac];
      [destruct Hout as (-> & -> & Hv & Hown & Hlive); exists 0, h', n', e; unfold read_field_with, owned_field; by rewrite Hft
      |destruct Hout as (-> & ->); eexists (-1), h', n', _; by split]).
  all: destruct (view m) as [| | | | |tl|] eqn:Hview.
  all: try (unfold decode_array; rewrite law_type; cbn [fmap option_fmap option_map]; rewrite Hview, decide_True by done;
    by apply decoded_fails).
  all: apply (decode_array_spec f sz m tl l Hok Hft Hobj); [|done..].
  all: unfold footprint in Hpw; rewrite Hft in Hpw; cbn in Hpw; by apply andb_true_iff in Hpw as [[? _]%andb_true_iff _].
Qed.

Lemma pairwise_member {X} (fp : X → list (Z * Z)) xs x :
  pairwise_apart (mjoin (fp <$> xs)) = true → x ∈ xs → pairwise_apart (fp x) = true.
Proof.
  induction xs as [|y xs IH]; intros Hp Hx; [by apply elem_of_nil in Hx|].
  change (mjoin _) with (fp y ++ mjoin (fp <$> xs)) in Hp. apply elem_of_cons in Hx as [->|Hx].
  - clear IH. revert Hp. induction (fp y) as [|r F IH]; [done|]. simpl. rewrite !andb_true_iff, !forallb_Forall, Forall_app.
    intros [[? _] ?]. auto.
  - apply pairwise_cons in Hp as [_ Hp]. auto.
Qed.

Lemma footprint_within n fs r : Forall (field_ok n) fs → r ∈ mjoin (footprint <$> fs) → 0 <= r.1 ∧ 0 <= r.2 ∧ r.1 + r.2 <= n.
Proof.
  intros Hok Hr. apply list_elem_of_join in Hr as (F & Hr & HF). apply list_elem_of_fmap in HF as (f & -> & Hf).
  rewrite Forall_forall in Hok. by apply (fo_within _ _ (Hok f Hf)).
Qed.

Lemma changes_whole h h' n n' l F size :
  changes h h' n n' l F → (∀ r, r ∈ F → 0 <= r.1 ∧ 0 <= r.2 ∧ r.1 + r.2 <= size) → changes h h' n n' l [(0, size)].
Proof.
  intros [? ? ? ? A] HF. split; [done..|]. intros o m Ho. apply A. intros r Hr.
  specialize (Ho _ (list_elem_of_here _ _)). apply HF in Hr. simpl in Ho. lia.
Qed.

Lemma decode_fields_spec size fs j h n e l :
  let o := mk_object priskv_obj_type_object size fs in
  layout_ok o = true → Forall (λ f, decodes (f_obj f)) fs → small (Some (view j)) →
  zeroed h l size → fresh_above h n → l.1 < n →
  decoded l [(0, size)] h n e (λ h, read_value o h l) (λ h, owned o h l)
    (match decode_spec o (view j) with inl vs => inl (VStruct vs) | inr m => inr m end)
    (__priskv_decode_obj avail o (Some j) (Some l) (CS h n e)).
Proof.
  intros o Hlay Hfs Hsm Hz Hf Hl. pose proof (layout_inv _ _ Hlay) as (Hn & Hok & Hpw & _).
  destruct (decode_loop
    (λ f, decode_field avail (priskv_value_decode avail (o_type (f_obj f)) (__priskv_decode_obj avail (f_obj f))) f (Some j) (Some l))
    footprint (λ f h, read_field (read_value (f_obj f)) f h l) (λ f h, owned_field (owned (f_obj f)) f h l)
    (λ f, field_spec (value_spec (o_type (f_obj f)) (decode_spec (f_obj f))) f (view j)) (λ _, True) l n fs) with (h := h) (n := n) (e := e)
    as (r & h' & n' & e' & Hrun & Hch & Hout); try done.
  - intros f h1 n1 e1 Hin _ _ Hz1 Hf1 Hl1. rewrite Forall_forall in Hok, Hfs.
    apply (decode_field_spec f size); [by apply Hok|by apply Hfs|by eapply pairwise_member|done..].
  - intros f Hin. rewrite Forall_forall in Hok. pose proof (fo_layout _ _ (Hok f Hin)).
    apply framed_field; [done|by apply framed_value].
  - intros r Hr. destruct (footprint_within _ _ _ Hok Hr) as (? & ? & ?). by eapply zeroed_sub.
  - exists r, h', n', e'. split; [exact Hrun|]. split.
    { eapply changes_whole; [exact Hch|]. intros x Hx. by apply (footprint_within _ fs). }
    cbn [decode_spec o]. destruct (traverse _ fs) as [vs|m]; [|done]. destruct Hout as (-> & -> & Hvs & Hown).
    split; [done|]. split; [done|]. cbn [read_with owned o]. cbn in Hvs. rewrite Hvs. split; [done|]. exact Hown.
Qed.

Lemma decodes_all o : layout_ok o = true → decodes o.
Proof.
  induction o as [t size fs IH] using object_ind. intros Hlay. destruct t; try done.
  - cbn in Hlay. apply Z.eqb_eq in Hlay as ->. apply decode_boolean_spec.
  - cbn in Hlay. apply Z.eqb_eq in Hlay as ->. apply decode_int_spec.
  - cbn in Hlay. apply Z.eqb_eq in Hlay as ->. apply decode_uint64_spec.
  - cbn in Hlay. apply Z.eqb_eq in Hlay as ->. apply decode_string_spec.
  - intros jobj h n l e Hsm Hz Hf Hl. cbn [o_type o_size priskv_value_decode value_spec].
    pose proof (layout_inv _ _ Hlay) as (_ & Hok & _).
    unfold __priskv_decode_object. on_type jobj Hview. rewrite <- Hview. apply decode_fields_spec; try done.
    + rewrite Forall_forall in IH, Hok |- *. intros f Hf'. apply IH; [done|]. by apply (fo_layout _ _ (Hok f Hf')).
Qed.
End refine.

(** ** Freeing *)

Lemma lookup_without qs h a : without qs h !! a = if decide (a ∈ qs.*1) then None else h !! a.
Proof.
  induction qs as [|q qs IH]; [done|]. cbn [without foldr fmap list_fmap].
  destruct (decide (a = q.1)) as [->|Hne].
  - rewrite lookup_delete_eq. by rewrite decide_True by left.
  - rewrite lookup_delete_ne by done. fold (without qs h). rewrite IH. apply decide_ext.
    rewrite elem_of_cons. naive_solver.
Qed.

Lemma without_app qs qs' h : without qs' (without qs h) = without (qs ++ qs') h.
Proof.
  apply map_eq. intros a. rewrite !lookup_without, fmap_app.
  destruct (decide (a ∈ qs.*1 ++ qs'.*1)) as [Ha|Ha]; rewrite elem_of_app in Ha; repeat case_decide; tauto.
Qed.

(** The blocks of a part can be freed: pointers to the start of live blocks, each
    once, and none of the blocks [K]. *)
Record cleanable {A} (read : heap → res A) (own : heap → list loc) (K : list Z) (h : heap) : Prop := {
  cl_read : ∃ v, read h = Ok v;
  cl_nodup : NoDup (own h).*1;
  cl_start : ∀ q, q ∈ own h → q.2 = 0 ∧ is_Some (h !! q.1);
  cl_keep : ∀ q, q ∈ own h → q.1 ∉ K
}.

Section clean.
Context {JC : JsonC}.

Lemma clean_loop {X A} (body : X → ST cstate Z) (fp : X → list (Z * Z)) (read : X → heap → res A)
    (own : X → heap → list loc) K (I : heap → Prop) l xs :
  l.1 ∈ K →
  (∀ x h n e, x ∈ xs → I h → cleanable (read x) (own x) K h →
     body x (CS h n e) = Ok (0, CS (without (own x h) h) n e)) →
  (∀ x, x ∈ xs → framed (read x) (own x) l (fp x)) →
  (∀ h qs, (∀ q, q ∈ qs → q.1 ∉ K) → I h → I (without qs h)) →
  ∀ h n e, I h →
  cleanable (λ h, mapR (λ x, read x h) xs) (λ h, mjoin ((λ x, own x h) <$> xs)) K h →
  for_all body xs (CS h n e) = Ok (0, CS (without (mjoin ((λ x, own x h) <$> xs)) h) n e).
Proof.
  intros Hl Hbody Hfr HI. induction xs as [|x xs IH]; intros h n e HIh [[vs Hr] Hnd Hst Hk]; [done|].
  change (mjoin ((λ x, own x h) <$> x :: xs)) with (own x h ++ mjoin ((λ x, own x h) <$> xs)) in *.
  cbn in Hr. apply bind_Ok in Hr as (v & Hv & Hr). apply bind_Ok in Hr as (vs' & Hvs & _).
  rewrite fmap_app in Hnd. apply NoDup_app in Hnd as (Hnd1 & Hdis & Hnd2).
  cbn [for_all]. erewrite bind_run; [|apply Hbody; [left|done|]].
  2:{ split; [by eexists|done| |]; intros q Hq; [apply Hst|apply Hk]; apply elem_of_app; by left. }
  cbn [Z.ltb Z.compare]. set (h1 := without (own x h) h).
  assert (∀ a, a ∉ (own x h).*1 → h1 !! a = h !! a) as Hsame.
  { intros a Ha. unfold h1. by rewrite lookup_without, decide_False. }
  assert (∀ a, a ∈ (mjoin ((λ x, own x h) <$> xs)).*1 → h1 !! a = h !! a) as Hrest.
  { intros a Ha. apply Hsame. intros Hin. by apply (Hdis a). }
  assert (∀ y, y ∈ xs → read y h1 = read y h ∧ own y h1 = own y h) as Hy.
  { intros y Hy. apply (Hfr y); [by right| |].
    - intros r _. apply agree_block. apply Hsame. intros Hin. apply list_elem_of_fmap in Hin as (q & Hq & Hin).
      apply (Hk q); [apply elem_of_app; by left|]. simpl in Hq. by rewrite <- Hq.
    - intros q Hq. apply Hrest. apply list_elem_of_fmap. exists q. split; [done|]. apply list_elem_of_join.
      exists (own y h). split; [done|]. apply list_elem_of_fmap. by exists y. }
  assert (mjoin ((λ x, own x h1) <$> xs) = mjoin ((λ x, own x h) <$> xs)) as Hown.
  { f_equal. apply fmap_ext_in. intros y Hin. by apply Hy. }
  rewrite IH.
  - rewrite Hown. unfold h1. by rewrite without_app.
  - intros y h2 n2 e2 Hin. apply Hbody. by right.
  - intros y Hin. apply Hfr. by right.
  - apply HI; [|done]. intros q Hq. apply Hk, elem_of_app. by left.
  - split.
    + exists vs'. rewrite <- Hvs. apply mapR_ext. intros y Hin. by apply Hy.
    + by rewrite Hown.
    + intros q Hq. rewrite Hown in Hq. destruct (Hst q) as [? ?]; [apply elem_of_app; by right|]. split; [done|].
      rewrite Hrest; [done|]. by apply list_elem_of_fmap_2.
    + intros q Hq. rewrite Hown in Hq. apply Hk, elem_of_app. by right.
Qed.

Definition cleans (o : priskv_object) : Prop := ∀ h n e l K,
  l.1 ∈ K → cleanable (λ h, read_value o h l) (λ h, owned o h l) K h →
  priskv_value_decode_clean (o_type o) (__priskv_free_struct o) (Some l) (CS h n e)
  = Ok (0, CS (without (owned o h l) h) n e).

Lemma free_start q h n e : q.2 = 0 → is_Some (h !! q.1) → free (Some q) (CS h n e) = Ok (tt, CS (delete q.1 h) n e).
Proof. intros Hq [bk Hbk]. unfold free, release. cbn [c_heap]. rewrite Hbk, Hq. done. Qed.

Lemma clean_field_array clean f data :
  f_type f = priskv_obj_field_type_array → o_type (f_obj f) ≠ priskv_obj_type_max →
  clean_field clean f data
  = (len ← load ld_u64 (pplus data (f_noffset f));
     r ← for_all (clean_element clean f data) (seqZ 0 len);
     if r <? 0 then mret r else base ← load ld_ptr (pplus data (f_offset f)); _ ← free base; mret 0).
Proof. intros Hty Hmax. unfold clean_field. rewrite Hty. by destruct (o_type (f_obj f)). Qed.

(** The elements of an array at [q]. *)
Lemma clean_elements_spec f h n e l q len (K : list Z) vs :
  layout_ok (f_obj f) = true → cleans (f_obj f) → l.1 ∈ K → q.1 ∉ (mjoin (own_at (owned (f_obj f)) h <$> element_ptrs (Some q) (o_size (f_obj f)) len)).*1 →
  ld_ptr h (padd l (f_offset f)) = Ok (Some q) →
  mapR (read_at (read_value (f_obj f)) h) (element_ptrs (Some q) (o_size (f_obj f)) len) = Ok vs →
  let els := mjoin (own_at (owned (f_obj f)) h <$> element_ptrs (Some q) (o_size (f_obj f)) len) in
  NoDup els.*1 → (∀ p, p ∈ els → (p.2 = 0 ∧ is_Some (h !! p.1)) ∧ p.1 ∉ K) →
  for_all (clean_element (priskv_value_decode_clean (o_type (f_obj f)) (__priskv_free_struct (f_obj f))) f (Some l))
    (seqZ 0 len) (CS h n e) = Ok (0, CS (without els h) n e).
Proof.
  intros Hlay Hcl HK Hq1 Hq Hvs els Hnd Hels'. set (size := o_size (f_obj f)) in *.
  assert (els = mjoin ((λ i, owned (f_obj f) h (padd q (size * i))) <$> seqZ 0 len)) as Hels.
  { unfold els, element_ptrs. by rewrite <- list_fmap_compose. }
  rewrite Hels. apply (clean_loop _ (λ i, [(size * i, size)]) (λ i h, read_value (f_obj f) h (padd q (size * i)))
    (λ i h, owned (f_obj f) h (padd q (size * i))) (q.1 :: K) (λ h', h' !! l.1 = h !! l.1) q).
  - left.
  - intros i h1 n1 e1 _ HI Hc. unfold clean_element.
    assert (ld_ptr h1 (padd l (f_offset f)) = Ok (Some q)) as Hq2.
    { rewrite <- Hq. unfold ld_ptr. by rewrite (ld_block h h1). }
    erewrite bind_run; [|unfold load; cbn [pplus mbind option_bind c_heap]; by rewrite Hq2].
    erewrite bind_run; [|apply (Hcl h1 n1 e1 (padd q (size * i)) (q.1 :: K)); [left|done]]. done.
  - intros i _ h1 h2 Ha Hown. apply framed_value; [done| |done].
    intros r Hr. apply list_elem_of_singleton in Hr as ->. rewrite padd_0. apply (Ha (size * i, size)). left.
  - intros h1 qs Hqs HI. rewrite lookup_without, decide_False; [done|].
    intros Hin. apply list_elem_of_fmap in Hin as (p & Hp & Hin). apply (Hqs p Hin). rewrite <- Hp. by right.
  - done.
  - split.
    + exists vs. rewrite <- Hvs. unfold element_ptrs. by rewrite mapR_fmap.
    + by rewrite <- Hels.
    + intros p Hp. rewrite <- Hels in Hp. by apply Hels'.
    + intros p Hp. rewrite <- Hels in Hp. apply not_elem_of_cons. split; [|by apply Hels'].
      intros Heq. apply Hq1. rewrite <- Heq. by apply list_elem_of_fmap_2.
Qed.

Lemma clean_array_spec f h n e l K :
  f_type f = priskv_obj_field_type_array → layout_ok (f_obj f) = true → o_type (f_obj f) ≠ priskv_obj_type_max →
  cleans (f_obj f) → l.1 ∈ K →
  cleanable (λ h, read_field (read_value (f_obj f)) f h l) (λ h, owned_field (owned (f_obj f)) f h l) K h →
  clean_field (priskv_value_decode_clean (o_type (f_obj f)) (__priskv_free_struct (f_obj f))) f (Some l) (CS h n e)
  = Ok (0, CS (without (owned_field (owned (f_obj f)) f h l) h) n e).
Proof.
  intros Hty Hlay Hmax Hcl HK [[v Hr] Hnd Hst Hk]. unfold read_field_with, owned_field in *. rewrite Hty in *.
  apply bind_Ok in Hr as (len & Hlen & Hr). apply bind_Ok in Hr as (q & Hq & Hr). apply bind_Ok in Hr as (vs & Hvs & _).
  rewrite Hlen, Hq in *. set (size := o_size (f_obj f)) in *.
  rewrite (clean_field_array _ f (Some l) Hty Hmax).
  erewrite bind_run; [|unfold load; cbn [pplus mbind option_bind c_heap]; by rewrite Hlen].
  set (els := mjoin (_ <$> element_ptrs q size len)) in *.
  assert (for_all (clean_element (priskv_value_decode_clean (o_type (f_obj f)) (__priskv_free_struct (f_obj f))) f (Some l))
    (seqZ 0 len) (CS h n e) = Ok (0, CS (without els h) n e)) as Hloop.
  { destruct q as [q|].
    - cbn in Hnd, Hst, Hk. apply NoDup_cons in Hnd as [Hq1 Hnd].
      apply (clean_elements_spec f h n e l q len K vs); try done. intros p Hp. split; [apply Hst|apply Hk]; by right.
    - unfold els, element_ptrs in *. destruct (decide (0 < len)); [|by rewrite seqZ_nil by lia].
      exfalso. rewrite (seqZ_cons 0) in Hvs by lia. done. }
  erewrite bind_run by exact Hloop. cbn [Z.ltb Z.compare].
  assert (l.1 ∉ els.*1) as Hl.
  { intros Hin. apply list_elem_of_fmap in Hin as (p & Hp & Hin). apply (Hk p); [apply elem_of_app; by right|by rewrite <- Hp]. }
  assert (ld_ptr (without els h) (padd l (f_offset f)) = Ok q) as Hq1.
  { rewrite <- Hq. unfold ld_ptr. rewrite (ld_block h); [done|]. cbn. by rewrite lookup_without, decide_False. }
  erewrite bind_run; [|unfold load; cbn [pplus mbind option_bind c_heap]; by rewrite Hq1].
  destruct q as [q|]; [|done]. cbn in Hnd, Hst. apply NoDup_cons in Hnd as [Hq2 _].
  destruct (Hst q) as [Hq0 Hlive]; [left|]. erewrite bind_run; [reflexivity|].
  rewrite free_start; [done|done|]. by rewrite lookup_without, decide_False.
Qed.

Lemma clean_field_spec f h n e l K :
  layout_ok (f_obj f) = true → cleans (f_obj f) → l.1 ∈ K →
  cleanable (λ h, read_field (read_value (f_obj f)) f h l) (λ h, owned_field (owned (f_obj f)) f h l) K h →
  clean_field (priskv_value_decode_clean (o_type (f_obj f)) (__priskv_free_struct (f_obj f))) f (Some l) (CS h n e)
  = Ok (0, CS (without (owned_field (owned (f_obj f)) f h l) h) n e).
Proof.
  intros Hlay Hcl HK Hc.
  assert (o_type (f_obj f) ≠ priskv_obj_type_max) as Hmax by (intros Hm; destruct (f_obj f); cbn in *; by subst).
  destruct (f_type f) eqn:Hty; [|by eapply clean_array_spec].
  specialize (Hcl h n e (padd l (f_offset f)) K HK). unfold read_field_with, owned_field in *. rewrite Hty in *.
  specialize (Hcl Hc). unfold clean_field. rewrite Hty. cbn [pplus mbind option_bind].
  destruct (o_type (f_obj f)); try done; by erewrite bind_run by exact Hcl.
Qed.

Lemma cleans_all o : layout_ok o = true → cleans o.
Proof.
  induction o as [t size fs IH] using object_ind. intros Hlay h n e l K HK Hc.
  destruct t; cbn [o_type priskv_value_decode_clean]; try done.
  - unfold __priskv_decode_string_clean. destruct Hc as [[v Hr] Hnd Hst Hk]. cbn [read_with owned] in *.
    apply bind_Ok in Hr as (q & Hq & Hr). rewrite Hq in *.
    erewrite bind_run; [|unfold load; cbn [c_heap]; by rewrite Hq].
    destruct q as [q|]; [|done]. destruct (Hst q) as [? ?]; [left|]. by erewrite bind_run by (by apply free_start).
  - pose proof (layout_inv _ _ Hlay) as (_ & Hok & _). rewrite Forall_forall in IH, Hok.
    apply (clean_loop _ footprint (λ f h, read_field (read_value (f_obj f)) f h l) (λ f h, owned_field (owned (f_obj f)) f h l)
      K (λ _, True) l); [done| | |done|done|].
    + intros f h1 n1 e1 Hf _ Hc1. pose proof (fo_layout _ _ (Hok f Hf)). by apply (clean_field_spec f h1 n1 e1 l K); [|apply IH|..].
    + intros f Hf. pose proof (fo_layout _ _ (Hok f Hf)). apply framed_field; [done|by apply framed_value].
    + destruct Hc as [[v Hr] Hnd Hst Hk]. split; [|done..]. cbn [read_with] in Hr. apply bind_Ok in Hr as (vs & Hvs & _). by exists vs.
Qed.
End clean.
