(* ===== verification/CodecCode.v ===== *)
(** * Writing structures as JSON

    Coding a structure in memory gives the tree that [code_spec] gives for the value
    there, and changes nothing. *)

From S2P Require Import Prelude State CString CMem Codec CodecSpec CodecMem.

Local Open Scope Z_scope.

Section code.
Context {JC : JsonC} {JL : JsonLaws JC}.
Context (strerror_errno : list Z).

(** A run that makes the tree [t] and leaves the state alone. *)
Definition makes (run : ST cstate (option json)) (s : cstate) (t : jtree) : Prop :=
  ∃ j, run s = Ok (Some j, s) ∧ view j = t.

Definition codes (o : priskv_object) : Prop := ∀ s l v,
  seen_value o (c_heap s) l = Ok v → typed o v →
  makes (priskv_value_code (o_type o) (__priskv_code_obj strerror_errno o) (Some l)) s (code_spec o v).

Lemma view_Some (o : option json) t : view <$> o = Some t → ∃ j, o = Some j ∧ view j = t.
Proof. destruct o as [j|]; [|done]. intros [= <-]. eauto. Qed.

(** A load and a constructor. *)
Lemma makes_load {A} (f : heap → loc → res A) (mk : A → option json) s l a t :
  f (c_heap s) l = Ok a → view <$> mk a = Some t → makes (a ← load f (Some l); mret (mk a)) s t.
Proof.
  intros Hf Hmk. apply view_Some in Hmk as (j & Hj & Hv). exists j. split; [|done].
  erewrite bind_run; [|unfold load; by rewrite Hf]. by rewrite Hj.
Qed.

Lemma assoc_add_new ms k t : k ∉ ms.*1 → assoc_add ms k t = ms ++ [(k, t)].
Proof.
  induction ms as [|[k' t'] ms IH]; intros Hk; [done|]. cbn in Hk |- *. apply not_elem_of_cons in Hk as [? ?].
  rewrite decide_False by done. by rewrite IH.
Qed.

Lemma add_field_spec s jobj ms f e :
  view jobj = JObject ms → f_name f ∉ ms.*1 →
  makes (add_field jobj f e) s (JObject (ms ++ [(f_name f, view e)])).
Proof.
  intros Hv Hn. pose proof (law_object_add jobj ms (f_name f) e Hv) as Ha. apply view_Some in Ha as (j & Hj & Hvj).
  exists j. unfold add_field. rewrite Hj. split; [done|]. by rewrite Hvj, assoc_add_new.
Qed.

(** The elements of an array. *)
Lemma code_elements f s l q js vs :
  codes (f_obj f) → ld_ptr (c_heap s) (padd l (f_offset f)) = Ok q →
  mapR (read_at (seen_value (f_obj f)) (c_heap s)) ((λ j, pplus q (o_size (f_obj f) * j)) <$> js) = Ok vs →
  Forall (typed (f_obj f)) vs →
  ∀ arr ts, view arr = JArray ts →
  makes (for_json (code_element (priskv_value_code (o_type (f_obj f)) (__priskv_code_obj strerror_errno (f_obj f))) f (Some l)) js arr)
    s (JArray (ts ++ (code_spec (f_obj f) <$> vs))).
Proof.
  intros Hobj Hq. revert vs. induction js as [|i js IH]; intros vs Hvs Hty arr ts Harr.
  - injection Hvs as <-. exists arr. split; [done|]. by rewrite app_nil_r.
  - cbn in Hvs. apply bind_Ok in Hvs as (v & Hv & Hvs). apply bind_Ok in Hvs as (vs' & Hvs & [= <-]).
    apply Forall_cons in Hty as [Ht Hty]. destruct q as [q|]; [|done].
    destruct (Hobj s (padd q (o_size (f_obj f) * i)) v Hv Ht) as (e & Hrun & Hve).
    pose proof (law_array_add arr ts e Harr) as Ha. apply view_Some in Ha as (arr' & Harr' & Hva).
    destruct (IH vs' Hvs Hty arr' (ts ++ [view e]) Hva) as (res & Hres & Hvres).
    exists res. split.
    + cbn [for_json]. rewrite (bind_run _ _ _ (Some arr') s); [exact Hres|]. unfold code_element.
      erewrite bind_run; [|unfold load; cbn [pplus mbind option_bind]; by rewrite Hq].
      erewrite bind_run by exact Hrun. cbn iota beta. by rewrite Harr'.
    + rewrite Hvres, <- app_assoc. cbn. by rewrite Hve.
Qed.

Lemma ignored_spec o s l v :
  layout_ok o = true → seen_value o (c_heap s) l = Ok v →
  priskv_value_is_ignored (o_type o) (Some l) s = Ok (is_zero v, s).
Proof.
  destruct o as [t n fs]. intros Hlay Hr. destruct t; cbn in Hlay |- *; try done;
    cbn [read_with] in Hr; apply bind_Ok in Hr as (x & Hx & Hr).
  - injection Hr as <-. done.
  - injection Hr as <-. unfold __priskv_code_int_ignored. by erewrite bind_run by (unfold load; by rewrite Hx).
  - injection Hr as <-. unfold __priskv_code_uint64_ignored. by erewrite bind_run by (unfold load; by rewrite Hx).
  - unfold __priskv_code_string_ignored. erewrite bind_run by (unfold load; by rewrite Hx).
    destruct x; [|by injection Hr as <-]. apply bind_Ok in Hr as (y & _ & Hr). by injection Hr as <-.
  - injection Hr as <-. done.
Qed.

(** The type of the value of a field, and its tree. *)
Definition typed_field (f : field) (v : value) : Prop :=
  match f_type f, v with
  | priskv_obj_field_type_value, v => typed (f_obj f) v
  | priskv_obj_field_type_array, VArray vs => Z.of_nat (length vs) < 2 ^ 31 ∧ Forall (typed (f_obj f)) vs
  | _, _ => False
  end.

Definition field_tree (f : field) (v : value) : jtree :=
  match v with VArray l => JArray (code_spec (f_obj f) <$> l) | v => code_spec (f_obj f) v end.

Lemma foldr_Forall {A} (P : A → Prop) (l : list A) : foldr (λ x Q, P x ∧ Q) True l ↔ Forall P l.
Proof. induction l as [|x l IH]; cbn; [split; [constructor|done]|]. by rewrite Forall_cons, IH. Qed.

Lemma with_values_iff {A} (g g' : A → value → Prop) (l : list A) : ∀ vs, (∀ x v, g x v ↔ g' x v) →
  foldr and True (with_values g l vs) ↔ foldr and True (with_values g' l vs).
Proof. induction l as [|x l IH]; intros [|v vs] Hg; cbn; [done..|]. by rewrite Hg, IH. Qed.

Lemma typed_struct n fs v : typed (mk_object priskv_obj_type_object n fs) v ↔
  ∃ vs, v = VStruct vs ∧ length vs = length fs ∧ foldr and True (with_values typed_field fs vs).
Proof.
  cbn [typed]. destruct v as [| | | |vs|]; try (split; [done|by intros (? & ? & _)]).
  rewrite (with_values_iff _ typed_field).
  - split; [intros [? ?]; by exists vs|by intros (? & [= <-] & ?)].
  - intros f v. unfold typed_field. destruct (f_type f); [done|]. destruct v; try done. by rewrite foldr_Forall.
Qed.

Lemma length_mapR {A B} (f : A → res B) l : ∀ l', mapR f l = Ok l' → length l' = length l.
Proof.
  induction l as [|x l IH]; intros l' Hl; [by injection Hl as <-|]. cbn in Hl.
  apply bind_Ok in Hl as (y & _ & Hl). apply bind_Ok in Hl as (ys & Hys & [= <-]). cbn. by rewrite (IH _ Hys).
Qed.

Lemma ld_count_inv h l z : ld_count h l = Ok z → ld_int h l = Ok z ∧ 0 <= z < 2 ^ 31.
Proof.
  unfold ld_count. intros Hz. apply bind_Ok in Hz as (z' & Hz' & Hz). destruct (Z.ltb_spec z' 0); [done|]. injection Hz as ->.
  split; [done|]. unfold ld_int in Hz'. apply bind_Ok in Hz' as (bs & _ & Hz'). apply bind_Ok in Hz' as (w & _ & [= <-]).
  pose proof (s32_range w). lia.
Qed.

Lemma code_field_array f s l v jobj ms :
  codes (f_obj f) → layout_ok (f_obj f) = true → f_type f = priskv_obj_field_type_array →
  seen_field (seen_value (f_obj f)) f (c_heap s) l = Ok v → typed_field f v →
  view jobj = JObject ms → f_name f ∉ ms.*1 →
  makes (code_field strerror_errno (priskv_value_code (o_type (f_obj f)) (__priskv_code_obj strerror_errno (f_obj f))) f (Some l) jobj)
    s (JObject (ms ++ member f v (field_tree f v))).
Proof.
  intros Hobj Hlay Hft Hr Hty Hv Hn. unfold typed_field, read_field_with, code_field, member, field_tree in *. rewrite Hft in *.
  apply bind_Ok in Hr as (len & Hlen & Hr). apply bind_Ok in Hr as (q & Hq & Hr). apply bind_Ok in Hr as (vs & Hvs & [= <-]).
  destruct Hty as [Hsmall Hty]. apply ld_count_inv in Hlen as [Hint Hpos].
  pose proof (length_mapR _ _ _ Hvs) as Hl. unfold element_ptrs in Hl. rewrite length_fmap, length_seqZ in Hl.
  assert (priskv_obj_type_max ≠ o_type (f_obj f)) as Hmax by (destruct (f_obj f) as [[] ? ?]; done).
  assert (makes (
          len ← load ld_int (pplus (Some l) (f_noffset f));
          if f_ignored f && (len =? 0) then mret (Some jobj)
          else
            match json_object_new_array_ext len with
            | None =>
                fails_null (str "failed to new json array object for `" ++ f_name f ++ str "`: " ++ strerror_errno)%list
            | Some arr =>
                o ← for_json (code_element (priskv_value_code (o_type (f_obj f)) (__priskv_code_obj strerror_errno (f_obj f))) f (Some l)) (seqZ 0 (u64 len)) arr;
                match o with
                | None => mret None
                | Some field_obj => add_field jobj f field_obj
                end
            end) s (JObject (ms ++ (if f_ignored f && is_zero (VArray vs) then [] else [(f_name f, JArray (code_spec (f_obj f) <$> vs))])))) as Hmk.
  2:{ by destruct (o_type (f_obj f)). }
  assert (is_zero (VArray vs) = (len =? 0)) as ->.
  { destruct vs; cbn in *; [symmetry; apply Z.eqb_eq; lia|]. symmetry. apply Z.eqb_neq. lia. }
  unfold makes. erewrite bind_run; [|unfold load; cbn [pplus mbind option_bind]; by rewrite Hint].
  destruct (f_ignored f && (len =? 0)); [exists jobj; split; [done|by rewrite app_nil_r]|].
  pose proof (law_new_array len) as Hnew. destruct (Z.ltb_spec len 0); [lia|]. apply view_Some in Hnew as (arr & -> & Harr).
  rewrite u64_small by lia.
  destruct (code_elements f s l q (seqZ 0 len) vs Hobj Hq Hvs Hty arr [] Harr) as (a & Ha & Hva).
  erewrite bind_run by exact Ha. cbn [app] in Hva. rewrite <- Hva. by apply add_field_spec.
Qed.

Lemma code_field_spec f s l v jobj ms :
  codes (f_obj f) → layout_ok (f_obj f) = true →
  seen_field (seen_value (f_obj f)) f (c_heap s) l = Ok v → typed_field f v →
  view jobj = JObject ms → f_name f ∉ ms.*1 →
  makes (code_field strerror_errno (priskv_value_code (o_type (f_obj f)) (__priskv_code_obj strerror_errno (f_obj f))) f (Some l) jobj)
    s (JObject (ms ++ member f v (field_tree f v))).
Proof.
  intros Hobj Hlay Hr Hty Hv Hn. destruct (f_type f) eqn:Hft; [|by apply code_field_array].
  unfold typed_field, read_field_with, code_field, member in *. rewrite Hft in *.
  pose proof (ignored_spec _ _ _ _ Hlay Hr) as Hig. destruct (Hobj s _ v Hr Hty) as (j & Hrun & Hvj).
  assert (field_tree f v = code_spec (f_obj f) v) as ->.
  { destruct v; try done. cbn. destruct (f_obj f) as [[] ? ?]; done. }
  assert ((if f_ignored f then priskv_value_is_ignored (o_type (f_obj f)) (pplus (Some l) (f_offset f)) else mret false) s
    = Ok (f_ignored f && is_zero v, s)) as Hskip by (by destruct (f_ignored f)).
  destruct (o_type (f_obj f)) eqn:Ht; try (by destruct (f_obj f) as [[] ? ?]).
  all: unfold makes; erewrite bind_run by exact Hskip; destruct (f_ignored f && is_zero v);
    [exists jobj; split; [done|by rewrite app_nil_r]|].
  all: erewrite bind_run by exact Hrun; rewrite <- Hvj; by apply add_field_spec.
Qed.

(** The members of a structure. *)
Definition members (fs : list field) (vs : list value) : list (list Z * jtree) :=
  mjoin (with_values (λ f v, member f v (field_tree f v)) fs vs).

Lemma code_fields_spec s l (fs : list field) : ∀ vs jobj ms,
  Forall (λ f, codes (f_obj f) ∧ layout_ok (f_obj f) = true) fs →
  mapR (λ f, seen_field (seen_value (f_obj f)) f (c_heap s) l) fs = Ok vs →
  foldr and True (with_values typed_field fs vs) →
  view jobj = JObject ms → NoDup (f_name <$> fs) → (∀ f, f ∈ fs → f_name f ∉ ms.*1) →
  makes (for_json (λ jobj f, code_field strerror_errno
      (priskv_value_code (o_type (f_obj f)) (__priskv_code_obj strerror_errno (f_obj f))) f (Some l) jobj) fs jobj)
    s (JObject (ms ++ members fs vs)).
Proof.
  induction fs as [|f fs IH]; intros vs jobj ms Hall Hr Hty Hv Hnd Hn.
  - injection Hr as <-. exists jobj. split; [done|]. by rewrite app_nil_r.
  - apply Forall_cons in Hall as [[Hc Hlay] Hall]. cbn in Hr. apply bind_Ok in Hr as (v & Hfv & Hr).
    apply bind_Ok in Hr as (vs' & Hvs & [= <-]). cbn in Hty. destruct Hty as [Ht Hty]. apply NoDup_cons in Hnd as [Hnf Hnd].
    destruct (code_field_spec f s l v jobj ms Hc Hlay Hfv Ht Hv) as (j1 & Hrun & Hv1); [apply Hn; left|].
    destruct (IH vs' j1 _ Hall Hvs Hty Hv1 Hnd) as (j2 & Hrun2 & Hv2).
    { intros g Hg Hin. rewrite fmap_app in Hin. apply elem_of_app in Hin as [Hin|Hin]; [apply (Hn g); [by right|done]|].
      unfold member in Hin. destruct (_ && _); [by apply elem_of_nil in Hin|]. cbn in Hin.
      apply list_elem_of_singleton in Hin. apply Hnf. rewrite <- Hin. by apply list_elem_of_fmap_2. }
    exists j2. split; [|by rewrite Hv2, <- app_assoc]. cbn [for_json].
    rewrite (bind_run _ _ _ (Some j1) s); [exact Hrun2|exact Hrun].
Qed.

Lemma codes_all o : layout_ok o = true → codes o.
Proof.
  induction o as [t n fs IH] using object_ind. intros Hlay s l v Hr Hty.
  destruct t; try done; cbn [o_type priskv_value_code read_with] in *; apply bind_Ok in Hr as (x & Hx & Hr).
  - injection Hr as <-. eapply makes_load; [exact Hx|]. apply law_new_boolean.
  - injection Hr as <-. eapply makes_load; [exact Hx|]. apply law_new_int.
  - injection Hr as <-. eapply makes_load; [exact Hx|]. apply law_new_uint64.
  - unfold makes, __priskv_code_string. erewrite bind_run; [|unfold load; by rewrite Hx]. destruct x as [q|].
    + apply bind_Ok in Hr as (str & Hs & [= <-]). eapply makes_load; [exact Hs|]. apply law_new_string.
    + injection Hr as <-. destruct (view_Some _ _ (law_new_string [])) as (j & -> & Hj). by exists j.
  - injection Hr as <-. apply typed_struct in Hty as (? & [= <-] & _ & Hty).
    pose proof (layout_inv _ _ Hlay) as (_ & Hok & _ & Hnd & _).
    destruct (view_Some _ _ law_new_object) as (jobj & Hnew & Hv).
    unfold __priskv_code_object, makes. cbn [__priskv_code_obj]. rewrite Hnew.
    apply (code_fields_spec s l fs x jobj []); try done.
    + rewrite Forall_forall in IH, Hok |- *. intros f Hf. pose proof (fo_layout _ _ (Hok f Hf)). auto.
    + intros f _. apply not_elem_of_nil.
Qed.
End code.

(** A value that was decoded is seen by coding as it is. *)
Lemma mapR_impl {A B} (f g : A → res B) l : ∀ ys, mapR f l = Ok ys →
  Forall2 (λ x y, f x = Ok y → g x = Ok y) l ys → mapR g l = Ok ys.
Proof.
  induction l as [|x l IH]; intros ys Hf Hall; [done|]. cbn in Hf. apply bind_Ok in Hf as (y & Hy & Hf).
  apply bind_Ok in Hf as (ys' & Hys & [= <-]). apply Forall2_cons in Hall as [Hx Hall]. cbn.
  rewrite Hx by done. rewrite Ok_bind. by rewrite (IH _ Hys Hall).
Qed.

Definition seen_if_read (o : priskv_object) : Prop :=
  ∀ h l v, read_value o h l = Ok v → typed o v → seen_value o h l = Ok v.

Lemma seen_field_if_read f h l v : seen_if_read (f_obj f) → typed_field f v →
  read_field (read_value (f_obj f)) f h l = Ok v → seen_field (seen_value (f_obj f)) f h l = Ok v.
Proof.
  intros Hobj Hty Hr. unfold read_field_with, typed_field in *. destruct (f_type f); [by apply Hobj|].
  apply bind_Ok in Hr as (n & Hn & Hr). apply bind_Ok in Hr as (q & Hq & Hr). apply bind_Ok in Hr as (vs & Hvs & [= <-]).
  destruct Hty as [Hl Hty]. pose proof (length_mapR _ _ _ Hvs) as Hlen. unfold element_ptrs in Hlen. rewrite length_fmap, length_seqZ in Hlen.
  pose proof (ld_u64_range _ _ _ Hn). assert (ld_count h (padd l (f_noffset f)) = Ok n) as ->.
  { unfold ld_count. rewrite (ld_int_u64 _ _ _ Hn) by lia. rewrite Ok_bind. destruct (Z.ltb_spec n 0); [lia|done]. }
  rewrite Ok_bind, Hq, Ok_bind.
  rewrite (mapR_impl (read_at (read_value (f_obj f)) h) (read_at (seen_value (f_obj f)) h) _ vs Hvs); [done|].
  apply Forall2_same_length_lookup. split; [symmetry; by apply length_mapR in Hvs|].
  intros i p w Hp Hw Hpw. destruct p as [p|]; [|done]. apply Hobj; [done|]. by eapply Forall_lookup_1.
Qed.

Lemma seen_value_if_read o : seen_if_read o.
Proof.
  induction o as [t n fs IH] using object_ind. intros h l v Hr Hty. destruct t; try done.
  apply typed_struct in Hty as (vs & -> & Hlen & Hty). cbn [read_with] in Hr |- *. apply bind_Ok in Hr as (vs' & Hvs & [= ->]).
  erewrite mapR_impl; [reflexivity|exact Hvs|]. clear Hvs n. revert vs Hlen Hty.
  induction IH as [|f fs Hf _ IHfs]; intros [|w vs] Hlen Hty; try done. cbn in Hty. destruct Hty as [Hw Hty].
  constructor; [by apply seen_field_if_read|]. apply IHfs; [by injection Hlen|done].
Qed.
