(* ===== verification/CodecJson.v ===== *)
(** * A library for JSON

    An instance of [JsonC] that keeps what [JsonLaws] asks for: objects are their
    trees, and the text of a tree is a code of it. It stands for json-c in
    examples. *)

From S2P Require Import Prelude CMem Codec CodecSpec.
From stdpp Require Import countable.

Local Open Scope Z_scope.

(** ** A code of trees *)

Fixpoint to_gen (t : jtree) : gen_tree (list Z) :=
  match t with
  | JNull => GenLeaf [0]
  | JBool b => GenLeaf [1; if b then 1 else 0]
  | JInt z => GenLeaf [2; z]
  | JDouble s => GenLeaf (3 :: s)
  | JString s => GenLeaf (4 :: s)
  | JArray l => GenNode 0 (to_gen <$> l)
  | JObject l => GenNode 1 ((λ kt, GenNode 2 [GenLeaf kt.1; to_gen kt.2]) <$> l)
  end.

Fixpoint of_gen (g : gen_tree (list Z)) : jtree :=
  match g with
  | GenLeaf [1; b] => JBool (b =? 1)
  | GenLeaf [2; z] => JInt z
  | GenLeaf (3 :: s) => JDouble s
  | GenLeaf (4 :: s) => JString s
  | GenLeaf _ => JNull
  | GenNode 0 l => JArray (of_gen <$> l)
  | GenNode _ l => JObject ((λ g, match g with GenNode _ [GenLeaf k; g] => (k, of_gen g) | _ => ([], JNull) end) <$> l)
  end.

Lemma jtree_ind' (P : jtree → Prop) :
  P JNull → (∀ b, P (JBool b)) → (∀ z, P (JInt z)) → (∀ s, P (JDouble s)) → (∀ s, P (JString s)) →
  (∀ l, Forall P l → P (JArray l)) → (∀ l, Forall (λ kt, P kt.2) l → P (JObject l)) → ∀ t, P t.
Proof.
  intros H1 H2 H3 H4 H5 H6 H7. fix IH 1. intros [|b|z|s|s|l|l];
    [exact H1|exact (H2 b)|exact (H3 z)|exact (H4 s)|exact (H5 s)| |].
  - apply H6. induction l as [|t l IHl]; constructor; [apply IH|exact IHl].
  - apply H7. induction l as [|[k t] l IHl]; constructor; [apply IH|exact IHl].
Qed.

Lemma of_to_gen t : of_gen (to_gen t) = t.
Proof.
  induction t as [|b|z|s|s|l IH|l IH] using jtree_ind'; try done.
  - by destruct b.
  - cbn. f_equal. rewrite <- list_fmap_compose. induction IH as [|t l Ht _ IHl]; [done|]. csimpl. by rewrite Ht, IHl.
  - cbn. f_equal. rewrite <- list_fmap_compose. induction IH as [|[k t] l Ht _ IHl]; [done|].
    csimpl in *. by rewrite Ht, IHl.
Qed.

(** ** Its text: digits 1 and 2, and 3s at the end *)

Fixpoint digits_of (p : positive) : list Z :=
  match p with xH => [] | xO p => 1 :: digits_of p | xI p => 2 :: digits_of p end.

Fixpoint pos_of (l : list Z) : positive :=
  match l with
  | 1 :: l => xO (pos_of l)
  | 2 :: l => xI (pos_of l)
  | _ => xH
  end.

Lemma pos_of_digits p n : pos_of (digits_of p ++ replicate n 3) = p.
Proof. induction p as [p IH|p IH|]; cbn; [by rewrite IH..|by destruct n]. Qed.

Lemma digits_no_nul p : no_nul (digits_of p).
Proof. unfold no_nul. induction p; cbn; constructor; done || lia. Qed.

Definition print_tree (t : jtree) : list Z := digits_of (encode (to_gen t)) ++ replicate (jt_width t) 3.

Definition parse_tree (text : list Z) : option jtree :=
  g ← decode (pos_of text); let t := of_gen g in if decide (jt_width t <= length text)%nat then Some t else None.

Lemma tree_parse_print t : parse_tree (print_tree t) = Some t.
Proof.
  unfold parse_tree, print_tree. rewrite pos_of_digits, decode_encode. cbn. rewrite of_to_gen.
  rewrite decide_True; [done|]. rewrite length_app, length_replicate. lia.
Qed.

(** ** The library *)

Definition jt_boolean (o : option jtree) : bool := match o with Some (JBool b) => b | _ => false end.
Definition jt_int (o : option jtree) : Z := match o with Some (JInt z) => z | _ => 0 end.
Definition jt_string (o : option jtree) : list Z := match o with Some (JString s) => s | _ => [] end.
Definition jt_array (o : option jtree) : list jtree := match o with Some (JArray l) => l | _ => [] end.

Global Instance tree_json : JsonC := {|
  json := jtree;
  json_object_get_type := jt_type;
  json_object_get_boolean := jt_boolean;
  json_object_get_int o := clamp_int (jt_int o);
  json_object_get_uint64 o := clamp_u64 (jt_int o);
  json_object_get_string := jt_string;
  json_object_object_get o k := o ≫= λ t, jt_get t k;
  json_object_array_length o := Z.of_nat (length (jt_array o));
  json_object_array_get_idx o i := jt_array o !! Z.to_nat i ≫= nonnull;
  json_object_new_boolean b := Some (JBool b);
  json_object_new_int z := Some (JInt z);
  json_object_new_uint64 z := Some (JInt z);
  json_object_new_string s := Some (JString s);
  json_object_new_object := Some (JObject []);
  json_object_new_array_ext n := if n <? 0 then None else Some (JArray []);
  json_object_object_add t k e := match t with JObject l => Some (JObject (assoc_add l k e)) | _ => None end;
  json_object_array_add t e := match t with JArray l => Some (JArray (l ++ [e])) | _ => None end;
  json_object_to_json_string := print_tree;
  json_tokener_parse_verbose text := (parse_tree text, [])
|}.

Lemma print_no_nul t : no_nul (print_tree t).
Proof. apply Forall_app. split; [apply digits_no_nul|]. apply Forall_replicate. lia. Qed.

Global Instance tree_laws : JsonLaws tree_json.
Proof.
  refine {| view := (id : @json tree_json → jtree) |}; cbn.
  - by intros [].
  - by intros ? ? ->.
  - by intros ? ? ->.
  - by intros ? ? ->.
  - by intros ? ? ->.
  - intros j k. by destruct (jt_get j k).
  - by intros ? ? ->.
  - intros j l i t -> Hl. cbn. rewrite Nat2Z.id, Hl. cbn. by destruct (nonnull t).
  - done.
  - done.
  - done.
  - done.
  - done.
  - intros n. by destruct (n <? 0).
  - by intros ? ? ? ? ->.
  - by intros ? ? ? ->.
  - apply print_no_nul.
  - intros j _ _. by rewrite tree_parse_print.
  - intros text j desc [= Hp _]. unfold parse_tree in Hp. apply bind_Some in Hp as (g & _ & Hp).
    case_decide; [|done]. by injection Hp as <-.
Defined.
