(* ===== verification/CodecProps.v ===== *)
(** * Properties of the codec

    What is decoded is well typed; coding and decoding is a round trip, except for
    what the tables leave out; decoding and freeing gives back the memory there was.
    The first part is about values, the second about the functions on memory. *)

From S2P Require Import Prelude State CString CMem Codec CodecSpec CodecMem CodecCode CodecJson.

Local Open Scope Z_scope.

(** ** Types *)

Lemma zero_typed o : layout_ok o = true → typed o (zero_value o).
Proof.
  induction o as [t n fs IH] using object_ind. intros Hlay. destruct t; try done.
  apply typed_struct. cbn [zero_value]. eexists. split; [done|]. rewrite length_fmap. split; [done|].
  apply layout_inv in Hlay as (_ & Hok & _). induction IH as [|f fs Hf _ IHfs]; [done|].
  apply Forall_cons in Hok as [Hof Hok]. cbn. split; [|by apply IHfs].
  unfold typed_field. pose proof (fo_layout _ _ Hof). destruct (f_type f); [by apply Hf|done].
Qed.

Lemma traverse_inl {A B} (f : A → outcome B) l : ∀ ys, traverse f l = inl ys → Forall2 (λ x y, f x = inl y) l ys.
Proof.
  induction l as [|x l IH]; intros ys; cbn; [intros [= <-]; constructor|].
  destruct (f x) as [y|] eqn:Hx; [|done]. destruct (traverse f l) as [ys'|] eqn:Hl; [|done].
  intros [= <-]. constructor; [done|by apply IH].
Qed.

Lemma small_element tl t : small (Some (JArray tl)) → t ∈ tl → small (nonnull t).
Proof.
  intros Hs Ht. destruct (array_len_small tl Hs) as [_ Hall]. rewrite Forall_forall in Hall.
  specialize (Hall t Ht). by destruct t.
Qed.

Definition decodes_typed (o : priskv_object) : Prop := ∀ t v, small t →
  value_spec (o_type o) (decode_spec o) t = inl v → typed o v.

Lemma field_typed f t v n : field_ok n f → decodes_typed (f_obj f) → small (Some t) →
  field_spec (value_spec (o_type (f_obj f)) (decode_spec (f_obj f))) f t = inl v → typed_field f v.
Proof.
  intros Hof IHf Hsm Hf. pose proof (small_member t (f_name f)) as Hmem. unfold field_spec in Hf.
  destruct (jt_get t (f_name f)) as [m|].
  2:{ destruct (f_required f); [done|]. injection Hf as <-. unfold typed_field, zero_field.
      destruct (f_type f); [|by split]. apply zero_typed, Hof. }
  specialize (Hmem m Hsm eq_refl). unfold typed_field. destruct (f_type f).
  - destruct (value_spec _ _ _) as [v'|] eqn:Hv; [|done]. injection Hf as <-. by apply (IHf (Some m)).
  - destruct m as [| | | | |tl|]; try done. destruct (traverse _ tl) as [vs'|] eqn:Htr; [|done]. injection Hf as <-.
    apply traverse_inl in Htr. pose proof (Forall2_length _ _ _ Htr) as Hlen.
    destruct (array_len_small tl Hmem) as [Hl _]. split; [lia|].
    assert (∀ t, t ∈ tl → small (nonnull t)) as Hels by (intros; by eapply small_element).
    clear Hmem Hl Hlen. induction Htr as [|x y tl ys Hxy _ IHt]; constructor.
    + apply (IHf (nonnull x)); [|done]. apply Hels. left.
    + apply IHt. intros z Hz. apply Hels. by right.
Qed.

Lemma struct_typed n fs t vs :
  layout_ok (mk_object priskv_obj_type_object n fs) = true → Forall (λ f, decodes_typed (f_obj f)) fs → small (Some t) →
  decode_spec (mk_object priskv_obj_type_object n fs) t = inl vs → typed (mk_object priskv_obj_type_object n fs) (VStruct vs).
Proof.
  intros Hlay Hall Hsm Hd. apply typed_struct. exists vs. split; [done|]. cbn [decode_spec] in Hd. apply traverse_inl in Hd.
  split; [symmetry; by eapply Forall2_length|]. apply layout_inv in Hlay as (_ & Hok & _).
  induction Hd as [|f v fs vs Hf _ IHd]; [done|]. apply Forall_cons in Hok as [Hof Hok].
  apply Forall_cons in Hall as [Hobj Hall]. cbn. split; [by eapply field_typed|by apply IHd].
Qed.

(** Whatever the JSON, a value that is decoded has the type of its table. *)
Lemma decode_typed o : layout_ok o = true → decodes_typed o.
Proof.
  induction o as [ty n fs IH] using object_ind. intros Hlay t v Hsm Hv.
  destruct ty; cbn [o_type value_spec] in Hv; try done.
  - by destruct t as [[]|]; try done; injection Hv as <-.
  - destruct t as [[]|]; try done; injection Hv as <-. apply clamp_int_range.
  - destruct t as [[]|]; try done; injection Hv as <-. apply clamp_u64_range.
  - destruct t as [[]|]; try done; injection Hv as <-. apply cstr_no_nul.
  - destruct t as [[| | | | | |ms]|]; try done. destruct (decode_spec _ _) as [vs|] eqn:Hd; [|done]. injection Hv as <-.
    eapply struct_typed; [done| |exact Hsm|exact Hd]. pose proof (layout_inv _ _ Hlay) as (_ & Hok & _).
    rewrite Forall_forall in IH, Hok |- *. intros f Hf. apply IH; [done|]. apply (fo_layout _ _ (Hok f Hf)).
Qed.

Lemma decode_struct_typed o t vs : o_type o = priskv_obj_type_object → layout_ok o = true → small (Some t) →
  decode_spec o t = inl vs → typed o (VStruct vs).
Proof.
  destruct o as [ty n fs]. cbn [o_type]. intros -> Hlay Hsm Hd. eapply struct_typed; [done| |exact Hsm|exact Hd].
  pose proof (layout_inv _ _ Hlay) as (_ & Hok & _). rewrite Forall_forall in Hok |- *.
  intros f Hf. apply decode_typed, (fo_layout _ _ (Hok f Hf)).
Qed.

(** ** Round trips of values *)

Definition rt {A} (c : bool) (a : A) (out : outcome A) : Prop := if c then out = inl a else ∃ m, out = inr m.

Lemma traverse_rt {A B} (f : A → outcome B) xs (cns : list (bool * B)) :
  Forall2 (λ x cn, rt cn.1 cn.2 (f x)) xs cns → rt (forallb id cns.*1) cns.*2 (traverse f xs).
Proof.
  induction 1 as [|x [c a] xs cns Hx _ IH]; [done|]. cbn in *. unfold rt in *. destruct c; cbn.
  - rewrite Hx. destruct (forallb id cns.*1); [by rewrite IH|]. destruct IH as [m ->]. by exists m.
  - destruct Hx as [m ->]. by exists m.
Qed.

Lemma assoc_app_ne ms ms' k : k ∉ ms.*1 → assoc (ms ++ ms') k = assoc ms' k.
Proof.
  induction ms as [|[k' t] ms IH]; intros Hk; [done|]. cbn in *. apply not_elem_of_cons in Hk as [? ?].
  rewrite decide_False by done. auto.
Qed.

Lemma assoc_None ms k : k ∉ ms.*1 → assoc ms k = None.
Proof. intros Hk. rewrite <- (app_nil_r ms). by rewrite assoc_app_ne. Qed.

Lemma members_names fs : ∀ vs k, k ∈ (members fs vs).*1 → k ∈ f_name <$> fs.
Proof.
  induction fs as [|f fs IH]; intros [|v vs] k; try done; [intros Hk; by apply elem_of_nil in Hk|].
  change (members (f :: fs) (v :: vs)) with (member f v (field_tree f v) ++ members fs vs).
  rewrite fmap_app, elem_of_app. intros [Hk|Hk]; [|right; by eapply IH].
  unfold member in Hk. destruct (_ && _); [by apply elem_of_nil in Hk|]. apply list_elem_of_singleton in Hk as ->. left.
Qed.

(** The member of a field in the object that was coded. *)
Definition coded_member (f : field) (v : value) : option jtree :=
  if f_ignored f && is_zero v then None else Some (field_tree f v).

Lemma members_get fs : ∀ vs pre, length vs = length fs → NoDup (f_name <$> fs) → (∀ f, f ∈ fs → f_name f ∉ pre.*1) →
  Forall2 (λ f v, assoc (pre ++ members fs vs) (f_name f) = coded_member f v) fs vs.
Proof.
  induction fs as [|f fs IH]; intros [|v vs] pre Hlen Hnd Hpre; try done.
  apply NoDup_cons in Hnd as [Hf Hnd].
  change (members (f :: fs) (v :: vs)) with (member f v (field_tree f v) ++ members fs vs). constructor.
  - rewrite assoc_app_ne by (apply Hpre; left). unfold coded_member, member. destruct (_ && _); cbn.
    + apply assoc_None. intros Hin. by apply members_names in Hin.
    + by rewrite decide_True.
  - rewrite app_assoc. apply IH; [by injection Hlen|done|]. intros g Hg. rewrite fmap_app, elem_of_app.
    intros [Hin|Hin]; [by apply (Hpre g); [right|]|].
    unfold member in Hin. destruct (_ && _); [by apply elem_of_nil in Hin|]. apply list_elem_of_singleton in Hin. cbn in Hin.
    apply Hf. rewrite <- Hin. by apply list_elem_of_fmap_2.
Qed.

Definition codable_field (f : field) (v : value) : bool :=
  if f_ignored f && is_zero v then negb (f_required f)
  else match v with VArray l => forallb (codable (f_obj f)) l | v => codable (f_obj f) v end.

Definition norm_field (f : field) (v : value) : value :=
  if f_ignored f && is_zero v then v
  else match v with VArray l => VArray (norm (f_obj f) <$> l) | v => norm (f_obj f) v end.

Lemma code_nonnull o v : typed o v → nonnull (code_spec o v) = Some (code_spec o v).
Proof. destruct o as [[] n fs]; destruct v; done. Qed.

Lemma zero_field_id f v : typed_field f v → is_zero v = true → zero_field f = v.
Proof.
  unfold typed_field, zero_field. destruct (f_type f).
  - destruct (f_obj f) as [[] n fs]; destruct v as [|z|z|[]| |]; try done; cbn; intros _ Hz; f_equal; by apply Z.eqb_eq in Hz.
  - destruct v as [| | | | |[]]; done.
Qed.

Definition roundtrips (o : priskv_object) : Prop := ∀ v, typed o v →
  rt (codable o v) (norm o v) (value_spec (o_type o) (decode_spec o) (Some (code_spec o v))).

Lemma roundtrip_elements o vs : roundtrips o → Forall (typed o) vs →
  rt (forallb (codable o) vs) (norm o <$> vs)
    (traverse (λ t, value_spec (o_type o) (decode_spec o) (nonnull t)) (code_spec o <$> vs)).
Proof.
  intros Hrt Hty. set (cns := (λ v, (codable o v, norm o v)) <$> vs).
  replace (norm o <$> vs) with cns.*2 by (unfold cns; by rewrite <- list_fmap_compose).
  replace (forallb (codable o) vs) with (forallb id cns.*1).
  - apply traverse_rt. unfold cns. clear cns. induction Hty as [|v vs Hv _ IH]; constructor; [|done]. cbn.
    rewrite code_nonnull by done. by apply Hrt.
  - unfold cns. clear. induction vs as [|v vs IH]; [done|]. cbn. by rewrite IH.
Qed.

Lemma field_rt f v t : roundtrips (f_obj f) → typed_field f v → jt_get t (f_name f) = coded_member f v →
  rt (codable_field f v) (norm_field f v)
    (field_spec (value_spec (o_type (f_obj f)) (decode_spec (f_obj f))) f t).
Proof.
  intros Hrt Hty Hget. unfold field_spec, codable_field, norm_field. rewrite Hget. unfold coded_member.
  destruct (f_ignored f && is_zero v) eqn:Hz.
  - destruct (f_required f); cbn; [by eexists|]. apply andb_true_iff in Hz as [_ Hz]. by rewrite (zero_field_id f v).
  - pose proof Hty as Hty'. unfold typed_field in Hty. destruct (f_type f) eqn:Hft.
    + assert (field_tree f v = code_spec (f_obj f) v) as ->.
      { destruct v; try done. cbn. by destruct (f_obj f) as [[] ? ?]. }
      assert (codable (f_obj f) v = match v with VArray l => forallb (codable (f_obj f)) l | v => codable (f_obj f) v end) as <-.
      { destruct v; try done. by destruct (f_obj f) as [[] ? ?]. }
      assert (norm (f_obj f) v = match v with VArray l => VArray (norm (f_obj f) <$> l) | v => norm (f_obj f) v end) as <-.
      { destruct v; try done. by destruct (f_obj f) as [[] ? ?]. }
      specialize (Hrt v Hty). unfold rt in *. destruct (codable (f_obj f) v); [by rewrite Hrt|]. destruct Hrt as [m ->]. by eexists.
    + destruct v as [| | | | |vs]; try done. destruct Hty as [_ Hty]. cbn [field_tree].
      pose proof (roundtrip_elements _ _ Hrt Hty) as Hels. unfold rt in *.
      destruct (forallb _ vs); [by rewrite Hels|]. destruct Hels as [m ->]. by eexists.
Qed.

Lemma roundtrips_all o : layout_ok o = true → roundtrips o.
Proof.
  induction o as [ty n fs IH] using object_ind. intros Hlay v Hty. destruct ty; try done.
  - by destruct v.
  - destruct v; try done. cbn in *. do 2 f_equal. unfold clamp_int. lia.
  - destruct v; try done. cbn in *. do 2 f_equal. unfold clamp_u64. lia.
  - destruct v as [| | |[s|]| |]; try done. cbn in Hty. unfold rt. cbn [codable code_spec norm value_spec o_type default from_option id].
    by rewrite cstr_id.
  - apply typed_struct in Hty as (vs & -> & Hlen & Hty). apply layout_inv in Hlay as (_ & Hok & _ & Hnd & _).
    pose proof (members_get fs vs [] Hlen Hnd ltac:(intros; apply not_elem_of_nil)) as Hget. cbn [app] in Hget.
    cbn [o_type value_spec decode_spec].
    assert (rt (forallb id (with_values codable_field fs vs)) (with_values norm_field fs vs)
      (traverse (λ f, field_spec (value_spec (o_type (f_obj f)) (decode_spec (f_obj f))) f (JObject (members fs vs))) fs)) as Hrt.
    { set (t := JObject (members fs vs)). set (cns := with_values (λ f v, (codable_field f v, norm_field f v)) fs vs).
      assert (with_values codable_field fs vs = cns.*1 ∧ with_values norm_field fs vs = cns.*2) as [-> ->].
      { unfold cns. clear. revert vs. induction fs as [|f fs IH]; intros [|v vs]; try done. cbn. destruct (IH vs) as [-> ->]. done. }
      apply traverse_rt. unfold cns. clear cns.
      assert (Forall2 (λ f v, jt_get t (f_name f) = coded_member f v ∧ typed_field f v) fs vs) as Hall.
      { unfold t. clear t IH Hok Hlen Hnd. set (ms := members fs vs) in *. clearbody ms.
        induction Hget as [|f v fs vs Hf _ IH]; constructor; [|apply IH; by destruct Hty].
        cbn in Hty. destruct Hty as [Htf _]. split; [|done]. cbn. rewrite Hf. unfold coded_member, typed_field in *.
        destruct (_ && _); [done|]. cbn. destruct (f_type f); [|by destruct v].
        assert (field_tree f v = code_spec (f_obj f) v) as -> by (destruct v; try done; by destruct (f_obj f) as [[] ? ?]).
        by apply code_nonnull. }
      clear Hty Hget Hlen Hnd. clearbody t. induction Hall as [|f v fs vs [Hf Ht] _ IHa]; constructor.
      - apply field_rt; [|done|done]. apply Forall_cons in IH as [IHf _]. apply Forall_cons in Hok as [Hof _]. by apply IHf, Hof.
      - apply IHa; [by apply Forall_cons in IH as [_ ?]|by apply Forall_cons in Hok as [_ ?]]. }
    change (codable _ _) with (forallb id (with_values codable_field fs vs)).
    change (norm _ _) with (VStruct (with_values norm_field fs vs)).
    change (code_spec _ _) with (JObject (members fs vs)). unfold rt in *.
    destruct (forallb id _); [by rewrite Hrt|]. destruct Hrt as [m ->]. by eexists.
Qed.

(** ** Trees that survive printing *)

Lemma list_max_bound (l : list nat) b : Forall (λ n, n <= b)%nat l → (list_max l <= b)%nat.
Proof. intros Hl. by apply list_max_le. Qed.

Lemma elem_of_members fs : ∀ vs kt, kt ∈ members fs vs → foldr and True (with_values typed_field fs vs) →
  ∃ f v, f ∈ fs ∧ typed_field f v ∧ kt = (f_name f, field_tree f v).
Proof.
  induction fs as [|f fs IH]; intros [|v vs] kt Hin Hty; try (by apply elem_of_nil in Hin).
  change (members (f :: fs) (v :: vs)) with (member f v (field_tree f v) ++ members fs vs) in Hin.
  destruct Hty as [Hf Hty]. apply elem_of_app in Hin as [Hin|Hin].
  - unfold member in Hin. destruct (_ && _); [by apply elem_of_nil in Hin|]. apply list_elem_of_singleton in Hin as ->.
    exists f, v. split; [left|done].
  - destruct (IH vs kt Hin Hty) as (g & w & Hg & ?). exists g, w. split; [by right|done].
Qed.

Lemma members_nodup fs : ∀ vs, NoDup (f_name <$> fs) → NoDup (members fs vs).*1.
Proof.
  induction fs as [|f fs IH]; intros [|v vs] Hnd; try constructor. apply NoDup_cons in Hnd as [Hf Hnd].
  change (members (f :: fs) (v :: vs)) with (member f v (field_tree f v) ++ members fs vs).
  unfold member. destruct (_ && _); [by apply IH|]. cbn. constructor; [|by apply IH].
  intros Hin. by apply members_names in Hin.
Qed.

(** What is coded can be printed and parsed, and is as deep as its table. *)
Lemma code_plain o : layout_ok o = true → ∀ v, typed o v →
  jt_plain (code_spec o v) ∧ (jt_depth (code_spec o v) <= obj_depth o)%nat.
Proof.
  induction o as [ty n fs IH] using object_ind. intros Hlay v Hty. destruct ty; try done.
  - destruct v; try done. cbn. lia.
  - destruct v; try done. cbn in *. lia.
  - destruct v; try done. cbn in *. lia.
  - destruct v as [| | |[s|]| |]; try done; cbn in *; [split; [done|lia]|split; [constructor|lia]].
  - apply typed_struct in Hty as (vs & -> & Hlen & Hty). apply layout_inv in Hlay as (_ & Hok & _ & Hnd & Hnm).
    change (code_spec _ _) with (JObject (members fs vs)).
    assert (∀ kt, kt ∈ members fs vs → no_nul kt.1 ∧ jt_plain kt.2 ∧
      (jt_depth kt.2 <= list_max ((λ f, match f_type f with
                         | priskv_obj_field_type_value => obj_depth (f_obj f)
                         | priskv_obj_field_type_array => S (obj_depth (f_obj f))
                         end) <$> fs))%nat) as Hmem.
    { intros kt Hkt. destruct (elem_of_members _ _ _ Hkt Hty) as (f & v & Hf & Htf & ->). cbn [fst snd].
      rewrite Forall_forall in IH, Hok, Hnm. specialize (IH f Hf (fo_layout _ _ (Hok f Hf))).
      split; [by apply Hnm|].
      pose proof (proj1 (list_max_le _ _) (Nat.le_refl (list_max ((λ f, match f_type f with
                         | priskv_obj_field_type_value => obj_depth (f_obj f)
                         | priskv_obj_field_type_array => S (obj_depth (f_obj f))
                         end) <$> fs)))) as Hmax.
      rewrite Forall_forall in Hmax. specialize (Hmax _ (list_elem_of_fmap_2 _ _ _ Hf)). cbn beta in Hmax.
      unfold typed_field in Htf. destruct (f_type f).
      - replace (field_tree f v) with (code_spec (f_obj f) v) by (destruct v; try done; by destruct (f_obj f) as [[] ? ?]).
        destruct (IH v Htf) as [? ?]. split; [done|lia].
      - destruct v as [| | | | |l]; try done. destruct Htf as [_ Htf]. cbn [field_tree jt_plain jt_depth]. split.
        + apply foldr_Forall, Forall_fmap. eapply Forall_impl; [exact Htf|]. intros w Hw. by apply IH.
        + assert (list_max (jt_depth <$> (code_spec (f_obj f) <$> l)) <= obj_depth (f_obj f))%nat; [|lia].
          apply list_max_bound, Forall_fmap, Forall_fmap. eapply Forall_impl; [exact Htf|]. intros w Hw. by apply IH. }
    cbn [jt_plain jt_depth obj_depth]. split; [split; [by apply members_nodup|]|].
    + apply foldr_Forall, Forall_forall. intros kt Hkt. by destruct (Hmem kt Hkt) as (? & ? & _).
    + apply le_n_S, list_max_bound, Forall_fmap, Forall_forall. intros kt Hkt. by apply Hmem.
Qed.

(** ** The functions of the codec *)

Section api.
Context {JC : JsonC} {JL : JsonLaws JC}.
Context (avail : Z → bool) (strerror_errno : list Z).
Hypothesis Havail : ∀ n, avail n = true.

Definition is_struct (o : priskv_object) : Prop := o_type o = priskv_obj_type_object ∧ layout_ok o = true.

(** Decoding from a state: the structure is a new block, or there is a message; the
    blocks there were are as before. *)
Lemma decode_run text o h n e :
  is_struct o → fresh_above h n → Z.of_nat (length text) < 2 ^ 31 →
  ∃ p h' n' e', priskv_codec_decode avail (Some text) (Some o) (CS h n e) = Ok (p, CS h' n' e') ∧
    (∀ a, a < n → h' !! a = h !! a) ∧ n <= n' ∧ fresh_above h' n' ∧
    match json_tokener_parse_verbose text with
    | (None, desc) => p = None ∧ e' = msg (str "failed to parse json: " ++ desc)%list
    | (Some j, _) =>
        match decode_spec o (view j) with
        | inl vs => p = Some (n, 0) ∧ e' = e ∧ read_value o h' (n, 0) = Ok (VStruct vs) ∧
            owned o h' (n, 0) = blocks (n + 1) n' ∧ (∀ a, n <= a < n' → is_Some (h' !! a)) ∧ n < n'
        | inr m => p = None ∧ e' = m
        end
    end.
Proof.
  intros [Hty Hlay] Hf Hlen. unfold priskv_codec_decode.
  destruct (json_tokener_parse_verbose text) as [[j|] desc] eqn:Hparse.
  2:{ eexists None, h, n, _. split; [reflexivity|]. done. }
  pose proof (law_width _ _ _ Hparse) as Hw. destruct o as [t size fs]. cbn in Hty. subst t. cbn [o_size].
  pose proof (layout_inv _ _ Hlay) as (Hsize & Hok & _).
  set (bk := replicate (Z.to_nat size) MUndef).
  assert (new_block avail bk (CS h n e) = Ok (Some (n, 0), CS (<[n := bk]> h) (n + 1) e)) as Hnew.
  { unfold new_block. cbn [c_next]. by rewrite Havail. }
  unfold malloc. erewrite bind_run by exact Hnew. set (zs := replicate (Z.to_nat size) (MByte 0)).
  assert (sto (<[n := bk]> h) (n, 0) zs = Ok (<[n := zs]> h)) as Hsto.
  { erewrite sto_Ok; [|apply lookup_insert_eq|done|unfold bk, zs; rewrite !length_replicate; simpl; lia].
    cbn [fst snd]. rewrite insert_insert_eq. do 2 f_equal. unfold overwrite, bk. change (Z.to_nat 0) with 0%nat.
    rewrite take_0. unfold zs. rewrite length_replicate, drop_replicate, Nat.sub_diag. cbn. by rewrite app_nil_r. }
  erewrite bind_run; [|unfold store; cbn [c_heap]; by rewrite Hsto].
  assert (fresh_above (<[n := zs]> h) (n + 1)) as Hf1.
  { intros a Ha. destruct (decide (a = n)) as [->|Hne]; [lia|]. rewrite lookup_insert_ne in Ha by done. apply Hf in Ha. lia. }
  assert (zeroed (<[n := zs]> h) (n, 0) size) as Hz.
  { pose proof (zeroed_fresh h n (Z.to_nat size)) as Hz. by rewrite Z2Nat.id in Hz by lia. }
  destruct (decode_fields_spec avail Havail size fs j (<[n := zs]> h) (n + 1) e (n, 0)) as (r & h' & n' & e' & Hrun & Hch & Hout);
    [done| |cbn; lia|done|done|simpl; lia|].
  { rewrite Forall_forall in Hok |- *. intros f Hin. apply decodes_all; [done|]. apply (fo_layout _ _ (Hok f Hin)). }
  pose proof (ch_next _ _ _ _ _ _ Hch) as Hn'.
  assert (∀ a, a < n → h' !! a = h !! a) as Hold.
  { intros a Ha. rewrite (ch_old _ _ _ _ _ _ Hch) by (simpl; lia). by rewrite lookup_insert_ne by lia. }
  assert (is_Some (h' !! n)) as Hlive.
  { apply (changes_live _ _ _ _ _ _ Hch). rewrite lookup_insert_eq. by eexists. }
  erewrite bind_run by exact Hrun. cbn [c_error] in *. destruct (decode_spec _ _) as [vs|m].
  - destruct Hout as (-> & -> & Hread & Hown & Hnew'). exists (Some (n, 0)), h', n', e. split; [done|]. split; [done|].
    split; [lia|]. split; [apply Hch|]. split; [done|]. split; [done|]. split; [done|]. split; [done|]. split; [|lia].
    intros a Ha. destruct (decide (a = n)) as [->|]; [done|]. apply Hnew'. lia.
  - destruct Hout as (-> & ->). cbn [Z.ltb Z.compare]. exists None, (delete n h'), n', m. split.
    + erewrite bind_run; [reflexivity|]. by apply (free_start (n, 0)).
    + split; [intros a Ha; rewrite lookup_delete_ne by lia; by apply Hold|]. split; [lia|]. split; [|done].
      intros a Ha. apply lookup_delete_is_Some in Ha as [_ Ha]. by apply (ch_fresh _ _ _ _ _ _ Hch).
Qed.

(** (C29) Decoding implements the translation of values, as long as memory can be
    allocated (the code does not check, [decode_without_memory]): for every text of
    less than 2 GiB and every table that fits its structure, [priskv_codec_decode]
    returns without a fault; if the text parses and the tree has what the table
    asks for, the structure in memory, a new block, reads as exactly the value the
    tree stands for; otherwise it returns [NULL] and the message of the first
    error. In both cases the blocks there were are as before. *)
Theorem codec_decode_refines text o h n e :
  is_struct o → fresh_above h n → Z.of_nat (length text) < 2 ^ 31 →
  ∃ p h' n' e', priskv_codec_decode avail (Some text) (Some o) (CS h n e) = Ok (p, CS h' n' e') ∧
    (∀ a, a < n → h' !! a = h !! a) ∧
    match json_tokener_parse_verbose text with
    | (None, desc) => p = None ∧ e' = msg (str "failed to parse json: " ++ desc)%list
    | (Some j, _) =>
        match decode_spec o (view j) with
        | inl vs => p = Some (n, 0) ∧ e' = e ∧ read_value o h' (n, 0) = Ok (VStruct vs)
        | inr m => p = None ∧ e' = m
        end
    end.
Proof.
  intros Ho Hf Hlen. destruct (decode_run text o h n e Ho Hf Hlen) as (p & h' & n' & e' & Hrun & Hold & _ & _ & Hout).
  exists p, h', n', e'. split; [done|]. split; [done|].
  destruct (json_tokener_parse_verbose text) as [[j|] desc]; [|done]. destruct (decode_spec o (view j)); [|done].
  by destruct Hout as (? & ? & ? & _).
Qed.

(** (C30) What is decoded is well typed, whatever the JSON is: if
    [priskv_codec_decode] returns a structure, it holds a value of the type its
    table describes - integers in the range of their width, strings that end,
    arrays with as many elements as their count says, each of them well typed. *)
Theorem codec_decode_well_typed text o h n e p s :
  is_struct o → fresh_above h n → Z.of_nat (length text) < 2 ^ 31 →
  priskv_codec_decode avail (Some text) (Some o) (CS h n e) = Ok (Some p, s) →
  ∃ v, read_value o (c_heap s) p = Ok v ∧ typed o v.
Proof.
  intros Ho Hf Hlen Hdec. destruct (decode_run text o h n e Ho Hf Hlen) as (p' & h' & n' & e' & Hrun & _ & _ & _ & Hout).
  rewrite Hrun in Hdec. injection Hdec as -> <-.
  destruct (json_tokener_parse_verbose text) as [[j|] desc] eqn:Hparse; [|by destruct Hout].
  destruct (decode_spec o (view j)) as [vs|] eqn:Hspec; [|by destruct Hout].
  destruct Hout as ([= ->] & _ & Hread & _). exists (VStruct vs). split; [done|].
  destruct Ho as [Hty Hlay]. pose proof (law_width _ _ _ Hparse) as Hw.
  eapply decode_struct_typed; [done|done| |exact Hspec]. cbn. lia.
Qed.

(** A structure at the start of a block, with the blocks it owns: each once, and all
    of them allocated. *)
Record holds (o : priskv_object) (h : heap) (a : Z) (v : value) (own : list Z) : Prop := {
  ho_read : read_value o h (a, 0) = Ok v;
  ho_owned : (owned o h (a, 0)).*1 = own;
  ho_start : ∀ q, q ∈ owned o h (a, 0) → q.2 = 0;
  ho_nodup : NoDup (a :: own);
  ho_live : ∀ b, b ∈ a :: own → is_Some (h !! b)
}.

(** It depends on these blocks only. *)
Lemma holds_frame o h h' a v own : layout_ok o = true → holds o h a v own →
  (∀ b, b ∈ a :: own → h' !! b = h !! b) → holds o h' a v own.
Proof.
  intros Hlay [Hr Ho Hs Hnd Hl] Hsame. destruct (framed_value o Hlay (a, 0) h h') as [Hr' Ho'].
  - intros r _. apply agree_block. apply Hsame. left.
  - intros q Hq. apply Hsame. right. rewrite <- Ho. by apply list_elem_of_fmap_2.
  - split; [by rewrite Hr'|by rewrite Ho'|by rewrite Ho'|done|]. intros b Hb. rewrite Hsame by done. by apply Hl.
Qed.

Lemma elem_of_owned o h a v own q : holds o h a v own → q ∈ owned o h (a, 0) → q.1 ∈ own.
Proof. intros Hh Hq. rewrite <- (ho_owned _ _ _ _ _ Hh). by apply list_elem_of_fmap_2. Qed.

(** Freeing a structure frees these blocks. *)
Lemma free_holds o h n e a v own : is_struct o → holds o h a v own →
  ∃ h', priskv_codec_free_struct (Some (a, 0)) o (CS h n e) = Ok (0, CS h' n e) ∧
    ∀ b, h' !! b = if decide (b ∈ a :: own) then None else h !! b.
Proof.
  intros [Hty Hlay] Hh. pose proof Hh as [Hr Ho Hs Hnd Hl]. apply NoDup_cons in Hnd as [Ha Hnd].
  pose proof (cleans_all o Hlay h n e (a, 0) [a] ltac:(by left)) as Hclean. rewrite Hty in Hclean.
  exists (delete a (without (owned o h (a, 0)) h)). split.
  - unfold priskv_codec_free_struct. cbv iota beta. erewrite bind_run; [|apply Hclean; split].
    + cbn [Z.ltb Z.compare]. erewrite bind_run; [reflexivity|]. apply (free_start (a, 0)); [done|].
      rewrite lookup_without, Ho, decide_False by done. apply Hl. left.
    + by eexists.
    + by rewrite Ho.
    + intros q Hq. split; [by apply Hs|]. apply Hl. right. by eapply elem_of_owned.
    + intros q Hq Hqa. apply list_elem_of_singleton in Hqa. apply Ha. rewrite <- Hqa. by eapply elem_of_owned.
  - intros b. destruct (decide (b = a)) as [->|Hne].
    + rewrite lookup_delete_eq, decide_True by left. done.
    + rewrite lookup_delete_ne, lookup_without, Ho by done. apply decide_ext. rewrite elem_of_cons. tauto.
Qed.

Lemma fst_blocks n n' : (blocks n n').*1 = seqZ n (n' - n).
Proof. unfold blocks. rewrite <- list_fmap_compose. apply list_fmap_id. Qed.

Lemma decoded_holds o h n n' v : read_value o h (n, 0) = Ok v → owned o h (n, 0) = blocks (n + 1) n' →
  (∀ a, n <= a < n' → is_Some (h !! a)) → n < n' → holds o h n v (seqZ (n + 1) (n' - (n + 1))).
Proof.
  intros Hr Ho Hl Hn. split; [done|by rewrite Ho, fst_blocks| | |].
  - intros q Hq. rewrite Ho in Hq. apply elem_of_blocks in Hq. lia.
  - apply NoDup_cons. split; [|apply NoDup_seqZ]. intros Hin. apply elem_of_seqZ in Hin. lia.
  - intros b Hb. apply Hl. apply elem_of_cons in Hb as [->|Hb]; [lia|]. apply elem_of_seqZ in Hb. lia.
Qed.

(** Freeing a structure whose strings and arrays are the blocks after it. *)
Lemma free_run o h n e h' n' v :
  is_struct o → fresh_above h n → read_value o h' (n, 0) = Ok v → owned o h' (n, 0) = blocks (n + 1) n' →
  (∀ a, n <= a < n' → is_Some (h' !! a)) → n < n' → fresh_above h' n' → (∀ a, a < n → h' !! a = h !! a) →
  priskv_codec_free_struct (Some (n, 0)) o (CS h' n' e) = Ok (0, CS h n' e).
Proof.
  intros Ho Hf Hread Hown Hlive Hn' Hf' Hold.
  destruct (free_holds o h' n' e n v _ Ho (decoded_holds o h' n n' v Hread Hown Hlive Hn')) as (h2 & -> & Hh2).
  do 3 f_equal. apply map_eq. intros a. rewrite Hh2. destruct (decide (a < n)) as [Hlt|Hge].
  - rewrite decide_False; [by apply Hold|]. intros Hin. apply elem_of_cons in Hin as [->|Hin]; [lia|]. apply elem_of_seqZ in Hin. lia.
  - destruct (h !! a) eqn:Ha; [exfalso; apply Hge, Hf; by rewrite Ha|]. case_decide as Hin; [done|].
    destruct (h' !! a) eqn:Ha'; [|done]. exfalso. apply Hin. assert (a < n') by (apply Hf'; by rewrite Ha').
    destruct (decide (a = n)) as [->|]; [left|]. right. apply elem_of_seqZ. lia.
Qed.

(** Freeing a structure that was decoded frees every block that decoding
    allocated, each once: [priskv_codec_free_struct] returns 0 without a fault, and
    the memory is what it was before the structure was decoded. *)
Theorem codec_decode_free text o h n e p s :
  is_struct o → fresh_above h n → Z.of_nat (length text) < 2 ^ 31 →
  priskv_codec_decode avail (Some text) (Some o) (CS h n e) = Ok (Some p, s) →
  ∃ s', priskv_codec_free_struct (Some p) o s = Ok (0, s') ∧ c_heap s' = h.
Proof.
  intros Ho Hf Hlen Hdec. destruct (decode_run text o h n e Ho Hf Hlen) as (p' & h' & n' & e' & Hrun & Hold & _ & Hf' & Hout).
  rewrite Hrun in Hdec. injection Hdec as -> <-.
  destruct (json_tokener_parse_verbose text) as [[j|] desc]; [|by destruct Hout].
  destruct (decode_spec o (view j)) as [vs|]; [|by destruct Hout].
  destruct Hout as ([= ->] & _ & Hread & Hown & Hlive & Hn'). eexists. split; [by eapply free_run|done].
Qed.

(** Coding a value of its table gives the text of its tree, in a new block. *)
Lemma code_run o h n e l v :
  is_struct o → seen_value o h l = Ok v → typed o v →
  ∃ j, view j = code_spec o v ∧
    priskv_codec_code avail strerror_errno (Some l) (Some o) (CS h n e)
    = Ok (Some (n, 0), CS (<[n := enc_string (json_object_to_json_string j)]> h) (n + 1) e).
Proof.
  intros [Hobj Hlay] Hread Hty.
  destruct (codes_all strerror_errno o Hlay (CS h n e) l v Hread Hty) as (j & Hcode & Hview). rewrite Hobj in Hcode.
  exists j. split; [done|]. unfold priskv_codec_code. cbv iota beta. erewrite bind_run by exact Hcode. cbn iota beta.
  unfold strdup, new_block. cbn [c_next c_heap c_error]. by rewrite Havail.
Qed.

Lemma fresh_insert h n bk : fresh_above h n → fresh_above (<[n := bk]> h) (n + 1).
Proof.
  intros Hf a Ha. destruct (decide (a = n)) as [->|Hne]; [lia|]. rewrite lookup_insert_ne in Ha by done.
  apply Hf in Ha. lia.
Qed.

(** (C28) A structure that is coded and decoded again is the same one. For a value
    of the table's type [priskv_codec_code] gives a text, and decoding it gives a
    structure with the same value, a [NULL] string that is written being read as an
    empty one - exactly if no field that is required was left out because it is
    zero; otherwise decoding refuses the text. *)
Theorem codec_roundtrip o h n e l v :
  is_struct o → (obj_depth o <= 32)%nat → fresh_above h n → seen_value o h l = Ok v → typed o v →
  (∀ j, view j = code_spec o v → Z.of_nat (length (json_object_to_json_string j)) < 2 ^ 31) →
  ∃ text p h1, priskv_codec_code avail strerror_errno (Some l) (Some o) (CS h n e) = Ok (Some p, CS h1 (n + 1) e) ∧
    ld_string h1 p = Ok text ∧
    ∃ r s, priskv_codec_decode avail (Some text) (Some o) (CS h1 (n + 1) e) = Ok (r, s) ∧
      if codable o v then ∃ q, r = Some q ∧ read_value o (c_heap s) q = Ok (norm o v) else r = None.
Proof.
  intros Ho Hdepth Hf Hread Hty Hshort. pose proof Ho as [Hobj Hlay].
  destruct (code_run o h n e l v Ho Hread Hty) as (j & Hview & Hcode).
  set (text := json_object_to_json_string j) in *. set (h1 := <[n := enc_string text]> h) in *.
  exists text, (n, 0), h1. split; [exact Hcode|split].
  - rewrite (ld_stored_string h1 n text) by apply lookup_insert_eq. by rewrite cstr_id by apply law_text.
  - pose proof (fresh_insert h n (enc_string text) Hf) as Hf1.
    destruct (decode_run text o h1 (n + 1) e Ho Hf1 (Hshort j Hview)) as (r & h2 & n2 & e2 & Hrun & _ & _ & _ & Hout).
    exists r, (CS h2 n2 e2). split; [done|].
    destruct (code_plain o Hlay v Hty) as [Hplain Hd]. rewrite <- Hview in Hplain, Hd.
    pose proof (law_parse j Hplain ltac:(lia)) as Hparse. fold text in Hparse.
    destruct (json_tokener_parse_verbose text) as [jo desc]. cbn [fst] in Hparse. apply view_Some in Hparse as (j2 & -> & Hj2).
    rewrite Hj2, Hview in Hout. pose proof (roundtrips_all o Hlay v Hty) as Hrt.
    destruct o as [ty size fs]. cbn in Hobj. subst ty. apply typed_struct in Hty as (vs & -> & _).
    cbn [o_type value_spec] in Hrt. change (code_spec _ _) with (JObject (members fs vs)) in *. unfold rt in Hrt.
    destruct (codable _ _).
    + destruct (decode_spec _ _) as [vs'|]; [|done]. destruct Hout as (-> & _ & Hr & _).
      eexists. split; [done|]. cbn [c_heap]. rewrite Hr. f_equal. congruence.
    + destruct Hrt as [m Hrt]. destruct (decode_spec _ _); [done|]. by destruct Hout.
Qed.
End api.

(** ** Examples *)

Local Open Scope string_scope.
Local Open Scope Z_scope.

(** Every table of the program fits its structure. *)
Lemma tables_fit : Forall is_struct tables ∧ Forall (λ o, obj_depth o <= 32)%nat tables.
Proof. split; repeat constructor. Qed.

(** The request to add two rules, and its text. *)
Definition ex_rules : value := VStruct [VArray [VString (Some (str "any")); VString (Some (str "10.0.0.1/8"))]].
Definition ex_text : list Z := print_tree (code_spec priskv_acl_info_obj ex_rules).
Definition ex_avail (n : Z) : bool := true.
Definition ex_decode (text : list Z) (o : priskv_object) : res (ptr * cstate) :=
  priskv_codec_decode ex_avail (Some text) (Some o) (CS ∅ 1 []).
Definition ex_state : cstate := state_after (ex_decode ex_text priskv_acl_info_obj) (CS ∅ 1 []).

Lemma ex_codec_fresh : fresh_above ∅ 1.
Proof. intros a [x Ha]. by rewrite lookup_empty in Ha. Qed.

Lemma acl_info_struct : is_struct priskv_acl_info_obj.
Proof. by split. Qed.

Lemma codec_decode_refines_witness :
  ∃ p h' n' e', priskv_codec_decode ex_avail (Some ex_text) (Some priskv_acl_info_obj) (CS ∅ 1 []) = Ok (p, CS h' n' e') ∧
    (∀ a, a < 1 → h' !! a = (∅ : heap) !! a) ∧ p = Some (1, 0) ∧ e' = [] ∧
    read_value priskv_acl_info_obj h' (1, 0) = Ok ex_rules.
Proof.
  exact (codec_decode_refines ex_avail (λ _, eq_refl) ex_text priskv_acl_info_obj ∅ 1 []
    acl_info_struct ex_codec_fresh ltac:(vm_compute; reflexivity)).
Defined.

Lemma codec_decode_well_typed_witness :
  ∃ v, read_value priskv_acl_info_obj (c_heap ex_state) (1, 0) = Ok v ∧ typed priskv_acl_info_obj v.
Proof.
  exact (codec_decode_well_typed ex_avail (λ _, eq_refl) ex_text priskv_acl_info_obj ∅ 1 [] (1, 0) ex_state
    acl_info_struct ex_codec_fresh ltac:(vm_compute; reflexivity) ltac:(vm_compute; reflexivity)).
Defined.

Lemma codec_decode_free_witness :
  ∃ s', priskv_codec_free_struct (Some (1, 0)) priskv_acl_info_obj ex_state = Ok (0, s') ∧ c_heap s' = ∅.
Proof.
  exact (codec_decode_free ex_avail (λ _, eq_refl) ex_text priskv_acl_info_obj ∅ 1 [] (1, 0) ex_state
    acl_info_struct ex_codec_fresh ltac:(vm_compute; reflexivity) ltac:(vm_compute; reflexivity)).
Defined.

(** The structure that was decoded, coded and decoded again. *)
Lemma ex_typed : typed priskv_acl_info_obj ex_rules.
Proof. cbn. repeat split; try lia; repeat constructor; lia. Qed.

Lemma codec_roundtrip_witness :
  ∃ text p h1, priskv_codec_code ex_avail [] (Some (1, 0)) (Some priskv_acl_info_obj) ex_state
      = Ok (Some p, CS h1 (c_next ex_state + 1) (c_error ex_state)) ∧
    ld_string h1 p = Ok text ∧
    ∃ r s, priskv_codec_decode ex_avail (Some text) (Some priskv_acl_info_obj) (CS h1 (c_next ex_state + 1) (c_error ex_state)) = Ok (r, s) ∧
      ∃ q, r = Some q ∧ read_value priskv_acl_info_obj (c_heap s) q = Ok ex_rules.
Proof.
  apply (codec_roundtrip ex_avail [] (λ _, eq_refl) priskv_acl_info_obj (c_heap ex_state) (c_next ex_state) (c_error ex_state)
    (1, 0) ex_rules acl_info_struct).
  - cbn. lia.
  - intros a Ha. apply elem_of_dom in Ha.
    assert (dom (c_heap ex_state) = list_to_set [1; 2; 3; 4]) as Hd by (vm_compute; reflexivity).
    rewrite Hd in Ha. apply elem_of_list_to_set in Ha. replace (c_next ex_state) with 5 by (vm_compute; reflexivity).
    repeat (apply elem_of_cons in Ha as [->|Ha]; [lia|]). destruct (proj1 (elem_of_nil a) Ha).
  - vm_compute. reflexivity.
  - exact ex_typed.
  - intros j Hj. cbn in Hj. unfold id in Hj. subst j. vm_compute. reflexivity.
Defined.

(** ** What the code does not do *)

(** A request that fails keeps what was decoded before the error: the first rule
    stays allocated, and so does the address of a request to copy keys. *)
Lemma failed_decode_leaks :
  (∃ s, ex_decode (print_tree (JObject [(str "rules", JArray [JString (str "any"); JInt 5])])) priskv_acl_info_obj = Ok (None, s)
        ∧ c_heap s !! 3 = Some (enc_string (str "any"))
        ∧ c_error s = str "failed to decode array `rules`: type is not string") ∧
  (∃ s, ex_decode (print_tree (JObject [(str "addr", JString (str "a")); (str "port", JString [])])) priskv_kvmanage_info_obj = Ok (None, s)
        ∧ c_heap s !! 2 = Some (enc_string (str "a"))
        ∧ c_error s = str "failed to decode `port`: type is not int").
Proof. split; eexists; split; [vm_compute; reflexivity|split; vm_compute; reflexivity|vm_compute; reflexivity|split; vm_compute; reflexivity]. Qed.

(** A node without slots, or without a port, is coded to JSON that the same table
    refuses: the fields are both required and left out when zero. *)
Lemma zero_fields_not_codable name addr slots port :
  codable priskvClusterMetaDataNodeInfo_obj (VStruct [VString (Some name); VString (Some addr); VInt port; VArray slots])
  = negb (port =? 0) && match slots with [] => false | _ => forallb (codable priskvClusterMetaDataNodeSlotRange_obj) slots end.
Proof. destruct slots; cbn; destruct (port =? 0); cbn; rewrite ?andb_true_r; done. Qed.

(** Memory that cannot be allocated is used. *)
Lemma decode_without_memory :
  priskv_codec_decode (λ _, false) (Some ex_text) (Some priskv_acl_info_obj) (CS ∅ 1 []) = Fault NullDeref.
Proof. vm_compute. reflexivity. Qed.
