(* ===== verification/KvManage.v ===== *)
(** * Copying and moving keys to another server

    [server/kvmanage.c]: a request of the HTTP interface copies or moves keys to
    another server. The context walks the keys by a flow of tasks; a copy is a GET on
    the store and an asynchronous SET with a client of the other server, whose
    callback runs the next task. The client is what happens to a SET: the statuses
    it calls back with at once, and whether the request is sent. *)

From S2P Require Import Prelude State Utils Crc Lists Protocol Wire Memory Slab Buddy Alloc KvModel KvInv KvOps KvSweep KvKeys KvStart KvSystem.

Import Slab Buddy.

(** ** Contexts *)

Inductive priskv_kvmanage_action := PRISKV_KVMANAGE_COPY | PRISKV_KVMANAGE_MOVE | PRISKV_KVMANAGE_MAX.

Inductive priskv_kvmanage_task := task_copy | task_delete.

Definition priskv_kvmanage_copy_flow : list priskv_kvmanage_task := [task_copy].
Definition priskv_kvmanage_move_flow : list priskv_kvmanage_task := [task_copy; task_delete].

Record priskv_kvmanage_context := mk_context {
  m_keys : list (list Z);
  m_nkeys : Z;
  m_nsuccess : Z;
  m_status : Z;
  m_action : priskv_kvmanage_action;
  m_flow : list priskv_kvmanage_task;
  m_step : Z
}.

(** The store and the clock; the context while it is allocated; the SETs that are
    sent and not answered; the ends that are scheduled; what was handed to the
    client ([key], address and length of the value); the statuses the caller was
    called back with. *)
Record kvm := KVM {
  g_kv : kv_state;
  m_now : timeval;
  m_ctx : option priskv_kvmanage_context;
  m_pending : nat;
  m_later : nat;
  m_sent : list (list Z * Z * Z);
  m_done : list Z
}.

Section kvmanage.
(** What the client does with the n-th SET. *)
Context (set_async : nat → list Z * bool).

Notation M := (ST kvm).

Definition ctx_get : M priskv_kvmanage_context := λ s,
  match m_ctx s with None => Fault UseAfterFree | Some c => Ok (c, s) end.
Definition ctx_put (c : priskv_kvmanage_context) : M unit :=
  modify (λ s, KVM (g_kv s) (m_now s) (Some c) (m_pending s) (m_later s) (m_sent s) (m_done s)).
Definition kv_put (kv : kv_state) : M unit :=
  modify (λ s, KVM kv (m_now s) (m_ctx s) (m_pending s) (m_later s) (m_sent s) (m_done s)).

Definition with_step (c : priskv_kvmanage_context) (n : Z) : priskv_kvmanage_context :=
  mk_context (m_keys c) (m_nkeys c) (m_nsuccess c) (m_status c) (m_action c) (m_flow c) n.
Definition with_nsuccess (c : priskv_kvmanage_context) (n : Z) : priskv_kvmanage_context :=
  mk_context (m_keys c) (m_nkeys c) n (m_status c) (m_action c) (m_flow c) (m_step c).
Definition with_status (c : priskv_kvmanage_context) (n : Z) : priskv_kvmanage_context :=
  mk_context (m_keys c) (m_nkeys c) (m_nsuccess c) n (m_action c) (m_flow c) (m_step c).

(** [priskv_run_later] only writes an eventfd: the end runs from the event loop. *)
Definition priskv_kvmanage_context_destory (status : Z) : M unit :=
  c ← ctx_get;
  _ ← ctx_put (with_status c status);
  modify (λ s, KVM (g_kv s) (m_now s) (m_ctx s) (m_pending s) (S (m_later s)) (m_sent s) (m_done s)).

(** Closes the client, whose SETs are not answered any more, calls back and frees
    the context. *)
Definition __priskv_kvmanage_context_destory : M unit :=
  c ← ctx_get;
  modify (λ s, KVM (g_kv s) (m_now s) None 0 (pred (m_later s)) (m_sent s) (m_done s ++ [m_status c])).

(** [run] is [priskv_kvmanage_workflow_run] on the same context. *)
Definition priskv_set_cb (run : Z → M Z) (status : Z) : M unit :=
  r ← run status;
  if r <? 0 then priskv_kvmanage_context_destory (-1) else mret tt.

Fixpoint call_back_all (run : Z → M Z) (statuses : list Z) : M unit :=
  match statuses with [] => mret tt | st :: statuses => _ ← priskv_set_cb run st; call_back_all run statuses end.

(** [priskv_set_async] returns 0 whatever happens. *)
Definition priskv_set_async (run : Z → M Z) (key : list Z) (val valuelen : Z) : M unit :=
  s ← get;
  let '(at_once, sent) := set_async (length (m_sent s)) in
  _ ← modify (λ s, KVM (g_kv s) (m_now s) (m_ctx s) (if sent then S (m_pending s) else m_pending s) (m_later s)
                    (m_sent s ++ [(key, val, valuelen)]) (m_done s));
  call_back_all run at_once.

(** [strlen] of a key is cut to 16 bits. *)
Definition priskv_kvmanage_do_copy (run : Z → M Z) : M Z :=
  c ← ctx_get;
  key ← lift (rd (m_keys c) (m_nsuccess c));
  let keylen := u16 (Z.of_nat (length key)) in
  s ← get;
  '(status, keynode, out, kv) ← lift (priskv_get_key (g_kv s) key keylen (m_now s));
  _ ← kv_put kv;
  ret ← match status, keynode, out with
        | PRISKV_RESP_STATUS_OK, Some _, Some (val, valuelen) =>
            _ ← priskv_set_async run key val valuelen; mret 0
        | _, _, _ => mret (-1)
        end;
  s ← get;
  kv ← lift (priskv_get_key_end (g_kv s) keynode);
  _ ← kv_put kv;
  mret ret.

Definition priskv_kvmanage_do_delete (run : Z → M Z) : M Z :=
  c ← ctx_get;
  key ← lift (rd (m_keys c) (m_nsuccess c));
  s ← get;
  '(status, kv) ← lift (priskv_delete_key (g_kv s) key (u16 (Z.of_nat (length key))));
  _ ← kv_put kv;
  match status with
  | PRISKV_RESP_STATUS_OK => run 0
  | _ => mret (-1)
  end.

Definition priskv_kvmanage_task_copy (run : Z → M Z) : M Z :=
  c ← ctx_get;
  if 1 <? m_step c then
    let c := with_nsuccess c (s32 (m_nsuccess c + 1)) in
    _ ← ctx_put c;
    if m_nsuccess c =? m_nkeys c then _ ← priskv_kvmanage_context_destory 0; mret 0
    else priskv_kvmanage_do_copy run
  else priskv_kvmanage_do_copy run.

Definition priskv_kvmanage_task_delete (run : Z → M Z) : M Z := priskv_kvmanage_do_delete run.

(** A status other than [PRISKV_STATUS_OK], 0, ends the flow. *)
Fixpoint priskv_kvmanage_workflow_run (fuel : nat) (status : Z) : M Z :=
  match fuel with
  | O => lift (Fault OutOfFuel)
  | S fuel =>
      if negb (status =? 0) then mret (-1)
      else
        c ← ctx_get;
        let stage := Z.rem (m_step c) (Z.of_nat (length (m_flow c))) in
        _ ← ctx_put (with_step c (s32 (m_step c + 1)));
        task ← lift (rd (m_flow c) stage);
        match task with
        | task_copy => priskv_kvmanage_task_copy (priskv_kvmanage_workflow_run fuel)
        | task_delete => priskv_kvmanage_task_delete (priskv_kvmanage_workflow_run fuel)
        end
  end.

(** A delete runs the copy of the next key, and a SET can be refused at once. *)
Definition workflow_fuel : nat := 4.

(** [priskv_kvmanage_do_action]; [connected] is whether [priskv_connect] succeeds. *)
Definition priskv_kvmanage_do_action (connected : bool) (action : priskv_kvmanage_action) (keys : list (list Z)) (nkeys : Z) : M Z :=
  if negb connected then mret (-1)
  else
    match match action with
          | PRISKV_KVMANAGE_COPY => Some priskv_kvmanage_copy_flow
          | PRISKV_KVMANAGE_MOVE => Some priskv_kvmanage_move_flow
          | PRISKV_KVMANAGE_MAX => None
          end with
    | None => mret (-1)
    | Some flow =>
        _ ← ctx_put (mk_context keys nkeys 0 0 action flow 0);
        r ← priskv_kvmanage_workflow_run workflow_fuel 0;
        if negb (r =? 0) then
          _ ← modify (λ s, KVM (g_kv s) (m_now s) None 0 (m_later s) (m_sent s) (m_done s));
          mret (-1)
        else mret 0
    end.

Definition priskv_kvmanage_copy_to (connected : bool) (keys : list (list Z)) (nkeys : Z) : M Z :=
  priskv_kvmanage_do_action connected PRISKV_KVMANAGE_COPY keys nkeys.
Definition priskv_kvmanage_move_to (connected : bool) (keys : list (list Z)) (nkeys : Z) : M Z :=
  priskv_kvmanage_do_action connected PRISKV_KVMANAGE_MOVE keys nkeys.

(** ** Events after the action *)

Inductive kvm_event :=
  | EvAnswer (status : Z) (now : timeval)
  | EvLater
  | EvStore (kv : kv_state).

Definition set_now (now : timeval) : M unit :=
  modify (λ s, KVM (g_kv s) now (m_ctx s) (m_pending s) (m_later s) (m_sent s) (m_done s)).

(** The answer to a SET, a scheduled end, and what other requests do to the store. *)
Definition kvm_step (ev : kvm_event) : M unit :=
  match ev with
  | EvAnswer status now =>
      _ ← set_now now;
      _ ← modify (λ s, KVM (g_kv s) (m_now s) (m_ctx s) (pred (m_pending s)) (m_later s) (m_sent s) (m_done s));
      priskv_set_cb (priskv_kvmanage_workflow_run workflow_fuel) status
  | EvLater => __priskv_kvmanage_context_destory
  | EvStore kv => kv_put kv
  end.

Fixpoint kvm_run (evs : list kvm_event) : M unit :=
  match evs with [] => mret tt | ev :: evs => _ ← kvm_step ev; kvm_run evs end.
End kvmanage.
