(* ===== verification/KvManageProps.v ===== *)
(** * Properties of copying and moving keys *)

From S2P Require Import Prelude State Utils Crc Lists Protocol Wire Memory Slab Buddy Alloc KvModel KvInv KvOps KvSweep KvKeys KvStart KvSystem Examples KvManage.

Import Slab Buddy.

Notation kinv kv pins := (kv_inv kv pins [] None None).

(** ** A GET and its end *)

(** The entry a copy can use. *)
Definition readable (kv : kv_state) (key : list Z) (now : timeval) : option entry :=
  e ← store kv !! key; if timed_out (e_expire e) now || e_busy e then None else Some e.

Lemma deref_store (kv : kv_state) pins a :
  kinv kv (padd pins a 1) → (∀ x, 0 <= pins x) → a ∈ lru_head kv →
  ∃ kv', priskv_keynode_deref kv a = Ok kv' ∧ kinv kv' pins ∧ store kv' = store kv.
Proof.
  intros Hi Hpos Ha. destruct (deref_inv _ _ _ _ _ Hi a) as (kv' & Hd & Hi' & Hc & Hh & Hl & _ & Hm & Hna);
    [rewrite padd_eq; specialize (Hpos a); lia|].
  exists kv'. split; [done|].
  assert (kinv kv' pins) as Hi2.
  { eapply kv_inv_proper, Hi'; try done. intros x. symmetry. apply (padd_cancel pins a 1). }
  split; [done|]. destruct Hna as (n & Hn & Hn'); [by left|].
  assert (∀ x, x ∈ linked kv' ↔ x ∈ linked kv) as Hlk by (intros x; unfold linked; by rewrite Hh).
  eapply store_ext; [exact Hi|exact Hi2|done|]. intros x m Hx Hxm.
  assert (value_base kv' = value_base kv) as Hvb by (by destruct Hc as (_ & _ & _ & ? & _)).
  destruct (decide (x = a)) as [->|Hne].
  - rewrite Hn in Hxm. injection Hxm as <-. eexists. split; [exact Hn'|]. split; [done|].
    unfold entry_of, priskv_value_to_pointer. by rewrite Hvb.
  - exists m. rewrite Hm by done. split; [done|]. split; [done|].
    unfold entry_of, priskv_value_to_pointer. by rewrite Hvb.
Qed.

Lemma entry_in_lru (kv : kv_state) pins key e :
  kinv kv pins → store kv !! key = Some e → e_node e ∈ lru_head kv.
Proof.
  intros Hi He. apply (lookup_store kv pins [] None None key e Hi) in He as (a & n & Ha & _ & _ & ->).
  by apply (lru_linked kv pins None None).
Qed.

Lemma get_get_end (kv : kv_state) pins key now :
  kinv kv pins → valid_key key → (∀ a, 0 <= pins a < 2 ^ 32 - 2) →
  ∃ st kn out kv1 kv2, priskv_get_key kv key (klen key) now = Ok (st, kn, out, kv1) ∧
    priskv_get_key_end kv1 kn = Ok kv2 ∧ kinv kv2 pins ∧
    match readable kv key now with
    | Some e => st = PRISKV_RESP_STATUS_OK ∧ kn = Some (e_node e) ∧ out = Some (e_val e, e_len e) ∧ store kv2 = store kv
    | None => st ≠ PRISKV_RESP_STATUS_OK
    end.
Proof.
  intros Hi Hk Hp. destruct (get_spec kv pins key now Hi Hk) as (st & kn & out & kv1 & Hget & _ & Hr); [intros a; apply Hp|].
  exists st, kn, out, kv1. unfold get_result, readable in *. destruct (store kv !! key) as [e|] eqn:He; simpl.
  2:{ destruct Hr as (-> & -> & -> & ->). exists kv. done. }
  destruct (timed_out (e_expire e) now); simpl.
  { destruct Hr as (-> & -> & -> & Hi1 & _). exists kv1. done. }
  destruct Hr as (-> & Hi1 & Hst & Hb).
  destruct (deref_store kv1 pins (e_node e) Hi1) as (kv2 & Hd & Hi2 & Hst2); [intros; apply Hp| |].
  { rewrite <- Hst in He. by eapply entry_in_lru. }
  exists kv2. split; [done|]. split; [done|]. split; [done|]. destruct (e_busy e).
  - by destruct Hb as [-> _].
  - destruct Hb as (-> & -> & _). split; [done|]. split; [done|]. split; [done|]. congruence.
Qed.

(** ** Tasks, with a client that takes every SET *)

Section flow.
Context (set_async : nat → list Z * bool).
Hypothesis Htakes : ∀ n, set_async n = ([], true).

Definition pins_ok (pins : Z → Z) : Prop := ∀ a, 0 <= pins a < 2 ^ 32 - 2.

Lemma klen_u16 key : valid_key key → u16 (Z.of_nat (length key)) = klen key.
Proof. intros [_ Hl]. unfold u16, klen. apply Z.mod_small. lia. Qed.

(** A copy hands exactly the value of the key to the client, if the key can be read. *)
Lemma do_copy_spec run kv now c np nl sent dn key pins :
  rd (m_keys c) (m_nsuccess c) = Ok key → valid_key key → kinv kv pins → pins_ok pins →
  ∃ kv', kinv kv' pins ∧
    priskv_kvmanage_do_copy set_async run (KVM kv now (Some c) np nl sent dn) =
    match readable kv key now with
    | Some e => Ok (0, KVM kv' now (Some c) (S np) nl (sent ++ [(key, e_val e, e_len e)]) dn)
    | None => Ok (-1, KVM kv' now (Some c) np nl sent dn)
    end ∧ (is_Some (readable kv key now) → store kv' = store kv).
Proof.
  intros Hkey Hk Hi Hp. destruct (get_get_end kv pins key now Hi Hk Hp) as (st & kn & out & kv1 & kv2 & Hget & Hend & Hi2 & Hr).
  exists kv2. split; [done|]. unfold priskv_kvmanage_do_copy.
  erewrite bind_run by reflexivity. erewrite bind_run by (unfold lift; rewrite Hkey; reflexivity).
  cbv zeta. erewrite bind_run by reflexivity. rewrite klen_u16 by done.
  erewrite bind_run by (unfold lift; cbn [g_kv m_now]; rewrite Hget; reflexivity). cbv iota beta.
  erewrite bind_run by reflexivity. destruct (readable kv key now) as [e|].
  - destruct Hr as (-> & -> & -> & Hst). split; [|done].
    erewrite bind_run.
    2:{ erewrite bind_run; [reflexivity|]. unfold priskv_set_async. erewrite bind_run by reflexivity.
        cbn [m_sent]. rewrite Htakes. cbv iota beta. erewrite bind_run by reflexivity. reflexivity. }
    erewrite bind_run by reflexivity. cbn [g_kv]. erewrite bind_run by (unfold lift; rewrite Hend; reflexivity). done.
  - split; [|by intros [? ?]].
    erewrite bind_run; [|destruct st; done || reflexivity].
    erewrite bind_run by reflexivity. cbn [g_kv]. erewrite bind_run by (unfold lift; rewrite Hend; reflexivity). done.
Qed.

Definition flow_of (act : priskv_kvmanage_action) : list priskv_kvmanage_task :=
  match act with PRISKV_KVMANAGE_MOVE => priskv_kvmanage_move_flow | _ => priskv_kvmanage_copy_flow end.

(** The steps taken when the copy of key [i] was handed to the client. *)
Definition step_of (act : priskv_kvmanage_action) (i : nat) : Z :=
  match act with PRISKV_KVMANAGE_MOVE => 2 * Z.of_nat i + 1 | _ => Z.of_nat i + 1 end.

(** The context while the SET of key [i] is not answered. *)
Definition at_key act keys (i : nat) : priskv_kvmanage_context :=
  mk_context keys (Z.of_nat (length keys)) (Z.of_nat i) 0 act (flow_of act) (step_of act i).

(** What becomes of the store when the SET of [key] succeeds. *)
Definition after_key (act : priskv_kvmanage_action) (key : list Z) (m : gmap (list Z) entry) : gmap (list Z) entry :=
  match act with PRISKV_KVMANAGE_MOVE => delete key m | _ => m end.

Context (act : priskv_kvmanage_action) (keys : list (list Z)).
Hypothesis Hact : act ≠ PRISKV_KVMANAGE_MAX.
Hypothesis Hvalid : Forall valid_key keys.
Hypothesis Hlen : Z.of_nat (length keys) < 2 ^ 29.

(** The next key, once the current one is done: the flow ends, the next SET is handed
    over, or the next key cannot be read. *)
Lemma task_copy_next run kv now (i : nat) step np nl sent dn pins :
  1 < step → kinv kv pins → pins_ok pins → (i < length keys)%nat →
  let c := mk_context keys (Z.of_nat (length keys)) (Z.of_nat i) 0 act (flow_of act) step in
  let c' := with_nsuccess c (Z.of_nat (S i)) in
  match keys !! S i with
  | None => priskv_kvmanage_task_copy set_async run (KVM kv now (Some c) np nl sent dn)
            = Ok (0, KVM kv now (Some c') np (S nl) sent dn)
  | Some key =>
      ∃ kv', kinv kv' pins ∧
        priskv_kvmanage_task_copy set_async run (KVM kv now (Some c) np nl sent dn) =
        match readable kv key now with
        | Some e => Ok (0, KVM kv' now (Some c') (S np) nl (sent ++ [(key, e_val e, e_len e)]) dn)
        | None => Ok (-1, KVM kv' now (Some c') np nl sent dn)
        end ∧ (is_Some (readable kv key now) → store kv' = store kv)
  end.
Proof.
  intros Hstep Hi Hp Hlt c c'.
  assert (s32 (Z.of_nat i + 1) = Z.of_nat (S i)) as Hs by (rewrite s32_small; lia).
  subst c'. set (ns := Z.of_nat (S i)) in *. assert (ns = Z.of_nat i + 1) as Hns by lia. clearbody ns.
  assert (priskv_kvmanage_task_copy set_async run (KVM kv now (Some c) np nl sent dn)
    = if ns =? Z.of_nat (length keys) then Ok (0, KVM kv now (Some (with_nsuccess c ns)) np (S nl) sent dn)
      else priskv_kvmanage_do_copy set_async run (KVM kv now (Some (with_nsuccess c ns)) np nl sent dn)) as ->.
  { unfold priskv_kvmanage_task_copy. erewrite bind_run by reflexivity. cbn [m_step m_nsuccess c]. apply Z.ltb_lt in Hstep as ->.
    rewrite Hs. cbv zeta. erewrite bind_run by reflexivity. cbn [m_nkeys with_nsuccess m_nsuccess c].
    by destruct (ns =? Z.of_nat (length keys)). }
  destruct (keys !! S i) as [key|] eqn:Hkey.
  - apply lookup_lt_Some in Hkey as Hl. destruct (Z.eqb_spec ns (Z.of_nat (length keys))); [lia|].
    apply (do_copy_spec run kv now (with_nsuccess c ns) np nl sent dn key pins); [|by eapply Forall_lookup_1|done|done].
    apply rd_Ok. cbn. split; [lia|]. by replace (Z.to_nat ns) with (S i) by lia.
  - apply lookup_ge_None in Hkey. destruct (Z.eqb_spec ns (Z.of_nat (length keys))); [done|lia].
Qed.

(** What the flow does when the SET of key [i] succeeded. *)
Definition advances (i : nat) key (kv : kv_state) now np nl sent dn pins (run : res (Z * kvm)) : Prop :=
  ∃ kv1, kinv kv1 pins ∧ store kv1 = after_key act key (store kv) ∧
  match keys !! S i with
  | None => ∃ c, m_status c = 0 ∧ run = Ok (0, KVM kv1 now (Some c) np (S nl) sent dn)
  | Some key' =>
      ∃ kv2, kinv kv2 pins ∧
      run = match readable kv1 key' now with
            | Some e => Ok (0, KVM kv2 now (Some (at_key act keys (S i))) (S np) nl (sent ++ [(key', e_val e, e_len e)]) dn)
            | None => Ok (-1, KVM kv2 now (Some (at_key act keys (S i))) np nl sent dn)
            end ∧ (is_Some (readable kv1 key' now) → store kv2 = store kv1)
  end.

Lemma act_cases : act = PRISKV_KVMANAGE_COPY ∨ act = PRISKV_KVMANAGE_MOVE.
Proof. clear -Hact. by destruct act; [left|right|]. Qed.

Lemma copy_advances run kv0 kv now (i : nat) key np nl sent dn pins :
  kinv kv pins → pins_ok pins → (i < length keys)%nat → store kv = after_key act key (store kv0) →
  advances i key kv0 now np nl sent dn pins (priskv_kvmanage_task_copy set_async run (KVM kv now
    (Some (mk_context keys (Z.of_nat (length keys)) (Z.of_nat i) 0 act (flow_of act) (step_of act (S i)))) np nl sent dn)).
Proof.
  intros Hi Hp Hlt Hst. exists kv. split; [done|]. split; [done|].
  pose proof (task_copy_next run kv now i (step_of act (S i)) np nl sent dn pins) as Hnext.
  specialize (Hnext ltac:(destruct act_cases as [-> | ->]; unfold step_of; lia) Hi Hp Hlt). cbv zeta in Hnext.
  destruct (keys !! S i) as [key'|].
  - destruct Hnext as (kv2 & Hi2 & Hrun & Hst2). exists kv2. by rewrite Hrun.
  - eexists. by split; [|exact Hnext].
Qed.

(** The first task of a round. *)
Lemma workflow_task fuel kv now c np nl sent dn stage task :
  Z.rem (m_step c) (Z.of_nat (length (m_flow c))) = stage → rd (m_flow c) stage = Ok task →
  priskv_kvmanage_workflow_run set_async (S fuel) 0 (KVM kv now (Some c) np nl sent dn)
  = (match task with
     | task_copy => priskv_kvmanage_task_copy set_async (priskv_kvmanage_workflow_run set_async fuel)
     | task_delete => priskv_kvmanage_task_delete (priskv_kvmanage_workflow_run set_async fuel)
     end) (KVM kv now (Some (with_step c (s32 (m_step c + 1)))) np nl sent dn).
Proof.
  intros Hst Htask. cbn [priskv_kvmanage_workflow_run]. change (negb (0 =? 0)) with false. cbv iota.
  erewrite bind_run by reflexivity. cbv zeta. erewrite bind_run by reflexivity. rewrite Hst.
  erewrite bind_run by (unfold lift; rewrite Htask; reflexivity). by destruct task.
Qed.

Lemma workflow_next kv now (i : nat) key np nl sent dn pins :
  keys !! i = Some key → kinv kv pins → pins_ok pins →
  let run := priskv_kvmanage_workflow_run set_async workflow_fuel 0 (KVM kv now (Some (at_key act keys i)) np nl sent dn) in
  advances i key kv now np nl sent dn pins run ∨
  (act = PRISKV_KVMANAGE_MOVE ∧ store kv !! key = None ∧
   ∃ kv' c, kinv kv' pins ∧ run = Ok (-1, KVM kv' now (Some c) np nl sent dn)).
Proof.
  intros Hkey Hi Hp run. apply lookup_lt_Some in Hkey as Hlt. pose proof (Forall_lookup_1 _ _ _ _ Hvalid Hkey) as Hk.
  subst run. unfold workflow_fuel. destruct act_cases as [Ha|Ha].
  - left. rewrite (workflow_task 3 kv now (at_key act keys i) np nl sent dn 0 task_copy);
      [|unfold at_key; rewrite Ha; apply Z.rem_1_r|unfold at_key; by rewrite Ha].
    replace (with_step _ _) with (mk_context keys (Z.of_nat (length keys)) (Z.of_nat i) 0 act (flow_of act) (step_of act (S i))).
    + apply (copy_advances _ kv kv); [done..|]. by rewrite Ha.
    + rewrite Ha. unfold with_step, at_key. cbn [m_keys m_nkeys m_nsuccess m_status m_action m_flow m_step flow_of step_of].
      rewrite s32_small by lia. f_equal. lia.
  - assert (Z.rem (2 * Z.of_nat i + 1) 2 = 1) as Hrem.
    { rewrite Z.rem_mod_nonneg by lia. rewrite Z.add_comm, Z.mul_comm, Z.mod_add by lia. done. }
    rewrite (workflow_task 3 kv now (at_key act keys i) np nl sent dn 1 task_delete);
      [|unfold at_key; rewrite Ha; exact Hrem|unfold at_key; by rewrite Ha].
    unfold priskv_kvmanage_task_delete, priskv_kvmanage_do_delete. erewrite bind_run by reflexivity.
    erewrite bind_run; [|unfold lift; cbn [m_keys m_nsuccess with_step at_key];
      rewrite (proj2 (rd_Ok keys (Z.of_nat i) key)); [reflexivity|rewrite Nat2Z.id; split; [lia|done]]].
    erewrite bind_run by reflexivity. rewrite klen_u16 by done.
    destruct (delete_spec kv pins key Hi Hk) as (kv1 & Hdel & Hi1 & _ & Hst1).
    erewrite bind_run by (unfold lift; cbn [g_kv]; rewrite Hdel; reflexivity). cbv iota beta.
    erewrite bind_run by reflexivity. destruct (decide (is_Some (store kv !! key))) as [Hs|Hn].
    + left. assert (with_step (at_key act keys i) (s32 (m_step (at_key act keys i) + 1))
        = mk_context keys (Z.of_nat (length keys)) (Z.of_nat i) 0 act (flow_of act) (2 * Z.of_nat i + 2)) as ->.
      { rewrite Ha. unfold with_step, at_key. cbn [m_keys m_nkeys m_nsuccess m_status m_action m_flow m_step flow_of step_of].
        rewrite s32_small by lia. f_equal. lia. }
      cbn [g_kv m_now m_ctx m_pending m_later m_sent m_done].
      rewrite (workflow_task 2 _ _ _ _ _ _ _ 0 task_copy); [| |rewrite Ha; done].
      2:{ rewrite Ha. cbn [m_step m_flow flow_of length priskv_kvmanage_move_flow]. replace (2 * Z.of_nat i + 2) with (0 + (Z.of_nat i + 1) * 2) by lia.
          rewrite Z.rem_mod_nonneg by lia. by rewrite Z.mod_add by lia. }
      replace (with_step _ _) with (mk_context keys (Z.of_nat (length keys)) (Z.of_nat i) 0 act (flow_of act) (step_of act (S i))).
      * apply (copy_advances _ kv kv1); [done..|]. by rewrite Ha.
      * unfold with_step. cbn [m_keys m_nkeys m_nsuccess m_status m_action m_flow m_step]. rewrite s32_small by lia.
        f_equal. rewrite Ha. unfold step_of. lia.
    + right. split; [done|]. split; [by destruct (store kv !! key); [destruct Hn|]|]. eexists kv1, _. by split.
Qed.

(** ** Runs *)

Definition kvm_start (kv : kv_state) (now : timeval) : kvm := KVM kv now None 0 0 [] [].

Lemma action_start kv now pins key :
  keys !! 0%nat = Some key → kinv kv pins → pins_ok pins →
  ∃ kv', kinv kv' pins ∧
    priskv_kvmanage_do_action set_async true act keys (Z.of_nat (length keys)) (kvm_start kv now) =
    match readable kv key now with
    | Some e => Ok (0, KVM kv' now (Some (at_key act keys 0)) 1 0 [(key, e_val e, e_len e)] [])
    | None => Ok (-1, KVM kv' now None 0 0 [] [])
    end ∧ (is_Some (readable kv key now) → store kv' = store kv).
Proof.
  intros Hkey Hi Hp. pose proof (Forall_lookup_1 _ _ _ _ Hvalid Hkey) as Hk.
  set (c := mk_context keys (Z.of_nat (length keys)) 0 0 act (flow_of act) 0).
  destruct (do_copy_spec (priskv_kvmanage_workflow_run set_async 3) kv now (at_key act keys 0) 0 0 [] [] key pins) as (kv' & Hi' & Hrun & Hst);
    [|done..|].
  { apply rd_Ok. by split. }
  exists kv'. split; [done|]. split; [|done].
  assert (priskv_kvmanage_workflow_run set_async workflow_fuel 0 (KVM kv now (Some c) 0 0 [] [])
    = priskv_kvmanage_do_copy set_async (priskv_kvmanage_workflow_run set_async 3) (KVM kv now (Some (at_key act keys 0)) 0 0 [] [])) as Hw.
  { unfold workflow_fuel. rewrite (workflow_task 3 kv now c 0 0 [] [] 0 task_copy).
    - unfold priskv_kvmanage_task_copy. erewrite bind_run by reflexivity.
      cbn [with_step m_step c]. change (s32 (0 + 1)) with 1. cbn [Z.ltb Z.compare Pos.compare Pos.compare_cont].
      replace (with_step c 1) with (at_key act keys 0); [done|].
      unfold at_key, with_step, c. cbn [m_keys m_nkeys m_nsuccess m_status m_action m_flow m_step].
      f_equal. by destruct act_cases as [-> | ->].
    - done.
    - unfold c. cbn [m_flow m_step]. by destruct act_cases as [-> | ->]. }
  unfold priskv_kvmanage_do_action, kvm_start. cbn [negb].
  assert (match act with
          | PRISKV_KVMANAGE_COPY => Some priskv_kvmanage_copy_flow
          | PRISKV_KVMANAGE_MOVE => Some priskv_kvmanage_move_flow
          | PRISKV_KVMANAGE_MAX => None
          end = Some (flow_of act)) as -> by (by destruct act_cases as [-> | ->]).
  erewrite bind_run by reflexivity. cbn [g_kv m_now m_pending m_later m_sent m_done]. fold c.
  destruct (readable kv key now) as [e|]; rewrite Hrun in Hw; erewrite bind_run by exact Hw; done.
Qed.

(** The events that can happen: an answer while a SET is in flight, an end that was
    scheduled, anything other requests do to the store. *)
Definition ev_ok (s : kvm) (pins : Z → Z) (ev : kvm_event) (pins' : Z → Z) : Prop :=
  match ev with
  | EvAnswer _ _ => (0 < m_pending s)%nat ∧ pins' = pins
  | EvLater => (0 < m_later s)%nat ∧ pins' = pins
  | EvStore kv => kinv kv pins' ∧ pins_ok pins'
  end.

Inductive kvm_reach : kvm → (Z → Z) → Prop :=
  | kvm_reach_start kv now pins s :
      kinv kv pins → pins_ok pins →
      priskv_kvmanage_do_action set_async true act keys (Z.of_nat (length keys)) (kvm_start kv now) = Ok (0, s) →
      kvm_reach s pins
  | kvm_reach_step s pins ev s' pins' :
      kvm_reach s pins → ev_ok s pins ev pins' → kvm_step set_async ev s = Ok (tt, s') → kvm_reach s' pins'.

Definition sent_keys (s : kvm) : list (list Z) := (m_sent s).*1.*1.

(** One SET in flight, or an end scheduled, or over. *)
Definition kvm_phase (s : kvm) : Prop :=
  match m_ctx s with
  | None => m_pending s = 0%nat ∧ m_later s = 0%nat ∧ sent_keys s `prefix_of` keys ∧
      ∃ st, m_done s = [st] ∧ (st = 0 → sent_keys s = keys)
  | Some c => m_done s = [] ∧
      ((∃ i, c = at_key act keys i ∧ (i < length keys)%nat ∧ m_pending s = 1%nat ∧ m_later s = 0%nat ∧
          sent_keys s = take (S i) keys) ∨
       (m_pending s = 0%nat ∧ m_later s = 1%nat ∧ sent_keys s `prefix_of` keys ∧ (m_status c = 0 → sent_keys s = keys)))
  end.

Definition kvm_inv (s : kvm) (pins : Z → Z) : Prop := kinv (g_kv s) pins ∧ pins_ok pins ∧ kvm_phase s.

Lemma sent_next (sent : list (list Z * Z * Z)) (i : nat) key v l :
  keys !! S i = Some key → (sent.*1).*1 = take (S i) keys → ((sent ++ [(key, v, l)]).*1).*1 = take (S (S i)) keys.
Proof. intros Hk Hs. rewrite !fmap_app, Hs. cbn. by rewrite (take_S_r keys (S i) key). Qed.

Lemma take_all_keys (i : nat) : (i < length keys)%nat → keys !! S i = None → take (S i) keys = keys.
Proof. intros Hi Hn. apply lookup_ge_None in Hn. apply take_ge. lia. Qed.

Lemma answer_inv kv now c (i : nat) sent pins status t :
  c = at_key act keys i → (i < length keys)%nat → kinv kv pins → pins_ok pins → (sent.*1).*1 = take (S i) keys →
  ∃ s', kvm_step set_async (EvAnswer status t) (KVM kv now (Some c) 1 0 sent []) = Ok (tt, s') ∧ kvm_inv s' pins ∧ m_done s' = [] ∧
    (m_later s' = 1%nat ∨ length (m_sent s') = S (length sent)).
Proof.
  intros -> Hlt Hi Hp Hs. cbn [kvm_step]. erewrite bind_run by reflexivity. erewrite bind_run by reflexivity.
  cbn [g_kv m_now m_ctx m_pending m_later m_sent m_done pred]. unfold priskv_set_cb.
  destruct (lookup_lt_is_Some_2 keys i Hlt) as [key Hkey].
  assert ((sent.*1).*1 `prefix_of` keys) as Hpre by (rewrite Hs; apply prefix_take).
  assert (∀ kv' c', kinv kv' pins → kvm_inv (KVM kv' t (Some (with_status c' (-1))) 0 1 sent []) pins) as Hfail.
  { intros kv' c' Hi'. split; [done|]. split; [done|]. split; [done|]. right. do 3 (split; [done|]). done. }
  destruct (decide (status = 0)) as [->|Hne].
  2:{ assert (priskv_kvmanage_workflow_run set_async workflow_fuel status (KVM kv t (Some (at_key act keys i)) 0 0 sent [])
        = Ok (-1, KVM kv t (Some (at_key act keys i)) 0 0 sent [])) as Hw.
      { cbn [workflow_fuel priskv_kvmanage_workflow_run]. by rewrite (proj2 (Z.eqb_neq status 0) Hne). }
      erewrite bind_run by exact Hw. cbn [Z.ltb Z.compare]. eexists. split; [reflexivity|]. split; [by apply Hfail|]. split; [done|by left]. }
  destruct (workflow_next kv t i key 0 0 sent [] pins Hkey Hi Hp) as [(kv1 & Hi1 & _ & Hadv)|(_ & _ & kv' & c' & Hi' & Hw)].
  2:{ erewrite bind_run by exact Hw. cbn [Z.ltb Z.compare]. eexists. split; [reflexivity|]. split; [by apply Hfail|]. split; [done|by left]. }
  destruct (keys !! S i) as [key'|] eqn:Hk'.
  - destruct Hadv as (kv2 & Hi2 & Hw & _). destruct (readable kv1 key' t) as [e|]; erewrite bind_run by exact Hw; cbn [Z.ltb Z.compare].
    + eexists. split; [reflexivity|]. split; [|split; [done|right; cbn; rewrite length_app; cbn; lia]]. split; [done|]. split; [done|]. split; [done|]. left. exists (S i).
      split; [done|]. split; [by eapply lookup_lt_Some|]. split; [done|]. split; [done|]. by apply sent_next.
    + eexists. split; [reflexivity|]. split; [by apply Hfail|]. split; [done|by left].
  - destruct Hadv as (c' & Hc' & Hw). erewrite bind_run by exact Hw. cbn [Z.ltb Z.compare]. eexists. split; [reflexivity|].
    split; [|split; [done|by left]]. split; [done|]. split; [done|]. split; [done|]. right. do 3 (split; [done|]). intros _.
    unfold sent_keys. cbn [m_sent]. rewrite Hs. by apply take_all_keys.
Qed.

Lemma step_inv s pins ev pins' : kvm_inv s pins → ev_ok s pins ev pins' →
  ∃ s', kvm_step set_async ev s = Ok (tt, s') ∧ kvm_inv s' pins' ∧ (ev ≠ EvLater → m_done s' = m_done s) ∧
    (ev ≠ EvLater → (∀ kv, ev ≠ EvStore kv) → m_later s' = 1%nat ∨ length (m_sent s') = S (length (m_sent s))).
Proof.
  destruct s as [kv now ctx np nl sent dn]. intros (Hi & Hp & Hph) Hev. destruct ev as [status t| |kv']; cbn [ev_ok m_pending m_later] in Hev.
  - destruct Hev as [Hpos ->]. unfold kvm_phase in Hph. cbn [m_ctx m_done m_pending m_later] in Hph.
    destruct ctx as [c|]; [|lia]. destruct Hph as (-> & [(i & -> & Hlt & -> & -> & Hs)|(-> & _)]); [|lia].
    destruct (answer_inv kv now _ i sent pins status t eq_refl Hlt Hi Hp Hs) as (s' & Hrun & Hinv & Hd & Hgo). exists s'.
    split; [done|]. split; [done|]. split; [done|]. intros _ _. exact Hgo.
  - destruct Hev as [Hpos ->]. unfold kvm_phase in Hph. cbn [m_ctx m_done m_pending m_later] in Hph.
    destruct ctx as [c|]; [|lia]. destruct Hph as (-> & [(i & _ & _ & _ & -> & _)|(-> & -> & Hpre & Hst)]); [lia|].
    eexists. split; [reflexivity|]. split; [|done]. split; [done|]. split; [done|]. split; [done|]. split; [done|]. split; [done|]. by exists (m_status c).
  - destruct Hev as [Hi' Hp']. eexists. split; [reflexivity|]. split; [done|]. split; [done|]. intros _ Hne. by destruct (Hne kv').
Qed.

Lemma kvm_reach_inv s pins : keys ≠ [] → kvm_reach s pins → kvm_inv s pins.
Proof.
  intros Hne. induction 1 as [kv now pins s Hi Hp Hrun|s pins ev s' pins' _ IH Hev Hrun].
  - destruct (keys !! 0%nat) as [key|] eqn:Hk; [|apply lookup_ge_None in Hk; destruct Hne; apply nil_length_inv; lia].
    destruct (action_start kv now pins key Hk Hi Hp) as (kv' & Hi' & Hact' & _).
    rewrite Hact' in Hrun. destruct (readable kv key now) as [e|]; [|done]. injection Hrun as <-.
    apply lookup_lt_Some in Hk as Hlt. split; [done|]. split; [done|]. split; [done|]. left. exists 0%nat.
    do 4 (split; [done|]). unfold sent_keys. by rewrite (take_S_r keys 0 key).
  - destruct (step_inv s pins ev pins' IH Hev) as (s1 & Hs1 & Hi1 & _). congruence.
Qed.

Lemma foldr_after_key ks key m : key ∉ ks →
  foldr (after_key act) (after_key act key m) ks = after_key act key (foldr (after_key act) m ks).
Proof.
  intros Hk. clear -Hk. induction ks as [|k ks IH]; [done|]. apply not_elem_of_cons in Hk as [Hne Hk]. cbn. rewrite IH by done.
  unfold after_key. destruct act; try done. apply delete_delete.
Qed.

(** All answers are OK, and nothing else happens meanwhile: the keys from [i] on. *)
Lemma copies_rest nows : ∀ (i : nat) kv now sent key es pins,
  keys !! i = Some key → kinv kv pins → pins_ok pins → NoDup (drop i keys) → length nows = (length keys - i)%nat →
  Forall2 (λ k e, store kv !! k = Some e ∧ e_busy e = false ∧ Forall (λ t, timed_out (e_expire e) t = false) nows)
    (drop (S i) keys) es → is_Some (store kv !! key) →
  ∃ s, kvm_run set_async ((EvAnswer 0 <$> nows) ++ [EvLater]) (KVM kv now (Some (at_key act keys i)) 1 0 sent []) = Ok (tt, s) ∧
    m_done s = [0] ∧ m_sent s = sent ++ zip_with (λ k e, (k, e_val e, e_len e)) (drop (S i) keys) es ∧
    store (g_kv s) = foldr (after_key act) (store kv) (drop i keys).
Proof.
  induction nows as [|t nows IH]; intros i kv now sent key es pins Hkey Hi Hp Hnd Hlen' Hes Hin;
    apply lookup_lt_Some in Hkey as Hlt; cbn in Hlen'; [lia|].
  rewrite (drop_S keys key i Hkey) in Hnd |- *. apply NoDup_cons in Hnd as [Hnotin Hnd].
  cbn [fmap list_fmap app kvm_run].
  destruct (workflow_next kv t i key 0 0 sent [] pins Hkey Hi Hp) as [(kv1 & Hi1 & Hst1 & Hadv)|(_ & Hnone & _)];
    [|by rewrite Hnone in Hin; destruct Hin].
  destruct (keys !! S i) as [key'|] eqn:Hk'.
  - pose proof (drop_S keys key' (S i) Hk') as Hdrop. rewrite Hdrop in Hes, Hnd, Hnotin. apply Forall2_cons_inv_l in Hes as (e & es' & (He & Hbusy & Htimes) & Hes' & ->).
    apply not_elem_of_cons in Hnotin as [Hne Hnotin].
    assert (∀ k, k ∈ drop (S i) keys → store kv1 !! k = store kv !! k) as Hsame.
    { intros k Hk. rewrite Hst1. unfold after_key. destruct act; try done. rewrite lookup_delete_ne; [done|]. intros <-.
      rewrite Hdrop in Hk. apply elem_of_cons in Hk as [?|?]; congruence. }
    assert (readable kv1 key' t = Some e) as Hread.
    { unfold readable. rewrite Hsame by (rewrite Hdrop; left). rewrite He. cbn. apply Forall_cons in Htimes as [-> _]. by rewrite Hbusy. }
    destruct Hadv as (kv2 & Hi2 & Hw & Hst2). rewrite Hread in Hw, Hst2. specialize (Hst2 (mk_is_Some _ _ eq_refl)).
    destruct (IH (S i) kv2 t (sent ++ [(key', e_val e, e_len e)]) key' es' pins) as (s & Hs & Hdone & Hsent & Hstore).
    + done.
    + done.
    + done.
    + rewrite Hdrop. done.
    + lia.
    + assert (∀ k, k ∈ drop (S (S i)) keys → store kv2 !! k = store kv !! k) as Hsame2.
      { intros k Hk. rewrite Hst2. apply Hsame. rewrite Hdrop. by right. }
      clear -Hes' Hsame2. induction Hes' as [|k e' ks es (He & Hb & Ht) _ IHf]; constructor.
      * rewrite Hsame2 by left. split; [done|]. split; [done|]. by apply Forall_cons in Ht as [_ ?].
      * apply IHf. intros k' Hk'. apply Hsame2. by right.
    + rewrite Hst2, Hsame by (rewrite Hdrop; left). by rewrite He.
    + exists s. split.
      * erewrite bind_run; [exact Hs|]. cbn [kvm_step]. erewrite bind_run by reflexivity. erewrite bind_run by reflexivity.
        cbn [g_kv m_now m_ctx m_pending m_later m_sent m_done pred]. unfold priskv_set_cb. by erewrite bind_run by exact Hw.
      * split; [done|]. split; [rewrite Hsent, <- app_assoc, Hdrop; done|]. rewrite Hstore, Hst2, Hst1.
        cbn [foldr]. apply foldr_after_key. rewrite Hdrop. by apply not_elem_of_cons.
  - apply lookup_ge_None in Hk' as Hge. assert (drop (S i) keys = []) as Hd by (apply drop_ge; lia).
    rewrite Hd in Hes |- *. apply Forall2_nil_inv_l in Hes as ->. destruct nows; [|cbn in Hlen'; lia].
    destruct Hadv as (c & Hc & Hw).
    assert (kvm_step set_async (EvAnswer 0 t) (KVM kv now (Some (at_key act keys i)) 1 0 sent []) = Ok (tt, KVM kv1 t (Some c) 0 1 sent [])) as Hstep.
    { cbn [kvm_step]. erewrite bind_run by reflexivity. erewrite bind_run by reflexivity.
      cbn [g_kv m_now m_ctx m_pending m_later m_sent m_done pred]. unfold priskv_set_cb. by erewrite bind_run by exact Hw. }
    eexists. split; [erewrite bind_run by exact Hstep; reflexivity|].
    cbn [m_done m_sent g_kv]. split; [by rewrite Hc|]. split; [by rewrite app_nil_r|]. by rewrite Hst1.
Qed.
End flow.

(** Copying or moving keys to another server, with the requests of others
    interleaved and whatever the other server answers: no event faults, at most one
    SET is in flight, the keys handed over are a prefix of those asked for, in
    order, and the caller is called back once, with 0 only if all of them were
    handed over and answered. *)
Theorem kvmanage_safe set_async act keys s pins :
  (∀ n, set_async n = ([], true)) → act ≠ PRISKV_KVMANAGE_MAX → Forall valid_key keys →
  Z.of_nat (length keys) < 2 ^ 29 → keys ≠ [] → kvm_reach set_async act keys s pins →
  (∀ ev pins', ev_ok s pins ev pins' → ∃ s', kvm_step set_async ev s = Ok (tt, s')) ∧
  (m_pending s <= 1)%nat ∧ sent_keys s `prefix_of` keys ∧
  match m_ctx s with
  | Some _ => m_done s = []
  | None => ∃ st, m_done s = [st] ∧ (st = 0 → sent_keys s = keys)
  end.
Proof.
  intros Htk Hact Hv Hl Hne Hr. pose proof (kvm_reach_inv set_async Htk act keys Hact Hv Hl s pins Hne Hr) as Hinv. split.
  - intros ev pins' Hev. destruct (step_inv set_async Htk act keys Hact Hv Hl s pins ev pins' Hinv Hev) as (s' & ? & _). eauto.
  - destruct Hinv as (_ & _ & Hph). unfold kvm_phase in Hph. destruct (m_ctx s) as [c|].
    + destruct Hph as (-> & [(i & _ & _ & -> & _ & ->)|(-> & _ & ? & _)]); (split; [lia|]); (split; [|done]); [apply prefix_take|done].
    + destruct Hph as (-> & _ & ? & ?). split; [lia|]. done.
Qed.

(** (C33) Copying or moving keys that are in the store, different, not expired and
    not being written, fewer than 2^29, while nothing else uses the store
    ([value_not_held] and [moved_key_loses_update] show what happens otherwise):
    when the other server takes every SET, the address and length of the value of
    every key, in order, is what the client is given - the bytes are read by its
    transfer later, which is not part of this - the caller is called back with 0,
    and the store is as before, without the keys if they were moved. *)
Theorem kvmanage_correct set_async act keys kv now nows es pins :
  (∀ n, set_async n = ([], true)) → act ≠ PRISKV_KVMANAGE_MAX → Forall valid_key keys →
  Z.of_nat (length keys) < 2 ^ 29 → keys ≠ [] → NoDup keys → kinv kv pins → pins_ok pins → length nows = length keys →
  Forall2 (λ k e, store kv !! k = Some e ∧ e_busy e = false ∧ Forall (λ t, timed_out (e_expire e) t = false) (now :: nows)) keys es →
  ∃ s, (_ ← priskv_kvmanage_do_action set_async true act keys (Z.of_nat (length keys));
        kvm_run set_async ((EvAnswer 0 <$> nows) ++ [EvLater])) (kvm_start kv now) = Ok (tt, s) ∧
    m_done s = [0] ∧ m_sent s = zip_with (λ k e, (k, e_val e, e_len e)) keys es ∧
    store (g_kv s) = foldr (after_key act) (store kv) keys.
Proof.
  intros Htk Hact Hv Hl Hne Hnd Hi Hp Hlen Hes. destruct keys as [|key ks]; [done|].
  apply Forall2_cons_inv_l in Hes as (e & es' & (He & Hb & Ht) & Hes' & ->). apply Forall_cons in Ht as [Ht Hts].
  destruct (action_start set_async Htk act (key :: ks) Hact Hv kv now pins key eq_refl Hi Hp) as (kv' & Hi' & Hrun & Hst).
  assert (readable kv key now = Some e) as Hread by (unfold readable; rewrite He; cbn; by rewrite Ht, Hb).
  rewrite Hread in Hrun, Hst. specialize (Hst (mk_is_Some _ _ eq_refl)).
  destruct (copies_rest set_async Htk act (key :: ks) Hact Hv Hl nows 0 kv' now [(key, e_val e, e_len e)] key es' pins)
    as (s & Hs & Hdone & Hsent & Hstore); try done.
  - cbn. rewrite Hst. eapply Forall2_impl; [exact Hes'|]. intros k e' (? & ? & Ht'). split; [done|]. split; [done|].
    by apply Forall_cons in Ht' as [_ ?].
  - rewrite Hst, He. done.
  - exists s. split; [by erewrite bind_run by exact Hrun|]. split; [done|]. split; [by rewrite Hsent|]. rewrite Hstore, Hst. done.
Qed.

(** ** Examples *)

(** The store with the key "ab", once its SET has ended. *)
Definition ex_kv : kv_state :=
  match run no_regex (OpSetEnd 65536) ex1 (λ _, 0) with Ok (kv, _) => kv | Fault _ => ex1 end.

Lemma ex_kv_reachable : reachable no_regex ex_kv (λ _, 0).
Proof.
  eapply (reach_step _ ex1 (λ _, 0) (OpSetEnd 65536)); [apply ex1_reachable| |].
  - vm_compute. eexists. reflexivity.
  - unfold ex_kv. vm_compute. reflexivity.
Defined.

Definition ex_takes (n : nat) : list Z * bool := ([], true).
Definition ex_entry : entry := mk_entry 65536 1048576 5000 (TimeVal 101 0) false.
Definition ex_now : timeval := TimeVal 100 5.

Lemma ex_pins : pins_ok (λ _, 0).
Proof. intros a. lia. Qed.

Lemma ex_keys_valid : Forall valid_key [ex_key].
Proof. constructor; [apply ex_key_valid|constructor]. Qed.

Lemma ex_entry_there : store ex_kv !! ex_key = Some ex_entry.
Proof. vm_compute. reflexivity. Qed.

Lemma ex_entries : Forall2 (λ k e, store ex_kv !! k = Some e ∧ e_busy e = false ∧
  Forall (λ t, timed_out (e_expire e) t = false) [ex_now; ex_now]) [ex_key] [ex_entry].
Proof. constructor; [|constructor]. split; [exact ex_entry_there|]. split; [done|]. repeat constructor. Qed.

Lemma ex_keys_few : Z.of_nat (length [ex_key]) < 2 ^ 29.
Proof. done. Qed.

Lemma kvmanage_correct_witness :
  ∃ s, (_ ← priskv_kvmanage_do_action ex_takes true PRISKV_KVMANAGE_MOVE [ex_key] (Z.of_nat (length [ex_key]));
        kvm_run ex_takes ((EvAnswer 0 <$> [ex_now]) ++ [EvLater])) (kvm_start ex_kv ex_now) = Ok (tt, s) ∧
    m_done s = [0] ∧ m_sent s = zip_with (λ k e, (k, e_val e, e_len e)) [ex_key] [ex_entry] ∧
    store (g_kv s) = foldr (after_key PRISKV_KVMANAGE_MOVE) (store ex_kv) [ex_key].
Proof.
  exact (kvmanage_correct ex_takes PRISKV_KVMANAGE_MOVE [ex_key] ex_kv ex_now [ex_now] [ex_entry] (λ _, 0) (λ _, eq_refl)
    ltac:(discriminate) ex_keys_valid ex_keys_few ltac:(discriminate) (NoDup_singleton ex_key)
    (reachable_inv _ _ _ ex_kv_reachable) ex_pins eq_refl ex_entries).
Defined.

(** The state while the SET of the only key is in flight. *)
Definition ex_flight : kvm :=
  state_after (priskv_kvmanage_do_action ex_takes true PRISKV_KVMANAGE_MOVE [ex_key] 1 (kvm_start ex_kv ex_now)) (kvm_start ex_kv ex_now).

Lemma ex_flight_run :
  priskv_kvmanage_do_action ex_takes true PRISKV_KVMANAGE_MOVE [ex_key] (Z.of_nat (length [ex_key])) (kvm_start ex_kv ex_now) = Ok (0, ex_flight).
Proof. unfold ex_flight. vm_compute. reflexivity. Qed.

Lemma kvmanage_safe_witness :
  (∀ ev pins', ev_ok ex_flight (λ _, 0) ev pins' → ∃ s', kvm_step ex_takes ev ex_flight = Ok (tt, s')) ∧
  (m_pending ex_flight <= 1)%nat ∧ sent_keys ex_flight `prefix_of` [ex_key] ∧
  match m_ctx ex_flight with
  | Some _ => m_done ex_flight = []
  | None => ∃ st, m_done ex_flight = [st] ∧ (st = 0 → sent_keys ex_flight = [ex_key])
  end.
Proof.
  exact (kvmanage_safe ex_takes PRISKV_KVMANAGE_MOVE [ex_key] ex_flight (λ _, 0) (λ _, eq_refl)
    ltac:(discriminate) ex_keys_valid ex_keys_few ltac:(discriminate)
    (kvm_reach_start ex_takes PRISKV_KVMANAGE_MOVE [ex_key] ex_kv ex_now (λ _, 0) ex_flight
       (reachable_inv _ _ _ ex_kv_reachable) ex_pins ex_flight_run)).
Defined.

(** ** What the code does not do *)

(** The GET ends as soon as the SET is handed to the client: while the other server
    still reads the value its node holds no reference, and after a DELETE a SET of
    another key gets the memory of the value. *)
Lemma value_not_held :
  m_pending ex_flight = 1%nat ∧ m_sent ex_flight = [(ex_key, 1048576, 5000)] ∧
  match run no_regex (OpDelete ex_key) (g_kv ex_flight) (λ _, 0) with
  | Ok (kv, _) =>
      match priskv_set_key kv [98] 1 5000 1000 ex_now with
      | Ok (_, _, out, _) => out = Some 1048576
      | Fault _ => False
      end
  | Fault _ => False
  end.
Proof. vm_compute. done. Qed.

(** A value that is set while its key is being moved is deleted with it. *)
Lemma moved_key_loses_update :
  match run no_regex (OpSet ex_key 100 1000 ex_now) (g_kv ex_flight) (λ _, 0) with
  | Ok (kv, _) =>
      match kvm_run ex_takes [EvStore kv; EvAnswer 0 ex_now; EvLater] ex_flight with
      | Ok (_, s) => m_done s = [0] ∧ m_sent s = [(ex_key, 1048576, 5000)] ∧ store (g_kv s) !! ex_key = None
      | Fault _ => False
      end
  | Fault _ => False
  end.
Proof. vm_compute. done. Qed.

(** A SET that the client refuses with a callback and sends all the same (a key that is
    too long for the other server) ends twice: the second end uses the freed context. *)
Definition ex_refuses (n : nat) : list Z * bool := ([PRISKV_STATUS_KEY_TOO_BIG], true).

Lemma refused_set_ends_twice :
  match priskv_kvmanage_do_action ex_refuses true PRISKV_KVMANAGE_COPY [ex_key] 1 (kvm_start ex_kv ex_now) with
  | Ok (r, s) => r = 0 ∧ m_later s = 1%nat ∧ kvm_run ex_refuses [EvAnswer 0 ex_now; EvLater; EvLater] s = Fault UseAfterFree
  | Fault _ => False
  end.
Proof. vm_compute. done. Qed.
