(* ===== verification/Info.v ===== *)
(** * What the server reports

    [server/info.c]: the items a client of the HTTP interface can ask for - access
    list, memory, store, connections, processor time - are copied into structures,
    these are joined into one whose table is made at run time, and that is coded as
    JSON. [InfoProps] proves what is reported. *)

From S2P Require Import Prelude State Utils CString Crc Lists Protocol Wire Memory Slab Buddy Alloc KvModel KvInv KvOps KvStart ServerModel Acl CMem Codec.

Import Slab Buddy.

Local Open Scope string_scope.
Local Open Scope Z_scope.

(** ** What is reported *)

(** [g_memory_info]; its strings belong to the program. *)
Record priskv_mem_info := mk_mem_info {
  mi_type : ptr;
  mi_path : ptr;
  mi_filesize : Z;   (* uint64_t *)
  mi_pagesize : Z;   (* uint64_t *)
  mi_feature0 : Z    (* uint64_t *)
}.

Record priskv_rdma_client := mk_rdma_client {
  cl_address : list Z;
  cl_stats : list (Z * Z);
  cl_resps : Z;
  cl_closing : bool
}.

Record priskv_rdma_listener := mk_rdma_listener { li_address : list Z; li_clients : list priskv_rdma_client }.

(** What the process knows when it is asked: the first line of [/proc/<pid>/stat], if
    it can be read, and [sysconf(_SC_CLK_TCK)] among it. *)
Record world := mk_world {
  w_acl : list priskv_acl;
  w_mem : priskv_mem_info;
  w_kv : kv_state;
  w_listeners : list priskv_rdma_listener;
  w_stat : option (list Z);
  w_clk_tck : Z
}.

(** ** Clients of a listener *)

(** [priskv_rdma_get_clients]: at most [nclients] connections of the list, in its
    order; the array has that many elements. *)
Fixpoint get_clients (total : Z) (l : list (list Z * priskv_rdma_conn)) (nclients : Z) : res (list priskv_rdma_client) :=
  match l with
  | [] => Ok []
  | (peer, conn) :: l =>
      if total <=? nclients then Fault OutOfBounds
      else
        let c := mk_rdma_client peer (c_stats conn) (c_resps conn) (c_closing conn) in
        if nclients + 1 =? total then Ok [c] else cs ← get_clients total l (nclients + 1); Ok (c :: cs)
  end.

Definition priskv_rdma_get_clients (nclients : Z) (conns : list (list Z * priskv_rdma_conn)) : res (list priskv_rdma_client) :=
  get_clients nclients conns 0.

(** Every listener has an address, the number of its clients and their list. *)
Definition priskv_rdma_get_listeners (listeners : list (list Z * Z * list (list Z * priskv_rdma_conn))) :
    res (list priskv_rdma_listener) :=
  (fix go l := match l with
               | [] => Ok []
               | (addr, nclients, conns) :: l =>
                   cs ← priskv_rdma_get_clients nclients conns; ls ← go l; Ok (mk_rdma_listener addr cs :: ls)
               end) listeners.

(** ** Processor time *)

(** The parts of a line between spaces, as [strtok] gives them. *)
Fixpoint strtok_all (s : list Z) (cur : list Z) : list (list Z) :=
  match s with
  | [] => match cur with [] => [] | _ => [cur] end
  | c :: s => if c =? 32 then (match cur with [] => strtok_all s [] | _ => cur :: strtok_all s [] end)
              else strtok_all s (cur ++ [c])%list
  end.

Definition atoll (s : list Z) : Z := (strtoll s).1.1.

(** The loop over the fields of the line; [None] is a variable that is not set. *)
Fixpoint stat_fields (tokens : list (list Z)) (fields : Z) (utime stime : option Z) : option Z * option Z :=
  match tokens with
  | [] => (utime, stime)
  | token :: tokens =>
      if negb (fields <=? 15) then (utime, stime)
      else if fields =? 13 then stat_fields tokens (fields + 1) (Some (atoll token)) stime
      else if fields =? 14 then (utime, Some (atoll token))
      else stat_fields tokens (fields + 1) utime stime
  end.

(** The return value; user, system and clock ticks. *)
Definition get_process_cpu_time (w : world) : Z * option Z * option Z * option Z :=
  match w_stat w with
  | None => (-1, None, None, None)
  | Some line =>
      let '(utime, stime) := stat_fields (strtok_all line []) 0 None None in
      (0, utime, stime, Some (w_clk_tck w))
  end.

(** ** Items *)

Notation item := (option (list Z)).

Section info.
Context {JC : JsonC}.
Context (avail : Z → bool) (strerror_errno : list Z).
Context (w : world).

Notation M := (ST cstate).

(** The strings of [priskv_acl_get_rules]: an array with a copy of every rule. *)
Fixpoint copy_rules (rules : ptr) (i : Z) (l : list priskv_acl) : ST cstate unit :=
  match l with
  | [] => mret tt
  | acl :: l =>
      p ← strdup avail (acl_rule acl);
      _ ← store (pplus rules (8 * i)) (enc_ptr p);
      copy_rules rules (i + 1) l
  end.

Definition acl_get_rules (l : list priskv_acl) (nrules : ptr) : ST cstate ptr :=
  match nrules with
  | None => mret None
  | Some _ =>
      _ ← store nrules (enc_int 4 (Z.of_nat (length l)));
      rules ← malloc avail (8 * Z.of_nat (length l));
      _ ← copy_rules rules 0 l;
      mret rules
  end.

Fixpoint free_rules (rules : ptr) (js : list Z) : ST cstate unit :=
  match js with
  | [] => mret tt
  | i :: js => p ← load ld_ptr (pplus rules (8 * i)); _ ← free p; free_rules rules js
  end.

Definition priskv_acl_free_rules (rules : ptr) (nrules : Z) : ST cstate unit :=
  _ ← free_rules rules (seqZ 0 nrules); free rules.


Definition priskv_info_get_acl (data : ptr) : M unit :=
  rules ← acl_get_rules (w_acl w) (pplus data 8); store data (enc_ptr rules).

Definition priskv_info_free_acl (data : ptr) : M unit :=
  rules ← load ld_ptr data;
  nrules ← load ld_int (pplus data 8);
  priskv_acl_free_rules rules nrules.

Definition priskv_info_get_memory (data : ptr) : M unit :=
  let _info := w_mem w in
  _ ← store data (enc_ptr (mi_type _info));
  _ ← store (pplus data 8) (enc_ptr (mi_path _info));
  _ ← store (pplus data 16) (enc_int 8 (mi_filesize _info));
  _ ← store (pplus data 24) (enc_int 8 (mi_pagesize _info));
  store (pplus data 32) (enc_int 8 (mi_feature0 _info)).

Definition priskv_info_get_kv (data : ptr) : M unit :=
  let kv := w_kv w in
  _ ← store (pplus data 8) (enc_int 8 (priskv_get_bucket_count kv));
  _ ← store data (enc_int 8 (priskv_get_keys_inuse kv));
  _ ← store (pplus data 16) (enc_int 8 (priskv_get_max_keys kv));
  _ ← store (pplus data 24) (enc_int 8 (priskv_get_max_key_length kv));
  _ ← store (pplus data 32) (enc_int 8 (priskv_get_value_block_size kv));
  _ ← store (pplus data 40) (enc_int 8 (priskv_get_value_blocks kv));
  _ ← store (pplus data 48) (enc_int 8 (priskv_get_value_blocks_inuse kv));
  _ ← store (pplus data 56) (enc_int 8 (priskv_get_expire_routine_times kv));
  _ ← store (pplus data 64) (enc_int 8 (priskv_get_expire_kv_count kv));
  store (pplus data 72) (enc_int 8 (priskv_get_expire_kv_bytes kv)).

(** A counter of a client. *)
Definition stat_of (client : priskv_rdma_client) (command : Z) : M (Z * Z) := lift (rd (cl_stats client) command).

(** The structures of clients and listeners, by their offsets. *)
Definition get_client (clients : ptr) (j : Z) (client : priskv_rdma_client) : M unit :=
  let client_info := pplus clients (80 * j) in
  let stats := pplus client_info 16 in
  address ← strdup avail (cl_address client);
  _ ← store client_info (enc_ptr address);
  _ ← store (pplus client_info 8) (enc_bool (cl_closing client));
  g ← stat_of client PRISKV_COMMAND_GET;
  _ ← store stats (enc_int 8 g.1);
  _ ← store (pplus stats 8) (enc_int 8 g.2);
  t ← stat_of client PRISKV_COMMAND_SET;
  _ ← store (pplus stats 16) (enc_int 8 t.1);
  _ ← store (pplus stats 24) (enc_int 8 t.2);
  d ← stat_of client PRISKV_COMMAND_DELETE;
  _ ← store (pplus stats 40) (enc_int 8 d.1);
  t ← stat_of client PRISKV_COMMAND_TEST;
  _ ← store (pplus stats 32) (enc_int 8 t.1);
  e ← stat_of client PRISKV_COMMAND_EXPIRE;
  _ ← store (pplus stats 48) (enc_int 8 e.1);
  store (pplus stats 56) (enc_int 8 (cl_resps client)).

(** [for (i = 0; i < n; i++)] over an array. *)
Definition for_each {A} (body : Z → A → M unit) : list A → Z → M unit :=
  fix go l i := match l with [] => mret tt | x :: l => _ ← body i x; go l (i + 1) end.

Definition get_listener (listeners : ptr) (i : Z) (listener : priskv_rdma_listener) : M unit :=
  let listener_info := pplus listeners (24 * i) in
  let n := Z.of_nat (length (li_clients listener)) in
  address ← strdup avail (li_address listener);
  _ ← store listener_info (enc_ptr address);
  _ ← store (pplus listener_info 16) (enc_int 4 n);
  clients ← calloc avail n 80;
  _ ← store (pplus listener_info 8) (enc_ptr clients);
  for_each (get_client clients) (li_clients listener) 0.

Definition priskv_info_get_connection (data : ptr) : M unit :=
  let n := Z.of_nat (length (w_listeners w)) in
  _ ← store (pplus data 8) (enc_int 4 n);
  listeners ← calloc avail n 24;
  _ ← store data (enc_ptr listeners);
  for_each (get_listener listeners) (w_listeners w) 0.

(** The loops that free strings and arrays read the structures again. *)
Definition for_indices (body : Z → M unit) : list Z → M unit :=
  fix go js := match js with [] => mret tt | j :: js => _ ← body j; go js end.

Definition free_client (listeners : ptr) (i j : Z) : M unit :=
  clients ← load ld_ptr (pplus listeners (24 * i + 8));
  address ← load ld_ptr (pplus clients (80 * j));
  free address.

Definition free_listener (data : ptr) (i : Z) : M unit :=
  listeners ← load ld_ptr data;
  address ← load ld_ptr (pplus listeners (24 * i));
  _ ← free address;
  nclients ← load ld_int (pplus listeners (24 * i + 16));
  _ ← for_indices (free_client listeners i) (seqZ 0 nclients);
  clients ← load ld_ptr (pplus listeners (24 * i + 8));
  free clients.

Definition priskv_info_free_connection (data : ptr) : M unit :=
  nlisteners ← load ld_int (pplus data 8);
  _ ← for_indices (free_listener data) (seqZ 0 nlisteners);
  listeners ← load ld_ptr data;
  free listeners.

(** Ticks that were not set are whatever was there. *)
Definition enc_ticks (t : option Z) : list mbyte := match t with Some z => enc_int 8 (u64 z) | None => replicate 8 MUndef end.

Definition priskv_info_get_cpu (data : ptr) : M unit :=
  let '(_, user, sys, clock) := get_process_cpu_time w in
  _ ← store data (enc_ticks sys);
  _ ← store (pplus data 8) (enc_ticks user);
  store (pplus data 16) (enc_ticks clock).

(** ** Drivers *)

Record priskv_info_drv := mk_drv {
  d_name : list Z;
  d_object : priskv_object;
  d_size : Z;
  d_get : ptr → M unit;
  d_free : option (ptr → M unit)
}.

Definition g_info_drv : list priskv_info_drv :=
  [mk_drv (str "acl") priskv_acl_info_obj 16 priskv_info_get_acl (Some priskv_info_free_acl);
   mk_drv (str "memory") priskv_memory_info_obj 40 priskv_info_get_memory None;
   mk_drv (str "kv") priskv_kv_info_obj 80 priskv_info_get_kv None;
   mk_drv (str "connection") priskv_connection_info_obj 16 priskv_info_get_connection (Some priskv_info_free_connection);
   mk_drv (str "cpu") priskv_cpu_info_obj 24 priskv_info_get_cpu None].

(** ** The items asked for: a name, or [NULL] *)

(** The array of the caller has room for 64. *)
Definition priskv_info_items_get_all : list item := (λ d, Some (d_name d)) <$> g_info_drv.

Definition priskv_info_items_need_all (items : list item) : bool :=
  existsb (λ it, match it with None => true | Some s => bool_decide (s = str "all") end) items.

(** The inner loop for the item at [i]. *)
Definition clear_same (items : list item) (i : nat) : list item :=
  match items !! i with
  | Some (Some x) => imap (λ j it, if (i <? j)%nat && bool_decide (it = Some x) then None else it) items
  | _ => items
  end.

Definition priskv_info_items_deduplicate (items : list item) : list item :=
  foldl clear_same items (seq 0 (length items)).

Definition priskv_info_items_tidy (items : list item) : list item :=
  if priskv_info_items_need_all items then priskv_info_items_get_all else priskv_info_items_deduplicate items.

Definition priskv_info_item_available (it : item) : bool :=
  match it with
  | None => true
  | Some s => existsb (λ d, bool_decide (s = str "all") || bool_decide (s = d_name d)) g_info_drv
  end.

Definition priskv_info_items_available (items : option (list item)) : bool :=
  match items with None => false | Some items => forallb priskv_info_item_available items end.

(** ** The report *)

(** [realloc]: a new block with what fits of the old one, which is freed. *)
Definition realloc (p : ptr) (n : Z) : M ptr := λ s,
  match p with
  | None => malloc avail n s
  | Some l =>
      match c_heap s !! l.1 with
      | None => Fault UseAfterFree
      | Some bk =>
          if negb (l.2 =? 0) then Fault OutOfBounds
          else
            let k := Z.to_nat n in
            (q ← new_block avail (take k bk ++ replicate (k - length bk) MUndef)%list;
             match q with None => mret None | Some _ => _ ← free p; mret q end) s
      end
  end.

Definition memcpy (dst src : ptr) (n : Z) : M unit :=
  bs ← load (λ h l, ld h l (Z.to_nat n)) src; store dst bs.

(** A round of the loop: the data of an item is got and appended. *)
Definition append_item (acc : ptr * Z * priskv_object) (d : priskv_info_drv) : M (ptr * Z * priskv_object) :=
  let '(result_data, result_data_size, result_obj) := acc in
  data ← calloc avail 1 (d_size d);
  _ ← d_get d data;
  let result_data_size := result_data_size + d_size d in
  result_data ← realloc result_data result_data_size;
  _ ← memcpy (pplus result_data (result_data_size - d_size d)) data (d_size d);
  let result_obj := priskv_codec_object_append_field result_obj (d_name d) (d_object d) false false in
  _ ← free data;
  mret (result_data, result_data_size, result_obj).

(** The rounds of the two nested loops that have work: the drivers of the names. *)
Definition drivers_of (items : list item) : list priskv_info_drv :=
  items ≫= λ it, match it with None => [] | Some name => filter (λ d, d_name d = name) g_info_drv end.

Definition fold_items (body : ptr * Z * priskv_object → priskv_info_drv → M (ptr * Z * priskv_object)) :
    list priskv_info_drv → ptr * Z * priskv_object → M (ptr * Z * priskv_object) :=
  fix go l acc := match l with [] => mret acc | d :: l => acc ← body acc d; go l acc end.

(** The parts of the joined structure are freed in place. *)
Fixpoint free_items (result_data : ptr) (l : list priskv_info_drv) (offset : Z) : M unit :=
  match l with
  | [] => mret tt
  | d :: l =>
      _ ← match d_free d with None => mret tt | Some f => f (pplus result_data offset) end;
      free_items result_data l (offset + d_size d)
  end.

Definition priskv_info_json (items : option (list item)) : M ptr :=
  match items with
  | None => mret None
  | Some items =>
      let items := match items with [] => priskv_info_items_get_all | _ => priskv_info_items_tidy items end in
      let ds := drivers_of items in
      '(result_data, _, result_obj) ← fold_items append_item ds (None, 0, priskv_codec_object_new);
      json ← priskv_codec_code avail strerror_errno result_data (Some result_obj);
      _ ← free_items result_data ds 0;
      _ ← free result_data;
      mret json
  end.
End info.
