(* ===== verification/InfoProps.v ===== *)
(** * Properties of the report

    How the structures of [Info] lie in memory, that their getters and the functions
    that free them keep what [drv_ok] asks for, and what the JSON of a report has. *)

From S2P Require Import Prelude State Utils CString Crc Lists Protocol Wire Memory Slab Buddy Alloc KvModel KvInv KvOps KvStart ServerModel Acl CMem Codec CodecSpec CodecMem CodecCode CodecJson CodecProps Info.

Import Slab Buddy.

Local Open Scope string_scope.
Local Open Scope list_scope.
Local Open Scope Z_scope.

(** ** Memory *)

Lemma cstring_of_bytes bs : cstring_of (MByte <$> bs ++ [0]) = Ok (cstr bs).
Proof.
  induction bs as [|b bs IH]; [done|]. unfold cstr in *. csimpl. cbn [cstring_of byte_of mbind res_bind until_nul].
  destruct (u8 b =? 0); [done|]. by rewrite IH.
Qed.

Lemma ld_string_bytes h a bs : h !! a = Some (MByte <$> bs ++ [0]) → ld_string h (a, 0) = Ok (cstr bs).
Proof.
  intros Ha. unfold ld_string. cbn [fst snd]. rewrite Ha, (proj2 (in_block_spec _ _ _)) by lia.
  change (Z.to_nat 0) with 0%nat. rewrite drop_0. apply cstring_of_bytes.
Qed.

Lemma load_run {A} (f : heap → loc → res A) l a s : f (c_heap s) l = Ok a → load f (Some l) s = Ok (a, s).
Proof. intros Hf. unfold load. by rewrite Hf. Qed.

Lemma free_block h n e a : is_Some (h !! a) → free (Some (a, 0)) (CS h n e) = Ok (tt, CS (delete a h) n e).
Proof. by apply (free_start (a, 0)). Qed.

Lemma delete_fresh (h : heap) n bk : fresh_above h n → delete n (<[n := bk]> h) = h.
Proof.
  intros Hf. rewrite delete_insert_eq. apply delete_id. destruct (h !! n) eqn:Hn; [|done].
  assert (n < n); [|lia]. apply Hf. by rewrite Hn.
Qed.

(** A store of a whole block, and one at its end. *)
Lemma sto_end (h : heap) a bk1 bk2 bs : length bs = length bk2 →
  sto (<[a := bk1 ++ bk2]> h) (a, Z.of_nat (length bk1)) bs = Ok (<[a := bk1 ++ bs]> h).
Proof.
  intros Hlen. erewrite sto_Ok; [|apply lookup_insert_eq|simpl; lia|rewrite length_app; simpl; lia]. cbn [fst snd].
  rewrite insert_insert_eq. do 2 f_equal. unfold overwrite. rewrite Nat2Z.id.
  rewrite take_app_length, Hlen, <- length_app, drop_all. by rewrite app_nil_r.
Qed.

Lemma sto_start (h : heap) a bk1 bk2 bs : length bs = length bk1 →
  sto (<[a := bk1 ++ bk2]> h) (a, 0) bs = Ok (<[a := bs ++ bk2]> h).
Proof.
  intros Hlen. erewrite sto_Ok; [|apply lookup_insert_eq|simpl; lia|rewrite length_app; simpl; lia]. cbn [fst snd].
  rewrite insert_insert_eq. do 2 f_equal. unfold overwrite. change (Z.to_nat 0) with 0%nat. rewrite take_0, Hlen, Nat.add_0_l.
  by rewrite drop_app_length.
Qed.

Section rules.
Context {JC : JsonC} {JL : JsonLaws JC}.
Context (avail : Z → bool).
Hypothesis Havail : ∀ n, avail n = true.

(** ** Listing *)

Lemma copy_rules_run l : ∀ h n e a i,
  fresh_above h n → a < n → 0 <= i → valid h (a, 8 * i) (8 * Z.of_nat (length l)) →
  let n' := n + Z.of_nat (length l) in
  ∃ h', copy_rules avail (Some (a, 0)) i l (CS h n e) = Ok (tt, CS h' n' e) ∧
    changes h h' n n' (a, 0) [(8 * i, 8 * Z.of_nat (length l))] ∧
    ∀ k acl, l !! k = Some acl → ld_ptr h' (a, 8 * (i + Z.of_nat k)) = Ok (Some (n + Z.of_nat k, 0)) ∧
      h' !! (n + Z.of_nat k) = Some (enc_string (acl_rule acl)).
Proof.
  induction l as [|acl l IH]; intros h n e a i Hf Ha Hi Hv n'.
  { exists h. unfold n'. rewrite Z.add_0_r. split; [done|]. split; [by apply changes_refl|done]. }
  cbn [length] in Hv. cbn [copy_rules].
  destruct (new_block_changes avail Havail h n e (enc_string (acl_rule acl)) (a, 0) [] Hf Ha) as [Hnew Hch1].
  set (h1 := <[n := enc_string (acl_rule acl)]> h) in *.
  destruct Hv as (bk & Hbk & Hv1 & Hv2). cbn [fst snd] in Hbk, Hv1, Hv2.
  destruct (store_changes h1 (n + 1) e (a, 0) (8 * i) (enc_ptr (Some (n, 0)))) as (h2 & Hs & Hld & Hch2);
    [by apply fresh_insert| |].
  { exists bk. rewrite length_enc_ptr. cbn. split; [|lia]. unfold h1. by rewrite lookup_insert_ne by lia. }
  rewrite length_enc_ptr in Hld, Hch2.
  pose proof (changes_trans _ _ _ _ _ _ _ _ _ Hch1 Hch2) as Hch12. cbn [app] in Hch12.
  destruct (IH h2 (n + 1) e a (i + 1)) as (h3 & Hrun & Hch3 & Hels); [apply Hch2|lia|lia| |].
  { pose proof (ch_len _ _ _ _ _ _ Hch12) as Hl. cbn [fst] in Hl. rewrite Hbk in Hl.
    destruct (h2 !! a) as [bk2|] eqn:Hbk2; [|done]. injection Hl as Hl. exists bk2. cbn [fst snd]. split; [done|]. lia. }
  assert (n + 1 + Z.of_nat (length l) = n') as Hn' by (unfold n'; cbn [length]; lia). rewrite Hn' in *.
  exists h3. split.
  { unfold strdup. erewrite bind_run by exact Hnew. by erewrite bind_run by exact Hs. }
  split.
  { pose proof (changes_trans _ _ _ _ _ _ _ _ _ Hch12 Hch3) as [? ? ? ? A]. split; [done..|]. intros o m Hap. apply A.
    specialize (Hap _ (list_elem_of_here _ _)). cbn [fst snd length] in Hap.
    intros r Hr. apply elem_of_cons in Hr as [->|Hr]; [cbn; lia|]. apply list_elem_of_singleton in Hr as ->. cbn. lia. }
  intros [|k] acl' Hk.
  - injection Hk as <-. rewrite Z.add_0_r. split.
    + apply ld_stored_ptr. rewrite Z.add_0_r. rewrite <- Hld. apply (ch_apart _ _ _ _ _ _ Hch3).
      intros r Hr. apply list_elem_of_singleton in Hr as ->. cbn. lia.
    + rewrite Z.add_0_r. rewrite (ch_old _ _ _ _ _ _ Hch3) by (cbn; lia). rewrite (ch_old _ _ _ _ _ _ Hch2) by (cbn; lia).
      unfold h1. by rewrite lookup_insert_eq.
  - destruct (Hels k acl' Hk) as [H1 H2].
    replace (i + Z.of_nat (S k)) with (i + 1 + Z.of_nat k) by lia. replace (n + Z.of_nat (S k)) with (n + 1 + Z.of_nat k) by lia. done.
Qed.

Lemma free_rules_run a m js : ∀ h n e,
  (∀ j, j ∈ js → ld_ptr h (a, 8 * j) = Ok (Some (m + j, 0)) ∧ is_Some (h !! (m + j)) ∧ m + j ≠ a) → NoDup js →
  free_rules (Some (a, 0)) js (CS h n e) = Ok (tt, CS (without ((λ j, (m + j, 0)) <$> js) h) n e).
Proof.
  induction js as [|j js IH]; intros h n e Hjs Hnd; [done|]. apply NoDup_cons in Hnd as [Hj Hnd].
  destruct (Hjs j) as (Hld & Hlive & Hne); [left|]. cbn [free_rules pplus mbind option_bind].
  erewrite bind_run by (apply load_run; exact Hld). erewrite bind_run by (by apply free_block).
  rewrite IH; [|intros k Hk|done].
  - do 3 f_equal. apply (without_app [(m + j, 0)]).
  - destruct (Hjs k) as (Hld' & Hlive' & Hne'); [by right|]. assert (k ≠ j) by (by intros ->).
    rewrite lookup_delete_ne by lia. split; [|done]. rewrite <- Hld'. unfold ld_ptr. rewrite (ld_block h); [done|].
    cbn. by rewrite lookup_delete_ne by lia.
Qed.

Lemma mapR_lookup {A B} (f : A → res B) l : ∀ ys, length ys = length l →
  (∀ i x y, l !! i = Some x → ys !! i = Some y → f x = Ok y) → mapR f l = Ok ys.
Proof.
  induction l as [|x l IH]; intros [|y ys] Hlen Hf; try done. cbn. rewrite (Hf 0%nat x y) by done. rewrite Ok_bind.
  rewrite (IH ys); [done|by injection Hlen|]. intros i. apply (Hf (S i)).
Qed.

Lemma heap_restored (h h' : heap) n : fresh_above h n →
  (∀ a, a < n → h' !! a = h !! a) → (∀ a, n <= a → h' !! a = None) → h' = h.
Proof.
  intros Hf Hlt Hge. apply map_eq. intros a. destruct (decide (a < n)) as [Ha|Ha]; [by apply Hlt|].
  rewrite Hge by lia. destruct (h !! a) eqn:Hh; [|done]. assert (a < n); [|lia]. apply Hf. by rewrite Hh.
Qed.

Definition listing (l : list priskv_acl) : value := VStruct [VArray ((λ r, VString (Some r)) <$> (acl_rule <$> l))].

(** The rules, however their count is read. *)
Lemma rules_read count h b a m l :
  Forall (λ acl, no_nul (acl_rule acl)) l → count h (b, 8) = Ok (Z.of_nat (length l)) → ld_ptr h (b, 0) = Ok (Some (a, 0)) →
  (∀ k acl, l !! k = Some acl → ld_ptr h (a, 8 * Z.of_nat k) = Ok (Some (m + Z.of_nat k, 0)) ∧
     h !! (m + Z.of_nat k) = Some (enc_string (acl_rule acl))) →
  read_with count priskv_acl_info_obj h (b, 0) = Ok (listing l).
Proof.
  intros Hno Hn Hq Hels. cbn [read_with priskv_acl_info_obj PRISKV_DECL_OBJECT mapR]. unfold read_field_with.
  cbn [f_type f_offset f_noffset f_obj PRISKV_DECL_OBJECT_ARRAY_FIELD]. rewrite padd_0. change (padd (b, 0) 8) with (b, 8).
  rewrite Hn, Ok_bind, Hq, Ok_bind.
  rewrite (mapR_lookup _ _ ((λ r, VString (Some r)) <$> (acl_rule <$> l))); [done| |].
  { unfold element_ptrs. rewrite !length_fmap, length_seqZ. lia. }
  intros i x y Hx Hy. unfold element_ptrs in Hx. rewrite list_lookup_fmap in Hx. apply fmap_Some in Hx as (j & Hj & ->).
  apply lookup_seqZ in Hj as [-> _]. rewrite !list_lookup_fmap in Hy.
  destruct (l !! i) as [acl|] eqn:Hl; [|done]. injection Hy as <-. destruct (Hels i acl Hl) as [Hp Hs].
  cbn [read_at pplus mbind option_bind o_size priskv_string_obj read_with]. rewrite Z.add_0_l. change (padd (a, 0) ?o) with (a, o). rewrite Hp.
  rewrite Ok_bind, (ld_stored_string _ _ _ Hs), Ok_bind. do 3 f_equal. rewrite Forall_forall in Hno.
  apply cstr_id, Hno. by eapply list_elem_of_lookup_2.
Qed.

Lemma rules_seen h b a m l :
  Z.of_nat (length l) < 2 ^ 31 → Forall (λ acl, no_nul (acl_rule acl)) l →
  ld_int h (b, 8) = Ok (Z.of_nat (length l)) → ld_ptr h (b, 0) = Ok (Some (a, 0)) →
  (∀ k acl, l !! k = Some acl → ld_ptr h (a, 8 * Z.of_nat k) = Ok (Some (m + Z.of_nat k, 0)) ∧
     h !! (m + Z.of_nat k) = Some (enc_string (acl_rule acl))) →
  seen_value priskv_acl_info_obj h (b, 0) = Ok (listing l).
Proof.
  intros Hlen Hno Hn. apply rules_read; [done|]. unfold ld_count. by rewrite Hn, Ok_bind, (proj2 (Z.ltb_ge _ _)) by lia.
Qed.

Lemma listing_typed l : Z.of_nat (length l) < 2 ^ 31 → Forall (λ acl, no_nul (acl_rule acl)) l → typed priskv_acl_info_obj (listing l).
Proof.
  intros Hlen Hno. apply typed_struct. eexists. split; [done|]. split; [done|]. split; [|done].
  split; [by rewrite !length_fmap|]. apply Forall_fmap, Forall_fmap. exact Hno.
Qed.

(** A state of the list that listing can handle: names are strings, and an [int]
    counts them. *)
Definition listable (l : list priskv_acl) : Prop :=
  Z.of_nat (length l) < 2 ^ 31 ∧ Forall (λ acl, no_nul (acl_rule acl)) l.

(** The structure, of whatever bytes it has, and the copies it points to. *)
Lemma acl_info_made h n e l bk0 :
  fresh_above h n → listable l → length bk0 = 16%nat →
  ∃ h', (rules ← acl_get_rules avail l (pplus (Some (n, 0)) 8); _ ← store (Some (n, 0)) (enc_ptr rules); mret rules)
          (CS (<[n := bk0]> h) (n + 1) e)
        = Ok (Some (n + 1, 0), CS h' (n + 2 + Z.of_nat (length l)) e) ∧
    fresh_above h' (n + 2 + Z.of_nat (length l)) ∧
    (∀ a, a < n → h' !! a = h !! a) ∧ (∃ bk, h' !! n = Some bk ∧ length bk = 16%nat) ∧ is_Some (h' !! (n + 1)) ∧
    ld h' (n, 8) 4 = Ok (enc_int 4 (Z.of_nat (length l))) ∧ ld h' (n, 12) 4 = Ok (drop 12 bk0) ∧
    ld_ptr h' (n, 0) = Ok (Some (n + 1, 0)) ∧
    ∀ k acl, l !! k = Some acl → ld_ptr h' (n + 1, 8 * Z.of_nat k) = Ok (Some (n + 2 + Z.of_nat k, 0)) ∧
      h' !! (n + 2 + Z.of_nat k) = Some (enc_string (acl_rule acl)).
Proof.
  intros Hf [Hlen Hno] Hbk0. set (h1 := <[n := bk0]> h). pose proof (fresh_insert h n bk0 Hf) as Hf1.
  destruct (store_changes h1 (n + 1) e (n, 0) 8 (enc_int 4 (Z.of_nat (length l)))) as (h2 & Hs2 & Hld2 & Hch2); [done| |].
  { exists bk0. rewrite length_enc_int, Hbk0. unfold h1. by rewrite lookup_insert_eq. }
  rewrite length_enc_int in Hld2, Hch2.
  destruct (new_block_changes avail Havail h2 (n + 1) e (replicate (Z.to_nat (8 * Z.of_nat (length l))) MUndef) (n, 0) []
    (ch_fresh _ _ _ _ _ _ Hch2)) as [Hnew Hch3]; [cbn; lia|].
  set (h3 := <[n + 1 := _]> h2) in *. replace (n + 1 + 1) with (n + 2) in * by lia.
  destruct (copy_rules_run l h3 (n + 2) e (n + 1) 0) as (h4 & Hcopy & Hch4 & Hels); [apply Hch3|lia|lia| |].
  { eexists. unfold h3. cbn [fst snd]. rewrite lookup_insert_eq. split; [done|]. rewrite length_replicate. lia. }
  assert (∀ a, a <= n → h4 !! a = h2 !! a) as Hold4.
  { intros a Ha. rewrite (ch_old _ _ _ _ _ _ Hch4) by (cbn; lia). unfold h3. by rewrite lookup_insert_ne by lia. }
  assert (∃ bk, h2 !! n = Some bk ∧ length bk = 16%nat) as (bk & Hbk & Hbl).
  { pose proof (ch_len _ _ _ _ _ _ Hch2) as Hl. cbn [fst] in Hl. unfold h1 in Hl. rewrite lookup_insert_eq in Hl.
    destruct (h2 !! n) as [bk|]; [|done]. exists bk. split; [done|]. injection Hl as Hl. congruence. }
  destruct (store_changes h4 (n + 2 + Z.of_nat (length l)) e (n, 0) 0 (enc_ptr (Some (n + 1, 0)))) as (h5 & Hs5 & Hld5 & Hch5);
    [apply Hch4| |].
  { exists bk. rewrite padd_0, length_enc_ptr, Hold4 by (cbn; lia). split; [done|]. cbn. lia. }
  rewrite length_enc_ptr in Hld5, Hch5. rewrite padd_0 in Hs5, Hld5.
  exists h5. split.
  { unfold acl_get_rules. cbn [pplus mbind option_bind]. 
    erewrite bind_run.
    2:{ erewrite bind_run by exact Hs2. unfold malloc. erewrite bind_run by exact Hnew.
        by erewrite bind_run by exact Hcopy. }
    by erewrite bind_run by exact Hs5. }
  assert (∀ a, a ≠ n → a < n + 2 + Z.of_nat (length l) → h5 !! a = h4 !! a) as Hold5.
  { intros a Hne Ha. by rewrite (ch_old _ _ _ _ _ _ Hch5) by done. }
  split; [apply Hch5|]. split; [|split; [|split; [|split; [|split; [|split]]]]].
  - intros a Ha. rewrite Hold5, Hold4 by lia. rewrite (ch_old _ _ _ _ _ _ Hch2) by (cbn; lia). unfold h1. by rewrite lookup_insert_ne by lia.
  - pose proof (ch_len _ _ _ _ _ _ Hch5) as Hl. cbn [fst] in Hl. rewrite Hold4, Hbk in Hl by lia.
    destruct (h5 !! n) as [bk5|]; [|done]. injection Hl as Hl. exists bk5. split; [done|]. congruence.
  - rewrite Hold5 by lia. apply (changes_live _ _ _ _ _ _ Hch4). cbn. unfold h3. rewrite lookup_insert_eq. by eexists.
  - change (n, 8) with (padd (n, 0) 8). rewrite (ch_apart _ _ _ _ _ _ Hch5).
    + rewrite (ld_block h2); [done|]. cbn. by apply Hold4.
    + intros r Hr. apply list_elem_of_singleton in Hr as ->. cbn. lia.
  - change (n, 12) with (padd (n, 0) 12). rewrite (ch_apart _ _ _ _ _ _ Hch5).
    + rewrite (ld_block h2) by (cbn; by apply Hold4). rewrite (ch_apart _ _ _ _ _ _ Hch2).
      * erewrite ld_Ok; [|unfold h1; cbn; apply lookup_insert_eq|cbn; lia|cbn; lia]. f_equal. change (Z.to_nat (padd (n, 0) 12).2) with 12%nat.
        apply take_ge. rewrite length_drop. lia.
      * intros r Hr. apply list_elem_of_singleton in Hr as ->. cbn. lia.
    + intros r Hr. apply list_elem_of_singleton in Hr as ->. cbn. lia.
  - by apply ld_stored_ptr.
  - intros k acl Hk. destruct (Hels k acl Hk) as [H1 H2]. apply lookup_lt_Some in Hk. rewrite Z.add_0_l in H1. split.
    + rewrite <- H1. unfold ld_ptr. rewrite (ld_block h4); [done|]. cbn. by apply Hold5; lia.
    + rewrite Hold5 by lia. done.
Qed.

(** The copies and the array are freed. *)
Lemma acl_info_freed (h h' : heap) n nx e l :
  (∀ a, a < n → h' !! a = h !! a) → is_Some (h' !! (n + 1)) → ld_int h' (n, 8) = Ok (Z.of_nat (length l)) →
  (∀ k acl, l !! k = Some acl → ld_ptr h' (n + 1, 8 * Z.of_nat k) = Ok (Some (n + 2 + Z.of_nat k, 0)) ∧
      h' !! (n + 2 + Z.of_nat k) = Some (enc_string (acl_rule acl))) →
  ∃ h2 : heap, (k ← load ld_int (Some (n, 8)); priskv_acl_free_rules (Some (n + 1, 0)) k) (CS h' nx e) = Ok (tt, CS h2 nx e) ∧
    ∀ a : Z, h2 !! a = if decide (n + 1 <= a < n + 2 + Z.of_nat (length l)) then None else h' !! a.
Proof.
  intros Hold Hlive Hcount Hels. set (js := seqZ 0 (Z.of_nat (length l))).
  assert (free_rules (Some (n + 1, 0)) js (CS h' nx e) = Ok (tt, CS (without ((λ j, (n + 2 + j, 0)) <$> js) h') nx e)) as Hfree.
  { apply free_rules_run; [|apply NoDup_seqZ]. intros j Hj. apply elem_of_seqZ in Hj.
    destruct (lookup_lt_is_Some_2 l (Z.to_nat j)) as [acl Hacl]; [lia|]. destruct (Hels _ _ Hacl) as [H1 H2].
    rewrite Z2Nat.id in H1, H2 by lia. rewrite H2. split; [done|]. split; [by eexists|lia]. }
  set (h2 := without _ h') in *.
  assert (∀ a, h2 !! a = if decide (n + 2 <= a < n + 2 + Z.of_nat (length l)) then None else h' !! a) as Hh2.
  { intros a. unfold h2. rewrite lookup_without. apply decide_ext. rewrite <- list_fmap_compose, list_elem_of_fmap. cbn. split.
    - intros (j & -> & Hj). apply elem_of_seqZ in Hj. lia.
    - intros Ha. exists (a - (n + 2)). split; [lia|]. apply elem_of_seqZ. lia. }
  exists (delete (n + 1) h2). split.
  - erewrite bind_run by (apply load_run; exact Hcount). unfold priskv_acl_free_rules. erewrite bind_run by exact Hfree.
    apply free_block. rewrite Hh2, decide_False by lia. done.
  - intros a. destruct (decide (a = n + 1)) as [->|Hne].
    + rewrite lookup_delete_eq, decide_True by lia. done.
    + rewrite lookup_delete_ne, Hh2 by done. apply decide_ext. lia.
Qed.

End rules.

(** ** Bytes that were copied *)

(** The [n] bytes at [l] are those at [l2] of another heap. *)
Definition moved (h : heap) (l : loc) (h2 : heap) (l2 : loc) (n : Z) : Prop :=
  ∀ o m, 0 <= o → o + Z.of_nat m <= n → ld h2 (padd l2 o) m = ld h (padd l o) m.

Lemma moved_sub h l h2 l2 n o m : moved h l h2 l2 n → 0 <= o → o + m <= n → moved h (padd l o) h2 (padd l2 o) m.
Proof. intros Hm Ho Hn o' m' Ho' Hm'. rewrite !padd_padd. apply Hm; lia. Qed.

Lemma moved_block h h2 l n : h2 !! l.1 = h !! l.1 → moved h l h2 l n.
Proof. intros Hb o m _ _. by apply ld_block. Qed.

Lemma moved_ld h l h2 l2 n : moved h l h2 l2 n →
  (1 <= n → ld_bool h2 l2 = ld_bool h l) ∧ (4 <= n → ld_int h2 l2 = ld_int h l) ∧
  (8 <= n → ld_u64 h2 l2 = ld_u64 h l ∧ ld_ptr h2 l2 = ld_ptr h l).
Proof.
  intros Ha. unfold ld_bool, ld_int, ld_u64, ld_ptr.
  assert (∀ m, Z.of_nat m <= n → ld h2 l2 m = ld h l m) as Hld.
  { intros m Hm. rewrite <- (padd_0 l), <- (padd_0 l2). apply Ha; lia. }
  split; [|split]; intros Hn; by rewrite !Hld by lia.
Qed.

(** A value and what it owns are where its bytes are, if the blocks it owns are the same. *)
Lemma moved_value o : layout_ok o = true → ∀ h l h2 l2,
  moved h l h2 l2 (o_size o) → (∀ q, q ∈ owned o h l → h2 !! q.1 = h !! q.1) →
  read_value o h2 l2 = read_value o h l ∧ owned o h2 l2 = owned o h l.
Proof.
  induction o as [t n fs IH] using object_ind. intros Hlay h l h2 l2 Hm Hown. cbn [o_size] in Hm.
  destruct (moved_ld h l h2 l2 n Hm) as (H1 & H4 & H8).
  destruct t; cbn [layout_ok read_with owned] in *; try apply Z.eqb_eq in Hlay as ->; try done.
  - by rewrite H1.
  - by rewrite H4.
  - destruct H8 as [-> _]; done.
  - destruct H8 as [_ Hq]; [done|]. rewrite Hq. destruct (ld_ptr h l) as [[q|]|]; [|done..].
    rewrite !Ok_bind. rewrite (ld_string_block h h2); [done|]. apply Hown. left.
  - pose proof (layout_inv n fs Hlay) as (Hpos & Hok & _). rewrite Forall_forall in IH, Hok.
    assert (∀ f, f ∈ fs → read_field (read_value (f_obj f)) f h2 l2 = read_field (read_value (f_obj f)) f h l ∧
      owned_field (owned (f_obj f)) f h2 l2 = owned_field (owned (f_obj f)) f h l) as Hf.
    { intros f Hf. pose proof (fo_within _ _ (Hok f Hf)) as Hw. pose proof (fo_layout _ _ (Hok f Hf)) as Hlf.
      assert (∀ q, q ∈ owned_field (owned (f_obj f)) f h l → h2 !! q.1 = h !! q.1) as Hof.
      { intros q Hq. apply Hown, list_elem_of_join. exists (owned_field (owned (f_obj f)) f h l). split; [done|].
        apply list_elem_of_fmap. by exists f. }
      unfold read_field_with, owned_field, footprint in *. destruct (f_type f).
      - destruct (Hw (f_offset f, o_size (f_obj f))) as (? & ? & ?); [left|]. apply IH; [done..| |done]. by eapply moved_sub.
      - destruct (Hw (f_noffset f, 8)) as (? & _ & ?); [right; left|]. destruct (Hw (f_offset f, 8)) as (? & _ & ?); [left|]. cbn [fst snd] in *.
        destruct (moved_ld h (padd l (f_noffset f)) h2 (padd l2 (f_noffset f)) 8) as (_ & _ & Hn8); [by eapply moved_sub|].
        destruct (moved_ld h (padd l (f_offset f)) h2 (padd l2 (f_offset f)) 8) as (_ & _ & Hq8); [by eapply moved_sub|].
        destruct Hn8 as [-> _]; [done|]. destruct Hq8 as [_ ->]; [done|].
        destruct (ld_u64 h (padd l (f_noffset f))) as [k|]; [|done]. destruct (ld_ptr h (padd l (f_offset f))) as [q|]; [|done]. rewrite !Ok_bind.
        assert (∀ p, p ∈ element_ptrs q (o_size (f_obj f)) k →
          read_at (read_value (f_obj f)) h2 p = read_at (read_value (f_obj f)) h p ∧
          own_at (owned (f_obj f)) h2 p = own_at (owned (f_obj f)) h p) as Hel.
        { intros p Hp. pose proof Hp as Hp'. unfold element_ptrs in Hp. apply list_elem_of_fmap in Hp as (j & -> & _).
          destruct q as [q|]; [|done]. cbn. apply IH; [done|done| |].
          - apply moved_block. cbn. apply Hof. left.
          - intros a Hin. apply Hof. apply elem_of_app. right. apply list_elem_of_join. eexists. split; [exact Hin|].
            apply list_elem_of_fmap. eexists. split; [|exact Hp']. done. }
        split; [rewrite (mapR_ext _ _ _ (λ p Hp, proj1 (Hel p Hp))); done|].
        do 2 f_equal. apply fmap_ext_in. intros p Hp. apply (Hel p Hp). }
    rewrite (mapR_ext _ _ _ (λ f Hf', proj1 (Hf f Hf'))). split; [done|]. f_equal. apply fmap_ext_in. intros f Hf'. apply (Hf f Hf').
Qed.

(** Bytes of a block. *)
Lemma ld_slice (h : heap) a bk o n : h !! a = Some bk → 0 <= o → o + Z.of_nat n <= Z.of_nat (length bk) →
  ld h (a, o) n = Ok (take n (drop (Z.to_nat o) bk)).
Proof. intros. by apply ld_Ok. Qed.

(** A part of a block that begins with, or ends with, the bytes of another. *)
Lemma moved_slice (h h2 : heap) a b bk pre post n :
  h !! a = Some bk → h2 !! b = Some (pre ++ bk ++ post) → n <= Z.of_nat (length bk) →
  moved h (a, 0) h2 (b, Z.of_nat (length pre)) n.
Proof.
  intros Ha Hb Hn o m Ho Hm. change (padd (a, 0) o) with (a, o). change (padd (b, _) o) with (b, Z.of_nat (length pre) + o).
  rewrite (ld_slice h a bk), (ld_slice h2 b (pre ++ bk ++ post)); try done; try lia; [|rewrite !length_app; lia].
  f_equal. replace (Z.to_nat (Z.of_nat (length pre) + o)) with (length pre + Z.to_nat o)%nat by lia.
  rewrite <- drop_drop, drop_app_length, drop_app_le by lia. rewrite take_app_le; [done|]. rewrite length_drop. lia.
Qed.
