(* ===== verification/InfoReport.v ===== *)
(** * The report

    [priskv_info_json] for any drivers that keep the contract [drv_ok]: what an item's
    getter leaves in memory, and that its function frees exactly that. The parts are
    copied, the joined structure is coded by a table made on the way, and all memory
    but the text is given back. *)

From S2P Require Import Prelude State Utils CString Crc Lists Protocol Wire Memory Slab Buddy Alloc KvModel KvInv KvOps KvStart ServerModel Acl CMem Codec CodecSpec CodecMem CodecCode CodecJson CodecProps Info InfoProps.

Local Open Scope string_scope.
Local Open Scope list_scope.
Local Open Scope Z_scope.

Section report.
Context {JC : JsonC} {JL : JsonLaws JC}.
Context (avail : Z → bool) (strerror_errno : list Z).
Hypothesis Havail : ∀ n, avail n = true.

(** Memory of the program itself, which reports may point to. *)
Context (hs : heap).

(** ** The contract of a driver *)

Record drv_ok (d : priskv_info_drv) (v : value) : Prop := {
  dk_struct : is_struct (d_object d);
  dk_size : o_size (d_object d) = d_size d;
  dk_pos : 0 < d_size d;
  dk_typed : typed (d_object d) v;
  dk_depth : (obj_depth (d_object d) <= 31)%nat;
  dk_name : no_nul (d_name d);
  dk_get : ∀ h n e, fresh_above h n → hs ⊆ h →
    ∃ h' n' bk, d_get d (Some (n, 0)) (CS (<[n := replicate (Z.to_nat (d_size d)) (MByte 0)]> h) (n + 1) e) = Ok (tt, CS h' n' e) ∧
      n < n' ∧ fresh_above h' n' ∧ (∀ a, a < n → h' !! a = h !! a) ∧ (∀ a, n < a < n' → is_Some (h' !! a)) ∧
      h' !! n = Some bk ∧ Z.of_nat (length bk) = d_size d ∧
      read_value (d_object d) h' (n, 0) = Ok v ∧
      match d_free d with
      | Some _ => owned (d_object d) h' (n, 0) = blocks (n + 1) n'
      | None => n' = n + 1 ∧ ∀ q, q ∈ owned (d_object d) h' (n, 0) → is_Some (hs !! q.1)
      end;
  dk_free : ∀ f h n e l, d_free d = Some f → read_value (d_object d) h l = Ok v →
    cleanable (λ h, read_value (d_object d) h l) (λ h, owned (d_object d) h l) [l.1] h →
    f (Some l) (CS h n e) = Ok (tt, CS (without (owned (d_object d) h l) h) n e)
}.

(** ** The parts of the joined structure *)

(** The blocks of a driver that frees. *)
Definition freed (d : priskv_info_drv) (own : list loc) : list loc := match d_free d with Some _ => own | None => [] end.

(** The items at an offset of block [r], each with the blocks it points to. *)
Fixpoint parts (h : heap) (r off : Z) (ps : list (priskv_info_drv * value)) (owns : list (list loc)) : Prop :=
  match ps, owns with
  | [], [] => True
  | (d, v) :: ps, own :: owns =>
      read_value (d_object d) h (r, off) = Ok v ∧ owned (d_object d) h (r, off) = own ∧
      (d_free d = None → ∀ q, q ∈ own → is_Some (hs !! q.1)) ∧
      parts h r (off + d_size d) ps owns
  | _, _ => False
  end.

Definition total (ps : list (priskv_info_drv * value)) : Z := foldr (λ p n, d_size p.1 + n) 0 ps.

(** All blocks to free. *)
Fixpoint to_free (ps : list (priskv_info_drv * value)) (owns : list (list loc)) : list loc :=
  match ps, owns with (d, _) :: ps, own :: owns => freed d own ++ to_free ps owns | _, _ => [] end.

(** The table of the parts, appended one by one. *)
Definition table (ps : list (priskv_info_drv * value)) : priskv_object :=
  foldl (λ o p, priskv_codec_object_append_field o (d_name p.1) (d_object p.1) false false) priskv_codec_object_new ps.

Definition drvs_ok (ps : list (priskv_info_drv * value)) : Prop := Forall (λ p, drv_ok p.1 p.2) ps.

Lemma total_app ps ps' : total (ps ++ ps') = total ps + total ps'.
Proof. unfold total. induction ps as [|p ps IH]; [done|]. cbn [app foldr]. rewrite IH. lia. Qed.

Lemma total_pos ps : drvs_ok ps → 0 <= total ps.
Proof. unfold total. induction 1 as [|p ps Hp _ IH]; [done|]. cbn [foldr]. pose proof (dk_pos _ _ Hp). lia. Qed.

(** Parts are kept where their bytes and blocks are. *)
Lemma parts_moved h h2 r r2 ps : ∀ off owns, drvs_ok ps → 0 <= off →
  moved h (r, 0) h2 (r2, 0) (off + total ps) → (∀ own q, own ∈ owns → q ∈ own → h2 !! q.1 = h !! q.1) →
  parts h r off ps owns → parts h2 r2 off ps owns.
Proof.
  induction ps as [|[d v] ps IH]; intros off [|own owns] Hok Hoff Hm Hsame Hp; try done.
  apply Forall_cons in Hok as [Hd Hok]. cbn [fst snd] in Hd. destruct Hp as (Hr & Ho & Hst & Hp).
  change (total ((d, v) :: ps)) with (d_size d + total ps) in Hm. pose proof (total_pos _ Hok). pose proof (dk_pos _ _ Hd).
  destruct (moved_value (d_object d) (proj2 (dk_struct _ _ Hd)) h (r, off) h2 (r2, off)) as [Hr2 Ho2].
  - change (r, off) with (padd (r, 0) off). change (r2, off) with (padd (r2, 0) off). eapply moved_sub; [exact Hm|done|].
    rewrite (dk_size _ _ Hd). lia.
  - intros q Hq. apply (Hsame own); [left|]. by rewrite <- Ho.
  - split; [by rewrite Hr2|]. split; [by rewrite Ho2|]. split; [done|]. apply IH; [done|lia| | |done].
    + intros o m Ho' Hm'. apply Hm; [done|]. lia.
    + intros own' q Hin. apply (Hsame own'). by right.
Qed.

Lemma parts_snoc h r d v own ps : ∀ off owns,
  parts h r off ps owns → read_value (d_object d) h (r, off + total ps) = Ok v →
  owned (d_object d) h (r, off + total ps) = own → (d_free d = None → ∀ q, q ∈ own → is_Some (hs !! q.1)) →
  parts h r off (ps ++ [(d, v)]) (owns ++ [own]).
Proof.
  induction ps as [|[d' v'] ps IH]; intros off [|own' owns] Hp Hr Ho Hst; try done.
  - cbn in *. rewrite Z.add_0_r in Hr, Ho. done.
  - destruct Hp as (? & ? & ? & Hp). change (total ((d', v') :: ps)) with (d_size d' + total ps) in Hr, Ho.
    rewrite Z.add_assoc in Hr, Ho. split; [done|]. split; [done|]. split; [done|]. by apply IH.
Qed.

Lemma to_free_snoc ps : ∀ owns d v own, length owns = length ps →
  to_free (ps ++ [(d, v)]) (owns ++ [own]) = to_free ps owns ++ freed d own.
Proof.
  induction ps as [|[d' v'] ps IH]; intros [|own' owns] d v own Hl; try done; [cbn; by rewrite app_nil_r|].
  cbn. rewrite IH by (by injection Hl). by rewrite app_assoc.
Qed.

Lemma parts_length h r ps : ∀ off owns, parts h r off ps owns → length owns = length ps.
Proof.
  induction ps as [|[d v] ps IH]; intros off [|own owns] Hp; try done. destruct Hp as (_ & _ & _ & Hp). cbn. by rewrite (IH _ _ Hp).
Qed.

Lemma elem_of_to_free q ps : ∀ owns, q ∈ to_free ps owns → ∃ own, own ∈ owns ∧ q ∈ own.
Proof.
  induction ps as [|[d v] ps IH]; intros [|own owns] Hq; try (by apply elem_of_nil in Hq). cbn in Hq.
  apply elem_of_app in Hq as [Hq|Hq].
  - exists own. split; [left|]. unfold freed in Hq. destruct (d_free d); [done|by apply elem_of_nil in Hq].
  - destruct (IH owns Hq) as (own' & ? & ?). exists own'. split; [by right|done].
Qed.

(** A block that a part points to is freed with it, or the program's own. *)
Lemma parts_block h r ps : ∀ off owns own q, parts h r off ps owns → own ∈ owns → q ∈ own →
  q ∈ to_free ps owns ∨ is_Some (hs !! q.1).
Proof.
  induction ps as [|[d v] ps IH]; intros off [|own' owns] own q Hp Hin Hq; try done; try (by apply elem_of_nil in Hin).
  destruct Hp as (_ & _ & Hst & Hp). apply elem_of_cons in Hin as [->|Hin].
  - cbn. unfold freed. destruct (d_free d); [left; apply elem_of_app; by left|right; by apply Hst].
  - destruct (IH _ _ _ _ Hp Hin Hq) as [?|?]; [left; cbn; apply elem_of_app; by right|by right].
Qed.

(** ** Gathering *)

Context (h0 : heap) (n0 : Z).
Hypothesis Hf0 : fresh_above h0 n0.
Hypothesis Hhs : hs ⊆ h0.

(** The bytes of the joined structure, in block [r]. *)
Record joined (h : heap) (n : Z) (ps : list (priskv_info_drv * value)) (owns : list (list loc)) (r : Z) (bk : block) : Prop := {
  jn_range : n0 <= r < n;
  jn_block : h !! r = Some bk;
  jn_len : Z.of_nat (length bk) = total ps;
  jn_parts : parts h r 0 ps owns;
  jn_nodup : NoDup (r :: (to_free ps owns).*1);
  jn_start : ∀ q, q ∈ to_free ps owns → q.2 = 0 ∧ n0 <= q.1 < n ∧ is_Some (h !! q.1);
  jn_only : ∀ a, n0 <= a → is_Some (h !! a) → a ∈ r :: (to_free ps owns).*1
}.

Record gathered (h : heap) (n : Z) (ps : list (priskv_info_drv * value)) (owns : list (list loc)) (res : ptr) : Prop := {
  ga_next : n0 <= n;
  ga_fresh : fresh_above h n;
  ga_old : ∀ a, a < n0 → h !! a = h0 !! a;
  ga_res : match ps with
           | [] => res = None ∧ owns = [] ∧ ∀ a, n0 <= a → h !! a = None
           | _ => ∃ r bk, res = Some (r, 0) ∧ joined h n ps owns r bk
           end
}.

Lemma static_old q : is_Some (hs !! q) → q < n0.
Proof. intros [x Hx]. apply Hf0. exists x. by eapply lookup_weaken. Qed.

Lemma static_kept (h : heap) : (∀ a, a < n0 → h !! a = h0 !! a) → hs ⊆ h.
Proof.
  intros Hold. apply map_subseteq_spec. intros a x Hx. rewrite Hold by (apply static_old; by eexists). by eapply lookup_weaken.
Qed.

(** [realloc] of the joined structure: its bytes, and room for more. *)
Lemma realloc_run (p : ptr) (h : heap) n e old k :
  match p with None => old = [] | Some l => l.2 = 0 ∧ l.1 < n ∧ h !! l.1 = Some old end → (length old <= Z.to_nat k)%nat →
  realloc avail p k (CS h n e)
  = Ok (Some (n, 0), CS (<[n := old ++ replicate (Z.to_nat k - length old) MUndef]> (from_option (λ l, delete l.1 h) h p)) (n + 1) e).
Proof.
  intros Hp Hk. unfold realloc. destruct p as [l|].
  - destruct Hp as (Hl0 & Hln & Hold). cbn [c_heap]. rewrite Hold, Hl0. cbn [Z.eqb negb].
    erewrite bind_run; [|unfold new_block; cbn [c_next c_heap c_error]; rewrite Havail; reflexivity]. cbv iota beta.
    erewrite bind_run; [|apply free_start; [done|rewrite lookup_insert_ne by lia; by eexists]].
    unfold mret, ST_ret. cbn [from_option]. rewrite delete_insert_ne by lia. by rewrite take_ge.
  - subst old. unfold malloc, new_block. cbn [c_next c_heap c_error from_option app length]. rewrite Havail. by rewrite Nat.sub_0_r.
Qed.

(** A round, up to the heap it leaves. *)
Lemma append_item_run ps owns res h n e d v :
  gathered h n ps owns res → drv_ok d v → drvs_ok ps →
  ∃ h1 n1 bkd old h', append_item avail (res, total ps, table ps) d (CS h n e)
      = Ok ((Some (n1, 0), total (ps ++ [(d, v)]), table (ps ++ [(d, v)])), CS h' (n1 + 1) e) ∧
    n < n1 ∧ fresh_above h1 n1 ∧ (∀ a, a < n → h1 !! a = h !! a) ∧ (∀ a, n < a < n1 → is_Some (h1 !! a)) ∧
    h1 !! n = Some bkd ∧ Z.of_nat (length bkd) = d_size d ∧ read_value (d_object d) h1 (n, 0) = Ok v ∧
    match d_free d with
    | Some _ => owned (d_object d) h1 (n, 0) = blocks (n + 1) n1
    | None => n1 = n + 1 ∧ ∀ q, q ∈ owned (d_object d) h1 (n, 0) → is_Some (hs !! q.1)
    end ∧
    match ps with [] => old = [] | _ => ∃ r, res = Some (r, 0) ∧ joined h n ps owns r old end ∧
    ∀ a, h' !! a = if decide (a = n1) then Some (old ++ bkd)
                   else if decide (a ∈ n :: from_option (λ l, [l.1]) [] res) then None else h1 !! a.
Proof.
  intros [Hn0 Hf Hold Hres] Hd Hps. unfold append_item.
  erewrite bind_run; [|unfold calloc, new_block; cbn [c_next c_heap c_error]; rewrite Havail, Z.mul_1_l; reflexivity].
  destruct (dk_get _ _ Hd h n e Hf (static_kept h Hold)) as (h1 & n1 & bkd & Hget & Hn1 & Hf1 & Hold1 & Hlive & Hbk & Hlen & Hread & Hown).
  erewrite bind_run by exact Hget.
  assert (∃ old, Z.of_nat (length old) = total ps ∧ match ps with [] => old = [] | _ => ∃ r, res = Some (r, 0) ∧ joined h n ps owns r old end ∧
    match res with None => old = [] | Some l => l.2 = 0 ∧ l.1 < n ∧ h1 !! l.1 = Some old end) as (old & Hlo & Hps' & Hp).
  { destruct ps as [|p ps]; [destruct Hres as (-> & _); by exists []|]. destruct Hres as (r & bk & -> & Hj). exists bk.
    split; [apply Hj|]. split; [by exists r|]. pose proof (jn_range _ _ _ _ _ _ Hj). cbn. split; [done|]. split; [lia|].
    rewrite Hold1 by lia. apply Hj. }
  pose proof (dk_pos _ _ Hd) as Hpos. pose proof (total_pos _ Hps) as Htp.
  assert (total (ps ++ [(d, v)]) = total ps + d_size d) as Htot by (rewrite total_app; cbn; lia).
  erewrite bind_run.
  2:{ apply (realloc_run res h1 n1 e old); [destruct res as [l|]; [|done]; destruct Hp as (? & ? & ?); split; [done|]; split; [lia|done]|lia]. }
  set (hA := from_option _ _ res).
  assert (hA !! n = Some bkd) as HnA.
  { unfold hA. destruct res as [l|]; [|done]. destruct Hp as (_ & ? & _). cbn. by rewrite lookup_delete_ne by lia. }
  replace (Z.to_nat (total ps + d_size d) - length old)%nat with (Z.to_nat (d_size d)) by lia.
  erewrite bind_run.
  2:{ unfold memcpy. erewrite bind_run.
      2:{ apply load_run. cbn [c_heap]. erewrite ld_Ok; [|cbn; rewrite lookup_insert_ne by lia; exact HnA|cbn; lia|cbn; lia].
          cbn. change (Z.to_nat 0) with 0%nat. rewrite drop_0, take_ge by lia. reflexivity. }
      unfold store. cbn [pplus mbind option_bind c_heap c_next c_error].
      replace (padd (n1, 0) (total ps + d_size d - d_size d)) with (n1, Z.of_nat (length old)) by (unfold padd; cbn; f_equal; lia).
      rewrite sto_end by (rewrite length_replicate; lia). reflexivity. }
  erewrite bind_run by (apply free_block; rewrite lookup_insert_ne by lia; by eexists).
  exists h1, n1, bkd, old, (delete n (<[n1 := old ++ bkd]> hA)). split.
  { unfold mret, ST_ret. do 3 f_equal; [by rewrite Htot|]. unfold table. by rewrite foldl_app. }
  do 9 (split; [done|]). intros a. destruct (decide (a = n1)) as [->|Hne].
  { by rewrite lookup_delete_ne, lookup_insert_eq by lia. }
  destruct (decide (a = n)) as [->|Hne2]; [rewrite lookup_delete_eq, decide_True by left; done|].
  rewrite lookup_delete_ne, lookup_insert_ne by done. unfold hA. destruct res as [l|]; cbn [from_option].
  - destruct (decide (a = l.1)) as [->|Hne3]; [rewrite lookup_delete_eq, decide_True by (right; left); done|].
    rewrite lookup_delete_ne, decide_False; [done| |done]. rewrite !elem_of_cons, elem_of_nil. tauto.
  - rewrite decide_False; [done|]. rewrite elem_of_cons, elem_of_nil. tauto.
Qed.

(** What a round needs of the rounds before it. *)
Record earlier (h : heap) (n : Z) (ps : list (priskv_info_drv * value)) (owns : list (list loc)) (rs : list Z) (old : block) : Prop := {
  ea_len : Z.of_nat (length old) = total ps;
  ea_owns : length owns = length ps;
  ea_start : ∀ q, q ∈ to_free ps owns → q.2 = 0 ∧ n0 <= q.1 < n ∧ is_Some (h !! q.1) ∧ q.1 ∉ rs;
  ea_nodup : NoDup (to_free ps owns).*1;
  ea_only : ∀ a, n0 <= a → is_Some (h !! a) → a ∈ rs ++ (to_free ps owns).*1;
  ea_range : ∀ a, a ∈ rs → n0 <= a < n;
  ea_parts : ∀ h2 r2 post, (∀ a, a < n → a ∉ rs → h2 !! a = h !! a) → h2 !! r2 = Some (old ++ post) → parts h2 r2 0 ps owns
}.

Lemma joined_earlier h n ps owns r old : joined h n ps owns r old → drvs_ok ps → earlier h n ps owns [r] old.
Proof.
  intros Hj Hps. pose proof (jn_nodup _ _ _ _ _ _ Hj) as Hnd. apply NoDup_cons in Hnd as [Hrn Hnd].
  assert (∀ q, q ∈ to_free ps owns → q.1 ∉ [r]) as Hne.
  { intros q Hq Hin. apply list_elem_of_singleton in Hin. apply Hrn. rewrite <- Hin. by apply list_elem_of_fmap_2. }
  split; [apply Hj|by eapply parts_length, jn_parts| |done| | |].
  - intros q Hq. destruct (jn_start _ _ _ _ _ _ Hj q Hq) as (? & ? & ?). do 3 (split; [done|]). by apply Hne.
  - intros a Ha Hl. apply (jn_only _ _ _ _ _ _ Hj a Ha Hl).
  - intros a Ha. apply list_elem_of_singleton in Ha as ->. apply (jn_range _ _ _ _ _ _ Hj).
  - intros h2 r2 post Hsame Hbk2. eapply (parts_moved h h2 r r2); [done|done| | |apply Hj].
    + rewrite Z.add_0_l. apply (moved_slice h h2 r r2 old [] post); [apply Hj|done|]. by rewrite (jn_len _ _ _ _ _ _ Hj).
    + intros own' q Hin Hq. destruct (parts_block _ _ _ _ _ _ _ (jn_parts _ _ _ _ _ _ Hj) Hin Hq) as [Hq'|Hq'].
      * destruct (jn_start _ _ _ _ _ _ Hj q Hq') as (_ & ? & _). apply Hsame; [lia|]. by apply Hne.
      * apply static_old in Hq'. pose proof (jn_range _ _ _ _ _ _ Hj). apply Hsame; [lia|].
        intros Hqr. apply list_elem_of_singleton in Hqr. lia.
Qed.

Lemma nothing_earlier h n : n0 <= n → (∀ a, n0 <= a → h !! a = None) → earlier h n [] [] [] [].
Proof.
  intros Hn Hnone. split; [done|done| |constructor| | |done].
  - intros q Hq. by apply elem_of_nil in Hq.
  - intros a Ha [x Hx]. by rewrite Hnone in Hx.
  - intros a Ha. by apply elem_of_nil in Ha.
Qed.

(** The new block and its parts, after a round. *)
Lemma round_joined h n ps owns rs old h1 n1 bkd d v (h' : heap) :
  earlier h n ps owns rs old → drv_ok d v → n0 <= n → n < n1 → fresh_above h1 n1 → (∀ a, a < n → h1 !! a = h !! a) →
  (∀ a, n < a < n1 → is_Some (h1 !! a)) → h1 !! n = Some bkd → Z.of_nat (length bkd) = d_size d →
  read_value (d_object d) h1 (n, 0) = Ok v →
  let own := owned (d_object d) h1 (n, 0) in
  match d_free d with Some _ => own = blocks (n + 1) n1 | None => n1 = n + 1 ∧ ∀ q, q ∈ own → is_Some (hs !! q.1) end →
  (∀ a, h' !! a = if decide (a = n1) then Some (old ++ bkd) else if decide (a ∈ n :: rs) then None else h1 !! a) →
  joined h' (n1 + 1) (ps ++ [(d, v)]) (owns ++ [own]) n1 (old ++ bkd).
Proof.
  intros Hea Hd Hn0 Hn1 Hf1 Hold1 Hlive1 Hbk Hlen Hread own Hown Hh'.
  assert (∀ a, a < n → a ∉ rs → h' !! a = h !! a) as Hsame.
  { intros a Ha Har. rewrite Hh', decide_False, decide_False by (lia || (rewrite elem_of_cons; intros [?|?]; [lia|done])). by apply Hold1. }
  assert (∀ a, n < a < n1 → h' !! a = h1 !! a) as Hsame1.
  { intros a Ha. rewrite Hh', decide_False, decide_False; [done| |lia]. rewrite elem_of_cons. intros [?|Hin]; [lia|].
    apply (ea_range _ _ _ _ _ _ Hea) in Hin. lia. }
  assert (h' !! n1 = Some (old ++ bkd)) as Hbk' by (by rewrite Hh', decide_True).
  assert (∀ q, q ∈ freed d own → q.2 = 0 ∧ n < q.1 < n1) as Hnew.
  { intros q Hq. unfold freed in Hq. destruct (d_free d); [|by apply elem_of_nil in Hq]. rewrite Hown in Hq. apply elem_of_blocks in Hq. lia. }
  destruct (moved_value (d_object d) (proj2 (dk_struct _ _ Hd)) h1 (n, 0) h' (n1, total ps)) as [Hr' Ho'].
  { rewrite <- (ea_len _ _ _ _ _ _ Hea). rewrite <- (app_nil_r bkd) in Hbk'. rewrite (dk_size _ _ Hd).
    apply (moved_slice h1 h' n n1 bkd old []); [done|done|lia]. }
  { intros q Hq. fold own in Hq. destruct (d_free d) eqn:Hfd.
    - apply Hsame1. apply Hnew. unfold freed. by rewrite Hfd.
    - destruct Hown as [_ Hst]. apply Hst, static_old in Hq. rewrite Hsame; [by rewrite Hold1 by lia|lia|].
      intros Hin. apply (ea_range _ _ _ _ _ _ Hea) in Hin. lia. }
  rewrite Hread in Hr'. fold own in Ho'. split.
  - lia.
  - done.
  - rewrite length_app, total_app, Nat2Z.inj_add, (ea_len _ _ _ _ _ _ Hea), Hlen. cbn. lia.
  - apply parts_snoc; [by apply (ea_parts _ _ _ _ _ _ Hea h' n1 bkd)|done|done|]. intros Hfd. rewrite Hfd in Hown. apply Hown.
  - rewrite to_free_snoc by apply Hea. rewrite fmap_app. apply NoDup_cons. split; [|apply NoDup_app; split; [apply Hea|split]].
    + intros Hin. apply elem_of_app in Hin as [Hin|Hin]; apply list_elem_of_fmap in Hin as (q & -> & Hq).
      * destruct (ea_start _ _ _ _ _ _ Hea q Hq) as (_ & ? & _). lia.
      * apply Hnew in Hq. lia.
    + intros a Ha Hb. apply list_elem_of_fmap in Ha as (q & -> & Hq). apply list_elem_of_fmap in Hb as (q' & Heq & Hq').
      apply Hnew in Hq'. destruct (ea_start _ _ _ _ _ _ Hea q Hq) as (_ & ? & _). lia.
    + unfold freed. destruct (d_free d); [|constructor]. rewrite Hown, fst_blocks. apply NoDup_seqZ.
  - intros q Hq. rewrite to_free_snoc in Hq by apply Hea. apply elem_of_app in Hq as [Hq|Hq].
    + destruct (ea_start _ _ _ _ _ _ Hea q Hq) as (? & ? & ? & ?). split; [done|]. split; [lia|]. by rewrite Hsame by lia || done.
    + apply Hnew in Hq as [? ?]. split; [done|]. split; [lia|]. rewrite Hsame1 by done. by apply Hlive1.
  - intros a Ha Hl. destruct (decide (a = n1)) as [->|Hne]; [left|]. right. rewrite to_free_snoc, fmap_app by apply Hea. apply elem_of_app.
    rewrite Hh', decide_False in Hl by done. case_decide as Hin; [by destruct Hl|]. apply not_elem_of_cons in Hin as [Han Har].
    destruct (decide (a < n)) as [Hlt|Hge].
    + rewrite Hold1 in Hl by done. apply (ea_only _ _ _ _ _ _ Hea) in Hl; [|done]. apply elem_of_app in Hl as [?|?]; [done|by left].
    + right. pose proof (Hf1 a Hl). unfold freed. destruct (d_free d).
      * rewrite Hown, fst_blocks. apply elem_of_seqZ. lia.
      * destruct Hown as [-> _]. lia.
Qed.

Lemma append_item_gathers ps owns res h n e d v :
  gathered h n ps owns res → drv_ok d v → drvs_ok ps →
  ∃ h' n' own r, append_item avail (res, total ps, table ps) d (CS h n e)
      = Ok ((Some (r, 0), total (ps ++ [(d, v)]), table (ps ++ [(d, v)])), CS h' n' e) ∧
    gathered h' n' (ps ++ [(d, v)]) (owns ++ [own]) (Some (r, 0)).
Proof.
  intros Hg Hd Hps. pose proof Hg as [Hn0 Hf Hold Hres].
  destruct (append_item_run ps owns res h n e d v Hg Hd Hps)
    as (h1 & n1 & bkd & old & h' & Hrun & Hn1 & Hf1 & Hold1 & Hlive1 & Hbk & Hlen & Hread & Hown & Hcase & Hh').
  assert (earlier h n ps owns (from_option (λ l, [l.1]) [] res) old) as Hea.
  { destruct ps as [|p ps]; [destruct Hres as (-> & -> & Hnone); subst old; by apply nothing_earlier|].
    destruct Hcase as (r & -> & Hj). by apply joined_earlier. }
  eexists h', (n1 + 1), _, n1. split; [exact Hrun|]. split; [lia| | |].
  - intros a Ha. rewrite Hh' in Ha. case_decide; [lia|]. case_decide; [by destruct Ha|]. apply Hf1 in Ha. lia.
  - intros a Ha. rewrite Hh', decide_False, decide_False; [by rewrite Hold1, Hold by lia| |lia].
    rewrite elem_of_cons. intros [?|Hin]; [lia|]. apply (ea_range _ _ _ _ _ _ Hea) in Hin. lia.
  - pose proof (round_joined h n ps owns _ old h1 n1 bkd d v h' Hea Hd Hn0 Hn1 Hf1 Hold1 Hlive1 Hbk Hlen Hread Hown Hh') as Hj.
    destruct ps; exists n1, (old ++ bkd); (split; [done|exact Hj]).
Qed.

Lemma fold_gathers ds : ∀ ps owns res h n e vs,
  gathered h n ps owns res → drvs_ok ps → Forall2 drv_ok ds vs →
  let all := ps ++ zip ds vs in
  ∃ h' n' owns' res', fold_items (append_item avail) ds (res, total ps, table ps) (CS h n e)
      = Ok ((res', total all, table all), CS h' n' e) ∧ gathered h' n' all owns' res'.
Proof.
  induction ds as [|d ds IH]; intros ps owns res h n e vs Hg Hps Hds all.
  - apply Forall2_nil_inv_l in Hds as ->. unfold all. rewrite app_nil_r. by exists h, n, owns, res.
  - apply Forall2_cons_inv_l in Hds as (v & vs' & Hd & Hds & ->). unfold all. cbn [zip zip_with fold_items].
    destruct (append_item_gathers ps owns res h n e d v Hg Hd Hps) as (h' & n' & own & r & Hrun & Hg').
    erewrite bind_run by exact Hrun.
    destruct (IH (ps ++ [(d, v)]) _ _ h' n' e vs' Hg') as (h2 & n2 & owns2 & res2 & Hrun2 & Hg2); [|done|].
    { apply Forall_app. split; [done|]. constructor; [done|constructor]. }
    rewrite <- app_assoc in Hrun2, Hg2. by exists h2, n2, owns2, res2.
Qed.

(** ** The table *)

Fixpoint fields_at (off : Z) (ps : list (priskv_info_drv * value)) : list field :=
  match ps with
  | [] => []
  | (d, _) :: ps => mk_field priskv_obj_field_type_value (d_name d) off 0 (d_object d) false false :: fields_at (off + d_size d) ps
  end.

Lemma table_fields ps : drvs_ok ps → table ps = mk_object priskv_obj_type_object (total ps) (fields_at 0 ps).
Proof.
  intros Hok. unfold table, priskv_codec_object_new.
  assert (∀ sz fs, foldl (λ o p, priskv_codec_object_append_field o (d_name p.1) (d_object p.1) false false)
    (mk_object priskv_obj_type_object sz fs) ps = mk_object priskv_obj_type_object (sz + total ps) (fs ++ fields_at sz ps)) as Hgen.
  { induction Hok as [|[d v] ps Hd Hok IH]; intros sz fs; [cbn; by rewrite Z.add_0_r, app_nil_r|].
    change (total ((d, v) :: ps)) with (d_size d + total ps). cbn [foldl fields_at priskv_codec_object_append_field fst].
    rewrite IH. cbn [fst] in Hd. rewrite (dk_size _ _ Hd). rewrite <- app_assoc. cbn [app]. f_equal. lia. }
  by rewrite Hgen.
Qed.

Lemma fields_names ps : ∀ off, f_name <$> fields_at off ps = (λ p, d_name p.1) <$> ps.
Proof. induction ps as [|[d v] ps IH]; intros off; [done|]. csimpl. by rewrite IH. Qed.

Lemma fields_after ps : ∀ off r, drvs_ok ps → r ∈ mjoin (footprint <$> fields_at off ps) →
  off <= r.1 ∧ 0 <= r.2 ∧ r.1 + r.2 <= off + total ps.
Proof.
  induction ps as [|[d v] ps IH]; intros off r Hok Hr; [by apply elem_of_nil in Hr|]. apply Forall_cons in Hok as [Hd Hok]. cbn [fst snd] in Hd.
  pose proof (dk_pos _ _ Hd). pose proof (total_pos _ Hok). change (total ((d, v) :: ps)) with (d_size d + total ps).
  cbn in Hr. apply elem_of_cons in Hr as [->|Hr]; [cbn; rewrite (dk_size _ _ Hd); lia|]. apply IH in Hr; [lia|done].
Qed.

Lemma fields_apart ps : ∀ off, drvs_ok ps → pairwise_apart (mjoin (footprint <$> fields_at off ps)) = true.
Proof.
  induction ps as [|[d v] ps IH]; intros off Hok; [done|]. pose proof Hok as Hok'. apply Forall_cons in Hok as [Hd Hok]. cbn [fst snd] in Hd.
  cbn. rewrite (IH _ Hok), andb_true_r. apply forallb_Forall, Forall_forall. intros r Hr.
  apply fields_after in Hr; [|done]. apply apart_spec. cbn. rewrite (dk_size _ _ Hd). lia.
Qed.

Lemma fields_forall (P : field → Prop) ps : ∀ off, drvs_ok ps →
  (∀ d v off, drv_ok d v → P (mk_field priskv_obj_field_type_value (d_name d) off 0 (d_object d) false false)) → Forall P (fields_at off ps).
Proof.
  intros off Hok HP. revert off. induction Hok as [|[d v] ps Hd Hok IH]; intros off; constructor; [by eapply HP|apply IH].
Qed.

Lemma table_struct ps : drvs_ok ps → NoDup ((λ p, d_name p.1) <$> ps) → is_struct (table ps) ∧ (obj_depth (table ps) <= 32)%nat.
Proof.
  intros Hok Hnd. rewrite table_fields by done. split; [split; [done|]|].
  - cbn [layout_ok]. rewrite !andb_true_iff, !forallb_Forall, Z.leb_le, bool_decide_eq_true, fields_names. split; [split; [split; [split; [split|]|]|]|].
    + by apply total_pos.
    + apply Forall_forall. intros f Hf. apply forallb_Forall, Forall_forall. intros r Hr.
      assert (0 <= r.1 ∧ 0 <= r.2 ∧ r.1 + r.2 <= 0 + total ps) as Hin; [|apply within_spec; lia].
      apply fields_after; [done|]. apply list_elem_of_join. exists (footprint f). split; [done|]. by apply list_elem_of_fmap_2.
    + by apply fields_apart.
    + done.
    + apply fields_forall; [done|]. intros d v off Hd. cbn [f_name]. apply bool_decide_eq_true, (dk_name _ _ Hd).
    + apply fields_forall; [done|]. intros d v off Hd. apply (dk_struct _ _ Hd).
  - cbn [obj_depth]. apply le_n_S, list_max_bound, Forall_fmap, fields_forall; [done|]. intros d v off Hd. apply (dk_depth _ _ Hd).
Qed.

Lemma parts_read h r ps : ∀ off owns, parts h r off ps owns →
  mapR (λ f, read_field (read_value (f_obj f)) f h (r, 0)) (fields_at off ps) = Ok (snd <$> ps).
Proof.
  set (g := λ f, _). induction ps as [|[d v] ps IH]; intros off [|own owns] Hp; try done. destruct Hp as (Hr & _ & _ & Hp).
  cbn [fields_at mapR]. match goal with |- context [g ?f] => assert (g f = Ok v) as -> by exact Hr end.
  rewrite Ok_bind, (IH _ _ Hp). done.
Qed.

Lemma table_typed ps : drvs_ok ps → typed (table ps) (VStruct (snd <$> ps)).
Proof.
  intros Hok. rewrite table_fields by done. apply typed_struct. eexists. split; [done|].
  assert (∀ off, length (snd <$> ps) = length (fields_at off ps) ∧
    foldr and True (with_values typed_field (fields_at off ps) (snd <$> ps))) as Hgen; [|apply Hgen].
  induction Hok as [|[d v] ps Hd Hok IH]; intros off; [done|]. destruct (IH (off + d_size d)) as [Hl Hty].
  cbn [fields_at]. csimpl. split; [by rewrite Hl|]. split; [|done]. apply (dk_typed _ _ Hd).
Qed.

(** The JSON of the parts. *)
Lemma table_json ps : drvs_ok ps →
  code_spec (table ps) (VStruct (snd <$> ps)) = JObject ((λ p, (d_name p.1, code_spec (d_object p.1) p.2)) <$> ps).
Proof.
  intros Hok. rewrite table_fields by done.
  change (JObject (members (fields_at 0 ps) (snd <$> ps)) = JObject ((λ p, (d_name p.1, code_spec (d_object p.1) p.2)) <$> ps)).
  f_equal. assert (∀ off, members (fields_at off ps) (snd <$> ps) = (λ p, (d_name p.1, code_spec (d_object p.1) p.2)) <$> ps) as Hgen; [|apply Hgen].
  induction Hok as [|[d v] ps Hd Hok IH]; intros off; [done|]. cbn [fields_at]. csimpl.
  change (members (?f :: ?fs) (?v :: ?vs)) with (member f v (field_tree f v) ++ members fs vs).
  unfold member. cbn [f_ignored andb app f_name]. rewrite IH. f_equal. f_equal. pose proof (dk_typed _ _ Hd) as Hty.
  destruct v; try done. cbn in Hty. by destruct (d_object d) as [[] ? ?].
Qed.

(** ** Freeing *)

Lemma free_items_run r ps : ∀ off owns h n e, drvs_ok ps → 0 <= off → parts h r off ps owns →
  NoDup (r :: (to_free ps owns).*1) → (∀ q, q ∈ to_free ps owns → q.2 = 0 ∧ n0 <= q.1 ∧ is_Some (h !! q.1)) →
  free_items (Some (r, 0)) (fst <$> ps) off (CS h n e) = Ok (tt, CS (without (to_free ps owns) h) n e).
Proof.
  induction ps as [|[d v] ps IH]; intros off [|own owns] h n e Hok Hoff Hp Hnd Hst; try done.
  pose proof Hok as Hok'. apply Forall_cons in Hok as [Hd Hok]. cbn [fst snd] in Hd. destruct Hp as (Hr & Ho & Hstat & Hp).
  cbn [to_free] in *. rewrite fmap_app in Hnd. apply NoDup_cons in Hnd as [Hrn Hnd]. apply NoDup_app in Hnd as (Hnd1 & Hdis & Hnd2).
  csimpl. cbn [free_items pplus mbind option_bind].
  assert (match d_free d with None => mret tt | Some f => f (Some (r, off)) end (CS h n e) = Ok (tt, CS (without (freed d own) h) n e)) as Hfree.
  { unfold freed in *. destruct (d_free d) as [f|] eqn:Hfd; [|done]. rewrite <- Ho. apply (dk_free _ _ Hd f h n e (r, off) Hfd Hr).
    cbn in Hst. split; [by eexists|by rewrite Ho| |]; intros q Hq; rewrite Ho in Hq.
    - destruct (Hst q) as (? & _ & ?); [apply elem_of_app; by left|done].
    - intros Hin. apply list_elem_of_singleton in Hin. apply Hrn. rewrite elem_of_app. left. cbn in Hin. rewrite <- Hin. by apply list_elem_of_fmap_2. }
  change (padd (r, 0) off) with (r, off). erewrite bind_run by exact Hfree. set (h1 := without (freed d own) h).
  assert (∀ a, a ∉ (freed d own).*1 → h1 !! a = h !! a) as Hsame.
  { intros a Ha. unfold h1. by rewrite lookup_without, decide_False. }
  rewrite (IH (off + d_size d) owns h1 n e).
  - do 3 f_equal. unfold h1. apply without_app.
  - done.
  - pose proof (dk_pos _ _ Hd). lia.
  - apply (parts_moved h h1 r r); [done|pose proof (dk_pos _ _ Hd); lia| | |done].
    + apply moved_block. cbn. apply Hsame. intros Hin. apply Hrn. rewrite elem_of_app. by left.
    + intros own' q Hin Hq. apply Hsame. intros Hf'. destruct (parts_block _ _ _ _ _ _ _ Hp Hin Hq) as [Hq'|Hq'].
      * apply (Hdis q.1); [done|]. by apply list_elem_of_fmap_2.
      * apply static_old in Hq'. apply list_elem_of_fmap in Hf' as (q2 & Heq & Hq2).
        destruct (Hst q2) as (_ & ? & _); [apply elem_of_app; by left|]. lia.
  - apply NoDup_cons. split; [|done]. intros Hin. apply Hrn. rewrite elem_of_app. by right.
  - intros q Hq. destruct (Hst q) as (? & ? & ?); [apply elem_of_app; by right|]. split; [done|]. split; [done|].
    rewrite Hsame; [done|]. intros Hin. apply (Hdis q.1 Hin). by apply list_elem_of_fmap_2.
Qed.

(** ** The report *)

(** The loops and the coding of [priskv_info_json], for the drivers of its items. *)
Definition report (ds : list priskv_info_drv) : ST cstate ptr :=
  '(result_data, _, result_obj) ← fold_items (append_item avail) ds (None, 0, priskv_codec_object_new);
  json ← priskv_codec_code avail strerror_errno result_data (Some result_obj);
  _ ← free_items result_data ds 0;
  _ ← free result_data;
  mret json.

(** For items that keep their contract and have different names: the text of the
    JSON object that has exactly these items, and nothing else is left in memory. *)
Lemma report_run ds vs e :
  Forall2 drv_ok ds vs → ds ≠ [] → NoDup (d_name <$> ds) →
  ∃ j t n', report ds (CS h0 n0 e) = Ok (Some (t, 0), CS (<[t := enc_string (json_object_to_json_string j)]> h0) n' e) ∧
    view j = JObject (zip_with (λ d v, (d_name d, code_spec (d_object d) v)) ds vs) ∧
    (jt_plain (view j) ∧ jt_depth (view j) <= 32)%nat ∧ n0 <= t < n'.
Proof.
  intros Hds Hne Hnd. unfold report.
  assert (gathered h0 n0 [] [] None) as Hg0.
  { split; [done|done|done|]. split; [done|]. split; [done|]. intros a Ha. destruct (h0 !! a) eqn:Hh; [|done].
    assert (a < n0); [|lia]. apply Hf0. by rewrite Hh. }
  destruct (fold_gathers ds [] [] None h0 n0 e vs Hg0 ltac:(constructor) Hds) as (h & n & owns & res & Hrun & Hg). cbn [app] in Hrun, Hg.
  set (ps := zip ds vs) in *. erewrite bind_run by exact Hrun. cbv iota beta.
  assert (drvs_ok ps) as Hok.
  { unfold ps, drvs_ok. clear -Hds. induction Hds as [|d v ds vs Hd _ IH]; constructor; [done|exact IH]. }
  assert (fst <$> ps = ds) as Hfst by (apply fst_zip; rewrite (Forall2_length _ _ _ Hds); done).
  assert ((λ p, d_name p.1) <$> ps = d_name <$> ds) as Hnames by (rewrite <- Hfst, <- list_fmap_compose; done).
  assert ((λ p, (d_name p.1, code_spec (d_object p.1) p.2)) <$> ps = zip_with (λ d v, (d_name d, code_spec (d_object d) v)) ds vs) as Hzip.
  { unfold ps. clear. revert vs. induction ds as [|d ds IH]; intros [|v vs]; [done..|]. csimpl. by rewrite IH. }
  destruct Hg as [Hn Hf Hold Hres]. destruct ps as [|p ps'] eqn:Hps; [by destruct ds|]. rewrite <- Hps in *.
  destruct Hres as (r & bk & -> & Hj).
  destruct (table_struct ps Hok) as [Hst Hdepth]; [by rewrite Hnames|].
  assert (read_value (table ps) h (r, 0) = Ok (VStruct (snd <$> ps))) as Hread.
  { rewrite table_fields by done. cbn [read_with]. rewrite (parts_read h r ps 0 owns) by apply Hj. done. }
  pose proof (seen_value_if_read (table ps) h (r, 0) _ Hread (table_typed ps Hok)) as Hseen.
  destruct (code_run avail strerror_errno Havail (table ps) h n e (r, 0) _ Hst Hseen (table_typed ps Hok)) as (j & Hview & Hcode).
  destruct (code_plain (table ps) (proj2 Hst) _ (table_typed ps Hok)) as [Hplain Hd]. rewrite <- Hview in Hplain, Hd.
  rewrite table_json, Hzip in Hview by done.
  set (text := enc_string (json_object_to_json_string j)) in *. exists j, n, (n + 1). split; [|split; [done|split; [split; [done|lia]|lia]]].
  erewrite bind_run by exact Hcode. set (h1 := <[n := text]> h).
  pose proof (jn_range _ _ _ _ _ _ Hj) as Hr. pose proof (jn_nodup _ _ _ _ _ _ Hj) as Hndf.
  assert (∀ a, a < n → h1 !! a = h !! a) as Hh1 by (intros a Ha; unfold h1; by rewrite lookup_insert_ne by lia).
  rewrite <- Hfst. erewrite bind_run.
  2:{ apply (free_items_run r ps 0 owns h1); [done|done| |done|].
      - apply (parts_moved h h1 r r); [done|done|apply moved_block; cbn; apply Hh1; lia| |apply Hj].
        intros own q Hin Hq. apply Hh1. destruct (parts_block _ _ _ _ _ _ _ (jn_parts _ _ _ _ _ _ Hj) Hin Hq) as [Hq'|Hq'].
        + destruct (jn_start _ _ _ _ _ _ Hj q Hq') as (_ & ? & _). lia.
        + apply static_old in Hq'. lia.
      - intros q Hq. destruct (jn_start _ _ _ _ _ _ Hj q Hq) as (? & ? & ?). split; [done|]. split; [lia|]. by rewrite Hh1 by lia. }
  apply NoDup_cons in Hndf as [Hrn _].
  erewrite bind_run.
  2:{ apply free_block. rewrite lookup_without, decide_False, Hh1, (jn_block _ _ _ _ _ _ Hj) by (done || lia). by eexists. }
  unfold mret, ST_ret. do 3 f_equal. apply map_eq. intros a. destruct (decide (a = n)) as [->|Hna].
  { rewrite lookup_insert_eq, lookup_delete_ne, lookup_without, decide_False by (lia || (intros Hin; apply list_elem_of_fmap in Hin as (q & -> & Hq);
      destruct (jn_start _ _ _ _ _ _ Hj q Hq) as (_ & ? & _); lia)). unfold h1. apply lookup_insert_eq. }
  rewrite lookup_insert_ne by done. destruct (decide (a = r)) as [->|Hra].
  { rewrite lookup_delete_eq. destruct (h0 !! r) eqn:Hh; [|done]. assert (r < n0); [|lia]. apply Hf0. by rewrite Hh. }
  rewrite lookup_delete_ne, lookup_without by done. destruct (decide (a < n0)) as [Hlt|Hge].
  - rewrite decide_False, Hh1, Hold by (lia || (intros Hin; apply list_elem_of_fmap in Hin as (q & -> & Hq);
      destruct (jn_start _ _ _ _ _ _ Hj q Hq) as (_ & ? & _); lia)). done.
  - destruct (h0 !! a) eqn:Hh; [exfalso; apply Hge, Hf0; by rewrite Hh|]. case_decide as Hin; [done|].
    unfold h1. rewrite lookup_insert_ne by done. destruct (h !! a) eqn:Hha; [|done].
    assert (a ∈ r :: (to_free ps owns).*1) as Hin2 by (apply (jn_only _ _ _ _ _ _ Hj); [lia|by rewrite Hha]).
    apply elem_of_cons in Hin2 as [?|?]; done.
Qed.
End report.
