(* ===== verification/InfoDrivers.v ===== *)
(** * The drivers of the report

    Every driver of [server/info.c] keeps the contract [drv_ok], with the values it
    reports: what getters leave in memory is built up from stores, strings and arrays
    ([made]), and the functions that free it from loops over arrays. *)

From S2P Require Import Prelude State Utils CString Crc Lists Protocol Wire Memory Slab Buddy Alloc KvModel KvInv KvOps KvStart ServerModel Acl CMem Codec CodecSpec CodecMem CodecCode CodecJson CodecProps Info InfoProps InfoReport.

Local Open Scope string_scope.
Local Open Scope list_scope.
Local Open Scope Z_scope.

Section drivers.
Context {JC : JsonC} {JL : JsonLaws JC}.
Context (avail : Z → bool).
Hypothesis Havail : ∀ n, avail n = true.

(** ** Stores at the fields of a structure *)

Fixpoint stores (p : ptr) (ws : list (Z * list mbyte)) : ST cstate unit :=
  match ws with [] => mret tt | (o, bs) :: ws => _ ← store (pplus p o) bs; stores p ws end.

Notation ranges ws := ((λ w, (w.1, Z.of_nat (length w.2))) <$> ws).

Lemma bind_tt {S} (m : ST S unit) s : (_ ← m; mret tt) s = m s.
Proof. unfold mbind, ST_bind. by destruct (m s) as [[[] s']|]. Qed.

Lemma bind_ext {S A B} (m : ST S A) (f g : A → ST S B) s : (∀ a s', f a s' = g a s') → (m ≫= f) s = (m ≫= g) s.
Proof. intros Hfg. unfold mbind, ST_bind. destruct (m s) as [[a s']|]; [|done]. apply Hfg. Qed.

Lemma bind_assoc {S A B C} (m : ST S A) (f : A → ST S B) (g : B → ST S C) s : ((m ≫= f) ≫= g) s = (m ≫= λ x, f x ≫= g) s.
Proof. unfold mbind, ST_bind. by destruct (m s) as [[a s']|]. Qed.

Lemma pplus_0 p : pplus p 0 = p.
Proof. destruct p as [l|]; [|done]. cbn. by rewrite padd_0. Qed.

Lemma pplus_pplus p o o' : pplus (pplus p o) o' = pplus p (o + o').
Proof. destruct p as [l|]; [|done]. cbn. by rewrite padd_padd. Qed.

Lemma valid_changes h h' n n' l F o m : changes h h' n n' l F → valid h (padd l o) m → valid h' (padd l o) m.
Proof.
  intros Hch (bk & Hbk & H1 & H2). pose proof (ch_len _ _ _ _ _ _ Hch) as Hl. cbn in Hbk. rewrite Hbk in Hl.
  destruct (h' !! l.1) as [bk'|] eqn:Hbk'; [|done]. injection Hl as Hl. exists bk'. by rewrite Hl.
Qed.

Lemma changes_within h h' n n' l F size :
  changes h h' n n' l F → Forall (λ r, 0 <= r.1 ∧ r.1 + r.2 <= size) F → changes h h' n n' l [(0, size)].
Proof.
  intros [? ? ? ? A] HF. split; [done..|]. intros o m Hap. apply A. intros r Hr.
  rewrite Forall_forall in HF. specialize (HF r Hr). specialize (Hap _ (list_elem_of_here _ _)). cbn in Hap. lia.
Qed.

Lemma stores_run ws : ∀ h n e l,
  fresh_above h n → Forall (λ w, valid h (padd l w.1) (Z.of_nat (length w.2))) ws → pairwise_apart (ranges ws) = true →
  ∃ h', stores (Some l) ws (CS h n e) = Ok (tt, CS h' n e) ∧ changes h h' n n l (ranges ws) ∧
    ∀ o bs, (o, bs) ∈ ws → ld h' (padd l o) (length bs) = Ok bs.
Proof.
  induction ws as [|[o bs] ws IH]; intros h n e l Hf Hv Hap.
  { exists h. split; [done|]. split; [by apply changes_refl|]. intros o bs Hin. by apply elem_of_nil in Hin. }
  apply Forall_cons in Hv as [Hv Hvs]. cbn [fst snd] in Hv. apply (pairwise_cons [(o, Z.of_nat (length bs))]) in Hap as [Hap1 Hap2].
  destruct (store_changes h n e l o bs Hf Hv) as (h1 & Hs & Hld & Hch).
  destruct (IH h1 n e l) as (h2 & Hrun & Hch2 & Hlds); [apply Hch| |done|].
  { eapply Forall_impl; [exact Hvs|]. intros w. by eapply valid_changes. }
  exists h2. split; [cbn [stores]; by erewrite bind_run by exact Hs|]. split; [by apply (changes_trans _ _ _ _ _ _ _ _ _ Hch Hch2)|].
  intros o' bs' Hin. apply elem_of_cons in Hin as [[= -> ->]|Hin]; [|by apply Hlds]. rewrite <- Hld.
  apply (ch_apart _ _ _ _ _ _ Hch2). intros r Hr. specialize (Hap1 _ r (list_elem_of_here _ _) Hr). apply apart_spec in Hap1. cbn in Hap1. lia.
Qed.

(** An [int] with zeros behind it is the same number with eight bytes. *)
Lemma ld_app h l a b x y : ld h l a = Ok x → ld h (padd l (Z.of_nat a)) b = Ok y → ld h l (a + b) = Ok (x ++ y).
Proof.
  intros Hx Hy. apply ld_inv in Hx as (bk & Hbk & H1 & H2 & ->). apply ld_inv in Hy as (bk' & Hbk' & _ & H3 & ->). cbn in *.
  rewrite Hbk in Hbk'. injection Hbk' as <-. rewrite (ld_Ok h l (a + b) bk) by (done || lia). f_equal.
  replace (Z.to_nat (l.2 + Z.of_nat a)) with (Z.to_nat l.2 + a)%nat by lia. by rewrite <- drop_drop, <- take_take_drop.
Qed.

Lemma le_split_app a b : ∀ z, le_split (a + b) z = le_split a z ++ le_split b (z / 256 ^ Z.of_nat a).
Proof.
  induction a as [|a IH]; intros z; [cbn; by rewrite Z.div_1_r|]. cbn [Nat.add le_split app]. rewrite IH. do 2 f_equal.
  rewrite Nat2Z.inj_succ, Z.pow_succ_r, Z.div_div by lia. done.
Qed.

Lemma ld_u64_int h l z : 0 <= z < 2 ^ 32 → ld h l 4 = Ok (enc_int 4 z) → ld h (padd l 4) 4 = Ok (replicate 4 (MByte 0)) → ld_u64 h l = Ok z.
Proof.
  intros Hz H1 H2. apply ld_stored_u64; [lia|]. pose proof (ld_app h l 4 4 _ _ H1 H2) as Hld. cbn [Nat.add] in Hld. rewrite Hld. f_equal. unfold enc_int.
  change (replicate 4 (MByte 0)) with (MByte <$> [0; 0; 0; 0]). rewrite <- fmap_app. f_equal. rewrite (le_split_app 4 4). f_equal.
  rewrite Z.div_small by lia. done.
Qed.

(** ** Parts of a structure *)

(** A run that makes the part [F] of the structure at [l] from zeros: it returns,
    changes only [F], the part reads as [v], and its blocks are the ones allocated. *)
Definition made {A} (l : loc) (F : list (Z * Z)) (h : heap) (n : Z) (e : list Z)
    (read : heap → res A) (own : heap → list loc) (v : A) (run : res (unit * cstate)) : Prop :=
  ∃ h' n', run = Ok (tt, CS h' n' e) ∧ changes h h' n n' l F ∧ read h' = Ok v ∧ own h' = blocks n n' ∧
    ∀ a, n <= a < n' → is_Some (h' !! a).

Lemma made_shift {A} l off s h n e read own (v : A) run :
  made (padd l off) [(0, s)] h n e read own v run → made l [(off, s)] h n e read own v run.
Proof. intros (h' & n' & Hrun & Hch & Hrest). exists h', n'. split; [done|]. split; [by apply changes_shift|done]. Qed.

Lemma made_seq {A B} l F1 F2 h n e r1 o1 (v1 : A) r2 o2 (v2 : B) (m1 m2 : ST cstate unit) :
  l.1 < n → made l F1 h n e r1 o1 v1 (m1 (CS h n e)) → framed r1 o1 l F1 → (∀ r r', r ∈ F1 → r' ∈ F2 → apart r r' = true) →
  (∀ h' n', changes h h' n n' l F1 → made l F2 h' n' e r2 o2 v2 (m2 (CS h' n' e))) →
  made l (F1 ++ F2) h n e (λ h, x ← r1 h; y ← r2 h; Ok (x, y)) (λ h, o1 h ++ o2 h) (v1, v2) ((_ ← m1; m2) (CS h n e)).
Proof.
  intros Hl (h1 & n1 & Hrun & Hch & Hr1 & Ho1 & Hl1) Hfr Hap Hm2. destruct (Hm2 h1 n1 Hch) as (h2 & n2 & Hrun2 & Hch2 & Hr2 & Ho2 & Hl2).
  exists h2, n2. split; [by erewrite bind_run by exact Hrun|]. split; [by eapply changes_trans|].
  destruct (Hfr h1 h2) as [Hr Ho].
  { intros r Hr. apply (changes_agree _ _ _ _ _ _ _ Hch2). intros r' Hr'. by apply Hap. }
  { intros q Hq. rewrite Ho1 in Hq. apply elem_of_blocks in Hq. apply (ch_old _ _ _ _ _ _ Hch2); lia. }
  rewrite Hr, Hr1, Hr2, Ho, Ho1, Ho2. split; [done|]. split; [apply alloc_blocks_join; [apply Hch|apply Hch2]|].
  intros a Ha. destruct (decide (a < n1)); [|apply Hl2; lia].
  rewrite (ch_old _ _ _ _ _ _ Hch2) by lia. apply Hl1. lia.
Qed.

(** *** Arrays *)

(** A loop over an array with its indices. *)
Definition indexed {X} (l : list X) (i : Z) : list (Z * X) := zip (seqZ i (Z.of_nat (length l))) l.

Lemma indexed_cons {X} (x : X) l i : indexed (x :: l) i = (i, x) :: indexed l (i + 1).
Proof.
  unfold indexed. rewrite seqZ_cons by (cbn [length]; lia). cbn [zip zip_with]. f_equal.
  replace (Z.pred (Z.of_nat (length (x :: l)))) with (Z.of_nat (length l)) by (cbn [length]; lia). done.
Qed.

Lemma indexed_fst {X} (l : list X) : (indexed l 0).*1 = seqZ 0 (Z.of_nat (length l)).
Proof. unfold indexed. apply fst_zip. rewrite length_seqZ. lia. Qed.

Lemma indexed_snd {X} (l : list X) : (indexed l 0).*2 = l.
Proof. unfold indexed. apply snd_zip. rewrite length_seqZ. lia. Qed.

Lemma elem_of_indexed {X} (l : list X) j x : (j, x) ∈ indexed l 0 → 0 <= j < Z.of_nat (length l) ∧ x ∈ l.
Proof.
  intros Hin. split.
  - apply (list_elem_of_fmap_2 fst) in Hin. rewrite indexed_fst in Hin. apply elem_of_seqZ in Hin. cbn in Hin. lia.
  - rewrite <- (indexed_snd l). by apply (list_elem_of_fmap_2 snd _ (j, x)).
Qed.

Lemma for_each_all {X} (body : Z → X → ST cstate unit) l : ∀ i s,
  (_ ← for_each body l i; mret 0) s = for_all (λ p, _ ← body p.1 p.2; mret 0) (indexed l i) s.
Proof.
  induction l as [|x l IH]; intros i s; [done|]. rewrite indexed_cons. cbn [for_each for_all fst snd].
  unfold mbind, ST_bind, mret, ST_ret. destruct (body i x s) as [[[] s']|]; [|done]. cbn [Z.ltb Z.compare]. apply IH.
Qed.

Lemma traverse_pure {X A} (f : X → A) l : traverse (λ x, inl (f x)) l = inl (f <$> l).
Proof. induction l as [|x l IH]; [done|]. cbn in *. by rewrite IH. Qed.

Section array.
Context {X : Type} (o : priskv_object) (val : X → value) (Hlay : layout_ok o = true).

(** The elements of an array of zeros at block [q]. *)
Lemma elements_made body (xs : list X) h n e q :
  (∀ j x h n e, x ∈ xs → zeroed h (padd (q, 0) (o_size o * j)) (o_size o) → fresh_above h n → q < n →
     made (padd (q, 0) (o_size o * j)) [(0, o_size o)] h n e (λ h, read_value o h (padd (q, 0) (o_size o * j)))
       (λ h, owned o h (padd (q, 0) (o_size o * j))) (val x) (body j x (CS h n e))) →
  fresh_above h n → q < n → zeroed h (q, 0) (Z.of_nat (length xs) * o_size o) →
  ∃ F, made (q, 0) F h n e (λ h, mapR (λ j, read_value o h (padd (q, 0) (o_size o * j))) (seqZ 0 (Z.of_nat (length xs))))
    (λ h, mjoin ((λ j, owned o h (padd (q, 0) (o_size o * j))) <$> seqZ 0 (Z.of_nat (length xs))))
    (val <$> xs) (for_each body xs 0 (CS h n e)).
Proof.
  intros Hbody Hf Hq Hz. pose proof (layout_size _ Hlay) as Hsz.
  set (fp := λ p : Z * X, [(o_size o * p.1, o_size o)]). exists (mjoin (fp <$> indexed xs 0)).
  assert (fp <$> indexed xs 0 = (λ j, [(o_size o * j, o_size o)]) <$> seqZ 0 (Z.of_nat (length xs))) as Hfp.
  { rewrite <- indexed_fst, <- list_fmap_compose. done. }
  destruct (decode_loop (λ p, _ ← body p.1 p.2; mret 0) fp (λ p h, read_value o h (padd (q, 0) (o_size o * p.1)))
    (λ p h, owned o h (padd (q, 0) (o_size o * p.1))) (λ p, inl (val p.2)) (λ _, True) (q, 0) n (indexed xs 0)) with (h := h) (n := n) (e := e)
    as (r & h' & n' & e' & Hrun & Hch & Hout).
  - intros [j x] h1 n1 e1 Hin _ Hn Hzj Hf1 Hq1. cbn [fst snd]. apply elem_of_indexed in Hin as [_ Hin].
    destruct (made_shift _ _ _ _ _ _ _ _ _ _ (Hbody j x h1 n1 e1 Hin (Hzj (o_size o * j, o_size o) (list_elem_of_here _ _)) Hf1 Hq1))
      as (h2 & n2 & Hrun & Hch & Hr & Ho & Hl).
    exists 0, h2, n2, e1. split; [by erewrite bind_run by exact Hrun|]. done.
  - intros [j x] _ h1 h2 Ha Hown. apply framed_value; [done| |done].
    intros r Hr. apply list_elem_of_singleton in Hr as ->. rewrite padd_0. apply (Ha (o_size o * j, o_size o)). left.
  - done.
  - rewrite Hfp. apply elements_apart; [done|apply NoDup_seqZ].
  - done.
  - lia.
  - rewrite Hfp. intros r Hr. apply elem_of_elements in Hr as (i & Hi & ->). apply elem_of_seqZ in Hi.
    eapply zeroed_sub; [exact Hz| |]; cbn; nia.
  - done.
  - done.
  - rewrite traverse_pure in Hout. destruct Hout as (-> & -> & Hr & Ho & Hl). rewrite <- for_each_all in Hrun.
    apply bind_inv in Hrun as (u & s' & Hrun & Heq). injection Heq as ->. destruct u.
    exists h', n'. split; [done|]. split; [done|]. rewrite <- indexed_fst, mapR_fmap, Hr.
    split; [f_equal; rewrite <- (indexed_snd xs) at 2; by rewrite <- list_fmap_compose|].
    split; [|done]. rewrite <- Ho, <- list_fmap_compose. done.
Qed.

(** A count and an array of zeros whose elements are made. *)
Lemma array_field_made f body (xs : list X) h n e l :
  f_type f = priskv_obj_field_type_array → f_obj f = o → apart (f_offset f, 8) (f_noffset f, 8) = true →
  Z.of_nat (length xs) < 2 ^ 31 → zeroed_all h l (footprint f) → fresh_above h n → l.1 < n →
  (∀ q j x h n e, x ∈ xs → zeroed h (padd (q, 0) (o_size o * j)) (o_size o) → fresh_above h n → q < n →
     made (padd (q, 0) (o_size o * j)) [(0, o_size o)] h n e (λ h, read_value o h (padd (q, 0) (o_size o * j)))
       (λ h, owned o h (padd (q, 0) (o_size o * j))) (val x) (body (Some (q, 0)) j x (CS h n e))) →
  made l (footprint f) h n e (λ h, read_field (read_value o) f h l) (λ h, owned_field (owned o) f h l) (VArray (val <$> xs))
    ((_ ← store (Some (padd l (f_noffset f))) (enc_int 4 (Z.of_nat (length xs)));
      p ← calloc avail (Z.of_nat (length xs)) (o_size o);
      _ ← store (Some (padd l (f_offset f))) (enc_ptr p);
      for_each (body p) xs 0) (CS h n e)).
Proof.
  intros Hty Hobj Hap Hlen Hz Hf Hl Hbody. pose proof (layout_size _ Hlay) as Hsz. set (len := Z.of_nat (length xs)) in *.
  unfold footprint, zeroed_all in *. rewrite Hty in *. pose proof (proj1 (apart_spec _ _) Hap) as Hap'. cbn in Hap'.
  assert (zeroed h (padd l (f_noffset f)) 8) as Hz1 by (apply (Hz (_, 8)); right; left).
  assert (zeroed h (padd l (f_offset f)) 8) as Hz2 by (apply (Hz (_, 8)); left).
  destruct (store_changes h n e l (f_noffset f) (enc_int 4 len)) as (h1 & Hs1 & Hld1 & Hch1); [done| |].
  { rewrite length_enc_int. apply zeroed_valid; [|lia]. rewrite <- (padd_0 (padd l _)). apply (zeroed_sub _ _ _ 0 4 Hz1); lia. }
  rewrite length_enc_int in Hld1, Hch1.
  destruct (new_block_changes avail Havail h1 n e (replicate (Z.to_nat (len * o_size o)) (MByte 0)) l [] (ch_fresh _ _ _ _ _ _ Hch1) Hl)
    as [Hnew Hch2].
  set (h2 := <[n := replicate (Z.to_nat (len * o_size o)) (MByte 0)]> h1) in *.
  pose proof (changes_trans _ _ _ _ _ _ _ _ _ Hch1 Hch2) as Hch12. cbn [app] in Hch12.
  destruct (store_changes h2 (n + 1) e l (f_offset f) (enc_ptr (Some (n, 0)))) as (h3 & Hs3 & Hld3 & Hch3); [apply Hch2| |].
  { rewrite length_enc_ptr. eapply valid_changes; [exact Hch12|]. by apply zeroed_valid. }
  rewrite length_enc_ptr in Hld3, Hch3.
  assert (ld_u64 h3 (padd l (f_noffset f)) = Ok len) as Hcount.
  { assert (∀ o m, f_noffset f <= o → o + Z.of_nat m <= f_noffset f + 8 → ld h3 (padd l o) m = ld h1 (padd l o) m) as H31.
    { intros o' m Ho Hm. rewrite (ch_apart _ _ _ _ _ _ Hch3), (ch_apart _ _ _ _ _ _ Hch2); [done| |];
        intros r Hr; [by apply elem_of_nil in Hr|]. apply list_elem_of_singleton in Hr as ->. cbn. lia. }
    apply ld_u64_int; [lia|by rewrite H31 by lia|]. rewrite padd_padd, H31 by lia. rewrite (ch_apart _ _ _ _ _ _ Hch1).
    - rewrite <- padd_padd. by apply (Hz1 4 4%nat).
    - intros r Hr. apply list_elem_of_singleton in Hr as ->. cbn. lia. }
  assert (zeroed h3 (n, 0) (len * o_size o)) as Hz3.
  { eapply zeroed_agree; [apply agree_block; apply (ch_old _ _ _ _ _ _ Hch3); cbn; lia|].
    pose proof (zeroed_fresh h1 n (Z.to_nat (len * o_size o))) as Hzf. rewrite Z2Nat.id in Hzf by lia. exact Hzf. }
  destruct (elements_made (body (Some (n, 0))) xs h3 (n + 1) e n (Hbody n)) as (F & h4 & n4 & Hrun & Hch4 & Hr & Ho & Hlive);
    [apply Hch3|lia|done|].
  pose proof (ch_next _ _ _ _ _ _ Hch4) as Hn4.
  destruct (changes_new_block h3 h4 (n + 1) n4 (n, 0) F n l [(f_offset f, 8); (f_noffset f, 8)] Hch4) as (_ & Hold & Hch5);
    [cbn; lia..|apply Hch4|].
  exists h4, n4. split; [erewrite bind_run by exact Hs1; unfold calloc; erewrite bind_run by exact Hnew; by erewrite bind_run by exact Hs3|].
  split.
  { pose proof (changes_trans _ _ _ _ _ _ _ _ _ Hch12 Hch3) as [? ? O1 L1 A1]. destruct Hch5 as [? ? O5 L5 A5]. split; [lia|done| | |].
    - intros a Ha Hne. by rewrite O5, O1.
    - by rewrite L5, L1.
    - intros o' m Ho'. rewrite A5 by done. apply A1. intros r Hin.
      assert (o' + Z.of_nat m <= f_offset f ∨ f_offset f + 8 <= o') as H8 by (apply (Ho' (_, 8)); left).
      assert (o' + Z.of_nat m <= f_noffset f ∨ f_noffset f + 8 <= o') as H4 by (apply (Ho' (_, 8)); right; left).
      apply elem_of_cons in Hin as [->|Hin]; [cbn; lia|]. apply list_elem_of_singleton in Hin as ->. cbn. lia. }
  unfold read_field_with, owned_field. rewrite Hty, Hobj.
  replace (ld_u64 h4 (padd l (f_noffset f))) with (Ok len) by (rewrite <- Hcount; unfold ld_u64; by rewrite (ld_block h3 h4) by (by apply Hold)).
  replace (ld_ptr h4 (padd l (f_offset f))) with (Ok (Some (n, 0)))
    by (rewrite <- (ld_stored_ptr _ _ _ Hld3); unfold ld_ptr; by rewrite (ld_block h3 h4) by (by apply Hold)).
  rewrite !Ok_bind. unfold element_ptrs. rewrite mapR_fmap. cbn [pplus mbind option_bind read_at].
  fold len in Hr, Ho. rewrite Hr, Ok_bind, <- list_fmap_compose. split; [done|]. split.
  - transitivity (blocks n (n + 1) ++ blocks (n + 1) n4); [|apply alloc_blocks_join; lia]. f_equal; [|exact Ho].
    unfold blocks. by replace (n + 1 - n) with 1 by lia.
  - intros a Ha. destruct (decide (a = n)) as [->|]; [|apply Hlive; lia]. apply (changes_live _ _ _ _ _ _ Hch4). cbn.
    rewrite (ch_old _ _ _ _ _ _ Hch3) by (cbn; lia). unfold h2. rewrite lookup_insert_eq. by eexists.
Qed.
End array.

(** ** Reading fields *)

(** A run of stores, statement by statement. *)
Ltac by_stores := cbn [stores]; rewrite ?pplus_pplus, ?pplus_0; repeat first [symmetry; apply bind_tt | apply bind_ext; intros _ ?].
Ltac is_word := rewrite ?length_enc_int, ?length_enc_ptr; lia.
Ltac in_stores := repeat (apply list_elem_of_here || apply list_elem_of_further).

Lemma read_u64 h l z : ld h l (length (enc_int 8 z)) = Ok (enc_int 8 z) → read_value priskv_uint64_obj h l = Ok (VUint64 (u64 z)).
Proof. rewrite length_enc_int. intros Hld. unfold priskv_uint64_obj. cbn [read_with]. unfold ld_u64. by rewrite Hld, Ok_bind, dec_enc_int. Qed.

Lemma read_bool h l b : ld h l (length (enc_bool b)) = Ok (enc_bool b) → read_value priskv_boolean_obj h l = Ok (VBool b).
Proof. unfold enc_bool at 1. rewrite length_enc_int. intros Hld. unfold priskv_boolean_obj. cbn [read_with]. by rewrite (ld_stored_bool _ _ _ Hld). Qed.

Lemma read_string h l q s : ld h l (length (enc_ptr (Some q))) = Ok (enc_ptr (Some q)) → ld_string h q = Ok s →
  read_value priskv_string_obj h l = Ok (VString (Some s)) ∧ owned priskv_string_obj h l = [q].
Proof.
  rewrite length_enc_ptr. intros Hld Hs. unfold priskv_string_obj. cbn [read_with owned]. rewrite (ld_stored_ptr _ _ _ Hld), Ok_bind, Hs. done.
Qed.

Lemma mapR_Forall2 {A B} (f : A → res B) l vs : Forall2 (λ x v, f x = Ok v) l vs → mapR f l = Ok vs.
Proof. induction 1 as [|x v l vs Hx _ IH]; [done|]. cbn. by rewrite Hx, Ok_bind, IH. Qed.

(** ** Items without memory of their own *)

Section plain.
Context (hs : heap).

(** A getter that only stores into the structure, where strings are in [hs]. *)
Lemma plain_drv (d : priskv_info_drv) v ws :
  (∀ l s, d_get d (Some l) s = stores (Some l) ws s) → d_free d = None →
  Forall (λ w, 0 <= w.1 ∧ w.1 + Z.of_nat (length w.2) <= d_size d) ws → pairwise_apart (ranges ws) = true →
  is_struct (d_object d) → o_size (d_object d) = d_size d → 0 < d_size d → typed (d_object d) v →
  (obj_depth (d_object d) <= 31)%nat → no_nul (d_name d) →
  (∀ h l, hs ⊆ h → (∀ o bs, (o, bs) ∈ ws → ld h (padd l o) (length bs) = Ok bs) →
     read_value (d_object d) h l = Ok v ∧ ∀ q, q ∈ owned (d_object d) h l → is_Some (hs !! q.1)) →
  drv_ok hs d v.
Proof.
  intros Hget Hfree Hws Hap ? ? ? ? ? ? Hread. split; try done; [|intros f h n e l Hf; congruence].
  intros h n e Hf Hhs. rewrite Hget, Hfree. set (zs := replicate _ _).
  destruct (stores_run ws (<[n := zs]> h) (n + 1) e (n, 0)) as (h' & Hrun & Hch & Hlds); [by apply fresh_insert| |done|].
  { eapply Forall_impl; [exact Hws|]. intros w Hw. exists zs. cbn. rewrite lookup_insert_eq. split; [done|].
    unfold zs. rewrite length_replicate. cbv beta in Hw. lia. }
  assert (∀ a, a < n → h' !! a = h !! a) as Hold.
  { intros a Ha. rewrite (ch_old _ _ _ _ _ _ Hch) by (cbn; lia). by rewrite lookup_insert_ne by lia. }
  pose proof (ch_len _ _ _ _ _ _ Hch) as Hl. cbn in Hl. rewrite lookup_insert_eq in Hl.
  destruct (h' !! n) as [bk|] eqn:Hbk; [|done]. injection Hl as Hl.
  destruct (Hread h' (n, 0)) as [Hr Ho]; [|done|].
  { apply map_subseteq_spec. intros a b Ha. pose proof (lookup_weaken _ _ _ _ Ha Hhs) as Hh. rewrite Hold; [done|]. apply Hf. by eexists. }
  exists h', (n + 1), bk. split; [done|]. split; [lia|]. split; [apply Hch|]. split; [done|]. split; [lia|].
  split; [done|]. split; [rewrite Hl; unfold zs; rewrite length_replicate; lia|]. split; [done|]. by split.
Qed.

Context (w : world).

Definition kv_value : value :=
  let kv := w_kv w in
  VStruct (VUint64 <$> [u64 (priskv_get_bucket_count kv); u64 (priskv_get_keys_inuse kv); u64 (priskv_get_max_keys kv);
    u64 (priskv_get_max_key_length kv); u64 (priskv_get_value_block_size kv); u64 (priskv_get_value_blocks kv);
    u64 (priskv_get_value_blocks_inuse kv); u64 (priskv_get_expire_routine_times kv); u64 (priskv_get_expire_kv_count kv);
    u64 (priskv_get_expire_kv_bytes kv)]).

Lemma u64_range z : 0 <= u64 z < 2 ^ 64.
Proof. apply Z.mod_pos_bound. lia. Qed.

Lemma kv_drv_ok : drv_ok hs (mk_drv (str "kv") priskv_kv_info_obj 80 (priskv_info_get_kv w) None) kv_value.
Proof.
  set (kv := w_kv w).
  apply (plain_drv _ _ [(8, enc_int 8 (priskv_get_bucket_count kv)); (0, enc_int 8 (priskv_get_keys_inuse kv));
    (16, enc_int 8 (priskv_get_max_keys kv)); (24, enc_int 8 (priskv_get_max_key_length kv));
    (32, enc_int 8 (priskv_get_value_block_size kv)); (40, enc_int 8 (priskv_get_value_blocks kv));
    (48, enc_int 8 (priskv_get_value_blocks_inuse kv)); (56, enc_int 8 (priskv_get_expire_routine_times kv));
    (64, enc_int 8 (priskv_get_expire_kv_count kv)); (72, enc_int 8 (priskv_get_expire_kv_bytes kv))]); try done.
  - intros l s. cbn [d_get]. unfold priskv_info_get_kv. by_stores.
  - cbn [d_size]. repeat (constructor; [cbn [fst snd]; is_word|]). constructor.
  - cbn. split; [done|]. repeat (split; [apply u64_range|]). done.
  - vm_compute. lia.
  - repeat (constructor; [done|]). constructor.
  - intros h l _ Hld. split; [|intros q Hq; by apply elem_of_nil in Hq]. cbn [d_object]. unfold priskv_kv_info_obj, PRISKV_DECL_OBJECT.
    cbn [read_with]. erewrite mapR_Forall2; [reflexivity|].
    repeat (constructor; [apply read_u64; apply Hld; in_stores|]). constructor.
Qed.

Definition cpu_value (sys user clock : Z) : value := VStruct (VUint64 <$> [u64 sys; u64 user; u64 clock]).

(** The ticks, when the line of the process could be read and has them. *)
Lemma cpu_drv_ok r user sys clock : get_process_cpu_time w = (r, Some user, Some sys, Some clock) →
  drv_ok hs (mk_drv (str "cpu") priskv_cpu_info_obj 24 (priskv_info_get_cpu w) None) (cpu_value sys user clock).
Proof.
  intros Hcpu.
  apply (plain_drv _ _ [(0, enc_int 8 (u64 sys)); (8, enc_int 8 (u64 user)); (16, enc_int 8 (u64 clock))]); try done.
  - intros l s. cbn [d_get]. unfold priskv_info_get_cpu. rewrite Hcpu. cbn [enc_ticks]. by_stores.
  - cbn [d_size]. repeat (constructor; [cbn [fst snd]; is_word|]). constructor.
  - cbn. split; [done|]. repeat (split; [apply u64_range|]). done.
  - vm_compute. lia.
  - repeat (constructor; [done|]). constructor.
  - intros h l _ Hld. split; [|intros q Hq; by apply elem_of_nil in Hq]. cbn [d_object]. unfold priskv_cpu_info_obj, PRISKV_DECL_OBJECT.
    cbn [read_with]. assert (∀ z, u64 (u64 z) = u64 z) as Hu by (intros z; unfold u64; by rewrite Z.mod_mod).
    erewrite mapR_Forall2; [unfold cpu_value; rewrite <- (Hu sys), <- (Hu user), <- (Hu clock); reflexivity|].
    repeat (constructor; [apply read_u64; apply Hld; in_stores|]). constructor.
Qed.

Definition memory_value (type : list Z) (path : option (list Z)) : value :=
  let mi := w_mem w in
  VStruct [VString (Some type); VString path; VUint64 (u64 (mi_filesize mi)); VUint64 (u64 (mi_pagesize mi));
    VUint64 (u64 (mi_feature0 mi))].

(** The strings of [g_memory_info] are in the program's memory; anonymous memory has
    no path. *)
Definition path_is (qp : ptr) (path : option (list Z)) : Prop :=
  match qp, path with None, None => True | Some q, Some s => ld_string hs q = Ok s ∧ no_nul s | _, _ => False end.

Lemma memory_drv_ok qt type path :
  mi_type (w_mem w) = Some qt → ld_string hs qt = Ok type → no_nul type → path_is (mi_path (w_mem w)) path →
  drv_ok hs (mk_drv (str "memory") priskv_memory_info_obj 40 (priskv_info_get_memory w) None) (memory_value type path).
Proof.
  intros Hqt Hst Hnt Hpath. set (mi := w_mem w) in *. set (qp := mi_path mi) in *.
  assert (∀ q s, ld_string hs q = Ok s → is_Some (hs !! q.1)) as Hin.
  { intros q s Hs. unfold ld_string in Hs. by destruct (hs !! q.1). }
  assert (∀ h q s, hs ⊆ h → ld_string hs q = Ok s → ld_string h q = Ok s) as Hmono.
  { intros h q s Hsub Hs. rewrite <- Hs. apply ld_string_block. destruct (Hin q s Hs) as [bk Hbk]. rewrite Hbk. by eapply lookup_weaken. }
  apply (plain_drv _ _ [(0, enc_ptr (Some qt)); (8, enc_ptr qp); (16, enc_int 8 (mi_filesize mi)); (24, enc_int 8 (mi_pagesize mi));
    (32, enc_int 8 (mi_feature0 mi))]); try done.
  - intros l s. cbn [d_get]. unfold priskv_info_get_memory. fold mi. rewrite Hqt. fold qp. by_stores.
  - cbn [d_size]. repeat (constructor; [cbn [fst snd]; is_word|]). constructor.
  - by destruct qp.
  - cbn. split; [done|]. split; [done|]. split; [destruct qp, path; try done; by apply Hpath|]. repeat (split; [apply u64_range|]). done.
  - vm_compute. lia.
  - repeat (constructor; [done|]). constructor.
  - intros h l Hsub Hld. cbn [d_object]. unfold priskv_memory_info_obj, PRISKV_DECL_OBJECT.
    destruct (read_string h (padd l 0) qt type) as [Hrt Hot]; [apply Hld; in_stores|by apply Hmono|].
    assert (read_value priskv_string_obj h (padd l 8) = Ok (VString path) ∧ ∀ q, q ∈ owned priskv_string_obj h (padd l 8) → is_Some (hs !! q.1)) as [Hrp Hop].
    { assert (ld h (padd l 8) (length (enc_ptr qp)) = Ok (enc_ptr qp)) as Hp by (apply Hld; in_stores). clearbody qp.
      destruct qp as [q|], path as [s|]; try done.
      - destruct Hpath as [Hs _]. destruct (read_string h (padd l 8) q s Hp (Hmono _ _ _ Hsub Hs)) as [Hr Ho]. split; [done|].
        intros q' Hq'. rewrite Ho in Hq'. apply list_elem_of_singleton in Hq' as ->. by eapply Hin.
      - unfold priskv_string_obj. cbn [read_with owned]. rewrite (ld_stored_ptr _ _ None Hp). split; [done|]. intros q Hq. by apply elem_of_nil in Hq. }
    split.
    + cbn [read_with]. erewrite mapR_Forall2; [reflexivity|]. constructor; [exact Hrt|]. constructor; [exact Hrp|].
      repeat (constructor; [apply read_u64; apply Hld; in_stores|]). constructor.
    + intros q Hq. change (q ∈ owned priskv_string_obj h (padd l 0) ++ owned priskv_string_obj h (padd l 8) ++ []) in Hq.
      rewrite Hot in Hq. apply elem_of_app in Hq as [Hq|Hq]; [apply list_elem_of_singleton in Hq as ->; by eapply Hin|].
      rewrite app_nil_r in Hq. by apply Hop.
Qed.
End plain.

(** ** Connections *)

Definition stat (c : priskv_rdma_client) (command : Z) : Z * Z := default (0, 0) (cl_stats c !! Z.to_nat command).

Definition client_value (c : priskv_rdma_client) : value :=
  VStruct [VString (Some (cl_address c)); VBool (cl_closing c);
    VStruct (VUint64 <$> [u64 (stat c PRISKV_COMMAND_GET).1; u64 (stat c PRISKV_COMMAND_GET).2; u64 (stat c PRISKV_COMMAND_SET).1;
      u64 (stat c PRISKV_COMMAND_SET).2; u64 (stat c PRISKV_COMMAND_TEST).1; u64 (stat c PRISKV_COMMAND_DELETE).1;
      u64 (stat c PRISKV_COMMAND_EXPIRE).1; u64 (cl_resps c)])].

Definition listener_value (l : priskv_rdma_listener) : value :=
  VStruct [VString (Some (li_address l)); VArray (client_value <$> li_clients l)].

Definition connection_value (ls : list priskv_rdma_listener) : value := VStruct [VArray (listener_value <$> ls)].

(** Addresses are strings, every command has a counter, and an [int] counts the
    elements of the arrays. *)
Definition client_ok (c : priskv_rdma_client) : Prop :=
  no_nul (cl_address c) ∧ PRISKV_COMMAND_MAX <= Z.of_nat (length (cl_stats c)).

Definition listener_ok (l : priskv_rdma_listener) : Prop :=
  no_nul (li_address l) ∧ Z.of_nat (length (li_clients l)) < 2 ^ 31 ∧ Forall client_ok (li_clients l).

Definition listeners_ok (ls : list priskv_rdma_listener) : Prop := Z.of_nat (length ls) < 2 ^ 31 ∧ Forall listener_ok ls.

Lemma stat_run c command s : client_ok c → 0 <= command < PRISKV_COMMAND_MAX → stat_of c command s = Ok (stat c command, s).
Proof.
  intros [_ Hok] Hc. unfold stat_of, lift, rd, stat. rewrite (proj2 (Z.leb_le _ _)) by lia.
  destruct (lookup_lt_is_Some_2 (cl_stats c) (Z.to_nat command)) as [x ->]; [lia|done].
Qed.

Lemma stat_bind {A} c command (f : Z * Z → ST cstate A) s : client_ok c ∧ 0 <= command < PRISKV_COMMAND_MAX →
  (stat_of c command ≫= f) s = f (stat c command) s.
Proof. intros [Hok Hc]. by erewrite bind_run by (by apply stat_run). Qed.

(** A structure of zeros is filled, with one string. *)
Lemma filled_made (o : priskv_object) v str ws h n e l :
  (∀ h', changes h h' n (n + 1) l [(0, o_size o)] → h' !! n = Some (enc_string str) →
     (∀ off bs, (off, bs) ∈ ws (Some (n, 0)) → ld h' (padd l off) (length bs) = Ok bs) →
     read_value o h' l = Ok v ∧ owned o h' l = [(n, 0)]) →
  Forall (λ w, 0 <= w.1 ∧ w.1 + Z.of_nat (length w.2) <= o_size o) (ws (Some (n, 0))) → pairwise_apart (ranges (ws (Some (n, 0)))) = true →
  zeroed h l (o_size o) → fresh_above h n → l.1 < n →
  made l [(0, o_size o)] h n e (λ h, read_value o h l) (λ h, owned o h l) v
    ((p ← strdup avail str; stores (Some l) (ws p)) (CS h n e)).
Proof.
  intros Hread Hws Hap Hz Hf Hl.
  destruct (new_block_changes avail Havail h n e (enc_string str) l [] Hf Hl) as [Hnew Hch1]. set (h1 := <[n := enc_string str]> h) in *.
  destruct (stores_run (ws (Some (n, 0))) h1 (n + 1) e l) as (h2 & Hrun & Hch2 & Hlds); [apply Hch1| |done|].
  { eapply Forall_impl; [exact Hws|]. cbv beta. intros w [? ?]. eapply valid_changes; [exact Hch1|]. apply zeroed_valid; [|lia].
    by apply (zeroed_sub _ _ (o_size o)). }
  pose proof (changes_trans _ _ _ _ _ _ _ _ _ Hch1 Hch2) as Hch. cbn [app] in Hch.
  assert (changes h h2 n (n + 1) l [(0, o_size o)]) as Hch0.
  { eapply changes_within; [exact Hch|]. apply Forall_fmap. exact Hws. }
  assert (h2 !! n = Some (enc_string str)) as Hn.
  { rewrite (ch_old _ _ _ _ _ _ Hch2) by lia. unfold h1. apply lookup_insert_eq. }
  destruct (Hread h2 Hch0 Hn Hlds) as [Hr Ho].
  exists h2, (n + 1). split; [unfold strdup; by erewrite bind_run by exact Hnew|]. split; [done|]. split; [done|].
  split; [rewrite Ho; unfold blocks; by replace (n + 1 - n) with 1 by lia|]. intros a Ha. replace a with n by lia. rewrite Hn. by eexists.
Qed.

Lemma client_made c q j h n e : client_ok c →
  zeroed h (padd (q, 0) (80 * j)) 80 → fresh_above h n → q < n →
  made (padd (q, 0) (80 * j)) [(0, 80)] h n e (λ h, read_value priskv_conn_client_info_obj h (padd (q, 0) (80 * j)))
    (λ h, owned priskv_conn_client_info_obj h (padd (q, 0) (80 * j))) (client_value c) (get_client avail (Some (q, 0)) j c (CS h n e)).
Proof.
  intros Hok Hz Hf Hq. set (l := padd (q, 0) (80 * j)) in *.
  set (ws := λ p, [(0, enc_ptr p); (8, enc_bool (cl_closing c)); (16, enc_int 8 (stat c PRISKV_COMMAND_GET).1);
    (24, enc_int 8 (stat c PRISKV_COMMAND_GET).2); (32, enc_int 8 (stat c PRISKV_COMMAND_SET).1); (40, enc_int 8 (stat c PRISKV_COMMAND_SET).2);
    (56, enc_int 8 (stat c PRISKV_COMMAND_DELETE).1); (48, enc_int 8 (stat c PRISKV_COMMAND_TEST).1);
    (64, enc_int 8 (stat c PRISKV_COMMAND_EXPIRE).1); (72, enc_int 8 (cl_resps c))]).
  replace (get_client avail (Some (q, 0)) j c (CS h n e)) with ((p ← strdup avail (cl_address c); stores (Some l) (ws p)) (CS h n e)).
  - apply (filled_made priskv_conn_client_info_obj (client_value c) (cl_address c) ws); try done.
    + intros h' _ Hn Hld. destruct (read_string h' (padd l 0) (n, 0) (cl_address c)) as [Hr Ho]; [apply Hld; in_stores| |].
      { rewrite (ld_stored_string _ _ _ Hn). f_equal. apply cstr_id, Hok. }
      split; [|by change (owned priskv_string_obj h' (padd l 0) ++ [] = [(n, 0)]); rewrite Ho].
      unfold priskv_conn_client_info_obj, PRISKV_DECL_OBJECT. cbn [read_with]. erewrite mapR_Forall2; [reflexivity|].
      constructor; [exact Hr|]. constructor; [by apply read_bool; apply Hld; in_stores|]. constructor; [|constructor].
      unfold priskv_conn_client_stats_info_obj, PRISKV_DECL_OBJECT, read_field_with.
      cbn [f_type f_obj f_offset PRISKV_DECL_OBJECT_VALUE_FIELD read_with]. erewrite mapR_Forall2; [reflexivity|].
      repeat (constructor; [unfold read_field_with; cbn [f_type f_obj f_offset PRISKV_DECL_OBJECT_VALUE_FIELD]; rewrite padd_padd;
        apply read_u64; apply Hld; in_stores|]). constructor.
    + change (o_size _) with 80. repeat (constructor; [cbn [fst snd]; unfold enc_bool; is_word|]). constructor.
  - unfold get_client. apply bind_ext. intros p s. cbn [stores ws]. change (pplus (Some (q, 0)) (80 * j)) with (Some l).
    rewrite !pplus_pplus, pplus_0.
    repeat first [rewrite stat_bind by (split; done || exact Hok)|apply bind_tt|apply bind_ext; intros _ ?].
Qed.

Notation clients_field := (PRISKV_DECL_OBJECT_ARRAY_FIELD "clients" 8 16 priskv_conn_client_info_obj required forced).
Notation listeners_field := (PRISKV_DECL_OBJECT_ARRAY_FIELD "listeners" 0 8 priskv_conn_listener_info_obj required forced).

Lemma listener_made li q i h n e : listener_ok li →
  zeroed h (padd (q, 0) (24 * i)) 24 → fresh_above h n → q < n →
  made (padd (q, 0) (24 * i)) [(0, 24)] h n e (λ h, read_value priskv_conn_listener_info_obj h (padd (q, 0) (24 * i)))
    (λ h, owned priskv_conn_listener_info_obj h (padd (q, 0) (24 * i))) (listener_value li) (get_listener avail (Some (q, 0)) i li (CS h n e)).
Proof.
  intros (Haddr & Hlen & Hcl) Hz Hf Hq. set (l := padd (q, 0) (24 * i)) in *. set (len := Z.of_nat (length (li_clients li))) in *.
  set (m1 := (p ← strdup avail (li_address li); stores (Some l) [(0, enc_ptr p)])).
  set (m2 := (_ ← store (Some (padd l 16)) (enc_int 4 len); p ← calloc avail len 80; _ ← store (Some (padd l 8)) (enc_ptr p);
    for_each (get_client avail p) (li_clients li) 0)).
  destruct (made_seq l [(0, 8)] [(8, 8); (16, 8)] h n e (λ h, read_value priskv_string_obj h l) (λ h, owned priskv_string_obj h l)
    (VString (Some (li_address li))) (λ h, read_field (read_value priskv_conn_client_info_obj) clients_field h l)
    (λ h, owned_field (owned priskv_conn_client_info_obj) clients_field h l) (VArray (client_value <$> li_clients li)) m1 m2)
    as (h' & n' & Hrun & Hch & Hr & Ho & Hl).
  - done.
  - apply (filled_made priskv_string_obj _ _ (λ p, [(0, enc_ptr p)])); [|by repeat constructor|done| |done|done].
    + intros h' _ Hn Hld. rewrite <- (padd_0 l). apply read_string; [apply Hld; in_stores|].
      rewrite (ld_stored_string _ _ _ Hn). f_equal. by apply cstr_id.
    + rewrite <- (padd_0 l). by apply (zeroed_sub _ _ _ 0 8 Hz).
  - by apply framed_value.
  - intros r r' Hr Hr'. apply list_elem_of_singleton in Hr as ->.
    apply elem_of_cons in Hr' as [->|Hr']; [done|]. by apply list_elem_of_singleton in Hr' as ->.
  - intros h1 n1 Hch1. unfold m2.
    apply (array_field_made priskv_conn_client_info_obj client_value eq_refl clients_field (get_client avail)); try done.
    + eapply zeroed_all_changes; [exact Hch1| |].
      * intros r r' Hr Hr'. apply list_elem_of_singleton in Hr as ->.
        apply elem_of_cons in Hr' as [->|Hr']; [done|]. by apply list_elem_of_singleton in Hr' as ->.
      * intros r Hr. apply elem_of_cons in Hr as [->|Hr]; [by apply (zeroed_sub _ _ _ 8 8 Hz)|].
        apply list_elem_of_singleton in Hr as ->. by apply (zeroed_sub _ _ _ 16 8 Hz).
    + apply Hch1.
    + pose proof (ch_next _ _ _ _ _ _ Hch1). cbn. lia.
    + intros a j x h2 n2 e2 Hx Hz2 Hf2 Ha. rewrite Forall_forall in Hcl. by apply client_made; [apply Hcl|..].
  - apply bind_Ok in Hr as (x & Hx & Hr). apply bind_Ok in Hr as (y & Hy & [= -> ->]).
    exists h', n'. split; [|split; [|split; [|split; [|done]]]].
    + rewrite <- Hrun. unfold get_listener, m1, m2. change (pplus (Some (q, 0)) (24 * i)) with (Some l). cbn [stores]. rewrite pplus_0.
      rewrite bind_assoc. apply bind_ext. intros p s. rewrite bind_assoc. by apply bind_ext.
    + eapply changes_within; [exact Hch|]. repeat constructor; cbn; lia.
    + change (read_value priskv_conn_listener_info_obj h' l) with
        (vs ← (x ← read_value priskv_string_obj h' (padd l 0);
               xs ← (y ← read_field (read_value priskv_conn_client_info_obj) clients_field h' l; ys ← Ok []; Ok (y :: ys)); Ok (x :: xs));
         Ok (VStruct vs)). by rewrite padd_0, Hx, Ok_bind, Hy.
    + rewrite <- Ho. change (owned priskv_string_obj h' (padd l 0) ++ owned_field (owned priskv_conn_client_info_obj) clients_field h' l ++ []
        = owned priskv_string_obj h' l ++ owned_field (owned priskv_conn_client_info_obj) clients_field h' l). by rewrite padd_0, app_nil_r.
Qed.

(** ** Freeing *)

Lemma for_indices_all (body : Z → ST cstate unit) js : ∀ s,
  (_ ← for_indices body js; mret 0) s = for_all (λ j, _ ← body j; mret 0) js s.
Proof.
  induction js as [|j js IH]; intros s; [done|]. cbn [for_indices for_all].
  unfold mbind, ST_bind, mret, ST_ret. destruct (body j s) as [[[] s']|]; [|done]. cbn [Z.ltb Z.compare]. apply IH.
Qed.

Lemma mapR_inv {A B} (f : A → res B) l : ∀ vs, mapR f l = Ok vs → Forall2 (λ x v, f x = Ok v) l vs.
Proof.
  induction l as [|x l IH]; intros vs Hl; cbn in Hl; [injection Hl as <-; constructor|].
  apply bind_Ok in Hl as (v & Hv & Hl). apply bind_Ok in Hl as (vs' & Hvs & [= <-]). constructor; [done|by apply IH].
Qed.

(** The pointers of [len] elements at [q]. *)
Notation els o q len h := (mjoin ((λ j, owned o h (padd q (o_size o * j))) <$> seqZ 0 len)).

(** A loop that frees what every element owns. *)
Lemma free_elements o (P : value → bool) body q len h n e (K : list Z) vs :
  layout_ok o = true → q.1 ∈ K →
  (∀ j h1 n1 e1 v, (∀ b, b ∈ K → h1 !! b = h !! b) → P v = true → read_value o h1 (padd q (o_size o * j)) = Ok v →
     cleanable (λ h, read_value o h (padd q (o_size o * j))) (λ h, owned o h (padd q (o_size o * j))) K h1 →
     body j (CS h1 n1 e1) = Ok (tt, CS (without (owned o h1 (padd q (o_size o * j))) h1) n1 e1)) →
  mapR (λ j, read_value o h (padd q (o_size o * j))) (seqZ 0 len) = Ok vs → Forall (λ v, P v = true) vs →
  NoDup (els o q len h).*1 → (∀ p, p ∈ els o q len h → (p.2 = 0 ∧ is_Some (h !! p.1)) ∧ p.1 ∉ K) →
  for_indices body (seqZ 0 len) (CS h n e) = Ok (tt, CS (without (els o q len h) h) n e).
Proof.
  intros Hlay Hq Hbody Hvs HP Hnd Hels.
  set (rd j h := v ← read_value o h (padd q (o_size o * j)); if P v then Ok v else Fault OutOfBounds).
  pose proof (clean_loop (λ j, _ ← body j; mret 0) (λ j, [(o_size o * j, o_size o)]) rd (λ j h, owned o h (padd q (o_size o * j)))
    K (λ h1, ∀ b, b ∈ K → h1 !! b = h !! b) q (seqZ 0 len) Hq) as Hloop.
  assert (for_all (λ j, _ ← body j; mret 0) (seqZ 0 len) (CS h n e) = Ok (0, CS (without (els o q len h) h) n e)) as Hrun.
  { apply Hloop; clear Hloop.
    - intros j h1 n1 e1 _ HI [[v Hv] ? ? ?]. unfold rd in Hv. apply bind_Ok in Hv as (v' & Hv & HPv). destruct (P v') eqn:HP'; [|done].
      erewrite bind_run; [reflexivity|]. apply (Hbody j h1 n1 e1 v'); [done..|]. split; [by eexists|done..].
    - intros j _ h1 h2 Ha Hown. destruct (framed_value o Hlay (padd q (o_size o * j)) h1 h2) as [Hr Ho]; [|done|].
      + intros r Hr. apply list_elem_of_singleton in Hr as ->. rewrite padd_0. apply (Ha (o_size o * j, o_size o)). left.
      + unfold rd. by rewrite Hr.
    - intros h1 qs Hqs HI b Hb. rewrite lookup_without, decide_False; [by apply HI|].
      intros Hin. apply list_elem_of_fmap in Hin as (p & -> & Hp). by apply (Hqs p).
    - done.
    - split; [|done|intros p Hp; by apply Hels|intros p Hp; by apply Hels]. exists vs. apply mapR_Forall2. apply mapR_inv in Hvs.
      clear -Hvs HP. induction Hvs as [|j v js vs Hv _ IH]; [constructor|]. apply Forall_cons in HP as [HPv HP].
      constructor; [|by apply IH]. unfold rd. by rewrite Hv, Ok_bind, HPv. }
  rewrite <- for_indices_all in Hrun. apply bind_inv in Hrun as ([] & s' & Hrun & Heq). injection Heq as ->. done.
Qed.

(** An array of a structure, as its parts. *)
Lemma array_parts o f h l K vs :
  f_type f = priskv_obj_field_type_array → f_obj f = o → Z.of_nat (length vs) < 2 ^ 31 →
  read_field (read_value o) f h l = Ok (VArray vs) →
  cleanable (λ h, read_field (read_value o) f h l) (λ h, owned_field (owned o) f h l) K h →
  let len := Z.of_nat (length vs) in
  ∃ q, ld_int h (padd l (f_noffset f)) = Ok len ∧ ld_ptr h (padd l (f_offset f)) = Ok q ∧
    match q with
    | None => len = 0 ∧ owned_field (owned o) f h l = []
    | Some q =>
        owned_field (owned o) f h l = q :: els o q len h ∧ q.2 = 0 ∧ is_Some (h !! q.1) ∧ q.1 ∉ K ∧
        mapR (λ j, read_value o h (padd q (o_size o * j))) (seqZ 0 len) = Ok vs ∧
        NoDup (els o q len h).*1 ∧ (∀ p, p ∈ els o q len h → (p.2 = 0 ∧ is_Some (h !! p.1)) ∧ p.1 ∉ q.1 :: K)
    end.
Proof.
  intros Hty Hobj Hlen Hr [_ Hnd Hst Hk] len. subst o. unfold read_field_with, owned_field in *. rewrite Hty in *.
  apply bind_Ok in Hr as (k & Hcount & Hr). apply bind_Ok in Hr as (q & Hq & Hr). apply bind_Ok in Hr as (vs' & Hvs & [= ->]).
  rewrite Hcount, Hq in *. pose proof (ld_u64_range _ _ _ Hcount) as Hpos. set (o := f_obj f) in *.
  assert (k = len) as ->.
  { apply mapR_inv, Forall2_length in Hvs. unfold element_ptrs in Hvs. rewrite length_fmap, length_seqZ in Hvs. unfold len. lia. }
  exists q. split; [apply ld_int_u64; [done|unfold len; lia]|]. split; [done|]. unfold element_ptrs in *. destruct q as [q|].
  - rewrite mapR_fmap in Hvs. rewrite <- list_fmap_compose in *. cbn [block_of app] in *.
    change (NoDup (q.1 :: (els o q len h).*1)) in Hnd. apply NoDup_cons in Hnd as [Hq1 Hnd].
    destruct (Hst q) as [Hq0 Hlive]; [left|]. split; [done|]. split; [done|]. split; [done|]. split; [apply Hk; left|].
    split; [exact Hvs|]. split; [exact Hnd|]. intros p Hp. split; [apply Hst; by right|]. apply not_elem_of_cons. split; [|apply Hk; by right].
    intros Heq. apply Hq1. rewrite <- Heq. by apply list_elem_of_fmap_2.
  - destruct (decide (0 < len)); [exfalso; by rewrite (seqZ_cons 0) in Hvs by lia|]. unfold len in *.
    split; [lia|]. by rewrite seqZ_nil by lia.
Qed.

(** The elements, then the array. *)
Lemma free_array o f (P : value → bool) body h n e l K vs :
  layout_ok o = true → l.1 ∈ K → f_type f = priskv_obj_field_type_array → f_obj f = o → Z.of_nat (length vs) < 2 ^ 31 →
  (∀ q j h1 n1 e1 v, ld_ptr h (padd l (f_offset f)) = Ok (Some q) → (∀ b, b ∈ q.1 :: K → h1 !! b = h !! b) → P v = true →
     read_value o h1 (padd q (o_size o * j)) = Ok v →
     cleanable (λ h, read_value o h (padd q (o_size o * j))) (λ h, owned o h (padd q (o_size o * j))) (q.1 :: K) h1 →
     body j (CS h1 n1 e1) = Ok (tt, CS (without (owned o h1 (padd q (o_size o * j))) h1) n1 e1)) →
  read_field (read_value o) f h l = Ok (VArray vs) → Forall (λ v, P v = true) vs →
  cleanable (λ h, read_field (read_value o) f h l) (λ h, owned_field (owned o) f h l) K h →
  (len ← load ld_int (Some (padd l (f_noffset f))); _ ← for_indices body (seqZ 0 len);
   base ← load ld_ptr (Some (padd l (f_offset f))); free base) (CS h n e)
  = Ok (tt, CS (without (owned_field (owned o) f h l) h) n e).
Proof.
  intros Hlay Hl Hty Hobj Hlen Hbody Hr HP Hc.
  destruct (array_parts o f h l K vs Hty Hobj Hlen Hr Hc) as (q & Hcount & Hq & Hcase).
  erewrite bind_run by (apply load_run; exact Hcount). destruct q as [q|].
  2:{ destruct Hcase as [Hlen0 ->]. rewrite Hlen0. cbn [seqZ]. erewrite bind_run by reflexivity. by erewrite bind_run by (apply load_run; exact Hq). }
  destruct Hcase as (-> & Hq0 & Hlive & Hqk & Hvs & Hnd & Hels).
  erewrite bind_run.
  2:{ apply (free_elements o P body q _ h n e (q.1 :: K) vs); [done|left| |done..]. intros j h1 n1 e1 v. by apply Hbody. }
  set (h1 := without _ h).
  assert (∀ b, b ∈ q.1 :: K → h1 !! b = h !! b) as Hkeep.
  { intros b Hb. unfold h1. rewrite lookup_without, decide_False; [done|]. intros Hin. apply list_elem_of_fmap in Hin as (p & -> & Hp).
    by apply (Hels p Hp). }
  erewrite bind_run.
  2:{ apply load_run. cbn [c_heap]. rewrite <- Hq. unfold ld_ptr. rewrite (ld_block h h1); [reflexivity|]. cbn. apply Hkeep. by right. }
  rewrite (free_start q); [|done|rewrite Hkeep by left; done]. done.
Qed.

(** What a structure owns in two parts is freed one after the other. *)
Lemma cleanable_seq {A B} (r1 : heap → res A) o1 (r2 : heap → res B) o2 l F K h v2 :
  cleanable r1 o1 K h → r2 h = Ok v2 → NoDup (o1 h ++ o2 h).*1 → (∀ q, q ∈ o2 h → (q.2 = 0 ∧ is_Some (h !! q.1)) ∧ q.1 ∉ K) →
  l.1 ∈ K → framed r2 o2 l F →
  let h1 := without (o1 h) h in
  (∀ b, b ∈ K → h1 !! b = h !! b) ∧ r2 h1 = Ok v2 ∧ o2 h1 = o2 h ∧ cleanable r2 o2 K h1.
Proof.
  intros [_ Hnd1 Hst1 Hk1] Hr2 Hnd Ho2 Hl Hfr h1. rewrite fmap_app in Hnd. apply NoDup_app in Hnd as (_ & Hdis & Hnd2).
  assert (∀ a, a ∉ (o1 h).*1 → h1 !! a = h !! a) as Hsame by (intros a Ha; unfold h1; by rewrite lookup_without, decide_False).
  assert (∀ b, b ∈ K → h1 !! b = h !! b) as Hkeep.
  { intros b Hb. apply Hsame. intros Hin. apply list_elem_of_fmap in Hin as (p & -> & Hp). by apply (Hk1 p). }
  assert (∀ q, q ∈ o2 h → h1 !! q.1 = h !! q.1) as Hown.
  { intros q Hq. apply Hsame. intros Hin. apply (Hdis q.1 Hin). by apply list_elem_of_fmap_2. }
  destruct (Hfr h h1) as [Hr Ho]; [|done|].
  { intros r _. apply agree_block. cbn. by apply Hkeep. }
  split; [done|]. rewrite Hr, Ho. split; [done|]. split; [done|]. split; [rewrite Hr; by eexists|by rewrite Ho| |]; intros q Hq; rewrite Ho in Hq.
  - rewrite Hown by done. apply Ho2, Hq.
  - apply Ho2, Hq.
Qed.

(** The string of a structure. *)
Lemma free_string h n e l K : cleanable (λ h, read_value priskv_string_obj h l) (λ h, owned priskv_string_obj h l) K h →
  (p ← load ld_ptr (Some l); free p) (CS h n e) = Ok (tt, CS (without (owned priskv_string_obj h l) h) n e).
Proof.
  intros [[v Hr] _ Hst _]. unfold priskv_string_obj in *. cbn [read_with owned] in *. apply bind_Ok in Hr as (q & Hq & _). rewrite Hq in *.
  erewrite bind_run by (apply load_run; exact Hq). destruct q as [q|]; [|done]. destruct (Hst q) as [? ?]; [left|]. by apply free_start.
Qed.

Lemma free_client_run (q0 q : loc) i j h n e K :
  ld_ptr h (padd q0 (24 * i + 8)) = Ok (Some q) →
  cleanable (λ h, read_value priskv_conn_client_info_obj h (padd q (80 * j))) (λ h, owned priskv_conn_client_info_obj h (padd q (80 * j))) K h →
  free_client (Some q0) i j (CS h n e) = Ok (tt, CS (without (owned priskv_conn_client_info_obj h (padd q (80 * j))) h) n e).
Proof.
  intros Hq [[v Hr] Hnd Hst Hk]. set (l := padd q (80 * j)) in *.
  assert (owned priskv_conn_client_info_obj h l = owned priskv_string_obj h l) as Ho.
  { change (owned priskv_string_obj h (padd l 0) ++ [] = owned priskv_string_obj h l). by rewrite padd_0, app_nil_r. }
  rewrite Ho in *. unfold free_client. erewrite bind_run by (apply load_run; exact Hq).
  apply (free_string _ _ _ _ K). split; [|done..].
  unfold priskv_conn_client_info_obj, PRISKV_DECL_OBJECT in Hr. cbn [read_with mapR] in Hr. apply bind_Ok in Hr as (vs & Hr & _).
  apply bind_Ok in Hr as (v1 & Hr & _). exists v1. rewrite <- Hr. change (read_value priskv_string_obj h l = read_value priskv_string_obj h (padd l 0)).
  by rewrite padd_0.
Qed.

(** A listener of which an [int] counts the clients. *)
Definition few_clients (v : value) : bool :=
  match v with VStruct [_; VArray vs] => Z.of_nat (length vs) <? 2 ^ 31 | _ => false end.

Lemma free_listener_run (data q : loc) i h n e K v :
  ld_ptr h data = Ok (Some q) → q.1 ∈ K → few_clients v = true →
  read_value priskv_conn_listener_info_obj h (padd q (24 * i)) = Ok v →
  cleanable (λ h, read_value priskv_conn_listener_info_obj h (padd q (24 * i))) (λ h, owned priskv_conn_listener_info_obj h (padd q (24 * i))) K h →
  free_listener (Some data) i (CS h n e) = Ok (tt, CS (without (owned priskv_conn_listener_info_obj h (padd q (24 * i))) h) n e).
Proof.
  intros Hq Hqk Hv Hr [_ Hnd Hst Hk]. set (l := padd q (24 * i)) in *.
  set (o2 := λ h, owned_field (owned priskv_conn_client_info_obj) clients_field h l).
  set (r2 := λ h, read_field (read_value priskv_conn_client_info_obj) clients_field h l).
  assert (∀ h, owned priskv_conn_listener_info_obj h l = owned priskv_string_obj h l ++ o2 h) as Ho.
  { intros h'. change (owned priskv_string_obj h' (padd l 0) ++ o2 h' ++ [] = owned priskv_string_obj h' l ++ o2 h'). by rewrite padd_0, app_nil_r. }
  change (read_value priskv_conn_listener_info_obj h l) with
    (vs ← (x ← read_value priskv_string_obj h (padd l 0); xs ← (y ← r2 h; ys ← Ok []; Ok (y :: ys)); Ok (x :: xs)); Ok (VStruct vs)) in Hr.
  rewrite padd_0 in Hr. apply bind_Ok in Hr as (vs & Hr & [= <-]). apply bind_Ok in Hr as (v1 & Hr1 & Hr). apply bind_Ok in Hr as (vs' & Hr & [= <-]).
  apply bind_Ok in Hr as (v2 & Hr2 & [= <-]). cbn in Hv. destruct v2 as [| | | | |cs]; try done. apply Z.ltb_lt in Hv.
  rewrite Ho in *.
  assert (cleanable (λ h, read_value priskv_string_obj h l) (λ h, owned priskv_string_obj h l) K h) as Hc1.
  { rewrite fmap_app in Hnd. apply NoDup_app in Hnd as (Hnd & _). split; [by eexists|done| |]; intros p Hp; [apply Hst|apply Hk]; apply elem_of_app; by left. }
  destruct (cleanable_seq _ _ r2 o2 l (footprint clients_field) K h _ Hc1 Hr2 Hnd) as (Hkeep & Hr2' & Ho2 & Hc2).
  { intros p Hp. split; [apply Hst|apply Hk]; apply elem_of_app; by right. }
  { done. }
  { apply (framed_field clients_field); [done|]. by apply framed_value. }
  set (h1 := without (owned priskv_string_obj h l) h) in *.
  unfold free_listener. erewrite bind_run by (apply load_run; exact Hq). change (pplus (Some q) (24 * i)) with (Some l).
  rewrite <- (bind_assoc (load ld_ptr (Some l)) free (λ _, _)). erewrite bind_run by (by eapply free_string). fold h1.
  cbn [pplus mbind option_bind]. replace (padd q (24 * i + 16)) with (padd l 16) by (by apply padd_padd).
  replace (padd q (24 * i + 8)) with (padd l 8) by (by apply padd_padd).
  rewrite <- without_app, <- Ho2. fold h1.
  apply (free_array priskv_conn_client_info_obj clients_field (λ _, true) (free_client (Some q) i) h1 n e l K cs); try done.
  - intros q1 j h2 n2 e2 v2 Hq1 Hb _ _ Hc. eapply free_client_run; [|exact Hc].
    rewrite <- Hq1. unfold ld_ptr. cbn [f_offset PRISKV_DECL_OBJECT_ARRAY_FIELD]. rewrite (ld_block h1 h2); [by unfold l; rewrite padd_padd|].
    cbn. apply Hb. by right.
  - by apply Forall_true.
Qed.

Lemma connection_typed ls : listeners_ok ls → typed priskv_connection_info_obj (connection_value ls).
Proof.
  intros [Hlen Hok]. apply typed_struct. eexists. split; [done|]. split; [done|]. split; [|done].
  split; [by rewrite length_fmap|]. apply Forall_fmap. eapply Forall_impl; [exact Hok|]. intros l (Haddr & Hcl & Hcs).
  apply typed_struct. eexists. split; [done|]. split; [done|]. split; [exact Haddr|]. split; [|done].
  split; [by rewrite length_fmap|]. apply Forall_fmap. eapply Forall_impl; [exact Hcs|]. intros c [Hc _].
  cbn. split; [done|]. split; [exact Hc|]. split; [done|]. split; [|done]. split; [done|]. repeat (split; [apply u64_range|]). done.
Qed.

Section owners.
Context (hs : heap) (w : world).

Lemma connection_drv_ok : listeners_ok (w_listeners w) →
  drv_ok hs (mk_drv (str "connection") priskv_connection_info_obj 16 (priskv_info_get_connection avail w) (Some priskv_info_free_connection))
    (connection_value (w_listeners w)).
Proof.
  set (ls := w_listeners w). intros Hls. split; cbn [d_object d_size d_name d_get d_free]; try done.
  - by apply connection_typed.
  - vm_compute. lia.
  - repeat (constructor; [done|]). constructor.
  - intros h n e Hf Hhs. set (h0 := <[n := _]> h).
    destruct (array_field_made priskv_conn_listener_info_obj listener_value eq_refl listeners_field (get_listener avail) ls h0 (n + 1) e (n, 0))
      as (h' & n' & Hrun & Hch & Hr & Ho & Hl); try done.
    { apply Hls. }
    { assert (zeroed h0 (n, 0) 16) as Hz by apply (zeroed_fresh h n 16). intros r Hr.
      apply elem_of_cons in Hr as [->|Hr]; [by apply (zeroed_sub _ _ _ 0 8 Hz)|].
      apply list_elem_of_singleton in Hr as ->. by apply (zeroed_sub _ _ _ 8 8 Hz). }
    { by apply fresh_insert. }
    { cbn. lia. }
    { intros q j x h2 n2 e2 Hx Hz2 Hf2 Hq. apply listener_made; try done. destruct Hls as [_ Hls]. rewrite Forall_forall in Hls. by apply Hls. }
    pose proof (ch_next _ _ _ _ _ _ Hch). pose proof (ch_len _ _ _ _ _ _ Hch) as Hlen. cbn in Hlen. unfold h0 in Hlen. rewrite lookup_insert_eq in Hlen.
    destruct (h' !! n) as [bk|] eqn:Hbk; [|done]. injection Hlen as Hlen.
    exists h', n', bk. split; [|split; [lia|split; [apply Hch|split; [|split; [intros a Ha; apply Hl; lia|split; [done|split; [|split]]]]]]].
    + rewrite <- Hrun. unfold priskv_info_get_connection. cbn [pplus mbind option_bind]. fold ls.
      apply bind_ext. intros _ s. apply bind_ext. intros p s'. cbn [f_offset PRISKV_DECL_OBJECT_ARRAY_FIELD]. by rewrite padd_0.
    + intros a Ha. rewrite (ch_old _ _ _ _ _ _ Hch) by (cbn; lia). unfold h0. by rewrite lookup_insert_ne by lia.
    + by rewrite Hlen.
    + change (read_value priskv_connection_info_obj h' (n, 0)) with
        (vs ← (y ← read_field (read_value priskv_conn_listener_info_obj) listeners_field h' (n, 0); ys ← Ok []; Ok (y :: ys)); Ok (VStruct vs)).
      by rewrite Hr.
    + rewrite <- Ho. change (owned_field (owned priskv_conn_listener_info_obj) listeners_field h' (n, 0) ++ []
        = owned_field (owned priskv_conn_listener_info_obj) listeners_field h' (n, 0)). apply app_nil_r.
  - intros f h n e l [= <-] Hr [_ Hnd Hst Hk].
    change (read_value priskv_connection_info_obj h l) with
      (vs ← (y ← read_field (read_value priskv_conn_listener_info_obj) listeners_field h l; ys ← Ok []; Ok (y :: ys)); Ok (VStruct vs)) in Hr.
    apply bind_Ok in Hr as (vs & Hr & Heq). apply bind_Ok in Hr as (v1 & Hr & [= <-]). injection Heq as ->.
    assert (owned priskv_connection_info_obj h l = owned_field (owned priskv_conn_listener_info_obj) listeners_field h l) as Ho
      by (change (owned_field (owned priskv_conn_listener_info_obj) listeners_field h l ++ []
        = owned_field (owned priskv_conn_listener_info_obj) listeners_field h l); apply app_nil_r).
    rewrite Ho in *. rewrite <- (free_array priskv_conn_listener_info_obj listeners_field few_clients (free_listener (Some l)) h n e l [l.1] (listener_value <$> ls)).
    + unfold priskv_info_free_connection. cbn [pplus mbind option_bind f_noffset f_offset PRISKV_DECL_OBJECT_ARRAY_FIELD]. by rewrite padd_0.
    + done.
    + left.
    + done.
    + done.
    + rewrite length_fmap. apply Hls.
    + intros q j h1 n1 e1 v Hq Hb Hfew Hv Hc. apply (free_listener_run l q j h1 n1 e1 (q.1 :: [l.1]) v); [|left|done..].
      cbn [f_offset PRISKV_DECL_OBJECT_ARRAY_FIELD] in Hq. rewrite padd_0 in Hq. rewrite <- Hq. unfold ld_ptr. rewrite (ld_block h h1); [done|].
      apply Hb. right. left.
    + done.
    + apply Forall_fmap. destruct Hls as [_ Hls]. eapply Forall_impl; [exact Hls|]. intros x (_ & Hx & _). cbn. rewrite length_fmap. by apply Z.ltb_lt.
    + split; [by eexists|done|done|done].
Qed.

Notation rules_field := (PRISKV_DECL_OBJECT_ARRAY_FIELD "rules" 0 8 priskv_string_obj required forced).

Lemma mjoin_singletons {A B} (f : A → list B) g (xs : list A) : (∀ x, x ∈ xs → f x = [g x]) → mjoin (f <$> xs) = g <$> xs.
Proof.
  induction xs as [|x xs IH]; intros Hf; [done|]. change (f x ++ mjoin (f <$> xs) = g x :: (g <$> xs)).
  rewrite Hf, IH; [done| |left]. intros y Hy. apply Hf. by right.
Qed.

Lemma free_rules_indices rules js : ∀ s,
  free_rules rules js s = for_indices (λ i, p ← load ld_ptr (pplus rules (8 * i)); free p) js s.
Proof.
  induction js as [|j js IH]; intros s; [done|]. cbn [free_rules for_indices]. rewrite bind_assoc. apply bind_ext. intros p s'.
  apply bind_ext. intros _ s2. apply IH.
Qed.

Lemma acl_drv_ok : listable (w_acl w) →
  drv_ok hs (mk_drv (str "acl") priskv_acl_info_obj 16 (priskv_info_get_acl avail w) (Some priskv_info_free_acl)) (listing (w_acl w)).
Proof.
  set (l := w_acl w). intros Hl. split; cbn [d_object d_size d_name d_get d_free]; try done.
  - by apply listing_typed; apply Hl.
  - vm_compute. lia.
  - repeat (constructor; [done|]). constructor.
  - intros h n e Hf _. set (zs := replicate _ _).
    destruct (acl_info_made avail Havail h n e l zs Hf Hl) as (h' & Hrun & Hf' & Hold & Hn & Hn1 & Hc & Hz & Hq & Hels); [done|].
    set (n' := n + 2 + Z.of_nat (length l)) in *.
    assert (ld_u64 h' (n, 8) = Ok (Z.of_nat (length l))) as Hcount by (apply ld_u64_int; [destruct Hl; lia|done|exact Hz]).
    destruct Hn as (bk & Hbk & Hlen).
    exists h', n', bk. split; [|split; [unfold n'; lia|split; [done|split; [done|split; [|split; [done|split; [|split]]]]]]].
    + unfold priskv_info_get_acl. fold l. cbn [pplus mbind option_bind] in *. apply bind_inv in Hrun as (r & s & Hr & Hrun).
      apply bind_inv in Hrun as ([] & s' & Hs & Heq). injection Heq as -> ->. by erewrite bind_run by exact Hr.
    + intros a Ha. destruct (decide (a = n + 1)) as [->|Hne]; [done|]. unfold n' in Ha.
      destruct (lookup_lt_is_Some_2 l (Z.to_nat (a - (n + 2)))) as [acl Hacl]; [lia|]. destruct (Hels _ _ Hacl) as [_ Hs].
      rewrite Z2Nat.id in Hs by lia. replace (n + 2 + (a - (n + 2))) with a in Hs by lia. rewrite Hs. by eexists.
    + by rewrite Hlen.
    + by apply (rules_read _ h' n (n + 1) (n + 2)); [apply Hl|..].
    + transitivity (owned_field (owned priskv_string_obj) rules_field h' (n, 0)); [apply app_nil_r|]. unfold owned_field.
      cbn [f_type f_noffset f_offset f_obj PRISKV_DECL_OBJECT_ARRAY_FIELD]. rewrite padd_0. change (padd (n, 0) 8) with (n, 8). rewrite Hcount, Hq.
      replace (blocks (n + 1) n') with ((n + 1, 0) :: blocks (n + 2) n').
      2:{ unfold blocks. rewrite (seqZ_cons (n + 1)) by (unfold n'; lia). csimpl. f_equal. f_equal. f_equal; lia. }
      cbn [block_of app]. f_equal. unfold element_ptrs. rewrite <- list_fmap_compose. unfold blocks.
      replace (n' - (n + 2)) with (Z.of_nat (length l)) by (unfold n'; lia).
      rewrite <- (Z.add_0_r (n + 2)), <- fmap_add_seqZ, <- list_fmap_compose.
      apply mjoin_singletons. intros j Hj. apply elem_of_seqZ in Hj.
      destruct (lookup_lt_is_Some_2 l (Z.to_nat j)) as [acl Hacl]; [lia|]. destruct (Hels _ _ Hacl) as [Hp _].
      rewrite Z2Nat.id in Hp by lia. cbn. change (block_of (ld_ptr h' (n + 1, 8 * j)) = [(n + 2 + j, 0)]). by rewrite Hp.
  - intros f h n e b [= <-] Hr [_ Hnd Hst Hk].
    change (read_value priskv_acl_info_obj h b) with
      (vs ← (y ← read_field (read_value priskv_string_obj) rules_field h b; ys ← Ok []; Ok (y :: ys)); Ok (VStruct vs)) in Hr.
    apply bind_Ok in Hr as (vs & Hr & Heq). apply bind_Ok in Hr as (v1 & Hr & [= <-]). injection Heq as ->.
    assert (owned priskv_acl_info_obj h b = owned_field (owned priskv_string_obj) rules_field h b) as Ho
      by (change (owned_field (owned priskv_string_obj) rules_field h b ++ [] = owned_field (owned priskv_string_obj) rules_field h b); apply app_nil_r).
    rewrite Ho in *. destruct (array_parts priskv_string_obj rules_field h b [b.1] ((λ r, VString (Some r)) <$> (acl_rule <$> l)) eq_refl eq_refl) as (q & Hc & Hq & Hcase).
    { rewrite !length_fmap. apply Hl. }
    { done. }
    { split; [by eexists|done..]. }
    cbn [f_offset f_noffset PRISKV_DECL_OBJECT_ARRAY_FIELD] in Hc, Hq. rewrite padd_0 in Hq.
    unfold priskv_info_free_acl. erewrite bind_run by (apply load_run; exact Hq). cbn [pplus mbind option_bind]. erewrite bind_run by (apply load_run; exact Hc).
    unfold priskv_acl_free_rules. destruct q as [q|].
    2:{ destruct Hcase as [-> ->]. done. }
    destruct Hcase as (-> & Hq0 & Hlive & Hqk & Hvs & Hnd' & Hels).
    erewrite bind_run.
    2:{ rewrite free_rules_indices. apply (free_elements priskv_string_obj (λ _, true) _ q _ h n e (q.1 :: [b.1]) ((λ r, VString (Some r)) <$> (acl_rule <$> l))); [done|left| |exact Hvs|by apply Forall_true|done|done].
        intros j h1 n1 e1 v _ _ _ Hcl. by apply (free_string _ _ _ _ (q.1 :: [b.1])). }
    rewrite (free_start q); [done|done|]. rewrite lookup_without, decide_False; [done|]. intros Hin.
    apply list_elem_of_fmap in Hin as (p & Heq & Hp). destruct (Hels p Hp) as [_ Hnk]. apply Hnk. rewrite <- Heq. left.
Qed.

(** ** What is reported *)

Definition u64_member (name : string) (z : Z) : list Z * jtree := (str name, JInt (u64 z)).

Definition kv_json (kv : kv_state) : jtree :=
  JObject [u64_member "bucket_count" (priskv_get_bucket_count kv); u64_member "keys_inuse" (priskv_get_keys_inuse kv);
    u64_member "keys_max" (priskv_get_max_keys kv); u64_member "key_max_length" (priskv_get_max_key_length kv);
    u64_member "value_block_size" (priskv_get_value_block_size kv); u64_member "value_blocks" (priskv_get_value_blocks kv);
    u64_member "value_blocks_inuse" (priskv_get_value_blocks_inuse kv);
    u64_member "expire_routine_times" (priskv_get_expire_routine_times kv);
    u64_member "expire_kv_count" (priskv_get_expire_kv_count kv); u64_member "expire_kv_bytes" (priskv_get_expire_kv_bytes kv)].

(** A number that is zero, or a path that is not there, is left out. *)
Definition nonzero_member (name : string) (z : Z) : list (list Z * jtree) := if u64 z =? 0 then [] else [u64_member name z].

Definition memory_json (mi : priskv_mem_info) (type : list Z) (path : option (list Z)) : jtree :=
  JObject ((str "type", JString type) :: from_option (λ s, [(str "path", JString s)]) [] path ++ nonzero_member "filesize" (mi_filesize mi)
    ++ nonzero_member "pagesize" (mi_pagesize mi) ++ nonzero_member "feature0" (mi_feature0 mi)).

Definition client_json (c : priskv_rdma_client) : jtree :=
  JObject [(str "address", JString (cl_address c)); (str "dying", JBool (cl_closing c));
    (str "stats", JObject [u64_member "get_ops" (stat c PRISKV_COMMAND_GET).1; u64_member "get_bytes" (stat c PRISKV_COMMAND_GET).2;
       u64_member "set_ops" (stat c PRISKV_COMMAND_SET).1; u64_member "set_bytes" (stat c PRISKV_COMMAND_SET).2;
       u64_member "test_ops" (stat c PRISKV_COMMAND_TEST).1; u64_member "delete_ops" (stat c PRISKV_COMMAND_DELETE).1;
       u64_member "expire_ops" (stat c PRISKV_COMMAND_EXPIRE).1; u64_member "resps" (cl_resps c)])].

Definition listener_json (l : priskv_rdma_listener) : jtree :=
  JObject [(str "address", JString (li_address l)); (str "clients", JArray (client_json <$> li_clients l))].

(** An item with its JSON, in a world where it can be reported. *)
Inductive reported : list Z → jtree → Prop :=
  | reported_acl : listable (w_acl w) → reported (str "acl") (JObject [(str "rules", JArray (JString <$> (acl_rule <$> w_acl w)))])
  | reported_memory qt type path :
      mi_type (w_mem w) = Some qt → ld_string hs qt = Ok type → no_nul type → path_is hs (mi_path (w_mem w)) path → reported (str "memory") (memory_json (w_mem w) type path)
  | reported_kv : reported (str "kv") (kv_json (w_kv w))
  | reported_connection : listeners_ok (w_listeners w) →
      reported (str "connection") (JObject [(str "listeners", JArray (listener_json <$> w_listeners w))])
  | reported_cpu r user sys clock : get_process_cpu_time w = (r, Some user, Some sys, Some clock) →
      reported (str "cpu") (JObject [u64_member "used_cpu_sys_ticks" sys; u64_member "used_cpu_user_ticks" user; u64_member "clock_ticks" clock]).

Lemma listener_code l : code_spec priskv_conn_listener_info_obj (listener_value l) = listener_json l.
Proof.
  unfold listener_value, listener_json. cbn -[str client_value]. do 4 f_equal. f_equal. rewrite <- list_fmap_compose. done.
Qed.

(** Its driver keeps the contract. *)
Lemma reported_drv x t : reported x t → ∃ d v,
  filter (λ d, d_name d = x) (g_info_drv avail w) = [d] ∧ d_name d = x ∧ drv_ok hs d v ∧ code_spec (d_object d) v = t.
Proof.
  intros Hx. destruct Hx as [Hl|qt type path Hqt Ht Hnt Hp| |Hl|r user sys clock Hc].
  - eexists _, _. split; [reflexivity|]. split; [done|]. split; [by apply acl_drv_ok|].
    unfold listing. cbn -[str]. do 4 f_equal. by rewrite <- list_fmap_compose.
  - eexists _, _. split; [reflexivity|]. split; [done|]. split; [by eapply memory_drv_ok|]. unfold memory_json.
    rewrite <- (app_nil_r (nonzero_member "feature0" _)). by destruct path.
  - eexists _, _. split; [reflexivity|]. split; [done|]. split; [by apply kv_drv_ok|]. done.
  - eexists _, _. split; [reflexivity|]. split; [done|]. split; [by apply connection_drv_ok|].
    unfold connection_value. change (JObject [(str "listeners", JArray (code_spec priskv_conn_listener_info_obj <$> (listener_value <$> w_listeners w)))]
      = JObject [(str "listeners", JArray (listener_json <$> w_listeners w))]). do 4 f_equal. rewrite <- list_fmap_compose.
    apply list_fmap_ext. intros _ l _. apply listener_code.
  - eexists _, _. split; [reflexivity|]. split; [done|]. split; [by eapply cpu_drv_ok|]. done.
Qed.

(** ** The items asked for *)

(** Names of items: all of them when none is given, or one without a name, or "all". *)
Definition requested (items : list item) (x : list Z) : Prop :=
  if bool_decide (items = []) || priskv_info_items_need_all items
  then x ∈ (str <$> ["acl"; "memory"; "kv"; "connection"; "cpu"])
  else Some x ∈ items.

Definition clear_in (x : list Z) (items : list item) : list item := (λ it, if bool_decide (it = Some x) then None else it) <$> items.

Lemma clear_same_later it items i : clear_same (it :: items) (S i) = it :: clear_same items i.
Proof. unfold clear_same. cbn [lookup list_lookup]. by destruct (items !! i) as [[x|]|]. Qed.

Lemma clear_same_first it items :
  clear_same (it :: items) 0 = match it with Some x => Some x :: clear_in x items | None => None :: items end.
Proof.
  unfold clear_same. cbn [lookup list_lookup]. destruct it as [x|]; [|done]. cbn [imap Nat.ltb Nat.leb andb]. f_equal.
  unfold clear_in, compose. rewrite <- (imap_const (λ it, if bool_decide (it = Some x) then None else it)). apply imap_ext. done.
Qed.

Lemma deduplicate_cons it items :
  priskv_info_items_deduplicate (it :: items)
  = match it with Some x => Some x :: priskv_info_items_deduplicate (clear_in x items) | None => None :: priskv_info_items_deduplicate items end.
Proof.
  unfold priskv_info_items_deduplicate. cbn [length seq foldl]. rewrite clear_same_first.
  assert (∀ ks it l, foldl clear_same (it :: l) (S <$> ks) = it :: foldl clear_same l ks) as Hshift.
  { induction ks as [|i ks IH]; intros it' l; [done|]. csimpl. rewrite clear_same_later. apply IH. }
  rewrite <- fmap_S_seq. destruct it as [x|]; rewrite Hshift; [|done]. unfold clear_in. by rewrite length_fmap.
Qed.

Lemma elem_of_clear x y items : Some y ∈ clear_in x items ↔ Some y ∈ items ∧ y ≠ x.
Proof.
  unfold clear_in. rewrite list_elem_of_fmap. split.
  - intros (it & Heq & Hin). case_bool_decide as Hit; [done|]. subst it. split; [done|]. congruence.
  - intros [Hin Hne]. exists (Some y). split; [|done]. rewrite bool_decide_false by congruence. done.
Qed.

(** Names, each once. *)
Lemma deduplicate_names items :
  NoDup (omap id (priskv_info_items_deduplicate items)) ∧ ∀ x, x ∈ omap id (priskv_info_items_deduplicate items) ↔ Some x ∈ items.
Proof.
  remember (length items) as k eqn:Hk. revert items Hk. induction k as [|k IH]; intros items Hk.
  { destruct items; [|done]. split; [constructor|]. intros x. cbn. split; intros H; by apply elem_of_nil in H. }
  destruct items as [|it items]; [done|]. injection Hk as Hk. rewrite deduplicate_cons. destruct it as [x|].
  - destruct (IH (clear_in x items)) as [Hnd Hin]; [unfold clear_in; by rewrite length_fmap|]. cbn [omap list_omap id]. split.
    + apply NoDup_cons. split; [|done]. rewrite Hin, elem_of_clear. tauto.
    + intros y. rewrite !elem_of_cons, Hin, elem_of_clear. destruct (decide (y = x)) as [->|Hne]; [tauto|].
      split; [naive_solver|]. intros [[= ->]|Hin']; [done|]. by right.
  - destruct (IH items Hk) as [Hnd Hin]. cbn [omap list_omap id]. split; [done|]. intros y. rewrite Hin, elem_of_cons. split; [by right|by intros [|]].
Qed.

(** The items of [priskv_info_json] and their drivers. *)
Definition tidied (items : list item) : list item :=
  match items with [] => priskv_info_items_get_all avail w | _ => priskv_info_items_tidy avail w items end.

Lemma tidied_names items : NoDup (omap id (tidied items)) ∧ ∀ x, x ∈ omap id (tidied items) ↔ requested items x.
Proof.
  assert (omap id (priskv_info_items_get_all avail w) = str <$> ["acl"; "memory"; "kv"; "connection"; "cpu"]) as Hall by done.
  assert (NoDup (str <$> ["acl"; "memory"; "kv"; "connection"; "cpu"])) as Hnd by (by apply (bool_decide_unpack _)).
  unfold tidied, requested, priskv_info_items_tidy. destruct items as [|it items']; [by rewrite Hall|]. set (items := it :: items').
  rewrite bool_decide_false by done. cbn [orb]. destruct (priskv_info_items_need_all items); [by rewrite Hall|]. apply deduplicate_names.
Qed.

Lemma drivers_reported items ts : Forall2 reported (omap id items) ts →
  ∃ vs, Forall2 (drv_ok hs) (drivers_of avail w items) vs ∧ d_name <$> drivers_of avail w items = omap id items ∧
    zip_with (λ d v, (d_name d, code_spec (d_object d) v)) (drivers_of avail w items) vs = zip (omap id items) ts.
Proof.
  revert ts. induction items as [|[x|] items IH]; intros ts Hts.
  - apply Forall2_nil_inv_l in Hts as ->. by exists [].
  - cbn [omap list_omap id] in *. apply Forall2_cons_inv_l in Hts as (t & ts' & Hx & Hts & ->).
    destruct (reported_drv x t Hx) as (d & v & Hf & Hn & Hok & Ht). destruct (IH ts' Hts) as (vs & Hvs & Hns & Hz).
    assert (drivers_of avail w (Some x :: items) = d :: drivers_of avail w items) as ->.
    { unfold drivers_of. cbn [mbind list_bind]. by rewrite Hf. }
    exists (v :: vs). split; [by constructor|]. csimpl. rewrite Hns, Hn, Hz, Ht. done.
  - apply (IH ts Hts).
Qed.
End owners.

(** ** The report *)

Lemma requested_some items : ∃ x, requested items x.
Proof.
  unfold requested. destruct items as [|it items]; [exists (str "acl"); left|]. rewrite bool_decide_false by done. cbn [orb].
  destruct (priskv_info_items_need_all _) eqn:Hall; [exists (str "acl"); left|].
  destruct it as [x|]; [|done]. exists x. left.
Qed.

(** The items that were asked for can be reported. *)
Definition reportable (hs : heap) (w : world) (items : list item) : Prop := ∀ x, requested items x → ∃ t, reported hs w x t.

Lemma info_json_run strerror_errno hs w items h n e :
  fresh_above h n → hs ⊆ h → reportable hs w items →
  ∃ names ts j t n', priskv_info_json avail strerror_errno w (Some items) (CS h n e)
      = Ok (Some (t, 0), CS (<[t := enc_string (json_object_to_json_string j)]> h) n' e) ∧
    NoDup names ∧ (∀ x, x ∈ names ↔ requested items x) ∧ Forall2 (reported hs w) names ts ∧ view j = JObject (zip names ts) ∧
    (jt_plain (view j) ∧ (jt_depth (view j) <= 32)%nat) ∧ n <= t < n'.
Proof.
  intros Hf Hsub Hrep. destruct (tidied_names w items) as [Hnd Hin]. set (names := omap id (tidied w items)) in *.
  assert (∃ ts, Forall2 (reported hs w) names ts) as [ts Hts].
  { assert (∀ x, x ∈ names → ∃ t, reported hs w x t) as Hall by (intros x Hx; by apply Hrep, Hin).
    clear -Hall. induction names as [|x names IH]; [by exists []|]. destruct (Hall x) as [t Ht]; [left|].
    destruct IH as [ts Hts]; [intros y Hy; apply Hall; by right|]. exists (t :: ts). by constructor. }
  destruct (drivers_reported hs w (tidied w items) ts Hts) as (vs & Hvs & Hns & Hz).
  destruct (report_run avail strerror_errno Havail hs h n Hf Hsub _ vs e Hvs) as (j & t & n' & Hrun & Hview & Hplain & Ht).
  { intros Heq. rewrite Heq in Hns. destruct (requested_some items) as [x Hx]. apply Hin in Hx. fold names in Hns. rewrite <- Hns in Hx. by apply elem_of_nil in Hx. }
  { by rewrite Hns. }
  exists names, ts, j, t, n'. split; [exact Hrun|]. split; [done|]. split; [done|]. split; [done|]. split; [by rewrite Hview, Hz|]. done.
Qed.
End drivers.
