(* ===== verification/Http.v ===== *)
(** * The HTTP interface

    [server/http.c]: handlers of the management interface. A request posts rules for
    the access list, or the keys to copy or move, as JSON; the answer is a status and
    perhaps JSON. Requests, their buffers and replies belong to libevhtp and
    libevent: a handler gets the number of a request. Memory is that of the codec
    ([CMem]), with the codec's functions run on their part of the state; copying and
    moving is [KvManage], a job per request, all on the same store. *)

From S2P Require Import Prelude State Utils CString Crc Lists Protocol Wire Memory Slab Buddy Alloc KvModel KvInv KvOps KvStart KvManage Acl CMem Codec Info.

Local Open Scope string_scope.
Local Open Scope Z_scope.

(** ** Requests *)

Inductive htp_method := htp_method_GET | htp_method_POST | htp_method_other.

Global Instance htp_method_eq_dec : EqDecision htp_method.
Proof. solve_decision. Defined.

Definition EVHTP_RES_OK : Z := 200.
Definition EVHTP_RES_200 : Z := 200.
Definition EVHTP_RES_BADREQ : Z := 400.
Definition EVHTP_RES_NOTFOUND : Z := 404.
Definition EVHTP_RES_METHNALLOWED : Z := 405.
Definition EVHTP_RES_SERVERR : Z := 500.

(** [q_query] is [NULL] or the parameters, whose value is [NULL] when there is no
    equals sign; [q_length] the header Content-Length. *)
Record request := mk_request {
  q_method : htp_method;
  q_path : list Z;
  q_query : option (list (list Z * option (list Z)));
  q_length : option (list Z);
  q_in : list Z;
  q_out : list Z;
  q_headers : list (list Z * list Z);
  q_paused : bool
}.

(** The part of a job of [KvManage] that is not the store. *)
Record job := mk_job {
  j_ctx : option priskv_kvmanage_context;
  j_pending : nat;
  j_later : nat;
  j_sent : list (list Z * Z * Z)
}.

(** Memory and the codec; the access list; the store and the clock; requests that
    libevhtp has; jobs by the block of their argument; replies
    in order: request, status and body. *)
Record hstate := HS {
  h_c : cstate;
  h_acl : list priskv_acl;
  h_kv : kv_state;
  h_now : timeval;
  h_reqs : gmap Z request;
  h_jobs : gmap Z job;
  h_replies : list (Z * Z * list Z)
}.

Section http.
Context {JC : JsonC}.
Context (avail : Z → bool) (strerror_errno version : list Z).
Context (getaddrinfo : list Z → gai).
(** Whether another server can be reached, and what its client does with the n-th
    SET. *)
Context (connect : list Z → Z → bool) (set_async : nat → list Z * bool).

Notation M := (ST hstate).

Definition with_c (s : hstate) (c : cstate) : hstate :=
  HS c (h_acl s) (h_kv s) (h_now s) (h_reqs s) (h_jobs s) (h_replies s).
Definition with_acl (s : hstate) (l : list priskv_acl) : hstate :=
  HS (h_c s) l (h_kv s) (h_now s) (h_reqs s) (h_jobs s) (h_replies s).
Definition with_reqs (s : hstate) (m : gmap Z request) : hstate :=
  HS (h_c s) (h_acl s) (h_kv s) (h_now s) m (h_jobs s) (h_replies s).

(** A function of the codec, on its part of the state. *)
Definition codec {A} (m : ST cstate A) : M A := λ s,
  match m (h_c s) with Ok (a, c) => Ok (a, with_c s c) | Fault e => Fault e end.

Definition get_req (req : Z) : M request := λ s,
  match h_reqs s !! req with None => Fault UseAfterFree | Some q => Ok (q, s) end.
Definition put_req (req : Z) (q : request) : M unit := modify (λ s, with_reqs s (<[req := q]> (h_reqs s))).

(** The reply is sent and the request is over. *)
Definition evhtp_send_reply (req : Z) (code : Z) : M unit :=
  q ← get_req req;
  modify (λ s, HS (h_c s) (h_acl s) (h_kv s) (h_now s) (delete req (h_reqs s)) (h_jobs s)
                 (h_replies s ++ [(req, code, q_out q)])%list).

Definition set_in (q : request) (bs : list Z) : request :=
  mk_request (q_method q) (q_path q) (q_query q) (q_length q) bs (q_out q) (q_headers q) (q_paused q).
Definition set_out (q : request) (bs : list Z) : request :=
  mk_request (q_method q) (q_path q) (q_query q) (q_length q) (q_in q) bs (q_headers q) (q_paused q).
Definition set_headers (q : request) (hs : list (list Z * list Z)) : request :=
  mk_request (q_method q) (q_path q) (q_query q) (q_length q) (q_in q) (q_out q) hs (q_paused q).
Definition set_paused (q : request) (b : bool) : request :=
  mk_request (q_method q) (q_path q) (q_query q) (q_length q) (q_in q) (q_out q) (q_headers q) b.

(** Moves at most [n] bytes from the buffer to memory. *)
Definition evbuffer_remove (req : Z) (data : ptr) (n : Z) : M Z :=
  q ← get_req req;
  let bs := take (Z.to_nat n) (q_in q) in
  _ ← codec (store data (MByte <$> bs));
  _ ← put_req req (set_in q (drop (Z.to_nat n) (q_in q)));
  mret (Z.of_nat (length bs)).

Definition evbuffer_add (req : Z) (bs : list Z) : M unit :=
  q ← get_req req; put_req req (set_out q (q_out q ++ bs)%list).

Definition evhtp_headers_add_header (req : Z) (name val : list Z) : M unit :=
  q ← get_req req; put_req req (set_headers q (q_headers q ++ [(name, val)])%list).

Definition evhtp_request_pause (req : Z) : M unit := q ← get_req req; put_req req (set_paused q true).
Definition evhtp_request_resume (req : Z) : M unit := q ← get_req req; put_req req (set_paused q false).

(** ** The body *)

(** The loop that empties the buffer; it never ends when the buffer is empty too
    early. *)
Fixpoint read_body (fuel : nat) (req : Z) (body : ptr) (content_length len : Z) : M unit :=
  match fuel with
  | O => lift (Fault OutOfFuel)
  | S fuel =>
      if len <? content_length then
        n ← evbuffer_remove req (pplus body len) (content_length - len);
        read_body fuel req body content_length (s32 (len + n))
      else mret tt
  end.

(** A round that removes all that is asked for, and the test that ends the loop. *)
Definition body_fuel : nat := 2.

Definition priskv_http_api_get_body (req : Z) : M ptr :=
  q ← get_req req;
  match q_length q with
  | None => mret None
  | Some content_length_str =>
      let content_length := atoi content_length_str in
      if content_length <=? 0 then mret None
      else
        body ← codec (malloc avail (u64 (s32 (content_length + 1))));
        match body with
        | None => mret None
        | Some _ =>
            _ ← read_body body_fuel req body content_length 0;
            _ ← codec (store (pplus body content_length) [MByte 0]);
            mret body
        end
  end.

Definition priskv_http_api_default_cb (req : Z) : M unit := evhtp_send_reply req EVHTP_RES_NOTFOUND.

(** ** The access list *)

(** [priskv_acl_add] and [priskv_acl_del] on the list of the process. *)
Definition acl_call (f : list priskv_acl → list Z → Z * list priskv_acl) (rule : list Z) : M Z := λ s,
  let '(ret, l) := f (h_acl s) rule in Ok (ret, with_acl s l).

(** The loop over [info->rules]: the status becomes [BADREQ] when a rule fails. *)
Definition for_rules (call : list Z → M Z) (info : ptr) : list Z → Z → M Z :=
  fix go js status :=
    match js with
    | [] => mret status
    | i :: js =>
        rules ← codec (load ld_ptr info);
        p ← codec (load ld_ptr (pplus rules (8 * i)));
        rule ← codec (load ld_string p);
        ret ← call rule;
        go js (if negb (ret =? 0) then EVHTP_RES_BADREQ else status)
    end.

(** The bodies of [priskv_http_acl_add] and [priskv_http_acl_del], which differ in
    one call. *)
Definition post_rules (call : list Z → M Z) (req : Z) : M Z :=
  q ← get_req req;
  if decide (q_method q ≠ htp_method_POST) then mret EVHTP_RES_METHNALLOWED
  else
    body ← priskv_http_api_get_body req;
    match body with
    | None => mret EVHTP_RES_BADREQ
    | Some _ =>
        text ← codec (load ld_string body);
        info ← codec (priskv_codec_decode avail (Some text) (Some priskv_acl_info_obj));
        status ← match info with
                 | None => mret EVHTP_RES_BADREQ
                 | Some _ => nrules ← codec (load ld_int (pplus info 8)); for_rules call info (seqZ 0 nrules) 0
                 end;
        _ ← codec (priskv_codec_free_struct info priskv_acl_info_obj);
        _ ← codec (free body);
        mret status
    end.

Definition priskv_http_acl_add (req : Z) : M Z := post_rules (acl_call (priskv_acl_add getaddrinfo)) req.
Definition priskv_http_acl_del (req : Z) : M Z := post_rules (acl_call priskv_acl_del) req.

(** A local variable of a function, and its end. *)
Definition local_var (n : nat) : ST cstate ptr := λ s,
  Ok (Some (c_next s, 0), CS (<[c_next s := replicate n MUndef]> (c_heap s)) (c_next s + 1) (c_error s)).

Definition content_json : list Z * list Z := (str "Content-Type", str "application/json").

Definition priskv_http_acl_list (req : Z) : M Z :=
  q ← get_req req;
  if decide (q_method q ≠ htp_method_GET) then mret EVHTP_RES_METHNALLOWED
  else
    s ← get;
    info ← codec (local_var 16);
    rules ← codec (acl_get_rules avail (h_acl s) (pplus info 8));
    _ ← codec (store info (enc_ptr rules));
    status ← match rules with
             | None => mret EVHTP_RES_SERVERR
             | Some _ =>
                 text ← codec (priskv_codec_code avail strerror_errno info (Some priskv_acl_info_obj));
                 status ← match text with
                          | None => mret EVHTP_RES_SERVERR
                          | Some _ =>
                              t ← codec (load ld_string text);
                              _ ← evbuffer_add req t;
                              _ ← evhtp_headers_add_header req content_json.1 content_json.2;
                              _ ← codec (free text);
                              mret 0
                          end;
                 n ← codec (load ld_int (pplus info 8));
                 _ ← codec (priskv_acl_free_rules rules n);
                 mret status
             end;
    _ ← codec (free info);
    mret status.

Definition priskv_http_acl_actions : list (list Z * (Z → M Z)) :=
  [(str "add", priskv_http_acl_add); (str "del", priskv_http_acl_del); (str "list", priskv_http_acl_list)].

(** The first action of that name. *)
Fixpoint find_action (val : list Z) (l : list (list Z * (Z → M Z))) : option (Z → M Z) :=
  match l with
  | [] => None
  | (name, handler) :: l => if bool_decide (val = name) then Some handler else find_action val l
  end.

Fixpoint acl_query (req : Z) (query : list (list Z * option (list Z))) : M unit :=
  match query with
  | [] => evhtp_send_reply req EVHTP_RES_BADREQ
  | (key, val) :: query =>
      if negb (bool_decide (key = str "action")) then evhtp_send_reply req EVHTP_RES_BADREQ
      else
        match val with
        | None => lift (Fault NullDeref)
        | Some val =>
            match find_action val priskv_http_acl_actions with
            | Some handler =>
                status ← handler req;
                if negb (status =? 0) then evhtp_send_reply req status else evhtp_send_reply req EVHTP_RES_OK
            | None => acl_query req query
            end
        end
  end.

Definition priskv_http_api_acl_cb (req : Z) : M unit :=
  q ← get_req req;
  if negb (bool_decide (q_path q = str "/api/acl")) then evhtp_send_reply req EVHTP_RES_NOTFOUND
  else acl_query req (default [] (q_query q)).

(** ** Ping and version *)

Definition priskv_http_api_ping_cb (req : Z) : M unit :=
  q ← get_req req;
  if negb (bool_decide (q_path q = str "/api/ping")) then evhtp_send_reply req EVHTP_RES_NOTFOUND
  else if decide (q_method q ≠ htp_method_GET) then evhtp_send_reply req EVHTP_RES_METHNALLOWED
  else _ ← evbuffer_add req (str "pong"); evhtp_send_reply req EVHTP_RES_OK.

(** The version is a string of the program: a block of its own while it is used. *)
Definition priskv_http_api_version_cb (req : Z) : M unit :=
  literal ← codec (local_var (S (length version)));
  _ ← codec (store literal (enc_string version));
  resp ← codec (local_var 8);
  _ ← codec (store resp (enc_ptr literal));
  let leave := (_ ← codec (free resp); codec (free literal)) in
  q ← get_req req;
  if negb (bool_decide (q_path q = str "/api/version")) then _ ← leave; evhtp_send_reply req EVHTP_RES_NOTFOUND
  else if decide (q_method q ≠ htp_method_GET) then _ ← leave; evhtp_send_reply req EVHTP_RES_METHNALLOWED
  else
    text ← codec (priskv_codec_code avail strerror_errno resp (Some priskv_version_response_obj));
    match text with
    | None => _ ← leave; evhtp_send_reply req EVHTP_RES_SERVERR
    | Some _ =>
        t ← codec (load ld_string text);
        _ ← evbuffer_add req t;
        _ ← codec (free text);
        _ ← evhtp_headers_add_header req content_json.1 content_json.2;
        _ ← leave;
        evhtp_send_reply req EVHTP_RES_OK
    end.

(** ** Information *)

(** What is known besides the access list and the store. *)
Context (mem : priskv_mem_info) (listeners : list priskv_rdma_listener) (stat : option (list Z)) (clk_tck : Z).

Definition world_of (s : hstate) : world := mk_world (h_acl s) mem (h_kv s) listeners stat clk_tck.

(** The items of the query, 64 at most; [None] when a parameter is not an item. *)
Fixpoint query_items (query : list (list Z * option (list Z))) (items : list item) : option (list item) :=
  match query with
  | [] => Some items
  | (key, val) :: query =>
      if negb (bool_decide (key = str "item")) then None
      else
        let items := (items ++ [val])%list in
        if (64 <=? Z.of_nat (length items)) then Some items else query_items query items
  end.

Definition priskv_http_api_info_cb (req : Z) : M unit :=
  q ← get_req req;
  if decide (q_method q ≠ htp_method_GET) then evhtp_send_reply req EVHTP_RES_METHNALLOWED
  else if negb (bool_decide (q_path q = str "/api/info")) then evhtp_send_reply req EVHTP_RES_NOTFOUND
  else
    match query_items (default [] (q_query q)) [] with
    | None => evhtp_send_reply req EVHTP_RES_BADREQ
    | Some items =>
        s ← get;
        if negb (priskv_info_items_available avail (world_of s) (Some items)) then evhtp_send_reply req EVHTP_RES_BADREQ
        else
          data ← codec (priskv_info_json avail strerror_errno (world_of s) (Some items));
          t ← codec (load ld_string data);
          _ ← evbuffer_add req t;
          _ ← codec (free data);
          _ ← evhtp_headers_add_header req content_json.1 content_json.2;
          evhtp_send_reply req EVHTP_RES_OK
    end.

(** ** Copying and moving keys *)

Definition with_job (s : hstate) (kv : kv_state) (now : timeval) (jobs : gmap Z job) : hstate :=
  HS (h_c s) (h_acl s) kv now (h_reqs s) jobs (h_replies s).

Definition kvm_of (s : hstate) (j : job) : kvm :=
  KVM (h_kv s) (h_now s) (j_ctx j) (j_pending j) (j_later j) (j_sent j) [].

(** A step of the job of [arg], with the statuses it calls back with. A job is over
    when its context is freed. *)
Definition run_job {A} (arg : Z) (m : ST kvm A) : M (A * list Z) := λ s,
  match h_jobs s !! arg with
  | None => Fault UseAfterFree
  | Some j =>
      match m (kvm_of s j) with
      | Fault e => Fault e
      | Ok (a, k) =>
          let jobs := match m_ctx k with
                      | None => delete arg (h_jobs s)
                      | Some _ => <[arg := mk_job (m_ctx k) (m_pending k) (m_later k) (m_sent k)]> (h_jobs s)
                      end in
          Ok (a, m_done k, with_job s (g_kv k) (m_now k) jobs)
      end
  end.

(** The argument of the callback is a structure with the request and the decoded
    information. *)
Definition priskv_http_api_kvmanage_bottom (arg : ptr) (status : Z) : M unit :=
  r ← codec (load ld_ptr arg);
  match r with
  | None => lift (Fault NullDeref)
  | Some r =>
      let req := r.1 in
      let code := if negb (status =? 0) then EVHTP_RES_BADREQ else EVHTP_RES_200 in
      info ← codec (load ld_ptr (pplus arg 8));
      _ ← codec (priskv_codec_free_struct info priskv_kvmanage_info_obj);
      _ ← evhtp_request_resume req;
      _ ← evhtp_send_reply req code;
      codec (free arg)
  end.

Fixpoint call_bottoms (arg : ptr) (statuses : list Z) : M unit :=
  match statuses with
  | [] => mret tt
  | st :: statuses => _ ← priskv_http_api_kvmanage_bottom arg st; call_bottoms arg statuses
  end.

(** The strings of [info->keys]. *)
Fixpoint read_keys (keys : ptr) (js : list Z) : ST cstate (list (list Z)) :=
  match js with
  | [] => mret []
  | i :: js =>
      p ← load ld_ptr (pplus keys (8 * i));
      k ← load ld_string p;
      ks ← read_keys keys js;
      mret (k :: ks)
  end.

(** [action(info->addr, info->port, info->keys, info->nkeys, ...)]: the keys stay
    as they are until the callback frees them. *)
Definition call_action (action : priskv_kvmanage_action) (addr : list Z) (port : Z) (keys : list (list Z)) (nkeys : Z)
    (ctx : ptr) : M Z :=
  match ctx with
  | None => lift (Fault NullDeref)
  | Some (arg, _) =>
      _ ← modify (λ s, with_job s (h_kv s) (h_now s) (<[arg := mk_job None 0 0 []]> (h_jobs s)));
      '(r, done) ← run_job arg (priskv_kvmanage_do_action set_async (connect addr port) action keys nkeys);
      _ ← call_bottoms ctx done;
      mret r
  end.

(** [err]: what there is is freed, and the request refused. *)
Definition kvmanage_err (req : Z) (body info ctx : ptr) : M unit :=
  _ ← codec (free body);
  _ ← codec (priskv_codec_free_struct info priskv_kvmanage_info_obj);
  _ ← codec (free ctx);
  evhtp_send_reply req EVHTP_RES_BADREQ.

Definition priskv_http_api_kvmanage (req : Z) (action : priskv_kvmanage_action) : M unit :=
  q ← get_req req;
  if decide (q_method q ≠ htp_method_POST) then evhtp_send_reply req EVHTP_RES_METHNALLOWED
  else
    body ← priskv_http_api_get_body req;
    match body with
    | None => evhtp_send_reply req EVHTP_RES_BADREQ
    | Some _ =>
        text ← codec (load ld_string body);
        info ← codec (priskv_codec_decode avail (Some text) (Some priskv_kvmanage_info_obj));
        match info with
        | None => kvmanage_err req body info None
        | Some _ =>
            addr ← codec (load ld_ptr info);
            addr_text ← match addr with None => mret [] | Some _ => codec (load ld_string addr) end;
            port ← codec (load ld_int (pplus info 8));
            nkeys ← codec (load ld_int (pplus info 24));
            keys ← codec (load ld_ptr (pplus info 16));
            if bool_decide (addr_text = []) || (port =? 0) || (nkeys =? 0) || bool_decide (keys = None) then
              kvmanage_err req body info None
            else
              ctx ← codec (calloc avail 1 16);
              _ ← codec (store ctx (enc_ptr (Some (req, 0))));
              _ ← codec (store (pplus ctx 8) (enc_ptr info));
              ks ← codec (read_keys keys (seqZ 0 nkeys));
              r ← call_action action addr_text port ks nkeys ctx;
              if r <? 0 then kvmanage_err req body info ctx
              else _ ← codec (free body); evhtp_request_pause req
        end
    end.

Definition priskv_http_api_kvcopy_cb (req : Z) : M unit := priskv_http_api_kvmanage req PRISKV_KVMANAGE_COPY.
Definition priskv_http_api_kvmove_cb (req : Z) : M unit := priskv_http_api_kvmanage req PRISKV_KVMANAGE_MOVE.

(** The table of handlers; libevhtp chooses among them by the path. *)
Definition api_handlers : list (list Z * (Z → M unit)) :=
  [(str "/api/acl", priskv_http_api_acl_cb); (str "/api/info", priskv_http_api_info_cb);
   (str "/api/kvcopy", priskv_http_api_kvcopy_cb); (str "/api/kvmove", priskv_http_api_kvmove_cb);
   (str "/api/ping", priskv_http_api_ping_cb); (str "/api/version", priskv_http_api_version_cb);
   (str "/api", priskv_http_api_default_cb)].

(** An event of a job: the answer to a SET, or the end that was scheduled. *)
Definition job_event (arg : Z) (ev : kvm_event) : M unit :=
  '(_, done) ← run_job arg (kvm_step set_async ev);
  call_bottoms (Some (arg, 0)) done.
End http.
