(* ===== verification/HttpProps.v ===== *)
(** * The HTTP interface and the access list

    What the handlers of [Http] answer and do to the access list, for every request,
    and what they leave of memory. *)

From S2P Require Import Prelude State Utils CString Crc Lists Protocol Wire Memory Slab Buddy Alloc KvModel KvInv KvOps KvStart KvManage Acl CMem Codec CodecSpec CodecMem CodecCode CodecJson CodecProps Info InfoProps Http.

Local Open Scope string_scope.
Local Open Scope list_scope.
Local Open Scope Z_scope.

(** ** What a request asks for *)

Definition content_length (q : request) : Z := match q_length q with None => 0 | Some s => atoi s end.

(** The text a handler sees: the body up to its first zero. *)
Definition body_of (q : request) : option (list Z) :=
  if content_length q <=? 0 then None else Some (cstr (take (Z.to_nat (content_length q)) (q_in q))).

(** libevhtp calls a handler when the whole body is in the buffer. *)
Definition complete (q : request) : Prop :=
  content_length q <= Z.of_nat (length (q_in q)) ∧ content_length q < 2 ^ 31 - 1.

Definition jt_text (t : jtree) : option (list Z) := match t with JString s => Some (cstr s) | _ => None end.

(** The rules in JSON: the strings of the array [rules]. *)
Definition posted_rules (t : jtree) : option (list (list Z)) :=
  match jt_get t (str "rules") with Some (JArray l) => mapM jt_text l | _ => None end.

(** The status and the list after all rules were tried. *)
Definition try_rules (f : list priskv_acl → list Z → Z * list priskv_acl) (rules : list (list Z)) (st : Z * list priskv_acl) :
    Z * list priskv_acl :=
  foldl (λ st rule, let '(ret, l) := f st.2 rule in (if negb (ret =? 0) then EVHTP_RES_BADREQ else st.1, l)) st rules.

Section acl.
Context {JC : JsonC} {JL : JsonLaws JC}.
Context (avail : Z → bool) (strerror_errno version : list Z) (getaddrinfo : list Z → gai).
Hypothesis Havail : ∀ n, avail n = true.

(** ** Steps *)

Lemma codec_run {A} (m : ST cstate A) s a c : m (h_c s) = Ok (a, c) → codec m s = Ok (a, with_c s c).
Proof. intros Hm. unfold codec. by rewrite Hm. Qed.

Lemma get_req_run req q s : h_reqs s !! req = Some q → get_req req s = Ok (q, s).
Proof. intros Hq. unfold get_req. by rewrite Hq. Qed.

Lemma send_reply_run req q code s : h_reqs s !! req = Some q →
  evhtp_send_reply req code s
  = Ok (tt, HS (h_c s) (h_acl s) (h_kv s) (h_now s) (delete req (h_reqs s)) (h_jobs s) (h_replies s ++ [(req, code, q_out q)])).
Proof. intros Hq. unfold evhtp_send_reply. by erewrite bind_run by (by apply get_req_run). Qed.

(** ** The body *)

Definition taken (q : request) : request := set_in q (drop (Z.to_nat (content_length q)) (q_in q)).

Lemma get_body_run req q s h n e :
  h_reqs s !! req = Some q → h_c s = CS h n e → complete q →
  match body_of q with
  | None => priskv_http_api_get_body avail req s = Ok (None, s)
  | Some text => ∃ bs, cstr bs = text ∧ priskv_http_api_get_body avail req s
      = Ok (Some (n, 0), with_reqs (with_c s (CS (<[n := MByte <$> bs ++ [0]]> h) (n + 1) e)) (<[req := taken q]> (h_reqs s)))
  end.
Proof.
  intros Hq Hc [Hlen Hmax]. unfold body_of, priskv_http_api_get_body, taken, content_length in *.
  destruct (q_length q) as [cl|] eqn:Hcl.
  2:{ cbn [Z.leb Z.compare]. erewrite bind_run by (by apply get_req_run). by rewrite Hcl. }
  destruct (Z.leb_spec (atoi cl) 0) as [Hle|Hpos].
  { erewrite bind_run by (by apply get_req_run). rewrite Hcl. cbv zeta. by rewrite (proj2 (Z.leb_le _ _) Hle). }
  set (L := atoi cl) in *. set (bs := take (Z.to_nat L) (q_in q)). exists bs. split; [done|].
  assert (length bs = Z.to_nat L) as Hbs by (unfold bs; rewrite length_take; lia).
  erewrite bind_run by (by apply get_req_run). rewrite Hcl. cbv zeta. fold L. rewrite (proj2 (Z.leb_gt _ _) Hpos).
  rewrite s32_id by lia. unfold u64. rewrite Z.mod_small by lia.
  erewrite bind_run.
  2:{ apply codec_run. unfold malloc, new_block. rewrite Hc. cbn [c_next c_heap c_error]. rewrite Havail. reflexivity. }
  cbv iota beta. set (s1 := with_c s _).
  assert (h_reqs s1 !! req = Some q) as Hq1 by done.
  assert (sto (<[n := replicate (Z.to_nat (L + 1)) MUndef]> h) (n, 0) (MByte <$> bs) = Ok (<[n := (MByte <$> bs) ++ [MUndef]]> h)) as Hsto.
  { replace (replicate (Z.to_nat (L + 1)) MUndef) with (replicate (Z.to_nat L) MUndef ++ [MUndef]).
    - apply sto_start. by rewrite length_fmap, length_replicate.
    - replace (Z.to_nat (L + 1)) with (Z.to_nat L + 1)%nat by lia. by rewrite replicate_add. }
  set (s2 := with_reqs (with_c s (CS (<[n := (MByte <$> bs) ++ [MUndef]]> h) (n + 1) e)) (<[req := set_in q (drop (Z.to_nat L) (q_in q))]> (h_reqs s))).
  assert (read_body body_fuel req (Some (n, 0)) L 0 s1 = Ok (tt, s2)) as Hread.
  { unfold body_fuel. cbn [read_body]. rewrite (proj2 (Z.ltb_lt _ _) Hpos).
    assert (evbuffer_remove req (pplus (Some (n, 0)) 0) (L - 0) s1 = Ok (L, s2)) as Hev.
    { unfold evbuffer_remove. erewrite bind_run by (by apply get_req_run). rewrite Z.sub_0_r. fold bs.
      erewrite bind_run.
      2:{ apply codec_run. unfold store. cbn [pplus mbind option_bind]. rewrite padd_0.
          change (c_heap (h_c s1)) with (<[n := replicate (Z.to_nat (L + 1)) MUndef]> h). rewrite Hsto. reflexivity. }
      erewrite bind_run by reflexivity. rewrite Hbs, Z2Nat.id by lia. done. }
    erewrite bind_run by exact Hev. rewrite Z.add_0_l, s32_id by lia. by rewrite Z.ltb_irrefl. }
  erewrite bind_run by exact Hread. erewrite bind_run.
  2:{ apply codec_run. unfold store. cbn [pplus mbind option_bind]. change (padd (n, 0) L) with (n, L).
      replace L with (Z.of_nat (length (MByte <$> bs))) by (rewrite length_fmap; lia).
      change (c_heap (h_c s2)) with (<[n := (MByte <$> bs) ++ [MUndef]]> h). rewrite sto_end by done. reflexivity. }
  by rewrite fmap_app.
Qed.

(** ** Rules *)

Lemma decode_strings l :
  match traverse (λ t, value_spec (o_type priskv_string_obj) (decode_spec priskv_string_obj) (nonnull t)) l with
  | inl vs => ∃ rs, mapM jt_text l = Some rs ∧ vs = (λ r, VString (Some r)) <$> rs
  | inr _ => mapM jt_text l = None
  end.
Proof.
  induction l as [|t l IH]; [by exists []|]. cbn [traverse]. destruct t; cbn; try done.
  set (tr := traverse _ l) in *. clearbody tr.
  destruct tr as [vs|e]; [|by rewrite IH]. destruct IH as (rs & -> & ->). by eexists.
Qed.

Lemma decode_rules t :
  match decode_spec priskv_acl_info_obj t with
  | inl vs => ∃ rs, posted_rules t = Some rs ∧ vs = [VArray ((λ r, VString (Some r)) <$> rs)]
  | inr _ => posted_rules t = None
  end.
Proof.
  change (decode_spec priskv_acl_info_obj t) with
    (traverse (λ f, field_spec (value_spec (o_type (f_obj f)) (decode_spec (f_obj f))) f t) (o_fields priskv_acl_info_obj)).
  unfold posted_rules, field_spec. cbn [o_fields priskv_acl_info_obj PRISKV_DECL_OBJECT traverse].
  cbn [f_name f_type f_required f_obj PRISKV_DECL_OBJECT_ARRAY_FIELD]. destruct (jt_get t (str "rules")) as [m|]; [|done].
  destruct m as [| | | | |l|]; try done. pose proof (decode_strings l) as Hl.
  destruct (traverse _ l) as [vs|e]; [|done]. destruct Hl as (rs & -> & ->). by exists rs.
Qed.

(** The text of a body as rules. *)
Definition rules_of (text : list Z) : option (list (list Z)) :=
  match (json_tokener_parse_verbose text).1 with None => None | Some j => posted_rules (view j) end.

(** The loop over the rules in memory is the loop over their values. *)
Lemma for_rules_run f h info q js : ∀ rs st s,
  c_heap (h_c s) = h → ld_ptr h info = Ok q →
  mapR (read_at (read_value priskv_string_obj) h) ((λ j, pplus q (8 * j)) <$> js) = Ok ((λ r, VString (Some r)) <$> rs) →
  for_rules (acl_call f) (Some info) js st s
  = let r := try_rules f rs (st, h_acl s) in Ok (r.1, with_acl s r.2).
Proof.
  induction js as [|j js IH]; intros rs st s Hh Hq Hrs.
  - injection Hrs as Hrs. destruct rs; [|done]. by destruct s.
  - cbn in Hrs. apply bind_Ok in Hrs as (v & Hv & Hrs). apply bind_Ok in Hrs as (vs & Hvs & Heq).
    destruct rs as [|r rs]; [done|]. injection Heq as -> ->. cbn [for_rules].
    erewrite bind_run by (apply codec_run, load_run; by rewrite Hh).
    destruct q as [q|]; [|done]. apply bind_Ok in Hv as (p & Hp & Hv). destruct p as [p|]; [|done]. apply bind_Ok in Hv as (x & Hx & [= ->]).
    assert (with_c s (h_c s) = s) as -> by (by destruct s).
    erewrite bind_run by (apply codec_run, load_run; by rewrite Hh).
    assert (with_c s (h_c s) = s) as -> by (by destruct s).
    erewrite bind_run by (apply codec_run, load_run; by rewrite Hh).
    assert (with_c s (h_c s) = s) as -> by (by destruct s).
    unfold try_rules. cbn [foldl snd fst]. unfold mbind, ST_bind, acl_call at 1.
    destruct (f (h_acl s) r) as [ret l]. fold (for_rules (acl_call f)).
    rewrite (IH rs _ (with_acl s l) Hh Hq Hvs). done.
Qed.

(** The blocks there were are as before. *)
Definition kept (c c' : cstate) : Prop :=
  c_next c <= c_next c' ∧ fresh_above (c_heap c') (c_next c') ∧ ∀ a, a < c_next c → c_heap c' !! a = c_heap c !! a.

Definition asked_rules (q : request) : option (list (list Z)) := body_of q ≫= rules_of.

(** What posting rules answers and does. *)
Definition post_spec (f : list priskv_acl → list Z → Z * list priskv_acl) (q : request) (l : list priskv_acl) : Z * list priskv_acl :=
  if decide (q_method q ≠ htp_method_POST) then (EVHTP_RES_METHNALLOWED, l)
  else match asked_rules q with None => (EVHTP_RES_BADREQ, l) | Some rs => try_rules f rs (0, l) end.

Lemma length_cstr bs : (length (cstr bs) <= length bs)%nat.
Proof.
  unfold cstr. induction bs as [|b bs IH]; [done|]. csimpl. cbn [until_nul]. destruct (u8 b =? 0); cbn; lia.
Qed.

Lemma body_short q text : complete q → body_of q = Some text → Z.of_nat (length text) < 2 ^ 31.
Proof.
  intros [_ Hmax] Hb. unfold body_of in Hb. destruct (content_length q <=? 0); [done|]. injection Hb as <-.
  pose proof (length_cstr (take (Z.to_nat (content_length q)) (q_in q))) as Hl. rewrite length_take in Hl. lia.
Qed.

(** A handler's state: memory, access list and requests changed. *)
Definition after (s : hstate) (c : cstate) (l : list priskv_acl) (reqs : gmap Z request) : hstate :=
  HS c l (h_kv s) (h_now s) reqs (h_jobs s) (h_replies s).

Lemma with_same s : with_c s (h_c s) = s.
Proof. by destruct s. Qed.

Lemma after_same s : s = after s (h_c s) (h_acl s) (h_reqs s).
Proof. by destruct s. Qed.

(** The steps of a handler on such a state. *)
Lemma codec_after {A} (m : ST cstate A) s c l reqs a c' :
  m c = Ok (a, c') → codec m (after s c l reqs) = Ok (a, after s c' l reqs).
Proof. intros Hm. by rewrite (codec_run m (after s c l reqs) a c' Hm). Qed.

Lemma evbuffer_add_after s c l reqs req q bs : reqs !! req = Some q →
  evbuffer_add req bs (after s c l reqs) = Ok (tt, after s c l (<[req := set_out q (q_out q ++ bs)]> reqs)).
Proof. intros Hq. unfold evbuffer_add. by erewrite bind_run by (by apply get_req_run). Qed.

Lemma add_header_after s c l reqs req q name val : reqs !! req = Some q →
  evhtp_headers_add_header req name val (after s c l reqs)
  = Ok (tt, after s c l (<[req := set_headers q (q_headers q ++ [(name, val)])]> reqs)).
Proof. intros Hq. unfold evhtp_headers_add_header. by erewrite bind_run by (by apply get_req_run). Qed.

(** The decoded structure as the loop reads it. *)
Lemma rules_in_memory h a rs :
  read_value priskv_acl_info_obj h (a, 0) = Ok (VStruct [VArray ((λ r, VString (Some r)) <$> rs)]) →
  Z.of_nat (length rs) < 2 ^ 31 →
  ∃ q, ld_int h (padd (a, 0) 8) = Ok (Z.of_nat (length rs)) ∧ ld_ptr h (a, 0) = Ok q ∧
    mapR (read_at (read_value priskv_string_obj) h) ((λ j, pplus q (8 * j)) <$> seqZ 0 (Z.of_nat (length rs)))
    = Ok ((λ r, VString (Some r)) <$> rs).
Proof.
  intros Hr Hlen. cbn [read_with priskv_acl_info_obj PRISKV_DECL_OBJECT] in Hr.
  apply bind_Ok in Hr as (vs & Hvs & [= ->]). cbn [mapR] in Hvs. apply bind_Ok in Hvs as (v & Hv & [= ->]).
  unfold read_field_with in Hv. cbn [f_type f_offset f_noffset f_obj PRISKV_DECL_OBJECT_ARRAY_FIELD] in Hv.
  apply bind_Ok in Hv as (k & Hk & Hv). apply bind_Ok in Hv as (q & Hq & Hv). apply bind_Ok in Hv as (ws & Hws & [= ->]).
  pose proof (length_mapR _ _ _ Hws) as Hl. unfold element_ptrs in Hl. rewrite !length_fmap, length_seqZ in Hl.
  pose proof (ld_u64_range _ _ _ Hk). assert (k = Z.of_nat (length rs)) as -> by lia.
  exists q. split; [by apply ld_int_u64|]. split; [by rewrite padd_0 in Hq|]. exact Hws.
Qed.

Lemma post_rules_run f req q s h n e :
  h_reqs s !! req = Some q → h_c s = CS h n e → fresh_above h n → complete q →
  let r := post_spec f q (h_acl s) in
  ∃ c' q', post_rules avail (acl_call f) req s = Ok (r.1, after s c' r.2 (<[req := q']> (h_reqs s))) ∧
    q_out q' = q_out q ∧ kept (CS h n e) c' ∧ (is_Some (asked_rules q) → c_heap c' = h).
Proof.
  intros Hq Hc Hf Hcomp r. unfold post_rules. erewrite bind_run by (by apply get_req_run).
  assert (∀ s' : hstate, h_reqs s = <[req := q]> (h_reqs s)) as Hid by (intros; symmetry; by apply insert_id).
  assert (kept (CS h n e) (CS h n e)) as Hrefl by (split; [done|split; [done|done]]).
  assert (s = after s (CS h n e) (h_acl s) (<[req := q]> (h_reqs s))) as Hs.
  { rewrite <- (Hid s). rewrite <- Hc. by destruct s. }
  unfold r, post_spec. destruct (decide (q_method q ≠ htp_method_POST)).
  { exists (CS h n e), q. cbn [fst snd]. rewrite <- Hs. done. }
  pose proof (get_body_run req q s h n e Hq Hc Hcomp) as Hbody. unfold asked_rules. destruct (body_of q) as [text|] eqn:Htext; cbn [mbind option_bind].
  2:{ erewrite bind_run by exact Hbody. exists (CS h n e), q. cbn [fst snd]. rewrite <- Hs. done. }
  destruct Hbody as (bs & Hbs & Hrun). erewrite bind_run by exact Hrun. cbv iota beta.
  set (h1 := <[n := MByte <$> bs ++ [0]]> h) in *. set (s1 := with_reqs _ _).
  assert (h_c s1 = CS h1 (n + 1) e) as Hc1 by done.
  assert (fresh_above h1 (n + 1)) as Hf1 by (by apply fresh_insert).
  erewrite bind_run.
  2:{ apply codec_run, load_run. rewrite Hc1. cbn [c_heap]. apply ld_string_bytes. apply lookup_insert_eq. }
  rewrite with_same, Hbs.
  destruct (decode_run avail Havail text priskv_acl_info_obj h1 (n + 1) e acl_info_struct Hf1 (body_short _ _ Hcomp Htext))
    as (p & h' & n' & e' & Hdec & Hold & Hn' & Hf' & Hout).
  erewrite bind_run by (apply codec_run; rewrite Hc1; exact Hdec).
  assert (∀ a, a < n → h' !! a = h !! a) as Hold'.
  { intros a Ha. rewrite Hold by lia. unfold h1. by rewrite lookup_insert_ne by lia. }
  assert (is_Some (h' !! n)) as Hlive. { rewrite Hold by lia. unfold h1. rewrite lookup_insert_eq. by eexists. }
  assert (kept (CS h n e) (CS (delete n h') n' e')) as Hkept.
  { split; [cbn; lia|]. split; cbn [c_heap c_next].
    - intros a Ha. apply lookup_delete_is_Some in Ha as [_ Ha]. by apply Hf'.
    - intros a Ha. rewrite lookup_delete_ne by lia. by apply Hold'. }
  unfold rules_of. destruct (json_tokener_parse_verbose text) as [[j|] desc] eqn:Hparse; cbn [fst].
  2:{ destruct Hout as [-> _]. exists (CS (delete n h') n' e'), (taken q). cbn [fst snd].
      erewrite bind_run by reflexivity. erewrite bind_run by reflexivity.
      erewrite bind_run by (apply codec_run; by apply free_block). split; [done|]. split; [done|]. split; [done|by intros [? ?]]. }
  pose proof (decode_rules (view j)) as Hrules. destruct (decode_spec priskv_acl_info_obj (view j)) as [vs|m] eqn:Hspec.
  2:{ destruct Hout as [-> ->]. rewrite Hrules. exists (CS (delete n h') n' m), (taken q). cbn [fst snd].
      erewrite bind_run by reflexivity. erewrite bind_run by reflexivity.
      erewrite bind_run by (apply codec_run; by apply free_block). split; [done|]. split; [done|]. split; [done|by intros [? ?]]. }
  destruct Hrules as (rs & -> & ->). destruct Hout as (-> & -> & Hread & Hown & Hlives & Hnn).
  assert (Z.of_nat (length rs) < 2 ^ 31) as Hlen.
  { pose proof (law_width _ _ _ Hparse) as Hw. pose proof (body_short _ _ Hcomp Htext).
    assert (typed priskv_acl_info_obj (VStruct [VArray ((λ r, VString (Some r)) <$> rs)])) as Hty.
    { apply (decode_struct_typed priskv_acl_info_obj (view j)); [done|done|cbn; lia|done]. }
    cbn in Hty. destruct Hty as (_ & [Hty _] & _). by rewrite length_fmap in Hty. }
  destruct (rules_in_memory h' (n + 1) rs Hread Hlen) as (base & Hcount & Hbase & Hels).
  set (s2 := with_c s1 (CS h' n' e)).
  exists (CS h n' e), (taken q). split.
  - erewrite bind_run.
    2:{ erewrite bind_run by (apply codec_run, load_run; exact Hcount). rewrite with_same.
        apply (for_rules_run f h' (n + 1, 0) base); [done|exact Hbase|exact Hels]. }
    cbv zeta. erewrite bind_run.
    2:{ apply codec_run. apply (free_run priskv_acl_info_obj h1 (n + 1) e h' n' _ acl_info_struct Hf1 Hread); try done; lia. }
    erewrite bind_run.
    2:{ apply codec_run. apply free_block. unfold h1. rewrite lookup_insert_eq. by eexists. }
    unfold h1. rewrite delete_fresh by done. done.
  - split; [done|]. split; [|done]. split; [cbn; lia|]. split; cbn [c_heap c_next]; [|done].
    intros a Ha. apply Hf in Ha. lia.
Qed.

(** ** Listing *)

(** What is listed can be posted again. *)
Lemma listing_posted j l : Forall (λ acl, no_nul (acl_rule acl)) l → Z.of_nat (length l) < 2 ^ 31 →
  view j = code_spec priskv_acl_info_obj (listing l) → rules_of (json_object_to_json_string j) = Some (acl_rule <$> l).
Proof.
  intros Hno Hlen Hview. destruct (code_plain priskv_acl_info_obj eq_refl (listing l) (listing_typed l Hlen Hno)) as [Hplain Hd].
  rewrite <- Hview in Hplain, Hd. pose proof (law_parse j Hplain ltac:(cbn in Hd |- *; lia)) as Hparse. unfold rules_of.
  apply view_Some in Hparse as (j2 & -> & ->). rewrite Hview.
  assert (code_spec priskv_acl_info_obj (listing l) = JObject [(str "rules", JArray (JString <$> (acl_rule <$> l)))]) as ->.
  { unfold listing. cbn -[str]. do 4 f_equal. by rewrite <- list_fmap_compose. }
  unfold posted_rules. cbn [jt_get assoc]. rewrite decide_True by done. cbn [mbind option_bind nonnull].
  clear -Hno. induction Hno as [|acl l Hacl _ IH]; [done|]. csimpl. rewrite cstr_id by done. exact (f_equal (mbind _) IH).
Qed.

Definition listed (q : request) (text : list Z) : request :=
  set_headers (set_out q (q_out q ++ text)) (q_headers q ++ [content_json]).

Lemma acl_list_run req q s h n e :
  h_reqs s !! req = Some q → fresh_above h n → listable (h_acl s) → q_method q = htp_method_GET →
  ∃ n' text, priskv_http_acl_list avail strerror_errno req (after s (CS h n e) (h_acl s) (h_reqs s))
      = Ok (0, after s (CS h n' e) (h_acl s) (<[req := listed q text]> (h_reqs s))) ∧
    n <= n' ∧ rules_of text = Some (acl_rule <$> h_acl s).
Proof.
  intros Hq Hf Hl Hm. set (l := h_acl s) in *. set (reqs := h_reqs s) in *.
  unfold priskv_http_acl_list. erewrite bind_run by (by apply get_req_run).
  rewrite decide_False by (rewrite Hm; tauto). erewrite bind_run by reflexivity. change (h_acl (after s _ l reqs)) with l.
  set (c1 := CS (<[n := replicate 16 MUndef]> h) (n + 1) e).
  erewrite bind_run by (apply (codec_after _ _ _ _ _ (Some (n, 0)) c1); reflexivity).
  destruct (acl_info_made avail Havail h n e l (replicate 16 MUndef) Hf Hl eq_refl) as (h' & Hrun & Hf' & Hold & Hn & Hn1 & Hcount4 & _ & Hq0 & Hels).
  assert (ld_int h' (n, 8) = Ok (Z.of_nat (length l))) as Hcount by (apply ld_stored_int; [destruct Hl; lia|done]).
  set (nx := n + 2 + Z.of_nat (length l)) in *. fold c1 in Hrun.
  apply bind_inv in Hrun as (rules & c2 & Hget & Hrun). apply bind_inv in Hrun as ([] & c3 & Hst & [= -> ->]).
  erewrite bind_run by (apply codec_after; exact Hget). erewrite bind_run by (apply codec_after; exact Hst). cbv iota beta.
  destruct Hl as [Hlen Hno].
  pose proof (rules_seen h' n (n + 1) (n + 2) l Hlen Hno Hcount Hq0 Hels) as Hseen.
  destruct (code_run avail strerror_errno Havail priskv_acl_info_obj h' nx e (n, 0) (listing l) acl_info_struct Hseen
    (listing_typed l Hlen Hno)) as (j & Hview & Hcode).
  set (text := json_object_to_json_string j) in *. exists (nx + 1), text.
  set (h5 := <[nx := enc_string text]> h') in *.
  assert (ld_string h5 (nx, 0) = Ok text) as Htext.
  { rewrite (ld_stored_string h5 nx text) by apply lookup_insert_eq. by rewrite cstr_id by apply law_text. }
  assert (free (Some (nx, 0)) (CS h5 (nx + 1) e) = Ok (tt, CS h' (nx + 1) e)) as Hft.
  { rewrite free_block by (unfold h5; rewrite lookup_insert_eq; by eexists). unfold h5. by rewrite delete_fresh. }
  destruct (acl_info_freed h h' n (nx + 1) e l Hold Hn1 Hcount Hels) as (h6 & Hfree & Hh6).
  apply bind_inv in Hfree as (k & c & Hk & Hfree).
  assert (free (Some (n, 0)) (CS h6 (nx + 1) e) = Ok (tt, CS h (nx + 1) e)) as Hfi.
  { destruct Hn as (bk & Hbk & _). rewrite free_block by (rewrite Hh6, decide_False, Hbk by lia; by eexists). do 3 f_equal. apply (heap_restored _ _ n Hf).
    - intros a Ha. rewrite lookup_delete_ne, Hh6, decide_False by lia. by apply Hold.
    - intros a Ha. destruct (decide (a = n)) as [->|Hne]; [by rewrite lookup_delete_eq|]. rewrite lookup_delete_ne, Hh6 by done.
      case_decide; [done|]. destruct (h' !! a) eqn:Hh; [|done]. assert (a < nx); [|unfold nx in *; lia]. apply Hf'. by rewrite Hh. }
  split; [|split; [unfold nx; lia|by apply listing_posted]].
  erewrite bind_run.
  2:{ erewrite bind_run by (apply codec_after; exact Hcode). cbv iota beta. erewrite bind_run.
      2:{ erewrite bind_run by (apply codec_after, load_run; exact Htext).
          erewrite bind_run by (by apply evbuffer_add_after).
          erewrite bind_run by (apply add_header_after; apply lookup_insert_eq).
          erewrite bind_run by (apply codec_after; exact Hft). reflexivity. }
      erewrite bind_run by (apply codec_after; exact Hk). erewrite bind_run by (apply codec_after; exact Hfree). reflexivity. }
  erewrite bind_run by (apply codec_after; exact Hfi). rewrite insert_insert_eq. reflexivity.
Qed.

(** ** Requests for the access list *)

Inductive acl_action := ask_add | ask_del | ask_list.

Global Instance acl_action_eq_dec : EqDecision acl_action.
Proof. solve_decision. Defined.

Definition action_named (val : list Z) : option acl_action :=
  if bool_decide (val = str "add") then Some ask_add
  else if bool_decide (val = str "del") then Some ask_del
  else if bool_decide (val = str "list") then Some ask_list
  else None.

(** The first known action, if all parameters before it are actions too. *)
Fixpoint asked_action (query : list (list Z * option (list Z))) : option acl_action :=
  match query with
  | [] => None
  | (key, val) :: query =>
      if bool_decide (key = str "action") then
        match val ≫= action_named with Some a => Some a | None => asked_action query end
      else None
  end.

Definition answer (r : Z * list priskv_acl) : Z * list priskv_acl := (if r.1 =? 0 then EVHTP_RES_OK else r.1, r.2).

(** The status of the reply, and the access list afterwards. *)
Definition acl_spec (q : request) (l : list priskv_acl) : Z * list priskv_acl :=
  if bool_decide (q_path q = str "/api/acl") then
    match asked_action (default [] (q_query q)) with
    | None => (EVHTP_RES_BADREQ, l)
    | Some ask_add => answer (post_spec (priskv_acl_add getaddrinfo) q l)
    | Some ask_del => answer (post_spec priskv_acl_del q l)
    | Some ask_list => (if decide (q_method q = htp_method_GET) then EVHTP_RES_OK else EVHTP_RES_METHNALLOWED, l)
    end
  else (EVHTP_RES_NOTFOUND, l).

(** The request shows the list. *)
Definition shows_list (q : request) : Prop :=
  q_path q = str "/api/acl" ∧ q_method q = htp_method_GET ∧ asked_action (default [] (q_query q)) = Some ask_list.

(** Every parameter has a value. *)
Definition valued (q : request) : Prop := Forall (λ kv, is_Some kv.2) (default [] (q_query q)).

Definition replied (s : hstate) (c : cstate) (l : list priskv_acl) (req code : Z) (body : list Z) : hstate :=
  HS c l (h_kv s) (h_now s) (delete req (h_reqs s)) (h_jobs s) (h_replies s ++ [(req, code, body)]).

(** A handler sends one reply with status [r.1] and leaves the list [r.2]; the blocks
    of memory there were are as before, and no other is left, unless the body of a
    POST has no rules; the body of the reply is empty or the list. *)
Definition answers (q : request) (req : Z) (s : hstate) (r : Z * list priskv_acl) (shows : bool) (m : ST hstate unit) : Prop :=
  ∃ c' text, m s = Ok (tt, replied s c' r.2 req r.1 (q_out q ++ text)) ∧ kept (h_c s) c' ∧
    (q_method q ≠ htp_method_POST ∨ is_Some (asked_rules q) → c_heap c' = c_heap (h_c s)) ∧
    if shows then rules_of text = Some (acl_rule <$> h_acl s) else text = [].

Section answers.
Context (req : Z) (q : request) (s : hstate).
Hypothesis Hq : h_reqs s !! req = Some q.
Hypothesis Hf : fresh_above (c_heap (h_c s)) (c_next (h_c s)).
Hypothesis Hcomp : complete q.

Lemma plain_answers code : answers q req s (code, h_acl s) false (evhtp_send_reply req code).
Proof.
  exists (h_c s), []. rewrite (send_reply_run req q) by done. rewrite app_nil_r. split; [done|]. split; [|done].
  split; [done|]. by split.
Qed.

Lemma state_of_c : h_c s = CS (c_heap (h_c s)) (c_next (h_c s)) (c_error (h_c s)).
Proof. by destruct (h_c s). Qed.

Definition reply_status (m : ST hstate Z) : ST hstate unit :=
  status ← m; if negb (status =? 0) then evhtp_send_reply req status else evhtp_send_reply req EVHTP_RES_OK.

Lemma reply_status_run m code s' q' : m s = Ok (code, s') → h_reqs s' !! req = Some q' →
  reply_status m s = Ok (tt, HS (h_c s') (h_acl s') (h_kv s') (h_now s') (delete req (h_reqs s')) (h_jobs s')
    (h_replies s' ++ [(req, if code =? 0 then EVHTP_RES_OK else code, q_out q')])).
Proof.
  intros Hm Hq'. unfold reply_status. erewrite bind_run by exact Hm.
  destruct (Z.eqb_spec code 0); cbn [negb]; by rewrite (send_reply_run req q').
Qed.

Lemma post_answers f : answers q req s (answer (post_spec f q (h_acl s))) false (reply_status (post_rules avail (acl_call f) req)).
Proof.
  destruct (post_rules_run f req q s _ _ _ Hq state_of_c Hf Hcomp) as (c' & q' & Hrun & Hout & Hk & Hsame).
  exists c', []. rewrite app_nil_r. split; [|split; [by destruct (h_c s)|split; [|done]]].
  - erewrite reply_status_run; [|exact Hrun|apply lookup_insert_eq]. unfold replied, after. cbn [h_c h_acl h_kv h_now h_reqs h_jobs h_replies].
    by rewrite delete_insert_eq, Hout.
  - intros [Hm|Hs]; [|by apply Hsame]. unfold post_rules in Hrun. erewrite bind_run in Hrun by (by apply get_req_run).
    rewrite decide_True in Hrun by done. injection Hrun as _ Hrun. apply (f_equal (λ s, c_heap (h_c s))) in Hrun. done.
Qed.

Lemma list_answers : listable (h_acl s) →
  answers q req s (if decide (q_method q = htp_method_GET) then EVHTP_RES_OK else EVHTP_RES_METHNALLOWED, h_acl s)
    (bool_decide (q_method q = htp_method_GET)) (reply_status (priskv_http_acl_list avail strerror_errno req)).
Proof.
  intros Hl. destruct (decide (q_method q = htp_method_GET)) as [Hm|Hm].
  - rewrite bool_decide_true by done.
    destruct (acl_list_run req q s _ _ (c_error (h_c s)) Hq Hf Hl Hm) as (n' & text & Hrun & Hn & Htext).
    rewrite <- state_of_c, <- after_same in Hrun.
    eexists _, text. split.
    { erewrite reply_status_run; [|exact Hrun|apply lookup_insert_eq]. unfold replied, after. cbn [h_c h_acl h_kv h_now h_reqs h_jobs h_replies].
      rewrite delete_insert_eq. reflexivity. }
    split; [|done]. split; [done|]. split; [|done]. intros a Ha. apply Hf in Ha. cbn. lia.
  - rewrite bool_decide_false by done. destruct (plain_answers EVHTP_RES_METHNALLOWED) as (c' & text & Hr & Hrest).
    exists c', text. split; [|done]. unfold reply_status, priskv_http_acl_list.
    erewrite bind_run by (erewrite bind_run by (by apply get_req_run); by rewrite decide_True). exact Hr.
Qed.

(** The status and the list after a query. *)
Definition query_spec (query : list (list Z * option (list Z))) : Z * list priskv_acl :=
  match asked_action query with
  | None => (EVHTP_RES_BADREQ, h_acl s)
  | Some ask_add => answer (post_spec (priskv_acl_add getaddrinfo) q (h_acl s))
  | Some ask_del => answer (post_spec priskv_acl_del q (h_acl s))
  | Some ask_list => (if decide (q_method q = htp_method_GET) then EVHTP_RES_OK else EVHTP_RES_METHNALLOWED, h_acl s)
  end.

Lemma query_answers query : listable (h_acl s) → Forall (λ kv, is_Some kv.2) query →
  answers q req s (query_spec query) (bool_decide (q_method q = htp_method_GET) && bool_decide (asked_action query = Some ask_list))
    (acl_query avail strerror_errno getaddrinfo req query).
Proof.
  intros Hl Hval. unfold query_spec. induction Hval as [|[key val] query Hkv Hval IH]; cbn [asked_action acl_query].
  { rewrite andb_false_r. apply plain_answers. }
  destruct (bool_decide (key = str "action")); cbn [negb]; [|rewrite andb_false_r; apply plain_answers].
  destruct Hkv as [v Hv]. cbn [snd] in Hv. subst val. cbn [mbind option_bind].
  unfold action_named, priskv_http_acl_actions. cbn [find_action].
  destruct (bool_decide (v = str "add")); [rewrite andb_false_r; apply post_answers|].
  destruct (bool_decide (v = str "del")); [rewrite andb_false_r; apply post_answers|].
  destruct (bool_decide (v = str "list")); [|exact IH]. rewrite andb_true_r. by apply list_answers.
Qed.

(** The handler does what [acl_spec] says. *)
Lemma acl_cb_answers : listable (h_acl s) → valued q →
  answers q req s (acl_spec q (h_acl s)) (bool_decide (shows_list q)) (priskv_http_api_acl_cb avail strerror_errno getaddrinfo req).
Proof.
  intros Hl Hval. unfold acl_spec. destruct (bool_decide (q_path q = str "/api/acl")) eqn:Hp.
  - destruct (query_answers (default [] (q_query q)) Hl Hval) as (c' & text & Hrun & Hk & Hsame & Htext).
    exists c', text. split; [|split; [done|split; [done|]]].
    + unfold priskv_http_api_acl_cb. erewrite bind_run by (by apply get_req_run). rewrite Hp. cbn [negb]. exact Hrun.
    + apply bool_decide_eq_true in Hp. replace (bool_decide (shows_list q)) with
        (bool_decide (q_method q = htp_method_GET) && bool_decide (asked_action (default [] (q_query q)) = Some ask_list)); [done|].
      rewrite <- bool_decide_and. apply bool_decide_ext. unfold shows_list. tauto.
  - destruct (plain_answers EVHTP_RES_NOTFOUND) as (c' & text & Hrun & Hk & Hsame & Htext).
    exists c', text. split; [|split; [done|split; [done|]]].
    + unfold priskv_http_api_acl_cb. erewrite bind_run by (by apply get_req_run). rewrite Hp. exact Hrun.
    + apply bool_decide_eq_false in Hp. rewrite bool_decide_false; [done|]. intros [? _]. done.
Qed.
End answers.
End acl.
