(* ===== verification/HttpManage.v ===== *)
(** * The HTTP interface: copying and moving keys

    A request that copies or moves keys is paused, and answered when its job
    ([KvManage]) is over. Here: what the handler does with the posted JSON, and that
    a job and its memory end together with the reply. *)

From S2P Require Import Prelude State Utils CString Crc Lists Protocol Wire Memory Slab Buddy Alloc KvModel KvInv KvOps KvSweep KvKeys KvStart KvSystem Examples KvManage KvManageProps Acl CMem Codec CodecSpec CodecMem CodecCode CodecJson CodecProps Info InfoProps Http HttpProps.

Local Open Scope string_scope.
Local Open Scope list_scope.
Local Open Scope Z_scope.

Notation kvm_obj := priskv_kvmanage_info_obj.

(** ** What is posted *)

(** The address, the port and the keys. *)
Definition posted_keys (t : jtree) : option (list Z * Z * list (list Z)) :=
  match jt_get t (str "addr"), jt_get t (str "port"), jt_get t (str "keys") with
  | Some (JString a), Some (JInt p), Some (JArray l) => (λ ks, (cstr a, clamp_int p, ks)) <$> mapM jt_text l
  | _, _, _ => None
  end.

Definition kvm_value (a : list Z) (p : Z) (ks : list (list Z)) : list value :=
  [VString (Some a); VInt p; VArray ((λ k, VString (Some k)) <$> ks)].

Lemma decode_keys t :
  match decode_spec kvm_obj t with
  | inl vs => ∃ a p ks, posted_keys t = Some (a, p, ks) ∧ vs = kvm_value a p ks
  | inr _ => posted_keys t = None
  end.
Proof.
  change (decode_spec kvm_obj t) with
    (traverse (λ f, field_spec (value_spec (o_type (f_obj f)) (decode_spec (f_obj f))) f t) (o_fields kvm_obj)).
  unfold posted_keys, field_spec. cbn [o_fields priskv_kvmanage_info_obj PRISKV_DECL_OBJECT traverse].
  cbn [f_name f_type f_required f_obj PRISKV_DECL_OBJECT_ARRAY_FIELD PRISKV_DECL_OBJECT_VALUE_FIELD].
  destruct (jt_get t (str "addr")) as [[| | | |a| |]|]; try done.
  destruct (jt_get t (str "port")) as [[| |p| | | |]|]; try done.
  destruct (jt_get t (str "keys")) as [[| | | | |l|]|]; try done.
  pose proof (decode_strings l) as Hl. destruct (traverse _ l) as [vs|e]; [|by rewrite Hl].
  destruct Hl as (ks & -> & ->). by exists (cstr a), (clamp_int p), ks.
Qed.

(** The structure in memory as the handler reads it. *)
Lemma keys_in_memory h a addr port ks :
  read_value kvm_obj h (a, 0) = Ok (VStruct (kvm_value addr port ks)) → Z.of_nat (length ks) < 2 ^ 31 →
  ∃ pa q, ld_ptr h (a, 0) = Ok (Some pa) ∧ ld_string h pa = Ok addr ∧ ld_int h (padd (a, 0) 8) = Ok port ∧
    ld_int h (padd (a, 0) 24) = Ok (Z.of_nat (length ks)) ∧ ld_ptr h (padd (a, 0) 16) = Ok q ∧
    mapR (read_at (read_value priskv_string_obj) h) ((λ j, pplus q (8 * j)) <$> seqZ 0 (Z.of_nat (length ks)))
    = Ok ((λ k, VString (Some k)) <$> ks).
Proof.
  intros Hr Hlen. cbn [read_with priskv_kvmanage_info_obj PRISKV_DECL_OBJECT] in Hr.
  apply bind_Ok in Hr as (vs & Hvs & [= ->]). cbn [mapR] in Hvs. unfold read_field_with in Hvs.
  cbn [f_type f_offset f_noffset f_obj PRISKV_DECL_OBJECT_ARRAY_FIELD PRISKV_DECL_OBJECT_VALUE_FIELD] in Hvs.
  apply bind_Ok in Hvs as (v1 & Hv1 & Hvs). apply bind_Ok in Hvs as (vs1 & Hvs & Heq1). injection Heq1 as -> ->.
  apply bind_Ok in Hvs as (v2 & Hv2 & Hvs). apply bind_Ok in Hvs as (vs2 & Hvs & Heq2). injection Heq2 as -> ->.
  apply bind_Ok in Hvs as (v3 & Hv3 & Heq3). injection Heq3 as ->.
  rewrite padd_0 in Hv1. cbn [read_with priskv_string_obj priskv_int_obj] in Hv1, Hv2.
  apply bind_Ok in Hv1 as (pa & Hpa & Hv1). destruct pa as [pa|]; [|done]. apply bind_Ok in Hv1 as (a' & Ha & Heqa). injection Heqa as ->.
  apply bind_Ok in Hv2 as (p & Hp & Heqp). injection Heqp as ->.
  apply bind_Ok in Hv3 as (k & Hk & Hv). apply bind_Ok in Hv as (q & Hq & Hv). apply bind_Ok in Hv as (ws & Hws & Heqw). injection Heqw as ->.
  pose proof (length_mapR _ _ _ Hws) as Hl. unfold element_ptrs in Hl. rewrite !length_fmap, length_seqZ in Hl.
  pose proof (ld_u64_range _ _ _ Hk). assert (k = Z.of_nat (length ks)) as -> by lia.
  exists pa, q. split; [done|]. split; [done|]. split; [done|]. split; [by apply ld_int_u64|]. split; [done|]. exact Hws.
Qed.

Lemma read_keys_run h n e q js : ∀ ks,
  mapR (read_at (read_value priskv_string_obj) h) ((λ j, pplus q (8 * j)) <$> js) = Ok ((λ k, VString (Some k)) <$> ks) →
  read_keys q js (CS h n e) = Ok (ks, CS h n e).
Proof.
  induction js as [|j js IH]; intros ks Hks.
  - injection Hks as Hks. by destruct ks.
  - cbn in Hks. apply bind_Ok in Hks as (v & Hv & Hks). apply bind_Ok in Hks as (vs & Hvs & Heq).
    destruct ks as [|k ks]; [done|]. injection Heq as -> ->. destruct q as [q|]; [|done].
    apply bind_Ok in Hv as (p & Hp & Hv). destruct p as [p|]; [|done]. apply bind_Ok in Hv as (x & Hx & Heq). injection Heq as ->.
    cbn [read_keys pplus mbind option_bind]. erewrite bind_run by (by apply load_run). erewrite bind_run by (by apply load_run).
    by erewrite bind_run by (by apply IH).
Qed.

(** ** Memory of a job *)

Lemma kvm_struct : is_struct kvm_obj.
Proof. by split. Qed.

(** The argument of the callback: the request, and the structure with its blocks. *)
Record job_mem (h : heap) (arg req info : Z) (v : value) (own : list Z) : Prop := {
  jm_arg : h !! arg = Some (enc_ptr (Some (req, 0)) ++ enc_ptr (Some (info, 0)));
  jm_info : holds kvm_obj h info v own;
  jm_apart : arg ∉ info :: own
}.

Lemma job_mem_frame h h' arg req info v own : job_mem h arg req info v own →
  (∀ b, b ∈ arg :: info :: own → h' !! b = h !! b) → job_mem h' arg req info v own.
Proof.
  intros [Ha Hi Hn] Hsame. split; [rewrite Hsame by left; done| |done].
  eapply holds_frame; [done|exact Hi|]. intros b Hb. apply Hsame. by right.
Qed.

Lemma arg_ptrs h arg req info : h !! arg = Some (enc_ptr (Some (req, 0)) ++ enc_ptr (Some (info, 0))) →
  ld_ptr h (arg, 0) = Ok (Some (req, 0)) ∧ ld_ptr h (padd (arg, 0) 8) = Ok (Some (info, 0)).
Proof.
  intros Ha. split; apply ld_stored_ptr; (erewrite ld_Ok; [|exact Ha|cbn; lia|rewrite length_app, !length_enc_ptr; cbn; lia]); f_equal.
Qed.

(** ** Steps on a state *)

Section steps.
Context {JC : JsonC}.

Lemma codec_HS {A} (m : ST cstate A) c l kv now reqs jobs reps a c' :
  m c = Ok (a, c') → codec m (HS c l kv now reqs jobs reps) = Ok (a, HS c' l kv now reqs jobs reps).
Proof. intros Hm. unfold codec. cbn [h_c]. by rewrite Hm. Qed.

Lemma reply_HS req code c l kv now reqs jobs reps q : reqs !! req = Some q →
  evhtp_send_reply req code (HS c l kv now reqs jobs reps)
  = Ok (tt, HS c l kv now (delete req reqs) jobs (reps ++ [(req, code, q_out q)])).
Proof. intros Hq. by rewrite (send_reply_run req q). Qed.

(** The error exit frees the body, the structure and the context. *)
Lemma err_run req q h n e l kv now reqs jobs reps b i v own (ctx : ptr) :
  reqs !! req = Some q → is_Some (h !! b) → holds kvm_obj h i v own → b ∉ i :: own →
  (∀ x, ctx = Some x → x.2 = 0 ∧ is_Some (h !! x.1) ∧ x.1 ≠ b ∧ x.1 ∉ i :: own) →
  ∃ h', kvmanage_err req (Some (b, 0)) (Some (i, 0)) ctx (HS (CS h n e) l kv now reqs jobs reps)
      = Ok (tt, HS (CS h' n e) l kv now (delete req reqs) jobs (reps ++ [(req, EVHTP_RES_BADREQ, q_out q)])) ∧
    ∀ a, h' !! a = if decide (a ∈ b :: i :: own ++ from_option (λ x, [x.1]) [] ctx) then None else h !! a.
Proof.
  intros Hq Hb Hi Hbi Hctx. unfold kvmanage_err. erewrite bind_run by (apply codec_HS; by apply free_block).
  assert (holds kvm_obj (delete b h) i v own) as Hi'.
  { eapply holds_frame; [done|exact Hi|]. intros x Hx. rewrite lookup_delete_ne; [done|]. by intros ->. }
  destruct (free_holds kvm_obj (delete b h) n e i v own kvm_struct Hi') as (h2 & Hfree & Hh2).
  erewrite bind_run by (apply codec_HS; exact Hfree).
  assert (∀ a, h2 !! a = if decide (a ∈ b :: i :: own) then None else h !! a) as Hh2'.
  { intros a. rewrite Hh2. destruct (decide (a ∈ i :: own)) as [Ha|Ha].
    - by rewrite decide_True by (by right).
    - destruct (decide (a = b)) as [->|Hne]; [rewrite decide_True by left; apply lookup_delete_eq|].
      rewrite decide_False, lookup_delete_ne by (done || by apply not_elem_of_cons). done. }
  destruct ctx as [x|].
  - destruct (Hctx x eq_refl) as (Hx0 & Hxl & Hxb & Hxi). exists (delete x.1 h2). split.
    + erewrite bind_run; [by apply reply_HS|]. apply codec_HS. rewrite free_start; [done|done|].
      rewrite Hh2', decide_False; [done|]. by apply not_elem_of_cons.
    + intros a. destruct (decide (a = x.1)) as [->|Hne].
      * rewrite lookup_delete_eq, decide_True; [done|]. do 2 right. apply elem_of_app. right. left.
      * rewrite lookup_delete_ne, Hh2' by done. apply decide_ext. cbn. rewrite !elem_of_cons, elem_of_app, list_elem_of_singleton. tauto.
  - exists h2. split; [by erewrite bind_run by reflexivity; apply reply_HS|]. intros a. cbn. by rewrite app_nil_r.
Qed.

(** The callback: the request is answered, and all memory of the job is freed. *)
Lemma bottom_run arg req info v own status q h n e l kv now reqs jobs reps :
  job_mem h arg req info v own → reqs !! req = Some q →
  ∃ h', priskv_http_api_kvmanage_bottom (Some (arg, 0)) status (HS (CS h n e) l kv now reqs jobs reps)
      = Ok (tt, HS (CS h' n e) l kv now (delete req reqs) jobs
                  (reps ++ [(req, if status =? 0 then EVHTP_RES_200 else EVHTP_RES_BADREQ, q_out q)])) ∧
    ∀ a, h' !! a = if decide (a ∈ arg :: info :: own) then None else h !! a.
Proof.
  intros [Ha Hi Hap] Hq. destruct (arg_ptrs _ _ _ _ Ha) as [Hr Hin]. unfold priskv_http_api_kvmanage_bottom.
  erewrite bind_run by (apply codec_HS, load_run; exact Hr). cbv iota beta zeta. cbn [fst].
  erewrite bind_run by (apply codec_HS, load_run; exact Hin).
  destruct (free_holds kvm_obj h n e info v own kvm_struct Hi) as (h2 & Hfree & Hh2).
  erewrite bind_run by (apply codec_HS; exact Hfree).
  exists (delete arg h2). split.
  - erewrite bind_run; [|unfold evhtp_request_resume; erewrite bind_run by (by apply get_req_run); reflexivity].
    unfold with_reqs. cbn [h_c h_acl h_kv h_now h_reqs h_jobs h_replies].
    erewrite bind_run by (apply reply_HS, lookup_insert_eq). rewrite delete_insert_eq.
    destruct (status =? 0); cbn [negb]; (rewrite (codec_HS _ _ _ _ _ _ _ _ tt (CS (delete arg h2) n e)); [done|]);
      (apply free_block; rewrite Hh2, decide_False by done; by eexists).
  - intros a. destruct (decide (a = arg)) as [->|Hne].
    + rewrite lookup_delete_eq, decide_True by left. done.
    + rewrite lookup_delete_ne, Hh2 by done. apply decide_ext. rewrite (elem_of_cons _ a arg). tauto.
Qed.
End steps.

(** ** The handler *)

Section handler.
Context {JC : JsonC} {JL : JsonLaws JC}.
Context (avail : Z → bool) (connect : list Z → Z → bool) (set_async : nat → list Z * bool).
Hypothesis Havail : ∀ n, avail n = true.
Hypothesis Htakes : ∀ n, set_async n = ([], true).

(** The text of a body as an address, a port and keys. *)
Definition keys_of (text : list Z) : option (list Z * Z * list (list Z)) :=
  match (json_tokener_parse_verbose text).1 with None => None | Some j => posted_keys (view j) end.

Definition asked_keys (q : request) : option (list Z * Z * list (list Z)) := body_of q ≫= keys_of.

(** Keys the store can have, and few enough to be counted with the steps. *)
Definition keys_ok (q : request) : Prop :=
  ∀ addr port ks, asked_keys q = Some (addr, port, ks) → Forall valid_key ks ∧ Z.of_nat (length ks) < 2 ^ 29.

Notation live_jobs s := (∀ arg, is_Some (h_jobs s !! arg) → arg < c_next (h_c s)).

(** The request is refused at once; nothing is left in memory if the body could be read. *)
Definition refused (req : Z) (q : request) (s : hstate) (pins : Z → Z) (m : ST hstate unit) : Prop :=
  ∃ c' kv' code, m s = Ok (tt, HS c' (h_acl s) kv' (h_now s) (delete req (h_reqs s)) (h_jobs s) (h_replies s ++ [(req, code, q_out q)])) ∧
    code ≠ EVHTP_RES_200 ∧ kept (h_c s) c' ∧ kinv kv' pins ∧ (is_Some (asked_keys q) → c_heap c' = c_heap (h_c s)).

(** The request is paused and has a job, whose memory is new. *)
Definition started (act : priskv_kvmanage_action) (req : Z) (q : request) (s : hstate) (pins : Z → Z) (m : ST hstate unit) : Prop :=
  ∃ c' kv' q' arg info v own j addr port ks,
    m s = Ok (tt, HS c' (h_acl s) kv' (h_now s) (<[req := q']> (h_reqs s)) (<[arg := j]> (h_jobs s)) (h_replies s)) ∧
    q_out q' = q_out q ∧ kept (h_c s) c' ∧ kinv kv' pins ∧ (∀ b, b ∈ arg :: info :: own → c_next (h_c s) <= b) ∧
    (∀ b, c_next (h_c s) <= b → is_Some (c_heap c' !! b) → b ∈ arg :: info :: own) ∧
    job_mem (c_heap c') arg req info v own ∧ asked_keys q = Some (addr, port, ks) ∧ is_Some (j_ctx j) ∧
    kvm_phase act ks (KVM kv' (h_now s) (j_ctx j) (j_pending j) (j_later j) (j_sent j) []).

Lemma run_job_HS {A} arg (m : ST kvm A) c l kv now reqs jobs reps j a k :
  jobs !! arg = Some j → m (KVM kv now (j_ctx j) (j_pending j) (j_later j) (j_sent j) []) = Ok (a, k) →
  run_job arg m (HS c l kv now reqs jobs reps)
  = Ok (a, m_done k, HS c l (g_kv k) (m_now k) reqs
         (match m_ctx k with
          | None => delete arg jobs
          | Some _ => <[arg := mk_job (m_ctx k) (m_pending k) (m_later k) (m_sent k)]> jobs
          end) reps).
Proof. intros Hj Hm. unfold run_job, kvm_of. cbn [h_c h_acl h_kv h_now h_reqs h_jobs h_replies]. rewrite Hj, Hm. done. Qed.

(** After decoding: the structure, the argument, and what the action gives. *)
Lemma call_action_run act addr port ks c l kv now reqs jobs reps arg pins :
  act ≠ PRISKV_KVMANAGE_MAX → Forall valid_key ks → Z.of_nat (length ks) < 2 ^ 29 → ks ≠ [] →
  kinv kv pins → pins_ok pins → jobs !! arg = None →
  ∃ kv', kinv kv' pins ∧
    (call_action connect set_async act addr port ks (Z.of_nat (length ks)) (Some (arg, 0)) (HS c l kv now reqs jobs reps)
       = Ok (-1, HS c l kv' now reqs jobs reps) ∨
     ∃ j, call_action connect set_async act addr port ks (Z.of_nat (length ks)) (Some (arg, 0)) (HS c l kv now reqs jobs reps)
       = Ok (0, HS c l kv' now reqs (<[arg := j]> jobs) reps) ∧ is_Some (j_ctx j) ∧
       kvm_phase act ks (KVM kv' now (j_ctx j) (j_pending j) (j_later j) (j_sent j) [])).
Proof.
  intros Hact Hv Hl Hne Hi Hp Hj. unfold call_action. erewrite bind_run by reflexivity. unfold with_job.
  cbn [h_c h_acl h_kv h_now h_reqs h_jobs h_replies]. destruct (connect addr port).
  - destruct (ks !! 0%nat) as [key|] eqn:Hk; [|apply lookup_ge_None in Hk; destruct Hne; apply nil_length_inv; lia].
    destruct (action_start set_async Htakes act ks Hact Hv kv now pins key Hk Hi Hp) as (kv' & Hi' & Hrun & _).
    exists kv'. split; [done|]. unfold kvm_start in Hrun.
    destruct (readable kv key now) as [en|].
    + right. eexists. split; [|split].
      * erewrite bind_run by (eapply run_job_HS; [apply lookup_insert_eq|exact Hrun]).
        cbv iota beta. erewrite bind_run by reflexivity. cbn [m_ctx m_pending m_later m_sent m_done g_kv m_now].
        by rewrite insert_insert_eq.
      * by eexists.
      * cbn [j_ctx j_pending j_later j_sent]. split; [done|]. left. exists 0%nat. apply lookup_lt_Some in Hk as Hlt.
        do 4 (split; [done|]). unfold sent_keys. cbn. by rewrite (take_S_r ks 0 key).
    + left. erewrite bind_run by (eapply run_job_HS; [apply lookup_insert_eq|exact Hrun]).
      cbv iota beta. erewrite bind_run by reflexivity. cbn [m_ctx m_done g_kv m_now]. by rewrite delete_insert_id.
  - exists kv. split; [done|]. left.
    erewrite bind_run by (eapply run_job_HS; [apply lookup_insert_eq|reflexivity]).
    cbv iota beta. erewrite bind_run by reflexivity. cbn [m_ctx m_done g_kv m_now]. by rewrite delete_insert_id.
Qed.

Section request.
Context (act : priskv_kvmanage_action) (req : Z) (q : request) (s : hstate) (pins : Z → Z).
Hypothesis Hact : act ≠ PRISKV_KVMANAGE_MAX.
Hypothesis Hq : h_reqs s !! req = Some q.
Hypothesis Hf : fresh_above (c_heap (h_c s)) (c_next (h_c s)).
Hypothesis Hjobs : live_jobs s.
Hypothesis Hi : kinv (h_kv s) pins.
Hypothesis Hp : pins_ok pins.
Hypothesis Hcomp : complete q.
Hypothesis Hkeys : keys_ok q.

Notation h := (c_heap (h_c s)).
Notation n := (c_next (h_c s)).
Notation e := (c_error (h_c s)).
Notation st c kv reqs jobs := (HS c (h_acl s) kv (h_now s) reqs jobs (h_replies s)).

Lemma plain_refused code : code ≠ EVHTP_RES_200 → refused req q s pins (evhtp_send_reply req code).
Proof.
  intros Hne. exists (h_c s), (h_kv s), code. rewrite (send_reply_run req q) by done. do 2 (split; [done|]).
  split; [split; [done|by split]|done].
Qed.

(** The error exit when the body, the structure and the context are all there is. *)
Lemma err_restores h2 n2 e2 kv2 reqs2 q2 info v own (ctx : ptr) :
  let more := from_option (λ x, [x.1]) [] ctx in
  reqs2 !! req = Some q2 → (∀ a, a < n → h2 !! a = h !! a) → is_Some (h2 !! n) → holds kvm_obj h2 info v own →
  (∀ b, b ∈ info :: own ++ more → n < b) →
  (∀ x, ctx = Some x → x.2 = 0 ∧ is_Some (h2 !! x.1) ∧ x.1 ∉ info :: own) →
  (∀ a, n <= a → is_Some (h2 !! a) → a ∈ n :: info :: own ++ more) →
  kvmanage_err req (Some (n, 0)) (Some (info, 0)) ctx (st (CS h2 n2 e2) kv2 reqs2 (h_jobs s))
  = Ok (tt, HS (CS h n2 e2) (h_acl s) kv2 (h_now s) (delete req reqs2) (h_jobs s) (h_replies s ++ [(req, EVHTP_RES_BADREQ, q_out q2)])).
Proof.
  intros more Hq2 Hold Hn Hinfo Hnew Hctx Hall.
  destruct (err_run req q2 h2 n2 e2 (h_acl s) kv2 (h_now s) reqs2 (h_jobs s) (h_replies s) n info v own ctx Hq2 Hn Hinfo)
    as (h' & -> & Hh').
  - intros Hin. assert (n < n); [|lia]. apply Hnew. rewrite app_comm_cons. apply elem_of_app. by left.
  - intros x Hx. destruct (Hctx x Hx) as (? & ? & ?). split; [done|]. split; [done|]. split; [|done].
    assert (n < x.1); [|lia]. apply Hnew. rewrite app_comm_cons. apply elem_of_app. right. unfold more. rewrite Hx. left.
  - do 4 f_equal. apply (heap_restored _ _ n Hf).
    + intros a Ha. rewrite Hh', decide_False; [by apply Hold|]. intros Hin. apply elem_of_cons in Hin as [->|Hin]; [lia|].
      apply Hnew in Hin. lia.
    + intros a Ha. rewrite Hh'. case_decide as Hin; [done|]. destruct (h2 !! a) eqn:Hx; [|done].
      destruct Hin. apply Hall; [done|]. by rewrite Hx.
Qed.

(** With the structure decoded after the body, the handler up to the action. *)
Lemma decoded_run bs h1 n1 addr port ks :
  let h0 := <[n := MByte <$> bs ++ [0]]> h in
  let info := n + 1 in
  asked_keys q = Some (addr, port, ks) → Z.of_nat (length ks) < 2 ^ 31 →
  read_value kvm_obj h1 (info, 0) = Ok (VStruct (kvm_value addr port ks)) →
  owned kvm_obj h1 (info, 0) = blocks (info + 1) n1 → (∀ a, info <= a < n1 → is_Some (h1 !! a)) → info < n1 →
  fresh_above h1 n1 → (∀ a, a < info → h1 !! a = h0 !! a) →
  let m :=
    addr ← codec (load ld_ptr (Some (info, 0)));
    addr_text ← match addr with None => mret [] | Some _ => codec (load ld_string addr) end;
    port ← codec (load ld_int (pplus (Some (info, 0)) 8));
    nkeys ← codec (load ld_int (pplus (Some (info, 0)) 24));
    keys ← codec (load ld_ptr (pplus (Some (info, 0)) 16));
    if bool_decide (addr_text = []) || (port =? 0) || (nkeys =? 0) || bool_decide (keys = None) then
      kvmanage_err req (Some (n, 0)) (Some (info, 0)) None
    else
      ctx ← codec (calloc avail 1 16);
      _ ← codec (store ctx (enc_ptr (Some (req, 0))));
      _ ← codec (store (pplus ctx 8) (enc_ptr (Some (info, 0))));
      ks ← codec (read_keys keys (seqZ 0 nkeys));
      r ← call_action connect set_async act addr_text port ks nkeys ctx;
      if r <? 0 then kvmanage_err req (Some (n, 0)) (Some (info, 0)) ctx
      else _ ← codec (free (Some (n, 0))); evhtp_request_pause req in
  let m' := λ _ : hstate, m (st (CS h1 n1 e) (h_kv s) (<[req := taken q]> (h_reqs s)) (h_jobs s)) in
  refused req q s pins m' ∨ started act req q s pins m'.
Proof.
  intros h0 info Hask Hlen Hread Hown Hlive Hn1 Hf1 Hold m m'. unfold refused, started, m'. clear m'.
  assert (h1 !! n = Some (MByte <$> bs ++ [0])) as Hbody by (rewrite Hold by (unfold info; lia); apply lookup_insert_eq).
  assert (∀ a, a < n → h1 !! a = h !! a) as Holdn.
  { intros a Ha. rewrite Hold by (unfold info; lia). unfold h0. by rewrite lookup_insert_ne by lia. }
  pose proof (decoded_holds kvm_obj h1 info n1 _ Hread Hown Hlive Hn1) as Hholds. set (own := seqZ _ _) in Hholds.
  assert (∀ a, a ∈ info :: own ↔ info <= a < n1) as Helem.
  { intros a. unfold own. rewrite elem_of_cons, elem_of_seqZ. lia. }
  assert (n ∉ info :: own) as Hnb by (rewrite Helem; unfold info; lia).
  set (reqs1 := <[req := taken q]> (h_reqs s)). assert (reqs1 !! req = Some (taken q)) as Hq1 by apply lookup_insert_eq.
  assert (delete req reqs1 = delete req (h_reqs s)) as Hdel by apply delete_insert_eq.
  assert (∀ a, n <= a → is_Some (h1 !! a) → a = n ∨ a ∈ info :: own) as Hall1.
  { intros a Ha Hl. apply Hf1 in Hl. rewrite Helem. unfold info. lia. }
  destruct (keys_in_memory h1 info addr port ks Hread Hlen) as (pa & base & Hpa & Haddr & Hport & Hnk & Hbase & Hels).
  assert (kept (h_c s) (CS h n1 e)) as Hkept.
  { split; [cbn; unfold info in *; lia|]. split; [|done]. cbn. intros a Ha. apply Hf in Ha. unfold info in *. lia. }
  unfold m. erewrite bind_run by (apply codec_HS, load_run; exact Hpa). cbv iota beta.
  erewrite bind_run by (apply codec_HS, load_run; exact Haddr).
  erewrite bind_run by (apply codec_HS, load_run; exact Hport).
  erewrite bind_run by (apply codec_HS, load_run; exact Hnk).
  erewrite bind_run by (apply codec_HS, load_run; exact Hbase).
  destruct (bool_decide (addr = []) || (port =? 0) || (Z.of_nat (length ks) =? 0) || bool_decide (base = None)) eqn:Hbad.
  { left. exists (CS h n1 e), (h_kv s), EVHTP_RES_BADREQ. split; [|done].
    rewrite (err_restores h1 n1 e (h_kv s) reqs1 (taken q) info (VStruct (kvm_value addr port ks)) own None Hq1 Holdn); [by rewrite Hdel| |exact Hholds| | |].
    - rewrite Hbody. by eexists.
    - cbn. rewrite app_nil_r. intros b Hb. apply Helem in Hb. unfold info in *. lia.
    - done.
    - cbn. rewrite app_nil_r. intros a Ha Hl. apply elem_of_cons. by apply Hall1. }
  apply orb_false_iff in Hbad as [[[_ _]%orb_false_iff Hnz]%orb_false_iff _]. apply Z.eqb_neq in Hnz.
  (* the context *)
  set (zs := replicate 8 (MByte 0)). set (a1 := enc_ptr (Some (req, 0))). set (a2 := enc_ptr (Some (info, 0))).
  set (h2 := <[n1 := a1 ++ a2]> h1).
  erewrite bind_run.
  2:{ apply codec_HS. unfold calloc, new_block. cbn [c_next c_heap c_error]. rewrite Havail.
      change (replicate (Z.to_nat (1 * 16)) (MByte 0)) with (zs ++ zs). reflexivity. }
  erewrite bind_run.
  2:{ apply codec_HS. unfold store. cbn [c_heap c_next c_error]. rewrite sto_start by done. reflexivity. }
  erewrite bind_run.
  2:{ apply codec_HS. unfold store. cbn [c_heap c_next c_error pplus mbind option_bind].
      change (padd (n1, 0) 8) with (n1, Z.of_nat (length a1)). rewrite sto_end by done. reflexivity. }
  fold h2. cbn [c_next].
  assert (∀ a, a ≠ n1 → h2 !! a = h1 !! a) as Hh2 by (intros a Ha; unfold h2; by rewrite lookup_insert_ne by done).
  assert (holds kvm_obj h2 info (VStruct (kvm_value addr port ks)) own) as Hholds2.
  { eapply holds_frame; [done|exact Hholds|]. intros b Hb. apply Hh2. apply Helem in Hb. lia. }
  destruct (keys_in_memory h2 info addr port ks (ho_read _ _ _ _ _ Hholds2) Hlen) as (_ & base2 & _ & _ & _ & _ & Hbase2 & Hels2).
  assert (base2 = base) as ->.
  { unfold ld_ptr in Hbase, Hbase2. rewrite (ld_block h1 h2) in Hbase2 by (apply Hh2; cbn; lia). rewrite Hbase in Hbase2. congruence. }
  erewrite bind_run by (apply codec_HS; by apply read_keys_run).
  destruct (Hkeys _ _ _ Hask) as [Hval Hsteps].
  destruct (call_action_run act addr port ks (CS h2 (n1 + 1) e) (h_acl s) (h_kv s) (h_now s) reqs1 (h_jobs s) (h_replies s) n1 pins)
    as (kv' & Hi' & [Hrun|(j & Hrun & Hctx & Hph)]); try done.
  { intros ->. done. }
  { destruct (h_jobs s !! n1) eqn:Hj; [|done]. assert (n1 < n); [|unfold info in *; lia]. apply Hjobs. by rewrite Hj. }
  - left. erewrite bind_run by exact Hrun. cbn [Z.ltb Z.compare]. exists (CS h (n1 + 1) e), kv', EVHTP_RES_BADREQ. split.
    + rewrite (err_restores h2 (n1 + 1) e kv' reqs1 (taken q) info (VStruct (kvm_value addr port ks)) own (Some (n1, 0)) Hq1);
        [by rewrite Hdel| | |exact Hholds2| | |].
      * intros a Ha. rewrite Hh2 by (unfold info in *; lia). by apply Holdn.
      * rewrite Hh2, Hbody by (unfold info in *; lia). by eexists.
      * intros b Hb. rewrite app_comm_cons in Hb. apply elem_of_app in Hb as [Hb|Hb]; [apply Helem in Hb; unfold info in *; lia|].
        apply list_elem_of_singleton in Hb as ->. cbn. unfold info in *. lia.
      * intros x [= <-]. split; [done|]. split; [unfold h2; cbn; rewrite lookup_insert_eq; by eexists|]. rewrite Helem. cbn. lia.
      * intros a Ha Hl. destruct (decide (a = n1)) as [->|Hne]; [do 2 right; apply elem_of_app; right; left|].
        rewrite Hh2 in Hl by done. destruct (Hall1 a Ha Hl) as [->|Hin]; [left|]. right. rewrite app_comm_cons. apply elem_of_app. by left.
    + split; [done|]. split; [|done]. destruct Hkept as (? & ? & ?). split; [cbn in *; lia|]. split; [|done].
      intros a Ha. cbn in *. apply Hf in Ha. unfold info in *. lia.
  - right. erewrite bind_run by exact Hrun. cbn [Z.ltb Z.compare].
    exists (CS (delete n h2) (n1 + 1) e), kv', (set_paused (taken q) true), n1, info, (VStruct (kvm_value addr port ks)), own, j, addr, port, ks.
    assert (∀ b, b ∈ n1 :: info :: own → n < b) as Hnew.
    { intros b Hb. apply elem_of_cons in Hb as [->|Hb]; [unfold info in *; lia|]. apply Helem in Hb. unfold info in *. lia. }
    split; [|split; [done|split; [|split; [done|split; [|split; [|split; [|done]]]]]]].
    + erewrite bind_run; [|apply codec_HS, free_block; rewrite Hh2, Hbody by (unfold info in *; lia); by eexists].
      unfold evhtp_request_pause. erewrite bind_run by (by apply get_req_run). unfold put_req, modify, with_reqs.
      cbn [h_c h_acl h_kv h_now h_reqs h_jobs h_replies]. unfold reqs1. by rewrite insert_insert_eq.
    + split; [cbn; unfold info in *; lia|]. split; cbn [c_heap c_next].
      * intros a Ha. apply lookup_delete_is_Some in Ha as [_ Ha]. destruct (decide (a = n1)) as [->|]; [lia|].
        rewrite Hh2 in Ha by done. apply Hf1 in Ha. lia.
      * intros a Ha. rewrite lookup_delete_ne, Hh2 by (unfold info in *; lia). by apply Holdn.
    + intros b Hb. apply Hnew in Hb. lia.
    + intros b Hb Hl. cbn [c_heap] in Hl. apply lookup_delete_is_Some in Hl as [Hbn Hl].
      destruct (decide (b = n1)) as [->|Hne]; [left|]. rewrite Hh2 in Hl by done. right. destruct (Hall1 b Hb Hl) as [->|]; done.
    + apply (job_mem_frame h2).
      * split; [unfold h2; by rewrite lookup_insert_eq|exact Hholds2|]. rewrite Helem. lia.
      * intros b Hb. cbn [c_heap]. rewrite lookup_delete_ne; [done|]. apply Hnew in Hb. lia.
Qed.

(** The decoding failed: only the body is freed. *)
Lemma undecoded_refused bs h1 n1 e1 :
  asked_keys q = None → h1 !! n = Some (MByte <$> bs ++ [0]) → (∀ a, a < n → h1 !! a = h !! a) → n <= n1 → fresh_above h1 n1 →
  refused req q s pins (λ _, kvmanage_err req (Some (n, 0)) None None
    (st (CS h1 n1 e1) (h_kv s) (<[req := taken q]> (h_reqs s)) (h_jobs s))).
Proof.
  intros Hask Hbody Hold Hn1 Hf1. exists (CS (delete n h1) n1 e1), (h_kv s), EVHTP_RES_BADREQ. split.
  - unfold kvmanage_err. erewrite bind_run by (apply codec_HS, free_block; rewrite Hbody; by eexists).
    do 2 erewrite bind_run by (apply codec_HS; reflexivity). erewrite reply_HS by apply lookup_insert_eq.
    by rewrite delete_insert_eq.
  - split; [done|]. split; [|rewrite Hask; split; [done|by intros [? ?]]]. split; [cbn; lia|]. split; cbn [c_heap c_next].
    + intros a Ha. apply lookup_delete_is_Some in Ha as [_ Ha]. by apply Hf1.
    + intros a Ha. rewrite lookup_delete_ne by lia. by apply Hold.
Qed.

Lemma manage_cases :
  let m := priskv_http_api_kvmanage avail connect set_async req act in
  refused req q s pins m ∨ started act req q s pins m.
Proof.
  intros m. unfold m, priskv_http_api_kvmanage.
  unfold refused, started. erewrite bind_run by (by apply get_req_run).
  destruct (decide (q_method q ≠ htp_method_POST)) as [Hm|Hm]; [left; by apply plain_refused|].
  pose proof (get_body_run avail Havail req q s h n e Hq (ltac:(by destruct (h_c s))) Hcomp) as Hbody.
  destruct (body_of q) as [text|] eqn:Htext.
  2:{ erewrite bind_run by exact Hbody. left. by apply plain_refused. }
  destruct Hbody as (bs & Hbs & Hrun). erewrite bind_run by exact Hrun. cbv iota beta.
  set (h0 := <[n := MByte <$> bs ++ [0]]> h). unfold with_reqs, with_c. cbn [h_c h_acl h_kv h_now h_reqs h_jobs h_replies].
  assert (fresh_above h0 (n + 1)) as Hf0 by (by apply fresh_insert).
  erewrite bind_run by (apply codec_HS, load_run, ld_string_bytes, lookup_insert_eq). rewrite Hbs.
  destruct (decode_run avail Havail text kvm_obj h0 (n + 1) e kvm_struct Hf0 (body_short _ _ Hcomp Htext))
    as (p & h1 & n1 & e1 & Hdec & Hold & Hn1 & Hf1 & Hout).
  erewrite bind_run by (apply codec_HS; exact Hdec).
  assert (h1 !! n = Some (MByte <$> bs ++ [0])) as Hn by (rewrite Hold by lia; apply lookup_insert_eq).
  assert (∀ a, a < n → h1 !! a = h !! a) as Holdn.
  { intros a Ha. rewrite Hold by lia. unfold h0. by rewrite lookup_insert_ne by lia. }
  assert (asked_keys q = keys_of text) as Hask by (unfold asked_keys; by rewrite Htext). unfold keys_of in Hask.
  destruct (json_tokener_parse_verbose text) as [[j|] desc] eqn:Hparse; cbn [fst] in Hask.
  2:{ destruct Hout as [-> ->]. left. by apply (undecoded_refused bs); [..|lia|]. }
  pose proof (decode_keys (view j)) as Hkeys'. destruct (decode_spec kvm_obj (view j)) as [vs|msg] eqn:Hspec.
  2:{ destruct Hout as [-> ->]. left. apply (undecoded_refused bs); [congruence|done|done|lia|done]. }
  destruct Hkeys' as (addr & port & ks & Hposted & ->). destruct Hout as (-> & -> & Hread & Hown & Hlive & Hlt).
  rewrite Hposted in Hask. assert (Z.of_nat (length ks) < 2 ^ 31) as Hlen by (destruct (Hkeys _ _ _ Hask); lia).
  apply (decoded_run bs h1 n1 addr port ks); try done.
Qed.
End request.
End handler.
