(* ===== verification/HttpInfo.v ===== *)
(** * The HTTP interface: reports

    What the handlers of [/api/info], [/api/version] and [/api/ping] answer, and the
    theorems about the access list and the report as a client of the interface sees
    them. *)

From S2P Require Import Prelude State Utils CString Crc Lists Protocol Wire Memory Slab Buddy Alloc KvModel KvInv KvOps KvSweep KvKeys KvStart KvSystem Examples ServerModel KvManage KvManageProps Acl CMem Codec CodecSpec CodecMem CodecCode CodecJson CodecProps Info InfoProps InfoReport InfoDrivers Http HttpProps.

Local Open Scope string_scope.
Local Open Scope list_scope.
Local Open Scope Z_scope.

(** One reply, and memory as it was. *)
Definition replies_with (s : hstate) (req code : Z) (body : list Z) (m : ST hstate unit) : Prop :=
  ∃ n' : Z, c_next (h_c s) <= n' ∧
    m s = Ok (tt, replied s (CS (c_heap (h_c s)) n' (c_error (h_c s))) (h_acl s) req code body).

(** Text that parses to a tree. *)
Definition text_of {JC : JsonC} {JL : JsonLaws JC} (t : jtree) (text : list Z) : Prop :=
  view <$> (json_tokener_parse_verbose text).1 = Some t.

Section info.
Context {JC : JsonC} {JL : JsonLaws JC}.
Context (avail : Z → bool) (strerror_errno version : list Z).
Hypothesis Havail : ∀ n, avail n = true.
Context (hs : heap) (mem : priskv_mem_info) (listeners : list priskv_rdma_listener) (stat : option (list Z)) (clk_tck : Z).

Notation world_of s := (world_of mem listeners stat clk_tck s).

Section request.
Context (req : Z) (q : request) (s : hstate).
Hypothesis Hq : h_reqs s !! req = Some q.

Lemma plain_reply code : replies_with s req code (q_out q) (evhtp_send_reply req code).
Proof.
  exists (c_next (h_c s)). split; [apply Z.le_refl|]. rewrite (send_reply_run req q _ _ Hq). unfold replied. by destruct (h_c s).
Qed.

(** The handler's run up to the reply, on states of the form [after]. *)
Lemma send_after c l reqs code q' : reqs !! req = Some q' →
  evhtp_send_reply req code (after s c l reqs) = Ok (tt, HS c l (h_kv s) (h_now s) (delete req reqs) (h_jobs s) (h_replies s ++ [(req, code, q_out q')])).
Proof. intros Hq'. by rewrite (send_reply_run req q'). Qed.
End request.

(** ** The report *)

Definition item_names : list (list Z) := str <$> ["all"; "acl"; "memory"; "kv"; "connection"; "cpu"].

Definition item_known (it : item) : bool := match it with None => true | Some x => bool_decide (x ∈ item_names) end.

(** A status of refusal, or the items to report. *)
Definition info_asked (q : request) : Z + list item :=
  if decide (q_method q ≠ htp_method_GET) then inl EVHTP_RES_METHNALLOWED
  else if negb (bool_decide (q_path q = str "/api/info")) then inl EVHTP_RES_NOTFOUND
  else match query_items (default [] (q_query q)) [] with
       | Some items => if forallb item_known items then inr items else inl EVHTP_RES_BADREQ
       | None => inl EVHTP_RES_BADREQ
       end.

Lemma item_available w it : priskv_info_item_available avail w it = item_known it.
Proof.
  destruct it as [x|]; [|done]. cbn [priskv_info_item_available item_known]. apply eq_true_iff_eq.
  rewrite existsb_exists, bool_decide_eq_true. unfold item_names. split.
  - intros (d & Hd & Hx). apply orb_true_iff in Hx as [Hx|Hx]; apply bool_decide_eq_true in Hx as ->; [left|].
    cbn in Hd. destruct Hd as [<-|[<-|[<-|[<-|[<-|[]]]]]]; cbn [d_name fmap list_fmap]; repeat (apply list_elem_of_here || apply list_elem_of_further).
  - intros Hx. apply elem_of_cons in Hx as [->|Hx].
    { eexists. split; [left; reflexivity|done]. }
    change (x ∈ d_name <$> g_info_drv avail w) in Hx. apply list_elem_of_fmap in Hx as (d & -> & Hd). exists d. split; [by apply list_elem_of_In|].
    apply orb_true_iff. right. by apply bool_decide_eq_true.
Qed.

Lemma items_available w items : priskv_info_items_available avail w (Some items) = forallb item_known items.
Proof. cbn. induction items as [|it items IH]; [done|]. cbn. by rewrite item_available, IH. Qed.

Lemma info_cb_run req q s :
  h_reqs s !! req = Some q → fresh_above (c_heap (h_c s)) (c_next (h_c s)) → hs ⊆ c_heap (h_c s) →
  match info_asked q with
  | inl code => replies_with s req code (q_out q) (priskv_http_api_info_cb avail strerror_errno mem listeners stat clk_tck req)
  | inr items => reportable hs (world_of s) items → ∃ names ts text,
      replies_with s req EVHTP_RES_OK (q_out q ++ text) (priskv_http_api_info_cb avail strerror_errno mem listeners stat clk_tck req) ∧
      NoDup names ∧ (∀ x, x ∈ names ↔ requested items x) ∧ Forall2 (reported hs (world_of s)) names ts ∧
      text_of (JObject (zip names ts)) text
  end.
Proof.
  intros Hq Hf Hsub. unfold replies_with, info_asked, priskv_http_api_info_cb. erewrite bind_run by (by apply get_req_run).
  case_decide; [by apply plain_reply|]. destruct (negb _); [by apply plain_reply|].
  destruct (query_items _ []) as [items|]; [|by apply plain_reply].
  erewrite bind_run by reflexivity. rewrite items_available. destruct (forallb item_known items); cbn [negb]; [|by apply plain_reply].
  intros Hrep. destruct (info_json_run avail Havail strerror_errno hs (world_of s) items _ _ (c_error (h_c s)) Hf Hsub Hrep)
    as (names & ts & j & t & n' & Hrun & Hnd & Hin & Hts & Hview & [Hplain Hdepth] & Ht).
  set (h := c_heap (h_c s)) in *. set (n := c_next (h_c s)) in *. set (e := c_error (h_c s)) in *. set (text := json_object_to_json_string j) in *.
  exists names, ts, text. split; [|split; [done|split; [done|split; [done|]]]].
  2:{ unfold text_of, text. rewrite law_parse by done. by rewrite Hview. }
  exists n'. split; [lia|]. assert (CS h n e = h_c s) as Hc by (unfold h, n, e; by destruct (h_c s)). rewrite Hc in Hrun.
  erewrite (bind_run (codec _)) by (apply (codec_run _ _ _ _ Hrun)).
  change (with_c s ?c) with (after s c (h_acl s) (h_reqs s)).
  erewrite bind_run.
  2:{ apply codec_after, load_run. cbn [c_heap]. rewrite (ld_stored_string _ t text) by apply lookup_insert_eq. by rewrite cstr_id by apply law_text. }
  erewrite bind_run by (by apply evbuffer_add_after).
  erewrite bind_run.
  2:{ apply codec_after. rewrite free_block by (rewrite lookup_insert_eq; by eexists).
      rewrite delete_insert_eq, delete_id; [reflexivity|]. destruct (h !! t) eqn:Hh; [|done].
      assert (t < n); [|lia]. apply Hf. by rewrite Hh. }
  erewrite bind_run by (apply add_header_after, lookup_insert_eq). rewrite insert_insert_eq.
  rewrite (send_after _ _ _ _ _ _ _ (lookup_insert_eq _ _ _)). unfold replied. by rewrite delete_insert_eq.
Qed.

(** ** Version and ping *)

Lemma ping_run req q s : h_reqs s !! req = Some q →
  ∃ code body, replies_with s req code body (priskv_http_api_ping_cb req) ∧
    (code = EVHTP_RES_OK ∧ body = q_out q ++ str "pong" ∧ q_path q = str "/api/ping" ∧ q_method q = htp_method_GET ∨
     code ≠ EVHTP_RES_OK ∧ body = q_out q).
Proof.
  intros Hq. unfold replies_with, priskv_http_api_ping_cb. erewrite bind_run by (by apply get_req_run).
  destruct (bool_decide (q_path q = str "/api/ping")) eqn:Hp; cbn [negb].
  2:{ eexists _, _. split; [exact (plain_reply req q s Hq _)|right; by split; [discriminate|]]. }
  destruct (decide (q_method q ≠ htp_method_GET)) as [Hm|Hm]; [eexists _, _; split; [exact (plain_reply req q s Hq _)|right; by split; [discriminate|]]|].
  eexists _, _. split; [|left; split; [done|]; split; [done|]; split; [by apply bool_decide_eq_true in Hp|by apply dec_stable]].
  exists (c_next (h_c s)). split; [lia|]. rewrite (after_same s) at 1. erewrite bind_run by (by apply evbuffer_add_after).
  erewrite send_after by apply lookup_insert_eq. unfold replied. rewrite delete_insert_eq. by destruct (h_c s).
Qed.

(** The response of the version handler, on its stack. *)
Lemma version_made h n e : fresh_above h n → no_nul version →
  let h2 := <[n + 1 := enc_ptr (Some (n, 0))]> (<[n := enc_string version]> h) in
  (literal ← local_var (S (length version)); _ ← store literal (enc_string version);
   resp ← local_var 8; _ ← store resp (enc_ptr literal); mret (literal, resp)) (CS h n e)
  = Ok ((Some (n, 0), Some (n + 1, 0)), CS h2 (n + 2) e) ∧
  seen_value priskv_version_response_obj h2 (n + 1, 0) = Ok (VStruct [VString (Some version)]) ∧
  ∀ n', (_ ← free (Some (n + 1, 0)); free (Some (n, 0))) (CS h2 n' e) = Ok (tt, CS h n' e).
Proof.
  intros Hf Hno h2. set (h1 := <[n := enc_string version]> h) in h2.
  assert (length (enc_string version) = S (length version)) as Hlen.
  { unfold enc_string. rewrite length_fmap, length_app. change (until_nul (u8 <$> version)) with (cstr version). rewrite cstr_id by done. cbn. lia. }
  assert (fresh_above h1 (n + 1)) as Hf1 by (by apply fresh_insert). split; [|split].
  - erewrite bind_run by reflexivity. cbn [c_next c_heap c_error]. erewrite bind_run.
    2:{ unfold store. cbn [c_heap c_next c_error]. rewrite <- (app_nil_r (replicate _ _)), sto_start by (by rewrite length_replicate).
        rewrite app_nil_r. reflexivity. }
    erewrite bind_run by reflexivity. cbn [c_next c_heap c_error]. erewrite bind_run.
    2:{ unfold store. cbn [c_heap c_next c_error]. rewrite <- (app_nil_r (replicate _ _)), sto_start by done. rewrite app_nil_r. reflexivity. }
    unfold mret, ST_ret. do 3 f_equal. lia.
  - unfold priskv_version_response_obj, PRISKV_DECL_OBJECT. cbn [read_with]. erewrite mapR_Forall2; [reflexivity|].
    constructor; [|constructor]. change (seen_value priskv_string_obj h2 (padd (n + 1, 0) 0) = Ok (VString (Some version))). rewrite padd_0.
    unfold priskv_string_obj. cbn [read_with]. rewrite (ld_stored_ptr h2 (n + 1, 0) (Some (n, 0))).
    + rewrite Ok_bind, (ld_stored_string h2 n version), Ok_bind; [by rewrite cstr_id|]. unfold h2. rewrite lookup_insert_ne by lia. apply lookup_insert_eq.
    + erewrite ld_Ok; [|apply lookup_insert_eq|done|done]. done.
  - intros n'. erewrite bind_run by (apply free_block; unfold h2; rewrite lookup_insert_eq; by eexists).
    unfold h2. rewrite delete_fresh by done. rewrite free_block by (unfold h1; rewrite lookup_insert_eq; by eexists).
    unfold h1. by rewrite delete_fresh.
Qed.

Lemma version_run req q s :
  h_reqs s !! req = Some q → fresh_above (c_heap (h_c s)) (c_next (h_c s)) → no_nul version →
  ∃ code body, replies_with s req code body (priskv_http_api_version_cb avail strerror_errno version req) ∧
    (code = EVHTP_RES_OK ∧ (∃ text, body = q_out q ++ text ∧ text_of (JObject [(str "version", JString version)]) text) ∧
       q_path q = str "/api/version" ∧ q_method q = htp_method_GET ∨
     code ≠ EVHTP_RES_OK ∧ body = q_out q).
Proof.
  intros Hq Hf Hno. set (h := c_heap (h_c s)) in *. set (n := c_next (h_c s)) in *. set (e := c_error (h_c s)).
  destruct (version_made h n e Hf Hno) as (Hmade & Hseen & Hleave). set (h2 := <[n + 1 := _]> _) in *.
  apply bind_inv in Hmade as (p1 & c1 & H1 & Hmade). apply bind_inv in Hmade as ([] & c2 & H2 & Hmade).
  apply bind_inv in Hmade as (p3 & c3 & H3 & Hmade). apply bind_inv in Hmade as ([] & c4 & H4 & Hmade). injection Hmade as -> -> ->.
  assert (CS h n e = h_c s) as Hc by (unfold h, n, e; by destruct (h_c s)). rewrite Hc in H1.
  (* the answers that free what is on the stack *)
  assert (∀ code, replies_with s req code (q_out q)
    (λ s', (_ ← (_ ← codec (free (Some (n + 1, 0))); codec (free (Some (n, 0)))); evhtp_send_reply req code)
             (after s (CS h2 (n + 2) e) (h_acl s) (h_reqs s)))) as Hrefuse.
  { intros code. exists (n + 2). split; [unfold n; lia|]. destruct (bind_inv _ _ _ _ (Hleave (n + 2))) as ([] & c & Hf1 & Hf2).
    erewrite bind_run.
    2:{ erewrite bind_run by (apply codec_after; exact Hf1). apply codec_after. exact Hf2. }
    by erewrite send_after. }
  unfold replies_with, priskv_http_api_version_cb. erewrite (bind_run (codec _)) by (apply (codec_run _ s _ _ H1)).
  change (with_c s ?c) with (after s c (h_acl s) (h_reqs s)). erewrite bind_run by (apply codec_after; exact H2).
  erewrite bind_run by (apply codec_after; exact H3). erewrite bind_run by (apply codec_after; exact H4).
  erewrite bind_run by (by apply get_req_run). destruct (bool_decide (q_path q = str "/api/version")) eqn:Hp; cbn [negb].
  2:{ eexists _, _. split; [exact (Hrefuse _)|right; by split; [discriminate|]]. }
  destruct (decide (q_method q ≠ htp_method_GET)) as [Hm|Hm]; [eexists _, _; split; [exact (Hrefuse _)|right; by split; [discriminate|]]|].
  assert (is_struct priskv_version_response_obj) as Hst by done.
  assert (typed priskv_version_response_obj (VStruct [VString (Some version)])) as Hty by done.
  destruct (code_run avail strerror_errno Havail _ h2 (n + 2) e _ _ Hst Hseen Hty) as (j & Hview & Hcode).
  destruct (code_plain _ (proj2 Hst) _ Hty) as [Hplain Hd]. rewrite <- Hview in Hplain, Hd.
  set (text := json_object_to_json_string j) in *.
  eexists EVHTP_RES_OK, (q_out q ++ text). split.
  2:{ left. split; [done|]. split; [|split; [by apply bool_decide_eq_true in Hp|by apply dec_stable]]. exists text. split; [done|].
      unfold text_of, text. rewrite law_parse; [by rewrite Hview|done|]. transitivity (obj_depth priskv_version_response_obj); [done|vm_compute; lia]. }
  exists (n + 2 + 1). split; [unfold n; lia|].
  erewrite bind_run by (apply codec_after; exact Hcode). cbv iota beta.
  erewrite bind_run.
  2:{ apply codec_after, load_run. cbn [c_heap]. rewrite (ld_stored_string _ (n + 2) text) by apply lookup_insert_eq. by rewrite cstr_id by apply law_text. }
  erewrite bind_run by (by apply evbuffer_add_after). erewrite bind_run.
  2:{ apply codec_after. rewrite free_block by (rewrite lookup_insert_eq; by eexists). rewrite delete_fresh; [reflexivity|].
      unfold h2. replace (n + 2) with (n + 1 + 1) by lia. apply fresh_insert. by apply fresh_insert. }
  erewrite bind_run by (apply add_header_after, lookup_insert_eq). rewrite insert_insert_eq.
  destruct (bind_inv _ _ _ _ (Hleave (n + 2 + 1))) as ([] & c & Hf1 & Hf2).
  erewrite bind_run.
  2:{ erewrite bind_run by (apply codec_after; exact Hf1). apply codec_after. exact Hf2. }
  erewrite send_after by apply lookup_insert_eq. unfold replied. by rewrite delete_insert_eq.
Qed.
End info.

(** ** What a client of the interface sees *)

(** (C32) Requests for the access list with a complete body and parameters that
    have values, when memory can be allocated and the rules of the list can be
    listed: the handler does what [acl_spec] says - refuses a path, a method, an
    action or JSON it does not know, adds or removes every posted rule in order and
    answers 400 when one fails, lists the rules as JSON that reads back as them -
    with one reply. The memory there was is kept, and all that was taken is given
    back, unless the JSON of a POST is refused ([failed_decode_leaks]). *)
Theorem http_acl_correct {JC : JsonC} {JL : JsonLaws JC} avail strerror_errno getaddrinfo req q s :
  (∀ n, avail n = true) → h_reqs s !! req = Some q → fresh_above (c_heap (h_c s)) (c_next (h_c s)) →
  complete q → listable (h_acl s) → valued q →
  let r := acl_spec getaddrinfo q (h_acl s) in
  ∃ c' text, priskv_http_api_acl_cb avail strerror_errno getaddrinfo req s = Ok (tt, replied s c' r.2 req r.1 (q_out q ++ text)) ∧
    kept (h_c s) c' ∧
    (q_method q ≠ htp_method_POST ∨ is_Some (asked_rules q) → c_heap c' = c_heap (h_c s)) ∧
    if bool_decide (shows_list q) then rules_of text = Some (acl_rule <$> h_acl s) else text = [].
Proof.
  intros Havail Hq Hf Hcomp Hl Hval r. by apply (acl_cb_answers avail strerror_errno getaddrinfo Havail req q s Hq Hf Hcomp).
Qed.

(** Requests for a report: they are refused as [info_asked] says, or answered
    with JSON that has exactly the items that were asked for, each once - all of them
    when none is named - and of each what the server knows; memory is as before. *)
Theorem http_info_correct {JC : JsonC} {JL : JsonLaws JC} avail strerror_errno hs mem listeners stat clk_tck req q s :
  (∀ n, avail n = true) → h_reqs s !! req = Some q → fresh_above (c_heap (h_c s)) (c_next (h_c s)) → hs ⊆ c_heap (h_c s) →
  let m := priskv_http_api_info_cb avail strerror_errno mem listeners stat clk_tck req in
  let w := world_of mem listeners stat clk_tck s in
  match info_asked q with
  | inl code => replies_with s req code (q_out q) m
  | inr items => reportable hs w items → ∃ names ts text,
      replies_with s req EVHTP_RES_OK (q_out q ++ text) m ∧
      NoDup names ∧ (∀ x, x ∈ names ↔ requested items x) ∧ Forall2 (reported hs w) names ts ∧ text_of (JObject (zip names ts)) text
  end.
Proof. intros Havail Hq Hf Hsub m w. by apply info_cb_run. Qed.

(** ** Examples *)

Definition ex_post : request :=
  mk_request htp_method_POST (str "/api/acl") (Some [(str "action", Some (str "add"))]) (Some (str "610")) CodecProps.ex_text [] [] false.
Definition ex_http (q : request) : hstate := HS (CS ∅ 1 []) [] ex_kv ex_now {[7 := q]} ∅ [].

Lemma ex_listable : listable [].
Proof. split; [cbn; lia|constructor]. Qed.

Lemma ex_post_valued : valued ex_post.
Proof. constructor; [by eexists|constructor]. Qed.

Lemma ex_post_complete : complete ex_post.
Proof. split; vm_compute; [discriminate|reflexivity]. Qed.

(** Two rules are added. *)
Lemma http_acl_correct_witness :
  (acl_spec ex_gai ex_post []).1 = EVHTP_RES_OK ∧ acl_rule <$> (acl_spec ex_gai ex_post []).2 = [str "any"; str "10.0.0.1/8"] ∧
  ∃ c', priskv_http_api_acl_cb ex_avail [] ex_gai 7 (ex_http ex_post)
    = Ok (tt, replied (ex_http ex_post) c' (acl_spec ex_gai ex_post []).2 7 EVHTP_RES_OK []) ∧ c_heap c' = ∅.
Proof.
  split; [vm_compute; reflexivity|]. split; [vm_compute; reflexivity|].
  destruct (http_acl_correct ex_avail [] ex_gai 7 ex_post (ex_http ex_post) (λ _, eq_refl) eq_refl ex_codec_fresh ex_post_complete
    ex_listable ex_post_valued) as (c' & text & Hrun & _ & Hsame & Htext).
  assert (bool_decide (shows_list ex_post) = false) as Hs by (vm_compute; reflexivity). rewrite Hs in Htext. subst text.
  exists c'. split; [exact Hrun|]. apply Hsame. right. vm_compute. by eexists.
Defined.

Definition ex_get : request :=
  mk_request htp_method_GET (str "/api/info") (Some [(str "item", Some (str "kv")); (str "item", Some (str "acl")); (str "item", Some (str "kv"))])
    None [] [] [] false.
Definition ex_mem : priskv_mem_info := mk_mem_info None None 0 0 0.
Definition ex_world : world := world_of ex_mem [] None 100 (ex_http ex_get).

Lemma ex_reportable : reportable ∅ ex_world [Some (str "kv"); Some (str "acl"); Some (str "kv")].
Proof.
  intros x Hx. assert (Some x ∈ [Some (str "kv"); Some (str "acl"); Some (str "kv")]) as Hin by exact Hx.
  apply elem_of_cons in Hin as [[= ->]|Hin]; [eexists; apply reported_kv|].
  apply elem_of_cons in Hin as [[= ->]|Hin]; [eexists; apply reported_acl; exact ex_listable|].
  apply list_elem_of_singleton in Hin as [= ->]. eexists. apply reported_kv.
Qed.

Lemma http_info_correct_witness :
  ∃ names ts text, replies_with (ex_http ex_get) 7 EVHTP_RES_OK text (priskv_http_api_info_cb ex_avail [] ex_mem [] None 100 7) ∧
    NoDup names ∧ (∀ x, x ∈ names ↔ requested [Some (str "kv"); Some (str "acl"); Some (str "kv")] x) ∧
    Forall2 (reported ∅ ex_world) names ts ∧ text_of (JObject (zip names ts)) text.
Proof.
  exact (http_info_correct ex_avail [] ∅ ex_mem [] None 100 7 ex_get (ex_http ex_get) (λ _, eq_refl) eq_refl ex_codec_fresh
    (map_empty_subseteq _) ex_reportable).
Defined.
