(* ===== verification/HttpSystem.v ===== *)
(** * The HTTP interface as a system

    Requests arrive, jobs that copy or move keys go on while others are served, and
    the rest of the server changes the store: an invariant of all states that are
    reached, from which follows that no handler faults, that every request is answered
    once or waits for a job of its own, and what the answer to a job says. *)

From S2P Require Import Prelude State Utils CString Crc Lists Protocol Wire Memory Slab Buddy Alloc KvModel KvInv KvOps KvSweep KvKeys KvStart KvSystem Examples ServerModel KvManage KvManageProps Acl CMem Codec CodecSpec CodecMem CodecCode CodecJson CodecProps Info InfoProps InfoReport InfoDrivers Http HttpProps HttpManage HttpInfo.

Local Open Scope string_scope.
Local Open Scope list_scope.
Local Open Scope Z_scope.

(** ** Events *)

(** A request for one of the handlers, an event of a job, and a change of the store by
    other parts of the server. *)
Inductive http_event :=
  | EvRequest (path : list Z) (req : Z) (q : request)
  | EvJob (arg : Z) (ev : kvm_event)
  | EvOther (kv : kv_state) (now : timeval).

Section system.
Context {JC : JsonC} {JL : JsonLaws JC}.
Context (avail : Z → bool) (strerror_errno version : list Z) (getaddrinfo : list Z → gai).
Context (connect : list Z → Z → bool) (set_async : nat → list Z * bool).
Context (hs : heap) (mem : priskv_mem_info) (listeners : list priskv_rdma_listener) (stat : option (list Z)) (clk_tck : Z).
Hypothesis Havail : ∀ n, avail n = true.
Hypothesis Htakes : ∀ n, set_async n = ([], true).
Hypothesis Hversion : no_nul version.

Notation handlers := (api_handlers avail strerror_errno version getaddrinfo connect set_async mem listeners stat clk_tck).

(** The handler libevhtp has chosen. *)
Fixpoint find_handler (path : list Z) (l : list (list Z * (Z → ST hstate unit))) : ST hstate unit → (Z → ST hstate unit) :=
  match l with
  | [] => λ d _, d
  | (p, f) :: l => if bool_decide (path = p) then λ _, f else find_handler path l
  end.

Definition http_step (ev : http_event) : ST hstate unit :=
  match ev with
  | EvRequest path req q => _ ← put_req req q; find_handler path handlers (mret tt) req
  | EvJob arg ev => job_event set_async arg ev
  | EvOther kv now => modify (λ s, with_job s kv now (h_jobs s))
  end.

(** ** Jobs *)

Record jinfo := mk_jinfo {
  ji_req : Z;
  ji_info : Z;
  ji_own : list Z;
  ji_val : value;
  ji_act : priskv_kvmanage_action;
  ji_keys : list (list Z)
}.

Definition job_blocks (arg : Z) (x : jinfo) : list Z := arg :: ji_info x :: ji_own x.

(** The job of a request that was logged: its memory, and where the flow is. *)
Record job_ok (log : gmap Z request) (s : hstate) (arg : Z) (x : jinfo) (j : job) : Prop := {
  jo_mem : job_mem (c_heap (h_c s)) arg (ji_req x) (ji_info x) (ji_val x) (ji_own x);
  jo_req : is_Some (h_reqs s !! ji_req x);
  jo_ctx : is_Some (j_ctx j);
  jo_phase : kvm_phase (ji_act x) (ji_keys x) (kvm_of s j);
  jo_act : ji_act x ≠ PRISKV_KVMANAGE_MAX;
  jo_keys : Forall valid_key (ji_keys x) ∧ Z.of_nat (length (ji_keys x)) < 2 ^ 29;
  jo_log : ∃ q addr port, log !! ji_req x = Some q ∧ asked_keys q = Some (addr, port, ji_keys x)
}.

Definition answered (s : hstate) : list Z := (h_replies s).*1.*1.

(** ** The invariant *)

(** [log] has all requests there were, [J] what is known of the jobs. *)
Record http_inv (s : hstate) (pins : Z → Z) (log : gmap Z request) (J : gmap Z jinfo) : Prop := {
  hi_fresh : fresh_above (c_heap (h_c s)) (c_next (h_c s));
  hi_static : hs ⊆ c_heap (h_c s);
  hi_kv : kinv (h_kv s) pins;
  hi_pins : pins_ok pins;
  hi_dom : ∀ arg, is_Some (h_jobs s !! arg) ↔ is_Some (J !! arg);
  hi_job : ∀ arg x j, J !! arg = Some x → h_jobs s !! arg = Some j → job_ok log s arg x j;
  hi_apart : ∀ arg x b, J !! arg = Some x → b ∈ job_blocks arg x → hs !! b = None;
  hi_disjoint : ∀ arg x arg' x', J !! arg = Some x → J !! arg' = Some x' → arg ≠ arg' →
    ji_req x ≠ ji_req x' ∧ ∀ b, b ∈ job_blocks arg x → b ∉ job_blocks arg' x';
  hi_waiting : ∀ req, is_Some (h_reqs s !! req) → ∃ arg x, J !! arg = Some x ∧ ji_req x = req;
  hi_once : NoDup (answered s);
  hi_log : ∀ req, is_Some (log !! req) ↔ is_Some (h_reqs s !! req) ∨ req ∈ answered s;
  hi_open : ∀ req, is_Some (h_reqs s !! req) → req ∉ answered s
}.

(** What the rest of the server keeps to: requests have new numbers and come whole,
    keys can be keys, the items of a report are known; an event of a job is one it
    waits for. *)
Definition ok_event (s : hstate) (pins : Z → Z) (log : gmap Z request) (ev : http_event) (pins' : Z → Z) : Prop :=
  match ev with
  | EvRequest path req q =>
      pins' = pins ∧ log !! req = None ∧ path ∈ handlers.*1 ∧ complete q ∧ keys_ok q ∧ valued q ∧ listable (h_acl s) ∧
      ∀ items, info_asked q = inr items → reportable hs (world_of mem listeners stat clk_tck s) items
  | EvJob arg ev => ∃ j, h_jobs s !! arg = Some j ∧ (∀ kv, ev ≠ EvStore kv) ∧ ev_ok (kvm_of s j) pins ev pins'
  | EvOther kv now => kinv kv pins' ∧ pins_ok pins'
  end.

Definition log_event (ev : http_event) (log : gmap Z request) : gmap Z request :=
  match ev with EvRequest _ req q => <[req := q]> log | _ => log end.

(** ** Handlers *)

(** A handler answers at once, and leaves the memory there was. *)
Definition at_once (req : Z) (s : hstate) (pins : Z → Z) (m : ST hstate unit) : Prop :=
  ∃ c' l' kv' code body,
    m s = Ok (tt, HS c' l' kv' (h_now s) (delete req (h_reqs s)) (h_jobs s) (h_replies s ++ [(req, code, body)])) ∧
    kept (h_c s) c' ∧ kinv kv' pins.

(** Or the request gets a job. *)
Definition gets_job (req : Z) (q : request) (s : hstate) (pins : Z → Z) (m : ST hstate unit) : Prop :=
  ∃ act, act ≠ PRISKV_KVMANAGE_MAX ∧ started act req q s pins m.

Lemma kept_next c n' : fresh_above (c_heap c) (c_next c) → c_next c <= n' → kept c (CS (c_heap c) n' (c_error c)).
Proof. intros Hf Hn. split; [done|]. split; [|done]. intros a Ha. apply Hf in Ha. cbn. lia. Qed.

Lemma replies_at_once req s pins code body m :
  kinv (h_kv s) pins → fresh_above (c_heap (h_c s)) (c_next (h_c s)) → replies_with s req code body m → at_once req s pins m.
Proof.
  intros Hi Hf (n' & Hn & Hrun). eexists _, _, _, _, _. split; [exact Hrun|]. split; [by apply kept_next|done].
Qed.

Lemma served path req q s pins :
  path ∈ handlers.*1 → h_reqs s !! req = Some q → fresh_above (c_heap (h_c s)) (c_next (h_c s)) → hs ⊆ c_heap (h_c s) →
  (∀ arg, is_Some (h_jobs s !! arg) → arg < c_next (h_c s)) → kinv (h_kv s) pins → pins_ok pins →
  complete q → keys_ok q → valued q → listable (h_acl s) →
  (∀ items, info_asked q = inr items → reportable hs (world_of mem listeners stat clk_tck s) items) →
  let m := find_handler path handlers (mret tt) req in
  at_once req s pins m ∨ gets_job req q s pins m.
Proof.
  intros Hpath Hq Hf Hsub Hjobs Hi Hp Hcomp Hkeys Hval Hl Hrep m. unfold m.
  assert (∀ act, act ≠ PRISKV_KVMANAGE_MAX →
    let m := priskv_http_api_kvmanage avail connect set_async req act in at_once req s pins m ∨ gets_job req q s pins m) as Hmanage.
  { intros act Hact m'. destruct (manage_cases avail connect set_async Havail Htakes act req q s pins Hact Hq Hf Hjobs Hi Hp Hcomp Hkeys) as [Hr|Hst].
    - left. destruct Hr as (c' & kv' & code & Hrun & _ & Hk & Hi' & _). by eexists _, _, _, _, _.
    - right. by exists act. }
  cbn [fmap list_fmap fst] in Hpath. unfold api_handlers. cbn [find_handler].
  destruct (bool_decide (path = str "/api/acl")) eqn:H1.
  { left. destruct (acl_cb_answers avail strerror_errno getaddrinfo Havail req q s Hq Hf Hcomp Hl Hval) as (c' & text & Hrun & Hk & _).
    eexists _, _, _, _, _. split; [exact Hrun|]. done. }
  destruct (bool_decide (path = str "/api/info")) eqn:H2.
  { left. pose proof (info_cb_run avail strerror_errno Havail hs mem listeners stat clk_tck req q s Hq Hf Hsub) as Hinfo.
    destruct (info_asked q) as [code|items]; [by eapply replies_at_once|].
    destruct (Hinfo (Hrep _ eq_refl)) as (names & ts & text & Hr & _). by eapply replies_at_once. }
  destruct (bool_decide (path = str "/api/kvcopy")) eqn:H3; [by apply Hmanage|].
  destruct (bool_decide (path = str "/api/kvmove")) eqn:H4; [by apply Hmanage|].
  destruct (bool_decide (path = str "/api/ping")) eqn:H5.
  { left. destruct (ping_run req q s Hq) as (code & body & Hr & _). by eapply replies_at_once. }
  destruct (bool_decide (path = str "/api/version")) eqn:H6.
  { left. destruct (version_run avail strerror_errno version Havail req q s Hq Hf Hversion) as (code & body & Hr & _). by eapply replies_at_once. }
  destruct (bool_decide (path = str "/api")) eqn:H7.
  { left. apply (replies_at_once req s pins EVHTP_RES_NOTFOUND (q_out q)); [done|done|]. by apply plain_reply. }
  exfalso. rewrite bool_decide_eq_false in H1, H2, H3, H4, H5, H6, H7.
  repeat (apply elem_of_cons in Hpath as [?|Hpath]; [done|]). by apply elem_of_nil in Hpath.
Qed.

(** ** The invariant is kept *)

Lemma job_live h arg req info v own b : job_mem h arg req info v own → b ∈ arg :: info :: own → is_Some (h !! b).
Proof.
  intros [Ha Hi _] Hb. apply elem_of_cons in Hb as [->|Hb]; [by eexists|]. by apply (ho_live _ _ _ _ _ Hi).
Qed.

Section kept.
Context (s : hstate) (pins : Z → Z) (log : gmap Z request) (J : gmap Z jinfo).
Hypothesis Hinv : http_inv s pins log J.

Lemma inv_job arg x : J !! arg = Some x → ∃ j, h_jobs s !! arg = Some j ∧ job_ok log s arg x j.
Proof.
  intros Hx. destruct (proj2 (hi_dom _ _ _ _ Hinv arg)) as [j Hj]; [by eexists|]. exists j. split; [done|]. by apply (hi_job _ _ _ _ Hinv).
Qed.

(** The blocks of jobs are among those there are. *)
Lemma job_below arg x b : J !! arg = Some x → b ∈ job_blocks arg x → b < c_next (h_c s).
Proof.
  intros Hx Hb. destruct (inv_job arg x Hx) as (j & _ & Hj). apply (hi_fresh _ _ _ _ Hinv). by apply (job_live _ _ _ _ _ _ _ (jo_mem _ _ _ _ _ Hj)).
Qed.

Lemma job_args arg : is_Some (h_jobs s !! arg) → arg < c_next (h_c s).
Proof. intros Hj. apply (hi_dom _ _ _ _ Hinv) in Hj as [x Hx]. apply (job_below arg x); [done|left]. Qed.

Lemma job_request arg x : J !! arg = Some x → is_Some (h_reqs s !! ji_req x) ∧ is_Some (log !! ji_req x).
Proof.
  intros Hx. destruct (inv_job arg x Hx) as (j & _ & Hj). pose proof (jo_req _ _ _ _ _ Hj) as Hr. split; [done|].
  apply (hi_log _ _ _ _ Hinv). by left.
Qed.

(** A job in another state, where its memory and its request are as before. *)
Lemma job_ok_frame log' s' arg x j : J !! arg = Some x → h_jobs s !! arg = Some j →
  (∀ b, b ∈ job_blocks arg x → c_heap (h_c s') !! b = c_heap (h_c s) !! b) → is_Some (h_reqs s' !! ji_req x) →
  (∀ q, log !! ji_req x = Some q → log' !! ji_req x = Some q) → job_ok log' s' arg x j.
Proof.
  intros Hx Hj Hsame Hreq Hlog. destruct (hi_job _ _ _ _ Hinv arg x j Hx Hj) as [Hm _ Hc Hph Ha Hk (q & addr & port & Hq & Hask)].
  split; [by eapply job_mem_frame|done|done|exact Hph|done|done|]. exists q, addr, port. split; [by apply Hlog|done].
Qed.

Section request.
Context (req : Z) (q : request).
Hypothesis Hnew : log !! req = None.

Lemma new_request : h_reqs s !! req = None ∧ req ∉ answered s ∧ ∀ arg x, J !! arg = Some x → ji_req x ≠ req.
Proof.
  split; [|split].
  - destruct (h_reqs s !! req) eqn:Hr; [|done]. assert (is_Some (log !! req)) as [? ?]; [|congruence].
    apply (hi_log _ _ _ _ Hinv). left. by rewrite Hr.
  - intros Hin. assert (is_Some (log !! req)) as [? ?]; [|congruence]. apply (hi_log _ _ _ _ Hinv). by right.
  - intros arg x Hx Heq. destruct (job_request arg x Hx) as [_ [? ?]]. congruence.
Qed.

(** The state after a request was answered at once. *)
Lemma at_once_inv c' l' kv' code body :
  kept (h_c s) c' → kinv kv' pins →
  http_inv (HS c' l' kv' (h_now s) (delete req (<[req := q]> (h_reqs s))) (h_jobs s) (h_replies s ++ [(req, code, body)]))
    pins (<[req := q]> log) J.
Proof.
  intros (Hn & Hf & Hold) Hi. destruct new_request as (Hr & Ha & Hj). rewrite delete_insert_id by done.
  assert (∀ arg x b, J !! arg = Some x → b ∈ job_blocks arg x → c_heap c' !! b = c_heap (h_c s) !! b) as Hsame.
  { intros arg x b Hx Hb. apply Hold. by eapply job_below. }
  assert (answered (HS c' l' kv' (h_now s) (h_reqs s) (h_jobs s) (h_replies s ++ [(req, code, body)])) = answered s ++ [req]) as Hans.
  { unfold answered. cbn [h_replies]. by rewrite !fmap_app. }
  split; cbn [h_c h_acl h_kv h_now h_reqs h_jobs]; try rewrite Hans; try apply Hinv; try done.
  - apply map_subseteq_spec. intros a bk Hbk. pose proof (lookup_weaken _ _ _ _ Hbk (hi_static _ _ _ _ Hinv)) as Hh.
    rewrite Hold; [done|]. apply (hi_fresh _ _ _ _ Hinv). by eexists.
  - intros arg x j Hx Hjj. apply job_ok_frame; [done|done|intros b; by apply (Hsame arg x)|by apply (job_request arg x)|].
    intros q' Hq'. rewrite lookup_insert_ne; [done|]. symmetry. by apply (Hj arg).
  - apply NoDup_app. split; [apply Hinv|]. split; [|apply NoDup_singleton]. intros x Hx Hin. apply list_elem_of_singleton in Hin as ->. done.
  - intros r. rewrite elem_of_app, list_elem_of_singleton. destruct (decide (r = req)) as [->|Hne].
    + rewrite lookup_insert_eq. split; [intros _; by right; right|by eexists].
    + rewrite lookup_insert_ne by done. rewrite (hi_log _ _ _ _ Hinv). naive_solver.
  - intros r Hreq. rewrite elem_of_app, list_elem_of_singleton. intros [Hin|Heq]; [by apply (hi_open _ _ _ _ Hinv r)|]. rewrite Heq, Hr in Hreq. by destruct Hreq.
Qed.

(** The state after a request got a job. *)
Lemma started_inv act m : act ≠ PRISKV_KVMANAGE_MAX → keys_ok q →
  started act req q (with_reqs s (<[req := q]> (h_reqs s))) pins m →
  ∃ s' J', m (with_reqs s (<[req := q]> (h_reqs s))) = Ok (tt, s') ∧ http_inv s' pins (<[req := q]> log) J'.
Proof.
  intros Hact Hkeys (c' & kv' & q' & arg & info & v & own & j & addr & port & ks & Hrun & _ & (Hn & Hf & Hold) & Hi & Hlow & _ & Hmem & Hask & Hctx & Hph).
  unfold with_reqs in Hrun, Hn, Hold, Hlow. cbn [h_c h_acl h_kv h_now h_reqs h_jobs h_replies] in Hrun, Hn, Hold, Hlow, Hph.
  destruct new_request as (Hr & Ha & Hj). rewrite insert_insert_eq in Hrun. set (x := mk_jinfo req info own v act ks).
  eexists _, (<[arg := x]> J). split; [exact Hrun|].
  assert (∀ arg x b, J !! arg = Some x → b ∈ job_blocks arg x → c_heap c' !! b = c_heap (h_c s) !! b) as Hsame.
  { intros a y b Hy Hb. apply Hold. by eapply job_below. }
  assert (J !! arg = None) as HJ.
  { destruct (J !! arg) as [y|] eqn:Hy; [|done]. assert (arg < c_next (h_c s)) by (apply (job_below arg y); [done|left]).
    assert (c_next (h_c s) <= arg); [|lia]. apply Hlow. left. }
  split; cbn [h_c h_acl h_kv h_now h_reqs h_jobs]; try apply Hinv; try done.
  - apply map_subseteq_spec. intros a bk Hbk. pose proof (lookup_weaken _ _ _ _ Hbk (hi_static _ _ _ _ Hinv)) as Hh.
    rewrite Hold; [done|]. apply (hi_fresh _ _ _ _ Hinv). by eexists.
  - intros a. destruct (decide (a = arg)) as [->|Hne]; [rewrite !lookup_insert_eq; split; by eexists|].
    rewrite !lookup_insert_ne by done. apply (hi_dom _ _ _ _ Hinv).
  - intros a y jj Hy Hjj. destruct (decide (a = arg)) as [->|Hne].
    + rewrite lookup_insert_eq in Hy. rewrite lookup_insert_eq in Hjj. injection Hy as <-. injection Hjj as <-.
      split; [done|cbn; rewrite lookup_insert_eq; by eexists|done|exact Hph|done| |].
      * by apply (Hkeys _ _ _ Hask).
      * exists q, addr, port. cbn. by rewrite lookup_insert_eq.
    + rewrite lookup_insert_ne in Hy by done. rewrite lookup_insert_ne in Hjj by done. pose proof (Hj a y Hy) as Hyr.
      apply job_ok_frame; [done|done|intros b; by apply (Hsame a y)| |].
      * cbn. rewrite lookup_insert_ne by done. by apply (job_request a y).
      * intros q0 Hq0. by rewrite lookup_insert_ne by done.
  - intros a y b Hy Hb. destruct (decide (a = arg)) as [->|Hne]; [|rewrite lookup_insert_ne in Hy by done; by eapply (hi_apart _ _ _ _ Hinv)].
    rewrite lookup_insert_eq in Hy. injection Hy as <-. apply Hlow in Hb. destruct (hs !! b) as [bk|] eqn:Hbk; [|done].
    pose proof (lookup_weaken _ _ _ _ Hbk (hi_static _ _ _ _ Hinv)) as Hh. assert (b < c_next (h_c s)); [|lia].
    apply (hi_fresh _ _ _ _ Hinv). by eexists.
  - assert (∀ a y b, J !! a = Some y → b ∈ job_blocks a y → b ∉ job_blocks arg x) as Hdis.
    { intros a y b Hy Hb Hin. apply (job_below a y) in Hb; [|done]. apply Hlow in Hin. lia. }
    intros a y a' y' Hy Hy' Hne. destruct (decide (a = arg)) as [->|Hna], (decide (a' = arg)) as [->|Hna']; [done|..];
      rewrite ?lookup_insert_eq, ?lookup_insert_ne in Hy by done; rewrite ?lookup_insert_eq, ?lookup_insert_ne in Hy' by done.
    + injection Hy as <-. split; [symmetry; by apply (Hj a')|]. intros b Hb Hin. by apply (Hdis a' y' b).
    + injection Hy' as <-. split; [by apply (Hj a)|]. intros b Hb. by apply (Hdis a y).
    + by apply (hi_disjoint _ _ _ _ Hinv a y a' y').
  - intros r Hreq. destruct (decide (r = req)) as [->|Hne]; [exists arg, x; by rewrite lookup_insert_eq|].
    rewrite lookup_insert_ne in Hreq by done. destruct (hi_waiting _ _ _ _ Hinv r Hreq) as (a & y & Hy & Hyr). exists a, y. split; [|done].
    rewrite lookup_insert_ne; [done|]. intros ->. congruence.
  - intros r. destruct (decide (r = req)) as [->|Hne]; [rewrite !lookup_insert_eq; split; [left; by eexists|by eexists]|].
    rewrite !lookup_insert_ne by done. apply (hi_log _ _ _ _ Hinv).
  - intros r Hreq. destruct (decide (r = req)) as [->|Hne]; [done|]. rewrite lookup_insert_ne in Hreq by done. by apply (hi_open _ _ _ _ Hinv).
Qed.
End request.

(** *** Events of jobs *)

(** The job goes on: only its state, the store and the clock change. *)
Lemma job_goes_on arg x j kv' now' j' pins' : J !! arg = Some x → h_jobs s !! arg = Some j →
  kinv kv' pins' → pins_ok pins' → is_Some (j_ctx j') →
  kvm_phase (ji_act x) (ji_keys x) (KVM kv' now' (j_ctx j') (j_pending j') (j_later j') (j_sent j') []) →
  http_inv (HS (h_c s) (h_acl s) kv' now' (h_reqs s) (<[arg := j']> (h_jobs s)) (h_replies s)) pins' log J.
Proof.
  intros Hx Hj Hi Hp Hctx Hph. split; cbn [h_c h_acl h_kv h_now h_reqs h_jobs]; try apply Hinv; try done.
  - intros a. destruct (decide (a = arg)) as [->|Hne]; [rewrite lookup_insert_eq, Hx; split; by eexists|].
    rewrite lookup_insert_ne by done. apply (hi_dom _ _ _ _ Hinv).
  - intros a y jj Hy Hjj. destruct (decide (a = arg)) as [->|Hne].
    + rewrite lookup_insert_eq in Hjj. injection Hjj as <-. rewrite Hx in Hy. injection Hy as <-.
      destruct (hi_job _ _ _ _ Hinv arg x j Hx Hj) as [? ? _ _ ? ? ?]. by split.
    + rewrite lookup_insert_ne in Hjj by done. apply job_ok_frame; [done|done|done|by apply (job_request a y)|done].
Qed.

(** The job is over: its memory is freed, and its request answered. *)
Lemma job_is_over arg x kv' now' h' n' e' code body pins' : J !! arg = Some x → kinv kv' pins' → pins_ok pins' →
  c_next (h_c s) <= n' → (∀ a, h' !! a = if decide (a ∈ job_blocks arg x) then None else c_heap (h_c s) !! a) →
  http_inv (HS (CS h' n' e') (h_acl s) kv' now' (delete (ji_req x) (h_reqs s)) (delete arg (h_jobs s)) (h_replies s ++ [(ji_req x, code, body)]))
    pins' log (delete arg J).
Proof.
  intros Hx Hi Hp Hn Hh'. destruct (job_request arg x Hx) as [Hreq Hlog]. set (s' := HS _ _ _ _ _ _ _).
  assert (answered s' = answered s ++ [ji_req x]) as Hans by (unfold answered, s'; cbn [h_replies]; by rewrite !fmap_app).
  pose proof (hi_open _ _ _ _ Hinv _ Hreq) as Hopen.
  assert (∀ a y, a ≠ arg → J !! a = Some y → ji_req y ≠ ji_req x ∧ ∀ b, b ∈ job_blocks a y → h' !! b = c_heap (h_c s) !! b) as Hother.
  { intros a y Hne Hy. destruct (hi_disjoint _ _ _ _ Hinv a y arg x Hy Hx Hne) as [Hr Hb]. split; [done|].
    intros b Hin. rewrite Hh', decide_False; [done|]. by apply Hb. }
  split; rewrite ?Hans; cbn [s' h_c h_acl h_kv h_now h_reqs h_jobs c_heap c_next]; try done.
  - intros a Ha. rewrite Hh' in Ha. case_decide; [by destruct Ha|]. apply (hi_fresh _ _ _ _ Hinv) in Ha. lia.
  - apply map_subseteq_spec. intros a bk Hbk. rewrite Hh', decide_False; [by apply (lookup_weaken _ _ _ _ Hbk (hi_static _ _ _ _ Hinv))|].
    intros Hin. pose proof (hi_apart _ _ _ _ Hinv arg x a Hx Hin). congruence.
  - intros a. destruct (decide (a = arg)) as [->|Hne]; [rewrite !lookup_delete_eq; split; by intros [? ?]|].
    rewrite !lookup_delete_ne by done. apply (hi_dom _ _ _ _ Hinv).
  - intros a y jj Hy Hjj. apply lookup_delete_Some in Hy as [Hne Hy]. apply lookup_delete_Some in Hjj as [_ Hjj].
    destruct (Hother a y) as [Hr Hb]; [done|done|]. apply job_ok_frame; [done|done|done| |done].
    cbn. rewrite lookup_delete_ne by done. by apply (job_request a y).
  - intros a y b Hy. apply lookup_delete_Some in Hy as [_ Hy]. by apply (hi_apart _ _ _ _ Hinv).
  - intros a y a' y' Hy Hy'. apply lookup_delete_Some in Hy as [_ Hy]. apply lookup_delete_Some in Hy' as [_ Hy'].
    by apply (hi_disjoint _ _ _ _ Hinv).
  - intros r Hr. apply lookup_delete_is_Some in Hr as [Hne Hr]. destruct (hi_waiting _ _ _ _ Hinv r Hr) as (a & y & Hy & Hyr).
    exists a, y. split; [|done]. rewrite lookup_delete_ne; [done|]. intros ->. congruence.
  - apply NoDup_app. split; [apply Hinv|]. split; [|apply NoDup_singleton]. intros r Hr Hin. apply list_elem_of_singleton in Hin as ->. done.
  - intros r. rewrite elem_of_app, list_elem_of_singleton, (hi_log _ _ _ _ Hinv). destruct (decide (r = ji_req x)) as [->|Hne].
    + split; [intros _; by right; right|intros _; by left].
    + rewrite lookup_delete_ne by done. naive_solver.
  - intros r Hr. apply lookup_delete_is_Some in Hr as [Hne Hr]. rewrite elem_of_app, list_elem_of_singleton.
    intros [Hin|Heq]; [by apply (hi_open _ _ _ _ Hinv r)|done].
Qed.

(** What an event of a job replies: nothing, or the end of the job, which is good
    only if all keys were handed over. *)
Definition job_reply (arg : Z) (s' : hstate) : Prop :=
  h_replies s' = h_replies s ∨
  ∃ x j code body, J !! arg = Some x ∧ h_jobs s !! arg = Some j ∧ h_replies s' = h_replies s ++ [(ji_req x, code, body)] ∧
    (code = EVHTP_RES_200 → (j_sent j).*1.*1 = ji_keys x).

Lemma job_event_inv arg ev j pins' :
  h_jobs s !! arg = Some j → (∀ kv, ev ≠ EvStore kv) → ev_ok (kvm_of s j) pins ev pins' →
  ∃ s' J', job_event set_async arg ev s = Ok (tt, s') ∧ http_inv s' pins' log J' ∧ job_reply arg s' ∧
    ∀ x, J !! arg = Some x → (ji_req x ∈ answered s' ∧ h_jobs s' !! arg = None) ∨
      ∃ j', h_jobs s' !! arg = Some j' ∧ J' !! arg = Some x ∧ (j_later j' = 1%nat ∨ length (j_sent j') = S (length (j_sent j))) ∧ ev ≠ EvLater.
Proof.
  intros Hj Hev Hok. destruct (proj1 (hi_dom _ _ _ _ Hinv arg)) as [x Hx]; [by eexists|].
  pose proof (hi_job _ _ _ _ Hinv arg x j Hx Hj) as [Hmem Hreq Hctx Hph Hact [Hv Hl] _].
  assert (kvm_inv (ji_act x) (ji_keys x) (kvm_of s j) pins) as Hk by (split; [apply Hinv|]; split; [apply Hinv|done]).
  destruct (step_inv set_async Htakes (ji_act x) (ji_keys x) Hact Hv Hl _ pins ev pins' Hk Hok) as (k & Hstep & (Hi & Hp & Hphk) & Hd & Hgo).
  unfold job_event. assert (s = HS (h_c s) (h_acl s) (h_kv s) (h_now s) (h_reqs s) (h_jobs s) (h_replies s)) as Hs by (by destruct s).
  assert (run_job arg (kvm_step set_async ev) s
    = Ok (tt, m_done k, HS (h_c s) (h_acl s) (g_kv k) (m_now k) (h_reqs s)
         (match m_ctx k with
          | None => delete arg (h_jobs s)
          | Some _ => <[arg := mk_job (m_ctx k) (m_pending k) (m_later k) (m_sent k)]> (h_jobs s)
          end) (h_replies s))) as Hrun by (unfold run_job; by rewrite Hj, Hstep).
  erewrite bind_run by exact Hrun. cbv iota beta. destruct (m_ctx k) as [ctx|] eqn:Hck.
  - unfold kvm_phase in Hphk. rewrite Hck in Hphk. destruct Hphk as [Hdone Hph']. rewrite Hdone. eexists _, J. split; [reflexivity|].
    split; [|split; [by left|]].
    + apply (job_goes_on arg x j); [done|done|done|done|by eexists|].
      unfold kvm_phase. cbn [j_ctx j_pending j_later j_sent m_ctx m_done m_pending m_later]. split; [done|]. exact Hph'.
    + intros y Hy. rewrite Hx in Hy. injection Hy as <-. right. eexists. split; [apply lookup_insert_eq|]. split; [done|].
      assert (ev ≠ EvLater) as Hne.
      { intros ->. destruct Hctx as [c Hc]. unfold kvm_step, __priskv_kvmanage_context_destory in Hstep.
        erewrite bind_run in Hstep by (unfold ctx_get, kvm_of; cbn [m_ctx]; by rewrite Hc). injection Hstep as <-. done. }
      split; [|done]. by apply Hgo.
  - destruct ev as [st t| |kv]; [|clear Hd|by destruct (Hev kv)].
    { unfold kvm_phase in Hphk. rewrite Hck in Hphk. destruct Hphk as (_ & _ & _ & st' & Hdone & _). rewrite Hd in Hdone by done. done. }
    destruct Hctx as [c Hc]. unfold kvm_step, __priskv_kvmanage_context_destory in Hstep.
    erewrite bind_run in Hstep by (unfold ctx_get, kvm_of; cbn [m_ctx]; by rewrite Hc). injection Hstep as <-. cbn [m_done m_sent g_kv m_now kvm_of app] in *.
    cbn [call_bottoms]. destruct Hreq as [q Hq].
    destruct (bottom_run arg (ji_req x) (ji_info x) (ji_val x) (ji_own x) (m_status c) q (c_heap (h_c s)) (c_next (h_c s)) (c_error (h_c s))
      (h_acl s) (h_kv s) (h_now s) (h_reqs s) (delete arg (h_jobs s)) (h_replies s) Hmem Hq) as (h' & Hbot & Hh').
    eexists _, (delete arg J). split; [|split; [|split]].
    + erewrite bind_run; [reflexivity|]. replace (h_c s) with (CS (c_heap (h_c s)) (c_next (h_c s)) (c_error (h_c s))) by (by destruct (h_c s)). exact Hbot.
    + apply (job_is_over arg x); [done|done|done|lia|]. exact Hh'.
    + right. exists x, j. eexists _, _. split; [done|]. split; [done|]. split; [reflexivity|]. intros Hcode.
      unfold kvm_phase in Hphk. cbn [m_ctx] in Hphk. destruct Hphk as (_ & _ & _ & st & [= <-] & Hst). apply Hst.
      destruct (Z.eqb_spec (m_status c) 0); [done|]. done.
    + intros y Hy. rewrite Hx in Hy. injection Hy as <-. left. split; [|apply lookup_delete_eq].
      unfold answered. cbn [h_replies]. rewrite !fmap_app, elem_of_app. right. left.
Qed.
End kept.

(** ** All states *)

Lemma http_step_inv s pins log J ev pins' : http_inv s pins log J → ok_event s pins log ev pins' →
  ∃ s' J', http_step ev s = Ok (tt, s') ∧ http_inv s' pins' (log_event ev log) J' ∧
    match ev with EvJob arg _ => job_reply s J arg s' | _ => True end.
Proof.
  intros Hinv Hok. destruct ev as [path req q|arg ev|kv now]; cbn [http_step log_event ok_event] in *.
  - destruct Hok as (-> & Hnew & Hpath & Hcomp & Hkeys & Hval & Hl & Hrep). erewrite bind_run by reflexivity.
    set (s1 := with_reqs s (<[req := q]> (h_reqs s))).
    destruct (served path req q s1 pins Hpath) as [Hr|(act & Hact & Hst)]; try apply Hinv; try done.
    { apply lookup_insert_eq. }
    { apply (job_args s pins log J Hinv). }
    + destruct Hr as (c' & l' & kv' & code & body & Hrun & Hk & Hi). eexists _, J. split; [exact Hrun|]. split; [|done].
      by apply (at_once_inv s pins log J Hinv req q Hnew).
    + destruct (started_inv s pins log J Hinv req q Hnew act _ Hact Hkeys Hst) as (s' & J' & Hrun & Hinv'). by exists s', J'.
  - destruct Hok as (j & Hj & Hev & Hok). destruct (job_event_inv s pins log J Hinv arg ev j pins' Hj Hev Hok) as (s' & J' & Hrun & Hinv' & Hr & _).
    by exists s', J'.
  - destruct Hok as [Hi Hp]. eexists _, J. split; [reflexivity|]. split; [|done]. destruct Hinv. split; try done.
    intros arg x j Hx Hj. destruct (hi_job0 arg x j Hx Hj) as [? ? ? ? ? ? ?]. by split.
Qed.

(** At first there are no requests and no jobs. *)
Definition http_start (s : hstate) (pins : Z → Z) : Prop :=
  fresh_above (c_heap (h_c s)) (c_next (h_c s)) ∧ hs ⊆ c_heap (h_c s) ∧ kinv (h_kv s) pins ∧ pins_ok pins ∧
  h_reqs s = ∅ ∧ h_jobs s = ∅ ∧ h_replies s = [].

Inductive http_reach : hstate → (Z → Z) → gmap Z request → Prop :=
  | http_reach_start s pins : http_start s pins → http_reach s pins ∅
  | http_reach_step s pins log ev s' pins' :
      http_reach s pins log → ok_event s pins log ev pins' → http_step ev s = Ok (tt, s') → http_reach s' pins' (log_event ev log).

Lemma http_reach_inv s pins log : http_reach s pins log → ∃ J, http_inv s pins log J.
Proof.
  induction 1 as [s pins (Hf & Hsub & Hi & Hp & Hr & Hj & Hrep)|s pins log ev s' pins' _ [J IH] Hok Hrun].
  - exists ∅. split; try done; rewrite ?Hr, ?Hj; unfold answered; rewrite ?Hrep; cbn [fmap list_fmap].
    + intros arg. rewrite !lookup_empty. split; by intros [? ?].
    + intros req. rewrite lookup_empty. by intros [? ?].
    + constructor.
    + intros req. rewrite !lookup_empty. split; [by intros [? ?]|]. intros [[? ?]|Hin]; [done|by apply elem_of_nil in Hin].
    + intros req. rewrite lookup_empty. by intros [? ?].
  - destruct (http_step_inv s pins log J ev pins' IH Hok) as (s1 & J' & Hrun' & Hinv & _). rewrite Hrun in Hrun'. injection Hrun' as <-. by exists J'.
Qed.

(** The job of a request: its argument points to the request. *)
Definition job_of (s : hstate) (req arg : Z) (j : job) : Prop :=
  h_jobs s !! arg = Some j ∧ ld_ptr (c_heap (h_c s)) (arg, 0) = Ok (Some (req, 0)).

(** A job waits for the answer to a SET or for its end. *)
Definition waits (j : job) : Prop := (j_pending j = 1 ∧ j_later j = 0)%nat ∨ (j_pending j = 0 ∧ j_later j = 1)%nat.

Lemma job_waits s pins log J arg x : http_inv s pins log J → J !! arg = Some x → ∃ j, job_of s (ji_req x) arg j ∧ waits j.
Proof.
  intros Hinv Hx. destruct (inv_job s pins log J Hinv arg x Hx) as (j & Hj & [Hm _ [c Hc] Hph _ _ _]). exists j. split.
  - split; [done|]. by apply (arg_ptrs _ _ _ _ (jm_arg _ _ _ _ _ _ Hm)).
  - unfold kvm_phase, kvm_of in Hph. cbn [m_ctx] in Hph. rewrite Hc in Hph. cbn [m_done m_pending m_later] in Hph.
    destruct Hph as [_ [(i & _ & _ & ? & ? & _)|(? & ? & _)]]; [by left|by right].
Qed.

(** ** The end of a job *)

(** The events a job waits for, with any answers of the other server. *)
Fixpoint drive (fuel : nat) (answers : nat → Z * timeval) (arg : Z) : ST hstate unit :=
  match fuel with
  | O => mret tt
  | S fuel =>
      s ← get;
      match h_jobs s !! arg with
      | None => mret tt
      | Some j =>
          _ ← job_event set_async arg (if (j_later j =? 0)%nat then EvAnswer (answers fuel).1 (answers fuel).2 else EvLater);
          drive fuel answers arg
      end
  end.

(** Rounds that are left for a job. *)
Definition rounds (x : jinfo) (j : job) : nat := if (j_later j =? 0)%nat then S (S (length (ji_keys x)) - length (j_sent j)) else 1%nat.

Lemma drive_answers answers : ∀ fuel s pins log J arg x j,
  http_inv s pins log J → J !! arg = Some x → h_jobs s !! arg = Some j → (rounds x j <= fuel)%nat →
  ∃ s', drive fuel answers arg s = Ok (tt, s') ∧ ji_req x ∈ answered s'.
Proof.
  induction fuel as [|fuel IH]; intros s pins log J arg x j Hinv Hx Hj Hr; [unfold rounds in Hr; destruct (j_later j =? 0)%nat; lia|].
  cbn [drive]. erewrite bind_run by reflexivity. rewrite Hj.
  pose proof (hi_job _ _ _ _ Hinv arg x j Hx Hj) as [_ _ [c Hc] Hph _ _ _]. unfold kvm_phase, kvm_of in Hph. cbn [m_ctx] in Hph.
  rewrite Hc in Hph. cbn [m_done m_pending m_later] in Hph. destruct Hph as [_ Hph]. unfold sent_keys in Hph. cbn [m_sent] in Hph.
  set (ev := if (j_later j =? 0)%nat then _ else _).
  assert ((∀ kv, ev ≠ EvStore kv) ∧ ev_ok (kvm_of s j) pins ev pins) as [Hev Hok].
  { unfold ev. destruct Hph as [(i & _ & _ & Hpe & Hla & _)|(_ & Hla & _)]; rewrite Hla; cbn; rewrite ?Hpe, ?Hla; split; try done; split; lia || done. }
  destruct (job_event_inv s pins log J Hinv arg ev j pins Hj Hev Hok) as (s1 & J1 & Hrun & Hinv1 & _ & Hnext).
  erewrite bind_run by exact Hrun. destruct (Hnext x Hx) as [[Hans Hnone]|(j1 & Hj1 & Hx1 & Hgo & Hne)].
  - exists s1. split; [|done]. destruct fuel; cbn [drive]; [done|]. erewrite bind_run by reflexivity. by rewrite Hnone.
  - apply (IH s1 pins log J1 arg x j1); [done|done|done|].
    destruct Hph as [(i & _ & Hi & _ & Hla & Hs)|(_ & Hla & _)]; [|unfold ev in Hne; by rewrite Hla in Hne].
    apply (f_equal length) in Hs. rewrite !length_fmap, length_take in Hs. unfold rounds in *. rewrite Hla in Hr. cbn in Hr.
    destruct (Nat.eqb_spec (j_later j1) 0); [|lia]. destruct Hgo as [Hgo|Hgo]; [lia|]. lia.
Qed.
End system.

(** ** What is shown of the system *)

Section theorems.
Context {JC : JsonC} {JL : JsonLaws JC}.

(** (C31) The HTTP interface, as long as memory can be allocated and the client of
    the other server takes every SET without answering at once, with requests, jobs
    and the rest of the server in any order: no event [ok_event] admits faults,
    every request that came is answered once or waits, and one that waits has a job
    that waits for the answer to a SET or for its end. [ok_event] admits requests
    for the paths that are registered, with a complete body
    ([short_body_never_ends] otherwise), parameters that have values
    ([action_without_value]) and keys that are not empty and not too long, when the
    rules of the access list can be listed and the items asked for reported; events
    jobs wait for; and any change of the store that keeps its invariant. *)
Theorem http_system_safe avail strerror_errno version getaddrinfo connect set_async hs mem listeners stat clk_tck s pins log :
  (∀ n, avail n = true) → (∀ n, set_async n = ([], true)) → no_nul version →
  http_reach avail strerror_errno version getaddrinfo connect set_async hs mem listeners stat clk_tck s pins log →
  (∀ ev pins', ok_event avail strerror_errno version getaddrinfo connect set_async hs mem listeners stat clk_tck s pins log ev pins' →
     ∃ s', http_step avail strerror_errno version getaddrinfo connect set_async mem listeners stat clk_tck ev s = Ok (tt, s')) ∧
  NoDup (answered s) ∧
  (∀ req, is_Some (log !! req) ↔ is_Some (h_reqs s !! req) ∨ req ∈ answered s) ∧
  (∀ req, is_Some (h_reqs s !! req) → req ∉ answered s ∧ ∃ arg j, job_of s req arg j ∧ waits j).
Proof.
  intros Hav Htk Hver Hreach.
  destruct (http_reach_inv _ _ _ _ _ _ _ _ _ _ _ Hav Htk Hver s pins log Hreach) as [J Hinv].
  split; [|split; [apply Hinv|split; [apply Hinv|]]].
  - intros ev pins' Hok. destruct (http_step_inv _ _ _ _ _ _ _ _ _ _ _ Hav Htk Hver s pins log J ev pins' Hinv Hok) as (s' & _ & Hrun & _). by exists s'.
  - intros req Hreq. split; [by apply Hinv|]. destruct (hi_waiting _ _ _ _ _ Hinv req Hreq) as (arg & x & Hx & <-). exists arg.
    by eapply job_waits.
Qed.

(** The answer to a request that copies or moves keys: an event of its job
    answers nothing, or the request of the job, with 200 only if all the keys the
    request has were handed to the other server. *)
Theorem http_job_answer avail strerror_errno version getaddrinfo connect set_async hs mem listeners stat clk_tck s pins log arg ev pins' :
  (∀ n, avail n = true) → (∀ n, set_async n = ([], true)) → no_nul version →
  http_reach avail strerror_errno version getaddrinfo connect set_async hs mem listeners stat clk_tck s pins log →
  ok_event avail strerror_errno version getaddrinfo connect set_async hs mem listeners stat clk_tck s pins log (EvJob arg ev) pins' →
  ∃ s', job_event set_async arg ev s = Ok (tt, s') ∧
    (h_replies s' = h_replies s ∨
     ∃ req j q addr port keys code body, job_of s req arg j ∧ log !! req = Some q ∧ asked_keys q = Some (addr, port, keys) ∧
       h_replies s' = h_replies s ++ [(req, code, body)] ∧ (code = EVHTP_RES_200 → (j_sent j).*1.*1 = keys)).
Proof.
  intros Hav Htk Hver Hreach (j & Hj & Hev & Hok).
  destruct (http_reach_inv _ _ _ _ _ _ _ _ _ _ _ Hav Htk Hver s pins log Hreach) as [J Hinv].
  destruct (job_event_inv getaddrinfo connect _ _ Htk s pins log J Hinv arg ev j pins' Hj Hev Hok) as (s' & J' & Hrun & _ & Hr & _).
  exists s'. split; [done|]. destruct Hr as [Hr|(x & j' & code & body & Hx & Hj' & Hr & Hcode)]; [by left|]. right.
  destruct (job_waits _ s pins log J arg x Hinv Hx) as (j2 & Hof & _). assert (j2 = j') as -> by (destruct Hof as [Hof _]; congruence).
  pose proof (hi_job _ _ _ _ _ Hinv arg x j' Hx Hj') as Hjob. destruct (jo_log _ _ _ _ _ Hjob) as (q & addr & port & Hq & Hask).
  by exists (ji_req x), j', q, addr, port, (ji_keys x), code, body.
Qed.

(** A request that waits is answered: whatever the other server answers, after as
    many events of its job as it has keys, and two. *)
Theorem http_job_answered avail strerror_errno version getaddrinfo connect set_async hs mem listeners stat clk_tck s pins log req arg j :
  (∀ n, avail n = true) → (∀ n, set_async n = ([], true)) → no_nul version →
  http_reach avail strerror_errno version getaddrinfo connect set_async hs mem listeners stat clk_tck s pins log →
  job_of s req arg j →
  ∃ q addr port keys, log !! req = Some q ∧ asked_keys q = Some (addr, port, keys) ∧
    ∀ answers, ∃ s', drive set_async (S (S (length keys))) answers arg s = Ok (tt, s') ∧ req ∈ answered s'.
Proof.
  intros Hav Htk Hver Hreach [Hj Hp]. destruct (http_reach_inv _ _ _ _ _ _ _ _ _ _ _ Hav Htk Hver s pins log Hreach) as [J Hinv].
  destruct (proj1 (hi_dom _ _ _ _ _ Hinv arg)) as [x Hx]; [by eexists|].
  pose proof (hi_job _ _ _ _ _ Hinv arg x j Hx Hj) as Hjob. destruct (jo_log _ _ _ _ _ Hjob) as (q & addr & port & Hq & Hask).
  destruct (arg_ptrs _ _ _ _ (jm_arg _ _ _ _ _ _ (jo_mem _ _ _ _ _ Hjob))) as [Hp' _]. rewrite Hp in Hp'. injection Hp' as ->.
  exists q, addr, port, (ji_keys x). split; [done|]. split; [done|]. intros answers.
  apply (drive_answers getaddrinfo connect _ hs Htk answers _ s pins log J arg x j); [done|done|done|]. unfold rounds. destruct (j_later j =? 0)%nat; lia.
Qed.
End theorems.

(** ** Example *)

(** A request to move the key "ab". *)
Definition ex_move_text : list Z := print_tree (code_spec priskv_kvmanage_info_obj (VStruct (kvm_value (str "b") 9 [ex_key]))).
Definition ex_move : request := mk_request htp_method_POST (str "/api/kvmove") None (Some (str "619")) ex_move_text [] [] false.
Definition ex_http_start : hstate := HS (CS ∅ 1 []) [] ex_kv ex_now ∅ ∅ [].
Notation ex_step := (http_step ex_avail [] (str "1") ex_gai (λ _ _, true) ex_takes ex_mem [] None 100).
Notation ex_ok := (ok_event ex_avail [] (str "1") ex_gai (λ _ _, true) ex_takes ∅ ex_mem [] None 100).
Notation ex_reach := (http_reach ex_avail [] (str "1") ex_gai (λ _ _, true) ex_takes ∅ ex_mem [] None 100).
Definition ex_event : http_event := EvRequest (str "/api/kvmove") 7 ex_move.
Definition ex_http_moving : hstate := state_after (ex_step ex_event ex_http_start) ex_http_start.

Lemma ex_moving_run : ex_step ex_event ex_http_start = Ok (tt, ex_http_moving).
Proof. unfold ex_http_moving. vm_compute. reflexivity. Qed.

Lemma ex_move_ok : ex_ok ex_http_start (λ _, 0) ∅ ex_event (λ _, 0).
Proof.
  split; [done|]. split; [done|]. split.
  { do 3 apply list_elem_of_further. apply list_elem_of_here. }
  split; [split; vm_compute; [discriminate|reflexivity]|]. split.
  { intros addr port ks Hask. assert (asked_keys ex_move = Some (str "b", 9, [ex_key])) as Hex by (vm_compute; reflexivity).
    rewrite Hex in Hask. injection Hask as <- <- <-. split; [exact ex_keys_valid|exact ex_keys_few]. }
  split; [constructor|]. split; [exact ex_listable|]. intros items Hit. vm_compute in Hit. discriminate.
Qed.

Lemma ex_moving_reached : ex_reach ex_http_moving (λ _, 0) {[7 := ex_move]}.
Proof.
  apply (http_reach_step _ _ _ _ _ _ _ _ _ _ _ ex_http_start (λ _, 0) ∅ ex_event); [|exact ex_move_ok|exact ex_moving_run].
  constructor. split; [exact ex_codec_fresh|]. split; [apply map_empty_subseteq|]. split; [exact (reachable_inv _ _ _ ex_kv_reachable)|].
  split; [exact ex_pins|done].
Qed.

Lemma ex_version : no_nul (str "1").
Proof. repeat constructor; lia. Qed.

Lemma http_system_safe_witness :
  NoDup (answered ex_http_moving) ∧ ∃ arg j, job_of ex_http_moving 7 arg j ∧ waits j.
Proof.
  destruct (http_system_safe ex_avail [] (str "1") ex_gai (λ _ _, true) ex_takes ∅ ex_mem [] None 100 ex_http_moving (λ _, 0) {[7 := ex_move]}
    (λ _, eq_refl) (λ _, eq_refl) ex_version ex_moving_reached) as (_ & Hnd & _ & Hw).
  split; [exact Hnd|]. apply (Hw 7). vm_compute. eexists. reflexivity.
Defined.

(** Its job, whose argument is block 6, and the end that was scheduled by the answer
    to the only SET. *)
Definition ex_job : job := default (mk_job None 0 0 []) (h_jobs ex_http_moving !! 6).

Lemma ex_job_of : job_of ex_http_moving 7 6 ex_job.
Proof. split; vm_compute; reflexivity. Qed.

Lemma http_job_answered_witness :
  ∃ s', drive ex_takes 3 (λ _, (0, ex_now)) 6 ex_http_moving = Ok (tt, s') ∧ 7 ∈ answered s'.
Proof.
  destruct (http_job_answered ex_avail [] (str "1") ex_gai (λ _ _, true) ex_takes ∅ ex_mem [] None 100 ex_http_moving (λ _, 0) {[7 := ex_move]} 7 6 ex_job
    (λ _, eq_refl) (λ _, eq_refl) ex_version ex_moving_reached ex_job_of) as (q & addr & port & keys & Hq & Hask & Hdrive).
  assert (Some ex_move = Some q) as Hq' by exact Hq. assert (q = ex_move) as -> by congruence.
  assert (asked_keys ex_move = Some (str "b", 9, [ex_key])) as Hex by (vm_compute; reflexivity).
  rewrite Hex in Hask. injection Hask as <- <- <-. exact (Hdrive (λ _, (0, ex_now))).
Defined.

Definition ex_answer : http_event := EvJob 6 (EvAnswer 0 ex_now).
Definition ex_http_moved : hstate := state_after (ex_step ex_answer ex_http_moving) ex_http_moving.

Lemma ex_moved_run : ex_step ex_answer ex_http_moving = Ok (tt, ex_http_moved).
Proof. unfold ex_http_moved. vm_compute. reflexivity. Qed.

Lemma ex_answer_ok : ex_ok ex_http_moving (λ _, 0) {[7 := ex_move]} ex_answer (λ _, 0).
Proof. exists ex_job. split; [vm_compute; reflexivity|]. split; [done|]. split; [vm_compute; lia|done]. Qed.

Lemma ex_moved_reached : ex_reach ex_http_moved (λ _, 0) {[7 := ex_move]}.
Proof. exact (http_reach_step _ _ _ _ _ _ _ _ _ _ _ _ _ _ ex_answer _ _ ex_moving_reached ex_answer_ok ex_moved_run). Qed.

Lemma ex_later_ok : ex_ok ex_http_moved (λ _, 0) {[7 := ex_move]} (EvJob 6 EvLater) (λ _, 0).
Proof.
  exists (default (mk_job None 0 0 []) (h_jobs ex_http_moved !! 6)). split; [vm_compute; reflexivity|]. split; [done|]. split; [vm_compute; lia|done].
Qed.

Lemma http_job_answer_witness :
  ∃ s', job_event ex_takes 6 EvLater ex_http_moved = Ok (tt, s') ∧
    (h_replies s' = h_replies ex_http_moved ∨
     ∃ req j q addr port keys code body, job_of ex_http_moved req 6 j ∧ ({[7 := ex_move]} : gmap Z request) !! req = Some q ∧
       asked_keys q = Some (addr, port, keys) ∧
       h_replies s' = h_replies ex_http_moved ++ [(req, code, body)] ∧ (code = EVHTP_RES_200 → (j_sent j).*1.*1 = keys)).
Proof.
  exact (http_job_answer ex_avail [] (str "1") ex_gai (λ _ _, true) ex_takes ∅ ex_mem [] None 100 ex_http_moved (λ _, 0) {[7 := ex_move]} 6 EvLater (λ _, 0)
    (λ _, eq_refl) (λ _, eq_refl) ex_version ex_moved_reached ex_later_ok).
Defined.

(** The key is gone, the request answered with 200, and all memory is given back. *)
Lemma ex_move_done :
  ∃ s', ex_step (EvJob 6 EvLater) ex_http_moved = Ok (tt, s') ∧ h_replies s' = [(7, EVHTP_RES_200, [])] ∧ c_heap (h_c s') = ∅ ∧
    KvInv.store (h_kv s') !! ex_key = None.
Proof. eexists. split; [vm_compute; reflexivity|]. split; [vm_compute; reflexivity|]. split; vm_compute; reflexivity. Qed.

(** ** What the code does not do *)

(** When the buffer is empty before Content-Length bytes were read, reading the body
    goes on for ever: a request with a shorter body stops the server. *)
Lemma short_body_never_ends fuel a n req : 0 < n → ∀ q s bk,
  h_reqs s !! req = Some q → q_in q = [] → c_heap (h_c s) !! a = Some bk →
  read_body fuel req (Some (a, 0)) n 0 s = Fault OutOfFuel.
Proof.
  intros Hn. induction fuel as [|fuel IH]; intros q s bk Hq Hin Hbk; [done|]. cbn [read_body]. rewrite (proj2 (Z.ltb_lt _ _) Hn).
  assert (sto (c_heap (h_c s)) (a, 0) [] = Ok (<[a := bk]> (c_heap (h_c s)))) as Hsto.
  { erewrite sto_Ok; [|exact Hbk|done|cbn; lia]. do 2 f_equal. }
  erewrite bind_run.
  2:{ unfold evbuffer_remove. erewrite bind_run by (by apply get_req_run). rewrite Hin, take_nil. cbn [fmap list_fmap].
      erewrite bind_run; [|apply codec_run; unfold Codec.store; cbn [pplus mbind option_bind]; rewrite padd_0, Hsto; reflexivity].
      erewrite bind_run by reflexivity. rewrite drop_nil. reflexivity. }
  apply (IH (set_in q []) _ bk); [apply lookup_insert_eq|done|apply lookup_insert_eq].
Qed.

(** A parameter "action" without a value is a [NULL] pointer, which is compared. *)
Lemma action_without_value :
  priskv_http_api_acl_cb ex_avail [] ex_gai 7
    (ex_http (mk_request htp_method_GET (str "/api/acl") (Some [(str "action", None)]) None [] [] [] false)) = Fault NullDeref.
Proof. vm_compute. reflexivity. Qed.

(** When the line of the process cannot be read, its ticks are reported although they
    were never set. *)
Lemma ticks_never_set :
  priskv_http_api_info_cb ex_avail [] ex_mem [] None 100 7
    (ex_http (mk_request htp_method_GET (str "/api/info") (Some [(str "item", Some (str "cpu"))]) None [] [] [] false)) = Fault Uninitialised.
Proof. vm_compute. reflexivity. Qed.
